(* ===== verification/_CoqProject ===== *)
-Q . S2P
Prelude.v
Ids.v
Table.v
Frames.v
Notifications.v
Clock.v
Epoch.v
Reclaim.v
FileSlots.v
Miss.v
MissMap.v
Retention.v
Pattern.v
IndexQueue.v
Feedback.v
Alignment.v
WriteArena.v
FileTable.v
Execute.v
ReadVector.v
ReadSpans.v
Slab.v
Driver.v
PoolBackend.v
Product.v
ProductSafety.v
DriverSystem.v
DriverSafety.v
Poll.v
Ring.v
WaitLatch.v
Ledger.v
LedgerLists.v
LedgerSystem.v
LedgerSafety.v
LedgerCalm.v
LedgerTurns.v
FrameCensus.v
PoolCache.v
PoolInv.v
PoolControl.v
PoolReads.v
PoolRoute.v
PoolReclaim.v
PoolDemand.v
PoolRetire.v
PoolPrefetch.v
PoolSpeculate.v
PoolAdmit.v
PoolHints.v
PoolPoll.v
PoolConfig.v
PoolBuild.v
PoolSystem.v
PoolSafety.v
PoolHintSafety.v
