(* ===== verification/Prelude.v ===== *)
(** * dios: a verification library

    dios is a direct-IO driver with a userspace frame pool.  Applications pin pages of
    files; a page that is not resident is read into a frame of a fixed arena, a full
    arena evicts, writes go through a staging arena, and sequential readers have pages
    fetched ahead of them.  This library models the program's own logic and proves what
    keeps it correct.  It is written against the sources under src/src/.

    ** The program's parts

    The pool keeps a page table (page to frame), frame words (residency and generation of
    each frame), a CLOCK hand (eviction order), reader slots and an eviction queue (epoch
    reclamation), a retention table (frames that outlive their guards), a miss table (one
    entry per page being read, with its waiters) and a prefetcher.  The driver keeps
    operations in flight in a slab, files in a generational table, ready and completed
    operations in queues; backends (blocking calls or an io_uring) carry operations out.
    A miss claims a frame and submits a read; a poll executes it and publishes the
    completion; the completion makes the frame resident and wakes the waiters; eviction
    unmaps a frame, queues it for its grace period, and the frame is free again when no
    reader can hold it.

    ** Files of the library and the code they model

    - [Prelude]: panics ([outcome]), machine arithmetic, vectors, bounded loops, tactics.
    - [Ids]: file, page, frame and operation identities, their packing and hash
      (driver.rs, pool/mod.rs, pool/table.rs).
    - [Table]: the open-addressed page table (pool/table.rs) and its refinement of a
      finite map.
    - [Frames]: frame words, linear write tokens, the free stack, transfer bounds
      (pool/frames.rs).
    - [Clock]: second-chance eviction and speculation markers (pool/clock.rs).
    - [Notifications]: the bitmap tree of dirty frames (pool/prefetch/notifications.rs),
      its notifiers and its drain interleaved at every atomic operation.
    - [Epoch], [Reclaim]: reader slots, the global epoch and the eviction queue
      (pool/epoch.rs), then readers and the control thread interleaved at every shared
      access, as pool/mod.rs and pool/prefetch.rs combine them.
    - [FileSlots]: slots with intrusive per-file lists (pool/file_slots.rs,
      pool/frame_pages.rs).
    - [Miss], [MissMap]: the miss table and waiter interests (pool/miss.rs), with the
      tokens of the waiters beside it; then the same table as a finite map of reads, the
      form in which the pool reasons about it.
    - [Retention]: counted handles, the held bit and the release ring
      (pool/retention.rs), threads and control interleaved at every atomic access.
    - [Pattern], [IndexQueue], [Feedback]: the prefetcher's stream detection
      (pool/prefetch/pattern.rs), its index queues and its ordered feedback
      (pool/prefetch/state.rs).
    - [Alignment]: byte alignments (alignment.rs).
    - [WriteArena]: the staging arena (pool/write_arena.rs), scans and releases
      interleaved.
    - [FileTable]: the driver's file table (driver.rs).
    - [Execute]: retries and short transfers of one operation, eager and ring (driver.rs).
    - [ReadVector]: vectored reads and their shared descriptors (driver/read_vector.rs).
    - [Slab]: the completion slab (driver.rs).
    - [Driver]: the critical sections of the driver core and the handlers made of them
      (driver.rs, driver/read_vector.rs, completion.rs).
    - [DriverSystem], [DriverSafety]: those critical sections in any order, the invariant
      of the driver and its theorems.
    - [Poll], [Ring]: whole polling passes over an eager backend and over the ring.
    - [WaitLatch]: the latch that wakes the thread waiting for the pool (product.rs), its
      wakers and waiters interleaved.
    - [ReadSpans]: the spans of vectored reads, published page by page in order, and
      their slots and routes (pool/read_spans.rs).
    - [PoolBackend]: the interface of the driver to the pool (the trait of pool/miss.rs)
      as a class, what the pool relies on as [BackendLaws], and a small instance.
    - [Product], [ProductSafety]: registered files, leases, writes and barrier syncs of
      the pool (pool/mod.rs, product.rs), then their critical sections in any order.
    - [Ledger], [LedgerLists], [LedgerSystem], [LedgerSafety]: the prefetch ledger
      (pool/prefetch/state.rs), the lists threaded through its entries, its invariant and
      its theorems.  [LedgerCalm] and [LedgerTurns] restate its operations for the pool:
      what each leaves alone and what the prediction pass needs.
    - [FrameCensus]: every frame in exactly one of the places a state of it may be.
    - [PoolCache], [PoolControl]: the control state and the passes over it: demand misses,
      routing of completions, claiming, eviction, reclamation, retirement (pool/mod.rs,
      pool/prefetch.rs, pool/read_spans.rs).  [PoolPrefetch]: speculative admission,
      hints, the prediction pass and the polls.  [PoolConfig], [PoolBuild]: the builder,
      its validation and the construction of the pool.
    - [PoolInv], [PoolReads], [PoolRoute], [PoolReclaim], [PoolDemand], [PoolRetire],
      [PoolSpeculate], [PoolAdmit], [PoolHints], [PoolPoll]: the invariant of the composed
      pool and that every pass keeps it, in the order in which the passes build on each
      other.
    - [PoolSystem], [PoolSafety], [PoolHintSafety]: the calls on the pool in any order and
      the theorems about all pools they reach.

    A component's state is a [Record] with the fields of the Rust struct and one
    definition per method, under the method's name.  An unsigned integer is an [N] whose
    additions and subtractions are checked ([add_], [sub_]), wrapped or saturated as the
    source writes them; assertions, indexing and [expect] are [Panic] when they fail.  A
    structure that several threads share is a step relation: one step is one atomic access
    where the code uses atomics ([Notifications], [Reclaim], [Retention], [WriteArena],
    the claim of a frame in [Frames]), and one critical section where it uses a mutex
    ([Miss], [FileTable], [DriverSystem], [ProductSafety], [PoolSystem], [WaitLatch]).  Shared accesses are sequentially consistent;
    the acquire and release orderings of the source are not weakened further.

    The pool is proved over interfaces: the driver is any instance of [BackendLaws], the
    retention any instance of [RetainerLaws] ([PoolReclaim]).  The pool's invariant
    [pool_inv] joins the invariants of the components with the ghost state that ties them
    together: the map of resident pages, the map of reads, the operations in flight and
    the routes of their completions.

    ** What the theorems show

    - The composed pool: on every pool built from a validated configuration, whatever
      sequence of demands, hints, polls, retirements, writes and releases comes, no call
      panics ([pool_calls_never_panic]); a guarded frame is left alone
      ([guarded_frame_intact]); every frame is in exactly one place and the read credits
      are the pending reads ([frames_conserved]); a page has at most one read
      ([one_read_per_page]); a retired file leaves nothing behind
      ([retired_file_forgotten]); [get], [ready] and the hints answer what they promise
      ([get_answers], [ready_answers], [hint_report_exact]), and a hint unmaps only
      predictions that no reader has touched ([hint_spares_demanded]).
    - Files and product operations: a sync is a barrier for the writes before it, results
      are delivered once, a leased file stays open, the lock-free check of a file agrees
      with the registry ([ProductSafety]).
    - Prediction: the ledger never panics and its credits are exact ([LedgerSafety]); the
      span table refines an abstract routing table ([ReadSpans]).
    - Configuration: validation accepts exactly the configurations with enough frames
      ([validate_decides]), and those build ([validated_pool_builds]).
    - Memory safety of frames: a guarded frame keeps its bytes and identity
      ([guard_grace_period]), a frame has one writer ([write_token_exclusive]), a stamp
      is never validated for another identity ([stamp_validates_identity]), transfers
      stay in their frame ([transfers_disjoint]), handles pin their frame within a budget
      ([retained_never_reclaimed], [retained_frames_bounded]).
    - The driver: no reachable state makes a critical section panic, every token is
      issued and finished once, admission is exact, the queues stay within their
      capacity, files retire when nobody uses them, teardown releases what is held and
      retires the files that waited for it ([DriverSafety]); a polling pass ends and makes the progress it promises ([Poll],
      [Ring]); one operation is executed to its end within its retries ([Execute]).
    - Data structures: the page table is a finite map of fixed capacity, the index queue a list, the
      per-file lists exactly the live entries, the feedback sort a stable sort.
    - Progress: sweeps offer every frame, quiescent readers let every evicted frame be
      reclaimed, a drain pass reclaims the held frames without handles, notifications and wakes are not lost
      ([no_notification_lost], [no_wake_lost]).
    - Misses: one read per page, exact waiter counts, eviction waits for waiters,
      completions always route.

    ** Bounds

    Loops that the source bounds run under [for_range] with the source's bound, and a
    theorem says the bound is not reached ([drain_bounded], [sweep_second_chance]).  The
    retry loop of [Execute] is given [len + retry_bound + 1] attempts, which
    [write_executes_completely] shows to be enough.  The driver's theorems assume a queue
    capacity [Q] with [0 < Q] and [3 * Q <= u32::MAX], without which the sum the admission
    test computes could overflow, and generations that have not been exhausted: the
    counters that wrap after 2^32 reuses of one slot, and the tickets and incarnations the
    source itself asserts not to run out of.  A backend is assumed to report no more bytes
    than it was asked for, and a kernel ring to complete each submitted entry at most
    once, in the pass that submits it or in a later one.

    The pool's 64-bit counters (epochs, frame generations, ledger stamps and statistics)
    are covered by a budget: [PoolSystem] gives each call a cost, the most its counters
    may advance by, and the theorems hold for sequences whose costs stay within
    [budget = 2^60 / (frames + 2)].  The bound is generous rather than tight: a poll is
    charged for all its bounded loops, whether they run or not.

    ** Not modelled

    - That the driver model is an instance of [BackendLaws] and the retention model an
      instance of [RetainerLaws]: both are proved on their own, and the laws state what
      the pool relies on of them.
    - Waits of the pool ([poll_wait]), its teardown, and the observation of resident
      pages.
    - Waiting with deadlines and the event source of the kernel (the waits of driver.rs
      and pool/write_arena.rs, the eventfd of product.rs): they depend on clocks and on
      the host's scheduler.  The latch they use is modelled.
    - System calls and their error reporting (backend/, open.rs, allocation.rs,
      memlock.rs), which are parameters where the driver depends on them.
    - Test doubles and measurements (mock.rs, pool/loom_model.rs, bench.rs,
      driver/observation.rs). *)
From stdpp Require Import prelude gmap list.
From Stdlib Require Import ZArith NArith Lia.

Open Scope N_scope.

(** ** Panics

    [assert!], [expect], [panic!], slice indexing and overflowing plain
    arithmetic all abort the calling operation.  A modelled operation therefore
    returns an [outcome]: the value it computes, or [Panic].  Checked and
    fallible operations of the source that return [Option]/[Result] keep
    returning [option]/[sum]; only a process-level panic is [Panic]. *)

Inductive outcome (A : Type) : Type :=
  | Done (a : A)
  | Panic.
Arguments Done {A} a.
Arguments Panic {A}.

#[global] Instance outcome_ret : MRet outcome := @Done.
#[global] Instance outcome_bind : MBind outcome :=
  λ A B f m, match m with Done a => f a | Panic => Panic end.
#[global] Instance outcome_fmap : FMap outcome :=
  λ A B f m, match m with Done a => Done (f a) | Panic => Panic end.

(** [assert!(b)] (and [debug_assert!(b)], which the model always checks). *)
Definition assertb (b : bool) : outcome unit :=
  if b then Done tt else Panic.

(** [opt.expect(..)]. *)
Definition expect {A} (o : option A) : outcome A :=
  match o with Some a => Done a | None => Panic end.

Lemma outcome_bind_Done {A B} (m : outcome A) (f : A → outcome B) b :
  m ≫= f = Done b ↔ ∃ a, m = Done a ∧ f a = Done b.
Proof. destruct m; simpl; naive_solver. Qed.

Lemma outcome_bind_assoc {A B C} (m : outcome A) (f : A → outcome B) (g : B → outcome C) :
  (m ≫= f) ≫= g = m ≫= (λ a, f a ≫= g).
Proof. by destruct m. Qed.

Lemma assertb_Done b u : assertb b = Done u ↔ b = true.
Proof. destruct b, u; naive_solver. Qed.

Lemma assertb_true b : b = true → assertb b = Done tt.
Proof. by intros ->. Qed.

Lemma expect_Done {A} (o : option A) a : expect o = Done a ↔ o = Some a.
Proof. destruct o; naive_solver. Qed.

(** ** Machine integers

    Unsigned integers are [N] values; the width appears where the source's
    arithmetic can leave it. *)

Definition U32_MAX : N := 2 ^ 32 - 1.
Definition U64_MAX : N := 2 ^ 64 - 1.

(** [a.checked_add(b)] / [checked_sub] / [checked_mul] at maximum [m]. *)
Definition checked_add (m a b : N) : option N :=
  if a + b <=? m then Some (a + b) else None.
Definition checked_sub (a b : N) : option N :=
  if b <=? a then Some (a - b) else None.
Definition checked_mul (m a b : N) : option N :=
  if a * b <=? m then Some (a * b) else None.

(** Plain [a + b] and [a - b], which panic outside the width. *)
Definition add_ (m a b : N) : outcome N := expect (checked_add m a b).
Definition sub_ (a b : N) : outcome N := expect (checked_sub a b).

Definition saturating_add (m a b : N) : N := N.min m (a + b).
Definition saturating_mul (m a b : N) : N := N.min m (a * b).
Definition saturating_sub (a b : N) : N := a - b.
Definition wrapping_add (bits a b : N) : N := (a + b) mod 2 ^ bits.
Definition wrapping_sub (bits a b : N) : N := (a + 2 ^ bits - b) mod 2 ^ bits.
Definition wrapping_mul (bits a b : N) : N := (a * b) mod 2 ^ bits.

Lemma wrapping_add_small bits a b : a + b < 2 ^ bits → wrapping_add bits a b = a + b.
Proof. intros H. by apply N.mod_small. Qed.

Definition is_power_of_two (x : N) : bool :=
  negb (x =? 0) && (N.land x (x - 1) =? 0).

(** [x.checked_next_power_of_two()]: the least power of two [>= x]. *)
Definition checked_next_power_of_two (m x : N) : option N :=
  let p := 2 ^ N.log2_up x in if p <=? m then Some p else None.

Lemma checked_add_Some m a b c :
  checked_add m a b = Some c ↔ c = a + b ∧ a + b ≤ m.
Proof. unfold checked_add. destruct (N.leb_spec (a + b) m); naive_solver lia. Qed.

Lemma checked_sub_Some a b c : checked_sub a b = Some c ↔ c = a - b ∧ b ≤ a.
Proof. unfold checked_sub. destruct (N.leb_spec b a); naive_solver lia. Qed.

Lemma add_Done m a b c : add_ m a b = Done c ↔ c = a + b ∧ a + b ≤ m.
Proof. unfold add_. by rewrite expect_Done, checked_add_Some. Qed.

Lemma sub_Done a b c : sub_ a b = Done c ↔ c = a - b ∧ b ≤ a.
Proof. unfold sub_. by rewrite expect_Done, checked_sub_Some. Qed.

Lemma add_ok m a b : a + b ≤ m → add_ m a b = Done (a + b).
Proof. intros. by apply add_Done. Qed.

Lemma sub_ok a b : b ≤ a → sub_ a b = Done (a - b).
Proof. intros. by apply sub_Done. Qed.

(** A power of two and its mask. *)
Lemma is_power_of_two_spec x :
  is_power_of_two x = true ↔ ∃ k, x = 2 ^ k.
Proof.
  unfold is_power_of_two. rewrite andb_true_iff, negb_true_iff, N.eqb_neq, N.eqb_eq.
  split.
  - intros [Hx Hand]. exists (N.log2 x).
    destruct (N.eq_dec x (2 ^ N.log2 x)) as [|Hne]; [done|exfalso].
    pose proof (N.log2_spec x ltac:(lia)) as [Hlo Hhi].
    assert (N.log2 (x - 1) = N.log2 x) as Hlog
      by (apply N.log2_unique; lia).
    assert (N.testbit (N.land x (x - 1)) (N.log2 x) = true) as Hb.
    { rewrite N.land_spec, N.bit_log2, <- Hlog, N.bit_log2 by lia. done. }
    rewrite Hand, N.bits_0 in Hb. done.
  - intros [k ->]. split; [pose proof (N.pow_nonzero 2 k); lia|].
    apply N.bits_inj; intros i. rewrite N.land_spec, N.bits_0.
    destruct (N.eq_dec i k) as [->|Hne].
    + rewrite N.sub_1_r, <- N.ones_equiv, N.ones_spec_high by lia. by rewrite andb_false_r.
    + by rewrite N.pow2_bits_false by done.
Qed.

Lemma land_mask k a : N.land a (2 ^ k - 1) = a mod 2 ^ k.
Proof. rewrite N.sub_1_r, <- N.ones_equiv. apply N.land_ones. Qed.

(** Reducing modulo [2^k] forgets an earlier reduction modulo [2^n], [k <= n]. *)
Lemma mod_pow2_mod x k n : k ≤ n → (x mod 2 ^ n) mod 2 ^ k = x mod 2 ^ k.
Proof.
  intros Hk. rewrite <- !N.land_ones, <- N.land_assoc. f_equal.
  rewrite N.land_comm, N.land_ones. apply N.mod_small. rewrite N.ones_equiv.
  pose proof (N.pow_le_mono_r 2 k n). pose proof (N.pow_nonzero 2 k). lia.
Qed.

(** The masked wrapping difference of two slots of a power-of-two ring. *)
Lemma wrapping_sub_mod k a b :
  k ≤ 32 → a < 2 ^ k → b < 2 ^ k →
  (b ≤ a ∧ wrapping_sub 32 a b mod 2 ^ k + b = a) ∨
  (a < b ∧ wrapping_sub 32 a b mod 2 ^ k + b = a + 2 ^ k).
Proof.
  intros Hk Ha Hb. unfold wrapping_sub. rewrite mod_pow2_mod by done.
  assert (2 ^ 32 = 2 ^ (32 - k) * 2 ^ k) as Hp.
  { rewrite <- N.pow_add_r. f_equal. lia. }
  assert (2 ^ (32 - k) ≠ 0) by (apply N.pow_nonzero; lia).
  generalize dependent (2 ^ (32 - k)). intros q -> Hq.
  generalize dependent (2 ^ k). intros c Ha Hb.
  destruct (N.le_gt_cases b a).
  - left. split; [done|].
    replace (a + q * c - b) with (a - b + q * c) by lia.
    rewrite N.Div0.mod_add, N.mod_small; lia.
  - right. split; [done|].
    replace (a + q * c - b) with (a + c - b + (q - 1) * c) by nia.
    rewrite N.Div0.mod_add, N.mod_small; lia.
Qed.

(** ** Bounded loops

    Every [for _ in 0..n] of the source with an early exit is an iteration of
    its body at most [n] times.  [for_range] iterates on the binary
    representation of [n], so that a loop that exits early also evaluates
    quickly; [for_range_nat] relates it to plain iteration. *)

Inductive flow (S R : Type) : Type :=
  | Continue (s : S)
  | Return (r : R).
Arguments Continue {S R} s.
Arguments Return {S R} r.

Section loops.
Context {S R : Type} (body : S → outcome (flow S R)).

Definition then_loop (next : S → outcome (flow S R)) (r : outcome (flow S R)) :
    outcome (flow S R) :=
  match r with Done (Continue s) => next s | r => r end.

Fixpoint for_nat (n : nat) (s : S) : outcome (flow S R) :=
  match n with
  | O => Done (Continue s)
  | Datatypes.S n => then_loop (for_nat n) (body s)
  end.

Fixpoint for_pos (p : positive) (s : S) : outcome (flow S R) :=
  match p with
  | xH => body s
  | xO p => then_loop (for_pos p) (for_pos p s)
  | xI p => then_loop (λ s, then_loop (for_pos p) (for_pos p s)) (body s)
  end.

Definition for_range (n : N) (s : S) : outcome (flow S R) :=
  match n with N0 => Done (Continue s) | Npos p => for_pos p s end.

Lemma for_nat_add n m s :
  for_nat (n + m)%nat s = then_loop (for_nat m) (for_nat n s).
Proof.
  revert s; induction n as [|n IH]; intros s; [done|]. simpl.
  destruct (body s) as [[s'|r]|]; simpl; auto.
Qed.

Lemma for_pos_nat p s : for_pos p s = for_nat (Pos.to_nat p) s.
Proof.
  revert s; induction p as [p IH|p IH|]; intros s; simpl for_pos.
  - rewrite Pos2Nat.inj_xI. simpl. destruct (body s) as [[s'|r]|]; simpl; try done.
    rewrite Nat.add_0_r, for_nat_add, <- IH.
    destruct (for_pos p s') as [[s''|r]|]; simpl; auto.
  - rewrite Pos2Nat.inj_xO. simpl. rewrite Nat.add_0_r, for_nat_add, <- IH.
    destruct (for_pos p s) as [[s''|r]|]; simpl; auto.
  - rewrite Pos2Nat.inj_1. simpl. by destruct (body s) as [[]|].
Qed.

Lemma for_range_nat n s : for_range n s = for_nat (N.to_nat n) s.
Proof. destruct n; simpl; [done|]. apply for_pos_nat. Qed.

(** Loop rule: an invariant [I] (indexed by the iterations left) that the body
    preserves, and under which a [Return] establishes [Q], gives [Q] on an
    early exit and [I 0] on exhaustion; the body never panics under [I]. *)
Lemma for_nat_rule (I : nat → S → Prop) (Q : R → Prop) n s :
  (∀ m s, I (Datatypes.S m) s →
     (∃ s', body s = Done (Continue s') ∧ I m s') ∨
     (∃ r, body s = Done (Return r) ∧ Q r)) →
  I n s →
  (∃ s', for_nat n s = Done (Continue s') ∧ I O s') ∨
  (∃ r, for_nat n s = Done (Return r) ∧ Q r).
Proof.
  intros Hbody. revert s; induction n as [|n IH]; intros s HI; [eauto|].
  destruct (Hbody n s HI) as [(s' & Hs & HI')|(r & Hs & HQ)]; simpl; rewrite Hs; simpl; eauto.
Qed.
End loops.

(** ** Slices

    Indexing past the end of a slice panics; [vset] is an indexed store. *)

Definition vget {A} (l : list A) (i : N) : outcome A := expect (l !! N.to_nat i).
Definition vset {A} (l : list A) (i : N) (x : A) : outcome (list A) :=
  if (N.to_nat i <? length l)%nat then Done (<[N.to_nat i := x]> l) else Panic.

Definition vlen {A} (l : list A) : N := N.of_nat (length l).

Lemma vget_Done {A} (l : list A) i x : vget l i = Done x ↔ l !! N.to_nat i = Some x.
Proof. apply expect_Done. Qed.

Lemma vget_ok {A} (l : list A) i : i < vlen l → ∃ x, vget l i = Done x ∧ l !! N.to_nat i = Some x.
Proof.
  unfold vlen. intros Hi. destruct (lookup_lt_is_Some_2 l (N.to_nat i)) as [x Hx]; [lia|].
  exists x. by rewrite vget_Done.
Qed.

Lemma vset_Done {A} (l l' : list A) i x :
  vset l i x = Done l' ↔ l' = <[N.to_nat i := x]> l ∧ i < vlen l.
Proof. unfold vset, vlen. destruct (Nat.ltb_spec (N.to_nat i) (length l)); naive_solver lia. Qed.

Lemma vset_ok {A} (l : list A) i x :
  i < vlen l → vset l i x = Done (<[N.to_nat i := x]> l).
Proof. intros. by apply vset_Done. Qed.

Lemma vlen_insert {A} (l : list A) i x : vlen (<[i := x]> l) = vlen l.
Proof. unfold vlen. by rewrite length_insert. Qed.

Lemma vget_lt {A} (l : list A) i x : l !! N.to_nat i = Some x → i < vlen l.
Proof. intros H%lookup_lt_Some. unfold vlen. lia. Qed.

Lemma N_to_nat_ne (i j : N) : i ≠ j → N.to_nat i ≠ N.to_nat j.
Proof. lia. Qed.

(** ** Counting

    [countb p l] is the number of elements of [l] that satisfy [p]; a single
    store changes it by at most one. *)

Definition countb {A} (p : A → bool) (l : list A) : nat := length (List.filter p l).

Lemma countb_insert {A} (p : A → bool) (l : list A) i x y :
  l !! i = Some x →
  (countb p (<[i := y]> l) + Nat.b2n (p x) = countb p l + Nat.b2n (p y))%nat.
Proof.
  revert i; induction l as [|a l IH]; intros [|i] Hx; simplify_eq/=; unfold countb in *; simpl.
  - destruct (p x), (p y); simpl; lia.
  - specialize (IH _ Hx). destruct (p a); simpl; lia.
Qed.

Lemma countb_le {A} (p : A → bool) (l : list A) : (countb p l ≤ length l)%nat.
Proof. unfold countb. induction l as [|a l IH]; simpl; [lia|]. destruct (p a); simpl; lia. Qed.

Lemma countb_lt {A} (p : A → bool) (l : list A) i x :
  l !! i = Some x → p x = false → (countb p l < length l)%nat.
Proof.
  revert i; induction l as [|a l IH]; intros [|i] Hx Hp; simplify_eq/=; unfold countb in *; simpl.
  - rewrite Hp. pose proof (countb_le p l). unfold countb in *. lia.
  - specialize (IH _ Hx Hp). destruct (p a); simpl; lia.
Qed.

Lemma countb_all {A} (p : A → bool) (l : list A) :
  (∀ i x, l !! i = Some x → p x = true) → countb p l = length l.
Proof.
  unfold countb. induction l as [|a l IH]; intros H; simpl; [done|].
  rewrite (H 0%nat a eq_refl). simpl. f_equal. apply IH. intros i x Hx. exact (H (S i) x Hx).
Qed.

Lemma countb_none {A} (p : A → bool) (l : list A) :
  (∀ i x, l !! i = Some x → p x = false) → countb p l = 0%nat.
Proof.
  unfold countb. induction l as [|a l IH]; intros H; simpl; [done|].
  rewrite (H 0%nat a eq_refl). apply IH. intros i x Hx. exact (H (S i) x Hx).
Qed.

(** Keys produced at most once along a list are duplicate free, and a partial
    projection keeps as many elements as it is defined on. *)
Lemma NoDup_omap_fst {A K V} (f : A → option (K * V)) (l : list A) :
  (∀ i j x y k a b, l !! i = Some x → l !! j = Some y →
     f x = Some (k, a) → f y = Some (k, b) → i = j) →
  NoDup (omap f l).*1.
Proof.
  induction l as [|x l IH]; intros Hu; [constructor|]. simpl.
  assert (NoDup (omap f l).*1) as Hl.
  { apply IH. intros i j y z k a b Hi Hj Hy Hz.
    specialize (Hu (S i) (S j) y z k a b Hi Hj Hy Hz). by injection Hu. }
  destruct (f x) as [[k a]|] eqn:Hx; [|done]. simpl. constructor; [|done].
  intros ([k' b] & -> & (y & Hy & Hfy)%list_elem_of_omap)%list_elem_of_fmap.
  apply list_elem_of_lookup in Hy as [j Hj].
  specialize (Hu 0%nat (S j) x y k' a b eq_refl Hj Hx Hfy). discriminate.
Qed.

Lemma length_omap_countb {A B} (f : A → option B) (l : list A) :
  length (omap f l) = countb (λ x, bool_decide (is_Some (f x))) l.
Proof.
  unfold countb. induction l as [|x l IH]; [done|]. simpl.
  destruct (f x); simpl; [f_equal|]; apply IH.
Qed.

(** ** Automation *)

(** The primitives are rewritten by their lemmas, never unfolded by [simpl]. *)
#[global] Arguments checked_add : simpl never.
#[global] Arguments checked_sub : simpl never.
#[global] Arguments checked_mul : simpl never.
#[global] Arguments add_ : simpl never.
#[global] Arguments sub_ : simpl never.
#[global] Arguments saturating_add : simpl never.
#[global] Arguments saturating_mul : simpl never.
#[global] Arguments wrapping_add : simpl never.
#[global] Arguments wrapping_sub : simpl never.
#[global] Arguments wrapping_mul : simpl never.
#[global] Arguments vget {A} l i : simpl never.
#[global] Arguments vset {A} l i x : simpl never.
#[global] Arguments for_range {S R} body n s : simpl never.
#[global] Arguments U32_MAX : simpl never.
#[global] Arguments U64_MAX : simpl never.

Create HintDb dios.
Create Rewrite HintDb dios.
#[export] Hint Resolve vget_lt N_to_nat_ne : dios.
#[export] Hint Rewrite @vlen_insert @length_insert : dios.

(** Inverts a chain of successful binds in the context. *)
Ltac inv_done :=
  repeat match goal with
  | H : mbind _ _ = Done _ |- _ =>
      apply outcome_bind_Done in H; destruct H as (? & ? & ?)
  | H : assertb _ = Done _ |- _ => apply assertb_Done in H
  | H : expect _ = Done _ |- _ => apply expect_Done in H
  | H : vget _ _ = Done _ |- _ => apply vget_Done in H
  | H : vset _ _ _ = Done _ |- _ => apply vset_Done in H as [? ?]
  | H : add_ _ _ _ = Done _ |- _ => apply add_Done in H as [? ?]
  | H : sub_ _ _ = Done _ |- _ => apply sub_Done in H as [? ?]
  | H : mret _ = Done _ |- _ => injection H as H
  | H : Done _ = Done _ |- _ => injection H as H
  | H : Panic = Done _ |- _ => discriminate H
  | H : _ && _ = true |- _ => apply andb_true_iff in H as [? ?]
  end; simplify_eq.

(** The same through the pairs an operation returns. *)
Ltac inv_pairs :=
  repeat (progress (inv_done; repeat match goal with x : (_ * _)%type |- _ => destruct x end)).

(** Turns the boolean tests of the context into propositions. *)
Ltac reflect_bools :=
  repeat match goal with
  | H : (_ =? _) = true |- _ => apply N.eqb_eq in H
  | H : (_ =? _) = false |- _ => apply N.eqb_neq in H
  | H : (_ <=? _) = true |- _ => apply N.leb_le in H
  | H : (_ <=? _) = false |- _ => apply N.leb_gt in H
  | H : (_ <? _) = true |- _ => apply N.ltb_lt in H
  | H : (_ <? _) = false |- _ => apply N.ltb_ge in H
  | H : negb _ = true |- _ => apply negb_true_iff in H
  | H : negb _ = false |- _ => apply negb_false_iff in H
  | H : bool_decide _ = true |- _ => apply bool_decide_eq_true in H
  | H : bool_decide _ = false |- _ => apply bool_decide_eq_false in H
  end.

(** Reduces the monadic structure of the goal and nothing else. *)
Tactic Notation "mred" :=
  cbn beta iota delta [mbind outcome_bind mret outcome_ret fmap outcome_fmap assertb expect].
Tactic Notation "mred" "in" hyp(H) :=
  cbn beta iota delta [mbind outcome_bind mret outcome_ret fmap outcome_fmap assertb expect] in H.

(** Filters that keep everything, or nothing. *)
Lemma filter_all {A} (P : A → Prop) `{!∀ x, Decision (P x)} (l : list A) :
  (∀ x, x ∈ l → P x) → filter P l = l.
Proof.
  induction l as [|x l IH]; intros Hl; [done|].
  rewrite filter_cons_True by (apply Hl; set_solver). f_equal. apply IH. set_solver.
Qed.

Lemma filter_none {A} (P : A → Prop) `{!∀ x, Decision (P x)} (l : list A) :
  (∀ x, x ∈ l → ¬ P x) → filter P l = [].
Proof.
  induction l as [|x l IH]; intros Hl; [done|].
  rewrite filter_cons_False by (apply Hl; set_solver). apply IH. set_solver.
Qed.

(** Distinct numbers below a bound. *)
Lemma NoDup_bounded (l : list N) n : NoDup l → (∀ i, i ∈ l → i < N.of_nat n) → (length l ≤ n)%nat.
Proof.
  intros Hd Hb. replace n with (length (N.of_nat <$> seq 0 n)) by by rewrite length_fmap, length_seq.
  apply submseteq_length, NoDup_submseteq; [done|]. intros i Hi. specialize (Hb i Hi).
  apply list_elem_of_fmap. exists (N.to_nat i). split; [lia|]. apply elem_of_seq. lia.
Qed.
