(* ===== verification/Ids.v ===== *)
(** * Identities: files, pages, frames, driver operations

    [FileId] (src/src/driver.rs), [PageId] (src/src/pool/mod.rs), the packed
    [OpToken] (src/src/driver.rs) and the page hash (src/src/pool/table.rs).
    Frame indexes ([ReadFrameIdx]) are the [u32] they wrap. *)
From stdpp Require Import prelude countable.
From Stdlib Require Import NArith Lia.
From S2P Require Import Prelude.

Open Scope N_scope.

(** A generational file identity: driver instance, fd-table slot, generation. *)
Record FileId := mkFileId {
  fid_driver : N;
  fid_slot : N;
  fid_generation : N;
}.

(** The stable address of one granule of a file. *)
Record PageId := mkPageId {
  pg_file : FileId;
  pg_granule_idx : N;
}.

#[global] Instance FileId_eq_dec : EqDecision FileId.
Proof. solve_decision. Defined.
#[global] Instance PageId_eq_dec : EqDecision PageId.
Proof. solve_decision. Defined.
#[global] Instance FileId_countable : Countable FileId.
Proof.
  apply (inj_countable' (λ f, (fid_driver f, fid_slot f, fid_generation f))
    (λ '(d, s, g), mkFileId d s g)). by intros [].
Defined.
#[global] Instance PageId_countable : Countable PageId.
Proof.
  apply (inj_countable' (λ p, (pg_file p, pg_granule_idx p)) (λ '(f, g), mkPageId f g)).
  by intros [].
Defined.

(** [ReadFrameIdx(u32)]. *)
Definition ReadFrameIdx : Type := N.

(** [FileId::aliases_slot]: panics across drivers. *)
Definition aliases_slot (self other : FileId) : outcome bool :=
  assertb (fid_driver self =? fid_driver other);;
  Done (fid_slot self =? fid_slot other).

(** ** Operation tokens

    A completion-slab slot in the low word and its generation in the high word
    of the 64-bit ring [user_data]. *)

Definition OpToken : Type := N.

Definition OpToken_new (slot generation : N) : OpToken :=
  N.lor (N.shiftl generation 32) slot.

Definition OpToken_slot (t : OpToken) : N := N.land t U32_MAX.

Lemma OpToken_new_add slot generation :
  slot ≤ U32_MAX → OpToken_new slot generation = generation * 2 ^ 32 + slot.
Proof.
  intros Hs. unfold OpToken_new. rewrite <- N.shiftl_mul_pow2.
  assert (N.land (N.shiftl generation 32) slot = 0) as Hd.
  { apply N.bits_inj; intros i. rewrite N.land_spec, N.bits_0.
    destruct (N.lt_ge_cases i 32).
    - by rewrite N.shiftl_spec_low.
    - assert (slot = slot mod 2 ^ 32) as -> by (rewrite N.mod_small; unfold U32_MAX in Hs; lia).
      rewrite N.mod_pow2_bits_high by lia. apply andb_false_r. }
  symmetry. rewrite N.add_nocarry_lxor by done. by apply N.lxor_lor.
Qed.

Lemma OpToken_slot_new slot generation :
  slot ≤ U32_MAX → OpToken_slot (OpToken_new slot generation) = slot.
Proof.
  intros Hs. rewrite OpToken_new_add by done. unfold OpToken_slot, U32_MAX in *.
  rewrite (land_mask 32), N.add_comm, N.Div0.mod_add, N.mod_small; lia.
Qed.

Lemma OpToken_new_inj s1 g1 s2 g2 :
  s1 ≤ U32_MAX → s2 ≤ U32_MAX → OpToken_new s1 g1 = OpToken_new s2 g2 → s1 = s2 ∧ g1 = g2.
Proof.
  intros H1 H2. rewrite !OpToken_new_add by done. unfold U32_MAX in *. lia.
Qed.

(** ** The page hash *)

Definition mix (word : N) : N :=
  let word := wrapping_mul 64 (N.lxor word (N.shiftr word 30)) 0xbf58476d1ce4e5b9 in
  let word := wrapping_mul 64 (N.lxor word (N.shiftr word 27)) 0x94d049bb133111eb in
  N.lxor word (N.shiftr word 31).

Definition page_hash (page : PageId) : N :=
  let file := pg_file page in
  let hash := 0 in
  let hash := mix (N.lxor hash (fid_driver file)) in
  let hash := mix (N.lxor hash (fid_slot file)) in
  let hash := mix (N.lxor hash (fid_generation file)) in
  mix (N.lxor hash (pg_granule_idx page)).

#[global] Arguments mix : simpl never.
#[global] Arguments page_hash : simpl never.
