(* ===== verification/Table.v ===== *)
(** * The page table: an open-addressed [PageId -> ReadFrameIdx] map

    Models src/src/pool/table.rs: the seqlock cell as its single writer and a
    quiescent reader see it ([Cell], [cell_write], [cell_read]), and the table
    with linear probing and backward-shift deletion.  The theorems show that
    under the probe-chain invariant [table_wf] the table refines a finite map
    ([table_rep]): lookup, insert and remove are the finite-map operations, none
    of them panics except an insertion of a new key into a full table, and every
    operation restores the invariant. *)
From stdpp Require Import prelude gmap.
From Stdlib Require Import NArith Lia.
From S2P Require Import Prelude Ids.

Open Scope N_scope.

Module PageTable.

(** ** Definitions *)

Definition SEQLOCK_READ_SPINS_MAX : N := 1000000.

Record Cell := mkCell {
  seq : N;
  occupied : bool;
  driver : N;
  file_slot : N;
  file_generation : N;
  granule_idx : N;
  frame : N;
}.

Definition Cell_vacant : Cell := mkCell 0 false 0 0 0 0 0.

Definition entry : Type := PageId * ReadFrameIdx.

(** [Cell::write]: the version goes odd, the fields are stored, the version goes
    to the next even value.  The version is a [u64] counter, advanced with plain [+]:
    the model takes the wrap-around of a build without overflow checks.  A build with
    them differs only after 2^63 writes to one cell, where it panics. *)
Definition cell_write (c : Cell) (e : option entry) : outcome Cell :=
  let version := seq c in
  assertb (N.land version 1 =? 0);;
  match e with
  | Some (page, fr) =>
      let file := pg_file page in
      Done (mkCell (wrapping_add 64 version 2) true (fid_driver file) (fid_slot file)
              (fid_generation file) (pg_granule_idx page) fr)
  | None =>
      Done (mkCell (wrapping_add 64 version 2) false (driver c) (file_slot c)
              (file_generation c) (granule_idx c) (frame c))
  end.

(** The fields of a cell as the entry they encode. *)
Definition cell_entry (c : Cell) : option entry :=
  if occupied c then
    Some (mkPageId (mkFileId (driver c) (file_slot c) (file_generation c)) (granule_idx c),
          frame c)
  else None.

(** [Cell::read] against a quiescent cell: retry while the version is odd. *)
Definition cell_read (c : Cell) : outcome (option entry) :=
  r ← for_range (λ _ : unit,
        let before := seq c in
        if negb (N.land before 1 =? 0) then Done (Continue tt) else
        let snapshot := cell_entry c in
        if seq c =? before then Done (Return snapshot) else Done (Continue tt))
      SEQLOCK_READ_SPINS_MAX tt;
  match r with Return snapshot => Done snapshot | Continue _ => Panic end.

Record PageTable := mkPageTable {
  slots : list Cell;
  capacity : N;
  mask : N;
  len : N;
}.

Definition with_slots (t : PageTable) (s : list Cell) : PageTable :=
  mkPageTable s (capacity t) (mask t) (len t).
Definition with_len (t : PageTable) (n : N) : PageTable :=
  mkPageTable (slots t) (capacity t) (mask t) n.

(** [PageTable::try_with_frame_count], with an allocation that succeeds. *)
Definition try_with_frame_count (frame_count : N) : outcome PageTable :=
  assertb (0 <? frame_count);;
  cap ← expect (checked_mul U32_MAX frame_count 2 ≫= checked_next_power_of_two U32_MAX);
  Done (mkPageTable (replicate (N.to_nat cap) Cell_vacant) cap (cap - 1) 0).

Definition home_slot (t : PageTable) (page : PageId) : N :=
  N.land (page_hash page) (mask t).

Definition slot_read (t : PageTable) (i : N) : outcome (option entry) :=
  c ← vget (slots t) i; cell_read c.

Definition slot_write (t : PageTable) (i : N) (e : option entry) : outcome PageTable :=
  c ← vget (slots t) i;
  c' ← cell_write c e;
  s ← vset (slots t) i c';
  Done (with_slots t s).

(** [(slot + 1) & self.mask] *)
Definition next_slot (t : PageTable) (i : N) : outcome N :=
  s ← add_ U32_MAX i 1; Done (N.land s (mask t)).

Definition lookup_body (t : PageTable) (page : PageId) (slot : N) :
    outcome (flow N (option ReadFrameIdx)) :=
  assertb (slot <=? mask t);;
  e ← slot_read t slot;
  match e with
  | Some (key, fr) =>
      if bool_decide (key = page) then Done (Return (Some fr))
      else s ← next_slot t slot; Done (Continue s)
  | None => Done (Return None)
  end.

Definition lookup (t : PageTable) (page : PageId) : outcome (option ReadFrameIdx) :=
  r ← for_range (lookup_body t page) (capacity t) (home_slot t page);
  match r with Return o => Done o | Continue _ => Done None end.

Definition insert_body (t : PageTable) (page : PageId) (fr : ReadFrameIdx) (slot : N) :
    outcome (flow N PageTable) :=
  assertb (slot <=? mask t);;
  e ← slot_read t slot;
  match e with
  | Some (key, _) =>
      if bool_decide (key = page) then
        t' ← slot_write t slot (Some (page, fr)); Done (Return t')
      else s ← next_slot t slot; Done (Continue s)
  | None =>
      assertb (len t <? capacity t);;
      t' ← slot_write t slot (Some (page, fr));
      n ← add_ U32_MAX (len t') 1;
      Done (Return (with_len t' n))
  end.

Definition insert_shared (t : PageTable) (page : PageId) (fr : ReadFrameIdx) :
    outcome PageTable :=
  r ← for_range (insert_body t page fr) (capacity t) (home_slot t page);
  match r with Return t' => Done t' | Continue _ => Panic end.

(** [fills_gap]: the entry homed at [home] and stored at [scan] may move to [gap]. *)
Definition fills_gap (home gap scan msk : N) : outcome bool :=
  assertb ((home <=? msk) && (gap <=? msk) && (scan <=? msk));;
  let scan_from_gap := N.land (wrapping_sub 32 scan gap) msk in
  let home_from_gap := N.land (wrapping_sub 32 home gap) msk in
  assertb (1 <=? scan_from_gap);;
  Done ((home_from_gap =? 0) || (scan_from_gap <? home_from_gap)).

(** One iteration of [backward_shift]: state (table, gap, scan). *)
Definition shift_body (st : PageTable * N * N) :
    outcome (flow (PageTable * N * N) PageTable) :=
  let '(t, gap, scan) := st in
  g ← slot_read t gap;
  assertb (bool_decide (g = None));;
  e ← slot_read t scan;
  match e with
  | None => Done (Return t)
  | Some (key, fr) =>
      let home := home_slot t key in
      fills ← fills_gap home gap scan (mask t);
      '(t, gap) ←
        (if fills : bool then
           assertb (negb (gap =? scan));;
           t1 ← slot_write t gap (Some (key, fr));
           t2 ← slot_write t1 scan None;
           Done (t2, scan)
         else Done (t, gap));
      scan ← next_slot t scan;
      Done (Continue (t, gap, scan))
  end.

Definition backward_shift (t : PageTable) (gap : N) : outcome PageTable :=
  scan ← next_slot t gap;
  r ← for_range shift_body (capacity t) (t, gap, scan);
  match r with Return t' => Done t' | Continue (t', _, _) => Done t' end.

Definition remove_body (t : PageTable) (page : PageId) (gap : N) :
    outcome (flow N (option (N * ReadFrameIdx))) :=
  assertb (gap <=? mask t);;
  e ← slot_read t gap;
  match e with
  | Some (key, fr) =>
      if bool_decide (key = page) then Done (Return (Some (gap, fr)))
      else s ← next_slot t gap; Done (Continue s)
  | None => Done (Return None)
  end.

Definition remove_shared (t : PageTable) (page : PageId) :
    outcome (PageTable * option ReadFrameIdx) :=
  r ← for_range (remove_body t page) (capacity t) (home_slot t page);
  match r with
  | Return (Some (gap, fr)) =>
      t1 ← slot_write t gap None;
      assertb (negb (len t1 =? 0));;
      n ← sub_ (len t1) 1;
      t2 ← backward_shift (with_len t1 n) gap;
      Done (t2, Some fr)
  | Return None | Continue _ => Done (t, None)
  end.

(** Operations with a lemma of their own are not unfolded by simplification. *)
#[global] Arguments home_slot : simpl never.
#[global] Arguments slot_read : simpl never.
#[global] Arguments slot_write : simpl never.
#[global] Arguments next_slot : simpl never.
#[global] Arguments fills_gap : simpl never.

(** ** Cells *)

Definition cell_even (c : Cell) : Prop := N.land (seq c) 1 = 0.

Lemma cell_read_even c : cell_even c → cell_read c = Done (cell_entry c).
Proof.
  unfold cell_even, cell_read. intros He. rewrite for_range_nat.
  destruct (N.to_nat SEQLOCK_READ_SPINS_MAX) as [|n] eqn:Hn.
  { unfold SEQLOCK_READ_SPINS_MAX in Hn. lia. }
  clear Hn. simpl. by rewrite He, !N.eqb_refl.
Qed.

Lemma land_1_wrap a : N.land a 1 = 0 → N.land (wrapping_add 64 a 2) 1 = 0.
Proof.
  change 1 with (2 ^ 1 - 1). rewrite !land_mask. unfold wrapping_add. intros H.
  change (2 ^ 1) with 2 in *. change (2 ^ 64) with (2 * 2 ^ 63).
  rewrite N.Div0.mod_mul_r, N.mul_comm, N.Div0.mod_add, N.Div0.mod_mod.
  rewrite <- N.Div0.add_mod_idemp_l, H. done.
Qed.

(** Writing a quiescent cell leaves it quiescent and readable as what was written. *)
Lemma cell_write_even c e :
  cell_even c → ∃ c', cell_write c e = Done c' ∧ cell_even c' ∧ cell_entry c' = e.
Proof.
  unfold cell_even, cell_write. intros He. rewrite He. simpl.
  destruct e as [[[[d s g] i] fr]|]; eexists; (split; [done|]); simpl;
    (split; [by apply land_1_wrap|done]).
Qed.

(** ** The probe-chain invariant *)

(** The entry a quiescent reader sees in slot [i]. *)
Definition entry_at (t : PageTable) (i : N) : option entry :=
  slots t !! N.to_nat i ≫= cell_entry.

(** The slot [d] steps after [s] on the cyclic probe sequence. *)
Definition ahead (t : PageTable) (s d : N) : N := (s + d) mod capacity t.

Definition cell_full (c : Cell) : bool := bool_decide (is_Some (cell_entry c)).

(** Geometry of the table: fixed for its lifetime. *)
Record table_shape (t : PageTable) : Prop := {
  shape_cap : ∃ k, capacity t = 2 ^ k ∧ k ≤ 31;
  shape_mask : mask t = capacity t - 1;
  shape_slots : vlen (slots t) = capacity t;
  shape_even : Forall cell_even (slots t);
}.

(** The position of slot [i] when the table is read cyclically from the slot
    after [v]; [v] itself comes last. *)
Definition lin (t : PageTable) (v i : N) : N := (i + (capacity t - 1 - v)) mod capacity t.

(** [v] is a seam of the table: read from just after [v], every entry sits at or
    after its home slot and no vacant slot lies between the two. *)
Definition seam (t : PageTable) (v : N) : Prop :=
  v < capacity t ∧
  ∀ i k f, entry_at t i = Some (k, f) →
    lin t v (home_slot t k) ≤ lin t v i ∧
    ∀ j, j < capacity t → lin t v (home_slot t k) ≤ lin t v j < lin t v i → entry_at t j ≠ None.

Record table_wf (t : PageTable) : Prop := {
  wf_shape : table_shape t;
  wf_unique : ∀ i j k f g,
    entry_at t i = Some (k, f) → entry_at t j = Some (k, g) → i = j;
  wf_seam : ∃ v, seam t v;
  wf_len : N.to_nat (len t) = countb cell_full (slots t);
}.

(** The finite map a table stores. *)
Definition table_rep (t : PageTable) (m : gmap PageId ReadFrameIdx) : Prop :=
  ∀ k f, m !! k = Some f ↔ ∃ i, entry_at t i = Some (k, f).

Section shape.
Context (t : PageTable) (Hs : table_shape t).

Lemma cap_pos : 0 < capacity t.
Proof. destruct (shape_cap t Hs) as (k & -> & _). pose proof (N.pow_nonzero 2 k); lia. Qed.

Lemma cap_le : capacity t ≤ 2 ^ 31.
Proof. destruct (shape_cap t Hs) as (k & -> & ?). apply N.pow_le_mono_r; lia. Qed.

Lemma mask_mod a : N.land a (mask t) = a mod capacity t.
Proof. rewrite (shape_mask t Hs). destruct (shape_cap t Hs) as (k & -> & _). apply land_mask. Qed.

Lemma home_lt k : home_slot t k < capacity t.
Proof. unfold home_slot. rewrite mask_mod. apply N.mod_lt. pose proof cap_pos. lia. Qed.

Lemma ahead_lt s d : ahead t s d < capacity t.
Proof. apply N.mod_lt. pose proof cap_pos. lia. Qed.

Lemma next_slot_ok i : i < capacity t → next_slot t i = Done (ahead t i 1).
Proof.
  intros Hi. unfold next_slot. pose proof cap_le. rewrite add_ok by (unfold U32_MAX; lia).
  simpl. by rewrite mask_mod.
Qed.

Lemma ahead_cases s d :
  s < capacity t → d < capacity t →
  (s + d < capacity t ∧ ahead t s d = s + d) ∨
  (capacity t ≤ s + d ∧ ahead t s d + capacity t = s + d).
Proof.
  intros. unfold ahead. destruct (N.lt_ge_cases (s + d) (capacity t)).
  - left. rewrite N.mod_small by lia. lia.
  - right. split; [done|]. rewrite <- (N.mod_unique _ _ 1 (s + d - capacity t)); lia.
Qed.

Lemma lin_cases v i :
  v < capacity t → i < capacity t →
  (v < i ∧ lin t v i + v + 1 = i) ∨ (i ≤ v ∧ lin t v i + v + 1 = i + capacity t).
Proof.
  intros. unfold lin. destruct (N.lt_ge_cases v i).
  - left. split; [done|]. rewrite <- (N.mod_unique _ _ 1 (i - v - 1)); lia.
  - right. split; [done|]. rewrite N.mod_small; lia.
Qed.

Lemma lin_lt v i : lin t v i < capacity t.
Proof. apply N.mod_lt. pose proof cap_pos. lia. Qed.

Lemma lin_inj v i j :
  v < capacity t → i < capacity t → j < capacity t → lin t v i = lin t v j → i = j.
Proof. intros Hv Hi Hj. destruct (lin_cases v i), (lin_cases v j); lia. Qed.

(** Moving the seam from [v] to [i] rotates the linear order. *)
Lemma lin_reseam v i j :
  v < capacity t → i < capacity t → j < capacity t →
  (lin t v i < lin t v j ∧ lin t i j + lin t v i + 1 = lin t v j) ∨
  (lin t v j ≤ lin t v i ∧ lin t i j + lin t v i + 1 = lin t v j + capacity t).
Proof.
  intros Hv Hi Hj. pose proof cap_pos.
  destruct (lin_cases v i Hv Hi), (lin_cases v j Hv Hj), (lin_cases i j Hi Hj); lia.
Qed.

(** The linear order follows the probe sequence until it wraps at the seam. *)
Lemma lin_ahead v s d :
  v < capacity t → s < capacity t → d < capacity t →
  (lin t v s + d < capacity t ∧ lin t v (ahead t s d) = lin t v s + d) ∨
  (capacity t ≤ lin t v s + d ∧ lin t v (ahead t s d) + capacity t = lin t v s + d).
Proof.
  intros Hv Hs' Hd. pose proof (ahead_lt s d) as Ha. pose proof cap_pos.
  destruct (lin_cases v s Hv Hs'), (lin_cases v _ Hv Ha), (ahead_cases s d Hs' Hd); lia.
Qed.

Lemma entry_at_lt i e : entry_at t i = Some e → i < capacity t.
Proof.
  unfold entry_at. intros (c & Hc & _)%bind_Some. rewrite <- (shape_slots t Hs).
  eauto using vget_lt.
Qed.

Lemma slot_read_ok i : i < capacity t → slot_read t i = Done (entry_at t i).
Proof.
  rewrite <- (shape_slots t Hs). intros Hi. unfold slot_read, entry_at.
  destruct (vget_ok _ _ Hi) as (c & -> & Hc). rewrite Hc. simpl.
  apply cell_read_even. by eapply Forall_lookup_1; [apply Hs|].
Qed.

(** A store replaces one entry, keeps the shape and adjusts the count. *)
Lemma slot_write_ok i e :
  i < capacity t →
  ∃ t', slot_write t i e = Done t' ∧ table_shape t' ∧
    capacity t' = capacity t ∧ mask t' = mask t ∧ len t' = len t ∧
    (∀ j, entry_at t' j = if decide (j = i) then e else entry_at t j) ∧
    (countb cell_full (slots t') + Nat.b2n (bool_decide (is_Some (entry_at t i))) =
     countb cell_full (slots t) + Nat.b2n (bool_decide (is_Some e)))%nat.
Proof.
  intros Hi. pose proof Hi as Hi'. rewrite <- (shape_slots t Hs) in Hi'.
  destruct (vget_ok _ _ Hi') as (c & Hg & Hc). unfold slot_write. rewrite Hg. simpl.
  destruct (cell_write_even c e) as (c' & Hw & He & Hent).
  { eapply Forall_lookup_1; [apply Hs|done]. }
  rewrite Hw. simpl. rewrite vset_ok by done. simpl.
  eexists; split; [done|]. unfold with_slots. split_and!; simpl; try done.
  - destruct Hs. split; simpl; auto using Forall_insert. by rewrite vlen_insert.
  - intros j. unfold entry_at. simpl. case_decide as Hj; [subst j|].
    + rewrite list_lookup_insert_eq by eauto using lookup_lt_Some. done.
    + rewrite list_lookup_insert_ne by lia. done.
  - pose proof (countb_insert cell_full (slots t) (N.to_nat i) c c' Hc) as Hcount.
    unfold cell_full in Hcount at 2 4. rewrite Hent in Hcount.
    unfold entry_at. rewrite Hc. done.
Qed.
End shape.

(** ** Probing *)

(** The probe for [page] stops at slot [i]: the key or a vacancy. *)
Definition stops (t : PageTable) (page : PageId) (i : N) : bool :=
  match entry_at t i with Some (k, _) => bool_decide (k = page) | None => true end.

(** The three probing loops share this shape: step past foreign keys, leave at
    the first slot where the probe stops. *)
Lemma probe_loop {R} t (body : N → outcome (flow N R)) (stop : N → bool) n s :
  table_shape t →
  (∀ i, i < capacity t → stop i = false → body i = Done (Continue (ahead t i 1))) →
  (∀ i s', i < capacity t → stop i = true → body i ≠ Done (Continue s')) →
  s < capacity t → N.of_nat n ≤ capacity t →
  (∃ d, d < N.of_nat n ∧ (∀ d', d' < d → stop (ahead t s d') = false) ∧
      stop (ahead t s d) = true ∧ for_nat body n s = body (ahead t s d)) ∨
  ((∀ d, d < N.of_nat n → stop (ahead t s d) = false) ∧
      ∃ s', for_nat body n s = Done (Continue s')).
Proof.
  intros Hs Hstep Hstop. revert s. induction n as [|n IH]; intros s Hlt Hn.
  { right. split; [lia|]. by eexists. }
  assert (ahead t s 0 = s) as Hs0.
  { destruct (ahead_cases t s 0); lia. }
  destruct (stop s) eqn:Hst.
  - left. exists 0. split_and!; [lia|lia|by rewrite Hs0|]. rewrite Hs0. simpl.
    destruct (body s) as [[s'|r]|] eqn:Hb; [|done..]. by destruct (Hstop s s').
  - simpl. rewrite Hstep by done. simpl.
    assert (∀ d, ahead t (ahead t s 1) d = ahead t s (d + 1)) as Hadd.
    { intros d. unfold ahead. rewrite N.Div0.add_mod_idemp_l. f_equal. lia. }
    destruct (IH (ahead t s 1) (ahead_lt t Hs s 1) ltac:(lia))
      as [(d & Hd & Hbefore & Hat & ->)|[Hall Hend]].
    + left. exists (d + 1). rewrite Hadd in *. split_and!; [lia| |done|done].
      intros d' ?. destruct (N.eq_dec d' 0) as [->|]; [by rewrite Hs0|].
      specialize (Hbefore (d' - 1) ltac:(lia)). rewrite Hadd in Hbefore.
      by replace (d' - 1 + 1) with d' in Hbefore by lia.
    + right. split; [|done]. intros d ?. destruct (N.eq_dec d 0) as [->|]; [by rewrite Hs0|].
      specialize (Hall (d - 1) ltac:(lia)). rewrite Hadd in Hall.
      by replace (d - 1 + 1) with d in Hall by lia.
Qed.

(** Where the probe for [page] ends in a well-formed table: at the key, or at the
    first vacancy of a table without the key. *)
Inductive probe_stop (t : PageTable) (page : PageId) (i : N) : Prop :=
  | probe_hit f : entry_at t i = Some (page, f) → probe_stop t page i
  | probe_vacant d :
      d < capacity t → i = ahead t (home_slot t page) d → entry_at t i = None →
      (∀ j f, entry_at t j ≠ Some (page, f)) →
      (∀ d', d' < d → entry_at t (ahead t (home_slot t page) d') ≠ None) →
      probe_stop t page i.

(** The probe runs through a full table without the key. *)
Definition probe_full (t : PageTable) (page : PageId) : Prop :=
  (∀ j, j < capacity t → entry_at t j ≠ None) ∧ (∀ j f, entry_at t j ≠ Some (page, f)).

(** Every slot is some number of steps ahead of any other. *)
Lemma ahead_surj t s i :
  table_shape t → s < capacity t → i < capacity t → ∃ d, d < capacity t ∧ ahead t s d = i.
Proof.
  intros Hs Hlt Hi. destruct (N.le_gt_cases s i).
  - exists (i - s). split; [lia|]. destruct (ahead_cases t s (i - s)); lia.
  - exists (i + capacity t - s). split; [lia|].
    destruct (ahead_cases t s (i + capacity t - s)); lia.
Qed.

(** On a well-formed table the slots probed before a stored key are occupied. *)
Lemma stored_chain t i k f d :
  table_wf t → entry_at t i = Some (k, f) → d < capacity t → ahead t (home_slot t k) d = i →
  ∀ d', d' < d → entry_at t (ahead t (home_slot t k) d') ≠ None.
Proof.
  intros [Hs _ [v [Hv Hseam]] _] Hi Hd Ha d' Hd'.
  destruct (Hseam _ _ _ Hi) as [Hle Hchain].
  pose proof (home_lt t Hs k) as Hh. pose proof (entry_at_lt t Hs _ _ Hi) as Hilt.
  apply Hchain; [apply ahead_lt, Hs|]. subst i.
  destruct (lin_ahead t Hs v (home_slot t k) d), (lin_ahead t Hs v (home_slot t k) d'); lia.
Qed.

(** A probing loop from the home slot ends where [probe_stop] and [probe_full] say. *)
Lemma probe_outcome {R} t page (body : N → outcome (flow N R)) :
  table_wf t →
  (∀ i, i < capacity t → stops t page i = false → body i = Done (Continue (ahead t i 1))) →
  (∀ i s', i < capacity t → stops t page i = true → body i ≠ Done (Continue s')) →
  (∃ i, i < capacity t ∧ probe_stop t page i ∧
     for_range body (capacity t) (home_slot t page) = body i) ∨
  (∃ s', probe_full t page ∧
     for_range body (capacity t) (home_slot t page) = Done (Continue s')).
Proof.
  intros Hwf Hstep Hstop. pose proof (wf_shape t Hwf) as Hs. rewrite for_range_nat.
  pose proof (home_lt t Hs page) as Hh.
  destruct (probe_loop t body (stops t page) (N.to_nat (capacity t)) (home_slot t page))
    as [(d & Hd & Hbefore & Hat & Heq)|[Hall [s' Heq]]]; try done; try lia.
  - left. exists (ahead t (home_slot t page) d). pose proof (ahead_lt t Hs (home_slot t page) d).
    split_and!; [done| |done]. unfold stops in Hat, Hbefore.
    destruct (entry_at t (ahead t (home_slot t page) d)) as [[k f]|] eqn:He.
    + apply bool_decide_eq_true in Hat as ->. by eapply probe_hit.
    + apply (probe_vacant _ _ _ d); [lia|done|done| |].
      * intros j f Hj. destruct (ahead_surj t (home_slot t page) j) as (dj & Hdj & Haj);
          eauto using entry_at_lt.
        destruct (N.lt_trichotomy dj d) as [Hlt|[->|Hlt]].
        -- specialize (Hbefore dj Hlt). rewrite Haj, Hj in Hbefore.
           by apply bool_decide_eq_false in Hbefore.
        -- congruence.
        -- by destruct (stored_chain t j page f dj Hwf Hj Hdj Haj d Hlt).
      * intros d' Hd'. specialize (Hbefore d' Hd').
        by destruct (entry_at t (ahead t (home_slot t page) d')).
  - right. exists s'. split; [|done]. rewrite N2Nat.id in Hall.
    split.
    + intros j Hj. destruct (ahead_surj t (home_slot t page) j) as (dj & Hdj & <-); auto.
      specialize (Hall dj Hdj). unfold stops in Hall. intros HN. by rewrite HN in Hall.
    + intros j f Hj. destruct (ahead_surj t (home_slot t page) j) as (dj & Hdj & <-);
        eauto using entry_at_lt.
      specialize (Hall dj Hdj). unfold stops in Hall. rewrite Hj in Hall.
      by apply bool_decide_eq_false in Hall.
Qed.

(** The test that opens each probing body. *)
Lemma probe_guard t i :
  table_shape t → i < capacity t → assertb (i <=? mask t) = Done tt.
Proof.
  intros Hs Hi. apply assertb_true, N.leb_le. rewrite (shape_mask t Hs). lia.
Qed.

(** ** Lookup *)

Lemma lookup_ok t m page :
  table_wf t → table_rep t m → lookup t page = Done (m !! page).
Proof.
  intros Hwf Hrep. pose proof (wf_shape t Hwf) as Hs. unfold lookup.
  destruct (probe_outcome t page (lookup_body t page) Hwf) as [(i & Hi & Hend & ->)|(s' & [Hfull Habs] & ->)].
  - intros i Hi Hst. unfold lookup_body, stops in *.
    rewrite probe_guard, slot_read_ok by done. simpl. destruct (entry_at t i) as [[k f]|]; [|done].
    rewrite Hst, next_slot_ok by done. done.
  - intros i s' Hi Hst. unfold lookup_body, stops in *.
    rewrite probe_guard, slot_read_ok by done. simpl. destruct (entry_at t i) as [[k f]|]; [|done].
    by rewrite Hst.
  - unfold lookup_body. rewrite probe_guard, slot_read_ok by done. simpl.
    destruct Hend as [f He|d Hd Hieq He Habs Hbefore]; rewrite He; simpl.
    + rewrite bool_decide_eq_true_2 by done. simpl. f_equal. symmetry. apply Hrep. eauto.
    + destruct (m !! page) as [f|] eqn:Hm; [|done]. apply Hrep in Hm as [j Hj]. by destruct (Habs j f).
  - simpl. destruct (m !! page) as [f|] eqn:Hm; [|done]. apply Hrep in Hm as [j Hj]. by destruct (Habs j f).
Qed.

(** ** Insertion *)

(** Moving the seam to a vacant slot. *)
Lemma seam_vacant t i :
  table_wf t → i < capacity t → entry_at t i = None → seam t i.
Proof.
  intros [Hs _ [v [Hv Hseam]] _] Hi Hnone. split; [done|]. intros j k f Hj.
  destruct (Hseam j k f Hj) as [Hle Hchain].
  pose proof (home_lt t Hs k). pose proof (entry_at_lt t Hs _ _ Hj).
  assert (j ≠ i) by congruence.
  assert (¬ (lin t v (home_slot t k) ≤ lin t v i < lin t v j)) as Hout.
  { intros Hin. by apply (Hchain i). }
  assert (lin t v i ≠ lin t v j) by (intros ?%lin_inj; try done; lia).
  destruct (lin_reseam t Hs v i (home_slot t k)), (lin_reseam t Hs v i j); try lia;
    (split; [lia|]); intros j' Hj' Hr; (apply Hchain; [done|]);
    pose proof (lin_lt t Hs v j'); pose proof (lin_lt t Hs v i); pose proof (lin_lt t Hs v j);
    destruct (lin_reseam t Hs v i j'); lia.
Qed.

(** Geometry depends only on the capacity and the mask. *)
Lemma lin_ext t t' v i : capacity t' = capacity t → lin t' v i = lin t v i.
Proof. unfold lin. by intros ->. Qed.

Lemma home_ext t t' k : mask t' = mask t → home_slot t' k = home_slot t k.
Proof. unfold home_slot. by intros ->. Qed.

Lemma full_count t :
  table_wf t → (∀ j, j < capacity t → entry_at t j ≠ None) → len t = capacity t.
Proof.
  intros Hwf Hfull. pose proof (wf_shape t Hwf) as Hs.
  pose proof (wf_len t Hwf) as Hlen. rewrite countb_all in Hlen.
  - pose proof (shape_slots t Hs) as Hcap. unfold vlen in Hcap. lia.
  - intros i c Hc. unfold cell_full. apply bool_decide_eq_true_2.
    specialize (Hfull (N.of_nat i)). unfold entry_at in Hfull.
    rewrite Nat2N.id, Hc in Hfull. apply not_eq_None_Some, Hfull.
    rewrite <- (shape_slots t Hs). unfold vlen. apply lookup_lt_Some in Hc. lia.
Qed.

Lemma vacant_count t i :
  table_wf t → i < capacity t → entry_at t i = None → len t < capacity t.
Proof.
  intros Hwf Hi Hnone. pose proof (wf_shape t Hwf) as Hs.
  rewrite <- (shape_slots t Hs) in *. destruct (vget_ok _ _ Hi) as (c & _ & Hc).
  unfold entry_at in Hnone. rewrite Hc in Hnone. simpl in Hnone.
  pose proof (countb_lt cell_full (slots t) _ c Hc) as Hlt.
  rewrite <- (wf_len t Hwf) in Hlt. unfold cell_full in Hlt. rewrite Hnone in Hlt.
  unfold vlen. specialize (Hlt eq_refl). lia.
Qed.

(** Storing [page] at slot [i] of a table, where [page] is stored nowhere else
    and [i] holds nothing else, inserts it into the represented map. *)
Lemma store_rep t t' m page fr i :
  table_rep t m →
  (∀ i j k f g, entry_at t i = Some (k, f) → entry_at t j = Some (k, g) → i = j) →
  (∀ j, entry_at t' j = if decide (j = i) then Some (page, fr) else entry_at t j) →
  (∀ j f, entry_at t j = Some (page, f) → j = i) →
  (∀ k f, entry_at t i = Some (k, f) → k = page) →
  table_rep t' (<[page := fr]> m) ∧
  (∀ i j k f g, entry_at t' i = Some (k, f) → entry_at t' j = Some (k, g) → i = j).
Proof.
  intros Hrep Huniq Hent Hat Honly. split.
  - intros k f. rewrite lookup_insert_Some, (Hrep k f). split.
    + intros [[<- <-]|[Hne [j Hj]]].
      * exists i. rewrite Hent. by case_decide.
      * exists j. rewrite Hent. case_decide; [subst; naive_solver|done].
    + intros [j Hj]. rewrite Hent in Hj. case_decide; simplify_eq; [by left|].
      right. split; [intros <-; naive_solver|eauto].
  - intros a b k f g Ha Hb. rewrite Hent in Ha, Hb.
    repeat case_decide; simplify_eq; naive_solver.
Qed.

Lemma seam_store t t' page fr i v :
  capacity t' = capacity t → mask t' = mask t → seam t v →
  (∀ j, entry_at t' j = if decide (j = i) then Some (page, fr) else entry_at t j) →
  (lin t v (home_slot t page) ≤ lin t v i ∧
   ∀ j, j < capacity t → lin t v (home_slot t page) ≤ lin t v j < lin t v i → entry_at t j ≠ None) →
  seam t' v.
Proof.
  intros Hcap Hmask [Hv Hseam] Hent Hnew. split; [by rewrite Hcap|].
  intros j k f Hj. rewrite (home_ext t t') by done. rewrite !(lin_ext t t'), Hcap by done.
  assert (lin t v (home_slot t k) ≤ lin t v j ∧
    ∀ j', j' < capacity t → lin t v (home_slot t k) ≤ lin t v j' < lin t v j →
      entry_at t j' ≠ None) as [Hle Hchain].
  { rewrite Hent in Hj. case_decide; simplify_eq; eauto. }
  split; [done|]. intros j' Hj' Hr. rewrite (lin_ext t t') in Hr by done.
  rewrite Hent. case_decide; [done|]. auto.
Qed.

(** What a successful store at slot [i] does to the table. *)
Definition stored (t t' : PageTable) (i : N) (e : option entry) : Prop :=
  table_shape t' ∧ capacity t' = capacity t ∧ mask t' = mask t ∧
  (∀ j, entry_at t' j = if decide (j = i) then e else entry_at t j).

(** Replacing the frame of a stored key. *)
Lemma wf_update t t' m page f fr i :
  table_wf t → table_rep t m → entry_at t i = Some (page, f) →
  stored t t' i (Some (page, fr)) → len t' = len t →
  countb cell_full (slots t') = countb cell_full (slots t) →
  table_wf t' ∧ table_rep t' (<[page := fr]> m).
Proof.
  intros Hwf Hrep He (Hs' & Hcap & Hmask & Hent) Hlen Hcount.
  destruct (store_rep t t' m page fr i) as [Hrep' Huniq'];
    eauto using wf_unique; [naive_solver|].
  split; [|done]. split; [done|done| |].
  - destruct (wf_seam t Hwf) as [v Hv]. exists v. eapply seam_store; eauto.
    by apply (proj2 Hv _ _ f).
  - rewrite Hlen, Hcount. apply Hwf.
Qed.

(** Storing a new key in the first vacant slot of its probe sequence. *)
Lemma wf_store_new t t' m page fr i d :
  table_wf t → table_rep t m → entry_at t i = None → i < capacity t →
  (∀ j f, entry_at t j ≠ Some (page, f)) →
  d < capacity t → i = ahead t (home_slot t page) d →
  (∀ d', d' < d → entry_at t (ahead t (home_slot t page) d') ≠ None) →
  stored t t' i (Some (page, fr)) → len t' = len t + 1 →
  countb cell_full (slots t') = S (countb cell_full (slots t)) →
  table_wf t' ∧ table_rep t' (<[page := fr]> m).
Proof.
  intros Hwf Hrep He Hi Habs Hd Hieq Hbefore (Hs' & Hcap & Hmask & Hent) Hlen Hcount.
  pose proof (wf_shape t Hwf) as Hs.
  destruct (store_rep t t' m page fr i) as [Hrep' Huniq'];
    eauto using wf_unique; try congruence.
  { intros j f Hj. by destruct (Habs j f). }
  split; [|done]. split; [done|done| |].
  - exists i. pose proof (home_lt t Hs page).
    apply (seam_store t t' page fr i i); eauto using seam_vacant.
    destruct (lin_cases t i i) as [?|[_ Hii]]; try lia. split.
    { destruct (lin_cases t i (home_slot t page)); lia. }
    intros j Hj Hr. destruct (ahead_surj t (home_slot t page) j) as (dj & Hdj & <-); try done.
    apply Hbefore. rewrite Hieq in Hi, Hr, Hii.
    destruct (lin_ahead t Hs (ahead t (home_slot t page) d) (home_slot t page) d),
      (lin_ahead t Hs (ahead t (home_slot t page) d) (home_slot t page) dj); lia.
  - rewrite Hlen, Hcount. pose proof (wf_len t Hwf). lia.
Qed.

(** The loop body away from and at the end of the probe. *)
Lemma insert_body_step t page fr i :
  table_shape t → i < capacity t → stops t page i = false →
  insert_body t page fr i = Done (Continue (ahead t i 1)).
Proof.
  intros Hs Hi Hst. unfold insert_body, stops in *.
  rewrite probe_guard, slot_read_ok by done. simpl. destruct (entry_at t i) as [[k f]|]; [|done].
  rewrite Hst, next_slot_ok by done. done.
Qed.

Lemma insert_body_stop t page fr i s' :
  table_shape t → i < capacity t → stops t page i = true →
  insert_body t page fr i ≠ Done (Continue s').
Proof.
  intros Hs Hi Hst. unfold insert_body, stops in *.
  rewrite probe_guard, slot_read_ok by done. simpl.
  destruct (slot_write_ok t Hs i (Some (page, fr)) Hi) as (t' & Hw & _).
  destruct (entry_at t i) as [[k f]|]; [by rewrite Hst, Hw|].
  destruct (assertb _); simpl; [|done]. rewrite Hw. simpl. by destruct (add_ _ _ _).
Qed.

Lemma insert_ok t m page fr :
  table_wf t → table_rep t m → is_Some (m !! page) ∨ len t < capacity t →
  ∃ t', insert_shared t page fr = Done t' ∧ table_wf t' ∧
    table_rep t' (<[page := fr]> m) ∧ capacity t' = capacity t.
Proof.
  intros Hwf Hrep Hroom. pose proof (wf_shape t Hwf) as Hs. unfold insert_shared.
  destruct (probe_outcome t page (insert_body t page fr) Hwf)
    as [(i & Hi & Hend & ->)|(s' & [Hfull Habs] & ->)];
    eauto using insert_body_step, insert_body_stop.
  - unfold insert_body. rewrite probe_guard, slot_read_ok by done. simpl.
    destruct (slot_write_ok t Hs i (Some (page, fr)) Hi)
      as (t' & Hw & Hs' & Hcap & Hmask & Hlen & Hent & Hcount).
    destruct Hend as [f He|d Hd Hieq He Habs Hbefore]; rewrite He in Hcount |- *; simpl in Hcount |- *.
    + rewrite bool_decide_eq_true_2, Hw by done. simpl. exists t'. split; [done|].
      destruct (wf_update t t' m page f fr i); rewrite ?and_assoc; try done. lia.
    + pose proof (vacant_count t i Hwf Hi He) as Hlt.
      rewrite assertb_true by by apply N.ltb_lt. simpl. rewrite Hw. simpl.
      pose proof (cap_le t Hs). rewrite Hlen, add_ok by (unfold U32_MAX; lia). simpl.
      eexists; split; [done|].
      destruct (wf_store_new t (with_len t' (len t + 1)) m page fr i d); simpl; try done; [|lia].
      split_and!; try done. by destruct Hs'.
  - simpl. exfalso. destruct Hroom as [[f Hm]|Hlt].
    + apply Hrep in Hm as [j Hj]. by apply (Habs j f).
    + rewrite (full_count t Hwf Hfull) in Hlt. lia.
Qed.

(** A new key does not enter a full table. *)
Lemma insert_panics t m page fr :
  table_wf t → table_rep t m → m !! page = None → len t = capacity t →
  insert_shared t page fr = Panic.
Proof.
  intros Hwf Hrep Hm Hlen. pose proof (wf_shape t Hwf) as Hs. unfold insert_shared.
  destruct (probe_outcome t page (insert_body t page fr) Hwf)
    as [(i & Hi & Hend & _)|(s' & _ & ->)];
    eauto using insert_body_step, insert_body_stop; exfalso.
  destruct Hend as [f He|d Hd Hieq He Habs Hbefore].
  - assert (m !! page = Some f) by (apply Hrep; eauto). congruence.
  - pose proof (vacant_count t i Hwf Hi He). lia.
Qed.

(** ** Removal *)

(** [fills_gap] in linear coordinates: with the gap before the scanned entry, the
    entry moves exactly when its home is at or before the gap; with the gap after
    it (the scan has passed the seam), an entry at or after its home never moves. *)
Lemma fills_gap_lin t v home gap scan :
  table_shape t → v < capacity t → home < capacity t → gap < capacity t → scan < capacity t →
  gap ≠ scan → lin t v home ≤ lin t v scan →
  fills_gap home gap scan (mask t) =
    Done (bool_decide (lin t v gap < lin t v scan ∧ lin t v home ≤ lin t v gap)).
Proof.
  intros Hs Hv Hh Hg Hsc Hne Hle. unfold fills_gap.
  rewrite !(mask_mod t Hs).
  assert (∀ a, a < capacity t → (a <=? mask t) = true) as Hm.
  { intros a Ha. apply N.leb_le. rewrite (shape_mask t Hs). lia. }
  rewrite !Hm by done. simpl.
  assert (∀ a, a < capacity t →
    (gap ≤ a ∧ wrapping_sub 32 a gap mod capacity t + gap = a) ∨
    (a < gap ∧ wrapping_sub 32 a gap mod capacity t + gap = a + capacity t)) as Hws.
  { destruct (shape_cap t Hs) as (k & Hk & Hk31). rewrite Hk in *.
    intros a Ha. apply wrapping_sub_mod; lia. }
  destruct (Hws scan Hsc) as [[Hx Hxs]|[Hx Hxs]], (Hws home Hh) as [[Hy Hys]|[Hy Hys]];
    (rewrite assertb_true by (apply N.leb_le; lia)); simpl; f_equal;
    apply eq_bool_prop_intro; rewrite bool_decide_spec, Is_true_true, orb_true_iff, N.eqb_eq, N.ltb_lt;
    destruct (lin_cases t v home Hv Hh), (lin_cases t v gap Hv Hg), (lin_cases t v scan Hv Hsc); lia.
Qed.

(** The table while [backward_shift] runs: [gap] is vacant, and read from the seam
    [v] only an entry at position [x] or later may have the gap on its chain. *)
Record hole (t : PageTable) (m : gmap PageId ReadFrameIdx) (v gap x : N) : Prop := {
  hole_shape : table_shape t;
  hole_unique : ∀ i j k f g,
    entry_at t i = Some (k, f) → entry_at t j = Some (k, g) → i = j;
  hole_seam : v < capacity t;
  hole_gap : gap < capacity t;
  hole_vacant : entry_at t gap = None;
  hole_chain : ∀ i k f, entry_at t i = Some (k, f) →
    lin t v (home_slot t k) ≤ lin t v i ∧
    ∀ j, j < capacity t → lin t v (home_slot t k) ≤ lin t v j < lin t v i →
      entry_at t j ≠ None ∨ (j = gap ∧ x ≤ lin t v i);
  hole_len : N.to_nat (len t) = countb cell_full (slots t);
  hole_rep : table_rep t m;
}.

(** Once no entry can be behind the gap, the table is well formed again. *)
Lemma hole_closed t m v gap x :
  hole t m v gap x → (∀ i e, entry_at t i = Some e → x ≤ lin t v i →
    ¬ (lin t v gap < lin t v i ∧ ∃ k f, e = (k, f) ∧ lin t v (home_slot t k) ≤ lin t v gap)) →
  table_wf t ∧ table_rep t m.
Proof.
  intros [Hs Hu Hv Hg Hvac Hch Hlen Hrep] Hcl. split; [|done]. split; try done.
  exists v. split; [done|]. intros i k f Hi. destruct (Hch i k f Hi) as [Hle Hchain].
  split; [done|]. intros j Hj Hr. destruct (Hchain j Hj Hr) as [?|[-> Hx]]; [done|].
  exfalso. apply (Hcl i (k, f) Hi Hx). split; [lia|]. exists k, f. split; [done|lia].
Qed.

(** Moving the scanned entry back into the gap. *)
Lemma hole_move t t1 t2 m v gap scan k f :
  hole t m v gap (lin t v scan) → scan < capacity t →
  entry_at t scan = Some (k, f) → lin t v gap < lin t v scan →
  lin t v (home_slot t k) ≤ lin t v gap →
  stored t t1 gap (Some (k, f)) → stored t1 t2 scan None → len t2 = len t →
  countb cell_full (slots t2) = countb cell_full (slots t) →
  hole t2 m v scan (lin t v scan + 1).
Proof.
  intros [Hs Hu Hv Hg Hvac Hch Hlen Hrep] Hsc Hk Hlt Hhome (_ & Hc1 & Hm1 & He1)
    (Hs2 & Hc2 & Hm2 & He2) Hl2 Hcount.
  rewrite Hc1 in Hc2. rewrite Hm1 in Hm2.
  assert (gap ≠ scan) as Hne by congruence.
  assert (∀ j, entry_at t2 j = if decide (j = scan) then None
                               else if decide (j = gap) then Some (k, f) else entry_at t j) as Hent.
  { intros j. rewrite He2, He1. done. }
  split; rewrite ?Hc2; try done.
  - intros a b k' f' g' Ha Hb. rewrite Hent in Ha, Hb.
    repeat case_decide; simplify_eq; try done; eauto; exfalso; naive_solver.
  - rewrite Hent. by case_decide.
  - intros i k' f' Hi. rewrite (home_ext t t2) by done. rewrite !(lin_ext t t2) by done.
    rewrite Hent in Hi. case_decide as His; [done|]. case_decide as Hig.
    + simplify_eq. split; [done|]. intros j Hj Hr. left. rewrite (lin_ext t t2) in Hr by done.
      rewrite Hent. destruct (Hch scan k' f' Hk) as [_ Hchain].
      destruct (Hchain j Hj ltac:(lia)) as [?|[-> _]]; [|lia].
      case_decide; [subst; lia|]. by case_decide.
    + destruct (Hch i k' f' Hi) as [Hle Hchain]. split; [done|].
      intros j Hj Hr. rewrite (lin_ext t t2) in Hr by done. rewrite Hent.
      case_decide; [right; split; [done|subst; lia]|]. left. case_decide; [done|].
      destruct (Hchain j Hj Hr) as [?|[-> _]]; done.
  - by rewrite Hl2, Hcount.
  - intros k' f'. rewrite (Hrep k' f'). split; intros [j Hj].
    + destruct (decide (j = scan)) as [->|Hjs].
      * exists gap. rewrite Hent. rewrite decide_False, decide_True by done. congruence.
      * exists j. rewrite Hent, decide_False, decide_False by (done || congruence). done.
    + rewrite Hent in Hj. repeat case_decide; simplify_eq; eauto.
Qed.

(** The scanned entry stays: its home lies after the gap. *)
Lemma hole_skip t m v gap scan k f :
  hole t m v gap (lin t v scan) → scan < capacity t → entry_at t scan = Some (k, f) →
  ¬ lin t v (home_slot t k) ≤ lin t v gap → hole t m v gap (lin t v scan + 1).
Proof.
  intros [Hs Hu Hv Hg Hvac Hch Hlen Hrep] Hsc Hk Hhome. split; try done.
  intros i k' f' Hi. destruct (Hch i k' f' Hi) as [Hle Hchain]. split; [done|].
  intros j Hj Hr. destruct (Hchain j Hj Hr) as [?|[-> Hx]]; [by left|].
  destruct (decide (i = scan)) as [->|Hne]; [exfalso; simplify_eq; lia|].
  right. split; [done|].
  assert (lin t v i ≠ lin t v scan); [|lia].
  intros ?%lin_inj; eauto using entry_at_lt.
Qed.

(** The linear bound the loop maintains: the scan position until the scan passes
    the seam, the end of the table afterwards. *)
Definition scan_bound (t : PageTable) (v gap scan : N) : N :=
  if lin t v gap <? lin t v scan then lin t v scan else capacity t.

Lemma scan_bound_next t v gap scan :
  table_shape t → v < capacity t → gap < capacity t → scan < capacity t → gap ≠ scan →
  scan_bound t v gap (ahead t scan 1) =
    (if lin t v gap <? lin t v scan then lin t v scan + 1 else capacity t) ∧
  scan_bound t v scan (ahead t scan 1) = lin t v scan + 1.
Proof.
  intros Hs Hv Hg Hsc Hne. unfold scan_bound.
  assert (1 < capacity t) by lia.
  assert (lin t v gap ≠ lin t v scan) by (intros ?%lin_inj; try done).
  pose proof (lin_lt t Hs v gap).
  destruct (lin_ahead t Hs v scan 1) as [[? ->]|[? Heq]]; try done.
  - destruct (N.ltb_spec (lin t v gap) (lin t v scan)),
      (N.ltb_spec (lin t v gap) (lin t v scan + 1)),
      (N.ltb_spec (lin t v scan) (lin t v scan + 1)); lia.
  - pose proof (lin_lt t Hs v scan). assert (lin t v (ahead t scan 1) = 0) as -> by lia.
    destruct (N.ltb_spec (lin t v gap) (lin t v scan)),
      (N.ltb_spec (lin t v gap) 0), (N.ltb_spec (lin t v scan) 0); lia.
Qed.

(** The loop invariant of [backward_shift], with [n] iterations left. *)
Definition shift_inv (m : gmap PageId ReadFrameIdx) (cap v : N) (n : nat)
    (st : PageTable * N * N) : Prop :=
  let '(t, gap, scan) := st in
  hole t m v gap (scan_bound t v gap scan) ∧ capacity t = cap ∧ scan < cap ∧
  (lin t v gap < lin t v scan → cap ≤ lin t v scan + N.of_nat n).

Definition shift_post (m : gmap PageId ReadFrameIdx) (cap : N) (t : PageTable) : Prop :=
  table_wf t ∧ table_rep t m ∧ capacity t = cap.

(** The scan meets a vacancy: nothing behind it can reach the gap. *)
Lemma shift_stop t m v gap scan :
  hole t m v gap (scan_bound t v gap scan) → scan < capacity t → entry_at t scan = None →
  table_wf t ∧ table_rep t m.
Proof.
  intros Hh Hsc Hnone. eapply hole_closed; [done|]. destruct Hh as [Hs _ Hv _ _ Hch _ _].
  intros i e Hi Hx [Hgi (k & f & -> & Hhome)]. unfold scan_bound in *.
  pose proof (lin_lt t Hs v i). destruct (N.ltb_spec (lin t v gap) (lin t v scan)); [|lia].
  assert (lin t v i ≠ lin t v scan).
  { intros ->%lin_inj; eauto using entry_at_lt. congruence. }
  destruct (Hch i k f Hi) as [_ Hchain].
  destruct (Hchain scan Hsc ltac:(lia)) as [?|[-> _]]; [done|lia].
Qed.

(** The scanned entry is moved: two stores, and the gap jumps to the scan. *)
Lemma shift_move t m v gap scan k f :
  hole t m v gap (lin t v scan) → scan < capacity t → entry_at t scan = Some (k, f) →
  lin t v gap < lin t v scan → lin t v (home_slot t k) ≤ lin t v gap →
  ∃ t1 t2, slot_write t gap (Some (k, f)) = Done t1 ∧ slot_write t1 scan None = Done t2 ∧
    hole t2 m v scan (lin t v scan + 1) ∧ capacity t2 = capacity t.
Proof.
  intros Hh Hsc He Hlt Hhome. pose proof Hh as [Hs _ Hv Hg Hvac _ _ _].
  destruct (slot_write_ok t Hs gap (Some (k, f)) Hg)
    as (t1 & Hw1 & Hs1 & Hc1 & Hm1 & Hl1 & He1 & Hn1).
  destruct (slot_write_ok t1 Hs1 scan None ltac:(lia))
    as (t2 & Hw2 & Hs2 & Hc2 & Hm2 & Hl2 & He2 & Hn2).
  exists t1, t2. split_and!; [done|done| |congruence].
  assert (scan ≠ gap) by congruence.
  rewrite Hvac in Hn1. rewrite He1, decide_False, He in Hn2 by done. simpl in Hn1, Hn2.
  apply (hole_move t t1 t2 m v gap scan k f); eauto; [by split_and!..|congruence|lia].
Qed.

Lemma shift_body_ok m cap v n st :
  shift_inv m cap v (S n) st →
  (∃ st', shift_body st = Done (Continue st') ∧ shift_inv m cap v n st') ∨
  (∃ t', shift_body st = Done (Return t') ∧ shift_post m cap t').
Proof.
  destruct st as [[t gap] scan]. intros (Hh & <- & Hsc & Hfuel).
  pose proof Hh as [Hs _ Hv Hg Hvac Hch _ _]. unfold shift_body.
  rewrite !slot_read_ok, Hvac by done. mred.
  rewrite bool_decide_eq_true_2 by done. mred.
  destruct (entry_at t scan) as [[k f]|] eqn:He; mred.
  2:{ right. exists t. split; [done|]. destruct (shift_stop t m v gap scan); done. }
  left. assert (gap ≠ scan) as Hne by congruence.
  destruct (Hch scan k f He) as [Hle _]. pose proof (home_lt t Hs k) as Hhm.
  rewrite (fills_gap_lin t v) by done. mred.
  destruct (scan_bound_next t v gap scan Hs Hv Hg Hsc Hne) as [Hb1 Hb2].
  pose proof (lin_lt t Hs v scan) as Hls.
  case_bool_decide as Hf; mred.
  - destruct Hf as [Hlt Hhome]. unfold scan_bound in Hh.
    rewrite (proj2 (N.ltb_lt _ _) Hlt) in Hh.
    destruct (shift_move t m v gap scan k f) as (t1 & t2 & Hw1 & Hw2 & Hh2 & Hc2); try done.
    rewrite assertb_true by by apply negb_true_iff, N.eqb_neq. mred. rewrite Hw1. mred.
    rewrite Hw2. mred. pose proof (hole_shape _ _ _ _ _ Hh2) as Hs2.
    rewrite next_slot_ok by (done || lia). mred. eexists; split; [done|].
    assert (ahead t2 scan 1 = ahead t scan 1) as -> by (unfold ahead; by rewrite Hc2).
    split_and!; [|done|by apply ahead_lt|].
    + unfold scan_bound. rewrite Hc2, !(lin_ext t t2) by done. fold (scan_bound t v scan (ahead t scan 1)).
      by rewrite Hb2.
    + rewrite !(lin_ext t t2) by done. intros Hlt'.
      destruct (lin_ahead t Hs v scan 1) as [[? ->]|[? ?]]; try done; lia.
  - rewrite next_slot_ok by done. mred. eexists; split; [done|].
    split_and!; [|done|by apply ahead_lt|].
    + rewrite Hb1. unfold scan_bound in Hh.
      destruct (N.ltb_spec (lin t v gap) (lin t v scan)); [|done].
      eapply hole_skip; eauto.
    + intros Hlt'. assert (lin t v gap ≠ lin t v scan) by (intros ?%lin_inj; try done).
      destruct (lin_ahead t Hs v scan 1) as [[? ?]|[? ?]]; try done; try lia.
Qed.

Lemma backward_shift_ok t m v gap :
  hole t m v gap (lin t v gap + 1) →
  ∃ t', backward_shift t gap = Done t' ∧ shift_post m (capacity t) t'.
Proof.
  intros Hh. pose proof Hh as [Hs _ Hv Hg _ _ _ _]. unfold backward_shift.
  rewrite next_slot_ok by done. simpl. rewrite for_range_nat.
  assert (shift_inv m (capacity t) v (N.to_nat (capacity t)) (t, gap, ahead t gap 1)) as Hinv.
  { split_and!; [|done|by apply ahead_lt|lia]. unfold scan_bound.
    pose proof (cap_pos t Hs). pose proof (lin_lt t Hs v gap).
    destruct (decide (capacity t = 1)).
    - destruct (N.ltb_spec (lin t v gap) (lin t v (ahead t gap 1))).
      + pose proof (lin_lt t Hs v (ahead t gap 1)). lia.
      + by assert (capacity t = lin t v gap + 1) as -> by lia.
    - destruct (lin_ahead t Hs v gap 1) as [[? Heq]|[? Heq]]; try lia.
      + rewrite Heq. destruct (N.ltb_spec (lin t v gap) (lin t v gap + 1)); [done|lia].
      + destruct (N.ltb_spec (lin t v gap) (lin t v (ahead t gap 1))); [lia|].
        by assert (capacity t = lin t v gap + 1) as -> by lia. }
  destruct (for_nat_rule shift_body (shift_inv m (capacity t) v) (shift_post m (capacity t))
    (N.to_nat (capacity t)) (t, gap, ahead t gap 1))
    as [([[t' gap'] scan'] & -> & (Hh' & Hc' & Hsc' & Hend))|(t' & -> & Hpost)];
    eauto using shift_body_ok.
  simpl. exists t'. split; [done|].
  destruct (hole_closed t' m v gap' (scan_bound t' v gap' scan')); try done.
  intros i e Hi Hx _. unfold scan_bound in Hx.
  pose proof (lin_lt t' (hole_shape _ _ _ _ _ Hh') v i).
  pose proof (lin_lt t' (hole_shape _ _ _ _ _ Hh') v scan').
  destruct (N.ltb_spec (lin t' v gap') (lin t' v scan')); lia.
Qed.

(** Vacating the slot of a stored key opens the gap that [backward_shift] closes. *)
Lemma hole_open t t' m v i k f :
  table_wf t → seam t v → table_rep t m → entry_at t i = Some (k, f) → stored t t' i None →
  N.to_nat (len t') = countb cell_full (slots t') →
  hole t' (delete k m) v i (lin t' v i + 1).
Proof.
  intros Hwf [Hv Hseam] Hrep Hi (Hs' & Hcap & Hmask & Hent) Hlen.
  pose proof (wf_shape t Hwf) as Hs. pose proof (wf_unique t Hwf) as Hu.
  split; rewrite ?Hcap; eauto using entry_at_lt.
  - intros a b k' f' g' Ha Hb. rewrite Hent in Ha, Hb. repeat case_decide; try done. eauto.
  - rewrite Hent. by case_decide.
  - intros j k' f' Hj. rewrite (home_ext t t') by done. rewrite !(lin_ext t t') by done.
    rewrite Hent in Hj. case_decide; [done|]. destruct (Hseam j k' f' Hj) as [Hle Hchain].
    split; [done|]. intros j' Hj' Hr. rewrite (lin_ext t t') in Hr by done. rewrite Hent.
    case_decide; [right|left; auto]. subst. split; [done|lia].
  - intros k' f'. rewrite lookup_delete_Some, (Hrep k' f'). split.
    + intros [Hne [j Hj]]. exists j. rewrite Hent. case_decide; [congruence|done].
    + intros [j Hj]. rewrite Hent in Hj. case_decide; [done|]. split; [|eauto].
      intros ->. eauto.
Qed.

Lemma remove_ok t m page :
  table_wf t → table_rep t m →
  ∃ t', remove_shared t page = Done (t', m !! page) ∧ table_wf t' ∧
    table_rep t' (delete page m) ∧ capacity t' = capacity t.
Proof.
  intros Hwf Hrep. pose proof (wf_shape t Hwf) as Hs. unfold remove_shared.
  assert (∀ j f, entry_at t j = Some (page, f) → m !! page = Some f) as Hin.
  { intros j f Hj. apply Hrep. eauto. }
  assert ((∀ j f, entry_at t j ≠ Some (page, f)) → m !! page = None) as Hout.
  { intros Habs. destruct (m !! page) as [f|] eqn:Hm; [|done].
    apply Hrep in Hm as [j Hj]. by destruct (Habs j f). }
  destruct (probe_outcome t page (remove_body t page) Hwf)
    as [(i & Hi & Hend & ->)|(s' & [_ Habs] & ->)].
  - intros i Hi Hst. unfold remove_body, stops in *.
    rewrite probe_guard, slot_read_ok by done. simpl. destruct (entry_at t i) as [[k f]|]; [|done].
    rewrite Hst, next_slot_ok by done. done.
  - intros i s' Hi Hst. unfold remove_body, stops in *.
    rewrite probe_guard, slot_read_ok by done. simpl. destruct (entry_at t i) as [[k f]|]; [|done].
    by rewrite Hst.
  - unfold remove_body. rewrite probe_guard, slot_read_ok by done. simpl.
    destruct Hend as [f He|d Hd Hieq He Habs _]; rewrite He; simpl.
    + rewrite bool_decide_eq_true_2 by done. simpl.
      destruct (slot_write_ok t Hs i None Hi) as (t1 & Hw & Hs1 & Hc1 & Hm1 & Hl1 & He1 & Hn1).
      rewrite Hw, He in *. simpl in *. pose proof (wf_len t Hwf) as Hlen.
      assert (len t ≠ 0) by lia.
      rewrite Hl1, assertb_true by (apply negb_true_iff, N.eqb_neq; done). simpl.
      rewrite sub_ok by lia. simpl. destruct (wf_seam t Hwf) as [v Hv].
      destruct (backward_shift_ok (with_len t1 (len t - 1)) (delete page m) v i)
        as (t2 & -> & Hwf2 & Hrep2 & Hc2).
      { apply (hole_open t _ m v i page f); try done.
        - split_and!; try done. by destruct Hs1.
        - simpl. lia. }
      simpl. exists t2. rewrite (Hin i f He). split_and!; try done. by rewrite Hc2.
    + exists t. rewrite Hout by done. split_and!; try done. by rewrite delete_id by auto.
  - exists t. simpl. rewrite Hout by done. split_and!; try done. by rewrite delete_id by auto.
Qed.

(** ** Construction *)

Lemma new_table_ok n :
  0 < n → n ≤ 2 ^ 30 →
  ∃ t, try_with_frame_count n = Done t ∧ table_wf t ∧ table_rep t ∅ ∧
    2 * n ≤ capacity t ∧ capacity t < 4 * n ∧ len t = 0.
Proof.
  intros Hn Hmax. unfold try_with_frame_count, checked_mul, checked_next_power_of_two.
  rewrite assertb_true by by apply N.ltb_lt. simpl.
  rewrite (proj2 (N.leb_le _ _)) by (unfold U32_MAX; lia). simpl.
  assert (2 ^ N.log2_up (n * 2) ≤ 2 ^ 31) as Hcap.
  { apply N.pow_le_mono_r; [lia|]. change 31 with (N.log2_up (2 ^ 31)). apply N.log2_up_le_mono. lia. }
  rewrite (proj2 (N.leb_le _ _)) by (unfold U32_MAX; lia). simpl.
  assert (∀ i, entry_at (mkPageTable (replicate (N.to_nat (2 ^ N.log2_up (n * 2))) Cell_vacant)
    (2 ^ N.log2_up (n * 2)) (2 ^ N.log2_up (n * 2) - 1) 0) i = None) as Hempty.
  { intros i. unfold entry_at. simpl.
    destruct (replicate _ _ !! _) as [c|] eqn:Hc; [|done]. apply lookup_replicate in Hc as [-> _]. done. }
  eexists; split; [done|].
  pose proof (N.log2_up_spec (n * 2) ltac:(lia)) as [Hlo Hhi].
  assert (2 ^ N.log2_up (n * 2) < 4 * n).
  { replace (N.log2_up (n * 2)) with (N.succ (N.pred (N.log2_up (n * 2)))).
    - rewrite N.pow_succ_r'. lia.
    - apply N.succ_pred. intros H0. rewrite H0 in Hhi. simpl in Hhi. lia. }
  split_and!; simpl; try lia.
  - split; [split|..]; simpl.
    + exists (N.log2_up (n * 2)). split; [done|]. change 31 with (N.log2_up (2 ^ 31)).
      apply N.log2_up_le_mono. lia.
    + done.
    + unfold vlen. rewrite length_replicate. lia.
    + by apply Forall_replicate.
    + intros i j k f g Hi. by rewrite Hempty in Hi.
    + exists 0. split; [simpl; lia|]. intros i k f Hi. by rewrite Hempty in Hi.
    + symmetry. apply countb_none. intros i c Hc. apply lookup_replicate in Hc as [-> _]. done.
  - intros k f. split; [by rewrite lookup_empty|]. intros [i Hi]. by rewrite Hempty in Hi.
Qed.

(** ** Size *)

Lemma len_capacity t : table_wf t → len t ≤ capacity t.
Proof.
  intros Hwf. pose proof (countb_le cell_full (slots t)) as Hle. rewrite <- (wf_len t Hwf) in Hle.
  rewrite <- (shape_slots t (wf_shape t Hwf)). unfold vlen. lia.
Qed.

Lemma rep_size t m :
  table_wf t → table_rep t m → N.of_nat (size m) = len t.
Proof.
  intros Hwf Hrep.
  assert (NoDup (omap cell_entry (slots t)).*1) as Hnd.
  { apply NoDup_omap_fst. intros i j x y k a b Hi Hj Hx Hy.
    assert (N.of_nat i = N.of_nat j); [|lia].
    apply (wf_unique t Hwf _ _ k a b); unfold entry_at; rewrite Nat2N.id;
      [rewrite Hi|rewrite Hj]; done. }
  assert (m = list_to_map (omap cell_entry (slots t))) as ->.
  { apply map_eq. intros k. apply option_eq. intros f. rewrite (Hrep k f).
    rewrite <- elem_of_list_to_map by done. rewrite list_elem_of_omap. split.
    - intros [i Hi]. unfold entry_at in Hi. apply bind_Some in Hi as (c & Hc & He).
      exists c. split; [|done]. apply list_elem_of_lookup. eauto.
    - intros (c & Hc & He). apply list_elem_of_lookup in Hc as [i Hi].
      exists (N.of_nat i). unfold entry_at. by rewrite Nat2N.id, Hi. }
  rewrite map_size_list_to_map by done. rewrite length_omap_countb.
  trans (N.of_nat (countb cell_full (slots t))); [done|].
  rewrite <- (wf_len t Hwf). lia.
Qed.
End PageTable.

(** ** The interface the pool relies on

    A frame map promises the finite-map behaviour of its three operations as long
    as the number of keys stays within its capacity, and a panic when a new key would
    exceed it. *)

Class FrameMap (T : Type) := {
  fm_lookup : T → PageId → outcome (option ReadFrameIdx);
  fm_insert : T → PageId → ReadFrameIdx → outcome T;
  fm_remove : T → PageId → outcome (T * option ReadFrameIdx);
  fm_rep : T → N → gmap PageId ReadFrameIdx → Prop;
  fm_lookup_ok : ∀ t cap m k, fm_rep t cap m → fm_lookup t k = Done (m !! k);
  fm_insert_ok : ∀ t cap m k f, fm_rep t cap m →
    is_Some (m !! k) ∨ N.of_nat (size m) < cap →
    ∃ t', fm_insert t k f = Done t' ∧ fm_rep t' cap (<[k := f]> m);
  fm_insert_full : ∀ t cap m k f, fm_rep t cap m → m !! k = None → cap ≤ N.of_nat (size m) → fm_insert t k f = Panic;
  fm_remove_ok : ∀ t cap m k, fm_rep t cap m →
    ∃ t', fm_remove t k = Done (t', m !! k) ∧ fm_rep t' cap (delete k m);
}.

#[global, program] Instance page_table_frame_map : FrameMap PageTable.PageTable := {|
  fm_lookup := PageTable.lookup;
  fm_insert := PageTable.insert_shared;
  fm_remove := PageTable.remove_shared;
  fm_rep t cap m := PageTable.table_wf t ∧ PageTable.table_rep t m ∧ PageTable.capacity t = cap;
|}.
Next Obligation. intros t cap m k (Hwf & Hrep & _). by apply PageTable.lookup_ok. Qed.
Next Obligation.
  intros t cap m k f (Hwf & Hrep & <-) Hroom.
  destruct (PageTable.insert_ok t m k f Hwf Hrep) as (t' & Hi & Hwf' & Hrep' & Hc); [|eauto].
  by rewrite <- (PageTable.rep_size t m Hwf Hrep).
Qed.
Next Obligation.
  intros t cap m k f (Hwf & Hrep & <-) Hk Hfull. apply (PageTable.insert_panics t m k f Hwf Hrep Hk).
  rewrite (PageTable.rep_size t m Hwf Hrep) in *. pose proof (PageTable.len_capacity t Hwf). lia.
Qed.
Next Obligation.
  intros t cap m k (Hwf & Hrep & <-).
  destruct (PageTable.remove_ok t m k Hwf Hrep) as (t' & Hr & Hwf' & Hrep' & Hc). eauto.
Qed.

(** ** Traces of operations *)

Inductive table_op :=
  | OpLookup (k : PageId)
  | OpInsert (k : PageId) (f : ReadFrameIdx)
  | OpRemove (k : PageId).

(** The outputs of a sequence of operations on a frame map, and on a finite map. *)
Section traces.
Context {T : Type} `{!FrameMap T}.

Fixpoint run_table (t : T) (ops : list table_op) : outcome (list (option ReadFrameIdx)) :=
  match ops with
  | [] => Done []
  | OpLookup k :: ops => o ← fm_lookup t k; os ← run_table t ops; Done (o :: os)
  | OpInsert k f :: ops => t ← fm_insert t k f; run_table t ops
  | OpRemove k :: ops => '(t, o) ← fm_remove t k; os ← run_table t ops; Done (o :: os)
  end.

Fixpoint run_map (m : gmap PageId ReadFrameIdx) (ops : list table_op) : list (option ReadFrameIdx) :=
  match ops with
  | [] => []
  | OpLookup k :: ops => m !! k :: run_map m ops
  | OpInsert k f :: ops => run_map (<[k := f]> m) ops
  | OpRemove k :: ops => m !! k :: run_map (delete k m) ops
  end.

(** No insertion of the trace finds [cap] keys stored. *)
Fixpoint fits (cap : N) (m : gmap PageId ReadFrameIdx) (ops : list table_op) : bool :=
  match ops with
  | [] => true
  | OpLookup _ :: ops => fits cap m ops
  | OpInsert k f :: ops =>
      (bool_decide (is_Some (m !! k)) || (N.of_nat (size m) <? cap)) && fits cap (<[k := f]> m) ops
  | OpRemove k :: ops => fits cap (delete k m) ops
  end.

Lemma run_table_ok t cap m ops :
  fm_rep t cap m → fits cap m ops = true → run_table t ops = Done (run_map m ops).
Proof.
  revert t m. induction ops as [|[k|k f|k] ops IH]; intros t m Hrep Hfit; simpl in *; [done|..].
  - rewrite (fm_lookup_ok t cap m k Hrep). mred. by rewrite (IH t m Hrep Hfit).
  - apply andb_true_iff in Hfit as [Hroom Hfit].
    destruct (fm_insert_ok t cap m k f Hrep) as (t' & -> & Hrep').
    { apply orb_true_iff in Hroom as [?%bool_decide_eq_true|?%N.ltb_lt]; auto. }
    mred. by apply IH.
  - destruct (fm_remove_ok t cap m k Hrep) as (t' & -> & Hrep'). mred.
    by rewrite (IH t' _ Hrep' Hfit).
Qed.

Lemma run_table_full t cap m ops : fm_rep t cap m → fits cap m ops = false → run_table t ops = Panic.
Proof.
  revert t m. induction ops as [|[k|k f|k] ops IH]; intros t m Hrep Hfit; simpl in *; [done|..].
  - rewrite (fm_lookup_ok t cap m k Hrep). mred. by rewrite (IH t m Hrep Hfit).
  - destruct (bool_decide (is_Some (m !! k)) || (N.of_nat (size m) <? cap)) eqn:Hroom; simpl in Hfit.
    + destruct (fm_insert_ok t cap m k f Hrep) as (t' & -> & Hrep').
      { apply orb_true_iff in Hroom as [?%bool_decide_eq_true|?%N.ltb_lt]; auto. }
      mred. by apply (IH t' (<[k := f]> m)).
    + apply orb_false_iff in Hroom as [Hk%bool_decide_eq_false Hfull%N.ltb_ge].
      rewrite (fm_insert_full t cap m k f Hrep); [done| |done]. by apply eq_None_not_Some.
  - destruct (fm_remove_ok t cap m k Hrep) as (t' & -> & Hrep'). mred.
    by rewrite (IH t' _ Hrep' Hfit).
Qed.
End traces.

(** ** Properties *)

Module PageTableProperties.
Import PageTable.

(** C29 (page table refines a finite map).  A table built for [n] frames, at most 2^30, has
    a capacity between twice and four times [n] and runs every sequence of lookups,
    insertions and removals as a finite map of that capacity does: while the distinct
    keys stay within the capacity it returns exactly what a finite map returns (no probe
    stops early after a backward-shift deletion, no entry is lost or duplicated), and a
    sequence that inserts a new key into a full table panics. *)
Theorem page_table_refines_map n ops :
  0 < n → n ≤ 2 ^ 30 →
  ∃ t, try_with_frame_count n = Done t ∧ 2 * n ≤ capacity t < 4 * n ∧
    run_table t ops = if fits (capacity t) ∅ ops then Done (run_map ∅ ops) else Panic.
Proof.
  intros Hn Hmax. destruct (new_table_ok n Hn Hmax) as (t & Ht & Hwf & Hrep & Hcap & Hcap4 & _).
  exists t. split_and!; [done..|]. assert (fm_rep t (capacity t) ∅) as Hfm by done.
  destruct (fits (capacity t) ∅ ops) eqn:Hfit; [by eapply run_table_ok|by eapply run_table_full].
Qed.

Definition demo_pg (i : N) : PageId := mkPageId (mkFileId 7 3 1) i.

(** A removal shifts entries back; a third key does not fit the table of one frame. *)
Lemma page_table_refines_map_witness :
  (∃ t, try_with_frame_count 2 = Done t ∧
    run_table t [OpInsert (demo_pg 0) 5; OpInsert (demo_pg 1) 6; OpInsert (demo_pg 2) 7;
                 OpRemove (demo_pg 1); OpLookup (demo_pg 2); OpLookup (demo_pg 1)] =
      Done [Some 6; Some 7; None]) ∧
  ∃ t, try_with_frame_count 1 = Done t ∧
    run_table t [OpInsert (demo_pg 0) 5; OpInsert (demo_pg 1) 6; OpInsert (demo_pg 2) 7] = Panic.
Proof.
  split.
  - destruct (page_table_refines_map 2 [OpInsert (demo_pg 0) 5; OpInsert (demo_pg 1) 6;
      OpInsert (demo_pg 2) 7; OpRemove (demo_pg 1); OpLookup (demo_pg 2); OpLookup (demo_pg 1)]) as (t & Ht & _ & Hr);
      [vm_compute; done..|]. exists t. split; [exact Ht|]. rewrite Hr. vm_compute in Ht. injection Ht as <-. vm_compute. reflexivity.
  - destruct (page_table_refines_map 1 [OpInsert (demo_pg 0) 5; OpInsert (demo_pg 1) 6; OpInsert (demo_pg 2) 7]) as (t & Ht & _ & Hr);
      [vm_compute; done..|]. exists t. split; [exact Ht|]. rewrite Hr. vm_compute in Ht. injection Ht as <-. vm_compute. reflexivity.
Defined.

(** Insertion. On a well-formed table an insertion succeeds exactly when the
    key is present or a slot is vacant, stores the key's frame, keeps every other
    key and restores the invariant; a new key into a full table panics. *)
Theorem page_table_insert t m page fr :
  table_wf t → table_rep t m →
  (is_Some (m !! page) ∨ len t < capacity t →
     ∃ t', insert_shared t page fr = Done t' ∧ table_wf t' ∧
       table_rep t' (<[page := fr]> m) ∧ capacity t' = capacity t) ∧
  (m !! page = None → len t = capacity t → insert_shared t page fr = Panic).
Proof. intros Hwf Hrep. split; eauto using insert_ok, insert_panics. Qed.

Lemma page_table_insert_witness :
  ∃ t', insert_shared (mkPageTable [Cell_vacant; Cell_vacant] 2 1 0) (demo_pg 0) 5 = Done t' ∧
    table_wf t' ∧ table_rep t' {[demo_pg 0 := 5]} ∧ capacity t' = 2.
Proof.
  destruct (new_table_ok 1) as (t & Ht & Hwf & Hrep & _); [done|done|].
  vm_compute in Ht. injection Ht as <-.
  destruct (page_table_insert _ ∅ (demo_pg 0) 5 Hwf Hrep) as [Hok _].
  apply Hok. right. vm_compute. reflexivity.
Defined.

(** (removal).  Removing a key from a well-formed table never panics, returns
    the key's frame if it was stored, deletes that key only, and restores the
    probe-chain invariant, also when the table was completely full. *)
Theorem page_table_remove t m page :
  table_wf t → table_rep t m →
  ∃ t', remove_shared t page = Done (t', m !! page) ∧ table_wf t' ∧
    table_rep t' (delete page m) ∧ capacity t' = capacity t.
Proof. apply remove_ok. Qed.

Lemma page_table_remove_witness :
  ∃ t', remove_shared (mkPageTable [Cell_vacant; Cell_vacant] 2 1 0) (demo_pg 0) = Done (t', None) ∧
    table_wf t' ∧ table_rep t' (delete (demo_pg 0) ∅) ∧ capacity t' = 2.
Proof.
  destruct (new_table_ok 1) as (t & Ht & Hwf & Hrep & _); [done|done|].
  vm_compute in Ht. injection Ht as <-.
  exact (page_table_remove _ ∅ (demo_pg 0) Hwf Hrep).
Defined.

End PageTableProperties.
