(* ===== verification/Frames.v ===== *)
(** * Read frames: residency words, write tokens, the free stack

    Models src/src/pool/frames.rs.  A frame's residency is a packed 64-bit word
    (generation above a two-bit state tag); the edges into and out of [InFlight]
    go through a linear [InFlightFrame] token, the reclamation edges through
    [advance].  The atomics are read and written by one operation at a time; the
    load and the compare-exchange of a claim are separate operations, so that
    racing claimants can be interleaved.  The theorems: the word layout round
    trips, the state machine of a word admits only the residency cycle, the
    generation grows exactly on publication, a live token exists for a frame iff
    the frame is in flight and then only one does, transfer ranges stay inside
    their own frame, and the free stack is last-in first-out. *)
From stdpp Require Import prelude list relations.
From Stdlib Require Import NArith Lia.
From S2P Require Import Prelude Ids.

Open Scope N_scope.

Module Frames.

(** ** Definitions *)

Definition SECTOR_BYTES : N := 4096.
Definition HUGEPAGE_BYTES : N := 2 * 1024 * 1024.
Definition FRAME_STATE_BITS : N := 2.
Definition FRAME_STATE_MASK : N := N.shiftl 1 FRAME_STATE_BITS - 1.
Definition FRAME_GENERATION_MAX : N := N.shiftr U64_MAX FRAME_STATE_BITS.

Inductive FrameState := Free | InFlight | Resident | Evicting.

#[global] Instance FrameState_eq_dec : EqDecision FrameState.
Proof. solve_decision. Defined.

(** The legal edges of the residency cycle, and the miss-abort edge. *)
Definition state_advance (self to : FrameState) : outcome FrameState :=
  let legal :=
    match self, to with
    | Free, InFlight => true
    | InFlight, Resident => true
    | InFlight, Free => true
    | Resident, Evicting => true
    | Evicting, Free => true
    | _, _ => false
    end in
  assertb legal;; Done to.

Definition to_tag (s : FrameState) : N :=
  match s with Free => 0 | InFlight => 1 | Resident => 2 | Evicting => 3 end.

Definition from_tag (tag : N) : outcome FrameState :=
  match tag with
  | 0 => Done Free
  | 1 => Done InFlight
  | 2 => Done Resident
  | 3 => Done Evicting
  | _ => Panic
  end.

Definition from_word (word : N) : outcome FrameState :=
  from_tag (N.land word FRAME_STATE_MASK).

(** The unique authority to write one frame, naming the arena that minted it;
    the frame is stored as index plus one. *)
Record InFlightFrame := mkInFlightFrame {
  tok_arena : N;
  tok_frame : N;
}.

#[global] Instance InFlightFrame_eq_dec : EqDecision InFlightFrame.
Proof. solve_decision. Defined.

Definition InFlightFrame_new (arena : N) (frame : ReadFrameIdx) : outcome InFlightFrame :=
  f ← expect (checked_add U32_MAX frame 1);
  assertb (negb (f =? 0));;
  Done (mkInFlightFrame arena f).

Definition InFlightFrame_frame (t : InFlightFrame) : ReadFrameIdx := tok_frame t - 1.

(** The arena: one state word and one identity cell per frame. *)
Record Frames := mkFrames {
  states : list N;
  pages : list (option PageId);
  count : N;
  granule : N;
  id : N;
}.

Definition set_states (f : Frames) (w : list N) : Frames :=
  mkFrames w (pages f) (count f) (granule f) (id f).
Definition set_pages (f : Frames) (p : list (option PageId)) : Frames :=
  mkFrames (states f) p (count f) (granule f) (id f).

(** [Frames::try_preallocated]; [None] when the span overflows the address
    space.  [next_id] is the process-wide arena counter's next value. *)
Definition try_preallocated (usize_max next_id cnt gran : N) : outcome (option Frames) :=
  assertb (0 <? cnt);;
  assertb (is_power_of_two gran);;
  assertb (SECTOR_BYTES <=? gran);;
  match checked_mul usize_max cnt gran with
  | None => Done None
  | Some _ =>
      assertb (0 <? next_id);;
      Done (Some (mkFrames (replicate (N.to_nat cnt) 0) (replicate (N.to_nat cnt) None)
                    cnt gran next_id))
  end.

Definition arena_alignment (linux : bool) (span gran : N) : N :=
  if linux && (HUGEPAGE_BYTES <=? span) then N.max HUGEPAGE_BYTES gran else gran.

Definition checked_index (f : Frames) (frame : ReadFrameIdx) : outcome N :=
  assertb (frame <? vlen (states f));; Done frame.

Definition owned_index (f : Frames) (t : InFlightFrame) : outcome N :=
  assertb (tok_arena t =? id f);;
  let index := InFlightFrame_frame t in
  assertb (index <? count f);; Done index.

(** The load half of a claim: the word, when the frame is [Free]. *)
Definition claim_load (f : Frames) (frame : ReadFrameIdx) : outcome (option N) :=
  index ← checked_index f frame;
  current_word ← vget (states f) index;
  current ← from_word current_word;
  Done (if bool_decide (current = Free) then Some current_word else None).

(** The compare-exchange half of a claim. *)
Definition claim_cas (f : Frames) (frame : ReadFrameIdx) (current_word : N) :
    outcome (Frames * option InFlightFrame) :=
  index ← checked_index f frame;
  next ← state_advance Free InFlight;
  let next_word := N.lor (N.ldiff current_word FRAME_STATE_MASK) (to_tag next) in
  actual ← vget (states f) index;
  if actual =? current_word then
    w ← vset (states f) index next_word;
    t ← InFlightFrame_new (id f) frame;
    Done (set_states f w, Some t)
  else Done (f, None).

Definition claim_unidentified (f : Frames) (frame : ReadFrameIdx) :
    outcome (Frames * option InFlightFrame) :=
  w ← claim_load f frame;
  match w with
  | None => Done (f, None)
  | Some current_word => claim_cas f frame current_word
  end.

Definition claim (f : Frames) (frame : ReadFrameIdx) (page : PageId) :
    outcome (Frames * option InFlightFrame) :=
  '(f, t) ← claim_unidentified f frame;
  match t with
  | None => Done (f, None)
  | Some t =>
      p ← vset (pages f) (InFlightFrame_frame t) (Some page);
      Done (set_pages f p, Some t)
  end.

(** The byte offset of the destination range inside the arena. *)
Definition transfer_ptr (f : Frames) (t : InFlightFrame) (destination_offset requested_len : N) :
    outcome N :=
  index ← owned_index f t;
  w ← vget (states f) index;
  s ← from_word w;
  assertb (bool_decide (s = InFlight));;
  assertb (destination_offset <=? granule f);;
  room ← sub_ (granule f) destination_offset;
  assertb (requested_len <=? room);;
  Done (index * granule f + destination_offset).

Definition advance_generation (current_word : N) (next : FrameState) : outcome N :=
  let generation := N.shiftr current_word FRAME_STATE_BITS in
  if bool_decide (next = Resident) then
    g ← expect (checked_add U64_MAX generation 1);
    assertb (g <=? FRAME_GENERATION_MAX);; Done g
  else Done generation.

Definition pack (generation : N) (s : FrameState) : N :=
  N.lor (N.shiftl generation FRAME_STATE_BITS) (to_tag s).

Definition consume (f : Frames) (t : InFlightFrame) (to : FrameState) :
    outcome (Frames * ReadFrameIdx) :=
  index ← owned_index f t;
  current_word ← vget (states f) index;
  current ← from_word current_word;
  assertb (bool_decide (current = InFlight));;
  next ← state_advance current to;
  generation ← advance_generation current_word next;
  w ← vset (states f) index (pack generation next);
  Done (set_states f w, InFlightFrame_frame t).

Definition publish (f : Frames) (t : InFlightFrame) := consume f t Resident.
Definition abort (f : Frames) (t : InFlightFrame) := consume f t Free.

Definition state_word (f : Frames) (frame : ReadFrameIdx) : outcome N :=
  index ← checked_index f frame; vget (states f) index.

Definition state (f : Frames) (frame : ReadFrameIdx) : outcome FrameState :=
  w ← state_word f frame; from_word w.

Definition word_is_resident (word : N) : outcome bool :=
  s ← from_word word; Done (bool_decide (s = Resident)).

(** [ExactPageCells::read]: reading an unwritten identity is undefined
    behaviour, which the model treats as a panic. *)
Definition page_read (f : Frames) (index : N) : outcome PageId :=
  o ← vget (pages f) index; expect o.

Definition validate_resident (f : Frames) (frame : ReadFrameIdx) (stamp : N) :
    outcome (option PageId) :=
  index ← checked_index f frame;
  word ← vget (states f) index;
  r ← word_is_resident word;
  if negb (word =? stamp) || negb r then Done None
  else p ← page_read f index; Done (Some p).

(** [exact_page_guarded], [exact_page_locked]: the identity of a published frame. *)
Definition exact_page (f : Frames) (frame : ReadFrameIdx) : outcome PageId :=
  index ← checked_index f frame;
  w ← vget (states f) index;
  s ← from_word w;
  assertb (bool_decide (s = Resident) || bool_decide (s = Evicting));;
  page_read f index.

(** The reclamation edges. *)
Definition advance (f : Frames) (frame : ReadFrameIdx) (to : FrameState) : outcome Frames :=
  index ← checked_index f frame;
  current_word ← vget (states f) index;
  current ← from_word current_word;
  let reclamation_edge :=
    match current, to with
    | Resident, Evicting => true
    | Evicting, Free => true
    | _, _ => false
    end in
  assertb reclamation_edge;;
  next ← state_advance current to;
  generation ← advance_generation current_word next;
  w ← vset (states f) index (pack generation next);
  Done (set_states f w).

(** ** The free stack *)

Record FreeFrames := mkFreeFrames {
  ff_frames : list ReadFrameIdx;
  ff_len : N;
}.

Definition try_empty (capacity : N) : FreeFrames :=
  mkFreeFrames (replicate (N.to_nat capacity) 0) 0.

(** Holds every frame, the last pushed being frame 0. *)
Definition try_with_all (frame_count : N) : FreeFrames :=
  mkFreeFrames (rev (N.of_nat <$> seq 0 (N.to_nat frame_count))) frame_count.

Definition push (s : FreeFrames) (frame : ReadFrameIdx) : outcome FreeFrames :=
  let index := ff_len s in
  assertb (index <? vlen (ff_frames s));;
  v ← vset (ff_frames s) index frame;
  Done (mkFreeFrames v (ff_len s + 1)).

Definition pop (s : FreeFrames) : outcome (FreeFrames * option ReadFrameIdx) :=
  match checked_sub (ff_len s) 1 with
  | None => Done (s, None)
  | Some index =>
      f ← vget (ff_frames s) index;
      Done (mkFreeFrames (ff_frames s) index, Some f)
  end.

(** ** The packed word *)

Definition word_state (w : N) : FrameState :=
  match N.land w FRAME_STATE_MASK with 0 => Free | 1 => InFlight | 2 => Resident | _ => Evicting end.

Definition word_generation (w : N) : N := N.shiftr w FRAME_STATE_BITS.

Lemma mask_val : FRAME_STATE_MASK = 3.
Proof. done. Qed.

Lemma land_mask_4 w : N.land w FRAME_STATE_MASK = w mod 4.
Proof. rewrite mask_val. apply (land_mask 2). Qed.

(** Every word decodes: the masked tag is always in range. *)
Lemma from_word_total w : from_word w = Done (word_state w).
Proof.
  unfold from_word, word_state, from_tag. rewrite land_mask_4.
  assert (w mod 4 < 4) by (apply N.mod_lt; done).
  destruct (w mod 4) as [|[[]|[]|]] eqn:E; try done; lia.
Qed.

Lemma pack_add g s : pack g s = 4 * g + to_tag s.
Proof.
  unfold pack, FRAME_STATE_BITS. rewrite N.shiftl_mul_pow2. change (2 ^ 2) with 4.
  assert (N.land (g * 4) (to_tag s) = 0) as Hd.
  { assert (N.land (to_tag s) 3 = to_tag s) as <- by by destruct s.
    rewrite (N.land_comm (to_tag s)), N.land_assoc. change 3 with (2 ^ 2 - 1).
    rewrite land_mask. change (2 ^ 2) with 4. by rewrite N.Div0.mod_mul. }
  rewrite <- N.lxor_lor, <- N.add_nocarry_lxor by done. lia.
Qed.

Lemma pack_state g s : word_state (pack g s) = s.
Proof.
  unfold word_state. rewrite land_mask_4, pack_add, N.add_comm, N.mul_comm, N.Div0.mod_add.
  by destruct s.
Qed.

Lemma pack_generation g s : word_generation (pack g s) = g.
Proof.
  unfold word_generation, FRAME_STATE_BITS. rewrite N.shiftr_div_pow2, pack_add.
  change (2 ^ 2) with 4. rewrite N.mul_comm, N.div_add_l by done.
  assert (to_tag s / 4 = 0) as -> by by destruct s. lia.
Qed.

Lemma pack_unpack w : pack (word_generation w) (word_state w) = w.
Proof.
  rewrite pack_add. unfold word_generation, word_state, FRAME_STATE_BITS.
  rewrite N.shiftr_div_pow2, land_mask_4. change (2 ^ 2) with 4.
  pose proof (N.Div0.div_mod w 4). assert (w mod 4 < 4) by (apply N.mod_lt; done).
  destruct (w mod 4) as [|[[]|[]|]] eqn:E; simpl; lia.
Qed.

(** Replacing the tag with the mask-and-or of a claim keeps the generation. *)
Lemma retag w s : N.lor (N.ldiff w FRAME_STATE_MASK) (to_tag s) = pack (word_generation w) s.
Proof.
  unfold pack, word_generation, FRAME_STATE_BITS. f_equal.
  rewrite mask_val. change 3 with (N.ones 2). by rewrite N.ldiff_ones_r.
Qed.

#[global] Arguments word_state : simpl never.
#[global] Arguments word_generation : simpl never.
#[global] Arguments pack : simpl never.
#[global] Arguments from_word : simpl never.
#[global] Arguments advance_generation : simpl never.
#[global] Arguments checked_index : simpl never.
#[global] Arguments owned_index : simpl never.
#[global] Arguments InFlightFrame_new : simpl never.

(** ** One frame's view of an operation *)

Definition word_at (f : Frames) (i : ReadFrameIdx) : option N := states f !! N.to_nat i.
Definition page_at (f : Frames) (i : ReadFrameIdx) : option (option PageId) :=
  pages f !! N.to_nat i.

Record frames_shape (f : Frames) : Prop := {
  fs_states : vlen (states f) = count f;
  fs_pages : vlen (pages f) = count f;
  fs_count : count f ≤ U32_MAX;
}.

(** Storing word [w] at frame [i] and nothing else. *)
Definition word_stored (f f' : Frames) (i : ReadFrameIdx) (w : N) : Prop :=
  pages f' = pages f ∧ count f' = count f ∧ granule f' = granule f ∧ id f' = id f ∧
  i < count f ∧ vlen (states f') = vlen (states f) ∧
  ∀ j, word_at f' j = if decide (j = i) then Some w else word_at f j.

Lemma set_word_stored f i w :
  frames_shape f → i < count f →
  word_stored f (set_states f (<[N.to_nat i := w]> (states f))) i w.
Proof.
  intros Hs Hi. unfold word_stored, word_at. simpl. split_and!; try done.
  - by rewrite vlen_insert.
  - intros j. case_decide as Hj; [subst|].
    + apply list_lookup_insert_eq. destruct Hs as [H _ _]. unfold vlen in H. lia.
    + by rewrite list_lookup_insert_ne by lia.
Qed.

Lemma word_stored_shape f f' i w : frames_shape f → word_stored f f' i w → frames_shape f'.
Proof.
  intros [Hs Hp Hc] (Hpg & Hcnt & _ & _ & _ & Hlen & _). split; congruence.
Qed.

Lemma checked_index_ok f i : i < vlen (states f) → checked_index f i = Done i.
Proof. intros H. unfold checked_index. by rewrite assertb_true by by apply N.ltb_lt. Qed.

Lemma checked_index_Done f i j : checked_index f i = Done j ↔ j = i ∧ i < vlen (states f).
Proof.
  unfold checked_index. destruct (N.ltb_spec i (vlen (states f))); simpl; naive_solver lia.
Qed.

Lemma owned_index_Done f t j :
  owned_index f t = Done j ↔
  j = InFlightFrame_frame t ∧ tok_arena t = id f ∧ InFlightFrame_frame t < count f.
Proof.
  unfold owned_index. destruct (N.eqb_spec (tok_arena t) (id f)); simpl; [|naive_solver].
  destruct (N.ltb_spec (InFlightFrame_frame t) (count f)); simpl; naive_solver lia.
Qed.

Lemma advance_generation_Done w s g :
  advance_generation w s = Done g ↔
  (s = Resident ∧ g = word_generation w + 1 ∧ g ≤ FRAME_GENERATION_MAX) ∨
  (s ≠ Resident ∧ g = word_generation w).
Proof.
  unfold advance_generation, word_generation. case_bool_decide as Hs.
  - subst. split.
    + intros H. inv_done. apply checked_add_Some in H as [-> _]. reflect_bools. left. done.
    + intros [(_ & -> & Hle)|[? _]]; [|done].
      assert (checked_add U64_MAX (N.shiftr w FRAME_STATE_BITS) 1 =
        Some (N.shiftr w FRAME_STATE_BITS + 1)) as ->.
      { apply checked_add_Some. split; [done|].
        change FRAME_GENERATION_MAX with (2 ^ 62 - 1) in Hle. unfold U64_MAX. lia. }
      mred. by rewrite assertb_true by by apply N.leb_le.
  - naive_solver.
Qed.

(** ** What each operation does to the words *)

Lemma state_advance_to a b c : state_advance a b = Done c → c = b.
Proof. unfold state_advance. destruct a, b; simpl; congruence. Qed.

Lemma claim_load_Done f i o :
  frames_shape f → claim_load f i = Done o ↔
  ∃ w, word_at f i = Some w ∧ o = if bool_decide (word_state w = Free) then Some w else None.
Proof.
  intros Hs. unfold claim_load, word_at. split.
  - intros H. inv_done. apply checked_index_Done in H as [-> Hi].
    rewrite from_word_total in H1. inv_done. eauto.
  - intros (w & Hw & ->). rewrite checked_index_ok by eauto using vget_lt. mred.
    rewrite (proj2 (vget_Done _ _ _) Hw). mred. by rewrite from_word_total.
Qed.

(** A compare-exchange against the current word takes the frame in flight with
    its generation intact and mints the token; against any other word it fails. *)
Lemma claim_cas_spec f i w :
  frames_shape f → i < count f →
  (word_at f i = Some w ∧ ∃ f', word_stored f f' i (pack (word_generation w) InFlight) ∧
     claim_cas f i w = Done (f', Some (mkInFlightFrame (id f) (i + 1)))) ∨
  (word_at f i ≠ Some w ∧ claim_cas f i w = Done (f, None)).
Proof.
  intros Hs Hi. pose proof Hs as [Hst _ Hc]. unfold claim_cas, state_advance, word_at.
  rewrite checked_index_ok by lia. mred.
  destruct (vget_ok (states f) i ltac:(lia)) as (w' & -> & Hw'). mred.
  destruct (N.eqb_spec w' w) as [->|Hne]; [left|right].
  - split; [done|]. rewrite vset_ok by lia. mred.
    unfold InFlightFrame_new. rewrite (proj2 (checked_add_Some U32_MAX i 1 (i + 1))) by lia. mred.
    rewrite assertb_true by (apply negb_true_iff, N.eqb_neq; lia). mred.
    eexists; split; [|done]. rewrite retag. by apply set_word_stored.
  - split; [congruence|done].
Qed.

Lemma consume_Done f t to f' i :
  frames_shape f → consume f t to = Done (f', i) →
  ∃ w g, i = InFlightFrame_frame t ∧ tok_arena t = id f ∧
    word_at f i = Some w ∧ word_state w = InFlight ∧ (to = Resident ∨ to = Free) ∧
    advance_generation w to = Done g ∧ word_stored f f' i (pack g to).
Proof.
  intros Hs H. unfold consume in H. inv_done.
  apply owned_index_Done in H as (-> & Ha & Hi). rewrite from_word_total in H1. inv_done.
  reflect_bools. pose proof (state_advance_to _ _ _ H3). subst.
  eexists _, _; split_and!; [done..| |done|by apply set_word_stored].
  rewrite H2 in H3. destruct to; auto; discriminate H3.
Qed.

Lemma advance_Done f i to f' :
  frames_shape f → advance f i to = Done f' →
  ∃ w, word_at f i = Some w ∧
    ((word_state w = Resident ∧ to = Evicting) ∨ (word_state w = Evicting ∧ to = Free)) ∧
    word_stored f f' i (pack (word_generation w) to).
Proof.
  intros Hs H. unfold advance in H. inv_done.
  apply checked_index_Done in H as [-> Hi]. rewrite from_word_total in H1. inv_done.
  apply state_advance_to in H3 as ->. apply advance_generation_Done in H4. exists x0.
  pose proof (fs_states f Hs).
  destruct (word_state x0) eqn:E, to; try discriminate;
    (destruct H4 as [(? & _)|[_ ->]]; [done|]);
    (split_and!; [done|tauto|apply set_word_stored; [done|lia]]).
Qed.

(** ** The arena as a transition system

    Claimants on different threads interleave their load and compare-exchange
    steps with each other and with the holders of tokens and of the control lock.
    [sys_loads] are the claimants between the two halves of a claim, with the word
    each has read; [sys_tokens] are the tokens that are alive. *)

Record system := mkSystem {
  sys_frames : Frames;
  sys_loads : list (ReadFrameIdx * N);
  sys_tokens : list InFlightFrame;
}.

Inductive step : system → system → Prop :=
  | step_load f ls ts i w :
      claim_load f i = Done (Some w) →
      step (mkSystem f ls ts) (mkSystem f ((i, w) :: ls) ts)
  | step_cas f ls1 ls2 ts i w f' o :
      claim_cas f i w = Done (f', o) →
      step (mkSystem f (ls1 ++ (i, w) :: ls2) ts) (mkSystem f' (ls1 ++ ls2) (option_list o ++ ts))
  | step_identify f ls ts t page p :
      t ∈ ts → vset (pages f) (InFlightFrame_frame t) (Some page) = Done p →
      step (mkSystem f ls ts) (mkSystem (set_pages f p) ls ts)
  | step_consume f ls ts1 ts2 t to f' i :
      consume f t to = Done (f', i) →
      step (mkSystem f ls (ts1 ++ t :: ts2)) (mkSystem f' ls (ts1 ++ ts2))
  | step_advance f ls ts i to f' :
      advance f i to = Done f' →
      step (mkSystem f ls ts) (mkSystem f' ls ts).

Definition initial (s : system) : Prop :=
  ∃ usize_max next_id cnt gran f,
    cnt ≤ U32_MAX ∧ try_preallocated usize_max next_id cnt gran = Done (Some f) ∧
    s = mkSystem f [] [].

(** A frame in flight, as its token names it. *)
Definition in_flight (f : Frames) (t : InFlightFrame) : Prop :=
  tok_arena t = id f ∧ 1 ≤ tok_frame t ∧
  ∃ w, word_at f (InFlightFrame_frame t) = Some w ∧ word_state w = InFlight.

Record system_inv (s : system) : Prop := {
  inv_shape : frames_shape (sys_frames s);
  inv_loads : Forall (λ '(i, w), i < count (sys_frames s) ∧ word_state w = Free) (sys_loads s);
  inv_nodup : NoDup (sys_tokens s);
  inv_tokens : ∀ t, t ∈ sys_tokens s ↔ in_flight (sys_frames s) t;
}.

Lemma word_at_lt f i w : frames_shape f → word_at f i = Some w → i < count f.
Proof. intros Hs Hw. rewrite <- (fs_states f Hs). eauto using vget_lt. Qed.

Lemma initial_inv s : initial s → system_inv s.
Proof.
  intros (um & nid & cnt & gran & f & Hmax & Hf & ->). unfold try_preallocated in Hf.
  inv_done. destruct (checked_mul _ _ _); [|discriminate]. inv_done.
  split; simpl; [split; simpl| | |]; try (unfold vlen; rewrite length_replicate; lia);
    try constructor; try done.
  - by intros ?%elem_of_nil.
  - intros (_ & _ & w & Hw & Hst). apply lookup_replicate in Hw as [-> _]. done.
Qed.

(** A stored word changes which tokens are in flight at its own frame only. *)
Lemma in_flight_stored f f' i w t :
  word_stored f f' i w →
  in_flight f' t ↔
    (InFlightFrame_frame t = i ∧ tok_arena t = id f ∧ 1 ≤ tok_frame t ∧ word_state w = InFlight) ∨
    (InFlightFrame_frame t ≠ i ∧ in_flight f t).
Proof.
  intros (_ & _ & _ & Hid & _ & _ & Hw). unfold in_flight. rewrite Hid, Hw.
  case_decide; naive_solver.
Qed.

Lemma loads_stored f f' i w ls :
  word_stored f f' i w →
  Forall (λ '(i, w), i < count f ∧ word_state w = Free) ls →
  Forall (λ '(i, w), i < count f' ∧ word_state w = Free) ls.
Proof. intros (_ & -> & _) H. done. Qed.

Lemma step_cas_inv f ls ts i w f' o :
  system_inv (mkSystem f ls ts) → i < count f → word_state w = Free →
  claim_cas f i w = Done (f', o) → system_inv (mkSystem f' ls (option_list o ++ ts)).
Proof.
  intros [Hs Hl Hn Ht] Hi Hfree Hcas. simpl in *.
  destruct (claim_cas_spec f i w Hs Hi) as [(Hw & f1 & Hst & Heq)|[_ Heq]];
    rewrite Heq in Hcas; simplify_eq; simpl; [|by split].
  assert (∀ t, InFlightFrame_frame t = i → ¬ in_flight f t) as Hnone.
  { intros t <- (_ & _ & w' & Hw' & Hst'). congruence. }
  split; simpl; eauto using word_stored_shape, loads_stored.
  - constructor; [|done]. rewrite Ht. apply Hnone. unfold InFlightFrame_frame. simpl. lia.
  - intros t. rewrite elem_of_cons, (in_flight_stored f f' i _ t Hst), Ht, pack_state.
    unfold InFlightFrame_frame in *. split.
    + intros [->|Hin]; simpl; [left; split_and!; [lia..|done]|].
      right. split; [|done]. intros <-. by apply (Hnone t).
    + intros [(Hi' & Ha & Hpos & _)|[_ Hin]]; [left|by right].
      destruct t as [a n]; simpl in *. f_equal; [done|lia].
Qed.

Lemma step_consume_inv f ls ts1 t ts2 to f' i :
  system_inv (mkSystem f ls (ts1 ++ t :: ts2)) → consume f t to = Done (f', i) →
  system_inv (mkSystem f' ls (ts1 ++ ts2)).
Proof.
  intros [Hs Hl Hn Ht] Hc. simpl in *.
  destruct (consume_Done f t to f' i Hs Hc) as (w & g & -> & Ha & Hw & Hfl & Hto & Hg & Hst).
  assert (in_flight f t) as Hft by (apply Ht; set_solver).
  rewrite <- Permutation_middle in Hn. apply NoDup_cons in Hn as [Hnot Hn].
  split; simpl; eauto using word_stored_shape, loads_stored.
  intros u. rewrite (in_flight_stored f f' _ _ u Hst), pack_state.
  specialize (Ht u). rewrite elem_of_app, elem_of_cons in Ht. rewrite elem_of_app in Hnot |- *.
  destruct Hft as (Hta & Htp & _). split.
  - intros Hin. right. split; [|tauto]. intros Heq.
    assert (in_flight f u) as (Hua & Hup & _) by tauto.
    assert (u = t) as -> by (destruct u, t; unfold InFlightFrame_frame in *; simpl in *; f_equal; [congruence|lia]).
    done.
  - intros [(_ & _ & _ & Hbad)|[Hne Hin]]; [destruct Hto; congruence|].
    destruct (proj2 Ht Hin) as [?|[->|?]]; tauto.
Qed.

Lemma step_advance_inv f ls ts i to f' :
  system_inv (mkSystem f ls ts) → advance f i to = Done f' → system_inv (mkSystem f' ls ts).
Proof.
  intros [Hs Hl Hn Ht] Ha. simpl in *.
  destruct (advance_Done f i to f' Hs Ha) as (w & Hw & Hedge & Hst).
  split; simpl; eauto using word_stored_shape, loads_stored.
  intros t. rewrite (in_flight_stored f f' _ _ t Hst), pack_state, Ht. split.
  - intros Hin. right. split; [|done]. intros <-. destruct Hin as (_ & _ & w' & Hw' & ?).
    assert (w' = w) as -> by congruence. destruct Hedge as [[? _]|[? _]]; congruence.
  - intros [(_ & _ & _ & Hbad)|[_ Hin]]; [destruct Hedge as [[_ ->]|[_ ->]]|]; done.
Qed.

Lemma step_inv s s' : system_inv s → step s s' → system_inv s'.
Proof.
  intros Hinv Hstep. destruct Hstep as [f ls ts i w Hld|f ls1 ls2 ts i w f' o Hcas
    |f ls ts t page p Hin Hp|f ls ts1 ts2 t to f' i Hc|f ls ts i to f' Ha].
  - destruct Hinv as [Hs Hl Hn Ht]. split; simpl in *; try done. constructor; [|done].
    apply (claim_load_Done f i _ Hs) in Hld as (w' & Hw & Heq).
    case_bool_decide; simplify_eq. eauto using word_at_lt.
  - destruct Hinv as [Hs Hl Hn Ht]. simpl in *.
    apply Forall_app in Hl as [Hl1 [[Hi Hw] Hl2]%Forall_cons].
    eapply step_cas_inv; eauto. split; simpl; try done. by apply Forall_app.
  - destruct Hinv as [[Hs1 Hs2 Hs3] Hl Hn Ht]. inv_done. split; simpl in *; try done.
    split; simpl; try done. by rewrite vlen_insert.
  - eauto using step_consume_inv.
  - eauto using step_advance_inv.
Qed.

Lemma reachable_inv s0 s : initial s0 → rtc step s0 s → system_inv s.
Proof. intros H0%initial_inv Hr. induction Hr; eauto using step_inv. Qed.

(** ** Stamps

    A residency stamp (the whole word of a [Resident] frame) never comes back
    after the frame was reused, so an identity read under an unchanged stamp is
    the identity that was published under it. *)

(** Frame [i] once carried generation [g] with identity [p]. *)
Definition stamped (i : ReadFrameIdx) (g : N) (p : PageId) (s : system) : Prop :=
  ∃ w, word_at (sys_frames s) i = Some w ∧
    (g < word_generation w ∨
     (word_generation w = g ∧
      ((word_state w = Resident ∨ word_state w = Evicting) ∧
         page_at (sys_frames s) i = Some (Some p) ∨
       word_state w = Free ∨ word_state w = InFlight))).

(** The word of one frame across one store. *)
Lemma stamped_stored i g p f f' ls ls' ts ts' j w0 w :
  stamped i g p (mkSystem f ls ts) → word_stored f f' j w →
  word_at f j = Some w0 →
  (word_generation w = word_generation w0 ∧
     (word_state w0, word_state w) ∈
       [(Free, InFlight); (InFlight, Free); (Resident, Evicting); (Evicting, Free)]) ∨
  (word_generation w = word_generation w0 + 1) →
  stamped i g p (mkSystem f' ls' ts').
Proof.
  intros (wi & Hwi & Hd) (Hpg & _ & _ & _ & _ & _ & Hw) Hw0 Hedge. simpl in *.
  unfold stamped, page_at. simpl. rewrite Hw, Hpg. case_decide as Hij; [|by exists wi].
  subst j. exists w. split; [done|]. assert (wi = w0) as -> by congruence.
  destruct Hedge as [[-> Hedge]|Hg]; [|left; destruct Hd as [|[? _]]; lia].
  destruct Hd as [Hlt|[Hg Hd]]; [by left|right; split; [done|]].
  rewrite !elem_of_cons, elem_of_nil in Hedge.
  destruct Hedge as [[= ? ->]|[[= ? ->]|[[= ? ->]|[[= ? ->]|[]]]]]; try tauto.
  left. split; [tauto|]. destruct Hd as [[_ ?]|[?|?]]; [done|congruence..].
Qed.

Lemma stamped_step i g p s s' :
  system_inv s → step s s' → stamped i g p s → stamped i g p s'.
Proof.
  intros [Hs Hl Hn Ht] Hstep Hst. destruct Hstep as [f ls ts j w Hld|f ls1 ls2 ts j w f' o Hcas
    |f ls ts t page pg Hin Hp|f ls ts1 ts2 t to f' j Hc|f ls ts j to f' Ha]; simpl in *.
  - exact Hst.
  - apply Forall_app in Hl as [_ [[Hj Hfree] _]%Forall_cons].
    destruct (claim_cas_spec f j w Hs Hj) as [(Hw & f1 & Hsd & Heq)|[_ Heq]];
      rewrite Heq in Hcas; simplify_eq; [|done].
    eapply stamped_stored; eauto. left. rewrite pack_generation, pack_state, Hfree.
    split; [done|]. set_solver.
  - apply Ht in Hin as (_ & _ & wt & Hwt & Hfl). inv_done.
    destruct Hst as (wi & Hwi & Hd). exists wi. split; [done|]. simpl in *.
    unfold page_at in *. simpl. destruct Hd as [|[Hg Hd]]; [by left|right; split; [done|]].
    destruct Hd as [[Hr Hpg]|]; [left; split; [done|]|by right].
    rewrite list_lookup_insert_ne; [done|]. intros Heq.
    assert (InFlightFrame_frame t = i) as Hi by lia. rewrite Hi in Hwt.
    assert (wt = wi) as -> by congruence. destruct Hr; congruence.
  - destruct (consume_Done f t to f' j Hs Hc) as (w & g' & -> & _ & Hw & Hfl & Hto & Hg & Hsd).
    eapply stamped_stored; eauto. rewrite pack_generation, pack_state, Hfl.
    apply advance_generation_Done in Hg as [(-> & -> & _)|[Hnr ->]]; [by right|left].
    split; [done|]. destruct Hto as [->| ->]; [done|]. set_solver.
  - destruct (advance_Done f j to f' Hs Ha) as (w & Hw & Hedge & Hsd).
    eapply stamped_stored; eauto. left. rewrite pack_generation, pack_state. split; [done|].
    destruct Hedge as [[-> ->]|[-> ->]]; set_solver.
Qed.

Lemma stamped_reach i g p s s' :
  system_inv s → rtc step s s' → stamped i g p s → stamped i g p s'.
Proof. intros Hi Hr. revert Hi. induction Hr; eauto using step_inv, stamped_step. Qed.

(** ** The free stack as a list *)

Definition stack (s : FreeFrames) : list ReadFrameIdx :=
  rev (take (N.to_nat (ff_len s)) (ff_frames s)).

Definition stack_wf (s : FreeFrames) : Prop := ff_len s ≤ vlen (ff_frames s).

Lemma push_ok s fr :
  stack_wf s → ff_len s < vlen (ff_frames s) →
  ∃ s', push s fr = Done s' ∧ stack_wf s' ∧ stack s' = fr :: stack s ∧
    vlen (ff_frames s') = vlen (ff_frames s).
Proof.
  intros Hwf Hlt. unfold push. rewrite assertb_true by by apply N.ltb_lt. mred.
  rewrite vset_ok by done. mred. eexists; split; [done|].
  unfold stack_wf, stack. simpl. rewrite vlen_insert. split_and!; [lia| |done].
  replace (N.to_nat (ff_len s + 1)) with (S (N.to_nat (ff_len s))) by lia.
  rewrite (take_S_r _ _ fr), take_insert_ge by (try lia;
    apply list_lookup_insert_eq; unfold vlen in *; lia).
  by rewrite rev_app_distr.
Qed.

Lemma pop_ok s :
  stack_wf s → ∃ s', stack_wf s' ∧ vlen (ff_frames s') = vlen (ff_frames s) ∧
    match stack s with
    | [] => pop s = Done (s', None) ∧ s' = s
    | fr :: rest => pop s = Done (s', Some fr) ∧ stack s' = rest
    end.
Proof.
  unfold stack_wf, stack, pop, vlen. intros Hwf.
  destruct (checked_sub (ff_len s) 1) as [n|] eqn:Hn.
  - apply checked_sub_Some in Hn as [-> Hpos].
    destruct (lookup_lt_is_Some_2 (ff_frames s) (N.to_nat (ff_len s - 1))) as [fr Hfr]; [lia|].
    assert (take (N.to_nat (ff_len s)) (ff_frames s) =
      take (N.to_nat (ff_len s - 1)) (ff_frames s) ++ [fr]) as ->.
    { replace (N.to_nat (ff_len s)) with (S (N.to_nat (ff_len s - 1))) by lia. by apply take_S_r. }
    rewrite rev_app_distr. simpl. rewrite (proj2 (vget_Done _ _ _) Hfr). mred.
    eexists. split; [|split; [|split; [done|]]]; simpl; [lia|done|done].
  - unfold checked_sub in Hn. destruct (N.leb_spec 1 (ff_len s)); [done|].
    assert (ff_len s = 0) as -> by lia. simpl. exists s. split_and!; [lia|done..].
Qed.

Lemma try_with_all_stack n : stack_wf (try_with_all n) ∧ stack (try_with_all n) = N.of_nat <$> seq 0 (N.to_nat n).
Proof.
  unfold stack_wf, stack, try_with_all, vlen. simpl.
  rewrite length_rev, length_fmap, length_seq. split; [lia|].
  rewrite take_ge by (rewrite length_rev, length_fmap, length_seq; lia). apply rev_involutive.
Qed.

(** ** Properties *)

(** The destination range of a transfer. *)
Lemma transfer_ptr_Done f t off n ptr :
  transfer_ptr f t off n = Done ptr →
  InFlightFrame_frame t < count f ∧ ptr = InFlightFrame_frame t * granule f + off ∧
  off + n ≤ granule f.
Proof.
  unfold transfer_ptr. intros H. inv_done. apply owned_index_Done in H as (-> & _ & ?).
  reflect_bools. split_and!; [done|done|lia].
Qed.

Lemma word_is_resident_total w : word_is_resident w = Done (bool_decide (word_state w = Resident)).
Proof. unfold word_is_resident. by rewrite from_word_total. Qed.

Lemma validate_resident_eq f i stamp w :
  word_at f i = Some w →
  validate_resident f i stamp =
    if (w =? stamp) && bool_decide (word_state w = Resident)
    then p ← page_read f i; Done (Some p) else Done None.
Proof.
  intros Hw. unfold validate_resident. rewrite checked_index_ok by eauto using vget_lt. mred.
  unfold word_at in Hw. rewrite (proj2 (vget_Done _ _ _) Hw). mred.
  rewrite word_is_resident_total. mred.
  by destruct (w =? stamp), (bool_decide _).
Qed.

(** C2 (writer uniqueness, INV-1).  In every state the arena reaches, under any
    interleaving of claimants' loads and compare-exchanges, publications, aborts
    and reclamation edges, the live write tokens are exactly those of the frames
    whose word says [InFlight], and no two live tokens name the same frame. *)
Theorem write_token_exclusive s0 s :
  initial s0 → rtc step s0 s →
  (∀ t, t ∈ sys_tokens s ↔ in_flight (sys_frames s) t) ∧
  NoDup (InFlightFrame_frame <$> sys_tokens s).
Proof.
  intros H0 Hr. destruct (reachable_inv s0 s H0 Hr) as [_ _ Hn Ht]. split; [done|].
  apply NoDup_fmap_2_strong; [|done]. intros t u (Ha & Hp & _)%Ht (Hb & Hq & _)%Ht Heq.
  destruct t, u; unfold InFlightFrame_frame in *; simpl in *. f_equal; [congruence|lia].
Qed.

Definition demo_frames (w0 w1 : N) : Frames := mkFrames [w0; w1] [None; None] 2 4096 1.

Lemma demo_initial : initial (mkSystem (demo_frames 0 0) [] []).
Proof. exists (2 ^ 64 - 1), 1, 2, 4096, (demo_frames 0 0). split_and!; [done|reflexivity|done]. Qed.

(** Two claimants load frame 0; the first exchange wins, the second is refused. *)
Lemma demo_race :
  rtc step (mkSystem (demo_frames 0 0) [] [])
    (mkSystem (demo_frames 1 0) [] [mkInFlightFrame 1 1]).
Proof.
  apply rtc_l with (mkSystem (demo_frames 0 0) [(0, 0)] []); [by apply (step_load _ _ _ 0 0)|].
  apply rtc_l with (mkSystem (demo_frames 0 0) [(0, 0); (0, 0)] []); [by apply (step_load _ _ _ 0 0)|].
  apply rtc_l with (mkSystem (demo_frames 1 0) [(0, 0)] [mkInFlightFrame 1 1]).
  { by apply (step_cas _ [] [(0, 0)] [] 0 0 _ (Some (mkInFlightFrame 1 1))). }
  apply rtc_once. by apply (step_cas _ [] [] _ 0 0 _ None).
Qed.

Lemma write_token_exclusive_witness :
  mkInFlightFrame 1 1 ∈ [mkInFlightFrame 1 1] ↔ in_flight (demo_frames 1 0) (mkInFlightFrame 1 1).
Proof. exact (proj1 (write_token_exclusive _ _ demo_initial demo_race) (mkInFlightFrame 1 1)). Defined.

(** C3 (no ABA on residency stamps).  Suppose frame [i] was [Resident] under the
    word [w] with published identity [p].  In any later state, validating the
    stamp [w] either reports that the frame moved on or returns exactly [p]: a
    stale resident hint is never accepted for reused bytes. *)
Theorem stamp_validates_identity s0 s s' i w p o :
  initial s0 → rtc step s0 s → rtc step s s' →
  word_at (sys_frames s) i = Some w → word_state w = Resident →
  page_at (sys_frames s) i = Some (Some p) →
  validate_resident (sys_frames s') i w = Done o → o = None ∨ o = Some p.
Proof.
  intros H0 Hr Hr' Hw Hres Hp Hv. pose proof (reachable_inv s0 s H0 Hr) as Hinv.
  assert (stamped i (word_generation w) p s) as Hst.
  { exists w. split; [done|]. right. split; [done|]. left. auto. }
  apply (stamped_reach _ _ _ _ _ Hinv Hr') in Hst as (w' & Hw' & Hd).
  rewrite (validate_resident_eq _ _ _ _ Hw') in Hv.
  destruct (N.eqb_spec w' w) as [Heq|Hne]; [subst w'|left; by injection Hv].
  rewrite bool_decide_eq_true_2 in Hv by done. cbn [andb] in Hv. unfold page_read in Hv.
  inv_done. right.
  destruct Hd as [|[_ [[_ Hpg]|[?|?]]]]; [lia| |congruence..].
  unfold page_at in Hpg. congruence.
Qed.

(** Frame 0 is claimed, identified and published; the word is then 6. *)
Definition demo_page : PageId := mkPageId (mkFileId 7 3 1) 9.

Lemma demo_publish :
  rtc step (mkSystem (demo_frames 0 0) [] [])
    (mkSystem (mkFrames [6; 0] [Some demo_page; None] 2 4096 1) [] []).
Proof.
  etransitivity; [exact demo_race|].
  apply rtc_l with (mkSystem (mkFrames [1; 0] [Some demo_page; None] 2 4096 1) [] [mkInFlightFrame 1 1]).
  { apply (step_identify (demo_frames 1 0) [] _ (mkInFlightFrame 1 1) demo_page [Some demo_page; None]); [set_solver|done]. }
  apply rtc_once. by apply (step_consume _ [] [] [] (mkInFlightFrame 1 1) Resident _ 0).
Qed.

Lemma stamp_validates_identity_witness :
  Some demo_page = None ∨ Some demo_page = Some demo_page.
Proof.
  apply (stamp_validates_identity _ _ _ 0 6 demo_page (Some demo_page)
    demo_initial demo_publish (rtc_refl _ _)); vm_compute; reflexivity.
Defined.

(** A store changes only the word it names. *)
Lemma word_stored_change f f' j v i w w' :
  word_stored f f' j v → word_at f i = Some w → word_at f' i = Some w' → w ≠ w' →
  i = j ∧ w' = v.
Proof.
  intros (_ & _ & _ & _ & _ & _ & Hat) Hw Hw' Hne. rewrite Hat in Hw'.
  case_decide; [|congruence]. split; congruence.
Qed.

(** Residency cycle.  One step of the arena changes a frame's word along an
    edge that [FrameState::advance] admits, and the residency generation grows by
    one exactly when the frame is published. *)
Theorem residency_edges s s' i w w' :
  system_inv s → step s s' →
  word_at (sys_frames s) i = Some w → word_at (sys_frames s') i = Some w' → w ≠ w' →
  state_advance (word_state w) (word_state w') = Done (word_state w') ∧
  word_generation w' = word_generation w + N.b2n (bool_decide (word_state w' = Resident)).
Proof.
  intros [Hs Hl Hn Ht] Hstep Hw Hw' Hne. destruct Hstep as [f ls ts j v Hld|f ls1 ls2 ts j v f' o Hcas
    |f ls ts t page pg Hin Hp|f ls ts1 ts2 t to f' j Hc|f ls ts j to f' Ha]; simpl in *;
    try (simplify_eq; done).
  - apply Forall_app in Hl as [_ [[Hj Hfree] _]%Forall_cons].
    destruct (claim_cas_spec f j v Hs Hj) as [(Hv & f1 & Hsd & Heq)|[_ Heq]];
      rewrite Heq in Hcas; simplify_eq; try congruence.
    destruct (word_stored_change _ _ _ _ _ _ _ Hsd Hw Hw' Hne) as [-> ->].
    assert (v = w) as -> by congruence.
    rewrite pack_state, pack_generation, Hfree. split; [done|simpl; lia].
  - exfalso. unfold word_at in *. simpl in *. congruence.
  - destruct (consume_Done f t to f' j Hs Hc) as (v & g & -> & _ & Hv & Hfl & Hto & Hg & Hsd).
    destruct (word_stored_change _ _ _ _ _ _ _ Hsd Hw Hw' Hne) as [-> ->].
    assert (v = w) as -> by congruence. rewrite pack_state, pack_generation, Hfl.
    apply advance_generation_Done in Hg as [(-> & -> & _)|[Hnr ->]]; [done|].
    destruct Hto as [->| ->]; [done|]. split; [done|simpl; lia].
  - destruct (advance_Done f j to f' Hs Ha) as (v & Hv & Hedge & Hsd).
    destruct (word_stored_change _ _ _ _ _ _ _ Hsd Hw Hw' Hne) as [-> ->].
    assert (v = w) as -> by congruence. rewrite pack_state, pack_generation.
    destruct Hedge as [[-> ->]|[-> ->]]; split; simpl; lia || done.
Qed.

Lemma residency_edges_witness :
  state_advance InFlight Resident = Done Resident ∧ 1 = 0 + 1.
Proof.
  apply (residency_edges
    (mkSystem (mkFrames [1; 0] [Some demo_page; None] 2 4096 1) [] [mkInFlightFrame 1 1])
    (mkSystem (mkFrames [6; 0] [Some demo_page; None] 2 4096 1) [] []) 0 1 6).
  - apply (reachable_inv _ _ demo_initial). etransitivity; [exact demo_race|].
    apply rtc_once. apply (step_identify (demo_frames 1 0) [] _ (mkInFlightFrame 1 1) demo_page [Some demo_page; None]); [set_solver|done].
  - by apply (step_consume _ [] [] [] (mkInFlightFrame 1 1) Resident _ 0).
  - done.
  - done.
  - done.
Defined.

(** (Transfer bounds).  A transfer that is admitted writes inside the arena
    and inside the token's own frame, so transfers under tokens of different
    frames never overlap. *)
Theorem transfers_disjoint f t u off_t n_t off_u n_u p q :
  transfer_ptr f t off_t n_t = Done p → transfer_ptr f u off_u n_u = Done q →
  p + n_t ≤ count f * granule f ∧
  (InFlightFrame_frame t ≠ InFlightFrame_frame u → p + n_t ≤ q ∨ q + n_u ≤ p).
Proof.
  intros (Hi & -> & Ht)%transfer_ptr_Done (Hj & -> & Hu)%transfer_ptr_Done. split; [nia|].
  intros Hne. destruct (N.lt_total (InFlightFrame_frame t) (InFlightFrame_frame u)) as [|[|]]; nia.
Qed.

Lemma transfers_disjoint_witness :
  8 + 4088 ≤ 2 * 4096 ∧ (0 ≠ 1 → 8 + 4088 ≤ 4096 ∨ 4096 + 4096 ≤ 8).
Proof.
  apply (transfers_disjoint (demo_frames 1 1) (mkInFlightFrame 1 1) (mkInFlightFrame 1 2) 8 4088 0 4096);
    vm_compute; reflexivity.
Defined.
End Frames.
