(* ===== verification/Notifications.v ===== *)
(** * Dirty-frame notification: a fixed-height bitmap tree

    Models src/src/pool/prefetch/notifications.rs: [DirtyFrames] is a tree of
    64-bit words; [notify] sets the bit of a frame and of each of its ancestors,
    [drain] takes the root and walks the set bits down, visiting each dirty frame
    once.  [step] interleaves the atomic operations of any number of notifiers with those
    of a drain: no notification is lost and a drain ends within its bound. *)
From stdpp Require Import prelude list relations gmap.
From Stdlib Require Import NArith Lia.
From S2P Require Import Prelude Ids.

Open Scope N_scope.

Module DirtyFrames.

Definition LEVELS_MAX : N := 6.

Record DirtyFrames := mkDirtyFrames {
  levels : list (list N);
  height : N;
  frames : N;
}.

Definition div_ceil (a b : N) : N := (a + b - 1) / b.

(** [try_new]: levels are added until one word covers everything. *)
Definition try_new (n : N) : outcome DirtyFrames :=
  assertb (0 <? n);;
  r ← for_range (λ st : list (list N) * N * N,
        let '(ls, count, h) := st in
        let count := div_ceil count 64 in
        let ls := ls ++ [replicate (N.to_nat count) 0] in
        let h := h + 1 in
        if count =? 1 then Done (Return (ls, count, h)) else Done (Continue (ls, count, h)))
      LEVELS_MAX ([], n, 0);
  let '(ls, count, h) := match r with Return x => x | Continue x => x end in
  assertb (count =? 1);;
  Done (mkDirtyFrames ls h n).

(** One store of [notify]: [level[word] |= 1 << (index % 64)]. *)
Definition set_bit (level : list N) (index : N) : outcome (list N) :=
  let word := index / 64 in
  w ← vget level word;
  vset level word (N.lor w (N.shiftl 1 (index mod 64))).

Fixpoint notify_levels (ls : list (list N)) (index : N) : outcome (list (list N) * N) :=
  match ls with
  | [] => Done ([], index)
  | level :: ls =>
      level ← set_bit level index;
      '(ls, index) ← notify_levels ls (index / 64);
      Done (level :: ls, index)
  end.

Definition notify (d : DirtyFrames) (frame : ReadFrameIdx) : outcome DirtyFrames :=
  assertb (frame <? frames d);;
  '(ls, index) ← notify_levels (levels d) frame;
  assertb (index =? 0);;
  Done (mkDirtyFrames ls (height d) (frames d)).

(** [u64::trailing_zeros] of a nonzero word. *)
Fixpoint pos_trailing_zeros (p : positive) : N :=
  match p with xO p => N.succ (pos_trailing_zeros p) | _ => 0 end.
Definition trailing_zeros (w : N) : N :=
  match w with N0 => 64 | Npos p => pos_trailing_zeros p end.

(** Taking a word: [level[index].swap(0)]. *)
Definition take_word (d : DirtyFrames) (level index : N) : outcome (DirtyFrames * N) :=
  l ← vget (levels d) level;
  w ← vget l index;
  l ← vset l index 0;
  ls ← vset (levels d) level l;
  Done (mkDirtyFrames ls (height d) (frames d), w).

Record cursor := mkCursor {
  cur_dirty : DirtyFrames;
  cur_level : N;
  cur_words : list N;
  cur_bits : list N;
  cur_visited : list ReadFrameIdx;
}.

Definition drain_body (c : cursor) : outcome (flow cursor (DirtyFrames * list ReadFrameIdx)) :=
  let d := cur_dirty c in
  let level := cur_level c in
  b ← vget (cur_bits c) level;
  if b =? 0 then
    if level =? height d - 1 then Done (Return (d, cur_visited c))
    else Done (Continue (mkCursor d (level + 1) (cur_words c) (cur_bits c) (cur_visited c)))
  else
    let bit := trailing_zeros b in
    bits ← vset (cur_bits c) level (N.land b (b - 1));
    w ← vget (cur_words c) level;
    let index := w * 64 + bit in
    if level =? 0 then
      assertb (index <? frames d);;
      Done (Continue (mkCursor d level (cur_words c) bits (cur_visited c ++ [index])))
    else
      let level := level - 1 in
      words ← vset (cur_words c) level index;
      '(d, taken) ← take_word d level index;
      bits ← vset bits level taken;
      Done (Continue (mkCursor d level words bits (cur_visited c))).

(** The start of [drain]: the root word is taken. *)
Definition drain_start (d : DirtyFrames) : outcome cursor :=
  level ← sub_ (height d) 1;
  let words := replicate (N.to_nat LEVELS_MAX) 0 in
  '(d, root) ← take_word d level 0;
  bits ← vset (replicate (N.to_nat LEVELS_MAX) 0) level root;
  Done (mkCursor d level words bits []).

(** The rounds the code grants a drain. *)
Definition rounds_bound (d : DirtyFrames) : N := frames d * (LEVELS_MAX + 1) + LEVELS_MAX.

(** [drain]: the visited frames in order, and the emptied tree. *)
Definition drain (d : DirtyFrames) : outcome (DirtyFrames * list ReadFrameIdx) :=
  c ← drain_start d;
  r ← for_range drain_body (rounds_bound d) c;
  match r with Return x => Done x | Continue _ => Panic end.

(** ** Bits *)

Lemma trailing_zeros_spec w :
  w ≠ 0 → N.testbit w (trailing_zeros w) = true ∧
    ∀ k, N.testbit (N.land w (w - 1)) k = N.testbit w k && negb (k =? trailing_zeros w).
Proof.
  destruct w as [|p]; [done|]. intros _. simpl trailing_zeros. induction p as [q IH|q IH|].
  - split; [done|]. intros k. replace (N.pos q~1 - 1) with (2 * N.pos q) by lia. change (N.pos q~1) with (2 * N.pos q + 1).
    rewrite N.land_spec. simpl pos_trailing_zeros. destruct (N.eq_dec k 0) as [->|Hk].
    + change (negb (0 =? 0)) with false. by rewrite N.testbit_even_0, !andb_false_r.
    + rewrite <- (N.succ_pred k) by done. rewrite N.testbit_even_succ, N.testbit_odd_succ by lia.
      rewrite (proj2 (N.eqb_neq (N.succ (N.pred k)) 0)) by lia. simpl. by rewrite andb_diag, andb_true_r.
  - destruct IH as [IH1 IH2]. simpl pos_trailing_zeros. change (N.pos q~0) with (2 * N.pos q). split.
    + by rewrite N.testbit_even_succ by lia.
    + intros k. replace (2 * N.pos q - 1) with (2 * (N.pos q - 1) + 1) by lia. rewrite N.land_spec.
      destruct (N.eq_dec k 0) as [->|Hk]; [by rewrite N.testbit_even_0|].
      rewrite <- (N.succ_pred k) by done. rewrite N.testbit_even_succ, N.testbit_odd_succ by lia.
      rewrite <- N.land_spec, IH2. f_equal. f_equal.
      destruct (N.eqb_spec (N.pred k) (pos_trailing_zeros q)), (N.eqb_spec (N.succ (N.pred k)) (N.succ (pos_trailing_zeros q))); try done; lia.
  - split; [done|]. intros k. simpl pos_trailing_zeros. change (1 - 1) with 0. rewrite N.land_0_r, N.bits_0.
    destruct (N.eqb_spec k 0) as [->|Hk]; [done|]. rewrite N.bits_above_log2; [done|]. simpl. lia.
Qed.

Definition small (w : N) : Prop := ∀ k, N.testbit w k = true → k < 64.

Lemma split64 i : i = i / 64 * 64 + i mod 64 ∧ i mod 64 < 64.
Proof. pose proof (N.div_mod i 64 ltac:(done)). pose proof (N.mod_lt i 64 ltac:(done)). lia. Qed.

Lemma index64 w b : b < 64 → (w * 64 + b) / 64 = w ∧ (w * 64 + b) mod 64 = b.
Proof.
  intros Hb. rewrite N.add_comm, N.div_add, N.Div0.mod_add by done. split; [rewrite N.div_small by done; lia|by apply N.mod_small].
Qed.

(** ** Marks *)

(** Bit [i] of level [l]. *)
Definition word (d : DirtyFrames) (l : nat) (k : N) : N := default 0 (levels d !! l ≫= λ lv, lv !! N.to_nat k).
Definition marked (d : DirtyFrames) (l : nat) (i : N) : bool := N.testbit (word d l (i / 64)) (i mod 64).

(** The nodes of level [l] of a tree over [n] frames. *)
Fixpoint width (n : N) (l : nat) : N := match l with O => n | S l => div_ceil (width n l) 64 end.

Record shape (d : DirtyFrames) : Prop := {
  s_height : length (levels d) = N.to_nat (height d);
  s_pos : 0 < height d ≤ LEVELS_MAX;
  s_words : ∀ l lv, levels d !! l = Some lv → vlen lv = width (frames d) (S l);
  s_root : width (frames d) (N.to_nat (height d)) = 1;
  s_small : ∀ l k, small (word d l k);
  s_range : ∀ l i, marked d l i = true → i < width (frames d) l;
  s_frames : 0 < frames d;
}.

Lemma width_pos n l : 0 < n → 0 < width n l.
Proof. intros Hn. induction l as [|l IH]; [done|]. simpl. unfold div_ceil. apply N.div_str_pos. lia. Qed.

Lemma width_child n l i : i < width n l → i / 64 < width n (S l).
Proof.
  intros Hi. simpl. unfold div_ceil. apply N.Div0.div_lt_upper_bound.
  pose proof (N.mul_succ_div_gt (width n l + 64 - 1) 64 ltac:(done)). lia.
Qed.

Lemma div_ceil_pred n : 0 < n → div_ceil n 64 = (n - 1) / 64 + 1.
Proof. intros Hn. unfold div_ceil. replace (n + 64 - 1) with (n - 1 + 1 * 64) by lia. by rewrite N.div_add. Qed.

Lemma width_div n l : 0 < n → width n l = (n - 1) / 64 ^ N.of_nat l + 1.
Proof.
  intros Hn. induction l as [|l IH]; [simpl; rewrite N.div_1_r; lia|]. simpl width. rewrite div_ceil_pred by (by apply width_pos).
  rewrite IH, N.add_sub, N.Div0.div_div, Nat2N.inj_succ, N.pow_succ_r' by done. by rewrite N.mul_comm.
Qed.

Lemma width_small n l : 0 < n → width n (S l) ≤ (n - 1) / 64 + 1.
Proof.
  intros Hn. rewrite width_div, Nat2N.inj_succ, N.pow_succ_r', <- N.Div0.div_div by done.
  apply N.add_le_mono_r, N.Div0.div_le_upper_bound. pose proof (N.pow_nonzero 64 (N.of_nat l) ltac:(done)).
  generalize ((n - 1) / 64), (64 ^ N.of_nat l), H. intros q x Hx. nia.
Qed.

(** One word of the tree replaced. *)
Lemma word_insert d l lv k w h n l' k' :
  levels d !! l = Some lv → k < vlen lv →
  word (mkDirtyFrames (<[l := <[N.to_nat k := w]> lv]> (levels d)) h n) l' k' =
    if decide (l' = l ∧ k' = k) then w else word d l' k'.
Proof.
  intros Hl Hk. unfold word. simpl. destruct (decide (l' = l)) as [->|Hne].
  - rewrite list_lookup_insert_eq by (by eapply lookup_lt_Some). rewrite Hl. simpl. unfold vlen in Hk.
    destruct (decide (k' = k)) as [->|Hk'].
    + rewrite decide_True by done. rewrite list_lookup_insert_eq by lia. done.
    + rewrite decide_False by naive_solver. by rewrite list_lookup_insert_ne by lia.
  - rewrite decide_False by naive_solver. by rewrite list_lookup_insert_ne.
Qed.

Lemma level_at d l : shape d → (l < N.to_nat (height d))%nat → ∃ lv, levels d !! l = Some lv ∧ vlen lv = width (frames d) (S l).
Proof.
  intros Hs Hl. destruct (lookup_lt_is_Some_2 (levels d) l) as [lv Hlv]; [rewrite (s_height _ Hs); lia|].
  exists lv. split; [done|]. by apply (s_words _ Hs).
Qed.

(** A store that keeps the tree's shape. *)
Lemma shape_store d l lv k w :
  shape d → levels d !! l = Some lv → k < vlen lv → small w →
  (∀ j, N.testbit w j = true → k * 64 + j < width (frames d) l) →
  shape (mkDirtyFrames (<[l := <[N.to_nat k := w]> lv]> (levels d)) (height d) (frames d)).
Proof.
  intros Hs Hl Hk Hw Hr. split; simpl; try apply Hs.
  - rewrite length_insert. apply Hs.
  - intros l' lv' Hl'. apply list_lookup_insert_Some in Hl' as [(-> & <- & _)|[_ Hl']]; [|by apply (s_words _ Hs)].
    rewrite vlen_insert. by apply (s_words _ Hs).
  - intros l' k'. rewrite (word_insert d l lv k w _ _ l' k' Hl Hk). case_decide; [done|apply Hs].
  - intros l' i. unfold marked. rewrite (word_insert d l lv k w _ _ l' _ Hl Hk). case_decide as Hd; [|apply Hs].
    destruct Hd as [-> Hd]. intros Hb%Hr. pose proof (split64 i). rewrite <- Hd in Hb. lia.
Qed.

Lemma word_get d l lv k w : levels d !! l = Some lv → lv !! N.to_nat k = Some w → word d l k = w.
Proof. intros Hl Hk. unfold word. rewrite Hl. simpl. by rewrite Hk. Qed.

(** One store of [notify], in the tree. *)
Definition notify_store (d : DirtyFrames) (l : nat) (i : N) : outcome DirtyFrames :=
  lv ← expect (levels d !! l);
  lv ← set_bit lv i;
  Done (mkDirtyFrames (<[l := lv]> (levels d)) (height d) (frames d)).

Lemma store_spec d l i :
  shape d → (l < N.to_nat (height d))%nat → i < width (frames d) l →
  ∃ d', notify_store d l i = Done d' ∧ shape d' ∧ height d' = height d ∧ frames d' = frames d ∧
    ∀ l' j, marked d' l' j = marked d l' j || bool_decide (l' = l ∧ j = i).
Proof.
  intros Hs Hl Hi. destruct (level_at d l Hs Hl) as (lv & Hlv & Hlen). pose proof (width_child _ _ _ Hi) as Hc.
  unfold notify_store, set_bit. rewrite Hlv. mred. destruct (vget_ok lv (i / 64)) as (w & -> & Hw); [lia|]. mred.
  rewrite vset_ok by lia. mred. eexists. split; [done|]. pose proof (word_get d l lv _ w Hlv Hw) as Hget.
  assert (∀ j, N.testbit (N.lor w (N.shiftl 1 (i mod 64))) j = N.testbit w j || (j =? i mod 64)) as Hbits.
  { intros j. rewrite N.lor_spec, N.shiftl_1_l, N.pow2_bits_eqb. by rewrite N.eqb_sym. }
  pose proof (split64 i) as Hi64. split_and!; try done.
  - apply shape_store; try done; [lia| |]; intros j; rewrite Hbits; intros [Hj|Hj%N.eqb_eq]%orb_true_iff; try lia.
    + apply (s_small _ Hs l (i / 64)). by rewrite Hget.
    + assert (j < 64) as Hj64 by (apply (s_small _ Hs l (i / 64)); by rewrite Hget).
      apply (s_range _ Hs). unfold marked. destruct (index64 (i / 64) j Hj64) as [-> ->]. by rewrite Hget.
  - intros l' j. unfold marked. rewrite (word_insert d l lv (i / 64)) by (done || lia). pose proof (split64 j) as Hj64.
    case_decide as Hd.
    + destruct Hd as [-> Hd]. rewrite Hbits, Hd, Hget. f_equal.
      destruct (N.eqb_spec (j mod 64) (i mod 64)); symmetry; [apply bool_decide_eq_true_2|apply bool_decide_eq_false_2].
      * split; [done|]. lia.
      * intros [_ ->]. done.
    + rewrite bool_decide_eq_false_2, orb_false_r; [done|]. intros [-> ->]. by apply Hd.
Qed.

Lemma take_spec d level index :
  shape d → level < height d → index < width (frames d) (S (N.to_nat level)) →
  ∃ d', take_word d level index = Done (d', word d (N.to_nat level) index) ∧ shape d' ∧ height d' = height d ∧ frames d' = frames d ∧
    ∀ l' j, marked d' l' j = marked d l' j && negb (bool_decide (l' = N.to_nat level ∧ j / 64 = index)).
Proof.
  intros Hs Hl Hi. destruct (level_at d (N.to_nat level) Hs) as (lv & Hlv & Hlen); [lia|].
  unfold take_word. rewrite (proj2 (vget_Done (levels d) level lv) Hlv). mred. destruct (vget_ok lv index) as (w & -> & Hw); [lia|]. mred.
  rewrite vset_ok by lia. mred. assert (level < vlen (levels d)) by (unfold vlen; rewrite (s_height _ Hs); lia).
  rewrite vset_ok by done. mred. rewrite (word_get d _ lv _ w Hlv Hw). eexists. split; [done|]. split_and!; try done.
  - apply shape_store; try done; try lia; intros j; by rewrite N.bits_0.
  - intros l' j. unfold marked. rewrite (word_insert d _ lv index) by (done || lia).
    destruct (decide (l' = N.to_nat level ∧ j / 64 = index)) as [Hd|Hd].
    + rewrite bool_decide_eq_true_2 by done. by rewrite N.bits_0, andb_false_r.
    + rewrite bool_decide_eq_false_2 by done. by rewrite andb_true_r.
Qed.

(** ** The cursor of a drain *)

Definition cur_word (c : cursor) (l : nat) : N := default 0 (cur_words c !! l).
Definition cur_bit (c : cursor) (l : nat) : N := default 0 (cur_bits c !! l).

(** A node taken from its level and not yet entered. *)
Definition pend (c : cursor) (l : nat) (i : N) : bool := (i / 64 =? cur_word c l) && N.testbit (cur_bit c l) (i mod 64).

Record cursor_ok (c : cursor) : Prop := {
  k_shape : shape (cur_dirty c);
  k_level : cur_level c < height (cur_dirty c);
  k_words : length (cur_words c) = N.to_nat LEVELS_MAX;
  k_bits : length (cur_bits c) = N.to_nat LEVELS_MAX;
  k_below : ∀ l, (l < N.to_nat (cur_level c))%nat → cur_bit c l = 0;
  k_small : ∀ l, small (cur_bit c l);
  k_range : ∀ l i, pend c l i = true → i < width (frames (cur_dirty c)) l;
}.

Definition same_tree (d d' : DirtyFrames) : Prop := height d' = height d ∧ frames d' = frames d.

(** What one round of the drain loop does. *)
Inductive round (c : cursor) : outcome (flow cursor (DirtyFrames * list ReadFrameIdx)) → Prop :=
  | round_end :
      cur_level c = height (cur_dirty c) - 1 → cur_bit c (N.to_nat (cur_level c)) = 0 →
      round c (Done (Return (cur_dirty c, cur_visited c)))
  | round_up c' :
      cur_bit c (N.to_nat (cur_level c)) = 0 → cur_level c' = cur_level c + 1 →
      cur_dirty c' = cur_dirty c → cur_visited c' = cur_visited c → (∀ l i, pend c' l i = pend c l i) → cursor_ok c' →
      round c (Done (Continue c'))
  | round_visit c' f :
      cur_level c = 0 → pend c 0 f = true → cur_level c' = 0 → cur_dirty c' = cur_dirty c → cur_visited c' = cur_visited c ++ [f] →
      (∀ l i, pend c' l i = pend c l i && negb (bool_decide (l = 0%nat ∧ i = f))) → cursor_ok c' →
      round c (Done (Continue c'))
  | round_down c' k i :
      cur_level c = N.of_nat (S k) → cur_level c' = N.of_nat k → pend c (S k) i = true →
      same_tree (cur_dirty c) (cur_dirty c') → cur_visited c' = cur_visited c →
      (∀ l j, marked (cur_dirty c') l j = marked (cur_dirty c) l j && negb (bool_decide (l = k ∧ j / 64 = i))) →
      (∀ l j, pend c' l j = if decide (l = k) then bool_decide (j / 64 = i) && marked (cur_dirty c) k j
                            else pend c l j && negb (bool_decide (l = S k ∧ j = i))) →
      cursor_ok c' →
      round c (Done (Continue c')).

Lemma cur_bit_get c l : (l < length (cur_bits c))%nat → cur_bits c !! l = Some (cur_bit c l).
Proof. intros [b Hb]%lookup_lt_is_Some_2. unfold cur_bit. by rewrite Hb. Qed.

Lemma cur_word_get c l : (l < length (cur_words c))%nat → cur_words c !! l = Some (cur_word c l).
Proof. intros [b Hb]%lookup_lt_is_Some_2. unfold cur_word. by rewrite Hb. Qed.

(** Removing the lowest bit of the current word removes one pending node. *)
Lemma pend_pop d level' ws c v l i :
  cursor_ok c → (l < 6)%nat → cur_bit c l ≠ 0 → i = cur_word c l * 64 + trailing_zeros (cur_bit c l) → ws = cur_words c →
  pend c l i = true ∧ i / 64 = cur_word c l ∧
  ∀ l' j, pend (mkCursor d level' ws (<[l := N.land (cur_bit c l) (cur_bit c l - 1)]> (cur_bits c)) v) l' j =
    pend c l' j && negb (bool_decide (l' = l ∧ j = i)).
Proof.
  intros Hc Hl Hb -> ->. destruct (trailing_zeros_spec _ Hb) as [Ht Hland].
  pose proof (k_small _ Hc l _ Ht) as H64. destruct (index64 (cur_word c l) _ H64) as [Hd Hm].
  split; [unfold pend; by rewrite Hd, Hm, N.eqb_refl, Ht|]. split; [done|].
  intros l' j. unfold pend, cur_word, cur_bit. simpl. destruct (decide (l' = l)) as [->|Hne].
  - rewrite list_lookup_insert_eq by (rewrite (k_bits _ Hc); change (N.to_nat LEVELS_MAX) with 6%nat; lia). simpl. fold (cur_bit c l) (cur_word c l). rewrite Hland.
    pose proof (split64 j) as Hj. rewrite andb_assoc.
    destruct (N.eqb_spec (j / 64) (cur_word c l)) as [Hw|Hw]; simpl; [|done]. f_equal. f_equal.
    destruct (N.eqb_spec (j mod 64) (trailing_zeros (cur_bit c l))); symmetry; [apply bool_decide_eq_true_2|apply bool_decide_eq_false_2].
    + split; [done|lia].
    + intros [_ ->]. by rewrite Hm in *.
  - rewrite list_lookup_insert_ne by done. rewrite bool_decide_eq_false_2 by naive_solver. by rewrite andb_true_r.
Qed.

Lemma height_levels c : cursor_ok c → (N.to_nat (cur_level c) < 6)%nat.
Proof. intros Hc. pose proof (k_level _ Hc). pose proof (s_pos _ (k_shape _ Hc)) as [_ Hh]. unfold LEVELS_MAX in Hh. lia. Qed.

(** Popping the lowest bit leaves a good cursor. *)
Lemma pop_bit_ok c v :
  cursor_ok c → cur_bit c (N.to_nat (cur_level c)) ≠ 0 →
  let l := N.to_nat (cur_level c) in
  cursor_ok (mkCursor (cur_dirty c) (cur_level c) (cur_words c) (<[l := N.land (cur_bit c l) (cur_bit c l - 1)]> (cur_bits c)) v).
Proof.
  intros Hc Hb l. pose proof (height_levels _ Hc) as H6.
  destruct (pend_pop (cur_dirty c) (cur_level c) _ c v l _ Hc H6 Hb eq_refl eq_refl) as (_ & _ & Hp).
  destruct Hc as [H1 H2 H3 H4 H5 H7 H8]. split; try done; simpl.
  - by rewrite length_insert.
  - intros l' Hl'. unfold cur_bit. simpl. rewrite list_lookup_insert_ne by lia. by apply H5.
  - intros l'. unfold cur_bit. simpl. destruct (decide (l' = l)) as [->|Hne]; [|rewrite list_lookup_insert_ne by done; apply H7].
    rewrite list_lookup_insert_eq by (rewrite H4; exact H6). simpl. intros k. rewrite N.land_spec. intros [Hk _]%andb_true_iff. by apply (H7 l).
  - intros l' i. rewrite Hp. intros [Hi _]%andb_true_iff. by apply H8.
Qed.

(** Entering node [i] of level [k + 1]. *)
Lemma enter_ok c k i d' :
  cursor_ok c → cur_level c = N.of_nat (S k) → shape d' → same_tree (cur_dirty c) d' → i < width (frames (cur_dirty c)) (S k) →
  let c' := mkCursor d' (N.of_nat k) (<[k := i]> (cur_words c)) (<[k := word (cur_dirty c) k i]> (cur_bits c)) (cur_visited c) in
  (∀ l j, pend c' l j = if decide (l = k) then bool_decide (j / 64 = i) && marked (cur_dirty c) k j else pend c l j) ∧ cursor_ok c'.
Proof.
  intros Hc Hlv Hd' [Hh Hf] Hi c'. pose proof (height_levels _ Hc) as H6. rewrite Hlv in H6.
  assert (∀ l j, pend c' l j = if decide (l = k) then bool_decide (j / 64 = i) && marked (cur_dirty c) k j else pend c l j) as Hp.
  { intros l j. unfold pend, cur_word, cur_bit. simpl. case_decide as Hl.
    - subst l. rewrite list_lookup_insert_eq by (rewrite (k_words _ Hc); change (N.to_nat LEVELS_MAX) with 6%nat; lia).
      rewrite list_lookup_insert_eq by (rewrite (k_bits _ Hc); change (N.to_nat LEVELS_MAX) with 6%nat; lia). simpl. unfold marked.
      destruct (N.eqb_spec (j / 64) i) as [->|Hne]; [by rewrite bool_decide_eq_true_2|by rewrite bool_decide_eq_false_2].
    - by rewrite !list_lookup_insert_ne. }
  split; [done|]. destruct Hc as [H1 H2 H3 H4 H5 H7 H8]. split; try done; simpl.
  - rewrite Hh. lia.
  - by rewrite length_insert.
  - by rewrite length_insert.
  - intros l' Hl'. unfold cur_bit. simpl. rewrite list_lookup_insert_ne by lia. apply H5. lia.
  - intros l'. unfold cur_bit. simpl. destruct (decide (l' = k)) as [->|Hne]; [|rewrite list_lookup_insert_ne by done; apply H7].
    rewrite list_lookup_insert_eq by (rewrite H4; change (N.to_nat LEVELS_MAX) with 6%nat; lia). simpl. apply (s_small _ H1).
  - intros l' j. rewrite Hp, Hf. case_decide as Hl; [|apply H8]. subst l'. intros [_ Hm]%andb_true_iff. by apply (s_range _ H1).
Qed.

Lemma body_round c : cursor_ok c → round c (drain_body c).
Proof.
  intros Hc. pose proof (height_levels _ Hc) as H6. set (l := N.to_nat (cur_level c)) in *.
  assert (cur_bits c !! l = Some (cur_bit c l)) as Hget by (apply cur_bit_get; rewrite (k_bits _ Hc); exact H6).
  unfold drain_body. rewrite (proj2 (vget_Done _ _ _) Hget). mred.
  destruct (N.eqb_spec (cur_bit c l) 0) as [Hz|Hb].
  - destruct (N.eqb_spec (cur_level c) (height (cur_dirty c) - 1)) as [Hend|Hup]; [by apply round_end|].
    apply round_up; try done. destruct Hc as [H1 H2 H3 H4 H5 H7 H8]. split; try done; simpl; [lia|].
    intros l' Hl'. destruct (decide (l' = l)) as [->|Hne]; [exact Hz|]. apply H5. lia.
  - assert (cur_level c < vlen (cur_bits c)) as Hlen by (unfold vlen; rewrite (k_bits _ Hc); unfold LEVELS_MAX; lia).
    rewrite vset_ok by done. mred.
    assert (cur_words c !! l = Some (cur_word c l)) as Hwget by (apply cur_word_get; rewrite (k_words _ Hc); exact H6).
    rewrite (proj2 (vget_Done _ _ _) Hwget). mred. set (i := cur_word c l * 64 + trailing_zeros (cur_bit c l)).
    pose proof (pop_bit_ok c (cur_visited c) Hc Hb) as Hpop. simpl in Hpop. fold l in Hpop.
    set (bits := <[l := N.land (cur_bit c l) (cur_bit c l - 1)]> (cur_bits c)) in *.
    destruct (pend_pop (cur_dirty c) (cur_level c) _ c (cur_visited c) l i Hc H6 Hb eq_refl eq_refl) as (Hpi & _ & Hp). fold bits in Hp.
    pose proof (k_range _ Hc l i Hpi) as Hir.
    destruct (N.eqb_spec (cur_level c) 0) as [H0|Hnz].
    + assert (l = 0%nat) as Hl0 by (unfold l; lia).
      rewrite (proj2 (N.ltb_lt i _)) by (by rewrite Hl0 in Hir). mred. apply (round_visit _ _ i); try done.
      * by rewrite Hl0 in Hpi.
      * intros l' j. rewrite <- Hl0. exact (Hp l' j).
      * exact (pop_bit_ok c (cur_visited c ++ [i]) Hc Hb).
    + destruct l as [|k] eqn:Hlk; [lia|]. assert (cur_level c = N.of_nat (S k)) as Hlv by lia.
      assert (N.to_nat (cur_level c - 1) = k) as Hk by lia. pose proof (k_level _ Hc) as Hlt.
      assert (cur_level c - 1 < vlen (cur_words c)) as Hwl by (unfold vlen; rewrite (k_words _ Hc); unfold LEVELS_MAX; lia).
      rewrite vset_ok by done. mred.
      destruct (take_spec (cur_dirty c) (cur_level c - 1) i (k_shape _ Hc)) as (d' & -> & Hd' & Hh & Hf & Hm); [lia|by rewrite Hk|]. mred.
      rewrite vset_ok by (unfold vlen, bits; rewrite length_insert, (k_bits _ Hc); unfold LEVELS_MAX; lia). mred. rewrite Hk.
      replace (N.to_nat (cur_level c)) with (S k) by lia. fold bits.
      destruct (enter_ok _ k i d' Hpop Hlv Hd') as [Hp' Hc']; [done|exact Hir|]. simpl in Hp', Hc'.
      apply (round_down _ _ k i); simpl; try done; try lia.
      * intros l' j. rewrite Hm, Hk. done.
      * intros l' j. replace (cur_level c - 1) with (N.of_nat k) by lia. etransitivity; [exact (Hp' l' j)|]. case_decide; [done|]. apply Hp.
      * replace (cur_level c - 1) with (N.of_nat k) by lia. exact Hc'.
Qed.

(** Nothing is pending below the cursor's level. *)
Lemma pend_below c l i : cursor_ok c → (l < N.to_nat (cur_level c))%nat → pend c l i = false.
Proof. intros Hc Hl. unfold pend. by rewrite (k_below _ Hc l Hl), N.bits_0, andb_false_r. Qed.

Lemma pend_zero c l i : cur_bit c l = 0 → pend c l i = false.
Proof. intros H. unfold pend. by rewrite H, N.bits_0, andb_false_r. Qed.

(** ** The rounds of a drain *)

Fixpoint sum (f : nat → nat) (n : nat) : nat := match n with O => 0%nat | S n => (sum f n + f n)%nat end.

Lemma sum_ext f g n : (∀ i, (i < n)%nat → f i = g i) → sum f n = sum g n.
Proof. induction n as [|n IH]; intros H; [done|]. simpl. rewrite IH, H by auto with lia. done. Qed.

Lemma sum_le f g n : (∀ i, (i < n)%nat → (f i ≤ g i)%nat) → (sum f n ≤ sum g n)%nat.
Proof. induction n as [|n IH]; intros H; [done|]. simpl. pose proof (H n). pose proof (IH ltac:(auto with lia)). lia. Qed.

Lemma sum_add f g n : sum (λ i, f i + g i)%nat n = (sum f n + sum g n)%nat.
Proof. induction n as [|n IH]; [done|]. simpl. lia. Qed.

Lemma sum_zero n : sum (λ _, 0%nat) n = 0%nat.
Proof. induction n as [|n IH]; [done|]. simpl. lia. Qed.

Lemma sum_const k n : sum (λ _, k) n = (k * n)%nat.
Proof. induction n as [|n IH]; simpl; lia. Qed.

Lemma sum_single k x n : sum (λ i, if decide (i = k) then x else 0%nat) n = if decide (k < n)%nat then x else 0%nat.
Proof. induction n as [|n IH]; simpl; [done|]. rewrite IH. repeat case_decide; lia. Qed.

(** One term lowered. *)
Lemma sum_split f k n : (k < n)%nat → sum f n = (f k + sum (λ i, if decide (i = k) then 0%nat else f i) n)%nat.
Proof.
  intros Hk. transitivity (sum (λ i, (if decide (i = k) then f k else 0) + (if decide (i = k) then 0 else f i))%nat n).
  - apply sum_ext. intros i _. case_decide; subst; lia.
  - rewrite sum_add, sum_single, decide_True by done. done.
Qed.

(** Summing over the nodes of a level is summing over the children of each parent. *)
Lemma sum_children g m n :
  (∀ j, (j < n)%nat → (j / 64 < m)%nat) →
  sum (λ i, sum (λ j, if decide (j / 64 = i)%nat then g j else 0%nat) n) m = sum g n.
Proof.
  induction n as [|n IH]; intros H; cbn [sum]; [apply sum_zero|]. rewrite sum_add, IH by auto with lia. f_equal.
  rewrite <- (sum_ext (λ i, if decide (i = n / 64)%nat then g n else 0%nat)); [|intros i _; repeat case_decide; lia].
  rewrite sum_single, decide_True; [done|]. apply H. lia.
Qed.

(** The rounds that node [i] of level [l] can cost: one to visit a leaf; to enter and leave
    an inner node, and those of its children. *)
Fixpoint cost (n : N) (l : nat) (i : nat) : nat :=
  match l with
  | O => 1%nat
  | S l => (2 + sum (λ j, if decide (j / 64 = i)%nat then cost n l j else 0) (N.to_nat (width n l)))%nat
  end.

Definition level_work (n : N) (c : cursor) (l : nat) : nat :=
  sum (λ i, if pend c l (N.of_nat i) then cost n l i else 0%nat) (N.to_nat (width n l)).

(** The rounds left to a drain, whatever notifiers do meanwhile. *)
Definition work (n h : N) (c : cursor) : nat := (sum (level_work n c) (N.to_nat h) + N.to_nat (h - 1 - cur_level c))%nat.

Lemma cost_total n l :
  sum (cost n l) (N.to_nat (width n l)) = (N.to_nat n + 2 * sum (λ l, N.to_nat (width n (S l))) l)%nat.
Proof.
  induction l as [|l IH]; [simpl; rewrite sum_const; lia|]. cbn [cost]. rewrite sum_add, sum_const, sum_children.
  - rewrite IH. cbn [sum]. lia.
  - intros j Hj. pose proof (width_child n l (N.of_nat j) ltac:(lia)) as Hw.
    pose proof (Nat2N.inj_div j 64) as Hd. change (N.of_nat 64) with 64 in Hd. rewrite <- Hd in Hw. lia.
Qed.

Lemma level_work_same n c c' l : (∀ i, pend c' l i = pend c l i) → level_work n c' l = level_work n c l.
Proof. intros H. apply sum_ext. intros i _. by rewrite H. Qed.

Lemma level_work_none n c l : (∀ i, pend c l i = false) → level_work n c l = 0%nat.
Proof. intros H. unfold level_work. rewrite (sum_ext _ (λ _, 0%nat)); [apply sum_zero|]. intros i _. by rewrite H. Qed.

Lemma level_work_pop n c c' l i :
  i < width n l → pend c l i = true → (∀ j, pend c' l j = pend c l j && negb (bool_decide (j = i))) →
  level_work n c l = (cost n l (N.to_nat i) + level_work n c' l)%nat.
Proof.
  intros Hi Hp Hpop. unfold level_work. rewrite (sum_split _ (N.to_nat i)) by lia. rewrite N2Nat.id, Hp. f_equal. apply sum_ext.
  intros j _. rewrite Hpop. case_decide as Hj.
  - rewrite bool_decide_eq_true_2 by lia. by rewrite andb_false_r.
  - rewrite bool_decide_eq_false_2 by lia. by rewrite andb_true_r.
Qed.

Lemma sum_split2 f g k m n :
  (k < n)%nat → (m < n)%nat → k ≠ m → (∀ i, i ≠ k → i ≠ m → f i = g i) →
  (sum f n + g k + g m = sum g n + f k + f m)%nat.
Proof.
  intros Hk Hm Hne Heq. rewrite (sum_split f k n Hk), (sum_split g k n Hk).
  rewrite (sum_split (λ i, if decide (i = k) then 0%nat else f i) m n Hm), (sum_split (λ i, if decide (i = k) then 0%nat else g i) m n Hm).
  rewrite !decide_False by done.
  rewrite (sum_ext (λ i, if decide (i = m) then 0%nat else if decide (i = k) then 0%nat else f i)
                   (λ i, if decide (i = m) then 0%nat else if decide (i = k) then 0%nat else g i)); [lia|].
  intros i _. repeat case_decide; auto.
Qed.

(** Entering a node brings at most the work of its children. *)
Lemma level_work_enter n d c' k i :
  (∀ j, pend c' k j = bool_decide (j / 64 = i) && marked d k j) → (level_work n c' k + 2 ≤ cost n (S k) (N.to_nat i))%nat.
Proof.
  intros Hp. cbn [cost]. rewrite Nat.add_comm. apply Nat.add_le_mono_l, sum_le. intros j _. rewrite Hp.
  pose proof (Nat2N.inj_div j 64) as Hd. change (N.of_nat 64) with 64 in Hd. rewrite <- Hd.
  case_decide as Hj; [destruct (_ && _); lia|]. rewrite bool_decide_eq_false_2; [done|]. lia.
Qed.

(** Every round uses up some of the work. *)
Lemma work_round c c' :
  let n := frames (cur_dirty c) in let h := height (cur_dirty c) in
  cursor_ok c → drain_body c = Done (Continue c') → (work n h c' < work n h c)%nat.
Proof.
  intros n h Hc Hb. pose proof (body_round _ Hc) as Hr. rewrite Hb in Hr. pose proof (k_level _ Hc) as Hlt. unfold work.
  inversion Hr as [|? Hz Hlv Hd Hv Hp Hok|? f H0 Hpf Hlv Hd Hv Hp Hok|? k i Hlv Hlv' Hpx [Hh Hf] Hv Hm Hp Hok]; subst.
  - rewrite (sum_ext (level_work n c') (level_work n c)) by (intros; by apply level_work_same). pose proof (k_level _ Hok) as Hlt'.
    rewrite Hd in Hlt'. fold h in Hlt, Hlt'. lia.
  - pose proof (k_range _ Hc 0 f Hpf) as Hf. rewrite Hlv, H0. fold h in Hlt. fold n in Hf.
    rewrite (sum_split (level_work n c) 0), (sum_split (level_work n c') 0) by lia.
    rewrite (level_work_pop n c c' 0 f) by (done || (intros j; rewrite Hp; do 2 f_equal; apply bool_decide_ext; naive_solver)).
    rewrite (sum_ext (λ i, if decide (i = 0%nat) then 0%nat else level_work n c' i) (λ i, if decide (i = 0%nat) then 0%nat else level_work n c i)).
    + cbn [cost]. lia.
    + intros l _. case_decide as Hl; [done|]. apply level_work_same. intros j. rewrite Hp, bool_decide_eq_false_2 by naive_solver. by rewrite andb_true_r.
  - pose proof (k_range _ Hc (S k) i Hpx) as Hi. fold h in Hlt. fold n in Hi.
    pose proof (sum_split2 (level_work n c') (level_work n c) k (S k) (N.to_nat h)) as Hs.
    rewrite (level_work_pop n c c' (S k) i) in Hs by (done || (intros j; rewrite Hp, decide_False by lia; do 2 f_equal; apply bool_decide_ext; naive_solver)).
    rewrite (level_work_none n c k) in Hs by (intros j; apply pend_below; [done|lia]).
    pose proof (level_work_enter n (cur_dirty c) c' k i) as He. specialize (He ltac:(intros j; by rewrite Hp, decide_True)).
    specialize (Hs ltac:(lia) ltac:(lia) ltac:(lia)). specialize (Hs ltac:(intros l ? ?; apply level_work_same; intros j;
      rewrite Hp, decide_False, bool_decide_eq_false_2 by naive_solver; by rewrite andb_true_r)). lia.
Qed.

Lemma start_spec d :
  shape d →
  ∃ c, drain_start d = Done c ∧ cursor_ok c ∧ same_tree d (cur_dirty c) ∧ cur_visited c = [] ∧ cur_level c = height d - 1 ∧
    (∀ l j, marked (cur_dirty c) l j = marked d l j && negb (bool_decide (l = N.to_nat (height d - 1) ∧ j / 64 = 0))) ∧
    (∀ l j, pend c l j = bool_decide (l = N.to_nat (height d - 1) ∧ j / 64 = 0) && marked d l j).
Proof.
  intros Hs. pose proof (s_pos _ Hs) as [Hp Hmax]. unfold drain_start. rewrite sub_ok by lia. mred.
  set (lv := height d - 1). assert (S (N.to_nat lv) = N.to_nat (height d)) as Hlv by lia.
  destruct (take_spec d lv 0 Hs) as (d' & -> & Hd' & Hh & Hf & Hm); [lia|rewrite Hlv, (s_root _ Hs); lia|]. mred.
  rewrite vset_ok by (unfold vlen; rewrite length_replicate; unfold LEVELS_MAX in *; lia). mred.
  eexists. split; [done|]. set (c := mkCursor _ _ _ _ _). change (N.to_nat LEVELS_MAX) with 6%nat in c. unfold LEVELS_MAX in Hmax.
  assert (∀ l, cur_word c l = 0) as Hw0.
  { intros l. unfold cur_word. simpl. by do 6 (destruct l as [|l]; [done|]). }
  assert (∀ l, cur_bit c l = if decide (l = N.to_nat lv) then word d l 0 else 0) as Hb0.
  { intros l. unfold cur_bit. cbn [cur_bits c]. case_decide as Hl.
    - subst l. rewrite list_lookup_insert_eq by (rewrite length_replicate; lia). done.
    - rewrite list_lookup_insert_ne by done. by do 6 (destruct l as [|l]; [done|]). }
  assert (∀ l j, pend c l j = bool_decide (l = N.to_nat lv ∧ j / 64 = 0) && marked d l j) as Hpe.
  { intros l j. unfold pend. rewrite Hw0, Hb0. unfold marked. destruct (N.eqb_spec (j / 64) 0) as [->|Hne]; simpl.
    - case_decide as Hl; [by rewrite bool_decide_eq_true_2|by rewrite bool_decide_eq_false_2, N.bits_0 by naive_solver].
    - by rewrite bool_decide_eq_false_2 by naive_solver. }
  split_and!; try done. split; simpl; try done.
  - lia.
  - by rewrite length_insert.
  - intros l Hl. rewrite Hb0, decide_False by lia. done.
  - intros l k. rewrite Hb0. case_decide; [apply (s_small _ Hs)|by rewrite N.bits_0].
  - intros l i Hi. rewrite Hpe in Hi. apply andb_true_iff in Hi as [_ Hi]. rewrite Hf. by apply (s_range _ Hs).
Qed.

Lemma work_start d c :
  shape d → drain_start d = Done c → (work (frames d) (height d) c < N.to_nat (rounds_bound d))%nat.
Proof.
  intros Hs Hst. destruct (start_spec d Hs) as (c1 & Heq & _ & _ & _ & Hlv & _ & Hp). rewrite Hst in Heq. injection Heq as <-.
  pose proof (s_pos _ Hs) as [Hpos Hmax]. pose proof (s_frames _ Hs) as Hn. set (n := frames d) in *. unfold work. rewrite Hlv.
  set (k := N.to_nat (height d - 1)) in *. replace (N.to_nat (height d)) with (S k) by lia.
  rewrite (sum_split _ k), (sum_ext _ (λ _, 0%nat)), sum_zero by first [lia | intros l _; case_decide; [done|]; apply level_work_none;
    intros i; rewrite Hp, bool_decide_eq_false_2 by naive_solver; done].
  assert (level_work n c k ≤ sum (cost n k) (N.to_nat (width n k)))%nat as Hle by (apply sum_le; intros i _; case_match; lia).
  rewrite cost_total in Hle.
  assert (sum (λ l, N.to_nat (width n (S l))) k ≤ sum (λ _, N.to_nat ((n - 1) / 64 + 1)) k)%nat as Hle2.
  { apply sum_le. intros l _. pose proof (width_small n l Hn). lia. }
  rewrite sum_const in Hle2. pose proof (N.Div0.mul_div_le (n - 1) 64). unfold rounds_bound, LEVELS_MAX in *. fold n. nia.
Qed.

(** ** Notifiers and a drain, interleaved *)

(** [notifiers] are the stores still to be made, [owed] the frames whose leaf has been
    stored and that no drain has visited since, [rounds] the rounds the running drain has
    made. *)
Record system := mkSystem {
  tree : DirtyFrames;
  notifiers : list (nat * N);
  draining : option cursor;
  owed : gset N;
  rounds : nat;
}.

Definition set_tree (d : DirtyFrames) (c : cursor) : cursor :=
  mkCursor d (cur_level c) (cur_words c) (cur_bits c) (cur_visited c).

Definition climb (d : DirtyFrames) (l : nat) (i : N) : list (nat * N) :=
  if (S l <? N.to_nat (height d))%nat then [(S l, i / 64)] else [].

Inductive step : system → system → Prop :=
  | step_notify d ns dr o m f :
      f < frames d → step (mkSystem d ns dr o m) (mkSystem d ((0%nat, f) :: ns) dr o m)
  | step_store d ns1 l i ns2 dr o m d' :
      notify_store d l i = Done d' →
      step (mkSystem d (ns1 ++ (l, i) :: ns2) dr o m)
        (mkSystem d' (ns1 ++ climb d l i ++ ns2) dr (if l is O then {[i]} ∪ o else o) m)
  | step_drain d ns o m c :
      drain_start d = Done c → step (mkSystem d ns None o m) (mkSystem (cur_dirty c) ns (Some c) o 0)
  | step_round d ns c o m c' :
      drain_body (set_tree d c) = Done (Continue c') →
      step (mkSystem d ns (Some c) o m)
        (mkSystem (cur_dirty c') ns (Some c') (o ∖ list_to_set (drop (length (cur_visited c)) (cur_visited c'))) (S m))
  | step_end d ns c o m d' vs :
      drain_body (set_tree d c) = Done (Return (d', vs)) →
      step (mkSystem d ns (Some c) o m) (mkSystem d' ns None o m).

Definition pending (s : system) (l : nat) (i : N) : Prop := ∃ c, draining s = Some c ∧ pend c l i = true.

(** Above every mark there is a mark, a notifier about to set one, or the drain about to
    enter that node. *)
Record inv (s : system) : Prop := {
  i_shape : shape (tree s);
  i_notifiers : ∀ l i, (l, i) ∈ notifiers s → (l < N.to_nat (height (tree s)))%nat ∧ i < width (frames (tree s)) l;
  i_cursor : ∀ c, draining s = Some c → cursor_ok (set_tree (tree s) c);
  i_cover : ∀ l i, (S l < N.to_nat (height (tree s)))%nat → marked (tree s) l i = true →
    marked (tree s) (S l) (i / 64) = true ∨ (S l, i / 64) ∈ notifiers s ∨ pending s (S l) (i / 64);
  i_owed : ∀ f, f ∈ owed s → marked (tree s) 0 f = true ∨ pending s 0 f;
  i_rounds : ∀ c, draining s = Some c →
    (rounds s + work (frames (tree s)) (height (tree s)) c < N.to_nat (rounds_bound (tree s)))%nat;
}.

Lemma cursor_tree d d' c : cursor_ok (set_tree d c) → shape d' → same_tree d d' → cursor_ok (set_tree d' c).
Proof.
  intros [H1 H2 H3 H4 H5 H7 H8] Hd [Hh Hf]. split; simpl in *; try done; [by rewrite Hh|]. intros l i Hp. rewrite Hf. by apply H8.
Qed.

Lemma notify_store_inv d ns1 l i ns2 dr o m d' :
  inv (mkSystem d (ns1 ++ (l, i) :: ns2) dr o m) → notify_store d l i = Done d' →
  inv (mkSystem d' (ns1 ++ climb d l i ++ ns2) dr (if l is O then {[i]} ∪ o else o) m).
Proof.
  intros [H1 H2 H3 H4 H5 H6] Hst. simpl in *. destruct (H2 l i) as [Hl Hi]; [set_solver|].
  destruct (store_spec d l i H1 Hl Hi) as (d1 & Heq & Hs & Hh & Hf & Hm). rewrite Hst in Heq. injection Heq as <-.
  split; simpl; unfold rounds_bound; rewrite ?Hh, ?Hf; try done.
  - intros l' j. rewrite !elem_of_app. unfold climb. intros [Hin|[Hin|Hin]]; [apply H2; set_solver| |apply H2; set_solver].
    destruct (Nat.ltb_spec (S l) (N.to_nat (height d))); [|by apply elem_of_nil in Hin].
    apply list_elem_of_singleton in Hin. simplify_eq. split; [done|]. by apply width_child.
  - intros c Hc. apply (cursor_tree d); [by apply H3|done|done].
  - intros l' j Hl' Hj. rewrite Hm in Hj. apply orb_true_iff in Hj as [Hj|[-> ->]%bool_decide_eq_true].
    + destruct (H4 l' j Hl' Hj) as [Hc|[Hc|Hc]]; [left; by rewrite Hm, Hc| |by right; right].
      rewrite elem_of_app, elem_of_cons in Hc. destruct Hc as [Hc|[Hc|Hc]].
      * right; left. set_solver.
      * left. rewrite Hm. injection Hc as -> ->. rewrite bool_decide_eq_true_2 by done. by rewrite orb_true_r.
      * right; left. set_solver.
    + right; left. unfold climb. rewrite (proj2 (Nat.ltb_lt _ _)) by done. set_solver.
  - intros f Hf'. rewrite Hm. destruct l as [|l].
    + apply elem_of_union in Hf' as [->%elem_of_singleton|Hf'].
      * left. rewrite bool_decide_eq_true_2 by done. by rewrite orb_true_r.
      * destruct (H5 f Hf') as [->|?]; [by left|by right].
    + destruct (H5 f Hf') as [->|?]; [by left|by right].
Qed.

Lemma set_tree_id c : set_tree (cur_dirty c) c = c.
Proof. by destruct c. Qed.

Lemma start_inv d ns o m c :
  inv (mkSystem d ns None o m) → drain_start d = Done c → inv (mkSystem (cur_dirty c) ns (Some c) o 0).
Proof.
  intros [H1 H2 H3 H4 H5 H6] Hst. simpl in *. destruct (start_spec d H1) as (c1 & Heq & Hc & [Hh Hf] & _ & _ & Hm & Hp).
  rewrite Hst in Heq. injection Heq as <-.
  assert (∀ l i, marked d l i = true → marked (cur_dirty c) l i = true ∨ pend c l i = true) as Hkeep.
  { intros l i Hi. rewrite Hm, Hp, Hi. destruct (bool_decide _); [by right|by left]. }
  split; simpl; unfold rounds_bound; rewrite ?Hh, ?Hf; try done.
  - apply Hc.
  - intros c' [= <-]. by rewrite set_tree_id.
  - intros l i Hl Hi. rewrite Hm in Hi. apply andb_true_iff in Hi as [Hi _].
    destruct (H4 l i Hl Hi) as [[Hc'|Hc']%Hkeep|[Hc'|(? & ? & _)]]; [by left|right; right; by exists c|by right; left|done].
  - intros f Hf'. destruct (H5 f Hf') as [[Hc'|Hc']%Hkeep|(? & ? & _)]; [by left|right; by exists c|done].
  - intros c' [= <-]. by apply (work_start d).
Qed.

Lemma round_inv d ns c o m c' :
  inv (mkSystem d ns (Some c) o m) → drain_body (set_tree d c) = Done (Continue c') →
  inv (mkSystem (cur_dirty c') ns (Some c') (o ∖ list_to_set (drop (length (cur_visited c)) (cur_visited c'))) (S m)).
Proof.
  intros [H1 H2 H3 H4 H5 H6] Hb. simpl in *. pose proof (H3 c eq_refl) as Hc. pose proof (body_round _ Hc) as Hr. rewrite Hb in Hr.
  assert (∀ d', same_tree d d' → ∀ c0, Some c' = Some c0 → (S m + work (frames d') (height d') c0 < N.to_nat (rounds_bound d'))%nat) as Hwork.
  { intros d' [Hh Hf] ? [= <-]. unfold rounds_bound. rewrite Hh, Hf. pose proof (work_round _ _ Hc Hb) as Hw. specialize (H6 c eq_refl).
    unfold rounds_bound in H6. change (work (frames d) (height d) c' < work (frames d) (height d) c)%nat in Hw. lia. }
  assert (∀ l i, pend (set_tree d c) l i = pend c l i) as Hsame by done.
  assert (∀ l i, pending (mkSystem d ns (Some c) o m) l i ↔ pend c l i = true) as Hpd.
  { intros l i. unfold pending. simpl. split; [by intros (? & [= <-] & ?)|eauto]. }
  assert (∀ l i d0 ow m', pending (mkSystem d0 ns (Some c') ow m') l i ↔ pend c' l i = true) as Hpd'.
  { intros l i d0 ow m'. unfold pending. simpl. split; [by intros (? & [= <-] & ?)|eauto]. }
  inversion Hr as [|? Hz Hlv Hd Hv Hp Hok|? f H0 Hpf Hlv Hd Hv Hp Hok|? k x Hlv Hlv' Hpx [Hh Hf] Hv Hm Hp Hok]; subst; simpl in *.
  - rewrite Hv, drop_all, Hd. simpl. split; simpl; try done.
    + intros ? [= <-]. rewrite <- Hd, set_tree_id. done.
    + intros l i Hl Hi. rewrite Hpd', Hp. destruct (H4 l i Hl Hi) as [?|[?|Hx%Hpd]]; auto.
    + intros f Hf. rewrite Hpd', Hp. rewrite difference_empty_L in Hf. destruct (H5 f Hf) as [?|Hx%Hpd]; auto.
    + by apply Hwork.
  - rewrite Hv, drop_app_length, Hd. split; simpl; try done.
    + intros ? [= <-]. rewrite <- Hd, set_tree_id. done.
    + intros l i Hl Hi. rewrite Hpd', Hp. destruct (H4 l i Hl Hi) as [?|[?|Hx%Hpd]]; auto. right; right.
      rewrite Hsame, Hx, bool_decide_eq_false_2; [done|]. by intros [? _].
    + intros f' Hf'. rewrite Hpd', Hp. apply elem_of_difference in Hf' as [Hin Hne]. destruct (H5 f' Hin) as [?|Hx%Hpd]; auto. right.
      rewrite Hsame, Hx, bool_decide_eq_false_2; [done|]. intros [_ ->]. set_solver.
    + by apply Hwork.
  - rewrite Hv, drop_all. simpl.
    assert (∀ l i, marked d l i = true → marked (cur_dirty c') l i = true ∨ pend c' l i = true) as Hkeep.
    { intros l i Hi. rewrite Hm, Hp, Hi. case_decide as Hl; [subst l|].
      - destruct (decide (i / 64 = x)); [right; by rewrite bool_decide_eq_true_2|left; rewrite bool_decide_eq_false_2; [done|naive_solver]].
      - left. rewrite bool_decide_eq_false_2; [done|naive_solver]. }
    assert (∀ l i, pend c l i = true → l ≠ k) as Hnk.
    { intros l i Hi ->. pose proof (pend_below (set_tree d c) k i Hc) as Hx. simpl in Hx. rewrite Hlv in Hx. rewrite Hsame in Hx.
      rewrite Hx in Hi by lia. done. }
    split; simpl; rewrite ?Hh, ?Hf; try done.
    + apply Hok.
    + intros ? [= <-]. by rewrite set_tree_id.
    + intros l i Hl Hi. rewrite Hm in Hi. apply andb_true_iff in Hi as [Hi Hex]. apply negb_true_iff, bool_decide_eq_false in Hex. rewrite Hpd'.
      destruct (H4 l i Hl Hi) as [[?|?]%Hkeep|[?|Hx%Hpd]]; auto. right; right. rewrite Hp, decide_False by (by eapply Hnk).
      rewrite Hsame, Hx, bool_decide_eq_false_2; [done|]. intros [[= ->] Hix]. by apply Hex.
    + intros f Hin. rewrite difference_empty_L in Hin. rewrite Hpd'. destruct (H5 f Hin) as [[?|?]%Hkeep|Hx%Hpd]; auto. right.
      rewrite Hp, decide_False by (by eapply Hnk). rewrite Hsame, Hx, bool_decide_eq_false_2; [done|]. by intros [? _].
    + rewrite <- Hh, <- Hf. by apply Hwork.
Qed.

(** When a drain returns, nothing is pending. *)
Lemma end_pend c d vs l i :
  cursor_ok c → drain_body c = Done (Return (d, vs)) → (l < N.to_nat (height (cur_dirty c)))%nat →
  pend c l i = false ∧ d = cur_dirty c ∧ vs = cur_visited c.
Proof.
  intros Hc Hb Hl. pose proof (body_round _ Hc) as Hr. rewrite Hb in Hr. inversion Hr as [Hlv Hz| | |]; subst. split; [|done].
  destruct (decide (l = N.to_nat (cur_level c))) as [->|Hne]; [by apply pend_zero|]. apply pend_below; [done|lia].
Qed.

Lemma end_inv d ns c o m d' vs :
  inv (mkSystem d ns (Some c) o m) → drain_body (set_tree d c) = Done (Return (d', vs)) → inv (mkSystem d' ns None o m).
Proof.
  intros [H1 H2 H3 H4 H5 H6] Hb. simpl in *. pose proof (H3 c eq_refl) as Hc. pose proof (s_pos _ H1) as [Hpos _].
  assert (d' = d) as ->. { apply (end_pend _ d' vs 0 0 Hc Hb). simpl. lia. }
  split; simpl; try done.
  - intros l i Hl Hi. destruct (H4 l i Hl Hi) as [?|[?|(? & [= <-] & Hx)]]; auto.
    destruct (end_pend _ d vs (S l) (i / 64) Hc Hb) as [Hp _]; [done|]. change (pend c (S l) (i / 64) = false) in Hp. congruence.
  - intros f Hf. destruct (H5 f Hf) as [?|(? & [= <-] & Hx)]; auto.
    destruct (end_pend _ d vs 0 f Hc Hb) as [Hp _]; [simpl; lia|]. change (pend c 0 f = false) in Hp. congruence.
Qed.

Lemma notifications_step_inv s s' : inv s → step s s' → inv s'.
Proof.
  intros Hi Hst. destruct Hst as [d ns dr o m f Hf|d ns1 l i ns2 dr o m d' Hx|d ns o m c Hx|d ns c o m c' Hx|d ns c o m d' vs Hx].
  - pose proof (s_pos _ (i_shape _ Hi)) as [Hp _]. simpl in Hp. destruct Hi as [H1 H2 H3 H4 H5 H6]. split; simpl in *; try done.
    + intros l i [[= -> ->]|Hin]%elem_of_cons; [|by apply H2]. split; [lia|done].
    + intros l i Hl Hi. destruct (H4 l i Hl Hi) as [?|[?|?]]; auto. right; left. by right.
  - by eapply notify_store_inv.
  - by eapply start_inv.
  - by eapply round_inv.
  - by eapply end_inv.
Qed.

(** ** A new tree *)

(** The levels built so far. *)
Definition built (n : N) (m : nat) (st : list (list N) * N * N) : Prop :=
  let '(ls, count, h) := st in
  length ls = N.to_nat h ∧ (m + N.to_nat h = 6)%nat ∧ count = width n (N.to_nat h) ∧
  ∀ l lv, ls !! l = Some lv → lv = replicate (N.to_nat (width n (S l))) 0.

Lemma built_snoc n m ls count h :
  built n (S m) (ls, count, h) → built n m (ls ++ [replicate (N.to_nat (div_ceil count 64)) 0], div_ceil count 64, h + 1).
Proof.
  intros (H1 & H2 & -> & H4). assert (N.to_nat (h + 1) = S (N.to_nat h)) as Hh by lia. split_and!.
  - rewrite length_app. simpl. lia.
  - lia.
  - by rewrite Hh.
  - intros l lv [Hl|[Hl Hlv]]%lookup_app_Some; [by apply H4|]. apply list_lookup_singleton_Some in Hlv as [Hl0 <-].
    assert (l = N.to_nat h) as -> by lia. done.
Qed.

Lemma built_shape n m ls h :
  0 < n → built n m (ls, 1, h) → (m < 6)%nat → shape (mkDirtyFrames ls h n) ∧ ∀ l i, marked (mkDirtyFrames ls h n) l i = false.
Proof.
  intros Hn (H1 & H2 & H3 & H4) Hm.
  assert (∀ l k, word (mkDirtyFrames ls h n) l k = 0) as Hz.
  { intros l k. unfold word. simpl. destruct (ls !! l) as [lv|] eqn:Hl; [|done]. simpl. rewrite (H4 l lv Hl).
    destruct (replicate _ _ !! _) as [w|] eqn:Hw; [|done]. by apply lookup_replicate in Hw as [-> _]. }
  assert (∀ l i, marked (mkDirtyFrames ls h n) l i = false) as Hmk by (intros l i; unfold marked; by rewrite Hz, N.bits_0).
  split; [|done]. split; simpl; try done.
  - unfold LEVELS_MAX. lia.
  - intros l lv Hl. rewrite (H4 l lv Hl). unfold vlen. rewrite length_replicate. simpl. lia.
  - intros l k j. by rewrite Hz, N.bits_0.
  - intros l i. by rewrite Hmk.
Qed.

Lemma try_new_empty n :
  0 < n → n ≤ U32_MAX → ∃ d, try_new n = Done d ∧ shape d ∧ frames d = n ∧ ∀ l i, marked d l i = false.
Proof.
  intros Hn Hmax. unfold try_new. rewrite (proj2 (N.ltb_lt 0 n)) by done. mred. rewrite for_range_nat. change (N.to_nat LEVELS_MAX) with 6%nat.
  match goal with |- context [for_nat ?b 6 _] => set (body := b) end.
  destruct (for_nat_rule body (built n) (λ r, ∃ ls h m, r = (ls, 1, h) ∧ (m < 6)%nat ∧ built n m r) 6 ([], n, 0)) as [(st & -> & Hst)|(r & -> & Hr)].
  - intros m [[ls count] h] Hb. pose proof (built_snoc n m ls count h Hb) as Hb'. unfold body.
    destruct (N.eqb_spec (div_ceil count 64) 1) as [He|Hne]; [right|left; by eexists].
    eexists. split; [done|]. rewrite He in Hb'. eexists _, _, m. split; [by rewrite He|]. split; [|by rewrite He].
    destruct Hb as (_ & Hx & _). lia.
  - simpl. split_and!; try done; set_solver.
  - destruct st as [[ls count] h]. mred. pose proof Hst as (_ & Hh & Hc & _). simpl in Hh. rewrite Hh in Hc.
    assert (count = 1) as ->. { rewrite Hc, width_div by done. rewrite N.div_small; [done|]. unfold U32_MAX in Hmax. simpl in *. lia. }
    mred. destruct (built_shape n 0 ls h Hn Hst) as [? ?]; [lia|]. by eexists.
  - destruct Hr as (ls & h & m & -> & Hm & Hb). mred. destruct (built_shape n m ls h Hn Hb Hm) as [? ?]. by eexists.
Qed.

(** ** A drain that nothing interrupts *)

Record seq (d0 : DirtyFrames) (m : nat) (c : cursor) : Prop := {
  q_inv : ∃ o, inv (mkSystem (cur_dirty c) [] (Some c) o m);
  q_same : same_tree d0 (cur_dirty c);
  q_top : ∀ i, marked (cur_dirty c) (N.to_nat (height d0 - 1)) i = false;
  q_disj : ∀ i, pend c 0 i = true → marked (cur_dirty c) 0 i = false;
  q_seen : ∀ f, marked d0 0 f = true ↔ f ∈ cur_visited c ∨ marked (cur_dirty c) 0 f = true ∨ pend c 0 f = true;
  q_once : NoDup (cur_visited c);
  q_fresh : ∀ f, f ∈ cur_visited c → marked (cur_dirty c) 0 f = false ∧ pend c 0 f = false;
}.

Lemma seq_ok d0 m c : seq d0 m c → cursor_ok c.
Proof. intros [[o Hi] _ _ _ _ _ _]. pose proof (i_cursor _ Hi c eq_refl) as Hc. simpl in Hc. by rewrite set_tree_id in Hc. Qed.

Lemma start_seq d o m c : inv (mkSystem d [] None o m) → drain_start d = Done c → seq d 0 c.
Proof.
  intros Hi Hst. pose proof (i_shape _ Hi) as Hs. simpl in Hs. destruct (start_spec d Hs) as (c1 & Heq & Hc & Hsame & Hv & _ & Hm & Hp).
  rewrite Hst in Heq. injection Heq as <-. split; try done.
  - exists o. by eapply start_inv.
  - intros i. rewrite Hm. destruct (marked d _ i) eqn:Hx; [|done]. apply (s_range _ Hs), width_child in Hx.
    replace (S (N.to_nat (height d - 1))) with (N.to_nat (height d)) in Hx by (pose proof (s_pos _ Hs); lia). rewrite (s_root _ Hs) in Hx.
    rewrite bool_decide_eq_true_2; [done|]. split; [done|by apply N.lt_1_r].
  - intros i. rewrite Hm, Hp. intros [-> _]%andb_true_iff. by rewrite andb_false_r.
  - intros f. rewrite Hv, Hm, Hp. destruct (marked d 0 f), (bool_decide _); simpl; set_solver.
  - rewrite Hv. constructor.
  - intros f. rewrite Hv. by intros ?%elem_of_nil.
Qed.

Lemma round_seq d0 m c c' : seq d0 m c → drain_body c = Done (Continue c') → seq d0 (S m) c'.
Proof.
  intros Hq Hb. pose proof (seq_ok _ _ _ Hq) as Hc. destruct Hq as [[o Hi] [Hh Hf] Htop Hdis Hseen Honce Hfresh].
  pose proof (body_round _ Hc) as Hr. rewrite Hb in Hr.
  assert (∃ o, inv (mkSystem (cur_dirty c') [] (Some c') o (S m))) as Hinv.
  { eexists. eapply round_inv; [exact Hi|]. by rewrite set_tree_id. }
  inversion Hr as [|? Hz Hlv Hd Hv Hp Hok|? f H0 Hpf Hlv Hd Hv Hp Hok|? k x Hlv Hlv' Hpx [Hh' Hf'] Hv Hm Hp Hok]; subst.
  - rewrite Hd in Hinv. split; rewrite ?Hd, ?Hv; try done; intros i; rewrite ?Hp; auto.
  - rewrite Hd in Hinv. split; rewrite ?Hd, ?Hv; try done.
    + intros i. rewrite Hp. intros [? _]%andb_true_iff. auto.
    + intros i. rewrite Hp, Hseen. destruct (decide (i = f)) as [->|Hne].
      * rewrite Hpf. set_solver.
      * rewrite bool_decide_eq_false_2 by naive_solver. rewrite andb_true_r. set_solver.
    + apply NoDup_app. split; [done|]. split; [|apply NoDup_singleton]. intros i [_ Hi']%Hfresh ->%list_elem_of_singleton. congruence.
    + intros i. rewrite Hp. intros [[-> ->]%Hfresh| ->%list_elem_of_singleton]%elem_of_app; [done|]. split; [by apply Hdis|].
      rewrite bool_decide_eq_true_2 by done. by rewrite andb_false_r.
  - assert (∀ i, marked (cur_dirty c') 0 i || pend c' 0 i = marked (cur_dirty c) 0 i || pend c 0 i) as Hor.
    { intros i. rewrite Hm, Hp. case_decide as Hk.
      - subst k. rewrite (pend_below c 0 i Hc) by lia. destruct (decide (i / 64 = x)).
        + rewrite !bool_decide_eq_true_2 by done. by destruct (marked _ _ _).
        + rewrite !bool_decide_eq_false_2 by naive_solver. by destruct (marked _ _ _).
      - rewrite !bool_decide_eq_false_2 by naive_solver. by rewrite !andb_true_r. }
    split; rewrite ?Hv; try done.
    + split; [by rewrite Hh'|by rewrite Hf'].
    + intros i. by rewrite Hm, Htop.
    + intros i. rewrite Hm, Hp. case_decide as Hk; [subst k; by intros [->%bool_decide_eq_true _]%andb_true_iff;
        rewrite bool_decide_eq_true_2, andb_false_r by done|]. intros [->%Hdis _]%andb_true_iff. done.
    + intros i. rewrite Hseen, <- !orb_true_iff, Hor. done.
    + intros i [Hi1 Hi2]%Hfresh. specialize (Hor i). rewrite Hi1, Hi2 in Hor. by apply orb_false_iff in Hor.
Qed.

(** When an uninterrupted drain returns, no mark is left. *)
Lemma end_seq d0 m c d vs : seq d0 m c → drain_body c = Done (Return (d, vs)) → ∀ l i, (l < N.to_nat (height d0))%nat → marked d l i = false.
Proof.
  intros Hq Hb. pose proof (seq_ok _ _ _ Hq) as Hc. destruct Hq as [[o Hi] [Hh Hf] Htop _ _ _ _].
  assert (∀ k l i, l + k = N.to_nat (height d0 - 1) → marked d l i = false)%nat as H.
  { induction k as [|k IH]; intros l i Hl.
    - replace l with (N.to_nat (height d0 - 1)) by lia. destruct (end_pend _ _ _ l i Hc Hb) as (_ & -> & _); [rewrite Hh|]; [|done].
      pose proof (k_level _ Hc). lia.
    - destruct (end_pend _ _ _ (S l) (i / 64) Hc Hb) as (Hp & -> & _); [rewrite Hh; lia|].
      destruct (marked (cur_dirty c) l i) eqn:Hm; [|done]. pose proof (i_cover _ Hi l i) as Hcov. simpl in Hcov. rewrite Hh in Hcov.
      destruct Hcov as [Hx|[Hx|(c1 & [= <-] & Hx)]]; [lia|done| | |congruence]; [|by apply elem_of_nil in Hx].
      rewrite IH in Hx by lia. done. }
  intros l i Hl. apply (H (N.to_nat (height d0 - 1) - l)%nat). lia.
Qed.

Lemma drain_ok d o m :
  inv (mkSystem d [] None o m) →
  ∃ d' fs, drain d = Done (d', fs) ∧ NoDup fs ∧ (∀ f, f ∈ fs ↔ marked d 0 f = true) ∧
    (∀ l i, (l < N.to_nat (height d))%nat → marked d' l i = false) ∧ shape d' ∧ same_tree d d'.
Proof.
  intros Hi. pose proof (i_shape _ Hi) as Hs. simpl in Hs. destruct (start_spec d Hs) as (c & Hst & _).
  pose proof (start_seq _ _ _ _ Hi Hst) as Hq. unfold drain. rewrite Hst. mred. rewrite for_range_nat.
  destruct (for_nat_rule drain_body (λ k c, ∃ m, seq d m c ∧ (k + m = N.to_nat (rounds_bound d))%nat)
    (λ r, NoDup r.2 ∧ (∀ f, f ∈ r.2 ↔ marked d 0 f = true) ∧ (∀ l i, (l < N.to_nat (height d))%nat → marked r.1 l i = false) ∧
       shape r.1 ∧ same_tree d r.1)
    (N.to_nat (rounds_bound d)) c) as [(c' & -> & m' & Hq' & Hm')|([d' fs] & -> & Hr)].
  - intros k c1 (m1 & Hq1 & Hk). pose proof (body_round _ (seq_ok _ _ _ Hq1)) as Hr. destruct (drain_body c1) as [[c2|[d' fs]]|] eqn:Hb.
    + left. exists c2. split; [done|]. exists (S m1). split; [by eapply round_seq|lia].
    + right. exists (d', fs). split; [done|]. destruct (end_pend _ _ _ 0 0 (seq_ok _ _ _ Hq1) Hb) as (_ & -> & ->).
      { pose proof (k_level _ (seq_ok _ _ _ Hq1)). lia. }
      pose proof (end_seq _ _ _ _ _ Hq1 Hb) as Hend. split_and!; [apply Hq1| |done|apply (k_shape _ (seq_ok _ _ _ Hq1))|apply Hq1]. intros f. simpl. rewrite (q_seen _ _ _ Hq1 f).
      split; [auto|]. intros [?|[Hx|Hx]]; [done| |].
      * rewrite Hend in Hx; [done|]. pose proof (s_pos _ Hs). lia.
      * destruct (end_pend _ _ _ 0 f (seq_ok _ _ _ Hq1) Hb) as (Hy & _ & _); [|congruence]. pose proof (k_level _ (seq_ok _ _ _ Hq1)). lia.
    + by inversion Hr.
  - exists 0%nat. split; [done|lia].
  - destruct Hq' as [[o' Hi'] [Hh Hf] _ _ _ _ _]. pose proof (i_rounds _ Hi' c' eq_refl) as Hx. simpl in Hx. unfold rounds_bound in *.
    rewrite Hf in Hx. lia.
  - mred. by exists d', fs.
Qed.

(** ** Between calls *)

(** No call is under way. *)
Definition quiet (d : DirtyFrames) : Prop := ∃ o m, inv (mkSystem d [] None o m).

Lemma empty_quiet d : shape d → (∀ l i, (l < N.to_nat (height d))%nat → marked d l i = false) → quiet d.
Proof.
  intros Hs Hm. exists ∅, 0%nat. split; simpl; try done; [by intros ? ? ?%elem_of_nil|].
  intros l i Hl Hx. rewrite Hm in Hx by lia. done.
Qed.

Lemma quiet_drain d :
  quiet d → ∃ d' fs, drain d = Done (d', fs) ∧ quiet d' ∧ frames d' = frames d ∧ NoDup fs ∧ (∀ f, f ∈ fs ↔ marked d 0 f = true) ∧
    (∀ f, f ∈ fs → f < frames d) ∧ ∀ f, marked d' 0 f = false.
Proof.
  intros (o & m & Hi). destruct (drain_ok d o m Hi) as (d' & fs & Hd & Hnd & Hfs & Hm & Hs' & Hh & Hf).
  exists d', fs. split_and!; try done.
  - apply empty_quiet; [done|]. by rewrite Hh.
  - intros f Hx%Hfs. by apply (s_range _ (i_shape _ Hi) 0 f).
  - intros f. apply Hm. pose proof (s_pos _ (i_shape _ Hi)) as [? _]. simpl in *. lia.
Qed.

(** ** A notification is its stores, leaf first *)

Definition todo (d : DirtyFrames) (l : nat) (i : N) : list (nat * N) := if (l <? N.to_nat (height d))%nat then [(l, i)] else [].

Lemma notify_levels_run k : ∀ d l i dr o m,
  shape d → (l + k = N.to_nat (height d))%nat → i < width (frames d) l →
  ∃ ls, notify_levels (drop l (levels d)) i = Done (ls, 0) ∧
    let d' := mkDirtyFrames (take l (levels d) ++ ls) (height d) (frames d) in
    rtc step (mkSystem d (todo d l i) dr o m) (mkSystem d' [] dr (if l is O then {[i]} ∪ o else o) m).
Proof.
  induction k as [|k IH]; intros d l i dr o m Hs Hl Hi.
  - assert (i = 0) as ->. { replace l with (N.to_nat (height d)) in Hi by lia. rewrite (s_root _ Hs) in Hi. lia. }
    pose proof (s_pos _ Hs). rewrite drop_ge, take_ge by (rewrite (s_height _ Hs); lia). exists []. split; [done|]. simpl. rewrite app_nil_r.
    unfold todo. rewrite (proj2 (Nat.ltb_ge _ _)) by lia. destruct l; [lia|]. destruct d; apply rtc_refl.
  - destruct (level_at d l Hs) as (lv & Hlv & _); [lia|]. destruct (store_spec d l i Hs) as (d1 & Hst & Hs1 & Hh & Hf & _); [lia|done|].
    rewrite (drop_S _ _ _ Hlv). simpl. pose proof Hst as Hst0. unfold notify_store in Hst. rewrite Hlv in Hst. simpl in Hst.
    destruct (set_bit lv i) as [lv'|] eqn:Hb; [|done]. injection Hst as Hd1.
    assert (levels d1 = <[l := lv']> (levels d)) as Hlv1 by (by subst d1).
    destruct (IH d1 (S l) (i / 64) dr (if l is O then {[i]} ∪ o else o) m Hs1) as (ls & Hrun & Hrtc);
      [rewrite Hh; lia|rewrite Hf; by apply width_child|].
    rewrite Hlv1, drop_insert_lt in Hrun by lia. mred. rewrite Hrun. mred. exists (lv' :: ls). split; [done|].
    eapply rtc_l. { unfold todo. rewrite (proj2 (Nat.ltb_lt _ _)) by lia. exact (step_store d [] l i [] dr o m d1 Hst0). }
    simpl. rewrite app_nil_r. unfold todo in Hrtc. rewrite Hh, Hf, Hlv1 in Hrtc.
    rewrite (take_S_r _ _ lv'), take_insert_ge, <- app_assoc in Hrtc by (lia || (apply list_lookup_insert_eq; by eapply lookup_lt_Some)). exact Hrtc.
Qed.

Lemma notify_run d f dr o m :
  shape d → f < frames d →
  ∃ d', notify d f = Done d' ∧ rtc step (mkSystem d [] dr o m) (mkSystem d' [] dr ({[f]} ∪ o) m).
Proof.
  intros Hs Hf. pose proof (s_pos _ Hs) as [Hp _]. destruct (notify_levels_run (N.to_nat (height d)) d 0 f dr o m Hs) as (ls & Hrun & Hrtc); [lia|done|].
  unfold notify. rewrite (proj2 (N.ltb_lt _ _)) by done. mred. rewrite drop_0 in Hrun. rewrite Hrun. mred. eexists. split; [done|].
  eapply rtc_l; [by apply step_notify|]. unfold todo in Hrtc. rewrite (proj2 (Nat.ltb_lt _ _)) in Hrtc by lia. exact Hrtc.
Qed.

Lemma steps_inv s s' : inv s → rtc step s s' → inv s'.
Proof. intros Hi Hst. induction Hst as [|? ? ? ? _ IH]; [done|]. apply IH. by eapply notifications_step_inv. Qed.

Lemma owe_marked d o m g : inv (mkSystem d [] None o m) → marked d 0 g = true → inv (mkSystem d [] None ({[g]} ∪ o) m).
Proof.
  intros [H1 H2 H3 H4 H5 H6] Hg. split; try done. simpl. intros f [->%elem_of_singleton|Hf]%elem_of_union; [by left|]. by apply H5.
Qed.

Lemma quiet_notify d f :
  quiet d → f < frames d →
  ∃ d', notify d f = Done d' ∧ quiet d' ∧ frames d' = frames d ∧ marked d' 0 f = true ∧
    ∀ g, marked d 0 g = true → marked d' 0 g = true.
Proof.
  intros (o & m & Hi) Hf. destruct (notify_run d f None o m (i_shape _ Hi) Hf) as (d' & Hn & Hrun).
  assert (∀ o', inv (mkSystem d [] None o' m) → ∀ g, g ∈ {[f]} ∪ o' → marked d' 0 g = true) as Hm.
  { intros o' Hi' g Hg. destruct (notify_run d f None o' m (i_shape _ Hi') Hf) as (d1 & Hn1 & Hrun1). rewrite Hn in Hn1.
    injection Hn1 as <-. destruct (i_owed _ (steps_inv _ _ Hi' Hrun1) g Hg) as [?|(? & ? & _)]; done. }
  exists d'. split_and!; [done|by eexists _, _; eapply steps_inv| |apply (Hm o Hi); set_solver|].
  - unfold notify in Hn. inv_pairs. done.
  - intros g Hg. apply (Hm _ (owe_marked _ _ _ _ Hi Hg)). set_solver.
Qed.

Definition initial (d : DirtyFrames) : system := mkSystem d [] None ∅ 0.

Lemma notifications_reachable_inv n d s :
  0 < n → n ≤ U32_MAX → try_new n = Done d → rtc step (initial d) s → inv s ∧ frames (tree s) = n.
Proof.
  intros Hn Hmax Hnew Hst. destruct (try_new_empty n Hn Hmax) as (d1 & Heq & Hs & Hf & Hm). rewrite Hnew in Heq. injection Heq as <-.
  assert (inv (initial d)) as Hi.
  { split; simpl; try done; [by intros ? ? ?%elem_of_nil|by intros ? ? ?; rewrite Hm]. }
  assert (frames (tree (initial d)) = n) as Hfr by done. revert Hi Hfr. induction Hst as [s|s s1 s' Hx _ IH]; intros Hi Hfr; [done|].
  apply IH; [by eapply notifications_step_inv|]. rewrite <- Hfr. clear -Hi Hx. pose proof (i_shape _ Hi) as Hs. destruct Hx as [| | |? ? c|]; simpl in *; try done.
  - destruct (i_notifiers _ Hi l i) as [Hl Hin]; [simpl; set_solver|]. destruct (store_spec d l i Hs Hl Hin) as (? & Heq & _ & _ & Hf & _). congruence.
  - destruct (start_spec d Hs) as (? & Heq & _ & [_ Hf] & _). congruence.
  - pose proof (body_round _ (i_cursor _ Hi c eq_refl)) as Hr. simpl in Hr. rewrite H in Hr.
    inversion Hr as [|? ? ? Hd|? ? ? ? ? Hd|? ? ? ? ? ? [_ Hf]]; subst; [by rewrite Hd|by rewrite Hd|done].
  - pose proof (s_pos _ Hs). destruct (end_pend _ _ _ 0 0 (i_cursor _ Hi c eq_refl) H) as (_ & -> & _); [simpl in *; lia|done].
Qed.

(** C32 (no notification is lost): take any interleaving of the atomic stores of any number of
    notifiers with the rounds of drains.  Whenever no call is under way, a drain ends within
    its bound and visits each marked frame once; among them is every frame that was notified
    and not visited since, whatever drain its notification raced with.  A call of [notify]
    succeeds, makes those stores and leaves its frame owed. *)
Theorem no_notification_lost n d s :
  0 < n → n ≤ U32_MAX → try_new n = Done d → rtc step (initial d) s → notifiers s = [] → draining s = None →
  ∃ d' fs, drain (tree s) = Done (d', fs) ∧ NoDup fs ∧ (∀ f, f ∈ fs ↔ marked (tree s) 0 f = true) ∧
    (∀ f, f ∈ owed s → f ∈ fs) ∧ (∀ f, marked d' 0 f = false) ∧
    ∀ f, f < n → ∃ d1, notify (tree s) f = Done d1 ∧ rtc step s (mkSystem d1 [] None ({[f]} ∪ owed s) (rounds s)).
Proof.
  intros Hn Hmax Hnew Hst Hns Hdr. destruct (notifications_reachable_inv n d s Hn Hmax Hnew Hst) as [Hi Hfr].
  destruct s as [dd ns dr o m]. simpl in *. subst. pose proof (i_shape _ Hi) as Hs. simpl in Hs.
  destruct (drain_ok _ _ _ Hi) as (d' & fs & Hd & Hnd & Hfs & Hm & _). exists d', fs. split_and!; try done.
  - intros f Hf. apply Hfs. destruct (i_owed _ Hi f Hf) as [?|(? & ? & _)]; done.
  - intros f. apply Hm. pose proof (s_pos _ Hs). lia.
  - intros f Hf. by apply notify_run.
Qed.

(** (a drain ends under contention): in every interleaving, a round of a running drain
    fails none of its assertions or indexings and the drain has made fewer rounds than its
    bound, so its [unreachable] is not reached however many notifiers race with it. *)
Theorem drain_bounded n d s c :
  0 < n → n ≤ U32_MAX → try_new n = Done d → rtc step (initial d) s → draining s = Some c →
  drain_body (set_tree (tree s) c) ≠ Panic ∧ (rounds s < N.to_nat (rounds_bound d))%nat.
Proof.
  intros Hn Hmax Hnew Hst Hdr. destruct (notifications_reachable_inv n d s Hn Hmax Hnew Hst) as [Hi Hf].
  destruct (notifications_reachable_inv n d (initial d) Hn Hmax Hnew (rtc_refl _ _)) as [_ Hf0]. split.
  - intros Hp. pose proof (body_round _ (i_cursor _ Hi c Hdr)) as Hr. rewrite Hp in Hr. inversion Hr.
  - pose proof (i_rounds _ Hi c Hdr) as Hx. unfold rounds_bound in *. simpl in Hf0. rewrite Hf in Hx. rewrite Hf0. lia.
Qed.

End DirtyFrames.

Module DirtyFramesWitness.
Import DirtyFrames.

(** Seventy frames: two levels.  Frame 65 is notified; a drain takes the root, then frame 3 is
    notified behind it. *)
Definition tree0 : DirtyFrames := mkDirtyFrames [[0; 0]; [0]] 2 70.
Definition tree1 : DirtyFrames := mkDirtyFrames [[0; 2]; [2]] 2 70.
Definition tree2 : DirtyFrames := mkDirtyFrames [[0; 2]; [0]] 2 70.
Definition tree3 : DirtyFrames := mkDirtyFrames [[8; 2]; [1]] 2 70.
Definition cur2 : cursor := mkCursor tree2 1 [0; 0; 0; 0; 0; 0] [0; 2; 0; 0; 0; 0] [].
Definition cur4 : cursor := mkCursor (mkDirtyFrames [[8; 0]; [1]] 2 70) 0 [1; 0; 0; 0; 0; 0] [2; 0; 0; 0; 0; 0] [].
Definition cur5 : cursor := mkCursor (mkDirtyFrames [[8; 0]; [1]] 2 70) 0 [1; 0; 0; 0; 0; 0] [0; 0; 0; 0; 0; 0] [65].
Definition cur6 : cursor := mkCursor (mkDirtyFrames [[8; 0]; [1]] 2 70) 1 [1; 0; 0; 0; 0; 0] [0; 0; 0; 0; 0; 0] [65].

Ltac store := eapply rtc_l; [refine (step_store _ [] _ _ [] _ _ _ _ _); vm_compute; reflexivity|]; simpl.

Lemma raced : rtc step (initial tree0) (mkSystem (cur_dirty cur4) [] (Some cur4) ({[3]} ∪ ({[65]} ∪ ∅) ∖ ∅) 1).
Proof.
  eapply rtc_l; [apply (step_notify tree0 [] None ∅ 0 65); done|]. store. store.
  eapply rtc_l; [apply (step_drain tree1 [] _ _ cur2); reflexivity|].
  eapply rtc_l; [apply (step_notify tree2 [] _ _ _ 3); done|]. store. store.
  eapply rtc_l; [apply (step_round tree3 [] cur2 _ _ cur4); reflexivity|].
  replace (({[3]} ∪ ({[65]} ∪ ∅)) ∖ list_to_set (drop (length (cur_visited cur2)) (cur_visited cur4))) with ({[3]} ∪ ({[65]} ∪ ∅) ∖ ∅ : gset N) by set_solver.
  apply rtc_refl.
Qed.

Lemma behind : rtc step (initial tree0) (mkSystem (cur_dirty cur6) [] None (({[3]} ∪ ({[65]} ∪ ∅) ∖ ∅) ∖ {[65]}) 3).
Proof.
  etransitivity; [apply raced|].
  eapply rtc_l; [apply (step_round _ [] cur4 _ _ cur5); reflexivity|].
  eapply rtc_l; [apply (step_round _ [] cur5 _ _ cur6); reflexivity|].
  eapply rtc_l; [apply (step_end _ [] cur6 _ _ (cur_dirty cur6) [65]); reflexivity|].
  replace (_ ∖ list_to_set (drop (length (cur_visited cur5)) (cur_visited cur6))) with (({[3]} ∪ ({[65]} ∪ ∅) ∖ ∅) ∖ {[65]} : gset N) by set_solver.
  apply rtc_refl.
Qed.

(** Frame 3, notified while the drain was inside, is found by the next one. *)
Lemma no_notification_lost_witness : ∃ d' fs, drain (cur_dirty cur6) = Done (d', fs) ∧ 3 ∈ fs.
Proof.
  destruct (no_notification_lost 70 tree0 _ eq_refl ltac:(done) eq_refl behind eq_refl eq_refl) as (d' & fs & H & _ & _ & Ho & _).
  exists d', fs. split; [exact H|]. apply Ho. set_solver.
Defined.

Lemma drain_bounded_witness : drain_body cur4 ≠ Panic.
Proof. exact (proj1 (drain_bounded 70 tree0 _ cur4 eq_refl ltac:(done) eq_refl raced eq_refl)). Defined.

End DirtyFramesWitness.
