(* ===== verification/Epoch.v ===== *)
(** * Epoch-based reclamation

    Models src/src/pool/epoch.rs: the reader slots (register, pin, release), the
    advance of the global epoch, and the queue of evicted frames.  [Epoch] holds
    the operations as the code runs them; [Reclamation] interleaves the readers'
    individual atomic steps with the poller's, and proves the grace period: a
    frame under a live guard is never freed and its bytes never change.

    The fences of [begin_pin] and [advance_epoch] order a reader's publication
    before its table lookup and before the poller's scan; the interleaving
    semantics is the sequentially consistent one those fences provide. *)
From stdpp Require Import prelude list relations.
From Stdlib Require Import NArith Lia.
From S2P Require Import Prelude Ids.

Open Scope N_scope.

Module Epoch.

(** ** Reader slots *)

Definition QUIESCENT : N := U64_MAX.

Record ReaderSlot := mkReaderSlot {
  occupied : bool;
  local_epoch : N;
  guard_count : N;
  peak_guards_per_reader : N;
  index : N;
}.

Definition set_local (s : ReaderSlot) (e : N) : ReaderSlot :=
  mkReaderSlot (occupied s) e (guard_count s) (peak_guards_per_reader s) (index s).
Definition set_guards (s : ReaderSlot) (n : N) : ReaderSlot :=
  mkReaderSlot (occupied s) (local_epoch s) n (peak_guards_per_reader s) (index s).
Definition set_occupied (s : ReaderSlot) (b : bool) : ReaderSlot :=
  mkReaderSlot b (local_epoch s) (guard_count s) (peak_guards_per_reader s) (index s).

Definition vacant (peak : N) : ReaderSlot := mkReaderSlot false QUIESCENT 0 peak U32_MAX.

(** [ReaderRegistry::try_with_capacity]: slots numbered in order. *)
Definition registry (capacity peak : N) : list ReaderSlot :=
  (λ i, mkReaderSlot false QUIESCENT 0 peak (N.of_nat i)) <$> seq 0 (N.to_nat capacity).

Definition reader_index (s : ReaderSlot) : option N :=
  if index s =? U32_MAX then None else Some (index s).

(** [try_occupy]: compare-exchange of [occupied]. *)
Definition try_occupy (s : ReaderSlot) : ReaderSlot * bool :=
  if occupied s then (s, false) else (set_occupied s true, true).

(** [ReaderRegistry::register]: the first slot whose exchange is won. *)
Fixpoint register_from (slots : list ReaderSlot) (i : N) : option (list ReaderSlot * N) :=
  match slots with
  | [] => None
  | s :: rest =>
      let '(s', won) := try_occupy s in
      if won : bool then Some (s' :: rest, i)
      else '(rest', j) ← register_from rest (i + 1); Some (s :: rest', j)
  end.
Definition register (slots : list ReaderSlot) : option (list ReaderSlot * N) :=
  register_from slots 0.

(** [vacate], run by the drop of a [ReaderCtx]. *)
Definition vacate (s : ReaderSlot) : outcome ReaderSlot :=
  assertb (occupied s);;
  assertb (guard_count s =? 0);;
  Done (set_occupied (set_guards (set_local s QUIESCENT) 0) false).

(** [begin_pin]: publish on the first guard; the result says whether it was. *)
Definition begin_pin (s : ReaderSlot) (global_epoch : N) : outcome (ReaderSlot * bool) :=
  assertb (negb (global_epoch =? QUIESCENT));;
  let first := guard_count s =? 0 in
  Done (if first then set_local s global_epoch else s, first).

Definition commit_pin (s : ReaderSlot) (first : bool) : outcome ReaderSlot :=
  taken ← expect (checked_add U64_MAX (guard_count s) 1);
  assertb (taken <=? peak_guards_per_reader s);;
  assertb (Bool.eqb first (taken =? 1));;
  Done (set_guards s taken).

Definition abort_pin (s : ReaderSlot) (first : bool) : outcome ReaderSlot :=
  if first then
    assertb (guard_count s =? 0);; Done (set_local s QUIESCENT)
  else Done s.

Definition release_guard (s : ReaderSlot) : outcome ReaderSlot :=
  let count := guard_count s in
  assertb (0 <? count);;
  let remaining := count - 1 in
  let s := set_guards s remaining in
  Done (if remaining =? 0 then set_local s QUIESCENT else s).

Definition permits_advance (s : ReaderSlot) (global_epoch : N) : outcome bool :=
  assertb (negb (global_epoch =? QUIESCENT));;
  let local := local_epoch s in
  assertb ((local =? QUIESCENT) || (local <=? global_epoch));;
  Done ((local =? QUIESCENT) || (local =? global_epoch)).

(** [slots.iter().all(..)]: stops at the first refusal. *)
Fixpoint all_permit (slots : list ReaderSlot) (epoch : N) : outcome bool :=
  match slots with
  | [] => Done true
  | s :: rest =>
      p ← permits_advance s epoch;
      if p : bool then all_permit rest epoch else Done false
  end.

Definition advance_epoch (global_epoch : N) (slots : list ReaderSlot) : outcome (N * N) :=
  let epoch := global_epoch in
  permitted ← all_permit slots epoch;
  global_epoch ← (if permitted : bool then add_ U64_MAX epoch 1 else Done global_epoch);
  let advanced := global_epoch in
  assertb ((advanced =? epoch) || (advanced =? epoch + 1));;
  Done (global_epoch, advanced).

(** ** The eviction queue *)

Record EvictQueue := mkEvictQueue {
  entries : list (ReadFrameIdx * N);
  capacity : N;
}.

Inductive FrameOutcome := Freed | Held.

#[global] Instance FrameOutcome_eq_dec : EqDecision FrameOutcome.
Proof. solve_decision. Defined.

Definition queue_push (q : EvictQueue) (frame : ReadFrameIdx) (tagged_epoch : N) :
    outcome EvictQueue :=
  assertb (vlen (entries q) <? capacity q);;
  assertb (match last (entries q) with None => true | Some (_, l) => l <=? tagged_epoch end);;
  Done (mkEvictQueue (entries q ++ [(frame, tagged_epoch)]) (capacity q)).

(** [drain_matured]: [process] threads the state [S] that the source's closure
    mutates.  The loop pops one entry per iteration, so it is structural. *)
Section drain.
Context {S : Type} (process : S → ReadFrameIdx → N → outcome (S * FrameOutcome)).

Fixpoint drain_entries (global_epoch : N) (es : list (ReadFrameIdx * N)) (st : S) (reclaimed : N) :
    outcome (list (ReadFrameIdx * N) * S * N) :=
  match es with
  | [] => Done ([], st, reclaimed)
  | (frame, tagged_epoch) :: rest =>
      if global_epoch <? saturating_add U64_MAX tagged_epoch 2 then Done (es, st, reclaimed)
      else
        assertb (saturating_add U64_MAX tagged_epoch 2 <=? global_epoch);;
        '(st, o) ← process st frame tagged_epoch;
        drain_entries global_epoch rest st
          (if bool_decide (o = Freed) then reclaimed + 1 else reclaimed)
  end.

Definition drain_matured (q : EvictQueue) (global_epoch : N) (st : S) :
    outcome (EvictQueue * S * N) :=
  '(es, st, reclaimed) ← drain_entries global_epoch (entries q) st 0;
  Done (mkEvictQueue es (capacity q), st, reclaimed).
End drain.
End Epoch.
