(* ===== verification/Reclaim.v ===== *)
(** * The grace period: readers, evictions and the epoch interleaved

    Models how src/src/pool/mod.rs and src/src/pool/prefetch.rs combine the reader
    slots and the eviction queue of src/src/pool/epoch.rs with the frame words of
    src/src/pool/frames.rs.  Every shared access of a reader ([pin_owned],
    [pin_with_resident_hint], guard drop, registration) is a step of its own, and
    so is every shared access of the thread that holds the control lock
    ([evict_resident], [advance_epoch], [drain_matured], publication).  The fences
    of [begin_pin] and [advance_epoch] give the sequentially consistent order in
    which the steps interleave here.

    The theorems: a frame under a live guard keeps its residency generation and
    its page identity, and no write token for it exists; a quiescent pool
    reclaims every evicted frame after two advances; the matured drain takes
    exactly the matured entries. *)
From stdpp Require Import prelude gmap list relations sorting.
From Stdlib Require Import NArith Lia.
From S2P Require Import Prelude Ids Frames Epoch.

Open Scope N_scope.

Module Reclamation.
Import Epoch.

(** ** State *)

(** Where a reader thread is inside [pin_owned] or [pin_with_resident_hint]. *)
Inductive reader_pc :=
  | RIdle
  | RLoaded (epoch : N)
  | RBegun (first : bool)
  | RFound (first : bool) (frame : ReadFrameIdx) (generation : N) (page : PageId).

(** A live guard: its frame, with the residency generation and the identity that
    were current when the pin found it. *)
Record guard := mkGuard {
  g_frame : ReadFrameIdx;
  g_generation : N;
  g_page : PageId;
}.

(** [r_published] is a ghost: the global epoch at the publication in force. *)
Record reader := mkReader {
  r_slot : ReaderSlot;
  r_pc : reader_pc;
  r_guards : list guard;
  r_published : N;
}.

(** Where the holder of the control lock is. *)
Inductive control_pc :=
  | CIdle
  | CPublished (frame : ReadFrameIdx)
  | CUnmapped (frame : ReadFrameIdx)
  | CEvicting (frame : ReadFrameIdx)
  | CScan (epoch : N) (next : nat).

(** The pool: [held] are the matured frames that retention keeps. *)
Record pool := mkPool {
  epoch : N;
  arena : Frames.system;
  table : gmap PageId ReadFrameIdx;
  queue : EvictQueue;
  held : list ReadFrameIdx;
  readers : list reader;
  control : control_pc;
}.

Definition with_reader (s : pool) (k : nat) (r : reader) : pool :=
  mkPool (epoch s) (arena s) (table s) (queue s) (held s) (<[k := r]> (readers s)) (control s).
Definition with_control (s : pool) (c : control_pc) : pool :=
  mkPool (epoch s) (arena s) (table s) (queue s) (held s) (readers s) c.
Definition with_arena (s : pool) (a : Frames.system) (c : control_pc) : pool :=
  mkPool (epoch s) a (table s) (queue s) (held s) (readers s) c.
Definition with_frames (s : pool) (f : Frames.Frames) (c : control_pc) : pool :=
  with_arena s (Frames.mkSystem f (Frames.sys_loads (arena s)) (Frames.sys_tokens (arena s))) c.

Definition frames (s : pool) : Frames.Frames := Frames.sys_frames (arena s).

(** ** Steps of a reader *)

Inductive reader_step (s : pool) : reader → reader → Prop :=
  | reader_register r slot :
      r_pc r = RIdle → try_occupy (r_slot r) = (slot, true) →
      reader_step s r (mkReader slot RIdle (r_guards r) (r_published r))
  | reader_vacate r slot :
      r_pc r = RIdle → vacate (r_slot r) = Done slot →
      reader_step s r (mkReader slot RIdle (r_guards r) (r_published r))
  | reader_load r :
      r_pc r = RIdle → occupied (r_slot r) = true →
      reader_step s r (mkReader (r_slot r) (RLoaded (epoch s)) (r_guards r) (r_published r))
  | reader_begin r e slot first :
      r_pc r = RLoaded e → begin_pin (r_slot r) e = Done (slot, first) →
      reader_step s r (mkReader slot (RBegun first) (r_guards r)
        (if first then epoch s else r_published r))
  | reader_lookup r first page frame w :
      r_pc r = RBegun first → table s !! page = Some frame →
      Frames.word_at (frames s) frame = Some w →
      reader_step s r (mkReader (r_slot r)
        (RFound first frame (Frames.word_generation w) page) (r_guards r) (r_published r))
  | reader_hint r first page frame stamp :
      r_pc r = RBegun first →
      Frames.validate_resident (frames s) frame stamp = Done (Some page) →
      reader_step s r (mkReader (r_slot r)
        (RFound first frame (Frames.word_generation stamp) page) (r_guards r) (r_published r))
  | reader_abort r first slot :
      r_pc r = RBegun first → abort_pin (r_slot r) first = Done slot →
      reader_step s r (mkReader slot RIdle (r_guards r) (r_published r))
  | reader_commit r first frame g page slot :
      r_pc r = RFound first frame g page → commit_pin (r_slot r) first = Done slot →
      reader_step s r (mkReader slot RIdle (mkGuard frame g page :: r_guards r) (r_published r))
  | reader_release r gs1 g gs2 slot :
      r_pc r = RIdle → r_guards r = gs1 ++ g :: gs2 → release_guard (r_slot r) = Done slot →
      reader_step s r (mkReader slot RIdle (gs1 ++ gs2) (r_published r)).

(** ** Steps of claimants and of the holder of the control lock *)

(** Claiming a frame and writing its identity need no lock. *)
Inductive token_step : Frames.system → Frames.system → Prop :=
  | token_load f ls ts i w :
      Frames.claim_load f i = Done (Some w) →
      token_step (Frames.mkSystem f ls ts) (Frames.mkSystem f ((i, w) :: ls) ts)
  | token_cas f ls1 ls2 ts i w f' o :
      Frames.claim_cas f i w = Done (f', o) →
      token_step (Frames.mkSystem f (ls1 ++ (i, w) :: ls2) ts)
        (Frames.mkSystem f' (ls1 ++ ls2) (option_list o ++ ts))
  | token_identify f ls ts t page p :
      t ∈ ts → vset (Frames.pages f) (Frames.InFlightFrame_frame t) (Some page) = Done p →
      token_step (Frames.mkSystem f ls ts) (Frames.mkSystem (Frames.set_pages f p) ls ts)
  | token_abort f ls ts1 ts2 t f' i :
      Frames.abort f t = Done (f', i) →
      token_step (Frames.mkSystem f ls (ts1 ++ t :: ts2)) (Frames.mkSystem f' ls (ts1 ++ ts2)).

Inductive step : pool → pool → Prop :=
  | step_reader s k r r' :
      readers s !! k = Some r → reader_step s r r' → step s (with_reader s k r')
  | step_token s a :
      token_step (arena s) a → step s (with_arena s a (control s))
  | step_publish s f ls ts1 ts2 t f' i :
      control s = CIdle → arena s = Frames.mkSystem f ls (ts1 ++ t :: ts2) →
      Frames.publish f t = Done (f', i) →
      step s (with_arena s (Frames.mkSystem f' ls (ts1 ++ ts2)) (CPublished i))
  | step_map s i page :
      control s = CPublished i → Frames.exact_page (frames s) i = Done page →
      table s !! page = None →
      step s (mkPool (epoch s) (arena s) (<[page := i]> (table s)) (queue s) (held s)
        (readers s) CIdle)
  | step_unmap s i page :
      control s = CIdle → Frames.exact_page (frames s) i = Done page →
      table s !! page = Some i →
      step s (mkPool (epoch s) (arena s) (delete page (table s)) (queue s) (held s)
        (readers s) (CUnmapped i))
  | step_evict s i f :
      control s = CUnmapped i → Frames.advance (frames s) i Frames.Evicting = Done f →
      step s (with_frames s f (CEvicting i))
  | step_enqueue s i q :
      control s = CEvicting i → queue_push (queue s) i (epoch s) = Done q →
      step s (mkPool (epoch s) (arena s) (table s) q (held s) (readers s) CIdle)
  | step_scan_start s :
      control s = CIdle → step s (with_control s (CScan (epoch s) 0))
  | step_scan s e k r b :
      control s = CScan e k → readers s !! k = Some r →
      permits_advance (r_slot r) e = Done b →
      step s (with_control s (if b : bool then CScan e (S k) else CIdle))
  | step_advance s e e' :
      control s = CScan e (length (readers s)) → add_ U64_MAX e 1 = Done e' →
      step s (mkPool e' (arena s) (table s) (queue s) (held s) (readers s) CIdle)
  | step_free s i t es f :
      control s = CIdle → entries (queue s) = (i, t) :: es →
      saturating_add U64_MAX t 2 ≤ epoch s →
      Frames.advance (frames s) i Frames.Free = Done f →
      step s (mkPool (epoch s)
        (Frames.mkSystem f (Frames.sys_loads (arena s)) (Frames.sys_tokens (arena s)))
        (table s) (mkEvictQueue es (capacity (queue s))) (held s) (readers s) CIdle)
  | step_hold s i t es :
      control s = CIdle → entries (queue s) = (i, t) :: es →
      saturating_add U64_MAX t 2 ≤ epoch s →
      step s (mkPool (epoch s) (arena s) (table s)
        (mkEvictQueue es (capacity (queue s))) (i :: held s) (readers s) CIdle)
  | step_free_held s i hs1 hs2 f :
      control s = CIdle → held s = hs1 ++ i :: hs2 →
      Frames.advance (frames s) i Frames.Free = Done f →
      step s (mkPool (epoch s)
        (Frames.mkSystem f (Frames.sys_loads (arena s)) (Frames.sys_tokens (arena s)))
        (table s) (queue s) (hs1 ++ hs2) (readers s) CIdle).

Definition initial (s : pool) : Prop :=
  Frames.initial (arena s) ∧ table s = ∅ ∧ entries (queue s) = [] ∧ held s = [] ∧
  control s = CIdle ∧
  ∃ cap peak, readers s =
    (λ slot, mkReader slot RIdle [] 0) <$> registry cap peak.

(** ** The invariant *)

Definition in_state (f : Frames.Frames) (i : ReadFrameIdx) (st : Frames.FrameState) : Prop :=
  ∃ w, Frames.word_at f i = Some w ∧ Frames.word_state w = st.

(** The reader's epoch is published: it holds a guard or is between
    [begin_pin] and the end of a first pin. *)
Definition published (r : reader) : bool :=
  negb (bool_decide (r_guards r = [])) ||
  match r_pc r with RBegun _ | RFound _ _ _ _ => true | _ => false end.

Definition protected (r : reader) : list guard :=
  match r_pc r with RFound _ i g p => [mkGuard i g p] | _ => [] end ++ r_guards r.

Record reader_wf (r : reader) : Prop := {
  rw_count : guard_count (r_slot r) = N.of_nat (length (r_guards r));
  rw_first : match r_pc r with
             | RBegun first | RFound first _ _ _ => first = bool_decide (r_guards r = [])
             | _ => True end;
  rw_quiet : published r = false → local_epoch (r_slot r) = QUIESCENT;
}.

(** The epoch is at most one past the publication, and not past it once the
    scan in progress has passed the reader's slot. *)
Definition epoch_ok (e : N) (c : control_pc) (k : nat) (r : reader) : Prop :=
  match r_pc r with RLoaded l => l ≤ e | _ => True end ∧
  (published r = true →
     local_epoch (r_slot r) ≤ r_published r ∧ r_published r ≤ e ∧ e ≤ r_published r + 1 ∧
     match c with CScan _ n => (k < n)%nat → e ≤ r_published r | _ => True end).

(** Frame [i] is being evicted under a tag not older than [p]. *)
Definition pending (s : pool) (p : N) (i : ReadFrameIdx) : Prop :=
  control s = CEvicting i ∨ ∃ t, (i, t) ∈ entries (queue s) ∧ p ≤ t.

(** The frame is as the guard found it, and if it is being evicted then with a
    tag not older than the guard's publication [p]. *)
Definition protects (s : pool) (p : N) (g : guard) : Prop :=
  ∃ w, Frames.word_at (frames s) (g_frame g) = Some w ∧
    Frames.word_generation w = g_generation g ∧
    Frames.page_at (frames s) (g_frame g) = Some (Some (g_page g)) ∧
    (Frames.word_state w = Frames.Resident ∨
     Frames.word_state w = Frames.Evicting ∧ pending s p (g_frame g)).

Definition reader_inv (s : pool) (k : nat) (r : reader) : Prop :=
  reader_wf r ∧ epoch_ok (epoch s) (control s) k r ∧
  ∀ g, g ∈ protected r → protects s (r_published r) g.

Definition control_inv (s : pool) : Prop :=
  match control s with
  | CIdle => True
  | CPublished i | CUnmapped i =>
      in_state (frames s) i Frames.Resident ∧ ∀ page, table s !! page ≠ Some i
  | CEvicting i =>
      in_state (frames s) i Frames.Evicting ∧ i ∉ (entries (queue s)).*1 ++ held s
  | CScan e n => e = epoch s
  end.

Definition table_inv (s : pool) : Prop :=
  ∀ page i, table s !! page = Some i →
    Frames.page_at (frames s) i = Some (Some page) ∧ in_state (frames s) i Frames.Resident.

(** The frames on their way to reuse: queued with a past tag, or held. *)
Record queue_inv (s : pool) : Prop := {
  qi_nodup : NoDup ((entries (queue s)).*1 ++ held s);
  qi_evicting : ∀ i, i ∈ (entries (queue s)).*1 ++ held s → in_state (frames s) i Frames.Evicting;
}.

Record pool_inv (s : pool) : Prop := {
  pi_arena : Frames.system_inv (arena s);
  pi_table : table_inv s;
  pi_control : control_inv s;
  pi_queue : queue_inv s;
  pi_readers : ∀ k r, readers s !! k = Some r → reader_inv s k r;
}.

(** ** Readers *)

Lemma bool_nil_length {A} (l : list A) : bool_decide (l = []) = (N.of_nat (length l) =? 0).
Proof. by destruct l. Qed.

Lemma reader_slot_quiet r :
  reader_wf r → r_pc r = RIdle → r_guards r = [] → local_epoch (r_slot r) = QUIESCENT.
Proof. intros Hw Hp Hg. apply (rw_quiet r Hw). unfold published. by rewrite Hp, Hg. Qed.

Lemma protects_lookup s page i w p :
  table_inv s → table s !! page = Some i → Frames.word_at (frames s) i = Some w →
  protects s p (mkGuard i (Frames.word_generation w) page).
Proof.
  intros Ht Hp Hw. destruct (Ht _ _ Hp) as (Hpg & w' & Hw' & Hst).
  assert (w' = w) as -> by congruence. exists w. split_and!; simpl; auto.
Qed.

Lemma protects_hint s page i stamp p :
  Frames.frames_shape (frames s) →
  Frames.validate_resident (frames s) i stamp = Done (Some page) →
  protects s p (mkGuard i (Frames.word_generation stamp) page).
Proof.
  intros Hs Hv. assert (∃ w, Frames.word_at (frames s) i = Some w) as [w Hw].
  { unfold Frames.validate_resident in Hv. inv_done.
    match goal with H : Frames.checked_index _ _ = _ |- _ =>
      apply Frames.checked_index_Done in H as [-> Hi] end.
    unfold Frames.word_at. eauto. }
  rewrite (Frames.validate_resident_eq _ _ _ _ Hw) in Hv.
  destruct (N.eqb_spec w stamp) as [Heq|]; [subst stamp|discriminate].
  case_bool_decide as Hr; simpl in Hv; [|discriminate].
  unfold Frames.page_read in Hv. inv_done.
  exists w. unfold Frames.page_at. simpl. auto.
Qed.

(** Each reader step keeps the reader's own invariant; the pool is unchanged. *)
Lemma reader_register_inv s k r slot :
  reader_inv s k r → r_pc r = RIdle → try_occupy (r_slot r) = (slot, true) →
  reader_inv s k (mkReader slot RIdle (r_guards r) (r_published r)).
Proof.
  intros ([Hc Hf Hq] & [He1 He2] & Hp) Hpc Ho. unfold try_occupy in Ho.
  destruct (occupied (r_slot r)); [discriminate|]. injection Ho as <-.
  unfold reader_inv, epoch_ok, published, protected in *. simpl. rewrite Hpc in *.
  split; [split; done|]. split; [split; done|done].
Qed.

Lemma reader_vacate_inv s k r slot :
  reader_inv s k r → r_pc r = RIdle → vacate (r_slot r) = Done slot →
  reader_inv s k (mkReader slot RIdle (r_guards r) (r_published r)).
Proof.
  intros ([Hc Hf Hq] & [He1 He2] & Hp) Hpc Hv. unfold vacate in Hv. inv_done. reflect_bools.
  assert (r_guards r = []) as Hn by (destruct (r_guards r); [done|simpl in *; lia]).
  unfold reader_inv, epoch_ok, published, protected in *. simpl. rewrite Hn, Hpc in *.
  split; [split; done|]. split; [split; done|done].
Qed.

Lemma reader_begin_inv s k r e slot first :
  reader_inv s k r → r_pc r = RLoaded e → begin_pin (r_slot r) e = Done (slot, first) →
  reader_inv s k (mkReader slot (RBegun first) (r_guards r)
    (if first then epoch s else r_published r)).
Proof.
  intros ([Hc Hf Hq] & [He1 He2] & Hp) Hpc Hb. unfold begin_pin in Hb. inv_done. reflect_bools.
  rewrite Hpc in He1. unfold reader_inv, epoch_ok, published, protected in *. simpl.
  rewrite Hpc in *. rewrite !bool_nil_length, <- !Hc in *.
  destruct (guard_count (r_slot r) =? 0) eqn:Hg; simpl in *.
  - assert (r_guards r = []) as -> by (destruct (r_guards r); [done|apply N.eqb_eq in Hg; simpl in Hc; lia]).
    split; [split; simpl; [by apply N.eqb_eq|done|done]|]. split.
    + split; [done|]. intros _. split_and!; [lia..|]. destruct (control s); lia || done.
    + by intros g ?%elem_of_nil.
  - split; [split; simpl; [done| |unfold published; simpl; by rewrite orb_true_r]|].
    + by rewrite bool_nil_length, <- Hc, Hg.
    + split; [split; [done|]|done]. intros _. by apply He2.
Qed.

Lemma reader_found_inv s k r first i g p :
  reader_inv s k r → r_pc r = RBegun first → protects s (r_published r) (mkGuard i g p) →
  reader_inv s k (mkReader (r_slot r) (RFound first i g p) (r_guards r) (r_published r)).
Proof.
  intros ([Hc Hf Hq] & [He1 He2] & Hp) Hpc Hg.
  unfold reader_inv, epoch_ok, published, protected in *. simpl. rewrite Hpc in *.
  split; [split; simpl; done|]. split; [split; done|].
  intros g' [->|Hin]%elem_of_cons; auto.
Qed.

Lemma reader_abort_inv s k r first slot :
  reader_inv s k r → r_pc r = RBegun first → abort_pin (r_slot r) first = Done slot →
  reader_inv s k (mkReader slot RIdle (r_guards r) (r_published r)).
Proof.
  intros ([Hc Hf Hq] & [He1 He2] & Hp) Hpc Ha. unfold abort_pin in Ha.
  unfold reader_inv, epoch_ok, published, protected in *. simpl. rewrite Hpc in *.
  subst first. case_bool_decide as Hn; inv_done; simpl.
  - rewrite Hn in *. split; [split; simpl; done|]. split; [split; done|done].
  - split; [split; simpl; [done..|unfold published; simpl; by rewrite bool_decide_eq_false_2]|]. split; [split; [done|]|done].
    intros _. by apply He2.
Qed.

Lemma reader_commit_inv s k r first i g p slot :
  reader_inv s k r → r_pc r = RFound first i g p → commit_pin (r_slot r) first = Done slot →
  reader_inv s k (mkReader slot RIdle (mkGuard i g p :: r_guards r) (r_published r)).
Proof.
  intros ([Hc Hf Hq] & [He1 He2] & Hp) Hpc Hb. unfold commit_pin in Hb. inv_done.
  match goal with H : checked_add _ _ _ = _ |- _ => apply checked_add_Some in H as [-> _] end.
  unfold reader_inv, epoch_ok, published, protected in *. simpl. rewrite Hpc in *.
  split; [split; simpl; [lia|done..]|]. split; [split; [done|]|done].
  intros _. apply He2. by rewrite orb_true_r.
Qed.

Lemma reader_release_inv s k r gs1 g gs2 slot :
  reader_inv s k r → r_pc r = RIdle → r_guards r = gs1 ++ g :: gs2 →
  release_guard (r_slot r) = Done slot →
  reader_inv s k (mkReader slot RIdle (gs1 ++ gs2) (r_published r)).
Proof.
  intros ([Hc Hf Hq] & [He1 He2] & Hp) Hpc Hgs Hr. unfold release_guard in Hr. inv_done.
  unfold reader_inv, epoch_ok, published, protected in *. simpl. rewrite Hpc, Hgs in *.
  rewrite length_app in Hc. simpl in Hc. rewrite bool_nil_length, length_app.
  assert (guard_count (r_slot r) - 1 = N.of_nat (length gs1 + length gs2)) as Hrem by lia.
  rewrite Hrem. split; [|split].
  - split; simpl; [destruct (_ =? 0); simpl; rewrite length_app; lia|done|].
    unfold published. simpl. rewrite bool_nil_length, length_app. by destruct (_ =? 0).
  - split; [done|]. intros Hpub. destruct (_ =? 0); [done|]. simpl. apply He2.
    rewrite bool_decide_eq_false_2; [done|]. by destruct gs1.
  - intros g' Hin. apply Hp. set_solver.
Qed.

Lemma reader_step_inv s k r r' :
  pool_inv s → readers s !! k = Some r → reader_step s r r' → reader_inv s k r'.
Proof.
  intros [Ha Ht _ _ Hr] Hk Hstep. specialize (Hr k r Hk). destruct Hstep;
    eauto using reader_register_inv, reader_vacate_inv, reader_begin_inv, reader_abort_inv,
      reader_commit_inv, reader_release_inv, reader_found_inv, protects_lookup.
  - destruct Hr as ([Hc Hf Hq] & [He1 He2] & Hp).
    unfold reader_inv, epoch_ok, published, protected in *. simpl.
    match goal with H : r_pc r = _ |- _ => rewrite H in * end.
    split; [split; simpl; done|]. split; [split; [lia|done]|done].
  - eapply reader_found_inv, protects_hint; eauto. apply Ha.
Qed.

(** ** Frames *)

(** Words and identities of published frames are untouched. *)
Definition stable (f f' : Frames.Frames) : Prop :=
  ∀ i w, Frames.word_at f i = Some w →
    Frames.word_state w = Frames.Resident ∨ Frames.word_state w = Frames.Evicting →
    Frames.word_at f' i = Some w ∧ Frames.page_at f' i = Frames.page_at f i.

Lemma stable_refl f : stable f f.
Proof. by intros i w. Qed.

(** A store to a frame that was not published leaves the published ones alone. *)
Lemma stable_stored f f' j w0 w :
  Frames.word_stored f f' j w → Frames.word_at f j = Some w0 →
  Frames.word_state w0 = Frames.Free ∨ Frames.word_state w0 = Frames.InFlight → stable f f'.
Proof.
  intros (Hpg & _ & _ & _ & _ & _ & Hw) Hw0 Hst i wi Hi Hpub. unfold Frames.page_at.
  rewrite Hw, Hpg. case_decide as Hij; [|done]. subst j. assert (wi = w0) as -> by congruence.
  destruct Hst as [E|E], Hpub as [E'|E']; congruence.
Qed.

Lemma token_step_ok a a' :
  Frames.system_inv a → token_step a a' →
  Frames.system_inv a' ∧ stable (Frames.sys_frames a) (Frames.sys_frames a').
Proof.
  intros Hinv Hst. split.
  { apply (Frames.step_inv a a' Hinv). destruct Hst; econstructor; eauto. }
  destruct Hinv as [Hs Hl _ Ht]. destruct Hst as [|f ls1 ls2 ts i w f' o Hc
    |f ls ts t page p Hin Hp|f ls ts1 ts2 t f' i Hab]; simpl in *.
  - apply stable_refl.
  - apply Forall_app in Hl as [_ [[Hi Hfree] _]%Forall_cons].
    destruct (Frames.claim_cas_spec f i w Hs Hi) as [(Hw & f1 & Hsd & Heq)|[_ Heq]];
      rewrite Heq in Hc; simplify_eq; [|apply stable_refl].
    eapply stable_stored; eauto.
  - apply Ht in Hin as (_ & _ & wt & Hwt & Hfl). inv_done.
    intros i w Hw Hpub. unfold Frames.page_at, Frames.word_at in *. simpl. split; [done|].
    rewrite list_lookup_insert_ne; [done|]. intros Heq.
    assert (i = Frames.InFlightFrame_frame t) as -> by lia.
    assert (w = wt) as -> by congruence. destruct Hpub; congruence.
  - destruct (Frames.consume_Done f t _ f' i Hs Hab) as (w & g & -> & _ & Hw & Hfl & _ & _ & Hsd).
    eapply stable_stored; eauto.
Qed.

Lemma publish_ok f ls ts1 ts2 t f' i :
  Frames.system_inv (Frames.mkSystem f ls (ts1 ++ t :: ts2)) → Frames.publish f t = Done (f', i) →
  Frames.system_inv (Frames.mkSystem f' ls (ts1 ++ ts2)) ∧ stable f f' ∧
  in_state f i Frames.InFlight ∧ in_state f' i Frames.Resident.
Proof.
  intros Hinv Hp. split.
  { eapply Frames.step_inv; [exact Hinv|]. econstructor; eauto. }
  destruct Hinv as [Hs _ _ _]. simpl in Hs.
  destruct (Frames.consume_Done f t _ f' i Hs Hp) as (w & g & -> & _ & Hw & Hfl & _ & _ & Hsd).
  split; [eapply stable_stored; eauto|]. split; [by exists w|].
  eexists. split; [|apply Frames.pack_state].
  destruct Hsd as (_ & _ & _ & _ & _ & _ & Hat). rewrite Hat. by rewrite decide_True.
Qed.

(** A reclamation edge: the frame's generation and every identity stay. *)
Lemma advance_ok a i to f' :
  Frames.system_inv a → Frames.advance (Frames.sys_frames a) i to = Done f' →
  ∃ w w', Frames.system_inv (Frames.mkSystem f' (Frames.sys_loads a) (Frames.sys_tokens a)) ∧
    Frames.word_at (Frames.sys_frames a) i = Some w ∧ Frames.word_at f' i = Some w' ∧
    Frames.word_generation w' = Frames.word_generation w ∧ Frames.word_state w' = to ∧
    (∀ j, j ≠ i → Frames.word_at f' j = Frames.word_at (Frames.sys_frames a) j) ∧
    ∀ j, Frames.page_at f' j = Frames.page_at (Frames.sys_frames a) j.
Proof.
  intros Hinv Ha. destruct a as [f ls ts]. simpl in *.
  assert (Frames.system_inv (Frames.mkSystem f' ls ts)) as Hinv'.
  { eapply Frames.step_inv; [exact Hinv|]. econstructor; eauto. }
  destruct Hinv as [Hs _ _ _]. simpl in Hs.
  destruct (Frames.advance_Done f i to f' Hs Ha) as (w & Hw & _ & Hpg & _ & _ & _ & _ & _ & Hat).
  exists w, (Frames.pack (Frames.word_generation w) to). split_and!; try done.
  - rewrite Hat. by rewrite decide_True.
  - apply Frames.pack_generation.
  - apply Frames.pack_state.
  - intros j Hj. rewrite Hat. by rewrite decide_False.
  - intros j. unfold Frames.page_at. by rewrite Hpg.
Qed.

(** ** Transfers *)

Lemma in_state_stable f f' i st :
  stable f f' → st = Frames.Resident ∨ st = Frames.Evicting → in_state f i st → in_state f' i st.
Proof.
  intros Hst Hor (w & Hw & Hs). exists w. split; [|done]. apply Hst; [done|].
  rewrite Hs. done.
Qed.

Lemma protects_stable s s' p g :
  stable (frames s) (frames s') → (∀ i, pending s p i → pending s' p i) →
  protects s p g → protects s' p g.
Proof.
  intros Hst Hpend (w & Hw & Hg & Hp & Hd).
  destruct (Hst (g_frame g) w Hw) as [Hw' Hp']; [tauto|].
  exists w. rewrite Hp'. split_and!; try done. destruct Hd as [|[]]; auto.
Qed.

Lemma epoch_ok_control e c c' k r :
  (∀ l n, c' = CScan l n → c = c' ∨ n = 0%nat) → epoch_ok e c k r → epoch_ok e c' k r.
Proof.
  intros Hc [H1 H2]. split; [done|]. intros Hp. destruct (H2 Hp) as (? & ? & ? & Hscan).
  split_and!; [done..|]. destruct c'; try done. destruct (Hc _ _ eq_refl) as [->| ->]; [done|lia].
Qed.

Lemma readers_transfer s s' :
  epoch s' = epoch s →
  (∀ l n, control s' = CScan l n → control s = control s' ∨ n = 0%nat) →
  (∀ k r g, readers s !! k = Some r → g ∈ protected r →
     protects s (r_published r) g → protects s' (r_published r) g) →
  (∀ k r, readers s !! k = Some r → reader_inv s k r) →
  ∀ k r, readers s !! k = Some r → reader_inv s' k r.
Proof.
  intros He Hc Hp Hr k r Hk. destruct (Hr k r Hk) as (Hw & Hep & Hg). split; [done|].
  rewrite He. split; [by eapply epoch_ok_control|]. eauto.
Qed.

Lemma table_inv_stable s s' :
  stable (frames s) (frames s') → table s' = table s → table_inv s → table_inv s'.
Proof.
  intros Hst Heq Ht page i Hp. rewrite Heq in Hp. destruct (Ht _ _ Hp) as (Hpg & w & Hw & Hs).
  destruct (Hst i w Hw) as [Hw' Hp']; [auto|]. rewrite Hp'. split; [done|]. by exists w.
Qed.

(** A step that leaves queue, epoch and published frames alone. *)
Lemma stable_inv s s' :
  pool_inv s → Frames.system_inv (arena s') → stable (frames s) (frames s') →
  epoch s' = epoch s → queue s' = queue s → held s' = held s → readers s' = readers s →
  table_inv s' → control_inv s' →
  (∀ l n, control s' = CScan l n → control s = control s' ∨ n = 0%nat) →
  (∀ i, control s = CEvicting i → control s' = CEvicting i) → pool_inv s'.
Proof.
  intros [_ _ _ [Hq1 Hq2] Hr] Ha Hst He Hq Hh Hrd Ht Hc Hscan Hev. split; try done.
  - split; rewrite Hq, Hh; [done|]. intros i Hi. eapply in_state_stable; eauto.
  - rewrite Hrd. eapply readers_transfer; eauto. intros k r g _ _.
    apply protects_stable; [done|]. unfold pending. rewrite Hq. intros i []; auto.
Qed.

Lemma step_token_inv s a :
  pool_inv s → token_step (arena s) a → pool_inv (with_arena s a (control s)).
Proof.
  intros Hinv Hts. destruct (token_step_ok _ _ (pi_arena s Hinv) Hts) as [Ha Hst].
  pose proof Hinv as [_ Ht Hc _ _]. apply (stable_inv s); simpl; auto.
  - by apply (table_inv_stable s).
  - unfold control_inv in *. simpl. destruct (control s); try done;
      (destruct Hc as [Hc1 Hc2]; split; [eapply in_state_stable; eauto|done]).
Qed.

Lemma step_publish_inv s f ls ts1 ts2 t f' i :
  pool_inv s → control s = CIdle → arena s = Frames.mkSystem f ls (ts1 ++ t :: ts2) →
  Frames.publish f t = Done (f', i) →
  pool_inv (with_arena s (Frames.mkSystem f' ls (ts1 ++ ts2)) (CPublished i)).
Proof.
  intros Hinv Hci Har Hp. pose proof Hinv as [Ha Ht _ _ _]. rewrite Har in Ha.
  destruct (publish_ok _ _ _ _ _ _ _ Ha Hp) as (Ha' & Hst & (w & Hw & Hfl) & Hres).
  assert (frames s = f) as Hf by (unfold frames; by rewrite Har).
  rewrite <- Hf in Hst. apply (stable_inv s); simpl; try done.
  - by apply (table_inv_stable s).
  - unfold control_inv. simpl. split; [done|]. intros page Hpg.
    destruct (Ht _ _ Hpg) as (_ & w' & Hw' & Hr). rewrite Hf in Hw'. congruence.
  - intros j Hj. congruence.
Qed.

Lemma exact_page_Done f i page :
  Frames.exact_page f i = Done page → Frames.page_at f i = Some (Some page).
Proof.
  unfold Frames.exact_page, Frames.page_read, Frames.page_at. intros H. inv_done.
  match goal with H : Frames.checked_index _ _ = _ |- _ =>
    apply Frames.checked_index_Done in H as [-> Hi] end. done.
Qed.

Lemma step_map_inv s i page :
  pool_inv s → control s = CPublished i → Frames.exact_page (frames s) i = Done page →
  table s !! page = None →
  pool_inv (mkPool (epoch s) (arena s) (<[page := i]> (table s)) (queue s) (held s)
    (readers s) CIdle).
Proof.
  intros Hinv Hci Hp Hn. pose proof Hinv as [Ha Ht Hc _ _]. unfold control_inv in Hc.
  rewrite Hci in Hc. destruct Hc as [Hres _].
  apply (stable_inv s); simpl; try done.
  - intros page' j. simpl. destruct (decide (page' = page)) as [->|Hne].
    + rewrite lookup_insert_eq. intros [= <-]. split; [by apply exact_page_Done|done].
    + rewrite lookup_insert_ne by done. apply Ht.
  - intros j Hj. congruence.
Qed.

Lemma step_unmap_inv s i page :
  pool_inv s → control s = CIdle → Frames.exact_page (frames s) i = Done page →
  table s !! page = Some i →
  pool_inv (mkPool (epoch s) (arena s) (delete page (table s)) (queue s) (held s)
    (readers s) (CUnmapped i)).
Proof.
  intros Hinv Hci Hp Hm. pose proof Hinv as [Ha Ht _ _ _].
  apply (stable_inv s); simpl; try done.
  - intros page' j Hj. simpl in Hj. apply lookup_delete_Some in Hj as [_ Hj]. by apply Ht.
  - unfold control_inv. simpl. destruct (Ht _ _ Hm) as [Hpg Hres]. split; [done|].
    intros page' Hj. apply lookup_delete_Some in Hj as [Hne Hj].
    destruct (Ht _ _ Hj) as [Hpg' _]. congruence.
  - intros j Hj. congruence.
Qed.

Lemma in_state_ne f f' i j st :
  (∀ k, k ≠ i → Frames.word_at f' k = Frames.word_at f k) → j ≠ i →
  in_state f j st → in_state f' j st.
Proof. intros Hw Hj (w & Hwj & Hs). exists w. by rewrite Hw. Qed.

Lemma step_evict_inv s i f :
  pool_inv s → control s = CUnmapped i → Frames.advance (frames s) i Frames.Evicting = Done f →
  pool_inv (with_frames s f (CEvicting i)).
Proof.
  intros [Ha Ht Hc [Hq1 Hq2] Hr] Hci Hadv. unfold control_inv in Hc. rewrite Hci in Hc.
  destruct Hc as [(wi & Hwi & Hres) Hun].
  destruct (advance_ok _ _ _ _ Ha Hadv) as (w & w' & Ha' & Hw & Hw' & Hg & Hs' & Hne & Hpg).
  assert (wi = w) as -> by (unfold frames in *; congruence).
  assert (i ∉ (entries (queue s)).*1 ++ held s) as Hni.
  { intros (w2 & Hw2 & He)%Hq2. unfold frames in *. congruence. }
  split; simpl; try done.
  - intros page j Hj. simpl in Hj. destruct (Ht _ _ Hj) as [Hp1 Hp2]. unfold frames. simpl.
    rewrite Hpg. split; [done|]. eapply in_state_ne; eauto. intros ->. by apply (Hun page).
  - unfold control_inv. simpl. split; [by exists w'|done].
  - split; simpl; [done|]. intros j Hj. eapply in_state_ne; eauto. by intros ->.
  - apply (readers_transfer s); simpl; try done.
    intros k r g _ _ (wg & Hwg & Hgen & Hpage & Hd). unfold protects, pending. simpl.
    destruct (decide (g_frame g = i)) as [Hgi|Hgi].
    + subst i. exists w'. unfold frames in *. simpl. rewrite Hpg, Hg. split_and!; try done; try congruence.
      right. auto.
    + exists wg. unfold frames in *. simpl. rewrite Hne, Hpg by done. split_and!; try done.
      destruct Hd as [|[? [Hp|]]]; auto. rewrite Hci in Hp. discriminate.
Qed.

Lemma step_enqueue_inv s i q :
  pool_inv s → control s = CEvicting i → queue_push (queue s) i (epoch s) = Done q →
  pool_inv (mkPool (epoch s) (arena s) (table s) q (held s) (readers s) CIdle).
Proof.
  intros [Ha Ht Hc [Hq1 Hq2] Hr] Hci Hpush. unfold control_inv in Hc. rewrite Hci in Hc.
  destruct Hc as [Hev Hni]. unfold queue_push in Hpush. inv_done.
  split; simpl; try done.
  - split; simpl; rewrite fmap_app; simpl.
    + rewrite <- app_assoc, (Permutation_app_comm [i]), app_assoc. apply NoDup_app.
      split; [done|]. split; [|by apply NoDup_singleton].
      intros j Hj ->%list_elem_of_singleton. done.
    + intros j. rewrite !elem_of_app, list_elem_of_singleton. intros [[Hj| ->]|Hj];
        [apply Hq2; set_solver|done|apply Hq2; set_solver].
  - intros k r Hk. destruct (Hr k r Hk) as (Hw & Hep & Hg). split; [done|].
    split; [by eapply epoch_ok_control|]. simpl. intros g Hin.
    destruct (Hg g Hin) as (w & Hwg & Hgen & Hpg & Hd). exists w. split_and!; try done.
    destruct Hd as [|[Hs [Hp|(t & Ht1 & Ht2)]]]; [by left|right..]; (split; [done|]); right; simpl.
    + exists (epoch s). assert (i = g_frame g) as -> by congruence. split; [set_solver|].
      destruct Hep as [_ Hep]. apply Hep. unfold published. unfold protected in Hin.
      destruct (r_pc r), (r_guards r); simpl in *; try done; by apply elem_of_nil in Hin.
    + exists t. split; [set_solver|done].
Qed.

Lemma scan_passes s e k r :
  pool_inv s → epoch s < U64_MAX → control s = CScan e k → readers s !! k = Some r →
  permits_advance (r_slot r) e = Done true → published r = true → epoch s ≤ r_published r.
Proof.
  intros [_ _ Hc _ Hr] Hlt Hci Hk Hperm Hpub. unfold control_inv in Hc. rewrite Hci in Hc. subst e.
  destruct (Hr k r Hk) as (_ & [_ He] & _). destruct (He Hpub) as (Hl & Hp & _).
  unfold permits_advance in Hperm. inv_done. unfold QUIESCENT in *.
  match goal with H : _ || _ = true |- _ => apply orb_true_iff in H as [H|H]; apply N.eqb_eq in H end; lia.
Qed.

Lemma step_scan_inv s e k r b :
  pool_inv s → epoch s < U64_MAX → control s = CScan e k → readers s !! k = Some r →
  permits_advance (r_slot r) e = Done b →
  pool_inv (with_control s (if b : bool then CScan e (S k) else CIdle)).
Proof.
  intros Hinv Hlt Hci Hk Hb. pose proof Hinv as [Ha Ht Hc Hq Hr].
  unfold control_inv in Hc. rewrite Hci in Hc. destruct b.
  - pose proof (scan_passes s e k r Hinv Hlt Hci Hk Hb) as Hpass. split; simpl; try done.
    + destruct Hq. by split.
    + intros k' r' Hk'. destruct (Hr k' r' Hk') as (Hw & [He1 He2] & Hg). split; [done|]. split.
      * split; [done|]. intros Hpub. destruct (He2 Hpub) as (? & ? & ? & Hs). rewrite Hci in Hs.
        split_and!; try done. simpl. intros Hlt'. destruct (decide (k' = k)) as [->|];
          [|apply Hs; lia]. assert (r' = r) as -> by congruence. auto.
      * intros g Hin. eapply (protects_stable s); eauto using stable_refl.
        unfold pending. simpl. rewrite Hci. intros i [|]; auto. done.
  - apply (stable_inv s); simpl; auto using stable_refl; try done. intros i Hi. congruence.
Qed.

Lemma reclaim_step_advance_inv s e e' :
  pool_inv s → control s = CScan e (length (readers s)) → add_ U64_MAX e 1 = Done e' →
  pool_inv (mkPool e' (arena s) (table s) (queue s) (held s) (readers s) CIdle).
Proof.
  intros [Ha Ht Hc [Hq1 Hq2] Hr] Hci He. apply add_Done in He as [-> _].
  unfold control_inv in Hc. rewrite Hci in Hc. subst e. split; simpl; try done.
  intros k r Hk. destruct (Hr k r Hk) as (Hw & [He1 He2] & Hg). split; [done|]. split.
  - split; [destruct (r_pc r); simpl; lia|]. intros Hpub. destruct (He2 Hpub) as (? & ? & ? & Hs).
    rewrite Hci in Hs. apply lookup_lt_Some in Hk. specialize (Hs Hk). simpl. split_and!; lia || done.
  - intros g Hin. eapply (protects_stable s); eauto using stable_refl.
    unfold pending. simpl. rewrite Hci. intros i [|]; [done|auto].
Qed.

(** No reader protects a matured frame, nor a held one. *)
Lemma matured_unprotected s i t es k r g :
  pool_inv s → epoch s < U64_MAX → control s = CIdle → entries (queue s) = (i, t) :: es →
  saturating_add U64_MAX t 2 ≤ epoch s → readers s !! k = Some r → g ∈ protected r →
  g_frame g ≠ i.
Proof.
  intros [_ _ _ [Hq1 Hq2] Hr] Hlt Hci Hes Hsat Hk Hin <-.
  destruct (Hr k r Hk) as (_ & [_ He] & Hg). destruct (Hg g Hin) as (w & Hw & _ & _ & Hd).
  destruct (Hq2 (g_frame g)) as (w' & Hw' & Hev); [rewrite Hes; set_solver|].
  destruct Hd as [|[_ [|(t' & Ht' & Hle)]]]; [congruence..|].
  rewrite Hes in Hq1, Ht'. simpl in Hq1. apply NoDup_cons in Hq1 as [Hni _].
  apply elem_of_cons in Ht' as [[= ->]|Ht'];
    [|apply Hni; apply elem_of_app; left; apply list_elem_of_fmap; by exists (g_frame g, t')].
  unfold saturating_add in Hsat. destruct He as (_ & _ & He & _); [|lia].
  unfold published. unfold protected in Hin.
  destruct (r_pc r), (r_guards r); simpl in *; try done; by apply elem_of_nil in Hin.
Qed.

Lemma held_unprotected s i k r g :
  pool_inv s → control s = CIdle → i ∈ held s → readers s !! k = Some r → g ∈ protected r →
  g_frame g ≠ i.
Proof.
  intros [_ _ _ [Hq1 Hq2] Hr] Hci Hi Hk Hin <-.
  destruct (Hr k r Hk) as (_ & _ & Hg). destruct (Hg g Hin) as (w & Hw & _ & _ & Hd).
  destruct (Hq2 (g_frame g)) as (w' & Hw' & Hev); [set_solver|].
  destruct Hd as [|[_ [|(t' & Ht' & Hle)]]]; [congruence..|].
  apply NoDup_app in Hq1 as (_ & Hdisj & _). apply (Hdisj (g_frame g)); [|done].
  apply list_elem_of_fmap. by exists (g_frame g, t').
Qed.

(** Taking a frame out of the queue or the held set and freeing it. *)
Lemma free_inv s i f q hs :
  pool_inv s → control s = CIdle →
  Frames.advance (frames s) i Frames.Free = Done f →
  (entries (queue s)).*1 ++ held s ≡ₚ i :: (entries q).*1 ++ hs →
  (∀ x, x ∈ entries (queue s) → x.1 = i ∨ x ∈ entries q) →
  (∀ k r g, readers s !! k = Some r → g ∈ protected r → g_frame g ≠ i) →
  pool_inv (mkPool (epoch s)
    (Frames.mkSystem f (Frames.sys_loads (arena s)) (Frames.sys_tokens (arena s)))
    (table s) q hs (readers s) CIdle).
Proof.
  intros [Ha Ht Hc [Hq1 Hq2] Hr] Hci Hadv Hperm Hrest Hun.
  destruct (advance_ok _ _ _ _ Ha Hadv) as (w & w' & Ha' & Hw & Hw' & Hg & Hs' & Hne & Hpg).
  destruct (Hq2 i) as (wi & Hwi & Hev); [rewrite Hperm; set_solver|].
  rewrite Hperm in Hq1. apply NoDup_cons in Hq1 as [Hni Hnd]. split; simpl; try done.
  - intros page j Hj. simpl in Hj. destruct (Ht _ _ Hj) as [Hp1 Hp2]. unfold frames. simpl.
    rewrite Hpg. split; [done|]. eapply in_state_ne; eauto. intros ->.
    destruct Hp2 as (w2 & Hw2 & Hres). unfold frames in *. congruence.
  - split; simpl; [done|]. intros j Hj. eapply in_state_ne; eauto; [by intros ->|].
    apply Hq2. rewrite Hperm. set_solver.
  - apply (readers_transfer s); simpl; try done.
    intros k r g Hk Hin (wg & Hwg & Hgen & Hpage & Hd). specialize (Hun k r g Hk Hin).
    exists wg. unfold frames in *. simpl. rewrite Hne, Hpg by done. split_and!; try done.
    destruct Hd as [|[? [Hp|(t & Ht1 & Ht2)]]]; [by left|congruence|]. right. split; [done|].
    right. exists t. simpl. split; [|done]. by destruct (Hrest _ Ht1).
Qed.

Lemma step_hold_inv s i t es :
  pool_inv s → epoch s < U64_MAX → control s = CIdle → entries (queue s) = (i, t) :: es →
  saturating_add U64_MAX t 2 ≤ epoch s →
  pool_inv (mkPool (epoch s) (arena s) (table s)
    (mkEvictQueue es (capacity (queue s))) (i :: held s) (readers s) CIdle).
Proof.
  intros Hinv Hlt Hci Hes Hsat. pose proof Hinv as [Ha Ht Hc [Hq1 Hq2] Hr].
  assert ((entries (queue s)).*1 ++ held s ≡ₚ es.*1 ++ i :: held s) as Hperm.
  { rewrite Hes. simpl. by rewrite Permutation_middle. }
  split; simpl; try done.
  - split; simpl; [by rewrite <- Hperm|]. intros j Hj. apply Hq2. by rewrite Hperm.
  - apply (readers_transfer s); simpl; try done.
    intros k r g Hk Hin (wg & Hwg & Hgen & Hpage & Hd). exists wg. split_and!; try done.
    pose proof (matured_unprotected s i t es k r g Hinv Hlt Hci Hes Hsat Hk Hin).
    destruct Hd as [|[? [Hp|(t' & Ht1 & Ht2)]]]; [by left|congruence|]. right. split; [done|].
    right. exists t'. simpl. split; [|done]. rewrite Hes in Ht1. set_solver.
Qed.


(** ** Reachable states *)

(** A scan in progress works on the current epoch, so the epoch only grows. *)
Definition scan_current (s : pool) : Prop :=
  match control s with CScan e _ => e = epoch s | _ => True end.

Lemma step_scan_current s s' : scan_current s → step s s' → scan_current s' ∧ epoch s ≤ epoch s'.
Proof.
  intros Hc Hstep. unfold scan_current in *.
  destruct Hstep; simpl; try (split; [try done|lia]);
    match goal with H : control s = _ |- _ => rewrite H in Hc end; subst.
  - by destruct b.
  - split; [done|]. match goal with H : add_ _ _ _ = _ |- _ => apply add_Done in H end. lia.
Qed.

Lemma reclaim_step_inv s s' : pool_inv s → epoch s < U64_MAX → step s s' → pool_inv s'.
Proof.
  intros Hinv Hlt Hstep. destruct Hstep as [s k r r' Hk Hrs| | | | | | |s Hci| | |s i t es f Hci Hes Hsat Hadv
    |  |s i hs1 hs2 f Hci Hh Hadv]; eauto using step_token_inv, step_publish_inv, step_map_inv,
      step_unmap_inv, step_evict_inv, step_enqueue_inv, step_scan_inv, reclaim_step_advance_inv, step_hold_inv.
  - pose proof (reader_step_inv s k r r' Hinv Hk Hrs) as Hr'.
    destruct Hinv as [Ha Ht Hc [Hq1 Hq2] Hr]. split; simpl; try done.
    intros k2 r2. simpl. intros H2. apply list_lookup_insert_Some in H2 as [(-> & <- & _)|[_ H2]];
      [exact Hr'|exact (Hr k2 r2 H2)].
  - apply (stable_inv s); simpl; auto using stable_refl; try apply Hinv; try done.
    + intros l n [= <- <-]. by right.
    + intros i Hi. congruence.
  - eapply free_inv; eauto; simpl.
    + by rewrite Hes.
    + intros x. rewrite Hes. intros [->|]%elem_of_cons; auto.
    + intros k r g Hk Hin. by eapply matured_unprotected.
  - eapply free_inv; eauto; simpl.
    + rewrite Hh, app_assoc, <- Permutation_middle. by rewrite app_assoc.
    + intros k r g Hk Hin. eapply held_unprotected; eauto. rewrite Hh. set_solver.
Qed.

Lemma reclaim_initial_inv s : initial s → pool_inv s.
Proof.
  intros (Ha & Ht & Hq & Hh & Hc & cap & peak & Hr). split.
  - by apply Frames.initial_inv.
  - intros page i. by rewrite Ht, lookup_empty.
  - unfold control_inv. by rewrite Hc.
  - split; rewrite Hq, Hh; simpl; [constructor|by intros i ?%elem_of_nil].
  - intros k r. rewrite Hr, list_lookup_fmap, fmap_Some. unfold registry.
    intros (slot & (j & -> & _)%list_lookup_fmap_Some & ->). split; [by split|].
    split; [by split|]. by intros g ?%elem_of_nil.
Qed.

Lemma reclaim_reachable_inv s0 s :
  initial s0 → rtc step s0 s → epoch s < U64_MAX → pool_inv s.
Proof.
  intros H0 Hr. assert (scan_current s ∧ (epoch s < U64_MAX → pool_inv s)) as [_ ?]; [|done].
  revert s Hr. apply rtc_ind_r.
  - split; [|by intros _; apply reclaim_initial_inv]. destruct H0 as (_ & _ & _ & _ & Hc & _).
    unfold scan_current. by rewrite Hc.
  - intros s s' _ Hstep [Hc IH]. destruct (step_scan_current s s' Hc Hstep) as [Hc' Hle].
    split; [done|]. intros Hlt. apply (reclaim_step_inv s); [apply IH|lia|done]. lia.
Qed.

(** ** Properties *)

(** C1 (grace period, INV-1).  In every state the pool reaches, under any
    interleaving of readers with evictions, epoch advances, frees and reuse, a
    frame under a live guard is still published: its residency generation and its
    page identity are those the pin found, its state is [Resident] or [Evicting],
    and no write token for it is alive, so its bytes cannot change.  (The epoch
    has to be below the top of [u64]: there [tag.saturating_add(2)] would clip.) *)
Theorem guard_grace_period s0 s k r g :
  initial s0 → rtc step s0 s → epoch s < U64_MAX →
  readers s !! k = Some r → g ∈ r_guards r →
  (∃ w, Frames.word_at (frames s) (g_frame g) = Some w ∧
     Frames.word_generation w = g_generation g ∧
     (Frames.word_state w = Frames.Resident ∨ Frames.word_state w = Frames.Evicting)) ∧
  Frames.page_at (frames s) (g_frame g) = Some (Some (g_page g)) ∧
  ∀ t, t ∈ Frames.sys_tokens (arena s) → Frames.InFlightFrame_frame t ≠ g_frame g.
Proof.
  intros H0 Hr Hlt Hk Hg. destruct (reclaim_reachable_inv s0 s H0 Hr Hlt) as [[_ _ _ Htok] _ _ _ Hrd].
  destruct (Hrd k r Hk) as (_ & _ & Hp).
  destruct (Hp g) as (w & Hw & Hgen & Hpg & Hd); [unfold protected; set_solver|].
  split_and!; [exists w; tauto|done|].
  intros t (_ & _ & w' & Hw' & Hfl)%Htok Heq. rewrite Heq in Hw'. unfold frames in Hw.
  assert (w' = w) as -> by congruence. destruct Hd as [|[? _]]; congruence.
Qed.

Definition demo_slot (o : bool) (l g : N) : ReaderSlot := mkReaderSlot o l g 1 0.
Definition demo_start : pool :=
  mkPool 0 (Frames.mkSystem (Frames.demo_frames 0 0) [] []) ∅ (mkEvictQueue [] 2) []
    [mkReader (demo_slot false QUIESCENT 0) RIdle [] 0] CIdle.
Definition demo_guard : guard := mkGuard 0 1 Frames.demo_page.

(** A page is published and pinned, and then evicted under the guard. *)
Definition demo_evicted : pool :=
  mkPool 1 (Frames.mkSystem (Frames.mkFrames [7; 0] [Some Frames.demo_page; None] 2 4096 1) [] [])
    (delete Frames.demo_page (<[Frames.demo_page := 0]> ∅)) (mkEvictQueue [(0, 0)] 2) []
    [mkReader (demo_slot true 0 1) RIdle [demo_guard] 0] CIdle.

Lemma demo_start_initial : initial demo_start.
Proof.
  split; [exact Frames.demo_initial|]. split_and!; try done. by exists 1, 1.
Qed.

(** The states along the way: word of frame 0, its identity, claimants, tokens. *)
Definition demo_arena (w : N) (p : option PageId) ls ts : Frames.system :=
  Frames.mkSystem (Frames.mkFrames [w; 0] [p; None] 2 4096 1) ls ts.
Definition demo_pool (e : N) a (m : gmap PageId ReadFrameIdx) es r c : pool :=
  mkPool e a m (mkEvictQueue es 2) [] [r] c.

Lemma demo_resident :
  rtc step demo_start
    (demo_pool 0 (demo_arena 6 (Some Frames.demo_page) [] []) (<[Frames.demo_page := 0]> ∅) []
      (mkReader (demo_slot false QUIESCENT 0) RIdle [] 0) CIdle).
Proof.
  set (r := mkReader (demo_slot false QUIESCENT 0) RIdle [] 0).
  set (t := Frames.mkInFlightFrame 1 1). set (p := Some Frames.demo_page).
  apply rtc_l with (demo_pool 0 (demo_arena 0 None [(0, 0)] []) ∅ [] r CIdle).
  { apply step_token. by apply (token_load _ [] [] 0 0). }
  apply rtc_l with (demo_pool 0 (demo_arena 1 None [] [t]) ∅ [] r CIdle).
  { apply (step_token (demo_pool 0 (demo_arena 0 None [(0, 0)] []) ∅ [] r CIdle)).
    by apply (token_cas _ [] [] [] 0 0 _ (Some t)). }
  apply rtc_l with (demo_pool 0 (demo_arena 1 p [] [t]) ∅ [] r CIdle).
  { apply (step_token (demo_pool 0 (demo_arena 1 None [] [t]) ∅ [] r CIdle)).
    apply (token_identify (Frames.demo_frames 1 0) [] [t] t Frames.demo_page [p; None]);
      [by apply list_elem_of_singleton|done]. }
  apply rtc_l with (demo_pool 0 (demo_arena 6 p [] []) ∅ [] r (CPublished 0)).
  { by apply (step_publish (demo_pool 0 (demo_arena 1 p [] [t]) ∅ [] r CIdle)
      (Frames.mkFrames [1; 0] [p; None] 2 4096 1) [] [] [] t
      (Frames.mkFrames [6; 0] [p; None] 2 4096 1) 0). }
  apply rtc_once.
  by apply (step_map (demo_pool 0 (demo_arena 6 p [] []) ∅ [] r (CPublished 0)) 0 Frames.demo_page).
Qed.

Lemma demo_pinned_evicted : rtc step demo_start demo_evicted.
Proof.
  etransitivity; [exact demo_resident|].
  set (a w := demo_arena w (Some Frames.demo_page) [] []).
  set (m := <[Frames.demo_page := 0]> ∅ : gmap PageId ReadFrameIdx).
  set (rd o l n pc gs := mkReader (demo_slot o l n) pc gs 0).
  apply rtc_l with (demo_pool 0 (a 6) m [] (rd true QUIESCENT 0 RIdle []) CIdle).
  { apply (step_reader (demo_pool 0 (a 6) m [] (rd false QUIESCENT 0 RIdle []) CIdle) 0 _ _ eq_refl).
    by apply (reader_register _ (rd false QUIESCENT 0 RIdle [])). }
  apply rtc_l with (demo_pool 0 (a 6) m [] (rd true QUIESCENT 0 (RLoaded 0) []) CIdle).
  { apply (step_reader (demo_pool 0 (a 6) m [] (rd true QUIESCENT 0 RIdle []) CIdle) 0 _ _ eq_refl).
    by apply reader_load. }
  apply rtc_l with (demo_pool 0 (a 6) m [] (rd true 0 0 (RBegun true) []) CIdle).
  { apply (step_reader (demo_pool 0 (a 6) m [] (rd true QUIESCENT 0 (RLoaded 0) []) CIdle) 0 _ _ eq_refl).
    by apply (reader_begin (demo_pool 0 (a 6) m [] (rd true QUIESCENT 0 (RLoaded 0) []) CIdle)
      (rd true QUIESCENT 0 (RLoaded 0) []) 0 (demo_slot true 0 0) true). }
  apply rtc_l with (demo_pool 0 (a 6) m [] (rd true 0 0 (RFound true 0 1 Frames.demo_page) []) CIdle).
  { apply (step_reader (demo_pool 0 (a 6) m [] (rd true 0 0 (RBegun true) []) CIdle) 0 _ _ eq_refl).
    apply (reader_lookup (demo_pool 0 (a 6) m [] (rd true 0 0 (RBegun true) []) CIdle)
      (rd true 0 0 (RBegun true) []) true Frames.demo_page 0 6); vm_compute; reflexivity. }
  set (r := rd true 0 1 RIdle [demo_guard]).
  apply rtc_l with (demo_pool 0 (a 6) m [] r CIdle).
  { apply (step_reader (demo_pool 0 (a 6) m [] (rd true 0 0 (RFound true 0 1 Frames.demo_page) []) CIdle)
      0 _ _ eq_refl).
    by apply (reader_commit _ (rd true 0 0 (RFound true 0 1 Frames.demo_page) []) true). }
  apply rtc_l with (demo_pool 0 (a 6) (delete Frames.demo_page m) [] r (CUnmapped 0)).
  { apply (step_unmap (demo_pool 0 (a 6) m [] r CIdle) 0 Frames.demo_page); vm_compute; reflexivity. }
  apply rtc_l with (demo_pool 0 (a 7) (delete Frames.demo_page m) [] r (CEvicting 0)).
  { by refine (step_evict (demo_pool 0 (a 6) (delete Frames.demo_page m) [] r (CUnmapped 0)) 0
      (Frames.sys_frames (a 7)) _ _). }
  apply rtc_l with (demo_pool 0 (a 7) (delete Frames.demo_page m) [(0, 0)] r CIdle).
  { by refine (step_enqueue (demo_pool 0 (a 7) (delete Frames.demo_page m) [] r (CEvicting 0)) 0
      (mkEvictQueue [(0, 0)] 2) _ _). }
  apply rtc_l with (demo_pool 0 (a 7) (delete Frames.demo_page m) [(0, 0)] r (CScan 0 0)).
  { by refine (step_scan_start (demo_pool 0 (a 7) (delete Frames.demo_page m) [(0, 0)] r CIdle) _). }
  apply rtc_l with (demo_pool 0 (a 7) (delete Frames.demo_page m) [(0, 0)] r (CScan 0 1)).
  { by refine (step_scan (demo_pool 0 (a 7) (delete Frames.demo_page m) [(0, 0)] r (CScan 0 0)) 0 0 r true _ _ _). }
  apply rtc_once.
  by refine (step_advance (demo_pool 0 (a 7) (delete Frames.demo_page m) [(0, 0)] r (CScan 0 1)) 0 1 _ _).
Qed.

Lemma guard_grace_period_witness :
  Frames.page_at (frames demo_evicted) 0 = Some (Some Frames.demo_page) ∧
  ∀ t, t ∈ Frames.sys_tokens (arena demo_evicted) → Frames.InFlightFrame_frame t ≠ 0.
Proof.
  apply (guard_grace_period demo_start demo_evicted 0 (mkReader (demo_slot true 0 1) RIdle [demo_guard] 0)
    demo_guard demo_start_initial demo_pinned_evicted); [done|done|by apply list_elem_of_singleton].
Defined.

(** ** The queue drain and the advance as functions *)

Definition tag_le (a b : ReadFrameIdx * N) : Prop := a.2 ≤ b.2.
Definition matured (e : N) (x : ReadFrameIdx * N) : Prop := saturating_add U64_MAX x.2 2 ≤ e.
#[global] Instance matured_dec e x : Decision (matured e x).
Proof. unfold matured. apply _. Defined.

Lemma queue_push_sorted q i t q' :
  StronglySorted tag_le (entries q) → queue_push q i t = Done q' →
  StronglySorted tag_le (entries q').
Proof.
  intros Hs H. unfold queue_push in H. inv_done. simpl.
  apply StronglySorted_app_2; [|done|by repeat constructor].
  intros z y Hx ->%list_elem_of_singleton. unfold tag_le. simpl.
  revert Hs Hx. match goal with H : match last _ with _ => _ end = true |- _ => revert H end.
  induction (entries q) as [|[ai at'] l _] using rev_ind; [by intros _ _ ?%elem_of_nil|].
  rewrite last_snoc. intros Hle%N.leb_le Hs Hx.
  apply elem_of_app in Hx as [Hx| ->%list_elem_of_singleton]; [|done].
  assert (tag_le z (ai, at')) as Hz; [|unfold tag_le in Hz; simpl in *; lia].
  eapply StronglySorted_app_1_elem_of; [done..|by apply list_elem_of_singleton].
Qed.

Section drain.
Context {S : Type} (process : S → ReadFrameIdx → N → outcome (S * FrameOutcome)).

(** Handing entries to the closure, counting the frames it frees. *)
Fixpoint process_all (es : list (ReadFrameIdx * N)) (st : S) (n : N) : outcome (S * N) :=
  match es with
  | [] => Done (st, n)
  | (i, t) :: es =>
      '(st, o) ← process st i t;
      process_all es st (if bool_decide (o = Freed) then n + 1 else n)
  end.

Lemma drain_entries_eq e es st n :
  StronglySorted tag_le es →
  drain_entries process e es st n =
    ('(st, n) ← process_all (filter (matured e) es) st n;
     Done (filter (λ x, ¬ matured e x) es, st, n)).
Proof.
  revert st n. induction es as [|[i t] es IH]; intros st n Hs; [done|].
  apply StronglySorted_cons in Hs as [Hhd Hs].
  cbn [drain_entries]. destruct (N.ltb_spec e (saturating_add U64_MAX t 2)) as [Hlt|Hle].
  - rewrite Forall_forall in Hhd.
    assert (∀ x, x ∈ (i, t) :: es → ¬ matured e x) as Hnone.
    { intros x [->|Hx]%elem_of_cons; unfold matured; simpl; [lia|].
      specialize (Hhd x Hx). unfold tag_le, saturating_add in *. simpl in *. lia. }
    by rewrite (filter_none _ _ Hnone), (filter_all _ _ Hnone).
  - rewrite assertb_true by by apply N.leb_le.
    rewrite (filter_cons_True (matured e) (i, t)) by exact Hle.
    rewrite (filter_cons_False (λ x, ¬ matured e x) (i, t)) by (intros Hn; by apply Hn).
    cbn [process_all]. mred. destruct (process st i t) as [[st' o]|]; [|done]. mred. by rewrite IH.
Qed.
End drain.

Lemma all_permit_quiescent slots e :
  e ≠ QUIESCENT → Forall (λ s, local_epoch s = QUIESCENT) slots → all_permit slots e = Done true.
Proof.
  intros He Hq. induction Hq as [|s slots Hs Hq IH]; [done|]. cbn [all_permit].
  unfold permits_advance. rewrite Hs, N.eqb_refl.
  rewrite (assertb_true (negb _)) by by apply negb_true_iff, N.eqb_neq. mred. done.
Qed.

Lemma advance_quiescent slots e :
  e + 1 ≤ U64_MAX → Forall (λ s, local_epoch s = QUIESCENT) slots →
  advance_epoch e slots = Done (e + 1, e + 1).
Proof.
  intros He Hq. unfold advance_epoch. rewrite all_permit_quiescent by (unfold QUIESCENT; lia || done).
  mred. rewrite add_ok by done. mred. by rewrite N.eqb_refl, orb_true_r.
Qed.

(** Drain. On a queue whose tags are in order, [drain_matured] hands the
    closure exactly the entries whose tag has aged two epochs, in queue order, and
    keeps exactly the others; it panics only if the closure does. *)
Theorem drain_takes_matured {S} (process : S → ReadFrameIdx → N → outcome (S * FrameOutcome)) q e st :
  StronglySorted tag_le (entries q) →
  drain_matured process q e st =
    ('(st, n) ← process_all process (filter (matured e) (entries q)) st 0;
     Done (mkEvictQueue (filter (λ x, ¬ matured e x) (entries q)) (capacity q), st, n)).
Proof.
  intros Hs. unfold drain_matured. rewrite drain_entries_eq by done.
  destruct (process_all _ _ _ _) as [[st' n]|]; done.
Qed.

Definition demo_process (l : list ReadFrameIdx) (i : ReadFrameIdx) (t : N) :
    outcome (list ReadFrameIdx * FrameOutcome) := Done (l ++ [i], Freed).

Lemma drain_takes_matured_witness :
  drain_matured demo_process (mkEvictQueue [(4, 1); (2, 2); (7, 3)] 8) 4 [] =
    Done (mkEvictQueue [(7, 3)] 8, [4; 2], 2).
Proof.
  rewrite (drain_takes_matured demo_process (mkEvictQueue [(4, 1); (2, 2); (7, 3)] 8) 4 []).
  - vm_compute. reflexivity.
  - repeat constructor; unfold tag_le; simpl; lia.
Defined.

(** C30 (reclamation makes progress).  With every reader slot quiescent, two
    advances and a drain hand over every frame that was queued when they began,
    oldest first: no evicted frame waits longer than two unobstructed passes. *)
Theorem quiescent_pool_reclaims {S} (process : S → ReadFrameIdx → N → outcome (S * FrameOutcome))
    slots q e st :
  e + 2 ≤ U64_MAX → Forall (λ s, local_epoch s = QUIESCENT) slots →
  StronglySorted tag_le (entries q) → Forall (λ x, x.2 ≤ e) (entries q) →
  ('(e1, _) ← advance_epoch e slots;
   '(e2, _) ← advance_epoch e1 slots;
   drain_matured process q e2 st) =
  ('(st, n) ← process_all process (entries q) st 0;
   Done (mkEvictQueue [] (capacity q), st, n)).
Proof.
  intros He Hq Hs Ht. rewrite advance_quiescent by (done || lia). mred.
  rewrite advance_quiescent by (done || lia). mred.
  assert (∀ x, x ∈ entries q → matured (e + 1 + 1) x) as Hm.
  { intros x Hx. rewrite Forall_forall in Ht. specialize (Ht x Hx).
    unfold matured, saturating_add. lia. }
  unfold drain_matured. rewrite drain_entries_eq by done.
  rewrite (filter_all _ _ Hm), filter_none by (intros x Hx Hn; by apply Hn, Hm).
  by destruct (process_all _ _ _ _) as [[st' n]|].
Qed.

Lemma quiescent_pool_reclaims_witness :
  ('(e1, _) ← advance_epoch 3 (registry 2 1);
   '(e2, _) ← advance_epoch e1 (registry 2 1);
   drain_matured demo_process (mkEvictQueue [(4, 1); (7, 3)] 8) e2 []) =
  Done (mkEvictQueue [] 8, [4; 7], 2).
Proof.
  rewrite (quiescent_pool_reclaims demo_process (registry 2 1) (mkEvictQueue [(4, 1); (7, 3)] 8) 3 []).
  - vm_compute. reflexivity.
  - vm_compute. discriminate.
  - repeat constructor.
  - repeat constructor; unfold tag_le; simpl; lia.
  - repeat constructor; simpl; lia.
Defined.
End Reclamation.
