(* ===== verification/FileSlots.v ===== *)
(** * Slots with intrusive per-file membership

    Models src/src/pool/file_slots.rs and src/src/pool/frame_pages.rs.  A fixed
    array of slots carries, for every file slot, a doubly linked list of the
    occupied slots that the file owns; a link is an index plus one, a chain ends in
    a slot that links to itself, and zero links mean vacancy.  The theorems: insert
    and remove refine one list of indices per file (no occupied slot is missed, none
    is listed twice or under another file), [for_file] enumerates exactly that list,
    and none of the link assertions can fail. *)
From stdpp Require Import prelude list.
From Stdlib Require Import NArith Lia.
From S2P Require Import Prelude Ids.

Open Scope N_scope.

(** [FileOwned]: a payload that knows the file slot that owns it. *)
Class FileOwned (T : Type) := file_slot : T → N.

Module FileSlots.

Definition SlotLink : Type := N.

Definition from_index (index : N) : outcome SlotLink := expect (checked_add U32_MAX index 1).
Definition link_index (l : SlotLink) : option N := checked_sub l 1.

Section slots.
Context {T : Type} `{!FileOwned T}.

(** [value] is [MaybeUninit]: [None] until an insertion writes it. *)
Record FileSlot := mkFileSlot {
  previous : SlotLink;
  next : SlotLink;
  value : option T;
}.

Record FileSlots := mkFileSlots {
  slots : list FileSlot;
  heads : list SlotLink;
}.

(** [FileSlot::get]: the payload of an occupied slot. *)
Definition slot_get (s : FileSlot) : outcome (option T) :=
  match link_index (next s) with
  | None => Done None
  | Some _ => v ← expect (value s); Done (Some v)
  end.

Definition is_none (s : FileSlot) : bool := next s =? 0.

Definition try_new (capacity file_capacity : N) : outcome FileSlots :=
  assertb (0 <? capacity);;
  Done (mkFileSlots (replicate (N.to_nat capacity) (mkFileSlot 0 0 None))
          (replicate (N.to_nat file_capacity) 0)).

Definition set_slot (fs : FileSlots) (i : N) (f : FileSlot → FileSlot) : outcome FileSlots :=
  s ← vget (slots fs) i;
  ss ← vset (slots fs) i (f s);
  Done (mkFileSlots ss (heads fs)).
Definition set_head (fs : FileSlots) (o : N) (l : SlotLink) : outcome FileSlots :=
  hs ← vset (heads fs) o l;
  Done (mkFileSlots (slots fs) hs).
Definition with_previous (l : SlotLink) (s : FileSlot) : FileSlot := mkFileSlot l (next s) (value s).
Definition with_next (l : SlotLink) (s : FileSlot) : FileSlot := mkFileSlot (previous s) l (value s).

Definition insert (fs : FileSlots) (index : N) (v : T) : outcome FileSlots :=
  s ← vget (slots fs) index;
  assertb (is_none s);;
  let owner := file_slot v in
  link ← from_index index;
  old_head ← vget (heads fs) owner;
  fs ← set_slot fs index (λ _, mkFileSlot link
         (match link_index old_head with None => link | Some _ => old_head end) (Some v));
  fs ← match link_index old_head with
       | Some head =>
           h ← vget (slots fs) head;
           assertb (previous h =? old_head);;
           set_slot fs head (with_previous link)
       | None => Done fs
       end;
  set_head fs owner link.

(** The two halves of [remove]: the predecessor's side and the successor's. *)
Definition unlink_previous (fs : FileSlots) (owner : N) (link prev nxt : SlotLink) :
    outcome FileSlots :=
  if prev =? link then
    h ← vget (heads fs) owner;
    assertb (h =? link);;
    set_head fs owner (if nxt =? link then 0 else nxt)
  else
    before ← expect (link_index prev);
    b ← vget (slots fs) before;
    assertb (next b =? link);;
    set_slot fs before (with_next (if nxt =? link then prev else nxt)).

Definition unlink_next (fs : FileSlots) (link prev nxt : SlotLink) : outcome FileSlots :=
  if negb (nxt =? link) then
    after ← expect (link_index nxt);
    a ← vget (slots fs) after;
    assertb (previous a =? link);;
    set_slot fs after (with_previous (if prev =? link then nxt else prev))
  else Done fs.

Definition remove (fs : FileSlots) (index : N) : outcome FileSlots :=
  s ← vget (slots fs) index;
  g ← slot_get s;
  v ← expect g;
  let owner := file_slot v in
  link ← from_index index;
  let prev := previous s in
  let nxt := next s in
  fs ← unlink_previous fs owner link prev nxt;
  fs ← unlink_next fs link prev nxt;
  fs ← set_slot fs index (with_next 0);
  fs ← set_slot fs index (with_previous 0);
  s ← vget (slots fs) index;
  assertb (is_none s);;
  Done fs.

(** [for_file]: the traversal, with [remaining] as the loop bound.  The iterator
    is consumed to its end. *)
Fixpoint walk (fs : FileSlots) (file : N) (cursor : SlotLink) (remaining : nat) :
    outcome (list (N * T)) :=
  match link_index cursor with
  | None => Done []
  | Some index =>
      match remaining with
      | O => Panic
      | S remaining =>
          s ← vget (slots fs) index;
          g ← slot_get s;
          v ← expect g;
          assertb (file_slot v =? file);;
          let nxt := next s in
          rest ← walk fs file (if nxt =? cursor then 0 else nxt) remaining;
          Done ((index, v) :: rest)
      end
  end.

Definition for_file (fs : FileSlots) (file : N) : outcome (list (N * T)) :=
  cursor ← vget (heads fs) file;
  walk fs file cursor (length (slots fs)).

(** A write through [get_mut] of an occupied slot. *)
Definition modify (fs : FileSlots) (index : N) (f : T → T) : outcome FileSlots :=
  s ← vget (slots fs) index;
  g ← slot_get s;
  v ← expect g;
  set_slot fs index (λ s, mkFileSlot (previous s) (next s) (Some (f v))).

(** [self.slots[index].get()]. *)
Definition get_at (fs : FileSlots) (index : N) : outcome (option T) :=
  s ← vget (slots fs) index; slot_get s.

(** ** Chains *)

Definition link (i : N) : SlotLink := i + 1.

Lemma link_index_link i : link_index (link i) = Some i.
Proof. apply checked_sub_Some. unfold link. lia. Qed.

Lemma from_index_ok i : i < U32_MAX → from_index i = Done (link i).
Proof. intros. apply expect_Done, checked_add_Some. unfold link. lia. Qed.

Lemma link_ne_0 i : link i ≠ 0.
Proof. unfold link. lia. Qed.

Lemma link_inj i j : link i = link j → i = j.
Proof. unfold link. lia. Qed.

Definition head_link (l : list (N * T)) (nx : SlotLink) : SlotLink :=
  match l with [] => nx | (i, _) :: _ => link i end.
Definition last_link (pv : SlotLink) (l : list (N * T)) : SlotLink :=
  match last l with None => pv | Some (i, _) => link i end.

(** An end of the chain links to itself. *)
Definition or_self (i : N) (l : SlotLink) : SlotLink := if l =? 0 then link i else l.

(** Slot [e.1] is occupied by [e.2], between the links [pv] and [nx]. *)
Definition node (ss : list FileSlot) (e : N * T) (pv nx : SlotLink) : Prop :=
  ss !! N.to_nat e.1 = Some (mkFileSlot (or_self e.1 pv) (or_self e.1 nx) (Some e.2)).

Fixpoint seg (ss : list FileSlot) (pv : SlotLink) (l : list (N * T)) (nx : SlotLink) : Prop :=
  match l with
  | [] => True
  | e :: l => node ss e pv (head_link l nx) ∧ seg ss (link e.1) l nx
  end.

Lemma seg_app ss pv l1 l2 nx :
  seg ss pv (l1 ++ l2) nx ↔
  seg ss pv l1 (head_link l2 nx) ∧ seg ss (last_link pv l1) l2 nx.
Proof.
  revert pv. induction l1 as [|[i v] l1 IH]; intros pv; simpl.
  { split; [by intros|by intros [_ ?]]. }
  rewrite IH. assert (last_link pv ((i, v) :: l1) = last_link (link i) l1) as ->.
  { unfold last_link. destruct l1 as [|j l1]; [done|]. rewrite last_cons_cons.
    by destruct (last_is_Some (j :: l1)) as [_ [x ->]]. }
  assert (head_link (l1 ++ l2) nx = head_link l1 (head_link l2 nx)) as -> by by destruct l1 as [|[]].
  tauto.
Qed.

Lemma seg_node ss pv l nx e : seg ss pv l nx → e ∈ l → ∃ p q, node ss e p q.
Proof.
  intros Hs (l1 & l2 & ->)%list_elem_of_split.
  apply seg_app in Hs as [_ [Hn _]]. eauto.
Qed.

(** A store outside the segment leaves it alone. *)
Lemma seg_insert_ne ss pv l nx i s :
  i ∉ l.*1 → seg ss pv l nx → seg (<[N.to_nat i := s]> ss) pv l nx.
Proof.
  revert pv. induction l as [|[j v] l IH]; intros pv Hi; [done|]. simpl.
  intros [Hv Hs]. split; [|apply IH; set_solver].
  unfold node in *. simpl in *. rewrite list_lookup_insert_ne; [done|]. assert (i ≠ j) by set_solver. lia.
Qed.

(** Relinking the first or the last slot of a segment. *)
Lemma seg_set_head ss pv pv' i v l nx s :
  i ∉ l.*1 → seg ss pv ((i, v) :: l) nx → ss !! N.to_nat i = Some s →
  seg (<[N.to_nat i := with_previous (or_self i pv') s]> ss) pv' ((i, v) :: l) nx.
Proof.
  intros Hi [Hn Hs] Hl. split; [|by apply seg_insert_ne]. unfold node in *. simpl in *.
  rewrite list_lookup_insert_eq by by eapply lookup_lt_Some. by simplify_eq.
Qed.

Lemma seg_set_last ss pv i v l nx nx' s :
  i ∉ l.*1 → seg ss pv (l ++ [(i, v)]) nx → ss !! N.to_nat i = Some s →
  seg (<[N.to_nat i := with_next (or_self i nx') s]> ss) pv (l ++ [(i, v)]) nx'.
Proof.
  intros Hi [Hs [Hn _]]%seg_app Hl. apply seg_app. simpl in *. split; [by apply seg_insert_ne|].
  split; [|done]. unfold node in *. simpl in *.
  rewrite list_lookup_insert_eq by by eapply lookup_lt_Some. by simplify_eq.
Qed.

Lemma or_self_ne i l : l ≠ 0 → or_self i l = l.
Proof. unfold or_self. destruct (N.eqb_spec l 0); done. Qed.
Lemma or_self_nz i l : or_self i l ≠ 0.
Proof. unfold or_self. destruct (N.eqb_spec l 0); [apply link_ne_0|done]. Qed.

(** ** Representation

    The live entries, newest first; a file's chain is the sublist it owns. *)

Definition owned (o : N) (A : list (N * T)) : list (N * T) :=
  filter (λ e, file_slot e.2 = o) A.

Record rep (fs : FileSlots) (A : list (N * T)) : Prop := {
  rep_cap : vlen (slots fs) ≤ U32_MAX;
  rep_nodup : NoDup A.*1;
  rep_owner : ∀ e, e ∈ A → file_slot e.2 < vlen (heads fs);
  rep_chain : ∀ o, o < vlen (heads fs) →
    heads fs !! N.to_nat o = Some (head_link (owned o A) 0) ∧ seg (slots fs) 0 (owned o A) 0;
  rep_occupied : ∀ i s, slots fs !! N.to_nat i = Some s → next s ≠ 0 → i ∈ A.*1;
}.

Lemma owned_nodup o A : NoDup A.*1 → NoDup (owned o A).*1.
Proof.
  unfold owned. induction A as [|e A IH]; [done|]. simpl. intros [Hn Hd]%NoDup_cons.
  destruct (decide (file_slot e.2 = o)).
  - rewrite filter_cons_True by done. simpl. apply NoDup_cons. split; [|auto].
    intros (e' & He & [_ Hin]%list_elem_of_filter)%list_elem_of_fmap. apply Hn.
    apply list_elem_of_fmap. eauto.
  - rewrite filter_cons_False by done. auto.
Qed.

Lemma rep_node fs A e : rep fs A → e ∈ A → ∃ p q, node (slots fs) e p q.
Proof.
  intros Hr He. destruct (rep_chain fs A Hr _ (rep_owner fs A Hr e He)) as [_ Hs].
  eapply seg_node; [exact Hs|]. by apply list_elem_of_filter.
Qed.

Lemma rep_vacant fs A i s :
  rep fs A → slots fs !! N.to_nat i = Some s → next s = 0 → i ∉ A.*1.
Proof.
  intros Hr Hi Hn (e & -> & He)%list_elem_of_fmap.
  destruct (rep_node fs A e Hr He) as (p & q & Hnode). unfold node in Hnode. simplify_eq.
  simpl in Hn. by apply or_self_nz in Hn.
Qed.

Lemma set_slot_ok fs i f s :
  slots fs !! N.to_nat i = Some s →
  set_slot fs i f = Done (mkFileSlots (<[N.to_nat i := f s]> (slots fs)) (heads fs)).
Proof.
  intros Hs. unfold set_slot. rewrite (proj2 (vget_Done _ _ _) Hs). mred.
  by rewrite vset_ok by eauto using vget_lt.
Qed.

Lemma set_head_ok fs o l :
  o < vlen (heads fs) →
  set_head fs o l = Done (mkFileSlots (slots fs) (<[N.to_nat o := l]> (heads fs))).
Proof. intros Ho. unfold set_head. by rewrite vset_ok. Qed.

Lemma fst_inj A (e e' : N * T) : NoDup A.*1 → e ∈ A → e' ∈ A → e.1 = e'.1 → e = e'.
Proof.
  intros Hd [i Hi]%list_elem_of_lookup [j Hj]%list_elem_of_lookup Heq.
  assert (i = j) as ->; [|congruence].
  eapply (NoDup_lookup A.*1 i j e.1); [done|..]; rewrite list_lookup_fmap; [by rewrite Hi|].
  rewrite Hj. simpl. by rewrite Heq.
Qed.

Lemma owned_disjoint o o' A i :
  NoDup A.*1 → o ≠ o' → i ∈ (owned o A).*1 → i ∉ (owned o' A).*1.
Proof.
  intros Hd Ho (e & -> & [He Hin]%list_elem_of_filter)%list_elem_of_fmap
    (e' & Heq & [He' Hin']%list_elem_of_filter)%list_elem_of_fmap.
  assert (e = e') by (by eapply fst_inj). subst. done.
Qed.

Lemma owned_sub o A i : i ∉ A.*1 → i ∉ (owned o A).*1.
Proof.
  intros Hi (e & -> & [_ Hin]%list_elem_of_filter)%list_elem_of_fmap. apply Hi.
  apply list_elem_of_fmap. eauto.
Qed.

Lemma seg_ext ss ss' pv l nx :
  (∀ i, i ∈ l.*1 → ss' !! N.to_nat i = ss !! N.to_nat i) → seg ss pv l nx → seg ss' pv l nx.
Proof.
  revert pv. induction l as [|e l IH]; intros pv Heq; [done|]. simpl. intros [Hn Hs].
  split; [|apply IH; [|done]; intros i Hi; apply Heq; set_solver].
  unfold node. rewrite Heq by set_solver. exact Hn.
Qed.

Lemma rep_seg fs A o : rep fs A → seg (slots fs) 0 (owned o A) 0.
Proof.
  intros Hr. destruct (N.lt_ge_cases o (vlen (heads fs))) as [Hlt|Hge]; [by apply Hr|].
  unfold owned. rewrite filter_none; [done|]. intros e He <-. apply (rep_owner _ _ Hr) in He. lia.
Qed.

Lemma elem_owned o A i : i ∈ (owned o A).*1 → i ∈ A.*1.
Proof. intros Hi. destruct (decide (i ∈ A.*1)) as [|Hn]; [done|]. by apply (owned_sub o) in Hn. Qed.

(** The chain of [o] is rebuilt by an operation that touches its own slots only. *)
Lemma rep_rebuild fs A o ss' A' :
  rep fs A → length ss' = length (slots fs) → NoDup A'.*1 →
  (∀ e, e ∈ A' → file_slot e.2 < vlen (heads fs)) →
  seg ss' 0 (owned o A') 0 →
  (∀ o', o' ≠ o → owned o' A' = owned o' A) →
  (∀ i, i ∉ (owned o A).*1 → i ∉ (owned o A').*1 → ss' !! N.to_nat i = slots fs !! N.to_nat i) →
  (∀ i s, i ∈ (owned o A).*1 → i ∉ (owned o A').*1 → ss' !! N.to_nat i = Some s → next s = 0) →
  rep (mkFileSlots ss' (<[N.to_nat o := head_link (owned o A') 0]> (heads fs))) A'.
Proof.
  intros Hr Hlen Hd Hown Hseg Hother Hsame Hgone. split; simpl; try done.
  - unfold vlen. rewrite Hlen. apply Hr.
  - intros e He. rewrite vlen_insert. by apply Hown.
  - intros o' Ho'. rewrite vlen_insert in Ho'. destruct (decide (o' = o)) as [->|Hne].
    + rewrite list_lookup_insert_eq by (unfold vlen in Ho'; lia). done.
    + rewrite list_lookup_insert_ne by lia. rewrite Hother by done. split; [by apply Hr|].
      apply (seg_ext (slots fs)); [|by apply rep_seg]. intros i Hi. apply Hsame.
      * apply (owned_disjoint o'); [apply Hr|done|done].
      * apply (owned_disjoint o'); [done|done|]. by rewrite Hother.
  - intros i s Hs Hn. destruct (decide (i ∈ (owned o A').*1)) as [|Hni]; [by eapply elem_owned|].
    destruct (decide (i ∈ (owned o A).*1)) as [Hi|Hi]; [by rewrite (Hgone i s Hi Hni Hs) in Hn|].
    rewrite Hsame in Hs by done. pose proof (rep_occupied _ _ Hr i s Hs Hn) as HA.
    apply list_elem_of_fmap in HA as (e & -> & He).
    assert (file_slot e.2 ≠ o) as Hne.
    { intros Heq. apply Hi. apply list_elem_of_fmap. exists e. split; [done|]. by apply list_elem_of_filter. }
    apply (elem_owned (file_slot e.2)). rewrite Hother by done.
    apply list_elem_of_fmap. exists e. split; [done|]. by apply list_elem_of_filter.
Qed.

Lemma lookup_slots_lt fs A i s : rep fs A → slots fs !! N.to_nat i = Some s → i < U32_MAX.
Proof. intros Hr Hs%vget_lt. pose proof (rep_cap fs A Hr). lia. Qed.

Lemma list_alter_insert {A} (f : A → A) (l : list A) i x :
  l !! i = Some x → alter f i l = <[i := f x]> l.
Proof.
  intros Hx. apply list_eq. intros j. destruct (decide (i = j)) as [->|].
  - rewrite list_lookup_alter_eq, Hx, list_lookup_insert_eq by by eapply lookup_lt_Some. done.
  - by rewrite list_lookup_alter_ne, list_lookup_insert_ne.
Qed.

(** The stores of [insert], on the slots alone. *)
Definition inserted (ss : list FileSlot) (l : list (N * T)) (i : N) (v : T) : list FileSlot :=
  let ss := <[N.to_nat i := mkFileSlot (link i) (or_self i (head_link l 0)) (Some v)]> ss in
  match l with
  | [] => ss
  | (h, _) :: _ => alter (with_previous (link i)) (N.to_nat h) ss
  end.

Lemma inserted_seg ss l i v s :
  ss !! N.to_nat i = Some s → i ∉ l.*1 → NoDup l.*1 → seg ss 0 l 0 →
  seg (inserted ss l i v) 0 ((i, v) :: l) 0 ∧
  ∀ j, j ≠ i → j ∉ l.*1 → inserted ss l i v !! N.to_nat j = ss !! N.to_nat j.
Proof.
  intros Hs Hi Hd Hseg. pose proof (lookup_lt_Some _ _ _ Hs) as Hlt.
  destruct l as [|[h w] l]; simpl.
  - split; [split; [|done]|].
    + unfold node. simpl. by rewrite list_lookup_insert_eq.
    + intros j Hj _. by rewrite list_lookup_insert_ne by lia.
  - simpl in Hi. assert (i ≠ h) as Hih by set_solver. apply NoDup_cons in Hd as [Hh Hd].
    destruct Hseg as [Hnode Hseg]. split; [split; [|split]|].
    + unfold node. simpl. rewrite list_lookup_alter_ne by lia. by rewrite list_lookup_insert_eq.
    + unfold node in *. simpl in *. rewrite list_lookup_alter_eq, list_lookup_insert_ne, Hnode by lia.
      simpl. by rewrite (or_self_ne h (link i)) by apply link_ne_0.
    + apply (seg_ext ss); [|done]. intros j Hj.
      rewrite list_lookup_alter_ne, list_lookup_insert_ne; [done|..]; assert (j ≠ h) by set_solver;
        assert (j ≠ i) by set_solver; lia.
    + intros j Hj Hjl. rewrite list_lookup_alter_ne, list_lookup_insert_ne by (assert (j ≠ h) by set_solver; lia). done.
Qed.

Lemma slots_insert_ok fs A i v s :
  rep fs A → slots fs !! N.to_nat i = Some s → next s = 0 → file_slot v < vlen (heads fs) →
  ∃ fs', insert fs i v = Done fs' ∧ rep fs' ((i, v) :: A) ∧
    length (slots fs') = length (slots fs) ∧ length (heads fs') = length (heads fs).
Proof.
  intros Hr Hs Hn Ho. pose proof (rep_vacant fs A i s Hr Hs Hn) as Hi. set (o := file_slot v) in *.
  destruct (rep_chain fs A Hr _ Ho) as [Hh Hseg].
  assert (i ∉ (owned o A).*1) as Hio by by apply owned_sub.
  assert (owned o ((i, v) :: A) = (i, v) :: owned o A) as Hown
    by (unfold owned; by rewrite filter_cons_True).
  destruct (inserted_seg (slots fs) (owned o A) i v s) as [Hnew Hsame]; try done.
  { apply owned_nodup, Hr. }
  set (ss' := inserted (slots fs) (owned o A) i v) in *.
  assert (length ss' = length (slots fs)) as Hlen.
  { unfold ss', inserted. destruct (owned o A) as [|[]]; rewrite ?length_alter; apply length_insert. }
  exists (mkFileSlots ss' (<[N.to_nat o := link i]> (heads fs))). split_and!.
  - unfold insert. rewrite (proj2 (vget_Done _ _ _) Hs). mred. unfold is_none. rewrite Hn. mred.
    rewrite from_index_ok by by eapply lookup_slots_lt. mred. fold o.
    rewrite (proj2 (vget_Done _ _ _) Hh). mred. rewrite (set_slot_ok _ _ _ s Hs). mred.
    unfold ss', inserted in *. destruct (owned o A) as [|[h w] l]; simpl head_link in *.
    + change (link_index 0) with (@None N). mred. by rewrite set_head_ok.
    + rewrite link_index_link. mred. simpl slots. assert (i ≠ h) as Hih by set_solver.
      destruct Hseg as [Hnode _]. unfold node in Hnode. simpl in Hnode.
      assert (<[N.to_nat i := mkFileSlot (link i) (link h) (Some v)]> (slots fs) !! N.to_nat h =
        Some (mkFileSlot (link h) (or_self h (head_link l 0)) (Some w))) as Hhd.
      { rewrite list_lookup_insert_ne by lia. exact Hnode. }
      rewrite (proj2 (vget_Done _ _ _) Hhd). mred. simpl previous. rewrite N.eqb_refl. mred.
      rewrite (set_slot_ok (mkFileSlots _ _) _ _ _ Hhd). mred. rewrite set_head_ok by done. simpl.
      rewrite (or_self_ne i (link h)) by apply link_ne_0. by rewrite (list_alter_insert _ _ _ _ Hhd).
  - replace (link i) with (head_link (owned o ((i, v) :: A)) 0) by by rewrite Hown.
    apply (rep_rebuild fs A); try done.
    + simpl. apply NoDup_cons. split; [done|apply Hr].
    + intros e [->|He]%elem_of_cons; [done|by apply Hr].
    + by rewrite Hown.
    + intros o' Ho'. unfold owned. by rewrite filter_cons_False.
    + intros j Hj1. rewrite Hown. simpl. intros Hj2. apply Hsame; set_solver.
    + intros j sj Hj1. rewrite Hown. simpl. set_solver.
  - done.
  - simpl. apply length_insert.
Qed.

(** The stores of [remove] between the chain parts [l1] and [l2]. *)
Definition cut_before (ss : list FileSlot) (l1 l2 : list (N * T)) : list FileSlot :=
  match last l1 with
  | None => ss
  | Some (b, _) => alter (with_next (or_self b (head_link l2 0))) (N.to_nat b) ss
  end.
Definition cut_after (ss : list FileSlot) (l1 l2 : list (N * T)) : list FileSlot :=
  match l2 with
  | [] => ss
  | (a, _) :: _ => alter (with_previous (or_self a (last_link 0 l1))) (N.to_nat a) ss
  end.
Definition removed (ss : list FileSlot) (l1 l2 : list (N * T)) (i : N) : list FileSlot :=
  alter (with_previous 0) (N.to_nat i) (alter (with_next 0) (N.to_nat i)
    (cut_after (cut_before ss l1 l2) l1 l2)).

Lemma cut_before_ne ss l1 l2 j :
  j ∉ l1.*1 → cut_before ss l1 l2 !! N.to_nat j = ss !! N.to_nat j.
Proof.
  intros Hj. unfold cut_before. destruct (last l1) as [[b w]|] eqn:E; [|done].
  apply last_Some in E as [l ->]. rewrite list_lookup_alter_ne; [done|].
  rewrite fmap_app in Hj. assert (j ≠ b) by set_solver. lia.
Qed.

Lemma cut_after_ne ss l1 l2 j :
  j ∉ l2.*1 → cut_after ss l1 l2 !! N.to_nat j = ss !! N.to_nat j.
Proof.
  intros Hj. unfold cut_after. destruct l2 as [|[a w] l2]; [done|].
  rewrite list_lookup_alter_ne; [done|]. assert (j ≠ a) by set_solver. lia.
Qed.

Lemma cut_before_seg ss l1 l2 nx :
  NoDup l1.*1 → seg ss 0 l1 nx → seg (cut_before ss l1 l2) 0 l1 (head_link l2 0).
Proof.
  intros Hd Hs. unfold cut_before. destruct (last l1) as [[b w]|] eqn:E.
  - apply last_Some in E as [l ->]. rewrite fmap_app in Hd. apply NoDup_app in Hd as (_ & Hd & _).
    pose proof Hs as [_ [Hn _]]%seg_app. unfold node in Hn. simpl in Hn.
    rewrite (list_alter_insert _ _ _ _ Hn). apply seg_set_last with nx; [|done..].
    intros Hb. apply (Hd b); [done|]. simpl. set_solver.
  - apply last_None in E as ->. done.
Qed.

Lemma cut_after_seg ss l1 l2 pv :
  NoDup l2.*1 → seg ss pv l2 0 → seg (cut_after ss l1 l2) (last_link 0 l1) l2 0.
Proof.
  intros Hd Hs. destruct l2 as [|[a w] l2]; [done|]. apply NoDup_cons in Hd as [Ha _].
  pose proof Hs as [Hn _]. unfold node in Hn. simpl in Hn.
  unfold cut_after. rewrite (list_alter_insert _ _ _ _ Hn). by apply seg_set_head with pv.
Qed.

Lemma removed_seg ss l1 l2 i v :
  NoDup (l1 ++ (i, v) :: l2).*1 → seg ss 0 (l1 ++ (i, v) :: l2) 0 →
  seg (removed ss l1 l2 i) 0 (l1 ++ l2) 0 ∧
  ∀ j, j ∉ (l1 ++ (i, v) :: l2).*1 → removed ss l1 l2 i !! N.to_nat j = ss !! N.to_nat j.
Proof.
  rewrite fmap_app. simpl. intros (Hd1 & H12 & [Hi Hd2]%NoDup_cons)%NoDup_app (Hs1 & _ & Hs2)%seg_app.
  assert (∀ j, j ≠ i → removed ss l1 l2 i !! N.to_nat j =
    cut_after (cut_before ss l1 l2) l1 l2 !! N.to_nat j) as Hne.
  { intros j Hj. unfold removed. by rewrite !list_lookup_alter_ne by lia. }
  split.
  - apply seg_app. split.
    + apply (seg_ext (cut_before ss l1 l2)); [|by eapply cut_before_seg].
      intros j Hj. specialize (H12 j Hj). rewrite Hne, cut_after_ne by set_solver. done.
    + apply (seg_ext (cut_after (cut_before ss l1 l2) l1 l2)).
      * intros j Hj. apply Hne. set_solver.
      * eapply cut_after_seg; [done|]. eapply seg_ext; [|exact Hs2].
        intros j Hj. apply cut_before_ne. intros Hj1. apply (H12 j Hj1). set_solver.
  - intros j Hj. rewrite Hne, cut_after_ne, cut_before_ne by set_solver. done.
Qed.

Lemma removed_slot ss l1 l2 i v s :
  NoDup (l1 ++ (i, v) :: l2).*1 → ss !! N.to_nat i = Some s →
  removed ss l1 l2 i !! N.to_nat i = Some (mkFileSlot 0 0 (value s)).
Proof.
  rewrite fmap_app. simpl. intros (_ & H12 & [Hi _]%NoDup_cons)%NoDup_app Hs.
  unfold removed. rewrite !list_lookup_alter_eq, cut_after_ne, cut_before_ne, Hs; [done| |done].
  intros Hj. apply (H12 i Hj). set_solver.
Qed.

(** What [remove] computes is the same stores. *)
Lemma link_eqb i j : i ≠ j → (link i =? link j) = false.
Proof. intros. apply N.eqb_neq. unfold link. lia. Qed.

Lemma unlink_previous_eq fs o l1 l2 i v :
  o < vlen (heads fs) →
  heads fs !! N.to_nat o = Some (head_link (l1 ++ (i, v) :: l2) 0) →
  NoDup (l1 ++ (i, v) :: l2).*1 → seg (slots fs) 0 (l1 ++ (i, v) :: l2) 0 →
  unlink_previous fs o (link i) (or_self i (last_link 0 l1)) (or_self i (head_link l2 0)) =
  Done (mkFileSlots (cut_before (slots fs) l1 l2)
    (<[N.to_nat o := head_link (l1 ++ l2) 0]> (heads fs))).
Proof.
  intros Ho Hh Hd (Hs1 & _ & _)%seg_app. simpl in Hs1. rewrite fmap_app in Hd. simpl in Hd.
  apply NoDup_app in Hd as (Hd1 & H12 & [Hi2 Hd2]%NoDup_cons). unfold unlink_previous.
  assert ((if or_self i (head_link l2 0) =? link i then 0 else or_self i (head_link l2 0)) =
    head_link l2 0) as Hnx.
  { destruct l2 as [|[a w] l2]; simpl; [unfold or_self; simpl; by rewrite N.eqb_refl|].
    rewrite (or_self_ne i (link a)) by apply link_ne_0. rewrite link_eqb by set_solver. done. }
  destruct l1 as [|[b wb] l1 _] using rev_ind.
  - unfold last_link. simpl last. change (or_self i 0) with (link i). rewrite N.eqb_refl.
    change (head_link ([] ++ (i, v) :: l2) 0) with (link i) in Hh.
    rewrite (proj2 (vget_Done _ _ _) Hh). mred. rewrite N.eqb_refl. mred.
    transitivity (set_head fs o (head_link l2 0)); [f_equal; exact Hnx|]. by rewrite set_head_ok.
  - rewrite fmap_app in H12. assert (b ≠ i) as Hbi.
    { intros ->. apply (H12 i); set_solver. }
    unfold last_link, cut_before. rewrite last_snoc.
    rewrite (or_self_ne i (link b)), link_eqb, link_index_link by (done || apply link_ne_0). mred.
    apply seg_app in Hs1 as [_ [Hn _]]. unfold node in Hn. simpl in Hn.
    rewrite (proj2 (vget_Done _ _ _) Hn). mred. simpl next.
    rewrite (or_self_ne b (link i)), N.eqb_refl by apply link_ne_0. mred.
    rewrite (set_slot_ok _ _ _ _ Hn), (list_alter_insert _ _ _ _ Hn).
    assert (<[N.to_nat o := head_link ((l1 ++ [(b, wb)]) ++ l2) 0]> (heads fs) = heads fs) as ->.
    { apply list_insert_id. rewrite Hh. by destruct l1 as [|[]]. }
    do 5 f_equal. destruct l2 as [|[a w] l2]; simpl; [unfold or_self; simpl; by rewrite N.eqb_refl|].
    rewrite (or_self_ne i (link a)), (or_self_ne b (link a)), link_eqb by (apply link_ne_0 || set_solver).
    done.
Qed.

Lemma unlink_next_eq fs l1 l2 i v :
  NoDup (l1 ++ (i, v) :: l2).*1 → seg (slots fs) (link i) l2 0 →
  unlink_next fs (link i) (or_self i (last_link 0 l1)) (or_self i (head_link l2 0)) =
  Done (mkFileSlots (cut_after (slots fs) l1 l2) (heads fs)).
Proof.
  rewrite fmap_app. simpl. intros (Hd1 & H12 & [Hi2 Hd2]%NoDup_cons)%NoDup_app Hs2.
  unfold unlink_next. destruct l2 as [|[a w] l2]; simpl head_link.
  - change (or_self i 0) with (link i). rewrite N.eqb_refl. simpl. by destruct fs.
  - assert (a ≠ i) by set_solver. rewrite (or_self_ne i (link a)), link_eqb by (done || apply link_ne_0).
    rewrite link_index_link. simpl negb. mred. destruct Hs2 as [Hn _]. unfold node in Hn. simpl in Hn.
    rewrite (proj2 (vget_Done _ _ _) Hn). mred. simpl previous.
    rewrite (or_self_ne a (link i)), N.eqb_refl by apply link_ne_0. mred.
    rewrite (set_slot_ok _ _ _ _ Hn). unfold cut_after. rewrite (list_alter_insert _ _ _ _ Hn).
    do 5 f_equal. destruct l1 as [|[b wb] l1 _] using rev_ind; simpl.
    + unfold last_link. simpl last. change (or_self i 0) with (link i). by rewrite N.eqb_refl.
    + unfold last_link. rewrite last_snoc. rewrite fmap_app in H12.
      assert (b ≠ i) as Hbi by (intros ->; apply (H12 i); set_solver).
      rewrite (or_self_ne i (link b)), (or_self_ne a (link b)), link_eqb by (done || apply link_ne_0).
      done.
Qed.

Lemma slot_get_vacant s : next s = 0 → slot_get s = Done None.
Proof. unfold slot_get. by intros ->. Qed.

Lemma slot_get_node p i q v : slot_get (mkFileSlot p (or_self i q) (Some v)) = Done (Some v).
Proof.
  unfold slot_get, link_index. simpl. pose proof (or_self_nz i q).
  by rewrite (proj2 (checked_sub_Some _ _ (or_self i q - 1))) by lia.
Qed.

Lemma remove_eq fs l1 l2 i v :
  i < U32_MAX → file_slot v < vlen (heads fs) →
  heads fs !! N.to_nat (file_slot v) = Some (head_link (l1 ++ (i, v) :: l2) 0) →
  NoDup (l1 ++ (i, v) :: l2).*1 → seg (slots fs) 0 (l1 ++ (i, v) :: l2) 0 →
  remove fs i = Done (mkFileSlots (removed (slots fs) l1 l2 i)
    (<[N.to_nat (file_slot v) := head_link (l1 ++ l2) 0]> (heads fs))).
Proof.
  intros Hlt Ho Hh Hd Hseg. pose proof Hseg as (Hs1 & Hn & Hs2)%seg_app.
  unfold node in Hn. simpl in Hn, Hs2.
  unfold remove. rewrite (proj2 (vget_Done _ _ _) Hn). mred. rewrite slot_get_node. mred.
  rewrite from_index_ok by done. mred. simpl previous. simpl next.
  rewrite (unlink_previous_eq fs _ l1 l2 i v) by done. mred.
  set (fs1 := mkFileSlots _ _).
  assert (slots fs1 !! N.to_nat i = slots fs !! N.to_nat i) as Hi1.
  { apply cut_before_ne. rewrite fmap_app in Hd. simpl in Hd. apply NoDup_app in Hd as (_ & H12 & _).
    intros Hi. apply (H12 i Hi). set_solver. }
  rewrite (unlink_next_eq fs1 l1 l2 i v); [|done|].
  2: { eapply seg_ext; [|exact Hs2]. intros j Hj. apply cut_before_ne.
       rewrite fmap_app in Hd. simpl in Hd. apply NoDup_app in Hd as (_ & H12 & _).
       intros Hj1. apply (H12 j Hj1). set_solver. }
  mred. set (fs2 := mkFileSlots _ _).
  assert (slots fs2 !! N.to_nat i = slots fs !! N.to_nat i) as Hi2.
  { rewrite <- Hi1. apply cut_after_ne. rewrite fmap_app in Hd. simpl in Hd.
    by apply NoDup_app in Hd as (_ & _ & [? _]%NoDup_cons). }
  rewrite Hn in Hi2. rewrite (set_slot_ok _ _ _ _ Hi2). mred.
  set (ss3 := <[N.to_nat i := _]> (slots fs2)).
  assert (ss3 !! N.to_nat i = Some (with_next 0 (mkFileSlot (or_self i (last_link 0 l1))
    (or_self i (head_link l2 0)) (Some v)))) as Hi3.
  { apply list_lookup_insert_eq. by eapply lookup_lt_Some. }
  rewrite (set_slot_ok (mkFileSlots ss3 _) _ _ _ Hi3). mred. simpl slots.
  rewrite (proj2 (vget_Done _ _ _) (list_lookup_insert_eq _ _ _ (lookup_lt_Some _ _ _ Hi3))). mred.
  simpl. unfold removed. change (cut_after (cut_before (slots fs) l1 l2) l1 l2) with (slots fs2).
  rewrite (list_alter_insert (with_next 0) _ _ _ Hi2).
  fold ss3. by rewrite (list_alter_insert (with_previous 0) _ _ _ Hi3).
Qed.

(** Forgetting one index in the list of entries. *)
Definition without (i : N) (A : list (N * T)) : list (N * T) := filter (λ e, e.1 ≠ i) A.

Lemma owned_without o i A : owned o (without i A) = without i (owned o A).
Proof.
  unfold owned, without. rewrite !list_filter_filter. apply list_filter_iff. intros e. tauto.
Qed.

Lemma without_id i (A : list (N * T)) : i ∉ A.*1 → without i A = A.
Proof.
  intros Hi. apply filter_all. intros e He Heq. apply Hi. apply list_elem_of_fmap. eauto.
Qed.

Lemma without_middle i v l1 l2 :
  NoDup (l1 ++ (i, v) :: l2).*1 → without i (l1 ++ (i, v) :: l2) = l1 ++ l2.
Proof.
  rewrite fmap_app. simpl. intros (_ & H12 & [Hi2 _]%NoDup_cons)%NoDup_app.
  unfold without. rewrite filter_app, filter_cons_False by (simpl; tauto).
  fold (without i l1). fold (without i l2). rewrite !without_id; [done|done|].
  intros Hi. apply (H12 i Hi). set_solver.
Qed.

Lemma slots_remove_ok fs A i v :
  rep fs A → (i, v) ∈ A →
  ∃ fs', remove fs i = Done fs' ∧ rep fs' (without i A) ∧
    length (slots fs') = length (slots fs) ∧ length (heads fs') = length (heads fs).
Proof.
  intros Hr Hin. set (o := file_slot v).
  assert (o < vlen (heads fs)) as Ho by (apply (rep_owner _ _ Hr _ Hin)).
  destruct (rep_chain fs A Hr o Ho) as [Hh Hseg].
  assert ((i, v) ∈ owned o A) as (l1 & l2 & Heq)%list_elem_of_split by by apply list_elem_of_filter.
  pose proof (owned_nodup o A (rep_nodup _ _ Hr)) as Hd. rewrite Heq in Hd, Hseg, Hh.
  destruct (rep_node fs A (i, v) Hr Hin) as (p & q & Hn). unfold node in Hn. simpl in Hn.
  assert (owned o (without i A) = l1 ++ l2) as Hown.
  { rewrite owned_without, Heq. by apply without_middle. }
  eexists. split; [apply (remove_eq fs l1 l2 i v); try done; by eapply lookup_slots_lt|].
  fold o. rewrite <- Hown.
  assert (length (removed (slots fs) l1 l2 i) = length (slots fs)) as Hlen.
  { unfold removed, cut_after, cut_before. rewrite !length_alter.
    destruct l2 as [|[]], (last l1) as [[]|]; rewrite ?length_alter; done. }
  split_and!; [|done|simpl; apply length_insert].
  destruct (removed_seg (slots fs) l1 l2 i v Hd Hseg) as [Hseg' Hsame].
  apply (rep_rebuild fs A); try done.
  - eapply sublist_NoDup; [apply (rep_nodup _ _ Hr)|]. apply fmap_sublist, sublist_filter.
  - intros e [_ He]%list_elem_of_filter. by apply Hr.
  - by rewrite Hown.
  - intros o' Ho'. rewrite owned_without. apply without_id.
    apply (owned_disjoint o); [apply Hr|done|]. rewrite Heq, fmap_app. set_solver.
  - intros j Hj _. apply Hsame. by rewrite <- Heq.
  - intros j sj. rewrite Heq, Hown, !fmap_app. simpl. intros Hj Hnj Hsj.
    assert (j = i) as -> by set_solver. rewrite (removed_slot _ _ _ _ _ _ Hd Hn) in Hsj. by simplify_eq.
Qed.

(** ** Traversal *)

Lemma walk_ok fs o pv l n :
  seg (slots fs) pv l 0 → NoDup l.*1 → Forall (λ e, file_slot e.2 = o) l → (length l ≤ n)%nat →
  walk fs o (head_link l 0) n = Done l.
Proof.
  revert pv n. induction l as [|[i v] l IH]; intros pv n Hs Hd Ho Hn; [by destruct n|].
  destruct n as [|n]; simpl in Hn; [lia|]. destruct Hs as [Hnode Hs]. unfold node in Hnode. simpl in *.
  apply NoDup_cons in Hd as [Hi Hd]. apply Forall_cons in Ho as [Ho Hf]. simpl in Ho.
  rewrite link_index_link, (proj2 (vget_Done _ _ _) Hnode). mred. rewrite slot_get_node. mred.
  rewrite Ho, N.eqb_refl. mred. simpl next.
  assert ((if or_self i (head_link l 0) =? link i then 0 else or_self i (head_link l 0)) =
    head_link l 0) as Hnx.
  { destruct l as [|[a w] l]; simpl; [unfold or_self; simpl; by rewrite N.eqb_refl|].
    rewrite (or_self_ne i (link a)), link_eqb by (apply link_ne_0 || set_solver). done. }
  transitivity (rest ← walk fs o (head_link l 0) n; Done ((i, v) :: rest)).
  { do 2 f_equal. exact Hnx. }
  by rewrite (IH (link i) n) by (done || lia).
Qed.

Lemma for_file_ok fs A o :
  rep fs A → o < vlen (heads fs) → for_file fs o = Done (owned o A).
Proof.
  intros Hr Ho. destruct (rep_chain fs A Hr o Ho) as [Hh Hs]. unfold for_file.
  rewrite (proj2 (vget_Done _ _ _) Hh). mred. eapply walk_ok; [done|apply owned_nodup, Hr| |].
  - apply Forall_forall. by intros e [? _]%list_elem_of_filter.
  - rewrite <- (length_fmap fst). apply NoDup_bounded; [apply owned_nodup, Hr|].
    intros i (e & -> & He)%list_elem_of_fmap. apply (seg_node _ _ _ _ _ Hs) in He as (p & q & Hn).
    unfold node in Hn. apply lookup_lt_Some in Hn. lia.
Qed.

Lemma try_new_ok cap fcap :
  0 < cap → cap ≤ U32_MAX →
  ∃ fs, try_new cap fcap = Done fs ∧ rep fs [] ∧
    length (slots fs) = N.to_nat cap ∧ length (heads fs) = N.to_nat fcap.
Proof.
  intros Hpos Hmax. unfold try_new. rewrite assertb_true by by apply N.ltb_lt. mred.
  eexists. split; [done|]. simpl. rewrite !length_replicate. split_and!; [|done..].
  split; simpl; unfold vlen; rewrite ?length_replicate.
  - lia.
  - constructor.
  - by intros e ?%elem_of_nil.
  - intros o Ho. split; [|done]. apply lookup_replicate. split; [done|lia].
  - intros i s [-> _]%lookup_replicate. done.
Qed.

(** ** Writing a payload in place *)

Definition update (i : N) (f : T → T) (A : list (N * T)) : list (N * T) :=
  (λ e : N * T, if decide (e.1 = i) then (e.1, f e.2) else e) <$> A.

Lemma update_fst i f A : (update i f A).*1 = A.*1.
Proof. unfold update. rewrite <- list_fmap_compose. apply list_fmap_ext. intros j [k v] _. simpl. by case_decide. Qed.

Lemma update_elem i f A e :
  e ∈ update i f A ↔ (e.1 ≠ i ∧ e ∈ A) ∨ (∃ v, e = (i, f v) ∧ (i, v) ∈ A).
Proof.
  unfold update. rewrite list_elem_of_fmap. split.
  - intros ([j v] & -> & Hin). simpl. case_decide as Hj; [right|left; done]. subst. eauto.
  - intros [[Hne Hin]|(v & -> & Hin)].
    + exists e. split; [|done]. by rewrite decide_False.
    + exists (i, v). simpl. by rewrite decide_True.
Qed.

Lemma update_cons i f j v A :
  update i f ((j, v) :: A) = (j, if decide (j = i) then f v else v) :: update i f A.
Proof. unfold update. rewrite fmap_cons. simpl. f_equal. by case_decide. Qed.

Lemma owned_update o i f A :
  (∀ v, (i, v) ∈ A → file_slot (f v) = file_slot v) → owned o (update i f A) = update i f (owned o A).
Proof.
  induction A as [|[j v] A IH]; intros Hf; [done|].
  specialize (IH ltac:(intros w Hw; apply Hf; set_solver)). rewrite update_cons. unfold owned in *.
  assert (file_slot (if decide (j = i) then f v else v) = file_slot v) as Hv.
  { case_decide; [subst; apply Hf; set_solver|done]. }
  destruct (decide (file_slot v = o)) as [Ho|Ho].
  - rewrite !filter_cons_True by (simpl; congruence). by rewrite update_cons, IH.
  - rewrite !filter_cons_False by (simpl; congruence). done.
Qed.

Lemma head_link_update i f l nx : head_link (update i f l) nx = head_link l nx.
Proof. destruct l as [|[j v] l]; simpl; [done|]. by case_decide. Qed.

(** The payload store leaves every link as it was. *)
Definition payload_stored (ss : list FileSlot) (i : N) (v : T) : list FileSlot :=
  alter (λ s, mkFileSlot (previous s) (next s) (Some v)) (N.to_nat i) ss.

Lemma seg_update ss pv l nx i f v :
  NoDup l.*1 → (∀ w, (i, w) ∈ l → w = v) → seg ss pv l nx →
  seg (payload_stored ss i (f v)) pv (update i f l) nx.
Proof.
  unfold payload_stored. revert pv. induction l as [|[j w] l IH]; intros pv Hd Hw Hs; [done|].
  apply NoDup_cons in Hd as [Hj Hd]. destruct Hs as [Hn Hs].
  specialize (IH (link j) Hd ltac:(intros u Hu; apply Hw; set_solver) Hs).
  simpl. rewrite head_link_update. unfold node in *. simpl in *. case_decide as Hji; simpl.
  - subst j. assert (w = v) as -> by (apply Hw; set_solver).
    split; [|done]. by rewrite list_lookup_alter_eq, Hn.
  - split; [|done]. by rewrite list_lookup_alter_ne by lia.
Qed.

Lemma modify_ok fs A i v f :
  rep fs A → (i, v) ∈ A → file_slot (f v) = file_slot v →
  ∃ fs', modify fs i f = Done fs' ∧ rep fs' (update i f A) ∧
    length (slots fs') = length (slots fs) ∧ length (heads fs') = length (heads fs).
Proof.
  intros Hr Hin Hf. destruct (rep_node fs A _ Hr Hin) as (p & q & Hn). unfold node in Hn. simpl in Hn.
  assert (∀ w, (i, w) ∈ A → w = v) as Huniq.
  { intros w Hw. pose proof (fst_inj A (i, w) (i, v) (rep_nodup _ _ Hr) Hw Hin eq_refl). congruence. }
  exists (mkFileSlots (payload_stored (slots fs) i (f v)) (heads fs)). split_and!.
  - unfold modify. rewrite (proj2 (vget_Done _ _ _) Hn). mred. rewrite slot_get_node. mred.
    rewrite (set_slot_ok _ _ _ _ Hn). unfold payload_stored. by rewrite (list_alter_insert _ _ _ _ Hn).
  - split; simpl.
    + unfold vlen, payload_stored. rewrite length_alter. apply Hr.
    + rewrite update_fst. apply Hr.
    + intros e [[_ He]|(w & -> & Hw)]%update_elem; [by apply Hr|]. simpl. rewrite (Huniq w Hw), Hf.
      apply (rep_owner _ _ Hr _ Hin).
    + intros o Ho. rewrite owned_update by (intros w Hw; by rewrite (Huniq w Hw)).
      rewrite head_link_update. destruct (rep_chain _ _ Hr o Ho) as [Hh Hs]. split; [done|].
      apply seg_update; [apply owned_nodup, Hr| |done].
      intros w [_ Hw]%list_elem_of_filter. by apply Huniq.
    + intros j s. rewrite update_fst. unfold payload_stored.
      destruct (decide (j = i)) as [->|Hne].
      * intros _ _. apply list_elem_of_fmap. by exists (i, v).
      * rewrite list_lookup_alter_ne by lia. apply Hr.
  - unfold payload_stored. simpl. apply length_alter.
  - done.
Qed.

Lemma rep_free_slot fs A i :
  rep fs A → (N.to_nat i < length (slots fs))%nat → i ∉ A.*1 →
  ∃ s, slots fs !! N.to_nat i = Some s ∧ next s = 0.
Proof.
  intros Hr Hlt Hi. destruct (lookup_lt_is_Some_2 _ _ Hlt) as [s Hs]. exists s. split; [done|].
  destruct (N.eq_dec (next s) 0) as [|Hn]; [done|]. by destruct Hi; eapply Hr.
Qed.

Lemma rep_slot fs A i :
  rep fs A → (N.to_nat i < length (slots fs))%nat →
  ∃ s, slots fs !! N.to_nat i = Some s ∧
    (((i ∉ A.*1) ∧ next s = 0) ∨ ∃ v, (i, v) ∈ A ∧ next s ≠ 0 ∧ slot_get s = Done (Some v)).
Proof.
  intros Hr Hlt. destruct (decide (i ∈ A.*1)) as [([j v] & -> & Hin)%list_elem_of_fmap|Hn].
  - destruct (rep_node fs A _ Hr Hin) as (p & q & Hnode). unfold node in Hnode. simpl in Hnode.
    eexists. split; [exact Hnode|]. right. exists v. split; [done|]. split; [apply or_self_nz|].
    apply slot_get_node.
  - destruct (rep_free_slot fs A i Hr Hlt Hn) as (s & Hs & H0). eauto.
Qed.

(** Reading an entry. *)
Lemma get_at_ok fs A i :
  rep fs A → (N.to_nat i < length (slots fs))%nat →
  ((i ∉ A.*1) ∧ get_at fs i = Done None) ∨ ∃ v, (i, v) ∈ A ∧ get_at fs i = Done (Some v).
Proof.
  intros Hr Hlt. unfold get_at. destruct (rep_slot fs A i Hr Hlt) as (s & Hs & Hd).
  rewrite (proj2 (vget_Done _ _ _) Hs). mred. destruct Hd as [[Hn H0]|(v & Hin & _ & Hg)]; [left|right].
  - split; [done|]. unfold slot_get. by rewrite H0.
  - by exists v.
Qed.

(** ** Operation sequences *)

Inductive slot_op := Insert (index : N) (v : T) | Remove (index : N).

Fixpoint run_slots (fs : FileSlots) (ops : list slot_op) : outcome FileSlots :=
  match ops with
  | [] => Done fs
  | Insert i v :: ops => fs ← insert fs i v; run_slots fs ops
  | Remove i :: ops => fs ← remove fs i; run_slots fs ops
  end.

(** The specification: the live entries, newest first. *)
Definition entries_step (A : list (N * T)) (op : slot_op) : list (N * T) :=
  match op with Insert i v => (i, v) :: A | Remove i => without i A end.

Definition admissible (cap fcap : N) (A : list (N * T)) (op : slot_op) : bool :=
  match op with
  | Insert i v => (i <? cap) && negb (bool_decide (i ∈ A.*1)) && (file_slot v <? fcap)
  | Remove i => bool_decide (i ∈ A.*1)
  end.

Fixpoint admissible_all (cap fcap : N) (A : list (N * T)) (ops : list slot_op) : bool :=
  match ops with
  | [] => true
  | op :: ops => admissible cap fcap A op && admissible_all cap fcap (entries_step A op) ops
  end.

Lemma run_slots_ok cap fcap fs A ops :
  rep fs A → length (slots fs) = N.to_nat cap → length (heads fs) = N.to_nat fcap →
  admissible_all cap fcap A ops = true →
  ∃ fs', run_slots fs ops = Done fs' ∧ rep fs' (foldl entries_step A ops) ∧
    length (slots fs') = N.to_nat cap ∧ length (heads fs') = N.to_nat fcap.
Proof.
  revert fs A. induction ops as [|op ops IH]; intros fs A Hr Hc Hf Hadm; [by eauto|].
  simpl in Hadm. apply andb_true_iff in Hadm as [Hop Hadm]. destruct op as [i v|i]; simpl in *.
  - apply andb_true_iff in Hop as [[Hi Hn]%andb_true_iff Ho]. reflect_bools.
    destruct (rep_free_slot fs A i Hr) as (s & Hs & Hs0); [lia|done|].
    destruct (slots_insert_ok fs A i v s) as (fs' & -> & Hr' & Hc' & Hf'); try done; [unfold vlen; lia|].
    mred. apply IH; [done|congruence..|done].
  - apply bool_decide_eq_true in Hop as ([j v] & -> & Hin)%list_elem_of_fmap.
    destruct (slots_remove_ok fs A j v Hr Hin) as (fs' & Heq & Hr' & Hc' & Hf'). simpl in *. rewrite Heq.
    mred. apply IH; [done|congruence..|done].
Qed.

(** (membership refinement).  Run any sequence of insertions into vacant slots
    and removals of occupied ones on fresh slots.  No link assertion fails, and
    afterwards [for_file] enumerates exactly the live entries that the file owns,
    newest first, for every file; a slot reads occupied iff an entry lives there. *)
Theorem file_slots_membership cap fcap ops :
  0 < cap → cap ≤ U32_MAX → admissible_all cap fcap [] ops = true →
  ∃ fs0 fs, try_new cap fcap = Done fs0 ∧ run_slots fs0 ops = Done fs ∧
    (∀ o, o < fcap → for_file fs o = Done (owned o (foldl entries_step [] ops))) ∧
    (∀ i, i < cap → ∃ s, slots fs !! N.to_nat i = Some s ∧
       is_none s = negb (bool_decide (i ∈ (foldl entries_step [] ops).*1))).
Proof.
  intros Hpos Hmax Hadm. destruct (try_new_ok cap fcap Hpos Hmax) as (fs0 & H0 & Hr0 & Hc0 & Hf0).
  destruct (run_slots_ok cap fcap fs0 [] ops Hr0 Hc0 Hf0 Hadm) as (fs & Hrun & Hr & Hc & Hf).
  exists fs0, fs. split_and!; [done..| |].
  - intros o Ho. apply for_file_ok; [done|]. unfold vlen. lia.
  - intros i Hi. destruct (rep_slot fs _ i Hr) as (s & Hs & Hd); [lia|]. exists s. split; [done|].
    unfold is_none. destruct Hd as [[Hn ->]|(v & Hin & Hnz & _)].
    + by rewrite bool_decide_eq_false_2.
    + rewrite bool_decide_eq_true_2 by (apply list_elem_of_fmap; by exists (i, v)).
      by apply N.eqb_neq.
Qed.

(** (Misuse is caught).  In every represented state an insertion into an
    occupied slot and a removal from a vacant slot panic before any link is
    written. *)
Theorem file_slots_misuse_panics fs A i v :
  rep fs A → i < vlen (slots fs) →
  (if decide (i ∈ A.*1) then insert fs i v else remove fs i) = Panic.
Proof.
  intros Hr Hlt. destruct (rep_slot fs A i Hr) as (s & Hs & Hd); [unfold vlen in Hlt; lia|]. case_decide as Hi.
  - destruct Hd as [[? _]|(w & _ & Hn & _)]; [done|]. unfold insert.
    rewrite (proj2 (vget_Done _ _ _) Hs). mred. unfold is_none.
    by rewrite (proj2 (N.eqb_neq _ _) Hn).
  - destruct Hd as [[_ H0]|(w & Hin & _)].
    + unfold remove. rewrite (proj2 (vget_Done _ _ _) Hs). mred. unfold slot_get. by rewrite H0.
    + destruct Hi. apply list_elem_of_fmap. by exists (i, w).
Qed.
End slots.
Arguments FileSlot : clear implicits.
Arguments FileSlots : clear implicits.
End FileSlots.

(** ** Mapped frames by file

    src/src/pool/frame_pages.rs: the payload is the owning file slot alone. *)
Module FramePages.

Record FrameFileSlot := mkFrameFileSlot { ffs_slot : N }.

Definition for_page (page : PageId) : FrameFileSlot := mkFrameFileSlot (fid_slot (pg_file page)).

#[global] Instance FrameFileSlot_owned : FileOwned FrameFileSlot := ffs_slot.

Definition FramePages : Type := FileSlots.FileSlots FrameFileSlot.
End FramePages.

Module FileSlotsWitness.
Import FileSlots FramePages.

Definition demo_ops : list (slot_op (T := FrameFileSlot)) :=
  let a := mkFrameFileSlot 0 in let b := mkFrameFileSlot 1 in
  [Insert 2 a; Insert 0 b; Insert 3 a; Insert 1 a; Remove 3; Insert 3 b; Remove 2].

Lemma file_slots_membership_witness :
  ∃ fs0 fs, try_new 4 2 = Done fs0 ∧ run_slots fs0 demo_ops = Done fs ∧
    for_file fs 0 = Done [(1, mkFrameFileSlot 0)] ∧
    for_file fs 1 = Done [(3, mkFrameFileSlot 1); (0, mkFrameFileSlot 1)].
Proof.
  destruct (file_slots_membership 4 2 demo_ops) as (fs0 & fs & H0 & Hr & Hf & _);
    [done|done|vm_compute; reflexivity|].
  exists fs0, fs. split_and!; [done|done|exact (Hf 0 eq_refl)|exact (Hf 1 eq_refl)].
Defined.

Lemma file_slots_misuse_panics_witness :
  insert (mkFileSlots [mkFileSlot 1 1 (Some (mkFrameFileSlot 0))] [1]) 0 (mkFrameFileSlot 0) = Panic.
Proof.
  apply (file_slots_misuse_panics _ [(0, mkFrameFileSlot 0)] 0 (mkFrameFileSlot 0)); [|done].
  split; simpl.
  - done.
  - apply NoDup_singleton.
  - by intros e ->%list_elem_of_singleton.
  - intros o Ho. assert (o = 0) as -> by (unfold vlen in Ho; simpl in Ho; lia). by repeat split.
  - intros i s Hs _. apply lookup_lt_Some in Hs. simpl in Hs. apply list_elem_of_singleton. lia.
Defined.
End FileSlotsWitness.
