(* ===== verification/Miss.v ===== *)
(** * Singleflight misses and waiter interest

    Models src/src/pool/miss.rs: [MissInterests] counts the waiters of each miss
    slot under a generation, [MissTable] keeps one entry per missing page, the
    compact index of the pending ones, and the frames that successful entries
    protect.  [MissSystem] puts the tokens of the waiters beside the table.  The
    theorems: the pending index mirrors the pending entries, a page has at most
    one pending entry, the waiter count of an entry is the number of live tokens
    that name it, a live token always names its own entry, and a frame whose
    successful entry still has waiters is never given up for eviction. *)
From stdpp Require Import prelude list relations.
From Stdlib Require Import NArith ZArith Lia.
From S2P Require Import Prelude Ids FileSlots.

Open Scope N_scope.

Module Miss.

(** ** Waiter interest *)

Record MissInterest := mkMissInterest {
  mi_generation : N;
  mi_waiters : N;
}.

Abbreviation MissInterests := (list MissInterest).

Inductive InitialInterest := Speculative | Demand.

Definition initial_waiters (i : InitialInterest) : N :=
  match i with Speculative => 0 | Demand => 1 end.

Definition interests_with_capacity (capacity : N) : MissInterests :=
  replicate (N.to_nat capacity) (mkMissInterest 0 0).

Definition begin_initial (ints : MissInterests) (slot : N) (initial : InitialInterest) :
    outcome (MissInterests * N) :=
  interest ← vget ints slot;
  assertb (mi_waiters interest =? 0);;
  generation ← expect (checked_add U64_MAX (mi_generation interest) 1);
  assertb (negb (generation =? 0));;
  ints ← vset ints slot (mkMissInterest generation (initial_waiters initial));
  Done (ints, generation).

Definition interest_join (ints : MissInterests) (slot generation : N) : outcome MissInterests :=
  interest ← vget ints slot;
  assertb (mi_generation interest =? generation);;
  waiters ← expect (checked_add U32_MAX (mi_waiters interest) 1);
  vset ints slot (mkMissInterest (mi_generation interest) waiters).

Definition release (ints : MissInterests) (slot generation : N) : outcome (MissInterests * N) :=
  interest ← vget ints slot;
  assertb (mi_generation interest =? generation);;
  remaining ← expect (checked_sub (mi_waiters interest) 1);
  ints ← vset ints slot (mkMissInterest (mi_generation interest) remaining);
  Done (ints, remaining).

Definition waiters (ints : MissInterests) (slot generation : N) : outcome (option N) :=
  interest ← vget ints slot;
  Done (if mi_generation interest =? generation then Some (mi_waiters interest) else None).

(** ** The table *)

Inductive MissOutcome := Pending | Failed (errno : Z) | Succeeded.

#[global] Instance MissOutcome_eq_dec : EqDecision MissOutcome.
Proof. solve_decision. Defined.

Record MissEntry := mkMissEntry {
  me_page : PageId;
  me_frame : ReadFrameIdx;
  me_token : OpToken;
  me_generation : N;
  me_filled : N;
  me_pending_position : N;
  me_outcome : MissOutcome;
}.

#[global] Instance MissEntry_owned : FileOwned MissEntry := λ e, fid_slot (pg_file (me_page e)).

Definition set_outcome (o : MissOutcome) (e : MissEntry) : MissEntry :=
  mkMissEntry (me_page e) (me_frame e) (me_token e) (me_generation e) (me_filled e)
    (me_pending_position e) o.
Definition set_position (p : N) (e : MissEntry) : MissEntry :=
  mkMissEntry (me_page e) (me_frame e) (me_token e) (me_generation e) (me_filled e)
    p (me_outcome e).
Definition set_read (filled : N) (token : OpToken) (e : MissEntry) : MissEntry :=
  mkMissEntry (me_page e) (me_frame e) token (me_generation e) filled
    (me_pending_position e) (me_outcome e).

Record PendingMiss := mkPendingMiss {
  pm_page : PageId;
  pm_token : OpToken;
  pm_slot : N;
}.

#[global] Instance PendingMiss_eq_dec : EqDecision PendingMiss.
Proof. unfold OpToken. solve_decision. Defined.

Record MissTable := mkMissTable {
  slots : FileSlots.FileSlots MissEntry;
  success_frames : list (option (N * N));
  pending : list (option PendingMiss);
  pending_len : N;
}.

Definition with_slots (t : MissTable) (s : FileSlots.FileSlots MissEntry) : MissTable :=
  mkMissTable s (success_frames t) (pending t) (pending_len t).
Definition with_success (t : MissTable) (s : list (option (N * N))) : MissTable :=
  mkMissTable (slots t) s (pending t) (pending_len t).
Definition with_pending (t : MissTable) (p : list (option PendingMiss)) (n : N) : MissTable :=
  mkMissTable (slots t) (success_frames t) p n.

Definition try_with_capacity (capacity pending_capacity file_capacity : N) : outcome MissTable :=
  assertb (pending_capacity <=? capacity);;
  s ← FileSlots.try_new capacity file_capacity;
  Done (mkMissTable s (replicate (N.to_nat capacity) None)
          (replicate (N.to_nat pending_capacity) None) 0).

Definition entry (t : MissTable) (index : N) : outcome MissEntry :=
  e ← FileSlots.get_at (slots t) index; expect e.

(** [slots.iter().enumerate().find_map(..)]: the first slot that satisfies [p]. *)
Fixpoint first_slot (p : N → option MissEntry → outcome bool)
    (ss : list (FileSlots.FileSlot MissEntry)) (i : N) : outcome (option N) :=
  match ss with
  | [] => Done None
  | s :: ss =>
      e ← FileSlots.slot_get s;
      b ← p i e;
      if b : bool then Done (Some i) else first_slot p ss (i + 1)
  end.

Definition pending_live (t : MissTable) : outcome (list (option PendingMiss)) :=
  assertb (pending_len t <=? vlen (pending t));;
  Done (take (N.to_nat (pending_len t)) (pending t)).

Definition pending_find (p : PendingMiss → bool) (l : list (option PendingMiss)) : option N :=
  pm_slot <$> head (List.filter p (omap id l)).

Definition find_pending (t : MissTable) (page : PageId) : outcome (option N) :=
  live ← pending_live t;
  let found := pending_find (λ pm, bool_decide (pm_page pm = page)) live in
  mirror ← first_slot (λ _ e, Done (match e with
      | Some e => bool_decide (me_page e = page) && bool_decide (me_outcome e = Pending)
      | None => false end)) (FileSlots.slots (slots t)) 0;
  assertb (bool_decide (found = mirror));;
  Done found.

Definition find_by_token (t : MissTable) (token : OpToken) : outcome (option N) :=
  live ← pending_live t;
  Done (pending_find (λ pm, pm_token pm =? token) live).

Definition pending_position (t : MissTable) (slot : N) : outcome N :=
  e ← entry t slot;
  let position := me_pending_position e in
  pm ← vget (pending t) position;
  pm ← expect pm;
  assertb (pm_slot pm =? slot);;
  Done position.

Definition pending_push (t : MissTable) (pm : PendingMiss) : outcome MissTable :=
  let index := pending_len t in
  assertb (index <? vlen (pending t));;
  tail ← vget (pending t) index;
  assertb (bool_decide (tail = None));;
  p ← vset (pending t) index (Some pm);
  n ← add_ U32_MAX (pending_len t) 1;
  Done (with_pending t p n).

Definition pending_remove (t : MissTable) (slot : N) : outcome MissTable :=
  index ← pending_position t slot;
  last ← sub_ (pending_len t) 1;
  moved ← vget (pending t) last;
  p ← vset (pending t) last None;
  let t := with_pending t p (pending_len t) in
  t ← (if index <? last then
         p ← vset (pending t) index moved;
         moved ← expect moved;
         s ← FileSlots.modify (slots t) (pm_slot moved) (set_position index);
         Done (with_slots (with_pending t p (pending_len t)) s)
       else Done t);
  tail ← vget (pending t) last;
  assertb (bool_decide (tail = None));;
  Done (with_pending t (pending t) last).

(** The slot is empty, or holds a terminal entry nobody waits for. *)
Definition reusable (ints : MissInterests) (i : N) (e : option MissEntry) : outcome bool :=
  match e with
  | None => Done true
  | Some e =>
      if bool_decide (me_outcome e ≠ Pending) then
        w ← waiters ints i (me_generation e); Done (bool_decide (w = Some 0))
      else Done false
  end.

Definition admission_slot (t : MissTable) (ints : MissInterests) : outcome (option N) :=
  first_slot (reusable ints) (FileSlots.slots (slots t)) 0.

(** [admission_slots]: the first [want] reusable slots, and whether there were
    that many. *)
Fixpoint collect_slots (ints : MissInterests) (ss : list (FileSlots.FileSlot MissEntry)) (i : N)
    (want : nat) (acc : list N) : outcome (list N * bool) :=
  match ss with
  | [] => Done (acc, false)
  | s :: ss =>
      e ← FileSlots.slot_get s;
      b ← reusable ints i e;
      if b : bool then
        let acc := acc ++ [i] in
        if Nat.eqb (length acc) want then Done (acc, true)
        else collect_slots ints ss (i + 1) want acc
      else collect_slots ints ss (i + 1) want acc
  end.
Definition admission_slots (t : MissTable) (ints : MissInterests) (want : N) :
    outcome (list N * bool) :=
  assertb (0 <? want);;
  collect_slots ints (FileSlots.slots (slots t)) 0 (N.to_nat want) [].

Definition clean_terminal_zero (t : MissTable) (slot generation : N) (ints : MissInterests) :
    outcome MissTable :=
  e ← FileSlots.get_at (slots t) slot;
  match e with
  | None => Done t
  | Some e =>
      clean ← (if (me_generation e =? generation) && bool_decide (me_outcome e ≠ Pending) then
                 w ← waiters ints slot generation; Done (bool_decide (w = Some 0))
               else Done false);
      if clean : bool then
        t ← (if bool_decide (me_outcome e = Succeeded) then
               p ← vget (success_frames t) (me_frame e);
               assertb (bool_decide (p = Some (slot, generation)));;
               s ← vset (success_frames t) (me_frame e) None;
               Done (with_success t s)
             else Done t);
        s ← FileSlots.remove (slots t) slot;
        Done (with_slots t s)
      else Done t
  end.

Definition admit_initial (t : MissTable) (slot : N) (page : PageId) (frame : ReadFrameIdx)
    (token : OpToken) (ints : MissInterests) (initial : InitialInterest) :
    outcome (MissTable * MissInterests * N) :=
  assertb (negb (bool_decide (FileSlots.slots (slots t) = [])));;
  dup ← find_pending t page;
  assertb (bool_decide (dup = None));;
  previous ← FileSlots.get_at (slots t) slot;
  t ← match previous with
      | Some previous => clean_terminal_zero t slot (me_generation previous) ints
      | None => Done t
      end;
  s ← vget (FileSlots.slots (slots t)) slot;
  assertb (FileSlots.is_none s);;
  '(ints, generation) ← begin_initial ints slot initial;
  let e := mkMissEntry page frame token generation 0 (pending_len t) Pending in
  s ← FileSlots.insert (slots t) slot e;
  t ← pending_push (with_slots t s) (mkPendingMiss page token slot);
  Done (t, ints, generation).

(** [MissTable::admit]. *)
Definition admit_demand t slot page frame token ints := admit_initial t slot page frame token ints Demand.
Definition admit_speculative t slot page frame token ints :=
  admit_initial t slot page frame token ints Speculative.

Definition join (t : MissTable) (index : N) (ints : MissInterests) :
    outcome (MissInterests * (N * N)) :=
  e ← entry t index;
  assertb (bool_decide (me_outcome e = Pending));;
  ints ← interest_join ints index (me_generation e);
  Done (ints, (index, me_generation e)).

Definition advance_remainder (t : MissTable) (index filled : N) (token : OpToken) :
    outcome MissTable :=
  e ← entry t index;
  assertb (bool_decide (me_outcome e = Pending));;
  s ← FileSlots.modify (slots t) index (set_read filled token);
  let t := with_slots t s in
  position ← pending_position t index;
  pm ← vget (pending t) position;
  pm ← expect pm;
  p ← vset (pending t) position (Some (mkPendingMiss (pm_page pm) token (pm_slot pm)));
  Done (with_pending t p (pending_len t)).

Definition fail (t : MissTable) (index : N) (errno : Z) : outcome MissTable :=
  e ← entry t index;
  assertb (negb (errno =? 0)%Z);;
  assertb (bool_decide (me_outcome e = Pending));;
  s ← FileSlots.modify (slots t) index (set_outcome (Failed errno));
  pending_remove (with_slots t s) index.

Definition succeed (t : MissTable) (index : N) : outcome MissTable :=
  e ← entry t index;
  assertb (bool_decide (me_outcome e = Pending));;
  s ← FileSlots.modify (slots t) index (set_outcome Succeeded);
  t ← pending_remove (with_slots t s) index;
  p ← vget (success_frames t) (me_frame e);
  assertb (bool_decide (p = None));;
  f ← vset (success_frames t) (me_frame e) (Some (index, me_generation e));
  Done (with_success t f).

Definition validate (t : MissTable) (slot generation : N) (page : PageId) : outcome MissEntry :=
  e ← FileSlots.get_at (slots t) slot;
  e ← expect e;
  assertb (me_generation e =? generation);;
  assertb (bool_decide (me_page e = page));;
  Done e.

Definition prepare_eviction (t : MissTable) (frame : ReadFrameIdx) (ints : MissInterests) :
    outcome (MissTable * bool) :=
  p ← vget (success_frames t) frame;
  match p with
  | None => Done (t, true)
  | Some (slot, generation) =>
      w ← waiters ints slot generation;
      if bool_decide (w ≠ Some 0) then Done (t, false)
      else
        t ← clean_terminal_zero t slot generation ints;
        p ← vget (success_frames t) frame;
        assertb (bool_decide (p = None));;
        Done (t, true)
  end.

(** [for_file(file).any(..)]: later entries are not examined after a match. *)
Fixpoint any_live (file : FileId) (ints : MissInterests) (l : list (N * MissEntry)) : outcome bool :=
  match l with
  | [] => Done false
  | (index, e) :: l =>
      live ← (if bool_decide (pg_file (me_page e) = file) then
                if bool_decide (me_outcome e = Pending) then Done true
                else w ← waiters ints index (me_generation e); Done (bool_decide (w ≠ Some 0))
              else Done false);
      if live : bool then Done true else any_live file ints l
  end.
Definition has_live_for_file (t : MissTable) (file : FileId) (ints : MissInterests) : outcome bool :=
  l ← FileSlots.for_file (slots t) (fid_slot file);
  any_live file ints l.

(** ** The table invariant

    [A] are the live entries by slot; the pending index, the protected frames and
    the slots themselves are views of it. *)

Definition entries : Type := list (N * MissEntry).

Definition index_of (i : N) (e : MissEntry) : PendingMiss :=
  mkPendingMiss (me_page e) (me_token e) i.

(** A frame belongs to an entry that is pending or succeeded. *)
Definition holds_frame (e : MissEntry) : Prop := me_outcome e = Pending ∨ me_outcome e = Succeeded.

(** The pending index, [A] apart from positions and vacancy. *)
Record index_inv (t : MissTable) (A : entries) : Prop := {
  ix_len : pending_len t ≤ vlen (pending t);
  ix_bound : vlen (pending t) ≤ U32_MAX;
  ix_prefix : ∀ k, k < vlen (pending t) →
    (k < pending_len t ↔ ∃ pm, pending t !! N.to_nat k = Some (Some pm));
  ix_entry : ∀ k pm, pending t !! N.to_nat k = Some (Some pm) →
    ∃ e, (pm_slot pm, e) ∈ A ∧ me_outcome e = Pending ∧ me_pending_position e = k ∧
      pm = index_of (pm_slot pm) e;
  ix_pending : ∀ i e, (i, e) ∈ A → me_outcome e = Pending →
    pending t !! N.to_nat (me_pending_position e) = Some (Some (index_of i e));
}.

Record table_inv (t : MissTable) (A : entries) : Prop := {
  ti_rep : FileSlots.rep (slots t) A;
  ti_index : index_inv t A;
  ti_single : ∀ i j e e', (i, e) ∈ A → (j, e') ∈ A → me_outcome e = Pending →
    me_outcome e' = Pending → me_page e = me_page e' → i = j;
  ti_frames : ∀ i j e e', (i, e) ∈ A → (j, e') ∈ A → holds_frame e → holds_frame e' →
    me_frame e = me_frame e' → i = j;
  ti_success : ∀ f i g, success_frames t !! N.to_nat f = Some (Some (i, g)) ↔
    ∃ e, (i, e) ∈ A ∧ me_outcome e = Succeeded ∧ me_frame e = f ∧ me_generation e = g;
  ti_range : ∀ i e, (i, e) ∈ A → me_frame e < vlen (success_frames t);
}.

Lemma entry_uniq fs (A : entries) i e e' : FileSlots.rep fs A → (i, e) ∈ A → (i, e') ∈ A → e = e'.
Proof.
  intros Hr H1 H2. pose proof (FileSlots.fst_inj A (i, e) (i, e') (FileSlots.rep_nodup _ _ Hr) H1 H2 eq_refl).
  congruence.
Qed.

Lemma elem_lt fs (A : entries) i e :
  FileSlots.rep fs A → (i, e) ∈ A → (N.to_nat i < length (FileSlots.slots fs))%nat.
Proof.
  intros Hr Hin. destruct (FileSlots.rep_node fs A _ Hr Hin) as (p & q & Hn).
  unfold FileSlots.node in Hn. by eapply lookup_lt_Some.
Qed.

Lemma get_at_elem fs (A : entries) i e :
  FileSlots.rep fs A → (i, e) ∈ A → FileSlots.get_at fs i = Done (Some e).
Proof.
  intros Hr Hin. destruct (FileSlots.get_at_ok fs A i Hr) as [[Hn _]|(v & Hv & ->)].
  - by eapply elem_lt.
  - destruct Hn. apply list_elem_of_fmap. by exists (i, e).
  - by rewrite (entry_uniq fs A i v e Hr Hv Hin).
Qed.

Lemma entry_ok t A i e : FileSlots.rep (slots t) A → (i, e) ∈ A → entry t i = Done e.
Proof. intros Hr Hin. unfold entry. by rewrite (get_at_elem _ _ _ _ Hr Hin). Qed.

Lemma entry_elem t A i e :
  FileSlots.rep (slots t) A → (N.to_nat i < length (FileSlots.slots (slots t)))%nat →
  FileSlots.get_at (slots t) i = Done (Some e) → (i, e) ∈ A.
Proof.
  intros Hr Hlt Hg. destruct (FileSlots.get_at_ok _ A i Hr Hlt) as [[_ H]|(v & Hv & H)]; congruence.
Qed.

(** ** Searching the slots and the index *)

Lemma first_slot_spec p (q : N → option MissEntry → bool) ss i :
  (∀ k s, ss !! k = Some s → ∃ o, FileSlots.slot_get s = Done o ∧
     p (i + N.of_nat k) o = Done (q (i + N.of_nat k) o)) →
  (∃ k s o, first_slot p ss i = Done (Some (i + N.of_nat k)) ∧ ss !! k = Some s ∧
     FileSlots.slot_get s = Done o ∧ q (i + N.of_nat k) o = true) ∨
  (first_slot p ss i = Done None ∧
   ∀ k s o, ss !! k = Some s → FileSlots.slot_get s = Done o → q (i + N.of_nat k) o = false).
Proof.
  revert i. induction ss as [|s ss IH]; intros i H; simpl.
  { right. split; [done|]. intros k s o. by rewrite lookup_nil. }
  destruct (H 0%nat s eq_refl) as (o & Ho & Hp). rewrite N.add_0_r in Hp. rewrite Ho. mred.
  rewrite Hp. mred. destruct (q i o) eqn:Hq.
  { left. exists 0%nat, s, o. rewrite N.add_0_r. done. }
  destruct (IH (i + 1)) as [(k & s' & o' & Hf & Hs & Ho' & Hq')|[Hf Hall]].
  { intros k s' Hs. destruct (H (S k) s' Hs) as (o' & ? & ?). exists o'.
    replace (i + 1 + N.of_nat k) with (i + N.of_nat (S k)) by lia. done. }
  - left. exists (S k), s', o'. replace (i + N.of_nat (S k)) with (i + 1 + N.of_nat k) by lia. done.
  - right. split; [done|]. intros [|k] s' o' Hs Ho'.
    + simplify_eq/=. rewrite N.add_0_r. congruence.
    + replace (i + N.of_nat (S k)) with (i + 1 + N.of_nat k) by lia. eauto.
Qed.

(** The first slot whose entry satisfies a total test, in terms of the entries. *)
Lemma first_slot_entries p q fs (A : entries) :
  FileSlots.rep fs A →
  (∀ i o, (N.to_nat i < length (FileSlots.slots fs))%nat →
     match o with Some e => (i, e) ∈ A | None => i ∉ A.*1 end → p i o = Done (q i o)) →
  (∃ i o, first_slot p (FileSlots.slots fs) 0 = Done (Some i) ∧ q i o = true ∧
     (N.to_nat i < length (FileSlots.slots fs))%nat ∧
     match o with Some e => (i, e) ∈ A | None => i ∉ A.*1 end) ∨
  (first_slot p (FileSlots.slots fs) 0 = Done None ∧ ∀ i e, (i, e) ∈ A → q i (Some e) = false).
Proof.
  intros Hr Hp.
  assert (∀ k s o, FileSlots.slots fs !! k = Some s → FileSlots.slot_get s = Done o →
    match o with Some e => (N.of_nat k, e) ∈ A | None => N.of_nat k ∉ A.*1 end) as Hget.
  { intros k s o Hs Ho. destruct (FileSlots.rep_slot fs A (N.of_nat k) Hr) as (s' & Hs' & Hd).
    { rewrite Nat2N.id. by eapply lookup_lt_Some. }
    rewrite Nat2N.id in Hs'. simplify_eq. destruct Hd as [[Hn H0]|(v & Hv & _ & Hg)].
    - rewrite (FileSlots.slot_get_vacant _ H0) in Ho. by simplify_eq.
    - rewrite Hg in Ho. by simplify_eq. }
  destruct (first_slot_spec p q (FileSlots.slots fs) 0) as [(k & s & o & Hf & Hs & Ho & Hq)|[Hf Hall]].
  - intros k s Hs. destruct (FileSlots.rep_slot fs A (N.of_nat k) Hr) as (s' & Hs' & Hd).
    { rewrite Nat2N.id. by eapply lookup_lt_Some. }
    rewrite Nat2N.id in Hs'. simplify_eq. rewrite N.add_0_l.
    assert (∃ o, FileSlots.slot_get s = Done o) as [o Ho].
    { destruct Hd as [[_ H0]|(v & _ & _ & Hg)]; [exists None|by exists (Some v)].
      by apply FileSlots.slot_get_vacant. }
    exists o. split; [done|]. apply Hp; [rewrite Nat2N.id; by eapply lookup_lt_Some|by eapply Hget].
  - left. exists (N.of_nat k), o. rewrite N.add_0_l in *. split_and!; [done|done| |by eapply Hget].
    rewrite Nat2N.id. by eapply lookup_lt_Some.
  - right. split; [done|]. intros i e Hin. pose proof (elem_lt _ _ _ _ Hr Hin) as Hlt.
    destruct (lookup_lt_is_Some_2 _ _ Hlt) as [s Hs].
    pose proof (get_at_elem _ _ _ _ Hr Hin) as Hg. unfold FileSlots.get_at in Hg.
    rewrite (proj2 (vget_Done _ _ _) Hs) in Hg. mred in Hg.
    specialize (Hall _ _ _ Hs Hg). by rewrite N.add_0_l, N2Nat.id in Hall.
Qed.

Lemma pending_find_spec p l :
  match pending_find p l with
  | Some i => ∃ pm, Some pm ∈ l ∧ p pm = true ∧ pm_slot pm = i
  | None => ∀ pm, Some pm ∈ l → p pm = false
  end.
Proof.
  unfold pending_find. induction l as [|[pm|] l IH]; simpl.
  - by intros pm ?%elem_of_nil.
  - destruct (p pm) eqn:Hp; simpl; [exists pm; set_solver|].
    destruct (pm_slot <$> head _) as [i|].
    + destruct IH as (pm' & Hin & ? & ?). exists pm'. set_solver.
    + intros pm' [[= <-]|Hin]%elem_of_cons; auto.
  - destruct (pm_slot <$> head _) as [i|].
    + destruct IH as (pm' & Hin & ? & ?). exists pm'. set_solver.
    + intros pm' [[=]|Hin]%elem_of_cons. auto.
Qed.

Lemma pending_live_ok t A :
  index_inv t A →
  ∃ l, pending_live t = Done l ∧
    ∀ pm, Some pm ∈ l ↔ ∃ e, (pm_slot pm, e) ∈ A ∧ me_outcome e = Pending ∧ pm = index_of (pm_slot pm) e.
Proof.
  intros [Hlen Hb Hpre Hent Hpend]. unfold pending_live.
  rewrite assertb_true by by apply N.leb_le. mred. eexists. split; [done|]. intros pm. split.
  - intros [k Hk]%list_elem_of_lookup. apply lookup_take_Some in Hk as [Hk _].
    destruct (Hent (N.of_nat k) pm) as (e & ? & ? & _ & ?); [by rewrite Nat2N.id|]. eauto.
  - intros (e & Hin & Hp & Heq). specialize (Hpend _ _ Hin Hp). rewrite <- Heq in Hpend.
    apply list_elem_of_lookup. exists (N.to_nat (me_pending_position e)). apply lookup_take_Some.
    split; [done|]. assert (me_pending_position e < pending_len t); [|lia].
    apply Hpre; [|eauto]. by eapply vget_lt.
Qed.

Lemma find_by_token_ok t A token :
  index_inv t A →
  ∃ o, find_by_token t token = Done o ∧
    match o with
    | Some i => ∃ e, (i, e) ∈ A ∧ me_outcome e = Pending ∧ me_token e = token
    | None => ∀ i e, (i, e) ∈ A → me_outcome e = Pending → me_token e ≠ token
    end.
Proof.
  intros Hi. unfold find_by_token. destruct (pending_live_ok t A Hi) as (l & -> & Hl). mred.
  eexists. split; [done|]. pose proof (pending_find_spec (λ pm, pm_token pm =? token) l) as Hspec.
  destruct (pending_find _ _) as [i|].
  - destruct Hspec as (pm & (e & Hin & Hp & Heq)%Hl & Ht%N.eqb_eq & <-). exists e.
    rewrite Heq in Ht. done.
  - intros i e Hin Hp Ht. specialize (Hspec (index_of i e)). simpl in Hspec.
    rewrite Ht, N.eqb_refl in Hspec. discriminate Hspec. apply Hl. simpl. eauto.
Qed.

Lemma find_pending_ok t A page :
  table_inv t A →
  ∃ o, find_pending t page = Done o ∧
    match o with
    | Some i => ∃ e, (i, e) ∈ A ∧ me_outcome e = Pending ∧ me_page e = page
    | None => ∀ i e, (i, e) ∈ A → me_outcome e = Pending → me_page e ≠ page
    end.
Proof.
  intros [Hr Hi Hs _ _ _]. unfold find_pending. destruct (pending_live_ok t A Hi) as (l & -> & Hl). mred.
  pose proof (pending_find_spec (λ pm, bool_decide (pm_page pm = page)) l) as Hspec.
  set (test := λ (_ : N) (e : option MissEntry), match e with
      | Some e => bool_decide (me_page e = page) && bool_decide (me_outcome e = Pending)
      | None => false end).
  destruct (first_slot_entries (λ i e, Done (test i e)) test (slots t) A Hr) as
    [(i & o & Hf & Ht & _ & Ho)|[Hf Hnone]]; [by intros|..].
  - change (first_slot _ _ 0) with (first_slot (λ i e, Done (test i e)) (FileSlots.slots (slots t)) 0).
    rewrite Hf. mred. destruct o as [e|]; [|discriminate]. unfold test in Ht.
    apply andb_true_iff in Ht as [Hp%bool_decide_eq_true Hpd%bool_decide_eq_true].
    destruct (pending_find _ _) as [j|].
    + destruct Hspec as (pm & (e' & Hin & Hpd' & Heq)%Hl & Hpg%bool_decide_eq_true & <-).
      rewrite Heq in Hpg. simpl in Hpg.
      assert (pm_slot pm = i) as -> by (eapply Hs; eauto; congruence).
      rewrite bool_decide_eq_true_2 by done. mred. eexists. split; [done|]. by exists e.
    + specialize (Hspec (index_of i e) ltac:(apply Hl; simpl; eauto)). simpl in Hspec.
      by rewrite bool_decide_eq_true_2 in Hspec.
  - change (first_slot _ _ 0) with (first_slot (λ i e, Done (test i e)) (FileSlots.slots (slots t)) 0).
    rewrite Hf. mred. assert (∀ i e, (i, e) ∈ A → me_outcome e = Pending → me_page e ≠ page) as Hno.
    { intros i e Hin Hpd Hpg. specialize (Hnone i e Hin). unfold test in Hnone.
      by rewrite !bool_decide_eq_true_2 in Hnone. }
    destruct (pending_find _ _) as [j|].
    + destruct Hspec as (pm & (e' & Hin & Hpd' & Heq)%Hl & Hpg%bool_decide_eq_true & <-).
      rewrite Heq in Hpg. simpl in Hpg. by destruct (Hno _ _ Hin Hpd').
    + rewrite bool_decide_eq_true_2 by done. mred. eexists. split; [done|]. done.
Qed.

(** ** Leaving the pending index

    [finish o] marks entry [i] terminal, then [pending_remove] fills its place in
    the index with the last pending miss. *)

Lemma update_id i f (A : entries) :
  (∀ e, (i, e) ∈ A → f e = e) → FileSlots.update i f A = A.
Proof.
  intros Hf. unfold FileSlots.update. rewrite <- (list_fmap_id A) at 2. apply list_fmap_ext.
  intros k [j e] Hk. simpl. case_decide as Hj; [|done]. simpl in Hj. subst. rewrite Hf; [done|].
  by eapply list_elem_of_lookup_2.
Qed.

Lemma modify_entry t A i e f :
  FileSlots.rep (slots t) A → (i, e) ∈ A → me_page (f e) = me_page e →
  ∃ s, FileSlots.modify (slots t) i f = Done s ∧ FileSlots.rep s (FileSlots.update i f A) ∧
    length (FileSlots.slots s) = length (FileSlots.slots (slots t)) ∧
    length (FileSlots.heads s) = length (FileSlots.heads (slots t)).
Proof.
  intros Hr Hin Hp. apply (FileSlots.modify_ok _ _ i e f Hr Hin).
  unfold file_slot, MissEntry_owned. by rewrite Hp.
Qed.

(** The entries after the index gave up position [k] of slot [i]. *)
Definition moved_slot (t : MissTable) (i : N) : N :=
  match pending t !! N.to_nat (pending_len t - 1) with
  | Some (Some pm) => pm_slot pm
  | _ => i
  end.

Definition finished (t : MissTable) (A : entries) (i : N) (e : MissEntry) (o : MissOutcome) : entries :=
  FileSlots.update (moved_slot t i) (set_position (me_pending_position e))
    (FileSlots.update i (set_outcome o) A).

Section remove.
Context (t : MissTable) (A : entries) (i : N) (e : MissEntry) (o : MissOutcome).
Hypothesis (Hidx : index_inv t A) (Hin : (i, e) ∈ A) (Hpd : me_outcome e = Pending).
Hypothesis (Ho : o ≠ Pending) (Huniq : ∀ j e1 e2, (j, e1) ∈ A → (j, e2) ∈ A → e1 = e2).
Hypothesis (Hslots : FileSlots.rep (slots t) (FileSlots.update i (set_outcome o) A)).

Local Abbreviation pos := (me_pending_position e).
Local Abbreviation last := (pending_len t - 1).

Lemma remove_bounds : pos < pending_len t ∧ pending_len t ≤ vlen (pending t).
Proof.
  pose proof (ix_pending _ _ Hidx _ _ Hin Hpd) as Hp. split; [|apply Hidx].
  apply (ix_prefix _ _ Hidx); [by eapply vget_lt|eauto].
Qed.

Lemma remove_last :
  ∃ em, pending t !! N.to_nat last = Some (Some (index_of (moved_slot t i) em)) ∧
    (moved_slot t i, em) ∈ A ∧ me_outcome em = Pending ∧ me_pending_position em = last.
Proof.
  destruct remove_bounds as [H1 H2].
  assert (∃ pm, pending t !! N.to_nat last = Some (Some pm)) as [pm Hpm].
  { apply (ix_prefix _ _ Hidx); lia. }
  unfold moved_slot. rewrite Hpm. destruct (ix_entry _ _ Hidx _ _ Hpm) as (em & Hem & Hp & Hk & Heq).
  exists em. rewrite <- Heq. done.
Qed.

Lemma moved_same : moved_slot t i = i ↔ pos = last.
Proof.
  destruct remove_last as (em & _ & Hem & Hp & Hk). split.
  - intros Heq. rewrite Heq in Hem. by rewrite (Huniq i e em Hin Hem).
  - intros Heq. pose proof (ix_pending _ _ Hidx _ _ Hin Hpd) as H1.
    pose proof (ix_pending _ _ Hidx _ _ Hem Hp) as H2. rewrite Hk, <- Heq in H2. unfold index_of in *. congruence.
Qed.

(** Members of the entries afterwards, in terms of those before. *)
Lemma finished_elem j e' :
  (j, e') ∈ finished t A i e o ↔
  ∃ e1, (j, e1) ∈ A ∧
    e' = (if decide (j = moved_slot t i) then set_position pos else id)
           ((if decide (j = i) then set_outcome o else id) e1).
Proof.
  unfold finished. rewrite FileSlots.update_elem. setoid_rewrite FileSlots.update_elem. simpl. split.
  - intros [[Hne [[Hji Hj]|(e1 & [= -> ->] & Hj)]]|(e1 & [= -> ->] & [[Hji Hj]|(e2 & [= Heq ->] & Hj)])].
    + exists e'. by rewrite !decide_False.
    + exists e1. by rewrite decide_False, decide_True.
    + exists e1. by rewrite decide_True, decide_False.
    + exists e2. rewrite Heq. by rewrite !decide_True.
  - intros (e1 & Hj & ->). destruct (decide (j = moved_slot t i)) as [Hm|Hm].
    + right. eexists. split; [by rewrite Hm|]. rewrite <- Hm.
      destruct (decide (j = i)) as [->|]; [right; eauto|by left].
    + left. split; [done|]. destruct (decide (j = i)) as [->|]; [right; eauto|by left].
Qed.

Definition removed_index : list (option PendingMiss) :=
  let p := <[N.to_nat last := None]> (pending t) in
  if pos <? last then
    <[N.to_nat pos := default None (pending t !! N.to_nat last)]> p
  else p.

Lemma removed_index_lookup k :
  k < vlen (pending t) →
  removed_index !! N.to_nat k =
    if decide (k = last) then Some None
    else if decide (k = pos) then pending t !! N.to_nat last
    else pending t !! N.to_nat k.
Proof.
  destruct remove_bounds as [H1 H2]. intros Hk. destruct remove_last as (em & Hl & _).
  unfold removed_index. rewrite Hl. simpl. unfold vlen in *.
  destruct (N.ltb_spec pos last) as [Hlt|Hge]; repeat case_decide; subst;
    rewrite ?list_lookup_insert_ne by lia; rewrite ?list_lookup_insert_eq; rewrite ?length_insert; try done; lia.
Qed.

Lemma removed_length : length removed_index = length (pending t).
Proof. unfold removed_index. destruct (_ <? _); rewrite ?length_insert; done. Qed.

Lemma removed_index_inv s :
  index_inv (mkMissTable s (success_frames t) removed_index last) (finished t A i e o).
Proof.
  destruct remove_bounds as [H1 H2]. destruct remove_last as (em & Hl & Hem & Hpm & Hkm).
  assert (vlen removed_index = vlen (pending t)) as Hlen by (unfold vlen; by rewrite removed_length).
  pose proof Hidx as [_ Hb Hpre Hent Hpend].
  assert (∀ j e1, (j, e1) ∈ A → me_outcome e1 = Pending → me_pending_position e1 = pos → j = i) as Hpos_i.
  { intros j e1 Hj Hp1 Heq. pose proof (Hpend _ _ Hj Hp1) as Ha. pose proof (Hpend _ _ Hin Hpd) as Hb'.
    rewrite Heq in Ha. unfold index_of in *. congruence. }
  assert (∀ j e1, (j, e1) ∈ A → me_outcome e1 = Pending → me_pending_position e1 = last →
    j = moved_slot t i) as Hpos_m.
  { intros j e1 Hj Hp1 Heq. pose proof (Hpend _ _ Hj Hp1) as Ha. rewrite Heq in Ha.
    unfold index_of in *. congruence. }
  split; simpl; rewrite ?Hlen; [lia|done|..].
  - intros k Hk. rewrite (removed_index_lookup k Hk). repeat case_decide; subst.
    + split; [lia|]. intros [pm [=]].
    + split; [intros _; eauto|]. intros _. lia.
    + rewrite <- (Hpre k Hk). lia.
  - intros k pm Hk. assert (k < vlen (pending t)) as Hkv by (rewrite <- Hlen; by eapply vget_lt).
    rewrite (removed_index_lookup k Hkv) in Hk. repeat case_decide; subst; simplify_eq.
    + simpl. exists (set_position pos em). split; [|done].
      apply finished_elem. exists em. split; [done|]. rewrite decide_True by done.
      rewrite decide_False; [done|]. intros Hmi. by apply moved_same in Hmi.
    + destruct (Hent k pm Hk) as (e1 & He1 & Hp1 & Hk1 & Heq). exists e1. split; [|done].
      apply finished_elem. exists e1. split; [done|].
      rewrite !decide_False; [done|..]; intros Heq'.
      * rewrite Heq' in He1. pose proof (Huniq _ _ _ Hin He1). subst e1. congruence.
      * rewrite Heq' in He1. pose proof (Huniq _ _ _ Hem He1). subst e1. congruence.
  - intros j e' (e1 & Hj & ->)%finished_elem Hp'.
    assert (j ≠ i) as Hji.
    { intros ->. rewrite (decide_True _ _ (eq_refl i)) in Hp'. by case_decide. }
    rewrite (decide_False _ _ Hji) in *. simpl in *.
    assert (me_outcome e1 = Pending) as Hp1 by by case_decide.
    case_decide as Hm; simpl in *.
    + subst j. rewrite removed_index_lookup by lia.
      rewrite decide_False by (intros Heq; by apply Hji, moved_same). rewrite decide_True by done.
      rewrite Hl. by rewrite (Huniq _ _ _ Hem Hj).
    + pose proof (Hpend _ _ Hj Hp1) as Hk. rewrite removed_index_lookup by by eapply vget_lt.
      rewrite !decide_False; [done|..]; intros Heq.
      * apply Hji. by eapply Hpos_i.
      * apply Hm. by eapply Hpos_m.
Qed.

Lemma pending_remove_ok :
  ∃ s, pending_remove t i = Done (mkMissTable s (success_frames t) removed_index last) ∧
    FileSlots.rep s (finished t A i e o) ∧
    length (FileSlots.slots s) = length (FileSlots.slots (slots t)) ∧
    length (FileSlots.heads s) = length (FileSlots.heads (slots t)).
Proof.
  destruct remove_bounds as [H1 H2]. destruct remove_last as (em & Hl & Hem & Hpm & Hkm).
  pose proof (ix_pending _ _ Hidx _ _ Hin Hpd) as Hp.
  assert ((i, set_outcome o e) ∈ FileSlots.update i (set_outcome o) A) as Hin1
    by (apply FileSlots.update_elem; right; eauto).
  unfold pending_remove, pending_position. rewrite (entry_ok t _ i _ Hslots Hin1). mred.
  change (me_pending_position (set_outcome o e)) with pos.
  rewrite (proj2 (vget_Done _ _ _) Hp). mred. simpl pm_slot. rewrite N.eqb_refl. mred.
  rewrite sub_ok by lia. mred. rewrite (proj2 (vget_Done _ _ _) Hl). mred.
  rewrite vset_ok by lia. mred. simpl pending.
  assert (vlen (<[N.to_nat last := None]> (pending t)) = vlen (pending t)) as Hv by apply vlen_insert.
  unfold removed_index. rewrite Hl. simpl default.
  destruct (N.ltb_spec pos last) as [Hlt|Hge].
  - rewrite vset_ok by lia. mred.
    assert (moved_slot t i ≠ i) as Hmi by (intros Hmi%moved_same; lia).
    destruct (modify_entry t (FileSlots.update i (set_outcome o) A) (moved_slot t i) em
      (set_position pos) Hslots) as (s & Hs & Hr & Hl1 & Hl2); [|done|].
    { apply FileSlots.update_elem. by left. }
    match goal with |- context [FileSlots.modify ?a ?b ?c] =>
      change (FileSlots.modify a b c) with (FileSlots.modify (slots t) (moved_slot t i) (set_position pos)) end.
    rewrite Hs. mred. simpl pending.
    rewrite (proj2 (vget_Done _ last None)).
    2: { rewrite list_lookup_insert_ne by lia. apply list_lookup_insert_eq. unfold vlen in *. lia. }
    mred. simpl. exists s. done.
  - mred. simpl pending. rewrite (proj2 (vget_Done _ last None)).
    2: { apply list_lookup_insert_eq. unfold vlen in *. lia. }
    mred. simpl. exists (slots t). split_and!; try done.
    unfold finished. assert (moved_slot t i = i) as Hm by (apply moved_same; lia).
    rewrite update_id; [done|]. rewrite Hm. intros e' [[? _]|(e1 & [= ->] & Hj)]%FileSlots.update_elem; [done|].
    rewrite (Huniq _ _ _ Hj Hin). by destruct e.
Qed.

Lemma finished_fields j e' :
  (j, e') ∈ finished t A i e o →
  ∃ e1, (j, e1) ∈ A ∧ me_page e' = me_page e1 ∧ me_frame e' = me_frame e1 ∧
    me_generation e' = me_generation e1 ∧ me_outcome e' = (if decide (j = i) then o else me_outcome e1).
Proof.
  intros (e1 & Hj & ->)%finished_elem. exists e1. by repeat case_decide.
Qed.

Lemma finished_intro j e1 :
  (j, e1) ∈ A → ∃ e', (j, e') ∈ finished t A i e o ∧ me_page e' = me_page e1 ∧
    me_frame e' = me_frame e1 ∧ me_generation e' = me_generation e1 ∧
    me_outcome e' = (if decide (j = i) then o else me_outcome e1).
Proof.
  intros Hj. eexists. split; [apply finished_elem; eauto|]. by repeat case_decide.
Qed.
End remove.

Lemma table_uniq t A : table_inv t A → ∀ j e1 e2, (j, e1) ∈ A → (j, e2) ∈ A → e1 = e2.
Proof. intros [Hr _ _ _ _ _] j e1 e2. by apply entry_uniq with (slots t). Qed.

(** [pending_remove] of an entry that just became terminal. *)
Lemma finish_ok t A i e o :
  table_inv t A → (i, e) ∈ A → me_outcome e = Pending → o ≠ Pending →
  ∃ s s', FileSlots.modify (slots t) i (set_outcome o) = Done s ∧
    pending_remove (with_slots t s) i =
      Done (mkMissTable s' (success_frames t) (removed_index t e) (pending_len t - 1)) ∧
    FileSlots.rep s' (finished t A i e o) ∧
    index_inv (mkMissTable s' (success_frames t) (removed_index t e) (pending_len t - 1))
      (finished t A i e o) ∧
    length (FileSlots.slots s') = length (FileSlots.slots (slots t)) ∧
    length (FileSlots.heads s') = length (FileSlots.heads (slots t)).
Proof.
  intros Hti Hin Hpd Ho. pose proof Hti as [Hr Hidx _ _ _ _]. pose proof (table_uniq t A Hti) as Hu.
  destruct (modify_entry t A i e (set_outcome o) Hr Hin eq_refl) as (s & Hs & Hr1 & Hl1 & Hl2).
  assert (index_inv (with_slots t s) A) as Hidx' by (destruct Hidx; by split).
  destruct (pending_remove_ok (with_slots t s) A i e o Hidx' Hin Hpd Hu Hr1)
    as (s' & Hs' & Hr' & Hl3 & Hl4).
  exists s, s'. split_and!; try done; try (simpl in *; congruence).
  exact (removed_index_inv (with_slots t s) A i e o Hidx' Hin Hpd Ho Hu s').
Qed.

Lemma finished_obs t A i e o sf :
  table_inv t A → (i, e) ∈ A → me_outcome e = Pending → o ≠ Pending →
  vlen sf = vlen (success_frames t) →
  (∀ f j g, sf !! N.to_nat f = Some (Some (j, g)) ↔
     success_frames t !! N.to_nat f = Some (Some (j, g)) ∨
     o = Succeeded ∧ f = me_frame e ∧ j = i ∧ g = me_generation e) →
  ∀ s', FileSlots.rep s' (finished t A i e o) →
  index_inv (mkMissTable s' sf (removed_index t e) (pending_len t - 1)) (finished t A i e o) →
  table_inv (mkMissTable s' sf (removed_index t e) (pending_len t - 1)) (finished t A i e o).
Proof.
  intros Hti Hin Hpd Ho Hlen Hsf s' Hr' Hidx'. pose proof (table_uniq t A Hti) as Hu.
  pose proof Hti as [Hr _ Hsingle Hframes Hsucc Hrange].
  assert (∀ j e', (j, e') ∈ finished t A i e o → ∃ e1, (j, e1) ∈ A ∧ me_page e' = me_page e1 ∧
    me_frame e' = me_frame e1 ∧ me_generation e' = me_generation e1 ∧
    me_outcome e' = (if decide (j = i) then o else me_outcome e1) ∧
    (j = i → e1 = e)) as Hf.
  { intros j e' Hj. destruct (finished_fields t A i e o j e' Hj) as (e1 & H1 & H2).
    exists e1. intuition. subst. by eapply Hu. }
  split; simpl; try done.
  - intros j k e1 e2 (a & Ha & Hp1 & _ & _ & Ho1 & Hi1)%Hf (b & Hb & Hp2 & _ & _ & Ho2 & Hi2)%Hf He1 He2 Hpg.
    rewrite He1 in Ho1. rewrite He2 in Ho2. repeat case_decide; try congruence.
    eapply Hsingle; eauto; congruence.
  - intros j k e1 e2 (a & Ha & _ & Hf1 & _ & Ho1 & Hi1)%Hf (b & Hb & _ & Hf2 & _ & Ho2 & Hi2)%Hf He1 He2 Hfr.
    assert (holds_frame a ∧ holds_frame b) as [? ?]; [|eapply Hframes; eauto; congruence].
    unfold holds_frame in *. rewrite Ho1 in He1. rewrite Ho2 in He2.
    split; [destruct (decide (j = i)) as [E|]; [rewrite (Hi1 E)|]; tauto
           |destruct (decide (k = i)) as [E|]; [rewrite (Hi2 E)|]; tauto].
  - intros f j g. rewrite Hsf, Hsucc. split.
    + intros [(e1 & Hj & Hs & Hfr & Hg)|(-> & -> & -> & ->)].
      * assert (j ≠ i) as Hji by (intros ->; rewrite (Hu _ _ _ Hj Hin) in Hs; congruence).
        destruct (finished_intro t A i e o j e1 Hj) as (e' & He' & _ & H2 & H3 & H4).
        rewrite decide_False in H4 by done. exists e'. split_and!; [done|congruence..].
      * destruct (finished_intro t A i e Succeeded i e Hin) as (e' & He' & _ & H2 & H3 & H4).
        rewrite decide_True in H4 by done. exists e'. done.
    + intros (e' & (e1 & Hj & _ & Hfr' & Hg' & Ho' & Hi')%Hf & Hs & Hfr & Hg).
      rewrite Hs in Ho'. case_decide as Hji.
      * right. rewrite (Hi' Hji) in *. split_and!; congruence.
      * left. exists e1. split_and!; congruence.
  - intros j e' (e1 & Hj & _ & -> & _)%Hf. rewrite Hlen. by eapply Hrange.
Qed.

(** What an operation may do to the entries: the shape of the slots stays. *)
Definition same_shape (t t' : MissTable) : Prop :=
  length (FileSlots.slots (slots t')) = length (FileSlots.slots (slots t)) ∧
  length (FileSlots.heads (slots t')) = length (FileSlots.heads (slots t)) ∧
  vlen (success_frames t') = vlen (success_frames t) ∧ vlen (pending t') = vlen (pending t).

Lemma fail_ok t A i e errno :
  table_inv t A → (i, e) ∈ A → me_outcome e = Pending → errno ≠ 0%Z →
  ∃ t', fail t i errno = Done t' ∧ table_inv t' (finished t A i e (Failed errno)) ∧ same_shape t t'.
Proof.
  intros Hti Hin Hpd Herr. pose proof Hti as [Hr _ _ _ _ _].
  destruct (finish_ok t A i e (Failed errno) Hti Hin Hpd ltac:(done))
    as (s & s' & Hs & Hpr & Hr' & Hi' & Hl1 & Hl2).
  eexists. split; [|split].
  - unfold fail. rewrite (entry_ok t A i e Hr Hin). mred.
    rewrite (assertb_true (negb _)) by by apply negb_true_iff, Z.eqb_neq. mred.
    rewrite bool_decide_eq_true_2 by done. mred. rewrite Hs. mred. exact Hpr.
  - apply finished_obs; try done. intros f j g. split; [by left|]. by intros [|[? _]].
  - split_and!; try done. unfold vlen. simpl. by rewrite removed_length.
Qed.

Lemma succeed_ok t A i e :
  table_inv t A → (i, e) ∈ A → me_outcome e = Pending →
  ∃ t', succeed t i = Done t' ∧ table_inv t' (finished t A i e Succeeded) ∧ same_shape t t'.
Proof.
  intros Hti Hin Hpd. pose proof Hti as [Hr _ _ Hframes Hsucc Hrange].
  destruct (finish_ok t A i e Succeeded Hti Hin Hpd ltac:(done))
    as (s & s' & Hs & Hpr & Hr' & Hi' & Hl1 & Hl2).
  pose proof (Hrange i e Hin) as Hlt.
  assert (success_frames t !! N.to_nat (me_frame e) = Some None) as Hnone.
  { destruct (vget_ok _ _ Hlt) as ([[j g]|] & _ & Hx); [|done].
    pose proof Hx as (e' & Hj & Ho' & Hf' & _)%Hsucc.
    assert (j = i) as -> by (eapply Hframes; eauto; [by right|by left]).
    rewrite (table_uniq t A Hti _ _ _ Hj Hin) in Ho'. congruence. }
  eexists. split; [|split].
  - unfold succeed. rewrite (entry_ok t A i e Hr Hin). mred.
    rewrite bool_decide_eq_true_2 by done. mred. rewrite Hs. mred. rewrite Hpr. mred.
    simpl success_frames. rewrite (proj2 (vget_Done _ _ _) Hnone). mred.
    rewrite bool_decide_eq_true_2 by done. mred. rewrite vset_ok by done. mred. reflexivity.
  - unfold with_success. simpl. apply finished_obs; try done.
    + apply vlen_insert.
    + intros f j g. destruct (decide (f = me_frame e)) as [->|Hne].
      * rewrite list_lookup_insert_eq by (unfold vlen in Hlt; lia). rewrite Hnone. naive_solver.
      * rewrite list_lookup_insert_ne by lia. naive_solver.
    + destruct Hi'. by split.
  - split_and!; simpl; try done; [apply vlen_insert|]. unfold vlen. by rewrite removed_length.
Qed.

(** ** Reslicing *)

Lemma update_fields i (f : MissEntry → MissEntry) (A : entries) j e' :
  (∀ e, me_page (f e) = me_page e ∧ me_frame (f e) = me_frame e ∧
     me_generation (f e) = me_generation e ∧ me_outcome (f e) = me_outcome e) →
  (j, e') ∈ FileSlots.update i f A →
  ∃ e, (j, e) ∈ A ∧ me_page e' = me_page e ∧ me_frame e' = me_frame e ∧
    me_generation e' = me_generation e ∧ me_outcome e' = me_outcome e.
Proof.
  intros Hf [[_ Hj]|(e & [= -> ->] & Hj)]%FileSlots.update_elem; [by exists e'|].
  exists e. destruct (Hf e) as (? & ? & ? & ?). done.
Qed.

Lemma update_intro i (f : MissEntry → MissEntry) (A : entries) j e :
  (j, e) ∈ A → (j, (if decide (j = i) then f else id) e) ∈ FileSlots.update i f A.
Proof.
  intros Hj. apply FileSlots.update_elem. simpl. case_decide as Hji; [right; subst; eauto|by left].
Qed.

Lemma advance_remainder_ok t A i e filled token :
  table_inv t A → (i, e) ∈ A → me_outcome e = Pending →
  ∃ t', advance_remainder t i filled token = Done t' ∧
    table_inv t' (FileSlots.update i (set_read filled token) A) ∧ same_shape t t'.
Proof.
  intros Hti Hin Hpd. pose proof Hti as [Hr Hidx Hsingle Hframes Hsucc Hrange].
  pose proof (table_uniq t A Hti) as Hu. set (A' := FileSlots.update i (set_read filled token) A).
  destruct (modify_entry t A i e (set_read filled token) Hr Hin eq_refl) as (s & Hs & Hr1 & Hl1 & Hl2).
  pose proof Hidx as [H1 H2 Hpre Hent Hpend]. pose proof (Hpend _ _ Hin Hpd) as Hp.
  assert ((i, set_read filled token e) ∈ A') as Hin'.
  { pose proof (update_intro i (set_read filled token) A i e Hin) as H. by rewrite decide_True in H. }
  set (pos := me_pending_position e) in *.
  set (pend' := <[N.to_nat pos := Some (mkPendingMiss (me_page e) token i)]> (pending t)).
  exists (with_pending (with_slots t s) pend' (pending_len t)). split; [|split].
  - unfold advance_remainder. rewrite (entry_ok t A i e Hr Hin). mred.
    rewrite bool_decide_eq_true_2 by done. mred. rewrite Hs. mred. unfold pending_position.
    rewrite (entry_ok (with_slots t s) A' i _ Hr1 Hin'). mred. simpl pending.
    change (me_pending_position (set_read filled token e)) with pos.
    rewrite (proj2 (vget_Done _ _ _) Hp). mred. simpl pm_slot. rewrite N.eqb_refl. mred.
    rewrite (proj2 (vget_Done _ _ _) Hp). mred. rewrite vset_ok by by eapply vget_lt. done.
  - assert (∀ j e', (j, e') ∈ A' → ∃ e1, (j, e1) ∈ A ∧ me_page e' = me_page e1 ∧
      me_frame e' = me_frame e1 ∧ me_generation e' = me_generation e1 ∧
      me_outcome e' = me_outcome e1) as Hf by (intros j e' Hj; eapply (update_fields i (set_read filled token)); [done|exact Hj]).
    assert (vlen pend' = vlen (pending t)) as Hlen by apply vlen_insert.
    assert (N.to_nat pos < length (pending t))%nat as Hlt by by eapply lookup_lt_Some.
    split; simpl; try done.
    + split; simpl; rewrite ?Hlen; try done.
      * intros k Hk. rewrite (Hpre k Hk). unfold pend'. destruct (decide (k = pos)) as [->|Hne].
        { rewrite list_lookup_insert_eq by done. split; intros _; eauto. }
        by rewrite list_lookup_insert_ne by lia.
      * intros k pm. unfold pend'. destruct (decide (k = pos)) as [->|Hne].
        { rewrite list_lookup_insert_eq by done. intros [= <-]. simpl. eexists. split; [exact Hin'|]. done. }
        rewrite list_lookup_insert_ne by lia. intros (e1 & He1 & Hp1 & Hk1 & Heq)%Hent.
        exists e1. split; [|done]. apply FileSlots.update_elem. left. split; [|done].
        simpl. intros Heq'. rewrite Heq' in He1. rewrite (Hu _ _ _ He1 Hin) in Hk1. done.
      * intros j e' [[Hji Hj]|(e1 & [= -> ->] & Hj)]%FileSlots.update_elem Hp'; unfold pend'.
        { rewrite list_lookup_insert_ne; [by apply Hpend|]. intros Heq%N2Nat.inj.
          pose proof (Hpend _ _ Hj Hp') as Hx. rewrite <- Heq in Hx. unfold index_of in *. simpl in *.
          congruence. }
        rewrite (Hu _ _ _ Hj Hin). simpl. by rewrite list_lookup_insert_eq.
    + intros j k e1 e2 (a & Ha & Hpa & _ & _ & Hoa)%Hf (b & Hb & Hpb & _ & _ & Hob)%Hf.
      rewrite Hpa, Hpb, Hoa, Hob. by apply Hsingle.
    + intros j k e1 e2 (a & Ha & _ & Hfa & _ & Hoa)%Hf (b & Hb & _ & Hfb & _ & Hob)%Hf.
      unfold holds_frame. rewrite Hfa, Hfb, Hoa, Hob. by apply Hframes.
    + intros f j g. rewrite Hsucc. split.
      * intros (e1 & Hj & H3). eexists. split; [by apply update_intro|]. by case_decide.
      * intros (e' & (e1 & Hj & _ & Hf1 & Hg1 & Ho1)%Hf & H3). exists e1. rewrite <- Hf1, <- Hg1, <- Ho1. done.
    + intros j e' (e1 & Hj & _ & -> & _)%Hf. by eapply Hrange.
  - split_and!; simpl; try done. unfold pend'. apply vlen_insert.
Qed.

(** ** Cleaning a terminal entry nobody waits for *)

Lemma without_elem i (A : entries) j e : (j, e) ∈ FileSlots.without i A ↔ j ≠ i ∧ (j, e) ∈ A.
Proof. unfold FileSlots.without. by rewrite list_elem_of_filter. Qed.

Lemma without_index t A i e :
  index_inv t A → (∀ e', (i, e') ∈ A → e' = e) → me_outcome e ≠ Pending →
  index_inv t (FileSlots.without i A).
Proof.
  intros [H1 H2 Hpre Hent Hpend] Hu Ho. split; try done.
  - intros k pm (e1 & He1 & Hp1 & Hk)%Hent. exists e1. split; [|done]. apply without_elem.
    split; [|done]. intros Heq. rewrite Heq in He1. rewrite (Hu _ He1) in Hp1. done.
  - intros j e1 [_ Hj]%without_elem. by apply Hpend.
Qed.

Definition clear_success (t : MissTable) (e : MissEntry) : list (option (N * N)) :=
  if bool_decide (me_outcome e = Succeeded) then <[N.to_nat (me_frame e) := None]> (success_frames t)
  else success_frames t.

Lemma clear_success_spec t A i e :
  table_inv t A → (i, e) ∈ A →
  ∀ f j g, clear_success t e !! N.to_nat f = Some (Some (j, g)) ↔
    j ≠ i ∧ success_frames t !! N.to_nat f = Some (Some (j, g)).
Proof.
  intros Hti Hin f j g. pose proof Hti as [Hr _ _ Hframes Hsucc Hrange]. unfold clear_success.
  pose proof (table_uniq t A Hti) as Hu. case_bool_decide as Hs.
  - destruct (decide (f = me_frame e)) as [->|Hne].
    + pose proof (Hrange _ _ Hin) as Hlt. rewrite list_lookup_insert_eq by (unfold vlen in Hlt; lia).
      split; [done|]. intros [Hji (e' & Hj & Ho & Hf & _)%Hsucc]. destruct Hji.
      eapply Hframes; eauto; by right.
    + rewrite list_lookup_insert_ne by lia. split; [|tauto]. intros Hx. split; [|done].
      intros ->. apply Hsucc in Hx as (e' & Hj & _ & <- & _). by rewrite (Hu _ _ _ Hj Hin) in Hne.
  - split; [|tauto]. intros Hx. split; [|done]. intros ->. apply Hsucc in Hx as (e' & Hj & Ho & _).
    by rewrite (Hu _ _ _ Hj Hin) in Ho.
Qed.

Lemma clear_success_len t e : vlen (clear_success t e) = vlen (success_frames t).
Proof. unfold clear_success. case_bool_decide; [apply vlen_insert|done]. Qed.

Lemma without_inv t A i e s :
  table_inv t A → (i, e) ∈ A → me_outcome e ≠ Pending → FileSlots.rep s (FileSlots.without i A) →
  table_inv (mkMissTable s (clear_success t e) (pending t) (pending_len t)) (FileSlots.without i A).
Proof.
  intros Hti Hin Ho Hr'. pose proof Hti as [Hr Hidx Hsingle Hframes Hsucc Hrange].
  pose proof (table_uniq t A Hti) as Hu. split; simpl; try done.
  - pose proof (without_index t A i e Hidx ltac:(intros e' He'; by eapply Hu) Ho) as []. by split.
  - intros j k e1 e2 [_ Hj]%without_elem [_ Hk]%without_elem. by apply Hsingle.
  - intros j k e1 e2 [_ Hj]%without_elem [_ Hk]%without_elem. by apply Hframes.
  - intros f j g. rewrite (clear_success_spec t A i e Hti Hin), Hsucc. setoid_rewrite without_elem. naive_solver.
  - intros j e1 [_ Hj]%without_elem. rewrite clear_success_len. by eapply Hrange.
Qed.

(** Waiters of a slot whose generation is the entry's. *)
Definition interest_at (ints : MissInterests) (i g w : N) : Prop :=
  ints !! N.to_nat i = Some (mkMissInterest g w).

Lemma waiters_ok ints i g w : interest_at ints i g w → waiters ints i g = Done (Some w).
Proof.
  intros H. unfold waiters. rewrite (proj2 (vget_Done _ _ _) H). mred. simpl. by rewrite N.eqb_refl.
Qed.

Lemma clean_ok t A i e ints w :
  table_inv t A → (i, e) ∈ A → interest_at ints i (me_generation e) w →
  if decide (me_outcome e ≠ Pending ∧ w = 0) then
    ∃ t', clean_terminal_zero t i (me_generation e) ints = Done t' ∧
      table_inv t' (FileSlots.without i A) ∧ same_shape t t' ∧ success_frames t' = clear_success t e ∧
      pending_len t' = pending_len t
  else clean_terminal_zero t i (me_generation e) ints = Done t.
Proof.
  intros Hti Hin Hw. pose proof Hti as [Hr Hidx Hsingle Hframes Hsucc Hrange].
  unfold clean_terminal_zero. rewrite (get_at_elem _ _ _ _ Hr Hin). mred. rewrite N.eqb_refl.
  rewrite (waiters_ok _ _ _ _ Hw). simpl andb. case_decide as Hc.
  - destruct Hc as [Ho ->]. rewrite (bool_decide_eq_true_2 (me_outcome e ≠ Pending)) by done. mred.
    rewrite (bool_decide_eq_true_2 (Some 0 = Some 0)) by done.
    destruct (FileSlots.slots_remove_ok (slots t) A i e Hr Hin) as (s & Hs & Hr' & Hl1 & Hl2).
    exists (mkMissTable s (clear_success t e) (pending t) (pending_len t)). split_and!; try done.
    + unfold clear_success. case_bool_decide as Hsu.
      * rewrite (proj2 (vget_Done _ _ (Some (i, me_generation e)))) by (apply Hsucc; eauto). mred.
        rewrite bool_decide_eq_true_2 by done. mred. rewrite vset_ok by by eapply Hrange. mred.
        simpl slots. rewrite Hs. done.
      * mred. rewrite Hs. done.
    + by apply without_inv.
    + split_and!; simpl; try done. apply clear_success_len.
  - destruct (decide (me_outcome e = Pending)) as [Hp|Hp].
    + rewrite (bool_decide_eq_false_2 (me_outcome e ≠ Pending)) by tauto. done.
    + rewrite (bool_decide_eq_true_2 (me_outcome e ≠ Pending)) by done. mred.
      rewrite (bool_decide_eq_false_2 (Some w = Some 0)); [done|]. naive_solver.
Qed.

Lemma prepare_eviction_ok t A f ints :
  table_inv t A → f < vlen (success_frames t) →
  (∀ i e, (i, e) ∈ A → ∃ w, interest_at ints i (me_generation e) w) →
  (prepare_eviction t f ints = Done (t, true) ∧
     ∀ i e, (i, e) ∈ A → me_outcome e = Succeeded → me_frame e ≠ f) ∨
  (∃ i e w, (i, e) ∈ A ∧ me_outcome e = Succeeded ∧ me_frame e = f ∧
     interest_at ints i (me_generation e) w ∧
     ((w ≠ 0 ∧ prepare_eviction t f ints = Done (t, false)) ∨
      (w = 0 ∧ ∃ t', prepare_eviction t f ints = Done (t', true) ∧
         table_inv t' (FileSlots.without i A) ∧ same_shape t t'))).
Proof.
  intros Hti Hf Hint. pose proof Hti as [Hr Hidx Hsingle Hframes Hsucc Hrange].
  unfold prepare_eviction. destruct (vget_ok _ _ Hf) as ([[i g]|] & -> & Hx); mred.
  - right. pose proof Hx as (e & Hin & Hs & Hfr & <-)%Hsucc. destruct (Hint i e Hin) as [w Hw].
    exists i, e, w. split_and!; try done. rewrite (waiters_ok _ _ _ _ Hw). mred.
    destruct (decide (w = 0)) as [->|Hw0]; [right|left].
    + split; [done|]. rewrite bool_decide_eq_false_2 by tauto.
      pose proof (clean_ok t A i e ints 0 Hti Hin Hw) as Hc.
      rewrite decide_True in Hc by (split; [congruence|done]).
      destruct Hc as (t' & -> & Hti' & Hsh & Hcl & _). mred.
      assert (success_frames t' !! N.to_nat f = Some None) as Hn.
      { rewrite Hcl. unfold clear_success. rewrite bool_decide_eq_true_2 by done. rewrite Hfr.
        apply list_lookup_insert_eq. unfold vlen in Hf. lia. }
      rewrite (proj2 (vget_Done _ _ _) Hn). mred. rewrite bool_decide_eq_true_2 by done. mred. eauto.
    + split; [done|]. rewrite bool_decide_eq_true_2; [done|]. naive_solver.
  - left. split; [done|]. intros i e Hin Hs <-.
    assert (success_frames t !! N.to_nat (me_frame e) = Some (Some (i, me_generation e)))
      by (apply Hsucc; eauto). congruence.
Qed.

(** ** Admission *)

Definition idle (ints : MissInterests) (i : N) (o : option MissEntry) : bool :=
  match o with
  | None => true
  | Some e => bool_decide (me_outcome e ≠ Pending) &&
      match ints !! N.to_nat i with Some m => mi_waiters m =? 0 | None => false end
  end.

Lemma reusable_ok ints i e w :
  interest_at ints i (me_generation e) w → reusable ints i (Some e) = Done (idle ints i (Some e)).
Proof.
  intros Hw. unfold reusable, idle. rewrite (waiters_ok _ _ _ _ Hw), Hw. mred. simpl.
  destruct (bool_decide (me_outcome e ≠ Pending)); [|done]. f_equal.
  destruct (N.eqb_spec w 0); [by rewrite bool_decide_eq_true_2 by congruence|].
  rewrite bool_decide_eq_false_2; [done|congruence].
Qed.

Lemma admission_slot_ok t A ints :
  table_inv t A → (∀ i e, (i, e) ∈ A → ∃ w, interest_at ints i (me_generation e) w) →
  ∃ o, admission_slot t ints = Done o ∧
    match o with
    | Some i => (N.to_nat i < length (FileSlots.slots (slots t)))%nat ∧
        ∀ e, (i, e) ∈ A → me_outcome e ≠ Pending ∧ interest_at ints i (me_generation e) 0
    | None => ∀ i e, (i, e) ∈ A → me_outcome e = Pending ∨
        ∃ w, w ≠ 0 ∧ interest_at ints i (me_generation e) w
    end.
Proof.
  intros Hti Hint. pose proof Hti as [Hr _ _ _ _ _]. pose proof (table_uniq t A Hti) as Hu.
  unfold admission_slot. destruct (first_slot_entries (reusable ints) (idle ints) (slots t) A Hr) as
    [(i & o & -> & Hq & Hlt & Ho)|[-> Hnone]].
  - intros i [e|] _ He; [|done]. destruct (Hint i e He) as [w Hw]. by eapply reusable_ok.
  - eexists. split; [done|]. split; [done|]. intros e He. destruct (Hint i e He) as [w Hw].
    destruct o as [e'|]; [|destruct Ho; apply list_elem_of_fmap; by exists (i, e)].
    rewrite (Hu _ _ _ Ho He) in Hq. unfold idle in Hq. rewrite Hw in Hq. simpl in Hq.
    apply andb_true_iff in Hq as [H1%bool_decide_eq_true H2%N.eqb_eq]. by subst.
  - eexists. split; [done|]. intros i e He. destruct (Hint i e He) as [w Hw].
    specialize (Hnone i e He). unfold idle in Hnone. rewrite Hw in Hnone. simpl in Hnone.
    apply andb_false_iff in Hnone as [H1%bool_decide_eq_false|H2%N.eqb_neq]; [left|right; eauto].
    by destruct (decide (me_outcome e = Pending)).
Qed.

(** The outcome of [begin_initial] on a slot without waiters. *)
Lemma begin_ok ints i g initial :
  interest_at ints i g 0 → g < U64_MAX →
  begin_initial ints i initial =
    Done (<[N.to_nat i := mkMissInterest (g + 1) (initial_waiters initial)]> ints, g + 1).
Proof.
  intros Hw Hg. unfold begin_initial. rewrite (proj2 (vget_Done _ _ _) Hw). mred. simpl mi_waiters.
  rewrite N.eqb_refl. mred. simpl mi_generation.
  rewrite (proj2 (checked_add_Some U64_MAX g 1 (g + 1))) by lia. mred.
  rewrite (assertb_true (negb _)) by (apply negb_true_iff, N.eqb_neq; lia). mred.
  by rewrite vset_ok by by eapply vget_lt.
Qed.

Lemma pending_push_ok t A e i :
  index_inv t A → pending_len t < vlen (pending t) → i ∉ A.*1 →
  me_outcome e = Pending → me_pending_position e = pending_len t →
  pending_push t (index_of i e) = Done (with_pending t
    (<[N.to_nat (pending_len t) := Some (index_of i e)]> (pending t)) (pending_len t + 1)) ∧
  index_inv (with_pending t (<[N.to_nat (pending_len t) := Some (index_of i e)]> (pending t))
    (pending_len t + 1)) ((i, e) :: A).
Proof.
  intros [H1 H2 Hpre Hent Hpend] Hlt Hi Ho Hpos. set (n := pending_len t) in *.
  assert (pending t !! N.to_nat n = Some None) as Hn.
  { destruct (vget_ok _ _ Hlt) as ([pm|] & _ & Hx); [|done].
    assert (n < n); [apply Hpre; eauto|lia]. }
  split.
  - unfold pending_push. fold n. rewrite assertb_true by by apply N.ltb_lt. mred.
    rewrite (proj2 (vget_Done _ _ _) Hn). mred. rewrite bool_decide_eq_true_2 by done. mred.
    rewrite vset_ok by done. mred. rewrite add_ok by lia. done.
  - assert (N.to_nat n < length (pending t))%nat as Hnl by by eapply lookup_lt_Some.
    split; simpl; rewrite ?vlen_insert; [lia|done|..].
    + intros k Hk. destruct (decide (k = n)) as [->|Hne].
      * rewrite list_lookup_insert_eq by done. split; [eauto|lia].
      * rewrite list_lookup_insert_ne by lia. rewrite <- (Hpre k Hk). lia.
    + intros k pm. destruct (decide (k = n)) as [->|Hne].
      * rewrite list_lookup_insert_eq by done. intros [= <-]. exists e. simpl. set_solver.
      * rewrite list_lookup_insert_ne by lia. intros (e1 & He1 & H)%Hent. exists e1. set_solver.
    + intros j e' [[= -> ->]|Hj]%elem_of_cons Hp'.
      * rewrite Hpos. by apply list_lookup_insert_eq.
      * pose proof (Hpend _ _ Hj Hp') as Hx. rewrite list_lookup_insert_ne; [done|].
        intros Heq%N2Nat.inj. rewrite <- Heq in Hx. congruence.
Qed.

(** Admission of page [page] into slot [i], which holds no entry. *)
Lemma install_ok t A i page frame token ints g initial :
  table_inv t A → i ∉ A.*1 → (N.to_nat i < length (FileSlots.slots (slots t)))%nat →
  interest_at ints i g 0 → g < U64_MAX → pending_len t < vlen (pending t) →
  fid_slot (pg_file page) < vlen (FileSlots.heads (slots t)) → frame < vlen (success_frames t) →
  (∀ j e, (j, e) ∈ A → me_outcome e = Pending → me_page e ≠ page) →
  (∀ j e, (j, e) ∈ A → holds_frame e → me_frame e ≠ frame) →
  let e := mkMissEntry page frame token (g + 1) 0 (pending_len t) Pending in
  ∃ t', (s ← vget (FileSlots.slots (slots t)) i;
         assertb (FileSlots.is_none s);;
         '(ints, generation) ← begin_initial ints i initial;
         s ← FileSlots.insert (slots t) i
               (mkMissEntry page frame token generation 0 (pending_len t) Pending);
         t ← pending_push (with_slots t s) (mkPendingMiss page token i);
         Done (t, ints, generation)) =
      Done (t', <[N.to_nat i := mkMissInterest (g + 1) (initial_waiters initial)]> ints, g + 1) ∧
    table_inv t' ((i, e) :: A) ∧ same_shape t t'.
Proof.
  intros Hti Hi Hlt Hw Hg Hpl Hfile Hframe Hpages Hheld e.
  pose proof Hti as [Hr Hidx Hsingle Hframes Hsucc Hrange].
  destruct (FileSlots.rep_free_slot _ A i Hr Hlt Hi) as (s0 & Hs0 & Hn0).
  destruct (FileSlots.slots_insert_ok (slots t) A i e s0 Hr Hs0 Hn0 Hfile) as (s & Hs & Hr' & Hl1 & Hl2).
  assert (index_inv (with_slots t s) A) as Hidx' by (destruct Hidx; by split).
  destruct (pending_push_ok (with_slots t s) A e i Hidx' Hpl Hi eq_refl eq_refl) as [Hpush Hidx''].
  eexists. split; [|split].
  - rewrite (proj2 (vget_Done _ _ _) Hs0). mred. unfold FileSlots.is_none. rewrite Hn0. mred.
    rewrite (begin_ok _ _ _ _ Hw Hg). mred. fold e. rewrite Hs. mred.
    change (mkPendingMiss page token i) with (index_of i e). rewrite Hpush. mred. done.
  - split; simpl; try done.
    + intros j k e1 e2 [[= -> ->]|Hj]%elem_of_cons [[= -> ->]|Hk]%elem_of_cons; try done; intros H1 H2 H3.
      * destruct (Hpages k e2 Hk H2). by rewrite <- H3.
      * by destruct (Hpages j e1 Hj H1).
      * by eapply Hsingle.
    + intros j k e1 e2 [[= -> ->]|Hj]%elem_of_cons [[= -> ->]|Hk]%elem_of_cons; try done; intros H1 H2 H3.
      * destruct (Hheld k e2 Hk H2). by rewrite <- H3.
      * by destruct (Hheld j e1 Hj H1).
      * by eapply Hframes.
    + intros f j g'. rewrite Hsucc. split.
      * intros (e1 & Hj & H). exists e1. set_solver.
      * intros (e1 & [[= -> ->]|Hj]%elem_of_cons & H & H'); [discriminate|]. eauto.
    + intros j e1 [[= -> ->]|Hj]%elem_of_cons; [done|]. by eapply Hrange.
  - split_and!; simpl; try done. apply vlen_insert.
Qed.

Lemma without_notin i (A : entries) : i ∉ (FileSlots.without i A).*1.
Proof. intros ([j e] & -> & [Hne _]%without_elem)%list_elem_of_fmap. done. Qed.

Lemma admit_ok t A i page frame token ints g initial :
  table_inv t A → (N.to_nat i < length (FileSlots.slots (slots t)))%nat →
  interest_at ints i g 0 → g < U64_MAX → pending_len t < vlen (pending t) →
  (∀ e, (i, e) ∈ A → me_outcome e ≠ Pending ∧ me_generation e = g) →
  fid_slot (pg_file page) < vlen (FileSlots.heads (slots t)) → frame < vlen (success_frames t) →
  (∀ j e, (j, e) ∈ A → me_outcome e = Pending → me_page e ≠ page) →
  (∀ j e, (j, e) ∈ A → holds_frame e → me_frame e ≠ frame) →
  let e := mkMissEntry page frame token (g + 1) 0 (pending_len t) Pending in
  ∃ t', admit_initial t i page frame token ints initial =
      Done (t', <[N.to_nat i := mkMissInterest (g + 1) (initial_waiters initial)]> ints, g + 1) ∧
    table_inv t' ((i, e) :: FileSlots.without i A) ∧ same_shape t t'.
Proof.
  intros Hti Hlt Hw Hg Hpl Hterm Hfile Hframe Hpages Hheld e.
  pose proof Hti as [Hr _ _ _ _ _]. unfold admit_initial.
  rewrite (assertb_true (negb _)).
  2: { apply negb_true_iff, bool_decide_eq_false. intros Hnil. rewrite Hnil in Hlt. simpl in Hlt. lia. }
  mred. destruct (find_pending_ok t A page Hti) as (o & -> & Ho). mred.
  rewrite (bool_decide_eq_true_2 (o = None)).
  2: { destruct o as [j|]; [|done]. destruct Ho as (e1 & H1 & H2 & H3). by destruct (Hpages j e1). }
  mred. destruct (FileSlots.get_at_ok _ A i Hr Hlt) as [[Hi ->]|(e0 & He0 & ->)]; mred.
  - assert (FileSlots.without i A = A) as -> by by apply FileSlots.without_id.
    by apply install_ok.
  - destruct (Hterm e0 He0) as [Ho0 <-]. pose proof (clean_ok t A i e0 ints 0 Hti He0 Hw) as Hc.
    rewrite decide_True in Hc by done. destruct Hc as (t1 & -> & Hti1 & (Hs1 & Hs2 & Hs3 & Hs4) & _ & Hpl1).
    mred. rewrite <- Hpl1 in Hpl. unfold e. rewrite <- Hpl1.
    destruct (install_ok t1 (FileSlots.without i A) i page frame token ints (me_generation e0) initial)
      as (t' & Heq & Hti' & (H1 & H2 & H3 & H4)); try done.
    + apply without_notin.
    + lia.
    + by rewrite Hs4.
    + unfold vlen in *. by rewrite Hs2.
    + by rewrite Hs3.
    + intros j e1 [_ Hj]%without_elem. by apply (Hpages j).
    + intros j e1 [_ Hj]%without_elem. by apply (Hheld j).
    + exists t'. split; [exact Heq|]. split; [done|]. split_and!; congruence.
Qed.
End Miss.

(** ** Tokens and the table

    Waiters hold tokens; the table and the interests are updated under the
    control lock, a token's release needs no lock. *)
Module MissSystem.
Import Miss.

Record PendingToken := mkPendingToken {
  tk_page : PageId;
  tk_slot : N;
  tk_generation : N;
}.

Record system := mkSystem {
  table : MissTable;
  interests : MissInterests;
  tokens : list PendingToken;
}.

(** No entry that still needs its frame names [frame]: the frame is [Free]. *)
Definition frame_unused (t : MissTable) (frame : ReadFrameIdx) : Prop :=
  ∀ i e, FileSlots.get_at (slots t) i = Done (Some e) → holds_frame e → me_frame e ≠ frame.

Inductive step : system → system → Prop :=
  | step_admit t ints tks slot page frame token initial t' ints' g :
      find_pending t page = Done None → admission_slot t ints = Done (Some slot) →
      pending_len t < vlen (pending t) → frame_unused t frame → frame < vlen (success_frames t) →
      fid_slot (pg_file page) < vlen (FileSlots.heads (slots t)) →
      (∀ m, ints !! N.to_nat slot = Some m → mi_generation m < U64_MAX) →
      admit_initial t slot page frame token ints initial = Done (t', ints', g) →
      step (mkSystem t ints tks)
        (mkSystem t' ints' (match initial with
           | Demand => [mkPendingToken page slot g] | Speculative => [] end ++ tks))
  | step_join t ints tks page i ints' slot g :
      find_pending t page = Done (Some i) → join t i ints = Done (ints', (slot, g)) →
      step (mkSystem t ints tks) (mkSystem t ints' (mkPendingToken page slot g :: tks))
  | step_remainder t ints tks token i filled token' t' :
      find_by_token t token = Done (Some i) → advance_remainder t i filled token' = Done t' →
      step (mkSystem t ints tks) (mkSystem t' ints tks)
  | step_fail t ints tks token i errno t' :
      find_by_token t token = Done (Some i) → fail t i errno = Done t' →
      step (mkSystem t ints tks) (mkSystem t' ints tks)
  | step_succeed t ints tks token i t' :
      find_by_token t token = Done (Some i) → succeed t i = Done t' →
      step (mkSystem t ints tks) (mkSystem t' ints tks)
  | step_release t ints tks1 tk tks2 ints' n :
      release ints (tk_slot tk) (tk_generation tk) = Done (ints', n) →
      step (mkSystem t ints (tks1 ++ tk :: tks2)) (mkSystem t ints' (tks1 ++ tks2))
  | step_clean t ints tks slot g t' :
      clean_terminal_zero t slot g ints = Done t' →
      step (mkSystem t ints tks) (mkSystem t' ints tks)
  | step_prepare_eviction t ints tks frame t' b :
      prepare_eviction t frame ints = Done (t', b) →
      step (mkSystem t ints tks) (mkSystem t' ints tks).

Definition initial (s : system) : Prop :=
  ∃ cap pcap fcap t, 0 < cap ∧ cap ≤ U32_MAX ∧ try_with_capacity cap pcap fcap = Done t ∧
    s = mkSystem t (interests_with_capacity cap) [].

Definition on_slot (i : N) (tks : list PendingToken) : list PendingToken :=
  filter (λ tk, tk_slot tk = i) tks.

(** [A] are the live entries. *)
Record system_rep (s : system) (A : entries) : Prop := {
  sr_table : table_inv (table s) A;
  sr_len : length (interests s) = length (FileSlots.slots (slots (table s)));
  sr_entry : ∀ i e, (i, e) ∈ A → ∃ w, interest_at (interests s) i (me_generation e) w;
  sr_count : ∀ i m, interests s !! N.to_nat i = Some m →
    mi_waiters m = N.of_nat (length (on_slot i (tokens s)));
  sr_token : ∀ tk, tk ∈ tokens s →
    ∃ e, (tk_slot tk, e) ∈ A ∧ me_generation e = tk_generation tk ∧ me_page e = tk_page tk;
}.

Definition system_inv (s : system) : Prop := ∃ A, system_rep s A.

Lemma on_slot_nil i tks : length (on_slot i tks) = 0%nat → ∀ tk, tk ∈ tks → tk_slot tk ≠ i.
Proof.
  intros H%nil_length_inv tk Hin Heq. apply (filter_nil_not_elem_of _ _ _ H Heq Hin).
Qed.

Lemma sr_interest s A i :
  system_rep s A → (N.to_nat i < length (FileSlots.slots (slots (table s))))%nat →
  ∃ g w, interest_at (interests s) i g w ∧ w = N.of_nat (length (on_slot i (tokens s))).
Proof.
  intros [_ Hlen _ Hcount _] Hlt. rewrite <- Hlen in Hlt.
  destruct (lookup_lt_is_Some_2 _ _ Hlt) as [[g w] Hm]. exists g, w. split; [done|].
  exact (Hcount i _ Hm).
Qed.

(** Entries change, generations and pages of live slots do not. *)
Lemma rep_transfer t ints tks A t' A' :
  system_rep (mkSystem t ints tks) A → table_inv t' A' → same_shape t t' →
  (∀ i e', (i, e') ∈ A' → ∃ e, (i, e) ∈ A ∧ me_generation e' = me_generation e) →
  (∀ i e, (i, e) ∈ A → on_slot i tks ≠ [] →
     ∃ e', (i, e') ∈ A' ∧ me_generation e' = me_generation e ∧ me_page e' = me_page e) →
  system_rep (mkSystem t' ints tks) A'.
Proof.
  intros [_ Hlen Hent Hcount Htok] Hti' (Hs & _) Hback Hforw. simpl in *. split; simpl; try done.
  - congruence.
  - intros i e' (e & He & ->)%Hback. by apply Hent.
  - intros tk Htk. destruct (Htok tk Htk) as (e & He & <- & <-).
    destruct (Hforw _ _ He) as (e' & ? & ? & ?); [|by exists e'].
    intros Hnil. by apply (filter_nil_not_elem_of _ _ tk Hnil).
Qed.

Lemma miss_initial_rep s : initial s → system_rep s [].
Proof.
  intros (cap & pcap & fcap & t & Hpos & Hmax & Ht & ->).
  unfold try_with_capacity in Ht. destruct (N.leb_spec pcap cap) as [Hle|]; [|discriminate]. mred in Ht.
  destruct (FileSlots.try_new_ok (T := MissEntry) cap fcap Hpos Hmax) as (fs & Hfs & Hr & Hl1 & Hl2).
  rewrite Hfs in Ht. mred in Ht. injection Ht as <-.
  split; simpl; unfold interests_with_capacity; rewrite ?length_replicate.
  - split; simpl; try done; try (by intros ? ? ?%elem_of_nil); try (by intros ? ? ? ? ?%elem_of_nil).
    + split; simpl; unfold vlen; rewrite ?length_replicate; try lia; try (by intros ? ? ?%elem_of_nil).
      * intros k Hk. split; [lia|]. intros [pm Hpm]. apply lookup_replicate in Hpm as [? _]. done.
      * intros k pm Hk. apply lookup_replicate in Hk as [? _]. done.
    + intros f i g. split; [|by intros (e & ?%elem_of_nil & _)].
      intros Hk. apply lookup_replicate in Hk as [? _]. done.
  - done.
  - by intros i e ?%elem_of_nil.
  - intros i m Hm. apply lookup_replicate in Hm as [-> _]. done.
  - by intros tk ?%elem_of_nil.
Qed.

Lemma miss_initial_inv s : initial s → system_inv s.
Proof. intros Hs. exists []. by apply miss_initial_rep. Qed.

(** The table and its interests after an admission into a slot nobody waits on. *)
Lemma admit_rep t ints tks A slot page frame token init t1 g0 :
  let e := mkMissEntry page frame token (g0 + 1) 0 (pending_len t) Pending in
  system_rep (mkSystem t ints tks) A → on_slot slot tks = [] → interest_at ints slot g0 0 →
  table_inv t1 ((slot, e) :: FileSlots.without slot A) → same_shape t t1 →
  system_rep (mkSystem t1 (<[N.to_nat slot := mkMissInterest (g0 + 1) (initial_waiters init)]> ints)
    (match init with Demand => [mkPendingToken page slot (g0 + 1)] | Speculative => [] end ++ tks))
    ((slot, e) :: FileSlots.without slot A).
Proof.
  intros e [Hti Hlen Hent Hcount Htok] Hz Hw Hti1 Hsh. simpl in *.
  assert (N.to_nat slot < length ints)%nat as Hsl by by eapply lookup_lt_Some.
  split; simpl; try done.
  - transitivity (length ints); [apply length_insert|]. destruct Hsh as [-> _]. done.
  - intros i e' [[= -> ->]|[Hne He]%without_elem]%elem_of_cons; unfold interest_at.
    + rewrite list_lookup_insert_eq by done. eauto.
    + rewrite list_lookup_insert_ne by lia. by apply Hent.
  - intros i m Hm. unfold on_slot. rewrite filter_app, length_app. fold (on_slot i tks).
    destruct (decide (i = slot)) as [->|Hne].
    + rewrite list_lookup_insert_eq in Hm by done. injection Hm as <-. simpl. rewrite Hz.
      destruct init; simpl; [done|]. rewrite filter_cons_True by done. done.
    + rewrite list_lookup_insert_ne in Hm by lia. rewrite (Hcount i m Hm).
      destruct init; simpl; [done|]. rewrite filter_cons_False by (simpl; congruence). done.
  - intros tk [Htk|Htk]%elem_of_app.
    + destruct init; [by apply elem_of_nil in Htk|]. apply list_elem_of_singleton in Htk as ->.
      exists e. simpl. set_solver.
    + destruct (Htok tk Htk) as (e1 & He1 & H). exists e1. split; [|done]. apply elem_of_cons. right.
      apply without_elem. split; [|done]. eapply on_slot_nil; [|done]. by rewrite Hz.
Qed.

Lemma step_admit_inv t ints tks A slot page frame token init t' ints' g :
  system_rep (mkSystem t ints tks) A →
  find_pending t page = Done None → admission_slot t ints = Done (Some slot) →
  pending_len t < vlen (pending t) → frame_unused t frame → frame < vlen (success_frames t) →
  fid_slot (pg_file page) < vlen (FileSlots.heads (slots t)) →
  (∀ m, ints !! N.to_nat slot = Some m → mi_generation m < U64_MAX) →
  admit_initial t slot page frame token ints init = Done (t', ints', g) →
  system_inv (mkSystem t' ints' (match init with
    | Demand => [mkPendingToken page slot g] | Speculative => [] end ++ tks)).
Proof.
  intros Hrep Hfp Hadm Hpl Hun Hfr Hfile Hgen Hadmit.
  pose proof Hrep as [Hti Hlen Hent Hcount Htok]. simpl in *. pose proof Hti as [Hr _ _ _ _ _].
  destruct (find_pending_ok t A page Hti) as (o & Ho & Hnone). rewrite Hfp in Ho. injection Ho as <-.
  destruct (admission_slot_ok t A ints Hti Hent) as (o & Ho & Hslot). rewrite Hadm in Ho. injection Ho as <-.
  destruct Hslot as [Hlt Hterm].
  destruct (sr_interest _ _ slot Hrep Hlt) as (g0 & w & Hw & Hwt). simpl in Hw, Hwt.
  assert (w = 0) as ->.
  { destruct (on_slot slot tks) as [|tk l] eqn:E; [done|exfalso].
    assert (tk ∈ on_slot slot tks) as [Hs Hin]%list_elem_of_filter by (rewrite E; set_solver).
    destruct (Htok tk Hin) as (e & He & Hg & _). rewrite Hs in He.
    destruct (Hterm e He) as [_ H0]. unfold interest_at in *. simplify_eq. }
  assert (∀ e, (slot, e) ∈ A → me_outcome e ≠ Pending ∧ me_generation e = g0) as Hterm'.
  { intros e He. destruct (Hterm e He) as [? H0]. unfold interest_at in *. split; [done|]. congruence. }
  destruct (admit_ok t A slot page frame token ints g0 init Hti Hlt Hw (Hgen _ Hw) Hpl Hterm' Hfile Hfr Hnone)
    as (t1 & Heq & Hti1 & Hsh).
  { intros j e He. apply (Hun j). by eapply get_at_elem. }
  rewrite Heq in Hadmit. injection Hadmit as <- <- <-.
  assert (length (on_slot slot tks) = 0%nat) as Hz by lia.
  eexists. apply admit_rep; try done. by apply nil_length_inv.
Qed.

(** Storing an interest whose waiter count follows the tokens. *)
Lemma interest_store t ints tks tks' A i g w :
  system_rep (mkSystem t ints tks) A → (∃ w0, interest_at ints i g w0) →
  (∀ j, j ≠ i → on_slot j tks' = on_slot j tks) → w = N.of_nat (length (on_slot i tks')) →
  (∀ tk, tk ∈ tks' → ∃ e, (tk_slot tk, e) ∈ A ∧ me_generation e = tk_generation tk ∧ me_page e = tk_page tk) →
  system_rep (mkSystem t (<[N.to_nat i := mkMissInterest g w]> ints) tks') A.
Proof.
  intros [Hti Hlen Hent Hcount _] [w0 Hw0] Hother Hw Htok. simpl in *.
  assert (N.to_nat i < length ints)%nat as Hlt by by eapply lookup_lt_Some.
  split; simpl; try done.
  - by rewrite length_insert.
  - intros j e He. destruct (Hent j e He) as [w1 Hw1]. unfold interest_at in *.
    destruct (decide (j = i)) as [->|Hne].
    + rewrite list_lookup_insert_eq by done. exists w. congruence.
    + rewrite list_lookup_insert_ne by lia. eauto.
  - intros j m Hm. destruct (decide (j = i)) as [->|Hne].
    + rewrite list_lookup_insert_eq in Hm by done. injection Hm as <-. done.
    + rewrite list_lookup_insert_ne in Hm by lia. rewrite Hother by done. by apply Hcount.
Qed.

Lemma step_join_inv t ints tks A page i ints' slot g :
  system_rep (mkSystem t ints tks) A →
  find_pending t page = Done (Some i) → join t i ints = Done (ints', (slot, g)) →
  system_inv (mkSystem t ints' (mkPendingToken page slot g :: tks)).
Proof.
  intros Hrep Hfp Hjoin. pose proof Hrep as [Hti Hlen Hent Hcount Htok]. simpl in *.
  destruct (find_pending_ok t A page Hti) as (o & Ho & He). rewrite Hfp in Ho. injection Ho as <-.
  destruct He as (e & He & Hpd & Hpg). destruct (Hent i e He) as [w Hw].
  unfold join in Hjoin. rewrite (entry_ok t A i e (ti_rep _ _ Hti) He) in Hjoin. mred in Hjoin.
  rewrite bool_decide_eq_true_2 in Hjoin by done. mred in Hjoin. unfold interest_join in Hjoin.
  rewrite (proj2 (vget_Done _ _ _) Hw) in Hjoin. mred in Hjoin. simpl in Hjoin.
  rewrite N.eqb_refl in Hjoin. inv_done.
  match goal with H : checked_add _ _ _ = _ |- _ => apply checked_add_Some in H as [-> _] end.
  exists A. eapply interest_store; [exact Hrep|eauto|..].
  - intros j Hj. unfold on_slot. by rewrite filter_cons_False.
  - unfold on_slot. rewrite filter_cons_True by done. simpl. pose proof (Hcount _ _ Hw) as Hc. simpl in Hc. unfold on_slot in Hc. lia.
  - intros tk [->|Htk]%elem_of_cons; [by exists e|auto].
Qed.

Lemma step_release_inv t ints tks1 tk tks2 A ints' n :
  system_rep (mkSystem t ints (tks1 ++ tk :: tks2)) A →
  release ints (tk_slot tk) (tk_generation tk) = Done (ints', n) →
  system_inv (mkSystem t ints' (tks1 ++ tks2)).
Proof.
  intros Hrep Hrel. pose proof Hrep as [Hti Hlen Hent Hcount Htok]. simpl in *.
  destruct (Htok tk) as (e & He & Hg & _); [set_solver|]. destruct (Hent _ _ He) as [w Hw].
  unfold release in Hrel. rewrite (proj2 (vget_Done _ _ _) Hw) in Hrel. mred in Hrel. simpl in Hrel.
  rewrite Hg, N.eqb_refl in Hrel. inv_done.
  match goal with H : checked_sub _ _ = _ |- _ => apply checked_sub_Some in H as [-> _] end.
  exists A. eapply interest_store; [exact Hrep|rewrite <- Hg; eauto|..].
  - intros j Hj. unfold on_slot. rewrite !filter_app. by rewrite filter_cons_False.
  - pose proof (Hcount _ _ Hw) as Hc. simpl in Hc. rewrite Hc. unfold on_slot. rewrite !filter_app.
    rewrite filter_cons_True by done. rewrite !length_app. simpl. lia.
  - intros tk' Htk'. apply Htok. set_solver.
Qed.

Lemma step_clean_inv t ints tks A slot g t' :
  system_rep (mkSystem t ints tks) A →
  clean_terminal_zero t slot g ints = Done t' → system_inv (mkSystem t' ints tks).
Proof.
  intros Hrep Hc. pose proof Hrep as [Hti Hlen Hent Hcount Htok]. simpl in *.
  pose proof (ti_rep _ _ Hti) as Hr.
  assert (t' = t ∨ ∃ e, (slot, e) ∈ A ∧ g = me_generation e) as [->|(e & He & ->)].
  { unfold clean_terminal_zero in Hc. destruct (FileSlots.get_at (slots t) slot) as [[e|]|] eqn:Hg;
      [|left; by injection Hc|discriminate].
    mred in Hc. destruct (N.eqb_spec (me_generation e) g) as [<-|Hne]; [|left; mred in Hc; by injection Hc].
    right. exists e. split; [|done]. eapply entry_elem; eauto.
    unfold FileSlots.get_at in Hg. inv_done. by eapply lookup_lt_Some. }
  { by exists A. }
  destruct (Hent _ _ He) as [w Hw]. pose proof (clean_ok t A slot e ints w Hti He Hw) as Hok.
  case_decide as Hd; [|rewrite Hc in Hok; injection Hok as ->; by exists A].
  destruct Hok as (t1 & Heq & Hti' & Hsh & _). rewrite Hc in Heq. injection Heq as <-.
  exists (FileSlots.without slot A). eapply rep_transfer; eauto.
  - intros i e' [_ Hi]%without_elem. eauto.
  - intros i e' Hi Hne. exists e'. split; [|done]. apply without_elem. split; [|done]. intros ->.
    pose proof (Hcount _ _ Hw) as Hz. simpl in Hz. destruct Hd as [_ ->].
    apply Hne, nil_length_inv. lia.
Qed.

Lemma step_prepare_inv t ints tks A frame t' b :
  system_rep (mkSystem t ints tks) A →
  prepare_eviction t frame ints = Done (t', b) → system_inv (mkSystem t' ints tks).
Proof.
  intros Hrep Hp. pose proof Hrep as [Hti Hlen Hent Hcount Htok]. simpl in *.
  assert (frame < vlen (success_frames t)) as Hf.
  { unfold prepare_eviction in Hp. inv_done. by eapply vget_lt. }
  destruct (prepare_eviction_ok t A frame ints Hti Hf Hent) as
    [[Heq _]|(i & e & w & He & Hs & Hfr & Hw & [[_ Heq]|(-> & t1 & Heq & Hti' & Hsh)])];
    rewrite Hp in Heq; injection Heq as -> ->; [by exists A..|].
  exists (FileSlots.without i A). eapply rep_transfer; eauto.
  - intros j e' [_ Hj]%without_elem. eauto.
  - intros j e' Hj Hne. exists e'. split; [|done]. apply without_elem. split; [|done]. intros ->.
    pose proof (Hcount _ _ Hw) as Hz. simpl in Hz. apply Hne, nil_length_inv. lia.
Qed.

Lemma finished_rep t ints tks A i e o t' :
  system_rep (mkSystem t ints tks) A → (i, e) ∈ A → me_outcome e = Pending → o ≠ Pending →
  table_inv t' (finished t A i e o) → same_shape t t' → system_rep (mkSystem t' ints tks) (finished t A i e o).
Proof.
  intros Hrep He Hpd Ho Hti' Hsh. pose proof Hrep as [Hti _ _ _ _]. simpl in *. eapply rep_transfer; eauto.
  - intros j e' (e1 & H1 & _ & _ & H2 & _)%finished_fields. eauto.
  - intros j e1 Hj _. destruct (finished_intro t A i e o j e1 Hj) as (e' & ? & ? & ? & ? & ?). eauto.
Qed.

Lemma finished_transfer t ints tks A i e o t' :
  system_rep (mkSystem t ints tks) A → (i, e) ∈ A → me_outcome e = Pending → o ≠ Pending →
  table_inv t' (finished t A i e o) → same_shape t t' → system_inv (mkSystem t' ints tks).
Proof. intros. exists (finished t A i e o). by eapply finished_rep. Qed.

Lemma miss_step_inv s s' : system_inv s → step s s' → system_inv s'.
Proof.
  intros [A Hrep] Hstep. pose proof Hrep as [Hti _ _ _ _].
  destruct Hstep as [t ints tks slot page frame token init t' ints' g Hfp Ha Hpl Hun Hfr Hfile Hgen Hadm
    |t ints tks page i ints' slot g Hfp Hj|t ints tks token i filled token' t' Hft Hrem
    |t ints tks token i errno t' Hft Hf|t ints tks token i t' Hft Hs|t ints tks1 tk tks2 ints' n Hrel
    |t ints tks slot g t' Hc|t ints tks frame t' b Hp]; simpl in *;
    eauto using step_admit_inv, step_join_inv, step_release_inv, step_clean_inv, step_prepare_inv.
  all: destruct (find_by_token_ok t A token (ti_index _ _ Hti)) as (o & Ho & He); rewrite Hft in Ho;
    injection Ho as <-; destruct He as (e & He & Hpd & _).
  - destruct (advance_remainder_ok t A i e filled token' Hti He Hpd) as (t1 & Heq & Hti' & Hsh).
    rewrite Hrem in Heq. injection Heq as <-.
    exists (FileSlots.update i (set_read filled token') A). eapply rep_transfer; eauto.
    + intros j e' Hj. destruct (update_fields i (set_read filled token') A j e') as (e1 & ? & _ & _ & ? & _);
        [done|done|eauto].
    + intros j e1 Hj _. eexists. split; [by apply update_intro|]. by case_decide.
  - assert (errno ≠ 0%Z) as Herr.
    { unfold fail in Hf. rewrite (entry_ok t A i e (ti_rep _ _ Hti) He) in Hf. mred in Hf.
      by destruct (Z.eqb_spec errno 0). }
    destruct (fail_ok t A i e errno Hti He Hpd Herr) as (t1 & Heq & Hti' & Hsh).
    rewrite Hf in Heq. injection Heq as <-. eapply finished_transfer; eauto; done.
  - destruct (succeed_ok t A i e Hti He Hpd) as (t1 & Heq & Hti' & Hsh).
    rewrite Hs in Heq. injection Heq as <-. eapply finished_transfer; eauto; done.
Qed.

Lemma miss_reachable_inv s0 s : initial s0 → rtc step s0 s → system_inv s.
Proof. intros H0%miss_initial_inv Hr. induction Hr; eauto using miss_step_inv. Qed.

(** ** Properties *)

Lemma get_at_iff t A i e :
  table_inv t A → FileSlots.get_at (slots t) i = Done (Some e) ↔ (i, e) ∈ A.
Proof.
  intros Hti. pose proof (ti_rep _ _ Hti) as Hr. split; [|by apply get_at_elem].
  intros Hg. eapply entry_elem; eauto. unfold FileSlots.get_at in Hg. inv_done. by eapply lookup_lt_Some.
Qed.

(** (singleflight).  In every reachable state [find_pending] succeeds (the
    assertion that the pending index mirrors the slots holds) and names a slot
    exactly when that slot holds the pending miss of the page; so a page never has
    two reads in flight. *)
Theorem singleflight s0 s page :
  initial s0 → rtc step s0 s →
  ∃ o, find_pending (table s) page = Done o ∧
    ∀ i, o = Some i ↔ ∃ e, FileSlots.get_at (slots (table s)) i = Done (Some e) ∧
      me_outcome e = Pending ∧ me_page e = page.
Proof.
  intros H0 Hr. destruct (miss_reachable_inv s0 s H0 Hr) as [A [Hti _ _ _ _]].
  destruct (find_pending_ok _ A page Hti) as (o & Ho & Hspec). exists o. split; [done|]. intros i.
  setoid_rewrite (get_at_iff _ A i _ Hti). destruct o as [j|].
  - destruct Hspec as (e & He & Hpd & Hpg). split.
    + intros [= ->]. eauto.
    + intros (e' & He' & Hpd' & Hpg'). f_equal. eapply (ti_single _ _ Hti); eauto. congruence.
  - split; [done|]. intros (e & He & Hpd & Hpg). by destruct (Hspec i e He Hpd).
Qed.

(** (waiter accounting).  In every reachable state the slot a live token names
    still holds the token's own miss (validation succeeds, it was not recycled),
    its waiter count is exactly the number of live tokens on that slot, and giving
    the token up cannot underflow. *)
Theorem waiter_accounting s0 s tk :
  initial s0 → rtc step s0 s → tk ∈ tokens s →
  (∃ e, validate (table s) (tk_slot tk) (tk_generation tk) (tk_page tk) = Done e) ∧
  waiters (interests s) (tk_slot tk) (tk_generation tk) =
    Done (Some (N.of_nat (length (on_slot (tk_slot tk) (tokens s))))) ∧
  ∃ ints, release (interests s) (tk_slot tk) (tk_generation tk) =
    Done (ints, N.of_nat (length (on_slot (tk_slot tk) (tokens s))) - 1).
Proof.
  intros H0 Hr Htk. destruct (miss_reachable_inv s0 s H0 Hr) as [A [Hti _ Hent Hcount Htok]].
  destruct (Htok tk Htk) as (e & He & Hg & Hpg). destruct (Hent _ _ He) as [w Hw].
  pose proof (Hcount _ _ Hw) as Hc. simpl in Hc. subst w. rewrite Hg in Hw.
  assert (on_slot (tk_slot tk) (tokens s) ≠ []) as Hne.
  { intros Hnil. by apply (filter_nil_not_elem_of _ _ tk Hnil). }
  split_and!.
  - exists e. unfold validate. rewrite (get_at_elem _ _ _ _ (ti_rep _ _ Hti) He). mred.
    rewrite Hg, N.eqb_refl, Hpg. mred. by rewrite bool_decide_eq_true_2.
  - by apply waiters_ok.
  - unfold release. rewrite (proj2 (vget_Done _ _ _) Hw). mred. simpl. rewrite N.eqb_refl. mred.
    set (n := N.of_nat _) in *. assert (1 ≤ n) as Hn.
    { unfold n. destruct (on_slot _ _); [done|simpl; lia]. }
    rewrite (proj2 (checked_sub_Some n 1 (n - 1))) by done. mred.
    rewrite vset_ok by by eapply vget_lt. mred. eauto.
Qed.

(** C33 (eviction protection).  In every reachable state [prepare_eviction] of a
    frame succeeds, and it refuses the frame exactly while some live token waits
    for the successful miss that filled it. *)
Theorem eviction_waits_for_tokens s0 s frame :
  initial s0 → rtc step s0 s → frame < vlen (success_frames (table s)) →
  ∃ t b, prepare_eviction (table s) frame (interests s) = Done (t, b) ∧
    (b = false ↔ ∃ tk e, tk ∈ tokens s ∧
       FileSlots.get_at (slots (table s)) (tk_slot tk) = Done (Some e) ∧
       me_outcome e = Succeeded ∧ me_frame e = frame).
Proof.
  intros H0 Hr Hf. destruct (miss_reachable_inv s0 s H0 Hr) as [A [Hti _ Hent Hcount Htok]].
  setoid_rewrite (get_at_iff _ A _ _ Hti).
  destruct (prepare_eviction_ok _ A frame _ Hti Hf Hent) as
    [[Heq Hno]|(i & e & w & He & Hs & Hfr & Hw & Hd)].
  - exists (table s), true. split; [done|]. split; [done|].
    intros (tk & e & _ & He & Hs & Hfr). by destruct (Hno _ _ He Hs).
  - pose proof (Hcount _ _ Hw) as Hc. simpl in Hc. destruct Hd as [[Hw0 Heq]|(Hw0 & t' & Heq & _)].
    + exists (table s), false. split; [done|]. split; [|done]. intros _.
      destruct (on_slot i (tokens s)) as [|tk l] eqn:E; [simpl in Hc; lia|].
      assert (tk ∈ on_slot i (tokens s)) as [<- Hin]%list_elem_of_filter by (rewrite E; set_solver).
      exists tk, e. done.
    + exists t', true. split; [done|]. split; [done|]. intros (tk & e' & Hin & He' & Hs' & Hfr').
      assert (tk_slot tk = i) as Hi.
      { eapply (ti_frames _ _ Hti); eauto; [by right|by right|congruence]. }
      by destruct (on_slot_nil i (tokens s) ltac:(lia) tk Hin).
Qed.

(** (completions always land).  In every reachable state a completion whose
    operation token the table knows can be routed: a remainder read, a failure and
    a success of that miss all succeed, and so does a new waiter's join short of
    the [u32] waiter bound. *)
Theorem completion_always_routes s0 s token i filled token' errno :
  initial s0 → rtc step s0 s → find_by_token (table s) token = Done (Some i) → errno ≠ 0%Z →
  (∃ t, advance_remainder (table s) i filled token' = Done t) ∧
  (∃ t, fail (table s) i errno = Done t) ∧ (∃ t, succeed (table s) i = Done t) ∧
  (N.of_nat (length (tokens s)) < U32_MAX → ∃ r, join (table s) i (interests s) = Done r).
Proof.
  intros H0 Hr Hft Herr. destruct (miss_reachable_inv s0 s H0 Hr) as [A [Hti _ Hent Hcount Htok]].
  destruct (find_by_token_ok _ A token (ti_index _ _ Hti)) as (o & Ho & He). rewrite Hft in Ho.
  injection Ho as <-. destruct He as (e & He & Hpd & _). split_and!.
  - destruct (advance_remainder_ok _ A i e filled token' Hti He Hpd) as (t & -> & _). eauto.
  - destruct (fail_ok _ A i e errno Hti He Hpd Herr) as (t & -> & _). eauto.
  - destruct (succeed_ok _ A i e Hti He Hpd) as (t & -> & _). eauto.
  - intros Hlt. destruct (Hent _ _ He) as [w Hw]. pose proof (Hcount _ _ Hw) as Hc. simpl in Hc.
    assert (length (on_slot i (tokens s)) ≤ length (tokens s))%nat as Hle by apply length_filter.
    unfold join. rewrite (entry_ok _ A i e (ti_rep _ _ Hti) He). mred.
    rewrite bool_decide_eq_true_2 by done. mred. unfold interest_join.
    rewrite (proj2 (vget_Done _ _ _) Hw). mred. simpl. rewrite N.eqb_refl. mred.
    rewrite (proj2 (checked_add_Some U32_MAX w 1 (w + 1))) by lia. mred.
    rewrite vset_ok by by eapply vget_lt. mred. eauto.
Qed.

(** ** A concrete run

    One miss is admitted, a second waiter joins it, and the read succeeds. *)

Definition demo_page : PageId := mkPageId (mkFileId 1 0 1) 7.

Definition demo_run : outcome (system * system) :=
  t0 ← try_with_capacity 2 1 1;
  let i0 := interests_with_capacity 2 in
  '(t1, i1, g) ← admit_demand t0 0 demo_page 1 9 i0;
  '(i2, (slot, g')) ← join t1 0 i1;
  t2 ← succeed t1 0;
  Done (mkSystem t1 i1 [mkPendingToken demo_page 0 g],
        mkSystem t2 i2 [mkPendingToken demo_page slot g'; mkPendingToken demo_page 0 g]).
Definition demo_states : system * system :=
  match demo_run with Done x => x | Panic => (mkSystem (mkMissTable (FileSlots.mkFileSlots [] []) [] [] 0) [] [],
    mkSystem (mkMissTable (FileSlots.mkFileSlots [] []) [] [] 0) [] []) end.
Definition demo_admitted : system := Eval vm_compute in demo_states.1.
Definition demo_done : system := Eval vm_compute in demo_states.2.
Definition demo_start : system :=
  Eval vm_compute in mkSystem
    (match try_with_capacity 2 1 1 with Done t => t | Panic => table demo_admitted end)
    (interests_with_capacity 2) [].

Lemma miss_demo_initial : initial demo_start.
Proof. exists 2, 1, 1, (table demo_start). split_and!; [done|done|vm_compute; reflexivity|done]. Qed.

Lemma demo_admits : rtc step demo_start demo_admitted.
Proof.
  apply rtc_once. apply (step_admit (table demo_start) (interests demo_start) [] 0 demo_page 1 9 Demand
    (table demo_admitted) (interests demo_admitted) 1).
  - vm_compute. reflexivity.
  - vm_compute. reflexivity.
  - vm_compute. reflexivity.
  - intros i e He _. unfold FileSlots.get_at in He. simpl in He.
    destruct (N.to_nat i) as [|[|n]] eqn:E; unfold vget in He; rewrite E in He; simpl in He; discriminate.
  - vm_compute. reflexivity.
  - vm_compute. reflexivity.
  - intros m [= <-]. vm_compute. reflexivity.
  - vm_compute. reflexivity.
Qed.

Lemma demo_completes : rtc step demo_start demo_done.
Proof.
  etransitivity; [exact demo_admits|].
  apply rtc_l with (mkSystem (table demo_admitted) (interests demo_done) (tokens demo_done)).
  - apply (step_join (table demo_admitted) (interests demo_admitted) (tokens demo_admitted)
      demo_page 0 (interests demo_done) 0 1); vm_compute; reflexivity.
  - apply rtc_once. apply (step_succeed (table demo_admitted) (interests demo_done) (tokens demo_done) 9 0
      (table demo_done)); vm_compute; reflexivity.
Qed.

Lemma singleflight_witness :
  ∃ o, find_pending (table demo_admitted) demo_page = Done o ∧
    (o = Some 0 ↔ ∃ e, FileSlots.get_at (slots (table demo_admitted)) 0 = Done (Some e) ∧
       me_outcome e = Pending ∧ me_page e = demo_page).
Proof.
  destruct (singleflight demo_start demo_admitted demo_page miss_demo_initial demo_admits) as (o & Ho & H).
  exists o. split; [exact Ho|exact (H 0)].
Defined.

Lemma waiter_accounting_witness :
  waiters (interests demo_done) 0 1 = Done (Some 2).
Proof.
  apply (waiter_accounting demo_start demo_done (mkPendingToken demo_page 0 1) miss_demo_initial demo_completes).
  apply list_elem_of_here.
Defined.

Lemma eviction_waits_for_tokens_witness :
  ∃ t b, prepare_eviction (table demo_done) 1 (interests demo_done) = Done (t, b) ∧
    (b = false ↔ ∃ tk e, tk ∈ tokens demo_done ∧
       FileSlots.get_at (slots (table demo_done)) (tk_slot tk) = Done (Some e) ∧
       me_outcome e = Succeeded ∧ me_frame e = 1).
Proof.
  apply (eviction_waits_for_tokens demo_start demo_done 1 miss_demo_initial demo_completes).
  vm_compute. reflexivity.
Defined.

Lemma completion_always_routes_witness :
  ∃ t, fail (table demo_admitted) 0 5 = Done t.
Proof.
  apply (completion_always_routes demo_start demo_admitted 9 0 512 10 5 miss_demo_initial demo_admits);
    [vm_compute; reflexivity|done].
Defined.
End MissSystem.
