(* ===== verification/MissMap.v ===== *)
(** * The miss table as a finite map

    The pool's control pass works with the miss table through [mrep]: a finite map from
    slots to the misses they hold, beside the tokens waiters own.  Each operation of
    [Miss] is shown to act on the map as its name says, and the number of pending misses
    is the length of the pending index. *)
From stdpp Require Import prelude gmap list.
From Stdlib Require Import NArith ZArith Lia.
From S2P Require Import Prelude Ids FileSlots Miss.

Open Scope N_scope.

Module MissMap.
Import Miss MissSystem.

(** An entry without its place in the pending index. *)
Record miss := mkMiss {
  m_page : PageId;
  m_frame : ReadFrameIdx;
  m_token : OpToken;
  m_generation : N;
  m_filled : N;
  m_outcome : MissOutcome;
}.

Definition core (e : MissEntry) : miss :=
  mkMiss (me_page e) (me_frame e) (me_token e) (me_generation e) (me_filled e) (me_outcome e).

Definition with_outcome (o : MissOutcome) (m : miss) : miss :=
  mkMiss (m_page m) (m_frame m) (m_token m) (m_generation m) (m_filled m) o.
Definition with_read (filled : N) (token : OpToken) (m : miss) : miss :=
  mkMiss (m_page m) (m_frame m) token (m_generation m) filled (m_outcome m).

Definition is_pending (im : N * miss) : Prop := m_outcome im.2 = Pending.
#[global] Instance is_pending_dec im : Decision (is_pending im).
Proof. unfold is_pending. apply _. Defined.

(** The capacities of a table: slots (one per frame), file slots, reads in flight. *)
Record mshape (cap fcap reads : N) (t : MissTable) : Prop := {
  ms_slots : length (FileSlots.slots (slots t)) = N.to_nat cap;
  ms_heads : vlen (FileSlots.heads (slots t)) = fcap;
  ms_success : vlen (success_frames t) = cap;
  ms_pending : vlen (pending t) = reads;
}.

Definition views (A : entries) (V : gmap N miss) : Prop :=
  ∀ i m, V !! i = Some m ↔ ∃ e, (i, e) ∈ A ∧ core e = m.

Definition mrep (t : MissTable) (ints : MissInterests) (tks : list PendingToken) (V : gmap N miss) : Prop :=
  ∃ A, system_rep (mkSystem t ints tks) A ∧ views A V.

Lemma mshape_same cap fcap reads t t' : mshape cap fcap reads t → same_shape t t' → mshape cap fcap reads t'.
Proof. intros [H1 H2 H3 H4] (S1 & S2 & S3 & S4). split; unfold vlen in *; congruence. Qed.

(** ** Views *)

Lemma views_pending A V i m : views A V → V !! i = Some m → m_outcome m = Pending → ∃ e, (i, e) ∈ A ∧ me_outcome e = Pending ∧ core e = m.
Proof. intros Hv (e & He & <-)%Hv Hp. eauto. Qed.

Lemma views_elem A V i e : views A V → (i, e) ∈ A → V !! i = Some (core e).
Proof. intros Hv He. apply Hv. eauto. Qed.

Lemma views_update A V i f g e :
  views A V → (∀ j e1 e2, (j, e1) ∈ A → (j, e2) ∈ A → e1 = e2) → (i, e) ∈ A → core (f e) = g (core e) →
  views (FileSlots.update i f A) (<[i := g (core e)]> V).
Proof.
  intros Hv Hu He Hg j m. rewrite lookup_insert_Some. split.
  - intros [[<- <-]|[Hne (e1 & H1 & <-)%Hv]].
    + exists (f e). split; [|done]. apply FileSlots.update_elem. right. eauto.
    + exists e1. split; [|done]. apply FileSlots.update_elem. left. done.
  - intros (e1 & [[Hne H1]|(e2 & [= -> ->] & H2)]%FileSlots.update_elem & <-).
    + right. split; [by intros <-|]. by apply views_elem with A.
    + left. split; [done|]. by rewrite (Hu _ _ _ H2 He).
Qed.

Lemma views_without A V i : views A V → views (FileSlots.without i A) (delete i V).
Proof.
  intros Hv j m. rewrite lookup_delete_Some, (Hv j m). setoid_rewrite without_elem. naive_solver.
Qed.

Lemma views_finished t A V i e o :
  index_inv t A → views A V → (∀ j e1 e2, (j, e1) ∈ A → (j, e2) ∈ A → e1 = e2) → (i, e) ∈ A →
  views (finished t A i e o) (<[i := with_outcome o (core e)]> V).
Proof.
  intros Hi Hv Hu He j m. rewrite lookup_insert_Some. split.
  - intros [[<- <-]|[Hne (e1 & H1 & <-)%Hv]].
    + eexists. split; [apply finished_elem; eauto|]. by repeat case_decide.
    + eexists. split; [apply finished_elem; eauto|]. by repeat case_decide.
  - intros (e' & (e1 & Hj & ->)%finished_elem & <-). destruct (decide (j = i)) as [->|Hne].
    + left. split; [done|]. rewrite (Hu _ _ _ Hj He). by repeat case_decide.
    + right. split; [done|]. rewrite (views_elem A V j e1 Hv Hj). by repeat case_decide.
Qed.

(** The pending index lists the pending misses. *)
Lemma pending_count t A V :
  index_inv t A → (∀ j e1 e2, (j, e1) ∈ A → (j, e2) ∈ A → e1 = e2) → views A V →
  pending_len t = N.of_nat (size (filter is_pending V)).
Proof.
  intros Hi Hu Hv. pose proof Hi as [H1 H2 H3 H4 H5].
  set (live := take (N.to_nat (pending_len t)) (pending t)).
  assert (∀ k, (k < N.to_nat (pending_len t))%nat → ∃ pm, live !! k = Some (Some pm)) as Hl.
  { intros k Hk. destruct (proj1 (H3 (N.of_nat k) ltac:(lia)) ltac:(lia)) as [pm Hpm]. rewrite Nat2N.id in Hpm. exists pm. by apply lookup_take_Some. }
  assert (length live = N.to_nat (pending_len t)) as Hlen by (unfold live; rewrite length_take; unfold vlen in *; lia).
  assert (∀ i, Some i ∈ ((λ o : option PendingMiss, pm_slot <$> o) <$> live) ↔ ∃ m, filter is_pending V !! i = Some m) as Hin.
  { intros i. rewrite list_elem_of_fmap. split.
    - intros ([pm|] & [= ->] & [k Hk]%list_elem_of_lookup). apply lookup_take_Some in Hk as [Hk _].
      destruct (H4 (N.of_nat k) pm) as (e & He & Hp & _ & _); [by rewrite Nat2N.id|]. exists (core e).
      apply map_lookup_filter_Some. split; [by apply views_elem with A|done].
    - intros (m & [Hm Hp]%map_lookup_filter_Some). destruct (views_pending A V i m Hv Hm Hp) as (e & He & Hpe & _).
      exists (Some (index_of i e)). split; [done|]. specialize (H5 _ _ He Hpe). apply list_elem_of_lookup.
      exists (N.to_nat (me_pending_position e)). apply lookup_take_Some. split; [done|].
      assert (me_pending_position e < pending_len t); [|lia]. apply H3; [by eapply vget_lt|eauto]. }
  assert (NoDup ((λ o : option PendingMiss, pm_slot <$> o) <$> live)) as Hnd.
  { apply NoDup_alt. intros j k o Hj Hk. rewrite list_lookup_fmap in Hj, Hk.
    destruct (live !! j) as [pj|] eqn:Ej; [|done]. destruct (live !! k) as [pk|] eqn:Ek; [|done]. simplify_eq/=.
    apply lookup_take_Some in Ej as [Ej Hlj]. apply lookup_take_Some in Ek as [Ek Hlk].
    destruct (Hl j Hlj) as [pm1 E1], (Hl k Hlk) as [pm2 E2]. apply lookup_take_Some in E1 as [E1 _]. apply lookup_take_Some in E2 as [E2 _]. simplify_eq/=.
    destruct (H4 (N.of_nat j) pm1) as (e1 & He1 & _ & P1 & _); [by rewrite Nat2N.id|].
    destruct (H4 (N.of_nat k) pm2) as (e2 & He2 & _ & P2 & _); [by rewrite Nat2N.id|].
    rewrite Hj in He1. rewrite (Hu _ _ _ He1 He2) in P1. lia. }
  assert (((λ o : option PendingMiss, pm_slot <$> o) <$> live) ≡ₚ Some <$> (map_to_list (filter is_pending V)).*1) as Hperm.
  { apply NoDup_Permutation; [done|apply NoDup_fmap_2; [apply _|apply NoDup_fst_map_to_list]|]. intros [i|].
    - rewrite Hin, list_elem_of_fmap. split.
      + intros [m Hm]. exists i. split; [done|]. apply list_elem_of_fmap. exists (i, m). split; [done|]. by apply elem_of_map_to_list.
      + intros (j & [= <-] & ([j' m] & -> & Hm)%list_elem_of_fmap). exists m. by apply elem_of_map_to_list.
    - split; [|by intros (? & ? & _)%list_elem_of_fmap]. intros ([pm|] & [=] & [k Hk]%list_elem_of_lookup)%list_elem_of_fmap.
      pose proof Hk as [_ Hlt]%lookup_take_Some. destruct (Hl k Hlt) as [pm Hpm]. congruence. }
  apply Permutation_length in Hperm. rewrite !length_fmap, Hlen in Hperm. rewrite <- length_map_to_list, <- Hperm. lia.
Qed.

Lemma mrep_count t ints tks V : mrep t ints tks V → pending_len t = N.of_nat (size (filter is_pending V)).
Proof. intros (A & [Hti _ _ _ _] & Hv). eapply pending_count; [apply Hti|by apply table_uniq with t|done]. Qed.

(** ** Searches *)

Lemma find_pending_map t ints tks V page :
  mrep t ints tks V →
  ∃ o, find_pending t page = Done o ∧
    match o with
    | Some i => ∃ m, V !! i = Some m ∧ m_outcome m = Pending ∧ m_page m = page
    | None => ∀ i m, V !! i = Some m → m_outcome m = Pending → m_page m ≠ page
    end.
Proof.
  intros (A & Hr & Hv). destruct (find_pending_ok t A page (sr_table _ _ Hr)) as (o & -> & Ho). exists o. split; [done|].
  destruct o as [i|].
  - destruct Ho as (e & He & Hp & Hpg). exists (core e). split_and!; [by apply views_elem with A|done..].
  - intros i m (e & He & <-)%Hv Hp. by apply (Ho i e).
Qed.

Lemma find_by_token_map t ints tks V token :
  mrep t ints tks V →
  ∃ o, find_by_token t token = Done o ∧
    match o with
    | Some i => ∃ m, V !! i = Some m ∧ m_outcome m = Pending ∧ m_token m = token
    | None => ∀ i m, V !! i = Some m → m_outcome m = Pending → m_token m ≠ token
    end.
Proof.
  intros (A & Hr & Hv). destruct (find_by_token_ok t A token (ti_index _ _ (sr_table _ _ Hr))) as (o & -> & Ho). exists o. split; [done|].
  destruct o as [i|].
  - destruct Ho as (e & He & Hp & Hpg). exists (core e). split_and!; [by apply views_elem with A|done..].
  - intros i m (e & He & <-)%Hv Hp. by apply (Ho i e).
Qed.

Lemma entry_map t ints tks V i m : mrep t ints tks V → V !! i = Some m → ∃ e, entry t i = Done e ∧ core e = m.
Proof.
  intros (A & Hr & Hv) (e & He & <-)%Hv. exists e. split; [|done]. eapply entry_ok; [apply (sr_table _ _ Hr)|done].
Qed.

Lemma entry_view t ints tks V i e : mrep t ints tks V → entry t i = Done e → V !! i = Some (core e).
Proof.
  intros (A & Hr & Hv) He. unfold entry in He. pose proof (ti_rep _ _ (sr_table _ _ Hr)) as Hrep. simpl in Hrep.
  destruct (decide (N.to_nat i < length (FileSlots.slots (slots t)))%nat) as [Hlt|Hge].
  - destruct (FileSlots.get_at_ok _ _ i Hrep Hlt) as [[_ Hn]|(x & Hx & Hs)]; [rewrite Hn in He|rewrite Hs in He]; [done|].
    mred in He. injection He as <-. by apply views_elem with A.
  - unfold FileSlots.get_at, vget in He. rewrite lookup_ge_None_2 in He by lia. done.
Qed.

(** Frames and pages of misses are not shared. *)
Lemma mrep_pages t ints tks V i j m m' :
  mrep t ints tks V → V !! i = Some m → V !! j = Some m' → m_outcome m = Pending → m_outcome m' = Pending →
  m_page m = m_page m' → i = j.
Proof. intros (A & Hr & Hv) (e & He & <-)%Hv (e' & He' & <-)%Hv. apply (ti_single _ _ (sr_table _ _ Hr)); done. Qed.

Definition holds (m : miss) : Prop := m_outcome m = Pending ∨ m_outcome m = Succeeded.

Lemma mrep_frames t ints tks V i j m m' :
  mrep t ints tks V → V !! i = Some m → V !! j = Some m' → holds m → holds m' → m_frame m = m_frame m' → i = j.
Proof. intros (A & Hr & Hv) (e & He & <-)%Hv (e' & He' & <-)%Hv. apply (ti_frames _ _ (sr_table _ _ Hr)); done. Qed.

Lemma mrep_range t ints tks V i m : mrep t ints tks V → V !! i = Some m → m_frame m < vlen (success_frames t).
Proof. intros (A & Hr & Hv) (e & He & <-)%Hv. by eapply (ti_range _ _ (sr_table _ _ Hr)). Qed.

(** ** Terminal outcomes *)

Lemma succeed_map t ints tks V i m :
  mrep t ints tks V → V !! i = Some m → m_outcome m = Pending →
  ∃ t', succeed t i = Done t' ∧ mrep t' ints tks (<[i := with_outcome Succeeded m]> V) ∧ same_shape t t'.
Proof.
  intros (A & Hr & Hv) Hm Hp. destruct (views_pending A V i m Hv Hm Hp) as (e & He & Hpe & <-). pose proof (sr_table _ _ Hr) as Hti.
  destruct (succeed_ok t A i e Hti He Hpe) as (t' & -> & Hti' & Hsh). exists t'. split_and!; try done.
  exists (finished t A i e Succeeded). split; [|by apply views_finished; [apply Hti|..|]; eauto using table_uniq].
  eapply finished_rep; eauto; done.
Qed.

Lemma fail_map t ints tks V i m errno :
  mrep t ints tks V → V !! i = Some m → m_outcome m = Pending → errno ≠ 0%Z →
  ∃ t', fail t i errno = Done t' ∧ mrep t' ints tks (<[i := with_outcome (Failed errno) m]> V) ∧ same_shape t t'.
Proof.
  intros (A & Hr & Hv) Hm Hp Herr. destruct (views_pending A V i m Hv Hm Hp) as (e & He & Hpe & <-). pose proof (sr_table _ _ Hr) as Hti.
  destruct (fail_ok t A i e errno Hti He Hpe Herr) as (t' & -> & Hti' & Hsh). exists t'. split_and!; try done.
  exists (finished t A i e (Failed errno)). split; [|by apply views_finished; [apply Hti|..|]; eauto using table_uniq].
  eapply finished_rep; eauto; done.
Qed.

Lemma advance_remainder_map t ints tks V i m filled token :
  mrep t ints tks V → V !! i = Some m → m_outcome m = Pending →
  ∃ t', advance_remainder t i filled token = Done t' ∧ mrep t' ints tks (<[i := with_read filled token m]> V) ∧ same_shape t t'.
Proof.
  intros (A & Hr & Hv) Hm Hp. destruct (views_pending A V i m Hv Hm Hp) as (e & He & Hpe & <-). pose proof (sr_table _ _ Hr) as Hti.
  destruct (advance_remainder_ok t A i e filled token Hti He Hpe) as (t' & -> & Hti' & Hsh). exists t'. split_and!; try done.
  exists (FileSlots.update i (set_read filled token) A). split; [|by apply views_update; eauto using table_uniq].
  eapply rep_transfer; eauto.
  - intros j e' Hj. destruct (update_fields i (set_read filled token) A j e') as (e1 & ? & _ & _ & ? & _); [done|done|eauto].
  - intros j e1 Hj _. eexists. split; [by apply update_intro|]. by case_decide.
Qed.

(** ** Waiters *)

(** Nobody holds a token on the slot. *)
Definition unwatched (tks : list PendingToken) (i : N) : Prop := on_slot i tks = [].

Lemma interest_waiters t ints tks A i e :
  system_rep (mkSystem t ints tks) A → (i, e) ∈ A →
  interest_at ints i (me_generation e) (N.of_nat (length (on_slot i tks))).
Proof.
  intros Hr He. destruct (sr_entry _ _ Hr i e He) as [w Hw]. simpl in Hw. pose proof (sr_count _ _ Hr i _ Hw) as Hc. simpl in Hc.
  by rewrite <- Hc.
Qed.

Lemma clean_map t ints tks V i m :
  mrep t ints tks V → V !! i = Some m →
  ∃ t' V', clean_terminal_zero t i (m_generation m) ints = Done t' ∧ mrep t' ints tks V' ∧ same_shape t t' ∧
    ((V' = V ∧ (m_outcome m = Pending ∨ ¬ unwatched tks i)) ∨ (V' = delete i V ∧ m_outcome m ≠ Pending ∧ unwatched tks i)).
Proof.
  intros (A & Hr & Hv) Hm. pose proof Hm as (e & He & <-)%Hv. pose proof (sr_table _ _ Hr) as Hti. simpl in Hti.
  pose proof (clean_ok t A i e ints _ Hti He (interest_waiters _ _ _ _ _ _ Hr He)) as Hc. simpl m_generation. simpl m_outcome. case_decide as Hd.
  - destruct Hc as (t' & -> & Hti' & Hsh & _). exists t', (delete i V). destruct Hd as [Ho Hz].
    assert (unwatched tks i) as Hun by (apply nil_length_inv; lia). split_and!; try done; [|by right].
    exists (FileSlots.without i A). split; [|by apply views_without]. eapply rep_transfer; eauto.
    + intros j e' [_ Hj]%without_elem. eauto.
    + intros j e' Hj Hne. exists e'. split; [|done]. apply without_elem. split; [|done]. by intros ->.
  - exists t, V. split_and!; try done; [by exists A|]. left. split; [done|].
    destruct (decide (me_outcome e = Pending)); [by left|right]. intros Hun. apply Hd. by rewrite Hun.
Qed.

Lemma prepare_map t ints tks V f :
  mrep t ints tks V → f < vlen (success_frames t) →
  ∃ t' b V', prepare_eviction t f ints = Done (t', b) ∧ mrep t' ints tks V' ∧ same_shape t t' ∧
    if b : bool then
      (∀ i m, V' !! i = Some m → m_outcome m = Succeeded → m_frame m ≠ f) ∧
      (V' = V ∨ ∃ i m, V !! i = Some m ∧ m_outcome m = Succeeded ∧ m_frame m = f ∧ unwatched tks i ∧ V' = delete i V)
    else V' = V ∧ ∃ i m, V !! i = Some m ∧ m_outcome m = Succeeded ∧ m_frame m = f ∧ ¬ unwatched tks i.
Proof.
  intros (A & Hr & Hv) Hf. pose proof (sr_table _ _ Hr) as Hti. simpl in Hti.
  destruct (prepare_eviction_ok t A f ints Hti Hf (sr_entry _ _ Hr)) as
    [[-> Hno]|(i & e & w & He & Hs & Hfr & Hw & Hc)].
  - exists t, true, V. split_and!; try done; [by exists A| |by left]. intros i m (e & He & <-)%Hv. by apply Hno with i.
  - pose proof (interest_waiters _ _ _ _ _ _ Hr He) as Hw'. unfold interest_at in *. simplify_eq.
    pose proof (views_elem _ _ _ _ Hv He) as Hm. destruct Hc as [[Hne ->]|(Hz & t' & -> & Hti' & Hsh)].
    + exists t, false, V. split_and!; try done; [by exists A|]. exists i, (core e). split_and!; try done.
      intros Hun. apply Hne. by rewrite Hun.
    + assert (unwatched tks i) as Hun by (apply nil_length_inv; lia). exists t', true, (delete i V). split_and!; try done.
      * exists (FileSlots.without i A). split; [|by apply views_without]. eapply rep_transfer; eauto.
        -- intros j e' [_ Hj]%without_elem. eauto.
        -- intros j e' Hj Hne. exists e'. split; [|done]. apply without_elem. split; [|done]. by intros ->.
      * intros j m [Hne (e' & He' & <-)%Hv]%lookup_delete_Some Hs' Heq. apply Hne.
        eapply (ti_frames _ _ Hti i j e e'); try done; by right.
      * right. exists i, (core e). split_and!; done.
Qed.

(** The generations have room for [n] more misses on each slot. *)
Definition groom (n : N) (ints : MissInterests) : Prop := ∀ j a, ints !! j = Some a → mi_generation a + n ≤ U64_MAX.

Lemma groom_le n n' ints : groom n ints → n' ≤ n → groom n' ints.
Proof. intros Hg Hle j a Ha. specialize (Hg j a Ha). lia. Qed.

Lemma groom_store n ints i g w w' :
  groom n ints → interest_at ints i g w → groom n (<[N.to_nat i := mkMissInterest g w']> ints).
Proof.
  intros Hg Hi j a [(_ & <- & _)|[_ Ha]]%list_lookup_insert_Some; [|by eapply Hg]. exact (Hg _ _ Hi).
Qed.

(** A token is what [join] and [admit_demand] hand out. *)
Lemma join_map t ints tks V i m :
  mrep t ints tks V → V !! i = Some m → m_outcome m = Pending → N.of_nat (length tks) < U32_MAX →
  ∃ ints', join t i ints = Done (ints', (i, m_generation m)) ∧
    mrep t ints' (mkPendingToken (m_page m) i (m_generation m) :: tks) V ∧ (∀ n, groom n ints → groom n ints').
Proof.
  intros (A & Hr & Hv) Hm Hp Hlen. pose proof Hm as (e & He & <-)%Hv. simpl in *.
  pose proof (interest_waiters _ _ _ _ _ _ Hr He) as Hw. pose proof (sr_table _ _ Hr) as Hti. simpl in Hti.
  unfold join. rewrite (entry_ok t A i e (ti_rep _ _ Hti) He). mred. rewrite bool_decide_eq_true_2 by done. mred.
  unfold interest_join. rewrite (proj2 (vget_Done _ _ _) Hw). mred. simpl. rewrite N.eqb_refl. mred.
  assert (length (on_slot i tks) ≤ length tks)%nat by apply length_filter.
  unfold checked_add. rewrite (proj2 (N.leb_le _ _)) by lia. mred. rewrite vset_ok by eauto using vget_lt. mred.
  eexists. split; [done|]. split; [|intros n Hg; by eapply groom_store].
  exists A. split; [|done]. eapply interest_store; [exact Hr|eauto|..].
  - intros j Hj. unfold on_slot. by rewrite filter_cons_False.
  - unfold on_slot. rewrite filter_cons_True by done. simpl. unfold on_slot. lia.
  - intros tk [->|Htk]%elem_of_cons; [by exists e|]. by apply (sr_token _ _ Hr).
Qed.

Lemma validate_map t ints tks V tk :
  mrep t ints tks V → tk ∈ tks →
  ∃ e, validate t (tk_slot tk) (tk_generation tk) (tk_page tk) = Done e ∧ V !! tk_slot tk = Some (core e) ∧
    me_page e = tk_page tk ∧ me_generation e = tk_generation tk.
Proof.
  intros (A & Hr & Hv) Htk. destruct (sr_token _ _ Hr tk Htk) as (e & He & Hg & Hp). exists e. unfold validate.
  pose proof (sr_table _ _ Hr) as Hti. simpl in Hti. rewrite (get_at_elem _ _ _ _ (ti_rep _ _ Hti) He). mred. rewrite Hg, N.eqb_refl. mred.
  rewrite bool_decide_eq_true_2 by done. mred. split_and!; try done. by apply views_elem with A.
Qed.

Lemma release_map t ints tks1 tk tks2 V :
  mrep t ints (tks1 ++ tk :: tks2) V →
  ∃ ints' n, release ints (tk_slot tk) (tk_generation tk) = Done (ints', n) ∧ mrep t ints' (tks1 ++ tks2) V ∧
    waiters ints' (tk_slot tk) (tk_generation tk) = Done (Some n) ∧ (∀ n, groom n ints → groom n ints').
Proof.
  intros (A & Hr & Hv). destruct (sr_token _ _ Hr tk) as (e & He & Hg & _); [set_solver|].
  pose proof (interest_waiters _ _ _ _ _ _ Hr He) as Hw. rewrite Hg in Hw. unfold release.
  rewrite (proj2 (vget_Done _ _ _) Hw). mred. simpl. rewrite N.eqb_refl. mred.
  assert (length (on_slot (tk_slot tk) (tks1 ++ tk :: tks2)) = S (length (on_slot (tk_slot tk) (tks1 ++ tks2)))) as Hc.
  { unfold on_slot. rewrite !filter_app, filter_cons_True, !length_app by done. simpl. lia. }
  unfold checked_sub. rewrite (proj2 (N.leb_le _ _)) by lia. mred. rewrite vset_ok by eauto using vget_lt. mred.
  eexists _, _. split; [done|]. split_and!; [| |intros n Hn; by eapply groom_store].
  - exists A. split; [|done]. eapply interest_store; [exact Hr|eauto|..].
    + intros j Hj. unfold on_slot. rewrite !filter_app. by rewrite filter_cons_False.
    + lia.
    + intros tk' Htk'. apply (sr_token _ _ Hr). simpl. set_solver.
  - apply waiters_ok. unfold interest_at. apply list_lookup_insert_eq. by eapply lookup_lt_Some.
Qed.

(** ** Admission *)

Lemma admission_slot_map t ints tks V cap fcap reads :
  mrep t ints tks V → mshape cap fcap reads t →
  ∃ o, admission_slot t ints = Done o ∧
    ∀ i, o = Some i → i < cap ∧ unwatched tks i ∧ ∀ m, V !! i = Some m → m_outcome m ≠ Pending.
Proof.
  intros (A & Hr & Hv) Hs. pose proof (sr_table _ _ Hr) as Hti. simpl in Hti.
  destruct (admission_slot_ok t A ints Hti (sr_entry _ _ Hr)) as (o & -> & Ho). exists o. split; [done|]. intros i ->.
  destruct Ho as [Hlt Hterm]. rewrite (ms_slots _ _ _ _ Hs) in Hlt. split_and!; [lia| |intros m (e & He & <-)%Hv; by apply Hterm].
  destruct (on_slot i tks) as [|tk l] eqn:E; [done|exfalso].
  assert (tk ∈ on_slot i tks) as [Hsl Hin]%list_elem_of_filter by (rewrite E; set_solver).
  destruct (sr_token _ _ Hr tk Hin) as (e & He & _). rewrite Hsl in He. destruct (Hterm e He) as [_ H0].
  pose proof (interest_waiters _ _ _ _ _ _ Hr He) as Hw. unfold interest_at in *. rewrite E in Hw. rewrite H0 in Hw. simplify_eq/=.
Qed.

(** [admission_slots] collects reusable slots in order. *)
Lemma collect_ok ints (A : entries) want ss : ∀ i acc,
  (∀ (k : nat) s, ss !! k = Some s → ∃ o, FileSlots.slot_get s = Done o ∧ reusable ints (i + N.of_nat k) o = Done (idle ints (i + N.of_nat k) o) ∧
     match o with Some e => ∀ e', (i + N.of_nat k, e') ∈ A → e' = e | None => i + N.of_nat k ∉ A.*1 end) →
  ∃ l b, collect_slots ints ss i want acc = Done (acc ++ l, b) ∧ NoDup l ∧ (b = true → length (acc ++ l) = want) ∧
    ∀ j, j ∈ l → (i ≤ j < i + vlen ss) ∧ ∀ e, (j, e) ∈ A → idle ints j (Some e) = true.
Proof.
  induction ss as [|s ss IH]; intros i acc Hs; simpl.
  { exists [], false. rewrite app_nil_r. split_and!; [done|constructor|done|]. by intros j ?%elem_of_nil. }
  destruct (Hs 0%nat s eq_refl) as (o & -> & Hre & Ho). rewrite N.add_0_r in Hre, Ho. mred. rewrite Hre. mred.
  assert (vlen (s :: ss) = vlen ss + 1) as Hlen by (unfold vlen; simpl; lia).
  assert (∀ acc, ∃ l b, collect_slots ints ss (i + 1) want acc = Done (acc ++ l, b) ∧ NoDup l ∧ (b = true → length (acc ++ l) = want) ∧
    ∀ j, j ∈ l → (i + 1 ≤ j < i + vlen (s :: ss)) ∧ ∀ e, (j, e) ∈ A → idle ints j (Some e) = true) as Hrest.
  { intros acc'. destruct (IH (i + 1) acc') as (l & b & H1 & H2 & H3 & H4).
    { intros k s' Hk. destruct (Hs (S k) s' Hk) as (o' & H1 & H2 & H3). exists o'. replace (i + 1 + N.of_nat k) with (i + N.of_nat (S k)) by lia. done. }
    exists l, b. split_and!; try done. intros j Hj. destruct (H4 j Hj) as [? ?]. split; [lia|done]. }
  destruct (idle ints i o) eqn:Hi.
  - assert (∀ e, (i, e) ∈ A → idle ints i (Some e) = true) as Hhere.
    { intros e He. destruct o as [e'|]; [by rewrite (Ho e He)|]. exfalso. apply Ho, list_elem_of_fmap. by exists (i, e). }
    destruct (Nat.eqb_spec (length (acc ++ [i])) want) as [Heq|].
    + exists [i], true. split_and!; try done; [apply NoDup_singleton|]. intros j ->%list_elem_of_singleton. split; [lia|done].
    + destruct (Hrest (acc ++ [i])) as (l & b & -> & H2 & H3 & H4). exists (i :: l), b. rewrite <- app_assoc in *. split_and!; try done.
      * apply NoDup_cons. split; [|done]. intros Hin. destruct (H4 i Hin). lia.
      * intros j [->|Hj]%elem_of_cons; [split; [lia|done]|]. destruct (H4 j Hj) as [? ?]. split; [lia|done].
  - destruct (Hrest acc) as (l & b & H1 & H2 & H3 & H4). exists l, b. split_and!; try done. intros j Hj. destruct (H4 j Hj). split; [lia|done].
Qed.

(** A slot whose entry, if any, is idle can take a new miss. *)
Lemma idle_free t ints tks V A i :
  system_rep (mkSystem t ints tks) A → views A V → (∀ e, (i, e) ∈ A → idle ints i (Some e) = true) →
  unwatched tks i ∧ ∀ m, V !! i = Some m → m_outcome m ≠ Pending.
Proof.
  intros Hr Hv Hid. split.
  - unfold unwatched. destruct (on_slot i tks) as [|tk l] eqn:E; [done|exfalso].
    assert (tk ∈ on_slot i tks) as [Hsl Hin]%list_elem_of_filter by (rewrite E; set_solver).
    destruct (sr_token _ _ Hr tk Hin) as (e & He & _). rewrite Hsl in He. specialize (Hid e He).
    pose proof (interest_waiters _ _ _ _ _ _ Hr He) as Hw. unfold idle in Hid. unfold interest_at in Hw. rewrite Hw in Hid. simpl in Hid.
    apply andb_true_iff in Hid as [_ Hz%N.eqb_eq]. rewrite E in Hz. simpl in Hz. lia.
  - intros m (e & He & <-)%Hv. specialize (Hid e He). unfold idle in Hid. apply andb_true_iff in Hid as [Ho _]. by apply bool_decide_eq_true in Ho.
Qed.

Lemma admission_slots_map t ints tks V cap fcap reads want :
  mrep t ints tks V → mshape cap fcap reads t → 0 < want →
  ∃ l b, admission_slots t ints want = Done (l, b) ∧
    (b = true → vlen l = want ∧ NoDup l ∧ ∀ i, i ∈ l → i < cap ∧ unwatched tks i ∧ ∀ m, V !! i = Some m → m_outcome m ≠ Pending).
Proof.
  intros (A & Hr & Hv) Hs Hwant. pose proof (sr_table _ _ Hr) as Hti. simpl in Hti. unfold admission_slots. rewrite (proj2 (N.ltb_lt 0 want)) by done. mred.
  destruct (collect_ok ints A (N.to_nat want) (FileSlots.slots (slots t)) 0 []) as (l & b & -> & Hnd & Hlen & Hl).
  { intros k s Hk. rewrite N.add_0_l. pose proof (lookup_lt_Some _ _ _ Hk) as Hlt.
    destruct (FileSlots.rep_slot (slots t) A (N.of_nat k) (ti_rep _ _ Hti)) as (s' & Hs' & Hd); [by rewrite Nat2N.id|]. rewrite Nat2N.id in Hs'.
    assert (s' = s) as -> by congruence. destruct Hd as [[Hn H0]|(e & He & _ & Hg)].
    - exists None. split_and!; [by apply FileSlots.slot_get_vacant|done|done].
    - exists (Some e). split_and!; [done| |intros e' He'; by eapply table_uniq]. destruct (sr_entry _ _ Hr _ _ He) as [w Hw]. by eapply reusable_ok. }
  exists l, b. split; [done|]. intros Hb. specialize (Hlen Hb). simpl in Hlen. split_and!; [unfold vlen; lia|done|]. intros i Hi. destruct (Hl i Hi) as [Hlt Hid].
  split; [|by eapply idle_free]. unfold vlen in Hlt. rewrite (ms_slots _ _ _ _ Hs) in Hlt. lia.
Qed.

Lemma admit_map t ints tks V cap fcap reads i page frame token init n :
  mrep t ints tks V → mshape cap fcap reads t → groom (1 + n) ints →
  i < cap → unwatched tks i → (∀ m, V !! i = Some m → m_outcome m ≠ Pending) →
  pending_len t < reads → fid_slot (pg_file page) < fcap → frame < cap →
  (∀ j m, V !! j = Some m → m_outcome m = Pending → m_page m ≠ page) →
  (∀ j m, V !! j = Some m → holds m → m_frame m ≠ frame) →
  ∃ t' ints' g, admit_initial t i page frame token ints init = Done (t', ints', g) ∧
    mrep t' ints' (match init with Demand => [mkPendingToken page i g] | Speculative => [] end ++ tks)
      (<[i := mkMiss page frame token g 0 Pending]> V) ∧
    mshape cap fcap reads t' ∧ groom n ints'.
Proof.
  intros (A & Hr & Hv) [S1 S2 S3 S4] Hg Hi Hun Hterm Hpl Hfile Hfr Hpages Hframes.
  pose proof (sr_table _ _ Hr) as Hti. simpl in Hti.
  destruct (sr_interest _ _ i Hr) as (g0 & w & Hw & Hwt); [simpl; lia|]. simpl in Hw, Hwt. rewrite Hun in Hwt. simpl in Hwt. subst w.
  assert (∀ e, (i, e) ∈ A → me_outcome e ≠ Pending ∧ me_generation e = g0) as Hterm'.
  { intros e He. split; [apply (Hterm (core e)); by apply views_elem with A|]. pose proof (interest_waiters _ _ _ _ _ _ Hr He) as Hw'. unfold interest_at in *. congruence. }
  destruct (admit_ok t A i page frame token ints g0 init) as (t1 & Heq & Hti1 & Hsh); try done; try lia.
  { specialize (Hg _ _ Hw). simpl in Hg. lia. }
  { intros j e He. apply (Hpages j (core e)). by apply views_elem with A. }
  { intros j e He. apply (Hframes j (core e)). by apply views_elem with A. }
  eexists _, _, _. split; [exact Heq|]. split_and!.
  - set (e := mkMissEntry page frame token (g0 + 1) 0 (pending_len t) Pending) in *.
    exists ((i, e) :: FileSlots.without i A). split.
    + eapply admit_rep; done.
    + intros j m. rewrite lookup_insert_Some. split.
      * intros [[<- <-]|[Hne (e1 & H1 & <-)%Hv]]; [exists e; set_solver|]. exists e1. split; [|done]. apply elem_of_cons. right. by apply without_elem.
      * intros (e1 & [[= -> ->]|[Hne H1]%without_elem]%elem_of_cons & <-); [by left|]. right. split; [done|]. by apply views_elem with A.
  - by apply mshape_same with t.
  - intros j a [(_ & <- & _)|[_ Ha]]%list_lookup_insert_Some; simpl; [specialize (Hg _ _ Hw); simpl in Hg; lia|]. specialize (Hg _ _ Ha). lia.
Qed.

(** ** Retirement *)

Lemma any_live_ok t ints tks A file l :
  system_rep (mkSystem t ints tks) A → (∀ i e, (i, e) ∈ l → (i, e) ∈ A) →
  ∃ b, any_live file ints l = Done b ∧
    (b = false → ∀ i e, (i, e) ∈ l → pg_file (me_page e) = file → me_outcome e ≠ Pending ∧ unwatched tks i).
Proof.
  intros Hr. induction l as [|[i e] l IH]; intros Hl; simpl; [exists false; split; [done|]; by intros _ ? ? ?%elem_of_nil|].
  destruct IH as (b & Hb & Hlive); [intros; apply Hl; set_solver|].
  pose proof (interest_waiters _ _ _ _ _ _ Hr (Hl i e ltac:(set_solver))) as Hw.
  case_bool_decide as Hf; mred.
  - case_bool_decide as Hp; mred; [exists true; split; [done|]; done|]. rewrite (waiters_ok _ _ _ _ Hw). mred. case_bool_decide as Hz.
    + exists true. split; [done|]. done.
    + exists b. split; [done|]. intros Hbf i' e' [[= -> ->]|Hin]%elem_of_cons Hfile; [|by apply (Hlive Hbf)]. split; [done|].
      apply nil_length_inv. injection Hz. lia.
  - exists b. split; [done|]. intros Hbf i' e' [[= -> ->]|Hin]%elem_of_cons Hfile; [done|by apply (Hlive Hbf)].
Qed.

Lemma has_live_map t ints tks V cap fcap reads file :
  mrep t ints tks V → mshape cap fcap reads t → fid_slot file < fcap →
  ∃ b, has_live_for_file t file ints = Done b ∧
    (b = false → ∀ i m, V !! i = Some m → pg_file (m_page m) = file → m_outcome m ≠ Pending ∧ unwatched tks i).
Proof.
  intros (A & Hr & Hv) Hs Hlt. pose proof (sr_table _ _ Hr) as Hti. simpl in Hti. unfold has_live_for_file.
  rewrite (FileSlots.for_file_ok (slots t) A (fid_slot file) (ti_rep _ _ Hti)) by by rewrite (ms_heads _ _ _ _ Hs). mred.
  destruct (any_live_ok t ints tks A file (FileSlots.owned (fid_slot file) A) Hr) as (b & -> & Hb).
  { intros i e [_ He]%list_elem_of_filter. done. }
  exists b. split; [done|]. intros Hbf i m (e & He & <-)%Hv Hfile. apply (Hb Hbf i e); [|done].
  apply list_elem_of_filter. split; [|done]. unfold file_slot, MissEntry_owned. simpl. simpl in Hfile. by rewrite Hfile.
Qed.
End MissMap.
