(* ===== verification/Retention.v ===== *)
(** * Retained frames: counted handles, the held bit and the release ring

    Models src/src/pool/retention.rs.  A guard can be promoted to a retained
    handle; a per-frame word counts the handles (low 16 bits) and marks a frame
    whose eviction matured while handles were alive ([HELD]).  The last handle of a
    held frame pushes it on a bounded ring; the pool drains the ring and frees the
    frame.  A budget counter bounds the distinct retained frames.

    Every atomic access is a step of its own: [thread_step] is the next access of a
    promoting or releasing thread, [control_step] the next access of the holder of
    the control lock ([matured_outcome], [drain_releases]); [step] interleaves any
    number of threads with it.  The theorems: no assertion of the component can fail
    in any interleaving (in particular the ring never overflows and no handle count
    or budget underflows), the distinct retained frames never exceed the budget, a
    frame with a live handle is never freed, and a drain pass reclaims every held
    frame whose handles were gone when it started.

    A reclaim pass that finds [occupied_budget] at zero frees matured frames without
    asking [matured_outcome]; in [step] a matured frame is always asked about, which
    [unretained_matures] shows to be the same. *)
From stdpp Require Import prelude list relations.
From Stdlib Require Import NArith Lia.
From S2P Require Import Prelude Ids.

Open Scope N_scope.

Module Retention.

Definition HELD : N := N.shiftl 1 16.
Definition COUNT_MASK : N := 2 ^ 16 - 1.
Definition RING_CAPACITY_MAX : N := N.shiftl 1 31.

Inductive RetainRefusedReason := Exhausted | FileRetiring.

(** ** The release ring *)

Record ReleaseSlot := mkReleaseSlot {
  sequence : N;
  rs_frame : N;
}.

Record ReleaseRing := mkReleaseRing {
  ring_slots : list ReleaseSlot;
  tail : N;
  ring_capacity : N;
  mask : N;
}.

Definition ring_preallocated (max_retained_frames : N) : outcome ReleaseRing :=
  assertb (0 <? max_retained_frames);;
  assertb (max_retained_frames <=? RING_CAPACITY_MAX);;
  let capacity := N.max (2 ^ N.log2_up max_retained_frames) 2 in
  Done (mkReleaseRing
    ((λ i, mkReleaseSlot (N.of_nat i) 0) <$> seq 0 (N.to_nat capacity)) 0 capacity (capacity - 1)).

Definition slot_index (r : ReleaseRing) (ticket : N) : N := N.land ticket (mask r).

(** [push], first half: [tail.fetch_add(1)]. *)
Definition ring_ticket (r : ReleaseRing) : outcome (ReleaseRing * N) :=
  let ticket := tail r in
  assertb (negb (ticket =? U64_MAX));;
  Done (mkReleaseRing (ring_slots r) (ticket + 1) (ring_capacity r) (mask r), ticket).

(** [push], second half: the claimed slot is free; store the frame, publish it. *)
Definition ring_store (r : ReleaseRing) (ticket frame : N) : outcome ReleaseRing :=
  s ← vget (ring_slots r) (slot_index r ticket);
  assertb (sequence s =? ticket);;
  ss ← vset (ring_slots r) (slot_index r ticket) (mkReleaseSlot (ticket + 1) frame);
  Done (mkReleaseRing ss (tail r) (ring_capacity r) (mask r)).

Definition is_ready (r : ReleaseRing) (consumer : N) : outcome bool :=
  assertb (negb (consumer =? U64_MAX));;
  s ← vget (ring_slots r) (slot_index r consumer);
  Done (sequence s =? consumer + 1).

(** [pop], by the single consumer. *)
Definition ring_pop (r : ReleaseRing) (cursor : N) : outcome (ReleaseRing * N * option N) :=
  assertb (negb (cursor =? U64_MAX));;
  s ← vget (ring_slots r) (slot_index r cursor);
  if negb (sequence s =? cursor + 1) then Done (r, cursor, None)
  else
    assertb (cursor <=? U64_MAX - ring_capacity r);;
    ss ← vset (ring_slots r) (slot_index r cursor)
           (mkReleaseSlot (cursor + ring_capacity r) (rs_frame s));
    Done (mkReleaseRing ss (tail r) (ring_capacity r) (mask r), cursor + 1, Some (rs_frame s)).

(** ** Shared state *)

Record Counters := mkCounters {
  refused_budget : N;
  refused_ceiling : N;
  refused_contention : N;
  refused_retiring : N;
  retained_evictions_held : N;
}.

(** [release_cursor] belongs to the control state, [ring_pending] to the wait
    latch. *)
Record Retention := mkRetention {
  words : list N;
  tags : list N;
  retiring : list bool;
  occupied_budget : N;
  counters : Counters;
  ring : ReleaseRing;
  ring_pending : bool;
  release_cursor : N;
  max_retained_frames : N;
}.

Definition set_words (r : Retention) (w : list N) : Retention :=
  mkRetention w (tags r) (retiring r) (occupied_budget r) (counters r) (ring r) (ring_pending r)
    (release_cursor r) (max_retained_frames r).
Definition set_tags (r : Retention) (t : list N) : Retention :=
  mkRetention (words r) t (retiring r) (occupied_budget r) (counters r) (ring r) (ring_pending r)
    (release_cursor r) (max_retained_frames r).
Definition set_retiring (r : Retention) (l : list bool) : Retention :=
  mkRetention (words r) (tags r) l (occupied_budget r) (counters r) (ring r) (ring_pending r)
    (release_cursor r) (max_retained_frames r).
Definition set_occupied (r : Retention) (n : N) : Retention :=
  mkRetention (words r) (tags r) (retiring r) n (counters r) (ring r) (ring_pending r)
    (release_cursor r) (max_retained_frames r).
Definition set_counters (r : Retention) (c : Counters) : Retention :=
  mkRetention (words r) (tags r) (retiring r) (occupied_budget r) c (ring r) (ring_pending r)
    (release_cursor r) (max_retained_frames r).
Definition set_ring (r : Retention) (g : ReleaseRing) (cursor : N) : Retention :=
  mkRetention (words r) (tags r) (retiring r) (occupied_budget r) (counters r) g (ring_pending r)
    cursor (max_retained_frames r).
Definition set_pending (r : Retention) (b : bool) : Retention :=
  mkRetention (words r) (tags r) (retiring r) (occupied_budget r) (counters r) (ring r) b
    (release_cursor r) (max_retained_frames r).

(** [DiagnosticCounter::increment] wraps. *)
Definition bump (n : N) : N := wrapping_add 64 n 1.
Definition count_refusal (r : Retention) (f : Counters → Counters) : Retention :=
  set_counters r (f (counters r)).
Definition bump_budget (c : Counters) : Counters :=
  mkCounters (bump (refused_budget c)) (refused_ceiling c) (refused_contention c)
    (refused_retiring c) (retained_evictions_held c).
Definition bump_ceiling (c : Counters) : Counters :=
  mkCounters (refused_budget c) (bump (refused_ceiling c)) (refused_contention c)
    (refused_retiring c) (retained_evictions_held c).
Definition bump_contention (c : Counters) : Counters :=
  mkCounters (refused_budget c) (refused_ceiling c) (bump (refused_contention c))
    (refused_retiring c) (retained_evictions_held c).
Definition bump_retiring (c : Counters) : Counters :=
  mkCounters (refused_budget c) (refused_ceiling c) (refused_contention c)
    (bump (refused_retiring c)) (retained_evictions_held c).
Definition bump_held (c : Counters) : Counters :=
  mkCounters (refused_budget c) (refused_ceiling c) (refused_contention c)
    (refused_retiring c) (bump (retained_evictions_held c)).

(** [Retention::try_preallocated_with_file_capacity] with a positive budget. *)
Definition preallocated (frame_count max_retained file_capacity : N) : outcome Retention :=
  g ← ring_preallocated max_retained;
  Done (mkRetention (replicate (N.to_nat frame_count) 0) (replicate (N.to_nat frame_count) 0)
    (replicate (N.to_nat file_capacity) false) 0 (mkCounters 0 0 0 0 0) g false 0 max_retained).

Definition mark_file_retiring (r : Retention) (file_slot : N) : outcome Retention :=
  l ← vset (retiring r) file_slot true; Done (set_retiring r l).
Definition clear_file_retiring (r : Retention) (file_slot : N) : outcome Retention :=
  l ← vset (retiring r) file_slot false; Done (set_retiring r l).

Definition release_drain_needed (r : Retention) : outcome bool :=
  b ← is_ready (ring r) (release_cursor r); Done (b || ring_pending r).

(** [occupied_budget.fetch_sub(1)], asserted positive. *)
Definition release_budget_unit (r : Retention) : outcome Retention :=
  let previous := occupied_budget r in
  assertb (0 <? previous);;
  Done (set_occupied r (previous - 1)).

(** ** Threads *)

(** Where a thread is inside [promote] (with the attempts left), inside
    [release], or between the two with a live handle.  [refusing] marks the release
    that [reject_retiring] performs on behalf of a refused promotion. *)
Inductive pc :=
  | PLoad (frame file_slot : N) (attempts : nat)
  | PIncrement (frame file_slot : N) (attempts : nat) (previous : N)
  | PReserve (frame file_slot : N) (attempts : nat)
  | PCas (frame file_slot : N) (attempts : nat)
  | PRollback (frame file_slot : N) (attempts : nat)
  | PRecheck (frame file_slot : N) (attempts : nat)
  | PUnreserve (frame file_slot : N) (attempts : nat)
  | PCheckRetiring (frame file_slot : N)
  | Retained (frame : N)
  | RSub (frame : N) (refusing : bool)
  | RUnit (frame : N) (refusing : bool)
  | RTicket (frame : N) (refusing : bool)
  | RStore (frame ticket : N) (refusing : bool)
  | RPending (frame : N) (refusing : bool)
  | Refused (frame : N) (reason : RetainRefusedReason)
  | Released.

(** The end of [release]: a refusing one reports the refusal. *)
Definition released (r : Retention) (frame : N) (refusing : bool) : Retention * pc :=
  if refusing then (count_refusal r bump_retiring, Refused frame FileRetiring) else (r, Released).

(** [promote]'s loop: one more attempt, or contention. *)
Definition retry (r : Retention) (frame file_slot : N) (attempts : nat) : Retention * pc :=
  match attempts with
  | O => (count_refusal r bump_contention, Refused frame Exhausted)
  | S n => (r, PLoad frame file_slot n)
  end.

Definition compare_exchange (r : Retention) (frame current new : N) : outcome (Retention * bool) :=
  w ← vget (words r) frame;
  if w =? current then ws ← vset (words r) frame new; Done (set_words r ws, true)
  else Done (r, false).

Definition thread_step (r : Retention) (p : pc) : outcome (Retention * pc) :=
  match p with
  | PLoad frame slot n =>
      previous ← vget (words r) frame;
      assertb (N.land previous HELD =? 0);;
      let count := N.land previous COUNT_MASK in
      Done (if count =? COUNT_MASK then (count_refusal r bump_ceiling, Refused frame Exhausted)
            else if 0 <? count then (r, PIncrement frame slot n previous)
            else (r, PReserve frame slot n))
  | PIncrement frame slot n previous =>
      new ← add_ U32_MAX previous 1;
      '(r, won) ← compare_exchange r frame previous new;
      Done (if won : bool then (r, PCheckRetiring frame slot) else retry r frame slot n)
  | PReserve frame slot n =>
      let previous := occupied_budget r in
      let r := set_occupied r (wrapping_add 32 previous 1) in
      Done (if max_retained_frames r <=? previous then (r, PRollback frame slot n)
            else (r, PCas frame slot n))
  | PCas frame slot n =>
      '(r, won) ← compare_exchange r frame 0 1;
      Done (if won : bool then (r, PCheckRetiring frame slot) else (r, PUnreserve frame slot n))
  | PRollback frame slot n =>
      r ← release_budget_unit r; Done (r, PRecheck frame slot n)
  | PRecheck frame slot n =>
      w ← vget (words r) frame;
      Done (if 0 <? N.land w COUNT_MASK then retry r frame slot n
            else (count_refusal r bump_budget, Refused frame Exhausted))
  | PUnreserve frame slot n =>
      r ← release_budget_unit r; Done (retry r frame slot n)
  | PCheckRetiring frame slot =>
      b ← vget (retiring r) slot;
      Done (r, if b : bool then RSub frame true else Retained frame)
  | RSub frame refusing =>
      previous ← vget (words r) frame;
      assertb (0 <? N.land previous COUNT_MASK);;
      let remaining := previous - 1 in
      ws ← vset (words r) frame remaining;
      let r := set_words r ws in
      Done (if 0 <? N.land remaining COUNT_MASK then released r frame refusing
            else if N.land remaining HELD =? 0 then (r, RUnit frame refusing)
            else (r, RTicket frame refusing))
  | RUnit frame refusing =>
      r ← release_budget_unit r; Done (released r frame refusing)
  | RTicket frame refusing =>
      '(g, ticket) ← ring_ticket (ring r);
      Done (set_ring r g (release_cursor r), RStore frame ticket refusing)
  | RStore frame ticket refusing =>
      g ← ring_store (ring r) ticket frame;
      Done (set_ring r g (release_cursor r), RPending frame refusing)
  | RPending frame refusing => Done (released (set_pending r true) frame refusing)
  | Retained frame => Done (r, RSub frame false)
  | Refused frame reason => Done (r, Refused frame reason)
  | Released => Done (r, Released)
  end.

(** ** The control side *)

Inductive cpc :=
  | CIdle
  | MLoad (frame tag : N)
  | MTag (frame tag previous : N)
  | MCas (frame previous : N) (attempts : nat)
  | MFreed (frame : N)
  | MHeld (frame : N)
  | DClear (epoch : N)
  | DPop (epoch : N) (left : nat)
  | DCheck (epoch : N) (left : nat) (frame : N)
  | DUnhold (epoch : N) (left : nat) (frame word : N)
  | DReclaim (epoch : N) (left : nat) (frame : N)
  | DUnit (epoch : N) (left : nat).

Definition control_step (r : Retention) (p : cpc) : outcome (Retention * cpc) :=
  match p with
  | MLoad frame tag =>
      previous ← vget (words r) frame;
      if N.land previous COUNT_MASK =? 0 then
        assertb (N.land previous HELD =? 0);; Done (r, MFreed frame)
      else Done (r, MTag frame tag previous)
  | MTag frame tag previous =>
      ts ← vset (tags r) frame tag;
      Done (set_tags r ts, MCas frame previous (N.to_nat (N.land previous COUNT_MASK)))
  | MCas frame previous O => Panic
  | MCas frame previous (S n) =>
      assertb (N.land previous HELD =? 0);;
      let count := N.land previous COUNT_MASK in
      assertb (0 <? count);;
      observed ← vget (words r) frame;
      '(r, won) ← compare_exchange r frame previous (N.lor previous HELD);
      if won : bool then Done (count_refusal r bump_held, MHeld frame)
      else
        assertb (N.land observed COUNT_MASK <? count);;
        if N.land observed COUNT_MASK =? 0 then
          assertb (N.land observed HELD =? 0);; Done (r, MFreed frame)
        else Done (r, MCas frame observed n)
  | DClear epoch =>
      Done (set_pending r false, DPop epoch (N.to_nat (max_retained_frames r)))
  | DPop epoch O => Done (r, CIdle)
  | DPop epoch (S n) =>
      '(g, cursor, o) ← ring_pop (ring r) (release_cursor r);
      Done (match o with
            | None => (r, CIdle)
            | Some frame => (set_ring r g cursor, DCheck epoch n frame)
            end)
  | DCheck epoch n frame =>
      tag ← vget (tags r) frame;
      assertb (saturating_add U64_MAX tag 2 <=? epoch);;
      word ← vget (words r) frame;
      assertb (N.land word COUNT_MASK =? 0);;
      assertb (negb (N.land word HELD =? 0));;
      Done (r, DUnhold epoch n frame word)
  | DUnhold epoch n frame word =>
      '(r, won) ← compare_exchange r frame word (N.ldiff word HELD);
      assertb won;;
      Done (r, DReclaim epoch n frame)
  | DReclaim epoch n frame => Done (r, DUnit epoch n)
  | DUnit epoch n =>
      r ← release_budget_unit r; Done (r, DPop epoch n)
  | CIdle | MFreed _ | MHeld _ => Done (r, CIdle)
  end.

(** ** The interleaving

    [Guarded] frames may have live guards; a matured eviction has none (the grace
    period) and leaves the frame [OnHold] or [Reclaimed]. *)

Inductive phase := Guarded | OnHold | Reclaimed.

#[global] Instance phase_eq_dec : EqDecision phase.
Proof. solve_decision. Defined.

Record system := mkSystem {
  ret : Retention;
  threads : list pc;
  control : cpc;
  phases : list phase;
  now : N;
}.

(** The thread works under its own guard of [frame]. *)
Definition promotes (frame : N) (p : pc) : Prop :=
  match p with
  | PLoad f _ _ | PIncrement f _ _ _ | PReserve f _ _ | PCas f _ _ | PRollback f _ _
  | PRecheck f _ _ | PUnreserve f _ _ | PCheckRetiring f _ => f = frame
  | RSub f refusing | RUnit f refusing | RTicket f refusing | RStore f _ refusing
  | RPending f refusing => f = frame ∧ refusing = true
  | Retained _ | Refused _ _ | Released => False
  end.

Definition matures (frame : N) (c : cpc) : Prop :=
  match c with MLoad f _ | MTag f _ _ | MCas f _ _ => f = frame | _ => False end.

(** What the control side's step means for the frame. *)
Definition phase_after (c : cpc) (ph : list phase) : list phase :=
  match c with
  | MFreed f | DReclaim _ _ f => <[N.to_nat f := Reclaimed]> ph
  | MHeld f => <[N.to_nat f := OnHold]> ph
  | _ => ph
  end.

Inductive step : system → system → Prop :=
  | step_promote r ts c ph e frame file_slot attempts :
      ph !! N.to_nat frame = Some Guarded → ¬ matures frame c →
      file_slot < vlen (retiring r) →
      max_retained_frames r + vlen ts + 2 < U32_MAX →
      step (mkSystem r ts c ph e) (mkSystem r (PLoad frame file_slot attempts :: ts) c ph e)
  | step_thread r ts1 p ts2 c ph e r' p' :
      thread_step r p = Done (r', p') →
      step (mkSystem r (ts1 ++ p :: ts2) c ph e) (mkSystem r' (ts1 ++ p' :: ts2) c ph e)
  | step_leave r ts1 p ts2 c ph e :
      (∃ frame reason, p = Refused frame reason) ∨ p = Released →
      step (mkSystem r (ts1 ++ p :: ts2) c ph e) (mkSystem r (ts1 ++ ts2) c ph e)
  | step_mature r ts ph e frame tag :
      ph !! N.to_nat frame = Some Guarded → (∀ p, p ∈ ts → ¬ promotes frame p) →
      saturating_add U64_MAX tag 2 ≤ e →
      step (mkSystem r ts CIdle ph e) (mkSystem r ts (MLoad frame tag) ph e)
  | step_drain r ts ph e :
      step (mkSystem r ts CIdle ph e) (mkSystem r ts (DClear e) ph e)
  | step_control r ts c ph e r' c' :
      control_step r c = Done (r', c') →
      step (mkSystem r ts c ph e) (mkSystem r' ts c' (phase_after c' ph) e)
  | step_reuse r ts c ph e frame :
      ph !! N.to_nat frame = Some Reclaimed →
      step (mkSystem r ts c ph e) (mkSystem r ts c (<[N.to_nat frame := Guarded]> ph) e)
  | step_epoch r ts c ph e e' :
      e ≤ e' → step (mkSystem r ts c ph e) (mkSystem r ts c ph e')
  | step_mark r ts c ph e file_slot r' :
      mark_file_retiring r file_slot = Done r' →
      step (mkSystem r ts c ph e) (mkSystem r' ts c ph e)
  | step_unmark r ts c ph e file_slot r' :
      clear_file_retiring r file_slot = Done r' →
      step (mkSystem r ts c ph e) (mkSystem r' ts c ph e).

Definition initial (s : system) : Prop :=
  ∃ frames budget files r e, preallocated frames budget files = Done r ∧ budget ≤ frames ∧
    s = mkSystem r [] CIdle (replicate (N.to_nat frames) Guarded) e.

(** ** The packed word *)

Definition held_bit (ph : phase) : N := if decide (ph = OnHold) then HELD else 0.
Definition word_of (n : nat) (ph : phase) : N := N.of_nat n + held_bit ph.

Lemma HELD_val : HELD = 65536.
Proof. done. Qed.

Lemma land_held_small n : n ≤ COUNT_MASK → N.land n HELD = 0.
Proof.
  intros Hn. change COUNT_MASK with 65535 in Hn. change HELD with (2 ^ 16). apply N.bits_inj. intros i.
  rewrite N.land_spec, N.bits_0. destruct (N.eq_dec i 16) as [->|Hi].
  - assert (N.testbit n 16 = false) as ->; [|done]. apply N.testbit_false.
    rewrite N.div_small; [done|]. change (2 ^ 16) with 65536. lia.
  - rewrite N.pow2_bits_false by congruence. by rewrite andb_false_r.
Qed.

Lemma lor_held n : n ≤ COUNT_MASK → N.lor n HELD = n + HELD.
Proof.
  intros Hn. rewrite <- N.lxor_lor, <- N.add_nocarry_lxor by by apply land_held_small. done.
Qed.

Lemma word_count n ph : N.of_nat n ≤ COUNT_MASK → N.land (word_of n ph) COUNT_MASK = N.of_nat n.
Proof.
  intros Hn. change COUNT_MASK with (2 ^ 16 - 1). rewrite land_mask. unfold word_of, held_bit.
  change COUNT_MASK with 65535 in Hn. case_decide.
  - change HELD with (1 * 2 ^ 16). rewrite N.Div0.mod_add. apply N.mod_small. change (2 ^ 16) with 65536. lia.
  - rewrite N.add_0_r. apply N.mod_small. change (2 ^ 16) with 65536. lia.
Qed.

Lemma word_held n ph :
  N.of_nat n ≤ COUNT_MASK → N.land (word_of n ph) HELD = held_bit ph.
Proof.
  intros Hn. unfold word_of, held_bit. case_decide.
  - rewrite <- lor_held, N.land_comm by done. apply N.bits_inj. intros i.
    rewrite N.land_spec, N.lor_spec. by destruct (N.testbit HELD i), (N.testbit (N.of_nat n) i).
  - rewrite N.add_0_r. by apply land_held_small.
Qed.

Lemma word_pred n ph : word_of (S n) ph - 1 = word_of n ph.
Proof. unfold word_of. lia. Qed.

Lemma word_inj_count n m ph : word_of n ph = word_of m ph → n = m.
Proof. unfold word_of. lia. Qed.

Lemma word_zero n ph : word_of n ph = 0 ↔ n = 0%nat ∧ ph ≠ OnHold.
Proof. unfold word_of, held_bit. rewrite HELD_val. case_decide; split; [lia|tauto|intros; split; [lia|done]|lia]. Qed.

(** ** The invariant *)

(** A handle count of frame [f] that the thread owns. *)
Definition own (f : N) (p : pc) : nat :=
  match p with
  | PCheckRetiring g _ | Retained g | RSub g _ => if g =? f then 1 else 0
  | _ => 0
  end.
Definition owners (f : N) (ts : list pc) : nat := sum_list_with (own f) ts.

(** A budget unit that the thread has to turn into a retained frame or return. *)
Definition unit_of (p : pc) : nat :=
  match p with PCas _ _ _ | PRollback _ _ _ | PUnreserve _ _ _ | RUnit _ _ => 1 | _ => 0 end.
Definition good (p : pc) : nat := match p with PCas _ _ _ => 1 | _ => 0 end.
Definition unit_control (c : cpc) : nat :=
  match c with DReclaim _ _ _ | DUnit _ _ => 1 | _ => 0 end.

(** Frames on their way to the ring or out of it, and claimed ring tickets. *)
Definition parks (p : pc) : list N :=
  match p with RTicket f _ | RStore f _ _ => [f] | _ => [] end.
Definition ticket_of (p : pc) : list N :=
  match p with RStore _ t _ => [t] | _ => [] end.
Definition parks_control (c : cpc) : list N :=
  match c with DCheck _ _ f | DUnhold _ _ f _ => [f] | _ => [] end.

Definition slot_of (p : pc) : option N :=
  match p with
  | PLoad _ s _ | PIncrement _ s _ _ | PReserve _ s _ | PCas _ s _ | PRollback _ s _
  | PRecheck _ s _ | PUnreserve _ s _ | PCheckRetiring _ s => Some s
  | _ => None
  end.

Definition retained (r : Retention) : nat := countb (λ w, negb (w =? 0)) (words r).

(** The ring: [outs] are the tickets from the cursor to the tail, with the frame
    where it has been stored. *)
Definition slot_ok (t : N) (o : option (option N)) (s : ReleaseSlot) : Prop :=
  match o with
  | Some (Some f) => s = mkReleaseSlot (t + 1) f
  | _ => sequence s = t
  end.

Record ring_ok (g : ReleaseRing) (cursor budget : N) (outs : list (option N)) : Prop := {
  ro_pow : ∃ k, ring_capacity g = 2 ^ k;
  ro_mask : mask g = ring_capacity g - 1;
  ro_len : vlen (ring_slots g) = ring_capacity g;
  ro_budget : budget ≤ ring_capacity g;
  ro_outs : tail g = cursor + vlen outs;
  ro_slots : ∀ k, k < ring_capacity g →
    ∃ s, ring_slots g !! N.to_nat ((cursor + k) mod ring_capacity g) = Some s ∧
      slot_ok (cursor + k) (outs !! N.to_nat k) s;
}.

(** The tickets claimed but not stored. *)
Fixpoint open_tickets (t : N) (outs : list (option N)) : list N :=
  match outs with
  | [] => []
  | None :: outs => t :: open_tickets (t + 1) outs
  | Some _ :: outs => open_tickets (t + 1) outs
  end.

Definition parked (ts : list pc) (c : cpc) (outs : list (option N)) : list N :=
  omap id outs ++ (ts ≫= parks) ++ parks_control c.

(** The latest epoch the tags of held frames are known to have matured by. *)
Definition tag_bound (c : cpc) (e : N) : N :=
  match c with
  | DPop d _ | DCheck d _ _ | DUnhold d _ _ _ | DReclaim d _ _ | DUnit d _ | DClear d => d
  | _ => e
  end.

Definition matured_tag (tag e : N) : Prop := saturating_add U64_MAX tag 2 ≤ e.

Definition control_ok (r : Retention) (ts : list pc) (c : cpc) (ph : list phase) (e : N) : Prop :=
  match c with
  | MLoad f tag =>
      ph !! N.to_nat f = Some Guarded ∧ (∀ p, p ∈ ts → ¬ promotes f p) ∧ matured_tag tag e
  | MTag f tag previous =>
      ph !! N.to_nat f = Some Guarded ∧ (∀ p, p ∈ ts → ¬ promotes f p) ∧ matured_tag tag e ∧
      ∃ m, previous = N.of_nat m ∧ (0 < m)%nat ∧ (owners f ts ≤ m)%nat ∧ N.of_nat m ≤ COUNT_MASK
  | MCas f previous n =>
      ph !! N.to_nat f = Some Guarded ∧ (∀ p, p ∈ ts → ¬ promotes f p) ∧
      (∃ tag, tags r !! N.to_nat f = Some tag ∧ matured_tag tag e) ∧
      ∃ m, previous = N.of_nat m ∧ (0 < m ≤ n)%nat ∧ (owners f ts ≤ m)%nat ∧ N.of_nat m ≤ COUNT_MASK
  | DUnhold d _ f w => w = HELD ∧ d ≤ e
  | DPop d _ | DCheck d _ _ | DReclaim d _ _ | DUnit d _ | DClear d => d ≤ e
  | CIdle | MFreed _ | MHeld _ => True
  end.

(** [previous] was a loaded count with no held bit. *)
Definition load_ok (p : pc) : Prop :=
  match p with
  | PIncrement _ _ _ previous => ∃ m, previous = N.of_nat m ∧ (0 < m)%nat ∧ N.of_nat m < COUNT_MASK
  | _ => True
  end.

(** What each thread may rely on. *)
Definition thread_ok (r : Retention) (c : cpc) (ph : list phase) (p : pc) : Prop :=
  (∀ f, promotes f p → ph !! N.to_nat f = Some Guarded ∧ ¬ matures f c) ∧
  (∀ f, own f p ≠ 0%nat → f < vlen (words r)) ∧
  (∀ s, slot_of p = Some s → s < vlen (retiring r)) ∧ load_ok p.

Record inv (s : system) : Prop := {
  i_lens : length (phases s) = length (words (ret s)) ∧ length (tags (ret s)) = length (words (ret s));
  i_words : ∀ f w, words (ret s) !! N.to_nat f = Some w →
    ∃ ph, phases s !! N.to_nat f = Some ph ∧ w = word_of (owners f (threads s)) ph ∧
      (ph = Reclaimed → owners f (threads s) = 0%nat) ∧
      N.of_nat (owners f (threads s)) ≤ COUNT_MASK;
  i_threads : ∀ p, p ∈ threads s → thread_ok (ret s) (control s) (phases s) p;
  i_control : control_ok (ret s) (threads s) (control s) (phases s) (now s);
  i_budget : occupied_budget (ret s) =
    N.of_nat (retained (ret s) + sum_list_with unit_of (threads s) + unit_control (control s));
  i_max : N.of_nat (retained (ret s) + sum_list_with good (threads s)) ≤ max_retained_frames (ret s);
  i_total : max_retained_frames (ret s) + vlen (threads s) + 1 < U32_MAX;
  i_tags : ∀ f t, phases s !! N.to_nat f = Some OnHold → tags (ret s) !! N.to_nat f = Some t →
    matured_tag t (tag_bound (control s) (now s));
  i_ring : ∃ outs,
    ring_ok (ring (ret s)) (release_cursor (ret s)) (max_retained_frames (ret s)) outs ∧
    (threads s ≫= ticket_of) ≡ₚ open_tickets (release_cursor (ret s)) outs ∧
    NoDup (parked (threads s) (control s) outs) ∧
    (∀ f, f ∈ parked (threads s) (control s) outs ↔
       phases s !! N.to_nat f = Some OnHold ∧ owners f (threads s) = 0%nat);
}.

(** ** Counting *)

Lemma sum_swap (g : pc → nat) ts1 p p' ts2 :
  (sum_list_with g (ts1 ++ p' :: ts2) + g p = sum_list_with g (ts1 ++ p :: ts2) + g p')%nat.
Proof. rewrite !sum_list_with_app. simpl. lia. Qed.

Lemma owners_other f ts1 p p' ts2 :
  own f p' = own f p → owners f (ts1 ++ p' :: ts2) = owners f (ts1 ++ p :: ts2).
Proof. intros H. pose proof (sum_swap (own f) ts1 p p' ts2). unfold owners. lia. Qed.

Lemma bind_swap {A} (g : pc → list A) ts1 p p' ts2 :
  g p' = g p → (ts1 ++ p' :: ts2) ≫= g = (ts1 ++ p :: ts2) ≫= g.
Proof. intros H. rewrite !bind_app. simpl. by rewrite H. Qed.

Lemma good_unit ts : (sum_list_with good ts ≤ sum_list_with unit_of ts)%nat.
Proof. induction ts as [|p ts IH]; simpl; [lia|]. destruct p; simpl; lia. Qed.

Lemma sum_le_length (g : pc → nat) ts : (∀ p, g p ≤ 1)%nat → (sum_list_with g ts ≤ length ts)%nat.
Proof. intros H. induction ts as [|p ts IH]; simpl; [lia|]. specialize (H p). lia. Qed.

Lemma owners_elem f p ts : p ∈ ts → (own f p ≤ owners f ts)%nat.
Proof.
  intros (ts1 & ts2 & ->)%list_elem_of_split. unfold owners. rewrite sum_list_with_app. simpl. lia.
Qed.

(** ** Thread steps that change neither words nor ring *)

(** Fields the control side and the other threads look at. *)
Definition same_frames (r r' : Retention) : Prop :=
  words r' = words r ∧ tags r' = tags r ∧ retiring r' = retiring r ∧ ring r' = ring r ∧
  release_cursor r' = release_cursor r ∧ max_retained_frames r' = max_retained_frames r.

Lemma thread_ok_mono r r' c ph p :
  vlen (words r') = vlen (words r) → vlen (retiring r') = vlen (retiring r) →
  thread_ok r c ph p → thread_ok r' c ph p.
Proof. unfold thread_ok. by intros -> ->. Qed.

(** The control side relies on the words only through the owners. *)
Lemma control_ok_mono r r' ts ts' c ph e :
  tags r' = tags r → (∀ f, matures f c → (owners f ts' ≤ owners f ts)%nat) →
  (∀ f p, matures f c → p ∈ ts' → promotes f p → ∃ q, q ∈ ts ∧ promotes f q) →
  control_ok r ts c ph e → control_ok r' ts' c ph e.
Proof.
  intros Ht Hown Hpro. destruct c; simpl in *; rewrite ?Ht; try done.
  - intros (H1 & H2 & H3). split_and!; try done.
    intros p Hp Hpr. destruct (Hpro frame p eq_refl Hp Hpr) as (q & Hq & Hpq). by apply (H2 q).
  - intros (H1 & H2 & H3 & m & H4 & H5 & H6 & H7). split_and!; try done.
    + intros p Hp Hpr. destruct (Hpro frame p eq_refl Hp Hpr) as (q & Hq & Hpq). by apply (H2 q).
    + exists m. specialize (Hown frame eq_refl). split_and!; try done. lia.
  - intros (H1 & H2 & H3 & m & H4 & H5 & H6 & H7). split_and!; try done.
    + intros p Hp Hpr. destruct (Hpro frame p eq_refl Hp Hpr) as (q & Hq & Hpq). by apply (H2 q).
    + exists m. specialize (Hown frame eq_refl). split_and!; try done; lia.
Qed.

Lemma swap_promotes ts1 p p' ts2 f :
  (promotes f p' → promotes f p) →
  ∀ q, q ∈ ts1 ++ p' :: ts2 → promotes f q → ∃ q', q' ∈ ts1 ++ p :: ts2 ∧ promotes f q'.
Proof.
  intros Hp q Hq Hpr. apply elem_of_app in Hq as [Hq|[->|Hq]%elem_of_cons].
  - exists q. set_solver.
  - exists p. split; [set_solver|auto].
  - exists q. set_solver.
Qed.

Lemma quiet_inv r ts1 p ts2 c ph e r' p' :
  inv (mkSystem r (ts1 ++ p :: ts2) c ph e) → same_frames r r' →
  (∀ f, own f p' = own f p) → parks p' = parks p → ticket_of p' = ticket_of p →
  occupied_budget r' + N.of_nat (unit_of p) = occupied_budget r + N.of_nat (unit_of p') →
  N.of_nat (retained r + sum_list_with good (ts1 ++ p' :: ts2)) ≤ max_retained_frames r →
  (∀ f, promotes f p' → promotes f p) → thread_ok r c ph p' →
  inv (mkSystem r' (ts1 ++ p' :: ts2) c ph e).
Proof.
  intros [Hl Hw Ht Hc Hb Hm Htot Htag (outs & Hr1 & Hr2 & Hr3 & Hr4)]
    (Hwd & Htg & Hrt & Hrg & Hcu & Hmx) Hown Hpk Htk Hocc Hgood Hprom Hpok. simpl in *.
  assert (∀ f, owners f (ts1 ++ p' :: ts2) = owners f (ts1 ++ p :: ts2)) as Hos
    by (intros f; by apply owners_other).
  assert (retained r' = retained r) as Hret by (unfold retained; by rewrite Hwd).
  split; simpl; rewrite ?Hwd, ?Htg, ?Hmx, ?Hrg, ?Hcu, ?Hret; try done.
  - intros f w Hf. rewrite Hos. by apply Hw.
  - intros q Hq. apply (thread_ok_mono r); [by rewrite Hwd|by rewrite Hrt|].
    apply elem_of_app in Hq as [Hq|[->|Hq]%elem_of_cons]; [apply Ht; set_solver|done|apply Ht; set_solver].
  - eapply control_ok_mono; [exact Htg|..|exact Hc].
    + intros f _. by rewrite Hos.
    + intros f q _. exact (swap_promotes ts1 p p' ts2 f (Hprom f) q).
  - pose proof (sum_swap unit_of ts1 p p' ts2). lia.
  - unfold vlen in *. rewrite !length_app in *. simpl in *. lia.
  - exists outs. unfold parked in *. rewrite !(bind_swap _ ts1 p p' ts2) by done. split_and!; try done.
    intros f. rewrite Hos. apply Hr4.
Qed.

(** The budget never nears the top of its word. *)
Lemma occupied_bound s : inv s → occupied_budget (ret s) < U32_MAX.
Proof.
  intros [_ _ _ _ Hb Hm Htot _ _]. rewrite Hb.
  pose proof (sum_le_length unit_of (threads s) ltac:(intros []; simpl; lia)). unfold vlen in Htot.
  assert (unit_control (control s) ≤ 1)%nat by (destruct (control s); simpl; lia).
  assert (N.of_nat (retained (ret s)) ≤ max_retained_frames (ret s)) by lia. lia.
Qed.

Lemma unit_release s p ts1 ts2 :
  inv s → threads s = ts1 ++ p :: ts2 → unit_of p = 1%nat →
  release_budget_unit (ret s) = Done (set_occupied (ret s) (occupied_budget (ret s) - 1)) ∧
  0 < occupied_budget (ret s).
Proof.
  intros Hinv Hts Hu. assert (0 < occupied_budget (ret s)) as Hpos.
  { rewrite (i_budget s Hinv), Hts, sum_list_with_app. simpl. lia. }
  split; [|done]. unfold release_budget_unit. by rewrite assertb_true by by apply N.ltb_lt.
Qed.

(** ** Thread steps that store a word *)

Lemma retained_store r f (w w' : N) :
  words r !! N.to_nat f = Some w →
  (retained (set_words r (<[N.to_nat f := w']> (words r))) + Nat.b2n (negb (w =? 0)%N) =
   retained r + Nat.b2n (negb (w' =? 0)%N))%nat.
Proof. intros Hw. unfold retained. simpl. by apply (countb_insert (λ w, negb (w =? 0))). Qed.

(** Thread [p] becomes [p'] and the word of frame [f] follows its owners. *)
Lemma store_inv r ts1 p ts2 c ph e p' f phf :
  inv (mkSystem r (ts1 ++ p :: ts2) c ph e) → f < vlen (words r) → ph !! N.to_nat f = Some phf →
  (∀ g, g ≠ f → own g p' = own g p) → own f p' ≠ own f p →
  N.of_nat (owners f (ts1 ++ p' :: ts2)) ≤ COUNT_MASK →
  (phf = Guarded ∨ owners f (ts1 ++ p :: ts2) ≠ 0%nat) →
  (matures f c → (own f p' ≤ own f p)%nat) →
  parks p = [] →
  parks p' = (if decide (phf = OnHold ∧ owners f (ts1 ++ p' :: ts2) = 0%nat) then [f] else []) →
  ticket_of p' = ticket_of p →
  (Nat.b2n (negb (word_of (owners f (ts1 ++ p' :: ts2)) phf =? 0)%N) + unit_of p' =
   Nat.b2n (negb (word_of (owners f (ts1 ++ p :: ts2)) phf =? 0)%N) + unit_of p)%nat →
  (Nat.b2n (negb (word_of (owners f (ts1 ++ p' :: ts2)) phf =? 0)%N) + good p' ≤
   Nat.b2n (negb (word_of (owners f (ts1 ++ p :: ts2)) phf =? 0)%N) + good p)%nat →
  (∀ g, promotes g p' → promotes g p) → thread_ok r c ph p' →
  inv (mkSystem (set_words r (<[N.to_nat f := word_of (owners f (ts1 ++ p' :: ts2)) phf]> (words r)))
    (ts1 ++ p' :: ts2) c ph e).
Proof.
  intros [Hl Hw Ht Hc Hb Hm Htot Htag (outs & Hr1 & Hr2 & Hr3 & Hr4)]
    Hf Hph Hown Hown_f Hmask Hnp Hmat Hpk Hpk' Htk Hun Hgd Hprom Hpok. simpl in *.
  assert (∀ g, g ≠ f → owners g (ts1 ++ p' :: ts2) = owners g (ts1 ++ p :: ts2)) as Hos
    by (intros g Hg; by apply owners_other, Hown).
  destruct (vget_ok _ _ Hf) as (w & _ & Hwf).
  destruct (Hw f w Hwf) as (phf' & Hph' & Hweq & Hrec & Hle). assert (phf' = phf) as -> by congruence.
  set (w' := word_of (owners f (ts1 ++ p' :: ts2)) phf) in *.
  pose proof (retained_store r f w w' Hwf) as Hret. rewrite Hweq in Hret.
  assert (f ∉ parked (ts1 ++ p :: ts2) c outs) as Hnpark.
  { intros [Hoh Hz]%Hr4. destruct Hnp as [->|]; congruence. }
  assert (parked (ts1 ++ p' :: ts2) c outs ≡ₚ parks p' ++ parked (ts1 ++ p :: ts2) c outs) as Hperm.
  { unfold parked. rewrite !bind_app, !bind_cons, Hpk. simpl. rewrite <- !app_assoc.
    rewrite (Permutation_app_swap_app (ts1 ≫= parks) (parks p')). apply Permutation_app_swap_app. }
  rewrite Hpk' in Hperm. clear Hpk'.
  split; simpl; rewrite ?length_insert; try done.
  - intros g wg Hg. destruct (decide (g = f)) as [->|Hne].
    + rewrite list_lookup_insert_eq in Hg by (unfold vlen in Hf; lia). injection Hg as <-. exists phf.
      split_and!; try done. intros ->. destruct Hnp as [|[]]; [done|by apply Hrec].
    + rewrite list_lookup_insert_ne in Hg by lia. rewrite Hos by done. by apply Hw.
  - intros q Hq. apply (thread_ok_mono r); [apply vlen_insert|done|].
    apply elem_of_app in Hq as [Hq|[->|Hq]%elem_of_cons]; [apply Ht; set_solver|done|apply Ht; set_solver].
  - eapply control_ok_mono; [done|..|exact Hc].
    + intros g Hg. destruct (decide (g = f)) as [->|Hne]; [|by rewrite Hos].
      specialize (Hmat Hg). pose proof (sum_swap (own f) ts1 p p' ts2). unfold owners. lia.
    + intros g q _. exact (swap_promotes ts1 p p' ts2 g (Hprom g) q).
  - pose proof (sum_swap unit_of ts1 p p' ts2). rewrite Hb. lia.
  - pose proof (sum_swap good ts1 p p' ts2). lia.
  - unfold vlen in *. rewrite !length_app in *. simpl in *. lia.
  - exists outs. rewrite (bind_swap ticket_of ts1 p p' ts2) by done. split_and!; try done.
    + rewrite Hperm. clear Hperm. case_decide; [|done]. by apply NoDup_cons.
    + intros g. rewrite Hperm, elem_of_app. clear Hperm. destruct (decide (g = f)) as [->|Hne].
      * rewrite Hph. case_decide as Hd; set_solver.
      * rewrite (Hos g Hne), Hr4. case_decide; set_solver.
Qed.

(** ** The ring *)

Lemma mod_window c k k' cap :
  k < cap → k' < cap → (c + k) mod cap = (c + k') mod cap → k = k'.
Proof.
  intros Hk Hk' Heq. assert (cap ≠ 0) by lia.
  pose proof (N.div_mod (c + k) cap ltac:(done)) as H1. pose proof (N.div_mod (c + k') cap ltac:(done)) as H2.
  rewrite Heq in H1. set (m := (c + k') mod cap) in *.
  set (q := (c + k) / cap) in *. set (q' := (c + k') / cap) in *. clearbody m q q'. clear Heq.
  destruct (N.lt_total q q') as [Hlt|[->|Hlt]]; [|lia|]; exfalso.
  - assert (cap * q + cap ≤ cap * q') by nia. lia.
  - assert (cap * q' + cap ≤ cap * q) by nia. lia.
Qed.

Lemma open_tickets_elem t outs x :
  x ∈ open_tickets t outs ↔ ∃ k, x = t + N.of_nat k ∧ outs !! k = Some None.
Proof.
  revert t. induction outs as [|[f|] outs IH]; intros t; simpl.
  - rewrite elem_of_nil. split; [done|]. by intros (k & _ & ?).
  - rewrite IH. split.
    + intros (k & -> & Hk). exists (S k). split; [lia|done].
    + intros ([|k] & -> & Hk); [done|]. exists k. split; [lia|done].
  - rewrite elem_of_cons, IH. split.
    + intros [->|(k & -> & Hk)]; [exists 0%nat; split; [lia|done]|]. exists (S k). split; [lia|done].
    + intros ([|k] & -> & Hk); [left; lia|]. right. exists k. split; [lia|done].
Qed.

Lemma open_tickets_snoc t outs : open_tickets t (outs ++ [None]) = open_tickets t outs ++ [t + vlen outs].
Proof.
  unfold vlen. revert t. induction outs as [|[f|] outs IH]; intros t; simpl.
  - f_equal. lia.
  - rewrite IH. do 2 f_equal. lia.
  - rewrite IH. do 3 f_equal. lia.
Qed.

Lemma open_tickets_fill t outs k f :
  outs !! k = Some None →
  open_tickets t outs ≡ₚ (t + N.of_nat k) :: open_tickets t (<[k := Some f]> outs).
Proof.
  revert t k. induction outs as [|o outs IH]; intros t k Hk; [done|].
  destruct k as [|k]; simpl in Hk.
  - injection Hk as ->. simpl. by rewrite N.add_0_r.
  - replace (t + N.of_nat (S k)) with (t + 1 + N.of_nat k) by lia.
    destruct o as [g|]; simpl; rewrite (IH (t + 1) k Hk); [done|apply Permutation_swap].
Qed.

Lemma omap_fill (outs : list (option N)) k f :
  outs !! k = Some None → omap id (<[k := Some f]> outs) ≡ₚ f :: omap id outs.
Proof.
  revert k. induction outs as [|[g|] outs IH]; intros [|k] Hk; simplify_eq/=; try done.
  - rewrite (IH k Hk). apply Permutation_swap.
  - by apply IH.
Qed.

Lemma outs_length t (outs : list (option N)) : length outs = (length (omap id outs) + length (open_tickets t outs))%nat.
Proof.
  revert t. induction outs as [|[f|] outs IH]; intros t; [done|..]; specialize (IH (t + 1)).
  - change (omap id (Some f :: outs)) with (f :: omap id outs). simpl length. simpl open_tickets. lia.
  - change (omap id (None :: outs)) with (omap id outs). simpl length. lia.
Qed.

Section ring.
Context (g : ReleaseRing) (c b : N) (outs : list (option N)).
Hypothesis (Hok : ring_ok g c b outs).

Lemma ring_index t : slot_index g t = t mod ring_capacity g.
Proof.
  destruct Hok as [[k Hk] Hm _ _ _ _]. unfold slot_index. rewrite Hm, Hk. apply land_mask.
Qed.

Lemma ring_pos : 0 < ring_capacity g.
Proof. destruct Hok as [[k Hk] _ _ _ _ _]. pose proof (N.pow_nonzero 2 k). lia. Qed.

Lemma ring_ticket_ok :
  tail g < U64_MAX → vlen outs < ring_capacity g →
  ∃ g', ring_ticket g = Done (g', c + vlen outs) ∧ ring_ok g' c b (outs ++ [None]) ∧
    ring_capacity g' = ring_capacity g ∧ tail g' = tail g + 1.
Proof.
  intros Ht Hlt. destruct Hok as [Hp Hm Hl Hb Ho Hs]. unfold ring_ticket.
  rewrite assertb_true by (apply negb_true_iff, N.eqb_neq; lia). mred. rewrite Ho.
  eexists. split; [done|]. split; [|done]. split; simpl; try done.
  - unfold vlen. rewrite length_app. simpl. lia.
  - intros k Hk. destruct (Hs k Hk) as (s & Hsl & Hok'). exists s. split; [done|].
    destruct (decide (N.to_nat k < length outs)%nat) as [Hkl|Hkl].
    + by rewrite lookup_app_l.
    + rewrite lookup_app_r by lia. rewrite lookup_ge_None_2 in Hok' by lia. simpl in *.
      by destruct (N.to_nat k - length outs)%nat as [|[|n]].
Qed.

Lemma ring_store_ok k f :
  outs !! N.to_nat k = Some None → vlen outs ≤ ring_capacity g →
  ∃ g', ring_store g (c + k) f = Done g' ∧ ring_ok g' c b (<[N.to_nat k := Some f]> outs) ∧
    ring_capacity g' = ring_capacity g ∧ tail g' = tail g.
Proof.
  intros Hk Hle. pose proof (lookup_lt_Some _ _ _ Hk) as Hkl. unfold vlen in Hle.
  pose proof ring_pos as Hpos. pose proof Hok as [Hp Hm Hl Hb Ho Hs].
  destruct (Hs k) as (s & Hsl & Hsok); [lia|]. rewrite Hk in Hsok. simpl in Hsok.
  unfold ring_store. rewrite ring_index, (proj2 (vget_Done _ _ _) Hsl). mred.
  rewrite Hsok, N.eqb_refl. mred. rewrite vset_ok by by eapply vget_lt. mred.
  eexists. split; [done|]. split; [|done]. split; simpl; try done.
  - by rewrite vlen_insert.
  - by rewrite vlen_insert.
  - intros j Hj. destruct (decide (j = k)) as [->|Hne].
    + rewrite (list_lookup_insert_eq outs) by done.
      rewrite list_lookup_insert_eq by exact (lookup_lt_Some _ _ _ Hsl). eexists. by split.
    + rewrite (list_lookup_insert_ne outs) by lia. rewrite list_lookup_insert_ne; [by apply Hs|].
      intros Heq%N2Nat.inj. apply Hne. symmetry. eapply mod_window; [| |exact Heq]; lia.
Qed.

Lemma ring_pop_ok :
  c ≤ U64_MAX - ring_capacity g → ring_capacity g ≤ U64_MAX → vlen outs ≤ ring_capacity g →
  match outs with
  | Some f :: rest => ∃ g', ring_pop g c = Done (g', c + 1, Some f) ∧ ring_ok g' (c + 1) b rest ∧
      ring_capacity g' = ring_capacity g ∧ tail g' = tail g
  | _ => ring_pop g c = Done (g, c, None)
  end.
Proof.
  intros Hc Hcap Hle. pose proof ring_pos as Hpos. pose proof Hok as [Hp Hm Hl Hb Ho Hs].
  destruct (Hs 0 Hpos) as (s & Hsl & Hsok). rewrite N.add_0_r in *.
  unfold ring_pop. rewrite (assertb_true (negb _)) by (apply negb_true_iff, N.eqb_neq; lia).
  rewrite ring_index, (proj2 (vget_Done _ _ _) Hsl). mred. change (N.to_nat 0) with 0%nat in Hsok.
  clear Hok. destruct outs as [|[f|] rest]; simpl in Hsok.
  - rewrite Hsok. by rewrite (proj2 (N.eqb_neq c (c + 1))) by lia.
  - rewrite Hsok. simpl sequence. rewrite N.eqb_refl. simpl negb. cbn iota.
    rewrite assertb_true by by apply N.leb_le. mred. rewrite vset_ok by by eapply vget_lt. mred.
    eexists. split; [done|]. split; [|done]. split; simpl; try done.
    + by rewrite vlen_insert.
    + rewrite Ho. unfold vlen. simpl. lia.
    + intros k Hk. destruct (decide (k = ring_capacity g - 1)) as [->|Hne].
      * replace (c + 1 + (ring_capacity g - 1)) with (c + 1 * ring_capacity g) by lia.
        rewrite N.Div0.mod_add, list_lookup_insert_eq by exact (lookup_lt_Some _ _ _ Hsl).
        eexists. split; [done|]. unfold vlen in Hle. simpl in Hle.
        rewrite lookup_ge_None_2 by lia. simpl. lia.
      * rewrite list_lookup_insert_ne.
        { destruct (Hs (k + 1)) as (s' & Hs' & Hok'); [lia|].
          replace (c + (k + 1)) with (c + 1 + k) in * by lia. exists s'. split; [done|].
          by replace (N.to_nat (k + 1)) with (S (N.to_nat k)) in Hok' by lia. }
        intros Heq%N2Nat.inj. assert (0 = k + 1); [|lia].
        apply (mod_window c 0 (k + 1) (ring_capacity g)); [lia..|].
        rewrite N.add_0_r, Heq. f_equal. lia.
  - rewrite Hsok. by rewrite (proj2 (N.eqb_neq c (c + 1))) by lia.
Qed.
End ring.

(** ** The ring has room *)

Lemma countb_indices {A} (p : A → bool) (zero : A) (l : list N) (xs : list A) :
  p zero = false → NoDup l → (∀ f, f ∈ l → ∃ x, xs !! N.to_nat f = Some x ∧ p x = true) →
  (length l ≤ countb p xs)%nat.
Proof.
  intros Hz. revert xs. induction l as [|f l IH]; intros xs Hnd Hl; simpl; [lia|].
  apply NoDup_cons in Hnd as [Hf Hnd]. destruct (Hl f) as (x & Hx & Hp); [set_solver|].
  pose proof (countb_insert p xs (N.to_nat f) x zero Hx) as Hcount. rewrite Hz, Hp in Hcount. simpl in Hcount.
  assert (length l ≤ countb p (<[N.to_nat f := zero]> xs))%nat; [|lia].
  apply IH; [done|]. intros g Hg. rewrite list_lookup_insert_ne; [apply Hl; set_solver|].
  intros ?%N2Nat.inj. by subst.
Qed.

Definition waits (p : pc) : nat := match p with RTicket _ _ => 1 | _ => 0 end.

Lemma parks_tickets ts :
  length (ts ≫= parks) = (length (ts ≫= ticket_of) + sum_list_with waits ts)%nat.
Proof.
  induction ts as [|p ts IH]; [done|]. rewrite !bind_cons, !length_app, IH. destruct p; simpl; lia.
Qed.

Lemma outs_room s outs :
  inv s → (threads s ≫= ticket_of) ≡ₚ open_tickets (release_cursor (ret s)) outs →
  NoDup (parked (threads s) (control s) outs) →
  (∀ f, f ∈ parked (threads s) (control s) outs ↔
     phases s !! N.to_nat f = Some OnHold ∧ owners f (threads s) = 0%nat) →
  vlen outs + N.of_nat (sum_list_with waits (threads s)) ≤ max_retained_frames (ret s).
Proof.
  intros Hinv Hperm Hnd Hpk. unfold vlen. rewrite (outs_length (release_cursor (ret s)) outs), <- Hperm.
  pose proof (parks_tickets (threads s)) as Hlen. pose proof (i_max s Hinv) as Hmax.
  assert (length (parked (threads s) (control s) outs) ≤ retained (ret s))%nat as Hle.
  { apply (countb_indices _ 0); [done..|]. intros f [Hph Ho]%Hpk.
    destruct (i_lens s Hinv) as [Hl _]. apply lookup_lt_Some in Hph as Hlt. rewrite Hl in Hlt.
    apply lookup_lt_is_Some in Hlt as [w Hw]. exists w. split; [done|].
    destruct (i_words s Hinv f w Hw) as (ph & Hph' & -> & _). simplify_eq.
    apply negb_true_iff, N.eqb_neq. rewrite word_zero. naive_solver. }
  unfold parked in Hle. rewrite !length_app in Hle. lia.
Qed.

(** Push tickets are 64-bit; [roomy] states are those before the counter's end. *)
Definition roomy (s : system) : Prop :=
  tail (ring (ret s)) + ring_capacity (ring (ret s)) < U64_MAX.

Lemma same_frames_refl r : same_frames r r.
Proof. by split_and!. Qed.
Lemma same_frames_occupied r n : same_frames r (set_occupied r n).
Proof. by split_and!. Qed.
Lemma same_frames_counters r f : same_frames r (count_refusal r f).
Proof. by split_and!. Qed.
Lemma same_frames_pending r b : same_frames r (set_pending r b).
Proof. by split_and!. Qed.
Lemma same_frames_trans r1 r2 r3 : same_frames r1 r2 → same_frames r2 r3 → same_frames r1 r3.
Proof. unfold same_frames. naive_solver congruence. Qed.

(** ** Every step of a thread succeeds and keeps the invariant *)

Section thread.
Context (ts1 ts2 : list pc) (c : cpc) (ph : list phase) (e : N).

Definition advances (r : Retention) (p : pc) : Prop :=
  inv (mkSystem r (ts1 ++ p :: ts2) c ph e) → roomy (mkSystem r (ts1 ++ p :: ts2) c ph e) →
  ∃ r' p', thread_step r p = Done (r', p') ∧ inv (mkSystem r' (ts1 ++ p' :: ts2) c ph e).

Lemma inv_thread r p : inv (mkSystem r (ts1 ++ p :: ts2) c ph e) → thread_ok r c ph p.
Proof. intros Hinv. apply (i_threads _ Hinv). simpl. set_solver. Qed.

Lemma quiet_step r p r' p' :
  inv (mkSystem r (ts1 ++ p :: ts2) c ph e) → same_frames r r' →
  (∀ f, own f p' = own f p) → parks p' = parks p → ticket_of p' = ticket_of p →
  occupied_budget r' + N.of_nat (unit_of p) = occupied_budget r + N.of_nat (unit_of p') →
  (good p' ≤ good p)%nat ∨
    unit_of p = 0%nat ∧ (good p' ≤ 1)%nat ∧ occupied_budget r < max_retained_frames r →
  (∀ f, promotes f p' → promotes f p) → (∀ s, slot_of p' = Some s → slot_of p = Some s) →
  load_ok p' →
  inv (mkSystem r' (ts1 ++ p' :: ts2) c ph e).
Proof.
  intros Hinv Hsame Hown Hpk Htk Hocc Hgood Hprom Hslot Hload. pose proof (inv_thread _ _ Hinv) as (H1 & H2 & H3 & _).
  apply (quiet_inv r ts1 p ts2 c ph e r' p'); try done.
  - pose proof (sum_swap good ts1 p p' ts2) as Hsw. pose proof (i_max _ Hinv) as Hmax. simpl in Hmax.
    destruct Hgood as [?|(Hu & Hg & Hlt)]; [lia|].
    pose proof (i_budget _ Hinv) as Hb. simpl in Hb. pose proof (good_unit (ts1 ++ p :: ts2)). lia.
  - split_and!; [by intros f ?%Hprom%H1| |by intros s ?%Hslot%H3|done].
    intros f. rewrite Hown. apply H2.
Qed.

Lemma guarded_word r p f :
  inv (mkSystem r (ts1 ++ p :: ts2) c ph e) → ph !! N.to_nat f = Some Guarded →
  words r !! N.to_nat f = Some (N.of_nat (owners f (ts1 ++ p :: ts2))) ∧ f < vlen (words r) ∧
  N.of_nat (owners f (ts1 ++ p :: ts2)) ≤ COUNT_MASK.
Proof.
  intros Hinv Hph. destruct (i_lens _ Hinv) as [Hl _]. simpl in Hl.
  apply lookup_lt_Some in Hph as Hlt. rewrite Hl in Hlt.
  apply lookup_lt_is_Some in Hlt as [w Hw]. destruct (i_words _ Hinv f w Hw) as (ph' & Hph' & Hweq & _ & Hle).
  simpl in *. simplify_eq. unfold word_of, held_bit in Hw. simpl in Hw. rewrite N.add_0_r in Hw.
  split_and!; [done|by eapply vget_lt|done].
Qed.

Ltac settle Hinv :=
  eexists _, _; (split; [done|]); eapply quiet_step;
  [exact Hinv|..]; simpl; try done; try (left; lia); try lia.

Lemma retry_step r p frame slot n :
  inv (mkSystem r (ts1 ++ p :: ts2) c ph e) → promotes frame p → slot_of p = Some slot →
  (∀ f, own f p = 0%nat) → parks p = [] → ticket_of p = [] → unit_of p = 0%nat →
  ∃ r' p', retry r frame slot n = (r', p') ∧ inv (mkSystem r' (ts1 ++ p' :: ts2) c ph e).
Proof.
  intros Hinv Hp Hs Ho Hpk Htk Hu.
  assert (∀ g, promotes g (PLoad frame slot n) → promotes g p) as Hprom by (simpl; by intros g <-).
  destruct n as [|n]; simpl; settle Hinv; try (by intros; rewrite Ho); naive_solver.
Qed.

Lemma load_advances r frame slot n : advances r (PLoad frame slot n).
Proof.
  intros Hinv _. pose proof (inv_thread _ _ Hinv) as (Hpr & _ & _ & _). destruct (Hpr frame eq_refl) as [Hg _].
  destruct (guarded_word _ _ _ Hinv Hg) as (Hw & Hf & Hle). simpl.
  rewrite (proj2 (vget_Done _ _ _) Hw). mred. rewrite land_held_small by done. simpl assertb. mred.
  set (o := owners frame _) in *.
  assert (N.land (N.of_nat o) COUNT_MASK = N.of_nat o) as ->.
  { rewrite <- (N.add_0_r (N.of_nat o)) at 1. by apply (word_count o Guarded). }
  destruct (N.eqb_spec (N.of_nat o) COUNT_MASK) as [Heq|Hne]; [|destruct (N.ltb_spec 0 (N.of_nat o))];
    settle Hinv.
  exists o. split_and!; [done|lia..].
Qed.

Lemma reserve_advances r frame slot n : advances r (PReserve frame slot n).
Proof.
  intros Hinv _. pose proof (occupied_bound _ Hinv) as Hocc. simpl in Hocc. simpl.
  rewrite wrapping_add_small by (change (2 ^ 32) with (U32_MAX + 1); lia).
  destruct (N.leb_spec (max_retained_frames r) (occupied_budget r));
    settle Hinv.
Qed.

Lemma rollback_advances r frame slot n : advances r (PRollback frame slot n).
Proof.
  intros Hinv _. destruct (unit_release _ _ ts1 ts2 Hinv eq_refl eq_refl) as [Hr Hpos]. simpl in *.
  rewrite Hr. mred. settle Hinv.
Qed.

Lemma recheck_advances r frame slot n : advances r (PRecheck frame slot n).
Proof.
  intros Hinv _. pose proof (inv_thread _ _ Hinv) as (Hpr & _ & _ & _). destruct (Hpr frame eq_refl) as [Hg _].
  destruct (guarded_word _ _ _ Hinv Hg) as (Hw & _). simpl.
  rewrite (proj2 (vget_Done _ _ _) Hw). mred. case_match.
  - destruct (retry_step _ _ frame slot n Hinv) as (r' & p' & -> & ?); try done. by eexists _, _.
  - settle Hinv.
Qed.

Lemma unreserve_advances r frame slot n : advances r (PUnreserve frame slot n).
Proof.
  intros Hinv _. destruct (unit_release _ _ ts1 ts2 Hinv eq_refl eq_refl) as [Hr Hpos]. simpl in *.
  rewrite Hr. mred.
  assert (inv (mkSystem (set_occupied r (occupied_budget r - 1)) (ts1 ++ PRecheck frame slot n :: ts2) c ph e))
    as Hinv' by (eapply quiet_step; [exact Hinv|..]; simpl; try done; try (left; lia); lia).
  destruct (retry_step _ _ frame slot n Hinv') as (r' & p' & -> & ?); try done. by eexists _, _.
Qed.

Lemma check_advances r frame slot : advances r (PCheckRetiring frame slot).
Proof.
  intros Hinv _. pose proof (inv_thread _ _ Hinv) as (Hpr & _ & Hsl & _). simpl.
  destruct (vget_ok (retiring r) slot) as (b & -> & _); [by apply Hsl|]. mred.
  destruct b; settle Hinv; naive_solver.
Qed.

Lemma retained_advances r frame : advances r (Retained frame).
Proof. intros Hinv _. simpl. settle Hinv; naive_solver. Qed.

Lemma unit_advances r frame refusing : advances r (RUnit frame refusing).
Proof.
  intros Hinv _. destruct (unit_release _ _ ts1 ts2 Hinv eq_refl eq_refl) as [Hr Hpos]. simpl in *.
  rewrite Hr. mred. unfold released. destruct refusing; settle Hinv.
Qed.

Lemma pending_advances r frame refusing : advances r (RPending frame refusing).
Proof. intros Hinv _. simpl. unfold released. destruct refusing; settle Hinv. Qed.

Lemma compare_exchange_ok r f w current new :
  words r !! N.to_nat f = Some w →
  compare_exchange r f current new =
    Done (if w =? current then (set_words r (<[N.to_nat f := new]> (words r)), true) else (r, false)).
Proof.
  intros Hw. unfold compare_exchange. rewrite (proj2 (vget_Done _ _ _) Hw). mred.
  case_match; [|done]. by rewrite vset_ok by by eapply vget_lt.
Qed.

(** One more owner of a guarded frame. *)
Lemma owners_up f p p' :
  own f p = 0%nat → own f p' = 1%nat → owners f (ts1 ++ p' :: ts2) = S (owners f (ts1 ++ p :: ts2)).
Proof. intros H H'. pose proof (sum_swap (own f) ts1 p p' ts2). unfold owners. lia. Qed.

Lemma own_self f slot : own f (PCheckRetiring f slot) = 1%nat.
Proof. simpl. by rewrite N.eqb_refl. Qed.
Lemma own_other f g slot : g ≠ f → own g (PCheckRetiring f slot) = 0%nat.
Proof. intros H. simpl. by rewrite (proj2 (N.eqb_neq f g)) by congruence. Qed.

Lemma acquire_inv r p f slot :
  inv (mkSystem r (ts1 ++ p :: ts2) c ph e) → promotes f p → slot_of p = Some slot →
  (∀ g, own g p = 0%nat) → parks p = [] → ticket_of p = [] →
  N.of_nat (owners f (ts1 ++ p :: ts2)) < COUNT_MASK →
  (unit_of p = Nat.b2n (owners f (ts1 ++ p :: ts2) =? 0)%nat) → good p = unit_of p →
  inv (mkSystem (set_words r (<[N.to_nat f := N.of_nat (S (owners f (ts1 ++ p :: ts2)))]> (words r)))
    (ts1 ++ PCheckRetiring f slot :: ts2) c ph e).
Proof.
  intros Hinv Hp Hs Ho Hpk Htk Hlt Hu Hg. pose proof (inv_thread _ _ Hinv) as (Hpr & _ & Hsl & _).
  destruct (Hpr f Hp) as [Hph Hnm]. destruct (guarded_word _ _ _ Hinv Hph) as (Hw & Hf & _).
  pose proof (owners_up f p (PCheckRetiring f slot) (Ho f) (own_self f slot)) as Hup.
  assert (∀ n, word_of n Guarded = N.of_nat n) as Hword
    by (intros n; unfold word_of, held_bit; simpl; lia).
  rewrite <- Hup, <- Hword.
  apply (store_inv r ts1 p ts2 c ph e (PCheckRetiring f slot) f Guarded); try done; rewrite ?Hup, ?Hword.
  - intros g Hg'. by rewrite own_other, Ho.
  - by rewrite own_self, Ho.
  - lia.
  - by left.
  - simpl unit_of. rewrite Hu. destruct (owners f _); simpl; lia.
  - simpl good. rewrite Hg, Hu. destruct (owners f _); simpl; lia.
  - simpl. by intros g <-.
  - split_and!; simpl.
    + by intros g <-.
    + intros g. destruct (N.eqb_spec f g) as [<-|]; done.
    + intros s [= <-]. by apply Hsl.
    + done.
Qed.

Lemma increment_advances r frame slot n previous : advances r (PIncrement frame slot n previous).
Proof.
  intros Hinv _. pose proof (inv_thread _ _ Hinv) as (Hpr & _ & _ & m & -> & Hm & Hlt).
  destruct (Hpr frame eq_refl) as [Hg _]. destruct (guarded_word _ _ _ Hinv Hg) as (Hw & Hf & Hle). simpl.
  change COUNT_MASK with 65535 in Hlt. rewrite add_ok by (change U32_MAX with 4294967295; lia). mred.
  rewrite (compare_exchange_ok _ _ _ _ _ Hw). mred. destruct (N.eqb_spec (N.of_nat (owners frame (ts1 ++ PIncrement frame slot n (N.of_nat m) :: ts2))) (N.of_nat m)) as [Heq%Nat2N.inj|Hne].
  - eexists _, _. split; [done|].
    pose proof (acquire_inv r _ frame slot Hinv eq_refl eq_refl ltac:(done) eq_refl eq_refl) as Hacq.
    rewrite Heq in Hacq. replace (N.of_nat m + 1) with (N.of_nat (S m)) by lia. apply Hacq; [done| |done].
    simpl. by destruct m; [lia|].
  - destruct (retry_step _ _ frame slot n Hinv) as (r' & p' & -> & ?); try done. by eexists _, _.
Qed.

Lemma cas_advances r frame slot n : advances r (PCas frame slot n).
Proof.
  intros Hinv _. pose proof (inv_thread _ _ Hinv) as (Hpr & _). destruct (Hpr frame eq_refl) as [Hg _].
  destruct (guarded_word _ _ _ Hinv Hg) as (Hw & Hf & Hle). simpl.
  rewrite (compare_exchange_ok _ _ _ _ _ Hw). mred. destruct (N.eqb_spec (N.of_nat (owners frame (ts1 ++ PCas frame slot n :: ts2))) 0) as [Heq|Hne].
  - eexists _, _. split; [done|].
    pose proof (acquire_inv r _ frame slot Hinv eq_refl eq_refl ltac:(done) eq_refl eq_refl) as Hacq.
    assert (owners frame (ts1 ++ PCas frame slot n :: ts2) = 0%nat) as Hz by lia.
    rewrite Hz in Hacq. by apply Hacq.
  - settle Hinv.
Qed.

Lemma released_inv r p frame refusing r' p' :
  inv (mkSystem r (ts1 ++ p :: ts2) c ph e) → released r frame refusing = (r', p') →
  (∀ g, own g p = 0%nat) → parks p = [] → ticket_of p = [] → unit_of p = 0%nat →
  inv (mkSystem r' (ts1 ++ p' :: ts2) c ph e).
Proof.
  intros Hinv Hrel Ho Hpk Htk Hu. unfold released in Hrel.
  destruct refusing; injection Hrel as <- <-; (eapply quiet_step; [exact Hinv|..]; simpl; try done; try (left; lia); try lia).
Qed.

Lemma owners_down f p p' :
  own f p = 1%nat → own f p' = 0%nat → owners f (ts1 ++ p :: ts2) = S (owners f (ts1 ++ p' :: ts2)).
Proof. intros H H'. pose proof (sum_swap (own f) ts1 p p' ts2). unfold owners. lia. Qed.

(** The word after a release, for each of [release]'s continuations [p']. *)
Lemma release_inv r frame refusing p' phf o :
  inv (mkSystem r (ts1 ++ RSub frame refusing :: ts2) c ph e) → frame < vlen (words r) →
  ph !! N.to_nat frame = Some phf → owners frame (ts1 ++ RSub frame refusing :: ts2) = S o →
  (∀ g, own g p' = 0%nat) → ticket_of p' = [] → good p' = 0%nat → slot_of p' = None → load_ok p' →
  (∀ g, promotes g p' → g = frame ∧ refusing = true) →
  parks p' = (if decide (phf = OnHold ∧ o = 0%nat) then [frame] else []) →
  unit_of p' = (if decide (o = 0%nat ∧ phf ≠ OnHold) then 1 else 0)%nat →
  inv (mkSystem (set_words r (<[N.to_nat frame := word_of o phf]> (words r))) (ts1 ++ p' :: ts2) c ph e).
Proof.
  intros Hinv Hf Hph Ho Hown Htk Hgd Hsl Hld Hprom Hpk Hun. pose proof (inv_thread _ _ Hinv) as (Hpr & _).
  assert (own frame (RSub frame refusing) = 1%nat) as Hself by (simpl; by rewrite N.eqb_refl).
  pose proof (owners_down frame _ p' Hself (Hown frame)) as Hdown. rewrite Ho in Hdown. injection Hdown as Hdown.
  destruct (vget_ok _ _ Hf) as (w & _ & Hw). destruct (i_words _ Hinv frame w Hw) as (phf' & Hph' & _ & _ & Hle).
  simpl in Hph', Hle. assert (phf' = phf) as -> by congruence. rewrite Ho in Hle. rewrite Hdown.
  apply (store_inv r ts1 (RSub frame refusing) ts2 c ph e p' frame phf); try done; rewrite <- ?Hdown, ?Ho.
  - intros g Hg. rewrite Hown. simpl. by rewrite (proj2 (N.eqb_neq frame g)) by congruence.
  - by rewrite Hown, Hself.
  - lia.
  - by right.
  - intros _. rewrite Hown. lia.
  - rewrite Hpk. by apply decide_ext.
  - rewrite Hun. clear -frame. pose proof (word_zero o phf) as Hz. pose proof (word_zero (S o) phf) as Hsz.
    destruct (N.eqb_spec (word_of o phf) 0) as [H1|H1], (N.eqb_spec (word_of (S o) phf) 0) as [H2|H2];
      case_decide; simpl; tauto || lia.
  - rewrite Hgd. pose proof (word_zero (S o) phf) as Hsz.
    destruct (N.eqb_spec (word_of o phf) 0), (N.eqb_spec (word_of (S o) phf) 0); simpl; tauto || lia.
  - intros g (-> & ->)%Hprom. done.
  - split_and!; [|by intros g; rewrite Hown|by intros s; rewrite Hsl|done].
    intros g (-> & ->)%Hprom. by apply Hpr.
Qed.

Lemma sub_advances r frame refusing : advances r (RSub frame refusing).
Proof.
  intros Hinv _. pose proof (inv_thread _ _ Hinv) as (Hpr & Hv & _).
  assert (own frame (RSub frame refusing) = 1%nat) as Hself by (simpl; by rewrite N.eqb_refl).
  specialize (Hv frame ltac:(by rewrite Hself)).
  destruct (vget_ok _ _ Hv) as (w & Hget & Hw). destruct (i_words _ Hinv frame w Hw) as (phf & Hph & -> & _ & Hle).
  pose proof (owners_down frame _ Released Hself eq_refl) as Ho. set (o := owners frame (ts1 ++ Released :: ts2)) in Ho.
  simpl in *. rewrite Ho in *. rewrite Hget. mred. rewrite word_count by done.
  rewrite assertb_true by (apply N.ltb_lt; lia). mred. rewrite vset_ok by done. mred.
  rewrite word_pred, word_count, word_held by lia.
  pose proof (λ p', release_inv r frame refusing p' phf o Hinv Hv Hph Ho) as Hrel.
  destruct (N.ltb_spec 0 (N.of_nat o)) as [Hpos|Hz]; [|destruct (N.eqb_spec (held_bit phf) 0) as [Hnh|Hh]].
  - destruct (released _ frame refusing) as [r' p'] eqn:Heq. eexists _, _. split; [done|].
    eapply (released_inv _ Released); [apply Hrel|exact Heq|..]; try done; by rewrite decide_False by (intros [? ?]; lia).
  - eexists _, _. split; [done|]. assert (phf ≠ OnHold) by by intros ->.
    apply Hrel; try done; simpl; assert (o = 0%nat) by lia; clear Hrel; try (by intros ? [-> ->]); case_decide; tauto || done.
  - eexists _, _. split; [done|]. assert (phf = OnHold) as -> by by destruct phf.
    apply Hrel; try done; simpl; assert (o = 0%nat) by lia; clear Hrel; try (by intros ? [-> ->]); case_decide; tauto || done.
Qed.

(** The thread moves on the ring only. *)
Lemma ring_inv r p p' g outs outs' :
  inv (mkSystem r (ts1 ++ p :: ts2) c ph e) →
  (∀ f, own f p' = own f p) → unit_of p' = unit_of p → good p' = good p → 
  (∀ f, promotes f p' → promotes f p) → slot_of p' = None → load_ok p' →
  ring_ok g (release_cursor r) (max_retained_frames r) outs' →
  ((ts1 ++ p' :: ts2) ≫= ticket_of) ≡ₚ open_tickets (release_cursor r) outs' →
  NoDup (parked (ts1 ++ p :: ts2) c outs) →
  (∀ f, f ∈ parked (ts1 ++ p :: ts2) c outs ↔
     ph !! N.to_nat f = Some OnHold ∧ owners f (ts1 ++ p :: ts2) = 0%nat) →
  parked (ts1 ++ p' :: ts2) c outs' ≡ₚ parked (ts1 ++ p :: ts2) c outs →
  inv (mkSystem (set_ring r g (release_cursor r)) (ts1 ++ p' :: ts2) c ph e).
Proof.
  intros [Hl Hw Ht Hc Hb Hm Htot Htag _] Hown Hu Hg Hprom Hsl Hld Hok Htk Hr3 Hr4 Hpk.
  simpl in *. assert (∀ f, owners f (ts1 ++ p' :: ts2) = owners f (ts1 ++ p :: ts2)) as Hos
    by (intros f; by apply owners_other).
  split; simpl; try done.
  - intros f w Hf. rewrite Hos. by apply Hw.
  - intros q Hq. apply (thread_ok_mono r); [done..|].
    apply elem_of_app in Hq as [Hq|[->|Hq]%elem_of_cons]; [apply Ht; set_solver| |apply Ht; set_solver].
    destruct (Ht p) as (H1 & H2 & _); [set_solver|].
    split_and!; [by intros f ?%Hprom%H1| |by intros s; rewrite Hsl|done]. intros f. rewrite Hown. apply H2.
  - eapply control_ok_mono; [done|..|exact Hc].
    + intros f _. by rewrite Hos.
    + intros f q _. exact (swap_promotes ts1 p p' ts2 f (Hprom f) q).
  - pose proof (sum_swap unit_of ts1 p p' ts2). change (retained _) with (retained r). lia.
  - pose proof (sum_swap good ts1 p p' ts2). change (retained (set_ring _ _ _)) with (retained r). lia.
  - unfold vlen in *. rewrite !length_app in *. simpl in *. lia.
  - exists outs'. split_and!; [done..| |].
    + by rewrite Hpk.
    + intros f. rewrite Hpk, Hos. apply Hr4.
Qed.

Lemma ticket_advances r frame refusing : advances r (RTicket frame refusing).
Proof.
  intros Hinv Hroom. destruct (i_ring _ Hinv) as (outs & Hr1 & Hr2 & Hr3 & Hr4).
  pose proof (outs_room _ outs Hinv Hr2 Hr3 Hr4) as Hlen. unfold roomy in Hroom.
  simpl in *. rewrite sum_list_with_app in Hlen. simpl in Hlen. pose proof (ro_budget _ _ _ _ Hr1) as Hbud.
  destruct (ring_ticket_ok _ _ _ _ Hr1) as (g' & Hg & Hok & _ & _); [lia..|]. rewrite Hg. mred.
  eexists _, _. split; [done|].
  apply (ring_inv r (RTicket frame refusing) _ _ outs (outs ++ [None])); try done.
  - rewrite open_tickets_snoc, <- Hr2, !bind_app. simpl. rewrite <- Permutation_middle.
    by rewrite (Permutation_app_comm _ [_]).
  - unfold parked. rewrite (bind_swap parks ts1 (RTicket frame refusing)) by done.
    rewrite omap_app. simpl. by rewrite app_nil_r.
Qed.

Lemma slot_advances r frame ticket refusing : advances r (RStore frame ticket refusing).
Proof.
  intros Hinv Hroom. destruct (i_ring _ Hinv) as (outs & Hr1 & Hr2 & Hr3 & Hr4).
  pose proof (outs_room _ outs Hinv Hr2 Hr3 Hr4) as Hlen.
  simpl in *. pose proof (ro_budget _ _ _ _ Hr1) as Hbud.
  assert (ticket ∈ open_tickets (release_cursor r) outs) as Hin.
  { rewrite <- Hr2, bind_app. simpl. set_solver. }
  apply open_tickets_elem in Hin as (k & -> & Hk).
  destruct (ring_store_ok _ _ _ _ Hr1 (N.of_nat k) frame) as (g' & Hg & Hok & _ & _); [by rewrite Nat2N.id|lia|].
  rewrite Hg. mred. rewrite Nat2N.id in Hok. eexists _, _. split; [done|].
  apply (ring_inv r (RStore frame (release_cursor r + N.of_nat k) refusing) _ _ outs (<[k := Some frame]> outs)); try done.
  - rewrite (open_tickets_fill _ _ _ frame Hk), !bind_app in Hr2. rewrite !bind_app. simpl in *.
    rewrite <- Permutation_middle in Hr2. by apply Permutation_cons_inv in Hr2.
  - unfold parked. rewrite (omap_fill _ _ frame Hk), !bind_app. simpl.
    rewrite <- !app_assoc. simpl. by rewrite <- !Permutation_middle.
Qed.

Lemma thread_advances r p : advances r p.
Proof.
  destruct p; auto using load_advances, increment_advances, reserve_advances, cas_advances,
    rollback_advances, recheck_advances, unreserve_advances, check_advances, retained_advances,
    sub_advances, unit_advances, ticket_advances, slot_advances, pending_advances;
    intros Hinv _; simpl; by eexists _, _.
Qed.
End thread.

(** ** Every step of the control side succeeds and keeps the invariant *)

Section control.
Context (ts : list pc) (ph : list phase) (e : N).

Definition control_advances (r : Retention) (c : cpc) : Prop :=
  inv (mkSystem r ts c ph e) → roomy (mkSystem r ts c ph e) →
  ∃ r' c', control_step r c = Done (r', c') ∧ inv (mkSystem r' ts c' (phase_after c' ph) e).

Lemma control_quiet r c r' c' :
  inv (mkSystem r ts c ph e) →
  words r' = words r → length (tags r') = length (tags r) → retiring r' = retiring r →
  ring r' = ring r → release_cursor r' = release_cursor r → max_retained_frames r' = max_retained_frames r →
  occupied_budget r' + N.of_nat (unit_control c) = occupied_budget r + N.of_nat (unit_control c') →
  parks_control c' = parks_control c → (∀ f, matures f c' → matures f c) →
  control_ok r' ts c' ph e →
  (∀ f t, ph !! N.to_nat f = Some OnHold → tags r' !! N.to_nat f = Some t → matured_tag t (tag_bound c' e)) →
  inv (mkSystem r' ts c' ph e).
Proof.
  intros [Hl Hw Ht Hc Hb Hm Htot Htag (outs & Hr1 & Hr2 & Hr3 & Hr4)]
    Hwd Htg Hrt Hrg Hcu Hmx Hocc Hpk Hmat Hok Htags. simpl in *.
  assert (retained r' = retained r) as Hret by (unfold retained; by rewrite Hwd).
  split; simpl; rewrite ?Hwd, ?Htg, ?Hmx, ?Hrg, ?Hcu, ?Hret; try done; [| |].
  - intros p Hp. apply (thread_ok_mono r); [by rewrite Hwd|by rewrite Hrt|].
    destruct (Ht p Hp) as (H1 & H2). split; [|done]. intros f Hf. destruct (H1 f Hf). split; [done|]. auto.
  - lia.
  - exists outs. unfold parked in *. by rewrite Hpk.
Qed.

Lemma control_store r c f ph0 ph1 r' c' :
  inv (mkSystem r ts c ph e) → ph !! N.to_nat f = Some ph0 → (∀ p, p ∈ ts → ¬ promotes f p) →
  words r' = <[N.to_nat f := word_of (owners f ts) ph1]> (words r) →
  tags r' = tags r → retiring r' = retiring r → ring r' = ring r → release_cursor r' = release_cursor r →
  max_retained_frames r' = max_retained_frames r → occupied_budget r' = occupied_budget r →
  (Nat.b2n (negb (word_of (owners f ts) ph1 =? 0)%N) + unit_control c' =
   Nat.b2n (negb (word_of (owners f ts) ph0 =? 0)%N) + unit_control c)%nat →
  (Nat.b2n (negb (word_of (owners f ts) ph1 =? 0)%N) ≤ Nat.b2n (negb (word_of (owners f ts) ph0 =? 0)%N))%nat →
  parks_control c' = [] → (parks_control c = [f] ∨ parks_control c = [] ∧ ph0 ≠ OnHold) →
  (∀ g, ¬ matures g c') → control_ok r' ts c' (<[N.to_nat f := ph1]> ph) e →
  tag_bound c' e = tag_bound c e →
  (∀ t, ph1 = OnHold → tags r !! N.to_nat f = Some t → matured_tag t (tag_bound c e)) →
  (ph1 = Reclaimed → owners f ts = 0%nat) → (ph1 = OnHold → owners f ts ≠ 0%nat) →
  inv (mkSystem r' ts c' (<[N.to_nat f := ph1]> ph) e).
Proof.
  intros [Hl Hw Ht Hc Hb Hm Htot Htag (outs & Hr1 & Hr2 & Hr3 & Hr4)] Hph Hnp
    Hwd Htg Hrt Hrg Hcu Hmx Hocc Hun Hle Hpk' Hpk Hmat Hok Htb Htf Hrc Hrc'. simpl in *.
  pose proof (lookup_lt_Some _ _ _ Hph) as Hlt. destruct Hl as [Hl1 Hl2].
  destruct (lookup_lt_is_Some_2 (words r) (N.to_nat f)) as [w Hwf]; [lia|].
  destruct (Hw f w Hwf) as (ph' & Hph' & Hweq & _ & Hmask). assert (ph' = ph0) as -> by congruence.
  pose proof (retained_store r f w (word_of (owners f ts) ph1) Hwf) as Hret. rewrite Hweq in Hret.
  assert (retained r' = retained (set_words r (<[N.to_nat f := word_of (owners f ts) ph1]> (words r)))) as Hreq
    by (unfold retained; by rewrite Hwd).
  assert ((f ∉ parked ts c' outs) ∧ (∀ g, g ≠ f → g ∈ parked ts c' outs ↔ g ∈ parked ts c outs) ∧ NoDup (parked ts c' outs)) as (Hfp & Hsub & Hnd').
  { unfold parked in *. rewrite Hpk', app_nil_r. destruct Hpk as [Hpk|[Hpk Hne]]; rewrite Hpk in *.
    - rewrite (app_assoc _ _ [f]) in *. apply NoDup_app in Hr3 as (? & Hdis & _). split_and!; [set_solver| |done].
      intros g Hg. rewrite (elem_of_app (_ ++ _) [f]), list_elem_of_singleton. naive_solver.
    - rewrite app_nil_r in *. split_and!; [|done..]. intros [? _]%Hr4. congruence. }
  split; simpl; rewrite ?Hwd, ?Htg, ?Hmx, ?Hrg, ?Hcu, ?Htb, ?length_insert; try done.
  - intros g wg Hg. destruct (decide (g = f)) as [->|Hne].
    + rewrite list_lookup_insert_eq in Hg by lia. injection Hg as <-. exists ph1.
      rewrite list_lookup_insert_eq by lia. by split_and!.
    + rewrite list_lookup_insert_ne in Hg by lia. rewrite list_lookup_insert_ne by lia. by apply Hw.
  - intros p Hp. apply (thread_ok_mono r); [by rewrite Hwd, vlen_insert|by rewrite Hrt|].
    destruct (Ht p Hp) as (H1 & H2). split; [|done]. intros g Hg. split; [|apply Hmat].
    rewrite list_lookup_insert_ne; [by apply H1|]. intros ?%N2Nat.inj. subst g. by eapply Hnp.
  - lia.
  - lia.
  - intros g t. destruct (decide (g = f)) as [->|Hne].
    + rewrite list_lookup_insert_eq by lia. intros [= ->]. by apply Htf.
    + rewrite list_lookup_insert_ne by lia. apply Htag.
  - exists outs. split_and!; try done. intros g. destruct (decide (g = f)) as [->|Hne].
    + rewrite list_lookup_insert_eq by lia. naive_solver.
    + rewrite list_lookup_insert_ne by lia. rewrite <- Hr4. naive_solver.
Qed.

Lemma control_word r c f ph0 :
  inv (mkSystem r ts c ph e) → ph !! N.to_nat f = Some ph0 →
  words r !! N.to_nat f = Some (word_of (owners f ts) ph0) ∧ N.of_nat (owners f ts) ≤ COUNT_MASK ∧
  f < vlen (words r) ∧ f < vlen (tags r).
Proof.
  intros Hinv Hph. destruct (i_lens _ Hinv) as [Hl Hl']. simpl in *.
  apply lookup_lt_Some in Hph as Hlt. destruct (lookup_lt_is_Some_2 (words r) (N.to_nat f)) as [w Hw]; [lia|].
  destruct (i_words _ Hinv f w Hw) as (ph' & Hph' & -> & _ & Hm). simpl in *. simplify_eq.
  unfold vlen. rewrite Hl'. split_and!; [done..|lia|lia].
Qed.

(** A frame without owners leaves the matured eviction free. *)
Lemma freed_inv r c f :
  inv (mkSystem r ts c ph e) → matures f c → ph !! N.to_nat f = Some Guarded →
  (∀ p, p ∈ ts → ¬ promotes f p) → owners f ts = 0%nat →
  inv (mkSystem r ts (MFreed f) (<[N.to_nat f := Reclaimed]> ph) e).
Proof.
  intros Hinv Hmat Hph Hnp Ho. destruct (control_word _ _ _ _ Hinv Hph) as (Hw & _).
  eapply (control_store r c f Guarded Reclaimed); try done; rewrite ?Ho in *; simpl.
  - symmetry. by apply list_insert_id.
  - by destruct c.
  - right. by destruct c.
  - by intros _ [].
  - by destruct c.
Qed.

Lemma land_count o : N.of_nat o ≤ COUNT_MASK → N.land (N.of_nat o) COUNT_MASK = N.of_nat o.
Proof. intros H. rewrite <- (N.add_0_r (N.of_nat o)) at 1. by apply (word_count o Guarded). Qed.

Lemma word_guarded o : word_of o Guarded = N.of_nat o.
Proof. unfold word_of, held_bit. simpl. lia. Qed.

Lemma mature_load_advances r frame tag : control_advances r (MLoad frame tag).
Proof.
  intros Hinv _. destruct (i_control _ Hinv) as (Hph & Hnp & Htag). simpl in *.
  destruct (control_word _ _ _ _ Hinv Hph) as (Hw & Hm & _ & _). rewrite word_guarded in Hw.
  rewrite (proj2 (vget_Done _ _ _) Hw). mred. rewrite land_count, land_held_small by done.
  destruct (N.eqb_spec (N.of_nat (owners frame ts)) 0) as [Hz|Hnz]; simpl assertb; mred; eexists _, _; (split; [done|]).
  - apply (freed_inv r (MLoad frame tag)); try done. lia.
  - simpl. apply (control_quiet r (MLoad frame tag)); try done; [|apply (i_tags _ Hinv)].
    simpl. split_and!; try done. exists (owners frame ts). split_and!; [done|lia..|done].
Qed.

Lemma mature_tag_advances r frame tag previous : control_advances r (MTag frame tag previous).
Proof.
  intros Hinv _. destruct (i_control _ Hinv) as (Hph & Hnp & Htag & m & -> & Hpos & Ho & Hm). simpl in *.
  destruct (control_word _ _ _ _ Hinv Hph) as (_ & _ & _ & Hlt). rewrite vset_ok by done. mred.
  eexists _, _. split; [done|]. simpl. rewrite land_count, Nat2N.id by done.
  apply (control_quiet r (MTag frame tag (N.of_nat m))); try done; simpl.
  - by rewrite length_insert.
  - split_and!; try done.
    + exists tag. rewrite list_lookup_insert_eq by (unfold vlen in Hlt; lia). done.
    + exists m. split_and!; done || lia.
  - intros f t Hf. rewrite list_lookup_insert_ne by (intros ?%N2Nat.inj; by simplify_eq). by apply (i_tags _ Hinv).
Qed.

Lemma mature_cas_advances r frame previous n : control_advances r (MCas frame previous n).
Proof.
  intros Hinv _.
  destruct (i_control _ Hinv) as (Hph & Hnp & (tag & Htag & Hmt) & m & -> & Hpos & Ho & Hm). simpl in *.
  destruct n as [|n]; [lia|]. destruct (control_word _ _ _ _ Hinv Hph) as (Hw & Hom & Hf & Hlt).
  rewrite word_guarded in Hw. rewrite (proj2 (vget_Done _ _ _) Hw), (land_count m), (land_held_small (N.of_nat m)) by done.
  simpl assertb. mred. rewrite (assertb_true (0 <? _)) by (apply N.ltb_lt; lia). mred.
  rewrite (compare_exchange_ok _ _ _ _ _ Hw). mred. rewrite land_count, land_held_small by done.
  destruct (N.eqb_spec (N.of_nat (owners frame ts)) (N.of_nat m)) as [Heq%Nat2N.inj|Hne].
  - eexists _, _. split; [done|]. simpl.
    apply (control_store r (MCas frame (N.of_nat m) (S n)) frame Guarded OnHold); try done; simpl.
    + rewrite lor_held by done. by rewrite Heq.
    + rewrite Heq. destruct m; [lia|]. done.
    + rewrite Heq. destruct m; [lia|]. done.
    + by right.
    + by intros _ [].
    + intros t _ Ht. by simplify_eq.
    + lia.
  - rewrite (assertb_true (_ <? _)) by (apply N.ltb_lt; lia). mred.
    destruct (N.eqb_spec (N.of_nat (owners frame ts)) 0) as [Hz|Hnz]; simpl assertb; mred; eexists _, _; (split; [done|]).
    + apply (freed_inv r (MCas frame (N.of_nat m) (S n))); try done. lia.
    + simpl. apply (control_quiet r (MCas frame (N.of_nat m) (S n))); try done; [|apply (i_tags _ Hinv)].
      simpl. split_and!; try done; [by exists tag|]. exists (owners frame ts). split_and!; done || lia.
Qed.

Lemma matured_tag_mono t d d' : matured_tag t d → d ≤ d' → matured_tag t d'.
Proof. unfold matured_tag. lia. Qed.

Lemma drain_pop_advances r d n : control_advances r (DPop d n).
Proof.
  intros Hinv Hroom. pose proof (i_control _ Hinv) as Hd. simpl in Hd.
  assert (inv (mkSystem r ts CIdle ph e)) as Hidle.
  { apply (control_quiet r (DPop d n)); try done. simpl. intros f t H1 H2.
    eapply matured_tag_mono; [exact (i_tags _ Hinv f t H1 H2)|done]. }
  destruct n as [|n]; simpl; [by eexists _, _|].
  destruct (i_ring _ Hinv) as (outs & Hr1 & Hr2 & Hr3 & Hr4).
  pose proof (outs_room _ outs Hinv Hr2 Hr3 Hr4) as Hlen. unfold roomy in Hroom. simpl in *.
  pose proof (ro_budget _ _ _ _ Hr1) as Hbud. pose proof (ro_outs _ _ _ _ Hr1) as Htail.
  pose proof (ring_pop_ok _ _ _ _ Hr1 ltac:(lia) ltac:(lia) ltac:(lia)) as Hpop.
  destruct outs as [|[f|] rest]; [rewrite Hpop; mred; by eexists _, _| |rewrite Hpop; mred; by eexists _, _].
  destruct Hpop as (g' & -> & Hok & _). mred. eexists _, _. split; [done|].
  destruct Hinv as [Hl Hw Ht Hc Hb Hm Htot Htag _]. simpl in *.
  assert (parked ts (DCheck d n f) rest ≡ₚ parked ts (DPop d (S n)) (Some f :: rest)) as Hpk.
  { unfold parked. simpl. rewrite app_nil_r, app_assoc. by rewrite (Permutation_app_comm _ [f]). }
  split; simpl; try done.
  exists rest. split_and!; [done..|by rewrite Hpk|]. intros g. rewrite Hpk. apply Hr4.
Qed.

Lemma parked_control r c f :
  inv (mkSystem r ts c ph e) → f ∈ parks_control c → ph !! N.to_nat f = Some OnHold ∧ owners f ts = 0%nat.
Proof.
  intros Hinv Hf. destruct (i_ring _ Hinv) as (outs & _ & _ & _ & Hr4). apply Hr4. unfold parked. set_solver.
Qed.

Lemma drain_check_advances r d n frame : control_advances r (DCheck d n frame).
Proof.
  intros Hinv _. pose proof (i_control _ Hinv) as Hd. simpl in Hd.
  destruct (parked_control _ _ frame Hinv) as [Hph Ho]; [simpl; set_solver|].
  destruct (control_word _ _ _ _ Hinv Hph) as (Hw & Hm & Hf & Hlt). rewrite Ho in Hw. simpl.
  destruct (vget_ok _ _ Hlt) as (tag & -> & Htag). mred.
  rewrite assertb_true by (apply N.leb_le; by apply (i_tags _ Hinv frame)). mred.
  rewrite (proj2 (vget_Done _ _ _) Hw). mred. eexists _, _. split; [done|].
  apply (control_quiet r (DCheck d n frame)); try done. apply (i_tags _ Hinv).
Qed.

Lemma drain_unhold_advances r d n frame word : control_advances r (DUnhold d n frame word).
Proof.
  intros Hinv _. destruct (i_control _ Hinv) as [-> Hd].
  destruct (parked_control _ _ frame Hinv) as [Hph Ho]; [simpl; set_solver|].
  destruct (control_word _ _ _ _ Hinv Hph) as (Hw & Hm & Hf & Hlt). rewrite Ho in Hw. simpl.
  rewrite (compare_exchange_ok _ _ _ _ _ Hw). change (word_of 0 OnHold) with HELD.
  rewrite N.eqb_refl. mred. eexists _, _. split; [done|]. simpl.
  apply (control_store r (DUnhold d n frame HELD) frame OnHold Reclaimed); try done; simpl; try (by rewrite Ho).
  - intros p Hp Hpr. destruct (i_threads _ Hinv p Hp) as (H1 & _). destruct (H1 frame Hpr) as [Hg _].
    simpl in *. congruence.
  - rewrite Ho. apply Nat.le_0_l.
  - by left.
  - by intros _ [].
Qed.

Lemma drain_unit_advances r d n : control_advances r (DUnit d n).
Proof.
  intros Hinv _. pose proof (i_control _ Hinv) as Hd. pose proof (i_budget _ Hinv) as Hb. simpl in Hb, Hd.
  simpl. unfold release_budget_unit. rewrite assertb_true by (apply N.ltb_lt; lia). mred.
  eexists _, _. split; [done|]. apply (control_quiet r (DUnit d n)); try done; simpl; [lia|].
  apply (i_tags _ Hinv).
Qed.

Lemma control_progress r c : control_advances r c.
Proof.
  destruct c; auto using mature_load_advances, mature_tag_advances, mature_cas_advances,
    drain_pop_advances, drain_check_advances, drain_unhold_advances, drain_unit_advances;
    intros Hinv _; pose proof (i_control _ Hinv) as Hd; simpl in *; eexists _, _; (split; [done|]); simpl.
  all: eapply control_quiet; [exact Hinv|..]; try done; apply (i_tags _ Hinv).
Qed.
End control.

(** ** The remaining steps *)

Lemma promote_inv r ts c ph e frame slot n :
  inv (mkSystem r ts c ph e) → ph !! N.to_nat frame = Some Guarded → ¬ matures frame c →
  slot < vlen (retiring r) → max_retained_frames r + vlen ts + 2 < U32_MAX →
  inv (mkSystem r (PLoad frame slot n :: ts) c ph e).
Proof.
  intros [Hl Hw Ht Hc Hb Hm Htot Htag Hr] Hph Hnm Hs Hlen. split; simpl in *; try done.
  - intros p [->|Hp]%elem_of_cons; [|by apply Ht]. split_and!; simpl; try done; [by intros f <-|by intros s [= <-]].
  - eapply control_ok_mono; [done|..|exact Hc]; [done|].
    intros f p Hf [->|Hp]%elem_of_cons; [|by eauto]. simpl. by intros <-.
  - unfold vlen in *. simpl. lia.
Qed.

Lemma mature_inv r ts ph e frame tag :
  inv (mkSystem r ts CIdle ph e) → ph !! N.to_nat frame = Some Guarded →
  (∀ p, p ∈ ts → ¬ promotes frame p) → saturating_add U64_MAX tag 2 ≤ e →
  inv (mkSystem r ts (MLoad frame tag) ph e).
Proof.
  intros [Hl Hw Ht Hc Hb Hm Htot Htag Hr] Hph Hnp Htg. split; simpl in *; try done.
  intros p Hp. destruct (Ht p Hp) as (H1 & H2). split; [|done]. intros f Hf.
  split; [by apply H1|]. intros <-. by eapply Hnp.
Qed.

Lemma leave_inv r ts1 p ts2 c ph e :
  inv (mkSystem r (ts1 ++ p :: ts2) c ph e) → (∃ frame reason, p = Refused frame reason) ∨ p = Released →
  inv (mkSystem r (ts1 ++ ts2) c ph e).
Proof.
  intros [Hl Hw Ht Hc Hb Hm Htot Htag Hr] Hp. simpl in *.
  assert (∀ f, owners f (ts1 ++ ts2) = owners f (ts1 ++ p :: ts2)) as Hos.
  { intros f. unfold owners. rewrite !sum_list_with_app. simpl. destruct Hp as [(? & ? & ->)| ->]; done. }
  assert (∀ A (g : pc → list A), g p = [] → (ts1 ++ ts2) ≫= g = (ts1 ++ p :: ts2) ≫= g) as Hbind.
  { intros A g Hg. by rewrite !bind_app, bind_cons, Hg. }
  assert (parks p = [] ∧ ticket_of p = [] ∧ unit_of p = 0%nat ∧ good p = 0%nat) as (Hpk & Htk & Hu & Hg)
    by by destruct Hp as [(? & ? & ->)| ->].
  split; simpl; try done.
  - intros f w Hf. rewrite Hos. by apply Hw.
  - intros q Hq. apply Ht. set_solver.
  - eapply control_ok_mono; [done|..|exact Hc]; [intros f _; by rewrite Hos|]. set_solver.
  - rewrite sum_list_with_app in *. simpl in Hb. lia.
  - rewrite sum_list_with_app in *. simpl in Hm. lia.
  - unfold vlen in *. rewrite length_app in *. simpl in Htot. lia.
  - destruct Hr as (outs & Hr1 & Hr2 & Hr3 & Hr4). exists outs. unfold parked in *.
    rewrite !Hbind by done. split_and!; try done. intros f. by rewrite Hos.
Qed.

Lemma reuse_inv r ts c ph e frame :
  inv (mkSystem r ts c ph e) → ph !! N.to_nat frame = Some Reclaimed →
  inv (mkSystem r ts c (<[N.to_nat frame := Guarded]> ph) e).
Proof.
  intros [Hl Hw Ht Hc Hb Hm Htot Htag Hr] Hph. simpl in *.
  assert (∀ f q, q ≠ Reclaimed → ph !! N.to_nat f = Some q → <[N.to_nat frame := Guarded]> ph !! N.to_nat f = Some q) as Hk.
  { intros f q Hq Hf. rewrite list_lookup_insert_ne; [done|]. intros Heq. rewrite Heq in Hph. congruence. }
  assert (∀ f, <[N.to_nat frame := Guarded]> ph !! N.to_nat f = Some OnHold ↔ ph !! N.to_nat f = Some OnHold) as Hoh.
  { intros f. split; [|by apply Hk]. destruct (decide (f = frame)) as [->|Hne].
    - by rewrite list_lookup_insert_eq by by eapply lookup_lt_Some.
    - by rewrite list_lookup_insert_ne by lia. }
  split; simpl; rewrite ?length_insert; try done.
  - intros f w Hf. destruct (Hw f w Hf) as (q & Hq & Hweq & Hrec & Hle). destruct (decide (f = frame)) as [->|Hne].
    + exists Guarded. rewrite list_lookup_insert_eq by by eapply lookup_lt_Some. by simplify_eq.
    + exists q. rewrite list_lookup_insert_ne by lia. done.
  - intros p Hp. destruct (Ht p Hp) as (H1 & H2). split; [|done]. intros f Hf. destruct (H1 f Hf). auto.
  - destruct c; simpl in *; try done; destruct Hc as [? ?]; (split; [by apply Hk|done]).
  - intros f t. rewrite Hoh. apply Htag.
  - destruct Hr as (outs & Hr1 & Hr2 & Hr3 & Hr4). exists outs. split_and!; try done. intros f. by rewrite Hoh.
Qed.

Lemma epoch_inv r ts c ph e e' :
  inv (mkSystem r ts c ph e) → e ≤ e' → inv (mkSystem r ts c ph e').
Proof.
  intros [Hl Hw Ht Hc Hb Hm Htot Htag Hr] He. split; simpl in *; try done.
  - destruct c; simpl in *; try done; try lia; unfold matured_tag in *; naive_solver lia.
  - intros f t H1 H2. eapply matured_tag_mono; [by eapply Htag|]. by destruct c.
Qed.

Lemma retiring_inv r ts c ph e l :
  inv (mkSystem r ts c ph e) → vlen l = vlen (retiring r) → inv (mkSystem (set_retiring r l) ts c ph e).
Proof.
  intros [Hl Hw Ht Hc Hb Hm Htot Htag Hr] Hlen. split; simpl in *; try done.
  intros p Hp. apply (thread_ok_mono r); [done..|by apply Ht].
Qed.

Lemma retention_step_inv s s' : inv s → roomy s → step s s' → inv s'.
Proof.
  intros Hinv Hroom Hstep. destruct Hstep.
  - by apply promote_inv.
  - destruct (thread_advances _ _ _ _ _ _ _ Hinv Hroom) as (r1 & p1 & Heq & ?). rewrite Heq in *. by simplify_eq.
  - by eapply leave_inv.
  - by apply mature_inv.
  - eapply control_quiet; [exact Hinv|..]; try done; [apply N.le_refl|apply (i_tags _ Hinv)].
  - destruct (control_progress _ _ _ _ _ Hinv Hroom) as (r1 & p1 & Heq & ?). rewrite Heq in *. by simplify_eq.
  - by apply reuse_inv.
  - by eapply epoch_inv.
  - unfold mark_file_retiring in *. inv_done. apply retiring_inv; [done|].
    simplify_eq. apply vlen_insert.
  - unfold clear_file_retiring in *. inv_done. apply retiring_inv; [done|].
    simplify_eq. apply vlen_insert.
Qed.

(** ** Reachable states *)

(** Push tickets only grow, and the ring keeps its size. *)
Lemma ring_tail_mono s s' :
  step s s' → tail (ring (ret s)) ≤ tail (ring (ret s')) ∧
    ring_capacity (ring (ret s')) = ring_capacity (ring (ret s)).
Proof.
  intros Hstep. destruct Hstep; simpl; try done.
  - destruct p; unfold thread_step, retry, released, compare_exchange, release_budget_unit, ring_ticket,
      ring_store in *; repeat (inv_done; repeat case_match); simplify_eq/=; try done; split; done || lia.
  - destruct c; unfold control_step, compare_exchange, release_budget_unit, ring_pop in *;
      repeat (inv_done; repeat case_match); simplify_eq/=; done.
  - unfold mark_file_retiring in *. by inv_done.
  - unfold clear_file_retiring in *. by inv_done.
Qed.

Lemma retention_initial_inv s : initial s → inv s.
Proof.
  intros (frames & budget & files & r & e & Hpre & Hle & ->).
  unfold preallocated, ring_preallocated in Hpre. inv_done. reflect_bools. simpl in *.
  set (cap := N.max (2 ^ N.log2_up budget) 2) in *.
  split; simpl; rewrite ?length_replicate; try done.
  - intros f w [-> Hf]%lookup_replicate. exists Guarded. split_and!; try done. by apply lookup_replicate.
  - set_solver.
  - unfold retained. simpl. rewrite countb_none; [done|]. intros i w [-> _]%lookup_replicate. done.
  - unfold retained. simpl. rewrite countb_none; [lia|]. intros i w [-> _]%lookup_replicate. done.
  - unfold RING_CAPACITY_MAX in *. change (N.shiftl 1 31) with 2147483648 in *.
    change U32_MAX with 4294967295. unfold vlen. simpl. lia.
  - intros f t [? _]%lookup_replicate. done.
  - exists []. split_and!; try done; [|by apply NoDup_nil|].
    + split; simpl; try done.
      * unfold cap. destruct (N.max_spec (2 ^ N.log2_up budget) 2) as [[_ ->]|[_ ->]]; [by exists 1|by eexists].
      * unfold vlen. rewrite length_fmap, length_seq. lia.
      * unfold cap. pose proof (N.log2_up_spec budget). destruct (decide (budget = 1)); [subst; lia|]. lia.
      * intros k Hk. rewrite N.add_0_l, N.mod_small by done. exists (mkReleaseSlot k 0).
        rewrite list_lookup_fmap, lookup_seq_lt by lia. simpl. split; [|done]. do 2 f_equal. lia.
    + intros f. split; [set_solver|]. intros [[? _]%lookup_replicate _]. done.
Qed.

Lemma retention_reachable_inv s0 s :
  initial s0 → rtc step s0 s → roomy s → inv s.
Proof.
  intros Hinit Hs. revert s Hs. apply (rtc_ind_r (λ s, roomy s → inv s)).
  - intros _. by apply retention_initial_inv.
  - intros s1 s2 _ Hstep IH Hroom. pose proof (ring_tail_mono _ _ Hstep) as [Ht Hc]. unfold roomy in *. eapply retention_step_inv; [apply IH| |exact Hstep]; unfold roomy; lia.
Qed.

(** ** Properties *)

(** C34 (no assertion fails): in every interleaving of promotions, releases, matured
    evictions and drains, before the 64-bit ticket counter runs out, the next atomic
    access of every thread and of the control side succeeds.  So a release always
    finds its ring slot free (the ring never overflows), handle counts and the budget
    never underflow, a guard never promotes a held frame, [matured_outcome] settles
    within its attempts, and a drained frame is held, without handles and matured. *)
Theorem retention_never_panics s0 s :
  initial s0 → rtc step s0 s → roomy s →
  (∀ p, p ∈ threads s → ∃ r' p', thread_step (ret s) p = Done (r', p')) ∧
  ∃ r' c', control_step (ret s) (control s) = Done (r', c').
Proof.
  intros Hinit Hs Hroom. pose proof (retention_reachable_inv _ _ Hinit Hs Hroom) as Hinv. destruct s as [r ts c ph e]. simpl. split.
  - intros p (ts1 & ts2 & ->)%list_elem_of_split.
    destruct (thread_advances _ _ _ _ _ _ _ Hinv Hroom) as (r' & p' & ? & _). eauto.
  - destruct (control_progress _ _ _ _ _ Hinv Hroom) as (r' & c' & ? & _). eauto.
Qed.

(** Retention budget: however threads interleave, the distinct frames with live
    handles never exceed [max_retained_frames]. *)
Theorem retained_frames_bounded s0 s frames :
  initial s0 → rtc step s0 s → roomy s →
  NoDup frames → (∀ f, f ∈ frames → Retained f ∈ threads s) →
  vlen frames ≤ max_retained_frames (ret s).
Proof.
  intros Hinit Hs Hroom Hnd Hfr. pose proof (retention_reachable_inv _ _ Hinit Hs Hroom) as Hinv.
  assert (length frames ≤ retained (ret s))%nat; [|pose proof (i_max _ Hinv); unfold vlen; lia].
  apply (countb_indices _ 0); [done..|]. intros f Hf%Hfr.
  assert (own f (Retained f) = 1%nat) as Hown by (simpl; by rewrite N.eqb_refl).
  destruct (i_threads _ Hinv _ Hf) as (_ & Hlt & _). specialize (Hlt f ltac:(by rewrite Hown)).
  destruct (vget_ok _ _ Hlt) as (w & _ & Hw). exists w. split; [done|].
  destruct (i_words _ Hinv f w Hw) as (ph & _ & -> & _). apply negb_true_iff, N.eqb_neq.
  rewrite word_zero. pose proof (owners_elem f _ _ Hf). lia.
Qed.

(** C35 (handles pin frames): a frame with a live handle is never in the reclaimed
    state, so its memory is not reused while the handle exists. *)
Theorem retained_never_reclaimed s0 s f :
  initial s0 → rtc step s0 s → roomy s → Retained f ∈ threads s →
  phases s !! N.to_nat f = Some Guarded ∨ phases s !! N.to_nat f = Some OnHold.
Proof.
  intros Hinit Hs Hroom Hf. pose proof (retention_reachable_inv _ _ Hinit Hs Hroom) as Hinv.
  assert (own f (Retained f) = 1%nat) as Hown by (simpl; by rewrite N.eqb_refl).
  destruct (i_threads _ Hinv _ Hf) as (_ & Hlt & _). specialize (Hlt f ltac:(by rewrite Hown)).
  destruct (vget_ok _ _ Hlt) as (w & _ & Hw). destruct (i_words _ Hinv f w Hw) as (ph & -> & _ & Hrec & _).
  pose proof (owners_elem f _ _ Hf). destruct ph; [by left|by right|]. specialize (Hrec eq_refl). lia.
Qed.

(** With no budget unit taken no frame is retained, so a matured frame is freed at the first
    load of [matured_outcome]: a pass that finds [occupied_budget] at zero and frees
    matured frames without asking does the same. *)
Lemma unretained_matures s0 s f tag :
  initial s0 → rtc step s0 s → roomy s → occupied_budget (ret s) = 0 → f < vlen (words (ret s)) →
  control_step (ret s) (MLoad f tag) = Done (ret s, MFreed f).
Proof.
  intros Hinit Hs Hroom Hz Hf. pose proof (i_budget _ (retention_reachable_inv _ _ Hinit Hs Hroom)) as Hb.
  destruct (vget_ok _ _ Hf) as (w & Hw & Hl). simpl. rewrite Hw. mred. assert (w = 0) as ->; [|done].
  destruct (decide (w = 0)) as [|Hne]; [done|exfalso].
  pose proof (countb_indices (λ w, negb (w =? 0)) 0 [f] (words (ret s)) eq_refl) as Hc. unfold retained in Hb. simpl in Hc.
  assert (1 ≤ countb (λ w : N, negb (w =? 0)%N) (words (ret s)))%nat; [|lia].
  apply Hc; [apply NoDup_singleton|]. intros g ->%list_elem_of_singleton. exists w. split; [done|]. by apply negb_true_iff, N.eqb_neq.
Qed.

(** ** A drain pass *)

(** A run of the system from a state inside a drain pass to the pass's end, with the
    frames the pass reclaims, in order. *)
Definition reclaimed_by (s s' : system) : list N :=
  match control s, control s' with DUnhold _ _ f _, DReclaim _ _ _ => [f] | _, _ => [] end.

Inductive drains : system → list N → system → Prop :=
  | drains_end s : control s = CIdle → drains s [] s
  | drains_step s s1 l s2 : control s ≠ CIdle → step s s1 → drains s1 l s2 → drains s (reclaimed_by s s1 ++ l) s2.

Lemma drains_rtc s l s' : drains s l s' → rtc step s s'.
Proof. induction 1; [done|]. by eapply rtc_l. Qed.

(** The ring slot [k] places after the cursor holds the stored frame [f]. *)
Definition stored (r : Retention) (k f : N) : Prop :=
  ring_slots (ring r) !! N.to_nat (slot_index (ring r) (release_cursor r + k)) = Some (mkReleaseSlot (release_cursor r + k + 1) f).

(** Frame [f] is among the next [n] frames the cursor reaches, with no open slot before. *)
Definition ahead (f : N) (n : nat) (r : Retention) : Prop :=
  ∃ k, k < N.of_nat n ∧ k < max_retained_frames r ∧ (∀ j, j < k → ∃ g, stored r j g) ∧ stored r k f.

Definition coming (f : N) (s : system) : Prop :=
  match control s with
  | DClear _ => ahead f (N.to_nat (max_retained_frames (ret s))) (ret s)
  | DPop _ n | DReclaim _ n _ | DUnit _ n => ahead f n (ret s)
  | DCheck _ n g | DUnhold _ n g _ => g = f ∨ ahead f n (ret s)
  | _ => False
  end.

(** The parts of the ring a drain looks at. *)
Definition same_ring (r r' : Retention) : Prop :=
  ring_slots (ring r') = ring_slots (ring r) ∧ mask (ring r') = mask (ring r) ∧ release_cursor r' = release_cursor r ∧
  max_retained_frames r' = max_retained_frames r.

Lemma stored_same r r' k f : same_ring r r' → stored r k f → stored r' k f.
Proof. unfold same_ring, stored, slot_index. by intros (-> & -> & -> & _). Qed.

Lemma ahead_mono f n r r' :
  max_retained_frames r' = max_retained_frames r →
  (∀ k g, k < max_retained_frames r → stored r k g → stored r' k g) → ahead f n r → ahead f n r'.
Proof.
  intros Hm Hst (k & Hk & Hkm & Hj & Hf). exists k. rewrite Hm. split_and!; [done..| |by apply Hst]. intros j Hlt.
  destruct (Hj j Hlt) as [g Hg]. exists g. apply Hst; [lia|done].
Qed.

Lemma ahead_same f n r r' : same_ring r r' → ahead f n r → ahead f n r'.
Proof. intros Hs. apply ahead_mono; [apply Hs|]. intros k g _. by apply stored_same. Qed.

(** A thread stores only into slots that are open. *)
Lemma thread_stored r ts1 p ts2 c ph e r' p' k f :
  inv (mkSystem r (ts1 ++ p :: ts2) c ph e) → thread_step r p = Done (r', p') → k < max_retained_frames r → stored r k f →
  stored r' k f ∧ max_retained_frames r' = max_retained_frames r.
Proof.
  intros Hinv Hst Hk Hf. destruct (i_ring _ Hinv) as (outs & Hr1 & Hr2 & Hnd & Hpk). simpl in *.
  destruct p.
  all: try (assert (same_ring r r') as Hsame by (unfold thread_step, retry, released, compare_exchange, release_budget_unit, ring_ticket in Hst;
    repeat (inv_done; repeat case_match); simplify_eq/=; done); split; [by eapply stored_same|apply Hsame]).
  unfold thread_step, ring_store in Hst. inv_done. split; [|done]. unfold stored in *. simpl. unfold slot_index in *. simpl.
  match goal with H : (sequence ?x =? ticket) = true |- _ => rename x into sl; apply N.eqb_eq in H as Hseq end.
  destruct (decide (N.land ticket (mask (ring r)) = N.land (release_cursor r + k) (mask (ring r)))) as [Heq|Hne].
  - exfalso. rewrite <- Heq in Hf. simplify_eq/=.
    assert (release_cursor r + k + 1 ∈ open_tickets (release_cursor r) outs) as (j & Hjk & Hj)%open_tickets_elem.
    { rewrite <- Hr2, bind_app, elem_of_app. right. rewrite bind_cons. simpl. by left. }
    pose proof (ro_budget _ _ _ _ Hr1) as Hb. pose proof (outs_room _ outs Hinv Hr2 Hnd Hpk) as Hroom. simpl in Hroom.
    apply lookup_lt_Some in Hj as Hjl. unfold vlen in Hroom.
    pose proof (ring_index _ _ _ _ Hr1) as Hix. unfold slot_index in Hix. rewrite !Hix, <- N.add_assoc in Heq.
    apply mod_window in Heq; lia.
  - rewrite list_lookup_insert_ne; [done|]. intros ?%N2Nat.inj. by apply Hne.
Qed.

(** Taking the frame at the cursor brings the others one place nearer. *)
Lemma pop_ahead r ts ph e d n f r' c' :
  inv (mkSystem r ts (DPop d n) ph e) → control_step r (DPop d n) = Done (r', c') → ahead f n r →
  ∃ m g, c' = DCheck d m g ∧ (g = f ∨ ahead f m r').
Proof.
  intros Hinv Hst (k & Hk & Hkm & Hj & Hf). destruct n as [|n]; [lia|]. destruct (i_ring _ Hinv) as (outs & Hr1 & _). simpl in *.
  assert (∃ g, stored r 0 g ∧ (k = 0 → g = f)) as (g & Hg & Hgf).
  { destruct (decide (k = 0)) as [->|Hne]; [by exists f|]. destruct (Hj 0) as [g Hg]; [lia|]. by exists g. }
  pose proof Hg as Hg0. unfold stored in Hg0. rewrite N.add_0_r in Hg0. unfold ring_pop in Hst. inv_done.
  simpl sequence in *. rewrite N.eqb_refl in *. simpl in *. inv_pairs. simplify_eq/=.
  exists n, g. split; [done|]. destruct (decide (k = 0)) as [->|Hne]; [left; auto|right].
  assert (∀ j x, 0 < j → j < max_retained_frames r → stored r j x → stored
    (set_ring r (mkReleaseRing (<[N.to_nat (slot_index (ring r) (release_cursor r)) := mkReleaseSlot (release_cursor r + ring_capacity (ring r)) g]>
      (ring_slots (ring r))) (tail (ring r)) (ring_capacity (ring r)) (mask (ring r))) (release_cursor r + 1)) (j - 1) x) as Hnext.
  { intros j x Hj0 Hjm Hx. unfold stored in *. simpl. unfold slot_index in *. simpl. replace (release_cursor r + 1 + (j - 1)) with (release_cursor r + j) by lia.
    rewrite list_lookup_insert_ne; [done|]. intros Heq%N2Nat.inj. pose proof (ring_index _ _ _ _ Hr1) as Hix. unfold slot_index in Hix. rewrite !Hix in Heq.
    pose proof (ro_budget _ _ _ _ Hr1). rewrite <- (N.add_0_r (release_cursor r)) in Heq at 1. apply mod_window in Heq; lia. }
  exists (k - 1). split_and!; [lia|simpl; lia| |apply Hnext; [lia..|done]]. intros j Hlt. destruct (Hj (j + 1)) as [x Hx]; [lia|].
  exists x. replace j with (j + 1 - 1) by lia. apply Hnext; [lia..|done].
Qed.

Lemma control_coming r ts c ph e r' c' f :
  inv (mkSystem r ts c ph e) → control_step r c = Done (r', c') → coming f (mkSystem r ts c ph e) →
  f ∈ reclaimed_by (mkSystem r ts c ph e) (mkSystem r' ts c' (phase_after c' ph) e) ∨ coming f (mkSystem r' ts c' (phase_after c' ph) e).
Proof.
  intros Hinv Hst Hc. destruct c; try done; unfold coming in *; simpl in Hc.
  - simpl in Hst. injection Hst as <- <-. right. simpl. by apply (ahead_same f _ r).
  - destruct (pop_ahead r ts ph e _ _ f r' c' Hinv Hst Hc) as (m & g & -> & Hg). by right.
  - simpl in Hst. inv_done. right. simpl. done.
  - simpl in Hst. unfold compare_exchange in Hst. inv_pairs. case_match; inv_pairs; simplify_eq/=.
    destruct Hc as [->|Hc]; [left; unfold reclaimed_by; simpl; by left|right]. by apply (ahead_same f _ r).
  - simpl in Hst. injection Hst as <- <-. right. done.
  - simpl in Hst. unfold release_budget_unit in Hst. inv_done. right. simpl. by apply (ahead_same f _ r).
Qed.

Lemma ring_coming f r r' ts ts' c ph ph' e e' :
  max_retained_frames r' = max_retained_frames r → (∀ k g, k < max_retained_frames r → stored r k g → stored r' k g) →
  coming f (mkSystem r ts c ph e) → coming f (mkSystem r' ts' c ph' e').
Proof.
  intros Hm Hst. unfold coming. simpl. rewrite Hm. destruct c; try done; try (by apply ahead_mono); (intros [->|Ha]; [by left|right; revert Ha; by apply ahead_mono]).
Qed.

Lemma step_coming s s' f : inv s → control s ≠ CIdle → step s s' → coming f s → f ∈ reclaimed_by s s' ∨ coming f s'.
Proof.
  intros Hinv Hc Hstep Hf. destruct Hstep; try done.
  all: try (right; revert Hf; apply ring_coming; done).
  - right. revert Hf. assert (max_retained_frames r' = max_retained_frames r) as Hm.
    { destruct p; unfold thread_step, retry, released, compare_exchange, release_budget_unit, ring_ticket, ring_store in *;
        repeat (inv_done; repeat case_match); simplify_eq/=; done. }
    apply ring_coming; [done|]. intros k g Hk Hg. by eapply (thread_stored r ts1 p ts2).
  - by apply control_coming.
  - right. unfold mark_file_retiring in *. inv_done. revert Hf. by apply ring_coming.
  - right. unfold clear_file_retiring in *. inv_done. revert Hf. by apply ring_coming.
Qed.

Lemma run_roomy s s' : rtc step s s' → roomy s' → roomy s.
Proof.
  induction 1 as [|s1 s2 s3 Hst _ IH]; [done|]. intros Hr. specialize (IH Hr). pose proof (ring_tail_mono _ _ Hst) as [Ht Hc]. unfold roomy in *. lia.
Qed.

(** However the pass is interleaved with the threads, it reaches what lies ahead. *)
Lemma drains_coming s l s' f : drains s l s' → inv s → roomy s' → coming f s → f ∈ l.
Proof.
  induction 1 as [s Hc|s s1 l s2 Hc Hst Hd IH]; intros Hinv Hroom Hf.
  - unfold coming in Hf. by rewrite Hc in Hf.
  - assert (roomy s) as Hr by (eapply run_roomy; [|exact Hroom]; eapply rtc_l; [exact Hst|by eapply drains_rtc]).
    apply elem_of_app. destruct (step_coming s s1 f Hinv Hc Hst Hf) as [|Hf1]; [by left|right].
    apply IH; [|done..]. by eapply retention_step_inv.
Qed.

(** The steps of its own that the control side has left in a drain pass. *)
Definition drain_left (r : Retention) (c : cpc) : nat :=
  match c with
  | DClear _ => 5 * N.to_nat (max_retained_frames r) + 2
  | DPop _ n => 5 * n + 1
  | DCheck _ n _ => 5 * n + 5
  | DUnhold _ n _ _ => 5 * n + 4
  | DReclaim _ n _ => 5 * n + 3
  | DUnit _ n => 5 * n + 2
  | _ => 0
  end.

Lemma drain_descends r c r' c' :
  control_step r c = Done (r', c') → drain_left r c ≠ 0%nat →
  (drain_left r' c' < drain_left r c)%nat ∧ (c' = CIdle ∨ drain_left r' c' ≠ 0%nat) ∧ tail (ring r') = tail (ring r) ∧ ring_capacity (ring r') = ring_capacity (ring r).
Proof.
  intros H Hn. destruct c; try done; unfold control_step, compare_exchange, release_budget_unit, ring_pop in H;
    repeat (inv_pairs; repeat case_match); simplify_eq/=; split_and!; try done; (lia || (by left) || (right; lia)).
Qed.

(** A pass left to itself ends. *)
Lemma drain_ends n s :
  inv s → roomy s → drain_left (ret s) (control s) ≠ 0%nat → (drain_left (ret s) (control s) ≤ n)%nat →
  ∃ l s', drains s l s' ∧ roomy s'.
Proof.
  revert s. induction n as [|n IH]; intros [r ts c ph e] Hinv Hroom Hz Hn; simpl in *; [lia|].
  destruct (control_progress _ _ _ _ _ Hinv Hroom) as (r' & c' & Hst & Hinv').
  destruct (drain_descends r c r' c' Hst Hz) as (Hlt & Hend & Ht & Hcap).
  assert (step (mkSystem r ts c ph e) (mkSystem r' ts c' (phase_after c' ph) e)) as Hstep by by apply step_control.
  assert (roomy (mkSystem r' ts c' (phase_after c' ph) e)) as Hroom' by (unfold roomy in *; simpl in *; lia).
  assert (c ≠ CIdle) as Hc by (by intros ->). destruct Hend as [->|Hne].
  - eexists _, _. split; [|exact Hroom']. eapply drains_step; [done|exact Hstep|by apply drains_end].
  - destruct (IH _ Hinv' Hroom') as (l & s' & Hd & Hr); [done|simpl; lia|]. exists (reclaimed_by (mkSystem r ts c ph e) (mkSystem r' ts c' (phase_after c' ph) e) ++ l), s'.
    split; [|done]. by eapply drains_step.
Qed.

(** With no thread inside [release], a held frame without handles lies ahead of the cursor. *)
Lemma held_ahead s f :
  inv s → control s = CIdle → (∀ p, p ∈ threads s → ∃ g, p = Retained g) → Retained f ∉ threads s →
  phases s !! N.to_nat f = Some OnHold → ahead f (N.to_nat (max_retained_frames (ret s))) (ret s).
Proof.
  intros Hinv Hidle Hquiet Hno Hph.
  assert (owners f (threads s) = 0%nat) as Ho.
  { unfold owners. clear -Hquiet Hno. induction (threads s) as [|p ts IH]; [done|]. simpl.
    rewrite IH by set_solver. destruct (Hquiet p) as [g ->]; [set_solver|]. simpl.
    destruct (N.eqb_spec g f) as [->|]; set_solver. }
  assert (∀ (A : Type) (k : pc → list A), (∀ g, k (Retained g) = []) → threads s ≫= k = []) as Hbind.
  { intros A k Hk. clear -Hquiet Hk. induction (threads s) as [|p ts IH]; [done|].
    rewrite bind_cons, IH by set_solver. destruct (Hquiet p) as [g ->]; [set_solver|]. by rewrite Hk. }
  destruct (i_ring _ Hinv) as (outs & Hr1 & Hr2 & Hnd & Hr4). pose proof (outs_room s outs Hinv Hr2 Hnd Hr4) as Hroom.
  assert (f ∈ parked (threads s) (control s) outs) as Hin by by apply Hr4.
  unfold parked in Hin. rewrite Hidle in Hin. rewrite !Hbind in * by done. simpl in Hin. rewrite app_nil_r in Hin.
  apply list_elem_of_omap in Hin as (o & Hin & Heq). simpl in Heq. subst o. apply list_elem_of_lookup in Hin as [k Hk].
  assert (∀ j g, outs !! N.to_nat j = Some (Some g) → stored (ret s) j g) as Hst.
  { intros j g Hj. pose proof (lookup_lt_Some _ _ _ Hj) as Hl. pose proof (ro_budget _ _ _ _ Hr1). unfold vlen in Hroom.
    destruct (ro_slots _ _ _ _ Hr1 j) as (sl & Hsl & Hok); [lia|]. rewrite Hj in Hok. simpl in Hok. subst sl.
    unfold stored. by rewrite (ring_index _ _ _ _ Hr1). }
  pose proof (lookup_lt_Some _ _ _ Hk) as Hkl. unfold vlen in Hroom. exists (N.of_nat k). split_and!; [lia..| |apply Hst; by rewrite Nat2N.id].
  intros j Hj. destruct (outs !! N.to_nat j) as [[g|]|] eqn:Hoj.
  - exists g. by apply Hst.
  - exfalso. assert (release_cursor (ret s) + j ∈ open_tickets (release_cursor (ret s)) outs) as Hopen.
    { apply open_tickets_elem. exists (N.to_nat j). split; [lia|done]. }
    rewrite <- Hr2 in Hopen. by apply elem_of_nil in Hopen.
  - apply lookup_ge_None in Hoj. lia.
Qed.

(** C36 (no held frame is lost): let no thread be inside [release] and the control side be
    idle, and let [f] be a held frame whose handles are all gone.  Then
    [release_drain_needed] answers [true]; the drain pass that starts now ends when it is
    left to itself; and however promotions, releases and other calls interleave with
    it, by its end the pass has popped and reclaimed [f]. *)
Theorem held_frames_are_drained s0 s f :
  initial s0 → rtc step s0 s → roomy s →
  control s = CIdle → (∀ p, p ∈ threads s → ∃ g, p = Retained g) → Retained f ∉ threads s →
  phases s !! N.to_nat f = Some OnHold →
  release_drain_needed (ret s) = Done true ∧
  let started := mkSystem (ret s) (threads s) (DClear (now s)) (phases s) (now s) in
  step s started ∧ (∃ l s', drains started l s' ∧ roomy s') ∧ ∀ l s', drains started l s' → roomy s' → f ∈ l.
Proof.
  intros Hinit Hs Hroom Hidle Hquiet Hno Hph. pose proof (retention_reachable_inv _ _ Hinit Hs Hroom) as Hinv.
  pose proof (held_ahead s f Hinv Hidle Hquiet Hno Hph) as Ha. split.
  - destruct Ha as (k & _ & _ & Hj & Hf). assert (∃ g, stored (ret s) 0 g) as [g Hg].
    { destruct (decide (k = 0)) as [->|]; [by exists f|]. apply Hj. lia. }
    unfold stored in Hg. rewrite N.add_0_r in Hg. unfold release_drain_needed, is_ready.
    destruct (i_ring _ Hinv) as (outs & Hr1 & _). pose proof (ro_outs _ _ _ _ Hr1). unfold roomy in Hroom.
    rewrite assertb_true by (apply negb_true_iff, N.eqb_neq; lia). mred.
    rewrite (proj2 (vget_Done _ _ _) Hg). mred. simpl. by rewrite N.eqb_refl.
  - intros started. assert (step s started) as Hst by (destruct s; simpl in Hidle; subst; apply step_drain).
    pose proof (retention_step_inv _ _ Hinv Hroom Hst) as Hinv'. split_and!; [done| |].
    + apply (drain_ends (drain_left (ret s) (DClear (now s))) started); simpl; try done. lia.
    + intros l s' Hd Hr. by apply (drains_coming started l s').
Qed.

(** ** Runs *)

(** Schedules, to build concrete runs. *)
Inductive action :=
  | APromote (frame file_slot : N) (attempts : nat)
  | AThread (i : nat)
  | ALeave (i : nat)
  | AMature (frame tag : N)
  | ADrain
  | AControl.

Definition is_guarded (ph : list phase) (frame : N) : bool :=
  match ph !! N.to_nat frame with Some Guarded => true | _ => false end.

Definition act (a : action) (s : system) : option system :=
  let '(mkSystem r ts c ph e) := s in
  match a with
  | APromote frame slot n =>
      match c with
      | CIdle =>
          if is_guarded ph frame && (slot <? vlen (retiring r)) &&
             (max_retained_frames r + vlen ts + 2 <? U32_MAX)
          then Some (mkSystem r (PLoad frame slot n :: ts) c ph e) else None
      | _ => None
      end
  | AThread i =>
      match ts !! i with
      | Some p =>
          match thread_step r p with
          | Done (r', p') => Some (mkSystem r' (take i ts ++ p' :: drop (S i) ts) c ph e)
          | Panic => None
          end
      | None => None
      end
  | ALeave i =>
      match ts !! i with
      | Some Released => Some (mkSystem r (take i ts ++ drop (S i) ts) c ph e)
      | _ => None
      end
  | AMature frame tag =>
      match c with
      | CIdle =>
          if is_guarded ph frame && forallb (λ p, match p with Retained _ => true | _ => false end) ts &&
             (saturating_add U64_MAX tag 2 <=? e)
          then Some (mkSystem r ts (MLoad frame tag) ph e) else None
      | _ => None
      end
  | ADrain => match c with CIdle => Some (mkSystem r ts (DClear e) ph e) | _ => None end
  | AControl =>
      match control_step r c with
      | Done (r', c') => Some (mkSystem r' ts c' (phase_after c' ph) e)
      | Panic => None
      end
  end.

Fixpoint acts (l : list action) (s : system) : option system :=
  match l with [] => Some s | a :: l => match act a s with Some s => acts l s | None => None end end.

Lemma is_guarded_true ph frame : is_guarded ph frame = true → ph !! N.to_nat frame = Some Guarded.
Proof. unfold is_guarded. by repeat case_match. Qed.

Lemma act_step a s s' : act a s = Some s' → step s s'.
Proof.
  destruct s as [r ts c ph e]. destruct a; simpl; intros H.
  - destruct c; try done. destruct (_ && _) eqn:Hb; [|done]. injection H as <-.
    apply andb_true_iff in Hb as [[Hb1 Hb2]%andb_true_iff Hb3]. reflect_bools.
    apply step_promote; [by apply is_guarded_true|by intros []|done..].
  - destruct (ts !! i) as [p|] eqn:Hp; [|done]. destruct (thread_step r p) as [[r' p']|] eqn:Ht; [|done].
    injection H as <-. rewrite <- (take_drop_middle ts i p Hp) at 1. by apply step_thread.
  - destruct (ts !! i) as [p|] eqn:Hp; [|done]. destruct p; try done. injection H as <-.
    rewrite <- (take_drop_middle ts i _ Hp) at 1. apply step_leave. by right.
  - destruct c; try done. destruct (_ && _) eqn:Hb; [|done]. injection H as <-.
    apply andb_true_iff in Hb as [[Hb1 Hb2]%andb_true_iff Hb3]. reflect_bools.
    apply step_mature; [by apply is_guarded_true| |done].
    intros p Hp. rewrite forallb_forall in Hb2. specialize (Hb2 p ltac:(by apply list_elem_of_In)). destruct p; simpl; done || tauto.
  - destruct c; try done. injection H as <-. apply step_drain.
  - destruct (control_step r c) as [[r' c']|] eqn:Ht; [|done]. injection H as <-. by apply step_control.
Qed.

Lemma acts_rtc l s s' : acts l s = Some s' → rtc step s s'.
Proof.
  revert s. induction l as [|a l IH]; simpl; intros s H; [by simplify_eq|].
  destruct (act a s) as [s1|] eqn:Ha; [|done]. eapply rtc_l; [by eapply act_step|by apply IH].
Qed.

(** Two frames, one of which may be retained. *)
Definition start : system :=
  match preallocated 2 1 1 with
  | Done r => mkSystem r [] CIdle [Guarded; Guarded] 5
  | Panic => mkSystem (mkRetention [] [] [] 0 (mkCounters 0 0 0 0 0) (mkReleaseRing [] 0 0 0) false 0 0) [] CIdle [] 0
  end.

Lemma start_initial : initial start.
Proof. eexists 2, 1, 1, _, 5. split; [reflexivity|]. split; [lia|reflexivity]. Qed.

(** A handle is taken, the frame's eviction matures under it, the handle goes. *)
Definition take_handle : list action := [APromote 0 0 3; AThread 0; AThread 0; AThread 0; AThread 0].
Definition mature_under : list action := [AMature 0 1; AControl; AControl; AControl; AControl].
Definition drop_handle : list action := [AThread 0; AThread 0; AThread 0; AThread 0; AThread 0; ALeave 0].

Definition held_state : system := default start (acts (take_handle ++ mature_under) start).
Definition dropped_state : system := default start (acts (take_handle ++ mature_under ++ drop_handle) start).
Definition draining_state : system :=
  default start (acts (take_handle ++ mature_under ++ drop_handle ++ [ADrain; AControl; AControl]) start).
End Retention.

Module RetentionWitness.
Import Retention.

Lemma retention_never_panics_witness :
  control draining_state = DCheck 5 0 0 ∧
  ∃ r' c', control_step (ret draining_state) (control draining_state) = Done (r', c').
Proof.
  split; [vm_compute; reflexivity|].
  refine (proj2 (retention_never_panics start draining_state start_initial _ _)).
  - apply (acts_rtc (take_handle ++ mature_under ++ drop_handle ++ [ADrain; AControl; AControl])).
    vm_compute. reflexivity.
  - vm_compute. reflexivity.
Defined.

Lemma retained_frames_bounded_witness :
  threads held_state = [Retained 0] ∧ vlen [0] ≤ max_retained_frames (ret held_state).
Proof.
  split; [vm_compute; reflexivity|].
  apply (retained_frames_bounded start held_state [0] start_initial).
  - apply (acts_rtc (take_handle ++ mature_under)). vm_compute. reflexivity.
  - vm_compute. reflexivity.
  - apply NoDup_singleton.
  - intros f ->%list_elem_of_singleton. change (threads held_state) with [Retained 0]. apply elem_of_cons. by left.
Defined.

Lemma retained_never_reclaimed_witness :
  phases held_state !! N.to_nat 0 = Some Guarded ∨ phases held_state !! N.to_nat 0 = Some OnHold.
Proof.
  apply (retained_never_reclaimed start held_state 0 start_initial).
  - apply (acts_rtc (take_handle ++ mature_under)). vm_compute. reflexivity.
  - vm_compute. reflexivity.
  - change (threads held_state) with [Retained 0]. apply elem_of_cons. by left.
Defined.

Lemma held_frames_are_drained_witness :
  release_drain_needed (ret dropped_state) = Done true ∧
  ∃ l s', drains (mkSystem (ret dropped_state) (threads dropped_state) (DClear 5) (phases dropped_state) 5) l s' ∧ 0 ∈ l.
Proof.
  destruct (held_frames_are_drained start dropped_state 0 start_initial) as (H1 & _ & (l & s' & Hd & Hr) & H2).
  - apply (acts_rtc (take_handle ++ mature_under ++ drop_handle)). vm_compute. reflexivity.
  - vm_compute. reflexivity.
  - vm_compute. reflexivity.
  - change (threads dropped_state) with (@nil pc). intros p []%elem_of_nil.
  - change (threads dropped_state) with (@nil pc). apply not_elem_of_nil.
  - vm_compute. reflexivity.
  - split; [exact H1|]. exists l, s'. split; [exact Hd|]. exact (H2 l s' Hd Hr).
Defined.
End RetentionWitness.
