(* ===== verification/Pattern.v ===== *)
(** * Sequential access patterns

    Models src/src/pool/prefetch/pattern.rs: a reader's demand accesses are followed
    until three consecutive granules of a file have been touched; from then on the
    reader streams, with a window of predictions ahead of its demand that doubles
    with every prediction consumed.  An incarnation number ties the predictions in
    flight to the stream that made them. *)
From stdpp Require Import prelude list relations.
From Stdlib Require Import NArith Lia.
From S2P Require Import Prelude Ids.

Open Scope N_scope.

Module Pattern.

(** Who asked for a speculative page (src/src/pool/prefetch.rs). *)
Inductive Source :=
  | Explicit
  | Automatic (reader incarnation : N).

Inductive PatternState :=
  | Empty
  | Following (last : PageId) (run : N)
  | Streaming (demand : PageId) (next width : N).

Record Pattern := mkPattern {
  state : PatternState;
  incarnation : N;
}.

Definition new : Pattern := mkPattern Empty 0.

Definition reset (p : Pattern) : outcome Pattern :=
  inc ← expect (checked_add U64_MAX (incarnation p) 1);
  Done (mkPattern Empty inc).

Definition set_state (p : Pattern) (s : PatternState) : Pattern := mkPattern s (incarnation p).

Definition observe_sequential (p : Pattern) (page : PageId) (capacity : N) : outcome Pattern :=
  match checked_add U32_MAX (pg_granule_idx page) 1 with
  | None => reset p
  | Some next =>
      match state p with
      | Following _ run =>
          if run <? 2 then Done (set_state p (Following page (run + 1)))
          else Done (set_state p (Streaming page next (N.min capacity 4)))
      | Streaming _ issued width => Done (set_state p (Streaming page (N.max issued next) width))
      | Empty => Panic
      end
  end.

Definition last_page (p : Pattern) : option PageId :=
  match state p with
  | Empty => None
  | Following last _ => Some last
  | Streaming demand _ _ => Some demand
  end.

(** [page] directly follows [last] in the same file. *)
Definition follows (last page : PageId) : bool :=
  bool_decide (pg_file last = pg_file page) &&
  bool_decide (checked_add U32_MAX (pg_granule_idx last) 1 = Some (pg_granule_idx page)).

Definition observe (p : Pattern) (page : PageId) (capacity : N) : outcome Pattern :=
  assertb (0 <? capacity);;
  let last := last_page p in
  if bool_decide (last = Some page) then Done p
  else if (match last with Some last => follows last page | None => false end)
  then observe_sequential p page capacity
  else p ← reset p; Done (set_state p (Following page 1)).

Definition request (p : Pattern) (reader : N) : option (PageId * Source) :=
  match state p with
  | Streaming demand next width =>
      if saturating_add U32_MAX (pg_granule_idx demand) width <? next then None
      else Some (mkPageId (pg_file demand) next, Automatic reader (incarnation p))
  | _ => None
  end.

Definition window (p : Pattern) (reader vector_width : N) : outcome (option (PageId * Source * N)) :=
  match request p reader with
  | None => Done None
  | Some (page, source) =>
      match state p with
      | Streaming demand next width =>
          let count := N.min width vector_width in
          e ← sub_ (saturating_add U32_MAX (pg_granule_idx demand) width) next;
          eligible ← add_ U32_MAX e 1;
          Done (if eligible <? count then None else Some (page, source, count))
      | _ => Panic
      end
  end.

Definition issued (p : Pattern) (page : PageId) : outcome Pattern :=
  match state p with
  | Streaming demand next width =>
      assertb (bool_decide (page = mkPageId (pg_file demand) next));;
      match checked_add U32_MAX next 1 with
      | Some next => Done (set_state p (Streaming demand next width))
      | None => reset p
      end
  | _ => Panic
  end.

Definition promoted (p : Pattern) (page : PageId) (inc capacity : N) : outcome Pattern :=
  if negb (incarnation p =? inc) then Done p
  else
    match state p with
    | Streaming demand next width =>
        assertb (bool_decide (pg_file demand = pg_file page));;
        if pg_granule_idx page <=? pg_granule_idx demand then Done p
        else if bool_decide (checked_add U32_MAX (pg_granule_idx demand) 1 = Some (pg_granule_idx page))
        then Done (set_state p (Streaming page next (N.min (saturating_mul U32_MAX width 2) capacity)))
        else observe p page capacity
    | _ => Done p
    end.

Definition owns (p : Pattern) (inc : N) : bool := incarnation p =? inc.

(** ** A reader's stream

    The calls the prefetcher makes on one pattern: accesses, predictions issued
    as requested, consumed predictions reported, resets.  The trace holds the issued
    predictions with their incarnation. *)

Record stream := mkStream {
  pattern : Pattern;
  trace : list (PageId * N);
}.

Section stream.
Context (capacity : N).

Inductive stream_step : stream → stream → Prop :=
  | stream_observe p tr page p' :
      pg_granule_idx page ≤ U32_MAX → observe p page capacity = Done p' →
      stream_step (mkStream p tr) (mkStream p' tr)
  | stream_issue p tr reader page source p' :
      request p reader = Some (page, source) → issued p page = Done p' →
      stream_step (mkStream p tr) (mkStream p' ((page, incarnation p) :: tr))
  | stream_promote p tr page inc p' :
      (page, inc) ∈ tr → promoted p page inc capacity = Done p' →
      stream_step (mkStream p tr) (mkStream p' tr)
  | stream_reset p tr p' : reset p = Done p' → stream_step (mkStream p tr) (mkStream p' tr).

(** The predictions of the current incarnation lie in the stream's file, below
    its next prediction. *)
Record stream_inv (s : stream) : Prop := {
  si_past : ∀ page inc, (page, inc) ∈ trace s → inc ≤ incarnation (pattern s);
  si_nodup : NoDup (trace s);
  si_state : match state (pattern s) with
    | Empty => True
    | Following last run => (1 ≤ run ≤ 2) ∧ pg_granule_idx last ≤ U32_MAX
    | Streaming demand next width =>
        pg_granule_idx demand < next ≤ U32_MAX ∧ (1 ≤ width ≤ capacity)
    end;
  si_current : ∀ page, (page, incarnation (pattern s)) ∈ trace s →
    match state (pattern s) with
    | Streaming demand next _ => pg_file page = pg_file demand ∧ pg_granule_idx page < next
    | _ => False
    end;
}.

Lemma reset_inv p tr p' : stream_inv (mkStream p tr) → reset p = Done p' →
  stream_inv (mkStream p' tr) ∧ state p' = Empty ∧ incarnation p < incarnation p' ∧
  ∀ page, (page, incarnation p') ∉ tr.
Proof.
  intros [H1 H2 H3 H4] Hr. unfold reset in Hr. inv_done.
  match goal with H : checked_add _ _ _ = Some _ |- _ => apply checked_add_Some in H as [-> ?] end. simpl in *.
  assert (∀ page, (page, incarnation p + 1) ∉ tr) as Hno by (intros page Hin; specialize (H1 _ _ Hin); lia).
  split_and!; try done; [|lia]. split; simpl; try done.
  intros page inc Hin. specialize (H1 _ _ Hin). lia.
Qed.

Lemma observe_inv p tr page p' :
  stream_inv (mkStream p tr) → pg_granule_idx page ≤ U32_MAX → observe p page capacity = Done p' →
  stream_inv (mkStream p' tr).
Proof.
  intros Hinv Hpage Ho. unfold observe in Ho. destruct (0 <? capacity) eqn:Hcap; [|done]. mred in Ho.
  reflect_bools. case_bool_decide; [by inv_done|].
  destruct (last_page p) as [last|] eqn:Hlast; [|].
  - destruct (follows last page) eqn:Hf.
    + unfold observe_sequential in Ho. unfold follows in Hf. destruct Hinv as [H1 H2 H3 H4].
      destruct (checked_add U32_MAX (pg_granule_idx page) 1) as [nx|] eqn:Hnx; [|by eapply reset_inv].
      apply andb_true_iff in Hf as [Hf1 Hf2]. reflect_bools. apply checked_add_Some in Hnx as [-> ?].
      apply checked_add_Some in Hf2 as [Hg ?]. unfold last_page in Hlast. simpl in *.
      destruct (state p) as [|l run|demand next width] eqn:Hs; simplify_eq.
      * destruct (run <? 2) eqn:Hr; reflect_bools; simplify_eq; split; simpl; try done; try lia;
          intros pg Hin; by apply H4 in Hin.
      * simplify_eq. split; simpl; try done; [lia|]. intros pg [Hfile Hlt]%H4. split; [congruence|lia].
    + inv_done. destruct (reset_inv _ _ _ Hinv ltac:(eassumption)) as ([H1 H2 H3 H4] & Hs & Hlt & Hno).
      simpl in *. by split.
  - inv_done. destruct (reset_inv _ _ _ Hinv ltac:(eassumption)) as ([H1 H2 H3 H4] & Hs & Hlt & Hno).
    simpl in *. by split.
Qed.

Lemma issue_inv p tr reader page source p' :
  stream_inv (mkStream p tr) → request p reader = Some (page, source) → issued p page = Done p' →
  stream_inv (mkStream p' ((page, incarnation p) :: tr)).
Proof.
  intros Hinv Hreq Hi. pose proof Hinv as [H1 H2 H3 H4]. unfold request in Hreq. unfold issued in Hi. simpl in *.
  destruct (state p) as [| |demand next width] eqn:Hs; try done.
  destruct (saturating_add U32_MAX (pg_granule_idx demand) width <? next) eqn:Hle; [done|]. simplify_eq. reflect_bools.
  rewrite bool_decide_eq_true_2 in Hi by done. mred in Hi.
  assert ((mkPageId (pg_file demand) next, incarnation p) ∉ tr) as Hnew by (intros [_ ?]%H4; simpl in *; lia).
  assert (NoDup ((mkPageId (pg_file demand) next, incarnation p) :: tr)) as Hnd by by apply NoDup_cons.
  destruct (checked_add U32_MAX next 1) as [nx|] eqn:Hnx.
  - apply checked_add_Some in Hnx as [-> ?]. simplify_eq. split; simpl; try done.
    + intros pg inc [[= -> ->]|Hin]%elem_of_cons; [lia|by apply (H1 pg)].
    + lia.
    + intros pg [[= ->]|[? ?]%H4]%elem_of_cons; simpl; [split; [done|lia]|split; [done|lia]].
  - destruct (reset_inv _ _ _ Hinv Hi) as ([I1 I2 I3 I4] & Hs' & Hlt & Hno). simpl in *.
    split; simpl; try done.
    + intros pg inc [[= -> ->]|Hin]%elem_of_cons; [lia|by apply (I1 pg)].
    + intros pg [[= _ Heq]|Hin]%elem_of_cons; [lia|by apply I4].
Qed.

Lemma pattern_promote_inv p tr page inc p' :
  stream_inv (mkStream p tr) → (page, inc) ∈ tr → promoted p page inc capacity = Done p' →
  stream_inv (mkStream p' tr).
Proof.
  intros Hinv Hin Hp. pose proof Hinv as [H1 H2 H3 H4]. unfold promoted in Hp. simpl in *.
  destruct (N.eqb_spec (incarnation p) inc) as [<-|]; [|by simplify_eq/=]. simpl in Hp.
  destruct (state p) as [| |demand next width] eqn:Hs; try by simplify_eq. destruct (H4 _ Hin) as [Hf Hlt].
  rewrite (bool_decide_eq_true_2 (pg_file demand = pg_file page)) in Hp by done. mred in Hp.
  destruct (N.leb_spec (pg_granule_idx page) (pg_granule_idx demand)); [by simplify_eq|].
  case_bool_decide as Hb; [|eapply observe_inv; [exact Hinv| |exact Hp]; lia].
  apply checked_add_Some in Hb as [Hg ?]. simplify_eq. split; simpl; try done.
  - unfold saturating_mul. split; [lia|]. assert (1 ≤ U32_MAX) by done. lia.
  - intros pg [? ?]%H4. split; [congruence|done].
Qed.

Lemma stream_step_inv s s' : stream_inv s → stream_step s s' → stream_inv s'.
Proof.
  intros Hinv Hstep. destruct Hstep; eauto using observe_inv, issue_inv, pattern_promote_inv.
  by eapply (λ H, proj1 (reset_inv _ _ _ Hinv H)).
Qed.

Lemma new_inv : stream_inv (mkStream new []).
Proof. split; simpl; [set_solver|apply NoDup_nil_2|done|set_solver]. Qed.

Lemma stream_reachable s : rtc stream_step (mkStream new []) s → stream_inv s.
Proof.
  revert s. apply (rtc_ind_r stream_inv); [apply new_inv|]. intros s1 s2 _ Hstep Hinv. by eapply stream_step_inv.
Qed.

(** ** Properties *)

(** (predictions): over any history of accesses, issues, promotions and resets,
    a stream never predicts the same page twice, and what it is about to predict is
    in the demanded file, past the demand, at most one window ahead of it, with the
    window never wider than the speculation capacity. *)
Theorem predictions_fresh_and_bounded s reader page source :
  rtc stream_step (mkStream new []) s → request (pattern s) reader = Some (page, source) →
  NoDup (trace s) ∧ ((page, incarnation (pattern s)) ∉ trace s) ∧
  source = Automatic reader (incarnation (pattern s)) ∧
  ∃ demand width, last_page (pattern s) = Some demand ∧ width ≤ capacity ∧
    pg_file page = pg_file demand ∧
    (pg_granule_idx demand < pg_granule_idx page ≤ pg_granule_idx demand + width).
Proof.
  intros Hs Hr. destruct (stream_reachable s Hs) as [H1 H2 H3 H4]. unfold request in Hr. unfold last_page.
  destruct (state (pattern s)) as [| |demand next width] eqn:Hst; try done. case_match; [done|]. simplify_eq/=.
  reflect_bools. unfold saturating_add in *. split_and!; try done.
  - intros [_ Hlt]%H4. simpl in Hlt. lia.
  - exists demand, width. split_and!; try done; lia.
Qed.

(** (No assertion fails): in every reachable stream, until the incarnation counter
    is exhausted, observing any page, issuing the requested page, promoting any issued
    page and computing a window of any width succeed. *)
Theorem pattern_never_panics s :
  rtc stream_step (mkStream new []) s → 0 < capacity → incarnation (pattern s) < U64_MAX →
  (∀ page, pg_granule_idx page ≤ U32_MAX → ∃ p', observe (pattern s) page capacity = Done p') ∧
  (∀ reader page source, request (pattern s) reader = Some (page, source) →
     ∃ p', issued (pattern s) page = Done p') ∧
  (∀ page inc, (page, inc) ∈ trace s → ∃ p', promoted (pattern s) page inc capacity = Done p') ∧
  (∀ reader vw, ∃ o, window (pattern s) reader vw = Done o).
Proof.
  intros Hs Hcap Hlt. destruct (stream_reachable s Hs) as [H1 H2 H3 H4]. destruct s as [p tr]. simpl in *.
  assert (∃ p', reset p = Done p') as [p0 Hreset].
  { unfold reset, checked_add. rewrite (proj2 (N.leb_le (incarnation p + 1) U64_MAX)) by lia. by eexists. }
  assert (∀ page, pg_granule_idx page ≤ U32_MAX → ∃ p', observe p page capacity = Done p') as Hobs.
  { intros page Hpage. unfold observe, last_page. rewrite (assertb_true (0 <? capacity)) by by apply N.ltb_lt. mred.
    case_bool_decide; [by eexists|]. destruct (match _ with Some _ => _ | None => _ end) eqn:Hf.
    - unfold observe_sequential. repeat case_match; done || by eexists.
    - rewrite Hreset. by eexists. }
  split_and!; [done|..].
  - intros reader page source Hr. unfold request in Hr. unfold issued.
    destruct (state p); try done. case_match; [done|]. simplify_eq. rewrite bool_decide_eq_true_2 by done. mred.
    case_match; done || by eexists.
  - intros page inc Hin. unfold promoted. destruct (N.eqb_spec (incarnation p) inc) as [<-|]; [|by eexists]. simpl.
    specialize (H4 page Hin). destruct (state p) as [| |demand next width]; try by eexists. destruct H4 as [Hf Hn].
    rewrite (bool_decide_eq_true_2 (pg_file demand = pg_file page)) by done. mred.
    repeat case_match; [by eexists..|]. apply Hobs. lia.
  - intros reader vw. unfold window. destruct (request p reader) as [[page source]|] eqn:Hr; [|by eexists].
    unfold request in Hr. destruct (state p) as [| |demand next width]; try done. case_match; [done|]. reflect_bools.
    rewrite sub_ok by done. mred. unfold saturating_add in *. rewrite add_ok by lia. mred. by eexists.
Qed.

(** ** Detection *)

Fixpoint observe_all (p : Pattern) (history : list PageId) : outcome Pattern :=
  match history with
  | [] => Done p
  | page :: history => p ← observe p page capacity; observe_all p history
  end.

(** The last access and the length of the run of consecutive granules it ends,
    repeated accesses not counting. *)
Definition run_step (run : option (PageId * N)) (page : PageId) : option (PageId * N) :=
  match run with
  | None => Some (page, 1)
  | Some (last, n) =>
      if decide (last = page) then run
      else if follows last page then Some (page, n + 1) else Some (page, 1)
  end.

Definition detected (run : option (PageId * N)) (p : Pattern) : Prop :=
  state p = match run with
    | None => Empty
    | Some (last, n) =>
        if n <? 3 then Following last n
        else Streaming last (pg_granule_idx last + 1) (N.min capacity 4)
    end ∧ match run with Some (last, n) => 1 ≤ n ∧ pg_granule_idx last < U32_MAX | None => True end.

Lemma observe_detected p run page :
  0 < capacity → detected run p → pg_granule_idx page < U32_MAX → incarnation p < U64_MAX →
  ∃ p', observe p page capacity = Done p' ∧ detected (run_step run page) p' ∧
    incarnation p' ≤ incarnation p + 1.
Proof.
  intros Hcap [Hst Hrun] Hpage Hinc. unfold observe, last_page. rewrite Hst.
  rewrite (assertb_true (0 <? capacity)) by by apply N.ltb_lt. mred.
  assert (reset p = Done (mkPattern Empty (incarnation p + 1))) as Hreset.
  { unfold reset, checked_add. by rewrite (proj2 (N.leb_le (incarnation p + 1) U64_MAX)) by lia. }
  assert (checked_add U32_MAX (pg_granule_idx page) 1 = Some (pg_granule_idx page + 1)) as Hnext
    by (apply checked_add_Some; lia).
  destruct run as [[last n]|]; simpl.
  - assert (match (if n <? 3 then Following last n else Streaming last (pg_granule_idx last + 1) (N.min capacity 4))
            with Empty => None | Following l _ => Some l | Streaming d _ _ => Some d end = Some last) as ->
      by by destruct (n <? 3).
    case_decide as Heq.
    + subst page. rewrite bool_decide_eq_true_2 by done. exists p. by split_and!; [..|lia].
    + rewrite bool_decide_eq_false_2 by congruence. destruct (follows last page) eqn:Hf.
      * unfold observe_sequential. rewrite Hnext, Hst. unfold detected. destruct Hrun as [Hn Hl].
        destruct (N.ltb_spec n 3).
        { destruct (N.ltb_spec n 2).
          - eexists. split; [done|]. simpl. rewrite (proj2 (N.ltb_lt (n + 1) 3)) by lia. split_and!; done || lia.
          - eexists. split; [done|]. simpl. rewrite (proj2 (N.ltb_ge (n + 1) 3)) by lia. split_and!; done || lia. }
        unfold follows in Hf. apply andb_true_iff in Hf as [_ Hf]. reflect_bools. apply checked_add_Some in Hf as [Hg _].
        eexists. split; [done|]. simpl. rewrite (proj2 (N.ltb_ge (n + 1) 3)) by lia.
        rewrite N.max_r by lia. split_and!; done || lia.
      * rewrite Hreset. mred. eexists. split; [done|]. by split_and!.
  - rewrite Hreset. mred. eexists. split; [done|]. by split_and!.
Qed.

Lemma observe_all_detected history p run :
  0 < capacity → detected run p → Forall (λ page, pg_granule_idx page < U32_MAX) history →
  incarnation p + vlen history < U64_MAX →
  ∃ p', observe_all p history = Done p' ∧ detected (fold_left run_step history run) p'.
Proof.
  intros Hcap. revert p run. induction history as [|page history IH]; intros p run Hd Hall Hlen; simpl; [by eexists|].
  apply Forall_cons in Hall as [Hpage Hall]. unfold vlen in *. simpl in Hlen.
  destruct (observe_detected p run page Hcap Hd Hpage) as (p' & -> & Hd' & Hi); [lia|]. mred.
  apply IH; [done..|lia].
Qed.

(** (Stream detection): a fresh pattern that has observed a history of accesses
    predicts a page exactly when the last three accesses, repetitions aside, touched
    consecutive granules of one file, and then predicts the granule that follows. *)
Theorem stream_detection history reader :
  0 < capacity → Forall (λ page, pg_granule_idx page < U32_MAX) history → vlen history < U64_MAX →
  ∃ p, observe_all new history = Done p ∧
    request p reader =
      match fold_left run_step history None with
      | Some (last, n) =>
          if 3 <=? n then
            Some (mkPageId (pg_file last) (pg_granule_idx last + 1), Automatic reader (incarnation p))
          else None
      | None => None
      end.
Proof.
  intros Hcap Hall Hlen. destruct (observe_all_detected history new None Hcap) as (p & Hp & Hst & Hrun); try done.
  exists p. split; [done|]. unfold request. rewrite Hst. destruct (fold_left run_step history None) as [[last n]|]; [|done].
  destruct (N.ltb_spec n 3), (N.leb_spec 3 n); try lia; [done|].
  rewrite (proj2 (N.ltb_ge (saturating_add U32_MAX (pg_granule_idx last) (N.min capacity 4)) _)); [done|].
  unfold saturating_add. lia.
Qed.
End stream.
End Pattern.

Module PatternWitness.
Import Pattern.

Definition page (i : N) : PageId := mkPageId (mkFileId 1 2 3) i.

(** Three accesses and one issued prediction. *)
Definition streaming : stream :=
  mkStream (mkPattern (Streaming (page 12) 14 4) 1) [(page 13, 1)].

Lemma streaming_reachable : rtc (stream_step 8) (mkStream new []) streaming.
Proof.
  eapply rtc_l; [apply (stream_observe 8 _ _ (page 10)); [done|vm_compute; reflexivity]|].
  eapply rtc_l; [apply (stream_observe 8 _ _ (page 11)); [done|vm_compute; reflexivity]|].
  eapply rtc_l; [apply (stream_observe 8 _ _ (page 12)); [done|vm_compute; reflexivity]|].
  eapply rtc_l; [eapply (stream_issue 8 _ _ 0 (page 13)); vm_compute; reflexivity|].
  apply rtc_refl.
Qed.

Lemma predictions_fresh_and_bounded_witness :
  request (pattern streaming) 0 = Some (page 14, Automatic 0 1) ∧ (page 14, 1) ∉ trace streaming.
Proof.
  split; [vm_compute; reflexivity|].
  apply (predictions_fresh_and_bounded 8 streaming 0 (page 14) (Automatic 0 1) streaming_reachable).
  vm_compute. reflexivity.
Defined.

Lemma pattern_never_panics_witness : ∃ p', promoted (pattern streaming) (page 13) 1 8 = Done p'.
Proof.
  apply (pattern_never_panics 8 streaming streaming_reachable).
  - reflexivity.
  - vm_compute. reflexivity.
  - apply list_elem_of_singleton. reflexivity.
Defined.

Lemma stream_detection_witness :
  ∃ p, observe_all 8 new [page 5; page 6; page 6; page 7] = Done p ∧
    request p 0 = Some (page 8, Automatic 0 (incarnation p)).
Proof.
  apply (stream_detection 8 [page 5; page 6; page 6; page 7] 0).
  - reflexivity.
  - repeat constructor.
  - vm_compute. reflexivity.
Defined.
End PatternWitness.
