(* ===== verification/IndexQueue.v ===== *)
(** * The index queue of the prefetcher

    Models [IndexQueue] of src/src/pool/prefetch/state.rs: a first-in first-out queue
    of distinct small indexes, doubly linked through an array so that any member can
    be removed in constant time.  It keeps the readers that may issue a prediction,
    the speculative entries to clean up and those waiting for a release. *)
From stdpp Require Import prelude list.
From Stdlib Require Import NArith Lia.
From S2P Require Import Prelude.

Open Scope N_scope.

Module IndexQueue.

Record Links := mkLinks { previous : option N; next : option N }.

Record IndexQueue := mkQueue {
  links : list (option Links);
  first : option N;
  last : option N;
}.

Definition try_new (capacity : N) : IndexQueue :=
  mkQueue (replicate (N.to_nat capacity) None) None None.

Definition front (q : IndexQueue) : option N := first q.

Definition with_next (n : option N) (l : Links) : Links := mkLinks (previous l) n.
Definition with_previous (p : option N) (l : Links) : Links := mkLinks p (next l).

(** [self.links[i].as_mut().expect(..)], updated. *)
Definition update_links (ls : list (option Links)) (i : N) (f : Links → Links) :
    outcome (list (option Links)) :=
  o ← vget ls i;
  l ← expect o;
  vset ls i (Some (f l)).

Definition push (q : IndexQueue) (index : N) : outcome IndexQueue :=
  o ← vget (links q) index;
  match o with
  | Some _ => Done q
  | None =>
      ls ← vset (links q) index (Some (mkLinks (last q) None));
      match last q with
      | Some l =>
          ls ← update_links ls l (with_next (Some index));
          Done (mkQueue ls (first q) (Some index))
      | None => Done (mkQueue ls (Some index) (Some index))
      end
  end.

(** [remove]: unlink from the predecessor, then from the successor. *)
Definition unlink_previous (q : IndexQueue) (l : Links) : outcome IndexQueue :=
  match previous l with
  | Some p => ls ← update_links (links q) p (with_next (next l)); Done (mkQueue ls (first q) (last q))
  | None => Done (mkQueue (links q) (next l) (last q))
  end.

Definition unlink_next (q : IndexQueue) (l : Links) : outcome IndexQueue :=
  match next l with
  | Some n => ls ← update_links (links q) n (with_previous (previous l)); Done (mkQueue ls (first q) (last q))
  | None => Done (mkQueue (links q) (first q) (previous l))
  end.

Definition remove (q : IndexQueue) (index : N) : outcome IndexQueue :=
  o ← vget (links q) index;
  match o with
  | None => Done q
  | Some l =>
      ls ← vset (links q) index None;
      q ← unlink_previous (mkQueue ls (first q) (last q)) l;
      unlink_next q l
  end.

Definition pop (q : IndexQueue) : outcome (IndexQueue * option N) :=
  match first q with
  | None => Done (q, None)
  | Some index => q ← remove q index; Done (q, Some index)
  end.

(** ** Representation

    [entry pv l j]: the links of [j] in the list [l] entered from [pv]. *)

Fixpoint entry (pv : option N) (l : list N) (j : N) : option Links :=
  match l with
  | [] => None
  | x :: l => if j =? x then Some (mkLinks pv (head l)) else entry (Some x) l j
  end.

Definition last_or (pv : option N) (l : list N) : option N :=
  match list.last l with Some x => Some x | None => pv end.

Record rep (cap : N) (q : IndexQueue) (l : list N) : Prop := {
  rep_first : first q = head l;
  rep_last : last q = list.last l;
  rep_nodup : NoDup l;
  rep_range : ∀ i, i ∈ l → i < cap;
  rep_len : vlen (links q) = cap;
  rep_links : ∀ j, j < cap → links q !! N.to_nat j = Some (entry None l j);
}.

Lemma entry_None pv l j : entry pv l j = None ↔ j ∉ l.
Proof.
  revert pv. induction l as [|x l IH]; intros pv; simpl; [split; [intros; apply not_elem_of_nil|done]|].
  destruct (N.eqb_spec j x); [subst; set_solver|]. rewrite IH. set_solver.
Qed.

Lemma entry_app_r pv l1 l2 j : j ∉ l1 → entry pv (l1 ++ l2) j = entry (last_or pv l1) l2 j.
Proof.
  revert pv. induction l1 as [|x l1 IH]; intros pv Hj; [done|]. simpl.
  destruct (N.eqb_spec j x); [set_solver|]. rewrite IH by set_solver. f_equal.
  unfold last_or. rewrite last_cons. by destruct (list.last l1).
Qed.

Lemma entry_app_l pv l1 l2 j :
  NoDup l1 → j ∈ l1 →
  entry pv (l1 ++ l2) j =
    (if decide (list.last l1 = Some j) then with_next (head l2) else id) <$> entry pv l1 j.
Proof.
  revert pv. induction l1 as [|x l1 IH]; intros pv Hnd Hj; [set_solver|].
  apply NoDup_cons in Hnd as [Hx Hnd]. simpl. destruct (N.eqb_spec j x) as [->|Hne].
  - rewrite last_cons. destruct l1 as [|y l1]; simpl; [by rewrite decide_True|].
    rewrite decide_False; [done|]. change (match list.last (y :: l1) with Some z => Some z | None => Some x end ≠ Some x).
    destruct (list.last (y :: l1)) eqn:Hl; [|by apply last_None in Hl].
    apply last_Some_elem_of in Hl. congruence.
  - rewrite IH by set_solver. rewrite last_cons. destruct (list.last l1) eqn:Hl; [done|].
    apply last_None in Hl. set_solver.
Qed.

Lemma entry_head pv l j : head l = Some j → entry pv l j = Some (mkLinks pv (head (tail l))).
Proof. destruct l; simpl; [done|]. intros [= ->]. by rewrite N.eqb_refl. Qed.

Lemma entry_not_head pv pv' l j : head l ≠ Some j → entry pv l j = entry pv' l j.
Proof. destruct l as [|x l]; simpl; [done|]. intros H. by rewrite (proj2 (N.eqb_neq j x)) by congruence. Qed.

Lemma update_links_ok ls i l f :
  ls !! N.to_nat i = Some (Some l) → update_links ls i f = Done (<[N.to_nat i := Some (f l)]> ls).
Proof.
  intros H. unfold update_links. rewrite (proj2 (vget_Done _ _ _) H). mred. by rewrite vset_ok by by eapply vget_lt.
Qed.

Lemma lookup_store ls (i j : N) (o : option Links) :
  i < vlen ls → <[N.to_nat i := o]> ls !! N.to_nat j = if decide (j = i) then Some o else ls !! N.to_nat j.
Proof.
  intros Hi. case_decide as Hd; [subst; by apply list_lookup_insert_eq; unfold vlen in Hi; lia|].
  apply list_lookup_insert_ne. lia.
Qed.

Lemma push_rep cap q l i :
  rep cap q l → i < cap →
  ∃ q', push q i = Done q' ∧ rep cap q' (if decide (i ∈ l) then l else l ++ [i]).
Proof.
  intros Hrep Hi. pose proof Hrep as [Hf Hl Hnd Hrg Hlen Hlk]. unfold push.
  rewrite (proj2 (vget_Done _ _ _) (Hlk i Hi)). mred. case_decide as Hin.
  { destruct (entry None l i) eqn:He; [by exists q|]. by apply entry_None in He. }
  rewrite (proj2 (entry_None None l i) Hin). rewrite vset_ok by by rewrite Hlen. mred. rewrite Hl.
  assert (∀ ls, vlen ls = cap →
    (∀ j, j < cap → ls !! N.to_nat j = Some (if decide (j = i) then Some (mkLinks (list.last l) None)
      else (if decide (list.last l = Some j) then with_next (Some i) else id) <$> entry None l j)) →
    rep cap (mkQueue ls (match head l with Some x => Some x | None => Some i end) (Some i)) (l ++ [i])) as Hdone.
  { intros ls Hls Hall. split; simpl; try done.
    - by destruct l.
    - by rewrite last_snoc.
    - apply NoDup_app. split_and!; [done|set_solver|apply NoDup_singleton].
    - intros j [?|?]%elem_of_app; [by apply Hrg|set_solver].
    - intros j Hj. rewrite Hall by done. f_equal. destruct (decide (j ∈ l)) as [Hjl|Hjl].
      + rewrite entry_app_l by done. by rewrite decide_False by set_solver.
      + rewrite entry_app_r by done. simpl. rewrite (proj2 (entry_None None l j) Hjl).
        destruct (N.eqb_spec j i) as [->|]; [|by rewrite decide_False].
        rewrite decide_True by done. unfold last_or. by destruct (list.last l). }
  destruct (list.last l) as [x|] eqn:Hlast.
  - assert (x ∈ l) as Hx by by apply last_Some_elem_of. assert (x ≠ i) by set_solver.
    destruct (entry None l x) as [lx|] eqn:Hlx; [|by apply entry_None in Hlx].
    rewrite (update_links_ok _ _ lx) by (rewrite lookup_store, decide_False, Hlk, Hlx by (done || by rewrite Hlen || by apply Hrg); done).
    mred. eexists. split; [done|]. rewrite Hf. destruct (head l) eqn:Hh; [|by destruct l].
    apply Hdone; [by rewrite !vlen_insert|]. intros j Hj. rewrite lookup_store by (rewrite vlen_insert, Hlen; by apply Hrg).
    rewrite lookup_store by by rewrite Hlen. destruct (decide (j = x)) as [->|Hjx].
    + by rewrite (decide_False (P := x = i)), decide_True, Hlx.
    + rewrite Hlk by done. case_decide; [done|]. rewrite decide_False by congruence. by rewrite option_fmap_id.
  - eexists. split; [done|]. apply last_None in Hlast as ->. simpl in *. apply Hdone; [by rewrite vlen_insert|].
    intros j Hj. rewrite lookup_store by by rewrite Hlen. case_decide; [done|]. by rewrite Hlk.
Qed.

(** The links of the list with [i] cut out, from those of [l1 ++ i :: l2]. *)
Lemma entry_cut l1 i l2 j :
  NoDup (l1 ++ i :: l2) → j ≠ i →
  entry None (l1 ++ l2) j =
    (if decide (list.last l1 = Some j) then with_next (head l2)
     else if decide (head l2 = Some j) then with_previous (list.last l1) else id) <$>
    entry None (l1 ++ i :: l2) j.
Proof.
  intros (Hnd1 & Hdis & Hnd2)%NoDup_app Hji. apply NoDup_cons in Hnd2 as [Hi2 Hnd2].
  destruct (decide (j ∈ l1)) as [Hj1|Hj1].
  - rewrite !entry_app_l by done. rewrite (decide_False (P := head l2 = Some j)).
    + case_decide; by destruct (entry None l1 j).
    + intros Hh%head_Some_elem_of. set_solver.
  - rewrite !entry_app_r by done. rewrite decide_False by (intros ?%last_Some_elem_of; done). simpl.
    rewrite (proj2 (N.eqb_neq j i)) by done. unfold last_or. case_decide as Hh.
    + rewrite !entry_head by done. simpl. by destruct (list.last l1).
    + rewrite option_fmap_id. by apply entry_not_head.
Qed.

Lemma entry_mid l1 i l2 : NoDup (l1 ++ i :: l2) →
  entry None (l1 ++ i :: l2) i = Some (mkLinks (list.last l1) (head l2)).
Proof.
  intros (_ & Hdis & _)%NoDup_app. rewrite entry_app_r by set_solver. simpl. rewrite N.eqb_refl.
  unfold last_or. by destruct (list.last l1).
Qed.

Lemma remove_mid cap q l1 i l2 :
  rep cap q (l1 ++ i :: l2) → ∃ q', remove q i = Done q' ∧ rep cap q' (l1 ++ l2).
Proof.
  intros [Hf Hl Hnd Hrg Hlen Hlk]. assert (i < cap) as Hi by (apply Hrg; set_solver).
  assert (∀ j, j ∈ l1 → j ≠ i ∧ j < cap) as H1.
  { intros j Hj. apply NoDup_app in Hnd as (_ & Hdis & _). split; [set_solver|]. apply Hrg. set_solver. }
  assert (∀ j, j ∈ l2 → j ≠ i ∧ j < cap ∧ j ∉ l1) as H2.
  { intros j Hj. apply NoDup_app in Hnd as (_ & Hdis & [Hi2 _]%NoDup_cons). split_and!; [set_solver| |set_solver].
    apply Hrg. set_solver. }
  unfold remove. rewrite (proj2 (vget_Done _ _ _) (Hlk i Hi)), (entry_mid l1 i l2 Hnd). mred.
  rewrite vset_ok by by rewrite Hlen. mred.
  set (ls1 := <[N.to_nat i := None]> (links q)).
  assert (∀ j, j < cap → ls1 !! N.to_nat j = Some (if decide (j = i) then None else entry None (l1 ++ i :: l2) j)) as Hls1.
  { intros j Hj. unfold ls1. rewrite lookup_store by by rewrite Hlen. case_decide; [done|by apply Hlk]. }
  assert (vlen ls1 = cap) as Hlen1 by (unfold ls1; by rewrite vlen_insert).
  assert (∃ ls2, unlink_previous (mkQueue ls1 (first q) (last q)) (mkLinks (list.last l1) (head l2)) =
      Done (mkQueue ls2 (head (l1 ++ l2)) (last q)) ∧ vlen ls2 = cap ∧
      ∀ j, j < cap → ls2 !! N.to_nat j = Some (if decide (j = i) then None else
        (if decide (list.last l1 = Some j) then with_next (head l2) else id) <$> entry None (l1 ++ i :: l2) j))
    as (ls2 & -> & Hlen2 & Hls2).
  { unfold unlink_previous. simpl. destruct (list.last l1) as [p|] eqn:Hp.
    - apply last_Some_elem_of in Hp as Hpl. destruct (H1 p Hpl) as [Hpi Hpc].
      destruct (entry None (l1 ++ i :: l2) p) as [lp|] eqn:Hlp; [|apply entry_None in Hlp; set_solver].
      rewrite (update_links_ok _ _ lp) by by rewrite Hls1, decide_False, Hlp. mred.
      eexists. split; [by rewrite Hf; destruct l1|]. split; [by rewrite vlen_insert|]. intros j Hj.
      rewrite lookup_store by by rewrite Hlen1. destruct (decide (j = p)) as [->|Hjp].
      + by rewrite (decide_False (P := p = i)), decide_True, Hlp.
      + rewrite Hls1 by done. case_decide; [done|]. rewrite decide_False by congruence. by rewrite option_fmap_id.
    - apply last_None in Hp as ->. exists ls1. split_and!; [done..|]. intros j Hj. rewrite Hls1 by done.
      case_decide; [done|]. by rewrite option_fmap_id. }
  mred. unfold unlink_next. simpl.
  assert (∀ ls o, vlen ls = cap → o = list.last (l1 ++ l2) →
     (∀ j, j < cap → ls !! N.to_nat j = Some (if decide (j = i) then None else entry None (l1 ++ l2) j)) →
     rep cap (mkQueue ls (head (l1 ++ l2)) o) (l1 ++ l2)) as Hdone.
  { intros ls o Hls -> Hall. split; simpl; try done.
    - apply NoDup_app in Hnd as (? & Hdis & [? ?]%NoDup_cons). apply NoDup_app. split_and!; [done| |done]. set_solver.
    - intros j Hj. apply Hrg. set_solver.
    - intros j Hj. rewrite Hall by done. f_equal. case_decide as Hd; [|done]. subst j. symmetry. apply entry_None.
      intros [?%H1|?%H2]%elem_of_app; naive_solver. }
  destruct (head l2) as [n|] eqn:Hn.
  - apply head_Some_elem_of in Hn as Hnl. destruct (H2 n Hnl) as (Hni & Hnc & Hn1).
    destruct (entry None (l1 ++ i :: l2) n) as [ln|] eqn:Hln; [|apply entry_None in Hln; set_solver].
    rewrite (update_links_ok _ _ ln).
    2: { rewrite Hls2 by done. rewrite (decide_False (P := n = i)), decide_False, Hln; [done|by intros Hx%last_Some_elem_of|done]. }
    mred. eexists. split; [done|]. apply Hdone; [by rewrite vlen_insert|..].
    + rewrite Hl, !last_app. by destruct l2.
    + intros j Hj. rewrite lookup_store by by rewrite Hlen2. destruct (decide (j = n)) as [->|Hjn].
      * rewrite (decide_False (P := n = i)) by done. rewrite (entry_cut l1 i l2), Hn, Hln by done.
        rewrite decide_False by (by intros Hx%last_Some_elem_of). by rewrite decide_True.
      * rewrite Hls2 by done. case_decide; [done|]. rewrite (entry_cut l1 i l2), Hn by done.
        case_decide; [done|]. by rewrite decide_False by congruence.
  - destruct l2 as [|]; [|done]. eexists. split; [done|]. apply Hdone; [done|by rewrite app_nil_r|].
    intros j Hj. rewrite Hls2 by done. case_decide; [done|]. rewrite (entry_cut l1 i []) by done. simpl. by case_decide.
Qed.

Lemma remove_rep cap q l i :
  rep cap q l → i < cap → ∃ q', remove q i = Done q' ∧ rep cap q' (filter (λ j, j ≠ i) l).
Proof.
  intros Hrep Hi. destruct (decide (i ∈ l)) as [(l1 & l2 & ->)%list_elem_of_split|Hin].
  - destruct (remove_mid cap q l1 i l2 Hrep) as (q' & Hq & Hr). exists q'. split; [done|].
    pose proof (rep_nodup _ _ _ Hrep) as (_ & Hdis & [Hi2 _]%NoDup_cons)%NoDup_app.
    rewrite filter_app, filter_cons_False by tauto. rewrite !filter_all; [done|set_solver..].
  - exists q. pose proof (rep_links _ _ _ Hrep i Hi) as Hlk. unfold remove.
    rewrite (proj2 (vget_Done _ _ _) Hlk), (proj2 (entry_None None l i) Hin). split; [done|].
    rewrite filter_all; [done|set_solver].
Qed.

Lemma pop_rep cap q l :
  rep cap q l → ∃ q', pop q = Done (q', head l) ∧ rep cap q' (list.tail l).
Proof.
  intros Hrep. unfold pop. rewrite (rep_first _ _ _ Hrep). destruct l as [|i l]; simpl; [by exists q|].
  destruct (remove_mid cap q [] i l Hrep) as (q' & -> & Hr). by exists q'.
Qed.

Lemma try_new_rep cap : rep cap (try_new cap) [].
Proof.
  split; simpl; try done; [apply NoDup_nil_2|set_solver|unfold vlen; rewrite length_replicate; lia|].
  intros j Hj. apply lookup_replicate. split; [done|lia].
Qed.

(** ** Operation sequences *)

Inductive queue_op := Push (index : N) | Remove (index : N) | Pop.

Definition run_op (q : IndexQueue) (op : queue_op) : outcome (IndexQueue * option N) :=
  match op with
  | Push i => q ← push q i; Done (q, None)
  | Remove i => q ← remove q i; Done (q, None)
  | Pop => pop q
  end.

Fixpoint run_queue (q : IndexQueue) (ops : list queue_op) : outcome (IndexQueue * list (option N)) :=
  match ops with
  | [] => Done (q, [])
  | op :: ops => '(q, r) ← run_op q op; '(q, rs) ← run_queue q ops; Done (q, r :: rs)
  end.

(** The reference: a list of distinct indexes in order of arrival. *)
Definition list_op (l : list N) (op : queue_op) : list N * option N :=
  match op with
  | Push i => (if decide (i ∈ l) then l else l ++ [i], None)
  | Remove i => (filter (λ j, j ≠ i) l, None)
  | Pop => (list.tail l, head l)
  end.

Fixpoint run_list (l : list N) (ops : list queue_op) : list (option N) :=
  match ops with
  | [] => []
  | op :: ops => let '(l, r) := list_op l op in r :: run_list l ops
  end.

Definition op_index (op : queue_op) : N := match op with Push i | Remove i => i | Pop => 0 end.

Lemma run_op_rep cap q l op :
  rep cap q l → (op = Pop ∨ op_index op < cap) →
  ∃ q', run_op q op = Done (q', (list_op l op).2) ∧ rep cap q' (list_op l op).1.
Proof.
  intros Hrep Hop. destruct op as [i|i|]; simpl in *.
  - destruct (push_rep cap q l i) as (q' & -> & ?); [done|naive_solver|]. by exists q'.
  - destruct (remove_rep cap q l i) as (q' & -> & ?); [done|naive_solver|]. by exists q'.
  - by apply pop_rep.
Qed.

Lemma run_queue_rep cap q l ops :
  rep cap q l → Forall (λ op, op = Pop ∨ op_index op < cap) ops →
  ∃ q', run_queue q ops = Done (q', run_list l ops).
Proof.
  revert q l. induction ops as [|op ops IH]; intros q l Hrep Hops; [by exists q|].
  apply Forall_cons in Hops as [Hop Hops]. destruct (run_op_rep cap q l op Hrep Hop) as (q1 & Hq1 & Hr1). simpl.
  destruct (list_op l op) as [l1 r]. simpl in *. rewrite Hq1. mred.
  destruct (IH q1 l1 Hr1 Hops) as (q2 & ->). mred. by eexists.
Qed.

(** (queue refinement): every sequence of pushes, removals and pops of in-range
    indexes on a new index queue succeeds and answers as a plain list of distinct
    indexes in order of arrival does. *)
Theorem index_queue_is_fifo cap ops :
  Forall (λ op, op = Pop ∨ op_index op < cap) ops →
  ∃ q, run_queue (try_new cap) ops = Done (q, run_list [] ops).
Proof. intros Hops. by apply (run_queue_rep cap _ []); [apply try_new_rep|]. Qed.

Lemma index_queue_is_fifo_witness :
  ∃ q, run_queue (try_new 4) [Push 2; Push 0; Push 2; Push 3; Remove 0; Pop; Pop; Pop] =
    Done (q, [None; None; None; None; None; Some 2; Some 3; None]).
Proof.
  apply (index_queue_is_fifo 4 [Push 2; Push 0; Push 2; Push 3; Remove 0; Pop; Pop; Pop]).
  repeat constructor; first [left; reflexivity | right; reflexivity].
Defined.
End IndexQueue.
