(* ===== verification/Feedback.v ===== *)
(** * Ordered feedback

    Models [Feedback] and [flush_feedback_sort] of src/src/pool/prefetch/state.rs.
    Consumed predictions arrive in bitmap order; before the readers' patterns learn of
    them they are put in order by a least-significant-byte radix sort over the reader,
    the incarnation and the granule.  The sort is shown to implement a stable sort by
    that key. *)
From stdpp Require Import prelude list sorting.
From Stdlib Require Import NArith Lia.
From S2P Require Import Prelude Ids.

Open Scope N_scope.

Module Feedback.

Record Feedback := mkFeedback {
  fb_reader : N;
  fb_incarnation : N;
  fb_page : PageId;
}.

(** Byte [ordinal] of the sort key. *)
Definition byte (f : Feedback) (ordinal : N) : outcome N :=
  if ordinal <=? 3 then Done (N.land (N.shiftr (pg_granule_idx (fb_page f)) (ordinal * 8)) 255)
  else if ordinal <=? 11 then Done (N.land (N.shiftr (fb_incarnation f) ((ordinal - 4) * 8)) 255)
  else if ordinal <=? 15 then Done (N.land (N.shiftr (fb_reader f) ((ordinal - 12) * 8)) 255)
  else Panic.

(** The first loop of a pass: how often each byte occurs. *)
Fixpoint count_bytes (prefix : list (option Feedback)) (ordinal : N) (counts : list N) : outcome (list N) :=
  match prefix with
  | [] => Done counts
  | o :: prefix =>
      f ← expect o;
      b ← byte f ordinal;
      n ← vget counts b;
      counts ← vset counts b (n + 1);
      count_bytes prefix ordinal counts
  end.

(** The second: each count becomes the offset of its bucket. *)
Fixpoint offsets (offset : N) (counts : list N) : list N :=
  match counts with
  | [] => []
  | length :: counts => offset :: offsets (offset + length) counts
  end.

(** The third: every record goes to the next place of its bucket. *)
Fixpoint scatter (prefix : list (option Feedback)) (ordinal : N) (counts : list N)
    (scratch : list (option Feedback)) : outcome (list (option Feedback)) :=
  match prefix with
  | [] => Done scratch
  | o :: prefix =>
      f ← expect o;
      b ← byte f ordinal;
      n ← vget counts b;
      scratch ← vset scratch n o;
      counts ← vset counts b (n + 1);
      scatter prefix ordinal counts scratch
  end.

(** One pass, with the final swap of the two arrays. *)
Definition sort_pass (ordinal count : N) (feedback scratch : list (option Feedback)) :
    outcome (list (option Feedback) * list (option Feedback)) :=
  assertb (count <=? vlen feedback);;
  let prefix := take (N.to_nat count) feedback in
  counts ← count_bytes prefix ordinal (replicate 256 0);
  scratch ← scatter prefix ordinal (offsets 0 counts) scratch;
  Done (scratch, feedback).

Fixpoint sort_passes (ordinals : list N) (count : N) (feedback scratch : list (option Feedback)) :
    outcome (list (option Feedback) * list (option Feedback)) :=
  match ordinals with
  | [] => Done (feedback, scratch)
  | o :: ordinals =>
      '(feedback, scratch) ← sort_pass o count feedback scratch;
      sort_passes ordinals count feedback scratch
  end.

Definition flush_feedback_sort (count : N) (feedback scratch : list (option Feedback)) :
    outcome (list (option Feedback) * list (option Feedback)) :=
  sort_passes (N.of_nat <$> seq 0 16) count feedback scratch.

(** ** Bucket sorts *)

Section bucket.
Context {A : Type} (d : A → nat).

Definition bucket (l : list A) (b : nat) : list A := filter (λ x, d x = b) l.
Definition buckets (l : list A) (n : nat) : list A := concat (bucket l <$> seq 0 n).
Definition off (l : list A) (b : nat) : nat := length (buckets l b).

Lemma buckets_S l n : buckets l (S n) = buckets l n ++ bucket l n.
Proof. unfold buckets. rewrite seq_S, fmap_app, concat_app. simpl. by rewrite app_nil_r. Qed.

Lemma off_S l b : off l (S b) = (off l b + length (bucket l b))%nat.
Proof. unfold off. by rewrite buckets_S, length_app. Qed.

Lemma off_le l b b' : (b ≤ b')%nat → (off l b ≤ off l b')%nat.
Proof. induction 1 as [|b' _ IH]; [lia|]. rewrite off_S. lia. Qed.

Lemma bucket_app l1 l2 b : bucket (l1 ++ l2) b = bucket l1 b ++ bucket l2 b.
Proof. apply filter_app. Qed.

Lemma buckets_perm l n : (∀ x, x ∈ l → (d x < n)%nat) → buckets l n ≡ₚ l.
Proof.
  revert l. induction n as [|n IH]; intros l Hl.
  - destruct l as [|x l]; [done|]. specialize (Hl x ltac:(set_solver)). lia.
  - rewrite buckets_S. assert (buckets l n = buckets (filter (λ x, d x ≠ n) l) n) as ->.
    { unfold buckets. f_equal. apply list_fmap_ext. intros i b Hb. apply lookup_seq in Hb as [-> Hb]. simpl.
      unfold bucket. rewrite list_filter_filter. apply list_filter_iff. intros x. split; [intros ->; lia|tauto]. }
    rewrite IH.
    + rewrite Permutation_app_comm. unfold bucket. clear. induction l as [|x l IH]; [done|].
      rewrite !filter_cons. destruct (decide (d x = n)), (decide (d x ≠ n)); simpl; try tauto; [by rewrite IH|].
      rewrite <- Permutation_middle. by rewrite IH.
    + intros x [Hne Hx]%list_elem_of_filter. specialize (Hl x Hx). lia.
Qed.

Lemma off_total l n : (∀ x, x ∈ l → (d x < n)%nat) → off l n = length l.
Proof. intros H. unfold off. by rewrite buckets_perm. Qed.

(** Selecting one key keeps the records and their order. *)
Lemma buckets_filter {K} (key : A → K) `{EqDecision K} (v : K) l n :
  (∀ x y, x ∈ l → y ∈ l → key x = key y → d x = d y) → (∀ x, x ∈ l → (d x < n)%nat) →
  filter (λ x, key x = v) (buckets l n) = filter (λ x, key x = v) l.
Proof.
  revert l. induction n as [|n IH]; intros l Hkey Hl.
  - destruct l as [|x l]; [done|]. specialize (Hl x ltac:(set_solver)). lia.
  - rewrite buckets_S, filter_app.
    assert (buckets l n = buckets (filter (λ x, d x ≠ n) l) n) as ->.
    { unfold buckets. f_equal. apply list_fmap_ext. intros i b Hb. apply lookup_seq in Hb as [-> Hb]. simpl.
      unfold bucket. rewrite list_filter_filter. apply list_filter_iff. intros x. split; [intros ->; lia|tauto]. }
    rewrite IH; cycle 1.
    { intros x y [_ Hx]%list_elem_of_filter [_ Hy]%list_elem_of_filter. by apply Hkey. }
    { intros x [Hne Hx]%list_elem_of_filter. specialize (Hl x Hx). lia. }
    unfold bucket. rewrite !list_filter_filter.
    destruct (decide (Exists (λ x, key x = v ∧ d x = n) l)) as [(x & Hx & Hk & Hd)%list.Exists_exists|Hno%not_Exists_Forall]; [| |apply _].
    + assert (∀ y, y ∈ l → key y = v → d y = n) as Hall by (intros y Hy Hy'; rewrite <- Hd; apply Hkey; congruence).
      rewrite filter_none by (intros y Hy [Hk' ?]; specialize (Hall y Hy Hk'); lia).
      simpl. clear -Hall. induction l as [|y l IHl]; [done|]. rewrite !filter_cons, IHl by set_solver.
      specialize (Hall y ltac:(set_solver)). destruct (decide (key y = v)); [|by rewrite decide_False by tauto].
      rewrite decide_True; tauto.
    + rewrite Forall_forall in Hno.
      rewrite (filter_none (λ x, key x = v ∧ d x = n)) by (intros y Hy ?; by eapply Hno).
      rewrite app_nil_r. clear -Hno. induction l as [|y l IHl]; [done|].
      rewrite !filter_cons, IHl by (intros x Hx; apply Hno; set_solver).
      specialize (Hno y ltac:(set_solver)). simpl in Hno. destruct (decide (key y = v)) as [Hk|Hk].
      * rewrite decide_True; [done|]. tauto.
      * by rewrite decide_False by tauto.
Qed.

Lemma buckets_elem l n x : x ∈ buckets l n → (d x < n)%nat.
Proof.
  induction n as [|n IH]; [by intros ?%elem_of_nil|]. rewrite buckets_S.
  intros [?%IH|[<- _]%list_elem_of_filter]%elem_of_app; lia.
Qed.

(** Ordering by a digit on top of an ordering by what is below it. *)
Lemma buckets_sorted (low : A → N) (weight : N) l n :
  (∀ x, low x < weight) → StronglySorted (λ x y, low x ≤ low y) l →
  StronglySorted (λ x y, low x + weight * N.of_nat (d x) ≤ low y + weight * N.of_nat (d y)) (buckets l n).
Proof.
  intros Hlow Hl. induction n as [|n IH]; [constructor|]. rewrite buckets_S.
  apply StronglySorted_app_2; [|done|].
  - intros x y Hx Hy. apply list_elem_of_filter in Hy as [Hdy _].
    assert (d x < n)%nat as Hdx by by eapply buckets_elem.
    specialize (Hlow x). assert (N.of_nat (d x) + 1 ≤ N.of_nat (d y)) as Hle by lia. nia.
  - clear IH. induction Hl as [|x l Hl IHl Hx]; [constructor|]. unfold bucket. rewrite filter_cons.
    case_decide as Hd; [|done]. constructor; [done|]. apply Forall_forall. intros y [Hdy Hy]%list_elem_of_filter.
    rewrite Forall_forall in Hx. specialize (Hx y Hy). rewrite Hd, Hdy. lia.
Qed.
End bucket.

(** ** A pass is a bucket sort *)

Section pass.
Context (ordinal : N) (d : Feedback → nat).
Hypothesis (Hbyte : ∀ f, byte f ordinal = Done (N.of_nat (d f))).
Hypothesis (Hd : ∀ f, (d f < 256)%nat).

Lemma count_bytes_ok l counts :
  length counts = 256%nat →
  ∃ counts', count_bytes (Some <$> l) ordinal counts = Done counts' ∧ length counts' = 256%nat ∧
    ∀ b n, counts !! b = Some n → counts' !! b = Some (n + N.of_nat (length (bucket d l b))).
Proof.
  revert counts. induction l as [|x l IH]; intros counts Hlen; rewrite ?fmap_cons; cbn [count_bytes].
  - exists counts. split_and!; [done..|]. intros b n Hb. simpl. by rewrite N.add_0_r.
  - mred. rewrite Hbyte. mred. specialize (Hd x) as Hdx. destruct (lookup_lt_is_Some_2 counts (d x)) as [n Hn]; [lia|].
    rewrite (proj2 (vget_Done _ _ n)) by by rewrite Nat2N.id. mred.
    rewrite vset_ok by (unfold vlen; lia). mred. rewrite Nat2N.id.
    destruct (IH (<[d x := n + 1]> counts)) as (c' & -> & Hlen' & Hc'); [by rewrite length_insert|].
    exists c'. split_and!; [done..|]. intros b m Hb. unfold bucket. rewrite filter_cons. fold (bucket d l b).
    destruct (decide (d x = b)) as [<-|Hne].
    + assert (m = n) as -> by congruence. rewrite (Hc' (d x) (n + 1)) by (apply list_lookup_insert_eq; lia). simpl. f_equal. lia.
    + apply Hc'. by rewrite list_lookup_insert_ne.
Qed.

Lemma offsets_lookup l counts n b :
  (∀ i c, counts !! i = Some c → c = N.of_nat (length (bucket d l (n + i)))) → (b < length counts)%nat →
  offsets (N.of_nat (off d l n)) counts !! b = Some (N.of_nat (off d l (n + b))).
Proof.
  revert n b. induction counts as [|c counts IH]; intros n b Hc Hb; simpl in *; [lia|].
  destruct b as [|b]; simpl; [by rewrite Nat.add_0_r|].
  assert (c = N.of_nat (length (bucket d l n))) as -> by (rewrite (Hc 0%nat c eq_refl); by rewrite Nat.add_0_r).
  rewrite <- Nat2N.inj_add, <- off_S, <- Nat.add_succ_comm. apply IH; [|lia].
  intros i c Hi. rewrite (Hc (S i) c Hi). by rewrite Nat.add_succ_comm.
Qed.

Lemma offsets_length o counts : length (offsets o counts) = length counts.
Proof. revert o. induction counts; intros o; simpl; auto. Qed.

(** [scratch] holds the records of [l1] at their final places. *)
Definition placed (l l1 : list Feedback) (scratch : list (option Feedback)) : Prop :=
  ∀ b k x, bucket d l1 b !! k = Some x → scratch !! (off d l b + k)%nat = Some (Some x).

Lemma scatter_ok l l1 l2 counts scratch :
  l = l1 ++ l2 → length counts = 256%nat → (length l ≤ length scratch)%nat →
  (∀ b, (b < 256)%nat → counts !! b = Some (N.of_nat (off d l b + length (bucket d l1 b)))) →
  placed l l1 scratch →
  ∃ scratch', scatter (Some <$> l2) ordinal counts scratch = Done scratch' ∧
    length scratch' = length scratch ∧ placed l l scratch' ∧ ∀ i, (length l ≤ i)%nat → scratch' !! i = scratch !! i.
Proof.
  revert l1 counts scratch. induction l2 as [|x l2 IH]; intros l1 counts scratch Hl Hlen Hsc Hc Hp; rewrite ?fmap_cons; cbn [scatter].
  - rewrite app_nil_r in Hl. subst l1. by exists scratch.
  - mred. rewrite Hbyte. mred. specialize (Hd x) as Hdx. rewrite (proj2 (vget_Done _ _ _)) by (rewrite Nat2N.id; by apply Hc).
    mred. set (pos := (off d l (d x) + length (bucket d l1 (d x)))%nat).
    assert (∀ b, bucket d l b = bucket d l1 b ++ bucket d (x :: l2) b) as Hsplit by (intros b; rewrite Hl; apply bucket_app).
    assert (bucket d (x :: l2) (d x) = x :: bucket d l2 (d x)) as Hhead by (unfold bucket; by rewrite filter_cons_True).
    assert (pos < length l)%nat as Hposl.
    { assert (off d l (S (d x)) ≤ off d l 256)%nat as Hle by (apply off_le; lia).
      rewrite off_S, (off_total d l 256) in Hle by (intros; apply Hd). rewrite Hsplit, Hhead, length_app in Hle. simpl in Hle. lia. }
    assert (pos < length scratch)%nat as Hpos by lia.
    rewrite vset_ok by (unfold vlen; lia). mred. rewrite vset_ok by (unfold vlen; lia). mred. rewrite !Nat2N.id.
    destruct (IH (l1 ++ [x]) (<[d x := N.of_nat pos + 1]> counts) (<[pos := Some x]> scratch)) as (sc & Hsc' & Hl' & Hp' & Hrest').
    + rewrite Hl. by rewrite <- app_assoc.
    + by rewrite length_insert.
    + by rewrite length_insert.
    + intros b Hb. destruct (decide (b = d x)) as [->|Hne].
      * rewrite list_lookup_insert_eq by lia. rewrite bucket_app, length_app. unfold bucket at 2. rewrite filter_cons_True by done.
        simpl. f_equal. lia.
      * rewrite list_lookup_insert_ne by done. rewrite Hc by done. rewrite bucket_app. unfold bucket at 3.
        rewrite filter_cons_False by done. simpl. by rewrite app_nil_r.
    + intros b k y Hk. rewrite bucket_app in Hk. destruct (decide (b = d x)) as [->|Hne].
      * unfold bucket at 2 in Hk. rewrite filter_cons_True in Hk by done. simpl in Hk.
        apply lookup_snoc_Some in Hk as [[Hlt Hk]|[-> ->]]; [|by apply list_lookup_insert_eq].
        rewrite list_lookup_insert_ne by lia. by apply Hp.
      * unfold bucket at 2 in Hk. rewrite filter_cons_False in Hk by done. simpl in Hk. rewrite app_nil_r in Hk.
        rewrite list_lookup_insert_ne; [by apply Hp|]. apply lookup_lt_Some in Hk.
        assert (length (bucket d l1 b) ≤ length (bucket d l b))%nat by (rewrite Hsplit, length_app; lia).
        assert (length (bucket d l1 (d x)) < length (bucket d l (d x)))%nat by (rewrite Hsplit, Hhead, length_app; simpl; lia).
        destruct (decide (b < d x)%nat).
        { pose proof (off_le d l (S b) (d x) ltac:(lia)). rewrite off_S in *. lia. }
        { pose proof (off_le d l (S (d x)) b ltac:(lia)). rewrite off_S in *. lia. }
    + rewrite length_insert in Hl'. exists sc. split_and!; try done. intros i Hi. rewrite Hrest' by done.
      apply list_lookup_insert_ne. lia.
Qed.

Lemma placed_buckets l scratch n :
  placed l l scratch → take (off d l n) scratch = Some <$> buckets d l n.
Proof.
  intros Hp. induction n as [|n IH]; [done|]. rewrite off_S, buckets_S, fmap_app, <- IH.
  rewrite <- (take_drop (off d l n) scratch) at 1.
  apply list_eq. intros i. destruct (decide (i < off d l n)%nat) as [Hi|Hi].
  - rewrite take_drop. rewrite !lookup_app. rewrite lookup_take_lt by lia. rewrite lookup_take_lt by done.
    destruct (scratch !! i) eqn:Hs; [done|]. exfalso.
    assert (length (take (off d l n) scratch) = off d l n) as Hlen by (rewrite IH, length_fmap; done).
    rewrite length_take in Hlen. apply lookup_ge_None_1 in Hs. lia.
  - assert (length (take (off d l n) scratch) = off d l n) as Hlen by (rewrite IH, length_fmap; done).
    rewrite take_drop, lookup_app_r by lia. rewrite Hlen, list_lookup_fmap.
    destruct (decide (i < off d l n + length (bucket d l n))%nat) as [Hlt|Hge].
    + rewrite lookup_take_lt by done. destruct (lookup_lt_is_Some_2 (bucket d l n) (i - off d l n)) as [x Hx]; [lia|].
      rewrite Hx. replace i with (off d l n + (i - off d l n))%nat at 1 by lia. by apply Hp.
    + rewrite lookup_take_ge by lia. by rewrite lookup_ge_None_2 by lia.
Qed.

Lemma sort_pass_ok l feedback scratch :
  take (length l) feedback = Some <$> l → (length l ≤ length scratch)%nat → (length l ≤ length feedback)%nat →
  ∃ scratch', sort_pass ordinal (N.of_nat (length l)) feedback scratch = Done (scratch', feedback) ∧
    length scratch' = length scratch ∧ take (length l) scratch' = Some <$> buckets d l 256 ∧
    ∀ i, (length l ≤ i)%nat → scratch' !! i = scratch !! i.
Proof.
  intros Hpre Hlen Hlen'. unfold sort_pass. rewrite assertb_true by (apply N.leb_le; unfold vlen; lia). mred.
  rewrite Nat2N.id, Hpre. destruct (count_bytes_ok l (replicate 256 0)) as (counts & -> & Hcl & Hc); [by rewrite length_replicate|].
  mred. destruct (scatter_ok l [] l (offsets 0 counts) scratch) as (sc & -> & Hsl & Hp & Hrest); try done.
  - by rewrite offsets_length.
  - intros b Hb. change (bucket d [] b) with (@nil Feedback). simpl. rewrite Nat.add_0_r.
    apply (offsets_lookup l counts 0 b); [|lia]. intros i c Hi. simpl.
    assert (i < 256)%nat by (rewrite <- Hcl; by eapply lookup_lt_Some).
    rewrite (Hc i 0) in Hi by (apply lookup_replicate; done). by simplify_eq.
  - mred. exists sc. split_and!; [done..| |done]. rewrite <- (placed_buckets l sc) by done.
    by rewrite off_total by (intros; apply Hd).
Qed.
End pass.

(** ** The key *)

Definition key (f : Feedback) : N :=
  pg_granule_idx (fb_page f) + 2 ^ 32 * (fb_incarnation f + 2 ^ 64 * fb_reader f).
Definition digit (k : nat) (n : N) : N := n / 256 ^ N.of_nat k mod 256.

(** The byte as a bucket index, and the key's lowest [k] bytes. *)
Definition at_byte (k : nat) (f : Feedback) : nat :=
  match byte f (N.of_nat k) with Done b => N.to_nat b | Panic => 0%nat end.
Fixpoint low (k : nat) (f : Feedback) : N :=
  match k with O => 0 | S k => low k f + 256 ^ N.of_nat k * N.of_nat (at_byte k f) end.

(** The fields have their machine widths. *)
Definition sized (f : Feedback) : Prop :=
  pg_granule_idx (fb_page f) < 2 ^ 32 ∧ fb_incarnation f < 2 ^ 64 ∧ fb_reader f < 2 ^ 32.

Lemma byte_at k f : (k < 16)%nat → byte f (N.of_nat k) = Done (N.of_nat (at_byte k f)) ∧ (at_byte k f < 256)%nat.
Proof.
  intros Hk. assert (∀ x, N.land x 255 < 256) as Hb by (intros x; rewrite (land_mask 8); by apply N.mod_lt).
  unfold at_byte, byte. destruct (N.leb_spec (N.of_nat k) 3); [|destruct (N.leb_spec (N.of_nat k) 11);
    [|rewrite (proj2 (N.leb_le (N.of_nat k) 15)) by lia]]; rewrite N2Nat.id; (split; [done|]);
    match goal with |- context [N.land ?x 255] => specialize (Hb x) end; lia.
Qed.

Lemma low_lt k f : (k ≤ 16)%nat → low k f < 256 ^ N.of_nat k.
Proof.
  induction k as [|k IH]; intros Hk; simpl; [done|]. specialize (IH ltac:(lia)).
  destruct (byte_at k f ltac:(lia)) as [_ Hb]. rewrite Nat2N.inj_succ, N.pow_succ_r'. nia.
Qed.

Lemma pow256 k : 256 ^ k = 2 ^ (8 * k).
Proof. change 256 with (2 ^ 8). by rewrite <- N.pow_mul_r. Qed.

(** A byte inside the low field, and one above it. *)
Lemma digit_low a b m k :
  a < 2 ^ m → k + 8 ≤ m → (a + 2 ^ m * b) / 2 ^ k mod 256 = a / 2 ^ k mod 256.
Proof.
  intros Ha Hk. assert (2 ^ m = 2 ^ (m - k - 8) * 256 * 2 ^ k) as Hm.
  { change 256 with (2 ^ 8). rewrite <- !N.pow_add_r. f_equal. lia. }
  replace (2 ^ m * b) with (2 ^ (m - k - 8) * b * 256 * 2 ^ k) by (rewrite Hm; ring).
  rewrite N.div_add by by apply N.pow_nonzero. apply N.Div0.mod_add.
Qed.

Lemma div_high a b m k : a < 2 ^ m → m ≤ k → (a + 2 ^ m * b) / 2 ^ k = b / 2 ^ (k - m).
Proof.
  intros Ha Hk. replace k with (m + (k - m)) at 1 by lia. rewrite N.pow_add_r, <- N.Div0.div_div.
  assert (2 ^ m ≠ 0) by by apply N.pow_nonzero.
  rewrite (N.mul_comm (2 ^ m) b), (N.div_add a b (2 ^ m)) by done. by rewrite (N.div_small a (2 ^ m)), N.add_0_l by done.
Qed.

Lemma byte_digit f k : sized f → (k < 16)%nat → byte f (N.of_nat k) = Done (digit k (key f)).
Proof.
  intros (Hg & Hi & Hr) Hk. unfold byte, digit, key. rewrite pow256.
  destruct (N.leb_spec (N.of_nat k) 3); [|destruct (N.leb_spec (N.of_nat k) 11); [|rewrite (proj2 (N.leb_le _ 15)) by lia]];
    rewrite (land_mask 8), N.shiftr_div_pow2; change (2 ^ 8) with 256.
  - rewrite digit_low by (done || lia). do 4 f_equal. lia.
  - rewrite (div_high _ _ 32) by (done || lia). rewrite digit_low by (done || lia). do 4 f_equal. lia.
  - rewrite (div_high _ _ 32) by (done || lia). rewrite (div_high _ _ 64) by (done || lia).
    do 4 f_equal. lia.
Qed.

Lemma low_key f k : sized f → (k ≤ 16)%nat → low k f = key f mod 256 ^ N.of_nat k.
Proof.
  intros Hf. induction k as [|k IH]; intros Hk; simpl; [by rewrite N.mod_1_r|].
  rewrite IH by lia. unfold at_byte. rewrite byte_digit by (done || lia). rewrite N2Nat.id. unfold digit.
  rewrite Nat2N.inj_succ, N.pow_succ_r', (N.mul_comm 256). symmetry. apply N.Div0.mod_mul_r.
Qed.

Lemma key_low f : sized f → low 16 f = key f.
Proof.
  intros Hf. rewrite low_key by done. destruct Hf as (Hg & Hi & Hr). unfold key. apply N.mod_small.
  change (256 ^ N.of_nat 16) with (2 ^ 32 * (2 ^ 64 * 2 ^ 32)). nia.
Qed.

(** Passes from byte [k] on finish the sort of what is sorted below it. *)
Lemma sort_passes_ok l n k feedback scratch :
  (k + n = 16)%nat → Forall sized l →
  take (length l) feedback = Some <$> l → (length l ≤ length feedback)%nat → (length l ≤ length scratch)%nat →
  StronglySorted (λ x y, low k x ≤ low k y) l →
  ∃ feedback' scratch' l', sort_passes (N.of_nat <$> seq k n) (N.of_nat (length l)) feedback scratch =
      Done (feedback', scratch') ∧
    take (length l) feedback' = Some <$> l' ∧ l' ≡ₚ l ∧ StronglySorted (λ x y, low 16 x ≤ low 16 y) l' ∧
    (∀ v, filter (λ x, key x = v) l' = filter (λ x, key x = v) l) ∧
    let '(base, other) := if Nat.even n then (feedback, scratch) else (scratch, feedback) in
    length feedback' = length base ∧ length scratch' = length other ∧ ∀ i, (length l ≤ i)%nat → feedback' !! i = base !! i.
Proof.
  revert l k feedback scratch.
  induction n as [|n IH]; intros l k feedback scratch Hkn Hsized Hpre Hlf Hls Hs.
  - exists feedback, scratch, l. assert (k = 16%nat) as -> by lia. by split_and!.
  - cbn [seq]. rewrite fmap_cons. cbn [sort_passes].
    assert (∀ f, byte f (N.of_nat k) = Done (N.of_nat (at_byte k f))) as Hbyte by (intros f; apply byte_at; lia).
    assert (∀ f, (at_byte k f < 256)%nat) as Hd by (intros f; apply byte_at; lia).
    destruct (sort_pass_ok (N.of_nat k) (at_byte k) Hbyte Hd l feedback scratch Hpre Hls Hlf) as (sc & -> & Hsl & Hsc & Hrest).
    mred. set (l1 := buckets (at_byte k) l 256) in *.
    assert (l1 ≡ₚ l) as Hperm by (apply buckets_perm; intros; apply Hd).
    assert (length l1 = length l) as Hlen by by rewrite Hperm.
    destruct (IH l1 (S k) sc feedback) as (fb' & sc' & l' & Hrun & Hpre' & Hp & Hsort & Hstab & Hbase); try lia.
    + by rewrite Hperm.
    + by rewrite Hlen.
    + apply (buckets_sorted (at_byte k) (low k) (256 ^ N.of_nat k)); [intros x; apply low_lt; lia|done].
    + rewrite Hlen in Hrun, Hpre', Hbase. exists fb', sc', l'. split_and!; try done; [by rewrite Hp| |].
      2: { rewrite Nat.even_succ, <- Nat.negb_even. destruct (Nat.even n); simpl; destruct Hbase as (H1 & H2 & H3); split_and!; try congruence;
             intros i Hi; rewrite H3 by done; auto. }
      intros v. rewrite Hstab. apply buckets_filter; [|intros; apply Hd].
      intros x y Hx Hy Hkey. rewrite Forall_forall in Hsized. unfold at_byte.
      rewrite !byte_digit by (auto || lia). by rewrite Hkey.
Qed.

(** The whole sort; the cells past the records keep their contents. *)
Lemma flush_sort_ok l feedback scratch :
  Forall sized l → take (length l) feedback = Some <$> l → (length l ≤ length feedback)%nat → (length l ≤ length scratch)%nat →
  ∃ feedback' scratch' l', flush_feedback_sort (vlen l) feedback scratch = Done (feedback', scratch') ∧
    take (length l) feedback' = Some <$> l' ∧ l' ≡ₚ l ∧ StronglySorted (λ x y, key x ≤ key y) l' ∧
    (∀ v, filter (λ x, key x = v) l' = filter (λ x, key x = v) l) ∧
    length feedback' = length feedback ∧ length scratch' = length scratch ∧
    ∀ i, (length l ≤ i)%nat → feedback' !! i = feedback !! i.
Proof.
  intros Hsized Hpre Hlf Hls.
  destruct (sort_passes_ok l 16 0 feedback scratch) as (fb' & sc' & l' & Hrun & Hpre' & Hp & Hs & Hst & Hrest); try done.
  { clear. induction l; constructor; [done|]. by apply Forall_forall. }
  exists fb', sc', l'. simpl in Hrest. split_and!; try apply Hrest; try done. assert (Forall sized l') as Hsized' by by rewrite Hp.
  clear -Hs Hsized'. induction Hs as [|x l Hs IH Hx]; [constructor|]. apply Forall_cons in Hsized' as [Hxs Hsized].
  constructor; [by apply IH|]. rewrite Forall_forall in *. intros y Hy. specialize (Hx y Hy).
  rewrite !key_low in Hx; auto.
Qed.

(** (feedback order): the radix sort succeeds on any prefix of records and is a
    stable sort by reader, then incarnation, then granule: the result is a permutation
    of the prefix, in ascending order of the key, and records with the same key keep
    their relative order. *)
Theorem feedback_sort_stable l feedback scratch :
  Forall sized l → take (length l) feedback = Some <$> l →
  (length l ≤ length feedback)%nat → (length l ≤ length scratch)%nat →
  ∃ feedback' scratch' l', flush_feedback_sort (vlen l) feedback scratch = Done (feedback', scratch') ∧
    take (length l) feedback' = Some <$> l' ∧ l' ≡ₚ l ∧ StronglySorted (λ x y, key x ≤ key y) l' ∧
    ∀ v, filter (λ x, key x = v) l' = filter (λ x, key x = v) l.
Proof.
  intros Hsized Hpre Hlf Hls. destruct (flush_sort_ok l feedback scratch Hsized Hpre Hlf Hls) as (fb' & sc' & l' & ? & ? & ? & ? & ? & _).
  by exists fb', sc', l'.
Qed.

Definition sample (reader inc granule : N) : Feedback := mkFeedback reader inc (mkPageId (mkFileId 0 0 0) granule).
Definition sample_records : list Feedback := [sample 1 7 300; sample 0 9 2; sample 1 7 43].

Lemma feedback_sort_stable_witness :
  ∃ feedback' scratch' l',
    flush_feedback_sort (vlen sample_records) (Some <$> sample_records) (replicate 3 None) = Done (feedback', scratch') ∧
    take 3 feedback' = Some <$> l' ∧ l' ≡ₚ sample_records ∧ StronglySorted (λ x y, key x ≤ key y) l' ∧
    ∀ v, filter (λ x, key x = v) l' = filter (λ x, key x = v) sample_records.
Proof.
  apply (feedback_sort_stable sample_records (Some <$> sample_records) (replicate 3 None)).
  - repeat constructor.
  - reflexivity.
  - simpl. lia.
  - simpl. lia.
Defined.
End Feedback.
