(* ===== verification/Alignment.v ===== *)
(** * Byte alignments

    Models src/src/alignment.rs: an alignment is a non-zero power of two, and
    [check] accepts exactly its multiples. *)
From stdpp Require Import prelude.
From Stdlib Require Import NArith Lia.
From S2P Require Import Prelude.

Open Scope N_scope.

Module Alignment.

Record Alignment := mkAlignment { get : N }.

Record Unaligned := mkUnaligned {
  offset_bytes : N;
  alignment : Alignment;
}.

Definition new (bytes : N) : option Alignment :=
  if bytes =? 0 then None
  else if negb (is_power_of_two bytes) then None
  else Some (mkAlignment bytes).

(** [Ok] or the rejected offset with the alignment it missed. *)
Definition check (a : Alignment) (offset : N) : outcome (unit + Unaligned) :=
  assertb (is_power_of_two (get a));;
  Done (if N.land offset (get a - 1) =? 0 then inl tt else inr (mkUnaligned offset a)).

Lemma new_Some bytes a : new bytes = Some a ↔ a = mkAlignment bytes ∧ ∃ k, bytes = 2 ^ k.
Proof.
  unfold new. destruct (N.eqb_spec bytes 0) as [->|Hne].
  - split; [done|]. intros [_ [k Hk]]. symmetry in Hk. by apply N.pow_nonzero in Hk.
  - destruct (is_power_of_two bytes) eqn:Hp; simpl.
    + apply is_power_of_two_spec in Hp. naive_solver.
    + split; [done|]. intros [_ Hk]. apply is_power_of_two_spec in Hk. congruence.
Qed.

(** Construction accepts exactly the powers of two, and a constructed
    alignment's check never panics, accepts exactly its multiples and otherwise
    returns the rejected offset. *)
Theorem alignment_check_multiples bytes a offset :
  new bytes = Some a →
  (∃ k, bytes = 2 ^ k) ∧
  ((check a offset = Done (inl tt) ∧ N.divide bytes offset) ∨
   (check a offset = Done (inr (mkUnaligned offset a)) ∧ ¬ N.divide bytes offset)).
Proof.
  intros Hnew. apply new_Some in Hnew as (-> & k & ->). split; [eauto|]. unfold check. simpl.
  rewrite assertb_true by (apply is_power_of_two_spec; eauto). mred. rewrite land_mask.
  rewrite <- N.Lcm0.mod_divide. destruct (N.eqb_spec (offset mod 2 ^ k) 0); [by left|by right].
Qed.

Lemma alignment_check_multiples_witness :
  new 4096 = Some (mkAlignment 4096) ∧ check (mkAlignment 4096) 12288 = Done (inl tt).
Proof.
  split; [reflexivity|].
  destruct (alignment_check_multiples 4096 (mkAlignment 4096) 12288 eq_refl) as [_ [[H _]|[_ H]]]; [exact H|].
  exfalso. apply H. exists 3. reflexivity.
Defined.
End Alignment.
