(* ===== verification/WriteArena.v ===== *)
(** * The write staging arena

    Models [ArenaState] and [WriteSlot] of src/src/pool/write_arena.rs: a fixed array
    of granule-sized slots handed out by atomic free bits.  An allocation scans the
    bits with one atomic swap each, so concurrent scans interleave at every cell;
    [arena_step] is that interleaving together with releases.  The condition
    variable behind [wait_for_release] is not represented, only its waiter count. *)
From stdpp Require Import prelude list relations.
From Stdlib Require Import NArith Lia.
From S2P Require Import Prelude.

Open Scope N_scope.

Module WriteArena.

Record ArenaState := mkArena {
  free : list bool;
  granule : N;
  size : N;
  owner : N;
  waiters : N;
}.

Definition set_free (a : ArenaState) (l : list bool) : ArenaState :=
  mkArena l (granule a) (size a) (owner a) (waiters a).

Definition ISIZE_MAX : N := 2 ^ 63 - 1.

(** The layout needs a power-of-two alignment and a size within [isize::MAX]. *)
Definition try_preallocated (slot_count granule owner : N) : outcome ArenaState :=
  assertb (0 <? slot_count);;
  assertb (is_power_of_two granule);;
  span ← expect (checked_mul U64_MAX slot_count granule);
  assertb (span + (granule - 1) <=? ISIZE_MAX);;
  Done (mkArena (replicate (N.to_nat slot_count) true) granule span owner 0).

(** [cell.swap(false)] at [index]: whether the slot was free. *)
Definition claim_cell (a : ArenaState) (index : N) : outcome (ArenaState * bool) :=
  was_free ← vget (free a) index;
  l ← vset (free a) index false;
  Done (set_free a l, was_free).

(** The scan of [alloc_within], [n] cells from [index] on. *)
Fixpoint scan (a : ArenaState) (index limit : N) (n : nat) : outcome (ArenaState * option N) :=
  match n with
  | O => Done (a, None)
  | S n =>
      if limit <=? index then Done (a, None)
      else
        '(a, was_free) ← claim_cell a index;
        if was_free : bool then Done (a, Some index) else scan a (index + 1) limit n
  end.

Definition alloc_within (a : ArenaState) (limit : N) : outcome (ArenaState * option N) :=
  scan a 0 limit (length (free a)).
Definition alloc (a : ArenaState) : outcome (ArenaState * option N) :=
  assertb (vlen (free a) <=? U32_MAX);; alloc_within a (vlen (free a)).

Definition assert_owner (a : ArenaState) (o : N) : outcome unit := assertb (owner a =? o).

(** The offset in the arena of a source range of a slot. *)
Definition region (a : ArenaState) (slot source_offset len : N) : outcome N :=
  assertb (slot <? vlen (free a));;
  assertb (source_offset <=? granule a);;
  assertb (len <=? granule a - source_offset);;
  let offset := slot * granule a + source_offset in
  assertb (offset + len <=? size a);;
  Done offset.

(** [release], with whether a waiter is to be notified. *)
Definition release (a : ArenaState) (slot : N) : outcome (ArenaState * bool) :=
  assertb (slot <? vlen (free a));;
  was_free ← vget (free a) slot;
  l ← vset (free a) slot true;
  assertb (negb was_free);;
  Done (set_free a l, 0 <? waiters a).

(** ** Interleaved allocations *)

Record system := mkSystem {
  arena : ArenaState;
  scans : list (N * N);
  leases : list N;
}.

Inductive arena_step : system → system → Prop :=
  | arena_begin a ss ls limit : arena_step (mkSystem a ss ls) (mkSystem a ((0, limit) :: ss) ls)
  | arena_exhausted a ss1 index limit ss2 ls :
      limit ≤ index ∨ vlen (free a) ≤ index →
      arena_step (mkSystem a (ss1 ++ (index, limit) :: ss2) ls) (mkSystem a (ss1 ++ ss2) ls)
  | arena_claimed a ss1 index limit ss2 ls a' :
      index < limit → claim_cell a index = Done (a', true) →
      arena_step (mkSystem a (ss1 ++ (index, limit) :: ss2) ls) (mkSystem a' (ss1 ++ ss2) (index :: ls))
  | arena_busy a ss1 index limit ss2 ls a' :
      index < limit → claim_cell a index = Done (a', false) →
      arena_step (mkSystem a (ss1 ++ (index, limit) :: ss2) ls)
        (mkSystem a' (ss1 ++ (index + 1, limit) :: ss2) ls)
  | arena_release a ss ls1 slot ls2 a' notify :
      release a slot = Done (a', notify) →
      arena_step (mkSystem a ss (ls1 ++ slot :: ls2)) (mkSystem a' ss (ls1 ++ ls2)).

(** The taken bits are exactly the leases. *)
Record leased (s : system) : Prop := {
  ls_nodup : NoDup (leases s);
  ls_bits : ∀ i b, free (arena s) !! N.to_nat i = Some b → (b = false ↔ i ∈ leases s);
  ls_range : ∀ i, i ∈ leases s → i < vlen (free (arena s));
  ls_size : size (arena s) = vlen (free (arena s)) * granule (arena s);
}.

Lemma release_ok a slot :
  free a !! N.to_nat slot = Some false →
  release a slot = Done (set_free a (<[N.to_nat slot := true]> (free a)), 0 <? waiters a).
Proof.
  intros H. unfold release. pose proof (vget_lt _ _ _ H). rewrite assertb_true by by apply N.ltb_lt. mred.
  rewrite (proj2 (vget_Done _ _ _) H). mred. by rewrite vset_ok.
Qed.

Lemma lease_bit s i : leased s → i ∈ leases s → free (arena s) !! N.to_nat i = Some false.
Proof.
  intros Hl Hi. destruct (vget_ok _ _ (ls_range _ Hl i Hi)) as (b & _ & Hb).
  by rewrite Hb, (proj2 (ls_bits _ Hl i b Hb) Hi).
Qed.

Lemma arena_step_leased s s' : leased s → arena_step s s' → leased s'.
Proof.
  intros Hl Hstep. pose proof Hl as [Hnd Hbits Hrg Hsz].
  destruct Hstep as [ | |a ss1 index limit ss2 ls a' Hlt Hc|a ss1 index limit ss2 ls a' Hlt Hc|a ss ls1 slot ls2 a' n Hr];
    simpl in *; try done.
  - unfold claim_cell in Hc. inv_done. simpl.
    assert (index ∉ ls) as Hnew.
    { intros Hin. by apply (Hbits index true) in Hin. }
    split; simpl; rewrite ?vlen_insert; try done.
    + by apply NoDup_cons.
    + intros i b. destruct (decide (i = index)) as [->|Hne].
      * rewrite list_lookup_insert_eq by (by eapply lookup_lt_Some). intros [= <-]. set_solver.
      * rewrite list_lookup_insert_ne by lia. intros Hb. rewrite (Hbits i b Hb). set_solver.
    + intros i [->|Hi]%elem_of_cons; [by eapply vget_lt|by apply Hrg].
  - unfold claim_cell in Hc. inv_done. by rewrite list_insert_id.
  - rewrite release_ok in Hr by (apply (lease_bit _ slot Hl); simpl; set_solver). simplify_eq.
    assert (NoDup (slot :: ls1 ++ ls2)) as [Hs Hnd']%NoDup_cons by by rewrite Permutation_middle.
    split; simpl; rewrite ?vlen_insert; try done.
    + intros i b. destruct (decide (i = slot)) as [->|Hne].
      * rewrite list_lookup_insert_eq by (pose proof (Hrg slot ltac:(set_solver)) as Hlt; unfold vlen in Hlt; lia).
        intros [= <-]. by split.
      * rewrite list_lookup_insert_ne by lia. intros Hb. rewrite (Hbits i b Hb). set_solver.
    + intros i Hi. apply Hrg. set_solver.
Qed.

(** Only the multiset of leases matters. *)
Lemma leased_perm a ss ls ls' : ls ≡ₚ ls' → leased (mkSystem a ss ls) → leased (mkSystem a ss ls').
Proof.
  intros Hp [Hnd Hb Hr Hs]. simpl in *. split; simpl; try done.
  - by rewrite <- Hp.
  - intros i b Hi. rewrite <- Hp. by apply Hb.
  - intros i. rewrite <- Hp. apply Hr.
Qed.

Lemma leased_scans a ss ss' ls : leased (mkSystem a ss ls) → leased (mkSystem a ss' ls).
Proof. by intros []. Qed.

(** A claim takes the slot exactly when it was free. *)
Lemma claim_leased a ls slot :
  leased (mkSystem a [] ls) → slot < vlen (free a) →
  ∃ a' b, claim_cell a slot = Done (a', b) ∧ owner a' = owner a ∧ granule a' = granule a ∧
    leased (mkSystem a' [] ((if b : bool then [slot] else []) ++ ls)).
Proof.
  intros Hl Hlt. unfold claim_cell. destruct (vget_ok _ _ Hlt) as (b & Hget & Hb). rewrite Hget. mred. rewrite vset_ok by done. mred.
  eexists _, b. split; [done|]. split_and!; try done.
  destruct b.
  - eapply leased_scans. eapply (arena_step_leased (mkSystem a ([] ++ (slot, slot + 1) :: []) ls)); [by eapply leased_scans|].
    eapply arena_claimed; [lia|]. unfold claim_cell. rewrite Hget. mred. by rewrite vset_ok.
  - simpl. rewrite list_insert_id by done. by destruct a.
Qed.

Lemma region_ok s slot offset len :
  leased s → slot ∈ leases s → offset + len ≤ granule (arena s) →
  region (arena s) slot offset len = Done (slot * granule (arena s) + offset) ∧
  (slot + 1) * granule (arena s) ≤ size (arena s).
Proof.
  intros Hl Hslot Hfit. pose proof (ls_range _ Hl slot Hslot) as Hrg. pose proof (ls_size _ Hl) as Hsz.
  assert ((slot + 1) * granule (arena s) ≤ size (arena s)) by (rewrite Hsz; nia). split; [|done]. unfold region.
  rewrite (assertb_true (slot <? _)) by by apply N.ltb_lt. mred.
  rewrite (assertb_true (offset <=? _)) by (apply N.leb_le; lia). mred.
  rewrite (assertb_true (len <=? _)) by (apply N.leb_le; lia). mred.
  rewrite assertb_true by (apply N.leb_le; nia). done.
Qed.

Lemma preallocated_leased slots granule owner a :
  try_preallocated slots granule owner = Done a → leased (mkSystem a [] []).
Proof.
  unfold try_preallocated. intros H. inv_done. unfold checked_mul in *. case_match; simplify_eq.
  split; simpl; [apply NoDup_nil_2| |set_solver|].
  - intros i b [-> _]%lookup_replicate. set_solver.
  - unfold vlen. rewrite length_replicate. lia.
Qed.

Lemma reachable_leased a s slots granule owner :
  try_preallocated slots granule owner = Done a → rtc arena_step (mkSystem a [] []) s → leased s.
Proof.
  intros Ha. revert s. apply (rtc_ind_r leased); [by eapply preallocated_leased|].
  intros s1 s2 _ Hstep Hl. by eapply arena_step_leased.
Qed.

(** C39 (staging slots): however scans and releases interleave, no staging slot is leased
    twice, a lease can always be released, and any source range of a leased slot that
    fits the granule lies in the arena and inside that slot alone. *)
Theorem write_slots_exclusive slots granule_bytes owner a s slot offset len :
  try_preallocated slots granule_bytes owner = Done a → rtc arena_step (mkSystem a [] []) s →
  slot ∈ leases s → offset ≤ granule (arena s) → len ≤ granule (arena s) - offset →
  NoDup (leases s) ∧ (∃ a' notify, release (arena s) slot = Done (a', notify)) ∧
  ∃ start, region (arena s) slot offset len = Done start ∧
    slot * granule (arena s) ≤ start ∧ start + len ≤ (slot + 1) * granule (arena s) ∧
    start + len ≤ size (arena s).
Proof.
  intros Ha Hs Hslot Hoff Hlen. pose proof (reachable_leased _ _ _ _ _ Ha Hs) as Hl. pose proof Hl as [Hnd _ Hrg Hsz].
  split; [done|]. split; [rewrite release_ok by (by apply lease_bit); eauto|].
  destruct (region_ok s slot offset len Hl Hslot) as [Hr Hfit]; [lia|].
  exists (slot * granule (arena s) + offset). split_and!; [done|nia..].
Qed.

Lemma scan_spec a index limit n :
  (N.to_nat index + n = length (free a))%nat →
  ∃ a' o, scan a index limit n = Done (a', o) ∧
    match o with
    | Some i => index ≤ i < limit ∧ free a !! N.to_nat i = Some true ∧
        (∀ j, index ≤ j < i → free a !! N.to_nat j = Some false) ∧
        a' = set_free a (<[N.to_nat i := false]> (free a))
    | None => a' = a ∧ ∀ j, index ≤ j → j < limit → j < vlen (free a) → free a !! N.to_nat j = Some false
    end.
Proof.
  revert index. induction n as [|n IH]; intros index Hn; simpl.
  - eexists _, None. split_and!; try done. unfold vlen. intros. lia.
  - destruct (N.leb_spec limit index).
    { eexists _, None. split_and!; try done. intros. lia. }
    unfold claim_cell. destruct (vget_ok (free a) index) as (b & -> & Hb); [unfold vlen; lia|]. mred.
    rewrite vset_ok by (unfold vlen; lia). mred. destruct b.
    + eexists _, (Some index). split_and!; try done; [lia..|]. intros. lia.
    + rewrite list_insert_id by done. replace (set_free a (free a)) with a by by destruct a.
      destruct (IH (index + 1)) as (a' & o & -> & Ho); [lia|]. exists a', o. split; [done|].
      destruct o as [i|].
      * destruct Ho as (Hi & Ht & Hlow & ->). split_and!; try done; [lia..|]. intros j Hj.
        destruct (decide (j = index)) as [->|]; [done|]. apply Hlow. lia.
      * destruct Ho as [-> Hall]. split; [done|]. intros j Hj. destruct (decide (j = index)) as [->|]; [done|].
        intros. apply Hall; lia.
Qed.

(** Allocation.  With no interference an allocation takes the lowest free slot
    below its limit, marking it and nothing else, and returns nothing only when
    every slot below the limit is taken, leaving the arena as it was. *)
Theorem alloc_lowest_free a limit :
  ∃ a' o, alloc_within a limit = Done (a', o) ∧
    match o with
    | Some i => i < limit ∧ free a !! N.to_nat i = Some true ∧
        (∀ j, j < i → free a !! N.to_nat j = Some false) ∧
        a' = set_free a (<[N.to_nat i := false]> (free a))
    | None => a' = a ∧ ∀ j, j < limit → j < vlen (free a) → free a !! N.to_nat j = Some false
    end.
Proof.
  destruct (scan_spec a 0 limit (length (free a))) as (a' & o & Hs & Ho); [done|]. exists a', o. split; [done|].
  destruct o as [i|].
  - destruct Ho as ([_ ?] & ? & Hlow & ?). split_and!; try done. intros j Hj. apply Hlow. lia.
  - destruct Ho as [? Hall]. split; [done|]. intros j. apply Hall. lia.
Qed.

(** A reachable arena with one lease. *)
Definition demo_arena (l : list bool) : ArenaState := mkArena l 4096 8192 7 0.

Lemma write_slots_exclusive_witness :
  ∃ start, region (demo_arena [false; true]) 0 512 1024 = Done start ∧ start + 1024 ≤ 8192.
Proof.
  destruct (write_slots_exclusive 2 4096 7 (demo_arena [true; true]) (mkSystem (demo_arena [false; true]) [] [0]) 0 512 1024)
    as (_ & _ & start & Hr & _ & _ & Hle).
  - vm_compute. reflexivity.
  - eapply rtc_l; [apply (arena_begin _ _ _ 2)|].
    eapply rtc_l; [apply (arena_claimed (demo_arena [true; true]) [] 0 2 [] [] (demo_arena [false; true])); [lia|reflexivity]|].
    apply rtc_refl.
  - apply list_elem_of_singleton. reflexivity.
  - simpl. lia.
  - simpl. lia.
  - exists start. split; [exact Hr|exact Hle].
Defined.
End WriteArena.
