(* ===== verification/FileTable.v ===== *)
(** * The file table

    Models [FileTable] of src/src/driver.rs: generational file slots with a count of
    operations in flight, from reservation ([open]) through [close] to the retirement
    that follows the last completion ([finish_retire]).  [step] interleaves the calls
    the driver makes under its lock for any number of files and operations. *)
From stdpp Require Import prelude list relations.
From Stdlib Require Import NArith Lia.
From S2P Require Import Prelude Ids.

Open Scope N_scope.

Module FileTable.

Inductive FileState := Free | Open | Closing | Closed.

#[global] Instance FileState_eq_dec : EqDecision FileState.
Proof. solve_decision. Defined.

Record FileSlot := mkFileSlot {
  generation : N;
  state : FileState;
  inflight : N;
}.

Abbreviation FileTable := (list FileSlot).

Definition empty_slot : FileSlot := mkFileSlot 0 Free 0.

Definition try_with_capacity (capacity : N) : FileTable := replicate (N.to_nat capacity) empty_slot.

Definition unused (s : FileSlot) : bool := (generation s =? 0) && bool_decide (state s = Free).

(** [None] when a slot that would be cut off has been used. *)
Definition try_resized (t : FileTable) (capacity : N) : option FileTable :=
  let copied := Nat.min (N.to_nat capacity) (length t) in
  if forallb unused (drop copied t)
  then Some (take copied t ++ replicate (N.to_nat capacity - copied) empty_slot)
  else None.

Definition reusable (s : FileSlot) : bool :=
  match state s with Free | Closed => true | _ => false end.

(** [open], from slot [index] on. *)
Fixpoint open_from (t rest : FileTable) (index driver : N) : outcome (FileTable * option FileId) :=
  match rest with
  | [] => Done (t, None)
  | s :: rest =>
      if reusable s then
        assertb (generation s <? U32_MAX);;
        t ← vset t index (mkFileSlot (generation s + 1) Open 0);
        Done (t, if index <=? U32_MAX then Some (mkFileId driver index (generation s + 1)) else None)
      else open_from t rest (index + 1) driver
  end.

Definition open (t : FileTable) (driver : N) : outcome (FileTable * option FileId) :=
  open_from t t 0 driver.

Definition is_live (t : FileTable) (id : FileId) : outcome bool :=
  s ← vget t (fid_slot id);
  Done ((generation s =? fid_generation id) && bool_decide (state s = Open)).

(** The sum of the in-flight counts, a [u32]. *)
Fixpoint total_inflight (t : FileTable) : outcome N :=
  match t with
  | [] => Done 0
  | s :: t => n ← total_inflight t; add_ U32_MAX (inflight s) n
  end.

Definition is_closed (t : FileTable) (id : FileId) : outcome bool :=
  s ← vget t (fid_slot id);
  Done ((fid_generation id <? generation s) ||
        ((generation s =? fid_generation id) && bool_decide (state s = Closed))).

Definition on_submit (t : FileTable) (id : FileId) : outcome FileTable :=
  s ← vget t (fid_slot id);
  assertb (generation s =? fid_generation id);;
  assertb (inflight s <? U32_MAX);;
  vset t (fid_slot id) (mkFileSlot (generation s) (state s) (inflight s + 1)).

Definition on_complete (t : FileTable) (id : FileId) : outcome (FileTable * bool) :=
  s ← vget t (fid_slot id);
  assertb (generation s =? fid_generation id);;
  assertb (0 <? inflight s);;
  let n := inflight s - 1 in
  t ← vset t (fid_slot id) (mkFileSlot (generation s) (state s) n);
  Done (t, (n =? 0) && bool_decide (state s = Closing)).

Definition finish_retire (t : FileTable) (id : FileId) : outcome FileTable :=
  s ← vget t (fid_slot id);
  assertb (generation s =? fid_generation id);;
  assertb (bool_decide (state s = Closing));;
  assertb (inflight s =? 0);;
  vset t (fid_slot id) (mkFileSlot (generation s) Closed (inflight s)).

Definition close (t : FileTable) (id : FileId) : outcome (FileTable * bool) :=
  s ← vget t (fid_slot id);
  assertb (generation s =? fid_generation id);;
  assertb (bool_decide (state s = Open));;
  t ← vset t (fid_slot id) (mkFileSlot (generation s) Closing (inflight s));
  Done (t, inflight s =? 0).

Definition abort_open (t : FileTable) (id : FileId) : outcome FileTable :=
  s ← vget t (fid_slot id);
  assertb (generation s =? fid_generation id);;
  assertb (bool_decide (state s = Open));;
  assertb (inflight s =? 0);;
  vset t (fid_slot id) (mkFileSlot (generation s) Free (inflight s)).

(** ** The lifecycle *)

(** [reserved]: slots whose registration is under way; [handles]: live handles;
    [ops]: the files of the operations in flight; [due]: files whose retirement has
    been handed out and not finished. *)
Record system := mkSystem {
  table : FileTable;
  reserved : list FileId;
  handles : list FileId;
  ops : list FileId;
  due : list FileId;
}.

Section lifecycle.
Context (driver : N).

Inductive step : system → system → Prop :=
  | step_open t rs hs os ds t' id :
      open t driver = Done (t', Some id) →
      step (mkSystem t rs hs os ds) (mkSystem t' (id :: rs) hs os ds)
  | step_registered t rs1 id rs2 hs os ds :
      step (mkSystem t (rs1 ++ id :: rs2) hs os ds) (mkSystem t (rs1 ++ rs2) (id :: hs) os ds)
  | step_abort t rs1 id rs2 hs os ds t' :
      abort_open t id = Done t' →
      step (mkSystem t (rs1 ++ id :: rs2) hs os ds) (mkSystem t' (rs1 ++ rs2) hs os ds)
  | step_submit t rs hs os ds id t' :
      id ∈ hs → vlen os < U32_MAX → on_submit t id = Done t' →
      step (mkSystem t rs hs os ds) (mkSystem t' rs hs (id :: os) ds)
  | step_complete t rs hs os1 id os2 ds t' retire :
      on_complete t id = Done (t', retire) →
      step (mkSystem t rs hs (os1 ++ id :: os2) ds)
        (mkSystem t' rs hs (os1 ++ os2) (if retire : bool then id :: ds else ds))
  | step_close t rs hs1 id hs2 os ds t' retire :
      close t id = Done (t', retire) →
      step (mkSystem t rs (hs1 ++ id :: hs2) os ds)
        (mkSystem t' rs (hs1 ++ hs2) os (if retire : bool then id :: ds else ds))
  | step_retire t rs hs os ds1 id ds2 t' :
      finish_retire t id = Done t' →
      step (mkSystem t rs hs os (ds1 ++ id :: ds2)) (mkSystem t' rs hs os (ds1 ++ ds2)).

Definition initial (s : system) : Prop := ∃ capacity, s = mkSystem (try_with_capacity capacity) [] [] [] [].

(** The identity a slot currently stands for. *)
Definition current (i : N) (s : FileSlot) : FileId := mkFileId driver i (generation s).

Definition on_slot (i : N) (os : list FileId) : list FileId := filter (λ id, fid_slot id = i) os.

Definition slot_of (t : FileTable) (id : FileId) (P : FileSlot → Prop) : Prop :=
  ∃ s, t !! N.to_nat (fid_slot id) = Some s ∧ id = current (fid_slot id) s ∧ P s.

Record inv (s : system) : Prop := {
  i_reserved : ∀ id, id ∈ reserved s → slot_of (table s) id (λ f, state f = Open ∧ inflight f = 0);
  i_handles : ∀ id, id ∈ handles s → slot_of (table s) id (λ f, state f = Open);
  i_ops : ∀ id, id ∈ ops s → slot_of (table s) id (λ f, state f = Open ∨ state f = Closing);
  i_due : ∀ id, id ∈ due s → slot_of (table s) id (λ f, state f = Closing ∧ inflight f = 0);
  i_open : NoDup (reserved s ++ handles s);
  i_once : NoDup (due s);
  i_inflight : ∀ i f, table s !! N.to_nat i = Some f → inflight f = vlen (on_slot i (ops s));
  i_closing : ∀ i f, table s !! N.to_nat i = Some f → state f = Closing → inflight f = 0 → current i f ∈ due s;
  i_bound : vlen (ops s) ≤ U32_MAX;
}.

Lemma current_id id f st n :
  id = current (fid_slot id) f → current (fid_slot id) (mkFileSlot (fid_generation id) st n) = id.
Proof. unfold current. destruct id. simpl. congruence. Qed.

Lemma slot_of_same t id i f P :
  slot_of t id P → t !! N.to_nat i = Some f → fid_slot id = i → id = current i f ∧ P f.
Proof. intros (s & Hs & Hid & HP) Hf <-. simplify_eq. done. Qed.

Lemma slot_of_other t id i f P :
  slot_of t id P → fid_slot id ≠ i → slot_of (<[N.to_nat i := f]> t) id P.
Proof. intros (s & Hs & Hid & HP) Hne. exists s. by rewrite list_lookup_insert_ne by lia. Qed.

Lemma slot_of_new t i f (P : FileSlot → Prop) :
  i < vlen t → P f → slot_of (<[N.to_nat i := f]> t) (current i f) P.
Proof. intros Hi HP. exists f. unfold vlen in Hi. by rewrite list_lookup_insert_eq by (simpl; lia). Qed.

(** What an update of slot [i] from [f] to [f'] must respect. *)
Lemma files_store_inv t rs hs os ds i f f' rs' hs' os' ds' :
  inv (mkSystem t rs hs os ds) → t !! N.to_nat i = Some f →
  (∀ id, id ∈ rs' → fid_slot id ≠ i ∧ id ∈ rs ∨ id = current i f' ∧ state f' = Open ∧ inflight f' = 0) →
  (∀ id, id ∈ hs' → fid_slot id ≠ i ∧ id ∈ hs ∨ id = current i f' ∧ state f' = Open) →
  (∀ id, id ∈ os' → fid_slot id ≠ i ∧ id ∈ os ∨ id = current i f' ∧ (state f' = Open ∨ state f' = Closing)) →
  (∀ id, id ∈ ds' → fid_slot id ≠ i ∧ id ∈ ds ∨ id = current i f' ∧ state f' = Closing ∧ inflight f' = 0) →
  NoDup (rs' ++ hs') → NoDup ds' →
  inflight f' = vlen (on_slot i os') → (∀ j, j ≠ i → on_slot j os' = on_slot j os) →
  (∀ id, id ∈ ds → fid_slot id ≠ i → id ∈ ds') →
  (state f' = Closing → inflight f' = 0 → current i f' ∈ ds') → vlen os' ≤ U32_MAX →
  inv (mkSystem (<[N.to_nat i := f']> t) rs' hs' os' ds').
Proof.
  intros [H1 H2 H3 H4 H5 H6 H7 H8 H9] Hf Hrs Hhs Hos Hds Hnd1 Hnd2 Hin Hoth Hkeep Hcl Hb. simpl in *.
  assert (i < vlen t) as Hi by by eapply vget_lt.
  split; simpl; try done.
  - intros id [[Hne Hid]|(-> & ? & ?)]%Hrs; [apply slot_of_other; auto|by apply slot_of_new].
  - intros id [[Hne Hid]|(-> & ?)]%Hhs; [apply slot_of_other; auto|by apply slot_of_new].
  - intros id [[Hne Hid]|(-> & ?)]%Hos; [apply slot_of_other; auto|by apply slot_of_new].
  - intros id [[Hne Hid]|(-> & ? & ?)]%Hds; [apply slot_of_other; auto|by apply slot_of_new].
  - intros j g. destruct (decide (j = i)) as [->|Hne].
    + rewrite list_lookup_insert_eq by (unfold vlen in Hi; lia). by intros [= <-].
    + rewrite list_lookup_insert_ne, Hoth by lia. apply H7.
  - intros j g. destruct (decide (j = i)) as [->|Hne].
    + rewrite list_lookup_insert_eq by (unfold vlen in Hi; lia). by intros [= <-].
    + rewrite list_lookup_insert_ne by lia. intros Hg Hst Hz. apply Hkeep; [by apply H8|done].
Qed.

Lemma on_slot_cons i id os : on_slot i (id :: os) = if decide (fid_slot id = i) then id :: on_slot i os else on_slot i os.
Proof. unfold on_slot. by rewrite filter_cons. Qed.

Lemma on_slot_mid i os1 id os2 :
  on_slot i (os1 ++ id :: os2) =
    if decide (fid_slot id = i) then on_slot i os1 ++ id :: on_slot i os2 else on_slot i (os1 ++ os2).
Proof. unfold on_slot. rewrite !filter_app, filter_cons. by case_decide. Qed.

Section steps.
Context (t : FileTable) (rs hs os ds : list FileId).
Hypothesis (Hinv : inv (mkSystem t rs hs os ds)).

(** The members of each list that stand on a slot. *)
Lemma reserved_on i f id : t !! N.to_nat i = Some f → id ∈ rs → fid_slot id = i →
  id = current i f ∧ state f = Open ∧ inflight f = 0.
Proof. intros Hf Hid Hi. by apply (slot_of_same t id i f _ (i_reserved _ Hinv id Hid)). Qed.
Lemma handle_on i f id : t !! N.to_nat i = Some f → id ∈ hs → fid_slot id = i →
  id = current i f ∧ state f = Open.
Proof. intros Hf Hid Hi. by apply (slot_of_same t id i f _ (i_handles _ Hinv id Hid)). Qed.
Lemma op_on i f id : t !! N.to_nat i = Some f → id ∈ os → fid_slot id = i →
  id = current i f ∧ (state f = Open ∨ state f = Closing).
Proof. intros Hf Hid Hi. by apply (slot_of_same t id i f _ (i_ops _ Hinv id Hid)). Qed.
Lemma due_on i f id : t !! N.to_nat i = Some f → id ∈ ds → fid_slot id = i →
  id = current i f ∧ state f = Closing ∧ inflight f = 0.
Proof. intros Hf Hid Hi. by apply (slot_of_same t id i f _ (i_due _ Hinv id Hid)). Qed.

(** A slot in neither of the two active states has no operations. *)
Lemma idle_no_ops i f : t !! N.to_nat i = Some f → state f ≠ Open → state f ≠ Closing → on_slot i os = [].
Proof.
  intros Hf H1 H2. unfold on_slot. apply filter_none. intros id Hid Hi.
  destruct (op_on i f id Hf Hid Hi) as [_ [|]]; done.
Qed.

Lemma open_from_spec rest index :
  (∀ k, rest !! k = t !! (N.to_nat index + k)%nat) →
  (∀ f, f ∈ t → generation f < U32_MAX) → vlen t ≤ U32_MAX →
  open_from t rest index driver = Done (t, None) ∧ (∀ f, f ∈ rest → reusable f = false) ∨
  ∃ i f, t !! N.to_nat i = Some f ∧ reusable f = true ∧
    open_from t rest index driver = Done (<[N.to_nat i := mkFileSlot (generation f + 1) Open 0]> t,
      Some (mkFileId driver i (generation f + 1))).
Proof.
  intros Hrest Hgen Hlen. revert index Hrest. induction rest as [|f rest IH]; intros index Hrest; simpl.
  - left. split; [done|set_solver].
  - pose proof (Hrest 0%nat) as Hf. rewrite Nat.add_0_r in Hf. simpl in Hf. symmetry in Hf.
    destruct (reusable f) eqn:Hr.
    + right. exists index, f. split_and!; try done. assert (f ∈ t) as Hin by by eapply list_elem_of_lookup_2.
      rewrite assertb_true by (apply N.ltb_lt; by apply Hgen). mred. rewrite vset_ok by by eapply vget_lt. mred.
      assert (index < vlen t) by by eapply vget_lt. by rewrite (proj2 (N.leb_le index U32_MAX)) by lia.
    + destruct (IH (index + 1)) as [[? Hno]|Hsome].
      * intros k. pose proof (Hrest (S k)) as Hk. simpl in Hk. rewrite Hk. f_equal. lia.
      * left. split; [done|]. intros g [->|Hg]%elem_of_cons; auto.
      * by right.
Qed.

Lemma NoDup_split {A} (l1 : list A) x l2 : NoDup (l1 ++ x :: l2) → (x ∉ l1 ++ l2) ∧ NoDup (l1 ++ l2).
Proof. rewrite <- Permutation_middle. by intros [? ?]%NoDup_cons. Qed.

Lemma opened_inv i f :
  t !! N.to_nat i = Some f → reusable f = true →
  inv (mkSystem (<[N.to_nat i := mkFileSlot (generation f + 1) Open 0]> t)
    (mkFileId driver i (generation f + 1) :: rs) hs os ds) ∧
  (∀ id, id ∈ rs ++ hs ++ os ++ ds → fid_slot id ≠ i).
Proof.
  intros Hf Hr. assert (state f ≠ Open ∧ state f ≠ Closing) as [Hno Hnc] by (by unfold reusable in Hr; destruct (state f)).
  assert (∀ id, id ∈ rs ++ hs ++ os ++ ds → fid_slot id ≠ i) as Hfree.
  { intros id Hid Hi. rewrite !elem_of_app in Hid. destruct Hid as [Hid|[Hid|[Hid|Hid]]].
    - by destruct (reserved_on i f id Hf Hid Hi) as (_ & ? & _).
    - by destruct (handle_on i f id Hf Hid Hi).
    - by destruct (op_on i f id Hf Hid Hi) as [_ [|]].
    - by destruct (due_on i f id Hf Hid Hi) as (_ & ? & _). }
  split; [|done]. apply (files_store_inv t rs hs os ds i f); try done; simpl.
  - intros id [->|Hid]%elem_of_cons; [by right|left]. split; [apply Hfree; set_solver|done].
  - intros id Hid. left. split; [apply Hfree; set_solver|done].
  - intros id Hid. left. split; [apply Hfree; set_solver|done].
  - intros id Hid. left. split; [apply Hfree; set_solver|done].
  - apply NoDup_cons. split; [|apply (i_open _ Hinv)]. intros Hin.
    apply (Hfree (mkFileId driver i (generation f + 1))); [|done]. set_solver.
  - apply (i_once _ Hinv).
  - by rewrite (idle_no_ops i f Hf).
  - apply (i_bound _ Hinv).
Qed.

Lemma slot_at id (P : FileSlot → Prop) :
  slot_of t id P → ∃ f, vget t (fid_slot id) = Done f ∧ t !! N.to_nat (fid_slot id) = Some f ∧
    generation f = fid_generation id ∧ id = current (fid_slot id) f ∧ fid_slot id < vlen t ∧ P f.
Proof.
  intros (f & Hf & Hid & HP). exists f. split_and!; try done; [by apply vget_Done|by rewrite Hid|by eapply vget_lt].
Qed.

Lemma abort_advances rs1 id rs2 :
  rs = rs1 ++ id :: rs2 → ∃ t', abort_open t id = Done t' ∧ inv (mkSystem t' (rs1 ++ rs2) hs os ds).
Proof.
  intros Hrs. assert (id ∈ rs) as Hid by (rewrite Hrs; set_solver).
  destruct (slot_at id _ (i_reserved _ Hinv id Hid)) as (f & Hget & Hf & Hgen & Hcur & Hlt & Ho & Hz).
  unfold abort_open. rewrite Hget. mred. rewrite Hgen, Hz, !N.eqb_refl, bool_decide_eq_true_2 by done. mred. rewrite vset_ok by done.
  eexists. split; [done|]. pose proof (i_open _ Hinv) as Hnd. simpl in Hnd. rewrite Hrs, <- app_assoc in Hnd. simpl in Hnd.
  apply NoDup_split in Hnd as [Hnew Hnd]. rewrite app_assoc in Hnew, Hnd.
  assert (on_slot (fid_slot id) os = []) as Hnone.
  { apply nil_length_inv. pose proof (i_inflight _ Hinv _ _ Hf) as Hi. rewrite Hz in Hi. unfold vlen in Hi. simpl in Hi. lia. }
  apply (files_store_inv t rs hs os ds (fid_slot id) f); try done; simpl.
  - intros g Hg. left. assert (g ∈ rs) as Hgr by (rewrite Hrs; set_solver). split; [|done]. intros Hs.
    destruct (reserved_on _ f g Hf Hgr Hs) as [-> _]. rewrite <- Hcur in Hg. set_solver.
  - intros g Hg. left. split; [|done]. intros Hs. destruct (handle_on _ f g Hf Hg Hs) as [-> _]. rewrite <- Hcur in Hg. set_solver.
  - intros g Hg. left. split; [|done]. intros Hs. assert (g ∈ on_slot (fid_slot id) os) as Hin by (apply list_elem_of_filter; done).
    rewrite Hnone in Hin. by apply elem_of_nil in Hin.
  - intros g Hg. left. split; [|done]. intros Hs. destruct (due_on _ f g Hf Hg Hs) as (_ & ? & _). congruence.
  - apply (i_once _ Hinv).
  - by rewrite Hnone.
  - apply (i_bound _ Hinv).
Qed.

Lemma submit_advances id :
  id ∈ hs → id ∉ rs → vlen os < U32_MAX →
  ∃ t', on_submit t id = Done t' ∧ inv (mkSystem t' rs hs (id :: os) ds).
Proof.
  intros Hid Hnr Hlen. destruct (slot_at id _ (i_handles _ Hinv id Hid)) as (f & Hget & Hf & Hgen & Hcur & Hlt & Ho).
  pose proof (i_inflight _ Hinv _ _ Hf) as Hcount. simpl in Hcount.
  assert (vlen (on_slot (fid_slot id) os) ≤ vlen os) as Hle by (unfold vlen, on_slot; pose proof (length_filter (λ g, fid_slot g = fid_slot id) os); lia).
  unfold on_submit. rewrite Hget. mred. rewrite Hgen, N.eqb_refl. mred.
  rewrite (proj2 (N.ltb_lt (inflight f) U32_MAX)) by lia. rewrite vset_ok by done. eexists. split; [done|].
  apply (files_store_inv t rs hs os ds (fid_slot id) f); try done; simpl; rewrite ?Ho.
  - intros g Hg. left. split; [|done]. intros Hs. destruct (reserved_on _ f g Hf Hg Hs) as [-> _]. by rewrite <- Hcur in Hg.
  - intros g Hg. destruct (decide (fid_slot g = fid_slot id)) as [Hs|]; [|by left]. right.
    destruct (handle_on _ f g Hf Hg Hs) as [-> _]. unfold current. simpl. by rewrite Hgen.
  - intros g [->|Hg]%elem_of_cons.
    + right. split; [symmetry; by eapply current_id|by left].
    + destruct (decide (fid_slot g = fid_slot id)) as [Hs|]; [|by left]. right.
      destruct (op_on _ f g Hf Hg Hs) as [-> _]. unfold current. simpl. rewrite Hgen. split; [done|by left].
  - intros g Hg. left. split; [|done]. intros Hs. destruct (due_on _ f g Hf Hg Hs) as (_ & ? & _). congruence.
  - apply (i_open _ Hinv).
  - apply (i_once _ Hinv).
  - rewrite on_slot_cons, decide_True by done. unfold vlen in *. simpl. lia.
  - intros j Hj. by rewrite on_slot_cons, decide_False by congruence.
  - done.
  - unfold vlen in *. simpl. lia.
Qed.

Lemma complete_advances os1 id os2 :
  os = os1 ++ id :: os2 →
  ∃ t' retire, on_complete t id = Done (t', retire) ∧
    inv (mkSystem t' rs hs (os1 ++ os2) (if retire : bool then id :: ds else ds)) ∧
    (id ∈ ds → False).
Proof.
  intros Hos. assert (id ∈ os) as Hid by (rewrite Hos; set_solver).
  destruct (slot_at id _ (i_ops _ Hinv id Hid)) as (f & Hget & Hf & Hgen & Hcur & Hlt & Ho).
  pose proof (i_inflight _ Hinv _ _ Hf) as Hcount. simpl in Hcount.
  rewrite Hos, on_slot_mid, decide_True in Hcount by done. unfold vlen in Hcount. rewrite length_app in Hcount. simpl in Hcount.
  assert (inflight f - 1 = vlen (on_slot (fid_slot id) (os1 ++ os2))) as Hleft.
  { unfold vlen, on_slot. rewrite filter_app, length_app. unfold on_slot in Hcount. lia. }
  assert (id ∉ ds) as Hnd.
  { intros Hd. destruct (due_on _ f id Hf Hd eq_refl) as (_ & _ & Hz). lia. }
  unfold on_complete. rewrite Hget. mred. rewrite Hgen, N.eqb_refl. mred.
  rewrite (proj2 (N.ltb_lt 0 (inflight f))) by lia. rewrite vset_ok by done. mred.
  eexists _, _. split; [done|]. split; [|done].
  apply (files_store_inv t rs hs os ds (fid_slot id) f); try done; simpl.
  - intros g Hg. left. split; [|done]. intros Hs. destruct (reserved_on _ f g Hf Hg Hs) as (_ & _ & Hz). lia.
  - intros g Hg. destruct (decide (fid_slot g = fid_slot id)) as [Hs|]; [|by left]. right.
    destruct (handle_on _ f g Hf Hg Hs) as [-> ?]. unfold current. simpl. by rewrite Hgen.
  - intros g Hg. assert (g ∈ os) as Hgo by (rewrite Hos; set_solver).
    destruct (decide (fid_slot g = fid_slot id)) as [Hs|]; [|by left]. right.
    destruct (op_on _ f g Hf Hgo Hs) as [-> ?]. unfold current. simpl. by rewrite Hgen.
  - intros g Hg. assert (g ∈ ds → fid_slot g ≠ fid_slot id ∧ g ∈ ds) as Hold.
    { intros Hgd. split; [|done]. intros Hs. destruct (due_on _ f g Hf Hgd Hs) as (_ & _ & Hz). lia. }
    destruct (N.eqb_spec (inflight f - 1) 0) as [Hz|]; simpl in Hg; [|by left; auto].
    case_bool_decide as Hc; [|by left; auto]. apply elem_of_cons in Hg as [->|Hg]; [|by left; auto]. right.
    split_and!; try done; symmetry; by eapply current_id.
  - apply (i_open _ Hinv).
  - destruct (_ && _); [|apply (i_once _ Hinv)]. apply NoDup_cons. split; [done|apply (i_once _ Hinv)].
  - intros j Hj. by rewrite Hos, on_slot_mid, decide_False by congruence.
  - intros g Hg _. destruct (_ && _); set_solver.
  - intros Hc ->. simpl. rewrite bool_decide_eq_true_2 by done. simpl. apply elem_of_cons. left. by eapply current_id.
  - pose proof (i_bound _ Hinv) as Hb. simpl in Hb. rewrite Hos in Hb. unfold vlen in *. rewrite length_app in *. simpl in Hb. lia.
Qed.

Lemma close_advances hs1 id hs2 :
  hs = hs1 ++ id :: hs2 →
  ∃ t' retire, close t id = Done (t', retire) ∧
    inv (mkSystem t' rs (hs1 ++ hs2) os (if retire : bool then id :: ds else ds)) ∧ (id ∈ ds → False).
Proof.
  intros Hhs. assert (id ∈ hs) as Hid by (rewrite Hhs; set_solver).
  destruct (slot_at id _ (i_handles _ Hinv id Hid)) as (f & Hget & Hf & Hgen & Hcur & Hlt & Ho).
  assert (id ∉ ds) as Hnd.
  { intros Hd. destruct (due_on _ f id Hf Hd eq_refl) as (_ & Hz & _). congruence. }
  unfold close. rewrite Hget. mred. rewrite Hgen, N.eqb_refl, bool_decide_eq_true_2 by done. mred.
  rewrite vset_ok by done. mred. eexists _, _. split; [done|]. split; [|done].
  pose proof (i_open _ Hinv) as Hop. simpl in Hop. rewrite Hhs, app_assoc in Hop. apply NoDup_split in Hop as [Hnew Hop].
  rewrite <- app_assoc in Hnew, Hop.
  apply (files_store_inv t rs hs os ds (fid_slot id) f); try done; simpl.
  - intros g Hg. left. split; [|done]. intros Hs. destruct (reserved_on _ f g Hf Hg Hs) as [-> _]. rewrite <- Hcur in Hg. set_solver.
  - intros g Hg. left. assert (g ∈ hs) as Hgh by (rewrite Hhs; set_solver). split; [|done]. intros Hs.
    destruct (handle_on _ f g Hf Hgh Hs) as [-> _]. rewrite <- Hcur in Hg. set_solver.
  - intros g Hg. destruct (decide (fid_slot g = fid_slot id)) as [Hs|]; [|by left]. right.
    destruct (op_on _ f g Hf Hg Hs) as [-> _]. unfold current. simpl. rewrite Hgen. split; [done|by right].
  - intros g Hg. assert (g ∈ ds → fid_slot g ≠ fid_slot id ∧ g ∈ ds) as Hold.
    { intros Hgd. split; [|done]. intros Hs. destruct (due_on _ f g Hf Hgd Hs) as (_ & Hz & _). congruence. }
    destruct (N.eqb_spec (inflight f) 0) as [Hz|]; [|by left; auto].
    apply elem_of_cons in Hg as [->|Hg]; [|by left; auto]. right.
    split_and!; try done; symmetry; by eapply current_id.
  - destruct (_ =? _); [|apply (i_once _ Hinv)]. apply NoDup_cons. split; [done|apply (i_once _ Hinv)].
  - apply (i_inflight _ Hinv _ _ Hf).
  - intros g Hg _. destruct (_ =? _); set_solver.
  - intros _ ->. simpl. apply elem_of_cons. left. by eapply current_id.
  - apply (i_bound _ Hinv).
Qed.

Lemma retire_advances ds1 id ds2 :
  ds = ds1 ++ id :: ds2 →
  ∃ t', finish_retire t id = Done t' ∧ inv (mkSystem t' rs hs os (ds1 ++ ds2)) ∧ is_closed t' id = Done true.
Proof.
  intros Hds. assert (id ∈ ds) as Hid by (rewrite Hds; set_solver).
  destruct (slot_at id _ (i_due _ Hinv id Hid)) as (f & Hget & Hf & Hgen & Hcur & Hlt & Ho & Hz).
  unfold finish_retire. rewrite Hget. mred. rewrite Hgen, Hz, !N.eqb_refl, bool_decide_eq_true_2 by done. mred.
  rewrite vset_ok by done. eexists. split; [done|].
  assert (on_slot (fid_slot id) os = []) as Hnone.
  { apply nil_length_inv. pose proof (i_inflight _ Hinv _ _ Hf) as Hi. rewrite Hz in Hi. unfold vlen in Hi. simpl in Hi. lia. }
  pose proof (i_once _ Hinv) as Hon. simpl in Hon. rewrite Hds in Hon. apply NoDup_split in Hon as [Hnew Hon].
  split.
  - apply (files_store_inv t rs hs os ds (fid_slot id) f); try done; simpl.
    + intros g Hg. left. split; [|done]. intros Hs. destruct (reserved_on _ f g Hf Hg Hs) as (_ & ? & _). congruence.
    + intros g Hg. left. split; [|done]. intros Hs. destruct (handle_on _ f g Hf Hg Hs) as [_ ?]. congruence.
    + intros g Hg. left. split; [|done]. intros Hs. assert (g ∈ on_slot (fid_slot id) os) as Hin by (by apply list_elem_of_filter).
      rewrite Hnone in Hin. by apply elem_of_nil in Hin.
    + intros g Hg. left. assert (g ∈ ds) as Hgd by (rewrite Hds; set_solver). split; [|done]. intros Hs.
      destruct (due_on _ f g Hf Hgd Hs) as [-> _]. by rewrite <- Hcur in Hg.
    + apply (i_open _ Hinv).
    + by rewrite Hnone.
    + intros g Hg Hs. rewrite Hds in Hg. apply elem_of_app in Hg as [?|[->|?]%elem_of_cons]; set_solver.
    + apply (i_bound _ Hinv).
  - unfold is_closed. rewrite (proj2 (vget_Done _ _ _)) by (apply list_lookup_insert_eq; by eapply lookup_lt_Some).
    mred. simpl. by rewrite N.eqb_refl, orb_true_r.
Qed.
End steps.

Lemma registered_inv t rs1 id rs2 hs os ds :
  inv (mkSystem t (rs1 ++ id :: rs2) hs os ds) → inv (mkSystem t (rs1 ++ rs2) (id :: hs) os ds).
Proof.
  intros [H1 H2 H3 H4 H5 H6 H7 H8 H9]. simpl in *. split; simpl; try done.
  - intros g Hg. apply H1. set_solver.
  - intros g [->|Hg]%elem_of_cons; [|by apply H2]. destruct (H1 id) as (f & ? & ? & ? & _); [set_solver|]. by exists f.
  - rewrite <- app_assoc in H5. simpl in H5. rewrite <- app_assoc. rewrite <- Permutation_middle in H5.
    by rewrite <- Permutation_middle, <- Permutation_middle.
Qed.

(** Slot indexes fit their 32 bits and no generation is exhausted. *)
Definition roomy (t : FileTable) : Prop := vlen t ≤ U32_MAX ∧ ∀ f, f ∈ t → generation f < U32_MAX.

Lemma open_spec t rs hs os ds :
  inv (mkSystem t rs hs os ds) → roomy t →
  (open t driver = Done (t, None) ∧ ∀ f, f ∈ t → reusable f = false) ∨
  ∃ i f, t !! N.to_nat i = Some f ∧ reusable f = true ∧
    open t driver = Done (<[N.to_nat i := mkFileSlot (generation f + 1) Open 0]> t,
      Some (mkFileId driver i (generation f + 1))).
Proof. intros Hinv [Hlen Hgen]. by eapply open_from_spec. Qed.

Lemma open_Some t id t' :
  open t driver = Done (t', Some id) → ∃ i f, t !! N.to_nat i = Some f ∧ reusable f = true ∧
    t' = <[N.to_nat i := mkFileSlot (generation f + 1) Open 0]> t ∧ id = mkFileId driver i (generation f + 1).
Proof.
  unfold open. assert (∀ rest index, (∀ k, rest !! k = t !! (N.to_nat index + k)%nat) →
    open_from t rest index driver = Done (t', Some id) → ∃ i f, t !! N.to_nat i = Some f ∧ reusable f = true ∧
    t' = <[N.to_nat i := mkFileSlot (generation f + 1) Open 0]> t ∧ id = mkFileId driver i (generation f + 1)) as Hgo.
  { induction rest as [|f rest IH]; intros index Hrest; simpl; [done|]. destruct (reusable f) eqn:Hr.
    - intros H. inv_done. case_match; [|done]. simplify_eq. exists index, f. split_and!; try done.
      specialize (Hrest 0%nat). by rewrite Nat.add_0_r in Hrest.
    - apply IH. intros k. pose proof (Hrest (S k)) as Hk. simpl in Hk. rewrite Hk. f_equal. lia. }
  by apply Hgo.
Qed.

Lemma files_step_inv s s' : inv s → step s s' → inv s'.
Proof.
  intros Hinv Hstep. destruct Hstep as [t rs hs os ds t' id Ho|t rs1 id rs2 hs os ds|t rs1 id rs2 hs os ds t' Ho
    |t rs hs os ds id t' Hid Hlen Ho|t rs hs os1 id os2 ds t' retire Ho|t rs hs1 id hs2 os ds t' retire Ho|t rs hs os ds1 id ds2 t' Ho].
  - apply open_Some in Ho as (i & f & Hf & Hr & -> & ->). by apply opened_inv.
  - by apply registered_inv.
  - destruct (abort_advances _ _ _ _ _ Hinv rs1 id rs2 eq_refl) as (t1 & Heq & ?). rewrite Heq in Ho. by simplify_eq.
  - assert (id ∉ rs) as Hnr.
    { intros Hr. pose proof (i_open _ Hinv) as Hnd. simpl in Hnd. apply NoDup_app in Hnd as (_ & Hd & _). by apply (Hd id). }
    destruct (submit_advances _ _ _ _ _ Hinv id Hid Hnr Hlen) as (t1 & Heq & ?). rewrite Heq in Ho. by simplify_eq.
  - destruct (complete_advances _ _ _ _ _ Hinv os1 id os2 eq_refl) as (t1 & r1 & Heq & ? & _). rewrite Heq in Ho. by simplify_eq.
  - destruct (close_advances _ _ _ _ _ Hinv hs1 id hs2 eq_refl) as (t1 & r1 & Heq & ? & _). rewrite Heq in Ho. by simplify_eq.
  - destruct (retire_advances _ _ _ _ _ Hinv ds1 id ds2 eq_refl) as (t1 & Heq & ? & _). rewrite Heq in Ho. by simplify_eq.
Qed.

Lemma files_initial_inv s : initial s → inv s.
Proof.
  intros (cap & ->). split; simpl; try (intros ? []%elem_of_nil); try apply NoDup_nil_2; try done.
  - intros i f [-> _]%lookup_replicate. done.
  - intros i f [-> _]%lookup_replicate. done.
Qed.

Lemma files_reachable_inv s0 s : initial s0 → rtc step s0 s → inv s.
Proof.
  intros Hi. revert s. apply (rtc_ind_r inv); [by apply files_initial_inv|]. intros s1 s2 _ Hstep Hinv. by eapply files_step_inv.
Qed.

(** ** Facts the driver uses *)

(** Only the multiset of operations and of due files matters. *)
Lemma inv_perm t rs hs os os' ds ds' :
  os ≡ₚ os' → ds ≡ₚ ds' → inv (mkSystem t rs hs os ds) → inv (mkSystem t rs hs os' ds').
Proof.
  intros Hos Hds [H1 H2 H3 H4 H5 H6 H7 H8 H9]. simpl in *. split; simpl; try done.
  - intros id. rewrite <- Hos. apply H3.
  - intros id. rewrite <- Hds. apply H4.
  - by rewrite <- Hds.
  - intros i f Hf. rewrite (H7 i f Hf). unfold on_slot, vlen. by rewrite Hos.
  - intros i f. rewrite <- Hds. apply H8.
  - unfold vlen in *. by rewrite <- Hos.
Qed.

Lemma handle_own t rs hs os ds id : inv (mkSystem t rs hs os ds) → id ∈ hs → fid_driver id = driver ∧ is_live t id = Done true.
Proof.
  intros Hinv Hid. destruct (slot_at t id _ (i_handles _ Hinv id Hid)) as (f & Hget & Hf & Hgen & -> & Hlt & Ho).
  split; [done|]. unfold is_live. simpl in *. rewrite Hget. mred. by rewrite N.eqb_refl, bool_decide_eq_true_2.
Qed.

Lemma handle_not_reserved t rs hs os ds id : inv (mkSystem t rs hs os ds) → id ∈ hs → id ∉ rs.
Proof.
  intros Hinv Hid Hr. pose proof (i_open _ Hinv) as Hnd. simpl in Hnd. apply NoDup_app in Hnd as (_ & Hd & _). by apply (Hd id).
Qed.

(** The sum of the counts is the number of operations in flight. *)
Lemma total_inflight_range t os k :
  (∀ i f, t !! i = Some f → inflight f = vlen (on_slot (N.of_nat (k + i)) os)) → vlen os ≤ U32_MAX →
  total_inflight t = Done (vlen (filter (λ id, N.of_nat k ≤ fid_slot id < N.of_nat (k + length t)) os)).
Proof.
  intros Hin Hos. revert k Hin. induction t as [|f t IH]; intros k Hin; simpl.
  - rewrite filter_none; [done|]. intros id _. lia.
  - rewrite (IH (S k)) by (intros i g Hg; rewrite (Hin (S i) g Hg); do 3 f_equal; lia). mred.
    pose proof (Hin 0%nat f eq_refl) as Hf. rewrite Nat.add_0_r in Hf. rewrite Hf.
    assert (∀ l, vlen (on_slot (N.of_nat k) l) + vlen (filter (λ id, N.of_nat (S k) ≤ fid_slot id < N.of_nat (S k + length t)) l) =
      vlen (filter (λ id, N.of_nat k ≤ fid_slot id < N.of_nat (k + S (length t))) l)) as Hsum.
    { unfold on_slot, vlen. induction l as [|x l IHl]; [done|]. rewrite !filter_cons.
      repeat case_decide; cbn [length]; lia. }
    rewrite <- Hsum. apply add_ok. rewrite Hsum. unfold vlen in *.
    pose proof (length_filter (λ id, N.of_nat k ≤ fid_slot id < N.of_nat (k + S (length t))) os). lia.
Qed.

Lemma total_inflight_ok t rs hs os ds : inv (mkSystem t rs hs os ds) → total_inflight t = Done (vlen os).
Proof.
  intros Hinv. rewrite (total_inflight_range t os 0).
  - f_equal. rewrite filter_all; [done|]. intros id Hid. destruct (i_ops _ Hinv id Hid) as (f & Hf & _).
    simpl in Hf. apply lookup_lt_Some in Hf. lia.
  - intros i f Hf. simpl. rewrite <- (Nat2N.id i) in Hf. apply (i_inflight _ Hinv _ _ Hf).
  - apply (i_bound _ Hinv).
Qed.

Lemma vlen_close t id t' b : close t id = Done (t', b) → vlen t' = vlen t.
Proof. unfold close. intros H. inv_done. by rewrite vlen_insert. Qed.

(** ** Properties *)

(** (file lifecycle): in every reachable table the driver's calls succeed: a reservation
    can be aborted, an operation on a live handle submitted (below the operation
    limit), any operation in flight completed, a handle closed, a due file retired,
    after which [is_closed] answers [true]; the retirement of a closed file is handed
    out by exactly one of [close] and the completions, the one that finds no operation
    left, and never twice. *)
Theorem file_lifecycle_never_panics s0 s :
  initial s0 → rtc step s0 s →
  (∀ id, id ∈ reserved s → ∃ t, abort_open (table s) id = Done t) ∧
  (∀ id, id ∈ handles s → vlen (ops s) < U32_MAX →
     is_live (table s) id = Done true ∧ ∃ t, on_submit (table s) id = Done t) ∧
  (∀ id, id ∈ ops s → ∃ t retire, on_complete (table s) id = Done (t, retire) ∧ (id ∈ due s → retire = false)) ∧
  (∀ id, id ∈ handles s → ∃ t retire, close (table s) id = Done (t, retire) ∧
     (retire = true ↔ id ∉ ops s)) ∧
  (∀ id, id ∈ due s → ∃ t, finish_retire (table s) id = Done t ∧ is_closed t id = Done true) ∧
  NoDup (due s).
Proof.
  intros Hi Hs. pose proof (files_reachable_inv _ _ Hi Hs) as Hinv. destruct s as [t rs hs os ds]. simpl in *. split_and!.
  - intros id Hid. pose proof Hid as (rs1 & rs2 & ->)%list_elem_of_split.
    destruct (abort_advances _ _ _ _ _ Hinv rs1 id rs2 eq_refl) as (t1 & ? & _). eauto.
  - intros id Hid Hlen. destruct (slot_at t id _ (i_handles _ Hinv id Hid)) as (f & Hget & Hf & Hgen & Hcur & Hlt & Ho). split.
    + unfold is_live. rewrite Hget. mred. rewrite Hgen, N.eqb_refl. by rewrite bool_decide_eq_true_2.
    + assert (id ∉ rs) as Hnr.
      { intros Hr. pose proof (i_open _ Hinv) as Hnd. simpl in Hnd. apply NoDup_app in Hnd as (_ & Hd & _). by apply (Hd id). }
      destruct (submit_advances _ _ _ _ _ Hinv id Hid Hnr Hlen) as (t1 & ? & _). eauto.
  - intros id Hid. pose proof Hid as (os1 & os2 & ->)%list_elem_of_split.
    destruct (complete_advances _ _ _ _ _ Hinv os1 id os2 eq_refl) as (t1 & r1 & Heq & _ & Hno). exists t1, r1. split; [done|]. tauto.
  - intros id Hid. pose proof Hid as (hs1 & hs2 & ->)%list_elem_of_split.
    destruct (close_advances _ _ _ _ _ Hinv hs1 id hs2 eq_refl) as (t1 & r1 & Heq & _ & Hno). exists t1, r1. split; [done|].
    destruct (slot_at t id _ (i_handles _ Hinv id Hid)) as (f & Hget & Hf & Hgen & Hcur & Hlt & Ho).
    unfold close in Heq. rewrite Hget in Heq. mred in Heq. rewrite Hgen, N.eqb_refl, bool_decide_eq_true_2 in Heq by done.
    mred in Heq. rewrite vset_ok in Heq by done. mred in Heq. simplify_eq. rewrite N.eqb_eq, (i_inflight _ Hinv _ _ Hf).
    unfold vlen. simpl. split.
    + intros Hz Hin. assert (id ∈ on_slot (fid_slot id) os) as Hon by (by apply list_elem_of_filter).
      destruct (on_slot (fid_slot id) os); [by apply elem_of_nil in Hon|simpl in Hz; lia].
    + intros Hnin. unfold on_slot. rewrite (filter_none (λ g, fid_slot g = fid_slot id)); [done|].
      intros g Hg Hs'. destruct (op_on _ _ _ _ _ Hinv _ f g Hf Hg Hs') as [-> _]. by rewrite <- Hcur in Hg.
  - intros id Hid. pose proof Hid as (ds1 & ds2 & ->)%list_elem_of_split.
    destruct (retire_advances _ _ _ _ _ Hinv ds1 id ds2 eq_refl) as (t1 & ? & _ & ?). eauto.
  - apply (i_once _ Hinv).
Qed.

(** (generations): a reservation reuses only a slot without reservation, handle,
    operation in flight or pending retirement, under a generation that makes every
    earlier identity of that slot read as closed; it finds none only when every slot is
    in use. *)
Theorem open_never_aliases s0 s :
  initial s0 → rtc step s0 s → roomy (table s) →
  (open (table s) driver = Done (table s, None) ∧
     ∀ f, f ∈ table s → state f = Open ∨ state f = Closing) ∨
  ∃ t' id, open (table s) driver = Done (t', Some id) ∧
    (∀ old, old ∈ reserved s ++ handles s ++ ops s ++ due s → fid_slot old ≠ fid_slot id) ∧
    is_live t' id = Done true ∧
    (∀ old, fid_slot old = fid_slot id → fid_generation old < fid_generation id → is_closed t' old = Done true).
Proof.
  intros Hi Hs Hroom. pose proof (files_reachable_inv _ _ Hi Hs) as Hinv. destruct s as [t rs hs os ds]. simpl in *.
  destruct (open_spec t rs hs os ds Hinv Hroom) as [[Ho Hno]|(i & f & Hf & Hr & Ho)].
  - left. split; [done|]. intros f Hin%Hno. unfold reusable in Hin. destruct (state f); auto; done.
  - right. eexists _, _. split; [exact Ho|]. simpl.
    assert (<[N.to_nat i := mkFileSlot (generation f + 1) Open 0]> t !! N.to_nat i = Some (mkFileSlot (generation f + 1) Open 0))
      as Hnew by (apply list_lookup_insert_eq; by eapply lookup_lt_Some).
    split_and!.
    + apply (opened_inv _ _ _ _ _ Hinv i f Hf Hr).
    + unfold is_live. simpl. rewrite (proj2 (vget_Done _ _ _) Hnew). mred. simpl. by rewrite N.eqb_refl.
    + intros old Hold Hlt. unfold is_closed. rewrite Hold, (proj2 (vget_Done _ _ _) Hnew). mred. simpl.
      by rewrite (proj2 (N.ltb_lt _ _) Hlt).
Qed.
End lifecycle.

(** ** A run: open, submit, close under the operation *)

Definition demo_id : FileId := mkFileId 9 0 1.
Definition demo_closing : system := mkSystem [mkFileSlot 1 Closing 1; empty_slot] [] [] [demo_id] [].

Lemma demo_reachable : rtc (step 9) (mkSystem (try_with_capacity 2) [] [] [] []) demo_closing.
Proof.
  eapply rtc_l; [by eapply (step_open 9 _ [] [] [] [])|].
  eapply rtc_l; [apply (step_registered 9 _ [] _ [])|].
  eapply rtc_l; [eapply (step_submit 9 _ [] [demo_id] [] [] demo_id); [apply elem_of_cons; by left|done|vm_compute; reflexivity]|].
  eapply rtc_l; [eapply (step_close 9 _ [] [] demo_id []); vm_compute; reflexivity|].
  apply rtc_refl.
Qed.

Lemma file_lifecycle_never_panics_witness : ∃ t retire, on_complete (table demo_closing) demo_id = Done (t, retire).
Proof.
  destruct (file_lifecycle_never_panics 9 (mkSystem (try_with_capacity 2) [] [] [] []) demo_closing
    ltac:(exists 2; reflexivity) demo_reachable) as (_ & _ & H & _).
  destruct (H demo_id ltac:(apply list_elem_of_singleton; reflexivity)) as (t & r & Ht & _). exists t, r. exact Ht.
Defined.

Lemma open_never_aliases_witness :
  ∃ t' id, open (table demo_closing) 9 = Done (t', Some id) ∧ fid_slot demo_id ≠ fid_slot id.
Proof.
  destruct (open_never_aliases 9 (mkSystem (try_with_capacity 2) [] [] [] []) demo_closing
    ltac:(exists 2; reflexivity) demo_reachable) as [[H _]|(t' & id & H & Hne & _)].
  - split; [vm_compute; discriminate|]. intros f Hf. vm_compute in Hf.
    repeat (apply elem_of_cons in Hf as [->|Hf]; [reflexivity|]). by apply elem_of_nil in Hf.
  - exfalso. vm_compute in H. discriminate H.
  - exists t', id. split; [exact H|]. apply Hne. simpl. apply elem_of_cons. by left.
Defined.
End FileTable.
