(* ===== verification/Execute.v ===== *)
(** * Executing one operation: retries and short transfers

    Models the retry policy of src/src/driver.rs twice, as the source has it: the
    [execute] loop of the eager backends and [ring_progress] of the ring backend, with
    [OpContext::advance_write], [write_all_blocking] and their ring counterparts.  The
    backend itself (the [attempt] of an executor, a completion of the kernel ring) is a
    parameter.  The theorems: the loop ends within [requested_len + retry_bound + 1]
    attempts; a write reports success only when every byte of its buffer has been
    transferred, in order and without a gap; both policies give the same result on the
    same sequence of backend answers. *)
From stdpp Require Import prelude list.
From Stdlib Require Import NArith ZArith Lia.
From S2P Require Import Prelude Ids.

Open Scope N_scope.

Module Execute.

Definition EINTR : Z := 4.
Definition EIO : Z := 5.
Definition EBADF : Z := 9.
Definition EAGAIN : Z := 11.

Inductive OpKind := Read | Write | Fsync.

#[global] Instance OpKind_eq_dec : EqDecision OpKind.
Proof. solve_decision. Defined.

Definition is_read (k : OpKind) : bool := match k with Read => true | _ => false end.
Definition is_write (k : OpKind) : bool := match k with Write => true | _ => false end.

(** One backend attempt. *)
Inductive Attempt :=
  | ADone (bytes : N)
  | Failed (errno : Z)
  | Interrupted
  | WouldBlock.

(** The outcome of an operation: bytes, or an errno. *)
Abbreviation result := (N + Z)%type.

Inductive SyncMode := SyncData | SyncFull.

(** The destination of a read travels beside its context: an attempt writes to its
    memory and hands it back as it was. *)
Record OpContext := mkContext {
  cx_fd : FileId;
  cx_file_offset : N;
  cx_destination_offset : N;
  cx_requested_len : N;
  cx_write_buf : list N;
  cx_sync_mode : SyncMode;
}.

Definition context_read (fd : FileId) (file_offset destination_offset requested_len : N) : OpContext :=
  mkContext fd file_offset destination_offset requested_len [] SyncFull.

Definition context_write (fd : FileId) (file_offset source_offset : N) (write_buf : list N) : outcome OpContext :=
  assertb (vlen write_buf <=? U32_MAX);;
  Done (mkContext fd file_offset source_offset (vlen write_buf) write_buf SyncFull).

Definition context_fsync (fd : FileId) (mode : SyncMode) : OpContext := mkContext fd 0 0 0 [] mode.

Definition advance_write (c : OpContext) (bytes : N) : outcome OpContext :=
  assertb (0 <? bytes);;
  assertb (bytes <? cx_requested_len c);;
  file_offset ← add_ U64_MAX (cx_file_offset c) bytes;
  source_offset ← add_ U32_MAX (cx_destination_offset c) bytes;
  assertb (bytes <=? vlen (cx_write_buf c));;
  context_write (cx_fd c) file_offset source_offset (drop (N.to_nat bytes) (cx_write_buf c)).

(** ** The eager loop *)

Section execute.
Context {B : Type} (attempt : B → OpKind → OpContext → B * Attempt) (retry_bound : N).

(** The next context with its retries, or the result. *)
Definition execute_step (kind : OpKind) (logical_len : N) (next : OpContext) (retries : N) (a : Attempt) :
    outcome ((OpContext * N) + result) :=
  match a with
  | ADone bytes =>
      assertb (bytes <=? cx_requested_len next);;
      if negb (is_write kind) then Done (inr (inl bytes))
      else if bytes =? cx_requested_len next then Done (inr (inl logical_len))
      else if 0 <? bytes then c ← advance_write next bytes; Done (inl (c, retries))
      else if retry_bound <=? retries then Done (inr (inr EIO))
      else Done (inl (next, retries + 1))
  | Failed errno => Done (inr (inr errno))
  | Interrupted =>
      if retry_bound <=? retries then Done (inr (inr EINTR)) else Done (inl (next, retries + 1))
  | WouldBlock =>
      if negb (is_read kind) then Done (inr (inr EAGAIN))
      else if retry_bound <=? retries then Done (inr (inr EAGAIN))
      else Done (inl (next, retries + 1))
  end.

(** [execute]'s loop; [None] when [fuel] runs out. *)
Fixpoint execute_loop (fuel : nat) (b : B) (kind : OpKind) (logical_len : N) (next : OpContext) (retries : N) :
    outcome (B * option result) :=
  match fuel with
  | O => Done (b, None)
  | S fuel =>
      let '(b, a) := attempt b kind next in
      r ← execute_step kind logical_len next retries a;
      match r with
      | inr res => Done (b, Some res)
      | inl (next, retries) => execute_loop fuel b kind logical_len next retries
      end
  end.

Definition execute (fuel : nat) (b : B) (kind : OpKind) (context : OpContext) : outcome (B * option result) :=
  execute_loop fuel b kind (cx_requested_len context) context 0.

(** Attempts that always suffice. *)
Definition enough (context : OpContext) : nat := N.to_nat (cx_requested_len context + retry_bound + 1).

(** [write_all_blocking] once the file is known to be live. *)
Fixpoint write_all_loop (fuel : nat) (b : B) (fd : FileId) (buf : list N) (offset written : N) :
    outcome (B * option (unit + Z)) :=
  match fuel with
  | O => Done (b, None)
  | S fuel =>
      if vlen buf <=? written then Done (b, Some (inl tt))
      else
        let remaining := vlen buf - written in
        at_offset ← add_ U64_MAX offset written;
        context ← context_write fd at_offset written (drop (N.to_nat written) buf);
        '(b, r) ← execute (enough context) b Write context;
        match r with
        | Some (inl bytes) =>
            assertb (bytes <=? remaining);;
            assertb (0 <? bytes);;
            write_all_loop fuel b fd buf offset (written + bytes)
        | Some (inr errno) => Done (b, Some (inr errno))
        | None => Done (b, None)
        end
  end.

Definition write_all_blocking (fuel : nat) (b : B) (live : bool) (fd : FileId) (buf : list N) (offset : N) :
    outcome (B * option (unit + Z)) :=
  assertb (vlen buf <=? U32_MAX);;
  if negb live then Done (b, Some (inr EBADF)) else write_all_loop fuel b fd buf offset 0.

Definition fsync_blocking (b : B) (live : bool) (fd : FileId) (mode : SyncMode) : outcome (B * option (unit + Z)) :=
  if negb live then Done (b, Some (inr EBADF))
  else
    '(b, r) ← execute (enough (context_fsync fd mode)) b Fsync (context_fsync fd mode);
    Done (b, match r with
             | Some (inl _) => Some (inl tt)
             | Some (inr errno) => Some (inr errno)
             | None => None
             end).
End execute.

(** ** The ring policy *)

(** The part of a slab entry that [ring_progress] works on. *)
Record RingEntry := mkRing {
  re_kind : OpKind;
  re_file_offset : N;
  re_destination_offset : N;
  re_requested_len : N;
  re_retries : N;
}.

Inductive RingProgress := Resubmit | Terminal (r : result).

Definition ring_result (raw : Z) : result :=
  if (raw <? 0)%Z then inr (- raw)%Z else inl (Z.to_N raw).

Definition ring_should_retry (kind : OpKind) (raw : Z) (retries retry_bound : N) : bool :=
  if ((0 <=? raw)%Z || (retry_bound <=? retries)) then false
  else if (- raw =? EINTR)%Z then true
  else if (- raw =? EAGAIN)%Z then is_read kind
  else false.

Definition ring_progress (e : RingEntry) (raw : Z) (retry_bound : N) : outcome (RingEntry * RingProgress) :=
  let retried := mkRing (re_kind e) (re_file_offset e) (re_destination_offset e) (re_requested_len e) (re_retries e + 1) in
  if ring_should_retry (re_kind e) raw (re_retries e) retry_bound then Done (retried, Resubmit)
  else if negb (is_write (re_kind e)) || (raw <? 0)%Z then Done (e, Terminal (ring_result raw))
  else
    let bytes := Z.to_N raw in
    assertb (bytes <=? re_requested_len e);;
    if bytes =? re_requested_len e then
      n ← add_ U32_MAX (re_destination_offset e) bytes; Done (e, Terminal (inl n))
    else if bytes =? 0 then
      if retry_bound <=? re_retries e then Done (e, Terminal (inr EIO)) else Done (retried, Resubmit)
    else
      file_offset ← add_ U64_MAX (re_file_offset e) bytes;
      destination_offset ← add_ U32_MAX (re_destination_offset e) bytes;
      Done (mkRing (re_kind e) file_offset destination_offset (re_requested_len e - bytes) (re_retries e), Resubmit).

(** ** What a run transfers

    [logged] records every attempt; [chunks] are the transfers, each with the file
    offset it went to. *)

Definition logged {B} (attempt : B → OpKind → OpContext → B * Attempt)
    (b : B * list (OpContext * Attempt)) (kind : OpKind) (c : OpContext) :
    (B * list (OpContext * Attempt)) * Attempt :=
  let '(b', a) := attempt b.1 kind c in ((b', b.2 ++ [(c, a)]), a).

Definition chunk (e : OpContext * Attempt) : list (N * list N) :=
  match e.2 with ADone n => [(cx_file_offset e.1, take (N.to_nat n) (cx_write_buf e.1))] | _ => [] end.
Definition chunks (log : list (OpContext * Attempt)) : list (N * list N) := log ≫= chunk.
Definition written (log : list (OpContext * Attempt)) : list N := concat (snd <$> chunks log).

(** Each transfer starts where the one before it ended. *)
Fixpoint contiguous (offset : N) (l : list (N * list N)) : Prop :=
  match l with
  | [] => True
  | (o, bs) :: l => o = offset ∧ contiguous (offset + vlen bs) l
  end.

Section runs.
Context {B : Type} (attempt : B → OpKind → OpContext → B * Attempt) (retry_bound : N).
Hypothesis (honest : ∀ b kind c b' n, attempt b kind c = (b', ADone n) → n ≤ cx_requested_len c).

Lemma chunks_cons e log : chunks (e :: log) = chunk e ++ chunks log.
Proof. done. Qed.

Lemma written_cons e log : written (e :: log) = concat (snd <$> chunk e) ++ written log.
Proof. unfold written. by rewrite chunks_cons, fmap_app, concat_app. Qed.

(** A run of the write loop from any point of it. *)
Definition write_run (logical : N) (offset : N) (rest : list N) (log : list (OpContext * Attempt)) (r : result) : Prop :=
  contiguous offset (chunks log) ∧ (∃ m, written log = take m rest) ∧
  match r with inl n => n = logical ∧ written log = rest | inr _ => True end.

Lemma write_run_stop logical offset rest c a r :
  chunk (c, a) = [] → (∀ n, r ≠ inl n) → write_run logical offset rest [(c, a)] r.
Proof.
  intros Hc Hr. unfold write_run, written. rewrite chunks_cons, Hc. simpl. split_and!; [done|by exists 0%nat|].
  destruct r; [by edestruct Hr|done].
Qed.

Lemma write_run_quiet logical offset rest c a log r :
  chunk (c, a) = [] → write_run logical offset rest log r → write_run logical offset rest ((c, a) :: log) r.
Proof. intros Hc. unfold write_run. by rewrite written_cons, chunks_cons, Hc. Qed.

Lemma advance_write_ok c n rest :
  cx_write_buf c = rest → cx_requested_len c = vlen rest → vlen rest ≤ U32_MAX → 0 < n < vlen rest →
  cx_file_offset c + vlen rest ≤ U64_MAX → cx_destination_offset c + vlen rest ≤ U32_MAX →
  advance_write c n = Done (mkContext (cx_fd c) (cx_file_offset c + n) (cx_destination_offset c + n)
    (vlen rest - n) (drop (N.to_nat n) rest) SyncFull).
Proof.
  intros Hbuf Hlen H32 Hn Hoff Hdst. unfold advance_write. rewrite (assertb_true (0 <? n)) by (apply N.ltb_lt; lia). mred.
  rewrite Hlen, (assertb_true (n <? _)) by (apply N.ltb_lt; lia). mred. rewrite add_ok by lia. mred. rewrite add_ok by lia. mred.
  rewrite Hbuf, (assertb_true (n <=? _)) by (apply N.leb_le; lia). mred. unfold context_write.
  assert (vlen (drop (N.to_nat n) rest) = vlen rest - n) as -> by (unfold vlen; rewrite length_drop; lia).
  rewrite assertb_true by (apply N.leb_le; lia). done.
Qed.

Lemma execute_write_run fuel b log logical next retries rest :
  cx_write_buf next = rest → cx_requested_len next = vlen rest → vlen rest ≤ U32_MAX →
  cx_file_offset next + vlen rest ≤ U64_MAX → cx_destination_offset next + vlen rest ≤ U32_MAX →
  retries ≤ retry_bound → (N.to_nat (vlen rest + (retry_bound - retries)) < fuel)%nat →
  ∃ b' log' r, execute_loop (logged attempt) retry_bound fuel (b, log) Write logical next retries =
      Done ((b', log ++ log'), Some r) ∧
    (length log' ≤ N.to_nat (vlen rest + (retry_bound - retries)) + 1)%nat ∧
    write_run logical (cx_file_offset next) rest log' r.
Proof.
  revert b log next retries rest. induction fuel as [|fuel IH]; intros b log next retries rest Hbuf Hlen H32 Hoff Hdst Hret Hfuel; [lia|].
  simpl. unfold logged at 1. simpl. destruct (attempt b Write next) as [b1 a] eqn:Ha.
  assert (∀ r, (∀ n, r ≠ inl n) → chunk (next, a) = [] →
    ∃ b' log' r', Done (A := (B * list (OpContext * Attempt)) * option result) ((b1, log ++ [(next, a)]), Some r) = Done ((b', log ++ log'), Some r') ∧
      (length log' ≤ N.to_nat (vlen rest + (retry_bound - retries)) + 1)%nat ∧
      write_run logical (cx_file_offset next) rest log' r') as Hstop.
  { intros r Hr Hc. exists b1, [(next, a)], r. split; [done|]. split; [simpl; lia|]. by apply write_run_stop. }
  assert (chunk (next, a) = [] ∨ (a = ADone 0 ∧ rest ≠ []) → retries < retry_bound →
    ∃ b' log' r', execute_loop (logged attempt) retry_bound fuel (b1, log ++ [(next, a)]) Write logical next (retries + 1) =
        Done ((b', log ++ log'), Some r') ∧
      (length log' ≤ N.to_nat (vlen rest + (retry_bound - retries)) + 1)%nat ∧
      write_run logical (cx_file_offset next) rest log' r') as Hretry.
  { intros Hc Hlt. destruct (IH b1 (log ++ [(next, a)]) next (retries + 1) rest) as (b' & log' & r' & -> & Hl & Hw); [done..|lia|lia|].
    exists b', ((next, a) :: log'), r'. rewrite <- app_assoc. split; [done|]. split; [simpl; lia|].
    destruct Hc as [Hc|[-> Hne]]; [by apply write_run_quiet|]. unfold write_run in *.
    rewrite written_cons, chunks_cons. simpl.
    change (N.to_nat 0) with 0%nat. rewrite take_0. change (vlen (@nil N)) with 0. rewrite N.add_0_r.
    destruct Hw as (? & ? & ?). by split_and!. }
  destruct a as [n|errno| |]; unfold execute_step; mred.
  - pose proof (honest _ _ _ _ _ Ha) as Hn. rewrite (proj2 (N.leb_le n _) Hn). simpl.
    destruct (N.eqb_spec n (cx_requested_len next)) as [->|Hne].
    + exists b1, [(next, ADone (cx_requested_len next))], (inl logical). split; [done|]. split; [simpl; lia|].
      unfold write_run, written. rewrite chunks_cons. simpl. rewrite Hbuf, Hlen. unfold vlen. rewrite Nat2N.id, firstn_all, app_nil_r.
      split_and!; try done. exists (length rest). by rewrite firstn_all.
    + destruct (N.ltb_spec 0 n) as [Hpos|Hz].
      * rewrite (advance_write_ok next n rest) by (done || lia). mred.
        assert (vlen (drop (N.to_nat n) rest) = vlen rest - n) as Hdl by (unfold vlen; rewrite length_drop; lia).
        destruct (IH b1 (log ++ [(next, ADone n)]) (mkContext (cx_fd next) (cx_file_offset next + n) (cx_destination_offset next + n)
          (vlen rest - n) (drop (N.to_nat n) rest) SyncFull) retries (drop (N.to_nat n) rest))
          as (b' & log' & r' & -> & Hl & Hc & (m & Hm) & Hr); simpl; try done; try lia.
        exists b', ((next, ADone n) :: log'), r'. rewrite <- app_assoc. split; [done|]. split; [simpl; lia|].
        unfold write_run. rewrite written_cons, chunks_cons. simpl. rewrite Hbuf, app_nil_r.
        assert (vlen (take (N.to_nat n) rest) = n) as Htl by (unfold vlen; rewrite length_take; unfold vlen in *; lia).
        rewrite Htl. split_and!; try done.
        -- exists (N.to_nat n + m)%nat. rewrite Hm. by rewrite take_take_drop.
        -- destruct r'; [|done]. destruct Hr as [-> ->]. split; [done|]. apply take_drop.
      * assert (n = 0) as -> by lia. assert (rest ≠ []) as Hrest by (intros ->; apply Hne; rewrite Hlen; done).
        destruct (N.leb_spec retry_bound retries) as [Hge|Hlt]; [|by apply Hretry; [right|]].
        exists b1, [(next, ADone 0)], (inr EIO). split; [done|]. split; [simpl; lia|].
        unfold write_run. rewrite written_cons, chunks_cons. simpl. split_and!; try done. by exists 0%nat.
  - by apply Hstop.
  - destruct (N.leb_spec retry_bound retries); [by apply Hstop|apply Hretry; [by left|lia]].
  - simpl. by apply Hstop.
Qed.

(** Reads and fsyncs only retry. *)
Lemma execute_other_run fuel b log kind logical next retries :
  is_write kind = false → retries ≤ retry_bound → (N.to_nat (retry_bound - retries) < fuel)%nat →
  ∃ b' log' r, execute_loop (logged attempt) retry_bound fuel (b, log) kind logical next retries =
      Done ((b', log ++ log'), Some r) ∧
    (length log' ≤ N.to_nat (retry_bound - retries) + 1)%nat ∧
    (∀ e, e ∈ log' → e.1 = next) ∧
    match r with inl n => last log' = Some (next, ADone n) ∧ n ≤ cx_requested_len next | inr _ => True end.
Proof.
  intros Hk. revert b log retries. induction fuel as [|fuel IH]; intros b log retries Hret Hfuel; [lia|].
  simpl. unfold logged at 1. simpl. destruct (attempt b kind next) as [b1 a] eqn:Ha.
  assert (retries < retry_bound →
    ∃ b' log' r', execute_loop (logged attempt) retry_bound fuel (b1, log ++ [(next, a)]) kind logical next (retries + 1) =
        Done ((b', log ++ log'), Some r') ∧ (length log' ≤ N.to_nat (retry_bound - retries) + 1)%nat ∧
      (∀ e, e ∈ log' → e.1 = next) ∧
      match r' with inl n => last log' = Some (next, ADone n) ∧ n ≤ cx_requested_len next | inr _ => True end) as Hretry.
  { intros Hlt. destruct (IH b1 (log ++ [(next, a)]) (retries + 1)) as (b' & log' & r' & -> & Hl & Hall & Hr); [lia..|].
    exists b', ((next, a) :: log'), r'. rewrite <- app_assoc. split; [done|]. split; [simpl; lia|]. split.
    - intros e [->|He]%elem_of_cons; [done|by apply Hall].
    - destruct r'; [|done]. destruct Hr as [Hr ?]. rewrite last_cons, Hr. done. }
  assert (∀ r, match r with inl n => a = ADone n ∧ n ≤ cx_requested_len next | inr _ => True end →
    ∃ b' log' r', Done (A := (B * list (OpContext * Attempt)) * option result) ((b1, log ++ [(next, a)]), Some r) = Done ((b', log ++ log'), Some r') ∧
      (length log' ≤ N.to_nat (retry_bound - retries) + 1)%nat ∧ (∀ e, e ∈ log' → e.1 = next) ∧
      match r' with inl n => last log' = Some (next, ADone n) ∧ n ≤ cx_requested_len next | inr _ => True end) as Hstop.
  { intros r Hr. exists b1, [(next, a)], r. split; [done|]. split; [simpl; lia|]. split.
    - by intros e ->%list_elem_of_singleton.
    - destruct r; [|done]. destruct Hr as [-> ?]. done. }
  unfold execute_step. destruct a as [n|errno| |]; mred.
  - pose proof (honest _ _ _ _ _ Ha) as Hn. rewrite (proj2 (N.leb_le n _) Hn), Hk. simpl. by apply Hstop.
  - by apply Hstop.
  - destruct (N.leb_spec retry_bound retries); [by apply Hstop|by apply Hretry].
  - destruct (is_read kind); simpl; [|by apply Hstop].
    destruct (N.leb_spec retry_bound retries); [by apply Hstop|by apply Hretry].
Qed.

(** The log does not change the run. *)
Lemma loop_logged fuel b log kind logical next retries :
  (rr ← execute_loop (logged attempt) retry_bound fuel (b, log) kind logical next retries; Done (rr.1.1, rr.2)) =
    execute_loop attempt retry_bound fuel b kind logical next retries.
Proof.
  revert b log next retries. induction fuel as [|fuel IH]; intros b log next retries; [done|]. simpl. unfold logged at 1. simpl.
  destruct (attempt b kind next) as [b1 a]. destruct (execute_step _ _ _ _ _ _) as [[[c r]|r]|]; mred; [apply IH|done..].
Qed.

(** Any operation ends, with at most the bytes it asked for. *)
Lemma execute_total b kind c :
  (kind = Write → cx_requested_len c = vlen (cx_write_buf c) ∧ vlen (cx_write_buf c) ≤ U32_MAX ∧
     cx_file_offset c + vlen (cx_write_buf c) ≤ U64_MAX ∧ cx_destination_offset c + vlen (cx_write_buf c) ≤ U32_MAX) →
  ∃ b' r, execute attempt retry_bound (enough retry_bound c) b kind c = Done (b', Some r) ∧
    match r with inl n => n ≤ cx_requested_len c | inr _ => True end.
Proof.
  intros Hc. unfold execute. rewrite <- (loop_logged _ _ []). destruct (decide (kind = Write)) as [->|Hk].
  - destruct (Hc eq_refl) as (H1 & H2 & H3 & H4).
    destruct (execute_write_run (enough retry_bound c) b [] (cx_requested_len c) c 0 (cx_write_buf c))
      as (b' & log & r & -> & _ & _ & _ & Hr); try done; [lia|unfold enough; lia|].
    exists b', r. split; [done|]. destruct r; [|done]. by destruct Hr as [-> _].
  - assert (is_write kind = false) as Hw by by destruct kind.
    destruct (execute_other_run (enough retry_bound c) b [] kind (cx_requested_len c) c 0 Hw)
      as (b' & log & r & -> & _ & _ & Hr); [lia|unfold enough; lia|].
    exists b', r. split; [done|]. destruct r; [|done]. by destruct Hr as [_ ?].
Qed.

(** C37 (complete writes): against any backend that reports no more bytes than asked, a
    write ends within [len + retry_bound + 1] attempts; the bytes it transferred are a
    prefix of the buffer, laid out in the file in order and without a gap, and a
    reported success means the whole buffer, with its length as the count. *)
Theorem write_executes_completely b fd offset source buf :
  vlen buf ≤ U32_MAX → offset + vlen buf ≤ U64_MAX → source + vlen buf ≤ U32_MAX →
  ∃ context b' log r,
    context_write fd offset source buf = Done context ∧
    execute (logged attempt) retry_bound (enough retry_bound context) (b, []) Write context = Done ((b', log), Some r) ∧
    N.of_nat (length log) ≤ vlen buf + retry_bound + 1 ∧
    contiguous offset (chunks log) ∧ (∃ m, written log = take m buf) ∧
    match r with inl n => n = vlen buf ∧ written log = buf | inr _ => True end.
Proof.
  intros H32 Hoff Hsrc. unfold context_write. rewrite assertb_true by by apply N.leb_le. mred.
  destruct (execute_write_run (enough retry_bound (mkContext fd offset source (vlen buf) buf SyncFull)) b [] (vlen buf)
    (mkContext fd offset source (vlen buf) buf SyncFull) 0 buf) as (b' & log & r & Hrun & Hlen & Hc & Hm & Hr);
    simpl; try done; try lia; [unfold enough; simpl; lia|].
  eexists _, b', log, r. split; [done|]. split; [exact Hrun|]. split; [lia|]. done.
Qed.

(** (Bounded retries): against such a backend a read or an fsync ends within
    [retry_bound + 1] attempts, all with the same parameters, and a reported count is
    the one of the last attempt. *)
Theorem transient_failures_bounded b kind context :
  kind ≠ Write →
  ∃ b' log r,
    execute (logged attempt) retry_bound (enough retry_bound context) (b, []) kind context = Done ((b', log), Some r) ∧
    N.of_nat (length log) ≤ retry_bound + 1 ∧ (∀ e, e ∈ log → e.1 = context) ∧
    match r with inl n => last log = Some (context, ADone n) ∧ n ≤ cx_requested_len context | inr _ => True end.
Proof.
  intros Hk. assert (is_write kind = false) as Hw by by destruct kind.
  destruct (execute_other_run (enough retry_bound context) b [] kind (cx_requested_len context) context 0 Hw)
    as (b' & log & r & Hrun & Hlen & Hall & Hr); [lia|unfold enough; lia|].
  exists b', log, r. split; [exact Hrun|]. split; [lia|]. done.
Qed.

(** Blocking writes.  [write_all_blocking] on a live file never panics and ends; it
    reports success only after the whole buffer has been transferred, in order and
    without a gap, and otherwise the first error, a prefix having been transferred. *)
Theorem write_all_blocking_total b fd offset buf :
  vlen buf ≤ U32_MAX → offset + vlen buf ≤ U64_MAX →
  ∃ b' log r,
    write_all_blocking (logged attempt) retry_bound 2 (b, []) true fd buf offset = Done ((b', log), Some r) ∧
    contiguous offset (chunks log) ∧ (∃ m, written log = take m buf) ∧
    match r with inl _ => written log = buf | inr _ => True end.
Proof.
  intros H32 Hoff. unfold write_all_blocking. rewrite (assertb_true (vlen buf <=? U32_MAX)) by by apply N.leb_le. mred.
  cbn [negb write_all_loop]. destruct (N.leb_spec (vlen buf) 0) as [Hz|Hpos].
  - assert (buf = []) as -> by (destruct buf; [done|unfold vlen in Hz; simpl in Hz; lia]).
    eexists b, [], _. split; [done|]. split_and!; try done. by exists 0%nat.
  - rewrite add_ok by lia. mred. rewrite N.add_0_r. change (drop (N.to_nat 0) buf) with buf.
    unfold context_write. rewrite (assertb_true (vlen buf <=? U32_MAX)) by by apply N.leb_le. mred.
    destruct (execute_write_run (enough retry_bound (mkContext fd offset 0 (vlen buf) buf SyncFull)) b [] (vlen buf)
      (mkContext fd offset 0 (vlen buf) buf SyncFull) 0 buf) as (b' & log & r & Hrun & Hlen & Hc & Hm & Hr);
      simpl; try done; try lia; [unfold enough; simpl; lia|].
    unfold execute. simpl cx_requested_len. rewrite Hrun. mred. destruct r as [n|errno].
    + destruct Hr as [-> Hr]. rewrite N.sub_0_r, (proj2 (N.leb_le (vlen buf) (vlen buf))) by lia.
      rewrite (proj2 (N.ltb_lt 0 (vlen buf))) by lia. rewrite N.add_0_l, (proj2 (N.leb_le (vlen buf) (vlen buf))) by lia.
      by eexists b', log, _.
    + by eexists b', log, _.
Qed.
End runs.

(** ** The two policies agree *)

(** The completion the ring reports where an eager attempt ends with [a]. *)
Definition raw_of (a : Attempt) : Z :=
  match a with
  | ADone n => Z.of_N n
  | Failed errno => - errno
  | Interrupted => - EINTR
  | WouldBlock => - EAGAIN
  end.

(** Hard failures are positive and none of the two transient codes. *)
Definition representable (a : Attempt) : Prop :=
  match a with Failed errno => (0 < errno)%Z ∧ errno ≠ EINTR ∧ errno ≠ EAGAIN | _ => True end.

(** Replays a list of answers. *)
Definition replay (l : list Attempt) (kind : OpKind) (c : OpContext) : list Attempt * Attempt :=
  match l with a :: l => (l, a) | [] => ([], Failed EIO) end.

Fixpoint ring_run (e : RingEntry) (l : list Attempt) (retry_bound : N) : outcome (option result) :=
  match l with
  | [] => Done None
  | a :: l =>
      '(e, p) ← ring_progress e (raw_of a) retry_bound;
      match p with Terminal r => Done (Some r) | Resubmit => ring_run e l retry_bound end
  end.

(** The slab entry and the eager context at the same point of an operation of
    [logical] bytes. *)
Definition matching (kind : OpKind) (logical : N) (c : OpContext) (retries : N) (e : RingEntry) : Prop :=
  re_kind e = kind ∧ re_file_offset e = cx_file_offset c ∧ re_destination_offset e = cx_destination_offset c ∧
  re_requested_len e = cx_requested_len c ∧ re_retries e = retries ∧
  (kind = Write → vlen (cx_write_buf c) = cx_requested_len c ∧ logical ≤ U32_MAX ∧
     cx_destination_offset c + cx_requested_len c = logical).

Lemma policies_step kind logical c retries e a bound :
  matching kind logical c retries e → representable a →
  match a with ADone n => n ≤ cx_requested_len c | _ => True end →
  match execute_step bound kind logical c retries a with
  | Done (inr r) => ∃ e', ring_progress e (raw_of a) bound = Done (e', Terminal r)
  | Done (inl (c', retries')) => ∃ e', ring_progress e (raw_of a) bound = Done (e', Resubmit) ∧
      matching kind logical c' retries' e'
  | Panic => ring_progress e (raw_of a) bound = Panic
  end.
Proof.
  intros (Hk & Ho & Hd & Hl & Hr & Hw) Hrep Hn. unfold ring_progress, ring_should_retry. rewrite Hk, Ho, Hd, Hl, Hr.
  assert (∀ b, matching kind logical c b (mkRing kind (cx_file_offset c) (cx_destination_offset c) (cx_requested_len c) b)) as Hm
    by (intros b; by split_and!).
  destruct a as [n|errno| |]; simpl in Hrep, Hn |- *.
  - rewrite (proj2 (N.leb_le n _) Hn). rewrite (proj2 (Z.leb_le 0 (Z.of_N n))) by lia. mred. simpl orb. cbn iota.
    rewrite (proj2 (Z.ltb_ge (Z.of_N n) 0)), orb_false_r, N2Z.id by lia.
    destruct (is_write kind) eqn:Hkw; simpl negb; cbn iota.
    2: { eexists. unfold ring_result. rewrite (proj2 (Z.ltb_ge (Z.of_N n) 0)), N2Z.id by lia. done. }
    assert (kind = Write) as -> by by destruct kind. destruct (Hw eq_refl) as (Hbuf & H32 & Hsum).
    rewrite (proj2 (N.leb_le n _) Hn). destruct (N.eqb_spec n (cx_requested_len c)) as [->|Hne].
    { rewrite add_ok by lia. mred. rewrite Hsum. by eexists. }
    destruct (N.ltb_spec 0 n) as [Hpos|Hz].
    + rewrite (proj2 (N.eqb_neq n 0)) by lia. unfold advance_write, add_, checked_add.
      rewrite (proj2 (N.ltb_lt 0 n) Hpos), (proj2 (N.ltb_lt n (cx_requested_len c))) by lia. mred.
      destruct (cx_file_offset c + n <=? U64_MAX); [|done]. mred.
      rewrite (proj2 (N.leb_le (cx_destination_offset c + n) U32_MAX)) by lia. mred.
      rewrite (proj2 (N.leb_le n (vlen (cx_write_buf c)))) by lia. mred. unfold context_write.
      assert (vlen (drop (N.to_nat n) (cx_write_buf c)) = cx_requested_len c - n) as Hdl
        by (unfold vlen in *; rewrite length_drop; lia).
      rewrite Hdl, (assertb_true (_ <=? U32_MAX)) by (apply N.leb_le; lia). mred. eexists. split; [done|].
      split_and!; try done. intros _. simpl. split_and!; [done..|lia].
    + assert (n = 0) as -> by lia. simpl. destruct (bound <=? retries); eauto.
  - destruct Hrep as (Hpos & H1 & H2). rewrite (proj2 (Z.leb_gt 0 (- errno))) by lia. simpl orb.
    rewrite Z.opp_involutive, (proj2 (Z.eqb_neq _ _) H1), (proj2 (Z.eqb_neq _ _) H2).
    rewrite (proj2 (Z.ltb_lt (- errno) 0)) by lia. rewrite orb_true_r. unfold ring_result.
    rewrite (proj2 (Z.ltb_lt (- errno) 0)) by lia. rewrite Z.opp_involutive. destruct (bound <=? retries); eauto.
  - destruct (bound <=? retries); simpl; [|eauto]. rewrite orb_true_r. eauto.
  - destruct (bound <=? retries), (is_read kind) eqn:Hkr; simpl; rewrite ?orb_true_r; eauto.
Qed.

(** Every count answered is within the length asked for at that point. *)
Fixpoint honest_answers (bound : N) (kind : OpKind) (logical : N) (c : OpContext) (retries : N) (l : list Attempt) : Prop :=
  match l with
  | [] => True
  | a :: l =>
      match a with ADone n => n ≤ cx_requested_len c | _ => True end ∧
      match execute_step bound kind logical c retries a with
      | Done (inl (c, retries)) => honest_answers bound kind logical c retries l
      | _ => True
      end
  end.

Lemma policies_run l kind logical c retries e bound :
  matching kind logical c retries e → Forall representable l → honest_answers bound kind logical c retries l →
  (rr ← execute_loop replay bound (length l) l kind logical c retries; Done rr.2) = ring_run e l bound.
Proof.
  revert c retries e. induction l as [|a l IH]; intros c retries e Hm Hrep Hh; [done|]. simpl in *.
  apply Forall_cons in Hrep as [Ha Hrep]. destruct Hh as [Hn Hh].
  pose proof (policies_step kind logical c retries e a bound Hm Ha Hn) as Hstep.
  destruct (execute_step bound kind logical c retries a) as [[[c' r']|r]|].
  - destruct Hstep as (e' & -> & Hm'). mred. by apply IH.
  - destruct Hstep as (e' & ->). done.
  - by rewrite Hstep.
Qed.

(** C38 (retry policies agree): given the same sequence of backend answers, in which a hard
    failure is a positive code other than the two transient ones and no count exceeds
    the bytes its attempt asked for, the eager loop and the ring policy give the same outcome: the same byte
    count or error code, or no result while answers are missing; success of a write only
    with its full length, the same number of retries of the same transients.  (An answer
    of more bytes than asked for is outside the contract of both: the eager loop asserts
    against it.) *)
Theorem eager_and_ring_agree l kind fd offset len buf mode bound :
  len ≤ U32_MAX → (kind = Write → vlen buf = len) → Forall representable l →
  honest_answers bound kind len (mkContext fd offset 0 len buf mode) 0 l →
  (rr ← execute replay bound (length l) l kind (mkContext fd offset 0 len buf mode); Done rr.2) =
    ring_run (mkRing kind offset 0 len 0) l bound.
Proof.
  intros Hlen Hbuf Hrep Hh. apply policies_run; [|done..]. split_and!; try done. intros Hk. simpl. split_and!; [by apply Hbuf|done|lia].
Qed.
End Execute.

Module ExecuteWitness.
Import Execute.

Definition fd : FileId := mkFileId 0 1 2.

(** A backend that moves two bytes at a time, interrupting every other attempt. *)
Definition halting (b : bool) (kind : OpKind) (c : OpContext) : bool * Attempt :=
  if b then (false, Interrupted) else (true, ADone (N.min 2 (cx_requested_len c))).

Lemma halting_honest b kind c b' n : halting b kind c = (b', ADone n) → n ≤ cx_requested_len c.
Proof. unfold halting. destruct b; [done|]. intros [= _ <-]. lia. Qed.

Lemma write_executes_completely_witness :
  ∃ context b' log r, context_write fd 4096 0 [1; 2; 3; 4; 5] = Done context ∧
    execute (logged halting) 8 (enough 8 context) (false, []) Write context = Done ((b', log), Some r) ∧
    N.of_nat (length log) ≤ vlen [1; 2; 3; 4; 5] + 8 + 1 ∧
    contiguous 4096 (chunks log) ∧ (∃ m, written log = take m [1; 2; 3; 4; 5]) ∧
    match r with inl n => n = vlen [1; 2; 3; 4; 5] ∧ written log = [1; 2; 3; 4; 5] | inr _ => True end.
Proof.
  apply (write_executes_completely halting 8 halting_honest false fd 4096 0 [1; 2; 3; 4; 5]); vm_compute; discriminate.
Defined.

Lemma write_all_blocking_total_witness :
  ∃ b' log r, write_all_blocking (logged halting) 8 2 (false, []) true fd [1; 2; 3; 4; 5] 4096 = Done ((b', log), Some r) ∧
    contiguous 4096 (chunks log) ∧ (∃ m, written log = take m [1; 2; 3; 4; 5]) ∧
    match r with inl _ => written log = [1; 2; 3; 4; 5] | inr _ => True end.
Proof.
  apply (write_all_blocking_total halting 8 halting_honest false fd 4096 [1; 2; 3; 4; 5]); vm_compute; discriminate.
Defined.

Lemma transient_failures_bounded_witness :
  ∃ b' log r, execute (logged halting) 1 (enough 1 (context_read fd 0 0 512)) (true, []) Read (context_read fd 0 0 512) =
    Done ((b', log), Some r) ∧ N.of_nat (length log) ≤ 1 + 1.
Proof.
  destruct (transient_failures_bounded halting 1 halting_honest true Read (context_read fd 0 0 512)) as (b' & log & r & H1 & H2 & _);
    [discriminate|]. exists b', log, r. split; [exact H1|exact H2].
Defined.

Lemma eager_and_ring_agree_witness :
  (rr ← execute replay 3 4 [ADone 2; Interrupted; ADone 0; ADone 3] Write (mkContext fd 4096 0 5 [1; 2; 3; 4; 5] SyncFull); Done rr.2) =
    ring_run (mkRing Write 4096 0 5 0) [ADone 2; Interrupted; ADone 0; ADone 3] 3.
Proof.
  apply (eager_and_ring_agree [ADone 2; Interrupted; ADone 0; ADone 3] Write fd 4096 5 [1; 2; 3; 4; 5] SyncFull 3).
  - vm_compute. discriminate.
  - reflexivity.
  - repeat constructor.
  - vm_compute. repeat split; discriminate.
Defined.
End ExecuteWitness.
