(* ===== verification/ReadVector.v ===== *)
(** * Vectored reads

    Models [ReadVector], [VectorIo] and [VectorStorage] of
    src/src/driver/read_vector.rs: a bundle of frame tokens that one read fills front
    to back over any number of short completions, with the descriptors the backend
    transfers through.  Descriptor memory is one allocation shared by all completion
    slots; a [VectorIo] is a pointer into it.  The theorems: a transfer puts byte [k]
    of the logical range into the frame and offset that byte belongs to, and every
    token leaves the bundle exactly once, in order, under its original ordinal, never
    before its whole frame has been filled. *)
From stdpp Require Import prelude list.
From Stdlib Require Import NArith Lia.
From S2P Require Import Prelude Ids Frames.

Open Scope N_scope.

Module ReadVector.
Import Frames.

Definition VECTOR_FRAMES_MAX : N := 32.
Definition VECTOR_BYTES_MAX : N := 128 * 1024.

(** An address (relative to the frame arena) and a length. *)
Record Iovec := mkIovec {
  iov_base : N;
  iov_len : N;
}.

(** The first descriptor's index in the allocation, their number, their bytes. *)
Record VectorIo := mkVectorIo {
  io_pointer : N;
  io_count : N;
  io_bytes : N;
}.

Record ReadVector := mkVector {
  frames : list (option InFlightFrame);
  count : N;
  ordinal : N;
  filled : N;
  total : N;
  descriptors : option VectorIo;
  operation : option OpToken;
}.

Definition new : ReadVector :=
  mkVector (replicate (N.to_nat VECTOR_FRAMES_MAX) None) 0 0 0 0 None None.

(** Whether every one of the first [count] positions is owned and satisfies [p]. *)
Fixpoint all_live (p : InFlightFrame → bool) (l : list (option InFlightFrame)) : outcome bool :=
  match l with
  | [] => Done true
  | o :: l => f ← expect o; if p f then all_live p l else Done false
  end.

Definition push (arena : Frames) (v : ReadVector) (frame : InFlightFrame) : outcome ReadVector :=
  assertb (count v <? VECTOR_FRAMES_MAX);;
  assertb (filled v =? 0);;
  assertb (match operation v with None => true | Some _ => false end);;
  distinct ← all_live (λ existing, negb (InFlightFrame_frame existing =? InFlightFrame_frame frame))
    (take (N.to_nat (count v)) (frames v));
  assertb distinct;;
  room ← sub_ VECTOR_BYTES_MAX (total v);
  assertb (granule arena <=? room);;
  transfer_ptr arena frame 0 (granule arena);;
  fs ← vset (frames v) (count v) (Some frame);
  Done (mkVector fs (count v + 1) (ordinal v) (filled v) (total v + granule arena)
    (descriptors v) (operation v)).

Definition bind (v : ReadVector) (op : OpToken) : outcome ReadVector :=
  assertb (match operation v with None => true | Some _ => false end);;
  Done (mkVector (frames v) (count v) (ordinal v) (filled v) (total v) (descriptors v) (Some op)).

Definition remaining (v : ReadVector) : outcome N := sub_ (total v) (filled v).

Definition destination_offset (arena : Frames) (v : ReadVector) : N := filled v mod granule arena.

Definition record_completion (v : ReadVector) (bytes : N) : outcome ReadVector :=
  r ← remaining v;
  assertb (bytes <=? r);;
  Done (mkVector (frames v) (count v) (ordinal v) (filled v + bytes) (total v) None (operation v)).

(** Takes the tokens of positions [0..n] with their ordinals. *)
Fixpoint take_tokens (n : nat) (l : list (option InFlightFrame)) (first : N) :
    outcome (list (N * InFlightFrame) * list (option InFlightFrame)) :=
  match n with
  | O => Done ([], l)
  | S n =>
      match l with
      | [] => Panic
      | o :: l =>
          f ← expect o;
          '(taken, l) ← take_tokens n l (first + 1);
          Done ((first, f) :: taken, None :: l)
      end
  end.

Definition rotate_left {A} (n : nat) (l : list A) : list A := drop n l ++ take n l.

Definition all_none (l : list (option InFlightFrame)) : bool :=
  forallb (λ o, match o with None => true | Some _ => false end) l.

(** Returns what [consume] is called with, in order. *)
Definition take_completed (arena : Frames) (v : ReadVector) :
    outcome (list (N * InFlightFrame) * ReadVector) :=
  completed ← sub_ (filled v / granule arena) (ordinal v);
  assertb (completed <=? count v);;
  '(taken, fs) ← take_tokens (N.to_nat completed) (frames v) (ordinal v);
  assertb (completed <=? vlen fs);;
  let fs := rotate_left (N.to_nat completed) fs in
  let left := count v - completed in
  assertb (left <=? vlen fs);;
  assertb (all_none (drop (N.to_nat left) fs));;
  Done (taken, mkVector fs left (ordinal v + completed) (filled v) (total v) (descriptors v) (operation v)).

Definition take_remaining (v : ReadVector) : outcome (list (N * InFlightFrame) * ReadVector) :=
  '(taken, fs) ← take_tokens (N.to_nat (count v)) (frames v) (ordinal v);
  assertb (all_none fs);;
  Done (taken, mkVector fs 0 (ordinal v + count v) (filled v) (total v) (descriptors v) (operation v)).

Definition io (v : ReadVector) : outcome VectorIo := expect (descriptors v).

Definition kernel_may_write (v : ReadVector) : bool :=
  match operation v, descriptors v with Some _, Some _ => true | _, _ => false end.

(** [Drop]: the tokens handed to [Frames::abort]. *)
Definition drop_vector (v : ReadVector) : list InFlightFrame :=
  if kernel_may_write v then [] else omap (λ o, o) (take (N.to_nat (count v)) (frames v)).

(** ** Descriptors *)

(** The allocation's descriptors, [VECTOR_FRAMES_MAX] per completion slot. *)
Record VectorStorage := mkStorage {
  allocation : list Iovec;
  slots : N;
}.

Definition try_new (slots : N) : VectorStorage :=
  mkStorage (replicate (N.to_nat (slots * VECTOR_FRAMES_MAX)) (mkIovec 0 0)) slots.

(** The stores of [prepare] for positions [index], [index + 1], ... *)
Fixpoint prepare_from (arena : Frames) (v : ReadVector) (n : nat) (pointer index : N) (mem : list Iovec) :
    outcome (list Iovec) :=
  match n with
  | O => Done mem
  | S n =>
      let offset := if index =? 0 then destination_offset arena v else 0 in
      len ← sub_ (granule arena) offset;
      o ← vget (frames v) index;
      frame ← expect o;
      destination ← transfer_ptr arena frame offset len;
      mem ← vset mem (pointer + index) (mkIovec destination len);
      prepare_from arena v n pointer (index + 1) mem
  end.

Definition prepare (arena : Frames) (st : VectorStorage) (slot : N) (v : ReadVector) :
    outcome (VectorStorage * ReadVector) :=
  assertb (slot <? slots st);;
  assertb (0 <? count v);;
  assertb (ordinal v =? filled v / granule arena);;
  let pointer := slot * VECTOR_FRAMES_MAX in
  mem ← prepare_from arena v (N.to_nat (count v)) pointer 0 (allocation st);
  bytes ← remaining v;
  Done (mkStorage mem (slots st),
    mkVector (frames v) (count v) (ordinal v) (filled v) (total v)
      (Some (mkVectorIo pointer (count v) bytes)) (operation v)).

(** The calls of [fill]: position in the transfer, destination address, length. *)
Fixpoint transfer_from (mem : list Iovec) (pointer : N) (n : nat) (index bytes transferred : N) :
    outcome (list (N * N * N) * N) :=
  match n with
  | O => Done ([], transferred)
  | S n =>
      if transferred =? bytes then Done ([], transferred)
      else
        d ← vget mem (pointer + index);
        room ← sub_ bytes transferred;
        let length := N.min room (iov_len d) in
        '(calls, last) ← transfer_from mem pointer n (index + 1) bytes (transferred + length);
        Done ((transferred, iov_base d, length) :: calls, last)
  end.

(** [VectorIo::transfer_prefix]. *)
Definition io_transfer_prefix (mem : list Iovec) (d : VectorIo) (bytes : N) : outcome (list (N * N * N)) :=
  assertb (bytes <=? io_bytes d);;
  '(calls, transferred) ← transfer_from mem (io_pointer d) (N.to_nat (io_count d)) 0 bytes 0;
  assertb (transferred =? bytes);;
  Done calls.

(** [ReadVector::transfer_prefix]. *)
Definition transfer_prefix (st : VectorStorage) (v : ReadVector) (bytes : N) : outcome (list (N * N * N)) :=
  r ← remaining v;
  assertb (bytes <=? r);;
  d ← io v;
  io_transfer_prefix (allocation st) d bytes.

(** ** The tokens of a bundle *)

(** [push] for each token in turn. *)
Fixpoint push_all (arena : Frames) (v : ReadVector) (l : list InFlightFrame) : outcome ReadVector :=
  match l with
  | [] => Done v
  | f :: l => v ← push arena v f; push_all arena v l
  end.

(** What happens to a bundle while its read is under way. *)
Inductive event := Complete (bytes : N) | Publish.

Definition bytes_of (e : event) : N := match e with Complete n => n | Publish => 0 end.

(** All tokens published by a run, in order. *)
Fixpoint run (arena : Frames) (v : ReadVector) (es : list event) :
    outcome (list (N * InFlightFrame) * ReadVector) :=
  match es with
  | [] => Done ([], v)
  | Complete bytes :: es => v ← record_completion v bytes; run arena v es
  | Publish :: es =>
      '(taken, v) ← take_completed arena v;
      '(more, v) ← run arena v es;
      Done (taken ++ more, v)
  end.

Definition number (first : N) (l : list InFlightFrame) : list (N * InFlightFrame) :=
  imap (λ i f, (first + N.of_nat i, f)) l.

(** The arena address of byte [p] of the logical range of tokens [l]. *)
Definition location (g : N) (l : list InFlightFrame) (p : N) : N :=
  match l !! N.to_nat (p / g) with Some f => InFlightFrame_frame f * g + p mod g | None => 0 end.

(** Every byte a list of [fill] calls covers, with the address it is put at. *)
Definition range (first n : N) : list N := (λ j, first + N.of_nat j) <$> seq 0 (N.to_nat n).
Definition expand (calls : list (N * N * N)) : list (N * N) :=
  calls ≫= λ '(p, base, n), (λ j, (p + j, base + j)) <$> range 0 n.

Section bundle.
Context (arena : Frames).
Abbreviation g := (granule arena).
Hypothesis (Hg : 0 < g).

Definition transferable (f : InFlightFrame) : Prop :=
  transfer_ptr arena f 0 g = Done (InFlightFrame_frame f * g).

Record bundle (l : list InFlightFrame) (v : ReadVector) : Prop := {
  b_frames : frames v = (Some <$> drop (N.to_nat (ordinal v)) l) ++
    replicate (N.to_nat VECTOR_FRAMES_MAX - N.to_nat (count v)) None;
  b_count : ordinal v + count v = vlen l;
  b_total : total v = vlen l * g;
  b_filled : filled v ≤ total v;
  b_ordinal : ordinal v * g ≤ filled v;
  b_max : vlen l ≤ VECTOR_FRAMES_MAX;
}.

Lemma transfer_ptr_within f off n :
  transferable f → off + n ≤ g → transfer_ptr arena f off n = Done (InFlightFrame_frame f * g + off).
Proof.
  unfold transferable, transfer_ptr. intros H Hle. inv_done.
  match goal with H : owned_index _ _ = Done _ |- _ => rewrite H end. mred.
  match goal with H : _ !! _ = Some _ |- _ => rewrite (proj2 (vget_Done _ _ _) H) end. mred.
  match goal with H : from_word _ = Done _ |- _ => rewrite H end. mred.
  rewrite bool_decide_eq_true_2 by (by reflect_bools). mred.
  rewrite (proj2 (N.leb_le off g)) by lia. rewrite sub_ok by lia. mred.
  rewrite (proj2 (N.leb_le n (g - off))) by lia. f_equal.
  match goal with H : owned_index _ _ = Done _ |- _ => apply owned_index_Done in H as (-> & _) end. done.
Qed.

Lemma all_live_fmap p l : all_live p (Some <$> l) = Done (forallb p l).
Proof. induction l as [|f l IH]; [done|]. rewrite fmap_cons. simpl. mred. by destruct (p f). Qed.

Lemma push_bundle l v f :
  bundle l v → filled v = 0 → operation v = None → transferable f →
  InFlightFrame_frame f ∉ InFlightFrame_frame <$> l →
  vlen l < VECTOR_FRAMES_MAX → (vlen l + 1) * g ≤ VECTOR_BYTES_MAX →
  ∃ v', push arena v f = Done v' ∧ bundle (l ++ [f]) v' ∧ filled v' = 0 ∧ operation v' = None.
Proof.
  intros [Hf Hc Ht Hfi Ho Hm] Hz Hop Htr Hnew Hlen Hbytes.
  assert (ordinal v = 0) as Hord by nia. rewrite Hord in *. change (N.to_nat 0) with 0%nat in *. rewrite drop_0 in Hf.
  assert (count v = vlen l) as Hcl by lia. unfold push.
  rewrite Hcl, Hz, Hop, Ht, (proj2 (N.ltb_lt (vlen l) _) Hlen). mred. rewrite N.eqb_refl.
  rewrite Hf, take_app_le, take_ge by (rewrite ?length_take, ?length_fmap; unfold vlen; lia).
  rewrite all_live_fmap. mred.
  assert (forallb (λ e, negb (InFlightFrame_frame e =? InFlightFrame_frame f)) l = true) as ->.
  { apply forallb_forall. intros e He. apply negb_true_iff, N.eqb_neq. intros Heq. apply Hnew. rewrite <- Heq.
    apply list_elem_of_fmap_2. by apply list_elem_of_In. }
  rewrite sub_ok by lia. mred. rewrite (proj2 (N.leb_le g _)) by lia. rewrite Htr. mred.
  rewrite vset_ok by (unfold vlen in *; rewrite length_app, length_fmap, length_replicate; lia). mred.
  eexists. split; [done|]. split; [|done]. split; simpl; rewrite ?Hord.
  - change (N.to_nat 0) with 0%nat. rewrite drop_0, fmap_app. simpl. rewrite <- app_assoc.
    rewrite (insert_app_r_alt _ _ (N.to_nat (vlen l))) by (rewrite length_fmap; unfold vlen; lia). f_equal.
    rewrite length_fmap. replace (N.to_nat (vlen l) - length l)%nat with 0%nat by (unfold vlen; lia).
    rewrite Hcl. destruct (N.to_nat VECTOR_FRAMES_MAX - N.to_nat (vlen l))%nat as [|m] eqn:Hm'; [lia|]. simpl. f_equal.
    f_equal. lia.
  - unfold vlen in *. rewrite length_app. simpl. lia.
  - unfold vlen in *. rewrite length_app. simpl. lia.
  - lia.
  - lia.
  - unfold vlen in *. rewrite length_app. simpl. lia.
Qed.

Lemma push_all_bundle l0 l v :
  bundle l0 v → filled v = 0 → operation v = None →
  Forall transferable l → NoDup (InFlightFrame_frame <$> l0 ++ l) →
  vlen (l0 ++ l) ≤ VECTOR_FRAMES_MAX → vlen (l0 ++ l) * g ≤ VECTOR_BYTES_MAX →
  ∃ v', push_all arena v l = Done v' ∧ bundle (l0 ++ l) v' ∧ filled v' = 0 ∧ operation v' = None.
Proof.
  revert l0 v. induction l as [|f l IH]; intros l0 v Hb Hz Hop Hall Hnd Hlen Hbytes; simpl.
  - exists v. by rewrite app_nil_r.
  - apply Forall_cons in Hall as [Htr Hall].
    assert (vlen (l0 ++ f :: l) = vlen l0 + 1 + vlen l) as Hl by (unfold vlen; rewrite length_app; simpl; lia).
    destruct (push_bundle l0 v f) as (v1 & Hv1 & Hb1 & Hz1 & Hop1); try done.
    + rewrite fmap_app, fmap_cons, NoDup_app in Hnd. destruct Hnd as (_ & Hd & _). intros Hin. apply (Hd _ Hin). set_solver.
    + lia.
    + nia.
    + rewrite Hv1. mred. destruct (IH (l0 ++ [f]) v1) as (v' & ? & ? & ? & ?); rewrite <- ?app_assoc; try done.
      exists v'. rewrite <- app_assoc in *. done.
Qed.

Lemma new_bundle : bundle [] new.
Proof. split; simpl; try done; unfold vlen, VECTOR_FRAMES_MAX; simpl; lia. Qed.

Lemma take_tokens_spec a b rest first :
  take_tokens (length a) ((Some <$> a ++ b) ++ rest) first =
    Done (number first a, replicate (length a) None ++ (Some <$> b) ++ rest).
Proof.
  revert first. induction a as [|f a IH]; intros first; simpl; [done|]. mred. rewrite IH. mred. unfold number. simpl.
  rewrite N.add_0_r. do 3 f_equal. apply imap_ext. intros i x _. unfold compose. f_equal. lia.
Qed.

Lemma record_bundle l v bytes :
  bundle l v → filled v + bytes ≤ vlen l * g →
  ∃ v', record_completion v bytes = Done v' ∧ bundle l v' ∧ filled v' = filled v + bytes ∧ ordinal v' = ordinal v.
Proof.
  intros [Hf Hc Ht Hfi Ho Hm] Hle. unfold record_completion, remaining. rewrite sub_ok by lia. mred.
  rewrite (proj2 (N.leb_le bytes _)) by lia. eexists. split; [done|]. split; [|done]. split; simpl; try done; lia.
Qed.

Lemma all_none_replicate n : all_none (replicate n None) = true.
Proof. induction n; simpl; done. Qed.

Lemma take_completed_bundle l v :
  bundle l v →
  ∃ v' k, take_completed arena v = Done (number (ordinal v) (take k (drop (N.to_nat (ordinal v)) l)), v') ∧
    bundle l v' ∧ filled v' = filled v ∧ N.to_nat (ordinal v') = (N.to_nat (ordinal v) + k)%nat ∧
    ordinal v' = filled v / g ∧ ordinal v' ≤ vlen l.
Proof.
  intros [Hf Hc Ht Hfi Ho Hm]. set (o := ordinal v) in *.
  assert (o ≤ filled v / g) as Hlo by (apply N.div_le_lower_bound; lia).
  assert (filled v / g ≤ vlen l) as Hhi.
  { apply N.Div0.div_le_upper_bound. lia. }
  set (k := filled v / g - o). set (a := take (N.to_nat k) (drop (N.to_nat o) l)). set (b := drop (N.to_nat k) (drop (N.to_nat o) l)).
  assert (length a = N.to_nat k) as Hla by (unfold a; rewrite length_take, length_drop; unfold vlen in *; lia).
  unfold take_completed. fold o. rewrite sub_ok by done. fold k. mred. rewrite (proj2 (N.leb_le k (count v))) by lia.
  rewrite <- (take_drop (N.to_nat k) (drop (N.to_nat o) l)) in Hf. fold a b in Hf. rewrite Hf, <- Hla, take_tokens_spec. mred.
  assert (length b = N.to_nat (count v) - N.to_nat k)%nat as Hlb by (unfold b; rewrite !length_drop; unfold vlen in *; lia).
  set (r := (N.to_nat VECTOR_FRAMES_MAX - N.to_nat (count v))%nat).
  assert (N.of_nat (length a) = k) as Hnk by lia. rewrite (proj2 (N.leb_le k (vlen _)))
    by (unfold vlen; rewrite !length_app, length_replicate; lia).
  unfold rotate_left. rewrite drop_app_le, drop_ge by (rewrite length_replicate; lia). simpl.
  rewrite take_app_le, take_ge by (rewrite ?length_take, length_replicate; lia).
  assert (vlen (((Some <$> b) ++ replicate r (@None InFlightFrame)) ++ replicate (length a) None) = VECTOR_FRAMES_MAX) as Hvl.
  { unfold vlen. rewrite !length_app, length_fmap, !length_replicate. unfold r, vlen in *. lia. }
  rewrite (proj2 (N.leb_le (count v - k) (vlen _))) by lia.
  rewrite <- app_assoc, drop_app_le, drop_ge by (rewrite length_fmap; lia).
  simpl. rewrite <- replicate_add, all_none_replicate. eexists _, (N.to_nat k). split; [done|].
  assert (N.to_nat (o + k) = (N.to_nat o + N.to_nat k)%nat) as Hok by lia.
  split; [|simpl; split_and!; try done; lia]. split; simpl; try done.
  - rewrite Hok, <- drop_drop. fold b. f_equal. f_equal. unfold r. lia.
  - lia.
  - pose proof (N.Div0.mul_div_le (filled v) g). nia.
Qed.

Lemma take_remaining_bundle l v :
  bundle l v → ∃ v', take_remaining v = Done (number (ordinal v) (drop (N.to_nat (ordinal v)) l), v') ∧
    drop_vector v' = [] ∧ count v' = 0.
Proof.
  intros [Hf Hc Ht Hfi Ho Hm]. unfold take_remaining. set (a := drop (N.to_nat (ordinal v)) l) in *.
  assert (N.to_nat (count v) = length a) as -> by (unfold a; rewrite length_drop; unfold vlen in *; lia).
  pose proof (take_tokens_spec a [] (replicate (N.to_nat VECTOR_FRAMES_MAX - length a) None) (ordinal v)) as Hs.
  rewrite app_nil_r in Hs. simpl in Hs. rewrite Hf.
  replace (N.to_nat (count v)) with (length a) by (unfold a; rewrite length_drop; unfold vlen in *; lia).
  rewrite Hs. mred. rewrite <- replicate_add, all_none_replicate. eexists. split; [done|]. split; [|done].
  unfold drop_vector. simpl. by destruct (kernel_may_write _).
Qed.

Lemma number_app first a b : number first (a ++ b) = number first a ++ number (first + vlen a) b.
Proof.
  unfold number, vlen. rewrite imap_app. f_equal. apply imap_ext. intros i x _. simpl. f_equal. lia.
Qed.

Definition bytes_total (es : list event) : N := foldr (λ e n, bytes_of e + n) 0 es.

Lemma take_add_drop {A} (n k : nat) (l : list A) : take n l ++ take k (drop n l) = take (n + k) l.
Proof. revert l. induction n as [|n IH]; intros [|x l]; simpl; try done; [by rewrite take_nil|by rewrite IH]. Qed.

(** A run publishes the numbered tokens from the bundle's ordinal to the last one. *)
Lemma run_bundle l v es :
  bundle l v → filled v + bytes_total es ≤ vlen l * g →
  ∃ v' k, run arena v es = Done (number (ordinal v) (take k (drop (N.to_nat (ordinal v)) l)), v') ∧
    bundle l v' ∧ filled v' = filled v + bytes_total es ∧ N.to_nat (ordinal v') = (N.to_nat (ordinal v) + k)%nat.
Proof.
  revert v. induction es as [|[n|] es IH]; intros v Hb Hle; simpl in *.
  - exists v, 0%nat. rewrite take_0. split_and!; try done; lia.
  - destruct (record_bundle l v n Hb) as (v1 & -> & Hb1 & Hf1 & Ho1); [lia|]. mred.
    destruct (IH v1 Hb1) as (v2 & k & Hr & Hb2 & Hf2 & Ho2); [lia|]. rewrite Hr, Ho1 in *.
    exists v2, k. split_and!; try done; lia.
  - destruct (take_completed_bundle l v Hb) as (v1 & k1 & -> & Hb1 & Hf1 & Ho1 & Hd1 & Hl1). mred.
    destruct (IH v1 Hb1) as (v2 & k & -> & Hb2 & Hf2 & Ho2); [lia|]. mred.
    exists v2, (k1 + k)%nat. split; [|split_and!; try done; lia].
    rewrite <- take_add_drop, number_app, drop_drop, Ho1. do 4 f_equal.
    unfold vlen. rewrite length_take, length_drop. unfold vlen in *. lia.
Qed.

Lemma number_lookup first l i f : (i, f) ∈ number first l → ∃ j, i = first + N.of_nat j ∧ l !! j = Some f.
Proof.
  intros [j Hj]%list_elem_of_lookup. unfold number in Hj. rewrite list_lookup_imap in Hj.
  destruct (l !! j) as [f'|] eqn:Hf; simplify_eq/=. by exists j.
Qed.

(** ** Descriptors *)

(** Where position [i]'s descriptor starts in the logical range. *)
Definition start (v : ReadVector) (i : N) : N := if i =? 0 then filled v else (ordinal v + i) * g.

Definition described (v : ReadVector) (l : list InFlightFrame) (mem : list Iovec) (pointer i : N) : Prop :=
  ∃ f, l !! N.to_nat (ordinal v + i) = Some f ∧
    mem !! N.to_nat (pointer + i) = Some (mkIovec (InFlightFrame_frame f * g + start v i mod g) (g - start v i mod g)).

Lemma start_mod v i : start v i mod g = if i =? 0 then destination_offset arena v else 0.
Proof. unfold start. destruct (i =? 0); [done|]. apply N.Div0.mod_mul. Qed.

Lemma frame_at l v i :
  bundle l v → i < count v → ∃ f, l !! N.to_nat (ordinal v + i) = Some f ∧ vget (frames v) i = Done (Some f).
Proof.
  intros [Hf Hc _ _ _ _] Hi. destruct (lookup_lt_is_Some_2 l (N.to_nat (ordinal v + i))) as [f Hl]; [unfold vlen in *; lia|].
  exists f. split; [done|]. apply vget_Done. rewrite Hf, lookup_app_l.
  - rewrite list_lookup_fmap, lookup_drop. replace (N.to_nat (ordinal v) + N.to_nat i)%nat with (N.to_nat (ordinal v + i)) by lia. by rewrite Hl.
  - rewrite length_fmap, length_drop. unfold vlen in *. lia.
Qed.

Lemma prepare_from_spec l v n pointer i mem :
  bundle l v → (∀ f, Some f ∈ frames v → transferable f) → i + N.of_nat n = count v → pointer + count v ≤ vlen mem →
  ∃ mem', prepare_from arena v n pointer i mem = Done mem' ∧ vlen mem' = vlen mem ∧
    (∀ j, i ≤ j < count v → described v l mem' pointer j) ∧
    (∀ j, (j < N.to_nat (pointer + i) ∨ N.to_nat (pointer + count v) ≤ j)%nat → mem' !! j = mem !! j).
Proof.
  intros Hb Hall. revert i mem. induction n as [|n IH]; intros i mem Hn Hm; simpl.
  - exists mem. split_and!; try done. intros j Hj. lia.
  - assert (start v i mod g < g) as Hmod by (apply N.mod_lt; lia). rewrite <- start_mod. rewrite sub_ok by lia. mred.
    destruct (frame_at l v i Hb) as (f & Hf & Hget); [lia|]. rewrite Hget. mred.
    rewrite transfer_ptr_within; [|apply Hall; apply vget_Done in Hget; by eapply list_elem_of_lookup_2|lia]. mred. rewrite vset_ok by lia. mred.
    match goal with |- context [prepare_from _ _ _ _ _ (<[_ := ?d]> _)] => set (iov := d) end.
    destruct (IH (i + 1) (<[N.to_nat (pointer + i) := iov]> mem)) as (mem' & -> & Hl & Hd & Hk); [lia|by rewrite vlen_insert|].
    exists mem'. rewrite vlen_insert in Hl. split_and!; try done.
    + intros j Hj. destruct (decide (j = i)) as [->|Hne]; [|apply Hd; lia]. exists f. split; [done|].
      rewrite Hk by lia. rewrite list_lookup_insert_eq by (unfold vlen in *; lia). done.
    + intros j Hj. rewrite Hk by lia. rewrite list_lookup_insert_ne by lia. done.
Qed.

Lemma range_cons_app first n m : range first (n + m) = range first n ++ range (first + n) m.
Proof.
  unfold range. rewrite N2Nat.inj_add, seq_app, fmap_app. f_equal. simpl.
  rewrite <- (Nat.add_0_r (N.to_nat n)), <- fmap_add_seq, <- list_fmap_compose. apply list_fmap_ext. intros i x _. simpl. lia.
Qed.

(** The bytes of one descriptor. *)
Lemma described_bytes l v i T n f :
  filled v + T = start v i → n ≤ g - start v i mod g → l !! N.to_nat (ordinal v + i) = Some f →
  bundle l v → ordinal v = filled v / g →
  (λ j, (T + j, InFlightFrame_frame f * g + start v i mod g + j)) <$> range 0 n =
  (λ k, (k, location g l (filled v + k))) <$> range T n.
Proof.
  intros HT Hn Hf Hb Hord. unfold range. rewrite <- !list_fmap_compose. apply list_fmap_ext. intros k x Hx. simpl.
  apply lookup_seq in Hx as [-> Hk]. simpl.
  assert (start v i = (ordinal v + i) * g + start v i mod g) as Hs.
  { rewrite start_mod. unfold start. destruct (N.eqb_spec i 0) as [->|]; [|lia].
    rewrite Hord. unfold destination_offset. rewrite N.add_0_r. pose proof (N.div_mod' (filled v) g). lia. }
  set (o := start v i mod g) in *. replace (filled v + (T + N.of_nat k)) with ((o + N.of_nat k) + (ordinal v + i) * g) by lia.
  unfold location. rewrite N.div_add, N.div_small, (N.add_0_l (ordinal v + i)), Hf by lia.
  rewrite N.Div0.mod_add, N.mod_small by lia. f_equal. lia.
Qed.

Lemma transfer_from_spec l v mem pointer bytes n i T :
  bundle l v → ordinal v = filled v / g → 0 < count v →
  (∀ j, j < count v → described v l mem pointer j) →
  i + N.of_nat n = count v → T ≤ bytes → filled v + bytes ≤ total v →
  (T = bytes ∨ filled v + T = start v i) →
  ∃ calls, transfer_from mem pointer n i bytes T = Done (calls, bytes) ∧
    expand calls = (λ k, (k, location g l (filled v + k))) <$> range T (bytes - T).
Proof.
  intros Hb Hord Hpos Hd. revert i T. induction n as [|n IH]; intros i T Hn HT Hbytes Hs; simpl.
  - assert (T = bytes) as ->.
    { destruct Hs as [|Hs]; [done|]. unfold start in Hs. destruct (N.eqb_spec i 0); [lia|].
      assert (ordinal v + i = vlen l) as Hil by (pose proof (b_count _ _ Hb); lia). rewrite Hil, <- (b_total _ _ Hb) in Hs. lia. }
    exists []. rewrite N.sub_diag. done.
  - destruct (N.eqb_spec T bytes) as [->|Hne].
    { exists []. rewrite N.sub_diag. done. }
    destruct Hs as [|Hs]; [done|]. destruct (Hd i) as (f & Hf & Hm); [lia|].
    rewrite (proj2 (vget_Done _ _ _) Hm). mred. rewrite sub_ok by lia. mred. simpl.
    assert (start v i mod g < g) as Hmod by (apply N.mod_lt; lia).
    set (len := N.min (bytes - T) (g - start v i mod g)).
    destruct (IH (i + 1) (T + len)) as (calls & -> & He); [lia|lia|lia| |].
    + destruct (N.le_gt_cases (bytes - T) (g - start v i mod g)); [left; lia|right].
      unfold start at 1. rewrite (proj2 (N.eqb_neq (i + 1) 0)) by lia.
      assert (start v i = (ordinal v + i) * g + start v i mod g) as Hsi.
      { rewrite start_mod. unfold start. destruct (N.eqb_spec i 0) as [->|]; [|lia].
        rewrite Hord. unfold destination_offset. rewrite N.add_0_r. pose proof (N.div_mod' (filled v) g). lia. }
      lia.
    + mred. eexists. split; [done|]. unfold expand in *. rewrite bind_cons, He.
      replace (bytes - T) with (len + (bytes - (T + len))) by lia. rewrite range_cons_app, fmap_app. f_equal.
      apply (described_bytes l v i T len f); (done || lia).
Qed.

(** The tokens a bundle still owns. *)
Lemma owned_frames l v f : bundle l v → Some f ∈ frames v ↔ f ∈ drop (N.to_nat (ordinal v)) l.
Proof.
  intros Hb. rewrite (b_frames _ _ Hb), elem_of_app, list_elem_of_fmap. split.
  - intros [(f' & Heq & Hf)|Hf]; [by simplify_eq|]. by apply elem_of_replicate_inv in Hf.
  - intros Hf. left. by exists f.
Qed.

(** Publication keeps the byte counts and only gives tokens away. *)
Lemma take_completed_keeps l v taken v' :
  bundle l v → take_completed arena v = Done (taken, v') →
  bundle l v' ∧ filled v' = filled v ∧ total v' = total v ∧ operation v' = operation v ∧
  ordinal v' = filled v' / g ∧ (∀ f, Some f ∈ frames v' → Some f ∈ frames v).
Proof.
  intros Hb Ht. destruct (take_completed_bundle l v Hb) as (v1 & k & Heq & Hb1 & Hf1 & Ho1 & Hd1 & _).
  rewrite Ht in Heq. injection Heq as -> ->. split_and!; try done.
  - by rewrite (b_total _ _ Hb1), (b_total _ _ Hb).
  - unfold take_completed in Ht. inv_done. case_match. by inv_done.
  - congruence.
  - intros f. rewrite (owned_frames l _ f Hb1), (owned_frames l _ f Hb), Ho1, <- drop_drop. intros Hf.
    rewrite <- (take_drop k (drop (N.to_nat (ordinal v)) l)). apply elem_of_app. by right.
Qed.

(** [prepare] fills the slot's own descriptors. *)
Lemma prepare_bundle l v st slot :
  bundle l v → (∀ f, Some f ∈ frames v → transferable f) → ordinal v = filled v / g → filled v < total v →
  slot < slots st → vlen (allocation st) = slots st * VECTOR_FRAMES_MAX →
  ∃ mem, let v' := mkVector (frames v) (count v) (ordinal v) (filled v) (total v)
      (Some (mkVectorIo (slot * VECTOR_FRAMES_MAX) (count v) (total v - filled v))) (operation v) in
    prepare arena st slot v = Done (mkStorage mem (slots st), v') ∧ bundle l v' ∧
    vlen mem = vlen (allocation st) ∧
    (∀ j, j < count v → described v l mem (slot * VECTOR_FRAMES_MAX) j) ∧
    (∀ i, (i < N.to_nat (slot * VECTOR_FRAMES_MAX) ∨ N.to_nat ((slot + 1) * VECTOR_FRAMES_MAX) ≤ i)%nat →
       mem !! i = allocation st !! i).
Proof.
  intros Hb Hall Hord Hlt Hslot Hmem. pose proof Hb as [Hfr Hc Ht Hfi Ho Hm]. assert (0 < count v) as Hpos by nia.
  destruct (prepare_from_spec l v (N.to_nat (count v)) (slot * VECTOR_FRAMES_MAX) 0 (allocation st))
    as (mem & Hp & Hl & Hd & Hk); [done|done|lia|nia|].
  exists mem. simpl. unfold prepare. rewrite (proj2 (N.ltb_lt slot _)), (proj2 (N.ltb_lt 0 (count v))), Hord, N.eqb_refl by done. mred.
  rewrite Hp. mred. unfold remaining. rewrite sub_ok by done. mred. rewrite <- Hord. split_and!; try done.
  - intros j Hj. apply Hd. lia.
  - intros i Hi. apply Hk. lia.
Qed.

(** ** Properties *)

(** (token order): a bundle built from distinct claimed frames takes any sequence of
    completions within its length and any publications between them: the tokens it
    publishes, followed by those taken at the end, are exactly the pushed ones, in
    order and under their original ordinals; a token is published only once all bytes
    of its frame have been filled; nothing is left for [Drop] to abort. *)
Theorem vector_tokens_leave_once l es :
  Forall transferable l → NoDup (InFlightFrame_frame <$> l) →
  vlen l ≤ VECTOR_FRAMES_MAX → vlen l * g ≤ VECTOR_BYTES_MAX → bytes_total es ≤ vlen l * g →
  ∃ v0 published v rest v',
    push_all arena new l = Done v0 ∧ run arena v0 es = Done (published, v) ∧
    take_remaining v = Done (rest, v') ∧ published ++ rest = number 0 l ∧
    filled v = bytes_total es ∧ (∀ i f, (i, f) ∈ published → (i + 1) * g ≤ filled v) ∧
    drop_vector v' = [].
Proof.
  intros Hall Hnd Hlen Hbytes Hes.
  destruct (push_all_bundle [] l new new_bundle) as (v0 & H0 & Hb0 & Hz0 & _); try done. simpl in Hb0.
  assert (ordinal v0 = 0) as Ho0 by (pose proof (b_ordinal _ _ Hb0); nia).
  destruct (run_bundle l v0 es Hb0) as (v & k & Hr & Hb & Hf & Ho); [lia|].
  destruct (take_remaining_bundle l v Hb) as (v' & Ht & Hd & _).
  rewrite Ho0 in Hr, Ho. change (N.to_nat 0) with 0%nat in *. rewrite drop_0 in Hr.
  eexists v0, _, v, _, v'. split_and!; try done; [| |].
  - rewrite Ho. simpl. rewrite <- (take_drop k l) at 3. rewrite number_app. do 2 f_equal.
    pose proof (b_count _ _ Hb). unfold vlen in *. rewrite length_take. lia.
  - lia.
  - intros i f (j & -> & Hj)%number_lookup. apply lookup_take_Some in Hj as [_ Hj].
    pose proof (b_ordinal _ _ Hb). nia.
Qed.

(** (scatter): with its complete frames published, a bundle's descriptors can be
    prepared in its completion slot without touching another slot's, and a transfer
    of any prefix of the remaining bytes then puts byte [k] of the logical range, each
    exactly once and in order, into frame [k / granule] at offset [k mod granule]. *)
Theorem vector_scatter_exact l v st slot bytes :
  bundle l v → (∀ f, Some f ∈ frames v → transferable f) → ordinal v = filled v / g → filled v < total v →
  slot < slots st → vlen (allocation st) = slots st * VECTOR_FRAMES_MAX → bytes ≤ total v - filled v →
  ∃ st' v' calls, prepare arena st slot v = Done (st', v') ∧ bundle l v' ∧
    vlen (allocation st') = vlen (allocation st) ∧
    (∀ i, (i < N.to_nat (slot * VECTOR_FRAMES_MAX) ∨ N.to_nat ((slot + 1) * VECTOR_FRAMES_MAX) ≤ i)%nat →
       allocation st' !! i = allocation st !! i) ∧
    transfer_prefix st' v' bytes = Done calls ∧
    expand calls = (λ k, (k, location g l (filled v + k))) <$> range 0 bytes.
Proof.
  intros Hb Hall Hord Hlt Hslot Hmem Hbytes.
  destruct (prepare_bundle l v st slot) as (mem & Hp & Hb' & Hl & Hd & Hk); try done. eexists _, _.
  assert (0 < count v) as Hpos by (destruct Hb; nia).
  destruct (transfer_from_spec l v mem (slot * VECTOR_FRAMES_MAX) bytes (N.to_nat (count v)) 0 0)
    as (calls & Hcalls & He); try done; try lia.
  { right. unfold start. simpl. lia. }
  rewrite N.sub_0_r in He. exists calls. split_and!; try done.
  unfold transfer_prefix, remaining, io. simpl. rewrite sub_ok by (destruct Hb; done). mred.
  rewrite (proj2 (N.leb_le bytes _)) by done. unfold io_transfer_prefix. simpl.
  rewrite (proj2 (N.leb_le bytes _)) by done. mred. rewrite Hcalls. mred. by rewrite N.eqb_refl.
Qed.
End bundle.

(** Only the granule of the arena matters to a bundle. *)
Lemma bundle_granule a a' l v : granule a = granule a' → bundle a l v → bundle a' l v.
Proof. intros Hg [H1 H2 H3 H4 H5 H6]. split; by rewrite <- ?Hg. Qed.

End ReadVector.

Module ReadVectorWitness.
Import Frames ReadVector.

Definition free_arena : Frames := mkFrames [0; 0; 0] [None; None; None] 3 512 7.

(** Frames 2 and 0 claimed. *)
Definition arena : Frames :=
  match '(f, _) ← claim_unidentified free_arena 2; '(f, _) ← claim_unidentified f 0; Done f with
  | Done f => f | Panic => free_arena end.
Definition tokens : list InFlightFrame := [mkInFlightFrame 7 3; mkInFlightFrame 7 1].

Lemma tokens_transferable : Forall (transferable arena) tokens.
Proof. by repeat constructor. Qed.

Lemma vector_tokens_leave_once_witness :
  ∃ v0 published v rest v', push_all arena new tokens = Done v0 ∧
    run arena v0 [Complete 700; Publish; Complete 200] = Done (published, v) ∧
    take_remaining v = Done (rest, v') ∧ published ++ rest = number 0 tokens.
Proof.
  destruct (vector_tokens_leave_once arena ltac:(reflexivity) tokens [Complete 700; Publish; Complete 200]
    tokens_transferable ltac:(by repeat constructor; vm_compute; set_solver) ltac:(done) ltac:(done) ltac:(done))
    as (v0 & p & v & r & v' & H1 & H2 & H3 & H4 & _).
  exists v0, p, v, r, v'. split; [exact H1|]. split; [exact H2|]. split; [exact H3|exact H4].
Defined.

(** The bundle after a completion of 700 bytes and the publication of its first frame. *)
Definition half : ReadVector :=
  mkVector (Some (mkInFlightFrame 7 1) :: replicate 31 None) 1 1 700 1024 None None.

Lemma half_bundle : bundle arena tokens half.
Proof. by split; vm_compute. Qed.

Lemma half_transferable f : Some f ∈ frames half → transferable arena f.
Proof.
  intros [[= ->]|Hf]%elem_of_cons; [reflexivity|]. by apply elem_of_replicate_inv in Hf.
Qed.

Lemma vector_scatter_exact_witness :
  ∃ st' v' calls, prepare arena (try_new 2) 1 half = Done (st', v') ∧ transfer_prefix st' v' 300 = Done calls ∧
    expand calls = (λ k, (k, location 512 tokens (700 + k))) <$> range 0 300.
Proof.
  destruct (vector_scatter_exact arena ltac:(reflexivity) tokens half (try_new 2) 1 300 half_bundle half_transferable
    ltac:(reflexivity) ltac:(reflexivity) ltac:(reflexivity) ltac:(vm_compute; reflexivity) ltac:(done))
    as (st' & v' & c & H1 & _ & _ & _ & H2 & H3).
  exists st', v', c. split; [exact H1|]. split; [exact H2|exact H3].
Defined.
End ReadVectorWitness.
