(* ===== verification/ReadSpans.v ===== *)
(** * Read spans: from one vectored read to the misses of its pages

    Models src/src/pool/read_spans.rs.  A [ReadSpan] remembers, for each page of a
    vectored read, the miss slot and generation that waits for it; [ReadSpans] keeps the
    spans in flight in fixed storage, with a free list threaded through the vacant slots
    and a route from each driver operation slot to its span.  [Routes] is the abstract
    service: a set of reserved slots and two finite maps keyed by operation slot, the
    spans in flight and the spans whose completion is being routed.  The theorems: the
    storage refines the abstract service and never panics under its protocol, a committed
    span comes back unchanged with its own completion, and the pages of a span are
    published once each, in order, exactly when their bytes have arrived. *)
From stdpp Require Import prelude gmap list relations.
From Stdlib Require Import NArith Lia.
From S2P Require Import Prelude Ids Frames ReadVector FileSlots Miss.

Open Scope N_scope.

Module ReadSpans.
Import Frames.
Abbreviation VECTOR_FRAMES_MAX := ReadVector.VECTOR_FRAMES_MAX.
Abbreviation VECTOR_BYTES_MAX := ReadVector.VECTOR_BYTES_MAX.

(** ** One span *)

Abbreviation SpanSlot := N (only parsing).

Record SpanPage := mkSpanPage {
  sp_slot : N;
  sp_generation : N;
}.

Record ReadSpan := mkReadSpan {
  pages : list (option SpanPage);
  first : PageId;
  token : OpToken;
  count : N;
  bytes : N;
  filled : N;
  published : N;
}.

Definition new (first : PageId) (token : OpToken) (count granule : N) : outcome ReadSpan :=
  assertb ((2 <=? count) && (count <=? VECTOR_FRAMES_MAX));;
  bytes ← expect (checked_mul U32_MAX count granule);
  assertb (bytes <=? VECTOR_BYTES_MAX);;
  Done (mkReadSpan (replicate (N.to_nat VECTOR_FRAMES_MAX) None) first token count bytes 0 0).

Definition install (span : ReadSpan) (ordinal slot generation : N) : outcome ReadSpan :=
  assertb (ordinal <? count span);;
  old ← vget (pages span) ordinal;
  ps ← vset (pages span) ordinal (Some (mkSpanPage slot generation));
  assertb (match old with None => true | Some _ => false end);;
  Done (mkReadSpan ps (first span) (token span) (count span) (bytes span) (filled span) (published span)).

Definition entry (span : ReadSpan) (miss : Miss.MissTable) (ordinal : N) (frame : InFlightFrame) :
    outcome (N * Miss.MissEntry) :=
  assertb (ordinal <? count span);;
  o ← vget (pages span) ordinal;
  page ← expect o;
  e ← Miss.entry miss (sp_slot page);
  assertb (Miss.me_generation e =? sp_generation page);;
  assertb (bool_decide (Miss.me_outcome e = Miss.Pending));;
  assertb (Miss.me_frame e =? InFlightFrame_frame frame);;
  assertb (bool_decide (pg_file (Miss.me_page e) = pg_file (first span)));;
  idx ← add_ U32_MAX (pg_granule_idx (first span)) ordinal;
  assertb (pg_granule_idx (Miss.me_page e) =? idx);;
  Done (sp_slot page, e).

Definition with_published (span : ReadSpan) (n : N) : ReadSpan :=
  mkReadSpan (pages span) (first span) (token span) (count span) (bytes span) (filled span) n.

(** The closure [publish_completed] gives to [take_completed], over its calls: [S] is
    what the caller's [publish] changes. *)
Fixpoint publish_each {S} (publish : ReadSpan → S → N → InFlightFrame → outcome S)
    (span : ReadSpan) (st : S) (calls : list (N * InFlightFrame)) : outcome (ReadSpan * S) :=
  match calls with
  | [] => Done (span, st)
  | (ordinal, write) :: calls =>
      assertb (ordinal =? published span);;
      st ← publish span st ordinal write;
      publish_each publish (with_published span (published span + 1)) st calls
  end.

Definition publish_completed {S} (arena : Frames) (span : ReadSpan) (vector : ReadVector.ReadVector)
    (n granule : N) (publish : ReadSpan → S → N → InFlightFrame → outcome S) (st : S) :
    outcome (ReadSpan * ReadVector.ReadVector * S) :=
  room ← sub_ (bytes span) (filled span);
  assertb (n <=? room);;
  let span := mkReadSpan (pages span) (first span) (token span) (count span) (bytes span)
    (filled span + n) (published span) in
  '(calls, vector) ← ReadVector.take_completed arena vector;
  '(span, st) ← publish_each publish span st calls;
  assertb (published span =? filled span / granule);;
  Done (span, vector, st).

Definition is_complete (span : ReadSpan) : outcome bool :=
  if filled span =? bytes span then
    assertb (published span =? count span);; Done true
  else Done false.

(** ** The storage *)

Inductive State :=
  | Free (next : option SpanSlot)
  | Preparing
  | InFlight (span : ReadSpan)
  | Completing.

Record Route := mkRoute {
  rt_token : OpToken;
  rt_slot : SpanSlot;
}.

Record ReadSpans := mkReadSpans {
  slots : list State;
  operations : list (option Route);
  free : option SpanSlot;
}.

(** The states the constructor's closure yields from [index] on, each vacant slot linked
    to the one before it, and the value it leaves in [next]. *)
Fixpoint initial_slots (n : nat) (index : N) (next : option SpanSlot) :
    list State * option SpanSlot :=
  match n with
  | O => ([], next)
  | S n => let '(ss, last) := initial_slots n (index + 1) (Some index) in (Free next :: ss, last)
  end.

Definition try_new (reads operations : N) : outcome ReadSpans :=
  assertb (0 <? operations);;
  let '(ss, next) := initial_slots (N.to_nat reads) 0 None in
  Done (mkReadSpans ss (replicate (N.to_nat operations) None) next).

Definition with_slots (rs : ReadSpans) (ss : list State) : ReadSpans :=
  mkReadSpans ss (operations rs) (free rs).

Definition reserve (rs : ReadSpans) : outcome (option SpanSlot * ReadSpans) :=
  match free rs with
  | None => Done (None, rs)
  | Some slot =>
      s ← vget (slots rs) slot;
      match s with
      | Free next =>
          ss ← vset (slots rs) slot Preparing;
          Done (Some slot, mkReadSpans ss (operations rs) next)
      | _ => Panic
      end
  end.

Definition is_preparing (s : State) : bool := match s with Preparing => true | _ => false end.
Definition is_completing (s : State) : bool := match s with Completing => true | _ => false end.

Definition cancel (rs : ReadSpans) (slot : SpanSlot) : outcome ReadSpans :=
  s ← vget (slots rs) slot;
  assertb (is_preparing s);;
  ss ← vset (slots rs) slot (Free (free rs));
  Done (mkReadSpans ss (operations rs) (Some slot)).

Definition all_some {A} (l : list (option A)) : bool :=
  forallb (λ o, match o with Some _ => true | None => false end) l.

Definition commit (rs : ReadSpans) (slot : SpanSlot) (span : ReadSpan) : outcome ReadSpans :=
  s ← vget (slots rs) slot;
  assertb (is_preparing s);;
  assertb (count span <=? vlen (pages span));;
  assertb (all_some (take (N.to_nat (count span)) (pages span)));;
  operation ← vget (operations rs) (OpToken_slot (token span));
  assertb (match operation with None => true | Some _ => false end);;
  ops ← vset (operations rs) (OpToken_slot (token span)) (Some (mkRoute (token span) slot));
  ss ← vset (slots rs) slot (InFlight span);
  Done (mkReadSpans ss ops (free rs)).

Definition completing (rs : ReadSpans) (t : OpToken) :
    outcome (option (SpanSlot * ReadSpan) * ReadSpans) :=
  o ← vget (operations rs) (OpToken_slot t);
  match o with
  | None => Done (None, rs)
  | Some route =>
      assertb (rt_token route =? t);;
      s ← vget (slots rs) (rt_slot route);
      ss ← vset (slots rs) (rt_slot route) Completing;
      match s with
      | InFlight span =>
          assertb (token span =? t);;
          Done (Some (rt_slot route, span), with_slots rs ss)
      | _ => Panic
      end
  end.

Definition resume (rs : ReadSpans) (slot : SpanSlot) (span : ReadSpan) : outcome ReadSpans :=
  s ← vget (slots rs) slot;
  assertb (is_completing s);;
  assertb (filled span <? bytes span);;
  ss ← vset (slots rs) slot (InFlight span);
  Done (with_slots rs ss).

Definition finish (rs : ReadSpans) (slot : SpanSlot) (t : OpToken) : outcome ReadSpans :=
  s ← vget (slots rs) slot;
  assertb (is_completing s);;
  o ← vget (operations rs) (OpToken_slot t);
  ops ← vset (operations rs) (OpToken_slot t) None;
  route ← expect o;
  assertb (rt_token route =? t);;
  assertb (rt_slot route =? slot);;
  ss ← vset (slots rs) slot (Free (free rs));
  Done (mkReadSpans ss ops (Some slot)).

(** ** The abstract service *)

(** Slots reserved, and what each driver operation slot routes to: a span in flight, or
    the slot and token of a span whose completion is being routed. *)
Record Routes := mkRoutes {
  reserved : gset N;
  flying : gmap N (SpanSlot * ReadSpan);
  landing : gmap N (SpanSlot * OpToken);
}.

Definition no_routes : Routes := mkRoutes ∅ ∅ ∅.

Definition used (A : Routes) (s : SpanSlot) : Prop :=
  s ∈ reserved A ∨ (∃ o span, flying A !! o = Some (s, span)) ∨ (∃ o t, landing A !! o = Some (s, t)).

Inductive call :=
  | Reserve
  | Cancel (slot : SpanSlot)
  | Commit (slot : SpanSlot) (span : ReadSpan)
  | Complete (t : OpToken)
  | Resume (slot : SpanSlot) (span : ReadSpan)
  | Finish (slot : SpanSlot) (t : OpToken).

Inductive answer :=
  | Granted (slot : option SpanSlot)
  | Routed (span : option (SpanSlot * ReadSpan))
  | Ok.

Definition exec (rs : ReadSpans) (c : call) : outcome (answer * ReadSpans) :=
  match c with
  | Reserve => '(slot, rs) ← reserve rs; Done (Granted slot, rs)
  | Cancel slot => rs ← cancel rs slot; Done (Ok, rs)
  | Commit slot span => rs ← commit rs slot span; Done (Ok, rs)
  | Complete t => '(span, rs) ← completing rs t; Done (Routed span, rs)
  | Resume slot span => rs ← resume rs slot span; Done (Ok, rs)
  | Finish slot t => rs ← finish rs slot t; Done (Ok, rs)
  end.

Section spec.
Context (reads ops : N).

(** What the service promises: which answers a call may have, and the routes after it. *)
Inductive serves (A : Routes) : call → answer → Routes → Prop :=
  | serves_grant s : s < reads → ¬ used A s →
      serves A Reserve (Granted (Some s)) (mkRoutes ({[s]} ∪ reserved A) (flying A) (landing A))
  | serves_refuse : (∀ s, s < reads → used A s) → serves A Reserve (Granted None) A
  | serves_cancel s : serves A (Cancel s) Ok (mkRoutes (reserved A ∖ {[s]}) (flying A) (landing A))
  | serves_commit s span : serves A (Commit s span) Ok
      (mkRoutes (reserved A ∖ {[s]}) (<[OpToken_slot (token span) := (s, span)]> (flying A)) (landing A))
  | serves_route t s span : flying A !! OpToken_slot t = Some (s, span) →
      serves A (Complete t) (Routed (Some (s, span)))
        (mkRoutes (reserved A) (delete (OpToken_slot t) (flying A)) (<[OpToken_slot t := (s, t)]> (landing A)))
  | serves_unrouted t : flying A !! OpToken_slot t = None → serves A (Complete t) (Routed None) A
  | serves_resume s span : serves A (Resume s span) Ok
      (mkRoutes (reserved A) (<[OpToken_slot (token span) := (s, span)]> (flying A))
        (delete (OpToken_slot (token span)) (landing A)))
  | serves_finish s t : serves A (Finish s t) Ok
      (mkRoutes (reserved A) (flying A) (delete (OpToken_slot t) (landing A))).

(** The protocol of the caller: a reservation is cancelled or committed with a full span
    whose operation slot routes nowhere, a completion names the operation in flight in its
    slot, and a completion being routed is resumed with the same token or finished. *)
Definition allowed (A : Routes) (c : call) : Prop :=
  match c with
  | Reserve => True
  | Cancel s => s ∈ reserved A
  | Commit s span => s ∈ reserved A ∧ OpToken_slot (token span) < ops ∧
      flying A !! OpToken_slot (token span) = None ∧ landing A !! OpToken_slot (token span) = None ∧
      count span ≤ vlen (pages span) ∧ all_some (take (N.to_nat (count span)) (pages span)) = true
  | Complete t => OpToken_slot t < ops ∧ landing A !! OpToken_slot t = None ∧
      ∀ s span, flying A !! OpToken_slot t = Some (s, span) → token span = t
  | Resume s span => landing A !! OpToken_slot (token span) = Some (s, token span) ∧ filled span < bytes span
  | Finish s t => landing A !! OpToken_slot t = Some (s, t)
  end.

(** The vacant slots, linked from [h]. *)
Fixpoint chain (ss : list State) (h : option SpanSlot) (l : list N) : Prop :=
  match l with
  | [] => h = None
  | i :: l => h = Some i ∧ ∃ next, ss !! N.to_nat i = Some (Free next) ∧ chain ss next l
  end.

Record represents (rs : ReadSpans) (A : Routes) : Prop := {
  rp_slots : vlen (slots rs) = reads;
  rp_operations : vlen (operations rs) = ops;
  rp_chain : ∃ l, chain (slots rs) (free rs) l ∧ NoDup l ∧
    ∀ i next, slots rs !! N.to_nat i = Some (Free next) → i ∈ l;
  rp_reserved : ∀ s, s ∈ reserved A ↔ slots rs !! N.to_nat s = Some Preparing;
  rp_flying : ∀ o s span, flying A !! o = Some (s, span) →
    OpToken_slot (token span) = o ∧ slots rs !! N.to_nat s = Some (InFlight span) ∧
    operations rs !! N.to_nat o = Some (Some (mkRoute (token span) s));
  rp_landing : ∀ o s t, landing A !! o = Some (s, t) →
    OpToken_slot t = o ∧ slots rs !! N.to_nat s = Some Completing ∧
    operations rs !! N.to_nat o = Some (Some (mkRoute t s));
  rp_inflight : ∀ s span, slots rs !! N.to_nat s = Some (InFlight span) →
    flying A !! OpToken_slot (token span) = Some (s, span);
  rp_completing : ∀ s, slots rs !! N.to_nat s = Some Completing →
    ∃ o t, landing A !! o = Some (s, t) ∧ ∀ o' t', landing A !! o' = Some (s, t') → o' = o;
  rp_routes : ∀ o r, operations rs !! N.to_nat o = Some (Some r) →
    is_Some (flying A !! o) ∨ is_Some (landing A !! o);
}.

Lemma insert_cases {A} (l : list A) (i j : N) x y :
  <[N.to_nat i := x]> l !! N.to_nat j = Some y →
  (j = i ∧ y = x) ∨ (j ≠ i ∧ l !! N.to_nat j = Some y).
Proof. rewrite list_lookup_insert_Some. intros [(? & ? & _)|[? ?]]; [left|right]; split; (done || lia). Qed.

Lemma insert_here {A} (l : list A) (i : N) x : i < vlen l → <[N.to_nat i := x]> l !! N.to_nat i = Some x.
Proof. intros H. apply list_lookup_insert_eq. unfold vlen in H. lia. Qed.

Lemma insert_there {A} (l : list A) (i j : N) x y :
  j ≠ i → l !! N.to_nat j = Some y → <[N.to_nat i := x]> l !! N.to_nat j = Some y.
Proof. intros Hne H. by rewrite list_lookup_insert_ne by lia. Qed.

(** A store where [x] was keeps every place that holds something else. *)
Lemma insert_other {A} (l : list A) (i j : N) x y z :
  l !! N.to_nat i = Some x → l !! N.to_nat j = Some y → x ≠ y → <[N.to_nat i := z]> l !! N.to_nat j = Some y.
Proof. intros Hi Hj Hne. apply insert_there; [|done]. intros ->. rewrite Hi in Hj. by simplify_eq. Qed.

Lemma chain_update ss h l i x : i ∉ l → chain ss h l → chain (<[N.to_nat i := x]> ss) h l.
Proof.
  revert h. induction l as [|j l IH]; intros h Hi; [done|]. intros (-> & next & Hj & Hl). split; [done|].
  exists next. split; [|apply IH; [set_solver|done]]. apply insert_there; set_solver.
Qed.

Lemma chain_free ss h l i : chain ss h l → i ∈ l → ∃ next, ss !! N.to_nat i = Some (Free next).
Proof.
  revert h. induction l as [|j l IH]; intros h; [set_solver|]. intros (-> & next & Hj & Hl).
  intros [->|Hi]%elem_of_cons; [eauto|by eapply IH].
Qed.

(** A slot that is not vacant is off the chain. *)
Lemma chain_off ss h l i x :
  chain ss h l → ss !! N.to_nat i = Some x → (∀ next, x ≠ Free next) → i ∉ l.
Proof. intros Hc Hx Hn Hi. destruct (chain_free _ _ _ _ Hc Hi) as [next Hf]. rewrite Hx in Hf. simplify_eq. by apply (Hn next). Qed.

Lemma used_taken rs A s : represents rs A → used A s → ∃ x, slots rs !! N.to_nat s = Some x ∧ ∀ next, x ≠ Free next.
Proof.
  intros R [H|[(o & span & H)|(o & t & H)]].
  - apply (rp_reserved _ _ R) in H. eauto.
  - apply (rp_flying _ _ R) in H as (_ & H & _). eauto.
  - apply (rp_landing _ _ R) in H as (_ & H & _). eauto.
Qed.

Lemma taken_used rs A s x :
  represents rs A → slots rs !! N.to_nat s = Some x → (∀ next, x ≠ Free next) → used A s.
Proof.
  intros R Hx Hn. destruct x as [next| |span|].
  - by destruct (Hn next).
  - left. by apply (rp_reserved _ _ R).
  - right; left. apply (rp_inflight _ _ R) in Hx. eauto.
  - right; right. apply (rp_completing _ _ R) in Hx as (o & t & H & _). eauto.
Qed.

(** Splits lookups in updated vectors and maps into the updated place and the others. *)
Ltac split_updates :=
  repeat match goal with
  | H : <[N.to_nat _ := _]> _ !! N.to_nat _ = Some _ |- _ => apply insert_cases in H as [[? ?]|[? H]]; simplify_eq
  | H : <[_ := _]> _ !! _ = Some _ |- _ => apply lookup_insert_Some in H as [[? ?]|[? H]]; simplify_eq
  | H : delete _ _ !! _ = Some _ |- _ => apply lookup_delete_Some in H as [? H]
  end.

Lemma reserve_represents rs A :
  represents rs A → ∃ a rs' A', exec rs Reserve = Done (a, rs') ∧ serves A Reserve a A' ∧ represents rs' A'.
Proof.
  intros R. destruct (rp_chain _ _ R) as (l & Hc & Hd & Hall). unfold exec, reserve.
  destruct l as [|s l]; simpl in Hc.
  - rewrite Hc. mred. eexists _, _, _. split; [done|]. split; [|exact R]. constructor. intros s Hs.
    rewrite <- (rp_slots _ _ R) in Hs. destruct (vget_ok (slots rs) s Hs) as (x & _ & Hx).
    eapply taken_used; [done..|]. intros next ->. apply Hall in Hx. set_solver.
  - destruct Hc as (-> & next & Hs & Hc). rewrite (proj2 (vget_Done _ _ _) Hs). mred.
    pose proof (vget_lt _ _ _ Hs) as Hlt. rewrite vset_ok by done. mred.
    eexists _, _, _. split; [done|]. split.
    { apply serves_grant; [by rewrite <- (rp_slots _ _ R)|]. intros Hu.
      destruct (used_taken _ _ _ R Hu) as (x & Hx & Hn). rewrite Hs in Hx. simplify_eq. by apply (Hn next). }
    apply NoDup_cons in Hd as [Hsl Hd]. destruct R as [R1 R2 _ R3 R4 R5 R6 R7 R8]. constructor; simpl; try done.
    + by rewrite vlen_insert.
    + exists l. split_and!; [by apply chain_update|done|]. intros i n Hi. split_updates.
      apply Hall in Hi. set_solver.
    + intros s'. rewrite elem_of_union, elem_of_singleton, R3. split.
      * intros [->|H]; [by apply insert_here|]. by eapply insert_other.
      * intros H. split_updates; auto.
    + intros o s' span H. destruct (R4 _ _ _ H) as (? & H' & ?). split_and!; try done. by eapply insert_other.
    + intros o s' t H. destruct (R5 _ _ _ H) as (? & H' & ?). split_and!; try done. by eapply insert_other.
    + intros s' span H. split_updates. by apply R6.
    + intros s' H. split_updates. by apply R7.
Qed.

(** A slot returned to the front of the free list. *)
Lemma chain_push rs l s :
  chain (slots rs) (free rs) l → NoDup l → s < vlen (slots rs) →
  (∀ i next, slots rs !! N.to_nat i = Some (Free next) → i ∈ l) → s ∉ l →
  ∃ l', chain (<[N.to_nat s := Free (free rs)]> (slots rs)) (Some s) l' ∧ NoDup l' ∧
    ∀ i next, <[N.to_nat s := Free (free rs)]> (slots rs) !! N.to_nat i = Some (Free next) → i ∈ l'.
Proof.
  intros Hc Hd Hlt Hall Hs. exists (s :: l). split_and!.
  - split; [done|]. exists (free rs). split; [by apply insert_here|]. by apply chain_update.
  - by apply NoDup_cons.
  - intros i next H. split_updates; [set_solver|]. apply Hall in H. set_solver.
Qed.

Lemma cancel_represents rs A s :
  represents rs A → allowed A (Cancel s) →
  ∃ a rs' A', exec rs (Cancel s) = Done (a, rs') ∧ serves A (Cancel s) a A' ∧ represents rs' A'.
Proof.
  intros R Hs. simpl in Hs. apply (rp_reserved _ _ R) in Hs as Hp. pose proof (vget_lt _ _ _ Hp) as Hlt.
  unfold exec, cancel. rewrite (proj2 (vget_Done _ _ _) Hp). mred. simpl. rewrite vset_ok by done. mred.
  eexists _, _, _. split; [done|]. split; [constructor|].
  destruct R as [R1 R2 (l & Hc & Hd & Hall) R3 R4 R5 R6 R7 R8]. constructor; simpl; try done.
  - by rewrite vlen_insert.
  - apply (chain_push rs l s); try done. by eapply chain_off.
  - intros s'. rewrite elem_of_difference, elem_of_singleton, R3. split.
    + intros [H Hne]. by apply insert_there.
    + intros H. by split_updates.
  - intros o s' span H. destruct (R4 _ _ _ H) as (? & H' & ?). split_and!; try done. by eapply insert_other.
  - intros o s' t H. destruct (R5 _ _ _ H) as (? & H' & ?). split_and!; try done. by eapply insert_other.
  - intros s' span H. split_updates. by apply R6.
  - intros s' H. split_updates. by apply R7.
Qed.

Lemma unrouted rs A o :
  represents rs A → flying A !! o = None → landing A !! o = None → o < ops →
  operations rs !! N.to_nat o = Some None.
Proof.
  intros R Hf Hl Ho. rewrite <- (rp_operations _ _ R) in Ho. destruct (vget_ok _ _ Ho) as ([r|] & _ & H); [|done].
  apply (rp_routes _ _ R) in H. rewrite Hf, Hl in H. by destruct H as [[]|[]].
Qed.

Lemma commit_represents rs A s span :
  represents rs A → allowed A (Commit s span) →
  ∃ a rs' A', exec rs (Commit s span) = Done (a, rs') ∧ serves A (Commit s span) a A' ∧ represents rs' A'.
Proof.
  intros R (Hs & Ho & Hf & Hl & Hcount & Hpages). pose proof (unrouted _ _ _ R Hf Hl Ho) as Hop.
  apply (rp_reserved _ _ R) in Hs as Hp. pose proof (vget_lt _ _ _ Hp) as Hlt. pose proof (vget_lt _ _ _ Hop) as Hlto.
  unfold exec, commit. rewrite (proj2 (vget_Done _ _ _) Hp). mred. simpl.
  rewrite (proj2 (N.leb_le _ _) Hcount), Hpages, (proj2 (vget_Done _ _ _) Hop). mred. rewrite !vset_ok by done. mred.
  eexists _, _, _. split; [done|]. split; [constructor|].
  destruct R as [R1 R2 (l & Hc & Hd & Hall) R3 R4 R5 R6 R7 R8]. constructor; simpl; rewrite ?vlen_insert; try done.
  - exists l. split_and!; [|done|].
    + apply chain_update; [|done]. by eapply chain_off.
    + intros i next H. split_updates. by eapply Hall.
  - intros s'. rewrite elem_of_difference, elem_of_singleton, R3. split.
    + intros [H Hne]. by apply insert_there.
    + intros H. by split_updates.
  - intros o s' span' H. split_updates; [split_and!; [done|by apply insert_here..]|].
    destruct (R4 _ _ _ H) as (? & H' & ?). split_and!; [done|by eapply insert_other|]. apply insert_there; [|done]. congruence.
  - intros o s' t H. destruct (R5 _ _ _ H) as (? & H' & ?). split_and!; [done|by eapply insert_other|].
    apply insert_there; [|done]. intros ->. congruence.
  - intros s' span' H. split_updates; [by rewrite lookup_insert_eq|]. rewrite lookup_insert_ne; [by apply R6|].
    intros Heq. apply R6 in H. congruence.
  - intros s' H. split_updates. by apply R7.
  - intros o r H. split_updates; [left; rewrite lookup_insert_eq; eauto|].
    destruct (R8 _ _ H) as [?|?]; [left|by right]. by rewrite lookup_insert_ne.
Qed.

Lemma complete_represents rs A t :
  represents rs A → allowed A (Complete t) →
  ∃ a rs' A', exec rs (Complete t) = Done (a, rs') ∧ serves A (Complete t) a A' ∧ represents rs' A'.
Proof.
  intros R (Ho & Hl & Ht). unfold exec, completing.
  destruct (flying A !! OpToken_slot t) as [[s span]|] eqn:Hf.
  - specialize (Ht _ _ eq_refl). destruct (rp_flying _ _ R _ _ _ Hf) as (_ & Hs & Hop). subst t.
    pose proof (vget_lt _ _ _ Hs) as Hlt. rewrite (proj2 (vget_Done _ _ _) Hop). mred. simpl. rewrite N.eqb_refl.
    rewrite (proj2 (vget_Done _ _ _) Hs). mred. rewrite vset_ok by done. mred. rewrite N.eqb_refl.
    eexists _, _, _. split; [done|]. split; [by constructor|].
    destruct R as [R1 R2 (l & Hc & Hd & Hall) R3 R4 R5 R6 R7 R8]. constructor; simpl; rewrite ?vlen_insert; try done.
    + exists l. split_and!; [|done|].
      * apply chain_update; [|done]. by eapply chain_off.
      * intros i next H. split_updates. by eapply Hall.
    + intros s'. rewrite R3. split.
      * intros H. by eapply insert_other.
      * intros H. by split_updates.
    + intros o s' span' H. split_updates. destruct (R4 _ _ _ H) as (? & H' & ?). split_and!; try done.
      eapply insert_other; [done..|]. congruence.
    + intros o s' t H. split_updates; [split_and!; [done|by apply insert_here|done]|].
      destruct (R5 _ _ _ H) as (? & H' & ?). split_and!; try done. by eapply insert_other.
    + intros s' span' H. split_updates. rewrite lookup_delete_ne; [by apply R6|].
      intros Heq. apply R6 in H. rewrite <- Heq, Hf in H. congruence.
    + intros s' H. split_updates.
      * exists (OpToken_slot (token span)), (token span). rewrite lookup_insert_eq. split; [done|].
        intros o' t' H. split_updates; [done|]. apply R5 in H as (_ & H & _). congruence.
      * destruct (R7 _ H) as (o & t & Hland & Hu). exists o, t. rewrite lookup_insert_ne by congruence. split; [done|].
        intros o' t' H'. split_updates. by eapply Hu.
    + intros o r H. destruct (decide (o = OpToken_slot (token span))) as [->|Hne]; [right; rewrite lookup_insert_eq; eauto|].
      rewrite lookup_delete_ne, lookup_insert_ne by done. by eapply R8.
  - rewrite (proj2 (vget_Done _ _ _) (unrouted _ _ _ R Hf Hl Ho)). mred. eexists _, _, _. split; [done|]. by split; [constructor|].
Qed.

Lemma landing_inj rs A s o o' t t' :
  represents rs A → landing A !! o = Some (s, t) → landing A !! o' = Some (s, t') → o = o'.
Proof.
  intros R H H'. destruct (rp_landing _ _ R _ _ _ H) as (_ & Hs & _).
  destruct (rp_completing _ _ R _ Hs) as (o1 & _ & _ & Hu). by rewrite (Hu _ _ H), (Hu _ _ H').
Qed.

Lemma resume_represents rs A s span :
  represents rs A → allowed A (Resume s span) →
  ∃ a rs' A', exec rs (Resume s span) = Done (a, rs') ∧ serves A (Resume s span) a A' ∧ represents rs' A'.
Proof.
  intros R [Hl Hfill]. destruct (rp_landing _ _ R _ _ _ Hl) as (_ & Hs & Hop). pose proof (vget_lt _ _ _ Hs) as Hlt.
  unfold exec, resume. rewrite (proj2 (vget_Done _ _ _) Hs). mred. simpl. rewrite (proj2 (N.ltb_lt _ _) Hfill).
  rewrite vset_ok by done. mred. eexists _, _, _. split; [done|]. split; [constructor|].
  pose proof (λ o o' t t', landing_inj rs A s o o' t t' R) as Hinj.
  destruct R as [R1 R2 (l & Hc & Hd & Hall) R3 R4 R5 R6 R7 R8]. constructor; simpl; rewrite ?vlen_insert; try done.
  - exists l. split_and!; [|done|].
    + apply chain_update; [|done]. by eapply chain_off.
    + intros i next H. split_updates. by eapply Hall.
  - intros s'. rewrite R3. split.
    + intros H. by eapply insert_other.
    + intros H. by split_updates.
  - intros o s' span' H. split_updates; [split_and!; [done|by apply insert_here|done]|].
    destruct (R4 _ _ _ H) as (? & H' & ?). split_and!; try done. by eapply insert_other.
  - intros o s' t H. split_updates. destruct (R5 _ _ _ H) as (? & H' & ?). split_and!; try done.
    apply insert_there; [|done]. intros ->. pose proof (Hinj _ _ _ _ H Hl). congruence.
  - intros s' span' H. split_updates; [by rewrite lookup_insert_eq|]. rewrite lookup_insert_ne; [by apply R6|].
    intros Heq. apply R6 in H. apply R4 in H as (_ & H & Hr). rewrite <- Heq in Hr. congruence.
  - intros s' H. split_updates. destruct (R7 _ H) as (o & t & Hland & Hu). exists o, t. rewrite lookup_delete_ne by congruence.
    split; [done|]. intros o' t' H'. split_updates. by eapply Hu.
  - intros o r H. destruct (decide (o = OpToken_slot (token span))) as [->|Hne]; [left; rewrite lookup_insert_eq; eauto|].
    rewrite lookup_insert_ne, lookup_delete_ne by done. by eapply R8.
Qed.

Lemma finish_represents rs A s t :
  represents rs A → allowed A (Finish s t) →
  ∃ a rs' A', exec rs (Finish s t) = Done (a, rs') ∧ serves A (Finish s t) a A' ∧ represents rs' A'.
Proof.
  intros R Hl. simpl in Hl. destruct (rp_landing _ _ R _ _ _ Hl) as (_ & Hs & Hop).
  pose proof (vget_lt _ _ _ Hs) as Hlt. pose proof (vget_lt _ _ _ Hop) as Hlto.
  unfold exec, finish. rewrite (proj2 (vget_Done _ _ _) Hs). mred. simpl. rewrite (proj2 (vget_Done _ _ _) Hop). mred.
  rewrite !vset_ok by done. mred. simpl. rewrite !N.eqb_refl. eexists _, _, _. split; [done|]. split; [constructor|].
  pose proof (λ o o' t t', landing_inj rs A s o o' t t' R) as Hinj.
  destruct R as [R1 R2 (l & Hc & Hd & Hall) R3 R4 R5 R6 R7 R8]. constructor; simpl; rewrite ?vlen_insert; try done.
  - apply (chain_push rs l s); try done. by eapply chain_off.
  - intros s'. rewrite R3. split.
    + intros H. by eapply insert_other.
    + intros H. by split_updates.
  - intros o s' span' H. destruct (R4 _ _ _ H) as (? & H' & Hr). split_and!; [done|by eapply insert_other|].
    apply insert_there; [|done]. intros ->. rewrite Hop in Hr. simplify_eq.
  - intros o s' t' H. split_updates. destruct (R5 _ _ _ H) as (? & H' & ?). split_and!; [done| |by apply insert_there].
    apply insert_there; [|done]. intros ->. pose proof (Hinj _ _ _ _ H Hl). congruence.
  - intros s' span' H. split_updates. by apply R6.
  - intros s' H. split_updates. destruct (R7 _ H) as (o & t' & Hland & Hu). exists o, t'. rewrite lookup_delete_ne by congruence.
    split; [done|]. intros o' t'' H'. split_updates. by eapply Hu.
  - intros o r H. split_updates. destruct (R8 _ _ H) as [?|?]; [by left|right]. by rewrite lookup_delete_ne.
Qed.

Lemma exec_represents rs A c :
  represents rs A → allowed A c →
  ∃ a rs' A', exec rs c = Done (a, rs') ∧ serves A c a A' ∧ represents rs' A'.
Proof.
  intros R H. destruct c; eauto using reserve_represents, cancel_represents, commit_represents, complete_represents,
    resume_represents, finish_represents.
Qed.

(** The caller's knowledge after an answer. *)
Definition after (A : Routes) (c : call) (a : answer) : Routes :=
  match c, a with
  | Reserve, Granted (Some s) => mkRoutes ({[s]} ∪ reserved A) (flying A) (landing A)
  | Cancel s, _ => mkRoutes (reserved A ∖ {[s]}) (flying A) (landing A)
  | Commit s span, _ =>
      mkRoutes (reserved A ∖ {[s]}) (<[OpToken_slot (token span) := (s, span)]> (flying A)) (landing A)
  | Complete t, Routed (Some (s, _)) =>
      mkRoutes (reserved A) (delete (OpToken_slot t) (flying A)) (<[OpToken_slot t := (s, t)]> (landing A))
  | Resume s span, _ =>
      mkRoutes (reserved A) (<[OpToken_slot (token span) := (s, span)]> (flying A))
        (delete (OpToken_slot (token span)) (landing A))
  | Finish s t, _ => mkRoutes (reserved A) (flying A) (delete (OpToken_slot t) (landing A))
  | _, _ => A
  end.

Lemma serves_after A c a A' : serves A c a A' → A' = after A c a.
Proof. by destruct 1. Qed.

(** The storage with its caller; a call is one the protocol allows. *)
Inductive step : ReadSpans * Routes → call → ReadSpans * Routes → Prop :=
  | step_call rs A c a rs' :
      allowed A c → exec rs c = Done (a, rs') → step (rs, A) c (rs', after A c a).

Inductive reachable : ReadSpans * Routes → Prop :=
  | reach_new rs : try_new reads ops = Done rs → reachable (rs, no_routes)
  | reach_step s c s' : reachable s → step s c s' → reachable s'.

(** Calls other than the completion of operation slot [o]. *)
Definition other_call (o : N) (c : call) : Prop :=
  match c with Complete t => OpToken_slot t ≠ o | _ => True end.
Definition other_step (o : N) (s s' : ReadSpans * Routes) : Prop := ∃ c, other_call o c ∧ step s c s'.

Lemma initial_slots_spec n index next :
  ∀ ss last, initial_slots n index next = (ss, last) →
  length ss = n ∧ last = (if n is S m then Some (index + N.of_nat m) else next) ∧
  ∀ i, (i < n)%nat → ss !! i = Some (Free (if i is S j then Some (index + N.of_nat j) else next)).
Proof.
  revert index next. induction n as [|n IH]; intros index next ss last H; simpl in H.
  - simplify_eq. split_and!; [done..|]. lia.
  - destruct (initial_slots n (index + 1) (Some index)) as [ss' last'] eqn:Hi. simplify_eq.
    destruct (IH _ _ _ _ Hi) as (Hl & -> & Hs). split_and!; simpl; [lia| |].
    + destruct n; f_equal; lia.
    + intros [|i] Hi'; [done|]. simpl. rewrite Hs by lia. do 2 f_equal. destruct i; f_equal; lia.
Qed.

(** The free list of a new storage runs down from its last slot. *)
Lemma initial_chain ss n :
  (∀ i, (i < n)%nat → ss !! i = Some (Free (if i is S j then Some (N.of_nat j) else None))) →
  chain ss (if n is S m then Some (N.of_nat m) else None) (N.of_nat <$> reverse (seq 0 n)).
Proof.
  induction n as [|n IH]; intros Hs; [done|]. rewrite seq_S, reverse_snoc, fmap_cons. split; [done|].
  eexists. rewrite Nat2N.id. split; [apply Hs; simpl; lia|]. apply IH. intros i Hi. apply Hs. lia.
Qed.

Lemma try_new_represents rs : try_new reads ops = Done rs → represents rs no_routes.
Proof.
  unfold try_new. intros H. inv_done. destruct (initial_slots (N.to_nat reads) 0 None) as [ss last] eqn:Hi. inv_done.
  destruct (initial_slots_spec _ _ _ _ _ Hi) as (Hl & -> & Hs).
  assert (∀ i x, ss !! i = Some x → (i < N.to_nat reads)%nat ∧ x = Free (if i is S j then Some (N.of_nat j) else None)) as Hall.
  { intros i y Hy. pose proof (lookup_lt_Some _ _ _ Hy). rewrite Hs in Hy by lia. simplify_eq. split; [lia|done]. }
  assert (∀ i x, replicate (N.to_nat ops) (@None Route) !! i = Some x → x = None) as Hops.
  { intros i y Hy. by apply lookup_replicate in Hy as [-> _]. }
  constructor; simpl; try set_solver; try (intros; by simplify_map_eq).
  - unfold vlen. lia.
  - unfold vlen. rewrite length_replicate. lia.
  - exists (N.of_nat <$> reverse (seq 0 (N.to_nat reads))). split_and!.
    + apply initial_chain. intros i H'. by rewrite Hs.
    + apply NoDup_fmap_2; [apply _|]. rewrite reverse_Permutation. apply NoDup_seq.
    + intros i next [H' _]%Hall. apply list_elem_of_fmap. exists (N.to_nat i). split; [lia|].
      apply elem_of_reverse, elem_of_seq. lia.
Qed.

Lemma step_represents s c s' : represents s.1 s.2 → step s c s' → represents s'.1 s'.2.
Proof.
  intros R Hs. destruct Hs as [rs A c a rs' Hc He]. simpl in *.
  destruct (exec_represents rs A c R Hc) as (a1 & rs1 & A1 & He1 & Hv & R1). rewrite He in He1. simplify_eq.
  by rewrite <- (serves_after _ _ _ _ Hv).
Qed.

Lemma reachable_represents s : reachable s → represents s.1 s.2.
Proof. induction 1; eauto using try_new_represents, step_represents. Qed.

(** A span in flight stays in flight under the other calls. *)
Lemma flying_kept o s span st st' :
  represents st.1 st.2 → other_step o st st' → flying st.2 !! o = Some (s, span) → flying st'.2 !! o = Some (s, span).
Proof.
  intros R (c & Hc & Hs) Hf. destruct Hs as [rs A c a rs' Hal He]. simpl in *.
  destruct c as [|s'|s' span'|t|s' span'|s' t]; simpl in *; try (destruct a as [[]|[[]|]|]; simpl; done); try done.
  - destruct Hal as (_ & _ & Hf' & _). destruct (decide (OpToken_slot (token span') = o)) as [<-|]; [congruence|].
    by rewrite lookup_insert_ne.
  - destruct a as [[]|[[]|]|]; simpl; try done. by rewrite lookup_delete_ne.
  - destruct Hal as [Hl _]. destruct (decide (OpToken_slot (token span') = o)) as [<-|]; [|by rewrite lookup_insert_ne].
    apply (rp_flying _ _ R) in Hf as (_ & H1 & H2). apply (rp_landing _ _ R) in Hl as (_ & H3 & H4). congruence.
Qed.

Lemma flying_kept_steps o s span st st' :
  represents st.1 st.2 → rtc (other_step o) st st' → flying st.2 !! o = Some (s, span) →
  represents st'.1 st'.2 ∧ flying st'.2 !! o = Some (s, span).
Proof.
  intros R Hs. induction Hs as [|x y z Hxy _ IH]; intros Hf; [done|]. apply IH.
  - destruct Hxy as (c & _ & Hxy). by eapply step_represents.
  - by eapply flying_kept.
Qed.

(** ** Properties *)

(** C25 (span routes): whatever calls the protocol allows, in any order, the span storage
    answers each of them without a panic and as the abstract service does: a reservation
    is granted a slot nobody holds and refused only when every slot is held, a completion
    is routed to the span committed for exactly its operation. *)
Theorem spans_refine_routes st c :
  reachable st → allowed st.2 c →
  ∃ a rs', exec st.1 c = Done (a, rs') ∧ serves st.2 c a (after st.2 c a) ∧ represents rs' (after st.2 c a).
Proof.
  intros H%reachable_represents Hc. destruct (exec_represents _ _ _ H Hc) as (a & rs' & A' & He & Hv & R).
  pose proof (serves_after _ _ _ _ Hv); subst A'. by exists a, rs'.
Qed.

(** C26 (span round trip): a span committed to a reserved slot comes back from the
    completion of its operation with that slot and unchanged, whatever other spans are
    reserved, committed, completed, resumed and finished in between. *)
Theorem committed_span_returns st s span st1 st2 :
  reachable st → step st (Commit s span) st1 → rtc (other_step (OpToken_slot (token span))) st1 st2 →
  ∃ rs, exec st2.1 (Complete (token span)) = Done (Routed (Some (s, span)), rs).
Proof.
  intros H%reachable_represents Hs Hr. pose proof (step_represents _ _ _ H Hs) as R1.
  assert (flying st1.2 !! OpToken_slot (token span) = Some (s, span)) as Hf
    by (inversion Hs; simplify_eq/=; apply lookup_insert_eq).
  destruct (flying_kept_steps _ _ _ _ _ R1 Hr Hf) as [R2 Hf2].
  destruct (rp_flying _ _ R2 _ _ _ Hf2) as (_ & Hsl & Hop). unfold exec, completing.
  rewrite (proj2 (vget_Done _ _ _) Hop). mred. simpl. rewrite N.eqb_refl, (proj2 (vget_Done _ _ _) Hsl). mred.
  rewrite vset_ok by eauto using vget_lt. mred. rewrite N.eqb_refl. mred. eauto.
Qed.
End spec.

(** ** One span and its vector *)

Section delivery.
Context (arena : Frames).
Abbreviation g := (granule arena).
Hypothesis (Hg : 0 < g).

(** A span and the bundle of tokens [l] it publishes. *)
Record covers (l : list InFlightFrame) (span : ReadSpan) (v : ReadVector.ReadVector) : Prop := {
  cv_bundle : ReadVector.bundle arena l v;
  cv_filled : filled span = ReadVector.filled v;
  cv_published : published span = ReadVector.ordinal v;
  cv_ordinal : ReadVector.ordinal v = ReadVector.filled v / g;
  cv_count : count span = vlen l;
  cv_bytes : bytes span = vlen l * g;
}.

(** The calls of the closure update nothing of the span but its published prefix. *)
Definition same_read (s s' : ReadSpan) : Prop :=
  pages s' = pages s ∧ first s' = first s ∧ token s' = token s ∧ count s' = count s ∧ bytes s' = bytes s.

(** Publishing a numbered list of tokens with a caller that keeps an invariant [I]. *)
Lemma publish_each_rule {S} (publish : ReadSpan → S → N → InFlightFrame → outcome S)
    (I : list InFlightFrame → S → Prop) span st l :
  (∀ k f st, l !! k = Some f → I (take k l) st →
    ∃ st', publish (with_published span (published span + N.of_nat k)) st (published span + N.of_nat k) f = Done st' ∧
      I (take (k + 1) l) st') →
  I [] st →
  ∃ st', publish_each publish span st (ReadVector.number (published span) l) =
    Done (with_published span (published span + vlen l), st') ∧ I l st'.
Proof.
  intros Hpub HI.
  assert (∀ k st, (k ≤ length l)%nat → I (take k l) st → ∃ st',
    publish_each publish (with_published span (published span + N.of_nat k)) st
      (ReadVector.number (published span + N.of_nat k) (drop k l)) =
    Done (with_published span (published span + vlen l), st') ∧ I l st') as Hgen.
  { clear st HI. intros k. remember (length l - k)%nat as m eqn:Hm. revert k Hm.
    induction m as [|m IH]; intros k Hm st Hk HI.
    - assert (k = length l) as -> by lia. rewrite drop_all. rewrite take_ge in HI by lia. exists st. done.
    - destruct (lookup_lt_is_Some_2 l k) as [f Hf]; [lia|]. rewrite (drop_S l f k Hf).
      change (f :: drop (Datatypes.S k) l) with ([f] ++ drop (Datatypes.S k) l). rewrite (ReadVector.number_app arena Hg).
      unfold ReadVector.number at 1. simpl. rewrite N.add_0_r, N.eqb_refl. mred.
      destruct (Hpub k f st Hf HI) as (st1 & Hst1 & HI1). rewrite Hst1. mred.
      replace (k + 1)%nat with (Datatypes.S k) in HI1 by lia.
      destruct (IH (Datatypes.S k) ltac:(lia) st1 ltac:(lia) HI1) as (st' & He & HI'). exists st'. split; [|done].
      replace (N.of_nat (Datatypes.S k)) with (N.of_nat k + 1) in He by lia. rewrite N.add_assoc in He. exact He. }
  destruct (Hgen 0%nat st ltac:(lia)) as (st' & He & HI'); [by rewrite take_0|]. exists st'. split; [|done].
  rewrite <- He. simpl. rewrite N.add_0_r, drop_0. by destruct span.
Qed.

(** Publishing after [n] more bytes: the caller sees the tokens of the frames completed
    by them, in order and under their ordinals. *)
Lemma publish_completed_rule {S} (publish : ReadSpan → S → N → InFlightFrame → outcome S)
    (I : list InFlightFrame → S → Prop) l span v v1 n st :
  covers l span v → filled span + n ≤ bytes span → ReadVector.record_completion v n = Done v1 →
  (∀ k f st s, k < (filled span + n) / g → published span ≤ k → l !! N.to_nat k = Some f →
    same_read span s → published s = k → I (take (N.to_nat k) l) st →
    ∃ st', publish s st k f = Done st' ∧ I (take (N.to_nat (k + 1)) l) st') →
  I (take (N.to_nat (published span)) l) st →
  ∃ span' v' st', publish_completed arena span v1 n g publish st = Done (span', v', st') ∧
    covers l span' v' ∧ same_read span span' ∧ filled span' = filled span + n ∧
    ReadVector.operation v' = ReadVector.operation v ∧ I (take (N.to_nat (published span')) l) st'.
Proof.
  intros [Hb Hf Hp Ho Hc Hby] Hle Hrec Hpub HI.
  destruct (ReadVector.record_bundle arena Hg l v n Hb) as (v1' & Hr & Hb1 & Hf1 & Ho1); [lia|].
  rewrite Hrec in Hr. injection Hr as <-.
  destruct (ReadVector.take_completed_bundle arena Hg l v1 Hb1) as (v2 & k & Ht & Hb2 & Hf2 & Ho2 & Hd2 & Hle2).
  destruct (ReadVector.take_completed_keeps arena Hg _ _ _ _ Hb1 Ht) as (_ & _ & _ & Hop & _).
  unfold publish_completed. rewrite sub_ok by lia. mred. rewrite (proj2 (N.leb_le n _)) by lia. rewrite Ht. mred.
  set (s0 := mkReadSpan (pages span) (first span) (token span) (count span) (bytes span) (filled span + n) (published span)).
  set (o := N.to_nat (ReadVector.ordinal v)) in *. set (l1 := take k (drop o l)).
  rewrite Ho1 in Ho2, Ht |- *. fold o in Ho2 |- *. fold l1.
  assert (length l1 = k) as Hl1.
  { unfold l1. rewrite length_take, length_drop. unfold vlen in Hle2. lia. }
  destruct (publish_each_rule publish (λ done st, I (take o l ++ done) st) s0 st l1) as (st' & He & HI').
  - intros j f st0 Hj HI0. unfold l1 in Hj. apply lookup_take_Some in Hj as [Hj Hjk]. rewrite lookup_drop in Hj.
    unfold s0 at 2. simpl. rewrite Hp.
    destruct (Hpub (ReadVector.ordinal v + N.of_nat j) f st0 (with_published s0 (published s0 + N.of_nat j))) as (st1 & H1 & H2).
    + rewrite Hf, <- Hf1, <- Hd2. lia.
    + lia.
    + rewrite <- Hj. f_equal. lia.
    + done.
    + simpl. lia.
    + unfold l1 in HI0. rewrite take_take in HI0. rewrite ReadVector.take_add_drop in HI0 by exact Hg.
      rewrite Nat.min_l in HI0 by lia. replace (N.to_nat (ReadVector.ordinal v + N.of_nat j)) with (o + j)%nat by lia. done.
    + exists st1. unfold s0 in H1 at 2. simpl in H1. rewrite Hp in H1. split; [done|].
      unfold l1. rewrite take_take, ReadVector.take_add_drop by exact Hg. rewrite Nat.min_l by lia.
      replace (o + (j + 1))%nat with (N.to_nat (ReadVector.ordinal v + N.of_nat j + 1)) by lia. done.
  - rewrite app_nil_r. rewrite Hp in HI. done.
  - unfold s0 in He at 2. simpl in He. rewrite Hp in He. fold o in He.
    rewrite He. mred. simpl. unfold vlen. rewrite Hl1.
    assert (ReadVector.ordinal v + N.of_nat k = ReadVector.ordinal v2) as -> by lia.
    rewrite Hf, <- Hf1, <- Hd2, N.eqb_refl. eexists _, _, _. split; [done|]. simpl.
    split_and!; try done.
    + split; simpl; rewrite ?Hf2; done || lia.
    + lia.
    + rewrite Hop. unfold ReadVector.record_completion in Hrec. by inv_done.
    + rewrite Ho2, <- ReadVector.take_add_drop by exact Hg. done.
Qed.

Lemma is_complete_covers l span v :
  covers l span v → is_complete span = Done (ReadVector.filled v =? vlen l * g).
Proof.
  intros [Hb Hf Hp Ho Hc Hby]. unfold is_complete. rewrite Hf, Hby.
  destruct (N.eqb_spec (ReadVector.filled v) (vlen l * g)) as [Heq|]; [|done].
  rewrite Hp, Ho, Hc, Heq, N.div_mul, N.eqb_refl by lia. done.
Qed.

Lemma new_covers l v pg t :
  ReadVector.bundle arena l v → ReadVector.filled v = 0 →
  2 ≤ vlen l → vlen l ≤ VECTOR_FRAMES_MAX → vlen l * g ≤ VECTOR_BYTES_MAX →
  ∃ span, new pg t (vlen l) g = Done span ∧ covers l span v ∧
    pages span = replicate (N.to_nat VECTOR_FRAMES_MAX) None ∧ first span = pg ∧ token span = t.
Proof.
  intros Hb Hz H2 Hmax Hbytes. unfold new. rewrite (proj2 (N.leb_le 2 _) H2), (proj2 (N.leb_le _ _) Hmax). simpl. mred.
  unfold checked_mul. assert (vlen l * g ≤ U32_MAX) as Hu by (unfold U32_MAX, ReadVector.VECTOR_BYTES_MAX in *; lia).
  rewrite (proj2 (N.leb_le _ _) Hu). mred. rewrite (proj2 (N.leb_le _ _) Hbytes). eexists. split; [done|]. split; [|done].
  assert (ReadVector.ordinal v = 0) as Ho by (pose proof (ReadVector.b_ordinal _ _ _ Hb); nia).
  split; simpl; rewrite ?Hz, ?Ho; try done.
Qed.

(** A read whose backend reports [ns] bytes in turn; [calls] collects what is published. *)
Fixpoint deliver (span : ReadSpan) (v : ReadVector.ReadVector) (calls : list (N * InFlightFrame)) (ns : list N) :
    outcome (ReadSpan * ReadVector.ReadVector * list (N * InFlightFrame)) :=
  match ns with
  | [] => Done (span, v, calls)
  | n :: ns =>
      v ← ReadVector.record_completion v n;
      '(span, v, calls) ← publish_completed arena span v n g
        (λ _ calls ordinal write, Done (calls ++ [(ordinal, write)])) calls;
      deliver span v calls ns
  end.

Definition total_bytes (ns : list N) : N := foldr N.add 0 ns.

Lemma number_snoc l k f : l !! N.to_nat k = Some f →
  ReadVector.number 0 (take (N.to_nat (k + 1)) l) = ReadVector.number 0 (take (N.to_nat k) l) ++ [(k, f)].
Proof.
  intros Hf. replace (N.to_nat (k + 1)) with (S (N.to_nat k)) by lia. rewrite (take_S_r _ _ f Hf), (ReadVector.number_app arena Hg).
  do 2 f_equal. unfold vlen. rewrite length_take. apply lookup_lt_Some in Hf. unfold ReadVector.number. simpl. do 2 f_equal. lia.
Qed.

Lemma deliver_covers l span v ns :
  covers l span v → filled span + total_bytes ns ≤ bytes span →
  ∃ span' v', deliver span v (ReadVector.number 0 (take (N.to_nat (published span)) l)) ns =
    Done (span', v', ReadVector.number 0 (take (N.to_nat (published span')) l)) ∧
    covers l span' v' ∧ filled span' = filled span + total_bytes ns.
Proof.
  revert span v. induction ns as [|n ns IH]; intros span v Hc Hle; simpl in *.
  - exists span, v. split_and!; [done..|lia].
  - destruct (ReadVector.record_bundle arena Hg l v n (cv_bundle _ _ _ Hc)) as (v1 & Hr & _).
    { pose proof (cv_filled _ _ _ Hc). pose proof (cv_bytes _ _ _ Hc). lia. }
    rewrite Hr. mred.
    destruct (publish_completed_rule (λ _ calls ordinal write, Done (calls ++ [(ordinal, write)]))
      (λ done calls, calls = ReadVector.number 0 done) l span v v1 n (ReadVector.number 0 (take (N.to_nat (published span)) l)))
      as (s1 & v2 & calls & He & Hc1 & Hs1 & Hf1 & _ & ->); try done; [lia| |].
    { intros k f st s _ _ Hk _ _ ->. eexists. split; [done|]. symmetry. by apply number_snoc. }
    rewrite He. mred. destruct Hs1 as (_ & _ & _ & _ & Hby1).
    destruct (IH s1 v2 Hc1) as (s' & v' & Hd & Hc' & Hf'); [lia|]. exists s', v'. split_and!; [done..|lia].
Qed.

(** (span delivery): a read of distinct claimed frames, whatever number of bytes each
    of its completions reports, publishes each page exactly once, in order and under its
    ordinal, as soon as all bytes of the page have arrived; the span is complete exactly
    when every byte has arrived, and then every page has been published. *)
Theorem span_publishes_in_order l pg t ns :
  Forall (ReadVector.transferable arena) l → NoDup (InFlightFrame_frame <$> l) →
  2 ≤ vlen l → vlen l ≤ VECTOR_FRAMES_MAX → vlen l * g ≤ VECTOR_BYTES_MAX → total_bytes ns ≤ vlen l * g →
  ∃ v span span' v' calls,
    ReadVector.push_all arena ReadVector.new l = Done v ∧ new pg t (vlen l) g = Done span ∧
    deliver span v [] ns = Done (span', v', calls) ∧
    calls = ReadVector.number 0 (take (N.to_nat (total_bytes ns / g)) l) ∧
    is_complete span' = Done (total_bytes ns =? vlen l * g) ∧
    (total_bytes ns = vlen l * g → calls = ReadVector.number 0 l).
Proof.
  intros Hall Hnd H2 Hmax Hbytes Hns.
  destruct (ReadVector.push_all_bundle arena Hg [] l ReadVector.new (ReadVector.new_bundle arena))
    as (v & Hv & Hb & Hz & _); try done. simpl in Hb.
  destruct (new_covers l v pg t Hb Hz H2 Hmax Hbytes) as (span & Hspan & Hc & _).
  assert (published span = 0 ∧ filled span = 0) as [Hp0 Hf0].
  { rewrite (cv_published _ _ _ Hc), (cv_ordinal _ _ _ Hc), (cv_filled _ _ _ Hc), Hz. by rewrite N.Div0.div_0_l. }
  destruct (deliver_covers l span v ns Hc) as (span' & v' & Hd & Hc' & Hf').
  { rewrite Hf0, (cv_bytes _ _ _ Hc). lia. }
  rewrite Hp0 in Hd. rewrite Hf0, N.add_0_l in Hf'.
  assert (published span' = total_bytes ns / g) as Hp'.
  { by rewrite (cv_published _ _ _ Hc'), (cv_ordinal _ _ _ Hc'), <- (cv_filled _ _ _ Hc'), Hf'. }
  rewrite Hp' in Hd. eexists v, span, span', v', _. split_and!; [done..| |].
  - by rewrite (is_complete_covers _ _ _ Hc'), <- (cv_filled _ _ _ Hc'), Hf'.
  - intros ->. rewrite N.div_mul by lia. rewrite take_ge by (unfold vlen; lia). done.
Qed.
End delivery.

(** Only the frame size of the arena matters. *)
Lemma covers_granule a a' l span v : granule a = granule a' → covers a l span v → covers a' l span v.
Proof. intros Heq [H1 H2 H3 H4 H5 H6]. constructor; rewrite <- ?Heq; try done. by eapply ReadVector.bundle_granule. Qed.
End ReadSpans.

Module ReadSpansWitness.
Import ReadSpans.

Definition pg : PageId := mkPageId (mkFileId 7 0 1) 3.
Definition tok : OpToken := OpToken_new 1 5.
Definition installed : ReadSpan :=
  match (s ← new pg tok 2 512; s ← install s 0 4 9; install s 1 5 9) with
  | Done s => s | Panic => mkReadSpan [] pg tok 0 0 0 0 end.

(** Two span slots, three operation slots; one slot reserved. *)
Definition fresh : ReadSpans := mkReadSpans [Free None; Free (Some 0)] [None; None; None] (Some 1).
Definition one_reserved : ReadSpans := mkReadSpans [Free None; Preparing] [None; None; None] (Some 0).
Definition known : Routes := mkRoutes {[1]} ∅ ∅.

Lemma one_reserved_reachable : reachable 2 3 (one_reserved, known).
Proof.
  eapply (reach_step 2 3 (fresh, no_routes) Reserve); [by apply reach_new|].
  replace known with (after no_routes Reserve (Granted (Some 1))) by (by vm_compute).
  by apply (step_call 3 fresh no_routes Reserve (Granted (Some 1)) one_reserved).
Defined.

Lemma commit_allowed : allowed 3 known (Commit 1 installed).
Proof. repeat split; try (by vm_compute). Defined.

Lemma spans_refine_routes_witness :
  ∃ a rs', exec one_reserved (Commit 1 installed) = Done (a, rs') ∧
    serves 2 known (Commit 1 installed) a (after known (Commit 1 installed) a).
Proof.
  destruct (spans_refine_routes 2 3 (one_reserved, known) (Commit 1 installed) one_reserved_reachable commit_allowed)
    as (a & rs' & H1 & H2 & _).
  exists a, rs'. split; [exact H1|exact H2].
Defined.

Definition one_flying : ReadSpans :=
  mkReadSpans [Free None; InFlight installed] [None; Some (mkRoute tok 1); None] (Some 0).
Definition known1 : Routes := after known (Commit 1 installed) Ok.

Lemma committed_span_returns_witness :
  ∃ rs, exec (mkReadSpans [Preparing; InFlight installed] [None; Some (mkRoute tok 1); None] None) (Complete tok) =
    Done (Routed (Some (1, installed)), rs).
Proof.
  apply (committed_span_returns 2 3 (one_reserved, known) 1 installed (one_flying, known1)
    (mkReadSpans [Preparing; InFlight installed] [None; Some (mkRoute tok 1); None] None,
      after known1 Reserve (Granted (Some 0)))).
  - exact one_reserved_reachable.
  - by apply step_call; [exact commit_allowed|].
  - apply rtc_once. exists Reserve. split; [done|]. by apply step_call.
Defined.

Lemma span_publishes_in_order_witness :
  ∃ v span span' v' calls,
    ReadVector.push_all ReadVectorWitness.arena ReadVector.new ReadVectorWitness.tokens = Done v ∧
    new pg tok 2 512 = Done span ∧ deliver ReadVectorWitness.arena span v [] [700; 324] = Done (span', v', calls) ∧
    calls = ReadVector.number 0 ReadVectorWitness.tokens.
Proof.
  destruct (span_publishes_in_order ReadVectorWitness.arena ltac:(reflexivity) ReadVectorWitness.tokens pg tok [700; 324]
    ReadVectorWitness.tokens_transferable ltac:(by repeat constructor; vm_compute; set_solver)
    ltac:(done) ltac:(done) ltac:(done) ltac:(done)) as (v & s & s' & v' & c & H1 & H2 & H3 & _ & _ & H4).
  exists v, s, s', v', c. split; [exact H1|]. split; [exact H2|]. split; [exact H3|]. by apply H4.
Defined.
End ReadSpansWitness.
