(* ===== verification/Slab.v ===== *)
(** * The completion slab

    Models [CompletionSlab] of src/src/driver.rs: a fixed array of generational slots
    with a stack of free ones.  [occupied] is the abstract view the driver's proofs
    work on, the list of (slot, generation, payload) of the slots in use, and each
    operation is characterised by its effect on that list up to permutation. *)
From stdpp Require Import prelude list.
From Stdlib Require Import NArith Lia.
From S2P Require Import Prelude Ids.

Open Scope N_scope.

Module CompletionSlab.

Record SlabSlot (T : Type) := mkSlot {
  generation : N;
  payload : option T;
}.
Arguments mkSlot {T} _ _.
Arguments generation {T} _.
Arguments payload {T} _.

(** [free] is the source's vector with its end, where slots are pushed and popped,
    at the head of the list. *)
Record CompletionSlab (T : Type) := mkSlab {
  slots : list (SlabSlot T);
  free : list N;
}.
Arguments mkSlab {T} _ _.
Arguments slots {T} _.
Arguments free {T} _.

Definition indexes (n : nat) : list N := N.of_nat <$> seq 0 n.

Section slab.
Context {T : Type}.
Implicit Types (s : CompletionSlab T) (p : T).

Definition try_with_capacity (capacity : N) : CompletionSlab T :=
  mkSlab (replicate (N.to_nat capacity) (mkSlot 0 None)) (indexes (N.to_nat capacity)).

Definition contains s (t : OpToken) : outcome bool :=
  e ← vget (slots s) (OpToken_slot t);
  Done (match payload e with
        | Some _ => OpToken_new (OpToken_slot t) (generation e) =? t
        | None => false
        end).

Definition token s (slot : N) : outcome OpToken :=
  e ← vget (slots s) slot; Done (OpToken_new slot (generation e)).

Definition reserve s : CompletionSlab T * option N :=
  match free s with
  | [] => (s, None)
  | slot :: rest => (mkSlab (slots s) rest, Some slot)
  end.

Definition fill s (slot : N) (p : T) : outcome (CompletionSlab T * OpToken) :=
  e ← vget (slots s) slot;
  assertb (match payload e with None => true | Some _ => false end);;
  assertb (generation e <? U32_MAX);;
  l ← vset (slots s) slot (mkSlot (generation e + 1) (Some p));
  Done (mkSlab l (free s), OpToken_new slot (generation e + 1)).

Definition peek s (slot : N) : outcome T :=
  e ← vget (slots s) slot; expect (payload e).

(** A store through the reference [peek_mut] returns. *)
Definition peek_mut s (slot : N) (f : T → T) : outcome (CompletionSlab T) :=
  e ← vget (slots s) slot;
  p ← expect (payload e);
  l ← vset (slots s) slot (mkSlot (generation e) (Some (f p)));
  Done (mkSlab l (free s)).

Definition reclaim s (slot : N) : outcome (CompletionSlab T * (OpToken * T)) :=
  e ← vget (slots s) slot;
  p ← expect (payload e);
  l ← vset (slots s) slot (mkSlot (generation e) None);
  Done (mkSlab l (slot :: free s), (OpToken_new slot (generation e), p)).

(** ** The slots in use *)

Definition slot_entry (i : nat) (e : SlabSlot T) : option (N * N * T) :=
  (λ p, (N.of_nat i, generation e, p)) <$> payload e.

Definition occupied s : list (N * N * T) := omap id (imap slot_entry (slots s)).

Definition entry_token (o : N * N * T) : OpToken := OpToken_new o.1.1 o.1.2.

(** No slot is lost: free ones are vacant and every vacant one is free, or reserved. *)
Record slab_wf (reserved : list N) s : Prop := {
  w_nodup : NoDup (reserved ++ free s);
  w_vacant : ∀ i e, slots s !! N.to_nat i = Some e → (payload e = None ↔ i ∈ reserved ++ free s);
  w_range : ∀ i, i ∈ reserved ++ free s → i < vlen (slots s);
  w_width : vlen (slots s) ≤ U32_MAX;
}.

Lemma occupied_elem s i g p :
  (i, g, p) ∈ occupied s ↔ slots s !! N.to_nat i = Some (mkSlot g (Some p)).
Proof.
  unfold occupied. rewrite list_elem_of_omap. split.
  - intros (o & Ho & Heq). simpl in Heq. subst o. apply list_elem_of_lookup in Ho as [k Hk].
    rewrite list_lookup_imap in Hk. destruct (slots s !! k) as [[g' [p'|]]|] eqn:Hs; try done.
    cbn in Hk. injection Hk as <- <- <-. by rewrite Nat2N.id.
  - intros Hs. exists (Some (i, g, p)). split; [|done]. apply list_elem_of_lookup. exists (N.to_nat i).
    rewrite list_lookup_imap, Hs. simpl. unfold slot_entry. simpl. by rewrite N2Nat.id.
Qed.

(** Reading past position [k] of a vector of optional entries. *)
Lemma omap_imap_insert {A B} (f : nat → A → option B) (l : list A) (i : nat) (x y : A) :
  l !! i = Some x →
  ∃ rest, omap id (imap f l) ≡ₚ option_list (f i x) ++ rest ∧
    omap id (imap f (<[i := y]> l)) ≡ₚ option_list (f i y) ++ rest.
Proof.
  revert f i. induction l as [|a l IH]; intros f [|i] Hx; simplify_eq/=.
  - exists (omap id (imap (f ∘ S) l)). split; destruct (f _ _); done.
  - destruct (IH (f ∘ S) i Hx) as (rest & H1 & H2). simpl in *.
    exists (option_list (f 0%nat a) ++ rest).
    assert (∀ z l', omap id (imap (f ∘ S) l') ≡ₚ option_list z ++ rest →
      (match f 0%nat a with Some b => b :: omap id (imap (f ∘ S) l') | None => omap id (imap (f ∘ S) l') end) ≡ₚ
        option_list z ++ option_list (f 0%nat a) ++ rest) as Hgo.
    { intros z l' Hl. destruct (f 0%nat a); simpl; rewrite Hl; [apply Permutation_middle|done]. }
    split; apply Hgo; done.
Qed.

Lemma update_occupied s i e e' (l : list N) :
  slots s !! N.to_nat i = Some e →
  ∃ rest, occupied s ≡ₚ option_list (slot_entry (N.to_nat i) e) ++ rest ∧
    occupied (mkSlab (<[N.to_nat i := e']> (slots s)) l) ≡ₚ option_list (slot_entry (N.to_nat i) e') ++ rest.
Proof. apply omap_imap_insert. Qed.

Lemma slot_entry_some i g p : slot_entry (N.to_nat i) (mkSlot g (Some p)) = Some (i, g, p).
Proof. unfold slot_entry. simpl. by rewrite N2Nat.id. Qed.

Lemma occupied_slots_nodup s : NoDup (occupied s).*1.*1.
Proof.
  unfold occupied. generalize (slots s). intros l.
  assert (∀ k, NoDup (omap id (imap (λ i, slot_entry (k + i)) l)).*1.*1 ∧
    ∀ o, o ∈ omap id (imap (λ i, slot_entry (k + i)) l) → N.of_nat k ≤ o.1.1) as Hgo.
  { induction l as [|e l IH]; intros k; simpl; [split; [apply NoDup_nil_2|set_solver]|].
    destruct (IH (S k)) as [Hnd Hle]. rewrite Nat.add_0_r.
    assert (imap ((λ i, slot_entry (k + i)%nat) ∘ S) l = imap (λ i, slot_entry (S k + i)) l) as ->
      by (apply imap_ext; intros i x _; unfold compose; f_equal; lia).
    assert (slot_entry k e = (λ p, (N.of_nat k, generation e, p)) <$> payload e) as -> by done.
    destruct (payload e) as [p|]; simpl.
    - split.
      + apply NoDup_cons. split; [|done]. intros (x & Hx & (o & -> & Ho)%list_elem_of_fmap)%list_elem_of_fmap.
        specialize (Hle o Ho). lia.
      + intros o [->|Ho]%elem_of_cons; [simpl; lia|]. specialize (Hle o Ho). lia.
    - split; [done|]. intros o Ho. specialize (Hle o Ho). lia. }
  apply (Hgo 0%nat).
Qed.

Lemma occupied_uniq s o1 o2 : o1 ∈ occupied s → o2 ∈ occupied s → o1.1.1 = o2.1.1 → o1 = o2.
Proof.
  destruct o1 as [[i g] p], o2 as [[i' g'] p']. rewrite !occupied_elem. simpl. intros H1 H2 ->. by simplify_eq.
Qed.

Lemma occupied_range s i g p : (i, g, p) ∈ occupied s → i < vlen (slots s).
Proof. rewrite occupied_elem. apply vget_lt. Qed.

Lemma occupied_nodup s : NoDup (occupied s).
Proof. eapply NoDup_fmap_1, NoDup_fmap_1, occupied_slots_nodup. Qed.

(** The free and reserved slots are those not in use. *)
Lemma occupied_count r s : slab_wf r s → vlen (occupied s) + vlen (r ++ free s) = vlen (slots s).
Proof.
  intros [Hnd Hv Hr _].
  assert ((occupied s).*1.*1 ++ (r ++ free s) ≡ₚ indexes (length (slots s))) as Hp.
  { apply NoDup_Permutation.
    - apply NoDup_app. split_and!; [apply occupied_slots_nodup| |done].
      intros i (x & -> & (o & -> & Ho)%list_elem_of_fmap)%list_elem_of_fmap Hi. destruct o as [[i g] p]. simpl in *.
      apply occupied_elem in Ho. by apply (Hv i _ Ho) in Hi.
    - apply NoDup_fmap_2; [intros ? ? ?; lia|apply NoDup_seq].
    - intros i. unfold indexes. rewrite elem_of_app, (list_elem_of_fmap N.of_nat). split.
      + intros [(x & -> & (o & -> & Ho)%list_elem_of_fmap)%list_elem_of_fmap|Hi].
        * destruct o as [[i g] p]. simpl. apply occupied_range in Ho. exists (N.to_nat i).
          rewrite N2Nat.id, elem_of_seq. unfold vlen in Ho. split; [done|lia].
        * specialize (Hr i Hi). exists (N.to_nat i). rewrite N2Nat.id, elem_of_seq. unfold vlen in Hr. split; [done|lia].
      + intros (k & -> & [_ Hk]%elem_of_seq). destruct (lookup_lt_is_Some_2 (slots s) k) as [[g o] He]; [lia|].
        rewrite <- (Nat2N.id k) in He. destruct o as [p|].
        * left. apply (list_elem_of_fmap_2' fst _ (N.of_nat k, g)); [|done].
          apply (list_elem_of_fmap_2' fst _ (N.of_nat k, g, p)); [|done]. by apply occupied_elem.
        * right. by apply (Hv _ _ He). }
  apply Permutation_length in Hp. unfold indexes, vlen in *. rewrite length_app, !length_fmap, length_seq in Hp. lia.
Qed.

(** ** The operations on the view *)

Lemma new_wf capacity : capacity ≤ U32_MAX → slab_wf [] (try_with_capacity capacity).
Proof.
  intros Hc. split; simpl.
  - apply NoDup_fmap_2; [intros ? ? ?; lia|apply NoDup_seq].
  - intros i e [-> Hi]%lookup_replicate. simpl. split; [intros _|done]. unfold indexes. rewrite list_elem_of_fmap.
    exists (N.to_nat i). rewrite N2Nat.id, elem_of_seq. split; [done|lia].
  - intros i (k & -> & [_ Hk]%elem_of_seq)%list_elem_of_fmap. unfold vlen. rewrite length_replicate. lia.
  - unfold vlen. rewrite length_replicate. lia.
Qed.

Lemma new_occupied capacity : occupied (try_with_capacity capacity) = [].
Proof.
  destruct (occupied (try_with_capacity capacity)) as [|[[i g] p] l] eqn:Ho; [done|].
  assert ((i, g, p) ∈ occupied (try_with_capacity capacity)) as Hin by (rewrite Ho; set_solver).
  apply occupied_elem in Hin. simpl in Hin. by apply lookup_replicate in Hin as [Hin _].
Qed.

Lemma reserve_ok s :
  slab_wf [] s → vlen (occupied s) < vlen (slots s) →
  ∃ s' slot, reserve s = (s', Some slot) ∧ slab_wf [slot] s' ∧ slots s' = slots s ∧ occupied s' = occupied s.
Proof.
  intros Hw Hlt. pose proof (occupied_count [] s Hw) as Hc. unfold reserve. simpl in Hc.
  destruct (free s) as [|slot rest] eqn:Hf; [unfold vlen in *; simpl in Hc; lia|].
  eexists _, slot. split; [done|]. split; [|done]. destruct Hw as [Hnd Hv Hr Hwd]. simpl in *. rewrite Hf in *.
  split; simpl; done.
Qed.

Lemma fill_ok s slot p :
  slab_wf [slot] s → (∀ e, e ∈ slots s → generation e < U32_MAX) →
  ∃ s' g, slots s !! N.to_nat slot = Some (mkSlot g None) ∧ fill s slot p = Done (s', OpToken_new slot (g + 1)) ∧
    slab_wf [] s' ∧ occupied s' ≡ₚ (slot, g + 1, p) :: occupied s ∧
    slots s' = <[N.to_nat slot := mkSlot (g + 1) (Some p)]> (slots s).
Proof.
  intros [Hnd Hv Hr Hwd] Hgen. assert (slot < vlen (slots s)) as Hlt by (apply Hr; set_solver).
  destruct (vget_ok _ _ Hlt) as ([g o] & Hget & He). assert (o = None) as -> by (apply (Hv _ _ He); set_solver).
  eexists _, g. split; [done|]. unfold fill. rewrite Hget. mred. simpl.
  rewrite (proj2 (N.ltb_lt g U32_MAX)) by (apply (Hgen (mkSlot g None)); by eapply list_elem_of_lookup_2).
  rewrite vset_ok by done. mred. split; [done|]. apply NoDup_cons in Hnd as [Hnot Hnd]. split.
  - split; simpl; rewrite ?vlen_insert; try done.
    + intros i e. destruct (decide (i = slot)) as [->|Hne].
      * rewrite list_lookup_insert_eq by (unfold vlen in Hlt; lia). intros [= <-]. simpl. naive_solver.
      * rewrite list_lookup_insert_ne by lia. intros Hi. rewrite (Hv i e Hi). set_solver.
    + intros i Hi. apply Hr. set_solver.
  - split; [|done]. destruct (update_occupied s slot _ (mkSlot (g + 1) (Some p)) (free s) He) as (rest & H1 & H2).
    rewrite H2, slot_entry_some. simpl in *. by rewrite H1.
Qed.

Section live.
Context (s : CompletionSlab T) (i g : N) (p : T).
Hypothesis (Hwf : slab_wf [] s).
Hypothesis (Hin : (i, g, p) ∈ occupied s).

Lemma live_get : vget (slots s) i = Done (mkSlot g (Some p)).
Proof. by apply vget_Done, occupied_elem. Qed.

Lemma live_slot : OpToken_slot (OpToken_new i g) = i.
Proof. apply OpToken_slot_new. pose proof (occupied_range _ _ _ _ Hin). pose proof (w_width _ _ Hwf). lia. Qed.

Lemma token_ok : token s i = Done (OpToken_new i g).
Proof. unfold token. rewrite live_get. done. Qed.

Lemma contains_ok : contains s (OpToken_new i g) = Done true.
Proof. unfold contains. rewrite live_slot, live_get. mred. simpl. by rewrite N.eqb_refl. Qed.

Lemma peek_ok : peek s i = Done p.
Proof. unfold peek. rewrite live_get. done. Qed.

Lemma peek_mut_ok f :
  ∃ s' rest, peek_mut s i f = Done s' ∧ slab_wf [] s' ∧ free s' = free s ∧
    slots s' = <[N.to_nat i := mkSlot g (Some (f p))]> (slots s) ∧
    occupied s ≡ₚ (i, g, p) :: rest ∧ occupied s' ≡ₚ (i, g, f p) :: rest.
Proof.
  pose proof live_get as Hget. pose proof (proj1 (occupied_elem s i g p) Hin) as He.
  destruct (update_occupied s i _ (mkSlot g (Some (f p))) (free s) He) as (rest & H1 & H2).
  rewrite slot_entry_some in H1, H2. eexists _, rest. unfold peek_mut. rewrite Hget. mred. simpl.
  rewrite vset_ok by (by eapply occupied_range). split; [done|]. split; [|done]. destruct Hwf as [Hnd Hv Hr Hwd].
  split; simpl; rewrite ?vlen_insert; try done. intros j e. destruct (decide (j = i)) as [->|Hne].
  - rewrite list_lookup_insert_eq by (by eapply lookup_lt_Some). intros [= <-]. simpl. pose proof (Hv _ _ He) as Hiff. simpl in Hiff. naive_solver.
  - rewrite list_lookup_insert_ne by lia. apply Hv.
Qed.

Lemma peek_mut_id : peek_mut s i (λ _, p) = Done s.
Proof.
  unfold peek_mut. rewrite live_get. mred. simpl. rewrite vset_ok by (by eapply occupied_range). mred.
  rewrite list_insert_id by (by apply occupied_elem). by destruct s.
Qed.

Lemma reclaim_ok :
  ∃ s', reclaim s i = Done (s', (OpToken_new i g, p)) ∧ slab_wf [] s' ∧
    slots s' = <[N.to_nat i := mkSlot g None]> (slots s) ∧ occupied s ≡ₚ (i, g, p) :: occupied s'.
Proof.
  pose proof live_get as Hget. pose proof (proj1 (occupied_elem s i g p) Hin) as He.
  destruct (update_occupied s i _ (mkSlot g None) (i :: free s) He) as (rest & H1 & H2).
  rewrite slot_entry_some in H1. simpl in *. eexists. unfold reclaim. rewrite Hget. mred. simpl.
  rewrite vset_ok by (by eapply occupied_range). split; [done|]. split; [|split; [done|by rewrite H2]].
  destruct Hwf as [Hnd Hv Hr Hwd]. simpl in *.
  assert (i ∉ free s) as Hnot by (intros Hf; by apply (Hv _ _ He) in Hf).
  split; simpl; rewrite ?vlen_insert; try done.
  - by apply NoDup_cons.
  - intros j e. destruct (decide (j = i)) as [->|Hne].
    + rewrite list_lookup_insert_eq by (by eapply lookup_lt_Some). intros [= <-]. simpl. set_solver.
    + rewrite list_lookup_insert_ne by lia. intros Hj. rewrite (Hv j e Hj). set_solver.
  - intros j [->|Hj]%elem_of_cons; [by eapply occupied_range|by apply Hr].
Qed.
End live.

(** A token is accepted exactly when it names a slot in use at its generation. *)
Lemma contains_iff r s t :
  slab_wf r s → OpToken_slot t < vlen (slots s) →
  ∃ b, contains s t = Done b ∧ (b = true ↔ ∃ o, o ∈ occupied s ∧ entry_token o = t).
Proof.
  intros Hwf Hlt. unfold contains. destruct (vget_ok _ _ Hlt) as ([g o] & -> & He). mred. simpl. eexists. split; [done|].
  split.
  - destruct o as [p|]; [|done]. intros Heq%N.eqb_eq. exists (OpToken_slot t, g, p). by rewrite occupied_elem.
  - intros ([[i g'] p] & Hin & <-). unfold entry_token in *. simpl in *.
    assert (i ≤ U32_MAX) as Hi by (pose proof (occupied_range _ _ _ _ Hin); pose proof (w_width _ _ Hwf); lia).
    rewrite OpToken_slot_new in * by done. apply occupied_elem in Hin. simplify_eq. by rewrite N.eqb_refl.
Qed.
(** ** Tokens over time *)

(** A token handed out at some point: its generation has been reached. *)
Definition minted s (t : OpToken) : Prop :=
  ∃ i g e, t = OpToken_new i g ∧ slots s !! N.to_nat i = Some e ∧ g ≤ generation e.

Lemma minted_update s l f i e e' t :
  slots s !! N.to_nat i = Some e → generation e ≤ generation e' →
  l = <[N.to_nat i := e']> (slots s) → minted s t → minted (mkSlab l f) t.
Proof.
  intros He Hle -> (j & g & e0 & -> & Hj & Hg). exists j, g. destruct (decide (j = i)) as [->|Hne].
  - exists e'. simplify_eq. split; [done|]. simpl. rewrite list_lookup_insert_eq by (by eapply lookup_lt_Some). split; [done|lia].
  - exists e0. simpl. by rewrite list_lookup_insert_ne by lia.
Qed.

Lemma minted_live s i g p : (i, g, p) ∈ occupied s → minted s (OpToken_new i g).
Proof. rewrite occupied_elem. intros H. exists i, g, (mkSlot g (Some p)). done. Qed.

(** The token a fill mints is new. *)
Lemma minted_fresh s i e t :
  slots s !! N.to_nat i = Some e → vlen (slots s) ≤ U32_MAX → minted s t → t ≠ OpToken_new i (generation e + 1).
Proof.
  intros He Hw (j & g & e0 & -> & Hj & Hg) Heq. apply OpToken_new_inj in Heq as [-> ->].
  - simplify_eq. lia.
  - apply vget_lt in Hj. lia.
  - apply vget_lt in He. lia.
Qed.
End slab.

End CompletionSlab.
