(* ===== verification/Driver.v ===== *)
(** * The driver core: submission, completion, continuation, teardown

    Models [Shared] and [DriverCore] of src/src/driver.rs with the continuation
    protocol of src/src/driver/read_vector.rs: the operations below are the bodies of
    the source's critical sections on the submit mutex, over the completion slab
    ([Slab]), the file table ([FileTable]), the write arena ([WriteArena]) and the
    vector descriptors ([ReadVector]).  What a backend answers is an argument: the
    position [schedule] chooses, the outcome [execute] ends with, the completions the
    kernel ring delivers.  The notification hooks of an executor, which have empty
    default bodies, and the bench-only observation are not represented; the calls of
    [Frames::abort] are returned as the list of tokens handed over. *)
From stdpp Require Import prelude list.
From Stdlib Require Import NArith ZArith Lia.
From S2P Require Import Prelude Ids Frames Alignment WriteArena FileTable Execute ReadVector Slab.

Open Scope N_scope.

Module Driver.
Import CompletionSlab Execute.

Inductive IoMode := Direct (a : Alignment.Alignment) | Buffered.

Inductive SubmitError := Full | StaleHandle.

Inductive ReadDestination :=
  | Point (f : Frames.InFlightFrame)
  | Vector (v : ReadVector.ReadVector).

Inductive FrameLease := Absent | PoolLease | RawLease.

#[global] Instance FrameLease_eq_dec : EqDecision FrameLease.
Proof. solve_decision. Defined.

Inductive ReadPurpose := Demand | Speculative | ContinuationRead.

(** A read's frame token with the owner it returns to. *)
Inductive ReadLease :=
  | Pool (f : Frames.InFlightFrame) (purpose : ReadPurpose)
  | Raw (f : Frames.InFlightFrame).

Definition split_lease (l : ReadLease) : Frames.InFlightFrame * FrameLease * ReadPurpose :=
  match l with
  | Pool token purpose => (token, PoolLease, purpose)
  | Raw token => (token, RawLease, Demand)
  end.

Inductive OpState := Queued | Active | Continuation | Terminal (outcome : result).

Definition is_queued (s : OpState) : bool := match s with Queued => true | _ => false end.
Definition is_active (s : OpState) : bool := match s with Active => true | _ => false end.
Definition is_continuation (s : OpState) : bool := match s with Continuation => true | _ => false end.
Definition is_held (s : OpState) : bool := match s with Continuation | Terminal _ => true | _ => false end.

Record OpEntry := mkOp {
  op_kind : OpKind;
  op_sync_mode : SyncMode;
  op_fd : FileId;
  op_file_offset : N;
  op_frame : option ReadDestination;
  op_destination_offset : N;
  op_requested_len : N;
  op_frame_lease : FrameLease;
  op_write_slot : option N;
  op_retries : N;
  op_io_mode : IoMode;
  op_state : OpState;
}.

Definition set_state (st : OpState) (e : OpEntry) : OpEntry :=
  mkOp (op_kind e) (op_sync_mode e) (op_fd e) (op_file_offset e) (op_frame e) (op_destination_offset e)
    (op_requested_len e) (op_frame_lease e) (op_write_slot e) (op_retries e) (op_io_mode e) st.
Definition set_frame (d : option ReadDestination) (e : OpEntry) : OpEntry :=
  mkOp (op_kind e) (op_sync_mode e) (op_fd e) (op_file_offset e) d (op_destination_offset e)
    (op_requested_len e) (op_frame_lease e) (op_write_slot e) (op_retries e) (op_io_mode e) (op_state e).
(** The transfer cursor: file offset, destination or source offset, bytes left, retries. *)
Definition set_cursor (file_offset destination_offset requested_len retries : N) (e : OpEntry) : OpEntry :=
  mkOp (op_kind e) (op_sync_mode e) (op_fd e) file_offset (op_frame e) destination_offset
    requested_len (op_frame_lease e) (op_write_slot e) retries (op_io_mode e) (op_state e).

(** The token names a continuation lease when [c_continuation] holds it. *)
Record Completion := mkCompletion {
  c_token : OpToken;
  c_kind : OpKind;
  c_result : result;
  c_frame : option ReadDestination;
  c_continuation : option OpToken;
}.

Record DeferredCompletion := mkDeferred {
  d_fd : FileId;
  d_retire : bool;
  d_outcome : result;
}.

Record Shared := mkShared {
  slab : CompletionSlab OpEntry;
  files : FileTable.FileTable;
  ready : list N;
  completion_backlog : list Completion;
  deferred : list DeferredCompletion;
}.

Definition set_slab (sh : Shared) s : Shared :=
  mkShared s (files sh) (ready sh) (completion_backlog sh) (deferred sh).
Definition set_files (sh : Shared) f : Shared :=
  mkShared (slab sh) f (ready sh) (completion_backlog sh) (deferred sh).
Definition set_ready (sh : Shared) r : Shared :=
  mkShared (slab sh) (files sh) r (completion_backlog sh) (deferred sh).
Definition set_backlog (sh : Shared) b : Shared :=
  mkShared (slab sh) (files sh) (ready sh) b (deferred sh).
Definition set_deferred (sh : Shared) d : Shared :=
  mkShared (slab sh) (files sh) (ready sh) (completion_backlog sh) d.

(** [Shared::try_new], allocation having succeeded. *)
Definition shared_new (ready_capacity file_capacity : N) : Shared :=
  mkShared (CompletionSlab.try_with_capacity ready_capacity) (FileTable.try_with_capacity file_capacity) [] [] [].

(** What [DriverCore] holds that never changes: its identity, the queue capacity (also
    the capacity of the fixed queues of [Shared]), the retry bound and the bytes of a
    whole-frame read. *)
Record Config := mkConfig {
  id : N;
  queue_capacity : N;
  retry_bound : N;
  clean_read_bytes : N;
}.

Section core.
Context (cfg : Config).

Definition assert_own (fd : FileId) : outcome unit := assertb (fid_driver fd =? id cfg).

Definition is_ok {A B} (r : A + B) : bool := match r with inl _ => true | inr _ => false end.

(** The direct-I/O assertion of a submission. *)
Definition assert_aligned (m : IoMode) (offset : N) : outcome unit :=
  match m with
  | Buffered => Done tt
  | Direct a => r ← Alignment.check a offset; assertb (is_ok r)
  end.

(** ** Deferred releases *)

(** [retire], after the backend has released the descriptor. *)
Definition retire (sh : Shared) (fd : FileId) : outcome Shared :=
  f ← FileTable.finish_retire (files sh) fd; Done (set_files sh f).

(** One round of [flush_deferred]: the entry taken off the queue, if any. *)
Definition pop_deferred (sh : Shared) : Shared * option DeferredCompletion :=
  match deferred sh with
  | [] => (sh, None)
  | d :: rest => (set_deferred sh rest, Some d)
  end.

Fixpoint flush_loop (n : nat) (sh : Shared) : outcome Shared :=
  match n with
  | O => Done sh
  | S n =>
      let '(sh, d) := pop_deferred sh in
      match d with
      | None => Done sh
      | Some d => sh ← (if d_retire d then retire sh (d_fd d) else Done sh); flush_loop n sh
      end
  end.

Definition flush_deferred (sh : Shared) : outcome Shared := flush_loop (N.to_nat (queue_capacity cfg)) sh.

(** ** Submission *)

(** [DriverCore::admit]. *)
Definition admission (sh : Shared) (fd : FileId) : outcome (Shared * (N + SubmitError)) :=
  assert_own fd;;
  live ← FileTable.is_live (files sh) fd;
  if live : bool then
    let retained := vlen (completion_backlog sh) + vlen (deferred sh) in
    assertb (retained <=? U32_MAX);;
    inflight ← FileTable.total_inflight (files sh);
    total ← add_ U32_MAX inflight retained;
    if queue_capacity cfg <=? total then Done (sh, inr Full)
    else
      let '(s, slot) := reserve (slab sh) in
      match slot with
      | Some slot => Done (set_slab sh s, inl slot)
      | None => Done (sh, inr Full)
      end
  else Done (sh, inr StaleHandle).

(** The vector of a just filled slot learns its operation. *)
Definition bind_vector (token : OpToken) (e : OpEntry) : outcome OpEntry :=
  match op_frame e with
  | Some (Vector v) => v ← ReadVector.bind v token; Done (set_frame (Some (Vector v)) e)
  | _ => Done e
  end.

(** [position] is what the executor's [schedule] answers. *)
Definition commit (sh : Shared) (slot : N) (entry : OpEntry) (position : N) : outcome (Shared * OpToken) :=
  '(s, token) ← fill (slab sh) slot entry;
  e ← peek s slot;
  e ← bind_vector token e;
  s ← peek_mut s slot (λ _, e);
  f ← FileTable.on_submit (files sh) (op_fd entry);
  assertb (position <=? vlen (ready sh));;
  let r := take (N.to_nat position) (ready sh) ++ slot :: drop (N.to_nat position) (ready sh) in
  Done (mkShared s f r (completion_backlog sh) (deferred sh), token).

Definition submit_read_locked (frame_count : N) (sh : Shared) (fd : FileId) (mode : IoMode) (lease : ReadLease)
    (file_offset destination_offset requested_len position : N) :
    outcome (Shared * (OpToken + SubmitError * Frames.InFlightFrame)) :=
  let '(token, frame_lease, _) := split_lease lease in
  assertb (Frames.InFlightFrame_frame token <? frame_count);;
  assertb (0 <? requested_len);;
  assertb (destination_offset <=? clean_read_bytes cfg);;
  assertb (requested_len <=? clean_read_bytes cfg - destination_offset);;
  assert_aligned mode file_offset;;
  '(sh, admitted) ← admission sh fd;
  match admitted with
  | inr error => Done (sh, inr (error, token))
  | inl slot =>
      '(sh, t) ← commit sh slot (mkOp Read SyncFull fd file_offset (Some (Point token)) destination_offset
        requested_len frame_lease None 0 mode Queued) position;
      Done (sh, inl t)
  end.

(** [write_slot] and [len] are the consumed [WriteSlot]; a refusal hands it back. *)
Definition submit_write_locked (staging : WriteArena.ArenaState) (sh : Shared) (fd : FileId) (mode : IoMode)
    (write_slot len offset position : N) : outcome (Shared * (OpToken + SubmitError * N)) :=
  WriteArena.assert_owner staging (id cfg);;
  assert_aligned mode offset;;
  '(sh, admitted) ← admission sh fd;
  match admitted with
  | inr error => Done (sh, inr (error, write_slot))
  | inl slot =>
      assertb (len <=? U32_MAX);;
      '(sh, t) ← commit sh slot (mkOp Write SyncFull fd offset None 0 len Absent (Some write_slot) 0 mode Queued) position;
      Done (sh, inl t)
  end.

Definition submit_fsync_locked (sh : Shared) (fd : FileId) (mode : IoMode) (sync : SyncMode) (position : N) :
    outcome (Shared * (OpToken + SubmitError)) :=
  '(sh, admitted) ← admission sh fd;
  match admitted with
  | inr error => Done (sh, inr error)
  | inl slot =>
      '(sh, t) ← commit sh slot (mkOp Fsync sync fd 0 None 0 0 Absent None 0 mode Queued) position;
      Done (sh, inl t)
  end.

Definition submit_read_vector (arena : Frames.Frames) (storage : ReadVector.VectorStorage) (sh : Shared)
    (fd : FileId) (mode : IoMode) (v : ReadVector.ReadVector) (offset : N) (frame_lease : FrameLease) (position : N) :
    outcome (Shared * ReadVector.VectorStorage * (OpToken + SubmitError * ReadVector.ReadVector)) :=
  assertb (ReadVector.filled v =? 0);;
  assertb ((2 <=? ReadVector.count v) && (ReadVector.count v <=? ReadVector.VECTOR_FRAMES_MAX));;
  requested_len ← ReadVector.remaining v;
  assertb (offset + requested_len <=? U64_MAX);;
  assert_aligned mode offset;;
  assert_aligned mode (Frames.granule arena);;
  '(sh, admitted) ← admission sh fd;
  match admitted with
  | inr error => Done (sh, storage, inr (error, v))
  | inl slot =>
      '(storage, v) ← ReadVector.prepare arena storage slot v;
      '(sh, t) ← commit sh slot (mkOp Read SyncFull fd offset (Some (Vector v)) 0 requested_len frame_lease None 0
        mode Queued) position;
      Done (sh, storage, inl t)
  end.

(** The public calls first flush the releases deferred by dropped leases. *)
Definition submit_read (frame_count : N) (sh : Shared) (fd : FileId) (mode : IoMode) (lease : ReadLease)
    (file_offset destination_offset requested_len position : N) :
    outcome (Shared * (OpToken + SubmitError * Frames.InFlightFrame)) :=
  sh ← flush_deferred sh;
  submit_read_locked frame_count sh fd mode lease file_offset destination_offset requested_len position.

Definition submit_write (staging : WriteArena.ArenaState) (sh : Shared) (fd : FileId) (mode : IoMode)
    (write_slot len offset position : N) : outcome (Shared * (OpToken + SubmitError * N)) :=
  sh ← flush_deferred sh;
  submit_write_locked staging sh fd mode write_slot len offset position.

Definition submit_fsync (sh : Shared) (fd : FileId) (mode : IoMode) (sync : SyncMode) (position : N) :
    outcome (Shared * (OpToken + SubmitError)) :=
  sh ← flush_deferred sh;
  submit_fsync_locked sh fd mode sync position.

(** A whole-frame read under the driver's own lease; a refusal aborts the claim. *)
Definition submit_raw_read (arena : Frames.Frames) (sh : Shared) (fd : FileId) (mode : IoMode)
    (frame offset position : N) : outcome (Frames.Frames * Shared * (OpToken + SubmitError)) :=
  let len := clean_read_bytes cfg in
  assertb (0 <? len);;
  '(arena, token) ← Frames.claim_unidentified arena frame;
  token ← expect token;
  '(sh, r) ← submit_read (Frames.count arena) sh fd mode (Raw token) offset 0 len position;
  match r with
  | inl t => Done (arena, sh, inl t)
  | inr (error, token) => '(arena, _) ← Frames.abort arena token; Done (arena, sh, inr error)
  end.

(** The claims of a raw vector read, pushed in order. *)
Fixpoint claim_all (arena : Frames.Frames) (v : ReadVector.ReadVector) (frames : list N) :
    outcome (Frames.Frames * ReadVector.ReadVector) :=
  match frames with
  | [] => Done (arena, v)
  | frame :: frames =>
      '(arena, token) ← Frames.claim_unidentified arena frame;
      token ← expect token;
      v ← ReadVector.push arena v token;
      claim_all arena v frames
  end.

(** [Frames::abort] for each token in turn. *)
Fixpoint abort_all (arena : Frames.Frames) (tokens : list Frames.InFlightFrame) : outcome Frames.Frames :=
  match tokens with
  | [] => Done arena
  | t :: tokens => '(arena, _) ← Frames.abort arena t; abort_all arena tokens
  end.

Definition submit_raw_read_vector (arena : Frames.Frames) (storage : ReadVector.VectorStorage) (sh : Shared)
    (fd : FileId) (mode : IoMode) (frames : list N) (offset position : N) :
    outcome (Frames.Frames * Shared * ReadVector.VectorStorage * (OpToken + SubmitError)) :=
  sh ← flush_deferred sh;
  assertb ((2 <=? vlen frames) && (vlen frames <=? ReadVector.VECTOR_FRAMES_MAX));;
  assertb (vlen frames <=? ReadVector.VECTOR_BYTES_MAX / Frames.granule arena);;
  '(arena, v) ← claim_all arena ReadVector.new frames;
  '(sh, storage, r) ← submit_read_vector arena storage sh fd mode v offset RawLease position;
  match r with
  | inl t => Done (arena, sh, storage, inl t)
  | inr (error, v) => arena ← abort_all arena (ReadVector.drop_vector v); Done (arena, sh, storage, inr error)
  end.

(** ** Files *)

Definition reserve_file_locked (sh : Shared) : outcome (Shared * option FileId) :=
  '(f, fd) ← FileTable.open (files sh) (id cfg); Done (set_files sh f, fd).

Definition reserve_file (sh : Shared) : outcome (Shared * option FileId) :=
  sh ← flush_deferred sh; reserve_file_locked sh.

Definition is_closed (sh : Shared) (fd : FileId) : outcome (Shared * bool) :=
  sh ← flush_deferred sh;
  assert_own fd;;
  b ← FileTable.is_closed (files sh) fd; Done (sh, b).

Definition abort_file (sh : Shared) (fd : FileId) : outcome Shared :=
  assert_own fd;; f ← FileTable.abort_open (files sh) fd; Done (set_files sh f).

(** [close] up to the retirement; the flag says that it follows. *)
Definition close_locked (sh : Shared) (fd : FileId) : outcome (Shared * bool) :=
  assert_own fd;;
  '(f, due) ← FileTable.close (files sh) fd; Done (set_files sh f, due).

Definition retire_due (sh : Shared) (fd : option FileId) : outcome Shared :=
  match fd with Some fd => retire sh fd | None => Done sh end.

Definition close (sh : Shared) (fd : FileId) : outcome Shared :=
  sh ← flush_deferred sh;
  '(sh, due) ← close_locked sh fd;
  retire_due sh (if due : bool then Some fd else None).

Definition check_live (sh : Shared) (fd : FileId) : outcome (unit + Z) :=
  assert_own fd;;
  live ← FileTable.is_live (files sh) fd; Done (if live : bool then inl tt else inr EBADF).

(** ** Completion *)

(** The destination the completion carries, and the tokens aborted here. *)
Definition release_frame (lease : FrameLease) (d : option ReadDestination) :
    outcome (option ReadDestination * list Frames.InFlightFrame) :=
  match lease with
  | RawLease =>
      d ← expect d;
      match d with
      | Point f => Done (None, [f])
      | Vector v => Done (None, ReadVector.drop_vector v)
      end
  | Absent | PoolLease => Done (d, [])
  end.

Definition release_write_slot (staging : WriteArena.ArenaState) (e : OpEntry) : outcome WriteArena.ArenaState :=
  match op_write_slot e with
  | Some slot => '(a, _) ← WriteArena.release staging slot; Done a
  | None => Done staging
  end.

(** The end of [finish_attempt]: the slot is reclaimed. *)
Definition finalize (staging : WriteArena.ArenaState) (sh : Shared) (slot : N) (r : result) (d : option ReadDestination) :
    outcome (Shared * WriteArena.ArenaState * Completion * option FileId * list Frames.InFlightFrame) :=
  '(s, (token, entry)) ← reclaim (slab sh) slot;
  '(f, due) ← FileTable.on_complete (files sh) (op_fd entry);
  '(d, aborted) ← release_frame (op_frame_lease entry) d;
  staging ← release_write_slot staging entry;
  Done (mkShared s f (ready sh) (completion_backlog sh) (deferred sh), staging,
    mkCompletion token (op_kind entry) r d None, if due : bool then Some (op_fd entry) else None, aborted).

Definition transferred (r : result) : N := match r with inl n => n | inr _ => 0 end.

(** [finish_attempt]: the completion, the file whose retirement is due, the tokens aborted. *)
Definition finish_attempt (granule : N) (staging : WriteArena.ArenaState) (sh : Shared) (slot : N) (r : result)
    (destination : option ReadDestination) :
    outcome (Shared * WriteArena.ArenaState * Completion * option FileId * list Frames.InFlightFrame) :=
  token ← token (slab sh) slot;
  entry ← peek (slab sh) slot;
  assertb (is_active (op_state entry));;
  let d := match destination with Some d => Some d | None => op_frame entry end in
  let entry := set_frame None entry in
  match d with
  | Some (Vector v) =>
      let bytes := transferred r in
      assertb (bytes <=? op_requested_len entry);;
      v ← ReadVector.record_completion v bytes;
      if (0 <? bytes) && (bytes <? op_requested_len entry) then
        file_offset ← add_ U64_MAX (op_file_offset entry) bytes;
        let entry := set_state Continuation (set_cursor file_offset (ReadVector.filled v mod granule)
          (op_requested_len entry - bytes) (op_retries entry) entry) in
        s ← peek_mut (slab sh) slot (λ _, entry);
        Done (set_slab sh s, staging, mkCompletion token (op_kind entry) r (Some (Vector v)) (Some token), None, [])
      else if bool_decide (op_frame_lease entry = PoolLease) then
        s ← peek_mut (slab sh) slot (λ _, set_state (Terminal r) entry);
        Done (set_slab sh s, staging, mkCompletion token (op_kind entry) r (Some (Vector v)) (Some token), None, [])
      else
        s ← peek_mut (slab sh) slot (λ _, entry);
        finalize staging (set_slab sh s) slot r (Some (Vector v))
  | _ =>
      s ← peek_mut (slab sh) slot (λ _, entry);
      finalize staging (set_slab sh s) slot r d
  end.

(** [publish_to_backlog], up to the retirement. *)
Definition publish_to_backlog_locked (granule : N) (staging : WriteArena.ArenaState) (sh : Shared) (slot : N) (r : result)
    (d : option ReadDestination) :
    outcome (Shared * WriteArena.ArenaState * option FileId * list Frames.InFlightFrame) :=
  '(sh, staging, c, due, aborted) ← finish_attempt granule staging sh slot r d;
  assertb (vlen (completion_backlog sh) <? queue_capacity cfg);;
  Done (set_backlog sh (completion_backlog sh ++ [c]), staging, due, aborted).

Definition publish_to_backlog (granule : N) (staging : WriteArena.ArenaState) (sh : Shared) (slot : N) (r : result)
    (d : option ReadDestination) : outcome (Shared * WriteArena.ArenaState * list Frames.InFlightFrame) :=
  '(sh, staging, due, aborted) ← publish_to_backlog_locked granule staging sh slot r d;
  sh ← retire_due sh due;
  Done (sh, staging, aborted).

(** [publish]: the completion goes to the caller's batch. *)
Definition publish (granule : N) (staging : WriteArena.ArenaState) (sh : Shared) (slot : N) (r : result)
    (d : option ReadDestination) : outcome (Shared * WriteArena.ArenaState * Completion * list Frames.InFlightFrame) :=
  '(sh, staging, c, due, aborted) ← finish_attempt granule staging sh slot r d;
  sh ← retire_due sh due;
  Done (sh, staging, c, aborted).

(** [drain_completion_backlog] into a batch with room for [capacity]. *)
Definition drain_completion_backlog (sh : Shared) (capacity : N) : Shared * list Completion :=
  (set_backlog sh (drop (N.to_nat capacity) (completion_backlog sh)),
   take (N.to_nat capacity) (completion_backlog sh)).

(** ** The eager backends *)

(** Bytes [start, start + len) of the staging arena. *)
Definition source_bytes (memory : N → N) (start len : N) : list N :=
  (λ i, memory (start + N.of_nat i)) <$> seq 0 (N.to_nat len).

(** [prepare_next]: the operation's slot and kind, its destination and its context. *)
Definition prepare_next (memory : N → N) (staging : WriteArena.ArenaState) (sh : Shared) :
    outcome (option (Shared * N * OpKind * option ReadDestination * OpContext)) :=
  match ready sh with
  | [] => Done None
  | slot :: rest =>
      entry ← peek (slab sh) slot;
      assertb (is_queued (op_state entry));;
      let entry := set_state Active entry in
      match op_kind entry with
      | Read =>
          d ← expect (op_frame entry);
          s ← peek_mut (slab sh) slot (λ _, set_frame None entry);
          Done (Some (set_slab (set_ready sh rest) s, slot, Read, Some d,
            context_read (op_fd entry) (op_file_offset entry) (op_destination_offset entry) (op_requested_len entry)))
      | Fsync =>
          s ← peek_mut (slab sh) slot (λ _, entry);
          Done (Some (set_slab (set_ready sh rest) s, slot, Fsync, None, context_fsync (op_fd entry) (op_sync_mode entry)))
      | Write =>
          write_slot ← expect (op_write_slot entry);
          start ← WriteArena.region staging write_slot (op_destination_offset entry) (op_requested_len entry);
          context ← context_write (op_fd entry) (op_file_offset entry) (op_destination_offset entry)
            (source_bytes memory start (op_requested_len entry));
          s ← peek_mut (slab sh) slot (λ _, entry);
          Done (Some (set_slab (set_ready sh rest) s, slot, Write, None, context))
      end
  end.

(** ** The ring backend *)

(** One submission entry of the ring, tagged with the operation's token. *)
Inductive Sqe :=
  | SqeRead (user_data fd_slot : N) (f : Frames.InFlightFrame) (file_offset destination_offset requested_len : N)
  | SqeReadVector (user_data : N) (file : FileId) (v : ReadVector.ReadVector) (file_offset : N)
  | SqeWrite (user_data fd_slot source source_offset file_offset requested_len : N)
  | SqeFsync (user_data fd_slot : N) (mode : SyncMode).

Definition sqe_user_data (q : Sqe) : OpToken :=
  match q with SqeRead u _ _ _ _ _ | SqeReadVector u _ _ _ | SqeWrite u _ _ _ _ _ | SqeFsync u _ _ => u end.

(** The body of [fill_ring]'s loop. *)
Definition fill_one (staging : WriteArena.ArenaState) (sh : Shared) : outcome (option (Shared * Sqe)) :=
  match ready sh with
  | [] => Done None
  | slot :: rest =>
      user_data ← token (slab sh) slot;
      entry ← peek (slab sh) slot;
      assertb (is_queued (op_state entry));;
      let entry := set_state Active entry in
      let fd_slot := fid_slot (op_fd entry) in
      sqe ← match op_kind entry with
        | Read =>
            d ← expect (op_frame entry);
            Done (match d with
              | Point f => SqeRead user_data fd_slot f (op_file_offset entry) (op_destination_offset entry) (op_requested_len entry)
              | Vector v => SqeReadVector user_data (op_fd entry) v (op_file_offset entry)
              end)
        | Fsync => Done (SqeFsync user_data fd_slot (op_sync_mode entry))
        | Write =>
            write_slot ← expect (op_write_slot entry);
            source ← WriteArena.region staging write_slot (op_destination_offset entry) (op_requested_len entry);
            Done (SqeWrite user_data fd_slot source (op_destination_offset entry) (op_file_offset entry) (op_requested_len entry))
        end;
      s ← peek_mut (slab sh) slot (λ _, entry);
      Done (Some (set_slab (set_ready sh rest) s, sqe))
  end.

(** [fill_ring] for at most [cap] operations. *)
Fixpoint fill_ring (staging : WriteArena.ArenaState) (sh : Shared) (cap : nat) : outcome (Shared * list Sqe) :=
  match cap with
  | O => Done (sh, [])
  | S cap =>
      o ← fill_one staging sh;
      match o with
      | None => Done (sh, [])
      | Some (sh, q) => '(sh, qs) ← fill_ring staging sh cap; Done (sh, q :: qs)
      end
  end.

Definition ring_entry (e : OpEntry) : RingEntry :=
  mkRing (op_kind e) (op_file_offset e) (op_destination_offset e) (op_requested_len e) (op_retries e).
Definition apply_ring (r : RingEntry) (e : OpEntry) : OpEntry :=
  set_cursor (re_file_offset r) (re_destination_offset r) (re_requested_len r) (re_retries r) e.

(** The sink of [reap_ring_locked] on one completion of the kernel; [None] when the
    operation is queued again. *)
Definition reap_one (granule : N) (staging : WriteArena.ArenaState) (sh : Shared) (user_data : OpToken) (raw : Z) :
    outcome (Shared * WriteArena.ArenaState * option (Completion * option FileId) * list Frames.InFlightFrame) :=
  live ← contains (slab sh) user_data;
  assertb live;;
  let slot := OpToken_slot user_data in
  entry ← peek (slab sh) slot;
  '(r, progress) ← ring_progress (ring_entry entry) raw (retry_bound cfg);
  match progress with
  | Resubmit =>
      s ← peek_mut (slab sh) slot (λ _, set_state Queued (apply_ring r entry));
      Done (set_slab (set_ready sh (ready sh ++ [slot])) s, staging, None, [])
  | Execute.Terminal res =>
      s ← peek_mut (slab sh) slot (λ _, apply_ring r entry);
      '(sh, staging, c, due, aborted) ← finish_attempt granule staging (set_slab sh s) slot res None;
      Done (sh, staging, Some (c, due), aborted)
  end.

(** What a pass over the completion queue yields. *)
Record Reaped := mkReaped {
  r_completions : list Completion;
  r_retire : list FileId;
  r_aborted : list Frames.InFlightFrame;
  r_backend : N;
}.

(** [reap_ring_locked]: at most [limit] completions of the queue [cq]; with [stop] the
    pass ends at the first retirement. *)
Fixpoint reap_locked (granule : N) (stop : bool) (limit : nat) (staging : WriteArena.ArenaState) (sh : Shared)
    (cq : list (OpToken * Z)) : outcome (Shared * WriteArena.ArenaState * Reaped * list (OpToken * Z)) :=
  match limit, cq with
  | O, _ | _, [] => Done (sh, staging, mkReaped [] [] [] 0, cq)
  | S limit, (user_data, raw) :: cq =>
      '(sh, staging, done, aborted) ← reap_one granule staging sh user_data raw;
      let cs := match done with Some (c, _) => [c] | None => [] end in
      let rs := match done with Some (_, Some fd) => [fd] | _ => [] end in
      if stop && (0 <? vlen rs) then Done (sh, staging, mkReaped cs rs aborted 1, cq)
      else
        '(sh, staging, m, cq) ← reap_locked granule stop limit staging sh cq;
        Done (sh, staging, mkReaped (cs ++ r_completions m) (rs ++ r_retire m) (aborted ++ r_aborted m) (1 + r_backend m), cq)
  end.

(** [retire] for each file of the scratch list. *)
Fixpoint retire_all (sh : Shared) (fds : list FileId) : outcome Shared :=
  match fds with
  | [] => Done sh
  | fd :: fds => sh ← retire sh fd; retire_all sh fds
  end.

(** [reap_ring]: a first pass up to a retirement, a second one over the rest of the
    limit with the scratch list held, then the retirements. *)
Definition reap_ring (granule limit : N) (staging : WriteArena.ArenaState) (sh : Shared) (cq : list (OpToken * Z)) :
    outcome (Shared * WriteArena.ArenaState * Reaped * list (OpToken * Z)) :=
  assertb (0 <? limit);;
  '(sh, staging, first, cq) ← reap_locked granule true (N.to_nat limit) staging sh cq;
  match r_retire first with
  | [] => Done (sh, staging, first, cq)
  | fds =>
      remaining ← sub_ limit (r_backend first);
      '(sh, staging, more, cq) ← reap_locked granule false (N.to_nat remaining) staging sh cq;
      let all := fds ++ r_retire more in
      assertb (vlen all <=? vlen (files sh));;
      sh ← retire_all sh all;
      Done (sh, staging, mkReaped (r_completions first ++ r_completions more) all
        (r_aborted first ++ r_aborted more) (r_backend first + r_backend more), cq)
  end.

(** ** Continuations *)

(** [Shared::release_read_lease]; the queue's capacity is the slab's. *)
Definition release_read_lease (sh : Shared) (slot : N) : outcome Shared :=
  '(s, (_, entry)) ← reclaim (slab sh) slot;
  res ← match op_state entry with
    | Continuation => Done (inr EIO)
    | Terminal o => Done o
    | _ => Panic
    end;
  assertb (match op_frame entry with None => true | Some _ => false end);;
  '(f, due) ← FileTable.on_complete (files sh) (op_fd entry);
  assertb (vlen (deferred sh) <? queue_capacity cfg);;
  Done (mkShared s f (ready sh) (completion_backlog sh) (deferred sh ++ [mkDeferred (op_fd entry) due res])).

(** [Drop] of a [ReadContinuation] that still holds its token. *)
Definition drop_continuation (sh : Shared) (t : OpToken) : outcome Shared :=
  live ← contains (slab sh) t;
  if live : bool then
    entry ← peek (slab sh) (OpToken_slot t);
    assertb (is_held (op_state entry));;
    release_read_lease sh (OpToken_slot t)
  else Done sh.

Definition EINVAL : Z := 22.

Fixpoint all_multiples (a : Alignment.Alignment) (values : list N) : outcome bool :=
  match values with
  | [] => Done true
  | x :: values => r ← Alignment.check a x; if is_ok r then all_multiples a values else Done false
  end.

Definition all_aligned (m : IoMode) (values : list N) : outcome bool :=
  match m with Buffered => Done true | Direct a => all_multiples a values end.

(** A refusal returns the vector and drops the lease. *)
Definition continue_read_vector (arena : Frames.Frames) (storage : ReadVector.VectorStorage) (sh : Shared)
    (t : OpToken) (v : ReadVector.ReadVector) :
    outcome (Shared * ReadVector.VectorStorage * (OpToken + Z * ReadVector.ReadVector)) :=
  assertb (match ReadVector.operation v with Some o => o =? t | None => false end);;
  live ← contains (slab sh) t;
  assertb live;;
  let slot := OpToken_slot t in
  entry ← peek (slab sh) slot;
  assertb (is_continuation (op_state entry));;
  left ← ReadVector.remaining v;
  assertb (op_requested_len entry =? left);;
  aligned ← all_aligned (op_io_mode entry) [op_file_offset entry; ReadVector.destination_offset arena v; left];
  if negb aligned then
    sh ← drop_continuation sh t;
    Done (sh, storage, inr (EINVAL, v))
  else
    '(storage, v) ← ReadVector.prepare arena storage slot v;
    s ← peek_mut (slab sh) slot (λ _, set_state Queued (set_frame (Some (Vector v))
      (set_cursor (op_file_offset entry) (op_destination_offset entry) (op_requested_len entry) 0 entry)));
    assertb (vlen (ready sh) <? queue_capacity cfg);;
    Done (set_slab (set_ready sh (ready sh ++ [slot])) s, storage, inl t).

(** The locked loop of [abandon_held_continuations] over the slots from [slot] on. *)
Fixpoint abandon_from (n : nat) (slot : N) (sh : Shared) : outcome Shared :=
  match n with
  | O => Done sh
  | S n =>
      e ← vget (slots (slab sh)) slot;
      sh ← (match payload e with
            | Some entry => if is_held (op_state entry) then release_read_lease sh slot else Done sh
            | None => Done sh
            end);
      abandon_from n (slot + 1) sh
  end.

Definition abandon_held_continuations (sh : Shared) : outcome Shared :=
  sh ← abandon_from (N.to_nat (queue_capacity cfg)) 0 sh;
  flush_deferred sh.
End core.

End Driver.
