(* ===== verification/PoolBackend.v ===== *)
(** * The backend interface of the pool

    The trait [PoolBackend] of src/src/pool/miss.rs as a class: what the pool calls on
    the driver it owns.  [BackendLaws] states what the pool relies on.  Its specification
    state is the set of open files, the tokens issued so far and the operations in flight,
    each under the token its submission returned; a vectored read keeps its token and its operation slot while its
    completion is being routed ([Landed]).  The laws are those of the driver's own
    specification: tokens are never issued twice and unique by operation slot, a completion answers one
    operation in flight with its own destination and at most the bytes it asked for, a
    refusal hands the frames back, and a closed file without operations is closed at once.
    Calls may panic outside their contract, so they are [outcome]s. *)
From stdpp Require Import prelude gmap list.
From Stdlib Require Import NArith ZArith Lia.
From S2P Require Import Prelude Ids Frames Alignment Execute ReadVector Driver.

Open Scope N_scope.

Module PoolBackend.
Import Frames Execute Driver.

(** A file opened by the driver, with its data-plane mode. *)
Record FileHandle := mkHandle {
  fh_id : FileId;
  fh_mode : IoMode;
}.

(** A staging slot handed to a write: its index and its bytes. *)
Record WriteSlot := mkWriteSlot {
  ws_slot : N;
  ws_len : N;
}.

(** The vector methods read the frame words of the arena the driver shares. *)
Class PoolBackend (B : Type) := {
  submit_read : B → FileHandle → InFlightFrame → N → N → N → ReadPurpose →
    outcome (B * (OpToken + SubmitError * InFlightFrame));
  submit_read_vector : Frames → B → FileHandle → ReadVector.ReadVector → N →
    outcome (B * (OpToken + SubmitError * ReadVector.ReadVector));
  continue_read_vector : Frames → B → OpToken → ReadVector.ReadVector →
    outcome (B * (OpToken + Z * ReadVector.ReadVector));
  drop_continuation : B → OpToken → outcome B;
  poll_progress : B → outcome (B * list Completion);
  submit_write : B → FileHandle → WriteSlot → N → outcome (B * (OpToken + SubmitError * WriteSlot));
  submit_fsync : B → FileHandle → SyncMode → outcome (B * (OpToken + SubmitError));
  open_file : B → outcome (B * option FileHandle);
  close : B → FileHandle → outcome B;
  is_closed : B → FileId → outcome (B * bool);
}.

(** ** What the pool relies on *)

(** An operation in flight: its file and what its completion brings back.  [Landed] is a
    vectored read whose completion has been handed out, with the bytes it may be continued
    for. *)
Inductive flight :=
  | FlyPoint (file : FileId) (f : InFlightFrame) (len : N)
  | FlyVector (file : FileId) (v : ReadVector.ReadVector)
  | Landed (file : FileId) (left : option N)
  | FlyWrite (file : FileId)
  | FlyFsync (file : FileId).

Definition flight_file (fl : flight) : FileId :=
  match fl with
  | FlyPoint file _ _ | FlyVector file _ | Landed file _ | FlyWrite file | FlyFsync file => file
  end.

(** The byte count is within the request; an error has a number. *)
Definition result_within (bound : N) (r : result) : Prop :=
  match r with inl n => n ≤ bound | inr e => e ≠ 0%Z end.

Definition bytes_left (v : ReadVector.ReadVector) : N := ReadVector.total v - ReadVector.filled v.

Definition answers (fl : flight) (c : Completion) : Prop :=
  match fl with
  | FlyPoint _ f len =>
      c_kind c = Read ∧ c_frame c = Some (Point f) ∧ c_continuation c = None ∧ result_within len (c_result c)
  | FlyVector _ v =>
      c_kind c = Read ∧ c_continuation c = Some (c_token c) ∧ result_within (bytes_left v) (c_result c) ∧
      ∃ v', ReadVector.record_completion v (transferred (c_result c)) = Done v' ∧ c_frame c = Some (Vector v')
  | Landed _ _ => False
  | FlyWrite _ => c_kind c = Write ∧ c_frame c = None ∧ c_continuation c = None ∧ result_within U32_MAX (c_result c)
  | FlyFsync _ => c_kind c = Fsync ∧ c_frame c = None ∧ c_continuation c = None ∧ result_within U32_MAX (c_result c)
  end.

(** What remains in flight of an answered operation. *)
Definition landed (fl : flight) (c : Completion) : option flight :=
  match fl with
  | FlyVector file v =>
      let n := transferred (c_result c) in
      Some (Landed file (if (0 <? n) && (n <? bytes_left v) then Some (bytes_left v - n) else None))
  | _ => None
  end.

(** A file mode the granule satisfies: [direct_arena_compatible] of src/src/open.rs. *)
Definition direct_arena_compatible (granule : N) (a : Alignment.Alignment) : bool :=
  (Alignment.get a <=? granule) && (granule mod Alignment.get a =? 0).

Definition mode_fits (granule : N) (m : IoMode) : Prop :=
  match m with
  | Direct a => is_power_of_two (Alignment.get a) = true ∧ direct_arena_compatible granule a = true
  | Buffered => True
  end.

(** The direct-I/O condition on an offset. *)
Definition mode_accepts (m : IoMode) (offset : N) : Prop :=
  match m with Direct a => Alignment.check a offset = Done (inl tt) | Buffered => True end.

Definition with_operation (v : ReadVector.ReadVector) (d : option ReadVector.VectorIo) (t : OpToken) : ReadVector.ReadVector :=
  ReadVector.mkVector (ReadVector.frames v) (ReadVector.count v) (ReadVector.ordinal v) (ReadVector.filled v)
    (ReadVector.total v) d (Some t).

(** A vector ready to be handed to the driver: it owns tokens of frames in flight. *)
Definition vector_ready (arena : Frames) (v : ReadVector.ReadVector) : Prop :=
  (∃ l, ReadVector.bundle arena l v) ∧ (∀ f, Some f ∈ ReadVector.frames v → ReadVector.transferable arena f) ∧
  ReadVector.ordinal v = ReadVector.filled v / granule arena ∧ ReadVector.filled v < ReadVector.total v.

Class BackendLaws (B : Type) `{!PoolBackend B} (identity frame_bytes frame_count capacity file_capacity : N) := {
  sound : B → Prop;
  flights : B → gmap OpToken flight;
  live : B → gset FileId;
  minted : B → gset OpToken;

  law_minted b t fl : sound b → flights b !! t = Some fl → t ∈ minted b;
  law_slot b t fl : sound b → flights b !! t = Some fl → OpToken_slot t < capacity;
  law_unique b t t' fl fl' : sound b → flights b !! t = Some fl → flights b !! t' = Some fl' →
    OpToken_slot t = OpToken_slot t' → t = t';
  law_own b file : sound b → file ∈ live b → fid_driver file = identity ∧ fid_slot file < file_capacity;

  law_submit_read b h f offset destination len purpose :
    sound b → fid_driver (fh_id h) = identity → mode_accepts (fh_mode h) offset →
    InFlightFrame_frame f < frame_count → 0 < len → destination + len ≤ frame_bytes →
    ∃ b' r, submit_read b h f offset destination len purpose = Done (b', r) ∧ sound b' ∧ live b' = live b ∧
      match r with
      | inl t => (t ∉ minted b) ∧ minted b' = {[t]} ∪ minted b ∧ flights b' = <[t := FlyPoint (fh_id h) f len]> (flights b)
      | inr (e, f') => f' = f ∧ minted b' = minted b ∧ flights b' = flights b ∧ (fh_id h ∈ live b → e = Full)
      end;
  law_submit_read_vector arena b h v offset :
    sound b → fid_driver (fh_id h) = identity → mode_accepts (fh_mode h) offset → mode_fits frame_bytes (fh_mode h) →
    granule arena = frame_bytes → vector_ready arena v → ReadVector.filled v = 0 → ReadVector.operation v = None →
    2 ≤ ReadVector.count v → ReadVector.count v ≤ ReadVector.VECTOR_FRAMES_MAX → offset + bytes_left v ≤ U64_MAX →
    ∃ b' r, submit_read_vector arena b h v offset = Done (b', r) ∧ sound b' ∧ live b' = live b ∧
      match r with
      | inl t => (t ∉ minted b) ∧ minted b' = {[t]} ∪ minted b ∧ ∃ d, flights b' = <[t := FlyVector (fh_id h) (with_operation v d t)]> (flights b)
      | inr (e, v') => v' = v ∧ minted b' = minted b ∧ flights b' = flights b
      end;
  law_continue arena b t v file left :
    sound b → flights b !! t = Some (Landed file (Some left)) → granule arena = frame_bytes →
    vector_ready arena v → ReadVector.operation v = Some t → bytes_left v = left →
    ∃ b' r, continue_read_vector arena b t v = Done (b', r) ∧ sound b' ∧ live b' = live b ∧
      match r with
      | inl t' => t' = t ∧ minted b' = minted b ∧ ∃ d, flights b' = <[t := FlyVector file (with_operation v d t)]> (flights b)
      | inr (e, v') => e ≠ 0%Z ∧ v' = v ∧ minted b' = minted b ∧ flights b' = delete t (flights b)
      end;
  law_drop b t file left :
    sound b → flights b !! t = Some (Landed file left) →
    ∃ b', drop_continuation b t = Done b' ∧ sound b' ∧ live b' = live b ∧ minted b' = minted b ∧ flights b' = delete t (flights b);
  law_poll b :
    sound b → ∃ b' cs, poll_progress b = Done (b', cs) ∧ sound b' ∧ live b' = live b ∧ minted b' = minted b ∧ NoDup (c_token <$> cs) ∧
      (∀ c, c ∈ cs → ∃ fl, flights b !! c_token c = Some fl ∧ answers fl c ∧ flights b' !! c_token c = landed fl c) ∧
      (∀ t, t ∉ (c_token <$> cs) → flights b' !! t = flights b !! t);
  law_submit_write b h s offset :
    sound b → fid_driver (fh_id h) = identity → mode_accepts (fh_mode h) offset → ws_len s ≤ U32_MAX →
    ∃ b' r, submit_write b h s offset = Done (b', r) ∧ sound b' ∧ live b' = live b ∧
      match r with
      | inl t => (t ∉ minted b) ∧ minted b' = {[t]} ∪ minted b ∧ flights b' = <[t := FlyWrite (fh_id h)]> (flights b)
      | inr (e, s') => s' = s ∧ minted b' = minted b ∧ flights b' = flights b ∧ (fh_id h ∈ live b → e = Full)
      end;
  law_submit_fsync b h mode :
    sound b → fid_driver (fh_id h) = identity →
    ∃ b' r, submit_fsync b h mode = Done (b', r) ∧ sound b' ∧ live b' = live b ∧
      match r with
      | inl t => (t ∉ minted b) ∧ minted b' = {[t]} ∪ minted b ∧ flights b' = <[t := FlyFsync (fh_id h)]> (flights b)
      | inr e => minted b' = minted b ∧ flights b' = flights b ∧ (fh_id h ∈ live b → e = Full)
      end;
  law_open b :
    sound b → ∃ b' o, open_file b = Done (b', o) ∧ sound b' ∧ minted b' = minted b ∧ flights b' = flights b ∧
      match o with
      | None => live b' = live b
      | Some h => live b' = {[fh_id h]} ∪ live b ∧ mode_fits frame_bytes (fh_mode h) ∧
          fid_driver (fh_id h) = identity ∧ fid_slot (fh_id h) < file_capacity ∧ fid_generation (fh_id h) ≤ U32_MAX ∧
          (∀ file, file ∈ live b → fid_slot file ≠ fid_slot (fh_id h)) ∧
          (∀ t fl, flights b !! t = Some fl → flight_file fl ≠ fh_id h)
      end;
  law_close b h :
    sound b → fh_id h ∈ live b →
    ∃ b', close b h = Done b' ∧ sound b' ∧ minted b' = minted b ∧ live b' = live b ∖ {[fh_id h]} ∧ flights b' = flights b;
  law_is_closed b file :
    sound b → fid_driver file = identity → fid_slot file < file_capacity →
    ∃ b' r, is_closed b file = Done (b', r) ∧ sound b' ∧ minted b' = minted b ∧ live b' = live b ∧ flights b' = flights b ∧
      (file ∉ live b → (∀ t fl, flights b !! t = Some fl → flight_file fl ≠ file) → r = true);
}.
End PoolBackend.

(** ** A backend with one operation slot and one file

    A small instance of the interface: one operation at a time, one open file, and every
    poll completes what is in flight in full.  It refuses vectored reads. *)
Module OneSlot.
Import Frames Execute Driver PoolBackend.

Record one_slot := mkOneSlot {
  os_flight : option (OpToken * flight);
  os_file : option FileId;
  os_next : N;
  os_generation : N;
}.

Definition accept (o : one_slot) (h : FileHandle) (fl : flight) : option (one_slot * OpToken) :=
  match os_flight o with
  | Some _ => None
  | None =>
      let t := OpToken_new 0 (os_next o) in
      Some (mkOneSlot (Some (t, fl)) (os_file o) (os_next o + 1) (os_generation o), t)
  end.

Definition submit_one {A} (o : one_slot) (h : FileHandle) (fl : flight) (x : A) :
    outcome (one_slot * (OpToken + SubmitError * A)) :=
  if bool_decide (os_file o = Some (fh_id h)) then
    match accept o h fl with
    | Some (o, t) => Done (o, inl t)
    | None => Done (o, inr (Full, x))
    end
  else Done (o, inr (StaleHandle, x)).

Definition full_answer (t : OpToken) (fl : flight) : Completion :=
  match fl with
  | FlyPoint _ f len => mkCompletion t Read (inl len) (Some (Point f)) None
  | FlyWrite _ => mkCompletion t Write (inl 0) None None
  | _ => mkCompletion t Fsync (inl 0) None None
  end.

#[global] Instance one_slot_backend : PoolBackend one_slot := {|
  submit_read o h f _ _ len _ := submit_one o h (FlyPoint (fh_id h) f len) f;
  submit_read_vector _ o _ v _ := Done (o, inr (Full, v));
  continue_read_vector _ o _ v := Done (o, inr (5%Z, v));
  drop_continuation o _ := Done o;
  poll_progress o :=
    Done (mkOneSlot None (os_file o) (os_next o) (os_generation o),
      match os_flight o with Some (t, fl) => [full_answer t fl] | None => [] end);
  submit_write o h s _ := submit_one o h (FlyWrite (fh_id h)) s;
  submit_fsync o h _ :=
    '(o, r) ← submit_one o h (FlyFsync (fh_id h)) tt;
    Done (o, match r with inl t => inl t | inr (e, _) => inr e end);
  open_file o :=
    match os_file o with
    | Some _ => Done (o, None)
    | None =>
        if os_generation o <=? U32_MAX then
          let file := mkFileId 7 0 (os_generation o) in
          Done (mkOneSlot (os_flight o) (Some file) (os_next o) (os_generation o + 1), Some (mkHandle file Buffered))
        else Done (o, None)
    end;
  close o _ := Done (mkOneSlot (os_flight o) None (os_next o) (os_generation o));
  is_closed o file := Done (o, bool_decide (os_file o ≠ Some file));
|}.

Definition os_minted (o : one_slot) : gset OpToken :=
  list_to_set ((λ n, OpToken_new 0 (N.of_nat n)) <$> seq 0 (N.to_nat (os_next o))).

Record os_sound (o : one_slot) : Prop := {
  oso_flight : ∀ t fl, os_flight o = Some (t, fl) →
    (∃ g, t = OpToken_new 0 g ∧ g < os_next o) ∧ fid_generation (flight_file fl) < os_generation o ∧
    match fl with FlyPoint _ _ _ | FlyWrite _ | FlyFsync _ => True | _ => False end;
  oso_file : ∀ file, os_file o = Some file → fid_driver file = 7 ∧ fid_slot file = 0 ∧ fid_generation file < os_generation o;
}.

Definition os_flights (o : one_slot) : gmap OpToken flight :=
  match os_flight o with Some (t, fl) => {[t := fl]} | None => ∅ end.
Definition os_live (o : one_slot) : gset FileId := match os_file o with Some file => {[file]} | None => ∅ end.

Lemma elem_minted o t : t ∈ os_minted o ↔ ∃ g, t = OpToken_new 0 g ∧ g < os_next o.
Proof.
  unfold os_minted. rewrite elem_of_list_to_set, list_elem_of_fmap. split.
  - intros (n & -> & Hn%elem_of_seq). exists (N.of_nat n). split; [done|lia].
  - intros (g & -> & Hg). exists (N.to_nat g). rewrite N2Nat.id. split; [done|]. apply elem_of_seq. lia.
Qed.

Lemma os_flights_Some o t fl : os_flights o !! t = Some fl ↔ os_flight o = Some (t, fl).
Proof.
  unfold os_flights. destruct (os_flight o) as [[t' fl']|]; [|by rewrite lookup_empty]. rewrite lookup_singleton_Some. naive_solver.
Qed.

Lemma minted_next o o' : os_next o' = os_next o + 1 → os_minted o' = {[OpToken_new 0 (os_next o)]} ∪ os_minted o.
Proof.
  intros Hn. apply set_eq. intros t. rewrite elem_of_union, elem_of_singleton, !elem_minted, Hn. split.
  - intros (g & -> & Hg). destruct (decide (g = os_next o)) as [->|]; [by left|right; exists g; split; [done|lia]].
  - intros [->|(g & -> & Hg)]; eexists; (split; [done|lia]).
Qed.

Lemma submit_one_ok {A} o h fl (x : A) :
  os_sound o → flight_file fl = fh_id h → match fl with FlyPoint _ _ _ | FlyWrite _ | FlyFsync _ => True | _ => False end →
  ∃ o' r, submit_one o h fl x = Done (o', r) ∧ os_sound o' ∧ os_live o' = os_live o ∧
    match r with
    | inl t => (t ∉ os_minted o) ∧ os_minted o' = {[t]} ∪ os_minted o ∧ os_flights o' = <[t := fl]> (os_flights o)
    | inr (e, x') => x' = x ∧ os_minted o' = os_minted o ∧ os_flights o' = os_flights o ∧ (fh_id h ∈ os_live o → e = Full)
    end.
Proof.
  intros Hs Hf Hk. unfold submit_one. case_bool_decide as Hfile.
  2: { eexists o, _. split_and!; try done. unfold os_live. destruct (os_file o); set_solver. }
  unfold accept. destruct (os_flight o) as [[t' fl']|] eqn:Hfl; [eexists o, _; by split_and!|].
  eexists _, _. split; [done|]. pose proof Hs as [H1 H2]. split_and!; try done.
  - constructor; simpl; [|done]. intros t fl' [= <- <-]. split_and!; [eexists; split; [done|lia]| |done]. rewrite Hf. by apply H2.
  - rewrite elem_minted. intros (g & [_ Heq]%OpToken_new_inj & Hg); [|lia..]. lia.
  - by apply minted_next.
  - unfold os_flights. by rewrite Hfl.
Qed.

Lemma full_answer_ok t fl :
  match fl with FlyPoint _ _ _ | FlyWrite _ | FlyFsync _ => True | _ => False end →
  c_token (full_answer t fl) = t ∧ answers fl (full_answer t fl) ∧ landed fl (full_answer t fl) = None.
Proof. destruct fl; try done; intros _; split_and!; simpl; try done; lia. Qed.

Lemma os_poll_ok o :
  os_sound o → ∃ o' cs, poll_progress o = Done (o', cs) ∧ os_sound o' ∧ os_live o' = os_live o ∧ os_minted o' = os_minted o ∧
    NoDup (c_token <$> cs) ∧
    (∀ c, c ∈ cs → ∃ fl, os_flights o !! c_token c = Some fl ∧ answers fl c ∧ os_flights o' !! c_token c = landed fl c) ∧
    (∀ t, t ∉ (c_token <$> cs) → os_flights o' !! t = os_flights o !! t).
Proof.
  intros Hs. eexists _, _. split; [done|]. pose proof Hs as [H1 H2]. split_and!; try done.
  - destruct (os_flight o) as [[t fl]|]; [apply NoDup_singleton|constructor].
  - intros c Hc. destruct (os_flight o) as [[t fl]|] eqn:Hfl; [|by apply elem_of_nil in Hc]. apply list_elem_of_singleton in Hc as ->.
    destruct (H1 t fl eq_refl) as (_ & _ & Hk). destruct (full_answer_ok t fl Hk) as (-> & Ha & Hl).
    exists fl. rewrite Hl. split_and!; [by apply os_flights_Some|done|done].
  - intros t Ht. unfold os_flights. simpl. destruct (os_flight o) as [[t' fl]|] eqn:Hfl; [|done].
    rewrite lookup_empty, lookup_singleton_ne; [done|]. intros ->. apply Ht. destruct (H1 t fl eq_refl) as (_ & _ & Hk).
    destruct (full_answer_ok t fl Hk) as (Ht' & _). simpl. rewrite Ht'. by apply list_elem_of_singleton.
Qed.

Lemma os_open_ok o :
  os_sound o → ∃ o' r, open_file o = Done (o', r) ∧ os_sound o' ∧ os_minted o' = os_minted o ∧ os_flights o' = os_flights o ∧
    match r with
    | None => os_live o' = os_live o
    | Some h => os_live o' = {[fh_id h]} ∪ os_live o ∧ mode_fits 4096 (fh_mode h) ∧
        fid_driver (fh_id h) = 7 ∧ fid_slot (fh_id h) < 1 ∧ fid_generation (fh_id h) ≤ U32_MAX ∧
        (∀ file, file ∈ os_live o → fid_slot file ≠ fid_slot (fh_id h)) ∧
        (∀ t fl, os_flights o !! t = Some fl → flight_file fl ≠ fh_id h)
    end.
Proof.
  intros Hs. pose proof Hs as [H1 H2]. simpl. destruct (os_file o) as [file|] eqn:Hf; [eexists _, _; split; [done|]; split_and!; done|].
  destruct (N.leb_spec (os_generation o) U32_MAX); [|eexists _, _; split; [done|]; split_and!; done].
  eexists _, _. split; [done|]. split_and!; try done.
  - constructor; simpl.
    + intros t fl Ht. destruct (H1 t fl Ht) as (? & ? & ?). split_and!; try done. lia.
    + intros file [= <-]. simpl. split_and!; try done. lia.
  - unfold os_live. simpl. rewrite Hf. set_solver.
  - unfold os_live. rewrite Hf. set_solver.
  - intros t fl Ht%os_flights_Some Heq. destruct (H1 t fl Ht) as (_ & Hg & _). rewrite Heq in Hg. simpl in Hg. lia.
Qed.

Section laws.
Context {frames : N}.

#[global] Program Instance one_slot_laws : BackendLaws one_slot 7 4096 frames 1 1 := {|
  sound := os_sound;
  flights := os_flights;
  live := os_live;
  minted := os_minted;
|}.
Next Obligation. intros o t fl Hs Ht%os_flights_Some. apply elem_minted. by apply (oso_flight o Hs t fl). Qed.
Next Obligation. intros o t fl Hs Ht%os_flights_Some. destruct (oso_flight o Hs t fl Ht) as [(g & -> & _) _]. by rewrite OpToken_slot_new. Qed.
Next Obligation. intros o t t' fl fl' Hs Ht%os_flights_Some Ht'%os_flights_Some _. congruence. Qed.
Next Obligation.
  intros o file Hs Hf. unfold os_live in Hf. destruct (os_file o) eqn:Ho; [|set_solver]. apply elem_of_singleton in Hf as ->.
  destruct (oso_file o Hs _ Ho) as (? & ? & ?). split; [done|lia].
Qed.
Next Obligation. intros o h f offset destination len purpose Hs _ _ _ _ _. by apply submit_one_ok. Qed.
Next Obligation. intros. eexists _, _. split; [done|]. by split_and!. Qed.
Next Obligation. intros arena o t v file left Hs Ht%os_flights_Some. by destruct (oso_flight o Hs _ _ Ht) as (_ & _ & ?). Qed.
Next Obligation. intros o t file left Hs Ht%os_flights_Some. by destruct (oso_flight o Hs _ _ Ht) as (_ & _ & ?). Qed.
Next Obligation. apply os_poll_ok. Qed.
Next Obligation. intros o h s offset Hs _ _ _. by apply submit_one_ok. Qed.
Next Obligation.
  intros o h mode Hs _. simpl. destruct (submit_one_ok o h (FlyFsync (fh_id h)) () Hs) as (o' & r & -> & Hs' & Hl & Hr); [done..|]. mred.
  eexists _, _. split; [done|]. split_and!; try done. destruct r as [t|[e []]]; [done|]. by destruct Hr as (_ & ? & ? & ?).
Qed.
Next Obligation. apply os_open_ok. Qed.
Next Obligation.
  intros o h Hs Hl. eexists. split; [done|]. split_and!; try done.
  - destruct Hs as [H1 H2]. by constructor.
  - unfold os_live in *. simpl. destruct (os_file o); set_solver.
Qed.
Next Obligation.
  intros o file Hs _ _. eexists _, _. split; [done|]. split_and!; try done. intros Hn _. apply bool_decide_eq_true_2.
  unfold os_live in Hn. intros Heq. rewrite Heq in Hn. set_solver.
Qed.
End laws.

Definition one_slot_new : one_slot := mkOneSlot None None 0 0.
End OneSlot.
