(* ===== verification/Product.v ===== *)
(** * The pool's files and product operations

    Models the file registry of the pool (src/src/pool/mod.rs: [PoolFile], the published
    live words, [register_file_internal], [publish_live_file], [begin_file_retirement] and
    the closing half of [progress_retirements]), the resident-file leases, and the product
    operations ([submit_write], [submit_fsync], [submit_held_fsyncs],
    [finish_product_completion], [deliver_product_completions]; the tokens and batches of
    src/src/product.rs), over any backend ([PoolBackend]).  Wake-ups, which only unblock
    waiting threads, are left out. *)
From stdpp Require Import functions prelude gmap list relations.
From Stdlib Require Import NArith ZArith Lia.
From S2P Require Import Prelude Ids Frames Execute Driver PoolBackend.

Open Scope N_scope.

Module Product.
Import Execute Driver PoolBackend.PoolBackend.

(** ** Data *)

Inductive PoolFileState := Live | Retiring | Retired.

#[global] Instance PoolFileState_eq_dec : EqDecision PoolFileState.
Proof. solve_decision. Defined.

Record PoolFile := mkPoolFile {
  pf_id : FileId;
  pf_handle : option FileHandle;
  pf_state : PoolFileState;
}.

Definition PoolToken : Type := N.
Definition PoolToken_new (slot generation : N) : PoolToken := N.lor (N.shiftl generation 32) slot.

Inductive PoolSubmitError :=
  | SubmitFull
  | StaleFile (file : FileId)
  | ForeignPool.

Inductive PoolCompletion :=
  | WriteCompletion (token : PoolToken) (r : result)
  | FsyncCompletion (token : PoolToken) (r : unit + Z).

Definition completion_token (c : PoolCompletion) : PoolToken :=
  match c with WriteCompletion t _ | FsyncCompletion t _ => t end.

Inductive ProductOp :=
  | OpWrite (token : PoolToken) (driver_token : OpToken) (file : FileId) (order : N)
  | OpFsyncHeld (token : PoolToken) (file : FileId) (order : N) (mode : SyncMode)
  | OpFsync (token : PoolToken) (driver_token : OpToken) (file : FileId)
  | OpCompleted (file : FileId) (completion : PoolCompletion).

Definition op_file (op : ProductOp) : FileId :=
  match op with OpWrite _ _ file _ | OpFsyncHeld _ file _ _ | OpFsync _ _ file | OpCompleted file _ => file end.

Record ProductOpSlot := mkOpSlot {
  po_generation : N;
  po_operation : option ProductOp;
}.

(** [ResidentLeaseState] of one file slot. *)
Record ResidentLeaseState := mkLeaseState {
  ls_generation : N;
  ls_count : N;
}.

Record PoolCompletionBatch := mkBatch {
  items : list PoolCompletion;
  logical_capacity : N;
}.

(** A staging slot of the product API: the driver's slot and the pool it came from. *)
Record PoolWriteSlot := mkPoolWriteSlot {
  pw_slot : WriteSlot;
  pw_pool_identity : N;
}.

(** The pool's fields the operations below work on, the driver among them. *)
Record Product (B : Type) := mkProduct {
  files : list (option PoolFile);
  file_live_generations : list N;
  resident_lease_states : list ResidentLeaseState;
  product_ops : list ProductOpSlot;
  product_sequence : N;
  driver : B;
}.
Arguments mkProduct {B}.
Arguments files {B}.
Arguments file_live_generations {B}.
Arguments resident_lease_states {B}.
Arguments product_ops {B}.
Arguments product_sequence {B}.
Arguments driver {B}.

(** ** The published live word of a file slot *)

Definition file_live_word (file : FileId) : N := N.lor (N.shiftl (fid_generation file) 1) 1.

Definition file_generation_is_live (word : N) (file : FileId) : bool := word =? file_live_word file.

(** ** Leases *)

(** [ResidentLeaseState::acquire] in its two atomic accesses: the load of the count, after
    the generation has been compared, and the increment.  Only drops come in between. *)
Inductive ResidentLeaseError := LeaseStale | LeaseExhausted.

Definition acquire_load (s : ResidentLeaseState) (file : FileId) : N + ResidentLeaseError :=
  if negb (ls_generation s =? fid_generation file) then inr LeaseStale
  else if ls_count s =? U32_MAX then inr LeaseExhausted
  else inl (ls_count s).

Definition acquire_add (s : ResidentLeaseState) (loaded : N) : outcome ResidentLeaseState :=
  assertb (ls_count s <=? loaded);;
  Done (mkLeaseState (ls_generation s) (wrapping_add 32 (ls_count s) 1)).

(** [Drop] of a [ResidentFileLease]; whether it was the last one. *)
Definition drop_lease (s : ResidentLeaseState) : outcome (ResidentLeaseState * bool) :=
  assertb (0 <? ls_count s);;
  Done (mkLeaseState (ls_generation s) (wrapping_sub 32 (ls_count s) 1), ls_count s =? 1).

Definition publish_generation (s : ResidentLeaseState) (file : FileId) : outcome ResidentLeaseState :=
  assertb (ls_count s =? 0);;
  Done (mkLeaseState (fid_generation file) (ls_count s)).

Section product.
Context {B : Type} `{!PoolBackend B} (identity : N).
Implicit Types (p : Product B) (b : B).

Definition set_files p (x : list (option PoolFile)) : Product B :=
  mkProduct x (file_live_generations p) (resident_lease_states p) (product_ops p) (product_sequence p) (driver p).
Definition set_live p (x : list N) : Product B :=
  mkProduct (files p) x (resident_lease_states p) (product_ops p) (product_sequence p) (driver p).
Definition set_leases p (x : list ResidentLeaseState) : Product B :=
  mkProduct (files p) (file_live_generations p) x (product_ops p) (product_sequence p) (driver p).
Definition set_ops p (x : list ProductOpSlot) : Product B :=
  mkProduct (files p) (file_live_generations p) (resident_lease_states p) x (product_sequence p) (driver p).
Definition set_sequence p (x : N) : Product B :=
  mkProduct (files p) (file_live_generations p) (resident_lease_states p) (product_ops p) x (driver p).
Definition set_driver p (x : B) : Product B :=
  mkProduct (files p) (file_live_generations p) (resident_lease_states p) (product_ops p) (product_sequence p) x.

(** ** The registry *)

Definition file_is_live (fs : list (option PoolFile)) (file : FileId) : outcome bool :=
  assertb (fid_driver file =? identity);;
  o ← vget fs (fid_slot file);
  Done (match o with
        | Some e => bool_decide (pf_id e = file) && bool_decide (pf_state e = Live)
        | None => false
        end).

Definition live_file_handle (fs : list (option PoolFile)) (file : FileId) : outcome (FileHandle + PoolSubmitError) :=
  assertb (fid_driver file =? identity);;
  o ← vget fs (fid_slot file);
  Done (match o with
        | Some e =>
            if bool_decide (pf_id e = file) && bool_decide (pf_state e = Live) then
              match pf_handle e with Some h => inl h | None => inr (StaleFile file) end
            else inr (StaleFile file)
        | None => inr (StaleFile file)
        end).

Definition registered_file (fs : list (option PoolFile)) (file : FileId) : outcome FileHandle :=
  o ← vget fs (fid_slot file);
  e ← expect o;
  assertb (bool_decide (pf_id e = file));;
  expect (pf_handle e).

Definition publish_live_file p (id : FileId) (h : option FileHandle) : outcome (Product B) :=
  let slot := fid_slot id in
  assertb (slot <? vlen (files p));;
  s ← vget (resident_lease_states p) slot;
  assertb (fid_driver id =? identity);;
  s ← publish_generation s id;
  ls ← vset (resident_lease_states p) slot s;
  fs ← vset (files p) slot (Some (mkPoolFile id h Live));
  lw ← vset (file_live_generations p) slot (file_live_word id);
  Done (set_live (set_files (set_leases p ls) fs) lw).

Definition register_file p (h : FileHandle) : outcome (Product B) :=
  o ← vget (files p) (fid_slot (fh_id h));
  assertb (match o with None => true | Some e => bool_decide (pf_state e = Retired) end);;
  publish_live_file p (fh_id h) (Some h).

(** [Pool::open] and [Pool::create]; a driver that cannot open answers an error. *)
Definition open p : outcome (Product B * option FileId) :=
  '(b, o) ← open_file (driver p);
  let p := set_driver p b in
  match o with
  | None => Done (p, None)
  | Some h => p ← register_file p h; Done (p, Some (fh_id h))
  end.

Definition begin_file_retirement (e : PoolFile) (file : FileId) : outcome (PoolFile * bool) :=
  assertb (bool_decide (pf_id e = file));;
  assertb (negb (bool_decide (pf_state e = Retired)));;
  Done (mkPoolFile (pf_id e) (pf_handle e) Retiring, bool_decide (pf_state e = Live)).

(** The first half of [retire_file], up to its progress pass: [None] answers [Retired]. *)
Definition retire_begin p (file : FileId) : outcome (Product B * option bool) :=
  assertb (fid_driver file =? identity);;
  o ← vget (files p) (fid_slot file);
  match o with
  | None => Done (p, None)
  | Some e =>
      if negb (bool_decide (pf_id e = file)) then Done (p, None)
      else if bool_decide (pf_state e = Retired) then Done (p, None)
      else
        '(e, started) ← begin_file_retirement e file;
        fs ← vset (files p) (fid_slot file) (Some e);
        lw ← vset (file_live_generations p) (fid_slot file) 0;
        Done (set_live (set_files p fs) lw, Some started)
  end.

Definition product_live (ops : list ProductOpSlot) (file : FileId) : bool :=
  existsb (λ s, match po_operation s with Some op => bool_decide (op_file op = file) | None => false end) ops.

(** The end of [progress_retirements] for one file that nothing uses any more. *)
Definition retire_close p (index : N) (file : FileId) : outcome (Product B) :=
  o ← vget (files p) index;
  e ← expect o;
  b ← match pf_handle e with Some h => close (driver p) h | None => Done (driver p) end;
  '(b, closed) ← is_closed b file;
  fs ← vset (files p) index (Some (mkPoolFile (pf_id e) None (if closed : bool then Retired else pf_state e)));
  Done (set_driver (set_files p fs) b).

(** [progress_retirements] from [index] on.  [reads_live] is the answer of the miss table
    and of the frame registry: whether a read or a mapped frame of the file is left. *)
Fixpoint progress_from (reads_live : FileId → bool) (n : nat) p (index : N) : outcome (Product B) :=
  match n with
  | O => Done p
  | S n =>
      o ← vget (files p) index;
      p ← match o with
          | Some e =>
              if bool_decide (pf_state e = Retiring) then
                s ← vget (resident_lease_states p) index;
                if 0 <? ls_count s then Done p
                else if reads_live (pf_id e) || product_live (product_ops p) (pf_id e) then Done p
                else retire_close p index (pf_id e)
              else Done p
          | None => Done p
          end;
      progress_from reads_live n p (index + 1)
  end.
Definition progress_retirements (reads_live : FileId → bool) p : outcome (Product B) :=
  progress_from reads_live (length (files p)) p 0.

(** ** Leases of registered files *)

Definition lease_begin p (file : FileId) : outcome (N + ResidentLeaseError) :=
  live ← file_is_live (files p) file;
  if live : bool then
    s ← vget (resident_lease_states p) (fid_slot file);
    Done (acquire_load s file)
  else Done (inr LeaseStale).

Definition lease_finish p (file : FileId) (loaded : N) : outcome (Product B) :=
  s ← vget (resident_lease_states p) (fid_slot file);
  s ← acquire_add s loaded;
  ls ← vset (resident_lease_states p) (fid_slot file) s;
  Done (set_leases p ls).

Definition lease_drop p (file : FileId) : outcome (Product B) :=
  s ← vget (resident_lease_states p) (fid_slot file);
  '(s, _) ← drop_lease s;
  ls ← vset (resident_lease_states p) (fid_slot file) s;
  Done (set_leases p ls).

(** ** Product operations *)

Fixpoint vacant_from (ss : list ProductOpSlot) (index : N) : option N :=
  match ss with
  | [] => None
  | s :: ss => match po_operation s with None => Some index | Some _ => vacant_from ss (index + 1) end
  end.

(** The bookkeeping shared by both submissions: the next order, the slot's next
    generation, the token and the stored operation. *)
Definition occupy p (index : N) (op : PoolToken → N → ProductOp) : outcome (Product B * PoolToken) :=
  order ← expect (checked_add U64_MAX (product_sequence p) 1);
  s ← vget (product_ops p) index;
  generation ← expect (checked_add U32_MAX (po_generation s) 1);
  assertb (index <=? U32_MAX);;
  let token := PoolToken_new index generation in
  ops ← vset (product_ops p) index (mkOpSlot generation (Some (op token order)));
  Done (set_ops (set_sequence p order) ops, token).

Definition submit_write p (file : FileId) (slot : PoolWriteSlot) (offset : N) :
    outcome (Product B * (PoolToken + PoolSubmitError * PoolWriteSlot)) :=
  if negb (pw_pool_identity slot =? identity) then Done (p, inr (ForeignPool, slot))
  else
    h ← live_file_handle (files p) file;
    match h with
    | inr e => Done (p, inr (e, slot))
    | inl h =>
        match vacant_from (product_ops p) 0 with
        | None => Done (p, inr (SubmitFull, slot))
        | Some index =>
            '(b, r) ← PoolBackend.submit_write (driver p) h (pw_slot slot) offset;
            let p := set_driver p b in
            match r with
            | inr (Full, s) => Done (p, inr (SubmitFull, mkPoolWriteSlot s (pw_pool_identity slot)))
            | inr (StaleHandle, s) => Done (p, inr (StaleFile file, mkPoolWriteSlot s (pw_pool_identity slot)))
            | inl driver_token =>
                '(p, token) ← occupy p index (λ token order, OpWrite token driver_token file order);
                Done (p, inl token)
            end
        end
    end.

Definition prior_write (ops : list ProductOpSlot) (file : FileId) (barrier : N) : bool :=
  existsb (λ s, match po_operation s with
    | Some (OpWrite _ _ write_file order) => bool_decide (write_file = file) && (order <? barrier)
    | _ => false end) ops.

(** The loop of [submit_held_fsyncs] from [index] on. *)
Fixpoint submit_held_from (n : nat) p (index : N) : outcome (Product B) :=
  match n with
  | O => Done p
  | S n =>
      s ← vget (product_ops p) index;
      p ← match po_operation s with
          | Some (OpFsyncHeld token file order mode) =>
              if prior_write (product_ops p) file order then Done p
              else
                h ← registered_file (files p) file;
                '(b, r) ← PoolBackend.submit_fsync (driver p) h mode;
                let p := set_driver p b in
                match r with
                | inl driver_token =>
                    ops ← vset (product_ops p) index (mkOpSlot (po_generation s) (Some (OpFsync token driver_token file)));
                    Done (set_ops p ops)
                | inr Full => Done p
                | inr StaleHandle => Panic
                end
          | _ => Done p
          end;
      submit_held_from n p (index + 1)
  end.
Definition submit_held_fsyncs p : outcome (Product B) := submit_held_from (length (product_ops p)) p 0.

Definition submit_fsync p (file : FileId) (mode : SyncMode) : outcome (Product B * (PoolToken + PoolSubmitError)) :=
  h ← live_file_handle (files p) file;
  match h with
  | inr e => Done (p, inr e)
  | inl _ =>
      match vacant_from (product_ops p) 0 with
      | None => Done (p, inr SubmitFull)
      | Some index =>
          '(p, token) ← occupy p index (λ token order, OpFsyncHeld token file order mode);
          p ← submit_held_fsyncs p;
          Done (p, inl token)
      end
  end.

Definition names_token (t : OpToken) (s : ProductOpSlot) : bool :=
  match po_operation s with
  | Some (OpWrite _ dt _ _) | Some (OpFsync _ dt _) => dt =? t
  | _ => false
  end.

Fixpoint find_from (t : OpToken) (ss : list ProductOpSlot) (index : N) : option N :=
  match ss with
  | [] => None
  | s :: ss => if names_token t s then Some index else find_from t ss (index + 1)
  end.

Definition finish_product_completion p (driver_token : OpToken) (kind : OpKind) (r : result) : outcome (Product B) :=
  index ← expect (find_from driver_token (product_ops p) 0);
  s ← vget (product_ops p) index;
  op ← expect (po_operation s);
  done ← match op, kind with
    | OpWrite token _ file _, Write => Done (OpCompleted file (WriteCompletion token r))
    | OpFsync token _ file, Fsync =>
        Done (OpCompleted file (FsyncCompletion token (match r with inl _ => inl tt | inr e => inr e end)))
    | _, _ => Panic
    end;
  ops ← vset (product_ops p) index (mkOpSlot (po_generation s) (Some done));
  Done (set_ops p ops).

(** ** Delivery *)

Definition batch_push (out : PoolCompletionBatch) (c : PoolCompletion) : outcome PoolCompletionBatch :=
  assertb (vlen (items out) <? logical_capacity out);;
  Done (mkBatch (items out ++ [c]) (logical_capacity out)).

Definition batch_remaining (out : PoolCompletionBatch) : outcome N := sub_ (logical_capacity out) (vlen (items out)).

Fixpoint deliver_from (ss : list ProductOpSlot) (out : PoolCompletionBatch) :
    outcome (list ProductOpSlot * PoolCompletionBatch) :=
  match ss with
  | [] => Done ([], out)
  | s :: ss =>
      room ← batch_remaining out;
      if room =? 0 then Done (s :: ss, out)
      else
        match po_operation s with
        | Some (OpCompleted _ c) =>
            out ← batch_push out c;
            '(ss, out) ← deliver_from ss out;
            Done (mkOpSlot (po_generation s) None :: ss, out)
        | _ => '(ss, out) ← deliver_from ss out; Done (s :: ss, out)
        end
  end.

Definition deliver_product_completions p (out : PoolCompletionBatch) : outcome (Product B * PoolCompletionBatch) :=
  '(ops, out) ← deliver_from (product_ops p) out;
  Done (set_ops p ops, out).

(** Dropping the pool gives up the results nobody fetched. *)
Definition discard_completed (ops : list ProductOpSlot) : list ProductOpSlot :=
  (λ s, match po_operation s with Some (OpCompleted _ _) => mkOpSlot (po_generation s) None | _ => s end) <$> ops.
End product.

(** ** The invariant

    [opening] are the handles of files the driver has opened and the pool has not yet
    registered, [batch] the completions the driver has handed out and the pool has not yet
    routed, [leases] the live resident-file leases. *)

Section invariant.
Context {B : Type} `{!PoolBackend B} {identity frame_bytes frame_count capacity file_capacity : N}.
Context `{!BackendLaws B identity frame_bytes frame_count capacity file_capacity}.
Implicit Types (p : Product B) (b : B) (ops : list ProductOpSlot).

Definition handle_ok b (h : FileHandle) : Prop :=
  fh_id h ∈ live b ∧ fid_driver (fh_id h) = identity ∧ fid_slot (fh_id h) < file_capacity ∧
  fid_generation (fh_id h) ≤ U32_MAX ∧ mode_fits frame_bytes (fh_mode h).

(** A registered file: open in the driver until it is retired. *)
Definition file_ok b (i : N) (e : PoolFile) : Prop :=
  fid_slot (pf_id e) = i ∧ fid_driver (pf_id e) = identity ∧ fid_generation (pf_id e) ≤ U32_MAX ∧
  match pf_handle e with
  | Some h => fh_id h = pf_id e ∧ handle_ok b h ∧ pf_state e ≠ Retired
  | None => pf_state e = Retired
  end.

Definition live_word (o : option PoolFile) : N :=
  match o with
  | Some e => match pf_state e with Live => file_live_word (pf_id e) | _ => 0 end
  | None => 0
  end.

(** The file has a handle. *)
Definition registered (fs : list (option PoolFile)) (file : FileId) : Prop :=
  ∃ e h, fs !! N.to_nat (fid_slot file) = Some (Some e) ∧ pf_id e = file ∧ pf_handle e = Some h.

Record files_inv (fs : list (option PoolFile)) (words : list N) b (opening : list FileHandle) : Prop := {
  fi_len : vlen fs = file_capacity;
  fi_words : vlen words = file_capacity;
  fi_file : ∀ i e, fs !! N.to_nat i = Some (Some e) → file_ok b i e;
  fi_open : ∀ file, file ∈ live b → registered fs file ∨ file ∈ fh_id <$> opening;
  fi_opening : ∀ h, h ∈ opening → handle_ok b h;
  fi_nodup : NoDup ((λ h, fid_slot (fh_id h)) <$> opening);
  fi_slots : ∀ h e h', h ∈ opening → fs !! N.to_nat (fid_slot (fh_id h)) = Some (Some e) → pf_handle e ≠ Some h';
  fi_word : ∀ i o, fs !! N.to_nat i = Some o → words !! N.to_nat i = Some (live_word o);
}.

Record lease_inv (ls : list ResidentLeaseState) (fs : list (option PoolFile)) (leases : list FileId) : Prop := {
  li_len : vlen ls = file_capacity;
  li_count : ∀ i s, ls !! N.to_nat i = Some s →
    ls_count s = N.of_nat (length (filter (λ file, fid_slot file = i) leases)) ∧ ls_count s ≤ U32_MAX;
  li_leased : ∀ file, file ∈ leases → registered fs file;
}.

(** The driver works on the operation, or its completion is waiting to be routed. *)
Definition under_way b (batch : list Completion) (t : OpToken) (k : OpKind) (fl : flight) : Prop :=
  flights b !! t = Some fl ∨ (flights b !! t = None ∧ ∃ c, c ∈ batch ∧ c_token c = t ∧ c_kind c = k).

Definition slot_ok (sequence : N) (fs : list (option PoolFile)) b (batch : list Completion) (i : N) (s : ProductOpSlot) : Prop :=
  po_generation s ≤ U32_MAX ∧
  match po_operation s with
  | None => True
  | Some op =>
      registered fs (op_file op) ∧
      match op with
      | OpWrite t dt file order => t = PoolToken_new i (po_generation s) ∧ order ≤ sequence ∧
          under_way b batch dt Write (FlyWrite file)
      | OpFsyncHeld t file order mode => t = PoolToken_new i (po_generation s) ∧ order ≤ sequence
      | OpFsync t dt file => t = PoolToken_new i (po_generation s) ∧ under_way b batch dt Fsync (FlyFsync file)
      | OpCompleted file c => completion_token c = PoolToken_new i (po_generation s)
      end
  end.

(** The product operation a slot has in the driver. *)
Definition driver_op (s : ProductOpSlot) : option (OpToken * (OpKind * FileId)) :=
  match po_operation s with
  | Some (OpWrite _ dt file _) => Some (dt, (Write, file))
  | Some (OpFsync _ dt file) => Some (dt, (Fsync, file))
  | _ => None
  end.

Definition product_flight (k : OpKind) (file : FileId) (fl : flight) : Prop :=
  match k with Write => fl = FlyWrite file | Fsync => fl = FlyFsync file | Read => False end.

(** The driver is done with the operation, apart from a lease on its slot. *)
Definition gone b (t : OpToken) : Prop := ∀ fl, flights b !! t = Some fl → ∃ file left, fl = Landed file left.

Record ops_inv (ops : list ProductOpSlot) (sequence : N) (fs : list (option PoolFile)) b (batch : list Completion) : Prop := {
  oi_slot : ∀ i s, ops !! N.to_nat i = Some s → slot_ok sequence fs b batch i s;
  oi_distinct : NoDup (omap driver_op ops).*1;
  oi_flight : ∀ t k file fl, flights b !! t = Some fl → product_flight k file fl →
    (t, (k, file)) ∈ omap driver_op ops;
  oi_batch : ∀ c, c ∈ batch → c_kind c ≠ Read →
    flights b !! c_token c = None ∧ ∃ file, (c_token c, (c_kind c, file)) ∈ omap driver_op ops;
  oi_nodup : NoDup (c_token <$> batch);
  oi_minted : ∀ c, c ∈ batch → c_token c ∈ minted b;
  oi_gone : ∀ c, c ∈ batch → gone b (c_token c);
  oi_max : vlen ops ≤ U32_MAX;
}.

Record pinv p (opening : list FileHandle) (batch : list Completion) (leases : list FileId) : Prop := {
  pi_sound : sound (driver p);
  pi_files : files_inv (files p) (file_live_generations p) (driver p) opening;
  pi_leases : lease_inv (resident_lease_states p) (files p) leases;
  pi_ops : ops_inv (product_ops p) (product_sequence p) (files p) (driver p) batch;
}.

(** ** Slots of product operations *)

(** A partial view of a list around one store. *)
Lemma omap_insert_perm {A C} (f : A → option C) (l : list A) i x y :
  l !! i = Some x → option_list (f x) ++ omap f (<[i := y]> l) ≡ₚ option_list (f y) ++ omap f l.
Proof.
  revert i. induction l as [|a l IH]; intros [|i] Hi; simplify_eq/=.
  - destruct (f x), (f y); simpl; try done. apply Permutation_swap.
  - specialize (IH _ Hi). destruct (f a); [|done]. rewrite <- !Permutation_middle. by rewrite IH.
Qed.

Lemma omap_insert_same {A C} (f : A → option C) (l : list A) i x y :
  l !! i = Some x → f y = f x → omap f (<[i := y]> l) ≡ₚ omap f l.
Proof. intros Hi Hf. pose proof (omap_insert_perm f l i x y Hi) as H. rewrite Hf in H. by apply Permutation_app_inv_l in H. Qed.

Lemma elem_driver_op ops (d : OpToken * (OpKind * FileId)) :
  d ∈ omap driver_op ops ↔ ∃ i s, ops !! N.to_nat i = Some s ∧ driver_op s = Some d.
Proof.
  rewrite list_elem_of_omap. split.
  - intros (s & [i Hi]%list_elem_of_lookup & Hs). exists (N.of_nat i), s. by rewrite Nat2N.id.
  - intros (i & s & Hi & Hs). exists s. split; [by eapply list_elem_of_lookup_2|done].
Qed.

(** An operation of the driver belongs to one slot. *)
Lemma driver_op_slot ops i j s s' t x y :
  NoDup (omap driver_op ops).*1 → ops !! N.to_nat i = Some s → ops !! N.to_nat j = Some s' →
  driver_op s = Some (t, x) → driver_op s' = Some (t, y) → i = j.
Proof.
  intros Hd Hi Hj Hs Hs'. destruct (decide (i = j)) as [|Hne]; [done|exfalso].
  pose proof (omap_insert_perm driver_op ops (N.to_nat i) s (mkOpSlot 0 None) Hi) as Hp. rewrite Hs in Hp. simpl in Hp.
  rewrite <- Hp, fmap_cons, NoDup_cons in Hd. destruct Hd as [Hn _]. apply Hn. apply list_elem_of_fmap. exists (t, y). split; [done|].
  apply elem_driver_op. exists j, s'. split; [|done]. rewrite list_lookup_insert_ne by lia. done.
Qed.

Lemma under_way_minted b batch t k fl :
  sound b → (∀ c, c ∈ batch → c_token c ∈ minted b) → under_way b batch t k fl → t ∈ minted b.
Proof. intros Hs Hb [H|(_ & c & Hc & <- & _)]; [by eapply law_minted|by apply Hb]. Qed.

Lemma slot_minted ops sequence fs b batch t x :
  sound b → ops_inv ops sequence fs b batch → (t, x) ∈ omap driver_op ops → t ∈ minted b.
Proof.
  intros Hs Ho (i & s & Hi & Hd)%elem_driver_op. pose proof (oi_slot _ _ _ _ _ Ho i s Hi) as [_ Hok]. unfold driver_op in Hd.
  destruct (po_operation s) as [[]|]; simplify_eq; destruct Hok as (_ & Hok); destruct_and?;
    eapply under_way_minted; eauto using oi_minted.
Qed.

Lemma slot_ok_mono sequence fs b batch sequence' fs' b' batch' i s :
  slot_ok sequence fs b batch i s → sequence ≤ sequence' →
  (∀ file, registered fs file → registered fs' file) →
  (∀ t k file fl, driver_op s = Some (t, (k, file)) → product_flight k file fl →
    under_way b batch t k fl → under_way b' batch' t k fl) →
  slot_ok sequence' fs' b' batch' i s.
Proof.
  intros [Hg Hop] Hseq Hreg Huw. split; [done|]. unfold driver_op in Huw.
  destruct (po_operation s) as [[t dt file o|t file o m|t dt file|file c]|]; [..|done]; destruct Hop as [Hr Hop]; split; eauto.
  - destruct Hop as (-> & ? & ?). split_and!; [done|lia|]. by apply (Huw dt Write file).
  - destruct Hop as (-> & ?). split; [done|lia].
  - destruct Hop as (-> & ?). split; [done|]. by apply (Huw dt Fsync file).
Qed.

(** A change of the driver that leaves the product operations alone. *)
Definition product_agrees (batch : list Completion) b b' : Prop :=
  (∀ t k file fl, product_flight k file fl → flights b' !! t = Some fl ↔ flights b !! t = Some fl) ∧
  (∀ c, c ∈ batch → flights b !! c_token c = None → flights b' !! c_token c = None) ∧
  (∀ c, c ∈ batch → gone b (c_token c) → gone b' (c_token c)) ∧ minted b ⊆ minted b'.

Lemma ops_inv_driver ops sequence fs fs' b b' batch :
  ops_inv ops sequence fs b batch → sound b → product_agrees batch b b' →
  (∀ file, registered fs file → registered fs' file) → ops_inv ops sequence fs' b' batch.
Proof.
  intros Ho Hs (Hf & Hn & Hg & Hm) Hreg. destruct Ho as [H1 H2 H3 H4 H5 H6 H7 H8]. constructor; try done.
  - intros i s Hi. eapply slot_ok_mono; [by apply H1|done|done|]. intros t k file fl Hd Hk [H|(H & c & Hc & Ht & Hck)].
    + left. by eapply Hf.
    + right. split; [|eauto]. subst t. by apply Hn.
  - intros t k file fl Ht Hk. apply (H3 t k file fl); [|done]. by eapply Hf.
  - intros c Hc Hk. destruct (H4 c Hc Hk) as [Hnone Hex]. split; [by apply Hn|done].
  - intros c Hc. by apply Hm, H6.
  - intros c Hc. by apply Hg, H7.
Qed.

Lemma product_flight_fun k file k' file' fl : product_flight k file fl → product_flight k' file' fl → k = k' ∧ file = file'.
Proof. destruct k, k'; simpl; intros; simplify_eq; done. Qed.

(** A slot without a driver operation is stored over another one. *)
Lemma ops_inv_store ops sequence sequence' fs b batch i s s' :
  ops_inv ops sequence fs b batch → ops !! N.to_nat i = Some s → driver_op s = None → driver_op s' = None →
  sequence ≤ sequence' → slot_ok sequence' fs b batch i s' →
  ops_inv (<[N.to_nat i := s']> ops) sequence' fs b batch.
Proof.
  intros [H1 H2 H3 H4 H5 H6 H7 H8] Hi Hs Hs' Hle Hok.
  assert (omap driver_op (<[N.to_nat i := s']> ops) ≡ₚ omap driver_op ops) as Hp by (eapply omap_insert_same; [done|congruence]).
  constructor; rewrite ?vlen_insert; try done.
  - intros j x [(? & <- & _)|[? Hj]]%list_lookup_insert_Some; [by replace j with i by lia|].
    eapply slot_ok_mono; [by apply H1|done..|]. intros. done.
  - by rewrite Hp.
  - intros. rewrite Hp. by eapply H3.
  - intros c Hc Hk. destruct (H4 c Hc Hk) as [? (file & Hf)]. split; [done|]. exists file. by rewrite Hp.
Qed.

(** A slot whose operation the driver has just accepted. *)
Lemma ops_inv_fly ops sequence sequence' fs b b' batch i s s' t k file fl :
  sound b → ops_inv ops sequence fs b batch → ops !! N.to_nat i = Some s → driver_op s = None →
  driver_op s' = Some (t, (k, file)) → product_flight k file fl → t ∉ minted b →
  minted b' = {[t]} ∪ minted b → flights b' = <[t := fl]> (flights b) → sequence ≤ sequence' →
  slot_ok sequence' fs b' batch i s' →
  ops_inv (<[N.to_nat i := s']> ops) sequence' fs b' batch.
Proof.
  intros Hsb Ho Hi Hs Hs' Hfl Hnew Hm Hf Hle Hok. pose proof Ho as [H1 H2 H3 H4 H5 H6 H7 H8].
  assert (omap driver_op (<[N.to_nat i := s']> ops) ≡ₚ (t, (k, file)) :: omap driver_op ops) as Hp.
  { pose proof (omap_insert_perm driver_op ops (N.to_nat i) s s' Hi) as H. by rewrite Hs, Hs' in H. }
  assert (∀ x, x ∈ minted b → flights b' !! x = flights b !! x) as Hold.
  { intros x Hx. rewrite Hf, lookup_insert_ne; [done|]. by intros <-. }
  constructor; rewrite ?vlen_insert; try done.
  - intros j x [(? & <- & _)|[? Hj]]%list_lookup_insert_Some; [by replace j with i by lia|].
    eapply slot_ok_mono; [by apply H1|done..|]. intros t' k' file' fl' Hd Hk' Hu.
    assert (t' ∈ minted b) by (eapply under_way_minted; eauto). destruct Hu as [Hu|[Hu Hc]]; [left|right]; rewrite Hold; done.
  - rewrite Hp, fmap_cons. apply NoDup_cons. split; [|done].
    intros ([t' x] & Heq & Hin)%list_elem_of_fmap. simpl in Heq. subst t'. by eapply Hnew, slot_minted.
  - intros t' k' file' fl' Ht' Hk'. rewrite Hp. rewrite Hf in Ht'. apply lookup_insert_Some in Ht' as [[<- <-]|[? Ht']].
    + destruct (product_flight_fun _ _ _ _ _ Hfl Hk') as [<- <-]. set_solver.
    + apply elem_of_cons. right. by eapply H3.
  - intros c Hc Hck. destruct (H4 c Hc Hck) as [Hn (file' & Hf')]. split; [by rewrite Hold by by apply H6|].
    exists file'. rewrite Hp. set_solver.
  - intros c Hc. rewrite Hm. specialize (H6 c Hc). set_solver.
  - intros c Hc fl'. rewrite Hold by by apply H6. by apply H7.
Qed.

Lemma batch_unique (batch : list Completion) c c' :
  NoDup (c_token <$> batch) → c ∈ batch → c' ∈ batch → c_token c = c_token c' → c = c'.
Proof.
  intros Hd Hc Hc' Ht. apply list_elem_of_lookup in Hc as [i Hi]. apply list_elem_of_lookup in Hc' as [j Hj].
  assert (i = j) as ->; [|congruence]. eapply (NoDup_lookup (c_token <$> batch)); [done|by rewrite list_lookup_fmap, Hi|].
  by rewrite list_lookup_fmap, Hj, Ht.
Qed.

(** A slot whose completion is routed. *)
Lemma ops_inv_land ops sequence fs b batch c batch' i s s' k file :
  sound b → ops_inv ops sequence fs b batch → batch ≡ₚ c :: batch' → ops !! N.to_nat i = Some s →
  driver_op s = Some (c_token c, (k, file)) → driver_op s' = None → slot_ok sequence fs b batch' i s' →
  flights b !! c_token c = None →
  ops_inv (<[N.to_nat i := s']> ops) sequence fs b batch'.
Proof.
  intros Hsb [H1 H2 H3 H4 H5 H6 H7 H8] Hb Hi Hs Hs' Hok Hnone.
  assert ((c_token c, (k, file)) :: omap driver_op (<[N.to_nat i := s']> ops) ≡ₚ omap driver_op ops) as Hp.
  { pose proof (omap_insert_perm driver_op ops (N.to_nat i) s s' Hi) as H. by rewrite Hs, Hs' in H. }
  pose proof H2 as Hd. rewrite <- Hp, fmap_cons, NoDup_cons in Hd. destruct Hd as [Hn Hd].
  assert (∀ d, d ∈ omap driver_op ops → d.1 ≠ c_token c → d ∈ omap driver_op (<[N.to_nat i := s']> ops)) as Hkeep.
  { intros d Hin Hne. rewrite <- Hp in Hin. apply elem_of_cons in Hin as [->|]; done. }
  assert (∀ x, x ∈ batch' → x ∈ batch) as Hsub by (intros; rewrite Hb; set_solver).
  rewrite Hb, fmap_cons, NoDup_cons in H5. destruct H5 as [Hc5 H5].
  constructor; rewrite ?vlen_insert; try done; eauto.
  - intros j x [(? & <- & _)|[? Hj]]%list_lookup_insert_Some; [by replace j with i by lia|].
    eapply slot_ok_mono; [by apply H1|done..|]. intros t' k' file' fl' Hd' Hk' [Hu|(Hu & c' & Hc' & Ht' & Hk)]; [by left|right].
    split; [done|]. exists c'. split_and!; try done. rewrite Hb in Hc'. apply elem_of_cons in Hc' as [->|]; [|done].
    rewrite <- Ht' in Hd'. assert (i = j); [by eapply (driver_op_slot ops i j)|lia].
  - intros t' k' file' fl' Ht' Hk'. apply Hkeep; [by eapply H3|]. simpl. intros ->. congruence.
  - intros c' Hc' Hck. destruct (H4 c') as [? (file' & Hf')]; [by apply Hsub|done|]. split; [done|]. exists file'. apply Hkeep; [done|].
    simpl. intros Heq. apply Hc5. rewrite <- Heq. by apply list_elem_of_fmap_2.
Qed.

Lemma answers_product fl c k file : answers fl c → product_flight k file fl → c_kind c = k ∧ landed fl c = None.
Proof. destruct k; simpl; intros Ha Hk; subst; simpl in *; naive_solver. Qed.

Lemma answers_kind fl c :
  answers fl c → c_kind c ≠ Read → landed fl c = None ∧ ∃ file, product_flight (c_kind c) file fl.
Proof. destruct fl; simpl; intros Ha Hk; destruct_and?; try done; split; try done; eexists; by rewrite H. Qed.

(** Completions the driver hands out go to the end of the batch. *)
Lemma ops_inv_poll ops sequence fs b b' batch cs :
  sound b → ops_inv ops sequence fs b batch → minted b' = minted b → NoDup (c_token <$> cs) →
  (∀ c, c ∈ cs → ∃ fl, flights b !! c_token c = Some fl ∧ answers fl c ∧ flights b' !! c_token c = landed fl c) →
  (∀ t, t ∉ (c_token <$> cs) → flights b' !! t = flights b !! t) →
  ops_inv ops sequence fs b' (batch ++ cs).
Proof.
  intros Hsb [H1 H2 H3 H4 H5 H6 H7 H8] Hm Hcs Ha Hkeep.
  assert (∀ c, c ∈ batch → c_token c ∉ (c_token <$> cs)) as Hapart.
  { intros c Hc (c' & Ht & Hc')%list_elem_of_fmap. destruct (Ha c' Hc') as (fl & Hfl & Hans & _).
    rewrite <- Ht in Hfl. destruct (H7 c Hc fl Hfl) as (file & left & ->). done. }
  assert (∀ c, c ∈ cs → gone b' (c_token c)) as Hgone.
  { intros c Hc fl' Hfl'. destruct (Ha c Hc) as (fl & _ & _ & Hl). rewrite Hl in Hfl'. destruct fl; simplify_eq/=. eauto. }
  constructor; try done.
  - intros i s Hi. eapply slot_ok_mono; [by apply H1|done..|]. intros t k file fl Hd Hk [Hu|(Hu & c & Hc & Ht & Hck)].
    + destruct (decide (t ∈ c_token <$> cs)) as [(c & -> & Hc)%list_elem_of_fmap|Hn]; [|left; by rewrite Hkeep].
      destruct (Ha c Hc) as (fl' & Hfl' & Hans & Hl). rewrite Hu in Hfl'. simplify_eq.
      destruct (answers_product _ _ _ _ Hans Hk) as [Hck Hln]. right. rewrite Hl, Hln. split; [done|]. exists c. set_solver.
    + right. subst t. rewrite Hkeep by by apply Hapart. split; [done|]. exists c. set_solver.
  - intros t k file fl Ht Hk. destruct (decide (t ∈ c_token <$> cs)) as [(c & -> & Hc)%list_elem_of_fmap|Hn].
    + destruct (Ha c Hc) as (fl' & Hfl' & Hans & Hl). rewrite Hl in Ht. destruct fl'; simplify_eq/=. by destruct k.
    + rewrite Hkeep in Ht by done. by eapply H3.
  - intros c [Hc|Hc]%elem_of_app Hk.
    + destruct (H4 c Hc Hk) as [? ?]. by rewrite Hkeep by by apply Hapart.
    + destruct (Ha c Hc) as (fl & Hfl & Hans & Hl). destruct (answers_kind _ _ Hans Hk) as (Hln & file & Hpf).
      rewrite Hl, Hln. split; [done|]. exists file. by eapply H3.
  - rewrite fmap_app. apply NoDup_app. split_and!; [done| |done]. intros t (c & -> & Hc)%list_elem_of_fmap. by apply Hapart.
  - intros c [Hc|Hc]%elem_of_app; rewrite Hm; [by apply H6|]. destruct (Ha c Hc) as (fl & Hfl & _). by eapply law_minted.
  - intros c [Hc|Hc]%elem_of_app; [|by apply Hgone]. intros fl. rewrite Hkeep by by apply Hapart. by apply H7.
Qed.

(** ** The operations keep the invariant *)

Lemma registered_file_ok fs words b opening file :
  files_inv fs words b opening → registered fs file →
  ∃ h, registered_file fs file = Done h ∧ fh_id h = file ∧ handle_ok b h.
Proof.
  intros Hf (e & h & Hi & He & Hh). unfold registered_file. rewrite (proj2 (vget_Done _ _ _) Hi). mred.
  rewrite bool_decide_eq_true_2 by done. mred. rewrite Hh. mred. exists h. split; [done|].
  destruct (fi_file _ _ _ _ Hf _ _ Hi) as (_ & _ & _ & H). rewrite Hh in H. destruct H as (? & ? & _). by rewrite <- He.
Qed.

(** One slot of a pass over the held fsyncs. *)
Definition issue ops (s s' : ProductOpSlot) : Prop :=
  s' = s ∨ ∃ t file o m dt, po_operation s = Some (OpFsyncHeld t file o m) ∧ prior_write ops file o = false ∧
    s' = mkOpSlot (po_generation s) (Some (OpFsync t dt file)).

Lemma issue_prior ops0 ops ops' file o : Forall2 (issue ops0) ops ops' → prior_write ops' file o = prior_write ops file o.
Proof.
  induction 1 as [|s s' ops ops' Hs _ IH]; [done|]. unfold prior_write in *. simpl. rewrite IH. f_equal.
  destruct Hs as [->|(t & f & o' & m & dt & Hs & _ & ->)]; [done|]. by rewrite Hs.
Qed.

Lemma issue_store ops0 ops ops' i s s' :
  Forall2 (issue ops0) ops ops' → ops' !! i = Some s → ops !! i = Some s → issue ops0 s s' →
  Forall2 (issue ops0) ops (<[i := s']> ops').
Proof.
  intros Hf Hi Hi' Hs. apply Forall2_same_length_lookup_2; [by rewrite length_insert; eapply Forall2_length|].
  intros j x y Hx [(-> & <- & _)|[? Hy]]%list_lookup_insert_Some; [congruence|by eapply Forall2_lookup_lr].
Qed.

Lemma set_ops_inv p opening batch leases ops sequence b batch' :
  pinv p opening batch leases → sound b → live b = live (driver p) →
  ops_inv ops sequence (files p) b batch' → pinv (set_ops (set_sequence (set_driver p b) sequence) ops) opening batch' leases.
Proof.
  intros [H1 [F1 F2 F3 F4 F5 F6 F7 F8] H3 H4] Hs Hl Ho. constructor; simpl; try done. constructor; try done.
  - intros i e Hi. destruct (F3 i e Hi) as (? & ? & ? & H). split_and!; try done. destruct (pf_handle e); [|done].
    unfold handle_ok in *. by rewrite Hl.
  - intros file. rewrite Hl. apply F4.
  - intros h Hh. unfold handle_ok. rewrite Hl. by apply F5.
Qed.

(** The driver has taken on product operations, and left everything else alone. *)
Definition additions b b' : Prop :=
  live b' = live b ∧ minted b ⊆ minted b' ∧ (∀ t, t ∈ minted b → flights b' !! t = flights b !! t) ∧
  (∀ t fl, flights b' !! t = Some fl → flights b !! t = Some fl ∨ ∃ k file, product_flight k file fl).

Lemma additions_same b b' : live b' = live b → minted b' = minted b → flights b' = flights b → additions b b'.
Proof. intros Hl Hm Hf. unfold additions. rewrite Hl, Hm, Hf. split_and!; auto. Qed.

Lemma additions_new b b' t k file fl :
  live b' = live b → t ∉ minted b → minted b' = {[t]} ∪ minted b → flights b' = <[t := fl]> (flights b) → product_flight k file fl →
  additions b b'.
Proof.
  intros Hl Hn Hm Hf Hk. split_and!; [done|set_solver| |].
  - intros t' Ht'. rewrite Hf, lookup_insert_ne; [done|]. by intros <-.
  - intros t' fl'. rewrite Hf. intros [[_ <-]|[_ ?]]%lookup_insert_Some; eauto.
Qed.

Lemma additions_trans b b1 b2 : additions b b1 → additions b1 b2 → additions b b2.
Proof.
  intros (L1 & M1 & F1 & P1) (L2 & M2 & F2 & P2). split_and!; [congruence|set_solver| |].
  - intros t Ht. rewrite F2 by set_solver. by apply F1.
  - intros t fl Ht. destruct (P2 t fl Ht) as [?%P1|?]; auto.
Qed.

Lemma submit_held_from_ok p opening batch leases n index :
  pinv p opening batch leases → (N.to_nat index + n = length (product_ops p))%nat →
  ∃ p', submit_held_from n p index = Done p' ∧ pinv p' opening batch leases ∧
    Forall2 (issue (product_ops p)) (product_ops p) (product_ops p') ∧
    files p' = files p ∧ product_sequence p' = product_sequence p ∧ additions (driver p) (driver p').
Proof.
  intros Hp Hn.
  assert (∀ q, pinv q opening batch leases → Forall2 (issue (product_ops p)) (product_ops p) (product_ops q) →
    (∀ j, (N.to_nat index ≤ j)%nat → product_ops q !! j = product_ops p !! j) →
    files q = files p → product_sequence q = product_sequence p → additions (driver p) (driver q) →
    ∃ p', submit_held_from n q index = Done p' ∧ pinv p' opening batch leases ∧
      Forall2 (issue (product_ops p)) (product_ops p) (product_ops p') ∧
      files p' = files p ∧ product_sequence p' = product_sequence p ∧ additions (driver p) (driver p')) as Hgen.
  { clear Hp. revert index Hn. induction n as [|n IH]; intros index Hn q Hq Hrel Hsame Hfs Hseq Hadd; simpl; [by eauto 10|].
    destruct (lookup_lt_is_Some_2 (product_ops p) (N.to_nat index)) as [s Hs]; [lia|].
    pose proof Hs as Hsq. rewrite <- Hsame in Hsq by lia. rewrite (proj2 (vget_Done _ _ _) Hsq). mred.
    assert (∀ q', pinv q' opening batch leases → Forall2 (issue (product_ops p)) (product_ops p) (product_ops q') →
      (∀ j, (N.to_nat index < j)%nat → product_ops q' !! j = product_ops p !! j) →
      files q' = files p → product_sequence q' = product_sequence p → additions (driver p) (driver q') →
      ∃ p', submit_held_from n q' (index + 1) = Done p' ∧ pinv p' opening batch leases ∧
        Forall2 (issue (product_ops p)) (product_ops p) (product_ops p') ∧
        files p' = files p ∧ product_sequence p' = product_sequence p ∧ additions (driver p) (driver p')) as Hnext.
    { intros q' ? ? Hs' ? ? ?. apply IH; try done; [lia|]. intros j Hj. apply Hs'. lia. }
    destruct (po_operation s) as [[| t file o m | |]|] eqn:Hop; try (apply Hnext; try done; intros; apply Hsame; lia).
    destruct (prior_write (product_ops q) file o) eqn:Hprior; mred; [apply Hnext; try done; intros; apply Hsame; lia|].
    pose proof Hq as [Hb Hf Hl Ho]. pose proof (oi_slot _ _ _ _ _ Ho _ _ Hsq) as [Hgen Hok]. rewrite Hop in Hok.
    destruct Hok as (Hreg & -> & Hord). simpl in Hreg.
    destruct (registered_file_ok _ _ _ _ _ Hf Hreg) as (h & -> & Hid & Hh). mred.
    destruct (law_submit_fsync (driver q) h m) as (b' & r & -> & Hb' & Hlive & Hr); [done|apply Hh|]. mred.
    destruct r as [dt|e].
    - destruct Hr as (Hnew & Hmint & Hfl). rewrite vset_ok by eauto using vget_lt. mred. simpl.
      set (s' := mkOpSlot (po_generation s) (Some (OpFsync (PoolToken_new index (po_generation s)) dt file))).
      apply Hnext; simpl; try done.
      + apply (set_ops_inv q opening batch leases (<[N.to_nat index := s']> (product_ops q)) (product_sequence q) b'); try done.
        eapply (ops_inv_fly _ _ _ _ (driver q) b' batch index s s' dt Fsync file (FlyFsync file)); try done.
        * unfold driver_op. by rewrite Hop.
        * by rewrite Hfl, Hid.
        * split; [done|]. simpl. split; [done|]. split; [done|]. left. by rewrite Hfl, Hid, lookup_insert_eq.
      + eapply issue_store; try done. right. exists (PoolToken_new index (po_generation s)), file, o, m, dt.
        split_and!; try done. by rewrite <- (issue_prior _ _ _ _ _ Hrel).
      + intros j Hj. rewrite list_lookup_insert_ne by lia. apply Hsame. lia.
      + eapply additions_trans; [exact Hadd|]. by eapply (additions_new _ _ dt Fsync).
    - destruct Hr as (Hmint & Hfl & Hfull). rewrite Hfull by apply Hh. mred. apply Hnext; simpl; try done.
      + apply (set_ops_inv q opening batch leases (product_ops q) (product_sequence q) b'); try done.
        eapply ops_inv_driver; [done..| |done]. split_and!; try (intros; rewrite ?Hfl; try unfold gone; try rewrite Hfl; done).
        by rewrite Hmint.
      + intros j Hj. apply Hsame. lia.
      + eapply additions_trans; [exact Hadd|by apply additions_same]. }
  apply Hgen; try done; [|by apply additions_same]. by apply Forall2_same_length_lookup_2; [done|]; intros j x y Hx Hy; left; congruence.
Qed.

(** Sequence numbers and slot generations are not exhausted. *)
Definition roomy p : Prop :=
  product_sequence p < U64_MAX ∧ ∀ i s, product_ops p !! N.to_nat i = Some s → po_generation s < U32_MAX.

Lemma vacant_from_spec ops n :
  match vacant_from ops n with
  | Some i => ∃ j s, i = n + N.of_nat j ∧ ops !! j = Some s ∧ po_operation s = None
  | None => ∀ s, s ∈ ops → po_operation s ≠ None
  end.
Proof.
  revert n. induction ops as [|s ops IH]; intros n; simpl; [by intros s ?%elem_of_nil|].
  destruct (po_operation s) eqn:Hs; [|exists 0%nat, s; split_and!; [lia|done..]].
  specialize (IH (n + 1)). destruct (vacant_from ops (n + 1)) as [i|].
  - destruct IH as (j & s' & -> & Hj & Hn). exists (S j), s'. split_and!; [lia|done..].
  - intros s' [->|Hin]%elem_of_cons; [congruence|by apply IH].
Qed.

Lemma vacant_slot ops i : vacant_from ops 0 = Some i → ∃ s, ops !! N.to_nat i = Some s ∧ po_operation s = None.
Proof.
  intros H. pose proof (vacant_from_spec ops 0) as Hv. rewrite H in Hv. destruct Hv as (j & s & -> & Hj & Hn).
  exists s. by rewrite N.add_0_l, Nat2N.id.
Qed.

Lemma checked_add_fits m a c : a + c ≤ m → checked_add m a c = Some (a + c).
Proof. intros. by apply checked_add_Some. Qed.

Lemma occupy_ok p index s op :
  product_ops p !! N.to_nat index = Some s → roomy p → vlen (product_ops p) ≤ U32_MAX →
  let token := PoolToken_new index (po_generation s + 1) in
  occupy p index op = Done (set_ops (set_sequence p (product_sequence p + 1))
    (<[N.to_nat index := mkOpSlot (po_generation s + 1) (Some (op token (product_sequence p + 1)))]> (product_ops p)), token).
Proof.
  intros Hi [Hseq Hgen] Hmax token. specialize (Hgen _ _ Hi). pose proof (vget_lt _ _ _ Hi). unfold occupy.
  rewrite checked_add_fits by lia. mred. rewrite (proj2 (vget_Done _ _ _) Hi). mred.
  rewrite checked_add_fits by lia. mred. rewrite (proj2 (N.leb_le _ _)) by lia.
  by rewrite vset_ok by done.
Qed.

(** The answers of the two submissions, as the checks before the driver decide them. *)
Definition live_handle p (file : FileId) : option FileHandle :=
  match files p !! N.to_nat (fid_slot file) with
  | Some (Some e) => if bool_decide (pf_id e = file) && bool_decide (pf_state e = Live) then pf_handle e else None
  | _ => None
  end.

Lemma live_file_handle_ok p opening batch leases file :
  pinv p opening batch leases → fid_driver file = identity → fid_slot file < file_capacity →
  live_file_handle identity (files p) file =
    Done (match live_handle p file with Some h => inl h | None => inr (StaleFile file) end) ∧
  ∀ h, live_handle p file = Some h → fh_id h = file ∧ handle_ok (driver p) h ∧ registered (files p) file.
Proof.
  intros Hp Hd Hs. pose proof (pi_files _ _ _ _ Hp) as Hf. rewrite <- (fi_len _ _ _ _ Hf) in Hs.
  destruct (vget_ok _ _ Hs) as (o & Hg & Ho). unfold live_file_handle, live_handle. rewrite Hd, N.eqb_refl. mred. rewrite Hg, Ho. mred.
  destruct o as [e|]; [|done]. destruct (decide (pf_id e = file)) as [He|]; [|by rewrite bool_decide_eq_false_2].
  rewrite bool_decide_eq_true_2 by done. destruct (decide (pf_state e = Live)) as [Hl|]; [|by rewrite bool_decide_eq_false_2].
  rewrite bool_decide_eq_true_2 by done. simpl. split; [by destruct (pf_handle e)|]. intros h Hh.
  destruct (fi_file _ _ _ _ Hf _ _ Ho) as (_ & _ & _ & H). rewrite Hh in H. destruct H as (Hid & Hok & _).
  split_and!; [congruence|done|]. exists e, h. done.
Qed.

Definition own_file (file : FileId) : Prop := fid_driver file = identity ∧ fid_slot file < file_capacity.

(** What a submission that answers [r] has changed: nothing of the product operations, or
    one vacant slot. *)
Definition occupied p p' (i : N) (op : PoolToken → N → ProductOp) (t : PoolToken) : Prop :=
  ∃ s, product_ops p !! N.to_nat i = Some s ∧ po_operation s = None ∧ t = PoolToken_new i (po_generation s + 1) ∧
    product_sequence p' = product_sequence p + 1 ∧
    product_ops p' = <[N.to_nat i := mkOpSlot (po_generation s + 1) (Some (op t (product_sequence p + 1)))]> (product_ops p).

Lemma submit_write_ok p opening batch leases file slot offset :
  pinv p opening batch leases → roomy p → own_file file → ws_len (pw_slot slot) ≤ U32_MAX →
  (∀ h, live_handle p file = Some h → mode_accepts (fh_mode h) offset) →
  ∃ p' r, submit_write identity p file slot offset = Done (p', r) ∧ pinv p' opening batch leases ∧ files p' = files p ∧
    additions (driver p) (driver p') ∧
    match r with
    | inl t => pw_pool_identity slot = identity ∧ is_Some (live_handle p file) ∧
        ∃ i dt, occupied p p' i (λ t order, OpWrite t dt file order) t
    | inr (e, s) => s = slot ∧ product_ops p' = product_ops p ∧ product_sequence p' = product_sequence p ∧
        (e = ForeignPool ↔ pw_pool_identity slot ≠ identity) ∧
        (∀ f, e = StaleFile f ↔ pw_pool_identity slot = identity ∧ f = file ∧ live_handle p file = None)
    end.
Proof.
  intros Hp Hroom [Hd Hs] Hlen Hal. unfold submit_write. destruct (N.eqb_spec (pw_pool_identity slot) identity) as [Hid|Hid]; simpl.
  2: { eexists _, _. split; [done|]. split_and!; try done; first [by apply additions_same|naive_solver]. }
  destruct (live_file_handle_ok _ _ _ _ _ Hp Hd Hs) as [-> Hh]. mred.
  destruct (live_handle p file) as [h|] eqn:Hlh; [|eexists _, _; split; [done|]; split_and!; try done; first [by apply additions_same|naive_solver]].
  specialize (Hh h eq_refl) as (Hfh & Hok & Hreg).
  destruct (vacant_from (product_ops p) 0) as [i|] eqn:Hv; [|eexists _, _; split; [done|]; split_and!; try done; first [by apply additions_same|naive_solver]].
  destruct (vacant_slot _ _ Hv) as (s & Hi & Hn). pose proof Hp as [Hb Hf Hl Ho].
  destruct (law_submit_write (driver p) h (pw_slot slot) offset) as (b' & r & -> & Hb' & Hlive & Hr); [done|apply Hok|by apply Hal|done|].
  mred. destruct r as [dt|[e ws]].
  - destruct Hr as (Hnew & Hmint & Hfl).
    pose proof (occupy_ok (set_driver p b') i s (λ t order, OpWrite t dt file order) Hi Hroom (oi_max _ _ _ _ _ Ho)) as Hoc.
    simpl in Hoc. rewrite Hoc. mred. eexists _, _. split; [done|]. split; [|split; [done|]].
    + apply (set_ops_inv p opening batch leases _ (product_sequence p + 1) b'); try done.
      eapply (ops_inv_fly _ _ _ _ (driver p) b' batch i s _ dt Write file (FlyWrite file)); try done.
      * unfold driver_op. by rewrite Hn.
      * by rewrite Hfl, Hfh.
      * lia.
      * split; simpl; [destruct Hroom as [_ Hg]; specialize (Hg _ _ Hi); lia|]. split_and!; try done. left. by rewrite Hfl, Hfh, lookup_insert_eq.
    + split; [by eapply (additions_new _ _ dt Write)|]. split; [done|]. split; [eauto|]. exists i, dt, s. split_and!; done.
  - destruct Hr as (-> & Hmint & Hfl & Hfull). rewrite Hfull by (apply Hok). eexists _, _. split; [done|]. split; [|split; [done|]].
    + apply (set_ops_inv p opening batch leases (product_ops p) (product_sequence p) b'); try done.
      eapply ops_inv_driver; [done..| |done]. split_and!; try (intros; rewrite ?Hfl; try unfold gone; try rewrite Hfl; done).
      by rewrite Hmint.
    + simpl. destruct slot. simpl in *. split_and!; try done; first [by apply additions_same|naive_solver].
Qed.

Lemma submit_held_ok p opening batch leases :
  pinv p opening batch leases →
  ∃ p', submit_held_fsyncs p = Done p' ∧ pinv p' opening batch leases ∧
    Forall2 (issue (product_ops p)) (product_ops p) (product_ops p') ∧
    files p' = files p ∧ product_sequence p' = product_sequence p ∧ additions (driver p) (driver p').
Proof. intros Hp. by apply submit_held_from_ok. Qed.

Lemma submit_fsync_ok p opening batch leases file mode :
  pinv p opening batch leases → roomy p → own_file file →
  ∃ p' r, submit_fsync identity p file mode = Done (p', r) ∧ pinv p' opening batch leases ∧ files p' = files p ∧
    additions (driver p) (driver p') ∧
    match r with
    | inl t => is_Some (live_handle p file) ∧ product_sequence p' = product_sequence p + 1 ∧
        ∃ i q, occupied p q i (λ t order, OpFsyncHeld t file order mode) t ∧
          Forall2 (issue (product_ops q)) (product_ops q) (product_ops p')
    | inr e => p' = p ∧ (∀ f, e = StaleFile f ↔ f = file ∧ live_handle p file = None) ∧
        (e = SubmitFull ↔ is_Some (live_handle p file) ∧ ∀ s, s ∈ product_ops p → po_operation s ≠ None)
    end.
Proof.
  intros Hp Hroom [Hd Hs]. unfold submit_fsync. destruct (live_file_handle_ok _ _ _ _ _ Hp Hd Hs) as [-> Hh]. mred.
  destruct (live_handle p file) as [h|] eqn:Hlh; [|eexists _, _; split; [done|]; split_and!; try done; first [by apply additions_same|naive_solver]].
  specialize (Hh h eq_refl) as (Hfh & Hok & Hreg). pose proof (vacant_from_spec (product_ops p) 0) as Hvs.
  destruct (vacant_from (product_ops p) 0) as [i|] eqn:Hv; [|eexists _, _; split; [done|]; split_and!; try done; first [by apply additions_same|naive_solver]].
  destruct (vacant_slot _ _ Hv) as (s & Hi & Hn). pose proof Hp as [Hb Hf Hl Ho].
  pose proof (occupy_ok p i s (λ t order, OpFsyncHeld t file order mode) Hi Hroom (oi_max _ _ _ _ _ Ho)) as Hoc.
  simpl in Hoc. rewrite Hoc. mred.
  match goal with |- context [submit_held_fsyncs ?q] => set (p1 := q) end.
  assert (pinv p1 opening batch leases) as Hp1.
  { apply (set_ops_inv p opening batch leases _ (product_sequence p + 1) (driver p)); try done.
    eapply (ops_inv_store _ (product_sequence p) _ _ _ _ i s); try done.
    - unfold driver_op. by rewrite Hn.
    - lia.
    - split; simpl; [destruct Hroom as [_ Hg]; specialize (Hg _ _ Hi); lia|]. done. }
  destruct (submit_held_ok p1 opening batch leases Hp1) as (p' & -> & Hp' & Hrel & Hfs & Hseq & Hadd). mred.
  eexists _, _. split; [done|]. split_and!; try done. exists i, p1. split; [|done]. exists s. done.
Qed.

Lemma find_from_spec t ops n i :
  find_from t ops n = Some i → ∃ j s, i = n + N.of_nat j ∧ ops !! j = Some s ∧ names_token t s = true.
Proof.
  revert n. induction ops as [|s ops IH]; intros n; simpl; [done|].
  destruct (names_token t s) eqn:Hs; [intros [= <-]; exists 0%nat, s; split_and!; [lia|done..]|].
  intros (j & s' & -> & Hj & Hn)%IH. exists (S j), s'. split_and!; [lia|done..].
Qed.

Lemma find_from_found t ops n s : s ∈ ops → names_token t s = true → is_Some (find_from t ops n).
Proof.
  intros Hin Hs. revert n. induction ops as [|s' ops IH]; intros n; [by apply elem_of_nil in Hin|]. simpl.
  destruct (names_token t s') eqn:Hs'; [eauto|]. apply elem_of_cons in Hin as [->|Hin]; [congruence|by apply IH].
Qed.

Lemma names_driver_op t s : names_token t s = true ↔ ∃ x, driver_op s = Some (t, x).
Proof.
  unfold names_token, driver_op. destruct (po_operation s) as [[]|]; rewrite ?N.eqb_eq; naive_solver.
Qed.

(** The slot an operation of the driver is found in. *)
Lemma find_driver_op ops t x :
  NoDup (omap driver_op ops).*1 → (t, x) ∈ omap driver_op ops →
  ∃ i s, find_from t ops 0 = Some i ∧ ops !! N.to_nat i = Some s ∧ driver_op s = Some (t, x).
Proof.
  intros Hd (i0 & s0 & Hi0 & Hs0)%elem_driver_op.
  destruct (find_from_found t ops 0 s0) as [i Hfind]; [by eapply list_elem_of_lookup_2|apply names_driver_op; eauto|].
  destruct (find_from_spec _ _ _ _ Hfind) as (j & s & -> & Hj & Hs). apply names_driver_op in Hs as [y Hs].
  assert (ops !! N.to_nat (0 + N.of_nat j) = Some s) as Hi by by rewrite N.add_0_l, Nat2N.id.
  assert (0 + N.of_nat j = i0) as <- by (by eapply (driver_op_slot ops)). exists (0 + N.of_nat j), s. split_and!; try done. congruence.
Qed.

(** A slot whose operation the driver has finished. *)
Definition completes (s s' : ProductOpSlot) (t : PoolToken) : Prop :=
  po_generation s' = po_generation s ∧
  ((∃ dt file o r, po_operation s = Some (OpWrite t dt file o) ∧ po_operation s' = Some (OpCompleted file (WriteCompletion t r))) ∨
   (∃ dt file r, po_operation s = Some (OpFsync t dt file) ∧ po_operation s' = Some (OpCompleted file (FsyncCompletion t r)))).

Lemma completes_ok sequence fs b batch batch' i s s' t :
  slot_ok sequence fs b batch i s → completes s s' t → driver_op s' = None ∧ slot_ok sequence fs b batch' i s'.
Proof.
  intros [Hg Hok] [Hg' [(dt & file & o & r & Hs & Hs')|(dt & file & r & Hs & Hs')]]; unfold driver_op, slot_ok;
    rewrite Hs', Hg'; rewrite Hs in Hok; destruct Hok as (Hreg & -> & _); done.
Qed.

Lemma finish_product_ok p opening batch leases c batch' :
  pinv p opening batch leases → batch ≡ₚ c :: batch' → c_kind c ≠ Read →
  ∃ p' i s s' t, finish_product_completion p (c_token c) (c_kind c) (c_result c) = Done p' ∧ pinv p' opening batch' leases ∧
    product_ops p !! N.to_nat i = Some s ∧ (∃ x, driver_op s = Some (c_token c, x)) ∧ completes s s' t ∧ product_ops p' = <[N.to_nat i := s']> (product_ops p) ∧
    files p' = files p ∧ product_sequence p' = product_sequence p.
Proof.
  intros Hp Hb Hk. pose proof Hp as [Hsb Hf Hl Ho]. destruct (oi_batch _ _ _ _ _ Ho c) as [Hnone (file & Hin)]; [rewrite Hb; set_solver|done|].
  destruct (find_driver_op _ _ _ (oi_distinct _ _ _ _ _ Ho) Hin) as (i & s & Hfind & Hi & Hs).
  assert (∃ t done, completes s (mkOpSlot (po_generation s) (Some done)) t ∧
    finish_product_completion p (c_token c) (c_kind c) (c_result c) =
      Done (set_ops p (<[N.to_nat i := mkOpSlot (po_generation s) (Some done)]> (product_ops p)))) as (t & op & Hc & ->).
  { unfold finish_product_completion. rewrite Hfind. mred. rewrite (proj2 (vget_Done _ _ _) Hi). mred. unfold driver_op in Hs.
    destruct (po_operation s) as [[t dt f o|t f o m|t dt f|f cc]|] eqn:Hop; simplify_eq; mred; destruct (c_kind c); simplify_eq; mred;
      rewrite vset_ok by eauto using vget_lt; mred; eexists t, _; (split; [|done]); split; simpl; eauto 10. }
  destruct (completes_ok _ _ _ _ batch' _ _ _ _ (oi_slot _ _ _ _ _ Ho _ _ Hi) Hc) as [Hd' Hok'].
  eexists _, i, s, _, t. split; [done|]. split; [|split_and!; eauto].
  apply (set_ops_inv p opening batch leases _ (product_sequence p) (driver p)); try done. by eapply ops_inv_land.
Qed.

(** A slot given up when its result is delivered. *)
Definition taken (s s' : ProductOpSlot) : Prop :=
  s' = s ∨ ∃ file c, po_operation s = Some (OpCompleted file c) ∧ s' = mkOpSlot (po_generation s) None.

Definition slot_token (s : ProductOpSlot) : option PoolToken :=
  match po_operation s with
  | Some (OpWrite t _ _ _) | Some (OpFsyncHeld t _ _ _) | Some (OpFsync t _ _) => Some t
  | Some (OpCompleted _ c) => Some (completion_token c)
  | None => None
  end.

Definition is_completed (s : ProductOpSlot) : bool :=
  match po_operation s with Some (OpCompleted _ _) => true | _ => false end.

Lemma omap_cons_list {A C} (f : A → option C) x l : omap f (x :: l) = option_list (f x) ++ omap f l.
Proof. simpl. by destruct (f x). Qed.

Lemma deliver_from_ok ops out :
  vlen (items out) ≤ logical_capacity out →
  ∃ ops' cs, deliver_from ops out = Done (ops', mkBatch (items out ++ cs) (logical_capacity out)) ∧
    Forall2 taken ops ops' ∧ vlen (items out ++ cs) ≤ logical_capacity out ∧
    omap slot_token ops ≡ₚ (completion_token <$> cs) ++ omap slot_token ops' ∧
    (vlen (items out ++ cs) < logical_capacity out → ∀ s, s ∈ ops' → is_completed s = false).
Proof.
  revert out. induction ops as [|s ops IH]; intros out Hout; simpl.
  { eexists [], []. rewrite app_nil_r. destruct out; simpl in *. split_and!; try done. intros _ s ?%elem_of_nil. done. }
  unfold batch_remaining. rewrite sub_ok by done. mred. destruct (N.eqb_spec (logical_capacity out - vlen (items out)) 0) as [H0|H0].
  { eexists (s :: ops), []. rewrite app_nil_r. destruct out; simpl in *. split_and!; try done; [|lia].
    apply Forall2_same_length_lookup_2; [done|]. intros j x y Hx Hy. left. congruence. }
  destruct (po_operation s) as [[t dt f o|t f o m|t dt f|f c]|] eqn:Hop.
  4: { unfold batch_push. rewrite (proj2 (N.ltb_lt _ _)) by lia. mred.
    destruct (IH (mkBatch (items out ++ [c]) (logical_capacity out))) as (ops' & cs & -> & Hrel & Hle & Hperm & Hlast).
    { simpl. unfold vlen in *. rewrite length_app. simpl. lia. }
    mred. eexists (_ :: ops'), (c :: cs). simpl in *. rewrite <- app_assoc in *. simpl in *. split_and!; try done.
    - constructor; [right; eauto|done].
    - unfold slot_token at 1. rewrite Hop. simpl. by rewrite Hperm.
    - intros Hlt x [->|Hx]%elem_of_cons; [done|by apply Hlast]. }
  all: destruct (IH out Hout) as (ops' & cs & -> & Hrel & Hle & Hperm & Hlast); mred; eexists (s :: ops'), cs; split_and!; try done;
    [by constructor; [left|]| |intros Hlt x [->|Hx]%elem_of_cons; [by unfold is_completed; rewrite Hop|by apply Hlast]].
  all: rewrite (omap_cons_list _ s ops'), <- Permutation_app_swap_app, <- Hperm; by apply Permutation_refl', omap_cons_list.
Qed.

(** Slots change only where the driver has no operation. *)
Lemma ops_inv_pointwise ops ops' sequence fs b batch :
  ops_inv ops sequence fs b batch →
  Forall2 (λ s s', driver_op s' = driver_op s ∧ ∀ i, slot_ok sequence fs b batch i s → slot_ok sequence fs b batch i s') ops ops' →
  ops_inv ops' sequence fs b batch.
Proof.
  intros [H1 H2 H3 H4 H5 H6 H7 H8] Hf.
  assert (omap driver_op ops' = omap driver_op ops) as Heq.
  { clear - Hf. induction Hf as [|s s' ops ops' [Hd _] _ IH]; [done|]. rewrite !omap_cons_list, Hd. by f_equal. }
  constructor; rewrite ?Heq; try done.
  - intros i s' Hi. destruct (Forall2_lookup_r _ _ _ _ _ Hf Hi) as (s & Hs & _ & Hok). by apply Hok, H1.
  - unfold vlen in *. by rewrite <- (Forall2_length _ _ _ Hf).
Qed.

Lemma taken_ok s s' : taken s s' →
  driver_op s' = driver_op s ∧ ∀ sequence fs b batch i, slot_ok sequence fs b batch i s → slot_ok sequence fs b batch i s'.
Proof.
  intros [->|(file & c & Hs & ->)]; [done|]. unfold driver_op. rewrite Hs. split; [done|]. intros sequence fs b batch i [Hg _]. done.
Qed.

Lemma deliver_ok p opening batch leases out :
  pinv p opening batch leases → vlen (items out) ≤ logical_capacity out →
  ∃ p' cs, deliver_product_completions p out = Done (p', mkBatch (items out ++ cs) (logical_capacity out)) ∧
    pinv p' opening batch leases ∧ Forall2 taken (product_ops p) (product_ops p') ∧
    vlen (items out ++ cs) ≤ logical_capacity out ∧ files p' = files p ∧ product_sequence p' = product_sequence p ∧
    omap slot_token (product_ops p) ≡ₚ (completion_token <$> cs) ++ omap slot_token (product_ops p') ∧
    (vlen (items out ++ cs) < logical_capacity out → ∀ s, s ∈ product_ops p' → is_completed s = false).
Proof.
  intros Hp Hout. unfold deliver_product_completions.
  destruct (deliver_from_ok (product_ops p) out Hout) as (ops' & cs & -> & Hrel & Hle & Hperm & Hlast). mred.
  eexists _, cs. split; [done|]. split; [|split_and!; done].
  apply (set_ops_inv p opening batch leases ops' (product_sequence p) (driver p)); [done|apply Hp|done|].
  eapply ops_inv_pointwise; [apply Hp|]. eapply Forall2_impl; [done|]. intros s s' Hs. destruct (taken_ok _ _ Hs) as [? H]. split; [done|]. auto.
Qed.

Lemma poll_ok p opening batch leases :
  pinv p opening batch leases →
  ∃ b cs, poll_progress (driver p) = Done (b, cs) ∧ pinv (set_driver p b) opening (batch ++ cs) leases.
Proof.
  intros Hp. pose proof Hp as [Hsb Hf Hl Ho]. destruct (law_poll (driver p) Hsb) as (b & cs & -> & Hb & Hlive & Hm & Hnd & Ha & Hk).
  exists b, cs. split; [done|]. apply (set_ops_inv p opening batch leases (product_ops p) (product_sequence p) b); try done. apply (ops_inv_poll _ _ _ (driver p) b batch cs); done.
Qed.

(** A read completion is routed by the cache. *)
Lemma route_read_ok p opening batch leases c batch' :
  pinv p opening batch leases → batch = batch' ++ [c] → c_kind c = Read → pinv p opening batch' leases.
Proof.
  intros [P1 P2 P3 [H1 H2 H3 H4 H5 H6 H7 H8]] -> Hk. constructor; try done. constructor; try done.
  - intros i s Hi. eapply slot_ok_mono; [by apply H1|done..|]. intros t k file fl _ Hfl [?|(Hn & c' & Hc & Ht & Hck)]; [by left|right].
    split; [done|]. exists c'. split_and!; try done. apply elem_of_app in Hc as [?| ->%list_elem_of_singleton]; [done|].
    rewrite Hk in Hck. subst k. done.
  - intros c' Hc'. apply H4. set_solver.
  - rewrite fmap_app in H5. by apply NoDup_app in H5 as [? _].
  - intros c' Hc'. apply H6. set_solver.
  - intros c' Hc'. apply H7. set_solver.
Qed.

(** Reads come and go in the driver. *)
Lemma reads_ok p opening batch leases b :
  pinv p opening batch leases → sound b → live b = live (driver p) → product_agrees batch (driver p) b →
  pinv (set_driver p b) opening batch leases.
Proof.
  intros Hp Hb Hlive Ha. apply (set_ops_inv p opening batch leases (product_ops p) (product_sequence p) b); try done.
  eapply ops_inv_driver; [apply Hp|apply Hp|done..].
Qed.

(** ** The registry *)

Lemma handle_ok_grow b b' h : live b ⊆ live b' → handle_ok b h → handle_ok b' h.
Proof. intros Hsub (H & ?). split; [by apply Hsub|done]. Qed.

(** Two open files are in different slots. *)
Lemma registered_slot fs words b opening file file' :
  files_inv fs words b opening → registered fs file → registered fs file' → fid_slot file = fid_slot file' → file = file'.
Proof. intros _ (e & h & Hi & He & _) (e' & h' & Hi' & He' & _) Hs. rewrite Hs in Hi. congruence. Qed.

Lemma agrees_same batch b b' : flights b' = flights b → minted b' = minted b → product_agrees batch b b'.
Proof. intros Hf Hm. unfold product_agrees, gone. rewrite Hf, Hm. split_and!; done. Qed.

Lemma open_file_ok p opening batch leases :
  pinv p opening batch leases →
  ∃ b o, open_file (driver p) = Done (b, o) ∧ pinv (set_driver p b) (option_list o ++ opening) batch leases.
Proof.
  intros [Hsb [F1 F2 F3 F4 F5 F6 F7 F8] Hl Ho]. destruct (law_open (driver p) Hsb) as (b & o & -> & Hb & Hm & Hfl & Hr).
  exists b, o. split; [done|].
  assert (live (driver p) ⊆ live b) as Hsub by (destruct o as [h|]; [destruct Hr as [-> _]|rewrite Hr]; set_solver).
  constructor; simpl; [done| |done|].
  - constructor; try done.
    + intros i e Hi. destruct (F3 i e Hi) as (? & ? & ? & H). split_and!; try done. destruct (pf_handle e); [|done].
      destruct H as (? & ? & ?). split_and!; try done. by eapply handle_ok_grow.
    + intros file Hfile. destruct o as [h|]; simpl; [|apply F4; by rewrite <- Hr]. destruct Hr as [Hr _]. rewrite Hr in Hfile.
      apply elem_of_union in Hfile as [->%elem_of_singleton|Hfile]; [right; set_solver|]. destruct (F4 _ Hfile); [by left|right; set_solver].
    + intros h' Hh'. apply elem_of_app in Hh' as [Hh'|Hh']; [|by eapply handle_ok_grow, F5].
      destruct o as [h|]; simpl in Hh'; [|by apply elem_of_nil in Hh']. apply list_elem_of_singleton in Hh' as ->.
      destruct Hr as (Hr & ? & ? & ? & ? & _). split; [set_solver|]. done.
    + destruct o as [h|]; [|done]. simpl. constructor; [|done]. intros (h' & Hs & Hh')%list_elem_of_fmap.
      destruct Hr as (_ & _ & _ & _ & _ & Hfresh & _). destruct (Hfresh (fh_id h')); [apply (F5 _ Hh')|done].
    + intros h' e h1 Hh' Hi. apply elem_of_app in Hh' as [Hh'|Hh']; [|by eapply F7]. intros He.
      destruct o as [h|]; simpl in Hh'; [|by apply elem_of_nil in Hh']. apply list_elem_of_singleton in Hh' as ->.
      destruct Hr as (_ & _ & _ & _ & _ & Hfresh & _). destruct (F3 _ _ Hi) as (Hs & _ & _ & H). rewrite He in H.
      destruct H as (Hid & Hok & _). destruct (Hfresh (fh_id h1)); [apply Hok|congruence].
  - eapply ops_inv_driver; [done..|by apply agrees_same|done].
Qed.

(** Storing a file entry over one without a handle keeps every registered file. *)
Lemma registered_store fs i o e file :
  fs !! N.to_nat i = Some o → (∀ e0 h, o = Some e0 → pf_handle e0 ≠ Some h) →
  registered fs file → registered (<[N.to_nat i := e]> fs) file.
Proof.
  intros Hi Hno (e0 & h & H1 & H2 & H3). exists e0, h. split_and!; try done. rewrite list_lookup_insert_ne; [done|].
  intros Heq. rewrite <- Heq, Hi in H1. simplify_eq. by eapply Hno.
Qed.

Lemma filter_nil_count (leases : list FileId) i : (∀ file, file ∈ leases → fid_slot file ≠ i) → filter (λ file, fid_slot file = i) leases = [].
Proof. intros H. apply filter_none. done. Qed.

Lemma register_ok p opening opening' batch leases h :
  pinv p opening batch leases → opening ≡ₚ h :: opening' →
  ∃ p', register_file identity p h = Done p' ∧ pinv p' opening' batch leases ∧
    product_ops p' = product_ops p ∧ product_sequence p' = product_sequence p ∧ driver p' = driver p ∧
    live_handle p' (fh_id h) = Some h ∧ (∀ f, registered (files p) f → registered (files p') f).
Proof.
  intros Hp Hop. pose proof Hp as [Hsb Hf Hl Ho]. pose proof Hf as [F1 F2 F3 F4 F5 F6 F7 F8]. assert (h ∈ opening) as Hin by (rewrite Hop; set_solver).
  destruct (F5 h Hin) as (Hlive & Hdr & Hslot & Hgen & Hmode). set (i := fid_slot (fh_id h)) in *.
  destruct (vget_ok (files p) i) as (o & Hg & Hi); [by rewrite F1|]. unfold register_file. fold i. rewrite Hg. mred.
  assert (∀ e0 h0, o = Some e0 → pf_handle e0 ≠ Some h0) as Hno by (intros e0 h0 ->; by eapply F7).
  assert (match o with None => true | Some e => bool_decide (pf_state e = Retired) end = true) as ->.
  { destruct o as [e|]; [|done]. destruct (F3 _ _ Hi) as (_ & _ & _ & H). apply bool_decide_eq_true_2.
    destruct (pf_handle e) eqn:He; [|done]. by destruct (Hno e f eq_refl). }
  mred. unfold publish_live_file. fold i. rewrite (proj2 (N.ltb_lt _ _)) by (by rewrite F1). mred.
  destruct (vget_ok (resident_lease_states p) i) as (ls & Hgl & Hil); [by rewrite (li_len _ _ _ Hl)|]. rewrite Hgl. mred.
  rewrite Hdr, N.eqb_refl. mred. unfold publish_generation.
  assert (∀ file, file ∈ leases → fid_slot file ≠ i) as Hnol.
  { intros file (e & h0 & H1 & H2 & H3)%(li_leased _ _ _ Hl) Hs. rewrite Hs, Hi in H1. simplify_eq. by eapply Hno. }
  assert (ls_count ls = 0) as Hc0 by (rewrite (proj1 (li_count _ _ _ Hl _ _ Hil)), filter_nil_count by done; done).
  assert (i < vlen (files p) ∧ i < vlen (file_live_generations p) ∧ i < vlen (resident_lease_states p)) as (Hlt1 & Hlt2 & Hlt3)
    by (rewrite F1, F2, (li_len _ _ _ Hl); done).
  rewrite Hc0, N.eqb_refl. mred. rewrite !vset_ok by done. mred. eexists. split; [done|]. simpl.
  assert (∀ file, registered (files p) file → registered (<[N.to_nat i:=Some (mkPoolFile (fh_id h) (Some h) Live)]> (files p)) file) as Hreg
    by (intros; by eapply registered_store).
  rewrite Hop in F6. rewrite fmap_cons, NoDup_cons in F6. destruct F6 as [Hns F6]. split_and!; try done.
  - constructor; simpl; [done| | |].
    + constructor; rewrite ?vlen_insert; try done.
      * intros j e [(? & [= <-] & _)|[? Hj]]%list_lookup_insert_Some; [|by apply F3]. split_and!; simpl; try done; lia.
      * intros file [Hr|Hr]%F4; [left; by apply Hreg|]. rewrite Hop, fmap_cons in Hr. apply elem_of_cons in Hr as [->|]; [left|by right].
        exists (mkPoolFile (fh_id h) (Some h) Live), h. fold i. rewrite list_lookup_insert_eq by (apply lookup_lt_Some in Hi; done). done.
      * intros h' Hh'. apply F5. rewrite Hop. set_solver.
      * intros h' e h1 Hh' [(Heq & [= <-] & _)|[? Hj]]%list_lookup_insert_Some.
        -- exfalso. apply Hns. apply list_elem_of_fmap. exists h'. split; [fold i; lia|done].
        -- apply (F7 h' e h1); [rewrite Hop; set_solver|done].
      * intros j o' [(? & <- & _)|[? Hj]]%list_lookup_insert_Some.
        -- replace j with i by lia. rewrite list_lookup_insert_eq; [done|]. rewrite <- F1 in F2. apply lookup_lt_Some in Hi. unfold vlen in F2. lia.
        -- rewrite list_lookup_insert_ne by done. by apply F8.
    + destruct Hl as [L1 L2 L3]. constructor; rewrite ?vlen_insert; try done.
      * intros j s [(? & <- & _)|[? Hj]]%list_lookup_insert_Some; [|by apply L2]. simpl. replace j with i by lia. rewrite <- Hc0. by apply L2.
      * intros file Hfile. by apply Hreg, L3.
    + eapply ops_inv_driver; [done..|by apply agrees_same|done].
  - unfold live_handle. simpl. fold i. rewrite list_lookup_insert_eq by (apply lookup_lt_Some in Hi; done). by rewrite !bool_decide_eq_true_2.
Qed.

Lemma retire_begin_ok p opening batch leases file :
  pinv p opening batch leases → own_file file →
  ∃ p' r, retire_begin identity p file = Done (p', r) ∧ pinv p' opening batch leases ∧
    product_ops p' = product_ops p ∧ product_sequence p' = product_sequence p ∧ driver p' = driver p ∧
    live_handle p' file = None ∧ (∀ f, registered (files p') f ↔ registered (files p) f).
Proof.
  intros Hp [Hd Hs]. pose proof Hp as [Hsb Hf Hl Ho]. pose proof Hf as [F1 F2 F3 F4 F5 F6 F7 F8]. unfold retire_begin. rewrite Hd, N.eqb_refl. mred.
  set (i := fid_slot file) in *. assert (i < vlen (files p) ∧ i < vlen (file_live_generations p)) as [Hlt1 Hlt2] by (rewrite F1, F2; done).
  destruct (vget_ok (files p) i Hlt1) as (o & -> & Hi). mred. unfold live_handle. fold i.
  destruct o as [e|]; [|eexists _, _; split; [done|]; by rewrite Hi].
  destruct (decide (pf_id e = file)) as [He|He].
  2: { rewrite bool_decide_eq_false_2 by done. eexists _, _. split; [done|]. rewrite Hi, bool_decide_eq_false_2 by done. split_and!; done. }
  rewrite bool_decide_eq_true_2 by done. simpl. destruct (decide (pf_state e = Retired)) as [Hr|Hr].
  { rewrite bool_decide_eq_true_2 by done. eexists _, _. split; [done|]. rewrite Hi, Hr. simpl. by rewrite andb_false_r. }
  rewrite bool_decide_eq_false_2 by done. unfold begin_file_retirement. rewrite (bool_decide_eq_true_2 (pf_id e = file)), (bool_decide_eq_false_2 (pf_state e = Retired)) by done. simpl negb. mred.
  rewrite !vset_ok by done. mred. eexists _, _. split; [done|]. simpl. fold i.
  set (e' := mkPoolFile (pf_id e) (pf_handle e) Retiring).
  assert (∀ f, registered (<[N.to_nat i := Some e']> (files p)) f ↔ registered (files p) f) as Hreg.
  { intros f. unfold registered. destruct (decide (N.to_nat i = N.to_nat (fid_slot f))) as [Heq|Hne].
    - rewrite <- Heq, list_lookup_insert_eq, Hi by (unfold vlen in *; lia). split; intros (e0 & h & ? & ? & ?); simplify_eq; [exists e, h|exists e', h]; done.
    - by rewrite list_lookup_insert_ne. }
  split_and!; try done.
  - constructor; simpl; [done| | |].
    + constructor; rewrite ?vlen_insert; try done.
      * intros j x [(? & [= <-] & _)|[? Hj]]%list_lookup_insert_Some; [|by apply F3]. replace j with i by lia.
        destruct (F3 _ _ Hi) as (? & ? & ? & Hpe). split_and!; try done. unfold e'. simpl. destruct (pf_handle e); [|done]. naive_solver.
      * intros f. rewrite Hreg. apply F4.
      * intros h x h' Hh [(Heq & [= <-] & _)|[? Hj]]%list_lookup_insert_Some; [|by eapply F7]. rewrite Heq in Hi. exact (F7 h e h' Hh Hi).
      * intros j o [(? & <- & _)|[? Hj]]%list_lookup_insert_Some.
        -- replace j with i by lia. rewrite list_lookup_insert_eq by (unfold vlen in *; lia). done.
        -- rewrite list_lookup_insert_ne by done. by apply F8.
    + destruct Hl as [L1 L2 L3]. constructor; try done. intros f Hin. apply Hreg. by apply L3.
    + eapply ops_inv_driver; [done..|by apply agrees_same|]. intros f. by rewrite Hreg.
  - rewrite list_lookup_insert_eq by (unfold vlen in *; lia). simpl. by rewrite andb_false_r.
Qed.

Lemma product_live_spec ops file :
  product_live ops file = true ↔ ∃ s op, s ∈ ops ∧ po_operation s = Some op ∧ op_file op = file.
Proof.
  unfold product_live. rewrite existsb_exists. setoid_rewrite <- list_elem_of_In. split.
  - intros (s & Hs & Ho). destruct (po_operation s) as [op|] eqn:E; [|done]. apply bool_decide_eq_true in Ho. eauto.
  - intros (s & op & Hs & Ho & <-). exists s. rewrite Ho. split; [done|]. by apply bool_decide_eq_true_2.
Qed.

Definition reads_quiet b (file : FileId) : Prop :=
  ∀ t fl, flights b !! t = Some fl → flight_file fl = file → ∃ k, product_flight k file fl.

Lemma retire_close_ok p opening batch leases index e file :
  pinv p opening batch leases → files p !! N.to_nat index = Some (Some e) → pf_id e = file → pf_state e = Retiring →
  product_live (product_ops p) file = false → reads_quiet (driver p) file → (∀ f, f ∈ leases → fid_slot f ≠ index) →
  ∃ p', retire_close p index file = Done p' ∧ pinv p' opening batch leases ∧
    product_ops p' = product_ops p ∧ product_sequence p' = product_sequence p ∧ live (driver p') = live (driver p) ∖ {[file]} ∧
    flights (driver p') = flights (driver p) ∧ minted (driver p') = minted (driver p) ∧
    files p' = <[N.to_nat index := Some (mkPoolFile file None Retired)]> (files p).
Proof.
  intros Hp Hi He Hst Hpl Hq Hnl. pose proof Hp as [Hsb Hf Hl Ho]. pose proof Hf as [F1 F2 F3 F4 F5 F6 F7 F8].
  destruct (F3 _ _ Hi) as (Hslot & Hdr & Hgen & Hh). destruct (pf_handle e) as [h|] eqn:Hpf; [|congruence]. destruct Hh as (Hid & Hok & _).
  unfold retire_close. rewrite (proj2 (vget_Done _ _ _) Hi). mred. rewrite Hpf.
  destruct (law_close (driver p) h Hsb) as (b1 & -> & Hb1 & Hm1 & Hl1 & Hf1); [apply Hok|]. mred.
  assert (∀ t fl, flights b1 !! t = Some fl → flight_file fl ≠ file) as Hnone.
  { intros t fl Ht Hfile. rewrite Hf1 in Ht. destruct (Hq t fl Ht Hfile) as (k & Hk).
    pose proof (oi_flight _ _ _ _ _ Ho t k file fl Ht Hk) as (j & s & Hj & Hs)%elem_driver_op.
    assert (product_live (product_ops p) file = true); [|congruence]. apply product_live_spec. unfold driver_op in Hs.
    destruct (po_operation s) as [op|] eqn:Hop; [|done]. exists s, op. split_and!; [by eapply list_elem_of_lookup_2|done|].
    destruct op; simplify_eq/=; done. }
  assert (fid_slot file < file_capacity) as Hcap by (rewrite <- F1, <- He, Hslot; eauto using vget_lt).
  destruct (law_is_closed b1 file Hb1) as (b2 & r & -> & Hb2 & Hm2 & Hl2 & Hf2 & Hr); [by rewrite <- He|done|].
  rewrite Hr by (rewrite ?Hl1, ?Hid, ?He; set_solver). mred. rewrite vset_ok by eauto using vget_lt. mred. rewrite He.
  eexists. split; [done|]. simpl. set (e' := mkPoolFile file None Retired).
  assert (live b2 = live (driver p) ∖ {[file]}) as Hlive by (rewrite Hl2, Hl1, Hid, He; done).
  assert (∀ f, f ≠ file → registered (files p) f → registered (<[N.to_nat index := Some e']> (files p)) f) as Hreg.
  { intros f Hne (e0 & h0 & H1 & H2 & H3). exists e0, h0. split_and!; try done. rewrite list_lookup_insert_ne; [done|].
    intros Heq. rewrite <- Heq, Hi in H1. congruence. }
  split; [|split_and!; congruence]. constructor; simpl; [done| | |].
  - constructor; rewrite ?vlen_insert; try done.
    + intros j x [(? & [= <-] & _)|[Hne Hj]]%list_lookup_insert_Some.
      * replace j with index by lia. split_and!; simpl; congruence.
      * destruct (F3 _ _ Hj) as (Hsj & ? & ? & H). split_and!; try done. destruct (pf_handle x) as [hx|]; [|done].
        destruct H as (Hidx & (Hlx & Hrest) & ?). split_and!; try done. split; [|done]. rewrite Hlive. apply elem_of_difference. split; [done|].
        intros Heq%elem_of_singleton. apply Hne. rewrite <- Hsj, <- Hidx, Heq, <- He, Hslot. done.
    + intros f. rewrite Hlive. intros [Hfl Hne]%elem_of_difference. destruct (F4 _ Hfl); [left; apply Hreg; set_solver|by right].
    + intros h' Hh'. destruct (F5 _ Hh') as (Hlh & Hrest). split; [|done]. rewrite Hlive. apply elem_of_difference. split; [done|].
      intros Heq%elem_of_singleton. eapply (F7 h' e h Hh'); [|done]. by rewrite Heq, <- He, Hslot.
    + intros h' x h1 Hh' [(Heq & [= <-] & _)|[? Hj]]%list_lookup_insert_Some; [done|by eapply F7].
    + intros j o [(? & <- & _)|[? Hj]]%list_lookup_insert_Some; [|by apply F8]. replace j with index by lia. rewrite (F8 _ _ Hi). simpl. by rewrite Hst.
  - destruct Hl as [L1 L2 L3]. constructor; try done. intros f Hin. apply Hreg; [|by apply L3]. intros ->. apply (Hnl file Hin). congruence.
  - assert (∀ s op, s ∈ product_ops p → po_operation s = Some op → op_file op ≠ file) as Hops.
    { intros s op Hs Hop Hfile. assert (product_live (product_ops p) file = true); [|congruence]. apply product_live_spec. eauto. }
    assert (product_agrees batch (driver p) b2) as Hag by (apply agrees_same; congruence).
    pose proof (ops_inv_driver _ _ _ (files p) _ b2 batch Ho Hsb Hag (λ f H, H)) as [O1 O2 O3 O4 O5 O6 O7 O8].
    constructor; try done. intros j s Hj. destruct (O1 _ _ Hj) as [Hg Hok']. split; [done|].
    destruct (po_operation s) as [op|] eqn:Hop; [|done]. destruct Hok' as [Hr' Hok']. split; [|done]. apply Hreg; [|done].
    eapply Hops; [by eapply list_elem_of_lookup_2|done].
Qed.

(** The close of one file keeps the others registered and open. *)
Lemma progress_from_ok reads_live p opening batch leases n index :
  pinv p opening batch leases → (N.to_nat index + n = length (files p))%nat →
  (∀ file, reads_live file = false → reads_quiet (driver p) file) →
  ∃ p', progress_from reads_live n p index = Done p' ∧ pinv p' opening batch leases ∧
    product_ops p' = product_ops p ∧ product_sequence p' = product_sequence p ∧
    flights (driver p') = flights (driver p) ∧ minted (driver p') = minted (driver p).
Proof.
  revert p index. induction n as [|n IH]; intros p index Hp Hn Hq; simpl; [by eauto 10|].
  destruct (lookup_lt_is_Some_2 (files p) (N.to_nat index)) as [o Ho]; [lia|]. rewrite (proj2 (vget_Done _ _ _) Ho). mred.
  assert (∃ p', progress_from reads_live n p (index + 1) = Done p' ∧ pinv p' opening batch leases ∧
    product_ops p' = product_ops p ∧ product_sequence p' = product_sequence p ∧
    flights (driver p') = flights (driver p) ∧ minted (driver p') = minted (driver p)) as Hskip by (apply IH; [done|lia|done]).
  destruct o as [e|]; [|done]. case_bool_decide as He; [|done].
  assert (index < file_capacity) as Hlt by (rewrite <- (fi_len _ _ _ _ (pi_files _ _ _ _ Hp)); eauto using vget_lt).
  destruct (vget_ok (resident_lease_states p) index) as (s & -> & Hs); [by rewrite (li_len _ _ _ (pi_leases _ _ _ _ Hp))|]. mred.
  destruct (N.ltb_spec 0 (ls_count s)) as [|Hc]; [done|].
  destruct (reads_live (pf_id e)) eqn:Hr; [done|]. destruct (product_live (product_ops p) (pf_id e)) eqn:Hpl; [done|]. simpl.
  destruct (retire_close_ok p opening batch leases index e (pf_id e)) as (p1 & -> & Hp1 & Hops & Hseq & Hlive & Hfl & Hm & Hfs); try done.
  { by apply Hq. }
  { intros f Hf Hslot. destruct (li_count _ _ _ (pi_leases _ _ _ _ Hp) index s Hs) as [Hcount _].
    assert (f ∈ filter (λ file, fid_slot file = index) leases) as Hin by by apply list_elem_of_filter.
    destruct (filter (λ file, fid_slot file = index) leases); [by apply elem_of_nil in Hin|]. simpl in Hcount. lia. }
  mred. destruct (IH p1 (index + 1)) as (p' & -> & Hp' & H1 & H2 & H3 & H4); [done|rewrite Hfs, length_insert; lia| |].
  { intros file Hfile. unfold reads_quiet. rewrite Hfl. by apply Hq. }
  exists p'. split_and!; congruence.
Qed.

Lemma progress_ok reads_live p opening batch leases :
  pinv p opening batch leases → (∀ file, reads_live file = false → reads_quiet (driver p) file) →
  ∃ p', progress_retirements reads_live p = Done p' ∧ pinv p' opening batch leases ∧
    product_ops p' = product_ops p ∧ product_sequence p' = product_sequence p ∧
    flights (driver p') = flights (driver p) ∧ minted (driver p') = minted (driver p).
Proof. intros Hp Hq. by apply progress_from_ok. Qed.

(** ** Leases *)

Lemma set_leases_inv p opening batch leases leases' ls :
  pinv p opening batch leases → lease_inv ls (files p) leases' → pinv (set_leases p ls) opening batch leases'.
Proof. intros [H1 H2 H3 H4] Hl. by constructor. Qed.

Lemma file_is_live_ok p opening batch leases file :
  pinv p opening batch leases → own_file file →
  file_is_live identity (files p) file = Done (bool_decide (is_Some (live_handle p file))).
Proof.
  intros Hp [Hd Hs]. pose proof (pi_files _ _ _ _ Hp) as Hf. rewrite <- (fi_len _ _ _ _ Hf) in Hs.
  destruct (vget_ok _ _ Hs) as (o & Hg & Ho). unfold file_is_live, live_handle. rewrite Hd, N.eqb_refl. mred. rewrite Hg, Ho. mred.
  destruct o as [e|]; [|done]. destruct (fi_file _ _ _ _ Hf _ _ Ho) as (_ & _ & _ & Hh).
  destruct (bool_decide (pf_id e = file)); [|done]. destruct (decide (pf_state e = Live)) as [He|He].
  - rewrite (bool_decide_eq_true_2 (pf_state e = Live)) by done. simpl. destruct (pf_handle e); [done|congruence].
  - by rewrite (bool_decide_eq_false_2 (pf_state e = Live)).
Qed.

Lemma lease_at p opening batch leases file :
  pinv p opening batch leases → own_file file →
  ∃ s, resident_lease_states p !! N.to_nat (fid_slot file) = Some s ∧
    ls_count s = N.of_nat (length (filter (λ f, fid_slot f = fid_slot file) leases)) ∧ ls_count s ≤ U32_MAX.
Proof.
  intros Hp [_ Hs]. rewrite <- (li_len _ _ _ (pi_leases _ _ _ _ Hp)) in Hs. destruct (vget_ok _ _ Hs) as (s & _ & Hi).
  exists s. split; [done|]. by apply (li_count _ _ _ (pi_leases _ _ _ _ Hp)).
Qed.

Lemma lease_begin_ok p opening batch leases file :
  pinv p opening batch leases → own_file file →
  ∃ r, lease_begin identity p file = Done r ∧
    (∀ n, r = inl n → is_Some (live_handle p file) ∧ n < U32_MAX ∧
      n = N.of_nat (length (filter (λ f, fid_slot f = fid_slot file) leases))).
Proof.
  intros Hp Hown. unfold lease_begin. rewrite (file_is_live_ok _ _ _ _ _ Hp Hown). mred.
  case_bool_decide as Hl; [|eexists; split; [done|naive_solver]].
  destruct (lease_at _ _ _ _ _ Hp Hown) as (s & Hi & Hc & Hm). rewrite (proj2 (vget_Done _ _ _) Hi). mred. eexists. split; [done|].
  unfold acquire_load. intros n. destruct (negb _); [done|]. destruct (N.eqb_spec (ls_count s) U32_MAX); [done|]. intros [= <-].
  split_and!; [done|lia|done].
Qed.

(** The increment of an acquisition that loaded [n], with the leases [leases] left by the
    drops since. *)
Lemma lease_finish_ok p opening batch leases file n :
  pinv p opening batch leases → own_file file → registered (files p) file → n < U32_MAX →
  N.of_nat (length (filter (λ f, fid_slot f = fid_slot file) leases)) ≤ n →
  ∃ p', lease_finish p file n = Done p' ∧ pinv p' opening batch (file :: leases) ∧
    product_ops p' = product_ops p ∧ product_sequence p' = product_sequence p ∧ driver p' = driver p ∧ files p' = files p.
Proof.
  intros Hp Hown Hreg Hn Hle. destruct (lease_at _ _ _ _ _ Hp Hown) as (s & Hi & Hc & Hm). unfold lease_finish.
  rewrite (proj2 (vget_Done _ _ _) Hi). mred. unfold acquire_add. rewrite (proj2 (N.leb_le _ _)) by lia. mred.
  rewrite vset_ok by eauto using vget_lt. mred. eexists. split; [done|]. split; [|done].
  apply (set_leases_inv p opening batch leases); [done|]. pose proof (pi_leases _ _ _ _ Hp) as [L1 L2 L3].
  constructor; rewrite ?vlen_insert; try done.
  - intros i x [(Heq & <- & _)|[Hne Hj]]%list_lookup_insert_Some.
    + replace i with (fid_slot file) by lia. rewrite filter_cons_True by done. simpl.
      rewrite wrapping_add_small by (unfold U32_MAX in *; lia). lia.
    + rewrite filter_cons_False by (intros Heq; apply Hne; by rewrite Heq). by apply L2.
  - intros f [->|Hf]%elem_of_cons; [done|by apply L3].
Qed.

Lemma lease_drop_ok p opening batch leases leases' file :
  pinv p opening batch leases → leases ≡ₚ file :: leases' →
  ∃ p', lease_drop p file = Done p' ∧ pinv p' opening batch leases' ∧
    product_ops p' = product_ops p ∧ product_sequence p' = product_sequence p ∧ driver p' = driver p ∧ files p' = files p.
Proof.
  intros Hp Hl. pose proof (pi_leases _ _ _ _ Hp) as [L1 L2 L3]. pose proof (pi_files _ _ _ _ Hp) as Hf.
  assert (own_file file) as Hown.
  { destruct (L3 file) as (e & h & Hi & He & Hh); [rewrite Hl; set_solver|]. destruct (fi_file _ _ _ _ Hf _ _ Hi) as (Hs & Hd & _ & _).
    split; [congruence|]. rewrite <- (fi_len _ _ _ _ Hf). eauto using vget_lt. }
  destruct (lease_at _ _ _ _ _ Hp Hown) as (s & Hi & Hc & Hm). unfold lease_drop.
  rewrite (proj2 (vget_Done _ _ _) Hi). mred. unfold drop_lease. rewrite Hl in Hc. rewrite filter_cons_True in Hc by done. simpl in Hc.
  rewrite (proj2 (N.ltb_lt _ _)) by lia. mred. rewrite vset_ok by eauto using vget_lt. mred. eexists. split; [done|]. split; [|done].
  apply (set_leases_inv p opening batch leases); [done|]. constructor; rewrite ?vlen_insert; try done.
  - intros i x [(Heq & <- & _)|[Hne Hj]]%list_lookup_insert_Some.
    + replace i with (fid_slot file) by lia. simpl. unfold wrapping_sub, U32_MAX in *.
      replace (ls_count s + 2 ^ 32 - 1) with (ls_count s - 1 + 1 * 2 ^ 32) by lia. rewrite N.Div0.mod_add, N.mod_small by lia. lia.
    + destruct (L2 _ _ Hj) as [Hcx ?]. rewrite Hl, filter_cons_False in Hcx by (intros Heq; apply Hne; by rewrite Heq). done.
  - intros f Hin. apply L3. rewrite Hl. set_solver.
Qed.
End invariant.
End Product.
