(* ===== verification/ProductSafety.v ===== *)
(** * Files, leases and product operations under every sequence of calls

    [step] lets the critical sections of [Product], the driver's own progress on reads and
    the drops of leases follow each other in any order.  Beside the program state it
    records which operations were accepted, finished and delivered.  The theorems: no call
    panics, a sync is held back until every write accepted before it on the same file has
    finished, every accepted operation has its result delivered exactly once, the published
    live words agree with the registry, and a leased file stays open. *)
From stdpp Require Import functions prelude gmap list relations sorting.
From Stdlib Require Import NArith ZArith Lia.
From S2P Require Import Prelude Ids Frames Alignment Execute ReadVector Driver PoolBackend Product.

Open Scope N_scope.

Module ProductSafety.
Import Execute Driver PoolBackend.PoolBackend Product.Product.

#[global] Instance Alignment_eq_dec : EqDecision Alignment.Alignment.
Proof. solve_decision. Defined.
#[global] Instance IoMode_eq_dec : EqDecision IoMode.
Proof. solve_decision. Defined.
#[global] Instance FileHandle_eq_dec : EqDecision FileHandle.
Proof. solve_decision. Defined.

(** The list without the first occurrence of [x]. *)
Fixpoint take_one {A} `{EqDecision A} (x : A) (l : list A) : list A :=
  match l with
  | [] => []
  | y :: l => if bool_decide (y = x) then l else y :: take_one x l
  end.

Lemma take_one_perm {A} `{EqDecision A} (x : A) l : x ∈ l → l ≡ₚ x :: take_one x l.
Proof.
  induction l as [|y l IH]; [by intros ?%elem_of_nil|]. intros Hin. simpl. case_bool_decide as Hy; [by subst|].
  apply elem_of_cons in Hin as [->|Hin]; [done|]. rewrite Permutation_swap. by rewrite <- IH.
Qed.

(** An accepted operation: its token, file and order, and whether it is a write. *)
Record acceptance := mkAcceptance {
  ac_token : PoolToken;
  ac_file : FileId;
  ac_order : N;
  ac_write : bool;
}.

Record sys (B : Type) := mkSys {
  prod : Product B;
  opening : list FileHandle;
  batch : list Completion;
  leases : list FileId;
  acquiring : option (FileId * N);
  accepted : list acceptance;
  finished : list PoolToken;
  delivered : list PoolCompletion;
}.
Arguments mkSys {B}.
Arguments prod {B}.
Arguments opening {B}.
Arguments batch {B}.
Arguments leases {B}.
Arguments acquiring {B}.
Arguments accepted {B}.
Arguments finished {B}.
Arguments delivered {B}.

(** [Progress] is the retirement pass, with the answers of the cache about reads left;
    [Reads] is what the cache does with the driver. *)
Inductive call (B : Type) :=
  | OpenFile
  | Register (h : FileHandle)
  | Retire (file : FileId)
  | Progress (reads_live : FileId → bool)
  | SubmitWrite (file : FileId) (slot : PoolWriteSlot) (offset : N)
  | SubmitFsync (file : FileId) (mode : SyncMode)
  | Poll
  | Route
  | HeldPass
  | Deliver (room : N)
  | LeaseBegin (file : FileId)
  | LeaseFinish
  | LeaseDrop (file : FileId)
  | Reads (b : B).
Arguments OpenFile {B}.
Arguments Register {B}.
Arguments Retire {B}.
Arguments Progress {B}.
Arguments SubmitWrite {B}.
Arguments SubmitFsync {B}.
Arguments Poll {B}.
Arguments Route {B}.
Arguments HeldPass {B}.
Arguments Deliver {B}.
Arguments LeaseBegin {B}.
Arguments LeaseFinish {B}.
Arguments LeaseDrop {B}.
Arguments Reads {B}.

Section system.
Context {B : Type} `{!PoolBackend B} {identity frame_bytes frame_count capacity file_capacity : N}.
Context `{!BackendLaws B identity frame_bytes frame_count capacity file_capacity}.
Implicit Types (s : sys B) (p : Product B) (b : B).

Definition with_prod s p : sys B :=
  mkSys p (opening s) (batch s) (leases s) (acquiring s) (accepted s) (finished s) (delivered s).
Definition with_opening s l : sys B :=
  mkSys (prod s) l (batch s) (leases s) (acquiring s) (accepted s) (finished s) (delivered s).
Definition with_batch s l : sys B :=
  mkSys (prod s) (opening s) l (leases s) (acquiring s) (accepted s) (finished s) (delivered s).
Definition with_leases s l a : sys B :=
  mkSys (prod s) (opening s) (batch s) l a (accepted s) (finished s) (delivered s).
Definition with_accepted s a : sys B :=
  mkSys (prod s) (opening s) (batch s) (leases s) (acquiring s) (accepted s ++ [a]) (finished s) (delivered s).
Definition with_finished s l : sys B :=
  mkSys (prod s) (opening s) (batch s) (leases s) (acquiring s) (accepted s) (l ++ finished s) (delivered s).
Definition with_delivered s l : sys B :=
  mkSys (prod s) (opening s) (batch s) (leases s) (acquiring s) (accepted s) (finished s) (delivered s ++ l).

(** The operation a completion of the driver finishes. *)
Definition finishing p (t : OpToken) : list PoolToken :=
  match find_from t (product_ops p) 0 with
  | Some i => option_list (product_ops p !! N.to_nat i ≫= slot_token)
  | None => []
  end.

Definition exec (c : call B) s : outcome (sys B) :=
  let p := prod s in
  match c with
  | OpenFile => '(b, o) ← open_file (driver p); Done (with_opening (with_prod s (set_driver p b)) (option_list o ++ opening s))
  | Register h => p ← register_file identity p h; Done (with_opening (with_prod s p) (take_one h (opening s)))
  | Retire file => '(p, _) ← retire_begin identity p file; Done (with_prod s p)
  | Progress reads_live => p ← progress_retirements reads_live p; Done (with_prod s p)
  | SubmitWrite file slot offset =>
      '(p, r) ← submit_write identity p file slot offset;
      let s := with_prod s p in
      Done (match r with inl t => with_accepted s (mkAcceptance t file (product_sequence p) true) | inr _ => s end)
  | SubmitFsync file mode =>
      '(p, r) ← submit_fsync identity p file mode;
      let s := with_prod s p in
      Done (match r with inl t => with_accepted s (mkAcceptance t file (product_sequence p) false) | inr _ => s end)
  | Poll => '(b, cs) ← poll_progress (driver p); Done (with_batch (with_prod s (set_driver p b)) (batch s ++ cs))
  | Route =>
      match reverse (batch s) with
      | [] => Done s
      | c :: rest =>
          let s := with_batch s (reverse rest) in
          if bool_decide (c_kind c = Read) then Done s
          else
            q ← finish_product_completion p (c_token c) (c_kind c) (c_result c);
            Done (with_finished (with_prod s q) (finishing p (c_token c)))
      end
  | HeldPass => p ← submit_held_fsyncs p; Done (with_prod s p)
  | Deliver room =>
      '(p, out) ← deliver_product_completions p (mkBatch [] room);
      Done (with_delivered (with_prod s p) (items out))
  | LeaseBegin file =>
      r ← lease_begin identity p file;
      Done (match r with inl n => with_leases s (leases s) (Some (file, n)) | inr _ => s end)
  | LeaseFinish =>
      match acquiring s with
      | None => Done s
      | Some (file, n) => p ← lease_finish p file n; Done (with_leases (with_prod s p) (file :: leases s) None)
      end
  | LeaseDrop file => p ← lease_drop p file; Done (with_leases (with_prod s p) (take_one file (leases s)) (acquiring s))
  | Reads b => Done (with_prod s (set_driver p b))
  end.

(** When a call may run.  The control lock is held between the two halves of a lease
    acquisition, so only drops come in between; submissions need sequence numbers and slot
    generations left and name a file of this pool; the offset of a write suits the file. *)
Definition enabled (c : call B) s : Prop :=
  match c with
  | LeaseFinish => True
  | LeaseDrop file => file ∈ leases s
  | _ => acquiring s = None
  end ∧
  match c with
  | Register h => h ∈ opening s
  | Retire file | LeaseBegin file => own_file (identity := identity) (file_capacity := file_capacity) file
  | Progress reads_live => ∀ file, reads_live file = false → reads_quiet (driver (prod s)) file
  | SubmitWrite file slot offset =>
      own_file (identity := identity) (file_capacity := file_capacity) file ∧ roomy (prod s) ∧ ws_len (pw_slot slot) ≤ U32_MAX ∧
      ∀ h, live_handle (prod s) file = Some h → mode_accepts (fh_mode h) offset
  | SubmitFsync file _ => own_file (identity := identity) (file_capacity := file_capacity) file ∧ roomy (prod s)
  | Reads b => sound b ∧ live b = live (driver (prod s)) ∧ product_agrees (batch s) (driver (prod s)) b
  | _ => True
  end.

Definition step s s' : Prop := ∃ c, enabled c s ∧ exec c s = Done s'.

Definition initial s : Prop :=
  ∃ n b, n ≤ U32_MAX ∧ sound b ∧ live b = ∅ ∧ flights b = ∅ ∧
    s = mkSys (mkProduct (replicate (N.to_nat file_capacity) None) (replicate (N.to_nat file_capacity) 0)
      (replicate (N.to_nat file_capacity) (mkLeaseState 0 0)) (replicate (N.to_nat n) (mkOpSlot 0 None)) 0 b)
      [] [] [] None [] [] [].

Definition reachable s : Prop := ∃ s0, initial s0 ∧ rtc step s0 s.

(** ** The history *)

Definition acceptance_of (s : ProductOpSlot) : option acceptance :=
  match po_operation s with
  | Some (OpWrite t _ file o) => Some (mkAcceptance t file o true)
  | Some (OpFsyncHeld t file o _) => Some (mkAcceptance t file o false)
  | _ => None
  end.

(** The operation is with the driver as a write, or held back as a sync. *)
Definition pending (ops : list ProductOpSlot) (a : acceptance) : Prop := ∃ x, x ∈ ops ∧ acceptance_of x = Some a.

Record history (ops : list ProductOpSlot) (sequence : N) (acc : list acceptance) (fin : list PoolToken)
    (del : list PoolCompletion) : Prop := {
  h_split : ac_token <$> acc ≡ₚ omap slot_token ops ++ (completion_token <$> del);
  h_nodup : NoDup (ac_token <$> acc);
  h_old : ∀ a, a ∈ acc → ∃ i g x, ops !! N.to_nat i = Some x ∧ ac_token a = PoolToken_new i g ∧ g ≤ po_generation x;
  h_sorted : StronglySorted N.lt (ac_order <$> acc);
  h_orders : ∀ a, a ∈ acc → ac_order a ≤ sequence;
  h_slot : ∀ x a, x ∈ ops → acceptance_of x = Some a → a ∈ acc;
  h_write : ∀ a, a ∈ acc → ac_write a = true → pending ops a ∨ ac_token a ∈ fin;
  h_barrier : ∀ a w, a ∈ acc → ac_write a = false → w ∈ acc → ac_write w = true → ac_file w = ac_file a →
    ac_order w < ac_order a → pending ops a ∨ ac_token w ∈ fin;
}.

Lemma PoolToken_inj i g j g' : i ≤ U32_MAX → j ≤ U32_MAX → PoolToken_new i g = PoolToken_new j g' → i = j ∧ g = g'.
Proof. apply OpToken_new_inj. Qed.

(** A sync in the slots of the product operations stays, is issued, or was not there. *)
Lemma issue_tokens ops0 ops ops' : Forall2 (issue ops0) ops ops' → omap slot_token ops' = omap slot_token ops.
Proof.
  induction 1 as [|x y ops ops' Hs _ IH]; [done|]. rewrite !omap_cons_list, IH. f_equal.
  destruct Hs as [->|(t & file & o & m & dt & Hs & _ & ->)]; [done|]. unfold slot_token. by rewrite Hs.
Qed.

Lemma prior_write_spec ops file barrier :
  prior_write ops file barrier = true ↔ ∃ x t dt o, x ∈ ops ∧ po_operation x = Some (OpWrite t dt file o) ∧ o < barrier.
Proof.
  unfold prior_write. rewrite existsb_exists. setoid_rewrite <- list_elem_of_In. split.
  - intros (x & Hx & Ho). destruct (po_operation x) as [[t dt f o| | |]|] eqn:E; try done.
    apply andb_true_iff in Ho as [Hf%bool_decide_eq_true Ho%N.ltb_lt]. subst f. exists x, t, dt, o. done.
  - intros (x & t & dt & o & Hx & Ho & Hlt). exists x. rewrite Ho, bool_decide_eq_true_2 by done. split; [done|]. by apply N.ltb_lt.
Qed.

Lemma acceptance_write x a : acceptance_of x = Some a → ac_write a = true →
  ∃ dt, po_operation x = Some (OpWrite (ac_token a) dt (ac_file a) (ac_order a)).
Proof. unfold acceptance_of. destruct (po_operation x) as [[]|]; intros [= <-]; simpl; [eauto|done]. Qed.

Lemma issue_acceptance ops0 x y a : issue ops0 x y → acceptance_of y = Some a → acceptance_of x = Some a.
Proof. intros [->|(t & file & o & m & dt & Hs & _ & ->)]; [done|]. unfold acceptance_of. by rewrite Hs. Qed.

Lemma issue_generation ops0 ops ops' i x :
  Forall2 (issue ops0) ops ops' → ops !! i = Some x → ∃ y, ops' !! i = Some y ∧ po_generation y = po_generation x.
Proof.
  intros Hf Hi. destruct (Forall2_lookup_l _ _ _ _ _ Hf Hi) as (y & Hy & Hxy). exists y. split; [done|].
  by destruct Hxy as [->|(t & file & o & m & dt & Hs & _ & ->)].
Qed.

(** A pass over the held syncs: what is issued has no earlier write left. *)
Lemma history_issue ops ops' sequence acc fin del :
  history ops sequence acc fin del → Forall2 (issue ops) ops ops' → history ops' sequence acc fin del.
Proof.
  intros [H1 H2 H3 H4 H5 H6 H7 H8] Hf.
  assert (∀ a, pending ops a → pending ops' a ∨ (ac_write a = false ∧ prior_write ops (ac_file a) (ac_order a) = false)) as Hp.
  { intros a (x & Hx & Ha). apply list_elem_of_lookup in Hx as [i Hi]. destruct (Forall2_lookup_l _ _ _ _ _ Hf Hi) as (y & Hy & Hxy).
    destruct Hxy as [->|(t & file & o & m & dt & Hs & Hprior & ->)].
    - left. exists x. split; [by eapply list_elem_of_lookup_2|done].
    - right. unfold acceptance_of in Ha. rewrite Hs in Ha. by simplify_eq/=. }
  constructor; try done.
  - by rewrite (issue_tokens _ _ _ Hf).
  - intros a Ha. destruct (H3 a Ha) as (i & g & x & Hi & Ht & Hg). destruct (issue_generation _ _ _ _ _ Hf Hi) as (y & Hy & Hgy).
    exists i, g, y. by rewrite Hgy.
  - intros y a Hy Ha. apply list_elem_of_lookup in Hy as [i Hi]. destruct (Forall2_lookup_r _ _ _ _ _ Hf Hi) as (x & Hx & Hxy).
    eapply H6; [by eapply list_elem_of_lookup_2|by eapply issue_acceptance].
  - intros a Ha Hw. destruct (H7 a Ha Hw) as [[H|[? _]]%Hp|]; [by left|congruence|by right].
  - intros a w Ha Hwa Hw Hww Hfile Hlt. destruct (H8 a w) as [[H|[_ Hprior]]%Hp|]; try done; [by left| |by right]. right.
    destruct (H7 w Hw Hww) as [(x & Hx & Hax)|]; [exfalso|done]. destruct (acceptance_write _ _ Hax Hww) as [dt Hop].
    assert (prior_write ops (ac_file a) (ac_order a) = true); [|congruence]. apply prior_write_spec.
    exists x, (ac_token w), dt, (ac_order w). by rewrite <- Hfile.
Qed.

(** An operation is accepted into a vacant slot. *)
Lemma history_accept ops sequence acc fin del i x op a :
  history ops sequence acc fin del → vlen ops ≤ U32_MAX → ops !! N.to_nat i = Some x → po_operation x = None →
  let y := mkOpSlot (po_generation x + 1) (Some op) in
  a = mkAcceptance (PoolToken_new i (po_generation x + 1)) (op_file op) (sequence + 1) (ac_write a) →
  acceptance_of y = Some a →
  history (<[N.to_nat i := y]> ops) (sequence + 1) (acc ++ [a]) fin del.
Proof.
  intros [H1 H2 H3 H4 H5 H6 H7 H8] Hmax Hi Hx y Ha Hy.
  assert (pending (<[N.to_nat i := y]> ops) a) as Hpa.
  { exists y. split; [|done]. eapply list_elem_of_lookup_2, list_lookup_insert_eq, lookup_lt_is_Some_1. eauto. }
  assert (∀ a', pending ops a' → pending (<[N.to_nat i := y]> ops) a') as Hp.
  { intros a' (z & Hz & Hza). apply list_elem_of_lookup in Hz as [j Hj]. exists z. split; [|done].
    apply (list_elem_of_lookup_2 _ j). rewrite list_lookup_insert_ne; [done|]. intros <-. simplify_eq. unfold acceptance_of in Hza. by rewrite Hx in Hza. }
  assert (ac_token a ∉ ac_token <$> acc) as Hfresh.
  { intros (a' & Ht & Hin)%list_elem_of_fmap. destruct (H3 a' Hin) as (j & g & z & Hj & Htok & Hg). rewrite Ha, Htok in Ht. simpl in Ht.
    pose proof (vget_lt _ _ _ Hi). pose proof (vget_lt _ _ _ Hj). apply PoolToken_inj in Ht as [<- <-]; [|lia..]. simplify_eq. lia. }
  assert (slot_token y = Some (ac_token a)) as Hst.
  { unfold acceptance_of in Hy. unfold slot_token. simpl in *. destruct op; by simplify_eq/=. }
  constructor.
  - pose proof (omap_insert_perm slot_token ops (N.to_nat i) x y Hi) as Hperm. rewrite Hst in Hperm. unfold slot_token in Hperm at 1. rewrite Hx in Hperm. simpl in Hperm.
    rewrite fmap_app, Hperm, H1. simpl. by rewrite (Permutation_app_comm _ [_]).
  - rewrite fmap_app. apply NoDup_app. split_and!; [done| |apply NoDup_singleton].
    intros t Ht [= ->]%list_elem_of_singleton. done.
  - intros a' [Ha'|Ha'%list_elem_of_singleton]%elem_of_app.
    + destruct (H3 a' Ha') as (j & g & z & Hj & Htok & Hg). destruct (decide (i = j)) as [<-|Hne].
      * simplify_eq. exists i, g, y. rewrite list_lookup_insert_eq by (eapply lookup_lt_is_Some_1; eauto). split_and!; simpl; [done..|lia].
      * exists j, g, z. rewrite list_lookup_insert_ne by lia. done.
    + subst a'. exists i, (po_generation x + 1), y. rewrite list_lookup_insert_eq by (eapply lookup_lt_is_Some_1; eauto). by rewrite Ha.
  - rewrite fmap_app. simpl. apply StronglySorted_app. split_and!; [|done|by repeat constructor].
    intros o o' (a' & -> & Ha')%list_elem_of_fmap ->%list_elem_of_singleton. rewrite Ha. simpl. specialize (H5 a' Ha'). lia.
  - intros a' [Ha'|Ha'%list_elem_of_singleton]%elem_of_app; [specialize (H5 a' Ha'); lia|]. subst a'. by rewrite Ha.
  - intros z a' Hz Hza. apply list_elem_of_lookup in Hz as [j Hj]. apply elem_of_app.
    apply list_lookup_insert_Some in Hj as [(_ & <- & _)|[_ Hj]]; [right; apply list_elem_of_singleton; congruence|left].
    eapply H6; [by eapply list_elem_of_lookup_2|done].
  - intros a' [Ha'| ->%list_elem_of_singleton]%elem_of_app Hw; [|by left]. destruct (H7 a' Ha' Hw); [left; by apply Hp|by right].
  - intros a' w [Ha'| ->%list_elem_of_singleton]%elem_of_app Hwa [Hw| ->%list_elem_of_singleton]%elem_of_app Hww Hfile Hlt; try by left.
    + destruct (H8 a' w) as [H|]; try done; [left; by apply Hp|by right].
    + exfalso. specialize (H5 a' Ha'). rewrite Ha in Hlt. simpl in Hlt. lia.
Qed.

(** The driver finishes an operation. *)
Lemma history_finish ops sequence acc fin del i x y t :
  history ops sequence acc fin del → ops !! N.to_nat i = Some x → completes x y t →
  history (<[N.to_nat i := y]> ops) sequence acc (t :: fin) del.
Proof.
  intros [H1 H2 H3 H4 H5 H6 H7 H8] Hi [Hg Hc].
  assert (acceptance_of y = None ∧ slot_token y = slot_token x) as [Hay Hst].
  { unfold acceptance_of, slot_token. destruct Hc as [(dt & file & o & r & -> & ->)|(dt & file & r & -> & ->)]; done. }
  assert (∀ a, acceptance_of x = Some a → ac_write a = true ∧ ac_token a = t) as Hax.
  { intros a. unfold acceptance_of. destruct Hc as [(dt & file & o & r & -> & _)|(dt & file & r & -> & _)]; [|done]. by intros [= <-]. }
  assert (∀ a, pending ops a → pending (<[N.to_nat i := y]> ops) a ∨ (ac_write a = true ∧ ac_token a = t)) as Hp.
  { intros a (z & Hz & Hza). apply list_elem_of_lookup in Hz as [j Hj]. destruct (decide (N.to_nat i = j)) as [<-|Hne].
    - simplify_eq. right. by apply Hax.
    - left. exists z. split; [|done]. apply (list_elem_of_lookup_2 _ j). by rewrite list_lookup_insert_ne. }
  constructor; try done.
  - rewrite H1. f_equiv. symmetry. by eapply omap_insert_same.
  - intros a Ha. destruct (H3 a Ha) as (j & g & z & Hj & Htok & Hgz). destruct (decide (i = j)) as [<-|Hne].
    + simplify_eq. exists i, g, y. rewrite list_lookup_insert_eq by (eapply lookup_lt_is_Some_1; eauto). by rewrite Hg.
    + exists j, g, z. by rewrite list_lookup_insert_ne by lia.
  - intros z a Hz Hza. apply list_elem_of_lookup in Hz as [j Hj].
    apply list_lookup_insert_Some in Hj as [(_ & <- & _)|[_ Hj]]; [congruence|]. eapply H6; [by eapply list_elem_of_lookup_2|done].
  - intros a Ha Hw. destruct (H7 a Ha Hw) as [[H|[_ ->]]%Hp|H]; [by left|right; set_solver..].
  - intros a w Ha Hwa Hw Hww Hfile Hlt. destruct (H8 a w) as [[H|[? _]]%Hp|H]; try done; [by left|congruence|right; set_solver].
Qed.

(** Results are delivered. *)
Lemma history_deliver ops ops' sequence acc fin del cs :
  history ops sequence acc fin del → Forall2 taken ops ops' →
  omap slot_token ops ≡ₚ (completion_token <$> cs) ++ omap slot_token ops' →
  history ops' sequence acc fin (del ++ cs).
Proof.
  intros [H1 H2 H3 H4 H5 H6 H7 H8] Hf Hperm.
  assert (∀ x y, taken x y → acceptance_of y = acceptance_of x) as Ht.
  { intros x y [->|(file & c & Hx & ->)]; [done|]. unfold acceptance_of. by rewrite Hx. }
  assert (∀ a, pending ops' a ↔ pending ops a) as Hp.
  { intros a. split; intros (x & Hx & Ha); apply list_elem_of_lookup in Hx as [i Hi].
    - destruct (Forall2_lookup_r _ _ _ _ _ Hf Hi) as (z & Hz & Hzx). exists z. split; [by eapply list_elem_of_lookup_2|]. by rewrite <- (Ht _ _ Hzx).
    - destruct (Forall2_lookup_l _ _ _ _ _ Hf Hi) as (z & Hz & Hzx). exists z. split; [by eapply list_elem_of_lookup_2|]. by rewrite (Ht _ _ Hzx). }
  constructor; try done.
  - rewrite H1, Hperm, fmap_app. by rewrite (Permutation_app_comm (completion_token <$> cs)), <- app_assoc, (Permutation_app_comm (completion_token <$> del)).
  - intros a Ha. destruct (H3 a Ha) as (i & g & x & Hi & Htok & Hg). destruct (Forall2_lookup_l _ _ _ _ _ Hf Hi) as (y & Hy & Hxy).
    exists i, g, y. split_and!; try done. by destruct Hxy as [->|(file & c & _ & ->)].
  - intros x a Hx Ha. destruct (proj1 (Hp a)) as (z & Hz & Hza); [by exists x|]. by eapply H6.
  - intros a Ha Hw. rewrite Hp. by apply H7.
  - intros a w. rewrite Hp. by apply H8.
Qed.

(** ** The invariant of the system *)

Record sinv s : Prop := {
  si_prod : pinv (identity := identity) (frame_bytes := frame_bytes) (file_capacity := file_capacity) (prod s) (opening s) (batch s) (leases s);
  si_acquiring : ∀ file n, acquiring s = Some (file, n) →
    own_file (identity := identity) (file_capacity := file_capacity) file ∧ registered (files (prod s)) file ∧ n < U32_MAX ∧
    N.of_nat (length (filter (λ f, fid_slot f = fid_slot file) (leases s))) ≤ n;
  si_history : history (product_ops (prod s)) (product_sequence (prod s)) (accepted s) (finished s) (delivered s);
}.

(** The files and product operations of a new pool. *)
Lemma initial_pinv n b :
  n ≤ U32_MAX → PoolBackend.sound b → live b = ∅ → flights b = ∅ →
  pinv (identity := identity) (frame_bytes := frame_bytes) (file_capacity := file_capacity)
    (mkProduct (replicate (N.to_nat file_capacity) None) (replicate (N.to_nat file_capacity) 0)
      (replicate (N.to_nat file_capacity) (mkLeaseState 0 0)) (replicate (N.to_nat n) (mkOpSlot 0 None)) 0 b) [] [] [].
Proof.
  intros Hn Hb Hl Hf. constructor; simpl; [done| | |].
  - constructor; unfold vlen; rewrite ?length_replicate; try lia; try (intros; rewrite ?Hl in *; set_solver).
    + intros i e [? ?]%lookup_replicate. done.
    + constructor.
    + intros i o [-> Hlt]%lookup_replicate. by apply lookup_replicate.
  - constructor; [by unfold vlen; rewrite length_replicate; lia| |set_solver]. intros i x [-> _]%lookup_replicate. done.
  - constructor; try (intros; set_solver).
    + intros i x [-> _]%lookup_replicate. done.
    + replace (omap driver_op (replicate (N.to_nat n) (mkOpSlot 0 None))) with (@nil (OpToken * (OpKind * FileId))); [constructor|].
      by induction (N.to_nat n).
    + intros t k file fl. rewrite Hf, lookup_empty. done.
    + constructor.
    + unfold vlen. rewrite length_replicate. lia.
Qed.

Lemma product_initial_inv s : initial s → sinv s.
Proof.
  intros (n & b & Hn & Hb & Hl & Hf & ->). constructor; simpl; [by apply initial_pinv|done|].
  assert (∀ x, x ∈ replicate (N.to_nat n) (mkOpSlot 0 None) → po_operation x = None) as Hx by (intros x [-> _]%elem_of_replicate; done).
  constructor; try (intros; set_solver); simpl.
  - clear. induction (N.to_nat n) as [|m IH]; [done|exact IH].
  - constructor.
  - constructor.
  - intros x a Hin%Hx Ha. unfold acceptance_of in Ha. by rewrite Hin in Ha.
Qed.

Lemma sinv_same s p op :
  sinv s → acquiring s = None → product_ops p = product_ops (prod s) → product_sequence p = product_sequence (prod s) →
  pinv (identity := identity) (frame_bytes := frame_bytes) (file_capacity := file_capacity) p op (batch s) (leases s) →
  sinv (with_opening (with_prod s p) op).
Proof. intros [H1 H2 H3] Ha Hop Hseq Hp. constructor; simpl; [done|rewrite Ha; done|]. by rewrite Hop, Hseq. Qed.

Lemma with_prod_opening s p : with_prod s p = with_opening (with_prod s p) (opening s).
Proof. done. Qed.

(** The token of an operation the driver finishes. *)
Lemma finishing_completes p i x y t :
  NoDup (omap driver_op (product_ops p)).*1 → product_ops p !! N.to_nat i = Some x → completes x y t →
  ∀ dt z, driver_op x = Some (dt, z) → finishing p dt = [t].
Proof.
  intros Hd Hi [_ Hc] dt z Hx. destruct (find_driver_op (product_ops p) dt z Hd) as (j & x' & Hf & Hj & Hx'); [apply elem_driver_op; eauto|].
  unfold finishing. rewrite Hf. assert (i = j) as <- by (by eapply (driver_op_slot (product_ops p))). rewrite Hi. simpl. unfold slot_token.
  destruct Hc as [(? & ? & ? & ? & -> & _)|(? & ? & ? & -> & _)]; done.
Qed.

Lemma route_inv s c rest :
  sinv s → batch s = rest ++ [c] → c_kind c ≠ Read → acquiring s = None →
  ∃ q, finish_product_completion (prod s) (c_token c) (c_kind c) (c_result c) = Done q ∧
    sinv (with_finished (with_prod (with_batch s rest) q) (finishing (prod s) (c_token c))).
Proof.
  intros [H1 H2 H3] Hb Hk Ha.
  destruct (finish_product_ok (prod s) (opening s) (batch s) (leases s) c rest) as (q & i & x & y & t & -> & Hq & Hi & (z & Hz) & Hc & Hops & Hfs & Hseq); [done| |done|].
  { rewrite Hb. by rewrite Permutation_app_comm. }
  exists q. split; [done|].
  rewrite (finishing_completes _ _ _ _ _ (oi_distinct _ _ _ _ _ (pi_ops _ _ _ _ H1)) Hi Hc _ _ Hz).
  constructor; simpl; [done|by rewrite Ha|]. rewrite Hops, Hseq. by eapply history_finish.
Qed.

Lemma route_step s : sinv s → acquiring s = None → ∃ s', exec Route s = Done s' ∧ sinv s'.
Proof.
  intros Hs Ha. unfold exec. destruct (reverse (batch s)) as [|c rest] eqn:Hr; [eauto|].
  assert (batch s = reverse rest ++ [c]) as Hb by (rewrite <- (reverse_involutive (batch s)), Hr, reverse_cons; done).
  case_bool_decide as Hk.
  - eexists. split; [done|]. destruct Hs as [H1 H2 H3]. constructor; simpl; [|by rewrite Ha|done].
    by eapply route_read_ok.
  - destruct (route_inv s c (reverse rest)) as (q & -> & Hq); try done. mred. eauto.
Qed.

Lemma submit_write_step s file slot offset :
  sinv s → enabled (SubmitWrite file slot offset) s → ∃ s', exec (SubmitWrite file slot offset) s = Done s' ∧ sinv s'.
Proof.
  intros Hs [Ha (Hown & Hroom & Hlen & Hal)]. pose proof Hs as [H1 H2 H3]. unfold exec.
  destruct (submit_write_ok (prod s) (opening s) (batch s) (leases s) file slot offset) as (q & r & -> & Hq & Hfs & _ & Hr); try done. mred.
  eexists. split; [done|]. destruct r as [t|[e sl]].
  - destruct Hr as (_ & _ & i & dt & x & Hi & Hx & Ht & Hseq & Hops). constructor; simpl; [done|by rewrite Ha|].
    rewrite Hops, Hseq. subst t. eapply history_accept; try done. apply (oi_max _ _ _ _ _ (pi_ops _ _ _ _ H1)).
  - destruct Hr as (_ & Hops & Hseq & _). rewrite with_prod_opening. by apply sinv_same.
Qed.

Lemma submit_fsync_step s file mode :
  sinv s → enabled (SubmitFsync file mode) s → ∃ s', exec (SubmitFsync file mode) s = Done s' ∧ sinv s'.
Proof.
  intros Hs [Ha (Hown & Hroom)]. pose proof Hs as [H1 H2 H3]. unfold exec.
  destruct (submit_fsync_ok (prod s) (opening s) (batch s) (leases s) file mode) as (q & r & -> & Hq & Hfs & _ & Hr); try done. mred.
  eexists. split; [done|]. destruct r as [t|e].
  - destruct Hr as (_ & Hseq & i & p1 & (x & Hi & Hx & Ht & Hseq1 & Hops1) & Hrel). constructor; simpl; [done|by rewrite Ha|].
    eapply history_issue; [|done]. rewrite Hops1, Hseq. subst t.
    eapply history_accept; try done. apply (oi_max _ _ _ _ _ (pi_ops _ _ _ _ H1)).
  - destruct Hr as (-> & _). by destruct s.
Qed.

Lemma exec_inv c s : sinv s → enabled c s → ∃ s', exec c s = Done s' ∧ sinv s'.
Proof.
  intros Hs Hen. pose proof Hs as [H1 H2 H3]. destruct c as [|h|file|reads_live|file slot offset|file mode| | | |room|file| |file|b];
    try (destruct Hen as [Ha He]).
  - simpl. destruct (open_file_ok (prod s) (opening s) (batch s) (leases s)) as (b & o & -> & Hb); [done|]. mred.
    eexists. split; [done|]. by apply sinv_same.
  - simpl. destruct (register_ok (prod s) (opening s) (take_one h (opening s)) (batch s) (leases s) h) as (q & -> & Hq & Hops & Hseq & _); [done|by apply take_one_perm|].
    mred. eexists. split; [done|]. by apply sinv_same.
  - simpl. destruct (retire_begin_ok (prod s) (opening s) (batch s) (leases s) file) as (q & r & -> & Hq & Hops & Hseq & _); [done..|].
    mred. eexists. split; [done|]. rewrite with_prod_opening. by apply sinv_same.
  - simpl. destruct (progress_ok reads_live (prod s) (opening s) (batch s) (leases s)) as (q & -> & Hq & Hops & Hseq & _); [done..|].
    mred. eexists. split; [done|]. rewrite with_prod_opening. by apply sinv_same.
  - by apply submit_write_step.
  - by apply submit_fsync_step.
  - simpl. destruct (poll_ok (prod s) (opening s) (batch s) (leases s)) as (b & cs & -> & Hb); [done|]. mred.
    eexists. split; [done|]. constructor; simpl; [done|by rewrite Ha|done].
  - by apply route_step.
  - simpl. destruct (submit_held_ok (prod s) (opening s) (batch s) (leases s)) as (q & -> & Hq & Hrel & Hfs & Hseq & _); [done|]. mred.
    eexists. split; [done|]. constructor; simpl; [done|by rewrite Ha|]. rewrite Hseq. by eapply history_issue.
  - simpl. destruct (deliver_ok (prod s) (opening s) (batch s) (leases s) (mkBatch [] room)) as (q & cs & -> & Hq & Hrel & _ & Hfs & Hseq & Hperm & _); [done|unfold vlen; simpl; lia|]. mred.
    eexists. split; [done|]. constructor; simpl; [done|by rewrite Ha|]. rewrite Hseq. by eapply history_deliver.
  - simpl. destruct (lease_begin_ok (prod s) (opening s) (batch s) (leases s) file) as (r & -> & Hr); [done..|]. mred.
    eexists. split; [done|]. destruct r as [n|e]; [|done]. destruct (Hr n eq_refl) as ([h Hh] & Hn & Hc).
    constructor; simpl; [done| |done]. intros f m [= <- <-]. split_and!; try done; [|lia].
    by apply (proj2 (live_file_handle_ok (prod s) (opening s) (batch s) (leases s) file H1 (proj1 He) (proj2 He)) h Hh).
  - simpl. destruct (acquiring s) as [[file n]|] eqn:Hacq; [|eauto]. destruct (H2 file n eq_refl) as (Hown & Hreg & Hn & Hc).
    destruct (lease_finish_ok (prod s) (opening s) (batch s) (leases s) file n) as (q & -> & Hq & Hops & Hseq & _); try done. mred.
    eexists. split; [done|]. constructor; simpl; [done|done|]. by rewrite Hops, Hseq.
  - simpl. pose proof (take_one_perm file (leases s) Ha) as Hperm.
    destruct (lease_drop_ok (prod s) (opening s) (batch s) (leases s) (take_one file (leases s)) file) as (q & -> & Hq & Hops & Hseq & _ & Hfs); [done..|]. mred.
    eexists. split; [done|]. constructor; simpl; [done| |by rewrite Hops, Hseq]. intros f n Hacq.
    destruct (H2 f n Hacq) as (Hown & Hreg & Hn & Hc). split_and!; try done; [by rewrite Hfs|].
    rewrite Hperm in Hc. rewrite filter_cons in Hc. destruct (decide _); simpl in Hc; lia.
  - simpl. eexists. split; [done|]. destruct He as (Hsb & Hl & Hag). rewrite with_prod_opening. apply sinv_same; try done. by apply reads_ok.
Qed.

Lemma product_reachable_inv s : reachable s → sinv s.
Proof.
  intros (s0 & Hi & Hr). apply product_initial_inv in Hi. induction Hr as [|s1 s2 s3 (c & He & Hx) _ IH]; [done|]. apply IH.
  destruct (exec_inv c s1 Hi He) as (s' & Hs' & Hinv). rewrite Hx in Hs'. by simplify_eq.
Qed.

(** ** The theorems *)

(** (Files, leases and product operations never panic).  In every reachable state, every
    call that keeps to the contract of the pool (files of this pool, offsets that suit the
    file's mode, leases that exist, sequence numbers and slot generations not exhausted)
    returns: no assertion fails, no index is out of range, no held sync finds its file
    closed, and every completion of a write or sync finds its operation. *)
Theorem product_never_panics s c : reachable s → enabled c s → ∃ s', exec c s = Done s' ∧ reachable s'.
Proof.
  intros Hr He. destruct (exec_inv c s (product_reachable_inv s Hr) He) as (s' & Hx & _). exists s'. split; [done|].
  destruct Hr as (s0 & Hi & Hr). exists s0. split; [done|]. eapply rtc_r; [done|]. by exists c.
Qed.

(** C21 (A sync is a write barrier).  A sync accepted after a write on the same file is not
    handed to the driver before that write has finished: as long as the write is
    unfinished, the sync is held in a slot of the product operations. *)
Theorem fsync_is_a_barrier s l1 w l2 y l3 :
  reachable s → accepted s = l1 ++ w :: l2 ++ y :: l3 → ac_write w = true → ac_write y = false → ac_file w = ac_file y →
  ac_token w ∉ finished s →
  ∃ x m, x ∈ product_ops (prod s) ∧ po_operation x = Some (OpFsyncHeld (ac_token y) (ac_file y) (ac_order y) m).
Proof.
  intros Hr%product_reachable_inv Hacc Hw Hy Hfile Hn. destruct (si_history s Hr) as [_ _ _ Hsorted _ _ _ Hbar].
  assert (ac_order w < ac_order y) as Hlt.
  { rewrite Hacc, fmap_app, fmap_cons, fmap_app, fmap_cons in Hsorted. apply StronglySorted_app in Hsorted as (_ & _ & Hs).
    apply StronglySorted_cons in Hs as [Hs _]. eapply Forall_forall; [done|]. set_solver. }
  destruct (Hbar y w) as [(x & Hx & Ha)|]; try done; [rewrite Hacc; set_solver..|].
  unfold acceptance_of in Ha. destruct (po_operation x) as [[]|] eqn:Hop; simplify_eq/=. by eauto.
Qed.

(** C22 (Every accepted operation is delivered exactly once).  No two accepted operations
    share a token, no result is delivered twice or for an operation that was never
    accepted, and an accepted operation whose result has not been delivered occupies
    exactly one slot. *)
Theorem product_results_delivered_once s :
  reachable s →
  NoDup (ac_token <$> accepted s) ∧ NoDup (completion_token <$> delivered s) ∧
  ac_token <$> accepted s ≡ₚ omap slot_token (product_ops (prod s)) ++ (completion_token <$> delivered s).
Proof.
  intros Hr%product_reachable_inv. destruct (si_history s Hr) as [H1 H2 _ _ _ _ _ _]. split_and!; try done.
  rewrite H1 in H2. by apply NoDup_app in H2 as (_ & _ & ?).
Qed.

Lemma live_word_inj f f' : file_live_word f = file_live_word f' → fid_generation f = fid_generation f'.
Proof.
  unfold file_live_word. intros H. apply (f_equal (λ x, N.shiftr x 1)) in H.
  rewrite !N.shiftr_lor, !N.shiftr_shiftl_l in H by lia. simpl in H. by rewrite !N.lor_0_r, !N.shiftl_0_r in H.
Qed.

Lemma live_word_nonzero f : file_live_word f ≠ 0.
Proof. unfold file_live_word. intros [_ ?]%N.lor_eq_0_iff. done. Qed.

Lemma live_word_agrees q opening batch leases file :
  pinv (identity := identity) (file_capacity := file_capacity) q opening batch leases → own_file (identity := identity) (file_capacity := file_capacity) file →
  ∃ word, file_live_generations q !! N.to_nat (fid_slot file) = Some word ∧
    (file_generation_is_live word file = true ↔ is_Some (live_handle q file)).
Proof.
  intros Hr [Hd Hs]. pose proof (pi_files _ _ _ _ Hr) as Hf. rewrite <- (fi_len _ _ _ _ Hf) in Hs.
  destruct (vget_ok _ _ Hs) as (o & _ & Ho). exists (live_word o). split; [by apply (fi_word _ _ _ _ Hf)|].
  unfold file_generation_is_live, live_handle. rewrite Ho, N.eqb_eq. destruct o as [e|]; simpl.
  2: { split; [|by intros [? ?]]. intros H. by destruct (live_word_nonzero file). }
  destruct (fi_file _ _ _ _ Hf _ _ Ho) as (Hes & Hed & _ & Hh).
  destruct (decide (pf_state e = Live)) as [Hl|Hl].
  - rewrite Hl, (bool_decide_eq_true_2 (Live = Live)), andb_true_r by done. split.
    + intros Heq%live_word_inj. rewrite bool_decide_eq_true_2; [destruct (pf_handle e); [eauto|congruence]|].
      destruct (pf_id e), file. simpl in *. congruence.
    + case_bool_decide as He; [by rewrite He|by intros [? ?]].
  - rewrite (bool_decide_eq_false_2 _ Hl), andb_false_r. split; [|by intros [? ?]].
    destruct (pf_state e); [done|intros H; by destruct (live_word_nonzero file)..].
Qed.

(** The published live word decides liveness.  For a file of this pool, the lock-free
    check of the published word of its slot answers exactly whether the registry, behind
    the control lock, holds the file as live. *)
Theorem live_word_matches_registry s file :
  reachable s → own_file (identity := identity) (file_capacity := file_capacity) file →
  ∃ word, file_live_generations (prod s) !! N.to_nat (fid_slot file) = Some word ∧
    (file_generation_is_live word file = true ↔ is_Some (live_handle (prod s) file)).
Proof. intros Hr%product_reachable_inv Hown. by eapply live_word_agrees; [apply (si_prod s Hr)|]. Qed.

(** C23 (A leased file stays open).  A file with a live lease is open in the driver and
    registered, whatever retirement was asked for. *)
Theorem leased_file_stays_open s file :
  reachable s → file ∈ leases s → registered (files (prod s)) file ∧ file ∈ live (driver (prod s)).
Proof.
  intros Hr%product_reachable_inv Hl. pose proof (si_prod s Hr) as Hp. pose proof (li_leased _ _ _ (pi_leases _ _ _ _ Hp) file Hl) as Hreg.
  split; [done|]. destruct (registered_file_ok _ _ _ _ _ (pi_files _ _ _ _ Hp) Hreg) as (h & _ & <- & Hok). apply Hok.
Qed.
End system.
End ProductSafety.

(** ** Witnesses, on the backend with one operation slot *)
Module ProductSafetyWitness.
Import Execute Driver PoolBackend.PoolBackend PoolBackend.OneSlot Product.Product ProductSafety.

#[local] Abbreviation reachable := (ProductSafety.reachable (frame_count := 4)).
#[local] Abbreviation enabled := (ProductSafety.enabled (frame_count := 4)).

Definition start : sys one_slot :=
  mkSys (mkProduct [None] [0] [mkLeaseState 0 0] [mkOpSlot 0 None; mkOpSlot 0 None] 0 one_slot_new) [] [] [] None [] [] [].

Definition after (c : call one_slot) (s : sys one_slot) : sys one_slot :=
  match exec (identity := 7) c s with Done s' => s' | Panic => s end.

Definition file : FileId := mkFileId 7 0 0.
Definition slot : PoolWriteSlot := mkPoolWriteSlot (mkWriteSlot 0 16) 7.
Definition write : call one_slot := SubmitWrite file slot 0.
Definition sync : call one_slot := SubmitFsync file SyncFull.

Definition opened : sys one_slot := after (Register (mkHandle file Buffered)) (after OpenFile start).
Definition leased : sys one_slot := after LeaseFinish (after (LeaseBegin file) opened).
Definition retiring : sys one_slot := after (Retire file) leased.
Definition written : sys one_slot := after write opened.
Definition synced : sys one_slot := after sync written.
Definition issued : sys one_slot := after HeldPass (after Route (after Poll synced)).

Lemma after_reachable c s :
  reachable s → enabled c s → exec (identity := 7) c s = Done (after c s) → reachable (after c s).
Proof.
  intros (s0 & Hi & Hr) He Hx. exists s0. split; [done|]. eapply rtc_r; [done|]. by exists c.
Qed.

Lemma start_reachable : reachable start.
Proof.
  exists start. split; [|done]. exists 2, one_slot_new. split_and!; [done| |done..].
  by constructor.
Qed.

Lemma file_own : own_file (identity := 7) (file_capacity := 1) file.
Proof. done. Qed.

Lemma file_opened : reachable opened.
Proof.
  apply after_reachable; [apply after_reachable; [apply start_reachable|done|done]| |done].
  split; [done|]. vm_compute. left.
Qed.

Lemma opened_roomy (s : sys one_slot) : product_sequence (prod s) = 0 ∨ product_sequence (prod s) = 1 →
  Forall (λ x, po_generation x < U32_MAX) (product_ops (prod s)) → roomy (prod s).
Proof.
  intros Hq Hg. split; [unfold U64_MAX; lia|]. intros i x Hi. eapply Forall_lookup_1 in Hg; [|done]. done.
Qed.

Lemma write_enabled : enabled write opened.
Proof.
  split; [done|]. split_and!; [apply file_own| |done|].
  - apply opened_roomy; [by left|repeat constructor].
  - intros h Hh. vm_compute in Hh. simplify_eq. done.
Qed.

Lemma synced_reachable : reachable synced.
Proof.
  apply after_reachable; [apply after_reachable; [apply file_opened|apply write_enabled|done]| |done].
  split; [done|]. split; [apply file_own|]. apply opened_roomy; [by right|repeat constructor].
Qed.

Lemma leased_reachable : reachable retiring.
Proof.
  apply after_reachable; [|split; [done|apply file_own]|done].
  apply after_reachable; [|done|done]. apply after_reachable; [apply file_opened|split; [done|apply file_own]|done].
Qed.

Lemma product_never_panics_witness : ∃ s', exec (identity := 7) write opened = Done s' ∧ reachable s'.
Proof. apply (product_never_panics opened write file_opened write_enabled). Defined.

(** The write is in flight, so the sync waits; once the write has finished it is issued. *)
Lemma fsync_is_a_barrier_witness :
  finished synced = [] ∧
  (∃ x m, x ∈ product_ops (prod synced) ∧ po_operation x = Some (OpFsyncHeld (PoolToken_new 1 1) file 2 m)) ∧
  (po_operation <$> product_ops (prod issued)) =
    [Some (OpCompleted file (WriteCompletion (PoolToken_new 0 1) (inl 0)));
     Some (OpFsync (PoolToken_new 1 1) (OpToken_new 0 1) file)].
Proof.
  split; [done|split; [|done]].
  apply (fsync_is_a_barrier (frame_count := 4) synced [] (mkAcceptance (PoolToken_new 0 1) file 1 true) []
    (mkAcceptance (PoolToken_new 1 1) file 2 false) []); [apply synced_reachable|done..|]. vm_compute. by intros ?%elem_of_nil.
Defined.

Lemma product_results_delivered_once_witness :
  ac_token <$> accepted synced ≡ₚ omap slot_token (product_ops (prod synced)) ++ [].
Proof. apply (product_results_delivered_once synced synced_reachable). Defined.

Lemma live_word_matches_registry_witness :
  ∃ word, file_live_generations (prod opened) !! 0%nat = Some word ∧
    (file_generation_is_live word file = true ↔ is_Some (live_handle (prod opened) file)).
Proof. apply (live_word_matches_registry opened file file_opened file_own). Defined.

Lemma leased_file_stays_open_witness :
  registered (files (prod retiring)) file ∧ file ∈ live (frame_count := 4) (driver (prod retiring)).
Proof. apply (leased_file_stays_open retiring file leased_reachable). vm_compute. left. Defined.
End ProductSafetyWitness.
