(* ===== verification/DriverSystem.v ===== *)
(** * The driver as a system of critical sections

    Every thread that uses the driver of [Driver] runs a sequence of its critical
    sections; [exec] is one of them, and [step] lets them follow each other in any
    order for any number of files, operations, pollers and leases.  Beside the driver's
    own state a [system] keeps what the threads hold: operations handed to a backend,
    continuation leases with their vectors, file handles, staging slots; and a history
    of the tokens issued, finally completed and abandoned.  [enabled] is what the types
    of the source and the backend guarantee of a call. *)
From stdpp Require Import prelude list relations.
From Stdlib Require Import NArith ZArith Lia.
From S2P Require Import Prelude Ids Frames Alignment WriteArena FileTable Execute ReadVector Slab Driver.

Open Scope N_scope.

Module DriverSystem.
Import CompletionSlab Execute Driver.

Record system := mkSystem {
  shared : Shared;
  storage : ReadVector.VectorStorage;
  staging : WriteArena.ArenaState;
  arena : Frames.Frames;
  active : list (OpToken * option ReadDestination);
  held : list (OpToken * ReadVector.ReadVector);
  reserved : list FileId;
  handles : list FileId;
  due : list FileId;
  write_leases : list N;
  issued : list OpToken;
  final : list OpToken;
  abandoned : list OpToken;
}.

Definition set_shared (x : Shared) (s : system) : system :=
  mkSystem x (storage s) (staging s) (arena s) (active s) (held s) (reserved s) (handles s) (due s) (write_leases s) (issued s) (final s) (abandoned s).
Definition set_storage (x : ReadVector.VectorStorage) (s : system) : system :=
  mkSystem (shared s) x (staging s) (arena s) (active s) (held s) (reserved s) (handles s) (due s) (write_leases s) (issued s) (final s) (abandoned s).
Definition set_staging (x : WriteArena.ArenaState) (s : system) : system :=
  mkSystem (shared s) (storage s) x (arena s) (active s) (held s) (reserved s) (handles s) (due s) (write_leases s) (issued s) (final s) (abandoned s).
Definition set_arena (x : Frames.Frames) (s : system) : system :=
  mkSystem (shared s) (storage s) (staging s) x (active s) (held s) (reserved s) (handles s) (due s) (write_leases s) (issued s) (final s) (abandoned s).
Definition set_active (x : list (OpToken * option ReadDestination)) (s : system) : system :=
  mkSystem (shared s) (storage s) (staging s) (arena s) x (held s) (reserved s) (handles s) (due s) (write_leases s) (issued s) (final s) (abandoned s).
Definition set_held (x : list (OpToken * ReadVector.ReadVector)) (s : system) : system :=
  mkSystem (shared s) (storage s) (staging s) (arena s) (active s) x (reserved s) (handles s) (due s) (write_leases s) (issued s) (final s) (abandoned s).
Definition set_reserved (x : list FileId) (s : system) : system :=
  mkSystem (shared s) (storage s) (staging s) (arena s) (active s) (held s) x (handles s) (due s) (write_leases s) (issued s) (final s) (abandoned s).
Definition set_handles (x : list FileId) (s : system) : system :=
  mkSystem (shared s) (storage s) (staging s) (arena s) (active s) (held s) (reserved s) x (due s) (write_leases s) (issued s) (final s) (abandoned s).
Definition set_due (x : list FileId) (s : system) : system :=
  mkSystem (shared s) (storage s) (staging s) (arena s) (active s) (held s) (reserved s) (handles s) x (write_leases s) (issued s) (final s) (abandoned s).
Definition set_write_leases (x : list N) (s : system) : system :=
  mkSystem (shared s) (storage s) (staging s) (arena s) (active s) (held s) (reserved s) (handles s) (due s) x (issued s) (final s) (abandoned s).
Definition set_issued (x : list OpToken) (s : system) : system :=
  mkSystem (shared s) (storage s) (staging s) (arena s) (active s) (held s) (reserved s) (handles s) (due s) (write_leases s) x (final s) (abandoned s).
Definition set_final (x : list OpToken) (s : system) : system :=
  mkSystem (shared s) (storage s) (staging s) (arena s) (active s) (held s) (reserved s) (handles s) (due s) (write_leases s) (issued s) x (abandoned s).
Definition set_abandoned (x : list OpToken) (s : system) : system :=
  mkSystem (shared s) (storage s) (staging s) (arena s) (active s) (held s) (reserved s) (handles s) (due s) (write_leases s) (issued s) (final s) x.

(** The value of key [t]. *)
Definition assoc {A} (t : OpToken) (l : list (OpToken * A)) : option A := snd <$> head (filter (λ p, p.1 = t) l).
Definition without {A} (t : OpToken) (l : list (OpToken * A)) : list (OpToken * A) := filter (λ p, p.1 ≠ t) l.
Definition replace {A} (t : OpToken) (x : A) (l : list (OpToken * A)) : list (OpToken * A) :=
  (λ p, if decide (p.1 = t) then (t, x) else p) <$> l.

Abbreviation entries := (list (N * N * OpEntry)).

(** The operations waiting for their continuation. *)
Definition continuations (K : entries) : list OpToken :=
  entry_token <$> filter (λ o, is_continuation (op_state o.2) = true) K.
Definition live_tokens (K : entries) : list OpToken := entry_token <$> K.

(** Operations that left the slab in the middle of their transfer. *)
Definition lost (before after : Shared) : list OpToken :=
  filter (λ t, t ∉ live_tokens (occupied (slab after))) (continuations (occupied (slab before))).

Inductive call :=
  | CReserve
  | CRegistered (fd : FileId)
  | CAbortFile (fd : FileId)
  | CClose (fd : FileId)
  | CRetire (fd : FileId)
  | CSubmitRead (fd : FileId) (mode : IoMode) (lease : ReadLease) (file_offset destination_offset requested_len position : N)
  | CSubmitWrite (fd : FileId) (mode : IoMode) (write_slot offset position : N)
  | CSubmitFsync (fd : FileId) (mode : IoMode) (sync : SyncMode) (position : N)
  | CSubmitVector (fd : FileId) (mode : IoMode) (v : ReadVector.ReadVector) (offset : N) (lease : FrameLease) (position : N)
  | CPrepare (memory : N → N)
  | CFill
  | CPublish (t : OpToken) (r : result)
  | CPublishBacklog (t : OpToken) (r : result)
  | CReap (t : OpToken) (raw : Z)
  | CDrain (capacity : N)
  | CTake (t : OpToken)
  | CContinue (t : OpToken)
  | CDropLease (t : OpToken)
  | CAbandon
  | CPopDeferred
  | CClaimSlot (slot : N)
  | CReleaseSlot (slot : N)
  | CArena (a : Frames.Frames).

Section assoc.
Context {A : Type}.
Implicit Types (l : list (OpToken * A)) (t : OpToken).

Lemma assoc_without_notin t l : t ∉ l.*1 → without t l = l.
Proof. intros Hn. apply filter_all. intros [u x] Hin Heq. apply Hn. by apply (list_elem_of_fmap_2' fst _ (u, x)). Qed.

Lemma without_perm t l M : NoDup l.*1 → l.*1 ≡ₚ t :: M → (without t l).*1 ≡ₚ M.
Proof.
  intros Hnd Hp. assert (t ∈ l.*1) as ([u x] & -> & Hin)%list_elem_of_fmap by (rewrite Hp; by left). simpl in *.
  apply elem_of_Permutation in Hin as [l' Hl]. rewrite Hl in Hp, Hnd. simpl in Hp, Hnd. apply NoDup_cons in Hnd as [Hn _].
  assert (without u l ≡ₚ l') as ->; [|by apply Permutation_cons_inv in Hp].
  unfold without. rewrite Hl, filter_cons_False by (simpl; tauto). change (without u l' ≡ₚ l'). by rewrite assoc_without_notin.
Qed.

Lemma assoc_without_elem t l p : p ∈ without t l ↔ p ∈ l ∧ p.1 ≠ t.
Proof. unfold without. rewrite list_elem_of_filter. tauto. Qed.

Lemma assoc_elem t x l : NoDup l.*1 → (t, x) ∈ l → assoc t l = Some x.
Proof.
  intros Hnd Hin. unfold assoc. assert (filter (λ p, p.1 = t) l ≡ₚ [(t, x)]) as Hf.
  { apply elem_of_Permutation in Hin as [l' Hl]. rewrite Hl in *. simpl in Hnd. apply NoDup_cons in Hnd as [Hn _].
    rewrite filter_cons_True by done. rewrite filter_none; [done|].
    intros [u y] Hy Heq. apply Hn. by apply (list_elem_of_fmap_2' fst _ (u, y)). }
  apply Permutation_singleton_r in Hf. by rewrite Hf.
Qed.

Lemma replace_fst t x l : (replace t x l).*1 = l.*1.
Proof. unfold replace. rewrite <- list_fmap_compose. apply list_fmap_ext. intros i [u y] _. simpl. by case_decide. Qed.

Lemma replace_elem t x l u y : (u, y) ∈ replace t x l → u = t ∧ y = x ∨ u ≠ t ∧ (u, y) ∈ l.
Proof. unfold replace. intros ([u' y'] & Heq & Hin)%list_elem_of_fmap. simpl in Heq. case_decide; simplify_eq; auto. Qed.
End assoc.

Section system.
Context (cfg : Config).

Definition submitted {A} (s : system) (sh : Shared) (r : OpToken + A) : system :=
  let s := set_shared sh s in
  match r with inl t => set_issued (t :: issued s) s | inr _ => s end.

(** The lease and vector a completion carries. *)
Definition lease_of (c : Completion) : list (OpToken * ReadVector.ReadVector) :=
  match c_continuation c, c_frame c with
  | Some t, Some (Vector v) => [(t, v)]
  | _, _ => []
  end.

(** An attempt has ended: unless its operation now waits for a continuation, the
    completion is the final one. *)
Definition attempted (s : system) (sh : Shared) (a : WriteArena.ArenaState) (c : Completion) (fd : option FileId) : system :=
  let t := c_token c in
  let s := set_staging a (set_shared sh (set_active (without t (active s)) s)) in
  let s := set_due (option_list fd ++ due s) s in
  if decide (t ∈ continuations (occupied (slab sh))) then s else set_final (t :: final s) s.

Definition released (s : system) (sh : Shared) : system :=
  set_abandoned (lost (shared s) sh ++ abandoned s) (set_shared sh s).

Definition exec (s : system) (c : call) : outcome system :=
  match c with
  | CReserve =>
      '(sh, fd) ← reserve_file_locked cfg (shared s);
      Done (set_reserved (option_list fd ++ reserved s) (set_shared sh s))
  | CRegistered fd => Done (set_handles (fd :: handles s) (set_reserved (filter (λ x, x ≠ fd) (reserved s)) s))
  | CAbortFile fd =>
      sh ← abort_file cfg (shared s) fd;
      Done (set_reserved (filter (λ x, x ≠ fd) (reserved s)) (set_shared sh s))
  | CClose fd =>
      '(sh, retiring) ← close_locked cfg (shared s) fd;
      Done (set_due ((if retiring : bool then [fd] else []) ++ due s)
        (set_handles (filter (λ x, x ≠ fd) (handles s)) (set_shared sh s)))
  | CRetire fd =>
      sh ← retire (shared s) fd;
      Done (set_due (filter (λ x, x ≠ fd) (due s)) (set_shared sh s))
  | CSubmitRead fd mode lease off doff len pos =>
      '(sh, r) ← submit_read_locked cfg (Frames.count (arena s)) (shared s) fd mode lease off doff len pos;
      Done (submitted s sh r)
  | CSubmitWrite fd mode slot off pos =>
      '(sh, r) ← submit_write_locked cfg (staging s) (shared s) fd mode slot (WriteArena.granule (staging s)) off pos;
      let s := submitted s sh r in
      Done (match r with inl _ => set_write_leases (filter (λ x, x ≠ slot) (write_leases s)) s | inr _ => s end)
  | CSubmitFsync fd mode sync pos =>
      '(sh, r) ← submit_fsync_locked cfg (shared s) fd mode sync pos;
      Done (submitted s sh r)
  | CSubmitVector fd mode v off lease pos =>
      '(sh, st, r) ← submit_read_vector cfg (arena s) (storage s) (shared s) fd mode v off lease pos;
      Done (set_storage st (submitted s sh r))
  | CPrepare memory =>
      o ← prepare_next memory (staging s) (shared s);
      match o with
      | None => Done s
      | Some (sh, slot, _, d, _) =>
          t ← token (slab sh) slot;
          Done (set_active ((t, d) :: active s) (set_shared sh s))
      end
  | CFill =>
      o ← fill_one (staging s) (shared s);
      match o with
      | None => Done s
      | Some (sh, q) => Done (set_active ((sqe_user_data q, None) :: active s) (set_shared sh s))
      end
  | CPublish t r =>
      d ← expect (assoc t (active s));
      '(sh, a, c, fd, _) ← finish_attempt (Frames.granule (arena s)) (staging s) (shared s) (OpToken_slot t) r d;
      Done (set_held (lease_of c ++ held s) (attempted s sh a c fd))
  | CPublishBacklog t r =>
      d ← expect (assoc t (active s));
      '(sh, a, fd, _) ← publish_to_backlog_locked cfg (Frames.granule (arena s)) (staging s) (shared s) (OpToken_slot t) r d;
      c ← expect (last (completion_backlog sh));
      Done (attempted s sh a c fd)
  | CReap t raw =>
      '(sh, a, o, _) ← reap_one cfg (Frames.granule (arena s)) (staging s) (shared s) t raw;
      match o with
      | Some (c, fd) => Done (set_held (lease_of c ++ held s) (attempted s sh a c fd))
      | None => Done (set_active (without t (active s)) (set_staging a (set_shared sh s)))
      end
  | CDrain capacity =>
      let '(sh, drained) := drain_completion_backlog (shared s) capacity in
      Done (set_held ((drained ≫= lease_of) ++ held s) (set_shared sh s))
  | CTake t =>
      v ← expect (assoc t (held s));
      '(_, v) ← ReadVector.take_completed (arena s) v;
      Done (set_held (replace t v (held s)) s)
  | CContinue t =>
      v ← expect (assoc t (held s));
      '(sh, st, _) ← continue_read_vector cfg (arena s) (storage s) (shared s) t v;
      Done (set_storage st (set_held (without t (held s)) (released s sh)))
  | CDropLease t =>
      sh ← drop_continuation cfg (shared s) t;
      Done (set_held (without t (held s)) (released s sh))
  | CAbandon =>
      sh ← abandon_from cfg (N.to_nat (queue_capacity cfg)) 0 (shared s);
      Done (released s sh)
  | CPopDeferred =>
      let '(sh, d) := pop_deferred (shared s) in
      Done (set_due (match d with Some d => if d_retire d then [d_fd d] else [] | None => [] end ++ due s) (set_shared sh s))
  | CClaimSlot slot =>
      '(a, was_free) ← WriteArena.claim_cell (staging s) slot;
      Done (set_write_leases ((if was_free : bool then [slot] else []) ++ write_leases s) (set_staging a s))
  | CReleaseSlot slot =>
      '(a, _) ← WriteArena.release (staging s) slot;
      Done (set_write_leases (filter (λ x, x ≠ slot) (write_leases s)) (set_staging a s))
  | CArena a => Done (set_arena a s)
  end.

(** ** What callers and backends guarantee *)

Definition vector_good (a : Frames.Frames) (t : OpToken) (v : ReadVector.ReadVector) : Prop :=
  (∃ l, ReadVector.bundle a l v) ∧ (∀ f, Some f ∈ ReadVector.frames v → ReadVector.transferable a f) ∧
  ReadVector.operation v = Some t.

(** No slab generation is exhausted. *)
Definition slab_roomy (s : system) : Prop := ∀ e, e ∈ slots (slab (shared s)) → generation e < U32_MAX.

Definition submittable (s : system) (fd : FileId) (mode : IoMode) (offset position : N) : Prop :=
  fd ∈ handles s ∧ assert_aligned mode offset = Done tt ∧ position ≤ vlen (ready (shared s)) ∧ slab_roomy s.

(** The bytes the operation of token [t] still asks for. *)
Definition asks (s : system) (t : OpToken) (n : N) : Prop :=
  ∃ o, o ∈ occupied (slab (shared s)) ∧ entry_token o = t ∧ op_requested_len o.2 = n.

Definition dest_vector (d : option ReadDestination) : list ReadVector.ReadVector :=
  match d with Some (Vector v) => [v] | _ => [] end.

(** Every vector of the driver and of the leases it has handed out. *)
Definition vectors (s : system) : list ReadVector.ReadVector :=
  (occupied (slab (shared s)) ≫= λ o, dest_vector (op_frame o.2)) ++
  (active s ≫= λ p, dest_vector p.2) ++ (held s).*2 ++
  (completion_backlog (shared s) ≫= λ c, (lease_of c).*2).

Definition enabled (s : system) (c : call) : Prop :=
  match c with
  | CReserve => FileTable.roomy (files (shared s))
  | CRegistered fd | CAbortFile fd => fd ∈ reserved s
  | CClose fd => fd ∈ handles s
  | CRetire fd => fd ∈ due s
  | CSubmitRead fd mode lease off doff len pos =>
      submittable s fd mode off pos ∧
      Frames.InFlightFrame_frame (split_lease lease).1.1 < Frames.count (arena s) ∧
      0 < len ∧ doff ≤ clean_read_bytes cfg ∧ len ≤ clean_read_bytes cfg - doff
  | CSubmitWrite fd mode slot off pos =>
      submittable s fd mode off pos ∧ slot ∈ write_leases s ∧ off + WriteArena.granule (staging s) ≤ U64_MAX
  | CSubmitFsync fd mode sync pos => submittable s fd Buffered 0 pos
  | CSubmitVector fd mode v off lease pos =>
      submittable s fd mode off pos ∧ assert_aligned mode (Frames.granule (arena s)) = Done tt ∧ lease ≠ Absent ∧
      (∃ l, ReadVector.bundle (arena s) l v ∧ 2 ≤ vlen l) ∧ ReadVector.filled v = 0 ∧ ReadVector.operation v = None ∧
      (∀ f, Some f ∈ ReadVector.frames v → ReadVector.transferable (arena s) f) ∧ off + ReadVector.total v ≤ U64_MAX
  | CPublish t r | CPublishBacklog t r =>
      t ∈ (active s).*1 ∧ ∃ n, asks s t n ∧ transferred r ≤ n
  | CReap t raw => (t, None) ∈ active s ∧ ∃ n, asks s t n ∧ (raw ≤ Z.of_N n)%Z
  | CTake t | CDropLease t => t ∈ (held s).*1
  | CContinue t =>
      t ∈ continuations (occupied (slab (shared s))) ∧
      ∃ v, (t, v) ∈ held s ∧ ReadVector.ordinal v = ReadVector.filled v / Frames.granule (arena s)
  | CClaimSlot slot => slot < vlen (WriteArena.free (staging s))
  | CReleaseSlot slot => slot ∈ write_leases s
  | CArena a =>
      Frames.granule a = Frames.granule (arena s) ∧ Frames.count a = Frames.count (arena s) ∧
      ∀ v f, v ∈ vectors s → Some f ∈ ReadVector.frames v →
        ReadVector.transferable (arena s) f → ReadVector.transferable a f
  | CPrepare _ | CFill | CDrain _ | CAbandon | CPopDeferred => True
  end.

Definition step (s s' : system) : Prop := ∃ c, enabled s c ∧ exec s c = Done s'.

Definition config_ok : Prop := 0 < queue_capacity cfg ∧ 3 * queue_capacity cfg ≤ U32_MAX.

Definition initial (s : system) : Prop :=
  ∃ file_capacity slot_count staging_granule a w,
    file_capacity ≤ U32_MAX ∧ staging_granule ≤ U32_MAX ∧ 0 < Frames.granule a ∧
    WriteArena.try_preallocated slot_count staging_granule (id cfg) = Done w ∧
    s = mkSystem (shared_new (queue_capacity cfg) file_capacity) (ReadVector.try_new (queue_capacity cfg)) w a
      [] [] [] [] [] [] [] [] [].

(** ** The invariant *)



(** What an entry contributes to the ready queue, to the operations under way, to the
    leased staging slots and to the operations not yet finally completed. *)
Definition queued_of (o : N * N * OpEntry) : list N := if is_queued (op_state o.2) then [o.1.1] else [].
Definition active_of (o : N * N * OpEntry) : list OpToken := if is_active (op_state o.2) then [entry_token o] else [].
Definition slot_of (o : N * N * OpEntry) : list N := option_list (op_write_slot o.2).
Definition pending_of (o : N * N * OpEntry) : list OpToken :=
  match op_state o.2 with Terminal _ => [] | _ => [entry_token o] end.

(** The bytes left of a read are those its vector lacks. *)
Definition matches (e : OpEntry) (v : ReadVector.ReadVector) : Prop :=
  op_requested_len e + ReadVector.filled v = ReadVector.total v ∧ 0 < op_requested_len e ∧
  op_file_offset e + op_requested_len e ≤ U64_MAX.

Definition dest_ok (a : Frames.Frames) (t : OpToken) (e : OpEntry) (d : ReadDestination) : Prop :=
  match d with Point _ => True | Vector v => vector_good a t v ∧ matches e v end.

Definition mode_ok (m : IoMode) : Prop := match m with Direct a => is_power_of_two (Alignment.get a) = true | Buffered => True end.

Definition entry_ok (a : Frames.Frames) (w : WriteArena.ArenaState) (o : N * N * OpEntry) : Prop :=
  let e := o.2 in
  match op_kind e with
  | Read => (op_frame_lease e ≠ Absent ∧ mode_ok (op_io_mode e)) ∧ op_write_slot e = None ∧
      (is_queued (op_state e) = true → ∃ d, op_frame e = Some d ∧ dest_ok a (entry_token o) e d) ∧
      (is_held (op_state e) = true → op_frame e = None)
  | Write => op_frame_lease e = Absent ∧ op_frame e = None ∧ is_held (op_state e) = false ∧
      (∃ x, op_write_slot e = Some x) ∧ op_destination_offset e + op_requested_len e ≤ WriteArena.granule w ∧
      op_file_offset e + op_requested_len e ≤ U64_MAX
  | Fsync => op_frame_lease e = Absent ∧ op_frame e = None ∧ is_held (op_state e) = false ∧ op_write_slot e = None
  end.

(** The destination of an operation under way is with the backend or in the entry. *)
Definition active_ok (a : Frames.Frames) (o : N * N * OpEntry) (d : option ReadDestination) : Prop :=
  match op_kind o.2 with
  | Read => ∃ x, dest_ok a (entry_token o) o.2 x ∧ (d = None ∧ op_frame o.2 = Some x ∨ d = Some x ∧ op_frame o.2 = None)
  | _ => d = None
  end.

Definition leases (s : system) : list (OpToken * ReadVector.ReadVector) :=
  held s ++ (completion_backlog (shared s) ≫= lease_of).

Definition due_deferred (l : list DeferredCompletion) : list FileId :=
  l ≫= λ d, if d_retire d then [d_fd d] else [].

Definition backlog_tokens (s : system) : list OpToken := c_token <$> completion_backlog (shared s).

Record view (s : system) (K : entries) : Prop := {
  v_slab : slab_wf [] (slab (shared s));
  v_slots : vlen (slots (slab (shared s))) = queue_capacity cfg;
  v_view : occupied (slab (shared s)) ≡ₚ K;
  v_ready : ready (shared s) ≡ₚ K ≫= queued_of;
  v_active : (active s).*1 ≡ₚ K ≫= active_of;
  v_leases : NoDup ((held s).*1 ++ backlog_tokens s);
  v_tagged : ∀ c t v, c ∈ completion_backlog (shared s) → (t, v) ∈ lease_of c → t = c_token c;
  v_entries : ∀ o, o ∈ K → entry_ok (arena s) (staging s) o;
  v_attempts : ∀ o d, o ∈ K → (entry_token o, d) ∈ active s → active_ok (arena s) o d;
  v_good : ∀ t v, (t, v) ∈ leases s → vector_good (arena s) t v;
  v_held : ∀ o v, o ∈ K → (entry_token o, v) ∈ leases s →
    is_held (op_state o.2) = true ∧ (is_continuation (op_state o.2) = true → matches o.2 v);
  v_backlog : ∀ o, o ∈ K → entry_token o ∈ backlog_tokens s → is_held (op_state o.2) = true;
  v_files : FileTable.inv (id cfg) (FileTable.mkSystem (files (shared s)) (reserved s) (handles s)
    ((λ o, op_fd o.2) <$> K) (due s ++ due_deferred (deferred (shared s))));
  v_capacity : vlen K + vlen (deferred (shared s)) ≤ queue_capacity cfg;
  v_retained : vlen (completion_backlog (shared s)) +
    vlen (filter (λ o, entry_token o ∉ backlog_tokens s) K) ≤ queue_capacity cfg;
  v_staging : WriteArena.leased (WriteArena.mkSystem (staging s) [] (write_leases s ++ (K ≫= slot_of)));
  v_owner : WriteArena.owner (staging s) = id cfg ∧ WriteArena.granule (staging s) ≤ U32_MAX;
  v_issued : issued s ≡ₚ final s ++ abandoned s ++ (K ≫= pending_of);
  v_minted : ∀ t, t ∈ issued s → minted (slab (shared s)) t;
  v_nodup : NoDup (issued s);
  v_known : ∀ t, t ∈ (leases s).*1 ++ backlog_tokens s ++ (entry_token <$> K) → t ∈ issued s;
  v_storage : ReadVector.slots (storage s) = queue_capacity cfg ∧
    vlen (ReadVector.allocation (storage s)) = queue_capacity cfg * ReadVector.VECTOR_FRAMES_MAX;
  v_granule : 0 < Frames.granule (arena s);
}.

Definition inv (s : system) : Prop := view s (occupied (slab (shared s))).

Lemma view_perm s K K' : K ≡ₚ K' → view s K → view s K'.
Proof.
  intros Hp [H1 H2 H3 H4 H5 H6 H7 H8 H9 H10 H11 H12 H13 H14 H15 H16 H17 H18 H19 H20 H21 H22 H23].
  split; try done.
  - by rewrite <- Hp.
  - by rewrite <- Hp.
  - by rewrite <- Hp.
  - intros o. rewrite <- Hp. apply H8.
  - intros o d. rewrite <- Hp. apply H9.
  - intros o v. rewrite <- Hp. apply H11.
  - intros o. rewrite <- Hp. apply H12.
  - refine (FileTable.inv_perm _ _ _ _ _ _ _ _ _ _ H13); [by rewrite Hp|done].
  - unfold vlen in *. by rewrite <- Hp.
  - unfold vlen in *. by rewrite <- Hp.
  - refine (WriteArena.leased_perm _ _ _ _ _ H16). by rewrite Hp.
  - by rewrite <- Hp.
  - intros t. rewrite <- Hp. apply H21.
Qed.

Lemma view_inv s K : view s K → inv s.
Proof. intros Hv. eapply view_perm; [|exact Hv]. symmetry. apply (v_view _ _ Hv). Qed.

Lemma active_token s K (o : N * N * OpEntry) d : view s K → (entry_token o, d) ∈ active s → entry_token o ∈ entry_token <$> K.
Proof.
  intros Hv Hin. assert (entry_token o ∈ (active s).*1) as Ht by (by apply (list_elem_of_fmap_2' fst _ (entry_token o, d))).
  rewrite (v_active _ _ Hv) in Ht. apply list_elem_of_bind in Ht as (o' & Ho' & Hin').
  unfold active_of in Ho'. destruct (is_active _); [|by apply elem_of_nil in Ho'].
  apply list_elem_of_singleton in Ho' as ->. by apply list_elem_of_fmap_2.
Qed.

(** ** Submission *)

Lemma admission_live s K fd :
  view s K → config_ok → fid_driver fd = id cfg → FileTable.is_live (files (shared s)) fd = Done true →
  let load := vlen K + vlen (completion_backlog (shared s)) + vlen (deferred (shared s)) in
  (admission cfg (shared s) fd = Done (shared s, inr Full) ∧ queue_capacity cfg ≤ load) ∨
  ∃ s' slot, admission cfg (shared s) fd = Done (set_slab (shared s) s', inl slot) ∧ load < queue_capacity cfg ∧
    slab_wf [slot] s' ∧ slots s' = slots (slab (shared s)) ∧ occupied s' = occupied (slab (shared s)).
Proof.
  intros Hv [Hq0 Hq] Hown Hlive load.
  unfold admission, assert_own. rewrite Hown, N.eqb_refl. mred. rewrite Hlive. mred.
  pose proof (v_capacity _ _ Hv) as Hc. pose proof (v_retained _ _ Hv) as Hr.
  assert (vlen (completion_backlog (shared s)) ≤ queue_capacity cfg) by (unfold vlen in *; lia).
  rewrite (proj2 (N.leb_le _ U32_MAX)) by lia.
  rewrite (FileTable.total_inflight_ok _ _ _ _ _ _ (v_files _ _ Hv)). mred.
  assert (vlen ((λ o, op_fd o.2) <$> K) = vlen K) as -> by (unfold vlen; by rewrite length_fmap).
  rewrite add_ok by lia. mred. destruct (N.leb_spec (queue_capacity cfg) (vlen K + (vlen (completion_backlog (shared s)) + vlen (deferred (shared s))))) as [Hge|Hlt].
  - left. split; [done|]. unfold load. lia.
  - right. destruct (reserve_ok (slab (shared s)) (v_slab _ _ Hv)) as (s' & slot & -> & Hw & Hs & Ho).
    { rewrite (v_slots _ _ Hv). unfold vlen in *. rewrite (v_view _ _ Hv). lia. }
    exists s', slot. split_and!; try done. unfold load. lia.
Qed.

Lemma admission_ok s K fd :
  view s K → config_ok → fd ∈ handles s →
  let load := vlen K + vlen (completion_backlog (shared s)) + vlen (deferred (shared s)) in
  (admission cfg (shared s) fd = Done (shared s, inr Full) ∧ queue_capacity cfg ≤ load) ∨
  ∃ s' slot, admission cfg (shared s) fd = Done (set_slab (shared s) s', inl slot) ∧ load < queue_capacity cfg ∧
    slab_wf [slot] s' ∧ slots s' = slots (slab (shared s)) ∧ occupied s' = occupied (slab (shared s)).
Proof.
  intros Hv Hcfg Hfd. destruct (FileTable.handle_own _ _ _ _ _ _ _ (v_files _ _ Hv) Hfd). by apply admission_live.
Qed.

Lemma bind_vector_ok t e :
  (∀ v, op_frame e = Some (Vector v) → ReadVector.operation v = None) →
  ∃ e', bind_vector t e = Done e' ∧ op_state e' = op_state e ∧ op_fd e' = op_fd e ∧ op_write_slot e' = op_write_slot e.
Proof.
  intros Hv. unfold bind_vector. destruct (op_frame e) as [[f|v]|] eqn:Hf; try (by eexists).
  unfold ReadVector.bind. rewrite (Hv v eq_refl). mred. by eexists.
Qed.

Lemma filter_ext_elem {A} (P Q : A → Prop) `{!∀ x, Decision (P x)} `{!∀ x, Decision (Q x)} (l : list A) :
  (∀ x, x ∈ l → P x ↔ Q x) → filter P l = filter Q l.
Proof.
  induction l as [|x l IH]; intros Hpq; [done|]. rewrite !filter_cons, IH by (intros y Hy; apply Hpq; by right).
  pose proof (Hpq x ltac:(by left)). do 2 case_decide; tauto.
Qed.

Lemma vlen_filter_le {A} (P : A → Prop) `{!∀ x, Decision (P x)} (l : list A) : vlen (filter P l) ≤ vlen l.
Proof. unfold vlen. pose proof (length_filter P l). lia. Qed.

Lemma commit_view s K s' slot e pos wl st :
  view s K → config_ok → slab_wf [slot] s' → slots s' = slots (slab (shared s)) → occupied s' = occupied (slab (shared s)) →
  slab_roomy s → op_state e = Queued → op_fd e ∈ handles s → pos ≤ vlen (ready (shared s)) →
  vlen K + vlen (completion_backlog (shared s)) + vlen (deferred (shared s)) < queue_capacity cfg →
  (∀ v, op_frame e = Some (Vector v) → ReadVector.operation v = None) →
  (∀ g e', bind_vector (OpToken_new slot g) e = Done e' → entry_ok (arena s) (staging s) (slot, g, e')) →
  write_leases s ≡ₚ option_list (op_write_slot e) ++ wl →
  ReadVector.slots st = queue_capacity cfg →
  vlen (ReadVector.allocation st) = queue_capacity cfg * ReadVector.VECTOR_FRAMES_MAX →
  ∃ sh t, commit (set_slab (shared s) s') slot e pos = Done (sh, t) ∧ (t ∉ issued s) ∧
    view (set_storage st (set_write_leases wl (set_issued (t :: issued s) (set_shared sh s)))) (occupied (slab sh)) ∧
    live_tokens (occupied (slab sh)) ≡ₚ t :: live_tokens K.
Proof.
  intros Hv [Hq0 Hq] Hw Hsl Hocc Hroom Hst Hfd Hpos Hload Hop Hok Hwl Hst1 Hst2.
  destruct (fill_ok s' slot e Hw) as (s1 & g & He & Hfill & Hw1 & Ho1 & Hs1); [intros x Hx; apply Hroom; by rewrite <- Hsl|].
  destruct (bind_vector_ok (OpToken_new slot (g + 1)) e Hop) as (e' & Hb & Hst' & Hfd' & Hws').
  assert ((slot, g + 1, e) ∈ occupied s1) as Hin1 by (rewrite Ho1; set_solver).
  destruct (peek_mut_ok s1 slot (g + 1) e Hw1 Hin1 (λ _, e')) as (s2 & rest & Hpm & Hw2 & _ & Hs2 & Hp1 & Hp2).
  assert (rest ≡ₚ K) as Hrest.
  { apply (Permutation_cons_inv (a := (slot, g + 1, e))). rewrite <- Hp1, Ho1, Hocc. by rewrite (v_view _ _ Hv). }
  set (o := (slot, g + 1, e') : N * N * OpEntry). rewrite Hrest in Hp2.
  set (t := OpToken_new slot (g + 1)) in *.
  pose proof (v_files _ _ Hv) as Hfi.
  destruct (FileTable.submit_advances _ _ _ _ _ _ Hfi (op_fd e) Hfd) as (f' & Hsub & Hfi').
  { by eapply FileTable.handle_not_reserved. }
  { unfold vlen in *. rewrite length_fmap. lia. }
  unfold commit. simpl. rewrite Hfill. mred. rewrite (peek_ok _ _ _ _ Hin1). mred. rewrite Hb. mred. rewrite Hpm. mred.
  rewrite Hsub. mred. rewrite (proj2 (N.leb_le pos _)) by done. simpl. eexists _, t. split; [done|].
  assert (t ∉ issued s) as Hfresh.
  { intros Hin. apply (minted_fresh (slab (shared s)) slot (mkSlot g None) t); try done.
    - by rewrite <- Hsl.
    - rewrite (v_slots _ _ Hv). lia.
    - by apply (v_minted _ _ Hv). }
  split; [done|]. split; [|unfold live_tokens; by rewrite Hp2].
  apply (view_perm _ (o :: K)); [by symmetry|]. split; simpl; rewrite ?Hst'; try done.
  - rewrite Hs2, Hs1, !vlen_insert, Hsl. apply (v_slots _ _ Hv).
  - unfold queued_of at 1. simpl. rewrite Hst', Hst. simpl.
    rewrite <- Permutation_middle, take_drop. by rewrite (v_ready _ _ Hv).
  - unfold active_of at 1. simpl. rewrite Hst', Hst. simpl. apply (v_active _ _ Hv).
  - apply (v_leases _ _ Hv).
  - apply (v_tagged _ _ Hv).
  - intros x [->|Hx]%elem_of_cons; [by apply Hok|by apply (v_entries _ _ Hv)].
  - intros x d [->|Hx]%elem_of_cons Ha; [|by apply (v_attempts _ _ Hv)]. exfalso. apply Hfresh.
    apply (v_known _ _ Hv). rewrite !elem_of_app. right; right. by eapply (active_token s K o d).
  - apply (v_good _ _ Hv).
  - intros x v [->|Hx]%elem_of_cons Ha; [|by apply (v_held _ _ Hv)]. exfalso. apply Hfresh.
    apply (v_known _ _ Hv). rewrite !elem_of_app. left. by apply (list_elem_of_fmap_2' fst _ (t, v)).
  - intros x [->|Hx]%elem_of_cons Ha; [|by apply (v_backlog _ _ Hv)]. exfalso. apply Hfresh.
    apply (v_known _ _ Hv). rewrite !elem_of_app. right; by left.
  - by rewrite Hfd'.
  - unfold vlen in *. simpl. lia.
  - pose proof (vlen_filter_le (λ x, entry_token x ∉ backlog_tokens (set_shared (mkShared s2 f' (take (N.to_nat pos) (ready (shared s)) ++ slot :: drop (N.to_nat pos) (ready (shared s))) (completion_backlog (shared s)) (deferred (shared s))) s)) (o :: K)) as Hf.
    unfold vlen in *. simpl in *. unfold backlog_tokens in *. simpl in *. lia.
  - refine (WriteArena.leased_perm _ _ _ _ _ (v_staging _ _ Hv)). unfold slot_of at 2. simpl. rewrite Hws', Hwl.
    by rewrite (Permutation_app_comm _ wl), <- app_assoc.
  - apply (v_owner _ _ Hv).
  - unfold pending_of at 1. simpl. rewrite Hst', Hst. simpl. fold t. rewrite (v_issued _ _ Hv).
    rewrite !(app_assoc (final s)). apply Permutation_middle.
  - intros u [->|Hu]%elem_of_cons.
    + apply (minted_live _ _ _ e'). rewrite Hp2. set_solver.
    + apply (v_minted _ _ Hv) in Hu.
      destruct s2 as [l2 f2]. simpl in Hs2. eapply (minted_update s1 _ _ slot (mkSlot (g + 1) (Some e))); [..|exact Hs2|].
      * by apply occupied_elem.
      * simpl. lia.
      * destruct s1 as [l1 f1]. simpl in Hs1. apply (minted_update s' l1 f1 slot (mkSlot g None) (mkSlot (g + 1) (Some e))); [done|simpl; lia|exact Hs1|].
        destruct Hu as (i & g0 & e0 & ? & Hi & ?). exists i, g0, e0. split_and!; try done. by rewrite Hsl.
  - apply NoDup_cons. split; [done|apply (v_nodup _ _ Hv)].
  - intros u Hu. apply elem_of_cons. destruct (decide (u = t)) as [->|Hne]; [by left|right]. apply (v_known _ _ Hv).
    rewrite !elem_of_app, elem_of_cons in Hu. rewrite !elem_of_app. unfold leases, backlog_tokens in *. simpl in Hu.
    destruct Hu as [Hu|[Hu|[Hu|Hu]]]; auto; done.
  - apply (v_granule _ _ Hv).
Qed.

(** ** One operation moves on *)

(** Storing an entry of the same file and staging slot back in its place. *)
Lemma view_store s K i g e e' s2 st act hd rd bl fin :
  view s ((i, g, e) :: K) → slab_wf [] s2 → slots s2 = <[N.to_nat i := mkSlot g (Some e')]> (slots (slab (shared s))) →
  occupied s2 ≡ₚ (i, g, e') :: K → op_fd e' = op_fd e → op_write_slot e' = op_write_slot e →
  ReadVector.slots st = queue_capacity cfg →
  vlen (ReadVector.allocation st) = queue_capacity cfg * ReadVector.VECTOR_FRAMES_MAX →
  let s' := mkSystem (mkShared s2 (files (shared s)) rd bl (deferred (shared s))) st (staging s) (arena s) act hd
    (reserved s) (handles s) (due s) (write_leases s) (issued s) fin (abandoned s) in
  rd ≡ₚ queued_of (i, g, e') ++ (K ≫= queued_of) →
  act.*1 ≡ₚ active_of (i, g, e') ++ (K ≫= active_of) →
  NoDup (hd.*1 ++ backlog_tokens s') →
  (∀ c t v, c ∈ bl → (t, v) ∈ lease_of c → t = c_token c) →
  entry_ok (arena s) (staging s) (i, g, e') →
  (∀ o d, o ∈ (i, g, e') :: K → (entry_token o, d) ∈ act → active_ok (arena s) o d) →
  (∀ t v, (t, v) ∈ leases s' → vector_good (arena s) t v) →
  (∀ o v, o ∈ (i, g, e') :: K → (entry_token o, v) ∈ leases s' →
    is_held (op_state o.2) = true ∧ (is_continuation (op_state o.2) = true → matches o.2 v)) →
  (∀ o, o ∈ (i, g, e') :: K → entry_token o ∈ backlog_tokens s' → is_held (op_state o.2) = true) →
  vlen bl + vlen (filter (λ o, entry_token o ∉ backlog_tokens s') ((i, g, e') :: K)) ≤ queue_capacity cfg →
  fin ++ pending_of (i, g, e') ≡ₚ final s ++ pending_of (i, g, e) →
  (∀ t, t ∈ (leases s').*1 ++ backlog_tokens s' → t ∈ issued s) →
  view s' ((i, g, e') :: K).
Proof.
  intros Hv Hw Hsl Hocc Hfd Hws Hst1 Hst2 s' Hrd Hact Hnd Htag Hent Hatt Hgood Hheld Hbl Hret Hfin Hkn.
  pose proof (proj1 (occupied_elem _ _ _ _) (proj2 (elem_of_Permutation_proper _ _ _ (v_view _ _ Hv)) ltac:(by left))) as He.
  split; simpl; try done.
  - rewrite Hsl, vlen_insert. apply (v_slots _ _ Hv).
  - intros o [->|Ho]%elem_of_cons; [done|]. apply (v_entries _ _ Hv). by right.
  - pose proof (v_files _ _ Hv) as Hf. simpl in Hf. by rewrite Hfd.
  - apply (v_capacity _ _ Hv).
  - pose proof (v_staging _ _ Hv) as Hf. simpl in Hf. unfold slot_of at 1 in Hf. simpl in Hf.
    unfold slot_of at 1. simpl. by rewrite Hws.
  - apply (v_owner _ _ Hv).
  - rewrite (v_issued _ _ Hv). simpl. rewrite !(Permutation_app_swap_app (abandoned s)), !app_assoc. by rewrite Hfin.
  - intros t Ht. destruct s2 as [l2 f2]. simpl in Hsl.
    apply (minted_update (slab (shared s)) l2 f2 i (mkSlot g (Some e)) (mkSlot g (Some e'))); try done.
    by apply (v_minted _ _ Hv).
  - apply (v_nodup _ _ Hv).
  - intros t Ht. destruct (decide (t ∈ (leases s').*1 ++ backlog_tokens s')) as [|Hn]; [by apply Hkn|].
    rewrite app_assoc in Ht. apply elem_of_app in Ht as [Ht|Ht]; [done|]. apply (v_known _ _ Hv).
    rewrite !elem_of_app. right; right. exact Ht.
  - apply (v_granule _ _ Hv).
Qed.

Lemma split_view s o : inv s → o ∈ occupied (slab (shared s)) → ∃ K, occupied (slab (shared s)) ≡ₚ o :: K ∧ view s (o :: K).
Proof. intros Hi [K HK]%elem_of_Permutation. exists K. split; [done|by eapply view_perm]. Qed.

Lemma view_elem s K o : view s K → o ∈ K → o ∈ occupied (slab (shared s)).
Proof. intros Hv. by rewrite (v_view _ _ Hv). Qed.

Lemma view_width s K : view s K → vlen (slots (slab (shared s))) ≤ U32_MAX.
Proof. intros Hv. apply (w_width _ _ (v_slab _ _ Hv)). Qed.

(** The token names its entry. *)
Lemma token_uniq s K o1 o2 : view s K → o1 ∈ K → o2 ∈ K → entry_token o1 = entry_token o2 → o1 = o2.
Proof.
  intros Hv H1%(view_elem _ _ _ Hv) H2%(view_elem _ _ _ Hv) Heq. apply (occupied_uniq _ _ _ H1 H2).
  destruct o1 as [[i1 g1] e1], o2 as [[i2 g2] e2]. pose proof (view_width _ _ Hv).
  apply OpToken_new_inj in Heq as [? ?]; [done|..]; simpl; [apply occupied_range in H1|apply occupied_range in H2]; lia.
Qed.

Lemma tokens_nodup s K : view s K → NoDup (entry_token <$> K).
Proof.
  intros Hv. apply NoDup_fmap_2_strong; [intros x y Hx Hy; by eapply token_uniq|]. rewrite <- (v_view _ _ Hv). apply occupied_nodup.
Qed.

Lemma slot_of_token s K i g e : view s K → (i, g, e) ∈ K → OpToken_slot (OpToken_new i g) = i.
Proof. intros Hv Hin. eapply live_slot; [apply (v_slab _ _ Hv)|by eapply view_elem]. Qed.

Lemma queued_entry s K slot : view s K → slot ∈ ready (shared s) → ∃ g e, (slot, g, e) ∈ K ∧ op_state e = Queued.
Proof.
  intros Hv. rewrite (v_ready _ _ Hv), list_elem_of_bind. intros ([[i g] e] & Hi & Hin). unfold queued_of in Hi. simpl in Hi.
  destruct (is_queued (op_state e)) eqn:Hq; [|by apply elem_of_nil in Hi]. apply list_elem_of_singleton in Hi as ->.
  exists g, e. split; [done|]. by destruct (op_state e).
Qed.

Lemma active_entry s K t : view s K → t ∈ (active s).*1 → ∃ i g e, t = OpToken_new i g ∧ (i, g, e) ∈ K ∧ op_state e = Active.
Proof.
  intros Hv. rewrite (v_active _ _ Hv), list_elem_of_bind. intros ([[i g] e] & Hi & Hin). unfold active_of in Hi. simpl in Hi.
  destruct (is_active (op_state e)) eqn:Hq; [|by apply elem_of_nil in Hi]. apply list_elem_of_singleton in Hi as ->.
  exists i, g, e. split_and!; [done..|]. by destruct (op_state e).
Qed.

(** An operation that is not held has no lease and no completion in the backlog. *)
Lemma busy_not_leased s K o :
  view s K → o ∈ K → is_held (op_state o.2) = false →
  (∀ v, (entry_token o, v) ∉ leases s) ∧ (entry_token o ∉ backlog_tokens s) ∧ (entry_token o ∉ (held s).*1).
Proof.
  intros Hv Ho Hh. assert (∀ v, (entry_token o, v) ∉ leases s) as Hl.
  { intros v Hin. destruct (v_held _ _ Hv o v Ho Hin). congruence. }
  split_and!; [done| |].
  - intros Hin. pose proof (v_backlog _ _ Hv o Ho Hin). congruence.
  - intros ([t v] & Heq & Hin)%list_elem_of_fmap. simpl in Heq. subst t. apply (Hl v). unfold leases. set_solver.
Qed.

Lemma fst_elem {A B} (t : A) (x : B) l : (t, x) ∈ l → t ∈ l.*1.
Proof. intros H. by apply (list_elem_of_fmap_2' fst _ (t, x)). Qed.

(** The operation moves between the ready queue and a backend. *)
Lemma view_move s K i g e e' s2 act rd st :
  view s ((i, g, e) :: K) → slab_wf [] s2 → slots s2 = <[N.to_nat i := mkSlot g (Some e')]> (slots (slab (shared s))) →
  occupied s2 ≡ₚ (i, g, e') :: K → op_fd e' = op_fd e → op_write_slot e' = op_write_slot e →
  is_held (op_state e) = false → is_held (op_state e') = false →
  rd ≡ₚ queued_of (i, g, e') ++ (K ≫= queued_of) →
  act.*1 ≡ₚ active_of (i, g, e') ++ (K ≫= active_of) →
  entry_ok (arena s) (staging s) (i, g, e') →
  (∀ d, (OpToken_new i g, d) ∈ act → active_ok (arena s) (i, g, e') d) →
  (∀ t d, t ≠ OpToken_new i g → (t, d) ∈ act → (t, d) ∈ active s) →
  ReadVector.slots st = queue_capacity cfg →
  vlen (ReadVector.allocation st) = queue_capacity cfg * ReadVector.VECTOR_FRAMES_MAX →
  view (set_storage st (set_active act (set_shared (set_slab (set_ready (shared s) rd) s2) s))) ((i, g, e') :: K).
Proof.
  intros Hv Hw Hsl Hocc Hfd Hws He He' Hrd Hact Hent Hown Hoth Hst1 Hst2.
  destruct (busy_not_leased s _ (i, g, e) Hv) as (Hl & Hb & Hh); [by left|done|].
  pose proof (tokens_nodup _ _ Hv) as Hnd. simpl in Hnd. apply NoDup_cons in Hnd as [Hnew _].
  apply (view_store s K i g e e' s2 st act (held s) rd (completion_backlog (shared s)) (final s)); try done.
  - apply (v_leases _ _ Hv).
  - apply (v_tagged _ _ Hv).
  - intros o d [->|Ho]%elem_of_cons Hin; [by apply Hown|]. apply (v_attempts _ _ Hv); [by right|].
    apply Hoth; [|done]. intros Heq. apply Hnew. change (entry_token (i, g, e)) with (OpToken_new i g). rewrite <- Heq. by apply list_elem_of_fmap_2.
  - apply (v_good _ _ Hv).
  - intros o v [->|Ho]%elem_of_cons Hin; [by apply Hl in Hin|]. apply (v_held _ _ Hv); [by right|done].
  - intros o [->|Ho]%elem_of_cons Hin; [done|]. apply (v_backlog _ _ Hv); [by right|done].
  - pose proof (v_retained _ _ Hv) as Hr. unfold backlog_tokens in *. simpl in *. rewrite filter_cons in *.
    rewrite decide_True in * by done. done.
  - unfold pending_of. simpl. destruct (op_state e), (op_state e'); done.
  - intros t Ht. apply (v_known _ _ Hv). rewrite app_assoc. apply elem_of_app. by left.
Qed.

(** ** Handing an operation to a backend *)

(** The head of the ready queue leaves it; [d] is what the backend is given. *)
Lemma activate_view s slot rest e' d :
  inv s → ready (shared s) = slot :: rest →
  (∀ g e, (slot, g, e) ∈ occupied (slab (shared s)) → op_state e = Queued → entry_ok (arena s) (staging s) (slot, g, e) →
    op_state (e' e) = Active ∧ op_fd (e' e) = op_fd e ∧ op_write_slot (e' e) = op_write_slot e ∧
    entry_ok (arena s) (staging s) (slot, g, e' e) ∧ active_ok (arena s) (slot, g, e' e) (d e)) →
  ∃ g e s2, (slot, g, e) ∈ occupied (slab (shared s)) ∧ op_state e = Queued ∧
    entry_ok (arena s) (staging s) (slot, g, e) ∧
    peek_mut (slab (shared s)) slot (λ _, e' e) = Done s2 ∧ token s2 slot = Done (OpToken_new slot g) ∧
    (slot, g, e' e) ∈ occupied s2 ∧
    inv (set_active ((OpToken_new slot g, d e) :: active s) (set_shared (set_slab (set_ready (shared s) rest) s2) s)).
Proof.
  intros Hi Hr Hstep. destruct (queued_entry s _ slot Hi) as (g & e & Hin & Hq); [rewrite Hr; by left|].
  pose proof (v_entries _ _ Hi _ Hin) as Hent. destruct (Hstep g e Hin Hq Hent) as (Hst & Hfd & Hws & Hent' & Hact).
  destruct (peek_mut_ok _ _ _ _ (v_slab _ _ Hi) Hin (λ _, e' e)) as (s2 & K & Hp & Hw & _ & Hsl & Ho & Ho').
  assert (view s ((slot, g, e) :: K)) as Hv by (by eapply view_perm).
  exists g, e, s2. split_and!; try done.
  { apply (token_ok s2 slot g (e' e)). rewrite Ho'. by left. }
  { rewrite Ho'. by left. }
  pose proof (v_ready _ _ Hv) as Hrd. rewrite Hr in Hrd. simpl in Hrd. unfold queued_of at 1 in Hrd. simpl in Hrd. rewrite Hq in Hrd. simpl in Hrd.
  pose proof (v_active _ _ Hv) as Hac. simpl in Hac. unfold active_of at 1 in Hac. simpl in Hac. rewrite Hq in Hac. simpl in Hac.
  pose proof (tokens_nodup _ _ Hv) as Hnd. simpl in Hnd. apply NoDup_cons in Hnd as [Hnew _].
  apply (view_inv _ ((slot, g, e' e) :: K)).
  apply (view_move s K slot g e (e' e) s2 ((OpToken_new slot g, d e) :: active s) rest (storage s)); try done;
    rewrite ?Hq, ?Hst; try done.
  - unfold queued_of at 1. simpl. rewrite Hst. simpl. by apply Permutation_cons_inv in Hrd.
  - unfold active_of at 1. simpl. rewrite Hst. simpl. by rewrite Hac.
  - intros d' [[= ->]|Hd]%elem_of_cons; [done|]. exfalso. apply fst_elem in Hd. rewrite Hac, list_elem_of_bind in Hd.
    destruct Hd as (o & Hin' & Ho''). unfold active_of in Hin'. destruct (is_active _); [|by apply elem_of_nil in Hin'].
    apply list_elem_of_singleton in Hin'. apply Hnew. change (entry_token (slot, g, e)) with (OpToken_new slot g).
    rewrite Hin'. by apply list_elem_of_fmap_2.
  - intros t d' Hne [[= -> ->]|Hd]%elem_of_cons; done.
  - apply (v_storage _ _ Hv).
  - apply (v_storage _ _ Hv).
Qed.

Lemma region_of s slot g e x :
  inv s → (slot, g, e) ∈ occupied (slab (shared s)) → op_write_slot e = Some x →
  op_destination_offset e + op_requested_len e ≤ WriteArena.granule (staging s) →
  ∃ start, WriteArena.region (staging s) x (op_destination_offset e) (op_requested_len e) = Done start.
Proof.
  intros Hi Hin Hx Hfit. eexists. eapply (WriteArena.region_ok _ _ _ _ (v_staging _ _ Hi)); [|done].
  simpl. apply elem_of_app. right. apply list_elem_of_bind. exists (slot, g, e). split; [|done]. unfold slot_of. simpl. rewrite Hx. by left.
Qed.

(** What [prepare_next] hands to the backend. *)
Definition prepared (e : OpEntry) (c : OpContext) : Prop :=
  cx_requested_len c ≤ op_requested_len e ∧
  (op_kind e = Write → cx_requested_len c = op_requested_len e ∧ vlen (cx_write_buf c) = op_requested_len e ∧ op_requested_len e ≤ U32_MAX ∧
    cx_destination_offset c + op_requested_len e ≤ U32_MAX ∧ cx_file_offset c + op_requested_len e ≤ U64_MAX).

Lemma prepare_cases s memory :
  inv s →
  (ready (shared s) = [] ∧ prepare_next memory (staging s) (shared s) = Done None) ∨
  ∃ sh slot g e d context,
    prepare_next memory (staging s) (shared s) = Done (Some (sh, slot, op_kind e, d, context)) ∧
    token (slab sh) slot = Done (OpToken_new slot g) ∧ (slot, g, e) ∈ occupied (slab sh) ∧ prepared e context ∧
    ready (shared s) = slot :: ready sh ∧ completion_backlog sh = completion_backlog (shared s) ∧
    deferred sh = deferred (shared s) ∧
    inv (set_active ((OpToken_new slot g, d) :: active s) (set_shared sh s)).
Proof.
  intros Hi. unfold prepare_next. destruct (ready (shared s)) as [|slot rest] eqn:Hr; [by left|right].
  destruct (activate_view s slot rest
    (λ e, if is_read (op_kind e) then set_frame None (set_state Active e) else set_state Active e)
    (λ e, if is_read (op_kind e) then op_frame e else None) Hi Hr) as (g & e & s2 & Hin & Hq & Hent & Hp & Ht & Hin2 & Hi').
  { intros g e Hin Hq Hent. unfold entry_ok, active_ok in *. simpl in *. destruct (op_kind e) eqn:Hk; simpl in *; rewrite ?Hk; simpl.
    - destruct Hent as ([Hl Hmo] & Hw & Hd & Hf). rewrite Hq in Hd. destruct (Hd eq_refl) as (d & Hfr & Hok). split_and!; try done. exists d. split; [done|]. by right.
    - naive_solver.
    - naive_solver. }
  rewrite (peek_ok _ _ _ _ Hin). mred. rewrite Hq. simpl. unfold entry_ok in Hent. simpl in Hent.
  destruct (op_kind e) eqn:Hk; simpl in Hp, Hi', Hin2.
  - destruct Hent as (_ & _ & Hd & _). rewrite Hq in Hd. destruct (Hd eq_refl) as (d & Hfr & _). rewrite Hfr. mred.
    simpl in Hp. rewrite Hp. mred. rewrite Hfr in Hi'.
    exists (set_slab (set_ready (shared s) rest) s2), slot, g, (set_frame None (set_state Active e)), (Some d). eexists.
    unfold prepared. simpl. rewrite Hk. by split_and!.
  - destruct Hent as (_ & _ & _ & (x & Hx) & Hfit & Hfo). rewrite Hx. mred.
    destruct (region_of s slot g e x Hi Hin Hx Hfit) as (start & ->). mred. unfold context_write.
    pose proof (proj2 (v_owner _ _ Hi)) as Hgr.
    assert (vlen (source_bytes memory start (op_requested_len e)) = op_requested_len e) as Hlen
      by (unfold vlen, source_bytes; rewrite length_fmap, length_seq; lia).
    rewrite Hlen, (proj2 (N.leb_le _ U32_MAX)) by lia. mred. rewrite Hp. mred.
    exists (set_slab (set_ready (shared s) rest) s2), slot, g, (set_state Active e), None. eexists.
    unfold prepared. simpl. rewrite Hk. split_and!; try done. intros _. simpl. split_and!; [done|done|lia..].
  - rewrite Hp. mred. exists (set_slab (set_ready (shared s) rest) s2), slot, g, (set_state Active e), None. eexists.
    unfold prepared. simpl. rewrite Hk. split_and!; try done. simpl. lia.
Qed.

Lemma prepare_view s memory :
  inv s → ∃ s', exec s (CPrepare memory) = Done s' ∧ inv s'.
Proof.
  intros Hi. unfold exec. destruct (prepare_cases s memory Hi) as [[_ ->]|(sh & slot & g & e & d & c & -> & Ht & _ & _ & _ & _ & _ & Hi')]; mred.
  - by exists s.
  - rewrite Ht. mred. by eexists.
Qed.

Lemma fill_view s : inv s → ∃ s', exec s CFill = Done s' ∧ inv s'.
Proof.
  intros Hi. unfold exec, fill_one. destruct (ready (shared s)) as [|slot rest] eqn:Hr; [by exists s|].
  destruct (activate_view s slot rest (set_state Active) (λ _, None) Hi Hr) as (g & e & s2 & Hin & Hq & Hent & Hp & Ht & _ & Hi').
  { intros g e Hin Hq Hent. unfold entry_ok, active_ok in *. simpl in *. rewrite Hq in Hent. destruct (op_kind e) eqn:Hk; simpl in *.
    - destruct Hent as ([Hl Hmo] & Hw & Hd & Hf). destruct (Hd eq_refl) as (d & Hfr & Hok). split_and!; try done. exists d. split; [done|]. by left.
    - naive_solver.
    - naive_solver. }
  rewrite (token_ok _ _ _ _ Hin). mred. rewrite (peek_ok _ _ _ _ Hin). mred. rewrite Hq. simpl. unfold entry_ok in Hent. simpl in Hent.
  destruct (op_kind e) eqn:Hk.
  - destruct Hent as (_ & _ & Hd & _). rewrite Hq in Hd. destruct (Hd eq_refl) as (d & Hfr & _). rewrite Hfr. mred.
    rewrite Hp. mred. eexists. split; [done|]. by destruct d.
  - destruct Hent as (_ & _ & _ & (x & Hx) & Hfit & _). rewrite Hx. mred.
    destruct (region_of s slot g e x Hi Hin Hx Hfit) as (start & ->). mred. rewrite Hp. mred. eexists. by split.
  - mred. rewrite Hp. mred. eexists. by split.
Qed.

(** ** An operation leaves the slab *)

Lemma active_nodup s K : view s K → NoDup (active s).*1.
Proof.
  intros Hv. rewrite (v_active _ _ Hv). pose proof (tokens_nodup _ _ Hv) as Hnd. clear Hv.
  induction K as [|o K IH]; simpl; [apply NoDup_nil_2|]. simpl in Hnd. apply NoDup_cons in Hnd as [Hn Hnd].
  unfold active_of at 1. destruct (is_active _); simpl; [|by apply IH]. apply NoDup_cons. split; [|by apply IH].
  intros (o' & Ho' & Hin)%list_elem_of_bind. unfold active_of in Ho'. destruct (is_active _); [|by apply elem_of_nil in Ho'].
  apply list_elem_of_singleton in Ho'. apply Hn. rewrite Ho'. by apply list_elem_of_fmap_2.
Qed.

Lemma view_remove s K i g e s2 f' a' act hd ds bl df fin ab :
  view s ((i, g, e) :: K) → slab_wf [] s2 → slots s2 = <[N.to_nat i := mkSlot g None]> (slots (slab (shared s))) →
  occupied s2 ≡ₚ K → is_queued (op_state e) = false →
  let s' := mkSystem (mkShared s2 f' (ready (shared s)) bl df) (storage s) a' (arena s) act hd (reserved s) (handles s)
    ds (write_leases s) (issued s) fin ab in
  act.*1 ≡ₚ K ≫= active_of → (∀ p, p ∈ act → p ∈ active s) →
  NoDup (hd.*1 ++ backlog_tokens s') →
  (∀ c t v, c ∈ bl → (t, v) ∈ lease_of c → t = c_token c) →
  (∀ p, p ∈ leases s' → p ∈ leases s) →
  (∀ t, t ∈ backlog_tokens s' → t ∈ backlog_tokens s ∨ t = OpToken_new i g) →
  FileTable.inv (id cfg) (FileTable.mkSystem f' (reserved s) (handles s) ((λ o, op_fd o.2) <$> K) (ds ++ due_deferred df)) →
  vlen K + vlen df ≤ queue_capacity cfg →
  vlen bl + vlen (filter (λ o, entry_token o ∉ backlog_tokens s') K) ≤ queue_capacity cfg →
  WriteArena.leased (WriteArena.mkSystem a' [] (write_leases s ++ (K ≫= slot_of))) →
  WriteArena.owner a' = WriteArena.owner (staging s) → WriteArena.granule a' = WriteArena.granule (staging s) →
  fin ++ ab ≡ₚ final s ++ abandoned s ++ pending_of (i, g, e) →
  view s' K.
Proof.
  intros Hv Hw Hsl Hocc Hq s' Hact Hsub Hnd Htag Hlea Hbt Hfi Hcap Hret Hsta Hown Hgr Hfin.
  pose proof (proj1 (occupied_elem _ _ _ _) (view_elem _ _ _ Hv (list_elem_of_here _ _))) as He.
  pose proof (tokens_nodup _ _ Hv) as Htk. simpl in Htk. apply NoDup_cons in Htk as [Hnew _].
  assert (∀ o, o ∈ K → entry_token o ≠ OpToken_new i g) as Hne.
  { intros o Ho Heq. apply Hnew. change (entry_token (i, g, e)) with (OpToken_new i g). rewrite <- Heq. by apply list_elem_of_fmap_2. }
  split; simpl; try done.
  - rewrite Hsl, vlen_insert. apply (v_slots _ _ Hv).
  - pose proof (v_ready _ _ Hv) as Hr. simpl in Hr. unfold queued_of at 1 in Hr. simpl in Hr. by rewrite Hq in Hr.
  - intros o Ho. pose proof (v_entries _ _ Hv o (list_elem_of_further _ _ _ Ho)) as Hent. unfold entry_ok in *.
    by rewrite Hgr.
  - intros o d Ho Hd. apply (v_attempts _ _ Hv); [by right|by apply Hsub].
  - intros t v Ht. by apply (v_good _ _ Hv), Hlea.
  - intros o v Ho Ht. apply (v_held _ _ Hv); [by right|by apply Hlea].
  - intros o Ho Ht. apply (v_backlog _ _ Hv); [by right|]. destruct (Hbt _ Ht) as [|Heq]; [done|]. by apply Hne in Heq.
  - rewrite Hown, Hgr. apply (v_owner _ _ Hv).
  - rewrite app_assoc, Hfin, (v_issued _ _ Hv). simpl. by rewrite <- !app_assoc.
  - intros t Ht. destruct s2 as [l2 f2]. simpl in Hsl.
    apply (minted_update (slab (shared s)) l2 f2 i (mkSlot g (Some e)) (mkSlot g None)); try done.
    by apply (v_minted _ _ Hv).
  - apply (v_nodup _ _ Hv).
  - intros t Ht. apply (v_known _ _ Hv). rewrite !elem_of_app in *. simpl. rewrite elem_of_cons.
    destruct Ht as [([u v] & -> & Hu)%list_elem_of_fmap|[Ht|Ht]].
    + left. apply Hlea in Hu. by apply (list_elem_of_fmap_2 fst) in Hu.
    + destruct (Hbt _ Ht); auto.
    + auto.
  - apply (v_storage _ _ Hv).
  - apply (v_granule _ _ Hv).
Qed.

(** ** The end of an attempt *)

Lemma release_write_ok s K i g e :
  view s ((i, g, e) :: K) →
  ∃ a, release_write_slot (staging s) e = Done a ∧
    WriteArena.leased (WriteArena.mkSystem a [] (write_leases s ++ (K ≫= slot_of))) ∧
    WriteArena.owner a = WriteArena.owner (staging s) ∧ WriteArena.granule a = WriteArena.granule (staging s).
Proof.
  intros Hv. pose proof (v_staging _ _ Hv) as Hl. simpl in Hl. unfold slot_of at 1 in Hl. simpl in Hl.
  unfold release_write_slot. destruct (op_write_slot e) as [w|]; simpl in Hl; [|by eexists].
  assert (WriteArena.free (staging s) !! N.to_nat w = Some false) as Hf.
  { apply (WriteArena.lease_bit _ w Hl). simpl. apply elem_of_app. right. by left. }
  rewrite (WriteArena.release_ok _ _ Hf). mred. eexists. split; [done|]. split; [|done].
  eapply WriteArena.arena_step_leased; [exact Hl|]. eapply WriteArena.arena_release. by apply WriteArena.release_ok.
Qed.

(** The slab without the operation, its file's count dropped, its leases returned. *)
Definition removed (s : system) (K : entries) (i g : N) (e : OpEntry) (s2 : CompletionSlab OpEntry)
    (f' : FileTable.FileTable) (retiring : bool) : Prop :=
  slab_wf [] s2 ∧ slots s2 = <[N.to_nat i := mkSlot g None]> (slots (slab (shared s))) ∧ occupied s2 ≡ₚ K ∧
  FileTable.inv (id cfg) (FileTable.mkSystem f' (reserved s) (handles s) ((λ o, op_fd o.2) <$> K)
    (if retiring then op_fd e :: due s ++ due_deferred (deferred (shared s)) else due s ++ due_deferred (deferred (shared s)))).

Lemma reclaim_removed s K i g e e0 s1 :
  view s ((i, g, e) :: K) → slab_wf [] s1 → slots s1 = <[N.to_nat i := mkSlot g (Some e0)]> (slots (slab (shared s))) →
  occupied s1 ≡ₚ (i, g, e0) :: K → op_fd e0 = op_fd e →
  ∃ s2 f' retiring, reclaim s1 i = Done (s2, (OpToken_new i g, e0)) ∧
    FileTable.on_complete (files (shared s)) (op_fd e0) = Done (f', retiring) ∧ removed s K i g e s2 f' retiring.
Proof.
  intros Hv Hw Hsl Hocc Hfd. destruct (reclaim_ok s1 i g e0 Hw) as (s2 & Hr & Hw2 & Hs2 & Ho2); [rewrite Hocc; by left|].
  pose proof (v_files _ _ Hv) as Hfi. simpl in Hfi.
  destruct (FileTable.complete_advances _ _ _ _ _ _ Hfi [] (op_fd e) _ eq_refl) as (f' & b & Hc & Hfi' & _).
  exists s2, f', b. rewrite Hfd. split_and!; try done. split_and!; try done.
  - by rewrite Hs2, Hsl, list_insert_insert_eq.
  - rewrite Hocc in Ho2. symmetry. by apply Permutation_cons_inv in Ho2.
Qed.

Lemma finalize_cases s K i g e e0 s1 r d :
  view s ((i, g, e) :: K) → slab_wf [] s1 → slots s1 = <[N.to_nat i := mkSlot g (Some e0)]> (slots (slab (shared s))) →
  occupied s1 ≡ₚ (i, g, e0) :: K → op_fd e0 = op_fd e → op_write_slot e0 = op_write_slot e →
  (op_frame_lease e0 = RawLease → is_Some d) →
  ∃ s2 f' a' d' retiring ab,
    finalize (staging s) (set_slab (shared s) s1) i r d =
      Done (mkShared s2 f' (ready (shared s)) (completion_backlog (shared s)) (deferred (shared s)), a',
        mkCompletion (OpToken_new i g) (op_kind e0) r d' None, if retiring : bool then Some (op_fd e) else None, ab) ∧
    removed s K i g e s2 f' retiring ∧
    WriteArena.leased (WriteArena.mkSystem a' [] (write_leases s ++ (K ≫= slot_of))) ∧
    WriteArena.owner a' = WriteArena.owner (staging s) ∧ WriteArena.granule a' = WriteArena.granule (staging s).
Proof.
  intros Hv Hw Hsl Hocc Hfd Hws Hraw.
  destruct (reclaim_removed s K i g e e0 s1 Hv Hw Hsl Hocc Hfd) as (s2 & f' & b & Hr & Hc & Hrem).
  destruct (release_write_ok s K i g e Hv) as (a' & Ha & Hl & Ho & Hg).
  assert (∃ d' ab, release_frame (op_frame_lease e0) d = Done (d', ab)) as (d' & ab & Hrf).
  { unfold release_frame. destruct (op_frame_lease e0); try by eexists _, _.
    destruct (Hraw eq_refl) as [x ->]. mred. destruct x; by eexists _, _. }
  exists s2, f', a', d', b, ab. unfold finalize. simpl. rewrite Hr. mred. rewrite Hc. mred. rewrite Hrf. mred.
  assert (release_write_slot (staging s) e0 = Done a') as -> by (unfold release_write_slot in *; by rewrite Hws).
  mred. rewrite Hfd. done.
Qed.

Definition held_result (s : system) (K : entries) (i g : N) (e : OpEntry) (s2 : CompletionSlab OpEntry) (e' : OpEntry)
    (v : ReadVector.ReadVector) : Prop :=
  slab_wf [] s2 ∧ slots s2 = <[N.to_nat i := mkSlot g (Some e')]> (slots (slab (shared s))) ∧
  occupied s2 ≡ₚ (i, g, e') :: K ∧ op_fd e' = op_fd e ∧ op_write_slot e' = op_write_slot e ∧
  is_held (op_state e') = true ∧ entry_ok (arena s) (staging s) (i, g, e') ∧
  vector_good (arena s) (OpToken_new i g) v ∧ (is_continuation (op_state e') = true → matches e' v).

(** What [finish_attempt] does with an operation under way. *)
Lemma finish_cases s d r i g e K :
  view s ((i, g, e) :: K) → (OpToken_new i g, d) ∈ active s → op_state e = Active →
  (op_kind e = Read → transferred r ≤ op_requested_len e) →
  (∃ s2 e' v, finish_attempt (Frames.granule (arena s)) (staging s) (shared s) i r d =
      Done (set_slab (shared s) s2, staging s,
        mkCompletion (OpToken_new i g) (op_kind e) r (Some (Vector v)) (Some (OpToken_new i g)), None, []) ∧
      held_result s K i g e s2 e' v) ∨
  (∃ s2 f' a' d' retiring ab, finish_attempt (Frames.granule (arena s)) (staging s) (shared s) i r d =
      Done (mkShared s2 f' (ready (shared s)) (completion_backlog (shared s)) (deferred (shared s)), a',
        mkCompletion (OpToken_new i g) (op_kind e) r d' None, if retiring : bool then Some (op_fd e) else None, ab) ∧
    removed s K i g e s2 f' retiring ∧
    WriteArena.leased (WriteArena.mkSystem a' [] (write_leases s ++ (K ≫= slot_of))) ∧
    WriteArena.owner a' = WriteArena.owner (staging s) ∧ WriteArena.granule a' = WriteArena.granule (staging s)).
Proof.
  intros Hv Hact Hst Hn. assert ((i, g, e) ∈ occupied (slab (shared s))) as Hin by (eapply view_elem; [done|by left]).
  pose proof (v_slab _ _ Hv) as Hw. pose proof (v_attempts _ _ Hv (i, g, e) d ltac:(by left) Hact) as Hao.
  pose proof (v_entries _ _ Hv (i, g, e) ltac:(by left)) as Hent.
  assert (∀ e', ∃ s1, peek_mut (slab (shared s)) i (λ _, e') = Done s1 ∧ slab_wf [] s1 ∧
    slots s1 = <[N.to_nat i := mkSlot g (Some e')]> (slots (slab (shared s))) ∧ occupied s1 ≡ₚ (i, g, e') :: K) as Hpoke.
  { intros e'. destruct (peek_mut_ok _ _ _ _ Hw Hin (λ _, e')) as (s1 & rest & ? & ? & _ & ? & Ho & Ho').
    exists s1. split_and!; try done. rewrite Ho'. constructor. apply (Permutation_cons_inv (a := (i, g, e))). rewrite <- Ho. apply (v_view _ _ Hv). }
  unfold finish_attempt. rewrite (token_ok _ _ _ _ Hin). mred. rewrite (peek_ok _ _ _ _ Hin). mred. rewrite Hst. simpl is_active. cbv iota.
  remember (match d with Some d => Some d | None => op_frame e end) as x eqn:Hx.
  assert (op_frame_lease e = RawLease → is_Some x) as Hraw.
  { intros Hl. unfold entry_ok, active_ok in *. simpl in *. destruct (op_kind e); [|destruct Hent; congruence..].
    rewrite Hx. destruct Hao as (y & _ & [[-> ->]|[-> _]]); done. }
  destruct (Hpoke (set_frame None e)) as (s1 & Hp1 & Hw1 & Hs1 & Ho1).
  assert (∀ y, (op_frame_lease e = RawLease → is_Some y) → ∃ s2 f' a' d' retiring ab,
    finalize (staging s) (set_slab (shared s) s1) i r y =
      Done (mkShared s2 f' (ready (shared s)) (completion_backlog (shared s)) (deferred (shared s)), a',
        mkCompletion (OpToken_new i g) (op_kind e) r d' None, if retiring : bool then Some (op_fd e) else None, ab) ∧
    removed s K i g e s2 f' retiring ∧
    WriteArena.leased (WriteArena.mkSystem a' [] (write_leases s ++ (K ≫= slot_of))) ∧
    WriteArena.owner a' = WriteArena.owner (staging s) ∧ WriteArena.granule a' = WriteArena.granule (staging s)) as Hfin.
  { intros y Hy. by apply (finalize_cases s K i g e (set_frame None e) s1 r y). }
  destruct x as [[f|v]|].
  - right. rewrite Hp1. mred. apply Hfin. by intros.
  - assert (op_kind e = Read ∧ (op_frame_lease e ≠ Absent ∧ mode_ok (op_io_mode e)) ∧ op_write_slot e = None ∧ dest_ok (arena s) (OpToken_new i g) e (Vector v))
      as (Hk & Hle & Hws & (Hgood & Hm1 & Hm2 & Hm3)).
    { unfold entry_ok, active_ok in *. simpl in *. destruct (op_kind e); [|subst d; destruct Hent as (_ & Hf & _); rewrite Hf in Hx; done..].
      destruct Hao as (y & Hy & Hc). destruct Hent as (Hle & Hws & _ & _). do 3 (split; [done|]).
      destruct Hc as [[-> Hf]|[-> _]]; [rewrite Hf in Hx|]; simplify_eq; exact Hy. }
    specialize (Hn Hk). destruct Hgood as ((l & Hb) & Htr & Hop).
    destruct (ReadVector.record_bundle (arena s) (v_granule _ _ Hv) l v (transferred r) Hb) as (v' & Hv' & Hb' & Hf' & Ho').
    { rewrite <- (ReadVector.b_total _ _ _ Hb). lia. }
    assert (ReadVector.frames v' = ReadVector.frames v ∧ ReadVector.operation v' = ReadVector.operation v ∧ ReadVector.total v' = ReadVector.total v) as (Hfr & Hop' & Htot).
    { unfold ReadVector.record_completion in Hv'. inv_done. done. }
    assert (vector_good (arena s) (OpToken_new i g) v') as Hgood'.
    { split_and!; [by exists l|by rewrite Hfr|by rewrite Hop']. }
    simpl op_requested_len. rewrite (proj2 (N.leb_le _ _) Hn). mred. rewrite Hv'. mred.
    destruct ((0 <? transferred r) && (transferred r <? op_requested_len e)) eqn:Hpart.
    + apply andb_true_iff in Hpart as [H0%N.ltb_lt H1%N.ltb_lt]. left. simpl. rewrite add_ok by lia. mred.
      match goal with |- context [peek_mut _ _ (λ _, ?x)] => set (e' := x) end.
      destruct (Hpoke e') as (s2 & -> & Hw2 & Hs2 & Ho2). mred. exists s2, e', v'. split; [done|].
      split_and!; try done.
      * unfold entry_ok. simpl. by rewrite Hk.
      * intros _. unfold matches. simpl. rewrite Hf', Htot. lia.
    + destruct (bool_decide (op_frame_lease (set_frame None e) = PoolLease)) eqn:Hpool.
      * left. destruct (Hpoke (set_state (Terminal r) (set_frame None e))) as (s2 & -> & Hw2 & Hs2 & Ho2). mred.
        eexists s2, _, v'. split; [done|]. split_and!; try done. unfold entry_ok. simpl. by rewrite Hk.
      * right. rewrite Hp1. mred. apply Hfin. by intros.
  - right. rewrite Hp1. mred. by apply Hfin.
Qed.

(** A completion goes to the poller, or waits in the backlog. *)
Section placed.
Context (s : system) (b : bool) (c : Completion).
Definition held_after := if b then held s else lease_of c ++ held s.
Definition backlog_after := if b then completion_backlog (shared s) ++ [c] else completion_backlog (shared s).

Lemma leases_after p :
  p ∈ held_after ++ (backlog_after ≫= lease_of) ↔ p ∈ lease_of c ∨ p ∈ leases s.
Proof.
  unfold held_after, backlog_after, leases. destruct b; [rewrite bind_app; cbn; rewrite app_nil_r|]; rewrite !elem_of_app; tauto.
Qed.

Hypothesis (Htag : ∀ t v, (t, v) ∈ lease_of c → t = c_token c).

Lemma nodup_after :
  c_token c ∉ (held s).*1 → c_token c ∉ backlog_tokens s → NoDup ((held s).*1 ++ backlog_tokens s) →
  NoDup (held_after.*1 ++ (c_token <$> backlog_after)).
Proof.
  intros H1 H2 Hnd. unfold held_after, backlog_after. destruct b.
  - rewrite fmap_app, app_assoc. simpl. apply NoDup_app. split_and!; [done| |apply NoDup_singleton].
    intros x Hx ->%list_elem_of_singleton. apply elem_of_app in Hx as [?|?]; done.
  - rewrite fmap_app, <- app_assoc. unfold lease_of in *. destruct (c_continuation c) as [t|]; [|done].
    destruct (c_frame c) as [[|v]|]; try done. simpl. apply NoDup_cons. split; [|done].
    rewrite (Htag t v) by (by left). rewrite elem_of_app. tauto.
Qed.

Lemma tagged_after K : view s K → ∀ c' t v, c' ∈ backlog_after → (t, v) ∈ lease_of c' → t = c_token c'.
Proof.
  intros Hv c' t v Hc. unfold backlog_after in Hc. destruct b; [|by apply (v_tagged _ _ Hv)].
  apply elem_of_app in Hc as [Hc| ->%list_elem_of_singleton]; [by apply (v_tagged _ _ Hv)|apply Htag].
Qed.

Lemma tokens_after t : t ∈ c_token <$> backlog_after → t ∈ backlog_tokens s ∨ t = c_token c ∧ b = true.
Proof.
  unfold backlog_after. destruct b; [|by left]. rewrite fmap_app. intros [?| ->%list_elem_of_singleton]%elem_of_app; [by left|by right].
Qed.

(** The load of the backlog: the operation's own place pays for its completion. *)
Lemma retained_after (o o' : N * N * OpEntry) (K K' : entries) :
  entry_token o = c_token c → entry_token o' = c_token c → K' = K ∨ K' = o' :: K →
  c_token c ∉ backlog_tokens s → (∀ x, x ∈ K → entry_token x ≠ c_token c) →
  vlen (completion_backlog (shared s)) + vlen (filter (λ x, entry_token x ∉ backlog_tokens s) (o :: K)) ≤ queue_capacity cfg →
  vlen backlog_after + vlen (filter (λ x, entry_token x ∉ c_token <$> backlog_after) K') ≤ queue_capacity cfg.
Proof.
  intros Ho Ho' HK' Hnew Hne Hr. rewrite filter_cons_True in Hr by (by rewrite Ho).
  assert (filter (λ x, entry_token x ∉ c_token <$> backlog_after) K = filter (λ x, entry_token x ∉ backlog_tokens s) K) as Hf.
  { apply filter_ext_elem. intros x Hx. unfold backlog_after, backlog_tokens. destruct b; [|done].
    rewrite fmap_app, not_elem_of_app. simpl. rewrite list_elem_of_singleton. naive_solver. }
  assert (vlen (filter (λ x, entry_token x ∉ c_token <$> backlog_after) K') ≤
    (if b then 0 else 1) + vlen (filter (λ x, entry_token x ∉ c_token <$> backlog_after) K)) as Hle.
  { destruct HK' as [->| ->]; [lia|]. rewrite filter_cons. destruct b eqn:Hb.
    - rewrite decide_False; [lia|]. intros Hn. apply Hn. rewrite Ho'. unfold backlog_after. rewrite Hb.
      rewrite fmap_app, elem_of_app. right. by left.
    - case_decide; unfold vlen; simpl; lia. }
  rewrite Hf in Hle. unfold vlen in *. unfold backlog_after at 1. destruct b; [rewrite length_app; simpl in *|simpl in *]; lia.
Qed.
End placed.

Lemma continuations_perm K K' : K ≡ₚ K' → continuations K ≡ₚ continuations K'.
Proof. intros Hp. unfold continuations. by rewrite Hp. Qed.

Lemma continuations_elem (o : N * N * OpEntry) K t :
  (∀ x, x ∈ K → entry_token x ≠ t) → t ∈ continuations (o :: K) ↔ is_continuation (op_state o.2) = true ∧ entry_token o = t.
Proof.
  intros Hne. unfold continuations. rewrite list_elem_of_fmap. split.
  - intros (x & Ht & [Hc [->|Hx]%elem_of_cons]%list_elem_of_filter); [done|]. by destruct (Hne x Hx).
  - intros [Hc <-]. exists o. split; [done|]. apply list_elem_of_filter. split; [done|by left].
Qed.

(** [attempted] and the placing of its completion. *)
Definition settle (s : system) (b : bool) (sh : Shared) (a : WriteArena.ArenaState) (c : Completion) (fd : option FileId) : system :=
  set_held (held_after s b c) (attempted s (set_backlog sh (backlog_after s b c)) a c fd).

(** An operation under way, with its token nowhere else. *)
Record under_way (s : system) (K : entries) (i g : N) (e : OpEntry) : Prop := {
  u_view : view s ((i, g, e) :: K);
  u_active : op_state e = Active;
}.

Section under_way.
Context (s : system) (K : entries) (i g : N) (e : OpEntry).
Hypothesis (Hu : under_way s K i g e).
Abbreviation t := (OpToken_new i g).

Lemma uw_without : (without t (active s)).*1 ≡ₚ K ≫= active_of.
Proof.
  destruct Hu as [Hv Hst]. apply without_perm; [by eapply active_nodup|]. pose proof (v_active _ _ Hv) as Hac. simpl in Hac.
  unfold active_of at 1 in Hac. simpl in Hac. by rewrite Hst in Hac.
Qed.

Lemma uw_fresh : (∀ v, (t, v) ∉ leases s) ∧ (t ∉ backlog_tokens s) ∧ (t ∉ (held s).*1).
Proof. destruct Hu as [Hv Hst]. apply (busy_not_leased s _ (i, g, e) Hv); [by left|simpl; by rewrite Hst]. Qed.

Lemma uw_ne o : o ∈ K → entry_token o ≠ t.
Proof.
  intros Ho Heq. pose proof (tokens_nodup _ _ (u_view _ _ _ _ _ Hu)) as Htk. simpl in Htk. apply NoDup_cons in Htk as [Hnew _].
  apply Hnew. change (entry_token (i, g, e)) with t. rewrite <- Heq. by apply list_elem_of_fmap_2.
Qed.

(** It comes to hold a lease. *)
Lemma hold_view b e' v s2 c fin :
  held_result s K i g e s2 e' v → c_token c = t → lease_of c = [(t, v)] →
  fin ++ pending_of (i, g, e') ≡ₚ final s ++ pending_of (i, g, e) →
  view (mkSystem (mkShared s2 (files (shared s)) (ready (shared s)) (backlog_after s b c) (deferred (shared s)))
    (storage s) (staging s) (arena s) (without t (active s)) (held_after s b c) (reserved s) (handles s) (due s)
    (write_leases s) (issued s) fin (abandoned s)) ((i, g, e') :: K).
Proof.
  intros (Hw & Hsl & Hocc & Hfd & Hws & Hhe & Hent & Hgood & Hm) Hct Hl Hfin.
  pose proof Hu as [Hv Hst]. destruct uw_fresh as (Hnl & Hnb & Hnh).
  assert (∀ t' v', (t', v') ∈ lease_of c → t' = c_token c ∧ v' = v) as Htag.
  { intros t' v'. rewrite Hl, Hct. intros [= -> ->]%list_elem_of_singleton. done. }
  apply (view_store s K i g e e' s2 (storage s) (without t (active s)) (held_after s b c) (ready (shared s))
    (backlog_after s b c) fin Hv Hw Hsl Hocc Hfd Hws); try done; try apply (v_storage _ _ Hv).
  - pose proof (v_ready _ _ Hv) as Hr. simpl in Hr. unfold queued_of at 1 in Hr. simpl in Hr. rewrite Hst in Hr. simpl in Hr.
    unfold queued_of at 1. simpl. by destruct (op_state e').
  - rewrite uw_without. unfold active_of at 2. simpl. by destruct (op_state e').
  - apply nodup_after; rewrite ?Hct; try done; [intros ? ? ?%Htag; naive_solver|apply (v_leases _ _ Hv)].
  - intros c' u w. apply (tagged_after s b c) with (2 := Hv). intros ? ? ?%Htag. naive_solver.
  - intros o x [->|Ho]%elem_of_cons [Hx Hx']%assoc_without_elem; [done|]. apply (v_attempts _ _ Hv); [by right|done].
  - intros t' v' Hin. apply (leases_after s b c) in Hin as [[-> ->]%Htag|Hin]; [by rewrite Hct|by apply (v_good _ _ Hv)].
  - intros o v' [->|Ho]%elem_of_cons Hin; apply (leases_after s b c) in Hin as [[Ht ->]%Htag|Hin].
    + done.
    + by apply Hnl in Hin.
    + rewrite Hct in Ht. by apply uw_ne in Ht.
    + apply (v_held _ _ Hv); [by right|done].
  - intros o [->|Ho]%elem_of_cons Hin; [done|]. apply (tokens_after s b c) in Hin as [Hin|[Hin _]].
    + apply (v_backlog _ _ Hv); [by right|done].
    + rewrite Hct in Hin. by apply uw_ne in Hin.
  - apply (retained_after s b c (i, g, e) (i, g, e') K); rewrite ?Hct; try done; [by right|apply uw_ne|apply (v_retained _ _ Hv)].
  - intros x [Hx|Hx]%elem_of_app; apply (v_known _ _ Hv); rewrite !elem_of_app.
    + apply list_elem_of_fmap in Hx as ([u w] & -> & Hin). apply (leases_after s b c) in Hin as [[-> ->]%Htag|Hin].
      * right; right. rewrite Hct. by left.
      * left. by apply (fst_elem u w).
    + apply (tokens_after s b c) in Hx as [Hx|[-> _]]; [by right; left|]. right; right. rewrite Hct. by left.
Qed.

(** It leaves the slab. *)
Lemma final_view b s2 f' a' ret c :
  removed s K i g e s2 f' ret → c_token c = t → lease_of c = [] →
  WriteArena.leased (WriteArena.mkSystem a' [] (write_leases s ++ (K ≫= slot_of))) →
  WriteArena.owner a' = WriteArena.owner (staging s) → WriteArena.granule a' = WriteArena.granule (staging s) →
  view (mkSystem (mkShared s2 f' (ready (shared s)) (backlog_after s b c) (deferred (shared s)))
    (storage s) a' (arena s) (without t (active s)) (held_after s b c) (reserved s) (handles s)
    (option_list (if ret then Some (op_fd e) else None) ++ due s) (write_leases s) (issued s) (t :: final s) (abandoned s)) K.
Proof.
  intros (Hw & Hsl & Hocc & Hfi) Hct Hl Hle Hown Hgr. pose proof Hu as [Hv Hst]. destruct uw_fresh as (Hnl & Hnb & Hnh).
  assert (∀ t' v', (t', v') ∈ lease_of c → t' = c_token c) as Htag by (intros ? ?; rewrite Hl; by intros ?%elem_of_nil).
  apply (view_remove s K i g e s2 f' a' (without t (active s)) (held_after s b c) _ (backlog_after s b c)
    (deferred (shared s)) (t :: final s) (abandoned s) Hv Hw Hsl Hocc); try done.
  - by rewrite Hst.
  - apply uw_without.
  - intros p Hp. by apply assoc_without_elem in Hp as [? _].
  - apply (nodup_after s b c Htag); rewrite ?Hct; try done; apply (v_leases _ _ Hv).
  - intros c' u w. by apply (tagged_after s b c) with (2 := Hv).
  - intros p Hin. apply (leases_after s b c) in Hin as [Hin|Hin]; [|done]. rewrite Hl in Hin. by apply elem_of_nil in Hin.
  - intros x Hx. apply (tokens_after s b c) in Hx as [Hx|[-> _]]; [by left|by right].
  - by destruct ret.
  - pose proof (v_capacity _ _ Hv) as Hc. unfold vlen in *. simpl in *. lia.
  - apply (retained_after s b c (i, g, e) (i, g, e) K); rewrite ?Hct; try done; [by left|apply uw_ne|apply (v_retained _ _ Hv)].
  - unfold pending_of. simpl. rewrite Hst, app_assoc. apply Permutation_cons_append.
Qed.

Lemma attempt_view b d r :
  (t, d) ∈ active s → (op_kind e = Read → transferred r ≤ op_requested_len e) →
  ∃ sh a c fd ab, finish_attempt (Frames.granule (arena s)) (staging s) (shared s) i r d = Done (sh, a, c, fd, ab) ∧
    c_token c = t ∧ completion_backlog sh = completion_backlog (shared s) ∧ inv (settle s b sh a c fd).
Proof.
  intros Hact Hn. pose proof Hu as [Hv Hst].
  destruct (finish_cases s d r i g e K Hv Hact Hst Hn)
    as [(s2 & e' & v & Hf & Hh)|(s2 & f' & a' & d' & ret & ab & Hf & Hr & Hle & Hown & Hgr)];
    eexists _, _, _, _, _; (split; [exact Hf|]); (split; [done|]); (split; [done|]); unfold settle, attempted; simpl.
  - pose proof Hh as (_ & _ & Hocc & _ & _ & Hhe & _).
    match goal with |- context [decide ?P] => destruct (decide P) as [Hd|Hd] end;
      rewrite (continuations_perm _ _ Hocc), (continuations_elem (i, g, e') K t uw_ne) in Hd; simpl in Hd;
      (eapply view_inv; apply (hold_view b e' v s2); try done; unfold pending_of; simpl; rewrite Hst).
    + destruct Hd as [Hd _]. by destruct (op_state e').
    + destruct (op_state e') eqn:He'; simpl in *; try done; [by destruct Hd|]. rewrite app_nil_r. apply Permutation_cons_append.
  - pose proof Hr as (_ & _ & Hocc & _). rewrite decide_False.
    + eapply view_inv. by apply (final_view b s2 f' a' ret).
    + rewrite (continuations_perm _ _ Hocc). intros (o & Ho & [_ Hin]%list_elem_of_filter)%list_elem_of_fmap.
      symmetry in Ho. by apply uw_ne in Ho.
Qed.
End under_way.

Lemma under_way_of s t n :
  inv s → t ∈ (active s).*1 → asks s t n →
  ∃ K i g e d, under_way s K i g e ∧ t = OpToken_new i g ∧ OpToken_slot t = i ∧ (t, d) ∈ active s ∧
    assoc t (active s) = Some d ∧ op_requested_len e = n ∧ occupied (slab (shared s)) ≡ₚ (i, g, e) :: K.
Proof.
  intros Hi Ht (o & Ho & Heq & Hn). destruct (active_entry s _ t Hi Ht) as (i & g & e & -> & Hin & Hst).
  assert (o = (i, g, e)) as -> by (by eapply (token_uniq s)). simpl in Hn.
  destruct (split_view s (i, g, e) Hi Hin) as (K & HK & Hv).
  apply list_elem_of_fmap in Ht as ([u d] & Hu & Hd). simpl in Hu. subst u.
  exists K, i, g, e, d. split_and!; try done; [exact (slot_of_token s _ i g e Hi Hin)|apply assoc_elem; [by eapply active_nodup|done]].
Qed.

Lemma set_backlog_id sh : set_backlog sh (completion_backlog sh) = sh.
Proof. by destruct sh. Qed.

Lemma publish_view s t r : inv s → enabled s (CPublish t r) → ∃ s', exec s (CPublish t r) = Done s' ∧ inv s'.
Proof.
  intros Hi [Ht (n & Ha & Hn)]. destruct (under_way_of s t n Hi Ht Ha) as (K & i & g & e & d & Hu & -> & Hs & Hd & Hao & <- & _).
  destruct (attempt_view s K i g e Hu false d r Hd (λ _, Hn)) as (sh & a & c & fd & ab & Hf & Hc & Hb & Hinv).
  simpl. rewrite Hao. mred. rewrite Hs, Hf. mred. eexists. split; [done|]. unfold settle, held_after, backlog_after in Hinv.
  by rewrite <- Hb, set_backlog_id in Hinv.
Qed.

Lemma backlog_room s K i g e : under_way s K i g e → vlen (completion_backlog (shared s)) < queue_capacity cfg.
Proof.
  intros Hu. pose proof (v_retained _ _ (u_view _ _ _ _ _ Hu)) as Hr.
  rewrite filter_cons_True in Hr by (by apply (uw_fresh s K i g e)). unfold vlen in *. simpl in Hr. lia.
Qed.

Lemma set_held_id s sh a c fd : set_held (held s) (attempted s sh a c fd) = attempted s sh a c fd.
Proof. unfold attempted. by case_decide. Qed.

Lemma publish_backlog_view s t r : inv s → enabled s (CPublishBacklog t r) → ∃ s', exec s (CPublishBacklog t r) = Done s' ∧ inv s'.
Proof.
  intros Hi [Ht (n & Ha & Hn)]. destruct (under_way_of s t n Hi Ht Ha) as (K & i & g & e & d & Hu & -> & Hs & Hd & Hao & <- & _).
  destruct (attempt_view s K i g e Hu true d r Hd (λ _, Hn)) as (sh & a & c & fd & ab & Hf & Hc & Hb & Hinv).
  simpl. rewrite Hao. mred. unfold publish_to_backlog_locked. rewrite Hs, Hf. mred. rewrite Hb.
  rewrite (proj2 (N.ltb_lt _ _) (backlog_room s K i g e Hu)). simpl. rewrite last_snoc. mred. eexists. split; [done|].
  unfold settle, held_after, backlog_after in Hinv. by rewrite set_held_id in Hinv.
Qed.

Lemma ring_cases e raw :
  (op_kind e = Write → op_destination_offset e + op_requested_len e ≤ U32_MAX ∧ op_file_offset e + op_requested_len e ≤ U64_MAX) →
  (raw ≤ Z.of_N (op_requested_len e))%Z →
  ∃ r p, ring_progress (ring_entry e) raw (retry_bound cfg) = Done (r, p) ∧
    match p with
    | Execute.Terminal res => r = ring_entry e ∧ (op_kind e = Read → transferred res ≤ op_requested_len e)
    | Resubmit =>
        re_file_offset r + re_requested_len r = op_file_offset e + op_requested_len e ∧
        re_destination_offset r + re_requested_len r = op_destination_offset e + op_requested_len e ∧
        (op_kind e ≠ Write → re_requested_len r = op_requested_len e)
    end.
Proof.
  intros Hw Hraw. unfold ring_progress. simpl. destruct (ring_should_retry _ _ _ _); [by eexists _, _|].
  destruct (op_kind e) eqn:Hk; simpl.
  - eexists _, _. split; [done|]. split; [done|]. intros _. unfold ring_result. destruct (Z.ltb_spec raw 0); simpl; lia.
  - destruct (Z.ltb_spec raw 0) as [|Hr]; [by eexists _, _|]. rewrite (proj2 (N.leb_le (Z.to_N raw) (op_requested_len e))) by lia. mred.
    destruct (Hw eq_refl). destruct (N.eqb_spec (Z.to_N raw) (op_requested_len e)).
    { rewrite add_ok by lia. mred. by eexists _, _. }
    destruct (N.eqb_spec (Z.to_N raw) 0); [destruct (_ <=? _); by eexists _, _|].
    rewrite add_ok by lia. mred. rewrite add_ok by lia. mred. eexists _, _. split; [done|]. simpl. split_and!; [lia..|done].
  - by eexists _, _.
Qed.

Lemma apply_ring_id e : apply_ring (ring_entry e) e = e.
Proof. by destruct e. Qed.

Lemma reap_view s t raw : inv s → enabled s (CReap t raw) → ∃ s', exec s (CReap t raw) = Done s' ∧ inv s'.
Proof.
  intros Hi [Hd (n & Ha & Hn)].
  destruct (under_way_of s t n Hi (fst_elem _ _ _ Hd) Ha) as (K & i & g & e & d & Hu & -> & Hs & Hd' & Hao & <- & Hocc).
  rewrite (assoc_elem _ None _ (active_nodup _ _ Hi) Hd) in Hao. injection Hao as <-. clear Hd'.
  pose proof Hu as [Hv Hst]. assert ((i, g, e) ∈ occupied (slab (shared s))) as Hin by (rewrite Hocc; by left).
  pose proof (v_slab _ _ Hv) as Hw. pose proof (v_entries _ _ Hv _ (list_elem_of_here _ _)) as Hent.
  pose proof (v_attempts _ _ Hv _ _ (list_elem_of_here _ _) Hd) as Hao.
  unfold exec, reap_one. rewrite (contains_ok _ _ _ _ Hw Hin). mred. rewrite Hs. rewrite (peek_ok _ _ _ _ Hin). mred.
  destruct (ring_cases e raw) as (r & p & Hr & Hp); [|done|].
  { intros Hk. unfold entry_ok in Hent. simpl in Hent. rewrite Hk in Hent. pose proof (v_owner _ _ Hv). naive_solver lia. }
  rewrite Hr. mred. destruct p as [|res].
  - destruct Hp as (Hp1 & Hp2 & Hp3).
    destruct (peek_mut_ok _ _ _ _ Hw Hin (λ _, set_state Queued (apply_ring r e))) as (s2 & rest & -> & Hw2 & _ & Hs2 & Ho & Ho'). mred.
    assert (rest ≡ₚ K) as HK by (apply (Permutation_cons_inv (a := (i, g, e))); by rewrite <- Ho). rewrite HK in Ho'.
    eexists. split; [done|]. eapply view_inv.
    apply (view_move s K i g e (set_state Queued (apply_ring r e)) s2 (without (OpToken_new i g) (active s)) (ready (shared s) ++ [i]) (storage s));
      try done; try apply (v_storage _ _ Hv).
    + by rewrite Hst.
    + pose proof (v_ready _ _ Hv) as Hrd. simpl in Hrd. unfold queued_of at 1 in Hrd. simpl in Hrd. rewrite Hst in Hrd. simpl in Hrd.
      unfold queued_of at 1. simpl. rewrite Hrd. symmetry. apply Permutation_cons_append.
    + by apply (uw_without s K i g e).
    + unfold entry_ok, active_ok in *. simpl in *. destruct (op_kind e) eqn:Hk.
      * destruct Hent as ([Hl Hmo] & Hx & _ & _). destruct Hao as (x & Hok & [[_ Hfr]|[? _]]); [|done]. split_and!; try done.
        intros _. exists x. split; [done|]. destruct x as [f|v]; [done|]. destruct Hok as [Hg (Hm1 & Hm2 & Hm3)].
        split; [done|]. unfold matches. simpl. rewrite Hp3 by done. rewrite Hp3 in Hp1 by done. lia.
      * destruct Hent as (Hl & Hx & _ & Hwx & Hb1 & Hb2). split_and!; try done; lia.
      * naive_solver.
    + by intros d [_ ?]%assoc_without_elem.
    + by intros u d _ [? _]%assoc_without_elem.
  - destruct Hp as [-> Hp]. rewrite apply_ring_id, (peek_mut_id _ _ _ _ Hw Hin). mred.
    destruct (attempt_view s K i g e Hu false None res Hd Hp) as (sh & a & c & fd & ab & Hf & Hc & Hb & Hinv).
    assert (set_slab (shared s) (slab (shared s)) = shared s) as -> by (by destruct (shared s)).
    rewrite Hf. mred. eexists. split; [done|]. unfold settle, held_after, backlog_after in Hinv.
    by rewrite <- Hb, set_backlog_id in Hinv.
Qed.
End system.

End DriverSystem.
