(* ===== verification/DriverSafety.v ===== *)
(** * The driver never panics and accounts for every operation

    The rest of the invariant proof of [DriverSystem] (submissions, leases, files,
    staging slots, the frame arena) and the theorems drawn from it. *)
From stdpp Require Import prelude list relations.
From Stdlib Require Import NArith ZArith Lia.
From S2P Require Import Prelude Ids Frames Alignment WriteArena FileTable Execute ReadVector Slab Driver DriverSystem.

Open Scope N_scope.

Module DriverSafety.
Import CompletionSlab Execute Driver DriverSystem.

Section safety.
Context (cfg : Config).
Abbreviation view := (view cfg).
Abbreviation inv := (inv cfg).

(** ** Parts of the system that change alone *)

Lemma view_abandoned s K A : view s K → A ≡ₚ abandoned s → view (set_abandoned A s) K.
Proof. intros []. intros HA. split; simpl; try done. by rewrite HA. Qed.

Lemma view_files s K f rs hs ds :
  view s K →
  FileTable.inv (id cfg) (FileTable.mkSystem f rs hs ((λ o, op_fd o.2) <$> K) (ds ++ due_deferred (deferred (shared s)))) →
  view (set_due ds (set_handles hs (set_reserved rs (set_shared (set_files (shared s) f) s)))) K.
Proof. intros []. split; done. Qed.

Lemma view_held s K hd :
  view s K → (∀ p, p ∈ hd → p ∈ held s) → NoDup hd.*1 → view (set_held hd s) K.
Proof.
  intros Hv Hsub Hnd.
  assert (∀ p, p ∈ leases (set_held hd s) → p ∈ leases s) as Hl.
  { intros p. unfold leases. simpl. rewrite !elem_of_app. intros [?|?]; auto. }
  destruct Hv as [H1 H2 H3 H4 H5 H6 H7 H8 H9 H10 H11 H12 H13 H14 H15 H16 H17 H18 H19 H20 H21 H22 H23]. split; simpl; try done.
  - apply NoDup_app in H6 as (_ & Hd & Hn). apply NoDup_app. split_and!; [done| |done].
    intros t ([u v] & -> & Hin)%list_elem_of_fmap. apply Hd. apply Hsub in Hin. by apply (fst_elem u v).
  - intros t v Hin. by apply H10, Hl.
  - intros o v Ho Hin. by apply H11, Hl.
  - intros t Ht. apply H21. rewrite !elem_of_app in *. destruct Ht as [([u v] & -> & Hin)%list_elem_of_fmap|Ht]; [|by right].
    left. apply Hl in Hin. by apply (fst_elem u v).
Qed.

Lemma held_nodup s K : view s K → NoDup (held s).*1.
Proof. intros Hv. pose proof (v_leases _ _ _ Hv) as Hnd. by apply NoDup_app in Hnd as [? _]. Qed.

Lemma without_nodup s K t : view s K → NoDup (without t (held s)).*1.
Proof.
  intros Hv. pose proof (held_nodup s K Hv) as Hnd. eapply sublist_NoDup; [exact Hnd|]. apply fmap_sublist, sublist_filter.
Qed.

(** ** Leases *)

(** Operations that leave the slab together. *)
Lemma lost_split before after R K :
  occupied (slab before) ≡ₚ R ++ K → occupied (slab after) ≡ₚ K → NoDup (entry_token <$> R ++ K) →
  lost before after ≡ₚ continuations R.
Proof.
  intros Hb Ha Hnd. unfold lost. rewrite (continuations_perm _ _ Hb). unfold continuations at 1. rewrite filter_app, fmap_app, filter_app.
  rewrite fmap_app in Hnd. apply NoDup_app in Hnd as (_ & Hd & _). unfold live_tokens.
  rewrite (filter_all _ (entry_token <$> filter _ R)), (filter_none _ (entry_token <$> filter _ K)).
  - rewrite app_nil_r. done.
  - intros t (o & -> & [_ Ho]%list_elem_of_filter)%list_elem_of_fmap Hn. apply Hn. rewrite Ha. by apply list_elem_of_fmap_2.
  - intros t (o & -> & [_ Ho]%list_elem_of_filter)%list_elem_of_fmap. rewrite Ha. apply Hd. by apply list_elem_of_fmap_2.
Qed.

Lemma pending_held (o : N * N * OpEntry) : is_held (op_state o.2) = true → pending_of o = continuations [o].
Proof.
  intros Hh. unfold pending_of, continuations. rewrite filter_cons, filter_nil.
  destruct (op_state o.2) eqn:Hs; try done; by case_decide.
Qed.

Lemma held_read s K o : view s K → o ∈ K → is_held (op_state o.2) = true → op_kind o.2 = Read ∧ op_frame o.2 = None.
Proof.
  intros Hv Ho Hh. pose proof (v_entries _ _ _ Hv o Ho) as Hent. unfold entry_ok in Hent.
  destruct (op_kind o.2); [|naive_solver congruence..]. destruct Hent as (_ & _ & _ & Hf). split; [done|by apply Hf].
Qed.

(** [release_read_lease] of a held operation. *)
Lemma release_view s K i g e :
  view s ((i, g, e) :: K) → is_held (op_state e) = true →
  ∃ sh, release_read_lease cfg (shared s) i = Done sh ∧
    view (set_abandoned (continuations [(i, g, e)] ++ abandoned s) (set_shared sh s)) K.
Proof.
  intros Hv Hh. destruct (held_read s _ (i, g, e) Hv ltac:(by left) Hh) as [Hk Hf]. simpl in Hk, Hf.
  assert ((i, g, e) ∈ occupied (slab (shared s))) as Hin by (eapply view_elem; [done|by left]).
  destruct (reclaim_ok _ _ _ _ (v_slab _ _ _ Hv) Hin) as (s2 & Hr & Hw2 & Hs2 & Ho2).
  assert (occupied s2 ≡ₚ K) as Hocc.
  { symmetry. apply (Permutation_cons_inv (a := (i, g, e))). rewrite <- Ho2. symmetry. apply (v_view _ _ _ Hv). }
  pose proof (v_files _ _ _ Hv) as Hfi. simpl in Hfi.
  destruct (FileTable.complete_advances _ _ _ _ _ _ Hfi [] (op_fd e) _ eq_refl) as (f' & b & Hc & Hfi' & _).
  pose proof (v_capacity _ _ _ Hv) as Hcap.
  unfold release_read_lease. rewrite Hr. mred.
  assert (∃ res, match op_state e with Continuation => Done (inr EIO) | Terminal o => Done o | _ => Panic end = Done res) as (res & ->)
    by (destruct (op_state e); try done; by eexists). mred.
  rewrite Hf. mred. rewrite Hc. mred.
  rewrite (proj2 (N.ltb_lt (vlen (deferred (shared s))) (queue_capacity cfg))) by (unfold vlen in *; simpl in *; lia).
  eexists. split; [done|].
  assert (is_active (op_state e) = false ∧ is_queued (op_state e) = false) as [Hna Hnq] by (by destruct (op_state e)).
  apply (view_remove cfg s K i g e s2 f' (staging s) (active s) (held s) (due s) (completion_backlog (shared s)) _ (final s) _
    Hv Hw2 Hs2 Hocc); try done.
  - pose proof (v_active _ _ _ Hv) as Ha. simpl in Ha. unfold active_of at 1 in Ha. simpl in Ha. by rewrite Hna in Ha.
  - apply (v_leases _ _ _ Hv).
  - apply (v_tagged _ _ _ Hv).
  - intros t Ht. by left.
  - refine (FileTable.inv_perm _ _ _ _ _ _ _ _ _ _ Hfi'); [done|]. unfold due_deferred. rewrite bind_app. simpl. rewrite app_nil_r.
    rewrite app_assoc. destruct b; simpl; [|by rewrite app_nil_r]. apply Permutation_cons_append.
  - unfold vlen in *. rewrite length_app. simpl in *. lia.
  - pose proof (v_retained _ _ _ Hv) as Hret. rewrite filter_cons in Hret. unfold backlog_tokens in *. simpl in *.
    case_decide; unfold vlen in *; simpl in *; lia.
  - pose proof (v_staging _ _ _ Hv) as Hsta. simpl in Hsta. unfold slot_of at 1 in Hsta. simpl in Hsta.
    pose proof (v_entries _ _ _ Hv (i, g, e) ltac:(by left)) as Hent. unfold entry_ok in Hent. simpl in Hent. rewrite Hk in Hent.
    destruct Hent as (_ & Hwn & _). by rewrite Hwn in Hsta.
  - rewrite (pending_held (i, g, e) Hh). by rewrite (Permutation_app_comm (continuations _)).
Qed.

Lemma nodup_split s R K : view s (R ++ K) → NoDup (entry_token <$> R ++ K).
Proof. apply tokens_nodup. Qed.

Lemma drop_view s t :
  inv s → t ∈ issued s → (∀ o, o ∈ occupied (slab (shared s)) → entry_token o = t → is_held (op_state o.2) = true) →
  ∃ sh, drop_continuation cfg (shared s) t = Done sh ∧ inv (released s sh).
Proof.
  intros Hi Ht Hheld. unfold drop_continuation. pose proof (v_slab _ _ _ Hi) as Hw. pose proof (w_width _ _ Hw) as Hwd.
  assert (OpToken_slot t < vlen (slots (slab (shared s)))) as Hlt.
  { destruct (v_minted _ _ _ Hi t Ht) as (i & g & e & -> & Hs & _). apply vget_lt in Hs. rewrite OpToken_slot_new; lia. }
  destruct (contains_iff [] _ t Hw Hlt) as (b & -> & Hb). mred. destruct b.
  - destruct (proj1 Hb eq_refl) as ([[i g] e] & Hin & Heq). pose proof (Hheld _ Hin Heq) as Hh. simpl in Hh.
    unfold entry_token in Heq. simpl in Heq. subst t. rewrite (slot_of_token cfg s _ i g e Hi Hin), (peek_ok _ _ _ _ Hin). mred. rewrite Hh.
    destruct (split_view cfg s _ Hi Hin) as (K & HK & Hv). destruct (release_view s K i g e Hv Hh) as (sh & -> & Hv').
    exists sh. split; [done|]. refine (view_inv _ _ _ (view_abandoned _ K (lost (shared s) sh ++ abandoned s) Hv' _)).
    simpl. apply Permutation_app_tail. apply (lost_split (shared s) sh [(i, g, e)] K); [done|apply (v_view _ _ _ Hv')|by eapply tokens_nodup].
  - exists (shared s). split; [done|].
    refine (view_inv _ _ _ (view_abandoned s _ (lost (shared s) (shared s) ++ abandoned s) Hi _)).
    apply (Permutation_app_tail (l' := []) (abandoned s)).
    apply (lost_split (shared s) (shared s) [] (occupied (slab (shared s)))); [done|done|by eapply tokens_nodup].
Qed.

Lemma drop_lease_view s t : inv s → enabled cfg s (CDropLease t) → ∃ s', exec cfg s (CDropLease t) = Done s' ∧ inv s'.
Proof.
  intros Hi Ht. simpl in Ht. pose proof Ht as ([u v] & -> & Hin)%list_elem_of_fmap. simpl in *.
  assert ((u, v) ∈ leases s) as Hl by (unfold leases; set_solver).
  destruct (drop_view s u Hi) as (sh & -> & Hi').
  - apply (v_known _ _ _ Hi). rewrite elem_of_app. left. by apply (fst_elem u v).
  - intros o Ho <-. by apply (v_held _ _ _ Hi o v).
  - mred. eexists. split; [done|]. eapply view_inv, view_held; [exact Hi'| |].
    + by intros p [? _]%assoc_without_elem.
    + by apply (without_nodup s _ u Hi).
Qed.

Lemma abandon_steps n slot s K :
  view s K → slot + N.of_nat n ≤ queue_capacity cfg →
  ∃ sh R K', abandon_from cfg n slot (shared s) = Done sh ∧ K ≡ₚ R ++ K' ∧
    view (set_abandoned (continuations R ++ abandoned s) (set_shared sh s)) K' ∧
    (∀ o, o ∈ R → is_held (op_state o.2) = true) ∧
    (∀ o, o ∈ K' → slot ≤ o.1.1 → o.1.1 < slot + N.of_nat n → is_held (op_state o.2) = false).
Proof.
  revert slot s K. induction n as [|n IH]; intros slot s K Hv Hn; simpl.
  - exists (shared s), [], K. split_and!; try done; [by destruct s|set_solver|intros; lia].
  - destruct (vget_ok (slots (slab (shared s))) slot) as ([g o] & -> & Hs); [rewrite (v_slots _ _ _ Hv); lia|]. mred.
    assert (∀ x, x ∈ K → x.1.1 = slot → ∃ e, o = Some e ∧ x = (slot, g, e)) as Hat.
    { intros [[i g'] e] Hx%(view_elem cfg s K _ Hv) Hi. simpl in Hi. subst i. apply occupied_elem in Hx. simplify_eq. by exists e. }
    assert (¬ (∃ e, o = Some e ∧ is_held (op_state e) = true) → ∃ sh R K', abandon_from cfg n (slot + 1) (shared s) = Done sh ∧
      K ≡ₚ R ++ K' ∧ view (set_abandoned (continuations R ++ abandoned s) (set_shared sh s)) K' ∧
      (∀ o, o ∈ R → is_held (op_state o.2) = true) ∧
      (∀ x, x ∈ K' → slot ≤ x.1.1 → x.1.1 < slot + N.of_nat (S n) → is_held (op_state x.2) = false)) as Hskip.
    { intros Hno. destruct (IH (slot + 1) s K Hv) as (sh & R & K' & Hsh & HK & Hv' & HR & HK'); [lia|].
      exists sh, R, K'. split_and!; try done. intros x Hx Hlo Hhi. destruct (decide (x.1.1 = slot)) as [Heq|]; [|apply HK'; [done|lia..]].
      destruct (Hat x) as (e & He & ->); [rewrite HK; set_solver|done|]. simpl. apply not_true_iff_false. naive_solver. }
    destruct o as [e|]; cbn [payload]; [|mred; apply Hskip; naive_solver].
    destruct (is_held (op_state e)) eqn:Hh; [|mred; apply Hskip; intros (? & [= <-] & ?); congruence]. clear Hskip.
    assert ((slot, g, e) ∈ occupied (slab (shared s))) as Hin by (by apply occupied_elem).
    rewrite (v_view _ _ _ Hv) in Hin. apply elem_of_Permutation in Hin as [K1 HK1].
    destruct (release_view s K1 slot g e) as (sh1 & -> & Hv1); [by eapply view_perm|done|]. mred.
    destruct (IH (slot + 1) _ K1 Hv1) as (sh & R & K' & Hsh & HK' & Hv' & HR & Hrest); [lia|]. simpl in Hsh.
    exists sh, ((slot, g, e) :: R), K'. split_and!; [done|by rewrite HK1, HK'| |set_solver|].
    + refine (view_abandoned _ K' _ Hv' _). simpl. change ((slot, g, e) :: R) with ([(slot, g, e)] ++ R).
      unfold continuations. rewrite filter_app, fmap_app. rewrite <- app_assoc, (Permutation_app_swap_app). done.
    + intros x Hx Hlo Hhi. destruct (decide (x.1.1 = slot)) as [Heq|]; [|apply Hrest; [done|lia..]]. exfalso.
      pose proof (tokens_nodup cfg s K Hv) as Hnd. rewrite HK1, HK' in Hnd. simpl in Hnd. apply NoDup_cons in Hnd as [Hnd _]. apply Hnd.
      destruct (Hat x) as (e' & [= <-] & ->); [rewrite HK1, HK'; set_solver|done|]. apply list_elem_of_fmap_2. set_solver.
Qed.

Lemma abandon_view s : inv s → ∃ s', exec cfg s CAbandon = Done s' ∧ inv s'.
Proof.
  intros Hi. destruct (abandon_steps (N.to_nat (queue_capacity cfg)) 0 s _ Hi) as (sh & R & K & Hsh & HK & Hv & _); [lia|].
  simpl. rewrite Hsh. mred. eexists. split; [done|].
  refine (view_inv _ _ _ (view_abandoned _ K (lost (shared s) sh ++ abandoned s) Hv _)). simpl. apply Permutation_app_tail.
  apply (lost_split (shared s) sh R K); [done|apply (v_view _ _ _ Hv)|]. rewrite <- HK. by eapply tokens_nodup.
Qed.

Lemma all_aligned_ok m l : mode_ok m → ∃ b, all_aligned m l = Done b.
Proof.
  intros Hm. unfold all_aligned. destruct m as [a|]; [|by eexists]. simpl in Hm. induction l as [|x l IH]; [by eexists|].
  simpl. unfold Alignment.check. rewrite Hm. mred. destruct (N.land x _ =? 0); [exact IH|by eexists].
Qed.

Lemma queued_length (K : entries) : vlen (K ≫= queued_of) ≤ vlen K.
Proof.
  unfold vlen. induction K as [|o K IH]; [done|]. rewrite bind_cons, length_app. unfold queued_of at 1.
  destruct (is_queued _); cbn [length]; lia.
Qed.

Lemma lost_none before after :
  live_tokens (occupied (slab before)) ≡ₚ live_tokens (occupied (slab after)) → lost before after = [].
Proof.
  intros Hp. apply filter_none. intros t (o & -> & [_ Ho]%list_elem_of_filter)%list_elem_of_fmap Hn. apply Hn. rewrite <- Hp.
  by apply list_elem_of_fmap_2.
Qed.

(** The suffix of a vector goes back to the ready queue. *)
Lemma requeue_view s K i g e e' v v' s2 st :
  view s ((i, g, e) :: K) → slab_wf [] s2 → slots s2 = <[N.to_nat i := mkSlot g (Some e')]> (slots (slab (shared s))) →
  occupied s2 ≡ₚ (i, g, e') :: K → op_fd e' = op_fd e → op_write_slot e' = op_write_slot e →
  is_continuation (op_state e) = true → op_state e' = Queued → op_frame e' = Some (Vector v') → op_kind e' = Read →
  op_frame_lease e' ≠ Absent → mode_ok (op_io_mode e') → op_write_slot e' = None →
  (OpToken_new i g, v) ∈ held s → vector_good (arena s) (OpToken_new i g) v' → matches e' v' →
  ReadVector.slots st = queue_capacity cfg →
  vlen (ReadVector.allocation st) = queue_capacity cfg * ReadVector.VECTOR_FRAMES_MAX →
  view (mkSystem (mkShared s2 (files (shared s)) (ready (shared s) ++ [i]) (completion_backlog (shared s)) (deferred (shared s)))
    st (staging s) (arena s) (active s) (without (OpToken_new i g) (held s)) (reserved s) (handles s) (due s)
    (write_leases s) (issued s) (final s) (abandoned s)) ((i, g, e') :: K).
Proof.
  intros Hv Hw2 Hsl2 HK2 Hfd Hws Hst Hq Hfr Hk Hle Hmo Hwn Hin Hgood Hm Hs1 Hs2. set (t := OpToken_new i g) in *.
  pose proof (tokens_nodup cfg _ _ Hv) as Htk. simpl in Htk. apply NoDup_cons in Htk as [Hnew _].
  pose proof (v_leases _ _ _ Hv) as Hnd. apply NoDup_app in Hnd as (Hnd1 & Hdisj & Hnd2).
  assert (∀ o, o ∈ K → entry_token o ≠ t) as Hne.
  { intros o Ho Heq. apply Hnew. change (entry_token (i, g, e)) with t. rewrite <- Heq. by apply list_elem_of_fmap_2. }
  assert (t ∉ backlog_tokens s) as Hnb by (apply Hdisj; by apply (fst_elem t v)).
  set (s' := mkSystem _ _ _ _ _ _ _ _ _ _ _ _ _).
  assert (∀ p, p ∈ leases s' → p ∈ leases s ∧ p.1 ≠ t) as Hl.
  { intros p. unfold leases. simpl. rewrite !elem_of_app. intros [[Hp Hpt]%assoc_without_elem|Hp]; [auto|]. split; [auto|].
    apply list_elem_of_bind in Hp as (c & Hp & Hc). destruct p as [u w]. simpl. intros Heq. subst u. apply (v_tagged _ _ _ Hv c _ _ Hc) in Hp.
    apply Hnb. simpl in Hp. rewrite Hp. by apply list_elem_of_fmap_2. }
  apply (view_store cfg s K i g e e' s2 st (active s) (without t (held s)) (ready (shared s) ++ [i]) (completion_backlog (shared s)) (final s)); try done.
  - pose proof (v_ready _ _ _ Hv) as Hrd. simpl in Hrd. unfold queued_of at 1 in Hrd. simpl in Hrd.
    replace (is_queued (op_state e)) with false in Hrd by (by destruct (op_state e)). simpl in Hrd.
    unfold queued_of at 1. simpl. rewrite Hq, Hrd. symmetry. apply Permutation_cons_append.
  - pose proof (v_active _ _ _ Hv) as Hac. simpl in Hac. unfold active_of at 1 in Hac. simpl in Hac.
    replace (is_active (op_state e)) with false in Hac by (by destruct (op_state e)). simpl in Hac.
    unfold active_of at 1. simpl. by rewrite Hq.
  - apply NoDup_app. split_and!; [by apply (without_nodup s _ t Hv)| |done].
    intros u ([u' w] & -> & [Hu _]%assoc_without_elem)%list_elem_of_fmap. apply Hdisj. by apply (fst_elem u' w).
  - apply (v_tagged _ _ _ Hv).
  - unfold entry_ok. simpl. rewrite Hk, Hq. split_and!; try done. intros _. by exists (Vector v').
  - intros o d [->|Ho]%elem_of_cons Hd; [|apply (v_attempts _ _ _ Hv); [by right|done]]. exfalso.
    destruct (active_entry cfg s _ _ Hv (fst_elem _ _ _ Hd)) as (i' & g' & e0 & Heq & [Ho|Ho]%elem_of_cons & Hst').
    + simplify_eq. by rewrite Hst' in Hst.
    + by apply (Hne _ Ho).
  - intros u w Hu. apply (v_good _ _ _ Hv). by apply Hl.
  - intros o w [->|Ho]%elem_of_cons Hu; [by apply Hl in Hu as [_ ?]|]. apply (v_held _ _ _ Hv); [by right|by apply Hl].
  - intros o [->|Ho]%elem_of_cons Hu; [done|]. apply (v_backlog _ _ _ Hv); [by right|done].
  - pose proof (v_retained _ _ _ Hv) as Hr. rewrite filter_cons_True in Hr by exact Hnb. rewrite filter_cons_True by exact Hnb. exact Hr.
  - unfold pending_of. simpl. rewrite Hq. by destruct (op_state e).
  - intros u [([u' w] & -> & [Hu _]%Hl)%list_elem_of_fmap|Hu]%elem_of_app; apply (v_known _ _ _ Hv); rewrite !elem_of_app.
    + left. by apply (fst_elem u' w).
    + right; by left.
Qed.

Lemma continue_view s t : inv s → enabled cfg s (CContinue t) → ∃ s', exec cfg s (CContinue t) = Done s' ∧ inv s'.
Proof.
  intros Hi [Hc (v & Hin & Hord)]. pose proof (v_slab _ _ _ Hi) as Hw.
  assert ((t, v) ∈ leases s) as Hl by (unfold leases; set_solver).
  apply list_elem_of_fmap in Hc as ([[i g] e] & -> & [Hst Ho]%list_elem_of_filter). simpl in Hst.
  change (entry_token (i, g, e)) with (OpToken_new i g) in *.
  destruct (v_held _ _ _ Hi (i, g, e) v Ho Hl) as [Hh Hm]. simpl in Hh, Hm. specialize (Hm Hst). destruct Hm as (Hm1 & Hm2 & Hm3).
  destruct (v_good _ _ _ Hi _ _ Hl) as ((l & Hb) & Htr & Hop).
  destruct (held_read s _ _ Hi Ho Hh) as [Hk Hf]. simpl in Hk, Hf.
  pose proof (v_entries _ _ _ Hi _ Ho) as Hent. unfold entry_ok in Hent. simpl in Hent. rewrite Hk in Hent.
  destruct Hent as ([Hle Hmo] & Hws & _ & _).
  simpl. rewrite (assoc_elem _ v _ (held_nodup s _ Hi) Hin). mred. unfold continue_read_vector. rewrite Hop, N.eqb_refl. mred.
  rewrite (contains_ok _ _ _ _ Hw Ho). mred. rewrite (slot_of_token cfg s _ i g e Hi Ho), (peek_ok _ _ _ _ Ho). mred. rewrite Hst.
  unfold ReadVector.remaining. rewrite sub_ok by lia. mred.
  rewrite (proj2 (N.eqb_eq (op_requested_len e) (ReadVector.total v - ReadVector.filled v))) by lia.
  destruct (all_aligned_ok (op_io_mode e) [op_file_offset e; ReadVector.destination_offset (arena s) v; ReadVector.total v - ReadVector.filled v] Hmo) as (b & ->). mred.
  destruct b; simpl.
  - destruct (v_storage _ _ _ Hi) as [Hs1 Hs2].
    destruct (ReadVector.prepare_bundle (arena s) (v_granule _ _ _ Hi) l v (storage s) i) as (mem & Hp & Hb' & Hmem & _ & _); try done.
    { lia. }
    { rewrite Hs1, <- (v_slots _ _ _ Hi). by eapply occupied_range. }
    { by rewrite Hs1. }
    rewrite Hp. mred. match goal with |- context [peek_mut _ _ (λ _, ?x)] => set (e' := x) end.
    destruct (peek_mut_ok _ _ _ _ Hw Ho (λ _, e')) as (s2 & K & -> & Hw2 & _ & Hsl2 & HK & HK2). mred.
    assert (view s ((i, g, e) :: K)) as Hv by (by eapply view_perm).
    pose proof (v_ready _ _ _ Hv) as Hrd. simpl in Hrd. unfold queued_of at 1 in Hrd. simpl in Hrd.
    replace (is_queued (op_state e)) with false in Hrd by (by destruct (op_state e)). simpl in Hrd.
    pose proof (v_capacity _ _ _ Hv) as Hcap. pose proof (queued_length K) as Hql.
    rewrite (proj2 (N.ltb_lt (vlen (ready (shared s))) (queue_capacity cfg))).
    2:{ assert (vlen (ready (shared s)) = vlen (K ≫= queued_of)) by (unfold vlen; by rewrite Hrd).
        assert (vlen ((i, g, e) :: K) = vlen K + 1) by (unfold vlen; simpl; lia). lia. }
    eexists. split; [done|].
    match goal with |- context [released s ?x] => assert (lost (shared s) x = []) as Hlost end.
    { apply lost_none. unfold live_tokens. simpl. by rewrite HK, HK2. }
    unfold released. rewrite Hlost. eapply view_inv.
    eapply (requeue_view s K i g e e' v); try done; simpl; [|by rewrite Hmem].
    split_and!; [by exists l|done|done].
  - destruct (drop_view s (OpToken_new i g) Hi) as (sh & -> & Hi').
    + apply (v_known _ _ _ Hi). rewrite elem_of_app. left. by apply (fst_elem _ v).
    + intros o Ho' Heq. by rewrite (token_uniq cfg s _ o (i, g, e) Hi Ho' Ho Heq).
    + mred. eexists. split; [done|]. refine (view_inv _ _ _ (view_held _ _ _ Hi' _ _)).
      * by intros p [? _]%assoc_without_elem.
      * by apply (without_nodup s _ _ Hi).
Qed.

Lemma take_view s t : inv s → enabled cfg s (CTake t) → ∃ s', exec cfg s (CTake t) = Done s' ∧ inv s'.
Proof.
  intros Hi Ht. simpl in Ht. pose proof Ht as ([u v] & -> & Hin)%list_elem_of_fmap. simpl in *.
  rewrite (assoc_elem _ v _ (held_nodup s _ Hi) Hin). mred.
  assert ((u, v) ∈ leases s) as Hl by (unfold leases; set_solver).
  destruct (v_good _ _ _ Hi _ _ Hl) as ((l & Hb) & Htr & Hop).
  destruct (ReadVector.take_completed_bundle (arena s) (v_granule _ _ _ Hi) l v Hb) as (v' & k & Htk & _). rewrite Htk. mred.
  destruct (ReadVector.take_completed_keeps (arena s) (v_granule _ _ _ Hi) l v _ v' Hb Htk) as (Hb' & Hf & Htot & Hop' & _ & Hsub).
  eexists. split; [done|]. eapply view_inv.
  set (s' := set_held _ s).
  assert (∀ x w, (x, w) ∈ leases s' → x = u ∧ w = v' ∨ (x, w) ∈ leases s) as Hl'.
  { intros x w. unfold leases. simpl. rewrite !elem_of_app. intros [[?|[_ ?]]%replace_elem|?]; auto. }
  assert ((held s').*1 = (held s).*1) as Hfst by apply replace_fst.
  destruct Hi as [H1 H2 H3 H4 H5 H6 H7 H8 H9 H10 H11 H12 H13 H14 H15 H16 H17 H18 H19 H20 H21 H22 H23]. split; try done.
  - by rewrite Hfst.
  - intros x w [[-> ->]|Hx]%Hl'; [|by apply H10]. split_and!; [by exists l|auto|by rewrite Hop'].
  - intros o w Ho [[Heq ->]|Hx]%Hl'; [|by apply H11]. destruct (H11 o v Ho) as [Hh Hm]; [by rewrite Heq|].
    split; [done|]. intros Hc%Hm. unfold matches in *. by rewrite Hf, Htot.
  - intros x Hx. apply H21. unfold leases in Hx |- *. by rewrite fmap_app, Hfst, <- fmap_app in Hx.
Qed.

Lemma lease_sublist (l : list Completion) :
  (∀ c t v, c ∈ l → (t, v) ∈ lease_of c → t = c_token c) → (l ≫= lease_of).*1 `sublist_of` (c_token <$> l).
Proof.
  induction l as [|c l IH]; intros Htag; [done|]. rewrite bind_cons, fmap_app.
  assert ((l ≫= lease_of).*1 `sublist_of` (c_token <$> l)) as Hl by (apply IH; intros c' t v Hc; apply Htag; by right).
  pose proof (λ t v, Htag c t v ltac:(by left)) as Hc. unfold lease_of at 1. unfold lease_of in Hc.
  destruct (c_continuation c) as [t|]; [|by constructor]. destruct (c_frame c) as [[|v]|]; try by constructor.
  simpl. rewrite (Hc t v) by (by left). by constructor.
Qed.

(** Draining [n] completions uncounts at most [n] operations. *)
Lemma filter_drop_le (B : list OpToken) (n : nat) (K : entries) :
  NoDup (entry_token <$> K) →
  vlen (filter (λ o, entry_token o ∉ drop n B) K) ≤ vlen (filter (λ o, entry_token o ∉ B) K) + N.of_nat (length (take n B)).
Proof.
  intros Hnd.
  assert (length (filter (λ o : N * N * OpEntry, entry_token o ∈ take n B) K) ≤ length (take n B))%nat as Hle.
  { rewrite <- (length_fmap entry_token). apply submseteq_length, NoDup_submseteq.
    - eapply sublist_NoDup; [exact Hnd|]. apply fmap_sublist, sublist_filter.
    - by intros t (o & -> & [? _]%list_elem_of_filter)%list_elem_of_fmap. }
  assert (length (filter (λ o : N * N * OpEntry, entry_token o ∉ drop n B) K) ≤
    length (filter (λ o : N * N * OpEntry, entry_token o ∉ B) K) + length (filter (λ o : N * N * OpEntry, entry_token o ∈ take n B) K))%nat.
  { clear Hnd Hle. induction K as [|o K IH]; [done|]. rewrite !filter_cons.
    assert (entry_token o ∈ B ↔ entry_token o ∈ take n B ∨ entry_token o ∈ drop n B) as HB
      by (rewrite <- (take_drop n B) at 1; apply elem_of_app).
    repeat case_decide; cbn [length]; try lia. exfalso. tauto. }
  unfold vlen. lia.
Qed.

Lemma drain_view s n : inv s → ∃ s', exec cfg s (CDrain n) = Done s' ∧ inv s'.
Proof.
  intros Hi. unfold exec, drain_completion_backlog. eexists. split; [done|]. eapply view_inv.
  set (B := completion_backlog (shared s)) in *. set (k := N.to_nat n). set (s' := set_held _ _).
  assert (∀ p, p ∈ leases s' ↔ p ∈ leases s) as Hl.
  { intros p. unfold leases. simpl. fold B. rewrite <- (take_drop k B) at 3. rewrite bind_app, !elem_of_app. tauto. }
  pose proof (v_tagged _ _ _ Hi) as Htag. fold B in Htag.
  pose proof (v_leases _ _ _ Hi) as Hnd. unfold backlog_tokens in Hnd. fold B in Hnd. rewrite <- (take_drop k B), fmap_app in Hnd.
  assert (backlog_tokens s' = drop k (backlog_tokens s)) as Hbt.
  { unfold backlog_tokens. simpl. fold B. by rewrite fmap_drop. }
  assert (∀ t, t ∈ backlog_tokens s' → t ∈ backlog_tokens s) as Hsub.
  { intros t. rewrite Hbt. intros Ht. rewrite <- (take_drop k). apply elem_of_app. by right. }
  pose proof (tokens_nodup cfg _ _ Hi) as Htk.
  destruct Hi as [H1 H2 H3 H4 H5 H6 H7 H8 H9 H10 H11 H12 H13 H14 H15 H16 H17 H18 H19 H20 H21 H22 H23]. split; try done.
  - unfold s', backlog_tokens. simpl. fold B. rewrite fmap_app, <- app_assoc. rewrite Permutation_app_swap_app in Hnd.
    eapply sublist_NoDup; [exact Hnd|]. apply sublist_app; [|done]. apply lease_sublist. intros c t v Hc. apply Htag.
    rewrite <- (take_drop k B). apply elem_of_app. by left.
  - intros c t v Hc. apply Htag. simpl in Hc. rewrite <- (take_drop k B). apply elem_of_app. by right.
  - intros t v Ht. by apply H10, Hl.
  - intros o v Ho Ht. by apply H11, Hl.
  - intros o Ho Ht. by apply H12, Hsub.
  - pose proof (filter_drop_le (backlog_tokens s) k _ Htk) as Hf. rewrite <- Hbt in Hf. simpl. fold B.
    assert (vlen (drop k B) + N.of_nat (length (take k (backlog_tokens s))) = vlen B).
    { unfold backlog_tokens. fold B. rewrite <- fmap_take, length_fmap. rewrite <- (take_drop k B) at 3. unfold vlen. rewrite length_app. lia. }
    fold B in H15. lia.
  - intros t Ht. apply H21. rewrite !elem_of_app in *. destruct Ht as [([u v] & -> & Hu%Hl)%list_elem_of_fmap|[Ht|Ht]].
    + left. by apply (fst_elem u v).
    + right; left. by apply Hsub.
    + right; by right.
Qed.

Lemma pop_view s : inv s → ∃ s', exec cfg s CPopDeferred = Done s' ∧ inv s'.
Proof.
  intros Hi. unfold exec, pop_deferred. destruct (deferred (shared s)) as [|d rest] eqn:Hd.
  - eexists. split; [done|]. by destruct s.
  - eexists. split; [done|]. eapply view_inv.
    destruct Hi as [H1 H2 H3 H4 H5 H6 H7 H8 H9 H10 H11 H12 H13 H14 H15 H16 H17 H18 H19 H20 H21 H22 H23]. split; try done; simpl.
    + refine (FileTable.inv_perm _ _ _ _ _ _ _ _ _ _ H13); [done|]. rewrite Hd. unfold due_deferred. rewrite bind_cons.
      rewrite !app_assoc. apply Permutation_app_tail, Permutation_app_comm.
    + rewrite Hd in H14. unfold vlen in *. simpl in *. lia.
Qed.

(** ** Files *)

Lemma filter_ne {A} `{EqDecision A} (l1 l2 : list A) x : NoDup (l1 ++ x :: l2) → filter (λ y, y ≠ x) (l1 ++ x :: l2) = l1 ++ l2.
Proof.
  intros (H1 & Hd & [Hx H2]%NoDup_cons)%NoDup_app. rewrite filter_app, filter_cons_False by tauto. f_equal; apply filter_all.
  - intros y Hy ->. apply (Hd x Hy). by left.
  - by intros y Hy ->.
Qed.

Lemma own_driver s K fd : view s K → fd ∈ reserved s ∨ fd ∈ handles s → fid_driver fd = id cfg.
Proof.
  intros Hv [Hr|Hh].
  - destruct (FileTable.i_reserved _ _ (v_files _ _ _ Hv) fd Hr) as (f & _ & -> & _). done.
  - by apply (FileTable.handle_own _ _ _ _ _ _ _ (v_files _ _ _ Hv) Hh).
Qed.

(** The threads' and the table's view of the files change together. *)
Lemma view_files' s f rs hs ds s' :
  inv s →
  FileTable.inv (id cfg) (FileTable.mkSystem f rs hs ((λ o, op_fd o.2) <$> occupied (slab (shared s)))
    (ds ++ due_deferred (deferred (shared s)))) →
  s' = set_due ds (set_handles hs (set_reserved rs (set_shared (set_files (shared s) f) s))) →
  inv s'.
Proof. intros Hi Hf ->. eapply view_inv. by apply view_files. Qed.

Lemma file_view s c :
  inv s → enabled cfg s c → match c with CReserve | CRegistered _ | CAbortFile _ | CClose _ | CRetire _ => True | _ => False end →
  ∃ s', exec cfg s c = Done s' ∧ inv s'.
Proof.
  intros Hi He Hc. pose proof (v_files _ _ _ Hi) as Hf. pose proof (FileTable.i_open _ _ Hf) as Hno. simpl in Hno.
  destruct c; try done; simpl in He |- *.
  - unfold reserve_file_locked. destruct (FileTable.open_spec _ _ _ _ _ _ Hf He) as [[-> _]|(i & f & Hfi & Hr & ->)]; mred; eexists; (split; [done|]).
    + eapply view_files'; [done|exact Hf|by destruct s as [[]]].
    + eapply view_files'; [done|exact (proj1 (FileTable.opened_inv _ _ _ _ _ _ Hf i f Hfi Hr))|done].
  - apply list_elem_of_split in He as (rs1 & rs2 & Hr). rewrite Hr in *. eexists. split; [done|].
    eapply view_files'; [done|by apply FileTable.registered_inv, Hf|]. rewrite filter_ne; [by destruct s as [[]]|]. by apply NoDup_app in Hno as [? _].
  - unfold abort_file, assert_own. rewrite (own_driver s _ fd Hi), N.eqb_refl by auto. mred.
    apply list_elem_of_split in He as (rs1 & rs2 & Hr).
    destruct (FileTable.abort_advances _ _ _ _ _ _ Hf rs1 fd rs2 Hr) as (t' & -> & Hf'). mred. eexists. split; [done|].
    eapply view_files'; [done|exact Hf'|]. rewrite Hr in *. rewrite filter_ne; [done|]. by apply NoDup_app in Hno as [? _].
  - unfold close_locked, assert_own. rewrite (own_driver s _ fd Hi), N.eqb_refl by auto. mred.
    apply list_elem_of_split in He as (hs1 & hs2 & Hr).
    destruct (FileTable.close_advances _ _ _ _ _ _ Hf hs1 fd hs2 Hr) as (t' & b & -> & Hf' & _). mred. eexists. split; [done|].
    eapply (view_files' s _ _ _ ((if b then [fd] else []) ++ due s)); [done|destruct b; exact Hf'|]. rewrite Hr in *.
    by rewrite filter_ne by (by apply NoDup_app in Hno as (_ & _ & ?)).
  - unfold retire. pose proof (FileTable.i_once _ _ Hf) as Hon. simpl in Hon.
    apply list_elem_of_split in He as (ds1 & ds2 & Hr). rewrite Hr in *. rewrite <- app_assoc in Hf, Hon. simpl in Hf, Hon.
    destruct (FileTable.retire_advances _ _ _ _ _ _ Hf ds1 fd _ eq_refl) as (t' & -> & Hf' & _). mred. eexists. split; [done|].
    rewrite app_assoc in Hf'. eapply (view_files' s _ _ _ (ds1 ++ ds2)); [done|exact Hf'|]. rewrite filter_ne; [done|].
    rewrite app_comm_cons, app_assoc in Hon. by apply NoDup_app in Hon as [? _].
Qed.

(** ** Submissions *)

Lemma aligned_mode m off : assert_aligned m off = Done tt → mode_ok m.
Proof. unfold assert_aligned, Alignment.check. destruct m; [|done]. intros H. inv_done. done. Qed.

(** A submission is refused only for a full queue; otherwise any well-formed operation
    can be committed to the reserved slot. *)
Lemma submit_steps s fd pos :
  inv s → config_ok cfg → fd ∈ handles s → pos ≤ vlen (ready (shared s)) → slab_roomy s →
  admission cfg (shared s) fd = Done (shared s, inr Full) ∨
  ∃ s1 slot, admission cfg (shared s) fd = Done (set_slab (shared s) s1, inl slot) ∧ slot < queue_capacity cfg ∧
    ∀ e wl st, op_state e = Queued → op_fd e = fd → (∀ v, op_frame e = Some (Vector v) → ReadVector.operation v = None) →
      (∀ g e', bind_vector (OpToken_new slot g) e = Done e' → entry_ok (arena s) (staging s) (slot, g, e')) →
      write_leases s ≡ₚ option_list (op_write_slot e) ++ wl →
      ReadVector.slots st = queue_capacity cfg →
      vlen (ReadVector.allocation st) = queue_capacity cfg * ReadVector.VECTOR_FRAMES_MAX →
      ∃ sh t, commit (set_slab (shared s) s1) slot e pos = Done (sh, t) ∧
        inv (set_storage st (set_write_leases wl (set_issued (t :: issued s) (set_shared sh s)))).
Proof.
  intros Hi Hcfg Hfd Hpos Hroom. destruct (admission_ok cfg s _ fd Hi Hcfg Hfd) as [[Ha _]|(s1 & slot & Ha & Hload & Hw & Hsl & Ho)]; [by left|].
  right. exists s1, slot. split_and!; [done| |].
  { rewrite <- (v_slots _ _ _ Hi), <- Hsl. apply (w_range _ _ Hw). by left. }
  intros e wl st Hst Hfd' Hop Hok Hwl Hs1 Hs2.
  destruct (commit_view cfg s _ s1 slot e pos wl st Hi Hcfg Hw Hsl Ho Hroom Hst) as (sh & t & Hc & _ & Hv & _); try done.
  { by rewrite Hfd'. }
  exists sh, t. split; [done|]. by eapply view_inv.
Qed.

Lemma submit_read_view s fd mode lease off doff len pos :
  inv s → config_ok cfg → enabled cfg s (CSubmitRead fd mode lease off doff len pos) →
  ∃ s', exec cfg s (CSubmitRead fd mode lease off doff len pos) = Done s' ∧ inv s'.
Proof.
  intros Hi Hcfg ((Hfd & Hal & Hpos & Hroom) & Hf & Hlen & Hd & Hfit). simpl. unfold submit_read_locked.
  destruct (split_lease lease) as [[f fl] pu] eqn:Hsp. simpl in Hf.
  rewrite (proj2 (N.ltb_lt _ (Frames.count (arena s)))), (proj2 (N.ltb_lt 0 len)), (proj2 (N.leb_le doff _)), (proj2 (N.leb_le len _)), Hal by done. mred.
  destruct (submit_steps s fd pos Hi Hcfg Hfd Hpos Hroom) as [->|(s1 & slot & -> & Hslot & Hcom)]; mred.
  - exists s. split; [by destruct s|done].
  - destruct (Hcom (mkOp Read SyncFull fd off (Some (Point f)) doff len fl None 0 mode Queued) (write_leases s) (storage s)) as (sh & t & -> & Hi'); try done.
    + intros g e' [= <-]. unfold entry_ok. simpl. split_and!; try done.
      * by destruct lease; simplify_eq/=.
      * by eapply aligned_mode.
      * intros _. by exists (Point f).
    + apply (v_storage _ _ _ Hi).
    + apply (v_storage _ _ _ Hi).
    + mred. eexists. split; [done|exact Hi'].
Qed.

Lemma submit_write_view s fd mode slot off pos :
  inv s → config_ok cfg → enabled cfg s (CSubmitWrite fd mode slot off pos) →
  ∃ s', exec cfg s (CSubmitWrite fd mode slot off pos) = Done s' ∧ inv s'.
Proof.
  intros Hi Hcfg ((Hfd & Hal & Hpos & Hroom) & Hsl & Hoff). simpl. unfold submit_write_locked, WriteArena.assert_owner.
  destruct (v_owner _ _ _ Hi) as [Hown Hgr]. rewrite Hown, N.eqb_refl, Hal. mred.
  destruct (submit_steps s fd pos Hi Hcfg Hfd Hpos Hroom) as [->|(s1 & i & -> & Hslot & Hcom)]; mred.
  - exists s. split; [by destruct s|done].
  - rewrite (proj2 (N.leb_le (WriteArena.granule _) U32_MAX)) by done. mred.
    destruct (Hcom (mkOp Write SyncFull fd off None 0 (WriteArena.granule (staging s)) Absent (Some slot) 0 mode Queued)
      (filter (λ x, x ≠ slot) (write_leases s)) (storage s)) as (sh & t & -> & Hi'); try done.
    + intros g e' [= <-]. unfold entry_ok. simpl. split_and!; try done; by eexists.
    + simpl. pose proof (WriteArena.ls_nodup _ (v_staging _ _ _ Hi)) as Hnd. simpl in Hnd. apply NoDup_app in Hnd as [Hnd _].
      apply list_elem_of_split in Hsl as (l1 & l2 & Hl). rewrite Hl in *. rewrite filter_ne by done. by rewrite <- Permutation_middle.
    + apply (v_storage _ _ _ Hi).
    + apply (v_storage _ _ _ Hi).
    + mred. eexists. split; [done|exact Hi'].
Qed.

Lemma submit_fsync_view s fd mode sync pos :
  inv s → config_ok cfg → enabled cfg s (CSubmitFsync fd mode sync pos) →
  ∃ s', exec cfg s (CSubmitFsync fd mode sync pos) = Done s' ∧ inv s'.
Proof.
  intros Hi Hcfg (Hfd & Hal & Hpos & Hroom). simpl. unfold submit_fsync_locked.
  destruct (submit_steps s fd pos Hi Hcfg Hfd Hpos Hroom) as [->|(s1 & i & -> & Hslot & Hcom)]; mred.
  - exists s. split; [by destruct s|done].
  - destruct (Hcom (mkOp Fsync sync fd 0 None 0 0 Absent None 0 mode Queued) (write_leases s) (storage s)) as (sh & t & -> & Hi'); try done.
    + by intros g e' [= <-].
    + apply (v_storage _ _ _ Hi).
    + apply (v_storage _ _ _ Hi).
    + mred. eexists. split; [done|exact Hi'].
Qed.

Lemma submit_vector_view s fd mode v off lease pos :
  inv s → config_ok cfg → enabled cfg s (CSubmitVector fd mode v off lease pos) →
  ∃ s', exec cfg s (CSubmitVector fd mode v off lease pos) = Done s' ∧ inv s'.
Proof.
  intros Hi Hcfg ((Hfd & Hal & Hpos & Hroom) & Hal2 & Hle & (l & Hb & Hl2) & Hf0 & Hop & Htr & Hoff). simpl. unfold submit_read_vector.
  pose proof (v_granule _ _ _ Hi) as Hg. pose proof Hb as [Hfr Hc Ht Hfi Ho Hm].
  assert (ReadVector.ordinal v = 0) as Ho0 by nia.
  rewrite Hf0, N.eqb_refl, (proj2 (N.leb_le 2 (ReadVector.count v))), (proj2 (N.leb_le (ReadVector.count v) ReadVector.VECTOR_FRAMES_MAX)) by lia. mred.
  unfold ReadVector.remaining. rewrite sub_ok by lia. mred. rewrite Hf0, N.sub_0_r.
  rewrite (proj2 (N.leb_le _ U64_MAX)) by done. mred. rewrite Hal, Hal2. mred.
  destruct (submit_steps s fd pos Hi Hcfg Hfd Hpos Hroom) as [->|(s1 & i & -> & Hslot & Hcom)]; mred.
  - exists s. split; [by destruct s|done].
  - destruct (v_storage _ _ _ Hi) as [Hs1 Hs2].
    destruct (ReadVector.prepare_bundle (arena s) Hg l v (storage s) i) as (mem & Hp & Hb' & Hmem & _ & _); try done.
    { by rewrite Ho0, Hf0, N.Div0.div_0_l. }
    { nia. }
    { by rewrite Hs1. }
    { by rewrite Hs1. }
    rewrite Hp. mred. match goal with |- context [commit _ _ ?x _] => set (e := x) end.
    destruct (Hcom e (write_leases s) (ReadVector.mkStorage mem (ReadVector.slots (storage s)))) as (sh & t & -> & Hi'); try done.
    + by intros v' [= <-].
    + intros g e' He'. unfold bind_vector, ReadVector.bind in He'. simpl in He'. rewrite Hop in He'. injection He' as <-.
      unfold entry_ok. simpl. split_and!; try done; [by eapply aligned_mode|]. intros _. eexists. split; [done|].
      unfold dest_ok, vector_good, matches. simpl. split_and!; try done; try nia.
      exists l. destruct Hb' as [Hb1 Hb2 Hb3 Hb4 Hb5 Hb6]. by split.
    + simpl. by rewrite Hmem.
    + mred. eexists. split; [done|exact Hi'].
Qed.

(** ** Staging slots and the frame arena *)

Lemma view_staging s K a wl :
  view s K → WriteArena.owner a = WriteArena.owner (staging s) → WriteArena.granule a = WriteArena.granule (staging s) →
  WriteArena.leased (WriteArena.mkSystem a [] (wl ++ (K ≫= slot_of))) → view (set_write_leases wl (set_staging a s)) K.
Proof.
  intros Hv Ho Hg Hl. pose proof (v_entries _ _ _ Hv) as Hent. destruct Hv. split; simpl; try done.
  - intros o Hin. specialize (Hent o Hin). unfold entry_ok in *. simpl. by rewrite Hg.
  - by rewrite Ho, Hg.
Qed.

Lemma claim_view s slot : inv s → enabled cfg s (CClaimSlot slot) → ∃ s', exec cfg s (CClaimSlot slot) = Done s' ∧ inv s'.
Proof.
  intros Hi He. destruct (WriteArena.claim_leased _ _ slot (v_staging _ _ _ Hi) He) as (a & b & Hc & Ho & Hg & Hl).
  simpl. rewrite Hc. mred. eexists. split; [done|]. eapply view_inv. apply view_staging; try done. by rewrite <- app_assoc.
Qed.

Lemma release_slot_view s slot : inv s → enabled cfg s (CReleaseSlot slot) → ∃ s', exec cfg s (CReleaseSlot slot) = Done s' ∧ inv s'.
Proof.
  intros Hi He. pose proof (v_staging _ _ _ Hi) as Hl. pose proof (WriteArena.ls_nodup _ Hl) as Hnd. simpl in *.
  apply NoDup_app in Hnd as [Hnd _]. apply list_elem_of_split in He as (l1 & l2 & Hw). rewrite Hw in *.
  rewrite <- app_assoc in Hl. simpl in Hl.
  assert (WriteArena.free (staging s) !! N.to_nat slot = Some false) as Hf by (apply (WriteArena.lease_bit _ slot Hl); set_solver).
  rewrite (WriteArena.release_ok _ _ Hf). mred. eexists. split; [done|]. eapply view_inv. apply view_staging; try done.
  rewrite filter_ne, <- app_assoc by done. eapply WriteArena.arena_step_leased; [exact Hl|].
  eapply WriteArena.arena_release. by apply WriteArena.release_ok.
Qed.

Lemma dest_ok_arena a a' t e d :
  Frames.granule a' = Frames.granule a →
  (∀ v f, v ∈ dest_vector (Some d) → Some f ∈ ReadVector.frames v → ReadVector.transferable a f → ReadVector.transferable a' f) →
  dest_ok a t e d → dest_ok a' t e d.
Proof.
  intros Hg Htr. destruct d as [|v]; [done|]. intros [((l & Hb) & Ht & Hop) Hm]. split; [|done]. split_and!; [|set_solver|done].
  exists l. by apply (ReadVector.bundle_granule a).
Qed.

(** The rest of the program changes the arena but not the frames in flight. *)
Lemma arena_view s a : inv s → enabled cfg s (CArena a) → ∃ s', exec cfg s (CArena a) = Done s' ∧ inv s'.
Proof.
  intros Hi (Hg & Hc & Htr). eexists. split; [done|]. eapply view_inv.
  assert (∀ o d, o ∈ occupied (slab (shared s)) → op_frame o.2 = Some d → dest_ok (arena s) (entry_token o) o.2 d → dest_ok a (entry_token o) o.2 d) as Hd1.
  { intros o d Ho Hf. apply dest_ok_arena; [done|]. intros v f Hv. apply Htr. unfold vectors. rewrite !elem_of_app. left.
    apply list_elem_of_bind. exists o. by rewrite Hf. }
  destruct Hi as [H1 H2 H3 H4 H5 H6 H7 H8 H9 H10 H11 H12 H13 H14 H15 H16 H17 H18 H19 H20 H21 H22 H23]. split; try done; simpl.
  - intros o Ho. specialize (H8 o Ho). unfold entry_ok in *. simpl in *. destruct (op_kind o.2); try done.
    destruct H8 as ([? ?] & ? & Hq & ?). split_and!; try done. intros (d & Hd & Hok)%Hq. exists d. eauto.
  - intros o d Ho Ha. specialize (H9 o d Ho Ha). unfold active_ok in *. destruct (op_kind o.2); try done.
    destruct H9 as (x & Hx & Hor). exists x. split; [|done]. destruct Hor as [[-> Hf]|[-> Hf]]; [by apply Hd1|].
    refine (dest_ok_arena _ _ _ _ _ Hg _ Hx). intros v f Hv. apply Htr. unfold vectors. rewrite !elem_of_app. right; left.
    apply list_elem_of_bind. by exists (entry_token o, Some x).
  - intros t v Ht. destruct (H10 t v Ht) as ((l & Hb) & Hf & Hop). split_and!; [|intros f Hin|done].
    { exists l. by apply (ReadVector.bundle_granule (arena s)). }
    apply (Htr v f); [|done|by apply Hf]. unfold vectors. rewrite !elem_of_app. right; right.
    unfold leases in Ht. apply elem_of_app in Ht as [Ht|Ht]; [left; by apply (list_elem_of_fmap_2' snd _ (t, v))|right].
    apply list_elem_of_bind in Ht as (c & Ht & Hcin). apply list_elem_of_bind. exists c. split; [|done]. by apply (list_elem_of_fmap_2' snd _ (t, v)).
  - by rewrite Hg.
Qed.

(** ** Every critical section *)

Lemma exec_ok s c : config_ok cfg → inv s → enabled cfg s c → ∃ s', exec cfg s c = Done s' ∧ inv s'.
Proof.
  intros Hcfg Hi He. destruct c; try (by apply file_view);
    eauto using submit_read_view, submit_write_view, submit_fsync_view, submit_vector_view, prepare_view, fill_view,
      publish_view, publish_backlog_view, reap_view, drain_view, take_view, continue_view, drop_lease_view,
      abandon_view, pop_view, claim_view, release_slot_view, arena_view.
Qed.

Lemma driver_initial_inv s : config_ok cfg → initial cfg s → inv s.
Proof.
  intros [Hq0 Hq] (fc & sc & g & a & w & Hfc & Hg & Ha & Hw & ->).
  assert (occupied (CompletionSlab.try_with_capacity (T := OpEntry) (queue_capacity cfg)) = []) as Ho by apply new_occupied.
  unfold DriverSystem.inv. simpl. rewrite Ho. split; simpl; try (intros; set_solver); try done; try apply NoDup_nil_2.
  - apply new_wf. lia.
  - unfold vlen. rewrite length_replicate. lia.
  - by rewrite Ho.
  - apply FileTable.files_initial_inv. by exists fc.
  - unfold vlen. simpl. lia.
  - unfold vlen. simpl. lia.
  - by eapply WriteArena.preallocated_leased.
  - unfold WriteArena.try_preallocated in Hw. by inv_done.
  - unfold vlen. rewrite length_replicate. lia.
Qed.

Lemma driver_reachable_inv s0 s : config_ok cfg → initial cfg s0 → rtc (step cfg) s0 s → inv s.
Proof.
  intros Hcfg H0. revert s. apply (rtc_ind_r inv); [by apply driver_initial_inv|]. intros s1 s2 _ (c & He & Hx) Hi.
  destruct (exec_ok s1 c Hcfg Hi He) as (s' & Hx' & Hi'). rewrite Hx in Hx'. by injection Hx' as ->.
Qed.

(** ** Teardown *)

(** [flush_deferred] is a run of single pops and retirements: the files it finds due are
    retired, those handed to other threads stay with them. *)
Definition flushed (s s' : system) : Prop :=
  deferred (shared s') = [] ∧
  s' = set_shared (mkShared (slab (shared s)) (files (shared s')) (ready (shared s)) (completion_backlog (shared s)) []) s.

Lemma step_exec s c s' : inv s → config_ok cfg → enabled cfg s c → exec cfg s c = Done s' → step cfg s s' ∧ inv s'.
Proof.
  intros Hi Hcfg He Hx. split; [by exists c|]. destruct (exec_ok s c Hcfg Hi He) as (s1 & Hx1 & Hi1). rewrite Hx in Hx1. by injection Hx1 as <-.
Qed.

Lemma retire_step s fd :
  inv s → config_ok cfg → fd ∈ due s →
  ∃ sh s', retire (shared s) fd = Done sh ∧ s' = set_due (filter (λ x, x ≠ fd) (due s)) (set_shared sh s) ∧
    sh = set_files (shared s) (files sh) ∧ step cfg s s' ∧ inv s'.
Proof.
  intros Hi Hcfg Hd. destruct (exec_ok s (CRetire fd) Hcfg Hi Hd) as (s' & Hx & Hi'). pose proof Hx as Hx1. simpl in Hx1.
  destruct (retire (shared s) fd) as [sh|] eqn:Hr; [|done]. mred. injection Hx1 as <-. exists sh. eexists. split_and!; try done.
  - unfold retire in Hr. inv_done. done.
  - by exists (CRetire fd).
Qed.

Lemma flush_steps n s :
  config_ok cfg → inv s → (length (deferred (shared s)) ≤ n)%nat →
  ∃ s', rtc (step cfg) s s' ∧ inv s' ∧ flush_loop n (shared s) = Done (shared s') ∧ flushed s s'.
Proof.
  intros Hcfg. revert s. induction n as [|n IH]; intros s Hi Hn.
  - exists s. assert (deferred (shared s) = []) as Hd by (destruct (deferred (shared s)); [done|simpl in Hn; lia]).
    split_and!; [apply rtc_refl|done|done|]. split; [done|]. destruct s as [[] ? ? ? ? ? ? ? ? ? ? ? ?]. simpl in *. by subst.
  - simpl. destruct (deferred (shared s)) as [|d rest] eqn:Hd.
    { exists s. unfold pop_deferred. rewrite Hd. split_and!; [apply rtc_refl|done|done|]. split; [done|].
      destruct s as [[] ? ? ? ? ? ? ? ? ? ? ? ?]. simpl in *. by subst. }
    destruct (exec_ok s CPopDeferred Hcfg Hi ltac:(done)) as (s1 & Hx & Hi1).
    assert (step cfg s s1) as Hst by (by exists CPopDeferred). simpl in Hx. unfold pop_deferred in *. rewrite Hd in Hx |- *. injection Hx as <-. simpl in Hn.
    destruct (d_retire d) eqn:Hr; mred.
    + destruct (retire_step _ (d_fd d) Hi1 Hcfg) as (sh & s2 & Hrt & -> & Hsh & Hst2 & Hi2); [simpl; by left|]. simpl in Hrt. rewrite Hrt. mred.
      destruct (IH _ Hi2) as (s' & Hrun & Hi' & Hfl & Hz & Heq); [rewrite Hsh; simpl; lia|].
      exists s'. split_and!; [eapply rtc_l; [exact Hst|by eapply rtc_l]|done|exact Hfl|]. split; [done|].
      assert (filter (λ x, x ≠ d_fd d) (d_fd d :: due s) = due s) as Hdue.
      { rewrite filter_cons_False by tauto. apply filter_all. intros x Hx ->. pose proof (FileTable.i_once _ _ (v_files _ _ _ Hi1)) as Hnd.
        simpl in Hnd. apply NoDup_cons in Hnd as [Hnd _]. apply Hnd. set_solver. }
      rewrite Heq at 1. rewrite Hsh. simpl. rewrite Hdue. by destruct s.
    + destruct (IH _ Hi1) as (s' & Hrun & Hi' & Hfl & Hz & Heq); [simpl; lia|].
      exists s'. split_and!; [by eapply rtc_l|done|exact Hfl|]. split; [done|]. rewrite Heq at 1. done.
Qed.

Lemma flush_run s :
  config_ok cfg → inv s →
  ∃ s', rtc (step cfg) s s' ∧ inv s' ∧ flush_deferred cfg (shared s) = Done (shared s') ∧ flushed s s'.
Proof.
  intros Hcfg Hi. apply flush_steps; [done..|]. pose proof (v_capacity _ _ _ Hi) as Hc. unfold vlen in Hc. lia.
Qed.

Lemma filter_not_held (R K : entries) :
  (∀ o, o ∈ R → is_held (op_state o.2) = true) → (∀ o, o ∈ K → is_held (op_state o.2) = false) →
  filter (λ o, is_held (op_state o.2) = false) (R ++ K) = K.
Proof.
  intros HR HK. rewrite filter_app, filter_none, filter_all; [done|done|]. intros o Ho. by rewrite HR.
Qed.

(** The files whose retirement a thread has been handed or a deferred release carries. *)
Definition retiring (s : system) : list FileId := due s ++ due_deferred (deferred (shared s)).

(** Teardown leaves generations alone and moves states only from closing to closed. *)
Definition table_moves (t t' : FileTable.FileTable) : Prop :=
  ∀ (i : nat) f, t !! i = Some f → ∃ f', t' !! i = Some f' ∧ FileTable.generation f' = FileTable.generation f ∧
    (FileTable.state f' = FileTable.state f ∨ FileTable.state f = FileTable.Closing ∧ FileTable.state f' = FileTable.Closed).

Lemma table_moves_refl t : table_moves t t.
Proof. intros i f Hf. exists f. auto. Qed.

Lemma table_moves_trans t1 t2 t3 : table_moves t1 t2 → table_moves t2 t3 → table_moves t1 t3.
Proof.
  intros H1 H2 i f Hf. destruct (H1 i f Hf) as (f1 & Hf1 & Hg1 & Hs1). destruct (H2 i f1 Hf1) as (f2 & Hf2 & Hg2 & Hs2).
  exists f2. split_and!; [done|congruence|]. destruct Hs1 as [Hs1|[Hs1 Hs1']], Hs2 as [Hs2|[Hs2 Hs2']].
  - left; congruence.
  - right; split; congruence.
  - right; split; congruence.
  - congruence.
Qed.

Lemma table_moves_set (t : FileTable.FileTable) i f f' :
  t !! i = Some f → FileTable.generation f' = FileTable.generation f →
  (FileTable.state f' = FileTable.state f ∨ FileTable.state f = FileTable.Closing ∧ FileTable.state f' = FileTable.Closed) → table_moves t (<[i := f']> t).
Proof.
  intros Hf Hg Hst j x Hx. destruct (decide (j = i)) as [->|Hne]; [|exists x; rewrite list_lookup_insert_ne by done; auto].
  simplify_eq. exists f'. rewrite list_lookup_insert_eq by (by eapply lookup_lt_Some). done.
Qed.

Lemma flush_moves n sh sh' : flush_loop n sh = Done sh' → table_moves (files sh) (files sh').
Proof.
  revert sh. induction n as [|n IH]; intros sh H; simpl in H; [injection H as <-; apply table_moves_refl|].
  unfold pop_deferred in H. destruct (deferred sh) as [|d rest]; [injection H as <-; apply table_moves_refl|].
  apply outcome_bind_Done in H as (sh1 & H1 & H). eapply table_moves_trans; [|by apply IH].
  destruct (d_retire d); [|injection H1 as <-; apply table_moves_refl]. unfold retire, FileTable.finish_retire in H1. inv_done. simpl.
  eapply table_moves_set; [done|done|]. right. simpl. split; [|done]. by reflect_bools.
Qed.

Lemma release_moves sh slot sh' : release_read_lease cfg sh slot = Done sh' → table_moves (files sh) (files sh').
Proof. unfold release_read_lease, FileTable.on_complete. intros H. inv_pairs. simpl. eapply table_moves_set; [done|done|by left]. Qed.

Lemma abandon_moves n slot sh sh' : abandon_from cfg n slot sh = Done sh' → table_moves (files sh) (files sh').
Proof.
  revert slot sh. induction n as [|n IH]; intros slot sh H; simpl in H; [injection H as <-; apply table_moves_refl|].
  apply outcome_bind_Done in H as (e & _ & H). apply outcome_bind_Done in H as (sh1 & H1 & H). eapply table_moves_trans; [|by eapply IH].
  destruct (payload e) as [x|]; [destruct (is_held _); [by eapply release_moves|]|]; injection H1 as <-; apply table_moves_refl.
Qed.

Lemma closing_kept t t' fd :
  table_moves t t' → FileTable.slot_of (id cfg) t fd (λ f, FileTable.state f = FileTable.Closing) →
  FileTable.slot_of (id cfg) t' fd (λ f, FileTable.state f = FileTable.Closing ∨ FileTable.state f = FileTable.Closed).
Proof.
  intros Hm (f & Hf & Hid & Hst). destruct (Hm _ _ Hf) as (f' & Hf' & Hg & Hst'). exists f'. split_and!; [done| |].
  - unfold FileTable.current in *. by rewrite Hg.
  - destruct Hst' as [Hs|[_ Hs]]; rewrite Hs; auto.
Qed.

(** A closed file without operations is retired or its retirement is with somebody. *)
Lemma retired_closed ds s fd :
  inv s → due s = ds → deferred (shared s) = [] → fd ∉ ds →
  FileTable.slot_of (id cfg) (files (shared s)) fd (λ f, FileTable.state f = FileTable.Closing ∨ FileTable.state f = FileTable.Closed) →
  (∀ o, o ∈ occupied (slab (shared s)) → op_fd o.2 = fd → False) → FileTable.is_closed (files (shared s)) fd = Done true.
Proof.
  intros Hi Hds Hd Hnd (f & Hf & Hid & Hst) Hno. pose proof (v_files _ _ _ Hi) as Hfi. unfold FileTable.is_closed. rewrite (proj2 (vget_Done _ _ _) Hf). mred.
  assert (FileTable.generation f = fid_generation fd) as Hg by (rewrite Hid; done). rewrite Hg, N.eqb_refl. destruct Hst as [Hst|Hst].
  - exfalso. assert (fd ∈ due s ++ due_deferred (deferred (shared s))) as Hin.
    { rewrite Hid. apply (FileTable.i_closing _ _ Hfi _ f Hf Hst). rewrite (FileTable.i_inflight _ _ Hfi _ f Hf). simpl.
      unfold FileTable.on_slot. destruct (filter _ _) as [|x l] eqn:E; [done|]. exfalso.
      assert (x ∈ filter (λ id, fid_slot id = fid_slot fd) ((λ o, op_fd o.2) <$> occupied (slab (shared s)))) as Hx by (rewrite E; by left).
      apply list_elem_of_filter in Hx as [Hs (o & -> & Ho)%list_elem_of_fmap]. apply (Hno o Ho).
      destruct (FileTable.i_ops _ _ Hfi (op_fd o.2)) as (f' & Hf' & Hid' & _); [simpl; by apply (list_elem_of_fmap_2 (λ o, op_fd o.2))|]. simpl in Hf'.
      rewrite Hs in Hf', Hid'. simplify_eq. congruence. }
    rewrite Hd, app_nil_r, Hds in Hin. done.
  - rewrite Hst. simpl. by rewrite orb_true_r.
Qed.

Lemma operation_open s o : inv s → o ∈ occupied (slab (shared s)) → FileTable.is_closed (files (shared s)) (op_fd o.2) = Done false.
Proof.
  intros Hi Ho. destruct (FileTable.i_ops _ _ (v_files _ _ _ Hi) (op_fd o.2)) as (f & Hf & Hid & Hst); [simpl; by apply (list_elem_of_fmap_2 (λ o, op_fd o.2))|].
  simpl in Hf. unfold FileTable.is_closed. rewrite (proj2 (vget_Done _ _ _) Hf). mred. assert (FileTable.generation f = fid_generation (op_fd o.2)) as -> by (rewrite Hid; done).
  rewrite N.ltb_irrefl. rewrite bool_decide_eq_false_2; [by rewrite andb_false_r|]. destruct Hst; congruence.
Qed.

(** ** What holds in every reachable state *)

Context (Hcfg : config_ok cfg) (s0 s : system) (H0 : initial cfg s0) (Hs : rtc (step cfg) s0 s).

(** C14 (no panic): however the threads interleave, every critical section whose caller
    and backend keep to their side of [enabled] runs to its end: no assertion, no
    index, no arithmetic of the driver core fails. *)
Theorem driver_never_panics c : enabled cfg s c → ∃ s', exec cfg s c = Done s'.
Proof.
  intros He. destruct (exec_ok s c Hcfg (driver_reachable_inv s0 s Hcfg H0 Hs) He) as (s' & Hx & _). by exists s'.
Qed.

(** C15 (accounting): every token is issued once; it is final, abandoned with its lease, or
    names an operation still pending, and never two of these; the slab accepts
    exactly the tokens of the operations it holds; and a staging slot belongs to one
    caller or to one of these operations. *)
Theorem driver_accounts_operations :
  NoDup (issued s) ∧ issued s ≡ₚ final s ++ abandoned s ++ (occupied (slab (shared s)) ≫= pending_of) ∧
  (∀ t, t ∈ issued s → ∃ b, contains (slab (shared s)) t = Done b ∧ (b = true ↔ t ∈ live_tokens (occupied (slab (shared s))))) ∧
  NoDup (write_leases s ++ (occupied (slab (shared s)) ≫= slot_of)).
Proof.
  pose proof (driver_reachable_inv s0 s Hcfg H0 Hs) as Hi.
  split_and!; [apply (v_nodup _ _ _ Hi)|apply (v_issued _ _ _ Hi)| |apply (WriteArena.ls_nodup _ (v_staging _ _ _ Hi))].
  intros t Ht. pose proof (v_slab _ _ _ Hi) as Hw.
  assert (OpToken_slot t < vlen (slots (slab (shared s)))) as Hlt.
  { destruct (v_minted _ _ _ Hi t Ht) as (i & g & e & -> & Hsl & _). apply vget_lt in Hsl. pose proof (w_width _ _ Hw). rewrite OpToken_slot_new; lia. }
  destruct (contains_iff [] _ t Hw Hlt) as (b & Hc & Hb). exists b. split; [done|]. rewrite Hb. unfold live_tokens. rewrite list_elem_of_fmap.
  naive_solver.
Qed.

(** C16 (admission): a submission is refused as stale exactly for a file that is not
    live, and as full exactly when operations in the slab, completions not yet drained
    and releases not yet flushed together reach the queue capacity; an admitted one
    gets a vacant slot. *)
Theorem driver_admission fd live :
  fid_driver fd = id cfg → FileTable.is_live (files (shared s)) fd = Done live →
  let load := vlen (occupied (slab (shared s))) + vlen (completion_backlog (shared s)) + vlen (deferred (shared s)) in
  ∃ sh r, admission cfg (shared s) fd = Done (sh, r) ∧ occupied (slab sh) = occupied (slab (shared s)) ∧
    (r = inr StaleHandle ↔ live = false) ∧ (r = inr Full ↔ live = true ∧ queue_capacity cfg ≤ load) ∧
    ∀ slot, r = inl slot → ∀ o, o ∈ occupied (slab (shared s)) → o.1.1 ≠ slot.
Proof.
  intros Hown Hlive load. pose proof (driver_reachable_inv s0 s Hcfg H0 Hs) as Hi. destruct live.
  - destruct (admission_live cfg s _ fd Hi Hcfg Hown Hlive) as [[-> Hge]|(s1 & slot & -> & Hlt & Hw & Hsl & Ho)].
    + exists (shared s), (inr Full). split_and!; try done.
    + eexists _, (inl slot). split_and!; try done.
      * split; [done|]. intros [_ Hge]. unfold load in Hge. lia.
      * intros ? [= <-] [[i g] e] Hin%occupied_elem Heq. simpl in Heq. subst i. rewrite <- Hsl in Hin.
        apply (w_vacant _ _ Hw) in Hin as [_ Hin]. discriminate Hin. by left.
  - exists (shared s), (inr StaleHandle). unfold admission, assert_own. rewrite Hown, N.eqb_refl. mred. rewrite Hlive. mred.
    split_and!; try done. naive_solver.
Qed.

(** Fixed storage: the operations, the ready queue, the completion backlog and the
    release queue never exceed the capacity they were allocated with. *)
Theorem driver_queues_bounded :
  let Q := queue_capacity cfg in
  vlen (occupied (slab (shared s))) + vlen (deferred (shared s)) ≤ Q ∧ vlen (ready (shared s)) ≤ Q ∧
  vlen (completion_backlog (shared s)) ≤ Q ∧ vlen (active s) ≤ Q.
Proof.
  pose proof (driver_reachable_inv s0 s Hcfg H0 Hs) as Hi. simpl. set (K := occupied (slab (shared s))) in *.
  pose proof (v_capacity _ _ _ Hi) as Hc. pose proof (v_retained _ _ _ Hi) as Hr. pose proof (queued_length K) as Hq.
  pose proof (Permutation_length (v_ready _ _ _ Hi)) as Hrd. pose proof (Permutation_length (v_active _ _ _ Hi)) as Ha.
  rewrite length_fmap in Ha. fold K in Hrd, Ha, Hc, Hr. assert (length (K ≫= active_of) ≤ length K)%nat.
  { clear. induction K as [|o K IH]; [done|]. rewrite bind_cons, length_app. unfold active_of at 1. destruct (is_active _); cbn [length]; lia. }
  unfold vlen in *. split_and!; lia.
Qed.

(** C17 (retirement): a file handed over for retirement, to a thread or through a deferred
    release, is handed over once; it has no open handle and no operation left in the
    driver, so its descriptor is closed under nobody. *)
Theorem retired_file_quiet :
  NoDup (retiring s) ∧ ∀ fd, fd ∈ retiring s → (fd ∉ handles s) ∧ (fd ∉ reserved s) ∧ ∀ o, o ∈ occupied (slab (shared s)) → op_fd o.2 ≠ fd.
Proof.
  pose proof (v_files _ _ _ (driver_reachable_inv s0 s Hcfg H0 Hs)) as Hf. simpl. split; [exact (FileTable.i_once _ _ Hf)|]. intros fd Hd.
  destruct (FileTable.i_due _ _ Hf fd Hd) as (f & Hfi & Hcur & Hst & Hz). simpl in *. split_and!.
  - intros Hh. destruct (FileTable.i_handles _ _ Hf fd Hh) as (f' & Hf' & _ & Hop). simpl in *. congruence.
  - intros Hh. destruct (FileTable.i_reserved _ _ Hf fd Hh) as (f' & Hf' & _ & Hop & _). simpl in *. congruence.
  - intros o Ho Heq. pose proof (FileTable.i_inflight _ _ Hf _ _ Hfi) as Hn. simpl in Hn. rewrite Hz in Hn.
    assert (fd ∈ FileTable.on_slot (fid_slot fd) ((λ o, op_fd o.2) <$> occupied (slab (shared s)))) as Hin.
    { apply list_elem_of_filter. split; [done|]. rewrite <- Heq. by apply (list_elem_of_fmap_2 (λ o, op_fd o.2)). }
    destruct (FileTable.on_slot _ _); [by apply elem_of_nil in Hin|]. unfold vlen in Hn. simpl in Hn. lia.
Qed.

(** C18 (teardown): abandoning the held continuations terminates, releases exactly the
    held operations and leaves no release undone; every closed file that had only held
    operations is retired, unless another thread was handed its retirement before; the
    files of the operations that remain are not. *)
Theorem teardown_releases_held :
  ∃ sh, abandon_held_continuations cfg (shared s) = Done sh ∧ deferred sh = [] ∧
    occupied (slab sh) ≡ₚ filter (λ o, is_held (op_state o.2) = false) (occupied (slab (shared s))) ∧
    (∀ fd, FileTable.slot_of (id cfg) (files (shared s)) fd (λ f, FileTable.state f = FileTable.Closing) →
      (∀ o, o ∈ occupied (slab (shared s)) → op_fd o.2 = fd → is_held (op_state o.2) = true) → fd ∉ due s →
      FileTable.is_closed (files sh) fd = Done true) ∧
    (∀ o, o ∈ occupied (slab sh) → FileTable.is_closed (files sh) (op_fd o.2) = Done false).
Proof.
  pose proof (driver_reachable_inv s0 s Hcfg H0 Hs) as Hi. unfold abandon_held_continuations.
  destruct (abandon_steps (N.to_nat (queue_capacity cfg)) 0 s _ Hi) as (sh1 & R & K & Hab & HK & Hv & HR & Hno); [lia|]. rewrite Hab. mred.
  pose proof (view_inv _ _ _ Hv) as Hi1.
  destruct (flush_run _ Hcfg Hi1) as (s' & _ & Hi' & Hsh & Hd & Heq). simpl in Hsh.
  assert (occupied (slab (shared s')) ≡ₚ filter (λ o, is_held (op_state o.2) = false) (occupied (slab (shared s)))) as Hocc.
  { assert (slab (shared s') = slab sh1) as -> by (by rewrite Heq).
    rewrite HK, filter_not_held; [apply (v_view _ _ _ Hv)|done|].
    intros [[i g] e] Ho. apply Hno; [done|lia|]. simpl. apply (view_elem cfg _ _ _ Hv), occupied_range in Ho.
    rewrite (v_slots _ _ _ Hv) in Ho. lia. }
  exists (shared s'). split_and!; try done.
  - intros fd Hcl Hheld Hnd. apply (retired_closed (due s') s' fd Hi' eq_refl).
    + exact Hd.
    + assert (due s' = due s) as -> by (by rewrite Heq). done.
    + eapply closing_kept; [|exact Hcl]. eapply table_moves_trans; [by eapply abandon_moves|by eapply flush_moves].
    + intros o Ho Hfd. rewrite Hocc in Ho. apply list_elem_of_filter in Ho as [Hh Ho]. rewrite (Hheld o Ho Hfd) in Hh. done.
  - intros o Ho. by eapply operation_open.
Qed.
End safety.

End DriverSafety.

Module DriverWitness.
Import CompletionSlab Execute Driver DriverSystem DriverSafety.

Definition cfg : Config := mkConfig 9 2 3 512.
Definition frames : Frames.Frames := Frames.mkFrames [0; 0] [None; None] 2 512 7.
Definition staging0 : WriteArena.ArenaState :=
  match WriteArena.try_preallocated 1 64 9 with Done w => w | Panic => WriteArena.mkArena [] 0 0 0 0 end.
Definition start : system :=
  mkSystem (shared_new 2 2) (ReadVector.try_new 2) staging0 frames [] [] [] [] [] [] [] [] [].

Definition after (c : call) (s : system) : system := match exec cfg s c with Done s => s | Panic => s end.

Definition file_a : FileId := mkFileId 9 0 1.
Definition file_b : FileId := mkFileId 9 1 1.

(** Two files are opened, an fsync of the second is handed to the ring, the first is
    closed and due for retirement. *)
Definition opened1 : system := after CReserve start.
Definition opened2 : system := after (CRegistered file_a) opened1.
Definition opened3 : system := after CReserve opened2.
Definition opened : system := after (CRegistered file_b) opened3.
Definition queued : system := after (CSubmitFsync file_b Buffered SyncFull 0) opened.
Definition filled : system := after CFill queued.
Definition busy : system := after (CClose file_a) filled.
Definition token0 : OpToken := OpToken_new 0 1.

Lemma cfg_ok : config_ok cfg.
Proof. split; vm_compute; congruence. Qed.

Lemma driver_start_initial : initial cfg start.
Proof. exists 2, 1, 64, frames, staging0. split_and!; [vm_compute; congruence..|done|done]. Qed.

Lemma reach c s s' : rtc (step cfg) start s → enabled cfg s c → exec cfg s c = Done s' → rtc (step cfg) start s'.
Proof. intros Hs He Hx. eapply rtc_r; [exact Hs|]. by exists c. Qed.

Lemma opened2_reachable : rtc (step cfg) start opened2.
Proof.
  apply (reach (CRegistered file_a) opened1); [|vm_compute; by left|vm_compute; reflexivity].
  apply (reach CReserve start); [apply rtc_refl| |vm_compute; reflexivity].
  split; [vm_compute; congruence|]. intros f Hf. vm_compute in Hf. set_solver.
Qed.

Lemma opened_reachable : rtc (step cfg) start opened.
Proof.
  apply (reach (CRegistered file_b) opened3); [|vm_compute; by left|vm_compute; reflexivity].
  apply (reach CReserve opened2); [apply opened2_reachable| |vm_compute; reflexivity].
  split; [vm_compute; congruence|]. intros f Hf. vm_compute in Hf. set_solver.
Qed.

Lemma queued_reachable : rtc (step cfg) start queued.
Proof.
  apply (reach (CSubmitFsync file_b Buffered SyncFull 0) opened); [apply opened_reachable| |vm_compute; reflexivity].
  split_and!; [vm_compute; by left|done|done|]. intros e He. vm_compute in He. set_solver.
Qed.

Lemma busy_reachable : rtc (step cfg) start busy.
Proof.
  apply (reach (CClose file_a) filled); [|vm_compute; right; by left|vm_compute; reflexivity].
  apply (reach CFill queued); [apply queued_reachable|done|vm_compute; reflexivity].
Qed.

Lemma driver_never_panics_witness : ∃ s', exec cfg busy (CReap token0 0) = Done s'.
Proof.
  apply (driver_never_panics cfg cfg_ok start busy driver_start_initial busy_reachable).
  split; [vm_compute; by left|]. exists 0. split; [|done]. eexists. split; [vm_compute; by left|]. by split.
Defined.

Lemma driver_accounts_operations_witness : NoDup (issued busy) ∧ issued busy = [token0].
Proof.
  destruct (driver_accounts_operations cfg cfg_ok start busy driver_start_initial busy_reachable) as (Hnd & _ & _).
  split; [exact Hnd|reflexivity].
Defined.

Lemma driver_admission_witness : ∃ sh slot, admission cfg (shared busy) file_b = Done (sh, inl slot) ∧ occupied (slab sh) = occupied (slab (shared busy)).
Proof.
  destruct (driver_admission cfg cfg_ok start busy driver_start_initial busy_reachable file_b true) as (sh & r & Hx & Ho & _ & Hf & _);
    [reflexivity|reflexivity|].
  destruct r as [slot|]; [by exists sh, slot|]. vm_compute in Hx. discriminate Hx.
Defined.

Lemma driver_queues_bounded_witness : vlen (active busy) = 1 ∧ vlen (active busy) ≤ queue_capacity cfg.
Proof.
  destruct (driver_queues_bounded cfg cfg_ok start busy driver_start_initial busy_reachable) as (_ & _ & _ & H). split; [reflexivity|exact H].
Defined.

(** The first file's retirement is with a thread: nobody else holds the file. *)
Lemma retired_file_quiet_witness :
  file_a ∈ due busy ∧ (file_a ∉ handles busy) ∧ (file_a ∉ reserved busy) ∧ ∀ o, o ∈ occupied (slab (shared busy)) → op_fd o.2 ≠ file_a.
Proof.
  assert (file_a ∈ due busy) as Hd by (vm_compute; by left). split; [exact Hd|].
  destruct (retired_file_quiet cfg cfg_ok start busy driver_start_initial busy_reachable) as [_ H].
  apply (H file_a). apply elem_of_app. by left.
Defined.

(** A read of two frames comes back short; while its continuation waits, its file is
    closed and an fsync of the other file is queued. *)
Definition inflight_frames : Frames.Frames := Frames.mkFrames [1; 1] [None; None] 2 512 7.
Definition destinations : list Frames.InFlightFrame := [Frames.mkInFlightFrame 7 1; Frames.mkInFlightFrame 7 2].
Definition destination : ReadVector.ReadVector :=
  match ReadVector.push_all inflight_frames ReadVector.new destinations with Done v => v | Panic => ReadVector.new end.
Definition framed : system := after (CArena inflight_frames) opened.
Definition vector_queued : system := after (CSubmitVector file_a Buffered destination 0 PoolLease 0) framed.
Definition vector_filled : system := after CFill vector_queued.
Definition vector_held : system := after (CReap token0 512) vector_filled.
Definition other_queued : system := after (CSubmitFsync file_b Buffered SyncFull 0) vector_held.
Definition leaving : system := after (CClose file_a) other_queued.

Lemma destination_bundle : ReadVector.bundle inflight_frames destinations destination.
Proof.
  destruct (ReadVector.push_all_bundle inflight_frames ltac:(done) [] destinations ReadVector.new) as (v & Hp & Hb & _); try done.
  - repeat constructor; vm_compute; reflexivity.
  - apply (bool_decide_unpack _). vm_compute. exact I.
Qed.

Lemma destination_transferable f : Some f ∈ ReadVector.frames destination → ReadVector.transferable inflight_frames f.
Proof.
  intros Hf. rewrite (ReadVector.b_frames _ _ _ destination_bundle), elem_of_app in Hf. destruct Hf as [Hf|Hf].
  - apply list_elem_of_fmap in Hf as (f' & [= <-] & Hf). revert f Hf. apply Forall_forall. repeat constructor; vm_compute; reflexivity.
  - apply elem_of_replicate in Hf as [? _]. done.
Qed.

Lemma vector_queued_reachable : rtc (step cfg) start vector_queued.
Proof.
  apply (reach (CSubmitVector file_a Buffered destination 0 PoolLease 0) framed); [| |vm_compute; reflexivity].
  - apply (reach (CArena inflight_frames) opened); [apply opened_reachable| |reflexivity].
    split_and!; [reflexivity..|]. intros v f Hv. vm_compute in Hv. set_solver.
  - split; [|split; [vm_compute; reflexivity|split; [done|split; [by exists destinations; split; [exact destination_bundle|]|
      split; [vm_compute; reflexivity|split; [vm_compute; reflexivity|split]]]]]].
    + split_and!; [vm_compute; right; by left|done|done|]. intros e He. vm_compute in He. set_solver.
    + exact destination_transferable.
    + vm_compute. congruence.
Qed.

Lemma leaving_reachable : rtc (step cfg) start leaving.
Proof.
  apply (reach (CClose file_a) other_queued); [|vm_compute; right; by left|vm_compute; reflexivity].
  apply (reach (CSubmitFsync file_b Buffered SyncFull 0) vector_held); [| |vm_compute; reflexivity].
  - apply (reach (CReap token0 512) vector_filled); [| |vm_compute; reflexivity].
    + apply (reach CFill vector_queued); [apply vector_queued_reachable|done|vm_compute; reflexivity].
    + split; [vm_compute; by left|]. exists 1024. split; [|done]. eexists. split; [vm_compute; by left|]. by split.
  - split_and!; [vm_compute; by left|done|vm_compute; congruence|]. intros e He. vm_compute in He. set_solver.
Qed.

(** Teardown drops the continuation and retires its file; the fsync stays. *)
Lemma teardown_releases_held_witness :
  continuations (occupied (slab (shared leaving))) = [token0] ∧
  ∃ sh, abandon_held_continuations cfg (shared leaving) = Done sh ∧ deferred sh = [] ∧
    (λ o, op_fd o.2) <$> occupied (slab sh) = [file_b] ∧
    FileTable.is_closed (files (shared leaving)) file_a = Done false ∧ FileTable.is_closed (files sh) file_a = Done true.
Proof.
  split; [vm_compute; reflexivity|].
  destruct (teardown_releases_held cfg cfg_ok start leaving driver_start_initial leaving_reachable) as (sh & H1 & H2 & H3 & H4 & _).
  exists sh. split_and!; [exact H1|exact H2| |vm_compute; reflexivity|].
  - apply (fmap_Permutation (λ o, op_fd o.2)) in H3. apply Permutation_singleton_r. etrans; [exact H3|].
    vm_compute. reflexivity.
  - apply H4.
    + eexists. split_and!; vm_compute; reflexivity.
    + assert (Forall (λ o, op_fd o.2 = file_a → is_held (op_state o.2) = true) (occupied (slab (shared leaving)))) as Hall.
      { apply (bool_decide_unpack _). vm_compute. exact I. }
      rewrite Forall_forall in Hall. exact Hall.
    + apply (bool_decide_unpack _). vm_compute. exact I.
Defined.

End DriverWitness.
