(* ===== verification/Poll.v ===== *)
(** * The polling loop of the eager backends

    Models [DriverCore::poll] of src/src/driver.rs as the composition of the critical
    sections of [Driver]: the leases left in the caller's batch are dropped, deferred
    releases flushed, the backlog drained, and then operations prepared, executed
    against the backend (a parameter, as in [Execute]) and published until the batch is
    full or the ready queue empty.  The theorem says what one poll achieves. *)
From stdpp Require Import prelude list relations.
From Stdlib Require Import NArith ZArith Lia.
From S2P Require Import Prelude Ids Frames Alignment WriteArena FileTable Execute ReadVector Slab Driver DriverSystem DriverSafety.

Open Scope N_scope.

Module Poll.
Import CompletionSlab Execute Driver DriverSystem DriverSafety.

(** The tokens the drop of a completion's destination aborts. *)
Definition dropped_frames (d : option ReadDestination) : list Frames.InFlightFrame :=
  match d with Some (Vector v) => ReadVector.drop_vector v | _ => [] end.

Section poll.
Context (cfg : Config) {B : Type} (attempt : B → OpKind → OpContext → B * Attempt).

(** [CompletionBatch::reset]: each completion is dropped, and with it its lease. *)
Fixpoint reset (sh : Shared) (batch : list Completion) : outcome (Shared * list Frames.InFlightFrame) :=
  match batch with
  | [] => Done (sh, [])
  | c :: batch =>
      sh ← (match c_continuation c with Some t => drop_continuation cfg sh t | None => Done sh end);
      '(sh, aborted) ← reset sh batch;
      Done (sh, dropped_frames (c_frame c) ++ aborted)
  end.

(** The loop of [poll] with room for [n] more completions; an exhausted retry budget of
    [execute] is no result here. *)
Fixpoint poll_loop (n : nat) (memory : N → N) (granule : N) (b : B) (staging : WriteArena.ArenaState) (sh : Shared) :
    outcome (B * WriteArena.ArenaState * Shared * list Completion * list Frames.InFlightFrame) :=
  match n with
  | O => Done (b, staging, sh, [], [])
  | S n =>
      next ← prepare_next memory staging sh;
      match next with
      | None => Done (b, staging, sh, [], [])
      | Some (sh, slot, kind, d, context) =>
          '(b, r) ← execute attempt (retry_bound cfg) (enough (retry_bound cfg) context) b kind context;
          r ← expect r;
          '(sh, staging, c, aborted) ← publish granule staging sh slot r d;
          '(b, staging, sh, cs, more) ← poll_loop n memory granule b staging sh;
          Done (b, staging, sh, c :: cs, aborted ++ more)
      end
  end.

Definition poll (memory : N → N) (granule : N) (b : B) (staging : WriteArena.ArenaState) (sh : Shared)
    (batch : list Completion) (capacity : N) :
    outcome (B * WriteArena.ArenaState * Shared * list Completion * list Frames.InFlightFrame) :=
  assertb (0 <? capacity);;
  '(sh, aborted) ← reset sh batch;
  sh ← flush_deferred cfg sh;
  let '(sh, drained) := drain_completion_backlog sh capacity in
  '(b, staging, sh, cs, more) ← poll_loop (N.to_nat (capacity - vlen drained)) memory granule b staging sh;
  Done (b, staging, sh, drained ++ cs, aborted ++ more).

Hypothesis (honest : ∀ b kind c b' n, attempt b kind c = (b', ADone n) → n ≤ cx_requested_len c).
Hypothesis (Hcfg : config_ok cfg).
Abbreviation inv := (inv cfg).

Definition slots_of (cs : list Completion) : list N := (λ c, OpToken_slot (c_token c)) <$> cs.

(** The parts of the state a poll leaves to other calls. *)
Definition steady (s s' : system) : Prop := arena s' = arena s ∧ storage s' = storage s ∧ handles s' = handles s.

Lemma finalize_keeps staging sh slot r d sh' staging' c fd ab :
  finalize staging sh slot r d = Done (sh', staging', c, fd, ab) → ready sh' = ready sh ∧ deferred sh' = deferred sh.
Proof. unfold finalize. intros H. by inv_pairs. Qed.

Lemma finish_keeps granule staging sh slot r d sh' staging' c fd ab :
  finish_attempt granule staging sh slot r d = Done (sh', staging', c, fd, ab) → ready sh' = ready sh ∧ deferred sh' = deferred sh.
Proof.
  unfold finish_attempt. intros H. inv_pairs.
  match goal with H : match ?o with _ => _ end = Done _ |- _ => destruct o as [[f|v]|] end; inv_pairs.
  - match goal with H : finalize _ _ _ _ _ = _ |- _ => by apply finalize_keeps in H end.
  - match goal with H : (if ?b then _ else _) = Done _ |- _ => destruct b end; [by inv_pairs|].
    match goal with H : (if ?b then _ else _) = Done _ |- _ => destruct b end; inv_pairs; [done|].
    match goal with H : finalize _ _ _ _ _ = _ |- _ => by apply finalize_keeps in H end.
  - match goal with H : finalize _ _ _ _ _ = _ |- _ => by apply finalize_keeps in H end.
Qed.

Lemma context_sizes e c :
  prepared e c → op_kind e = Write →
  cx_requested_len c = vlen (cx_write_buf c) ∧ vlen (cx_write_buf c) ≤ U32_MAX ∧
  cx_file_offset c + vlen (cx_write_buf c) ≤ U64_MAX ∧ cx_destination_offset c + vlen (cx_write_buf c) ≤ U32_MAX.
Proof. intros [_ Hw] Hk. destruct (Hw Hk) as (H1 & H2 & H3 & H4 & H5). rewrite H2. done. Qed.

(** A prepared operation's attempt is published. *)
Lemma publish_run s t n d r :
  inv s → (t, d) ∈ active s → asks s t n → transferred r ≤ n →
  ∃ s' c ab, publish (Frames.granule (arena s)) (staging s) (shared s) (OpToken_slot t) r d = Done (shared s', staging s', c, ab) ∧
    rtc (step cfg) s s' ∧ inv s' ∧ steady s s' ∧ c_token c = t ∧
    ready (shared s') = ready (shared s) ∧ deferred (shared s') = deferred (shared s).
Proof.
  intros Hi Hd Ha Hn. assert (t ∈ (active s).*1) as Ht by (by apply (fst_elem t d)).
  destruct (under_way_of cfg s t n Hi Ht Ha) as (K & i & g & e & d' & Hu & -> & Hs & Hd' & Hao & <- & _).
  assert (d' = d) as -> by (rewrite (assoc_elem _ d _ (active_nodup cfg s _ Hi) Hd) in Hao; by simplify_eq).
  destruct (attempt_view cfg s K i g e Hu false d r Hd (λ _, Hn)) as (sh & a & c & fd & ab & Hf & Hc & _ & _).
  pose proof (finish_keeps _ _ _ _ _ _ _ _ _ _ _ Hf) as [Hr1 Hd1].
  assert (exec cfg s (CPublish (OpToken_new i g) r) = Done (set_held (lease_of c ++ held s) (attempted s sh a c fd))) as Hx.
  { simpl. rewrite Hao. mred. rewrite Hs, Hf. done. }
  edestruct (λ H, step_exec cfg s (CPublish (OpToken_new i g) r) _ Hi Hcfg H Hx) as [Hst Hi1].
  { split; [done|]. by exists (op_requested_len e). }
  set (s1 := set_held _ _) in *.
  assert (shared s1 = sh ∧ staging s1 = a ∧ due s1 = option_list fd ++ due s ∧ steady s s1) as (Hsh & Hsta & Hdue & Hsteady).
  { unfold s1, attempted, steady. case_decide; done. }
  unfold publish. rewrite Hs, Hf. mred. destruct fd as [fd|]; simpl.
  - destruct (retire_step cfg s1 fd Hi1 Hcfg) as (sh2 & s2 & Hrt & Heq & Hsh2 & Hst2 & Hi2); [rewrite Hdue; simpl; by left|].
    rewrite Hsh in Hrt, Hsh2. rewrite Hrt. mred. exists s2, c, ab.
    assert (shared s2 = sh2 ∧ staging s2 = a ∧ steady s s2) as (-> & -> & Hsteady2) by (rewrite Heq; simpl; done).
    split_and!; try done; [by eapply rtc_l, rtc_once|by rewrite Hsh2..].
  - eexists s1, c, ab. rewrite Hsh, Hsta. split_and!; try done. by apply rtc_once.
Qed.

(** One round of the loop. *)
Lemma round_ok memory s b sh slot g e d context :
  inv s → prepare_next memory (staging s) (shared s) = Done (Some (sh, slot, op_kind e, d, context)) →
  token (slab sh) slot = Done (OpToken_new slot g) → (slot, g, e) ∈ occupied (slab sh) → prepared e context →
  inv (set_active ((OpToken_new slot g, d) :: active s) (set_shared sh s)) →
  ∃ b' r s' c ab,
    execute attempt (retry_bound cfg) (enough (retry_bound cfg) context) b (op_kind e) context = Done (b', Some r) ∧
    publish (Frames.granule (arena s)) (staging s) sh slot r d = Done (shared s', staging s', c, ab) ∧
    rtc (step cfg) s s' ∧ inv s' ∧ steady s s' ∧ OpToken_slot (c_token c) = slot ∧
    ready (shared s') = ready sh ∧ deferred (shared s') = deferred sh.
Proof.
  intros Hi Hp Ht Hin Hpre Hi1. set (s1 := set_active _ _) in Hi1.
  assert (step cfg s s1) as Hst by (exists (CPrepare memory); split; [done|]; simpl; rewrite Hp; mred; by rewrite Ht).
  destruct (execute_total attempt (retry_bound cfg) honest b (op_kind e) context) as (b' & r & He & Hr); [by apply context_sizes|].
  destruct Hpre as [Hle _]. pose proof (slot_of_token cfg s1 _ slot g e Hi1 Hin) as Hs.
  destruct (publish_run s1 (OpToken_new slot g) (op_requested_len e) d r Hi1) as (s' & c & ab & Hpub & Hrun & Hi' & Hste & Hc & Hrd & Hdf).
  { by left. }
  { exists (slot, g, e). by split_and!. }
  { destruct r; simpl; lia. }
  exists b', r, s', c, ab. rewrite Hs in Hpub. split_and!; try done.
  - by eapply rtc_l.
  - by rewrite Hc.
Qed.

Lemma steady_trans s1 s2 s3 : steady s1 s2 → steady s2 s3 → steady s1 s3.
Proof. unfold steady. intros (-> & -> & ->) (-> & -> & ->). done. Qed.

Lemma loop_ok n memory b s :
  inv s →
  ∃ b' s' cs ab, poll_loop n memory (Frames.granule (arena s)) b (staging s) (shared s) = Done (b', staging s', shared s', cs, ab) ∧
    rtc (step cfg) s s' ∧ inv s' ∧ steady s s' ∧ ready (shared s) = slots_of cs ++ ready (shared s') ∧
    deferred (shared s') = deferred (shared s) ∧ (length cs ≤ n)%nat ∧ ((length cs < n)%nat → ready (shared s') = []).
Proof.
  revert b s. induction n as [|n IH]; intros b s Hi.
  - exists b, s, [], []. split_and!; try done; try apply rtc_refl; simpl; lia.
  - simpl. destruct (prepare_cases cfg s memory Hi) as [[Hr ->]|(sh & slot & g & e & d & c & Hp & Ht & Hin & Hpre & Hr & _ & Hdf & Hi1)]; mred.
    + exists b, s, [], []. split_and!; try done; try apply rtc_refl; simpl; lia.
    + destruct (round_ok memory s b sh slot g e d c Hi Hp Ht Hin Hpre Hi1) as (b1 & r & s1 & k & ab & He & Hpub & Hrun & Hi' & Hste & Hk & Hr1 & Hd1).
      rewrite Hp. mred. rewrite He. mred. rewrite Hpub. mred. destruct Hste as (Ha & Hst & Hh). rewrite <- Ha.
      destruct (IH b1 s1 Hi') as (b2 & s2 & cs & ab2 & -> & Hrun2 & Hi2 & Hste2 & Hr2 & Hd2 & Hlen & Hend). mred.
      exists b2, s2, (k :: cs), (ab ++ ab2). split_and!; try done.
      * by eapply transitivity.
      * by apply (steady_trans s s1).
      * rewrite Hr. unfold slots_of. rewrite fmap_cons, Hk. simpl. f_equal. by rewrite <- Hr1, Hr2.
      * by rewrite Hd2, Hd1.
      * simpl. lia.
      * simpl. intros. apply Hend. lia.
Qed.

(** The leases of a batch. *)
Definition batch_leases (batch : list Completion) : list OpToken := batch ≫= λ c, option_list (c_continuation c).

Lemma reset_ok batch s :
  inv s → NoDup (batch_leases batch) → (∀ t, t ∈ batch_leases batch → t ∈ (held s).*1) →
  ∃ s' ab, reset (shared s) batch = Done (shared s', ab) ∧ rtc (step cfg) s s' ∧ inv s' ∧ steady s s' ∧
    staging s' = staging s ∧ ready (shared s') = ready (shared s) ∧ completion_backlog (shared s') = completion_backlog (shared s) ∧
    active s' = active s.
Proof.
  revert s. induction batch as [|c batch IH]; intros s Hi Hnd Hh.
  - exists s, []. split_and!; try done.
  - simpl. unfold batch_leases in Hnd, Hh. rewrite bind_cons in Hnd, Hh. apply NoDup_app in Hnd as (_ & Hdis & Hnd).
    destruct (c_continuation c) as [t|] eqn:Hc; simpl in *.
    + destruct (exec_ok cfg s (CDropLease t) Hcfg Hi) as (s1 & Hx & Hi1); [apply Hh; by left|].
      assert (step cfg s s1) as Hst by (exists (CDropLease t); split; [apply Hh; by left|done]). simpl in Hx.
      destruct (drop_continuation cfg (shared s) t) as [sh|] eqn:Hd; [|done]. mred. injection Hx as <-.
      assert (ready sh = ready (shared s) ∧ completion_backlog sh = completion_backlog (shared s)) as [Hr Hb].
      { unfold drop_continuation in Hd. inv_pairs. destruct x; inv_pairs; [|done].
        unfold release_read_lease in *. by inv_pairs. }
      destruct (IH _ Hi1 Hnd) as (s2 & ab & Hrs & Hrun & Hi2 & Hste & Hsta & Hr2 & Hb2 & Hact).
      { intros u Hu. simpl. apply list_elem_of_fmap.
        assert (u ∈ (held s).*1) as ([u' v] & -> & Hin)%list_elem_of_fmap by (apply Hh; by right).
        exists (u', v). split; [done|]. apply assoc_without_elem. split; [done|]. simpl. intros ->. apply (Hdis t); [by left|done]. }
      simpl in Hrs. rewrite Hrs. mred. eexists s2, _. split; [done|]. split; [by eapply rtc_l|]. simpl in *. split_and!; try done; congruence.
    + destruct (IH s Hi Hnd Hh) as (s2 & ab & -> & ?). mred. by eexists s2, _.
Qed.

Context (s0 s : system) (H0 : initial cfg s0) (Hs : rtc (step cfg) s0 s).

(** C19 (polling): from every reachable state and against every backend that reports no
    more bytes than asked, a poll ends without panic.  It is a run of the driver's
    critical sections, leaves no deferred release behind, and returns the oldest
    completions of the backlog followed by those of the first operations of the ready
    queue, in queue order; it stops short of the batch's capacity only when the queue
    is empty. *)
Theorem poll_makes_progress memory b batch capacity :
  0 < capacity → NoDup (batch_leases batch) → (∀ t, t ∈ batch_leases batch → t ∈ (held s).*1) →
  ∃ b' s' cs ab, poll memory (Frames.granule (arena s)) b (staging s) (shared s) batch capacity =
      Done (b', staging s', shared s', take (N.to_nat capacity) (completion_backlog (shared s)) ++ cs, ab) ∧
    rtc (step cfg) s s' ∧ deferred (shared s') = [] ∧ ready (shared s) = slots_of cs ++ ready (shared s') ∧
    let n := vlen (take (N.to_nat capacity) (completion_backlog (shared s)) ++ cs) in
    n ≤ capacity ∧ (n < capacity → ready (shared s') = []).
Proof.
  intros Hcap Hnd Hh. pose proof (driver_reachable_inv cfg s0 s Hcfg H0 Hs) as Hi. unfold poll.
  rewrite (proj2 (N.ltb_lt 0 capacity)) by done. mred.
  destruct (reset_ok batch s Hi Hnd Hh) as (s1 & ab1 & -> & Hrun1 & Hi1 & (Ha1 & _ & _) & Hsta1 & Hr1 & Hb1 & _). mred.
  destruct (flush_run cfg s1 Hcfg Hi1) as (s2 & Hrun2 & Hi2 & -> & Hd2 & Heq2). mred.
  assert (arena s2 = arena s1 ∧ staging s2 = staging s1 ∧ ready (shared s2) = ready (shared s1) ∧
    completion_backlog (shared s2) = completion_backlog (shared s1)) as (Ha2 & Hsta2 & Hr2 & Hb2) by (by rewrite Heq2).
  assert (∃ s3, step cfg s2 s3 ∧ inv s3 ∧ shared s3 = set_backlog (shared s2) (drop (N.to_nat capacity) (completion_backlog (shared s2))) ∧
    arena s3 = arena s2 ∧ staging s3 = staging s2) as (s3 & Hst3 & Hi3 & Hsh3 & Ha3 & Hsta3).
  { edestruct (λ H, step_exec cfg s2 (CDrain capacity) _ Hi2 Hcfg H eq_refl) as [Hst3 Hi3]; [done|]. by eexists. }
  unfold drain_completion_backlog. rewrite <- Hsh3, <- Ha1, <- Ha2, <- Ha3, <- Hsta1, <- Hsta2, <- Hsta3, <- Hb1, <- Hb2.
  destruct (loop_ok (N.to_nat (capacity - vlen (take (N.to_nat capacity) (completion_backlog (shared s2))))) memory b s3 Hi3)
    as (b' & s' & cs & ab & -> & Hrun & Hi' & _ & Hrd & Hdf & Hlen & Hend). mred.
  eexists b', s', cs, _. split; [done|]. rewrite Hsh3 in Hrd, Hdf. simpl in Hrd, Hdf.
  assert (vlen (take (N.to_nat capacity) (completion_backlog (shared s2))) ≤ capacity) by (unfold vlen; rewrite length_take; lia).
  split_and!.
  - do 2 (etransitivity; [eassumption|]). by eapply rtc_l.
  - by rewrite Hdf.
  - by rewrite <- Hr1, <- Hr2.
  - unfold vlen in *. rewrite length_app. lia.
  - intros Hlt. apply Hend. unfold vlen in *. rewrite length_app in Hlt. lia.
Qed.
End poll.
End Poll.

Module PollWitness.
Import Execute Driver DriverSystem Poll DriverWitness.

(** A backend whose every attempt succeeds at once, counting them. *)
Definition instant (n : N) (kind : OpKind) (c : OpContext) : N * Attempt := (n + 1, ADone (cx_requested_len c)).

Lemma instant_honest b kind c b' n : instant b kind c = (b', ADone n) → n ≤ cx_requested_len c.
Proof. intros [= _ <-]. lia. Qed.

Lemma poll_makes_progress_witness :
  ∃ b' s' cs ab, poll cfg instant (λ _, 0) 512 0 (staging queued) (shared queued) [] 4 = Done (b', staging s', shared s', cs, ab) ∧
    ready (shared queued) = slots_of cs ++ ready (shared s') ∧ ready (shared s') = [].
Proof.
  destruct (poll_makes_progress cfg instant instant_honest cfg_ok start queued driver_start_initial queued_reachable (λ _, 0) 0 [] 4)
    as (b' & s' & cs & ab & H1 & _ & _ & H2 & H3 & H4); [done|apply NoDup_nil_2|by intros t Ht%elem_of_nil|].
  exists b', s', cs, ab. split; [exact H1|]. split; [exact H2|].
  destruct cs as [|c cs].
  - apply H4. reflexivity.
  - vm_compute in H2. injection H2 as _ H2. destruct cs; [exact (eq_sym H2)|discriminate H2].
Defined.
End PollWitness.
