(* ===== verification/Ring.v ===== *)
(** * The polling pass of the ring backend

    Models [fill_ring], [reap_ring] and [poll_ring_progress] of src/src/driver.rs as
    whole passes over the critical sections of [Driver].  The completion queue is an
    argument, and so is what the kernel does with it: completions of an entry may come
    in the pass that submits it or in any later one, in any order.  The kernel's
    contract, [honest_queue], is that the queue completes each operation submitted in
    this pass or under way from earlier ones at most once, with at most the bytes asked
    for. *)
From stdpp Require Import prelude list relations.
From Stdlib Require Import NArith ZArith Lia.
From S2P Require Import Prelude Ids Frames Alignment WriteArena FileTable Execute ReadVector Slab Driver DriverSystem DriverSafety Poll.

Open Scope N_scope.

Module Ring.
Import CompletionSlab Execute Driver DriverSystem DriverSafety Poll.

Section ring.
Context (cfg : Config).

(** [poll_ring_progress]; [cq] is the completion queue earlier passes have left, and
    [kernel cq sqes] the queue the pass reaps once it has submitted [sqes]: what was
    left and whatever the kernel has completed since, of these entries and of earlier
    ones.  What the pass does not reap stays on the queue. *)
Definition poll_ring_progress (kernel : list (OpToken * Z) → list Sqe → list (OpToken * Z)) (granule : N)
    (staging : WriteArena.ArenaState) (cq : list (OpToken * Z)) (sh : Shared) (batch : list Completion) (capacity : N) :
    outcome (WriteArena.ArenaState * list (OpToken * Z) * Shared * list Completion * N) :=
  assertb (0 <? capacity);;
  '(sh, _) ← reset cfg sh batch;
  sh ← flush_deferred cfg sh;
  let '(sh, drained) := drain_completion_backlog sh capacity in
  if vlen drained =? capacity then Done (staging, cq, sh, drained, 0)
  else
    let cap := capacity - vlen drained in
    '(sh, sqes) ← fill_ring staging sh (N.to_nat cap);
    '(sh, staging, reaped, cq) ← reap_ring cfg granule cap staging sh (kernel cq sqes);
    Done (staging, cq, sh, drained ++ r_completions reaped, r_backend reaped).

Hypothesis (Hcfg : config_ok cfg).
Abbreviation inv := (inv cfg).

(** Each entry of the queue completes another operation under way in the kernel. *)
Definition answers (s : system) (cq : list (OpToken * Z)) : Prop :=
  NoDup cq.*1 ∧ ∀ t raw, (t, raw) ∈ cq → enabled cfg s (CReap t raw).

(** ** Completions of different operations do not interfere *)

Lemma peek_mut_local {T} (s s' : CompletionSlab T) i f j :
  peek_mut s i f = Done s' → j ≠ i → slots s' !! N.to_nat j = slots s !! N.to_nat j.
Proof. unfold peek_mut. intros H Hj. inv_done. simpl. apply list_lookup_insert_ne. lia. Qed.

Lemma finalize_local staging sh slot r d sh' staging' c fd ab j :
  finalize staging sh slot r d = Done (sh', staging', c, fd, ab) → j ≠ slot →
  slots (slab sh') !! N.to_nat j = slots (slab sh) !! N.to_nat j.
Proof. unfold finalize, reclaim. intros H Hj. inv_pairs. simpl. apply list_lookup_insert_ne. lia. Qed.

Lemma finish_local granule staging sh slot r d sh' staging' c fd ab j :
  finish_attempt granule staging sh slot r d = Done (sh', staging', c, fd, ab) → j ≠ slot →
  slots (slab sh') !! N.to_nat j = slots (slab sh) !! N.to_nat j.
Proof.
  unfold finish_attempt. intros H Hj. inv_pairs.
  match goal with H : match ?o with _ => _ end = Done _ |- _ => destruct o as [[f|v]|] end; inv_pairs.
  all: repeat match goal with H : (if ?b then _ else _) = Done _ |- _ => destruct b; inv_pairs end.
  all: repeat match goal with H : finalize _ _ _ _ _ = _ |- _ => rewrite (finalize_local _ _ _ _ _ _ _ _ _ _ j H Hj); clear H end.
  all: simpl; by eapply peek_mut_local.
Qed.

Lemma reap_local granule staging sh t raw sh' staging' o ab j :
  reap_one cfg granule staging sh t raw = Done (sh', staging', o, ab) → j ≠ OpToken_slot t →
  slots (slab sh') !! N.to_nat j = slots (slab sh) !! N.to_nat j.
Proof.
  unfold reap_one. intros H Hj. inv_pairs.
  match goal with p : RingProgress |- _ => destruct p as [|res] end; inv_pairs; simpl.
  - by eapply peek_mut_local.
  - match goal with H : finish_attempt _ _ _ _ _ _ = _ |- _ => rewrite (finish_local _ _ _ _ _ _ _ _ _ _ _ j H Hj) end.
    simpl. by eapply peek_mut_local.
Qed.

(** A completion carries the token of its slot. *)
Lemma peek_mut_token {T} (s s' : CompletionSlab T) i f : peek_mut s i f = Done s' → token s' i = token s i.
Proof.
  unfold peek_mut, token. intros H. inv_done.
  match goal with H : slots s !! _ = Some ?e |- _ => rewrite (proj2 (vget_Done _ _ _) H) end. mred. unfold vget. simpl.
  by rewrite list_lookup_insert_eq by (by eapply lookup_lt_Some).
Qed.

Lemma finalize_token staging sh slot r d sh' staging' c fd ab :
  finalize staging sh slot r d = Done (sh', staging', c, fd, ab) → token (slab sh) slot = Done (c_token c).
Proof.
  unfold finalize, reclaim, token. intros H. inv_pairs.
  match goal with H : slots _ !! _ = Some ?e |- _ => rewrite (proj2 (vget_Done _ _ _) H) end. done.
Qed.

Lemma finish_token granule staging sh slot r d sh' staging' c fd ab :
  finish_attempt granule staging sh slot r d = Done (sh', staging', c, fd, ab) → token (slab sh) slot = Done (c_token c).
Proof.
  unfold finish_attempt. intros H. inv_pairs.
  match goal with H : match ?o with _ => _ end = Done _ |- _ => destruct o as [[f|v]|] end; inv_pairs.
  all: repeat match goal with H : (if ?b then _ else _) = Done _ |- _ => destruct b; inv_pairs end; try done.
  all: match goal with H : finalize _ _ _ _ _ = _ |- _ => apply finalize_token in H; rewrite <- H end.
  all: simpl; symmetry; by eapply peek_mut_token.
Qed.

Lemma reap_token granule staging sh t raw sh' staging' c fd ab :
  reap_one cfg granule staging sh t raw = Done (sh', staging', Some (c, fd), ab) → c_token c = t.
Proof.
  unfold reap_one. intros H. inv_pairs. unfold contains in *. inv_pairs.
  match goal with p : RingProgress |- _ => destruct p as [|res] end; inv_pairs.
  match goal with H : finish_attempt _ _ _ _ _ _ = _ |- _ => apply finish_token in H; simpl in H end.
  match goal with H : peek_mut _ _ _ = Done _, Ht : token _ _ = Done _ |- _ => rewrite (peek_mut_token _ _ _ _ H) in Ht end.
  unfold token in *. inv_pairs. case_match; [|done]. reflect_bools. congruence.
Qed.

(** What one completion does to the threads' view. *)
Lemma reap_step s t raw :
  inv s → enabled cfg s (CReap t raw) →
  ∃ sh a o ab s', reap_one cfg (Frames.granule (arena s)) (staging s) (shared s) t raw = Done (sh, a, o, ab) ∧
    step cfg s s' ∧ inv s' ∧ shared s' = sh ∧ staging s' = a ∧ arena s' = arena s ∧ active s' = without t (active s) ∧
    due s' = match o with Some (_, Some fd) => [fd] | _ => [] end ++ due s.
Proof.
  intros Hi He. destruct (exec_ok cfg s _ Hcfg Hi He) as (s' & Hx & Hi'). assert (step cfg s s') as Hst by (by exists (CReap t raw)).
  simpl in Hx. destruct (reap_one _ _ _ _ _ _) as [[[[sh a] o] ab]|] eqn:Hr; [|done]. mred.
  exists sh, a, o, ab, s'. split; [done|]. split; [done|]. split; [done|].
  destruct o as [[c fd]|]; injection Hx as <-; [|done]. apply reap_token in Hr as <-. unfold attempted. case_decide; by destruct fd.
Qed.

Lemma token_slots s t u n m :
  inv s → asks s t n → asks s u m → t ≠ u → OpToken_slot t ≠ OpToken_slot u.
Proof.
  intros Hi ([[i g] e] & H1 & <- & _) ([[j h] e'] & H2 & <- & _) Hne Heq. unfold entry_token in *. simpl in *.
  rewrite (slot_of_token cfg s _ i g e Hi H1), (slot_of_token cfg s _ j h e' Hi H2) in Heq. subst j.
  apply Hne. apply (occupied_uniq _ _ _ H1) in H2; [|done]. by simplify_eq.
Qed.

Lemma asks_local s s' t u n m :
  inv s → asks s t n → asks s u m → t ≠ u →
  (∀ j, j ≠ OpToken_slot t → slots (slab (shared s')) !! N.to_nat j = slots (slab (shared s)) !! N.to_nat j) → asks s' u m.
Proof.
  intros Hi Ht Hu Hne Hl. pose proof (token_slots s t u n m Hi Ht Hu Hne) as Hs.
  destruct Hu as ([[j h] e'] & H2 & <- & <-). exists (j, h, e'). split_and!; try done. unfold entry_token in *. simpl in Hs.
  rewrite (slot_of_token cfg s _ j h e' Hi H2) in Hs. apply occupied_elem in H2. apply occupied_elem. by rewrite Hl by auto.
Qed.

Lemma answers_step s t raw cq :
  inv s → answers s ((t, raw) :: cq) →
  ∃ sh a o ab s', reap_one cfg (Frames.granule (arena s)) (staging s) (shared s) t raw = Done (sh, a, o, ab) ∧
    step cfg s s' ∧ inv s' ∧ shared s' = sh ∧ staging s' = a ∧ arena s' = arena s ∧
    due s' = match o with Some (_, Some fd) => [fd] | _ => [] end ++ due s ∧ answers s' cq.
Proof.
  intros Hi [Hnd Ha]. simpl in Hnd. apply NoDup_cons in Hnd as [Hnew Hnd].
  assert (enabled cfg s (CReap t raw)) as He by (apply Ha; by left).
  destruct (reap_step s t raw Hi He) as (sh & a & o & ab & s' & Hr & Hst & Hi' & Hsh & Hsta & Har & Hact & Hdue).
  exists sh, a, o, ab, s'. do 7 (split; [done|]). split; [done|]. intros u raw' Hin.
  assert (u ≠ t) as Hne by (intros ->; apply Hnew; by apply (fst_elem t raw')).
  destruct He as [_ (n & Hn & _)]. destruct (Ha u raw') as [Hu (m & Hm & Hle)]; [by right|]. split.
  - rewrite Hact. by apply assoc_without_elem.
  - exists m. split; [|done]. apply (asks_local s s' t u n m Hi Hn Hm); [done|]. intros j Hj. rewrite Hsh. by eapply reap_local.
Qed.

(** ** A pass over the queue *)

Lemma locked_ok stop limit s cq :
  inv s → answers s cq →
  ∃ s' m rest, reap_locked cfg (Frames.granule (arena s)) stop limit (staging s) (shared s) cq = Done (shared s', staging s', m, rest) ∧
    rtc (step cfg) s s' ∧ inv s' ∧ answers s' rest ∧ arena s' = arena s ∧ due s' ≡ₚ r_retire m ++ due s ∧
    (∃ used, cq = used ++ rest ∧ vlen used = r_backend m ∧ (c_token <$> r_completions m) `sublist_of` used.*1) ∧
    r_backend m ≤ N.of_nat limit ∧
    (stop = false ∨ r_retire m = [] → r_backend m = N.of_nat limit ∨ rest = []).
Proof.
  revert s cq. induction limit as [|limit IH]; intros s cq Hi Ha.
  - exists s, (mkReaped [] [] [] 0), cq. simpl. split_and!; try done; try apply rtc_refl; auto. by exists [].
  - destruct cq as [|[t raw] cq].
    + exists s, (mkReaped [] [] [] 0), []. simpl. split_and!; try done; try apply rtc_refl; try lia; auto. by exists [].
    + destruct (answers_step s t raw cq Hi Ha) as (sh & a & o & ab & s1 & Hr & Hst & Hi1 & Hsh & Hsta & Har & Hdue & Ha1).
      simpl. rewrite Hr. mred. subst sh a. set (rs := match o with Some (_, Some fd) => [fd] | _ => [] end) in *.
      set (cs := match o with Some (c, _) => [c] | None => [] end).
      assert ((c_token <$> cs) `sublist_of` [t]) as Hcs.
      { unfold cs. destruct o as [[c fd]|]; simpl; [|apply sublist_nil_l]. by apply reap_token in Hr as ->. }
      destruct (stop && (0 <? vlen rs)) eqn:Hstop.
      * eexists s1, _, cq. split; [done|]. simpl. apply andb_true_iff in Hstop as [-> Hrs]. split_and!; try done.
        -- by apply rtc_once.
        -- by rewrite Hdue.
        -- by exists [(t, raw)].
        -- lia.
        -- intros [?|Hn]; [done|]. rewrite Hn in Hrs. done.
      * destruct (IH s1 cq Hi1 Ha1) as (s2 & m & rest & Hl & Hrun & Hi2 & Ha2 & Har2 & Hdue2 & (used & Hu & Hb & Hc) & Hlim & Hend).
        rewrite Har in Hl. rewrite Hl. mred. eexists s2, _, rest. split; [done|]. simpl. split_and!; try done.
        -- by eapply rtc_l.
        -- by rewrite Har2.
        -- rewrite Hdue2, Hdue. by rewrite Permutation_app_swap_app, app_assoc.
        -- exists ((t, raw) :: used). split_and!; [by rewrite Hu|unfold vlen in *; simpl; lia|].
           rewrite fmap_app. change ((t, raw) :: used).*1 with ([t] ++ used.*1). by apply sublist_app.
        -- lia.
        -- intros Hor. destruct Hend as [Hend|Hend]; [|left; lia|by right]. destruct Hor as [?|Hor]; [by left|].
           right. by apply app_eq_nil in Hor as [_ ?].
Qed.

(** ** Retirements *)

(** No more files are due than there are file slots. *)
Lemma due_bound s : inv s → vlen (due s) ≤ vlen (files (shared s)).
Proof.
  intros Hi. pose proof (v_files _ _ _ Hi) as Hf.
  assert (NoDup (due s)) as Hnd by (pose proof (FileTable.i_once _ _ Hf) as Hnd; simpl in Hnd; by apply NoDup_app in Hnd as [? _]).
  assert (∀ fd, fd ∈ due s → ∃ f, files (shared s) !! N.to_nat (fid_slot fd) = Some f ∧ fd = FileTable.current (id cfg) (fid_slot fd) f) as Hat.
  { intros fd Hd. destruct (FileTable.i_due _ _ Hf fd) as (f & Hl & Hc & _); [simpl; set_solver|]. by exists f. }
  assert ((λ fd, N.to_nat (fid_slot fd)) <$> due s ⊆+ seq 0 (length (files (shared s)))) as Hsub.
  { apply NoDup_submseteq.
    - apply NoDup_fmap_2_strong; [|done]. intros x y Hx Hy Heq. destruct (Hat x Hx) as (f & Hfx & ->), (Hat y Hy) as (f' & Hfy & ->).
      simpl in *. rewrite Heq in Hfx. apply N2Nat.inj in Heq. simplify_eq. by rewrite Heq.
    - intros i (fd & -> & Hd)%list_elem_of_fmap. destruct (Hat fd Hd) as (f & Hl & _). apply elem_of_seq.
      apply lookup_lt_Some in Hl. lia. }
  apply submseteq_length in Hsub. rewrite length_fmap, length_seq in Hsub. unfold vlen. lia.
Qed.

Lemma retire_all_ok fds rest s :
  inv s → due s ≡ₚ fds ++ rest →
  ∃ s', retire_all (shared s) fds = Done (shared s') ∧ rtc (step cfg) s s' ∧ inv s' ∧ due s' ≡ₚ rest ∧ staging s' = staging s.
Proof.
  revert s. induction fds as [|fd fds IH]; intros s Hi Hd.
  - by exists s.
  - simpl in *. destruct (retire_step cfg s fd Hi Hcfg) as (sh & s1 & -> & Heq & _ & Hst & Hi1); [rewrite Hd; by left|]. mred.
    assert (NoDup (fd :: fds ++ rest)) as [Hn _]%NoDup_cons.
    { rewrite <- Hd. pose proof (FileTable.i_once _ _ (v_files _ _ _ Hi)) as Hnd. simpl in Hnd. by apply NoDup_app in Hnd as [? _]. }
    destruct (IH s1 Hi1) as (s' & Hr & Hrun & Hi' & Hd' & Hsta).
    + rewrite Heq. simpl. rewrite Hd, filter_cons_False by tauto. rewrite filter_all; [done|]. by intros x Hx ->.
    + assert (shared s1 = sh ∧ staging s1 = staging s) as [Hsh Hsta1] by (by rewrite Heq). rewrite Hsh in Hr.
      exists s'. split_and!; try done; [by eapply rtc_l|by rewrite Hsta].
Qed.

(** The completions consumed come first on the queue; what is left of it stays. *)
Lemma consumed_prefix {A} (cq used rest : list A) n :
  cq = used ++ rest → vlen used = n → take (N.to_nat n) cq = used ∧ drop (N.to_nat n) cq = rest ∧ n + vlen rest = vlen cq.
Proof.
  intros -> <-. unfold vlen. rewrite Nat2N.id, take_app_length, drop_app_length, length_app. split_and!; [done..|lia].
Qed.

Lemma reap_ok s cq limit :
  inv s → answers s cq → 0 < limit →
  ∃ s' m n, reap_ring cfg (Frames.granule (arena s)) limit (staging s) (shared s) cq = Done (shared s', staging s', m, drop (N.to_nat n) cq) ∧
    rtc (step cfg) s s' ∧ inv s' ∧ due s' ≡ₚ due s ∧ r_backend m = n ∧ n = N.min limit (vlen cq) ∧
    (c_token <$> r_completions m) `sublist_of` (take (N.to_nat n) cq).*1.
Proof.
  intros Hi Ha Hlim. unfold reap_ring. rewrite (proj2 (N.ltb_lt 0 limit)) by done. mred.
  destruct (locked_ok true (N.to_nat limit) s cq Hi Ha) as (s1 & m & rest & -> & Hrun & Hi1 & Ha1 & Har & Hdue & (used & Hu & Hb & Hc) & Hl & Hend). mred.
  destruct (consumed_prefix cq used rest _ Hu Hb) as (Ht & Hd & Hn).
  destruct (r_retire m) as [|fd fds] eqn:Hret.
  - exists s1, m, (r_backend m). rewrite Hd, Ht. split_and!; try done.
    destruct Hend as [Hend| ->]; [by right|lia|change (vlen []) with 0 in Hn; lia].
  - rewrite sub_ok by lia. mred.
    destruct (locked_ok false (N.to_nat (limit - r_backend m)) s1 rest Hi1 Ha1)
      as (s2 & m2 & rest2 & Hl2 & Hrun2 & Hi2 & Ha2 & Har2 & Hdue2 & (used2 & Hu2 & Hb2 & Hc2) & Hlim2 & Hend2).
    rewrite Har in Hl2. rewrite Hl2. mred.
    assert (due s2 ≡ₚ ((fd :: fds) ++ r_retire m2) ++ due s) as Hd2.
    { rewrite Hdue2, Hdue. rewrite !app_assoc. by rewrite (Permutation_app_comm (r_retire m2)). }
    rewrite (proj2 (N.leb_le _ _)).
    2:{ pose proof (due_bound s2 Hi2) as Hbd. unfold vlen in *. rewrite Hd2, length_app in Hbd. lia. }
    destruct (retire_all_ok _ _ s2 Hi2 Hd2) as (s3 & -> & Hrun3 & Hi3 & Hd3 & Hsta). mred. rewrite <- Hsta.
    destruct (consumed_prefix cq (used ++ used2) rest2 (r_backend m + r_backend m2)) as (Ht2 & Hdr2 & Hn2).
    { by rewrite Hu, Hu2, app_assoc. }
    { unfold vlen in *. rewrite length_app. lia. }
    eexists s3, _, (r_backend m + r_backend m2). rewrite Ht2, Hdr2. split; [done|]. simpl. split_and!; try done.
    + by do 2 (etransitivity; [eassumption|]).
    + destruct Hend2 as [Hend2| ->]; [by left|lia|]. change (vlen []) with 0 in Hn2. lia.
    + rewrite !fmap_app. by apply sublist_app.
Qed.

(** ** Submission *)

Definition sqe_slots (qs : list Sqe) : list N := (λ q, OpToken_slot (sqe_user_data q)) <$> qs.

Lemma fill_one_step s :
  inv s →
  (ready (shared s) = [] ∧ fill_one (staging s) (shared s) = Done None) ∨
  ∃ sh q s', fill_one (staging s) (shared s) = Done (Some (sh, q)) ∧
    s' = set_active ((sqe_user_data q, None) :: active s) (set_shared sh s) ∧ step cfg s s' ∧ inv s' ∧
    ready (shared s) = OpToken_slot (sqe_user_data q) :: ready sh.
Proof.
  intros Hi. destruct (exec_ok cfg s CFill Hcfg Hi ltac:(done)) as (s' & Hx & Hi').
  assert (step cfg s s') as Hst by (by exists CFill). simpl in Hx.
  destruct (ready (shared s)) as [|slot rest] eqn:Hr; [left; split; [done|]; unfold fill_one; by rewrite Hr|right].
  destruct (queued_entry cfg s _ slot Hi) as (g & e & Hin & Hq); [rewrite Hr; by left|].
  pose proof (token_ok _ _ _ _ Hin) as Ht. pose proof (slot_of_token cfg s _ slot g e Hi Hin) as Hs.
  destruct (fill_one (staging s) (shared s)) as [[[sh q]|]|] eqn:Hf; [| |done]; mred.
  - injection Hx as <-. exists sh, q. eexists. split_and!; try done.
    unfold fill_one in Hf. rewrite Hr, Ht in Hf. mred. inv_pairs. simpl. f_equal.
    assert (sqe_user_data q = OpToken_new slot g) as ->; [|done].
    match goal with H : context [SqeFsync] |- _ => destruct (op_kind _) in H; inv_pairs; simpl; [by case_match|done..] end.
  - unfold fill_one in Hf. rewrite Hr, Ht in Hf. mred. inv_pairs.
Qed.

Lemma fill_run cap s :
  inv s →
  ∃ s' qs, fill_ring (staging s) (shared s) cap = Done (shared s', qs) ∧ rtc (step cfg) s s' ∧ inv s' ∧
    staging s' = staging s ∧ arena s' = arena s ∧ ready (shared s) = sqe_slots qs ++ ready (shared s') ∧
    (active s') ≡ₚ ((λ q, (sqe_user_data q, None)) <$> qs) ++ active s ∧
    (length qs ≤ cap)%nat ∧ ((length qs < cap)%nat → ready (shared s') = []).
Proof.
  revert s. induction cap as [|cap IH]; intros s Hi; simpl.
  - exists s, []. split_and!; try done. simpl. lia.
  - destruct (fill_one_step s Hi) as [[Hr ->]|(sh & q & s1 & -> & Heq & Hst & Hi1 & Hr)]; mred.
    + exists s, []. split_and!; try done. simpl. lia.
    + assert (shared s1 = sh ∧ staging s1 = staging s ∧ arena s1 = arena s ∧ active s1 = (sqe_user_data q, None) :: active s)
        as (Hsh & Hsta & Har & Hac) by (by rewrite Heq).
      destruct (IH s1 Hi1) as (s' & qs & Hf & Hrun & Hi' & Hsta' & Har' & Hr' & Hac' & Hlen & Hend). rewrite Hsh, Hsta in Hf. rewrite Hf. mred.
      exists s', (q :: qs). split_and!; try done.
      * by eapply rtc_l.
      * by rewrite Hsta'.
      * by rewrite Har'.
      * rewrite Hr. unfold sqe_slots in *. rewrite fmap_cons. simpl. f_equal. by rewrite <- Hr', Hsh.
      * rewrite Hac', Hac. rewrite fmap_cons. symmetry. apply Permutation_middle.
      * simpl. lia.
      * simpl. intros. apply Hend. lia.
Qed.

(** ** Operations that a pass leaves alone until it reaps *)

(** Dropping leases, draining and submitting keep every operation no lease holds, with the
    bytes it asks for. *)
Definition keeps (l l' : CompletionSlab OpEntry) : Prop :=
  ∀ i g e, (i, g, e) ∈ occupied l → is_held (op_state e) = false →
    ∃ e', (i, g, e') ∈ occupied l' ∧ op_requested_len e' = op_requested_len e ∧ is_held (op_state e') = false.

#[local] Instance keeps_preorder : PreOrder keeps.
Proof.
  split; [intros l i g e; eauto|]. intros l1 l2 l3 H1 H2 i g e Hin Hh. destruct (H1 i g e Hin Hh) as (e1 & Hin1 & Hl1 & Hh1).
  destruct (H2 i g e1 Hin1 Hh1) as (e2 & ? & ? & ?). exists e2. split_and!; [done|congruence|done].
Qed.

Lemma drop_keeps sh t sh' : drop_continuation cfg sh t = Done sh' → keeps (slab sh) (slab sh').
Proof.
  unfold drop_continuation. intros H. apply outcome_bind_Done in H as (live & _ & H). destruct live; [|by injection H as <-].
  apply outcome_bind_Done in H as (e0 & He0 & H). apply outcome_bind_Done in H as ([] & Hh0 & H). intros i g e Hin Hh. exists e. split_and!; try done.
  apply occupied_elem in Hin. apply occupied_elem. unfold release_read_lease, reclaim in H. inv_pairs. simpl.
  rewrite list_lookup_insert_ne; [done|]. intros Heq. rewrite <- Heq in *. unfold peek in He0. inv_done. simplify_eq/=. congruence.
Qed.

Lemma reset_keeps batch sh sh' ab : reset cfg sh batch = Done (sh', ab) → keeps (slab sh) (slab sh').
Proof.
  revert sh ab. induction batch as [|c batch IH]; intros sh ab H; simpl in H; [by injection H as <- _|].
  apply outcome_bind_Done in H as (sh1 & H1 & H). apply outcome_bind_Done in H as ([sh2 ab2] & H2 & H). injection H as -> _.
  etrans; [|by eapply IH]. destruct (c_continuation c); [by eapply drop_keeps|by injection H1 as <-].
Qed.

Lemma fill_one_keeps staging sh sh' q : fill_one staging sh = Done (Some (sh', q)) → keeps (slab sh) (slab sh').
Proof.
  unfold fill_one. intros H i g e Hin Hh. destruct (ready sh) as [|slot rest]; [done|]. unfold peek, peek_mut in H. apply occupied_elem in Hin.
  apply outcome_bind_Done in H as (ud & _ & H). apply outcome_bind_Done in H as (e0 & He0 & H). apply outcome_bind_Done in H as ([] & _ & H).
  apply outcome_bind_Done in H as (sqe & _ & H). inv_done. simpl. destruct (decide (N.to_nat i = N.to_nat slot)) as [Heq|Hne].
  - rewrite <- Heq in *. simplify_eq/=. eexists. split; [apply occupied_elem; simpl; by rewrite list_lookup_insert_eq by (by eapply lookup_lt_Some)|done].
  - exists e. split_and!; try done. apply occupied_elem. simpl. by rewrite list_lookup_insert_ne.
Qed.

Lemma fill_keeps cap staging sh sh' qs : fill_ring staging sh cap = Done (sh', qs) → keeps (slab sh) (slab sh').
Proof.
  revert sh qs. induction cap as [|cap IH]; intros sh qs H; simpl in H; [by injection H as <- _|].
  apply outcome_bind_Done in H as (o & Ho & H). destruct o as [[sh1 q]|]; [|by injection H as <- _].
  apply outcome_bind_Done in H as ([sh2 qs2] & H2 & H). injection H as -> _. etrans; [by eapply fill_one_keeps|by eapply IH].
Qed.

(** An operation under way or queued is held by no lease. *)
Lemma asks_unheld s t n :
  inv s → asks s t n → (t, None) ∈ active s ∨ OpToken_slot t ∈ ready (shared s) →
  ∃ i g e, t = OpToken_new i g ∧ OpToken_slot t = i ∧ (i, g, e) ∈ occupied (slab (shared s)) ∧ op_requested_len e = n ∧ is_held (op_state e) = false.
Proof.
  intros Hi ([[i g] e] & Hin & Ht & Hn) Hor. unfold entry_token in Ht. simpl in Ht, Hn. pose proof (slot_of_token cfg s _ i g e Hi Hin) as Hsl.
  exists i, g, e. rewrite <- Ht. split_and!; try done. destruct Hor as [Ha|Hr].
  - destruct (active_entry cfg s _ t Hi (fst_elem _ _ _ Ha)) as (i' & g' & e' & Heq & Hin' & Hst).
    pose proof (slot_of_token cfg s _ i' g' e' Hi Hin') as Hsl'. rewrite <- Heq, <- Ht, Hsl in Hsl'. subst i'.
    apply (occupied_uniq _ _ _ Hin) in Hin'; [|done]. simplify_eq. by rewrite Hst.
  - rewrite <- Ht, Hsl in Hr. destruct (queued_entry cfg s _ i Hi Hr) as (g' & e' & Hin' & Hst).
    apply (occupied_uniq _ _ _ Hin) in Hin'; [|done]. simplify_eq. by rewrite Hst.
Qed.

Lemma asks_kept s s' t n :
  inv s → keeps (slab (shared s)) (slab (shared s')) → asks s t n → (t, None) ∈ active s ∨ OpToken_slot t ∈ ready (shared s) → asks s' t n.
Proof.
  intros Hi Hk Ha Hor. destruct (asks_unheld s t n Hi Ha Hor) as (i & g & e & -> & _ & Hin & Hn & Hh).
  destruct (Hk i g e Hin Hh) as (e' & Hin' & Hn' & _). exists (i, g, e'). by split_and!; [..|simpl; congruence].
Qed.

(** The entries a pass with room for [room] completions submits. *)
Definition submission (s : system) (room : N) (qs : list Sqe) : Prop :=
  sqe_slots qs = take (N.to_nat room) (ready (shared s)) ∧ ∀ q, q ∈ qs → ∃ n, asks s (sqe_user_data q) n.

(** The completions on the queue are of different operations, each under way from an
    earlier pass or submitted in this one, and report at most the bytes asked for. *)
Definition honest_queue (s : system) (qs : list Sqe) (cq : list (OpToken * Z)) : Prop :=
  NoDup cq.*1 ∧ ∀ t raw, (t, raw) ∈ cq →
    ((t, None) ∈ active s ∨ t ∈ sqe_user_data <$> qs) ∧ ∃ n, asks s t n ∧ (raw ≤ Z.of_N n)%Z.

Lemma filled_slots (qs : list Sqe) (all rest : list N) room :
  all = sqe_slots qs ++ rest → (length qs ≤ room)%nat → ((length qs < room)%nat → rest = []) → sqe_slots qs = take room all.
Proof.
  intros -> Hle Hend. assert (length (sqe_slots qs) = length qs) as Hq by apply length_fmap.
  destruct (decide (length qs = room)) as [<-|Hne]; [by rewrite <- Hq, take_app_length|].
  rewrite Hend by lia. rewrite app_nil_r, take_ge; [done|]. lia.
Qed.

(** A submitted entry carries the token of the operation queued in its slot. *)
Lemma submitted_asks s s' q :
  inv s → inv s' → keeps (slab (shared s)) (slab (shared s')) → (sqe_user_data q, None) ∈ active s' →
  OpToken_slot (sqe_user_data q) ∈ ready (shared s) → ∃ n, asks s (sqe_user_data q) n.
Proof.
  intros Hi Hi' Hk Ha Hr. destruct (queued_entry cfg s _ _ Hi Hr) as (g & e & Hin & Hst).
  destruct (Hk _ g e Hin) as (e1 & Hin1 & _); [by rewrite Hst|].
  destruct (active_entry cfg s' _ _ Hi' (fst_elem _ _ _ Ha)) as (i' & g' & e' & Heq & Hin' & _).
  pose proof (slot_of_token cfg s' _ i' g' e' Hi' Hin') as Hsl. rewrite <- Heq in Hsl. subst i'.
  apply (occupied_uniq _ _ _ Hin1) in Hin'; [|done]. assert (g' = g) as -> by congruence.
  exists (op_requested_len e). exists (OpToken_slot (sqe_user_data q), g, e). by split_and!.
Qed.

Context (s0 s : system) (H0 : initial cfg s0) (Hs : rtc (step cfg) s0 s).

(** C20 (ring polling): from every reachable state and for every kernel whose completion
    queue, when the pass reaps it, completes operations under way from earlier passes or
    just submitted, each at most once and with at most the bytes asked for, a polling
    pass ends without panic and is a run of the driver's critical sections.  With a
    backlog that fills the batch nothing is submitted or reaped; otherwise the first
    operations of the ready queue are submitted in order, as many as the batch has room
    for, and as many completions as it has room for are consumed from the front of the
    queue, the rest staying on it; the batch is never overfilled, and its new results
    are of operations consumed, in the queue's order. *)
Theorem ring_poll_makes_progress kernel cq batch capacity :
  let drained := take (N.to_nat capacity) (completion_backlog (shared s)) in
  let room := capacity - vlen drained in
  (∀ qs, submission s room qs → honest_queue s qs (kernel cq qs)) →
  0 < capacity → NoDup (batch_leases batch) → (∀ t, t ∈ batch_leases batch → t ∈ (held s).*1) →
  ∃ s' cq' cs n,
    poll_ring_progress kernel (Frames.granule (arena s)) (staging s) cq (shared s) batch capacity =
      Done (staging s', cq', shared s', drained ++ cs, n) ∧
    rtc (step cfg) s s' ∧ vlen (drained ++ cs) ≤ capacity ∧
    (vlen drained = capacity → cs = [] ∧ n = 0 ∧ cq' = cq) ∧
    (vlen drained < capacity → ∃ qs, submission s room qs ∧
       n = N.min room (vlen (kernel cq qs)) ∧ cq' = drop (N.to_nat n) (kernel cq qs) ∧
       (c_token <$> cs) `sublist_of` (take (N.to_nat n) (kernel cq qs)).*1).
Proof.
  intros drained room Hk Hcap Hnd Hh. pose proof (driver_reachable_inv cfg s0 s Hcfg H0 Hs) as Hi. unfold poll_ring_progress.
  rewrite (proj2 (N.ltb_lt 0 capacity)) by done. mred.
  destruct (reset_ok cfg Hcfg batch s Hi Hnd Hh) as (s1 & ab1 & Hreset & Hrun1 & Hi1 & (Ha1 & _ & _) & Hsta1 & Hr1 & Hb1 & Hact1). rewrite Hreset. mred.
  destruct (flush_run cfg s1 Hcfg Hi1) as (s2 & Hrun2 & Hi2 & -> & Hd2 & Heq2). mred.
  assert (∃ s3, step cfg s2 s3 ∧ inv s3 ∧ shared s3 = set_backlog (shared s2) (drop (N.to_nat capacity) (completion_backlog (shared s2))) ∧
    arena s3 = arena s2 ∧ staging s3 = staging s2 ∧ active s3 = active s2) as (s3 & Hst3 & Hi3 & Hsh3 & Ha3 & Hsta3 & Hact3).
  { edestruct (λ H, step_exec cfg s2 (CDrain capacity) _ Hi2 Hcfg H eq_refl) as [Hst3 Hi3]; [done|]. by eexists. }
  assert (rtc (step cfg) s s3) as Hrun3 by (do 2 (etransitivity; [eassumption|]); by apply rtc_once).
  assert (arena s3 = arena s ∧ staging s3 = staging s ∧ ready (shared s3) = ready (shared s) ∧ active s3 = active s ∧
    completion_backlog (shared s2) = completion_backlog (shared s) ∧ slab (shared s3) = slab (shared s1)) as (Har & Hsta & Hr & Hact & Hb & Hsl).
  { rewrite Hsh3. simpl. rewrite Ha3, Hsta3, Hact3, Heq2. simpl. split_and!; congruence. }
  unfold drain_completion_backlog. rewrite <- Hsh3, Hb, <- Har, <- Hsta. fold drained.
  assert (vlen drained ≤ capacity) as Hdr by (unfold drained, vlen; rewrite length_take; lia).
  destruct (N.eqb_spec (vlen drained) capacity) as [Hfull|Hroom].
  - exists s3, cq, [], 0. rewrite app_nil_r. split_and!; try done. lia.
  - fold room. destruct (fill_run (N.to_nat room) s3 Hi3) as (s4 & qs & Hfill & Hrun4 & Hi4 & Hsta4 & Har4 & Hr4 & Hac4 & Hlen & Hend). rewrite Hfill. mred.
    assert (keeps (slab (shared s)) (slab (shared s4))) as Hkeep by (etrans; [by eapply reset_keeps|]; rewrite <- Hsl; by eapply fill_keeps).
    assert (∀ q, q ∈ qs → OpToken_slot (sqe_user_data q) ∈ ready (shared s) ∧ (sqe_user_data q, None) ∈ active s4) as Hq.
    { intros q Hq. rewrite <- Hr, Hr4, Hac4, !elem_of_app. split; left.
      - by apply (list_elem_of_fmap_2 (λ q, OpToken_slot (sqe_user_data q))).
      - by apply (list_elem_of_fmap_2 (λ q, (sqe_user_data q, None))). }
    assert (submission s room qs) as Hsub.
    { split; [rewrite <- Hr; by apply (filled_slots _ _ _ _ Hr4)|]. intros q Hin. destruct (Hq q Hin). by eapply submitted_asks. }
    destruct (Hk qs Hsub) as [Hndk Hok].
    destruct (reap_ok s4 (kernel cq qs) room Hi4) as (s5 & m & n & Hrp & Hrun5 & Hi5 & _ & Hbk & Hn & Hcs); [|unfold room; lia|].
    { split; [done|]. intros t raw Hin. destruct (Hok t raw Hin) as [Hor (k & Hask & Hle)].
      assert ((t, None) ∈ active s4 ∧ ((t, None) ∈ active s ∨ OpToken_slot t ∈ ready (shared s))) as [Ht4 Ht].
      { destruct Hor as [Ha|(q & -> & Hin')%list_elem_of_fmap]; [|split; [|right]; by apply Hq]. split; [|by left].
        rewrite Hac4, Hact. apply elem_of_app. by right. }
      split; [done|]. exists k. split; [|done]. by apply (asks_kept s s4 t k). }
    rewrite Har4, Hsta4 in Hrp. rewrite Hrp. mred. exists s5, (drop (N.to_nat n) (kernel cq qs)), (r_completions m), n. rewrite Hbk. split_and!; try done.
    + by do 2 (etransitivity; [eassumption|]).
    + apply sublist_length in Hcs. rewrite !length_fmap, length_take in Hcs.
      assert (n ≤ capacity - vlen drained) as Hnr by (fold room; lia). clear - Hcs Hnr Hdr. unfold vlen in *. rewrite length_app. lia.
    + intros _. by exists qs.
Qed.
End ring.
End Ring.

Module RingWitness.
Import CompletionSlab Execute Driver DriverSystem DriverSafety Ring DriverWitness.

(** The fsync of one file was submitted in an earlier pass and is under way; another one
    is queued. *)
Definition overlapping : system := after (CSubmitFsync file_a Buffered SyncFull 0) filled.

Lemma overlapping_reachable : rtc (step cfg) start overlapping.
Proof.
  apply (reach (CSubmitFsync file_a Buffered SyncFull 0) filled); [| |vm_compute; reflexivity].
  - apply (reach CFill queued); [apply queued_reachable|done|vm_compute; reflexivity].
  - split_and!; [vm_compute; right; by left|done|vm_compute; congruence|]. intros e He. vm_compute in He. set_solver.
Qed.

(** A kernel that first completes the earlier operation, then what it is given, with
    nothing transferred. *)
Definition late (cq : list (OpToken * Z)) (qs : list Sqe) : list (OpToken * Z) :=
  cq ++ (token0, 0%Z) :: ((λ q, (sqe_user_data q, 0%Z)) <$> qs).

Lemma late_honest qs : submission overlapping 1 qs → ∃ q, qs = [q] ∧ honest_queue overlapping qs (late [] qs).
Proof.
  intros [Hsl Hask]. change (sqe_slots qs = [1]) in Hsl. destruct qs as [|q [|]]; [done| |done]. exists q. split; [done|].
  unfold sqe_slots in Hsl. simpl in Hsl. injection Hsl as Hq. split.
  - simpl. apply NoDup_cons. split; [|apply NoDup_singleton]. intros Hin%list_elem_of_singleton. rewrite <- Hin in Hq. vm_compute in Hq. done.
  - intros t raw Hin. simpl in Hin. apply elem_of_cons in Hin as [[= -> ->]|[[= -> ->]|Hin%elem_of_nil]%elem_of_cons]; [..|done].
    + split; [left; vm_compute; by left|]. exists 0. split; [|done]. eexists. split; [vm_compute; by left|]. by split.
    + split; [right; by left|]. destruct (Hask q) as [n Hn]; [by left|]. exists n. split; [done|lia].
Qed.

(** The batch has room for one of the two completions: the other stays on the queue. *)
Lemma ring_poll_makes_progress_witness :
  ∃ s' q cs, poll_ring_progress cfg late 512 (staging overlapping) [] (shared overlapping) [] 1 =
      Done (staging s', [(sqe_user_data q, 0%Z)], shared s', cs, 1) ∧
    rtc (step cfg) overlapping s' ∧ (c_token <$> cs) `sublist_of` [token0].
Proof.
  destruct (ring_poll_makes_progress cfg cfg_ok start overlapping driver_start_initial overlapping_reachable late [] [] 1)
    as (s' & cq' & cs & n & H1 & H2 & _ & _ & H3); [|done|apply NoDup_nil_2|by intros t Ht%elem_of_nil|].
  { intros qs Hqs. by destruct (late_honest qs Hqs) as (q & _ & ?). }
  destruct H3 as (qs & Hqs & Hn & Hcq & Hcs); [vm_compute; reflexivity|].
  destruct (late_honest qs Hqs) as (q & -> & _). vm_compute in Hn. subst n. exists s', q, cs.
  split; [|split; [exact H2|exact Hcs]]. rewrite Hcq in H1. exact H1.
Defined.
End RingWitness.
