(* ===== verification/WaitLatch.v ===== *)
(** * The wait latch

    Models [WaitState] of src/src/product.rs, the latch through which reads, releases and
    other threads wake the thread that waits for the pool: a generation counter under a
    mutex, the flag of a pending release, a condition variable for waiters without a ring
    and an event source for the wait on the ring (driver.rs, [poll_wait_ring_for_pool]).
    The threads interleave at every critical section, at the notifications a waker sends
    after it gave up the mutex, and at the counters a ring waiter updates outside it.  A
    waiter on the condition variable has a flag that says whether it was notified since it
    went to sleep, and may wake up without being notified; a ring waiter has a flag that
    says whether the event source was written since it was armed.  What the kernel does
    with the event source is outside. *)
From stdpp Require Import prelude list.
From Stdlib Require Import NArith Lia.
From S2P Require Import Prelude.

Open Scope N_scope.

Module WaitLatch.

(** [WaitState] with its generation and its counters. *)
Record WaitState := mkWait {
  current : N;
  consumed : N;
  ring_pending : bool;
  ring_pending_hint : bool;
  parks_entered : N;
  parks_in_progress : N;
  parks_exited : N;
  wake_exits : N;
  timeout_exits : N;
}.

Definition new : WaitState := mkWait 0 0 false false 0 0 0 0 0.

Definition set_generation (w : WaitState) (cur con : N) : WaitState :=
  mkWait cur con (ring_pending w) (ring_pending_hint w) (parks_entered w) (parks_in_progress w) (parks_exited w) (wake_exits w) (timeout_exits w).
Definition set_pending (w : WaitState) (b : bool) : WaitState :=
  mkWait (current w) (consumed w) b b (parks_entered w) (parks_in_progress w) (parks_exited w) (wake_exits w) (timeout_exits w).
Definition set_counters (w : WaitState) (e p x k t : N) : WaitState :=
  mkWait (current w) (consumed w) (ring_pending w) (ring_pending_hint w) e p x k t.

(** The counters are 32-bit atomics, which wrap. *)
Definition inc (n : N) : N := wrapping_add 32 n 1.
Definition dec (n : N) : N := wrapping_sub 32 n 1.

Definition next_generation (w : WaitState) : WaitState := set_generation w (wrapping_add 64 (current w) 1) (consumed w).

(** The part of [wake] under the mutex. *)
Definition wake_locked (w : WaitState) : WaitState := next_generation w.

(** [publish_ring_pending_and_wake_if_parked]: the waiters are notified, under the mutex, if
    there are any. *)
Definition publish_ring_pending (w : WaitState) : WaitState * bool :=
  let w := set_pending w true in
  if parks_in_progress w =? 0 then (w, false) else (next_generation w, true).

Definition clear_ring_pending (w : WaitState) : WaitState := set_pending w false.
Definition ring_may_be_pending (w : WaitState) : bool := ring_pending_hint w.
Definition consume_current (w : WaitState) : WaitState := set_generation w (current w) (current w).

(** The head of [wait], and [begin_platform_wait]: the waiter goes to sleep for the current
    generation unless something has happened already. *)
Definition wait_begin (w : WaitState) : WaitState * option N :=
  if negb (current w =? consumed w) then (consume_current w, None)
  else if ring_pending w then (set_counters w (parks_entered w) (dec (inc (parks_in_progress w))) (parks_exited w) (wake_exits w) (timeout_exits w), None)
  else (set_counters w (inc (parks_entered w)) (inc (parks_in_progress w)) (parks_exited w) (wake_exits w) (timeout_exits w), Some (current w)).
Definition begin_platform_wait (w : WaitState) : WaitState * option N := wait_begin w.

Definition count_exit (w : WaitState) (timed_out : bool) : WaitState :=
  set_counters w (parks_entered w) (parks_in_progress w) (parks_exited w)
    (if timed_out then wake_exits w else inc (wake_exits w)) (if timed_out then inc (timeout_exits w) else timeout_exits w).
Definition leave_progress (w : WaitState) : WaitState :=
  set_counters w (parks_entered w) (dec (parks_in_progress w)) (parks_exited w) (wake_exits w) (timeout_exits w).
Definition count_exited (w : WaitState) : WaitState :=
  set_counters w (parks_entered w) (parks_in_progress w) (inc (parks_exited w)) (wake_exits w) (timeout_exits w).

(** The end of [wait]. *)
Definition wait_exit (w : WaitState) (timed_out : bool) : WaitState :=
  let w := if timed_out then w else consume_current w in
  count_exit (count_exited (leave_progress w)) timed_out.

(** The loop of [wait] each time the mutex is held again: [expired] says that the deadline
    has passed.  The waiter leaves or goes back to sleep. *)
Definition wait_resume (w : WaitState) (armed : N) (expired : bool) : WaitState * bool :=
  if current w =? armed then if expired then (wait_exit w true, true) else (w, false)
  else (wait_exit w false, true).

Definition platform_woken (w : WaitState) (armed : N) : bool := negb (current w =? armed).

(** The part of [finish_platform_wait] under the mutex. *)
Definition finish_locked (w : WaitState) (armed : N) : WaitState * bool :=
  let woken := negb (current w =? armed) in
  (if woken then consume_current w else w, woken).

(** ** Threads *)

(** Where a thread is: a waker between the mutex and its notifications, a waiter asleep or
    at the ring, a ring waiter on its way out. *)
Inductive place :=
  | Idle
  | Notifying
  | NotifyingPlatform
  | Parked (armed : N) (notified : bool)
  | Polling (armed : N) (posted : bool)
  | Polled (armed : N) (progress : bool)
  | Finishing (armed : N) (progress : bool)
  | Leaving (timed_out : bool)
  | Exiting (timed_out : bool)
  | Counting (timed_out : bool).

Record sys := mkSys { latch : WaitState; threads : list place }.

Definition notify_all (l : list place) : list place :=
  (λ x, match x with Parked a _ => Parked a true | _ => x end) <$> l.
Definition notify_platform (l : list place) : list place :=
  (λ x, match x with Polling a _ => Polling a true | _ => x end) <$> l.

Inductive action :=
  | Wake
  | NotifyAll
  | NotifyPlatform
  | Publish
  | Clear
  | Consume
  | Wait (expired : bool)
  | Resume (expired : bool)
  | BeginPlatform
  | PollOne (progress : bool)
  | Expire
  | CheckWoken
  | Finish
  | Leave.

Definition put (w : WaitState) (l : list place) (t : nat) (x : place) : option sys := Some (mkSys w (<[t := x]> l)).

(** One action of thread [t], or [None] if it is not at that point. *)
Definition act (t : nat) (k : action) (s : sys) : option sys :=
  let w := latch s in let l := threads s in
  match l !! t with
  | None => None
  | Some x =>
  match k, x with
  | Wake, Idle => put (wake_locked w) l t Notifying
  | NotifyAll, Notifying => put w (notify_all l) t NotifyingPlatform
  | NotifyPlatform, NotifyingPlatform => put w (notify_platform l) t Idle
  | Publish, Idle => let '(w, notify) := publish_ring_pending w in Some (mkSys w (if notify : bool then notify_platform (notify_all l) else l))
  | Clear, Idle => put (clear_ring_pending w) l t Idle
  | Consume, Idle => put (consume_current w) l t Idle
  | Wait expired, Idle =>
      match wait_begin w with
      | (w, None) => put w l t Idle
      | (w, Some armed) => if expired : bool then put (wait_exit w true) l t Idle else put w l t (Parked armed false)
      end
  | Resume expired, Parked armed _ => let '(w, gone) := wait_resume w armed expired in put w l t (if gone : bool then Idle else Parked armed false)
  | BeginPlatform, Idle => match begin_platform_wait w with (w, None) => put w l t Idle | (w, Some armed) => put w l t (Polling armed false) end
  | PollOne progress, Polling armed _ => put w l t (Polled armed progress)
  | Expire, Polling armed _ => put w l t (Finishing armed false)
  | CheckWoken, Polled armed progress => put w l t (if progress || platform_woken w armed then Finishing armed progress else Polling armed false)
  | Finish, Finishing armed progress => let '(w, woken) := finish_locked w armed in put w l t (Leaving (negb (woken || progress)))
  | Leave, Leaving b => put (leave_progress w) l t (Exiting b)
  | Leave, Exiting b => put (count_exited w) l t (Counting b)
  | Leave, Counting b => put (count_exit w b) l t Idle
  | _, _ => None
  end
  end.

(** The generations an action may go forward by. *)
Definition cost (k : action) : N := match k with Wake | Publish => 1 | _ => 0 end.

(** Interleavings of a fixed number of threads, with a bound on the generations used. *)
Inductive run (s0 : sys) : N → sys → Prop :=
  | run_start : run s0 0 s0
  | run_act n t k s s' : run s0 n s → act t k s = Some s' → run s0 (n + cost k) s'.

Definition start (k : nat) : sys := mkSys new (replicate k Idle).

(** Fewer than [2^64] generations and fewer than [2^32] threads. *)
Definition reachable (s : sys) : Prop := ∃ k n, N.of_nat k < 2 ^ 32 ∧ n < 2 ^ 64 ∧ run (start k) n s.

(** ** The invariant *)

(** The generation a waiter sleeps for, as long as it has not made up its mind to leave. *)
Definition dozing (x : place) : option N :=
  match x with Parked a _ | Polling a _ | Polled a _ => Some a | _ => None end.

(** The threads [parks_in_progress] counts. *)
Definition sleeping (x : place) : bool :=
  match x with Parked _ _ | Polling _ _ | Polled _ _ | Finishing _ _ | Leaving _ => true | _ => false end.

(** A waiter that has been told, or needs not be. *)
Definition told (l : list place) (x : place) (cur : N) : Prop :=
  match x with
  | Parked a b => a = cur ∨ b = true ∨ Notifying ∈ l
  | Polling a b => a = cur ∨ b = true ∨ Notifying ∈ l ∨ NotifyingPlatform ∈ l
  | _ => True
  end.

Record winv (n : N) (s : sys) : Prop := {
  wi_current : current (latch s) ≤ n ∧ consumed (latch s) ≤ current (latch s);
  wi_hint : ring_pending_hint (latch s) = ring_pending (latch s);
  wi_size : N.of_nat (length (threads s)) < 2 ^ 32;
  wi_dozing : ∀ x a, x ∈ threads s → dozing x = Some a → a ≤ current (latch s) ∧ (ring_pending (latch s) = true → a ≠ current (latch s));
  wi_told : ∀ x, x ∈ threads s → told (threads s) x (current (latch s));
  wi_progress : parks_in_progress (latch s) = N.of_nat (countb sleeping (threads s));
}.

Lemma elem_insert {A} (l : list A) t x y : y ∈ <[t := x]> l → y = x ∨ y ∈ l.
Proof.
  intros [i Hi]%list_elem_of_lookup. apply list_lookup_insert_Some in Hi as [(_ & <- & _)|[_ Hi]]; [by left|right; by eapply list_elem_of_lookup_2].
Qed.

Lemma elem_kept {A} (l : list A) t x x' y : l !! t = Some x → y ≠ x → y ∈ l → y ∈ <[t := x']> l.
Proof.
  intros Ht Hne [i Hi]%list_elem_of_lookup. apply list_elem_of_lookup. exists i. rewrite list_lookup_insert_ne; [done|congruence].
Qed.

Lemma told_more l l' x c : told l x c → (Notifying ∈ l → Notifying ∈ l') → (NotifyingPlatform ∈ l → NotifyingPlatform ∈ l') → told l' x c.
Proof. destruct x; simpl; naive_solver. Qed.

Lemma sleeping_small n s : winv n s → parks_in_progress (latch s) < 2 ^ 32.
Proof. intros [_ _ H3 _ _ H6]. pose proof (countb_le sleeping (threads s)). lia. Qed.

(** Thread [t] moves from [x] to [x'], neither of them a waker, in the same generation. *)
Lemma winv_move n s t x x' w' :
  winv n s → threads s !! t = Some x → x ≠ Notifying → x ≠ NotifyingPlatform →
  current w' = current (latch s) → consumed w' ≤ current w' → ring_pending_hint w' = ring_pending w' →
  (ring_pending w' = true → ring_pending (latch s) = true) →
  (∀ a, dozing x' = Some a → a ≤ current w' ∧ (ring_pending w' = true → a ≠ current w')) → told (threads s) x' (current w') →
  parks_in_progress w' + N.b2n (sleeping x) = parks_in_progress (latch s) + N.b2n (sleeping x') →
  winv n (mkSys w' (<[t := x']> (threads s))).
Proof.
  intros [[H1 H1'] H2 H3 H4 H5 H6] Ht Hx1 Hx2 Hc Hcon Hh Hr Hd Htold Hcount. constructor; simpl; rewrite ?length_insert; try done; [lia| | |].
  - intros y a [->|Hy]%elem_insert Ha; [by apply Hd|]. destruct (H4 y a Hy Ha) as [? Hn]. rewrite Hc. split; [done|]. intros Hp. by apply Hn, Hr.
  - intros y Hy. eapply told_more; [|by eapply elem_kept..]. apply elem_insert in Hy as [->|Hy]; [done|]. rewrite Hc. by apply H5.
  - pose proof (countb_insert sleeping (threads s) t x x' Ht) as Hk. destruct (sleeping x), (sleeping x'); simpl in *; lia.
Qed.

Lemma count_notified (f : place → place) (l : list place) : (∀ x, sleeping (f x) = sleeping x) → countb sleeping (f <$> l) = countb sleeping l.
Proof. intros Hf. induction l as [|x l IH]; [done|]. rewrite fmap_cons. unfold countb in *. cbn [List.filter]. rewrite Hf. destruct (sleeping x); [simpl; by rewrite IH|exact IH]. Qed.

Lemma notify_sleeping l : countb sleeping (notify_all l) = countb sleeping l ∧ countb sleeping (notify_platform l) = countb sleeping l.
Proof. split; apply count_notified; by intros []. Qed.

Lemma elem_notified (f : place → place) (l : list place) y : y ∈ f <$> l → ∃ x, y = f x ∧ x ∈ l.
Proof. intros (x & -> & Hx)%list_elem_of_fmap. by exists x. Qed.

Lemma dozer_sleeps (l : list place) x a : x ∈ l → dozing x = Some a → (0 < countb sleeping l)%nat.
Proof.
  intros Hx Ha. assert (sleeping x = true) as Hs by by destruct x. unfold countb. apply list_elem_of_In in Hx.
  destruct (List.filter sleeping l) as [|y k] eqn:E; [|simpl; lia]. assert (In x (List.filter sleeping l)) as Hin by by apply filter_In. by rewrite E in Hin.
Qed.

Lemma next_current n s : winv n s → n + 1 < 2 ^ 64 → current (next_generation (latch s)) = current (latch s) + 1.
Proof. intros Hi Hn. destruct (wi_current _ _ Hi). apply wrapping_add_small. lia. Qed.

Lemma winv_wake n s t : winv n s → n + 1 < 2 ^ 64 → threads s !! t = Some Idle → winv (n + 1) (mkSys (wake_locked (latch s)) (<[t := Notifying]> (threads s))).
Proof.
  intros Hi Hn Ht. pose proof (next_current n s Hi Hn) as Hc. destruct Hi as [[H1 H1'] H2 H3 H4 H5 H6].
  assert (Notifying ∈ <[t := Notifying]> (threads s)) as Hin by (apply list_elem_of_lookup; exists t; apply list_lookup_insert_eq; by eapply lookup_lt_Some).
  constructor; cbn [latch threads]; unfold wake_locked; rewrite ?Hc, ?length_insert; try done.
  - simpl. lia.
  - intros y a [->|Hy]%elem_insert Ha; [done|]. destruct (H4 y a Hy Ha). lia.
  - intros y _. destruct y; simpl; auto.
  - pose proof (countb_insert sleeping (threads s) t _ Notifying Ht) as Hk. simpl in *. lia.
Qed.

Lemma winv_notify n s t : winv n s → threads s !! t = Some Notifying → winv n (mkSys (latch s) (<[t := NotifyingPlatform]> (notify_all (threads s)))).
Proof.
  intros [[H1 H1'] H2 H3 H4 H5 H6] Ht. pose proof (proj1 (notify_sleeping (threads s))) as Hns.
  assert (notify_all (threads s) !! t = Some Notifying) as Ht' by (unfold notify_all; by rewrite list_lookup_fmap, Ht).
  assert (NotifyingPlatform ∈ <[t := NotifyingPlatform]> (notify_all (threads s))) as Hin by (apply list_elem_of_lookup; exists t; apply list_lookup_insert_eq; by eapply lookup_lt_Some).
  constructor; simpl; try done.
  - unfold notify_all. by rewrite length_insert, length_fmap.
  - intros y a [->|(x & -> & Hx)%elem_notified]%elem_insert Ha; [done|]. apply (H4 x a Hx). by destruct x.
  - intros y [->|(x & -> & Hx)%elem_notified]%elem_insert; [done|]. destruct x; simpl; auto.
  - pose proof (countb_insert sleeping (notify_all (threads s)) t _ NotifyingPlatform Ht') as Hk. simpl in *. lia.
Qed.

Lemma winv_post n s t : winv n s → threads s !! t = Some NotifyingPlatform → winv n (mkSys (latch s) (<[t := Idle]> (notify_platform (threads s)))).
Proof.
  intros [[H1 H1'] H2 H3 H4 H5 H6] Ht. pose proof (proj2 (notify_sleeping (threads s))) as Hns.
  assert (notify_platform (threads s) !! t = Some NotifyingPlatform) as Ht' by (unfold notify_platform; by rewrite list_lookup_fmap, Ht).
  constructor; simpl; try done.
  - unfold notify_platform. by rewrite length_insert, length_fmap.
  - intros y a [->|(x & -> & Hx)%elem_notified]%elem_insert Ha; [done|]. apply (H4 x a Hx). by destruct x.
  - intros y [->|(x & -> & Hx)%elem_notified]%elem_insert; [done|]. specialize (H5 x Hx). destruct x as [| | |a b|a b| | | | |]; simpl in *; auto.
    destruct H5 as [?|[?|Hin]]; auto. right. right. eapply elem_kept; [exact Ht'|done|]. apply list_elem_of_fmap. by exists Notifying.
  - pose proof (countb_insert sleeping (notify_platform (threads s)) t _ Idle Ht') as Hk. simpl in *. lia.
Qed.

Lemma winv_publish n s w notify :
  winv n s → n + 1 < 2 ^ 64 → publish_ring_pending (latch s) = (w, notify) →
  winv (n + 1) (mkSys w (if notify : bool then notify_platform (notify_all (threads s)) else threads s)).
Proof.
  intros Hi Hn Hp. pose proof (next_current n s Hi Hn) as Hc. pose proof Hi as [[H1 H1'] H2 H3 H4 H5 H6].
  unfold publish_ring_pending in Hp. destruct (N.eqb_spec (parks_in_progress (set_pending (latch s) true)) 0) as [H0|H0]; simplify_eq/=.
  - constructor; simpl; try done; [lia|]. intros x a Hx Ha. pose proof (dozer_sleeps _ _ _ Hx Ha). lia.
  - assert (current (next_generation (set_pending (latch s) true)) = current (latch s) + 1) as Hc' by exact Hc.
    assert (∀ y, y ∈ notify_platform (notify_all (threads s)) → ∃ x, x ∈ threads s ∧ dozing y = dozing x ∧ told [] y 0) as Hy.
    { intros y (y1 & -> & (x & -> & Hx)%elem_notified)%elem_notified. exists x. destruct x; simpl; auto. }
    constructor; cbn [latch threads]; rewrite ?Hc'; try done.
    + simpl. lia.
    + unfold notify_platform, notify_all. by rewrite !length_fmap.
    + intros y a (x & Hx & Hd & _)%Hy Ha. rewrite Hd in Ha. destruct (H4 x a Hx Ha). lia.
    + intros y (y1 & -> & (x & -> & Hx)%elem_notified)%elem_notified. destruct x; simpl; auto.
    + rewrite (proj2 (notify_sleeping _)), (proj1 (notify_sleeping _)). done.
Qed.

Lemma dec_inc n : n < 2 ^ 32 → dec (inc n) = n.
Proof.
  intros Hn. unfold dec, inc, wrapping_sub, wrapping_add. destruct (decide (n + 1 = 2 ^ 32)) as [Heq|Hne].
  - rewrite Heq, N.Div0.mod_same. rewrite N.mod_small by lia. lia.
  - rewrite (N.mod_small (n + 1)) by lia. replace (n + 1 + 2 ^ 32 - 1) with (n + 1 * 2 ^ 32) by lia. rewrite N.Div0.mod_add. by apply N.mod_small.
Qed.

Lemma dec_small n : 0 < n → n < 2 ^ 32 → dec n = n - 1.
Proof. intros H0 Hn. unfold dec, wrapping_sub. replace (n + 2 ^ 32 - 1) with (n - 1 + 1 * 2 ^ 32) by lia. rewrite N.Div0.mod_add. apply N.mod_small. lia. Qed.

(** One more thread asleep is still counted. *)
Lemma inc_sleeping n s t x : winv n s → threads s !! t = Some x → sleeping x = false → inc (parks_in_progress (latch s)) = parks_in_progress (latch s) + 1.
Proof.
  intros [_ _ H3 _ _ H6] Ht Hx. pose proof (countb_lt sleeping (threads s) t x Ht Hx) as Hk. apply wrapping_add_small. change (2 ^ 32) with 4294967296 in *. lia.
Qed.

Lemma dec_sleeping n s t x : winv n s → threads s !! t = Some x → sleeping x = true → dec (parks_in_progress (latch s)) + 1 = parks_in_progress (latch s).
Proof.
  intros Hi Ht Hx. pose proof (sleeping_small n s Hi) as Hs. destruct Hi as [_ _ H3 _ _ H6].
  pose proof (countb_insert sleeping (threads s) t x Idle Ht) as Hk. rewrite Hx in Hk. simpl in Hk. rewrite dec_small; lia.
Qed.

Lemma winv_begin n s t w o x :
  winv n s → threads s !! t = Some Idle → wait_begin (latch s) = (w, o) → (∀ a, o = Some a → dozing x = Some a ∧ (∃ b, x = Parked a b ∨ x = Polling a b)) →
  match o with None => winv n (mkSys w (<[t := Idle]> (threads s))) | Some a => winv n (mkSys w (<[t := x]> (threads s))) end.
Proof.
  intros Hi Ht Hb Ho. pose proof (sleeping_small n s Hi) as Hsm. pose proof Hi as [[H1 H1'] H2 H3 H4 H5 H6]. unfold wait_begin in Hb.
  destruct (N.eqb_spec (current (latch s)) (consumed (latch s))) as [Heq|Hne]; simpl negb in Hb; cbv iota in Hb; [destruct (ring_pending (latch s)) eqn:Hr|]; injection Hb as <- <-.
  - eapply winv_move; try done; simpl; rewrite ?dec_inc by done; congruence.
  - destruct (Ho _ eq_refl) as [Hd (b & Hx)]. eapply winv_move; try done; simpl; rewrite ?(inc_sleeping n s t Idle Hi Ht eq_refl); try congruence.
    + intros a Ha. rewrite Hd in Ha. injection Ha as <-. split; [lia|by rewrite Hr].
    + destruct Hx as [-> | ->]; by left.
    + destruct Hx as [-> | ->]; simpl; lia.
  - eapply winv_move; try done; simpl; lia.
Qed.

Lemma winv_exit n s t x b : winv n s → threads s !! t = Some x → sleeping x = true → x ≠ Notifying → x ≠ NotifyingPlatform →
  winv n (mkSys (wait_exit (latch s) b) (<[t := Idle]> (threads s))).
Proof.
  intros Hi Ht Hx Hn1 Hn2. pose proof (dec_sleeping n s t x Hi Ht Hx) as Hd. pose proof Hi as [[H1 H1'] H2 H3 H4 H5 H6].
  eapply winv_move; try done; destruct b; simpl; try done; rewrite ?Hx; simpl; lia.
Qed.

Lemma act_winv n t k s s' : winv n s → n + cost k < 2 ^ 64 → act t k s = Some s' → winv (n + cost k) s'.
Proof.
  intros Hi Hn Ha. unfold act in Ha. destruct (threads s !! t) as [x|] eqn:Ht; [|done]. pose proof Hi as [[H1 H1'] H2 H3 H4 H5 H6].
  destruct k, x; try done; unfold put in Ha; simpl cost in *; rewrite ?N.add_0_r.
  - injection Ha as <-. by apply winv_wake.
  - injection Ha as <-. by apply winv_notify.
  - injection Ha as <-. by apply winv_post.
  - destruct (publish_ring_pending (latch s)) as [w notify] eqn:Hp. injection Ha as <-. by apply winv_publish.
  - injection Ha as <-. by eapply winv_move.
  - injection Ha as <-. by eapply winv_move.
  - destruct (wait_begin (latch s)) as [w o] eqn:Hb. pose proof (winv_begin n s t w o (Parked (default 0 o) false) Hi Ht Hb) as Hw. destruct o as [a|]; [|injection Ha as <-; by apply Hw].
    assert (winv n (mkSys w (<[t := Parked a false]> (threads s)))) as Hw1 by (apply Hw; intros a' [= <-]; split; [done|]; exists false; by left). destruct expired; injection Ha as <-; [|done].
    rewrite <- (list_insert_insert_eq (threads s) t Idle (Parked a false)). apply (winv_exit n _ t (Parked a false) true Hw1); try done. simpl. apply list_lookup_insert_eq. by eapply lookup_lt_Some.
  - unfold wait_resume in Ha. destruct (N.eqb_spec (current (latch s)) armed) as [Heq|Hne]; [destruct expired|]; injection Ha as <-; [by eapply winv_exit| |by eapply winv_exit].
    eapply winv_move; try done; simpl; [|by left]. intros a [= <-]. by apply (H4 (Parked armed notified)); [eapply list_elem_of_lookup_2|].
  - unfold begin_platform_wait in Ha. destruct (wait_begin (latch s)) as [w o] eqn:Hb. pose proof (winv_begin n s t w o (Polling (default 0 o) false) Hi Ht Hb) as Hw.
    destruct o as [a|]; injection Ha as <-; apply Hw; [|done]. intros a' [= <-]. split; [done|]. exists false. by right.
  - injection Ha as <-. eapply winv_move; try done. simpl. intros a [= <-]. by apply (H4 (Polling armed posted)); [eapply list_elem_of_lookup_2|].
  - injection Ha as <-. by eapply winv_move.
  - injection Ha as <-. unfold platform_woken. destruct progress; simpl orb; [by eapply winv_move|]. destruct (N.eqb_spec (current (latch s)) armed) as [Heq|Hne]; simpl negb; cbv iota; [|by eapply winv_move].
    eapply winv_move; try done; simpl; [|by left]. intros a [= <-]. by apply (H4 (Polled armed false)); [eapply list_elem_of_lookup_2|].
  - unfold finish_locked in Ha. injection Ha as <-. eapply winv_move; try done; destruct (negb _); simpl; try done; lia.
  - injection Ha as <-. pose proof (dec_sleeping n s t _ Hi Ht eq_refl) as Hd. eapply winv_move; try done; simpl; lia.
  - injection Ha as <-. by eapply winv_move.
  - injection Ha as <-. by eapply winv_move.
Qed.

Lemma latch_reachable s : reachable s → ∃ n, winv n s.
Proof.
  intros (k & n & Hk & Hn & Hrun). exists n. induction Hrun as [|n t a s s' _ IH Ha]; [|apply (act_winv n t a s); [apply IH; lia|done|done]].
  constructor; simpl; rewrite ?length_replicate; try done.
  - intros x a Hx Ha. apply elem_of_replicate in Hx as [-> _]. done.
  - intros x Hx. apply elem_of_replicate in Hx as [-> _]. done.
  - unfold countb. induction k as [|k IH]; [done|]. simpl. apply IH. lia.
Qed.

(** ** No wake is lost *)

(** C40 (No wake is lost).  However wakers, publishers and waiters interleave, before the
    64-bit generation wraps: once no waker is between its mutex and its notifications,
    every waiter asleep for an older generation has been notified, on the condition
    variable or the event source; a waiter on the condition variable that runs again leaves
    and consumes the generation, and a ring waiter back from its poll leaves its loop.  As
    long as a release is pending, no waiter sleeps for the current generation and none goes
    to sleep; nor does one go to sleep while a wake is not consumed. *)
Theorem no_wake_lost s :
  reachable s →
  ((∀ x, x ∈ threads s → x ≠ Notifying ∧ x ≠ NotifyingPlatform) →
   (∀ t a b, threads s !! t = Some (Parked a b) → a ≠ current (latch s) →
      b = true ∧ ∀ expired, ∃ s', act t (Resume expired) s = Some s' ∧ threads s' !! t = Some Idle ∧ consumed (latch s') = current (latch s)) ∧
   (∀ t a b, threads s !! t = Some (Polling a b) → a ≠ current (latch s) → b = true) ∧
   (∀ t a b, threads s !! t = Some (Polled a b) → a ≠ current (latch s) →
      ∃ s', act t CheckWoken s = Some s' ∧ threads s' !! t = Some (Finishing a b))) ∧
  (ring_may_be_pending (latch s) = true → ∀ x a, x ∈ threads s → dozing x = Some a → a ≠ current (latch s)) ∧
  (ring_may_be_pending (latch s) = true ∨ consumed (latch s) ≠ current (latch s) →
   ∀ t, threads s !! t = Some Idle → ∀ k, k = BeginPlatform ∨ (∃ expired, k = Wait expired) → ∃ s', act t k s = Some s' ∧ threads s' !! t = Some Idle).
Proof.
  intros (n & [[H1 H1'] H2 H3 H4 H5 H6])%latch_reachable. unfold ring_may_be_pending. rewrite H2. split_and!.
  - intros Hno. assert ((Notifying ∉ threads s) ∧ (NotifyingPlatform ∉ threads s)) as [Hn1 Hn2] by (split; intros Hin; by destruct (Hno _ Hin)).
    assert (∀ t x y, threads s !! t = Some x → <[t := y]> (threads s) !! t = Some y) as Hins by (intros t x y Hx; apply list_lookup_insert_eq; by eapply lookup_lt_Some). split_and!.
    + intros t a b Ht Hne. split.
      { specialize (H5 _ (list_elem_of_lookup_2 _ _ _ Ht)). simpl in H5. naive_solver. }
      intros expired. unfold act. rewrite Ht. simpl. unfold wait_resume. rewrite (proj2 (N.eqb_neq _ _)) by done. eexists. split; [done|]. simpl. split; [by eapply Hins|done].
    + intros t a b Ht Hne. specialize (H5 _ (list_elem_of_lookup_2 _ _ _ Ht)). simpl in H5. naive_solver.
    + intros t a b Ht Hne. unfold act. rewrite Ht. simpl. unfold platform_woken. rewrite (proj2 (N.eqb_neq _ _)) by done. rewrite orb_true_r. eexists. split; [done|]. by eapply Hins.
  - intros Hp x a Hx Ha. by apply (H4 x a Hx Ha).
  - intros Hor t Ht k Hk. assert (∃ w, wait_begin (latch s) = (w, None)) as [w Hw].
    { unfold wait_begin. destruct (N.eqb_spec (current (latch s)) (consumed (latch s))); simpl negb; cbv iota; [|by eexists]. destruct Hor as [->|?]; [by eexists|congruence]. }
    assert (<[t := Idle]> (threads s) !! t = Some Idle) as Hi by (apply list_lookup_insert_eq; by eapply lookup_lt_Some).
    destruct Hk as [->|[expired ->]]; unfold act; rewrite Ht; simpl; unfold begin_platform_wait; rewrite Hw; by eexists.
Qed.
End WaitLatch.

(** ** A witness: a thread sleeps, another wakes it *)
Module WaitLatchWitness.
Import WaitLatch.

Definition slept : option sys := act 0 (Wait false) (start 2).
Definition next (t : nat) (k : action) (o : option sys) : option sys := match o with Some s => act t k s | None => None end.
Definition woken : option sys := next 1 NotifyPlatform (next 1 NotifyAll (next 1 Wake slept)).

Lemma woken_reachable s : woken = Some s → reachable s.
Proof.
  intros Hs. exists 2%nat, 1. split; [done|]. split; [done|]. vm_compute in Hs. injection Hs as <-.
  change 1 with (0 + 0 + 1 + 0 + 0). apply (run_act _ _ 1 NotifyPlatform (mkSys (mkWait 1 0 false false 1 1 0 0 0) [Parked 0 true; NotifyingPlatform])); [|done].
  apply (run_act _ _ 1 NotifyAll (mkSys (mkWait 1 0 false false 1 1 0 0 0) [Parked 0 false; Notifying])); [|done].
  apply (run_act _ _ 1 Wake (mkSys (mkWait 0 0 false false 1 1 0 0 0) [Parked 0 false; Idle])); [|done].
  apply (run_act _ _ 0 (Wait false) (start 2)); [constructor|done].
Qed.

Lemma no_wake_lost_witness : ∃ s s', woken = Some s ∧ act 0 (Resume false) s = Some s' ∧ threads s' !! 0%nat = Some Idle ∧ consumed (latch s') = 1.
Proof.
  destruct woken as [s|] eqn:Hs; [|by vm_compute in Hs]. exists s. pose proof (woken_reachable s Hs) as Hr. vm_compute in Hs. injection Hs as <-.
  destruct (no_wake_lost _ Hr) as [Hno _]. destruct Hno as [Hp _]; [intros x [->|[->|[]%elem_of_nil]%elem_of_cons]%elem_of_cons; done|].
  destruct (Hp 0%nat 0 true eq_refl) as [_ Hres]; [done|]. destruct (Hres false) as (s' & Ha & Ht & Hc). by exists s'.
Defined.
End WaitLatchWitness.
