(* ===== verification/Ledger.v ===== *)
(** * The prefetch ledger

    Models [Prefetch] of src/src/pool/prefetch/state.rs, the bookkeeping of speculative
    reads: one entry per speculative frame, found by its frame, listed under the reader
    whose pattern predicted it, queued for cleanup once that prediction is obsolete; the
    queue of readers that may issue; and the feedback of consumed predictions to their
    patterns.  The frames' markers and the notifications are those of the clock ([Clock]).
    Each call runs under the control lock; readers touch the clock between calls. *)
From stdpp Require Import prelude list relations.
From Stdlib Require Import NArith Lia.
From S2P Require Import Prelude Ids Frames Notifications Clock Pattern IndexQueue Feedback ReadVector.

Open Scope N_scope.

Module Ledger.
Import Frames.Frames Pattern.Pattern IndexQueue.IndexQueue Feedback.Feedback.

Record Entry := mkEntry {
  e_page : PageId;
  e_frame : ReadFrameIdx;
  e_source : Source;
  e_membership : option Links;
  e_protected : N;
}.

Inductive Terminal :=
  | Promoted (reader : option N)
  | Evicted
  | Failed.

Inductive Readahead := ReadaheadAutomatic | ReadaheadDisabled.

(** The counters the ledger keeps (src/src/pool/prefetch.rs; the remaining fields of
    [PrefetchStats] are filled in when the counters are reported). *)
Record PrefetchStats := mkStats {
  admitted : N;
  automatic_admitted : N;
  demand_promoted : N;
  evicted_unused : N;
  failed : N;
  deferred : N;
  submission_refused : N;
  occupied : N;
}.

Record Prefetch := mkPrefetch {
  reserve : FreeFrames;
  entries : list (option Entry);
  patterns : list Pattern;
  stats : PrefetchStats;
  capacity : N;
  request_limit : N;
  active : bool;
  vector_width : N;
  automatic_width : N;
  ready : IndexQueue;
  cleanup : IndexQueue;
  waiting : IndexQueue;
  reader_entries : list (option N);
  frame_entries : list (option N);
  vacant : list N;
  vacant_count : N;
  feedback : list (option Feedback);
  feedback_scratch : list (option Feedback);
  feedback_count : N;
  stamp : N;
  replacement_cursor : N;
  pending_releases : N;
}.

Definition set_reserve (l : Prefetch) (x_reserve : FreeFrames) : Prefetch :=
  mkPrefetch x_reserve (entries l) (patterns l) (stats l) (capacity l) (request_limit l) 
    (active l) (vector_width l) (automatic_width l) (ready l) (cleanup l) (waiting l) (reader_entries l)
    (frame_entries l) (vacant l) (vacant_count l) (feedback l) (feedback_scratch l)
    (feedback_count l) (stamp l) (replacement_cursor l) (pending_releases l).
Definition set_entries (l : Prefetch) (x_entries : list (option Entry)) : Prefetch :=
  mkPrefetch (reserve l) x_entries (patterns l) (stats l) (capacity l) (request_limit l) 
    (active l) (vector_width l) (automatic_width l) (ready l) (cleanup l) (waiting l) (reader_entries l)
    (frame_entries l) (vacant l) (vacant_count l) (feedback l) (feedback_scratch l)
    (feedback_count l) (stamp l) (replacement_cursor l) (pending_releases l).
Definition set_patterns (l : Prefetch) (x_patterns : list Pattern) : Prefetch :=
  mkPrefetch (reserve l) (entries l) x_patterns (stats l) (capacity l) (request_limit l) 
    (active l) (vector_width l) (automatic_width l) (ready l) (cleanup l) (waiting l) (reader_entries l)
    (frame_entries l) (vacant l) (vacant_count l) (feedback l) (feedback_scratch l)
    (feedback_count l) (stamp l) (replacement_cursor l) (pending_releases l).
Definition set_stats (l : Prefetch) (x_stats : PrefetchStats) : Prefetch :=
  mkPrefetch (reserve l) (entries l) (patterns l) x_stats (capacity l) (request_limit l) 
    (active l) (vector_width l) (automatic_width l) (ready l) (cleanup l) (waiting l) (reader_entries l)
    (frame_entries l) (vacant l) (vacant_count l) (feedback l) (feedback_scratch l)
    (feedback_count l) (stamp l) (replacement_cursor l) (pending_releases l).
Definition set_active (l : Prefetch) (x_active : bool) : Prefetch :=
  mkPrefetch (reserve l) (entries l) (patterns l) (stats l) (capacity l) (request_limit l)
    x_active (vector_width l) (automatic_width l) (ready l) (cleanup l) (waiting l)
    (reader_entries l) (frame_entries l) (vacant l) (vacant_count l) (feedback l)
    (feedback_scratch l) (feedback_count l) (stamp l) (replacement_cursor l) (pending_releases
    l).
Definition set_ready (l : Prefetch) (x_ready : IndexQueue) : Prefetch :=
  mkPrefetch (reserve l) (entries l) (patterns l) (stats l) (capacity l) (request_limit l)
    (active l) (vector_width l) (automatic_width l) x_ready (cleanup l) (waiting l)
    (reader_entries l) (frame_entries l) (vacant l) (vacant_count l) (feedback l)
    (feedback_scratch l) (feedback_count l) (stamp l) (replacement_cursor l) (pending_releases
    l).
Definition set_cleanup (l : Prefetch) (x_cleanup : IndexQueue) : Prefetch :=
  mkPrefetch (reserve l) (entries l) (patterns l) (stats l) (capacity l) (request_limit l)
    (active l) (vector_width l) (automatic_width l) (ready l) x_cleanup (waiting l)
    (reader_entries l) (frame_entries l) (vacant l) (vacant_count l) (feedback l)
    (feedback_scratch l) (feedback_count l) (stamp l) (replacement_cursor l) (pending_releases
    l).
Definition set_waiting (l : Prefetch) (x_waiting : IndexQueue) : Prefetch :=
  mkPrefetch (reserve l) (entries l) (patterns l) (stats l) (capacity l) (request_limit l)
    (active l) (vector_width l) (automatic_width l) (ready l) (cleanup l) x_waiting
    (reader_entries l) (frame_entries l) (vacant l) (vacant_count l) (feedback l)
    (feedback_scratch l) (feedback_count l) (stamp l) (replacement_cursor l) (pending_releases
    l).
Definition set_reader_entries (l : Prefetch) (x_reader_entries : list (option N)) : Prefetch :=
  mkPrefetch (reserve l) (entries l) (patterns l) (stats l) (capacity l) (request_limit l)
    (active l) (vector_width l) (automatic_width l) (ready l) (cleanup l) (waiting l)
    x_reader_entries (frame_entries l) (vacant l) (vacant_count l) (feedback l)
    (feedback_scratch l) (feedback_count l) (stamp l) (replacement_cursor l) (pending_releases
    l).
Definition set_frame_entries (l : Prefetch) (x_frame_entries : list (option N)) : Prefetch :=
  mkPrefetch (reserve l) (entries l) (patterns l) (stats l) (capacity l) (request_limit l)
    (active l) (vector_width l) (automatic_width l) (ready l) (cleanup l) (waiting l)
    (reader_entries l) x_frame_entries (vacant l) (vacant_count l) (feedback l)
    (feedback_scratch l) (feedback_count l) (stamp l) (replacement_cursor l) (pending_releases
    l).
Definition set_stamp (l : Prefetch) (x_stamp : N) : Prefetch :=
  mkPrefetch (reserve l) (entries l) (patterns l) (stats l) (capacity l) (request_limit l)
    (active l) (vector_width l) (automatic_width l) (ready l) (cleanup l) (waiting l)
    (reader_entries l) (frame_entries l) (vacant l) (vacant_count l) (feedback l)
    (feedback_scratch l) (feedback_count l) x_stamp (replacement_cursor l) (pending_releases l).
Definition set_replacement_cursor (l : Prefetch) (x_replacement_cursor : N) : Prefetch :=
  mkPrefetch (reserve l) (entries l) (patterns l) (stats l) (capacity l) (request_limit l)
    (active l) (vector_width l) (automatic_width l) (ready l) (cleanup l) (waiting l)
    (reader_entries l) (frame_entries l) (vacant l) (vacant_count l) (feedback l)
    (feedback_scratch l) (feedback_count l) (stamp l) x_replacement_cursor (pending_releases l).
Definition set_pending_releases (l : Prefetch) (x_pending_releases : N) : Prefetch :=
  mkPrefetch (reserve l) (entries l) (patterns l) (stats l) (capacity l) (request_limit l)
    (active l) (vector_width l) (automatic_width l) (ready l) (cleanup l) (waiting l)
    (reader_entries l) (frame_entries l) (vacant l) (vacant_count l) (feedback l)
    (feedback_scratch l) (feedback_count l) (stamp l) (replacement_cursor l) x_pending_releases.
Definition set_vacant (l : Prefetch) (x_vacant : list N) (x_vacant_count : N) : Prefetch :=
  mkPrefetch (reserve l) (entries l) (patterns l) (stats l) (capacity l) (request_limit l)
    (active l) (vector_width l) (automatic_width l) (ready l) (cleanup l) (waiting l)
    (reader_entries l) (frame_entries l) x_vacant x_vacant_count (feedback l) (feedback_scratch
    l) (feedback_count l) (stamp l) (replacement_cursor l) (pending_releases l).
Definition set_feedback (l : Prefetch) (x_feedback : list (option Feedback)) (x_feedback_scratch : list (option Feedback)) (x_feedback_count : N) : Prefetch :=
  mkPrefetch (reserve l) (entries l) (patterns l) (stats l) (capacity l) (request_limit l)
    (active l) (vector_width l) (automatic_width l) (ready l) (cleanup l) (waiting l)
    (reader_entries l) (frame_entries l) (vacant l) (vacant_count l) x_feedback
    x_feedback_scratch x_feedback_count (stamp l) (replacement_cursor l) (pending_releases l).

Definition try_with_geometry (cap readers reads : N) (mode : Readahead) (frames granule : N) : outcome Prefetch :=
  let pattern_count := match mode with ReadaheadAutomatic => if 0 <? cap then readers else 0 | ReadaheadDisabled => 0 end in
  let feedback_capacity := if pattern_count =? 0 then 0 else cap in
  assertb (negb (granule =? 0));;
  let width := N.max 1 (N.min 32 (ReadVector.VECTOR_BYTES_MAX / granule)) in
  let automatic := if 2 * width <=? N.min cap (saturating_sub reads 1) then width else 1 in
  Done (mkPrefetch (try_empty cap) (replicate (N.to_nat cap) None) (replicate (N.to_nat pattern_count) Pattern.new)
    (mkStats 0 0 0 0 0 0 0 0) cap (N.max (saturating_mul U32_MAX (N.max cap reads) 4) 1) false width automatic
    (IndexQueue.try_new pattern_count) (IndexQueue.try_new cap) (IndexQueue.try_new cap)
    (replicate (N.to_nat pattern_count) None) (replicate (N.to_nat frames) None)
    (N.of_nat <$> seq 0 (N.to_nat cap)) cap
    (replicate (N.to_nat feedback_capacity) None) (replicate (N.to_nat feedback_capacity) None) 0 0 0 0).

Definition available (l : Prefetch) : outcome N := expect (checked_sub (capacity l) (occupied (stats l))).

Definition fill_reserve_body (st : FreeFrames * FreeFrames) : outcome (flow (FreeFrames * FreeFrames) (FreeFrames * FreeFrames)) :=
  let '(reserve, free) := st in
  '(free, o) ← Frames.pop free;
  match o with
  | None => Done (Return (reserve, free))
  | Some frame => reserve ← Frames.push reserve frame; Done (Continue (reserve, free))
  end.

Definition fill_reserve (l : Prefetch) (free : FreeFrames) : outcome (Prefetch * FreeFrames) :=
  if negb (active l) then Done (l, free)
  else
    wanted ← available l;
    r ← for_range fill_reserve_body (wanted - ff_len (reserve l)) (reserve l, free);
    let '(reserve, free) := match r with Return x => x | Continue x => x end in
    Done (set_reserve l reserve, free).

Definition with_membership (m : option Links) (e : Entry) : Entry :=
  mkEntry (e_page e) (e_frame e) (e_source e) m (e_protected e).

(** [entries[i].as_mut().expect(..).membership.as_mut().expect(..)], updated. *)
Definition update_membership (es : list (option Entry)) (i : N) (f : Links → Links) : outcome (list (option Entry)) :=
  o ← vget es i;
  e ← expect o;
  m ← expect (e_membership e);
  vset es i (Some (with_membership (Some (f m)) e)).

(** The links of a new entry: an automatic one becomes the head of its reader's list. *)
Definition admit_membership (l : Prefetch) (index : N) (source : Source) : outcome (Prefetch * option Links) :=
  match source with
  | Explicit => Done (l, None)
  | Automatic reader _ =>
      nx ← vget (reader_entries l) reader;
      rs ← vset (reader_entries l) reader (Some index);
      es ← match nx with
           | Some n => update_membership (entries l) n (with_previous (Some index))
           | None => Done (entries l)
           end;
      Done (set_entries (set_reader_entries l rs) es, Some (mkLinks None nx))
  end.

Definition count_admission (s : PrefetchStats) (source : Source) : outcome PrefetchStats :=
  adm ← add_ U64_MAX (admitted s) 1;
  occ ← add_ U32_MAX (occupied s) 1;
  auto ← (match source with Automatic _ _ => add_ U64_MAX (automatic_admitted s) 1 | Explicit => Done (automatic_admitted s) end);
  Done (mkStats adm auto (demand_promoted s) (evicted_unused s) (failed s) (deferred s) (submission_refused s) occ).

Definition admit_entry (l : Prefetch) (clock : Clock.Clock) (page : PageId) (frame : ReadFrameIdx) (source : Source) :
    outcome (Prefetch * Clock.Clock) :=
  assertb (feedback_count l =? 0);;
  room ← available l;
  assertb (0 <? room);;
  vc ← sub_ (vacant_count l) 1;
  index ← vget (vacant l) vc;
  let l := set_vacant l (vacant l) vc in
  o ← vget (entries l) index;
  assertb (match o with None => true | Some _ => false end);;
  fo ← vget (frame_entries l) frame;
  fs ← vset (frame_entries l) frame (Some index);
  assertb (match fo with None => true | Some _ => false end);;
  let l := set_frame_entries l fs in
  '(l, membership) ← admit_membership l index source;
  es ← vset (entries l) index (Some (mkEntry page frame source membership (stamp l)));
  let l := set_entries l es in
  clock ← Clock.begin_speculation clock frame;
  st ← count_admission (stats l) source;
  assertb (occupied st <=? capacity l);;
  Done (set_stats l st, clock).

Definition source_obsolete (l : Prefetch) (source : Source) : outcome bool :=
  match source with
  | Explicit => Done false
  | Automatic reader incarnation => p ← vget (patterns l) reader; Done (negb (owns p incarnation))
  end.

Definition obsolete (l : Prefetch) (e : Entry) : outcome bool := source_obsolete l (e_source e).

Definition refresh_ready (l : Prefetch) (reader : N) : outcome Prefetch :=
  p ← vget (patterns l) reader;
  w ← Pattern.window p reader (automatic_width l);
  q ← (match w with Some _ => IndexQueue.push (ready l) reader | None => IndexQueue.remove (ready l) reader end);
  Done (set_ready l q).

(** One member taken off a reader's list and queued for cleanup. *)
Definition invalidate_body (st : Prefetch * option N) : outcome (flow (Prefetch * option N) (Prefetch * option N)) :=
  let '(l, nx) := st in
  match nx with
  | None => Done (Return (l, None))
  | Some index =>
      o ← vget (entries l) index;
      e ← expect o;
      es ← vset (entries l) index (Some (with_membership None e));
      m ← expect (e_membership e);
      q ← IndexQueue.push (cleanup l) index;
      Done (Continue (set_cleanup (set_entries l es) q, next m))
  end.

Definition invalidate_reader (l : Prefetch) (reader : N) : outcome Prefetch :=
  nx ← vget (reader_entries l) reader;
  rs ← vset (reader_entries l) reader None;
  r ← for_range invalidate_body (capacity l) (set_reader_entries l rs, nx);
  let '(l, nx) := match r with Return x => x | Continue x => x end in
  assertb (match nx with None => true | Some _ => false end);;
  Done l.

Definition pattern_changed (l : Prefetch) (reader before : N) : outcome Prefetch :=
  p ← vget (patterns l) reader;
  l ← (if negb (owns p before) then invalidate_reader l reader else Done l);
  refresh_ready l reader.

(** A change of one pattern and what follows from it. *)
Definition change_pattern (l : Prefetch) (reader : N) (f : Pattern → outcome Pattern) : outcome Prefetch :=
  p ← vget (patterns l) reader;
  p' ← f p;
  ps ← vset (patterns l) reader p';
  pattern_changed (set_patterns l ps) reader (incarnation p).

Definition reset_reader (l : Prefetch) (reader : N) : outcome Prefetch :=
  if reader <? vlen (patterns l) then change_pattern l reader Pattern.reset else Done l.

(** [finish_index]: the entry leaves its reader's list. *)
Definition finish_index_unlink_reader (l : Prefetch) (index : N) (e : Entry) : outcome Prefetch :=
  match e_membership e with
  | None => Done l
  | Some ks =>
      match e_source e with
      | Explicit => Panic
      | Automatic reader _ =>
          l ← (match previous ks with
               | Some pv =>
                   es ← update_membership (entries l) pv (with_next (next ks));
                   Done (set_entries l es)
               | None =>
                   h ← vget (reader_entries l) reader;
                   assertb (bool_decide (h = Some index));;
                   rs ← vset (reader_entries l) reader (next ks);
                   Done (set_reader_entries l rs)
               end);
          match next ks with
          | Some nx =>
              es ← update_membership (entries l) nx (with_previous (previous ks));
              Done (set_entries l es)
          | None => Done l
          end
      end
  end.

Definition finish_index_feedback (l : Prefetch) (e : Entry) (terminal : Terminal) : outcome Prefetch :=
  match e_source e with
  | Explicit => Done l
  | Automatic reader inc =>
      match terminal with
      | Promoted (Some consumer) =>
          if consumer =? reader then
            let index := feedback_count l in
            assertb (index <? vlen (feedback l));;
            o ← vget (feedback l) index;
            assertb (match o with None => true | Some _ => false end);;
            fb ← vset (feedback l) index (Some (mkFeedback reader inc (e_page e)));
            n ← add_ U32_MAX (feedback_count l) 1;
            Done (set_feedback l fb (feedback_scratch l) n)
          else Done l
      | Promoted None => Done l
      | Evicted | Failed =>
          p ← vget (patterns l) reader;
          if owns p inc then reset_reader l reader else Done l
      end
  end.

Definition count_terminal (s : PrefetchStats) (t : Terminal) : outcome PrefetchStats :=
  match t with
  | Promoted _ =>
      n ← add_ U64_MAX (demand_promoted s) 1;
      Done (mkStats (admitted s) (automatic_admitted s) n (evicted_unused s) (failed s) (deferred s) (submission_refused s) (occupied s))
  | Evicted =>
      n ← add_ U64_MAX (evicted_unused s) 1;
      Done (mkStats (admitted s) (automatic_admitted s) (demand_promoted s) n (failed s) (deferred s) (submission_refused s) (occupied s))
  | Failed =>
      n ← add_ U64_MAX (failed s) 1;
      Done (mkStats (admitted s) (automatic_admitted s) (demand_promoted s) (evicted_unused s) n (deferred s) (submission_refused s) (occupied s))
  end.

Definition return_credit (s : PrefetchStats) : outcome PrefetchStats :=
  occ ← expect (checked_sub (occupied s) 1);
  Done (mkStats (admitted s) (automatic_admitted s) (demand_promoted s) (evicted_unused s) (failed s) (deferred s)
    (submission_refused s) occ).

(** A touch that came before the swap decides the terminal. *)
Definition settle (o : Clock.SpeculationOutcome) (t : Terminal) : Terminal :=
  match o with Clock.Consumed reader => Promoted reader | _ => t end.

Definition conserved (s : PrefetchStats) : bool :=
  admitted s =? demand_promoted s + evicted_unused s + failed s + occupied s.

Definition finish_index (l : Prefetch) (clock : Clock.Clock) (index : N) (terminal : Terminal) : outcome (Prefetch * Clock.Clock) :=
  o ← vget (entries l) index;
  e ← expect o;
  es ← vset (entries l) index None;
  l ← finish_index_unlink_reader (set_entries l es) index e;
  q ← IndexQueue.remove (cleanup l) index;
  let l := set_cleanup l q in
  q ← IndexQueue.remove (waiting l) index;
  let l := set_waiting l q in
  fo ← vget (frame_entries l) (e_frame e);
  fs ← vset (frame_entries l) (e_frame e) None;
  assertb (bool_decide (fo = Some index));;
  let l := set_frame_entries l fs in
  v ← vset (vacant l) (vacant_count l) index;
  vc ← add_ U32_MAX (vacant_count l) 1;
  let l := set_vacant l v vc in
  '(clock, outcome) ← Clock.take_speculation clock (e_frame e);
  assertb (match outcome with Clock.Absent => false | _ => true end);;
  st ← return_credit (stats l);
  let terminal := settle outcome terminal in
  st ← count_terminal st terminal;
  l ← finish_index_feedback (set_stats l st) e terminal;
  assertb (conserved (stats l));;
  Done (l, clock).

Definition finish (l : Prefetch) (clock : Clock.Clock) (frame : ReadFrameIdx) (terminal : Terminal) : outcome (Prefetch * Clock.Clock) :=
  o ← vget (frame_entries l) frame;
  match o with
  | Some index => finish_index l clock index terminal
  | None => b ← Clock.is_speculative clock frame; assertb (negb b);; Done (l, clock)
  end.

(** Feedback in reader order: every pattern learns of its consumed predictions. *)
Definition flush_one (l : Prefetch) (index : N) : outcome Prefetch :=
  o ← vget (feedback l) index;
  fb ← vset (feedback l) index None;
  f ← expect o;
  change_pattern (set_feedback l fb (feedback_scratch l) (feedback_count l)) (fb_reader f)
    (λ p, Pattern.promoted p (fb_page f) (fb_incarnation f) (capacity l)).

Fixpoint flush_each (l : Prefetch) (indexes : list N) : outcome Prefetch :=
  match indexes with
  | [] => Done l
  | i :: indexes => l ← flush_one l i; flush_each l indexes
  end.

Definition flush_feedback (l : Prefetch) : outcome Prefetch :=
  if feedback_count l =? 0 then Done l
  else
    l ← (if 1 <? feedback_count l then
           '(fb, scratch) ← flush_feedback_sort (feedback_count l) (feedback l) (feedback_scratch l);
           Done (set_feedback l fb scratch (feedback_count l))
         else Done l);
    l ← flush_each l (N.of_nat <$> seq 0 (N.to_nat (feedback_count l)));
    Done (set_feedback l (feedback l) (feedback_scratch l) 0).

(** The visits of the two drains of [reconcile]. *)
Fixpoint visit_completed (l : Prefetch) (frames : list ReadFrameIdx) : outcome Prefetch :=
  match frames with
  | [] => Done l
  | frame :: frames =>
      o ← vget (frame_entries l) frame;
      l ← match o with
          | None => Done l
          | Some index =>
              eo ← vget (entries l) index;
              e ← expect eo;
              b ← obsolete l e;
              if b : bool then q ← IndexQueue.push (cleanup l) index; Done (set_cleanup l q) else Done l
          end;
      visit_completed l frames
  end.

Fixpoint visit_consumed (l : Prefetch) (clock : Clock.Clock) (frames : list ReadFrameIdx) : outcome (Prefetch * Clock.Clock) :=
  match frames with
  | [] => Done (l, clock)
  | frame :: frames =>
      o ← vget (frame_entries l) frame;
      '(l, clock) ← match o with
          | None => Done (l, clock)
          | Some index =>
              b ← Clock.speculation_consumed clock frame;
              if b : bool then finish_index l clock index (Promoted None) else Done (l, clock)
          end;
      visit_consumed l clock frames
  end.

Definition reconcile_round (st : Prefetch * Clock.Clock) : outcome (flow (Prefetch * Clock.Clock) (Prefetch * Clock.Clock)) :=
  let '(l, clock) := st in
  let before := occupied (stats l) in
  '(d, frames) ← DirtyFrames.drain (Clock.consumed clock);
  '(l, clock) ← visit_consumed l (Clock.set_consumed clock d) frames;
  Done (if before =? occupied (stats l) then Return (l, clock) else Continue (l, clock)).

Definition reconcile (l : Prefetch) (clock : Clock.Clock) : outcome (Prefetch * Clock.Clock) :=
  '(d, frames) ← DirtyFrames.drain (Clock.completed clock);
  l ← visit_completed l frames;
  r ← for_range reconcile_round (capacity l + 1) (l, Clock.set_completed clock d);
  let '(l, clock) := match r with Return x => x | Continue x => x end in
  l ← flush_feedback l;
  Done (l, clock).

Definition reconcile_feedback (l : Prefetch) (clock : Clock.Clock) : outcome (Prefetch * Clock.Clock) :=
  if 0 <? feedback_count l then reconcile l clock else Done (l, clock).

Definition observe (l : Prefetch) (clock : Clock.Clock) (reader : N) (page : PageId) : outcome (Prefetch * Clock.Clock) :=
  '(l, clock) ← reconcile_feedback l clock;
  if reader <? vlen (patterns l) then
    l ← change_pattern l reader (λ p, Pattern.observe p page (capacity l));
    Done (l, clock)
  else Done (l, clock).

Definition issued (l : Prefetch) (reader : N) (page : PageId) : outcome Prefetch :=
  change_pattern l reader (λ p, Pattern.issued p page).

Definition advance_turn (l : Prefetch) (reader : N) : outcome Prefetch :=
  q ← IndexQueue.remove (ready l) reader;
  refresh_ready (set_ready l q) reader.

Definition wait_cleanup (l : Prefetch) (index : N) : outcome Prefetch :=
  q ← IndexQueue.push (waiting l) index; Done (set_waiting l q).

Definition retry_body (l : Prefetch) : outcome (flow Prefetch Prefetch) :=
  '(q, o) ← IndexQueue.pop (waiting l);
  let l := set_waiting l q in
  match o with
  | None => Done (Return l)
  | Some index => q ← IndexQueue.push (cleanup l) index; Done (Continue (set_cleanup l q))
  end.

Definition retry_cleanup (l : Prefetch) (releases : N) : outcome Prefetch :=
  if pending_releases l =? releases then Done l
  else
    let l := set_pending_releases l releases in
    r ← for_range retry_body (capacity l) l;
    Done (match r with Return x => x | Continue x => x end).

Definition begin_explicit (l : Prefetch) : outcome Prefetch :=
  s ← expect (checked_add U64_MAX (stamp l) 1);
  Done (set_replacement_cursor (set_stamp l s) 0).

Definition protect (l : Prefetch) (frame : ReadFrameIdx) : outcome Prefetch :=
  o ← vget (frame_entries l) frame;
  match o with
  | None => Done l
  | Some index =>
      eo ← vget (entries l) index;
      e ← expect eo;
      es ← vset (entries l) index (Some (mkEntry (e_page e) (e_frame e) (e_source e) (e_membership e) (stamp l)));
      Done (set_entries l es)
  end.

Definition protected (l : Prefetch) (e : Entry) : bool := e_protected e =? stamp l.

(** One round of [prefetch_evict_obsolete]: what becomes of the entry is decided by the
    frame's state and by the waiters of its miss. *)
Inductive fate := NotResident | Refused | Evict.

Definition evict_obsolete_round (l : Prefetch) (clock : Clock.Clock) (fate_of : ReadFrameIdx → fate) :
    outcome (Prefetch * Clock.Clock * option ReadFrameIdx) :=
  '(q, o) ← IndexQueue.pop (cleanup l);
  let l := set_cleanup l q in
  match o with
  | None => Done (l, clock, None)
  | Some index =>
      eo ← vget (entries l) index;
      e ← expect eo;
      b ← obsolete l e;
      assertb b;;
      match fate_of (e_frame e) with
      | NotResident => Done (l, clock, None)
      | Refused => l ← wait_cleanup l index; Done (l, clock, None)
      | Evict => '(l, clock) ← finish l clock (e_frame e) Evicted; Done (l, clock, Some (e_frame e))
      end
  end.

End Ledger.
