(* ===== verification/LedgerLists.v ===== *)
(** * The readers' lists of speculative entries

    The entries of [Ledger] carry the links of one doubly linked list per reader: the
    predictions of the reader's current incarnation, newest first.  [members] says which
    list the links represent; the lemmas give its effect to every operation that links,
    unlinks or dissolves. *)
From stdpp Require Import functions prelude list.
From Stdlib Require Import NArith Lia.
From S2P Require Import Prelude Ids Pattern IndexQueue Ledger.

Open Scope N_scope.

Module LedgerLists.
Import Pattern.Pattern IndexQueue.IndexQueue Ledger.Ledger.

(** What an entry says apart from its links and its protection. *)
Definition core (o : option Entry) : option (PageId * ReadFrameIdx * Source) := (λ e, (e_page e, e_frame e, e_source e)) <$> o.
Definition cores (es : list (option Entry)) := core <$> es.

Record members (np : N) (es : list (option Entry)) (rs : list (option N)) (L : N → list N) : Prop := {
  m_len : vlen rs = np;
  m_head : ∀ r, r < np → rs !! N.to_nat r = Some (head (L r));
  m_nodup : ∀ r, NoDup (L r);
  m_link : ∀ i e, es !! N.to_nat i = Some (Some e) →
    e_membership e = match e_source e with Explicit => None | Automatic r _ => entry None (L r) i end;
  m_in : ∀ r i, i ∈ L r → r < np ∧ ∃ e inc, es !! N.to_nat i = Some (Some e) ∧ e_source e = Automatic r inc;
}.

Lemma m_member np es rs L r i :
  members np es rs L → i ∈ L r →
  ∃ e m inc, es !! N.to_nat i = Some (Some e) ∧ e_source e = Automatic r inc ∧ entry None (L r) i = Some m ∧ e_membership e = Some m.
Proof.
  intros Hm Hi. destruct (m_in _ _ _ _ Hm r i Hi) as (_ & e & inc & He & Hs). destruct (entry None (L r) i) as [m|] eqn:Hx; [|by apply entry_None in Hx].
  exists e, m, inc. split_and!; try done. rewrite (m_link _ _ _ _ Hm i e He), Hs. done.
Qed.

Lemma update_membership_ok es i e m f :
  es !! N.to_nat i = Some (Some e) → e_membership e = Some m →
  update_membership es i f = Done (<[N.to_nat i := Some (with_membership (Some (f m)) e)]> es).
Proof.
  intros He Hm. unfold update_membership. rewrite (proj2 (vget_Done _ _ _) He). mred. rewrite Hm. mred.
  by rewrite vset_ok by by eapply vget_lt.
Qed.

Lemma cores_membership es i e m :
  es !! i = Some (Some e) → cores (<[i := Some (with_membership m e)]> es) = cores es.
Proof.
  intros He. unfold cores. rewrite list_fmap_insert. apply list_insert_id. rewrite list_lookup_fmap, He. done.
Qed.

Lemma cores_lookup es i c : cores es !! i = Some (Some c) ↔ ∃ e, es !! i = Some (Some e) ∧ c = (e_page e, e_frame e, e_source e).
Proof.
  unfold cores. rewrite list_lookup_fmap. split.
  - intros H. destruct (es !! i) as [[e|]|]; simplify_eq/=. eauto.
  - intros (e & -> & ->). done.
Qed.

Lemma cores_none es i : cores es !! i = Some None ↔ es !! i = Some None.
Proof. unfold cores. rewrite list_lookup_fmap. destruct (es !! i) as [[e|]|]; simpl; naive_solver. Qed.

Lemma cores_at es es' i e :
  cores es' !! i = cores es !! i → es !! i = Some (Some e) → ∃ e', es' !! i = Some (Some e') ∧ e_source e' = e_source e.
Proof.
  intros Hc He. assert (cores es' !! i = Some (Some (e_page e, e_frame e, e_source e))) as Hx by (rewrite Hc; apply cores_lookup; eauto).
  apply cores_lookup in Hx as (e' & He' & Heq). exists e'. split; [done|]. congruence.
Qed.

(** ** A new head *)

Lemma entry_push l i j : i ∉ l → j ≠ i → entry None (i :: l) j = (if decide (head l = Some j) then with_previous (Some i) else id) <$> entry None l j.
Proof.
  intros Hi Hj. simpl. rewrite (proj2 (N.eqb_neq j i)) by done. case_decide as Hh.
  - by rewrite !entry_head by done.
  - rewrite option_fmap_id. by apply entry_not_head.
Qed.

Lemma members_admit np es rs L l r inc i :
  members np es rs L → entries l = es → reader_entries l = rs → es !! N.to_nat i = Some None → r < np →
  ∃ es' rs', admit_membership l i (Automatic r inc) = Done (set_entries (set_reader_entries l rs') es', Some (mkLinks None (head (L r)))) ∧
    cores es' = cores es ∧ es' !! N.to_nat i = Some None ∧
    ∀ page frame st, members np (<[N.to_nat i := Some (mkEntry page frame (Automatic r inc) (Some (mkLinks None (head (L r)))) st)]> es') rs'
      (<[r := i :: L r]> L).
Proof.
  intros Hm He Hr Hi Hrn. subst es rs. pose proof (m_head _ _ _ _ Hm r Hrn) as Hh. pose proof (m_len _ _ _ _ Hm) as Hlen.
  assert (∀ q, i ∉ L q) as Hno. { intros q Hq. destruct (m_in _ _ _ _ Hm q i Hq) as (_ & e & inc' & Hx & _). congruence. }
  unfold admit_membership. rewrite (proj2 (vget_Done _ _ _) Hh). mred. rewrite vset_ok by (by rewrite Hlen). mred.
  set (rs' := <[N.to_nat r := Some i]> (reader_entries l)).
  assert (∀ es', cores es' = cores (entries l) → es' !! N.to_nat i = Some None →
    (∀ j e, es' !! N.to_nat j = Some (Some e) → e_membership e = match e_source e with Explicit => None | Automatic q _ =>
       (if decide (q = r ∧ head (L r) = Some j) then with_previous (Some i) else id) <$> entry None (L q) j end) →
    ∀ page frame st, members np (<[N.to_nat i := Some (mkEntry page frame (Automatic r inc) (Some (mkLinks None (head (L r)))) st)]> es') rs'
      (<[r := i :: L r]> L)) as Hdone.
  { intros es' Hco Hi' Hlk page frame st. split.
    - unfold rs'. by rewrite vlen_insert.
    - intros q Hq. unfold rs'. destruct (decide (q = r)) as [->|Hne].
      + rewrite list_lookup_insert_eq by (apply lookup_lt_Some in Hh; lia). by rewrite fn_lookup_insert.
      + rewrite list_lookup_insert_ne, fn_lookup_insert_ne by (done || lia). by apply Hm.
    - intros q. destruct (decide (q = r)) as [->|Hne]; [|rewrite fn_lookup_insert_ne by done; apply Hm].
      rewrite fn_lookup_insert. apply NoDup_cons. split; [apply Hno|apply Hm].
    - intros j e Hj. destruct (decide (j = i)) as [->|Hne].
      + rewrite list_lookup_insert_eq in Hj by (by eapply lookup_lt_Some). simplify_eq/=. rewrite fn_lookup_insert. simpl. by rewrite N.eqb_refl.
      + rewrite list_lookup_insert_ne in Hj by lia. rewrite (Hlk j e Hj). destruct (e_source e) as [|q inc']; [done|].
        destruct (decide (q = r)) as [->|Hq].
        * rewrite fn_lookup_insert, entry_push by (done || apply Hno). repeat case_decide; naive_solver.
        * rewrite fn_lookup_insert_ne by done. rewrite decide_False by naive_solver. by rewrite option_fmap_id.
    - intros q j Hj. destruct (decide (j = i)) as [->|Hne].
      + destruct (decide (q = r)) as [->|Hq]; [|rewrite fn_lookup_insert_ne in Hj by done; by apply Hno in Hj].
        split; [done|]. eexists _, inc. rewrite list_lookup_insert_eq by (by eapply lookup_lt_Some). done.
      + assert (j ∈ L q) as Hjq.
        { destruct (decide (q = r)) as [->|Hq]; [rewrite fn_lookup_insert in Hj; set_solver|by rewrite fn_lookup_insert_ne in Hj]. }
        destruct (m_in _ _ _ _ Hm q j Hjq) as (Hq & e & inc' & He & Hs). split; [done|].
        destruct (cores_at (entries l) es' (N.to_nat j) e) as (e' & He' & Heq); [by rewrite Hco|done|].
        rewrite list_lookup_insert_ne by lia. exists e', inc'. split; [done|]. congruence. }
  destruct (head (L r)) as [n|] eqn:Hn.
  - destruct (m_member _ _ _ _ r n Hm) as (e & m & inc' & He & Hs & Hent & Hme); [by apply head_Some_elem_of|].
    assert (n ≠ i) as Hni by (intros ->; congruence).
    rewrite (update_membership_ok _ _ e m) by done. mred. eexists _, rs'. split; [done|]. split; [by apply cores_membership|].
    split; [by rewrite list_lookup_insert_ne by lia|]. apply Hdone; [by apply cores_membership|by rewrite list_lookup_insert_ne by lia|].
    intros j e' Hj. destruct (decide (j = n)) as [->|Hne].
    + rewrite list_lookup_insert_eq in Hj by (by eapply lookup_lt_Some). simplify_eq/=. rewrite Hs, decide_True by done. by rewrite Hent.
    + rewrite list_lookup_insert_ne in Hj by lia. rewrite (m_link _ _ _ _ Hm j e' Hj). destruct (e_source e'); [done|].
      rewrite decide_False by naive_solver. by rewrite option_fmap_id.
  - mred. eexists (entries l), rs'. split; [done|]. split; [done|]. split; [done|]. apply Hdone; try done.
    intros j e' Hj. rewrite (m_link _ _ _ _ Hm j e' Hj). destruct (e_source e'); [done|].
    rewrite decide_False by naive_solver. by rewrite option_fmap_id.
Qed.

(** An explicit entry is in no list. *)
Lemma members_explicit np es rs L i page frame st :
  members np es rs L → es !! N.to_nat i = Some None →
  members np (<[N.to_nat i := Some (mkEntry page frame Explicit None st)]> es) rs L.
Proof.
  intros Hm Hi. split; try apply Hm.
  - intros j e Hj. destruct (decide (j = i)) as [->|Hne].
    + rewrite list_lookup_insert_eq in Hj by (by eapply lookup_lt_Some). by simplify_eq.
    + rewrite list_lookup_insert_ne in Hj by lia. by apply Hm.
  - intros r j Hj. destruct (m_in _ _ _ _ Hm r j Hj) as (? & e & inc & He & Hs). split; [done|]. exists e, inc. split; [|done].
    rewrite list_lookup_insert_ne; [done|]. intros Heq. assert (i = j) as -> by lia. congruence.
Qed.

(** ** Leaving a list *)

Definition links_are (es : list (option Entry)) (F : Source → N → option Links) : Prop :=
  ∀ j e, es !! N.to_nat j = Some (Some e) → e_membership e = F (e_source e) j.

Lemma links_update es F n e m f :
  links_are es F → es !! N.to_nat n = Some (Some e) → F (e_source e) n = Some m →
  ∃ es', update_membership es n f = Done es' ∧ cores es' = cores es ∧
    links_are es' (λ s j, if decide (j = n) then f <$> F s j else F s j).
Proof.
  intros HF He Hm. eexists. split; [apply (update_membership_ok _ _ e m); [done|by rewrite (HF n e He)]|].
  split; [by apply cores_membership|]. intros j e' Hj. destruct (decide (j = n)) as [->|Hne].
  - rewrite list_lookup_insert_eq in Hj by (by eapply lookup_lt_Some). simplify_eq/=. by rewrite Hm.
  - rewrite list_lookup_insert_ne in Hj by lia. by apply HF.
Qed.

Lemma links_drop es F i : links_are es F → links_are (<[N.to_nat i := None]> es) F.
Proof. intros HF j e [(? & ? & _)|[_ Hj]]%list_lookup_insert_Some; [done|by apply HF]. Qed.

Definition cut (i : N) (L : N → list N) : N → list N := λ q, filter (λ j, j ≠ i) (L q).

Lemma cut_id i L q : i ∉ L q → cut i L q = L q.
Proof. intros Hi. apply filter_all. set_solver. Qed.

(** What is left to show once the links are right. *)
Lemma members_cut np es rs L i es' rs' :
  members np es rs L → cores es' = <[N.to_nat i := None]> (cores es) → vlen rs' = np →
  (∀ r, r < np → rs' !! N.to_nat r = Some (head (cut i L r))) →
  links_are es' (λ s j, match s with Explicit => None | Automatic r _ => entry None (cut i L r) j end) →
  members np es' rs' (cut i L).
Proof.
  intros Hm Hco Hlen Hh Hlk. split; try done.
  - intros r. apply NoDup_filter, Hm.
  - intros r j [Hne Hj]%list_elem_of_filter. destruct (m_in _ _ _ _ Hm r j Hj) as (Hr & e & inc & He & Hs). split; [done|].
    destruct (cores_at es es' (N.to_nat j) e) as (e' & He' & Heq); [rewrite Hco, list_lookup_insert_ne by lia; done|done|].
    exists e', inc. split; [done|]. congruence.
Qed.

Lemma members_entry_source np es rs L i e r :
  members np es rs L → es !! N.to_nat i = Some (Some e) → i ∈ L r → ∃ inc, e_source e = Automatic r inc.
Proof. intros Hm He Hi. destruct (m_in _ _ _ _ Hm r i Hi) as (_ & e' & inc & He' & Hs). exists inc. congruence. Qed.

Lemma cores_drop es i : cores (<[i := None]> es) = <[i := None]> (cores es).
Proof. unfold cores. by rewrite list_fmap_insert. Qed.

(** The two cells around [i] are relinked. *)
Lemma unlink_relink es F r l1 i l2 (es0 := <[N.to_nat i := None]> es) :
  NoDup (l1 ++ i :: l2) → links_are es F → (∀ j, j ∈ l1 ++ i :: l2 → ∃ e inc', es !! N.to_nat j = Some (Some e) ∧ e_source e = Automatic r inc') →
  (∀ inc' j, F (Automatic r inc') j = entry None (l1 ++ i :: l2) j) →
  ∃ es1, match list.last l1 with Some pv => update_membership es0 pv (with_next (head l2)) | None => Done es0 end = Done es1 ∧
  ∃ es2, match head l2 with Some nx => update_membership es1 nx (with_previous (list.last l1)) | None => Done es1 end = Done es2 ∧
    cores es2 = <[N.to_nat i := None]> (cores es) ∧
    links_are es2 (λ s j, (if decide (head l2 = Some j) then fmap (with_previous (list.last l1)) else id)
      ((if decide (list.last l1 = Some j) then fmap (with_next (head l2)) else id) (F s j))).
Proof.
  intros Hnd HF Hin HFr. pose proof (links_drop es F i HF) as HF0. fold es0 in HF0.
  assert (∀ j, j ∈ l1 ++ l2 → ∃ e inc', es0 !! N.to_nat j = Some (Some e) ∧ e_source e = Automatic r inc') as Hin0.
  { intros j Hj. destruct (Hin j) as (e & inc' & He & Hs); [set_solver|]. exists e, inc'. split; [|done]. unfold es0. rewrite list_lookup_insert_ne; [done|].
    intros Heq. assert (i = j) as -> by lia. apply NoDup_app in Hnd as (_ & Hd & [Hi _]%NoDup_cons). set_solver. }
  assert (∃ es1, match list.last l1 with Some pv => update_membership es0 pv (with_next (head l2)) | None => Done es0 end = Done es1 ∧
    cores es1 = cores es0 ∧ links_are es1 (λ s j, (if decide (list.last l1 = Some j) then fmap (with_next (head l2)) else id) (F s j)))
    as (es1 & He1 & Hc1 & HF1).
  { destruct (list.last l1) as [pv|] eqn:Hpv; [|by exists es0; rewrite ?decide_False by done]. apply last_Some_elem_of in Hpv.
    destruct (Hin0 pv) as (e & inc' & He & Hs); [set_solver|]. destruct (entry None (l1 ++ i :: l2) pv) as [m|] eqn:Hm; [|apply entry_None in Hm; set_solver].
    destruct (links_update es0 F pv e m (with_next (head l2)) HF0 He) as (es1 & -> & Hc & HF1); [by rewrite Hs, HFr|].
    exists es1. split_and!; try done. intros j e' Hj. rewrite (HF1 j e' Hj). repeat case_decide; naive_solver. }
  exists es1. split; [done|]. unfold es0 in Hc1. rewrite cores_drop in Hc1.
  destruct (head l2) as [nx|] eqn:Hnx; [|by exists es1]. apply head_Some_elem_of in Hnx as Hnl.
  destruct (Hin0 nx) as (e & inc' & He & Hs); [set_solver|].
  destruct (cores_at es0 es1 (N.to_nat nx) e) as (e1 & Hx & Heq); [by rewrite Hc1, <- cores_drop|done|]. assert (e_source e1 = Automatic r inc') as Hs1 by congruence.
  destruct (entry None (l1 ++ i :: l2) nx) as [m|] eqn:Hm; [|apply entry_None in Hm; set_solver].
  destruct (links_update es1 _ nx e1 m (with_previous (list.last l1)) HF1 Hx) as (es2 & -> & Hc & HF2).
  { rewrite Hs1, HFr, decide_False, Hm; [done|]. intros Hl%last_Some_elem_of. apply NoDup_app in Hnd as (_ & Hd & _). set_solver. }
  exists es2. split; [done|]. split; [congruence|]. intros j e' Hj. rewrite (HF2 j e' Hj). repeat case_decide; naive_solver.
Qed.

Lemma members_unlink np es rs L l i e :
  members np es rs L → es !! N.to_nat i = Some (Some e) → entries l = <[N.to_nat i := None]> es → reader_entries l = rs →
  ∃ es' rs', finish_index_unlink_reader l i e = Done (set_reader_entries (set_entries l es') rs') ∧
    cores es' = <[N.to_nat i := None]> (cores es) ∧ members np es' rs' (cut i L).
Proof.
  intros Hm He Hes Hrs. unfold finish_index_unlink_reader. rewrite (m_link _ _ _ _ Hm i e He).
  assert ((∀ r, i ∉ L r) → members np (<[N.to_nat i := None]> es) rs (cut i L)) as Hout.
  { intros Hno. apply (members_cut np es rs L i); [done|by rewrite cores_drop|apply Hm| |].
    - intros r Hr. rewrite cut_id by done. by apply Hm.
    - apply links_drop. intros j e' Hj. rewrite (m_link _ _ _ _ Hm j e' Hj). destruct (e_source e'); [done|]. by rewrite cut_id. }
  assert (∀ l, l = set_reader_entries (set_entries l (entries l)) (reader_entries l)) as Hid by (by intros []).
  destruct (e_source e) as [|r inc] eqn:Hs.
  { exists (<[N.to_nat i := None]> es), rs. rewrite <- Hes, <- Hrs at 1. rewrite <- Hid. split; [done|]. split; [by rewrite cores_drop|].
    apply Hout. intros q Hq. destruct (members_entry_source _ _ _ _ _ _ _ Hm He Hq). congruence. }
  destruct (decide (i ∈ L r)) as [Hin|Hin].
  2: { rewrite (proj2 (entry_None None (L r) i) Hin). exists (<[N.to_nat i := None]> es), rs. rewrite <- Hes, <- Hrs at 1. rewrite <- Hid.
       split; [done|]. split; [by rewrite cores_drop|]. apply Hout. intros q Hq.
       destruct (members_entry_source _ _ _ _ _ _ _ Hm He Hq). congruence. }
  destruct (m_in _ _ _ _ Hm r i Hin) as (Hr & _). pose proof (m_nodup _ _ _ _ Hm r) as Hnd. pose proof (m_len _ _ _ _ Hm) as Hlen.
  pose proof Hin as (l1 & l2 & Hl)%list_elem_of_split. rewrite Hl in Hnd. rewrite Hl, (entry_mid l1 i l2 Hnd).
  assert (cut i L r = l1 ++ l2) as Hcut.
  { unfold cut. rewrite Hl, filter_app, filter_cons_False by tauto. pose proof Hnd as (_ & Hd & [Hi2 _]%NoDup_cons)%NoDup_app.
    rewrite !filter_all; [done|set_solver..]. }
  assert (∀ q, q ≠ r → cut i L q = L q) as Hother.
  { intros q Hq. apply cut_id. intros Hx. destruct (members_entry_source _ _ _ _ _ _ _ Hm He Hx). congruence. }
  destruct (unlink_relink es (λ s j, match s with Explicit => None | Automatic r _ => entry None (L r) j end) r l1 i l2)
    as (es1 & He1 & es2 & He2 & Hc2 & HF2); [done|intros j e'; apply Hm| |by intros; rewrite Hl|].
  { intros j Hj. rewrite <- Hl in Hj. destruct (m_in _ _ _ _ Hm r j Hj) as (_ & e' & inc' & ? & ?). eauto. }
  assert (∀ rs', vlen rs' = np → (∀ q, q < np → rs' !! N.to_nat q = Some (head (cut i L q))) → members np es2 rs' (cut i L)) as Hdone.
  { intros rs' Hlen' Hh'. apply (members_cut np es rs L i); try done. intros j e' Hj. rewrite (HF2 j e' Hj).
    destruct (e_source e') as [|q inc'] eqn:Hsq; [by repeat case_decide|]. destruct (decide (q = r)) as [->|Hq].
    - rewrite Hcut, Hl. assert (j ≠ i) as Hji.
      { intros ->. assert (cores es2 !! N.to_nat i = Some None) as Hx
          by (rewrite Hc2; apply list_lookup_insert_eq; unfold cores; rewrite length_fmap; by eapply lookup_lt_Some).
        apply cores_none in Hx. congruence. }
      rewrite (entry_cut l1 i l2 j Hnd Hji). pose proof Hnd as (_ & Hd & _)%NoDup_app.
      destruct (decide (list.last l1 = Some j)) as [Hla|]; [|by repeat case_decide; rewrite ?option_fmap_id].
      rewrite decide_False; [done|]. intros Hhe%head_Some_elem_of. apply last_Some_elem_of in Hla. set_solver.
    - rewrite Hother by done. destruct (entry None (L q) j) as [m|] eqn:Hm'; [|by repeat case_decide].
      assert (j ∉ L r) as Hjr.
      { intros Hx. assert (j ∈ L q) as Hjq by (apply dec_stable; intros Hc%(proj2 (entry_None None (L q) j)); congruence).
        destruct (m_in _ _ _ _ Hm q j Hjq) as (_ & e1 & inc1 & H1 & H2).
        destruct (members_entry_source _ _ _ _ _ _ _ Hm H1 Hx). congruence. }
      rewrite Hl in Hjr. rewrite !decide_False; [done|intros Hx%last_Some_elem_of; set_solver|intros Hx%head_Some_elem_of; set_solver]. }
  rewrite <- Hes in He1. simpl in He1. cbn [previous next].
  assert (match list.last l1 with
     | Some pv => es ← update_membership (entries l) pv (with_next (head l2)); Done (set_entries l es)
     | None => h ← vget (reader_entries l) r; assertb (bool_decide (h = Some i));; rs ← vset (reader_entries l) r (head l2); Done (set_reader_entries l rs)
     end = Done (set_reader_entries (set_entries l es1)
       (if list.last l1 is Some _ then rs else <[N.to_nat r := head l2]> rs))) as ->.
  { pose proof (m_head _ _ _ _ Hm r Hr) as Hh. rewrite Hrs. destruct (list.last l1) as [pv|] eqn:Hpv.
    - rewrite He1. mred. rewrite <- Hrs. by destruct l.
    - injection He1 as <-. rewrite (proj2 (vget_Done _ _ _) Hh). mred. apply last_None in Hpv. rewrite Hl, Hpv. simpl.
      rewrite bool_decide_eq_true_2 by done. mred. rewrite vset_ok by by rewrite Hlen. mred. by destruct l. }
  mred. cbn [entries set_reader_entries set_entries].
  assert (members np es2 (if list.last l1 is Some _ then rs else <[N.to_nat r := head l2]> rs) (cut i L)) as Hfin.
  { apply Hdone.
    - destruct (list.last l1); [done|]. by rewrite vlen_insert.
    - intros q Hq. pose proof (m_head _ _ _ _ Hm r Hr) as Hh. destruct (decide (q = r)) as [->|Hne].
      + rewrite Hcut. rewrite Hl in Hh. destruct l1 as [|x l1]; simpl in *.
        * rewrite list_lookup_insert_eq; [done|]. by eapply lookup_lt_Some.
        * rewrite last_cons. by destruct (list.last l1).
      + rewrite Hother by done. destruct (list.last l1); [by apply Hm|]. rewrite list_lookup_insert_ne by lia. by apply Hm. }
  exists es2, (if list.last l1 is Some _ then rs else <[N.to_nat r := head l2]> rs). split; [|done].
  destruct (head l2) as [nx|]; [rewrite He2; mred|injection He2 as <-]; done.
Qed.

(** ** Dissolving a list *)

Definition result {A} (r : flow A A) : A := match r with Return x => x | Continue x => x end.

(** The loop of [invalidate_reader] over the members [k] that remain. *)
Lemma invalidate_loop cap k : ∀ fuel l C,
  (length k ≤ fuel)%nat → rep cap (cleanup l) C → vlen (entries l) = cap →
  (∀ k1 i k2, k = k1 ++ i :: k2 → i < cap ∧ ∃ e m, entries l !! N.to_nat i = Some (Some e) ∧ e_membership e = Some m ∧ next m = head k2) →
  NoDup k →
  ∃ r es q C', for_nat invalidate_body fuel (l, head k) = Done r ∧ result r = (set_cleanup (set_entries l es) q, None) ∧
    rep cap q C' ∧ (∀ j, j ∈ C' ↔ j ∈ C ∨ j ∈ k) ∧ cores es = cores (entries l) ∧
    ∀ j e, es !! N.to_nat j = Some (Some e) → ∃ e0, entries l !! N.to_nat j = Some (Some e0) ∧ e_source e = e_source e0 ∧
      e_membership e = if decide (j ∈ k) then None else e_membership e0.
Proof.
  induction k as [|i k IH]; intros fuel l C Hfuel Hq Hlen Hk Hnd.
  - assert (∀ l, l = set_cleanup (set_entries l (entries l)) (cleanup l)) as Hid by (by intros []).
    assert (∃ r, for_nat invalidate_body fuel (l, None) = Done r ∧ result r = (l, None)) as (r & Hr & Hres).
    { destruct fuel; simpl; by eexists. }
    exists r, (entries l), (cleanup l), C. rewrite <- Hid. split_and!; try done; [set_solver|].
    intros j e Hj. exists e. rewrite decide_False by set_solver. done.
  - apply NoDup_cons in Hnd as [Hi Hnd]. destruct fuel as [|fuel]; [simpl in Hfuel; lia|].
    destruct (Hk [] i k eq_refl) as (Hic & e & m & He & Hm & Hnx). simpl. rewrite (proj2 (vget_Done _ _ _) He). mred.
    rewrite vset_ok by (by rewrite Hlen). mred. rewrite Hm. mred.
    destruct (push_rep cap (cleanup l) C i Hq Hic) as (q1 & -> & Hq1). mred. simpl. rewrite Hnx.
    set (l1 := set_cleanup _ q1). destruct (IH fuel l1 _ ltac:(simpl in Hfuel; lia) Hq1) as (r & es & q & C' & Hr & Hres & Hq' & HC' & Hco & Hes).
    + simpl. by rewrite vlen_insert.
    + intros k1 j k2 ->. destruct (Hk (i :: k1) j k2 eq_refl) as (Hj & e' & m' & He' & Hm' & Hn'). split; [done|].
      exists e', m'. simpl. rewrite list_lookup_insert_ne; [done|]. intros Heq. assert (i = j) as -> by lia. set_solver.
    + done.
    + exists r, es, q, C'. split_and!; try done.
      * intros j. rewrite HC'. case_decide; set_solver.
      * rewrite Hco. simpl. by apply cores_membership.
      * intros j e' Hj. destruct (Hes j e' Hj) as (e0 & He0 & Hs0 & Hm0). simpl in He0. destruct (decide (j = i)) as [->|Hne].
        -- rewrite list_lookup_insert_eq in He0 by (by eapply lookup_lt_Some). simplify_eq/=. exists e. split_and!; try done.
           rewrite decide_True by set_solver. by rewrite decide_False in Hm0.
        -- rewrite list_lookup_insert_ne in He0 by lia. exists e0. split_and!; try done. rewrite Hm0. repeat case_decide; set_solver.
Qed.

Lemma members_invalidate np cap l L C r :
  members np (entries l) (reader_entries l) L → r < np → vlen (entries l) = cap → capacity l = cap → rep cap (cleanup l) C →
  ∃ es rs q C', invalidate_reader l r = Done (set_cleanup (set_entries (set_reader_entries l rs) es) q) ∧
    rep cap q C' ∧ (∀ j, j ∈ C' ↔ j ∈ C ∨ j ∈ L r) ∧ cores es = cores (entries l) ∧ members np es rs (<[r := []]> L).
Proof.
  intros Hm Hr Hlen Hcap Hq. pose proof (m_head _ _ _ _ Hm r Hr) as Hh. pose proof (m_len _ _ _ _ Hm) as Hrs.
  pose proof (m_nodup _ _ _ _ Hm r) as Hnd. unfold invalidate_reader. rewrite (proj2 (vget_Done _ _ _) Hh). mred.
  rewrite vset_ok by (by rewrite Hrs). mred. rewrite for_range_nat. simpl. set (l0 := set_reader_entries l _).
  assert (∀ i, i ∈ L r → i < cap) as Hlt.
  { intros i Hi. destruct (m_in _ _ _ _ Hm r i Hi) as (_ & e & inc & He & _). rewrite <- Hlen. by eapply vget_lt. }
  destruct (invalidate_loop cap (L r) (N.to_nat (capacity l)) l0 C) as (res & es & q & C' & -> & Hres & Hq' & HC' & Hco & Hes); try done.
  { rewrite Hcap. apply NoDup_bounded; [done|]. intros i Hi. rewrite N2Nat.id. by apply Hlt. }
  { intros k1 i k2 Hk. assert (i ∈ L r) as Hi by (rewrite Hk; set_solver). split; [by apply Hlt|].
    destruct (m_member _ _ _ _ r i Hm Hi) as (e & m & inc & He & _ & Hent & Hme). exists e, m. split_and!; try done.
    rewrite Hk in Hent, Hnd. rewrite (entry_mid k1 i k2 Hnd) in Hent. by simplify_eq. }
  mred. fold (@result (Prefetch * option N) res). rewrite Hres. mred. eexists es, _, q, C'. split; [done|]. split_and!; try done. split.
  - by rewrite vlen_insert.
  - intros s Hs. destruct (decide (s = r)) as [->|Hne].
    + rewrite list_lookup_insert_eq, fn_lookup_insert; [done|]. by eapply lookup_lt_Some.
    + rewrite list_lookup_insert_ne, fn_lookup_insert_ne by (done || lia). by apply Hm.
  - intros s. destruct (decide (s = r)) as [->|Hne]; [rewrite fn_lookup_insert; constructor|rewrite fn_lookup_insert_ne by done; apply Hm].
  - intros j e Hj. destruct (Hes j e Hj) as (e0 & He0 & Hs0 & Hm0). rewrite Hm0, Hs0, (m_link _ _ _ _ Hm j e0 He0).
    destruct (e_source e0) as [|s inc] eqn:Hs; [by case_decide|]. destruct (decide (s = r)) as [->|Hne].
    + rewrite fn_lookup_insert. simpl. case_decide as Hd; [done|]. by apply entry_None.
    + rewrite fn_lookup_insert_ne by done. rewrite decide_False; [done|]. intros Hx.
      destruct (members_entry_source _ _ _ _ _ _ _ Hm He0 Hx). congruence.
  - intros s j Hj. destruct (decide (s = r)) as [->|Hne]; [rewrite fn_lookup_insert in Hj; by apply elem_of_nil in Hj|].
    rewrite fn_lookup_insert_ne in Hj by done. destruct (m_in _ _ _ _ Hm s j Hj) as (Hsn & e & inc & He & Hsrc). split; [done|].
    destruct (cores_at (entries l) es (N.to_nat j) e) as (e' & He' & Heq); [by rewrite Hco|done|].
    exists e', inc. split; [done|]. congruence.
Qed.

End LedgerLists.
