(* ===== verification/LedgerSystem.v ===== *)
(** * The prefetch ledger keeps its books

    The invariant of [Ledger] and its preservation by every call the pool makes, readers
    touching the clock between calls.  [storage] is the vacant stack against the occupied
    entries and the frame index, [marks] the clock's markers against that index, [turns]
    the ready queue against the patterns, [queued] and [owned] the cleanup queues and the
    readers' lists against the incarnations, [fed] the feedback still to be delivered. *)
From stdpp Require Import functions prelude list relations.
From Stdlib Require Import NArith Lia.
From S2P Require Import Prelude Ids Frames Notifications Clock Pattern IndexQueue Feedback Ledger LedgerLists.

Open Scope N_scope.

Module LedgerSystem.
Import Pattern.Pattern IndexQueue.IndexQueue Feedback.Feedback Ledger.Ledger LedgerLists.LedgerLists.

(** ** Patterns *)

Definition pat_ok (cap : N) (p : Pattern) : Prop := stream_inv cap (mkStream p []).

(** A page the stream of [p] has predicted; [x] predictions are admitted and about to be
    issued. *)
Definition good (x : N) (p : Pattern) (page : PageId) : Prop :=
  ∃ demand nx w, state p = Streaming demand nx w ∧ pg_file page = pg_file demand ∧ pg_granule_idx page < nx + x.

(** A change of a pattern keeps its predictions or starts a new incarnation. *)
Definition moves (x x' : N) (p p' : Pattern) : Prop :=
  (incarnation p' = incarnation p ∧ ∀ page, good x p page → good x' p' page) ∨ incarnation p < incarnation p'.

Definition moved (cap x x' : N) (p : Pattern) (o : outcome Pattern) : Prop :=
  ∃ p', o = Done p' ∧ pat_ok cap p' ∧ moves x x' p p' ∧ incarnation p' ≤ incarnation p + 1.

Lemma reset_moved cap x x' p : pat_ok cap p → incarnation p < U64_MAX → moved cap x x' p (Pattern.reset p).
Proof.
  intros Hp Hlt. unfold moved. assert (∃ p', Pattern.reset p = Done p' ∧ incarnation p' = incarnation p + 1) as (p' & Hr & Hi).
  { unfold Pattern.reset, checked_add. rewrite (proj2 (N.leb_le _ _)) by lia. by eexists. }
  exists p'. destruct (reset_inv _ _ _ _ Hp Hr) as [Hp' _]. split_and!; [done|done|right; lia|lia].
Qed.

Lemma kept_moved cap x p : pat_ok cap p → moved cap x x p (Done p).
Proof. intros Hp. exists p. split_and!; [done|done|by left|lia]. Qed.

Lemma observe_moved cap p page :
  pat_ok cap p → 0 < cap → pg_granule_idx page ≤ U32_MAX → incarnation p < U64_MAX → moved cap 0 0 p (Pattern.observe p page cap).
Proof.
  intros Hp Hcap Hpage Hlt. destruct (reset_moved cap 0 0 p Hp Hlt) as (p0 & Hr & Hp0 & Hm0 & Hi0).
  destruct (reset_inv _ _ _ _ Hp Hr) as (_ & _ & Hlt0 & _).
  assert (∃ p', Pattern.observe p page cap = Done p' ∧ moves 0 0 p p' ∧ incarnation p' ≤ incarnation p + 1) as (p' & Ho & Hm & Hi).
  { unfold Pattern.observe. rewrite (assertb_true (0 <? cap)) by by apply N.ltb_lt. mred.
    case_bool_decide as Hlast; [exists p; split_and!; [done|by left|lia]|].
    destruct (match last_page p with Some last => follows last page | None => false end) eqn:Hf.
    - destruct (last_page p) as [lp|] eqn:Hlp; [|done]. unfold follows in Hf. apply andb_true_iff in Hf as [Hf1 Hf2]. reflect_bools.
      unfold observe_sequential. destruct (checked_add U32_MAX (pg_granule_idx page) 1) as [nx|] eqn:Hnx; [|by exists p0].
      unfold last_page in Hlp. destruct (state p) as [|lp' run|demand nx0 w] eqn:Hs; simplify_eq.
      + destruct (run <? 2); (eexists; split_and!; [done| |simpl; lia]; left; split; [done|]; intros pg (d & n & w' & Hx & _); congruence).
      + eexists. split_and!; [done| |simpl; lia]. left. split; [done|]. intros pg (d & n & w' & Hx & Hfile & Hg). rewrite Hs in Hx. injection Hx as <- <- <-.
        eexists page, _, _. split_and!; [done|congruence|lia].
    - rewrite Hr. mred. eexists. split_and!; [done|by right|done]. }
  exists p'. split_and!; try done. exact (observe_inv _ _ _ _ _ Hp Hpage Ho).
Qed.

Lemma stream_forget cap p tr : stream_inv cap (mkStream p tr) → pat_ok cap p.
Proof. intros [H1 H2 H3 H4]. split; simpl in *; try done; [by intros ? ? ?%elem_of_nil|constructor|by intros ? ?%elem_of_nil]. Qed.

Lemma issued_moved cap x p r page source :
  pat_ok cap p → incarnation p < U64_MAX → request p r = Some (page, source) → moved cap (x + 1) x p (Pattern.issued p page).
Proof.
  intros Hp Hlt Hreq. destruct (reset_moved cap (x + 1) x p Hp Hlt) as (p0 & Hr & Hp0 & Hm0 & Hi0).
  assert (∃ p', Pattern.issued p page = Done p' ∧ moves (x + 1) x p p' ∧ incarnation p' ≤ incarnation p + 1) as (p' & Ho & Hm & Hi).
  { unfold request in Hreq. unfold Pattern.issued. destruct (state p) as [| |demand nx w] eqn:Hs; try done. case_match; [done|]. simplify_eq.
    rewrite bool_decide_eq_true_2 by done. mred. destruct (checked_add U32_MAX nx 1) as [n1|] eqn:Hn; [|by exists p0].
    apply checked_add_Some in Hn as [-> _]. eexists. split_and!; [done| |simpl; lia]. left. split; [done|].
    intros pg (d & n & w' & Hx & Hfile & Hg). rewrite Hs in Hx. injection Hx as <- <- <-. eexists _, _, _. split_and!; [done|done|lia]. }
  exists p'. split_and!; try done. exact (stream_forget _ _ _ (issue_inv _ _ _ _ _ _ _ Hp Hreq Ho)).
Qed.

Lemma promoted_moved cap p page inc :
  pat_ok cap p → 0 < cap → incarnation p < U64_MAX → (inc = incarnation p → good 0 p page) → moved cap 0 0 p (Pattern.promoted p page inc cap).
Proof.
  intros Hp Hcap Hlt Hg. unfold Pattern.promoted. destruct (N.eqb_spec (incarnation p) inc) as [<-|]; [|by apply kept_moved]. simpl.
  destruct (Hg eq_refl) as (demand & nx & w & Hs & Hfile & Hgr). rewrite N.add_0_r in Hgr. rewrite Hs.
  rewrite (bool_decide_eq_true_2 (pg_file demand = pg_file page)) by done. mred.
  pose proof (si_state _ _ Hp) as Hst. simpl in Hst. rewrite Hs in Hst. destruct Hst as [Hst Hw].
  destruct (N.leb_spec (pg_granule_idx page) (pg_granule_idx demand)) as [Hle|Hgt]; [by apply kept_moved|].
  case_bool_decide as Hb; [|apply observe_moved; try done; lia].
  apply checked_add_Some in Hb as [Hb _]. eexists. split; [done|]. split_and!; [| |simpl; lia].
  - split; simpl; try done; [by intros ? ? ?%elem_of_nil|constructor| |by intros ? ?%elem_of_nil].
    split; [lia|]. unfold saturating_mul, U32_MAX. lia.
  - left. split; [done|]. intros pg (d & n & w' & Hx & Hf' & Hg'). rewrite Hs in Hx. injection Hx as <- <- <-. eexists page, _, _.
    split_and!; [done|congruence|done].
Qed.

Lemma window_ok cap p r vw : pat_ok cap p → ∃ o, window p r vw = Done o.
Proof.
  intros Hp. pose proof (si_state _ _ Hp) as Hst. simpl in Hst. unfold window, request. destruct (state p) as [| |demand nx w] eqn:Hs; [by eexists..|].
  destruct (saturating_add U32_MAX (pg_granule_idx demand) w <? nx) eqn:Hle; [by eexists|]. reflect_bools. unfold saturating_add in *. rewrite sub_ok by lia. mred. rewrite add_ok by lia. by eexists.
Qed.

(** ** Entries, vacancies and the frame index *)

Abbreviation cored := (list (option (PageId * ReadFrameIdx * Source))).

Record storage (cap : N) (co : cored) (vac : list N) (vc occ : N) (fes : list (option N)) : Prop := {
  st_len : vlen co = cap;
  st_vlen : vlen vac = cap;
  st_count : vc + occ = cap;
  st_nodup : NoDup (take (N.to_nat vc) vac);
  st_free : ∀ i, i ∈ take (N.to_nat vc) vac ↔ co !! N.to_nat i = Some None;
  st_index : ∀ (f : ReadFrameIdx) i, fes !! N.to_nat f = Some (Some i) ↔ ∃ pg src, co !! N.to_nat i = Some (Some (pg, f, src));
}.

Lemma storage_admit cap co vac vc occ fes (f : ReadFrameIdx) pg src :
  storage cap co vac vc occ fes → 0 < vc → fes !! N.to_nat f = Some None →
  ∃ i, vac !! N.to_nat (vc - 1) = Some i ∧ co !! N.to_nat i = Some None ∧
    storage cap (<[N.to_nat i := Some (pg, f, src)]> co) vac (vc - 1) (occ + 1) (<[N.to_nat f := Some i]> fes).
Proof.
  intros [H1 H2 H3 H4 H5 H6] Hvc Hf.
  destruct (lookup_lt_is_Some_2 vac (N.to_nat (vc - 1))) as [i Hi]; [unfold vlen in *; lia|]. exists i. split; [done|].
  assert (take (N.to_nat vc) vac = take (N.to_nat (vc - 1)) vac ++ [i]) as Htake.
  { rewrite <- take_S_r by done. f_equal. lia. }
  rewrite Htake in H4, H5. assert (co !! N.to_nat i = Some None) as Hci by (apply H5; set_solver). split; [done|].
  apply NoDup_app in H4 as (Hnd & Hdis & _). split; try done.
  - by rewrite vlen_insert.
  - lia.
  - intros j. destruct (decide (j = i)) as [->|Hne].
    + rewrite list_lookup_insert_eq by (by eapply lookup_lt_Some). split; [set_solver|done].
    + rewrite list_lookup_insert_ne by lia. rewrite <- H5. set_solver.
  - intros g j. destruct (decide (j = i)) as [->|Hne].
    + rewrite (list_lookup_insert_eq co) by (by eapply lookup_lt_Some). destruct (decide (g = f)) as [->|Hg].
      * rewrite list_lookup_insert_eq by (by eapply lookup_lt_Some). split; eauto.
      * rewrite list_lookup_insert_ne by lia. rewrite H6. split; [intros (? & ? & Hx); congruence|intros (? & ? & [= -> -> ->]); done].
    + rewrite (list_lookup_insert_ne co) by lia. rewrite <- H6. destruct (decide (g = f)) as [->|Hg]; [|by rewrite list_lookup_insert_ne by lia].
      rewrite list_lookup_insert_eq by (by eapply lookup_lt_Some). rewrite Hf. split; congruence.
Qed.

Lemma storage_finish cap co vac vc occ fes i pg (f : ReadFrameIdx) src :
  storage cap co vac vc occ fes → co !! N.to_nat i = Some (Some (pg, f, src)) →
  vc < cap ∧ 0 < occ ∧ fes !! N.to_nat f = Some (Some i) ∧
  storage cap (<[N.to_nat i := None]> co) (<[N.to_nat vc := i]> vac) (vc + 1) (occ - 1) (<[N.to_nat f := None]> fes).
Proof.
  intros [H1 H2 H3 H4 H5 H6] Hi. assert (fes !! N.to_nat f = Some (Some i)) as Hf by (apply H6; eauto).
  assert (i ∉ take (N.to_nat vc) vac) as Hni by (rewrite H5; congruence).
  assert (∀ j, j ∈ i :: take (N.to_nat vc) vac → j < N.of_nat (length co)) as Hlt.
  { intros j [->|Hj%H5]%elem_of_cons; [apply lookup_lt_Some in Hi|apply lookup_lt_Some in Hj]; lia. }
  pose proof (NoDup_bounded _ _ (NoDup_cons_2 _ _ Hni H4) Hlt) as Hb. simpl in Hb. rewrite length_take in Hb. unfold vlen in *.
  assert (vc < cap) as Hvc by lia. split; [done|]. split; [lia|]. split; [done|].
  assert (take (N.to_nat (vc + 1)) (<[N.to_nat vc := i]> vac) = take (N.to_nat vc) vac ++ [i]) as Htake.
  { replace (N.to_nat (vc + 1)) with (S (N.to_nat vc)) by lia. rewrite (take_S_r _ _ i) by (apply list_lookup_insert_eq; lia).
    by rewrite take_insert_ge by lia. }
  split; rewrite ?Htake; unfold vlen; rewrite ?length_insert; try lia.
  - apply NoDup_app. split_and!; [done|set_solver|apply NoDup_singleton].
  - intros j. destruct (decide (j = i)) as [->|Hne].
    + rewrite list_lookup_insert_eq by (by eapply lookup_lt_Some). split; [done|set_solver].
    + rewrite list_lookup_insert_ne by lia. rewrite <- H5. set_solver.
  - intros g j. destruct (decide (j = i)) as [->|Hne].
    + rewrite (list_lookup_insert_eq co) by (by eapply lookup_lt_Some). split; [|by intros (? & ? & ?)]. intros Hg. exfalso.
      apply list_lookup_insert_Some in Hg as [(_ & ? & _)|[Hgf Hg%H6]]; [done|]. destruct Hg as (? & ? & ?). simplify_eq. 
    + rewrite (list_lookup_insert_ne co) by lia. rewrite <- H6. destruct (decide (g = f)) as [->|Hg]; [|by rewrite list_lookup_insert_ne by lia].
      rewrite list_lookup_insert_eq by (by eapply lookup_lt_Some). rewrite Hf. split; congruence.
Qed.

(** ** Markers and notifications *)

(** [pend]: frames drained from the tree and not yet visited. *)
Record marks (pend : list N) (fes : list (option N)) (c : Clock.Clock) : Prop := {
  k_bits : vlen (Clock.reference_bits c) = vlen fes;
  k_spec : vlen (Clock.speculation c) = vlen fes;
  k_consumed : DirtyFrames.quiet (Clock.consumed c) ∧ DirtyFrames.frames (Clock.consumed c) = vlen fes;
  k_completed : DirtyFrames.quiet (Clock.completed c) ∧ DirtyFrames.frames (Clock.completed c) = vlen fes;
  k_marker : ∀ f m, Clock.speculation c !! N.to_nat f = Some m → (fes !! N.to_nat f = Some None ↔ m = 0) ∧ (m = U64_MAX ∨ m ≤ U32_MAX + 2);
  k_marked : ∀ f m, Clock.speculation c !! N.to_nat f = Some m → 2 ≤ m → DirtyFrames.marked (Clock.consumed c) 0 f = true ∨ f ∈ pend;
}.

Lemma clock_index_ok pend fes c f : marks pend fes c → f < vlen fes → Clock.checked_index c f = Done f.
Proof. intros Hm Hf. unfold Clock.checked_index. rewrite (k_bits _ _ _ Hm), (proj2 (N.ltb_lt _ _)) by done. done. Qed.

Lemma marker_at pend fes c f : marks pend fes c → f < vlen fes → ∃ m, Clock.speculation c !! N.to_nat f = Some m.
Proof. intros Hm Hf. destruct (vget_ok (Clock.speculation c) f) as (m & _ & ?); [by rewrite (k_spec _ _ _ Hm)|]. by exists m. Qed.

(** A marker stored where the index changes with it. *)
Lemma marks_store pend fes c f m o bits :
  marks pend fes c → f < vlen fes → vlen bits = vlen fes → m < 2 → (o = None ↔ m = 0) →
  marks pend (<[N.to_nat f := o]> fes) (Clock.set_speculation (Clock.set_bits c bits) (<[N.to_nat f := m]> (Clock.speculation c))).
Proof.
  intros [H1 H2 H3 H4 H5 H6] Hf Hb Hm Ho. assert (N.to_nat f < length fes)%nat as Hl by (unfold vlen in Hf; lia).
  assert (N.to_nat f < length (Clock.speculation c))%nat as Hl2 by (unfold vlen in *; lia).
  split; simpl; rewrite ?vlen_insert; try done.
  - intros g m' Hg. destruct (decide (g = f)) as [->|Hne].
    + rewrite list_lookup_insert_eq in Hg by done. rewrite list_lookup_insert_eq by done. simplify_eq. split; [split; [intros [= ->]; by apply Ho|intros ->; by rewrite (proj2 Ho)]|]. right. lia.
    + rewrite list_lookup_insert_ne in Hg by lia. rewrite list_lookup_insert_ne by lia. by apply H5.
  - intros g m' Hg Hm'. destruct (decide (g = f)) as [->|Hne].
    + rewrite list_lookup_insert_eq in Hg by done. simplify_eq. lia.
    + rewrite list_lookup_insert_ne in Hg by lia. by eapply H6.
Qed.

Lemma begin_mark_ok pend fes c f i :
  marks pend fes c → fes !! N.to_nat f = Some None →
  ∃ c', Clock.begin_speculation c f = Done c' ∧ marks pend (<[N.to_nat f := Some i]> fes) c'.
Proof.
  intros Hm Hf. assert (f < vlen fes) as Hlt by (by eapply vget_lt). destruct (marker_at _ _ _ _ Hm Hlt) as [m Hmk].
  destruct (k_marker _ _ _ Hm f m Hmk) as [Hz _]. unfold Clock.begin_speculation. rewrite (clock_index_ok _ _ _ _ Hm Hlt). mred.
  rewrite (proj2 (vget_Done _ _ _) Hmk). mred. rewrite (proj1 Hz Hf), N.eqb_refl. mred. rewrite (vset_ok (Clock.reference_bits c)) by (by rewrite (k_bits _ _ _ Hm)). mred.
  rewrite vset_ok by (by rewrite (k_spec _ _ _ Hm)). mred. eexists. split; [done|]. apply marks_store; try done.
  rewrite vlen_insert. apply Hm.
Qed.

Lemma take_ok pend fes c f i :
  marks pend fes c → fes !! N.to_nat f = Some (Some i) →
  ∃ c' o, Clock.take_speculation c f = Done (c', o) ∧ o ≠ Clock.Absent ∧ marks pend (<[N.to_nat f := None]> fes) c' ∧
    Clock.speculation c' = <[N.to_nat f := 0]> (Clock.speculation c) ∧ Clock.consumed c' = Clock.consumed c.
Proof.
  intros Hm Hf. assert (f < vlen fes) as Hlt by (by eapply vget_lt). destruct (marker_at _ _ _ _ Hm Hlt) as [m Hmk].
  destruct (k_marker _ _ _ Hm f m Hmk) as [Hz Hr]. unfold Clock.take_speculation. rewrite (clock_index_ok _ _ _ _ Hm Hlt). mred.
  rewrite (proj2 (vget_Done _ _ _) Hmk). mred. rewrite vset_ok by (by rewrite (k_spec _ _ _ Hm)). mred.
  assert (m ≠ 0) as Hne by (intros ->; rewrite (proj2 Hz eq_refl) in Hf; done). rewrite (proj2 (N.eqb_neq m 0)) by done.
  assert (marks pend (<[N.to_nat f := None]> fes) (Clock.set_speculation c (<[N.to_nat f := 0]> (Clock.speculation c)))) as Hnew.
  { replace c with (Clock.set_bits c (Clock.reference_bits c)) at 1 by (by destruct c). apply marks_store; try done. apply Hm. }
  destruct (m =? 1); [mred; eexists _, _; by split_and!|]. destruct (N.eqb_spec m U64_MAX); [mred; eexists _, _; by split_and!|].
  rewrite (proj2 (N.leb_le (m - 2) U32_MAX)) by lia. mred. eexists _, _. by split_and!.
Qed.

(** A touch between calls. *)
Lemma touch_ok pend fes c f r :
  marks pend fes c → f < vlen fes → (∀ q, r = Some q → q ≤ U32_MAX) →
  ∃ c' b, Clock.reference_observed c f r = Done (c', b) ∧ marks pend fes c'.
Proof.
  intros Hm Hlt Hr. destruct (marker_at _ _ _ _ Hm Hlt) as [m Hmk]. unfold Clock.reference_observed.
  rewrite (clock_index_ok _ _ _ _ Hm Hlt). mred. destruct (vget_ok (Clock.reference_bits c) f) as (b & -> & _); [by rewrite (k_bits _ _ _ Hm)|]. mred.
  destruct b; [by exists c, false|].
  assert (∃ c', Clock.consume_speculation c f r = Done c' ∧ marks pend fes c') as (c' & -> & Hm').
  { unfold Clock.consume_speculation. rewrite (clock_index_ok _ _ _ _ Hm Hlt). mred. rewrite (proj2 (vget_Done _ _ _) Hmk). mred.
    destruct (N.eqb_spec m 1) as [->|]; [|by exists c]. destruct Hm as [H1 H2 [H3 H3'] H4 H5 H6]. rewrite vset_ok by (by rewrite H2). mred.
    destruct (DirtyFrames.quiet_notify (Clock.consumed c) f) as (d & -> & Hd & Hdf & Hdm & Hdk); [done|by rewrite H3'|]. mred. eexists. split; [done|].
    set (by_ := match r with None => U64_MAX | Some r => r + 2 end).
    assert (by_ ≠ 0 ∧ (by_ = U64_MAX ∨ by_ ≤ U32_MAX + 2)) as Hby by (subst by_; destruct r as [q|]; [specialize (Hr q eq_refl)|]; unfold U32_MAX, U64_MAX in *; lia).
    assert (N.to_nat f < length (Clock.speculation c))%nat as Hl2 by (unfold vlen in *; lia).
    split; simpl; rewrite ?vlen_insert, ?Hdf; try done.
    - intros g m Hg. destruct (decide (g = f)) as [->|Hne].
      + rewrite list_lookup_insert_eq in Hg by done. simplify_eq. destruct (H5 f 1 Hmk) as [Hx _]. split; [|apply Hby]. rewrite Hx. split; [done|]. intros Hz. by destruct Hby.
      + rewrite list_lookup_insert_ne in Hg by lia. by apply H5.
    - intros g m Hg Hm2. destruct (decide (g = f)) as [->|Hne]; [by left|]. rewrite list_lookup_insert_ne in Hg by lia.
      destruct (H6 g m Hg Hm2) as [?%Hdk|?]; auto. }
  mred. rewrite vset_ok by (by rewrite (k_bits _ _ _ Hm')). mred. eexists _, _. split; [done|].
  destruct Hm' as [H1 H2 H3 H4 H5 H6]. split; simpl; try done. by rewrite vlen_insert.
Qed.

(** ** The invariant *)

Definition turn (aw : N) (R : list N) (r : N) (p : Pattern) : Prop := r ∈ R ↔ ∃ w, window p r aw = Done (Some w).

Definition owned (x : N → N) (co : cored) (ps : list Pattern) (L : N → list N) : Prop :=
  ∀ i pg f r inc, co !! N.to_nat i = Some (Some (pg, f, Automatic r inc)) →
    pg_granule_idx pg ≤ U32_MAX ∧
    ∃ p, ps !! N.to_nat r = Some p ∧ inc ≤ incarnation p ∧ (inc = incarnation p ↔ i ∈ L r) ∧ (inc = incarnation p → good (x r) p pg).

Definition queued (co : cored) (ps : list Pattern) (Q : list N) : Prop :=
  ∀ i, i ∈ Q → ∃ pg f r inc p, co !! N.to_nat i = Some (Some (pg, f, Automatic r inc)) ∧ ps !! N.to_nat r = Some p ∧ inc < incarnation p.

Definition fgood (ps : list Pattern) (fl : list Feedback) : Prop :=
  ∀ fb, fb ∈ fl → sized fb ∧ ∃ p, ps !! N.to_nat (fb_reader fb) = Some p ∧ fb_incarnation fb ≤ incarnation p ∧
    (fb_incarnation fb = incarnation p → good 0 p (fb_page fb)).

(** The feedback cells from [k] to [n] hold [fl], the others are empty. *)
Record fed (k : nat) (n : N) (fb scratch : list (option Feedback)) (fl : list Feedback) : Prop := {
  d_count : n = N.of_nat k + vlen fl;
  d_cells : ∀ j f, fl !! j = Some f → fb !! (k + j)%nat = Some (Some f);
  d_rest : ∀ i, (i < k ∨ N.to_nat n ≤ i)%nat → (i < length fb)%nat → fb !! i = Some None;
  d_scratch : vlen scratch = vlen fb;
  d_fits : n ≤ vlen fb;
}.

(** What a call in progress has under way: frames drained from the clock's tree and not yet
    visited, feedback cells already delivered. *)
Record progress := mkProgress { undelivered : list N; delivered : nat }.

Record linv (x : N → N) (pend : progress) (l : Prefetch) (c : Clock.Clock) (L : N → list N) (C W R : list N) (fl : list Feedback) : Prop := {
  v_storage : storage (capacity l) (cores (entries l)) (vacant l) (vacant_count l) (occupied (stats l)) (frame_entries l);
  v_marks : marks (undelivered pend) (frame_entries l) c;
  v_members : members (vlen (patterns l)) (entries l) (reader_entries l) L;
  v_owned : owned x (cores (entries l)) (patterns l) L;
  v_cleanup : rep (capacity l) (cleanup l) C;
  v_waiting : rep (capacity l) (waiting l) W;
  v_ready : rep (vlen (patterns l)) (ready l) R;
  v_queued : queued (cores (entries l)) (patterns l) (C ++ W);
  v_turns : ∀ r p, patterns l !! N.to_nat r = Some p → turn (automatic_width l) R r p;
  v_patterns : ∀ p, p ∈ patterns l → pat_ok (capacity l) p ∧ incarnation p ≤ U64_MAX;
  v_fed : fed (delivered pend) (feedback_count l) (feedback l) (feedback_scratch l) fl;
  v_fgood : fgood (patterns l) fl;
  v_room : vlen fl + occupied (stats l) ≤ capacity l;
  v_automatic : patterns l ≠ [] → vlen (feedback l) = capacity l ∧ 0 < capacity l;
  v_stats : conserved (stats l) = true ∧ automatic_admitted (stats l) ≤ admitted (stats l) ∧ admitted (stats l) ≤ U64_MAX;
  v_small : capacity l ≤ U32_MAX ∧ vlen (patterns l) ≤ U32_MAX;
}.

Definition room (k : N) (l : Prefetch) : Prop := ∀ p, p ∈ patterns l → incarnation p + k ≤ U64_MAX.

(** ** One pattern changes *)

Lemma refresh_ok aw np ps l R r p cap :
  rep np (ready l) R → patterns l = ps → vlen ps = np → automatic_width l = aw → ps !! N.to_nat r = Some p → pat_ok cap p →
  (∀ q p', q ≠ r → ps !! N.to_nat q = Some p' → turn aw R q p') →
  ∃ q R', refresh_ready l r = Done (set_ready l q) ∧ rep np q R' ∧ ∀ q p', ps !! N.to_nat q = Some p' → turn aw R' q p'.
Proof.
  intros Hq Hps Hnp Haw Hp Hok Hturn. assert (r < np) as Hr by (subst; by eapply vget_lt). unfold refresh_ready. rewrite Hps, (proj2 (vget_Done _ _ _) Hp). mred.
  destruct (window_ok cap p r (automatic_width l) Hok) as [o Ho]. rewrite Ho. mred. rewrite Haw in Ho. destruct o as [w|].
  - destruct (push_rep np (ready l) R r Hq Hr) as (q & -> & Hq'). mred. eexists q, _. split; [done|]. split; [done|].
    intros s p' Hs. unfold turn. destruct (decide (s = r)) as [->|Hne].
    + simplify_eq. split; [eauto|]. intros _. case_decide; set_solver.
    + pose proof (Hturn s p' Hne Hs) as Ht. unfold turn in Ht. rewrite <- Ht. case_decide; set_solver.
  - destruct (remove_rep np (ready l) R r Hq Hr) as (q & -> & Hq'). mred. eexists q, _. split; [done|]. split; [done|].
    intros s p' Hs. unfold turn. rewrite list_elem_of_filter. destruct (decide (s = r)) as [->|Hne].
    + simplify_eq. split; [tauto|]. intros [w Hw]. congruence.
    + pose proof (Hturn s p' Hne Hs) as Ht. unfold turn in Ht. rewrite <- Ht. tauto.
Qed.

Record kept (l l' : Prefetch) : Prop := {
  e_stats : stats l' = stats l;
  e_capacity : capacity l' = capacity l;
  e_feedback : feedback l' = feedback l ∧ feedback_scratch l' = feedback_scratch l ∧ feedback_count l' = feedback_count l;
  e_frames : frame_entries l' = frame_entries l;
  e_cores : cores (entries l') = cores (entries l);
  e_patterns : vlen (patterns l') = vlen (patterns l);
}.

Lemma lookup_vset {A} (v : list A) (i j : N) (y z : A) :
  <[N.to_nat i := y]> v !! N.to_nat j = Some z → (j = i ∧ z = y) ∨ (j ≠ i ∧ v !! N.to_nat j = Some z).
Proof. intros [(? & <- & _)|[? ?]]%list_lookup_insert_Some; [left|right]; split; try done; lia. Qed.

(** The parts of the invariant that read the patterns, after a change of one. *)
Lemma owned_change x x' co ps L r p p' b :
  owned x co ps L → ps !! N.to_nat r = Some p → moves (x r) x' p p' → b = bool_decide (incarnation p' = incarnation p) →
  owned (<[r := x']> x) co (<[N.to_nat r := p']> ps) (if b then L else <[r := []]> L).
Proof.
  intros Ho Hp Hm -> i pg f s inc Hi. destruct (Ho i pg f s inc Hi) as (Hg & q & Hq & Hle & Hiff & Hgood). split; [done|].
  destruct (decide (s = r)) as [->|Hne].
  - simplify_eq. exists p'. rewrite fn_lookup_insert. split; [apply list_lookup_insert_eq; by eapply lookup_lt_Some|].
    case_bool_decide as Hinc.
    + rewrite Hinc. split_and!; try done. intros ->. destruct Hm as [[_ Hm]|Hlt]; [by apply Hm, Hgood|lia].
    + destruct Hm as [[? _]|Hlt]; [done|]. rewrite fn_lookup_insert. split_and!; [lia| |lia]. split; [lia|by intros ?%elem_of_nil].
  - exists q. rewrite list_lookup_insert_ne, fn_lookup_insert_ne by (done || lia). split_and!; try done.
    case_bool_decide; [done|]. by rewrite fn_lookup_insert_ne.
Qed.

Lemma queued_change co ps Q r p p' x x' :
  queued co ps Q → ps !! N.to_nat r = Some p → moves x x' p p' → queued co (<[N.to_nat r := p']> ps) Q.
Proof.
  intros Hq Hp Hm i Hi. destruct (Hq i Hi) as (pg & f & s & inc & q & Hx & Hy & Hlt). destruct (decide (s = r)) as [->|Hne].
  - simplify_eq. exists pg, f, r, inc, p'. split_and!; [done|apply list_lookup_insert_eq; by eapply lookup_lt_Some|].
    destruct Hm as [[-> _]|?]; lia.
  - exists pg, f, s, inc, q. by rewrite list_lookup_insert_ne by lia.
Qed.

Lemma fgood_change ps fl r p p' x x' :
  fgood ps fl → ps !! N.to_nat r = Some p → moves x x' p p' → fl = [] ∨ (x = 0 ∧ x' = 0) → fgood (<[N.to_nat r := p']> ps) fl.
Proof.
  intros Hf Hp Hm [->|[-> ->]]; [by intros ? ?%elem_of_nil|]. intros fb Hfb. destruct (Hf fb Hfb) as (Hs & q & Hq & Hle & Hg). split; [done|].
  destruct (decide (fb_reader fb = r)) as [Heq|Hne].
  - rewrite Heq in *. simplify_eq. exists p'. split; [apply list_lookup_insert_eq; by eapply lookup_lt_Some|].
    destruct Hm as [[Hi Hm]|Hlt]; [rewrite Hi; split; [done|]; intros ?; by apply Hm, Hg|split; lia].
  - exists q. by rewrite list_lookup_insert_ne by lia.
Qed.

Lemma change_ok x x' pend l c L C W R fl r p g :
  linv x pend l c L C W R fl → patterns l !! N.to_nat r = Some p → incarnation p < U64_MAX → moved (capacity l) (x r) x' p (g p) →
  fl = [] ∨ (x r = 0 ∧ x' = 0) →
  ∃ l' L' C' R', change_pattern l r g = Done l' ∧ linv (<[r := x']> x) pend l' c L' C' W R' fl ∧ kept l l' ∧
    (∀ p', g p = Done p' → patterns l' = <[N.to_nat r := p']> (patterns l)) ∧ ∀ k, room (k + 1) l → room k l'.
Proof.
  intros [V1 V2 V3 V4 V5 V6 V7 V8 V9 V10 V11 V12 V13 V14 V15 V16] Hp Hlt (p' & Hg & Hok & Hm & Hinc) Hfl.
  assert (r < vlen (patterns l)) as Hr by (by eapply vget_lt). unfold change_pattern, pattern_changed.
  rewrite (proj2 (vget_Done _ _ _) Hp). mred. rewrite Hg. mred. rewrite vset_ok by done. mred.
  set (ps := <[N.to_nat r := p']> (patterns l)). cbn [patterns set_patterns].
  assert (ps !! N.to_nat r = Some p') as Hp' by (apply list_lookup_insert_eq; by eapply lookup_lt_Some).
  rewrite (proj2 (vget_Done _ _ _) Hp'). mred.
  assert (vlen ps = vlen (patterns l)) as Hnp by (unfold ps; by rewrite vlen_insert).
  assert (∀ p0, p0 ∈ ps → p0 = p' ∨ p0 ∈ patterns l) as Hin.
  { intros p0 [i Hi]%list_elem_of_lookup. apply list_lookup_insert_Some in Hi as [(_ & <- & _)|[_ Hi]]; [by left|right]. by eapply list_elem_of_lookup_2. }
  assert (∃ l1 L1 C1, (if negb (owns p' (incarnation p)) then invalidate_reader (set_patterns l ps) r else Done (set_patterns l ps)) = Done l1 ∧
    kept l l1 ∧ patterns l1 = ps ∧ ready l1 = ready l ∧ waiting l1 = waiting l ∧ vacant l1 = vacant l ∧ vacant_count l1 = vacant_count l ∧
    automatic_width l1 = automatic_width l ∧
    members (vlen ps) (entries l1) (reader_entries l1) L1 ∧ owned (<[r := x']> x) (cores (entries l)) ps L1 ∧
    rep (capacity l) (cleanup l1) C1 ∧ queued (cores (entries l)) ps (C1 ++ W)) as (l1 & L1 & C1 & -> & Hk & Hps & Hrd & Hwt & Hv & Hvc & Haw & Hmem & Hown & Hcl & Hqu).
  { pose proof (owned_change x x' _ _ L r p p' _ V4 Hp Hm eq_refl) as Hown. fold ps in Hown.
    pose proof (queued_change _ _ _ r p p' _ _ V8 Hp Hm) as Hqu. fold ps in Hqu. unfold owns.
    destruct (N.eqb_spec (incarnation p') (incarnation p)) as [Heq|Hne]; simpl.
    - rewrite bool_decide_eq_true_2 in Hown by done. exists (set_patterns l ps), L, C. rewrite Hnp. split_and!; try done.
    - rewrite bool_decide_eq_false_2 in Hown by done. rewrite <- Hnp in V3, Hr.
      destruct (members_invalidate (vlen ps) (capacity l) (set_patterns l ps) L C r) as (es & rs & q & C' & -> & Hq & HC' & Hco & Hmem); try done.
      { pose proof (st_len _ _ _ _ _ _ V1) as Hsl. unfold cores, vlen in *. by rewrite length_fmap in Hsl. }
      eexists _, _, C'. split; [done|]. simpl in *. split_and!; try done.
      intros i Hi. destruct (decide (i ∈ L r)) as [HiL|HiL]; [|apply Hqu; set_solver].
      destruct (m_in _ _ _ _ V3 r i HiL) as (_ & e & inc & He & Hs). 
      assert (cores (entries l) !! N.to_nat i = Some (Some (e_page e, e_frame e, Automatic r inc))) as Hx by (rewrite <- Hs; apply cores_lookup; eauto).
      destruct (V4 i _ _ _ _ Hx) as (_ & q0 & Hq0 & Hle & _). simplify_eq. eexists _, _, r, inc, p'. split_and!; try done.
      destruct Hm as [[? _]|?]; [done|lia]. }
  mred. destruct Hk as [K1 K2 (K3 & K4 & K5) K6 K7 K8].
  destruct (refresh_ok (automatic_width l) (vlen ps) ps l1 R r p' (capacity l)) as (q & R' & -> & Hq & Hturn); try done.
  { by rewrite Hrd, Hnp. }
  { intros s p0 Hs Hx. apply V9. unfold ps in Hx. by rewrite list_lookup_insert_ne in Hx by lia. }
  exists (set_ready l1 q), L1, C1, R'. split; [done|]. split; [|split; [by split|split; [intros p1 Hp1; by injection Hp1 as <-|]]].
  - split; simpl; rewrite ?K1, ?K2, ?K3, ?K4, ?K5, ?K6, ?K7, ?Hps, ?Hwt, ?Hv, ?Hvc, ?Haw; try done.
    + intros p0 [->|?]%Hin; [split; [done|lia]|by apply V10].
    + by eapply fgood_change.
    + intros _. apply V14. intros Hnil. rewrite Hnil in Hp. done.
    + by rewrite Hnp.
  - intros k Hroom p0. simpl. rewrite Hps. intros [->|?]%Hin; [|specialize (Hroom p0); by etransitivity; [|by apply Hroom]; lia].
    assert (p ∈ patterns l) as Hpin by (by eapply list_elem_of_lookup_2). specialize (Hroom p Hpin). lia.
Qed.

Lemma linv_ext x x' pend l c L C W R fl : (∀ r, x r = x' r) → linv x pend l c L C W R fl → linv x' pend l c L C W R fl.
Proof.
  intros Hx [V1 V2 V3 V4 V5 V6 V7 V8 V9 V10 V11 V12 V13 V14 V15 V16]. split; try done.
  intros i pg f r inc Hi. rewrite <- (Hx r). exact (V4 i pg f r inc Hi).
Qed.

Lemma available_ok x pend l c L C W R fl : linv x pend l c L C W R fl → available l = Done (capacity l - occupied (stats l)).
Proof.
  intros Hv. unfold available. rewrite (proj2 (checked_sub_Some _ _ (capacity l - occupied (stats l)))); [done|]. pose proof (v_room _ _ _ _ _ _ _ _ _ Hv). lia.
Qed.

(** ** Admission *)

(** What the caller of [admit_entry] has checked. *)
Definition admissible (x : N → N) (l : Prefetch) (page : PageId) (source : Source) : Prop :=
  match source with
  | Explicit => True
  | Automatic r inc => pg_granule_idx page ≤ U32_MAX ∧ ∃ p, patterns l !! N.to_nat r = Some p ∧ inc = incarnation p ∧ good (x r + 1) p page
  end.

Definition admitting (x : N → N) (source : Source) : N → N :=
  match source with Explicit => x | Automatic r _ => <[r := x r + 1]> x end.

Lemma owned_admit x co ps L i pg f source :
  owned x co ps L → co !! N.to_nat i = Some None → (∀ r, i ∉ L r) →
  match source with
  | Explicit => True
  | Automatic r inc => pg_granule_idx pg ≤ U32_MAX ∧ ∃ p, ps !! N.to_nat r = Some p ∧ inc = incarnation p ∧ good (x r + 1) p pg
  end →
  owned (admitting x source) (<[N.to_nat i := Some (pg, f, source)]> co) ps
    match source with Explicit => L | Automatic r _ => <[r := i :: L r]> L end.
Proof.
  intros Ho Hi Hno Hsrc j pg' f' r inc Hj. apply lookup_vset in Hj as [[-> Hj]|[Hne Hj]].
  - injection Hj as <- <- <-. destruct Hsrc as (Hg & p & Hp & -> & Hgood). split; [done|]. exists p. simpl. rewrite !fn_lookup_insert.
    split_and!; try done. split; [set_solver|done].
  - destruct (Ho j pg' f' r inc Hj) as (Hg & p & Hp & Hle & Hiff & Hgood). split; [done|]. exists p. destruct source as [|s inc']; simpl; [done|].
    destruct (decide (r = s)) as [->|Hrs]; [|by rewrite !fn_lookup_insert_ne]. rewrite !fn_lookup_insert. split_and!; try done.
    + rewrite Hiff. set_solver.
    + intros Heq. destruct (Hgood Heq) as (d & n & w & ? & ? & ?). exists d, n, w. split_and!; try done. lia.
Qed.

Lemma queued_insert co ps Q i v : queued co ps Q → co !! N.to_nat i = Some None → queued (<[N.to_nat i := v]> co) ps Q.
Proof.
  intros Hq Hi j Hj. destruct (Hq j Hj) as (pg & f & r & inc & p & Hx & Hy & Hlt). exists pg, f, r, inc, p. split_and!; try done.
  rewrite list_lookup_insert_ne; [done|]. intros Heq. rewrite Heq in Hi. congruence.
Qed.

Lemma admit_entry_ok x pend l c L C W R page (frame : ReadFrameIdx) source :
  linv x pend l c L C W R [] → delivered pend = 0%nat → occupied (stats l) < capacity l → admitted (stats l) < U64_MAX →
  frame_entries l !! N.to_nat frame = Some None → admissible x l page source →
  ∃ l' c' L' i, admit_entry l c page frame source = Done (l', c') ∧ linv (admitting x source) pend l' c' L' C W R [] ∧
    patterns l' = patterns l ∧ capacity l' = capacity l ∧ frame_entries l' = <[N.to_nat frame := Some i]> (frame_entries l) ∧
    admitted (stats l') = admitted (stats l) + 1 ∧ occupied (stats l') = occupied (stats l) + 1.
Proof.
  intros Hv Hdel Hocc Hadm Hf Hsrc. pose proof (available_ok _ _ _ _ _ _ _ _ _ Hv) as Hav.
  destruct Hv as [V1 V2 V3 V4 V5 V6 V7 V8 V9 V10 V11 V12 V13 V14 V15 V16]. destruct V15 as (Hcons & Hauto & Hmax).
  pose proof (st_count _ _ _ _ _ _ V1) as Hcount.
  destruct (storage_admit _ _ _ _ _ _ frame page source V1) as (i & Hi & Hci & Hst); [lia|done|].
  apply cores_none in Hci as Hei. unfold admit_entry. pose proof (d_count _ _ _ _ _ V11) as Hn0. rewrite Hdel in Hn0. change (feedback_count l = 0) in Hn0.
  rewrite Hn0, N.eqb_refl, Hav. mred. rewrite (proj2 (N.ltb_lt 0 _)) by lia. mred. rewrite sub_ok by lia. mred.
  rewrite (proj2 (vget_Done _ _ _) Hi). mred. cbn [entries frame_entries set_vacant].
  rewrite (proj2 (vget_Done _ _ _) Hei). mred. rewrite (proj2 (vget_Done _ _ _) Hf). mred.
  rewrite (vset_ok (frame_entries l)) by (by eapply vget_lt). mred.
  destruct (begin_mark_ok (undelivered pend) _ c frame i V2 Hf) as (c' & Hc' & Hmk).
  set (l1 := set_frame_entries _ _).
  assert (∀ r, i ∉ L r) as Hno by (intros r Hx; destruct (m_in _ _ _ _ V3 r i Hx) as (_ & e & inc & He & _); congruence).
  assert (∃ es rs ms, admit_membership l1 i source = Done (set_entries (set_reader_entries l1 rs) es, ms) ∧ cores es = cores (entries l) ∧ es !! N.to_nat i = Some None ∧
    members (vlen (patterns l)) (<[N.to_nat i := Some (mkEntry page frame source ms (stamp l))]> es) rs
      match source with Explicit => L | Automatic r _ => <[r := i :: L r]> L end) as (es & rs & ms & -> & Hco & Hesi & Hmem).
  { destruct source as [|r inc].
    - exists (entries l), (reader_entries l), None. split_and!; try done. by apply members_explicit.
    - destruct Hsrc as (_ & p & Hp & _). destruct (members_admit (vlen (patterns l)) (entries l) (reader_entries l) L l1 r inc i) as (es & rs & Heq & Hco & Hesi & Hmem);
        try done; [by eapply vget_lt|]. eexists es, rs, _. split_and!; try done. }
  mred. cbn [entries set_entries]. rewrite vset_ok by (by eapply vget_lt). mred. rewrite Hc'. mred.
  assert (∃ st, count_admission (stats l) source = Done st ∧ admitted st = admitted (stats l) + 1 ∧ occupied st = occupied (stats l) + 1 ∧
    conserved st = true ∧ automatic_admitted st ≤ admitted st) as (st & Hcst & Ha & Hoc & Hcs & Hau).
  { unfold count_admission. rewrite !add_ok by lia. mred. unfold conserved in *. reflect_bools.
    destruct source; mred; eexists; (split; [done|]); simpl; (split_and!; try done; [apply N.eqb_eq; lia|lia]). }
  cbn [stats set_entries set_reader_entries l1 set_frame_entries set_vacant]. rewrite Hcst. mred.
  rewrite (proj2 (N.leb_le _ _)) by (simpl; lia). mred. eexists _, c', _, i. split; [done|]. split; [|done].
  assert (cores (<[N.to_nat i := Some (mkEntry page frame source ms (stamp l))]> es) = <[N.to_nat i := Some (page, frame, source)]> (cores (entries l))) as Hco'.
  { unfold cores. rewrite list_fmap_insert. f_equal. exact Hco. }
  split; simpl; rewrite ?Hco', ?Hoc; try done.
  - apply owned_admit; done.
  - by apply queued_insert.
  - change (vlen (@nil Feedback)) with 0. lia.
  - split_and!; try done. lia.
Qed.

(** ** An entry ends *)

Definition rest : N → N := λ _, 0.
Definition without (i : N) (Q : list N) : list N := filter (λ j, j ≠ i) Q.

Lemma owned_cut co ps L i : owned rest co ps L → owned rest (<[N.to_nat i := None]> co) ps (cut i L).
Proof.
  intros Ho j pg f r inc Hj. apply lookup_vset in Hj as [[_ Hj]|[Hne Hj]]; [done|].
  destruct (Ho j pg f r inc Hj) as (Hg & p & Hp & Hle & Hiff & Hgood). split; [done|]. exists p. split_and!; try done.
  unfold cut. rewrite list_elem_of_filter, Hiff. tauto.
Qed.

Lemma queued_cut co ps Q i : queued co ps Q → queued (<[N.to_nat i := None]> co) ps (without i Q).
Proof.
  intros Hq j [Hne Hj]%list_elem_of_filter. destruct (Hq j Hj) as (pg & f & r & inc & p & Hx & Hy & Hlt).
  exists pg, f, r, inc, p. by rewrite list_lookup_insert_ne by lia.
Qed.

Lemma terminal_ok s s1 t :
  return_credit s = Done s1 → conserved s = true → admitted s ≤ U64_MAX →
  ∃ s', count_terminal s1 t = Done s' ∧ conserved s' = true ∧ admitted s' = admitted s ∧ automatic_admitted s' = automatic_admitted s ∧
    occupied s' = occupied s - 1.
Proof.
  intros Hr Hc Hm. unfold return_credit in Hr. inv_done.
  match goal with H : checked_sub _ _ = Some _ |- _ => apply checked_sub_Some in H as [-> Hocc] end.
  unfold conserved in *. reflect_bools. unfold count_terminal. simpl.
  destruct t; rewrite add_ok by lia; mred; eexists; (split; [done|]); simpl; (split_and!; try done; apply N.eqb_eq; lia).
Qed.

Lemma detach_ok pend l c L C W R fl i e t :
  linv rest pend l c L C W R fl → entries l !! N.to_nat i = Some (Some e) →
  ∃ l1 c' o, finish_index l c i t = (l' ← finish_index_feedback l1 e (settle o t); assertb (conserved (stats l'));; Done (l', c')) ∧
    linv rest pend l1 c' (cut i L) (without i C) (without i W) R fl ∧ vlen fl + occupied (stats l1) < capacity l1 ∧
    patterns l1 = patterns l ∧ capacity l1 = capacity l ∧ frame_entries l1 = <[N.to_nat (e_frame e) := None]> (frame_entries l) ∧
    admitted (stats l1) = admitted (stats l) ∧ occupied (stats l1) + 1 = occupied (stats l) ∧
    Clock.speculation c' = <[N.to_nat (e_frame e) := 0]> (Clock.speculation c) ∧ Clock.consumed c' = Clock.consumed c.
Proof.
  intros [V1 V2 V3 V4 V5 V6 V7 V8 V9 V10 V11 V12 V13 V14 V15 V16] He. destruct V15 as (Hcons & Hauto & Hmax).
  assert (cores (entries l) !! N.to_nat i = Some (Some (e_page e, e_frame e, e_source e))) as Hco by (apply cores_lookup; eauto).
  destruct (storage_finish _ _ _ _ _ _ i _ _ _ V1 Hco) as (Hvc & Hocc & Hf & Hst).
  assert (i < capacity l) as Hi. { rewrite <- (st_len _ _ _ _ _ _ V1). by eapply vget_lt. }
  destruct (take_ok (undelivered pend) _ c (e_frame e) i V2 Hf) as (c' & o & Htake & Habs & Hmk & Hspec & Hcons').
  unfold finish_index. rewrite (proj2 (vget_Done _ _ _) He). mred. rewrite vset_ok by (by eapply vget_lt). mred.
  destruct (members_unlink _ _ _ L (set_entries l (<[N.to_nat i := None]> (entries l))) i e V3 He eq_refl eq_refl) as (es & rs & -> & Hces & Hmem). mred.
  cbn [cleanup waiting set_reader_entries set_entries set_cleanup].
  destruct (remove_rep _ _ _ i V5 Hi) as (qc & -> & Hqc). mred. destruct (remove_rep _ _ _ i V6 Hi) as (qw & -> & Hqw). mred.
  cbn [frame_entries set_waiting set_cleanup set_reader_entries set_entries].
  rewrite (proj2 (vget_Done _ _ _) Hf). mred. rewrite (vset_ok (frame_entries l)) by (by eapply vget_lt). mred.
  rewrite bool_decide_eq_true_2 by done. mred. cbn [vacant vacant_count set_frame_entries set_waiting set_cleanup set_reader_entries set_entries].
  rewrite vset_ok by (by rewrite (st_vlen _ _ _ _ _ _ V1)). mred. rewrite add_ok by lia. mred. rewrite Htake. mred.
  rewrite (assertb_true (match o with Clock.Absent => false | _ => true end)) by (by destruct o). mred.
  cbn [stats set_vacant set_frame_entries set_waiting set_cleanup set_reader_entries set_entries].
  assert (∃ s1, return_credit (stats l) = Done s1) as [s1 Hs1].
  { unfold return_credit. rewrite (proj2 (checked_sub_Some _ _ _) (conj eq_refl (ltac:(lia) : 1 ≤ occupied (stats l)))). by eexists. }
  rewrite Hs1. mred. destruct (terminal_ok _ _ (settle o t) Hs1 Hcons Hmax) as (s' & -> & Hcs & Ha & Hau & Hoc). mred.
  eexists _, c', o. split; [done|]. simpl. split; [|split_and!; try done; lia].
  split; simpl; rewrite ?Hces, ?Hoc; try done.
  - by apply owned_cut.
  - unfold without. rewrite <- filter_app. by apply queued_cut.
  - lia.
  - rewrite Ha, Hau. done.
Qed.

(** What the ledger remembers of an entry it has let go. *)
Definition released (l : Prefetch) (e : Entry) : Prop :=
  match e_source e with
  | Explicit => True
  | Automatic r inc => sized (mkFeedback r inc (e_page e)) ∧ ∃ p, patterns l !! N.to_nat r = Some p ∧ inc ≤ incarnation p ∧
      (inc = incarnation p → good 0 p (e_page e))
  end.

Lemma released_entry pend l c L C W R fl i e :
  linv rest pend l c L C W R fl → entries l !! N.to_nat i = Some (Some e) → released l e.
Proof.
  intros Hv He. unfold released. destruct (e_source e) as [|r inc] eqn:Hs; [done|].
  assert (cores (entries l) !! N.to_nat i = Some (Some (e_page e, e_frame e, Automatic r inc))) as Hco by (rewrite <- Hs; apply cores_lookup; eauto).
  destruct (v_owned _ _ _ _ _ _ _ _ _ Hv i _ _ _ _ Hco) as (Hg & p & Hp & Hle & _ & Hgood). split; [|by exists p].
  destruct (v_patterns _ _ _ _ _ _ _ _ _ Hv p) as [_ Hinc]; [by eapply list_elem_of_lookup_2|].
  destruct (v_small _ _ _ _ _ _ _ _ _ Hv) as [_ Hnp]. apply vget_lt in Hp. unfold sized. simpl. unfold U32_MAX, U64_MAX in *. lia.
Qed.

Lemma fed_push k n fb scratch fl f :
  fed k n fb scratch fl → n < vlen fb → fb !! N.to_nat n = Some None ∧ fed k (n + 1) (<[N.to_nat n := Some f]> fb) scratch (fl ++ [f]).
Proof.
  intros [H1 H2 H3 H4 H5] Hn. unfold vlen in *. split; [apply H3; lia|]. split; unfold vlen; rewrite ?length_insert; try done; [| | |lia].
  - rewrite length_app. simpl. lia.
  - intros j f' Hj. apply lookup_snoc_Some in Hj as [[Hlt Hj]|[-> ->]].
    + rewrite list_lookup_insert_ne by lia. by apply H2.
    + replace (k + length fl)%nat with (N.to_nat n) by lia. apply list_lookup_insert_eq. lia.
  - intros j Hj Hlt. rewrite list_lookup_insert_ne by lia. apply H3; lia.
Qed.

Lemma feedback_ok pend l c L C W R fl e t :
  linv rest pend l c L C W R fl → delivered pend = 0%nat → released l e → room 1 l → vlen fl + occupied (stats l) < capacity l →
  ∃ l' L' C' R' fl', finish_index_feedback l e t = Done l' ∧ linv rest pend l' c L' C' W R' fl' ∧
    stats l' = stats l ∧ capacity l' = capacity l ∧ frame_entries l' = frame_entries l ∧ vlen (patterns l') = vlen (patterns l) ∧
    (∀ r, t = Promoted r → patterns l' = patterns l) ∧ ∀ k, room (k + 1) l → room k l'.
Proof.
  intros Hv Hdel Hrel Hroom Hspare. unfold finish_index_feedback. unfold released in Hrel.
  assert (∀ l', patterns l' = patterns l → ∀ k, room (k + 1) l → room k l') as Hweak by (intros l' Hp k Hr p Hin; rewrite Hp in Hin; specialize (Hr p Hin); lia).
  assert (∃ l' L' C' R' fl', Done l = Done l' ∧ linv rest pend l' c L' C' W R' fl' ∧
    stats l' = stats l ∧ capacity l' = capacity l ∧ frame_entries l' = frame_entries l ∧ vlen (patterns l') = vlen (patterns l) ∧
    (∀ r, t = Promoted r → patterns l' = patterns l) ∧ ∀ k, room (k + 1) l → room k l') as Hsame.
  { exists l, L, C, R, fl. split_and!; try done. by apply Hweak. }
  destruct (e_source e) as [|r inc] eqn:Hs; [done|]. destruct Hrel as (Hsz & p & Hp & Hle & Hgood).
  assert ((∀ q, t ≠ Promoted q) → ∃ l' L' C' R' fl', (p ← vget (patterns l) r; if owns p inc then reset_reader l r else Done l) = Done l' ∧
    linv rest pend l' c L' C' W R' fl' ∧
    stats l' = stats l ∧ capacity l' = capacity l ∧ frame_entries l' = frame_entries l ∧ vlen (patterns l') = vlen (patterns l) ∧
    (∀ r, t = Promoted r → patterns l' = patterns l) ∧ ∀ k, room (k + 1) l → room k l') as Hreset.
  { intros Hnp. rewrite (proj2 (vget_Done _ _ _) Hp). mred. destruct (owns p inc); [|done].
    unfold reset_reader. rewrite (proj2 (N.ltb_lt _ _)) by (by eapply vget_lt).
    assert (p ∈ patterns l) as Hpin by (by eapply list_elem_of_lookup_2). specialize (Hroom p Hpin).
    destruct (change_ok rest 0 pend l c L C W R fl r p Pattern.reset Hv Hp) as (l' & L' & C' & R' & -> & Hv' & Hk & _ & Hr'); [lia| |by right|].
    - apply reset_moved; [by apply (v_patterns _ _ _ _ _ _ _ _ _ Hv)|lia].
    - exists l', L', C', R', fl. split; [done|]. split; [|destruct Hk; split_and!; try done; intros q Hq; by destruct (Hnp q)].
      eapply linv_ext; [|exact Hv']. intros q. unfold rest. destruct (decide (q = r)) as [->|]; [by rewrite fn_lookup_insert|by rewrite fn_lookup_insert_ne]. }
  destruct t as [[q|]| |]; [|done|by apply Hreset|by apply Hreset]. destruct (N.eqb_spec q r) as [->|]; [|done].
  destruct Hv as [V1 V2 V3 V4 V5 V6 V7 V8 V9 V10 V11 V12 V13 V14 V15 V16].
  destruct V14 as [Hcap _]; [by intros Hnil; rewrite Hnil in Hp|]. pose proof (d_count _ _ _ _ _ V11) as Hn. pose proof (d_fits _ _ _ _ _ V11) as Hfits.
  rewrite Hdel in Hn. rewrite (proj2 (N.ltb_lt _ _)) by lia. mred. destruct (fed_push _ _ _ _ _ (mkFeedback r inc (e_page e)) V11) as [Hcell Hfed]; [lia|].
  rewrite (proj2 (vget_Done _ _ _) Hcell). mred. rewrite vset_ok by lia. mred. rewrite add_ok by lia. mred.
  eexists _, L, C, R, _. split; [done|]. simpl. split; [|split_and!; try done; by apply Hweak].
  split; simpl; try done.
  - intros fb [Hfb|Hfb]%elem_of_app; [by apply V12|]. apply list_elem_of_singleton in Hfb as ->. split; [done|]. by exists p.
  - unfold vlen. rewrite length_app. simpl. unfold vlen in Hspare. lia.
  - intros _. split; [by rewrite vlen_insert|lia].
Qed.

Lemma finish_index_ok pend l c L C W R fl i e t :
  linv rest pend l c L C W R fl → delivered pend = 0%nat → entries l !! N.to_nat i = Some (Some e) → room 1 l →
  ∃ l' c' L' C' W' R' fl', finish_index l c i t = Done (l', c') ∧ linv rest pend l' c' L' C' W' R' fl' ∧
    occupied (stats l') + 1 = occupied (stats l) ∧ admitted (stats l') = admitted (stats l) ∧ capacity l' = capacity l ∧
    frame_entries l' = <[N.to_nat (e_frame e) := None]> (frame_entries l) ∧ vlen (patterns l') = vlen (patterns l) ∧
    Clock.speculation c' = <[N.to_nat (e_frame e) := 0]> (Clock.speculation c) ∧ Clock.consumed c' = Clock.consumed c ∧
    (∀ r, t = Promoted r → patterns l' = patterns l) ∧ ∀ k, room (k + 1) l → room k l'.
Proof.
  intros Hv Hdel He Hroom. pose proof (released_entry _ _ _ _ _ _ _ _ _ _ Hv He) as Hrel.
  destruct (detach_ok _ _ _ _ _ _ _ _ _ _ t Hv He) as (l1 & c' & o & -> & Hv1 & Hspare & Hps & Hcap & Hfe & Ha & Ho & Hsp & Hcns).
  assert (room 1 l1) as Hroom1 by (intros p Hp; rewrite Hps in Hp; by apply Hroom).
  destruct (feedback_ok _ _ _ _ _ _ _ _ e (settle o t) Hv1) as (l' & L' & C' & R' & fl' & -> & Hv' & Hst & Hcap' & Hfe' & Hnp & Hpr & Hr'); [done| |done..|].
  { unfold released in *. by rewrite Hps. }
  mred. destruct (v_stats _ _ _ _ _ _ _ _ _ Hv') as (-> & _ & _). mred. exists l', c', L', C', (without i W), R', fl'.
  split; [done|]. split; [done|]. rewrite Hst, Ha, Ho, Hcap', Hcap, Hfe', Hfe, Hnp, Hps. split_and!; try done.
  - intros r ->. rewrite <- Hps. apply (Hpr (match o with Clock.Consumed q => q | _ => r end)). by destruct o.
  - intros k Hk. apply Hr'. intros p Hp. rewrite Hps in Hp. by apply Hk.
Qed.

(** ** Feedback is delivered *)

Lemma change_rest x pend l c L C W R fl r : linv (<[r := 0]> x) pend l c L C W R fl → (∀ q, x q = 0) → linv rest pend l c L C W R fl.
Proof.
  intros Hv Hx. eapply linv_ext; [|exact Hv]. intros q. unfold rest.
  destruct (decide (q = r)) as [->|]; [by rewrite fn_lookup_insert|rewrite fn_lookup_insert_ne by done; apply Hx].
Qed.

Lemma fed_take k n fb scratch f fl :
  fed k n fb scratch (f :: fl) → fb !! k = Some (Some f) ∧ fed (S k) n (<[k := None]> fb) scratch fl.
Proof.
  intros [H1 H2 H3 H4 H5]. pose proof (H2 0%nat f eq_refl) as Hk. rewrite Nat.add_0_r in Hk. split; [done|].
  unfold vlen in *. simpl in H1. split; unfold vlen; rewrite ?length_insert; try done; [lia| |].
  - intros j f' Hj. rewrite list_lookup_insert_ne by lia. replace (S k + j)%nat with (k + S j)%nat by lia. by apply H2.
  - intros i Hi Hlt. destruct (decide (i = k)) as [->|]; [by rewrite list_lookup_insert_eq|]. rewrite list_lookup_insert_ne by done. apply H3; lia.
Qed.

(** What delivering feedback leaves alone. *)
Record steady (l l' : Prefetch) : Prop := {
  y_stats : stats l' = stats l;
  y_capacity : capacity l' = capacity l;
  y_frames : frame_entries l' = frame_entries l;
  y_cores : cores (entries l') = cores (entries l);
  y_patterns : vlen (patterns l') = vlen (patterns l);
}.

#[global] Instance steady_preorder : PreOrder steady.
Proof. split; [by intros l|]. intros l1 l2 l3 [] []. split; congruence. Qed.

Lemma flush_one_ok P k l c L C W R f fl :
  linv rest (mkProgress P k) l c L C W R (f :: fl) → room 1 l →
  ∃ l' L' C' R', flush_one l (N.of_nat k) = Done l' ∧ linv rest (mkProgress P (S k)) l' c L' C' W R' fl ∧ steady l l' ∧
    feedback_count l' = feedback_count l ∧ ∀ j, room (j + 1) l → room j l'.
Proof.
  intros [V1 V2 V3 V4 V5 V6 V7 V8 V9 V10 V11 V12 V13 V14 V15 V16] Hroom. simpl in *.
  destruct (fed_take _ _ _ _ _ _ V11) as [Hk Hfed]. destruct (V12 f) as (Hsz & p & Hp & Hle & Hg); [set_solver|].
  assert (p ∈ patterns l) as Hpin by (by eapply list_elem_of_lookup_2). specialize (Hroom p Hpin) as Hr. destruct (V10 p Hpin) as [Hok _].
  unfold flush_one. unfold vget. rewrite Nat2N.id, Hk. mred. rewrite vset_ok by (unfold vlen; apply lookup_lt_Some in Hk; lia). mred. rewrite Nat2N.id.
  set (l1 := set_feedback _ _ _ _).
  assert (linv rest (mkProgress P (S k)) l1 c L C W R fl) as Hv1.
  { split; simpl; try done.
    - intros fb Hfb. apply V12. set_solver.
    - unfold vlen in *. simpl in V13. lia.
    - intros Hne. rewrite vlen_insert. by apply V14. }
  destruct (change_ok rest 0 _ l1 c L C W R fl (fb_reader f) p
    (λ p, Pattern.promoted p (fb_page f) (fb_incarnation f) (capacity l)) Hv1 Hp) as (l' & L' & C' & R' & -> & Hv' & Hk' & _ & Hr'); [lia| |by right|].
  - destruct V14 as [_ Hcap]; [by intros Hnil; rewrite Hnil in Hp|]. apply promoted_moved; try done. lia.
  - exists l', L', C', R'. split; [done|]. split; [by eapply change_rest|]. destruct Hk' as [K1 K2 (_ & _ & K3) K4 K5 K6].
    split; [by split|]. split; done.
Qed.

Lemma flush_each_ok P fl : ∀ k l c L C W R,
  linv rest (mkProgress P k) l c L C W R fl → room (vlen fl) l →
  ∃ l' L' C' R', flush_each l (N.of_nat <$> seq k (length fl)) = Done l' ∧ linv rest (mkProgress P (k + length fl)) l' c L' C' W R' [] ∧
    steady l l' ∧ feedback_count l' = feedback_count l ∧ ∀ j, room (j + vlen fl) l → room j l'.
Proof.
  induction fl as [|f fl IH]; intros k l c L C W R Hv Hroom.
  - exists l, L, C, R. simpl. rewrite Nat.add_0_r. split_and!; try done. intros j Hj p Hp. specialize (Hj p Hp). unfold vlen in Hj. simpl in Hj. lia.
  - assert (vlen (f :: fl) = vlen fl + 1) as Hlen by (unfold vlen; simpl; lia). rewrite Hlen in *.
    destruct (flush_one_ok _ _ _ _ _ _ _ _ _ _ Hv) as (l1 & L1 & C1 & R1 & Hl1 & Hv1 & Hst1 & Hn1 & Hr1).
    { intros p Hp. specialize (Hroom p Hp). lia. }
    destruct (IH (S k) l1 c L1 C1 W R1 Hv1) as (l2 & L2 & C2 & R2 & Hl2 & Hv2 & Hst2 & Hn2 & Hr2); [by apply Hr1|].
    exists l2, L2, C2, R2. cbn [length seq fmap list_fmap]. cbn [flush_each]. rewrite Hl1. mred. rewrite Hl2. split; [done|].
    rewrite <- Nat.add_succ_comm. split; [done|]. split; [by etransitivity|]. split; [congruence|].
    intros j Hj. apply Hr2, Hr1. by rewrite <- N.add_assoc.
Qed.

(** Cells in the order of a permutation. *)
Lemma fed_sort n fb scratch fl :
  fed 0 n fb scratch fl → Forall sized fl →
  ∃ fb' scratch' fl', flush_feedback_sort n fb scratch = Done (fb', scratch') ∧ fed 0 n fb' scratch' fl' ∧ fl' ≡ₚ fl ∧ vlen fb' = vlen fb.
Proof.
  intros [H1 H2 H3 H4 H5] Hsz. unfold vlen in *. simpl in H1.
  destruct (flush_sort_ok fl fb scratch Hsz) as (fb' & sc' & fl' & Hrun & Hpre & Hp & _ & _ & Hl1 & Hl2 & Hrest); [|lia..|].
  { apply list_eq. intros j. rewrite list_lookup_fmap. destruct (fl !! j) as [f|] eqn:Hj.
    - rewrite lookup_take_lt by (by eapply lookup_lt_Some). by apply H2.
    - rewrite lookup_take_ge; [done|]. by apply lookup_ge_None_1. }
  assert (length fl' = length fl) as Hlen by (by rewrite Hp). exists fb', sc', fl'. rewrite H1. simpl. split; [exact Hrun|]. split; [|split; [done|lia]].
  split; unfold vlen; simpl; try lia.
  - intros j f Hj. assert (take (length fl) fb' !! j = Some (Some f)) as Hx by (by rewrite Hpre, list_lookup_fmap, Hj).
    apply lookup_take_Some in Hx as [Hx _]. done.
  - intros i [Hi|Hi] Hlt; [lia|]. rewrite Hrest by lia. apply H3; lia.
Qed.

Lemma flush_ok P l c L C W R fl :
  linv rest (mkProgress P 0) l c L C W R fl → room (vlen fl) l →
  ∃ l' L' C' R', flush_feedback l = Done l' ∧ linv rest (mkProgress P 0) l' c L' C' W R' [] ∧ steady l l' ∧ feedback_count l' = 0 ∧
    ∀ j, room (j + vlen fl) l → room j l'.
Proof.
  intros Hv Hroom. pose proof (d_count _ _ _ _ _ (v_fed _ _ _ _ _ _ _ _ _ Hv)) as Hn. change (feedback_count l = vlen fl) in Hn. unfold flush_feedback. rewrite Hn.
  destruct (N.eqb_spec (vlen fl) 0) as [H0|H0].
  { assert (fl = []) as -> by (destruct fl; [done|unfold vlen in H0; simpl in H0; lia]). exists l, L, C, R. split_and!; try done.
    intros j Hj p Hp. specialize (Hj p Hp). lia. }
  assert (∃ l1 fl', (if 1 <? vlen fl then '(fb, scratch) ← flush_feedback_sort (vlen fl) (feedback l) (feedback_scratch l); Done (set_feedback l fb scratch (vlen fl))
      else Done l) = Done l1 ∧ linv rest (mkProgress P 0) l1 c L C W R fl' ∧ steady l l1 ∧ feedback_count l1 = vlen fl ∧ vlen fl' = vlen fl ∧ patterns l1 = patterns l)
    as (l1 & fl' & -> & Hv1 & Hst1 & Hn1 & Hlen & Hps).
  { destruct (1 <? vlen fl); [|by exists l, fl]. destruct Hv as [V1 V2 V3 V4 V5 V6 V7 V8 V9 V10 V11 V12 V13 V14 V15 V16]. simpl in *. rewrite Hn in V11.
    destruct (fed_sort _ _ _ _ V11) as (fb & sc & fl' & -> & Hfed & Hp & Hlen); [apply Forall_forall; intros f Hf; by apply V12|]. mred.
    assert (vlen fl' = vlen fl) as Hlen' by (unfold vlen; by rewrite Hp). eexists _, fl'. split; [done|]. split; [|by split_and!].
    split; simpl; rewrite ?Hlen, ?Hlen'; try done. intros f Hf. apply V12. by rewrite <- Hp. }
  mred. rewrite Hn1, <- Hlen. unfold vlen at 1. rewrite Nat2N.id.
  destruct (flush_each_ok P fl' 0 l1 c L C W R Hv1) as (l2 & L2 & C2 & R2 & -> & Hv2 & Hst2 & Hn2 & Hr2).
  { intros p Hp. rewrite Hlen. rewrite Hps in Hp. by apply Hroom. }
  mred. eexists _, L2, C2, R2. split; [done|]. split.
  - destruct Hv2 as [V1 V2 V3 V4 V5 V6 V7 V8 V9 V10 V11 V12 V13 V14 V15 V16]. simpl in *. split; simpl; try done.
    destruct V11 as [H1 H2 H3 H4 H5]. split; try done; [|unfold vlen in *; lia]. intros i Hi Hlt. apply H3; [|done]. unfold vlen in *. simpl in *. lia.
  - split; [etransitivity; [exact Hst1|]; destruct Hst2; by split|]. split; [done|]. intros j Hj. simpl. apply Hr2. intros p Hp. rewrite Hps in Hp. by apply Hj.
Qed.

(** ** Reconciliation *)

Definition idle : progress := mkProgress [] 0.

Lemma indexed_entry x pend l c L C W R fl f i :
  linv x pend l c L C W R fl → frame_entries l !! N.to_nat f = Some (Some i) →
  ∃ e, entries l !! N.to_nat i = Some (Some e) ∧ e_frame e = f.
Proof.
  intros Hv Hf. apply (st_index _ _ _ _ _ _ (v_storage _ _ _ _ _ _ _ _ _ Hv)) in Hf as (pg & src & Hc). apply cores_lookup in Hc as (e & He & Heq).
  exists e. split; [done|]. congruence.
Qed.

Lemma obsolete_ok x pend l c L C W R fl i e :
  linv x pend l c L C W R fl → entries l !! N.to_nat i = Some (Some e) →
  ∃ b, obsolete l e = Done b ∧ (b = true → queued (cores (entries l)) (patterns l) [i]).
Proof.
  intros Hv He. unfold obsolete, source_obsolete. destruct (e_source e) as [|r inc] eqn:Hs; [by exists false|].
  assert (cores (entries l) !! N.to_nat i = Some (Some (e_page e, e_frame e, Automatic r inc))) as Hco by (rewrite <- Hs; apply cores_lookup; eauto).
  destruct (v_owned _ _ _ _ _ _ _ _ _ Hv i _ _ _ _ Hco) as (_ & p & Hp & Hle & _). rewrite (proj2 (vget_Done _ _ _) Hp). mred. eexists. split; [done|].
  unfold owns. intros Hb. reflect_bools. intros j ->%list_elem_of_singleton. eexists _, _, r, inc, p. split_and!; try done. lia.
Qed.

Lemma visit_completed_ok x frames : ∀ l c pend L C W R fl,
  linv x pend l c L C W R fl → (∀ f, f ∈ frames → f < vlen (frame_entries l)) →
  ∃ l' C', visit_completed l frames = Done l' ∧ linv x pend l' c L C' W R fl ∧ steady l l' ∧ patterns l' = patterns l.
Proof.
  induction frames as [|f frames IH]; intros l c pend L C W R fl Hv Hf; [by exists l, C|]. cbn [visit_completed].
  destruct (vget_ok (frame_entries l) f) as (o & -> & Ho); [apply Hf; set_solver|]. mred.
  assert (∃ l1 C1, match o with None => Done l | Some index => eo ← vget (entries l) index; e ← expect eo; b ← obsolete l e;
      if b : bool then q ← IndexQueue.push (cleanup l) index; Done (set_cleanup l q) else Done l end = Done l1 ∧
    linv x pend l1 c L C1 W R fl ∧ steady l l1 ∧ patterns l1 = patterns l) as (l1 & C1 & -> & Hv1 & Hst1 & Hp1).
  { destruct o as [i|]; [|by exists l, C]. destruct (indexed_entry _ _ _ _ _ _ _ _ _ _ _ Hv Ho) as (e & He & _).
    rewrite (proj2 (vget_Done _ _ _) He). mred. destruct (obsolete_ok _ _ _ _ _ _ _ _ _ _ _ Hv He) as (b & -> & Hb). mred. destruct b; [|by exists l, C].
    specialize (Hb eq_refl). destruct Hv as [V1 V2 V3 V4 V5 V6 V7 V8 V9 V10 V11 V12 V13 V14 V15 V16].
    assert (i < capacity l) as Hi by (rewrite <- (st_len _ _ _ _ _ _ V1); unfold cores, vlen; rewrite length_fmap; apply lookup_lt_Some in He; lia).
    destruct (push_rep _ _ _ i V5 Hi) as (q & -> & Hq). mred. eexists _, _. split; [done|]. split; [|split; done].
    split; simpl; try done. intros j Hj. destruct (decide (j = i)) as [->|Hne]; [apply Hb; set_solver|]. apply V8.
    apply elem_of_app in Hj as [Hj|Hj]; [|set_solver]. apply elem_of_app. left. case_decide; set_solver. }
  mred. destruct (IH l1 c pend L C1 W R fl Hv1) as (l' & C' & -> & Hv' & Hst' & Hp').
  { intros g Hg. rewrite (y_frames _ _ Hst1). apply Hf. set_solver. }
  exists l', C'. split; [done|]. split; [done|]. split; [by etransitivity|congruence].
Qed.

Lemma marks_visited P f fes c :
  marks (f :: P) fes c → (∀ m, Clock.speculation c !! N.to_nat f = Some m → m < 2) → marks P fes c.
Proof.
  intros [H1 H2 H3 H4 H5 H6] Hf. split; try done. intros g m Hg Hm. destruct (H6 g m Hg Hm) as [?|[->|?]%elem_of_cons]; auto.
  specialize (Hf m Hg). lia.
Qed.

Lemma linv_marks x P P' k l c c' L C W R fl :
  linv x (mkProgress P k) l c L C W R fl → marks P' (frame_entries l) c' → linv x (mkProgress P' k) l c' L C W R fl.
Proof. intros [V1 V2 V3 V4 V5 V6 V7 V8 V9 V10 V11 V12 V13 V14 V15 V16] Hm. by split. Qed.

(** Markers that a touch has turned are cleared, no other changes. *)
Definition cleared (c c' : Clock.Clock) : Prop :=
  ∀ f m, Clock.speculation c !! N.to_nat f = Some m →
    Clock.speculation c' !! N.to_nat f = Some m ∨ (2 ≤ m ∧ Clock.speculation c' !! N.to_nat f = Some 0).

#[global] Instance cleared_preorder : PreOrder cleared.
Proof.
  split; [intros c f m Hf; by left|]. intros c1 c2 c3 H1 H2 f m Hf. destruct (H1 f m Hf) as [Hx|[Hm Hx]]; [by apply H2|].
  destruct (H2 f 0 Hx) as [?|[? _]]; [by right|lia].
Qed.

(** What visiting consumed frames does to the ledger. *)
Record settled (l l' : Prefetch) (c c' : Clock.Clock) : Prop := {
  z_patterns : patterns l' = patterns l;
  z_capacity : capacity l' = capacity l;
  z_admitted : admitted (stats l') = admitted (stats l);
  z_occupied : occupied (stats l') ≤ occupied (stats l);
  z_frames : vlen (frame_entries l') = vlen (frame_entries l);
  z_consumed : Clock.consumed c' = Clock.consumed c;
  z_cleared : cleared c c';
  z_gone : ∀ f i, frame_entries l' !! N.to_nat f = Some (Some i) → frame_entries l !! N.to_nat f = Some (Some i);
}.

Lemma settled_trans l1 l2 l3 c1 c2 c3 : settled l1 l2 c1 c2 → settled l2 l3 c2 c3 → settled l1 l3 c1 c3.
Proof. intros [] []. split; try congruence; [lia|by etransitivity|]. naive_solver. Qed.

Lemma visit_one_ok P f l c L C W R fl :
  linv rest (mkProgress (f :: P) 0) l c L C W R fl → f < vlen (frame_entries l) → room 1 l →
  ∃ l' c' L' C' W' R' fl', (o ← vget (frame_entries l) f; match o with None => Done (l, c) | Some index =>
      b ← Clock.speculation_consumed c f; if b : bool then finish_index l c index (Promoted None) else Done (l, c) end) = Done (l', c') ∧
    linv rest (mkProgress P 0) l' c' L' C' W' R' fl' ∧ settled l l' c c'.
Proof.
  intros Hv Hf Hroom. destruct (vget_ok (frame_entries l) f) as (o & -> & Ho); [done|]. mred. pose proof (v_marks _ _ _ _ _ _ _ _ _ Hv) as Hm. simpl in Hm.
  destruct (marker_at _ _ _ _ Hm Hf) as [m Hmk]. destruct (k_marker _ _ _ Hm f m Hmk) as [Hz _].
  assert ((m < 2) → ∃ l' c' L' C' W' R' fl', Done (l, c) = Done (l', c') ∧ linv rest (mkProgress P 0) l' c' L' C' W' R' fl' ∧ settled l l' c c') as Hsame.
  { intros Hlt. exists l, c, L, C, W, R, fl. split; [done|]. split; [|by split]. eapply linv_marks; [done|]. eapply marks_visited; [done|]. intros m' ?. by simplify_eq. }
  destruct o as [i|]; [|apply Hsame; rewrite (proj1 Hz Ho); done].
  destruct (indexed_entry _ _ _ _ _ _ _ _ _ _ _ Hv Ho) as (e & He & Hfe).
  unfold Clock.speculation_consumed. rewrite (clock_index_ok _ _ _ _ Hm Hf). mred. rewrite (proj2 (vget_Done _ _ _) Hmk). mred.
  destruct (N.leb_spec 2 m) as [H2|H2]; [|by apply Hsame].
  destruct (finish_index_ok _ _ _ _ _ _ _ _ i e (Promoted None) Hv eq_refl He Hroom)
    as (l' & c' & L' & C' & W' & R' & fl' & -> & Hv' & Ho' & Ha' & Hcap & Hfes & _ & Hsp & Hcons & Hps & _).
  exists l', c', L', C', W', R', fl'. split; [done|]. rewrite Hfe in *. split.
  - eapply linv_marks; [done|]. eapply marks_visited; [apply (v_marks _ _ _ _ _ _ _ _ _ Hv')|]. intros m'. rewrite Hsp.
    rewrite list_lookup_insert_eq by (by eapply lookup_lt_Some). intros [= <-]. done.
  - split; try done; [by eapply Hps|lia|by rewrite Hfes, vlen_insert| |].
    { intros g m' Hg. rewrite Hsp. destruct (decide (g = f)) as [->|Hne]; [|left; by rewrite list_lookup_insert_ne by lia].
      rewrite Hmk in Hg. injection Hg as <-. right. split; [done|]. apply list_lookup_insert_eq. by eapply lookup_lt_Some. }
    intros g j. rewrite Hfes. intros [[_ ?]|[_ ?]]%lookup_vset; done.
Qed.

Lemma visit_consumed_ok frames : ∀ l c L C W R fl,
  linv rest (mkProgress frames 0) l c L C W R fl → (∀ f, f ∈ frames → f < vlen (frame_entries l)) → room 1 l →
  ∃ l' c' L' C' W' R' fl', visit_consumed l c frames = Done (l', c') ∧ linv rest idle l' c' L' C' W' R' fl' ∧ settled l l' c c'.
Proof.
  induction frames as [|f frames IH]; intros l c L C W R fl Hv Hf Hroom; [by exists l, c, L, C, W, R, fl|]. cbn [visit_consumed].
  destruct (visit_one_ok _ _ _ _ _ _ _ _ _ Hv) as (l1 & c1 & L1 & C1 & W1 & R1 & fl1 & Hrun & Hv1 & Hs1); [apply Hf; set_solver|done|].
  destruct (vget (frame_entries l) f) as [o|]; [|done]. mred in Hrun. mred. rewrite Hrun. mred.
  destruct (IH l1 c1 L1 C1 W1 R1 fl1 Hv1) as (l' & c' & L' & C' & W' & R' & fl' & -> & Hv' & Hs').
  - intros g Hg. rewrite (z_frames _ _ _ _ Hs1). apply Hf. set_solver.
  - intros p Hp. rewrite (z_patterns _ _ _ _ Hs1) in Hp. by apply Hroom.
  - exists l', c', L', C', W', R', fl'. split; [done|]. split; [done|]. by eapply settled_trans.
Qed.

(** No marker is left that a touch has turned. *)
Definition untouched (c : Clock.Clock) : Prop := ∀ f m, Clock.speculation c !! N.to_nat f = Some m → m < 2.

Definition round_inv (l0 : Prefetch) (c0 : Clock.Clock) (st : Prefetch * Clock.Clock) : Prop :=
  (∃ L C W R fl, linv rest idle st.1 st.2 L C W R fl) ∧ cleared c0 st.2 ∧ patterns st.1 = patterns l0 ∧ capacity st.1 = capacity l0 ∧
  admitted (stats st.1) = admitted (stats l0) ∧ vlen (frame_entries st.1) = vlen (frame_entries l0) ∧
  ∀ f i, frame_entries st.1 !! N.to_nat f = Some (Some i) → frame_entries l0 !! N.to_nat f = Some (Some i).

Lemma reconcile_round_ok l0 c0 st :
  round_inv l0 c0 st → room 1 l0 → ∃ r, reconcile_round st = Done r ∧ round_inv l0 c0 (result r) ∧ untouched (result r).2.
Proof.
  destruct st as [l c]. intros ((L & C & W & R & fl & Hv) & Hcl & Hp & Hcap & Hadm & Hlen & Hgone) Hroom. simpl in *.
  pose proof (v_marks _ _ _ _ _ _ _ _ _ Hv) as Hm. simpl in Hm. destruct (k_consumed _ _ _ Hm) as [Hq Hfr].
  unfold reconcile_round. destruct (DirtyFrames.quiet_drain _ Hq) as (d & fs & -> & Hqd & Hfd & _ & Hfs & Hlt & Hclean). mred.
  assert (linv rest (mkProgress fs 0) l (Clock.set_consumed c d) L C W R fl) as Hv1.
  { eapply linv_marks; [exact Hv|]. destruct Hm as [H1 H2 H3 H4 H5 H6]. split; simpl; try done; [by rewrite Hfd|].
    intros f m Hf H2m. right. apply Hfs. destruct (H6 f m Hf H2m) as [?|?%elem_of_nil]; done. }
  destruct (visit_consumed_ok fs l (Clock.set_consumed c d) L C W R fl Hv1) as (l' & c' & L' & C' & W' & R' & fl' & -> & Hv' & Hs').
  { intros f Hf%Hlt. by rewrite <- Hfr. }
  { intros p. rewrite Hp. apply Hroom. }
  mred. assert (round_inv l0 c0 (l', c')) as Hri.
  { destruct Hs' as [S1 S2 S3 S4 S5 S6 S8 S7]. split; [by eexists _, _, _, _, _|]. simpl. split; [by etransitivity; [exact Hcl|]|]. split_and!; try congruence. intros f i Hf. by apply Hgone, S7. }
  assert (untouched c') as Hun.
  { intros f m Hf. destruct (N.lt_ge_cases m 2) as [?|Hge]; [done|]. pose proof (v_marks _ _ _ _ _ _ _ _ _ Hv') as Hm'. simpl in Hm'.
    destruct (k_marked _ _ _ Hm' f m Hf Hge) as [Hx|Hx%elem_of_nil]; [|done]. rewrite (z_consumed _ _ _ _ Hs') in Hx. simpl in Hx. by rewrite Hclean in Hx. }
  eexists. split; [done|]. case_match; done.
Qed.

Lemma reconcile_ok l c L C W R fl :
  linv rest idle l c L C W R fl → room (capacity l + 1) l →
  ∃ l' c' L' C' W' R', reconcile l c = Done (l', c') ∧ linv rest idle l' c' L' C' W' R' [] ∧ untouched c' ∧ cleared c c' ∧ feedback_count l' = 0 ∧
    admitted (stats l') = admitted (stats l) ∧ capacity l' = capacity l ∧ vlen (patterns l') = vlen (patterns l) ∧
    vlen (frame_entries l') = vlen (frame_entries l) ∧
    (∀ f i, frame_entries l' !! N.to_nat f = Some (Some i) → frame_entries l !! N.to_nat f = Some (Some i)) ∧
    ∀ j, room (capacity l + j) l → room j l'.
Proof.
  intros Hv Hroom. pose proof (v_marks _ _ _ _ _ _ _ _ _ Hv) as Hm. simpl in Hm. destruct (k_completed _ _ _ Hm) as [Hq Hfr].
  unfold reconcile. destruct (DirtyFrames.quiet_drain _ Hq) as (d & fs & -> & Hqd & Hfd & _ & _ & Hlt & _). mred.
  destruct (visit_completed_ok rest fs l c idle L C W R fl Hv) as (l1 & C1 & -> & Hv1 & Hst1 & Hp1); [intros f Hf%Hlt; by rewrite <- Hfr|]. mred.
  destruct Hst1 as [T1 T2 T3 T4 T5].
  assert (linv rest idle l1 (Clock.set_completed c d) L C1 W R fl) as Hv2.
  { eapply linv_marks; [exact Hv1|]. rewrite T3. destruct Hm as [H1 H2 H3 H4 H5 H6]. split; simpl; try done. by rewrite Hfd. }
  rewrite for_range_nat.
  assert (∃ r, for_nat reconcile_round (N.to_nat (capacity l1 + 1)) (l1, Clock.set_completed c d) = Done r ∧ round_inv l1 c (result r) ∧ untouched (result r).2)
    as (r & -> & Hri & Hun).
  { replace (N.to_nat (capacity l1 + 1)) with (S (N.to_nat (capacity l1))) by lia.
    destruct (for_nat_rule reconcile_round
      (λ m st, round_inv l1 c st ∧ ((m ≤ N.to_nat (capacity l1))%nat → untouched st.2)) (λ st, round_inv l1 c st ∧ untouched st.2)
      (S (N.to_nat (capacity l1))) (l1, Clock.set_completed c d)) as [(st & -> & Hst & Hu)|(st & -> & Hst & Hu)].
    - intros m st [Hst _]. destruct (reconcile_round_ok l1 c st Hst) as (r & -> & Hr & Hu).
      { intros p. rewrite Hp1. intros Hp. specialize (Hroom p Hp). lia. }
      destruct r as [st'|st']; [left|right]; exists st'; simpl in *; by split_and!.
    - split; [|lia]. split; [by eexists _, _, _, _, _|]. split; [by intros f m; left|]. by split_and!.
    - eexists. split; [done|]. simpl. split; [done|]. apply Hu. lia.
    - eexists. split; [done|]. by split. }
  mred. destruct Hri as ((L2 & C2 & W2 & R2 & fl2 & Hv3) & Hcl2 & Hp2 & Hcap2 & Hadm2 & Hlen2 & Hgone2).
  change (match r with Continue x => x | Return x => x end) with (result r). destruct (result r) as [l2 c2]. simpl in *.
  assert (vlen fl2 ≤ capacity l) as Hfl. { pose proof (v_room _ _ _ _ _ _ _ _ _ Hv3) as Hx. rewrite Hcap2, T2 in Hx. lia. }
  destruct (flush_ok [] l2 c2 L2 C2 W2 R2 fl2 Hv3) as (l' & L' & C' & R' & -> & Hv' & [Y1 Y2 Y3 Y4 Y5] & Hn & Hr').
  { intros p. rewrite Hp2, Hp1. intros Hp. specialize (Hroom p Hp). lia. }
  mred. exists l', c2, L', C', W2, R'. split; [done|]. split; [done|]. rewrite Y1, Y2, Y3, Y5, Hp2, Hp1, Hcap2, T2, Hadm2, T1, Hlen2, T3. split_and!; try done.
  - intros f i Hf. rewrite <- T3. by apply Hgone2.
  - intros j Hj. apply Hr'. intros p. rewrite Hp2, Hp1. intros Hp. specialize (Hj p Hp). lia.
Qed.

End LedgerSystem.
