(* ===== verification/LedgerSafety.v ===== *)
(** * The prefetch ledger under every sequence of calls

    [step] lets the pool's calls on [Ledger] and the readers' touches of the clock follow
    each other in any order, each within its contract ([enabled]): no call panics, the
    credits and the queues stay exact, and a reconciliation settles every touched
    prediction. *)
From stdpp Require Import functions prelude list relations.
From Stdlib Require Import NArith Lia.
From S2P Require Import Prelude Ids Frames Notifications Clock Pattern IndexQueue Feedback Ledger LedgerLists LedgerSystem.

Open Scope N_scope.

Module LedgerSafety.
Import Pattern.Pattern IndexQueue.IndexQueue Feedback.Feedback Ledger.Ledger LedgerLists.LedgerLists LedgerSystem.LedgerSystem.

(** ** Calls *)

Record state := mkState { ledger : Prefetch; clock : Clock.Clock }.

(** A run of predictions, admitted and then issued. *)
Fixpoint admit_run (l : Prefetch) (c : Clock.Clock) (source : Source) (run : list (PageId * ReadFrameIdx)) : outcome (Prefetch * Clock.Clock) :=
  match run with
  | [] => Done (l, c)
  | (page, frame) :: run => '(l, c) ← admit_entry l c page frame source; admit_run l c source run
  end.

Fixpoint issue_run (l : Prefetch) (reader : N) (pages : list PageId) : outcome Prefetch :=
  match pages with
  | [] => Done l
  | page :: pages => l ← Ledger.issued l reader page; issue_run l reader pages
  end.

Inductive call :=
  | Touch (frame : ReadFrameIdx) (reader : option N)
  | Completed (frame : ReadFrameIdx)
  | AdmitExplicit (page : PageId) (frame : ReadFrameIdx)
  | AdmitRun (reader incarnation : N) (run : list (PageId * ReadFrameIdx))
  | Issue (reader : N) (page : PageId)
  | Finish (frame : ReadFrameIdx) (terminal : Terminal)
  | Reconcile
  | Observe (reader : N) (page : PageId)
  | ResetReader (reader : N)
  | AdvanceTurn (reader : N)
  | RetryCleanup (releases : N)
  | EvictObsolete (fate_of : ReadFrameIdx → fate)
  | BeginExplicit
  | Protect (frame : ReadFrameIdx).

Definition exec (k : call) (s : state) : outcome state :=
  let 'mkState l c := s in
  match k with
  | Touch f r => '(c, _) ← Clock.reference_observed c f r; Done (mkState l c)
  | Completed f => d ← DirtyFrames.notify (Clock.completed c) f; Done (mkState l (Clock.set_completed c d))
  | AdmitExplicit page f => '(l, c) ← admit_entry l c page f Explicit; Done (mkState l c)
  | AdmitRun r inc run => '(l, c) ← admit_run l c (Automatic r inc) run; l ← issue_run l r run.*1; Done (mkState l c)
  | Issue r page => l ← Ledger.issued l r page; Done (mkState l c)
  | Finish f t => '(l, c) ← finish l c f t; Done (mkState l c)
  | Reconcile => '(l, c) ← reconcile l c; Done (mkState l c)
  | Observe r page => '(l, c) ← Ledger.observe l c r page; Done (mkState l c)
  | ResetReader r => l ← reset_reader l r; Done (mkState l c)
  | AdvanceTurn r => l ← advance_turn l r; Done (mkState l c)
  | RetryCleanup n => l ← retry_cleanup l n; Done (mkState l c)
  | EvictObsolete fate_of => '(l, c, _) ← evict_obsolete_round l c fate_of; Done (mkState l c)
  | BeginExplicit => l ← begin_explicit l; Done (mkState l c)
  | Protect f => l ← protect l f; Done (mkState l c)
  end.

(** The frame is of the arena and not speculative. *)
Definition vacant_frame (l : Prefetch) (f : ReadFrameIdx) : Prop := frame_entries l !! N.to_nat f = Some None.
Definition of_arena (l : Prefetch) (f : ReadFrameIdx) : Prop := f < vlen (frame_entries l).

(** The run starts at the stream's next page, within its window. *)
Definition next_pages (p : Pattern) (run : list (PageId * ReadFrameIdx)) : Prop :=
  ∃ demand nx w, Pattern.state p = Streaming demand nx w ∧ nx + vlen run ≤ saturating_add U32_MAX (pg_granule_idx demand) w + 1 ∧
    ∀ k page f, run !! k = Some (page, f) → page = mkPageId (pg_file demand) (nx + N.of_nat k).

(** What callers have checked: they admit_entry after reconciling, with credits left and frames
    they have claimed; predictions are those of the reader's pattern. *)
Definition enabled (k : call) (s : state) : Prop :=
  let l := ledger s in
  match k with
  | Touch f r => of_arena l f ∧ ∀ q, r = Some q → q ≤ U32_MAX
  | Completed f => of_arena l f
  | AdmitExplicit _ f => feedback_count l = 0 ∧ occupied (stats l) < capacity l ∧ vacant_frame l f
  | AdmitRun r inc run =>
      feedback_count l = 0 ∧ occupied (stats l) + vlen run ≤ capacity l ∧ NoDup run.*2 ∧ Forall (vacant_frame l) run.*2 ∧
      ∃ p, patterns l !! N.to_nat r = Some p ∧ inc = incarnation p ∧ next_pages p run
  | Issue r page => ∃ p source, patterns l !! N.to_nat r = Some p ∧ request p r = Some (page, source)
  | Finish f _ => of_arena l f
  | Reconcile => True
  | Observe _ page => pg_granule_idx page ≤ U32_MAX
  | ResetReader _ => True
  | AdvanceTurn r => r < vlen (patterns l)
  | RetryCleanup _ => True
  | EvictObsolete _ => True
  | BeginExplicit => True
  | Protect f => of_arena l f
  end.

(** The 64-bit counters have room for one more call. *)
Definition roomy (s : state) : Prop :=
  room (capacity (ledger s) + 2) (ledger s) ∧ admitted (stats (ledger s)) + capacity (ledger s) < U64_MAX ∧ stamp (ledger s) < U64_MAX.

Definition step (s s' : state) : Prop := ∃ k, roomy s ∧ enabled k s ∧ exec k s = Done s'.

Definition sound (s : state) : Prop := ∃ L C W R fl, linv rest idle (ledger s) (clock s) L C W R fl.

Lemma sound_intro l c L C W R fl : linv rest idle l c L C W R fl → sound (mkState l c).
Proof. intros Hv. by exists L, C, W, R, fl. Qed.

Lemma room_le j k l : room k l → j ≤ k → room j l.
Proof. intros Hr Hj p Hp. specialize (Hr p Hp). lia. Qed.

(** ** Readers and completions *)

Lemma touch_call s f r : sound s → enabled (Touch f r) s → ∃ s', exec (Touch f r) s = Done s' ∧ sound s'.
Proof.
  destruct s as [l c]. intros (L & C & W & R & fl & Hv) [Hf Hr]. simpl in *.
  destruct (touch_ok _ _ _ f r (v_marks _ _ _ _ _ _ _ _ _ Hv) Hf Hr) as (c' & b & -> & Hm). mred. eexists. split; [done|].
  eapply sound_intro, linv_marks; done.
Qed.

Lemma completed_call s f : sound s → enabled (Completed f) s → ∃ s', exec (Completed f) s = Done s' ∧ sound s'.
Proof.
  destruct s as [l c]. intros (L & C & W & R & fl & Hv) Hf. unfold enabled, of_arena in Hf. simpl in *. pose proof (v_marks _ _ _ _ _ _ _ _ _ Hv) as Hm. simpl in Hm.
  destruct (k_completed _ _ _ Hm) as [Hq Hfr]. destruct (DirtyFrames.quiet_notify _ f Hq) as (d & -> & Hd & Hdf & _); [by rewrite Hfr|]. mred.
  eexists. split; [done|]. eapply sound_intro, linv_marks; [exact Hv|]. destruct Hm as [H1 H2 H3 H4 H5 H6]. split; simpl; try done. by rewrite Hdf.
Qed.

(** ** Admissions *)

Lemma no_feedback x l c L C W R fl : linv x idle l c L C W R fl → feedback_count l = 0 → fl = [].
Proof.
  intros Hv Hn. pose proof (d_count _ _ _ _ _ (v_fed _ _ _ _ _ _ _ _ _ Hv)) as Hc. rewrite Hn in Hc. destruct fl; [done|]. unfold vlen in Hc. simpl in Hc. lia.
Qed.

Lemma admit_explicit_call s page f :
  sound s → roomy s → enabled (AdmitExplicit page f) s → ∃ s', exec (AdmitExplicit page f) s = Done s' ∧ sound s'.
Proof.
  destruct s as [l c]. intros (L & C & W & R & fl & Hv) (_ & Ha & _) (Hn & Ho & Hf). simpl in *. pose proof (no_feedback _ _ _ _ _ _ _ _ Hv Hn) as ->.
  destruct (admit_entry_ok rest idle l c L C W R page f Explicit Hv) as (l' & c' & L' & i & -> & Hv' & _); try done; [lia|]. mred.
  eexists. split; [done|]. by eapply sound_intro.
Qed.

(** [j] predictions of reader [r] admitted and not yet issued. *)
Definition ahead (r j : N) : N → N := λ q, if decide (q = r) then j else 0.

Lemma ahead_self r j : ahead r j r = j.
Proof. unfold ahead. by rewrite decide_True. Qed.

Lemma ahead_rest r x : (∀ q, x q = ahead r 0 q) → ∀ q, x q = rest q.
Proof. intros Hx q. rewrite Hx. unfold ahead, rest. by case_decide. Qed.

Lemma ahead_insert r j j' q : (<[r := j']> (ahead r j)) q = ahead r j' q.
Proof.
  unfold ahead at 2. case_decide as Hq; [subst; by rewrite fn_lookup_insert|]. rewrite fn_lookup_insert_ne by done. unfold ahead. by rewrite decide_False.
Qed.

Lemma admit_run_ok r inc p demand nx w run : ∀ j l c L C W R,
  linv (ahead r j) idle l c L C W R [] → patterns l !! N.to_nat r = Some p → inc = incarnation p → Pattern.state p = Streaming demand nx w →
  occupied (stats l) + vlen run ≤ capacity l → admitted (stats l) + vlen run < U64_MAX → nx + j + vlen run ≤ U32_MAX + 1 →
  NoDup run.*2 → Forall (vacant_frame l) run.*2 →
  (∀ k page f, run !! k = Some (page, f) → page = mkPageId (pg_file demand) (nx + j + N.of_nat k)) →
  ∃ l' c' L', admit_run l c (Automatic r inc) run = Done (l', c') ∧ linv (ahead r (j + vlen run)) idle l' c' L' C W R [] ∧
    patterns l' = patterns l ∧ capacity l' = capacity l.
Proof.
  induction run as [|[page f] run IH]; intros j l c L C W R Hv Hp Hinc Hs Hocc Hadm Hnx Hnd Hvac Hpg.
  - exists l, c, L. change (vlen (@nil (PageId * ReadFrameIdx))) with 0. by rewrite N.add_0_r.
  - assert (vlen ((page, f) :: run) = vlen run + 1) as Hlen by (unfold vlen; simpl; lia). rewrite Hlen in *. cbn [admit_run].
    apply NoDup_cons in Hnd as [Hf Hnd]. apply Forall_cons in Hvac as [Hvf Hvac]. pose proof (Hpg 0%nat page f eq_refl) as Hpage. rewrite N.add_0_r in Hpage.
    destruct (admit_entry_ok (ahead r j) idle l c L C W R page f (Automatic r inc) Hv) as (l1 & c1 & L1 & i & -> & Hv1 & Hps & Hcap & Hfe & Ha & Ho); try done; [lia..| |].
    { split; [subst page; simpl; lia|]. exists p. split; [done|]. split; [done|]. exists demand, nx, w. subst page. split_and!; try done.
      simpl. rewrite ahead_self. lia. }
    mred. destruct (IH (j + 1) l1 c1 L1 C W R) as (l' & c' & L' & -> & Hv' & Hp' & Hc'); try done.
    + eapply linv_ext; [|exact Hv1]. intros q. unfold admitting. rewrite ahead_self. apply ahead_insert.
    + by rewrite Hps.
    + lia.
    + lia.
    + lia.
    + eapply Forall_impl; [apply Forall_and; split; [exact Hvac|apply Forall_forall; intros g Hg; exact Hg]|]. intros g [Hg Hin]. unfold vacant_frame in *. rewrite Hfe.
      rewrite list_lookup_insert_ne; [done|]. intros Heq. assert (f = g) as -> by lia. done.
    + intros k page' f' Hk. rewrite (Hpg (S k) page' f' Hk). f_equal. lia.
    + exists l', c', L'. split; [done|]. split; [|split; congruence]. replace (j + (vlen run + 1)) with (j + 1 + vlen run) by lia. done.
Qed.

Lemma issue_run_ok r demand w pages : ∀ p nx l c L C W R,
  linv (ahead r (vlen pages)) idle l c L C W R [] → patterns l !! N.to_nat r = Some p → Pattern.state p = Streaming demand nx w →
  nx + vlen pages ≤ saturating_add U32_MAX (pg_granule_idx demand) w + 1 → room (vlen pages) l →
  (∀ k page, pages !! k = Some page → page = mkPageId (pg_file demand) (nx + N.of_nat k)) →
  ∃ l' L' C' R', issue_run l r pages = Done l' ∧ linv rest idle l' c L' C' W R' [].
Proof.
  induction pages as [|page pages IH]; intros p nx l c L C W R Hv Hp Hs Hnx Hroom Hpg.
  - exists l, L, C, R. split; [done|]. eapply linv_ext; [|exact Hv]. by apply (ahead_rest r).
  - assert (vlen (page :: pages) = vlen pages + 1) as Hlen by (unfold vlen; simpl; lia). rewrite Hlen in *. cbn [issue_run].
    pose proof (Hpg 0%nat page eq_refl) as ->. rewrite N.add_0_r.
    assert (p ∈ patterns l) as Hpin by (by eapply list_elem_of_lookup_2). specialize (Hroom p Hpin) as Hrp. destruct (v_patterns _ _ _ _ _ _ _ _ _ Hv p Hpin) as [Hok _].
    assert (request p r = Some (mkPageId (pg_file demand) nx, Automatic r (incarnation p))) as Hreq.
    { unfold request. rewrite Hs. rewrite (proj2 (N.ltb_ge _ _)) by lia. done. }
    destruct (change_ok (ahead r (vlen pages + 1)) (vlen pages) idle l c L C W R [] r p (λ p, Pattern.issued p (mkPageId (pg_file demand) nx)) Hv Hp)
      as (l1 & L1 & C1 & R1 & Hl1 & Hv1 & Hk1 & Hps1 & Hr1); [lia| |by left|].
    { rewrite ahead_self. by eapply issued_moved; [|lia|]. }
    unfold Ledger.issued. rewrite Hl1. mred. assert (linv (ahead r (vlen pages)) idle l1 c L1 C1 W R1 []) as Hv2.
    { eapply linv_ext; [|exact Hv1]. intros q. apply ahead_insert. }
    destruct (checked_add U32_MAX nx 1) as [n1|] eqn:Hn1.
    + apply checked_add_Some in Hn1 as Hn2. destruct Hn2 as [-> _].
      assert (Pattern.issued p (mkPageId (pg_file demand) nx) = Done (set_state p (Streaming demand (nx + 1) w))) as Hiss.
      { unfold Pattern.issued. rewrite Hs, bool_decide_eq_true_2 by done. mred. by rewrite Hn1. }
      destruct (IH (set_state p (Streaming demand (nx + 1) w)) (nx + 1) l1 c L1 C1 W R1 Hv2) as (l' & L' & C' & R' & -> & Hv'); try done.
      * rewrite (Hps1 _ Hiss). apply list_lookup_insert_eq. by eapply lookup_lt_Some.
      * lia.
      * by apply Hr1.
      * intros k page' Hk. rewrite (Hpg (S k) page' Hk). f_equal. lia.
      * by exists l', L', C', R'.
    + destruct pages as [|page' pages].
      * exists l1, L1, C1, R1. split; [done|]. eapply linv_ext; [|exact Hv2]. by apply (ahead_rest r).
      * exfalso. unfold checked_add in Hn1. destruct (N.leb_spec (nx + 1) U32_MAX); [done|]. unfold saturating_add, vlen in Hnx. simpl in Hnx. lia.
Qed.

Lemma admit_run_call s r inc run :
  sound s → roomy s → enabled (AdmitRun r inc run) s → ∃ s', exec (AdmitRun r inc run) s = Done s' ∧ sound s'.
Proof.
  destruct s as [l c]. intros (L & C & W & R & fl & Hv) (Hroom & Ha & _) (Hn & Ho & Hnd & Hvac & p & Hp & -> & demand & nx & w & Hs & Hnx & Hpg). simpl in *.
  pose proof (no_feedback _ _ _ _ _ _ _ _ Hv Hn) as ->.
  destruct (admit_run_ok r (incarnation p) p demand nx w run 0 l c L C W R) as (l1 & c1 & L1 & -> & Hv1 & Hps & Hcap); try done; [|lia|unfold saturating_add in Hnx; lia| |].
  { eapply linv_ext; [|exact Hv]. intros q. unfold ahead, rest. by case_decide. }
  { intros k page f Hk. rewrite N.add_0_r. by apply (Hpg k page f). }
  mred. rewrite N.add_0_l in Hv1. assert (vlen run.*1 = vlen run) as Hlen by (unfold vlen; by rewrite length_fmap).
  destruct (issue_run_ok r demand w run.*1 p nx l1 c1 L1 C W R) as (l2 & L2 & C2 & R2 & -> & Hv2); rewrite ?Hlen; try done.
  - by rewrite Hps.
  - intros q Hq. rewrite Hps in Hq. specialize (Hroom q Hq). lia.
  - intros k page Hk. apply list_lookup_fmap_Some in Hk as ([page' f] & -> & Hk). simpl. by apply (Hpg k _ f).
  - mred. eexists. split; [done|]. by eapply sound_intro.
Qed.

(** ** Patterns change *)

Lemma change_sound l c L C W R fl r p g :
  linv rest idle l c L C W R fl → patterns l !! N.to_nat r = Some p → room 1 l → moved (capacity l) 0 0 p (g p) →
  ∃ l', change_pattern l r g = Done l' ∧ sound (mkState l' c).
Proof.
  intros Hv Hp Hroom Hm. assert (p ∈ patterns l) as Hpin by (by eapply list_elem_of_lookup_2). specialize (Hroom p Hpin).
  destruct (change_ok rest 0 idle l c L C W R fl r p g Hv Hp) as (l' & L' & C' & R' & -> & Hv' & _); [lia|done|by right|].
  exists l'. split; [done|]. eapply sound_intro. by eapply change_rest.
Qed.

Lemma moved_weaken cap x x' p o : moved cap (x + 1) x' p o → moved cap x x' p o.
Proof.
  intros (p' & -> & Hok & Hm & Hi). exists p'. split_and!; try done. destruct Hm as [[He Hm]|?]; [left|by right]. split; [done|].
  intros page (d & n & w & Hs & Hf & Hg). apply Hm. exists d, n, w. split_and!; try done. lia.
Qed.

Lemma issue_call s r page : sound s → roomy s → enabled (Issue r page) s → ∃ s', exec (Issue r page) s = Done s' ∧ sound s'.
Proof.
  destruct s as [l c]. intros (L & C & W & R & fl & Hv) (Hroom & _) (p & source & Hp & Hreq). simpl in *.
  assert (p ∈ patterns l) as Hpin by (by eapply list_elem_of_lookup_2). specialize (Hroom p Hpin) as Hrp.
  destruct (change_sound l c L C W R fl r p (λ p, Pattern.issued p page) Hv Hp) as (l' & Hl' & Hs'); [eapply room_le; [exact Hroom|lia]| |].
  - apply moved_weaken. eapply issued_moved; [by apply (v_patterns _ _ _ _ _ _ _ _ _ Hv)|lia|done].
  - unfold Ledger.issued. rewrite Hl'. mred. by eexists.
Qed.

Lemma reset_call s r : sound s → roomy s → ∃ s', exec (ResetReader r) s = Done s' ∧ sound s'.
Proof.
  destruct s as [l c]. intros (L & C & W & R & fl & Hv) (Hroom & _). simpl in *. unfold reset_reader.
  destruct (N.ltb_spec r (vlen (patterns l))) as [Hr|Hr]; [|by eexists; split; [|eapply sound_intro]].
  destruct (vget_ok (patterns l) r Hr) as (p & _ & Hp). assert (p ∈ patterns l) as Hpin by (by eapply list_elem_of_lookup_2). specialize (Hroom p Hpin) as Hrp.
  destruct (change_sound l c L C W R fl r p Pattern.reset Hv Hp) as (l' & -> & Hs'); [eapply room_le; [exact Hroom|lia]| |mred; by eexists].
  apply reset_moved; [by apply (v_patterns _ _ _ _ _ _ _ _ _ Hv)|lia].
Qed.

Lemma reconcile_feedback_ok l c L C W R fl :
  linv rest idle l c L C W R fl → room (capacity l + 2) l →
  ∃ l' c' L' C' W' R' fl', reconcile_feedback l c = Done (l', c') ∧ linv rest idle l' c' L' C' W' R' fl' ∧ room 1 l' ∧ capacity l' = capacity l.
Proof.
  intros Hv Hroom. unfold reconcile_feedback. destruct (0 <? feedback_count l).
  - destruct (reconcile_ok l c L C W R fl Hv) as (l' & c' & L' & C' & W' & R' & -> & Hv' & _ & _ & _ & _ & Hcap & _ & _ & _ & Hr); [eapply room_le; [exact Hroom|lia]|].
    exists l', c', L', C', W', R', []. split_and!; try done. apply Hr. eapply room_le; [exact Hroom|lia].
  - exists l, c, L, C, W, R, fl. split_and!; try done. eapply room_le; [exact Hroom|lia].
Qed.

Lemma observe_call s r page : sound s → roomy s → enabled (Observe r page) s → ∃ s', exec (Observe r page) s = Done s' ∧ sound s'.
Proof.
  destruct s as [l c]. intros (L & C & W & R & fl & Hv) (Hroom & _) Hg. simpl in *.
  destruct (reconcile_feedback_ok l c L C W R fl Hv Hroom) as (l1 & c1 & L1 & C1 & W1 & R1 & fl1 & Hrec & Hv1 & Hroom1 & Hcap).
  unfold Ledger.observe. rewrite Hrec. mred. destruct (N.ltb_spec r (vlen (patterns l1))) as [Hr|Hr]; [|mred; by eexists; split; [|eapply sound_intro]].
  destruct (vget_ok (patterns l1) r Hr) as (p & _ & Hp). assert (p ∈ patterns l1) as Hpin by (by eapply list_elem_of_lookup_2). specialize (Hroom1 p Hpin) as Hrp.
  destruct (change_sound l1 c1 L1 C1 W1 R1 fl1 r p (λ p, Pattern.observe p page (capacity l1)) Hv1 Hp Hroom1) as (l' & -> & Hs'); [|mred; by eexists].
  destruct (v_automatic _ _ _ _ _ _ _ _ _ Hv1) as [_ Hcap0]; [by intros Hnil; rewrite Hnil in Hp|].
  apply observe_moved; [by apply (v_patterns _ _ _ _ _ _ _ _ _ Hv1)|done|done|lia].
Qed.

Lemma advance_call s r : sound s → enabled (AdvanceTurn r) s → ∃ s', exec (AdvanceTurn r) s = Done s' ∧ sound s'.
Proof.
  destruct s as [l c]. intros (L & C & W & R & fl & Hv) Hr. simpl in *. unfold advance_turn.
  destruct Hv as [V1 V2 V3 V4 V5 V6 V7 V8 V9 V10 V11 V12 V13 V14 V15 V16]. destruct (remove_rep _ _ _ r V7 Hr) as (q & -> & Hq). mred.
  destruct (vget_ok (patterns l) r Hr) as (p & _ & Hp). destruct (V10 p) as [Hok _]; [by eapply list_elem_of_lookup_2|].
  destruct (refresh_ok (automatic_width l) (vlen (patterns l)) (patterns l) (set_ready l q) _ r p (capacity l) Hq) as (q' & R' & -> & Hq' & Hturn); try done.
  { intros s p' Hne Hs. pose proof (V9 s p' Hs) as Ht. unfold turn in *. rewrite list_elem_of_filter, <- Ht. tauto. }
  mred. eexists. split; [done|]. exists L, C, W, R', fl. by split.
Qed.

(** ** Entries end, or wait for their end *)

Lemma finish_frame_ok l c L C W R fl f t :
  linv rest idle l c L C W R fl → f < vlen (frame_entries l) → room 1 l → ∃ l' c', finish l c f t = Done (l', c') ∧ sound (mkState l' c').
Proof.
  intros Hv Hf Hroom. unfold finish. destruct (vget_ok (frame_entries l) f Hf) as (o & -> & Ho). mred. pose proof (v_marks _ _ _ _ _ _ _ _ _ Hv) as Hm. simpl in Hm.
  destruct o as [i|].
  - destruct (indexed_entry _ _ _ _ _ _ _ _ _ _ _ Hv Ho) as (e & He & _).
    destruct (finish_index_ok _ _ _ _ _ _ _ _ i e t Hv eq_refl He Hroom) as (l' & c' & L' & C' & W' & R' & fl' & -> & Hv' & _).
    exists l', c'. split; [done|]. by eapply sound_intro.
  - unfold Clock.is_speculative. rewrite (clock_index_ok _ _ _ _ Hm Hf). mred. destruct (marker_at _ _ _ _ Hm Hf) as [m Hmk].
    rewrite (proj2 (vget_Done _ _ _) Hmk). mred. destruct (k_marker _ _ _ Hm f m Hmk) as [Hz _]. rewrite (proj1 Hz Ho). simpl.
    exists l, c. split; [done|]. by eapply sound_intro.
Qed.

Lemma finish_call s f t : sound s → roomy s → enabled (Finish f t) s → ∃ s', exec (Finish f t) s = Done s' ∧ sound s'.
Proof.
  destruct s as [l c]. intros (L & C & W & R & fl & Hv) (Hroom & _) Hf. simpl in *.
  destruct (finish_frame_ok l c L C W R fl f t Hv Hf) as (l' & c' & -> & Hs'); [eapply room_le; [exact Hroom|lia]|]. mred. by eexists.
Qed.

Lemma reconcile_call s : sound s → roomy s → ∃ s', exec Reconcile s = Done s' ∧ sound s'.
Proof.
  destruct s as [l c]. intros (L & C & W & R & fl & Hv) (Hroom & _). simpl in *.
  destruct (reconcile_ok l c L C W R fl Hv) as (l' & c' & L' & C' & W' & R' & -> & Hv' & _); [eapply room_le; [exact Hroom|lia]|].
  mred. eexists. split; [done|]. by eapply sound_intro.
Qed.

(** Both queues keep indexes of obsolete entries, wherever they are moved. *)
Lemma linv_queues l c L C W R fl qc qw C' W' :
  linv rest idle l c L C W R fl → rep (capacity l) qc C' → rep (capacity l) qw W' → (∀ i, i ∈ C' ∨ i ∈ W' → i ∈ C ∨ i ∈ W) →
  linv rest idle (set_waiting (set_cleanup l qc) qw) c L C' W' R fl.
Proof.
  intros [V1 V2 V3 V4 V5 V6 V7 V8 V9 V10 V11 V12 V13 V14 V15 V16] Hc Hw Hsub. split; simpl; try done.
  intros i Hi%elem_of_app. apply V8, elem_of_app. auto.
Qed.

Lemma waiting_cleanup_id l : set_waiting (set_cleanup l (cleanup l)) (waiting l) = l.
Proof. by destruct l. Qed.

Lemma queue_range cap q Q i : rep cap q Q → i ∈ Q → i < cap.
Proof. intros Hr. apply (rep_range _ _ _ Hr). Qed.

Lemma retry_call s n : sound s → ∃ s', exec (RetryCleanup n) s = Done s' ∧ sound s'.
Proof.
  destruct s as [l c]. intros (L & C & W & R & fl & Hv). simpl. unfold retry_cleanup.
  destruct (pending_releases l =? n); [mred; eexists; split; [done|by eapply sound_intro]|]. rewrite for_range_nat.
  change (capacity (set_pending_releases l n)) with (capacity l).
  assert (sound (mkState (set_pending_releases l n) c)) as Hs.
  { exists L, C, W, R, fl. destruct Hv as [V1 V2 V3 V4 V5 V6 V7 V8 V9 V10 V11 V12 V13 V14 V15 V16]. by split. }
  destruct (for_nat_rule retry_body (λ _ l, sound (mkState l c)) (λ l, sound (mkState l c)) (N.to_nat (capacity l)) (set_pending_releases l n))
    as [(l' & Hr & Hl')|(l' & Hr & Hl')]; [|done|..].
  - intros _ l1 (L1 & C1 & W1 & R1 & fl1 & Hv1). simpl in Hv1. unfold retry_body.
    pose proof (v_cleanup _ _ _ _ _ _ _ _ _ Hv1) as Hc. pose proof (v_waiting _ _ _ _ _ _ _ _ _ Hv1) as Hw.
    destruct (pop_rep _ _ _ Hw) as (qw & -> & Hqw). mred. destruct W1 as [|i W1]; simpl in *.
    + right. eexists. split; [done|]. exists L1, C1, [], R1, fl1. pose proof (linv_queues _ _ _ _ _ _ _ _ _ _ _ Hv1 Hc Hqw ltac:(auto)) as Hv2.
      simpl. by destruct l1.
    + destruct (push_rep _ _ _ i Hc) as (qc & -> & Hqc); [eapply queue_range; [exact Hw|set_solver]|]. mred. left. eexists. split; [done|].
      eexists L1, _, W1, R1, fl1. simpl.
      assert (linv rest idle (set_waiting (set_cleanup l1 qc) qw) c L1 (if decide (i ∈ C1) then C1 else C1 ++ [i]) W1 R1 fl1) as Hv2.
      { apply (linv_queues _ _ _ _ _ _ _ _ _ _ _ Hv1 Hqc Hqw). intros j. case_decide; set_solver. }
      by destruct l1.
  - rewrite Hr. mred. by eexists.
  - rewrite Hr. mred. by eexists.
Qed.

Lemma evict_call s fate_of : sound s → roomy s → ∃ s', exec (EvictObsolete fate_of) s = Done s' ∧ sound s'.
Proof.
  destruct s as [l c]. intros (L & C & W & R & fl & Hv) (Hroom & _). simpl in *. unfold evict_obsolete_round.
  pose proof (v_cleanup _ _ _ _ _ _ _ _ _ Hv) as Hc. pose proof (v_waiting _ _ _ _ _ _ _ _ _ Hv) as Hw.
  destruct (pop_rep _ _ _ Hc) as (qc & -> & Hqc). mred.
  assert (linv rest idle (set_cleanup l qc) c L (list.tail C) W R fl) as Hv1.
  { pose proof (linv_queues _ _ _ _ _ _ _ _ _ _ _ Hv Hqc Hw) as Hx. destruct l. apply Hx. intros i [Hi|Hi]; [left|by right]. by destruct C; [|right]. }
  destruct C as [|i C]; simpl in *; [mred; eexists; split; [done|by eapply sound_intro]|].
  destruct (v_queued _ _ _ _ _ _ _ _ _ Hv i) as (pg & f & r & inc & p & Hco & Hp & Hlt); [set_solver|].
  apply cores_lookup in Hco as (e & He & Heq). rewrite (proj2 (vget_Done _ _ _) He). mred.
  assert (obsolete (set_cleanup l qc) e = Done true) as ->.
  { unfold obsolete, source_obsolete. injection Heq as _ _ <-. simpl. rewrite (proj2 (vget_Done _ _ _) Hp). mred. unfold owns. by rewrite (proj2 (N.eqb_neq _ _)) by lia. }
  mred. destruct (fate_of (e_frame e)).
  - mred. eexists. split; [done|]. by eapply sound_intro.
  - unfold wait_cleanup. simpl. destruct (push_rep _ _ _ i Hw) as (qw & -> & Hqw); [eapply queue_range; [exact Hc|set_solver]|]. mred.
    eexists. split; [done|]. eapply sound_intro. apply (linv_queues _ _ _ _ _ _ _ _ _ _ _ Hv Hqc Hqw). intros j. case_decide; set_solver.
  - destruct (finish_frame_ok _ c _ _ _ _ _ (e_frame e) Evicted Hv1) as (l' & c' & -> & Hs'); simpl.
    + assert (frame_entries l !! N.to_nat (e_frame e) = Some (Some i)) as Hf.
      { apply (st_index _ _ _ _ _ _ (v_storage _ _ _ _ _ _ _ _ _ Hv)). eexists _, _. apply cores_lookup. eauto. }
      by eapply vget_lt.
    + eapply room_le; [exact Hroom|lia].
    + mred. by eexists.
Qed.

(** ** Protection *)

Lemma begin_call s : sound s → roomy s → ∃ s', exec BeginExplicit s = Done s' ∧ sound s'.
Proof.
  destruct s as [l c]. intros (L & C & W & R & fl & Hv) (_ & _ & Hst). simpl in *. unfold begin_explicit, checked_add.
  rewrite (proj2 (N.leb_le _ _)) by lia. mred. eexists. split; [done|]. exists L, C, W, R, fl.
  destruct Hv as [V1 V2 V3 V4 V5 V6 V7 V8 V9 V10 V11 V12 V13 V14 V15 V16]. by split.
Qed.

Lemma protect_call s f : sound s → enabled (Protect f) s → ∃ s', exec (Protect f) s = Done s' ∧ sound s'.
Proof.
  destruct s as [l c]. intros (L & C & W & R & fl & Hv) Hf. simpl in *. unfold protect. destruct (vget_ok (frame_entries l) f Hf) as (o & -> & Ho). mred.
  destruct o as [i|]; [|mred; eexists; split; [done|by eapply sound_intro]].
  destruct (indexed_entry _ _ _ _ _ _ _ _ _ _ _ Hv Ho) as (e & He & _). rewrite (proj2 (vget_Done _ _ _) He). mred.
  rewrite vset_ok by (by eapply vget_lt). mred. eexists. split; [done|]. exists L, C, W, R, fl.
  destruct Hv as [V1 V2 V3 V4 V5 V6 V7 V8 V9 V10 V11 V12 V13 V14 V15 V16]. set (e' := mkEntry _ _ _ _ _).
  assert (cores (<[N.to_nat i := Some e']> (entries l)) = cores (entries l)) as Hco.
  { unfold cores. rewrite list_fmap_insert. apply list_insert_id. by rewrite list_lookup_fmap, He. }
  split; simpl; rewrite ?Hco; try done. destruct V3 as [M1 M2 M3 M4 M5]. split; try done.
  - intros j ej [[-> Hj]|[_ Hj]]%lookup_vset; [|by apply M4]. injection Hj as ->. exact (M4 i e He).
  - intros r j Hj. destruct (M5 r j Hj) as (Hr & ej & inc & Hej & Hs). split; [done|].
    destruct (decide (j = i)) as [->|Hne]; [exists e', inc; rewrite list_lookup_insert_eq by (by eapply lookup_lt_Some); by simplify_eq|].
    exists ej, inc. by rewrite list_lookup_insert_ne by lia.
Qed.

Lemma call_ok k s : sound s → roomy s → enabled k s → ∃ s', exec k s = Done s' ∧ sound s'.
Proof.
  intros Hs Hr He. destruct k; eauto using touch_call, completed_call, admit_explicit_call, admit_run_call, issue_call, finish_call, reconcile_call,
    observe_call, reset_call, advance_call, retry_call, evict_call, begin_call, protect_call.
Qed.

(** ** The start *)

Definition initial (s : state) : Prop :=
  ∃ cap readers reads mode frames granule,
    cap ≤ U32_MAX ∧ readers ≤ U32_MAX ∧ 0 < frames ∧ frames ≤ U32_MAX ∧
    try_with_geometry cap readers reads mode frames granule = Done (ledger s) ∧ Clock.try_with_frame_count frames = Done (clock s).

Lemma replicate_at {A} (n : N) (a b : A) i : replicate (N.to_nat n) a !! N.to_nat i = Some b → b = a ∧ i < n.
Proof. intros [-> ?]%lookup_replicate. split; [done|lia]. Qed.

Lemma initial_storage cap frames :
  storage cap (cores (replicate (N.to_nat cap) None)) (N.of_nat <$> seq 0 (N.to_nat cap)) cap 0 (replicate (N.to_nat frames) None).
Proof.
  assert (cores (replicate (N.to_nat cap) None) = replicate (N.to_nat cap) None) as -> by (unfold cores; by rewrite fmap_replicate).
  split; try (unfold vlen; rewrite ?length_fmap, ?length_replicate, ?length_seq; lia).
  - rewrite take_ge by (by rewrite length_fmap, length_seq). apply NoDup_fmap_2; [intros ? ?; lia|apply NoDup_seq].
  - intros i. rewrite take_ge by (by rewrite length_fmap, length_seq). rewrite list_elem_of_fmap, lookup_replicate. setoid_rewrite elem_of_seq. split.
    + intros (k & -> & Hk). split; [done|lia].
    + intros [_ Hi]. exists (N.to_nat i). split; lia.
  - intros f i. split; [by intros [? _]%replicate_at|by intros (? & ? & [? _]%replicate_at)].
Qed.

Lemma initial_marks frames c :
  0 < frames → frames ≤ U32_MAX → Clock.try_with_frame_count frames = Done c → marks [] (replicate (N.to_nat frames) None) c.
Proof.
  intros Hpos Hmax Hc. unfold Clock.try_with_frame_count in Hc. rewrite (proj2 (N.ltb_lt _ _)) in Hc by done. mred in Hc.
  destruct (DirtyFrames.try_new_empty frames Hpos Hmax) as (d & Hd & Hsh & Hfr & Hm). rewrite Hd in Hc. mred in Hc. injection Hc as <-.
  assert (DirtyFrames.quiet d) as Hq by (by apply DirtyFrames.empty_quiet).
  assert (vlen (replicate (N.to_nat frames) (@None N)) = frames) as Hl by (unfold vlen; rewrite length_replicate; lia).
  split; simpl; rewrite ?Hl; try done; try (unfold vlen; rewrite length_replicate; lia).
  - intros f m [-> Hf]%replicate_at. split; [|right; lia]. split; [done|]. intros _. apply lookup_replicate. split; [done|lia].
  - intros f m [-> Hf]%replicate_at. lia.
Qed.

Lemma initial_sound s : initial s → sound s.
Proof.
  destruct s as [l c]. intros (cap & readers & reads & mode & frames & granule & Hcap & Hrd & Hpos & Hmax & Hl & Hc). simpl in *.
  pose proof (initial_storage cap frames) as Hst. pose proof (initial_marks frames c Hpos Hmax Hc) as Hm.
  unfold try_with_geometry in Hl. inv_done. set (np := match mode with ReadaheadAutomatic => if 0 <? cap then readers else 0 | ReadaheadDisabled => 0 end) in *.
  assert (np ≤ U32_MAX) as Hnp by (subst np; destruct mode; [|lia]; case_match; lia).
  assert (vlen (replicate (N.to_nat np) new) = np) as Hlen by (unfold vlen; rewrite length_replicate; lia).
  assert (∀ p, p ∈ replicate (N.to_nat np) new → p = new) as Hnew by (intros p Hp; by apply elem_of_replicate in Hp as [-> _]).
  exists (λ _, []), [], [], [], []. split; simpl; rewrite ?Hlen; try done.
  - split; try done; [unfold vlen; rewrite length_replicate; lia| |intros; constructor| |by intros ? ? ?%elem_of_nil].
    + intros r Hr. apply lookup_replicate. split; [done|lia].
    + by intros i e [? _]%replicate_at.
  - intros i pg f r inc Hi. unfold cores in Hi. rewrite fmap_replicate in Hi. by apply replicate_at in Hi as [? _].
  - apply try_new_rep.
  - apply try_new_rep.
  - apply try_new_rep.
  - by intros i ?%elem_of_nil.
  - intros r p [-> _]%replicate_at. unfold turn. split; [by intros ?%elem_of_nil|]. by intros [w Hw].
  - intros p ->%Hnew. split; [apply new_inv|done].
  - split; simpl; try done.
    + intros i Hi Hlt. rewrite length_replicate in Hlt. by apply lookup_replicate.
    + unfold vlen. lia.
  - by intros fb ?%elem_of_nil.
  - unfold vlen. simpl. lia.
  - intros Hne. assert (np ≠ 0) as Hn0 by (intros Hz; rewrite Hz in Hne; done). rewrite (proj2 (N.eqb_neq np 0)) by done.
    split; [unfold vlen; rewrite length_replicate; lia|]. subst np. destruct mode; [|done]. destruct (N.ltb_spec 0 cap); [done|]. done.
Qed.

Lemma ledger_reachable s0 s : initial s0 → rtc step s0 s → sound s.
Proof.
  intros Hi%initial_sound Hst. induction Hst as [|s1 s2 s3 (k & Hr & He & Hx) _ IH]; [done|].
  apply IH. destruct (call_ok k s1 Hi Hr He) as (s' & Heq & Hs'). rewrite Hx in Heq. by injection Heq as <-.
Qed.

(** ** The reserve *)

(** The top of the free stack moves to the reserve, up to the credits left. *)
Lemma fill_loop n : ∀ reserve free,
  Frames.stack_wf reserve → Frames.stack_wf free → Frames.ff_len reserve + N.of_nat n ≤ vlen (Frames.ff_frames reserve) →
  ∃ r reserve' free', for_nat fill_reserve_body n (reserve, free) = Done r ∧ result r = (reserve', free') ∧
    Frames.stack_wf reserve' ∧ Frames.stack_wf free' ∧
    Frames.stack reserve' = rev (take n (Frames.stack free)) ++ Frames.stack reserve ∧ Frames.stack free' = drop n (Frames.stack free) ∧
    vlen (Frames.ff_frames reserve') = vlen (Frames.ff_frames reserve) ∧ vlen (Frames.ff_frames free') = vlen (Frames.ff_frames free).
Proof.
  induction n as [|n IH]; intros rs fr Hr Hf Hlen; [by eexists _, rs, fr|]. cbn [for_nat]. unfold fill_reserve_body at 2. mred.
  destruct (Frames.pop_ok fr Hf) as (fr1 & Hf1 & Hcf & Hpop). destruct (Frames.stack fr) as [|f rest] eqn:Hst.
  - destruct Hpop as [-> ->]. mred. simpl. rewrite <- Hst. by eexists _, rs, fr.
  - destruct Hpop as [-> Hrest]. mred. destruct (Frames.push_ok rs f Hr) as (rs1 & Hp & Hr1 & Hst1 & Hcap1); [lia|]. rewrite Hp. mred. simpl.
    assert (Frames.ff_len rs1 = Frames.ff_len rs + 1) as Hl1 by (unfold Frames.push in Hp; inv_done; done).
    destruct (IH rs1 fr1 Hr1 Hf1) as (r & rs' & fr' & -> & Hres & Hr' & Hf' & Hs1 & Hs2 & Hs3 & Hs4); [rewrite Hl1, Hcap1; lia|].
    exists r, rs', fr'. rewrite Hs1, Hs2, Hst1, Hrest, Hs3, Hs4. split_and!; try done. simpl. by rewrite <- app_assoc.
Qed.

Lemma fill_reserve_ok x pend l c L C W R fl free :
  linv x pend l c L C W R fl → Frames.stack_wf (reserve l) → vlen (Frames.ff_frames (reserve l)) = capacity l → Frames.stack_wf free → active l = true →
  let n := N.to_nat (capacity l - occupied (stats l) - Frames.ff_len (reserve l)) in
  ∃ r free', fill_reserve l free = Done (set_reserve l r, free') ∧ Frames.stack_wf r ∧ Frames.stack_wf free' ∧
    Frames.stack r = rev (take n (Frames.stack free)) ++ Frames.stack (reserve l) ∧ Frames.stack free' = drop n (Frames.stack free) ∧
    vlen (Frames.ff_frames r) = vlen (Frames.ff_frames (reserve l)) ∧ vlen (Frames.ff_frames free') = vlen (Frames.ff_frames free).
Proof.
  intros Hv Hr Hcap Hf Hact n. unfold fill_reserve. rewrite Hact, (available_ok _ _ _ _ _ _ _ _ _ Hv). mred. rewrite for_range_nat. fold n.
  destruct (fill_loop n (reserve l) free Hr Hf) as (res & r & free' & -> & Hres & H1 & H2 & H3 & H4 & H5 & H6).
  { unfold Frames.stack_wf in Hr. lia. }
  mred. change (match res with Continue x => x | Return x => x end) with (result res). rewrite Hres. by exists r, free'.
Qed.

(** ** Counting *)

Section positions.
Context {A : Type} (p : A → bool).

Fixpoint positions (v : list A) : list N :=
  match v with [] => [] | y :: v => (if p y then [0] else []) ++ (N.succ <$> positions v) end.

Lemma elem_of_positions v i : i ∈ positions v ↔ ∃ y, v !! N.to_nat i = Some y ∧ p y = true.
Proof.
  revert i. induction v as [|y v IH]; intros i; simpl; [split; [by intros ?%elem_of_nil|by intros (? & ? & _)]|].
  rewrite elem_of_app, list_elem_of_fmap. setoid_rewrite IH. destruct (decide (i = 0)) as [->|Hne].
  - simpl. split.
    + intros [Hi|(k & ? & _)]; [|lia]. exists y. destruct (p y); [done|by apply elem_of_nil in Hi].
    + intros (z & [= ->] & Hz). left. rewrite Hz. set_solver.
  - replace (N.to_nat i) with (S (N.to_nat (N.pred i))) by lia. simpl. split.
    + intros [Hi|(k & -> & z & Hz & Hp)]; [destruct (p y); set_solver|]. exists z. by replace (N.pred (N.succ k)) with k by lia.
    + intros (z & Hz & Hp). right. exists (N.pred i). split; [lia|]. by exists z.
Qed.

Lemma positions_nodup v : NoDup (positions v).
Proof.
  induction v as [|y v IH]; simpl; [constructor|]. apply NoDup_app. split_and!.
  - destruct (p y); [apply NoDup_singleton|constructor].
  - intros i Hi (k & -> & _)%list_elem_of_fmap. destruct (p y); [apply list_elem_of_singleton in Hi; lia|by apply elem_of_nil in Hi].
  - apply NoDup_fmap_2_strong; [intros; lia|done].
Qed.

Lemma positions_length v : length (positions v) = countb p v.
Proof.
  unfold countb. induction v as [|y v IH]; [done|]. simpl. rewrite length_app, length_fmap, IH. by destruct (p y).
Qed.

Lemma countb_positions v K : NoDup K → (∀ i, i ∈ K ↔ ∃ y, v !! N.to_nat i = Some y ∧ p y = true) → countb p v = length K.
Proof.
  intros Hnd HK. rewrite <- positions_length. apply Permutation_length, NoDup_Permutation; [apply positions_nodup|done|].
  intros i. by rewrite elem_of_positions, HK.
Qed.

Lemma countb_split v : (countb p v + countb (λ y, negb (p y)) v = length v)%nat.
Proof. unfold countb. induction v as [|y v IH]; [done|]. simpl. destruct (p y); simpl; lia. Qed.
End positions.

Definition held (o : option Entry) : bool := match o with Some _ => true | None => false end.

Lemma entries_counted x pend l c L C W R fl :
  linv x pend l c L C W R fl → N.of_nat (countb held (entries l)) = occupied (stats l).
Proof.
  intros Hv. destruct (v_storage _ _ _ _ _ _ _ _ _ Hv) as [H1 H2 H3 H4 H5 H6]. pose proof (countb_split held (entries l)) as Hs.
  rewrite (countb_positions (λ y, negb (held y)) (entries l) _ H4) in Hs.
  - rewrite length_take in Hs. unfold vlen, cores in *. rewrite length_fmap in H1. lia.
  - intros i. rewrite H5, cores_none. split; [intros Hi; by exists None|]. intros (y & Hy & Hn). by destruct y.
Qed.

Lemma markers_counted x pend l c L C W R fl :
  linv x pend l c L C W R fl → countb (λ m, negb (m =? 0)) (Clock.speculation c) = countb held (entries l).
Proof.
  intros Hv. pose proof (v_marks _ _ _ _ _ _ _ _ _ Hv) as Hm. rewrite <- (positions_length held).
  set (fr := λ i : N, match entries l !! N.to_nat i with Some (Some e) => e_frame e | _ => 0 end).
  assert (∀ i e, entries l !! N.to_nat i = Some (Some e) → frame_entries l !! N.to_nat (e_frame e) = Some (Some i)) as Hidx.
  { intros i e He. apply (st_index _ _ _ _ _ _ (v_storage _ _ _ _ _ _ _ _ _ Hv)). eexists _, _. apply cores_lookup. eauto. }
  rewrite <- (length_fmap fr). apply countb_positions.
  - apply NoDup_fmap_2_strong; [|apply positions_nodup]. intros i j Hi Hj Heq.
    apply elem_of_positions in Hi as ([ei|] & Hi & Hhi); [|done]. apply elem_of_positions in Hj as ([ej|] & Hj & Hhj); [|done].
    unfold fr in Heq. rewrite Hi, Hj in Heq. apply Hidx in Hi, Hj. congruence.
  - intros f. rewrite list_elem_of_fmap. split.
    + intros (i & -> & Hi). apply elem_of_positions in Hi as ([e|] & Hi & Hhi); [|done]. unfold fr. rewrite Hi. apply Hidx in Hi as Hf.
      destruct (marker_at _ _ _ (e_frame e) Hm) as [m Hmk]; [by eapply vget_lt|]. exists m. split; [done|]. apply negb_true_iff, N.eqb_neq.
      destruct (k_marker _ _ _ Hm _ m Hmk) as [Hz _]. intros ->. rewrite (proj2 Hz eq_refl) in Hf. done.
    + intros (m & Hmk & Hnz). reflect_bools. destruct (k_marker _ _ _ Hm f m Hmk) as [Hz _].
      destruct (vget_ok (frame_entries l) f) as (o & _ & Ho); [rewrite <- (k_spec _ _ _ Hm); by eapply vget_lt|].
      destruct o as [i|]; [|by apply Hz in Ho]. destruct (indexed_entry _ _ _ _ _ _ _ _ _ _ _ Hv Ho) as (e & He & <-).
      exists i. unfold fr. rewrite He. split; [done|]. apply elem_of_positions. by exists (Some e).
Qed.

(** ** Properties *)

(** C27 (no assertion fails): in every state the ledger reaches, under any sequence of the
    pool's calls and the readers' touches, every call whose caller keeps its contract runs
    to its end, as long as the 64-bit counters have room. *)
Theorem ledger_never_panics s0 s k :
  initial s0 → rtc step s0 s → roomy s → enabled k s → ∃ s', exec k s = Done s'.
Proof. intros Hi Hst Hr He. destruct (call_ok k s (ledger_reachable _ _ Hi Hst) Hr He) as (s' & ? & _). by exists s'. Qed.

(** C28 (credits and turns are exact): in every reachable state the occupied credits are the
    entries held and the frames with a speculation marker, within the capacity; every
    admission is accounted once as promoted, evicted, failed or still occupied; the frame
    index names exactly the entries; and the ready queue is empty only if no pattern has a
    window to issue, its front being one that has. *)
Theorem ledger_accounts s0 s :
  initial s0 → rtc step s0 s →
  let l := ledger s in
  conserved (stats l) = true ∧ occupied (stats l) ≤ capacity l ∧
  N.of_nat (countb held (entries l)) = occupied (stats l) ∧
  N.of_nat (countb (λ m, negb (m =? 0)) (Clock.speculation (clock s))) = occupied (stats l) ∧
  (∀ f i, frame_entries l !! N.to_nat f = Some (Some i) ↔ ∃ e, entries l !! N.to_nat i = Some (Some e) ∧ e_frame e = f) ∧
  match front (ready l) with
  | Some r => ∃ p w, patterns l !! N.to_nat r = Some p ∧ window p r (automatic_width l) = Done (Some w)
  | None => ∀ r p, patterns l !! N.to_nat r = Some p → window p r (automatic_width l) = Done None
  end.
Proof.
  intros Hi Hst l. destruct (ledger_reachable _ _ Hi Hst) as (L & C & W & R & fl & Hv). fold l in Hv.
  pose proof (entries_counted _ _ _ _ _ _ _ _ _ Hv) as Hc. pose proof (v_room _ _ _ _ _ _ _ _ _ Hv) as Hroom. split_and!.
  - apply (v_stats _ _ _ _ _ _ _ _ _ Hv).
  - lia.
  - done.
  - by rewrite (markers_counted _ _ _ _ _ _ _ _ _ Hv).
  - intros f i. split; [intros Hf; eapply indexed_entry; done|]. intros (e & He & <-).
    apply (st_index _ _ _ _ _ _ (v_storage _ _ _ _ _ _ _ _ _ Hv)). eexists _, _. apply cores_lookup. eauto.
  - pose proof (v_ready _ _ _ _ _ _ _ _ _ Hv) as Hq. unfold front. rewrite (rep_first _ _ _ Hq). destruct R as [|r R]; simpl.
    + intros r p Hp. pose proof (v_turns _ _ _ _ _ _ _ _ _ Hv r p Hp) as Ht. unfold turn in Ht.
      destruct (v_patterns _ _ _ _ _ _ _ _ _ Hv p) as [Hok _]; [by eapply list_elem_of_lookup_2|].
      destruct (window_ok _ p r (automatic_width l) Hok) as [[w|] Hw]; [|done]. destruct (not_elem_of_nil r). apply Ht. by exists w.
    + destruct (vget_ok (patterns l) r) as (p & _ & Hp); [apply (rep_range _ _ _ Hq); set_solver|].
      pose proof (v_turns _ _ _ _ _ _ _ _ _ Hv r p Hp) as Ht. unfold turn in Ht. destruct (proj1 Ht) as [w Hw]; [set_solver|]. by exists p, w.
Qed.

(** (a reconciliation settles): from every reachable state a reconciliation ends, delivers
    all feedback, returns the credit of every speculative frame a reader has touched and
    leaves every other speculative frame as it was; nothing is admitted by it. *)
Theorem reconcile_settles s0 s :
  initial s0 → rtc step s0 s → roomy s →
  ∃ s', exec Reconcile s = Done s' ∧ feedback_count (ledger s') = 0 ∧ admitted (stats (ledger s')) = admitted (stats (ledger s)) ∧
    ∀ f m, Clock.speculation (clock s) !! N.to_nat f = Some m →
      Clock.speculation (clock s') !! N.to_nat f = Some (if 2 <=? m then 0 else m) ∧
      (frame_entries (ledger s') !! N.to_nat f = Some None ↔ (2 ≤ m ∨ m = 0)).
Proof.
  destruct s as [l c]. intros Hi Hst (Hroom & _). destruct (ledger_reachable _ _ Hi Hst) as (L & C & W & R & fl & Hv). simpl in *.
  destruct (reconcile_ok l c L C W R fl Hv) as (l' & c' & L' & C' & W' & R' & -> & Hv' & Hun & Hcl & Hn & Ha & _); [eapply room_le; [exact Hroom|lia]|].
  mred. eexists. split; [done|]. simpl. split_and!; try done. intros f m Hf.
  assert (Clock.speculation c' !! N.to_nat f = Some (if 2 <=? m then 0 else m)) as Hf'.
  { destruct (N.leb_spec 2 m) as [H2|H2]; [|destruct (Hcl f m Hf) as [?|[? _]]; [done|lia]].
    destruct (Hcl f m Hf) as [Hx|[_ ?]]; [|done]. specialize (Hun f m Hx). lia. }
  split; [done|]. destruct (k_marker _ _ _ (v_marks _ _ _ _ _ _ _ _ _ Hv') f _ Hf') as [-> _]. destruct (N.leb_spec 2 m); lia.
Qed.

End LedgerSafety.

Module LedgerWitness.
Import Pattern.Pattern Ledger.Ledger LedgerSystem.LedgerSystem LedgerSafety.

(** Two credits, one reader, four frames.  The reader touches three granules in a row; the
    fourth is predicted, read into frame 1 and touched in its turn. *)
Definition page (g : N) : PageId := mkPageId (mkFileId 0 0 0) g.

Definition forced {A} (d : A) (o : outcome A) : A := match o with Done a => a | Panic => d end.
Definition blank : Prefetch :=
  mkPrefetch (Frames.try_empty 0) [] [] (mkStats 0 0 0 0 0 0 0 0) 0 0 false 0 0 (IndexQueue.try_new 0) (IndexQueue.try_new 0)
    (IndexQueue.try_new 0) [] [] [] 0 [] [] 0 0 0 0.
Definition no_clock : Clock.Clock :=
  Clock.mkClock [] 0 0 0 [] (DirtyFrames.mkDirtyFrames [] 0 0) (DirtyFrames.mkDirtyFrames [] 0 0).

Definition s0 : state :=
  mkState (forced blank (try_with_geometry 2 1 4 ReadaheadAutomatic 4 4096)) (forced no_clock (Clock.try_with_frame_count 4)).
Definition after (k : call) (s : state) : state := forced s (exec k s).
Definition s1 : state := Eval vm_compute in after (Observe 0 (page 0)) s0.
Definition s2 : state := Eval vm_compute in after (Observe 0 (page 1)) s1.
Definition s3 : state := Eval vm_compute in after (Observe 0 (page 2)) s2.
Definition s4 : state := Eval vm_compute in after (AdmitRun 0 1 [(page 3, 1)]) s3.
Definition s5 : state := Eval vm_compute in after (Touch 1 (Some 0)) s4.

Definition roomyb (s : state) : bool :=
  forallb (λ p, incarnation p + (capacity (ledger s) + 2) <=? U64_MAX) (patterns (ledger s)) &&
  (admitted (stats (ledger s)) + capacity (ledger s) <? U64_MAX) && (stamp (ledger s) <? U64_MAX).

Lemma roomyb_ok s : roomyb s = true → roomy s.
Proof.
  unfold roomyb. intros [[H1 H2]%andb_true_iff H3]%andb_true_iff. reflect_bools. split_and!; try done.
  intros p Hp. rewrite forallb_forall in H1. apply N.leb_le, H1. by apply list_elem_of_In.
Qed.

Lemma one k s s' : roomyb s = true → enabled k s → exec k s = Done s' → step s s'.
Proof. intros Hr He Hx. exists k. split_and!; [by apply roomyb_ok|done|done]. Qed.

Lemma start : initial s0.
Proof. exists 2, 1, 4, ReadaheadAutomatic, 4, 4096. split_and!; try done; vm_compute; reflexivity. Qed.

Lemma streaming : rtc step s0 s3.
Proof.
  eapply rtc_l; [apply (one (Observe 0 (page 0)) s0 s1); [vm_compute; reflexivity|done|vm_compute; reflexivity]|].
  eapply rtc_l; [apply (one (Observe 0 (page 1)) s1 s2); [vm_compute; reflexivity|done|vm_compute; reflexivity]|].
  eapply rtc_l; [apply (one (Observe 0 (page 2)) s2 s3); [vm_compute; reflexivity|done|vm_compute; reflexivity]|].
  apply rtc_refl.
Qed.

Lemma predicted : enabled (AdmitRun 0 1 [(page 3, 1)]) s3.
Proof.
  split_and!; try done; [repeat constructor; set_solver|repeat constructor|].
  eexists. split; [vm_compute; reflexivity|]. split; [done|]. eexists _, _, _. split; [vm_compute; reflexivity|]. split; [done|].
  intros [|k] pg f Hk; [by injection Hk as <- <-|done].
Qed.

Lemma touched : rtc step s0 s5.
Proof.
  etransitivity; [exact streaming|].
  eapply rtc_l; [apply (one (AdmitRun 0 1 [(page 3, 1)]) s3 s4); [vm_compute; reflexivity|exact predicted|vm_compute; reflexivity]|].
  eapply rtc_l; [apply (one (Touch 1 (Some 0)) s4 s5); [vm_compute; reflexivity|split; [done|by intros q [= <-]]|vm_compute; reflexivity]|].
  apply rtc_refl.
Qed.

Lemma ledger_never_panics_witness : ∃ s', exec (AdmitRun 0 1 [(page 3, 1)]) s3 = Done s'.
Proof.
  exact (ledger_never_panics s0 s3 (AdmitRun 0 1 [(page 3, 1)]) start streaming (roomyb_ok s3 ltac:(vm_compute; reflexivity)) predicted).
Defined.

Lemma ledger_accounts_witness : conserved (stats (ledger s5)) = true ∧ occupied (stats (ledger s5)) = 1.
Proof. split; [exact (proj1 (ledger_accounts s0 s5 start touched))|reflexivity]. Defined.

(** The touched prediction gives its credit back. *)
Lemma reconcile_settles_witness :
  ∃ s', exec Reconcile s5 = Done s' ∧ frame_entries (ledger s') !! 1%nat = Some None.
Proof.
  destruct (reconcile_settles s0 s5 start touched (roomyb_ok s5 ltac:(vm_compute; reflexivity))) as (s' & H & _ & _ & Hf).
  exists s'. split; [exact H|]. apply (Hf 1 2); [vm_compute; reflexivity|by left].
Defined.

End LedgerWitness.
