(* ===== verification/LedgerCalm.v ===== *)
(** * What the calls on the prefetch ledger leave alone

    Facts that hold of every call that returns, whatever the state it started from: which
    frames the ledger may hold entries for afterwards, how far the incarnations and the
    counters can have moved, and that the reserve, the capacities and the clock's hand are
    untouched ([calm], [steady]).  With the soundness of [LedgerSafety] they give the
    pool's view of the ledger, [lgood]: sound, with room for a number of further calls. *)
From stdpp Require Import functions prelude list relations.
From Stdlib Require Import NArith Lia.
From S2P Require Import Prelude Ids Frames Notifications Clock Pattern IndexQueue Feedback Ledger LedgerLists LedgerSystem LedgerSafety.

Open Scope N_scope.

Module LedgerCalm.
Import Pattern.Pattern IndexQueue.IndexQueue Feedback.Feedback Ledger.Ledger LedgerLists.LedgerLists LedgerSystem.LedgerSystem LedgerSafety.LedgerSafety.

Record steady (c c' : Clock.Clock) : Prop := {
  y_count : Clock.count c' = Clock.count c;
  y_hand : Clock.hand c' = Clock.hand c;
}.

(** The file a reader's stream is in. *)
Definition stream_file (p : Pattern) : option FileId := pg_file <$> last_page p.

(** The stream ends, stays in its file, or moves to [x]. *)
Definition stays (x : option FileId) (p p' : Pattern) : Prop := stream_file p' = None ∨ stream_file p' = stream_file p ∨ stream_file p' = x.

(** A call after which each incarnation has grown by at most [k] and no stream has moved to
    another file than [x]. *)
Record calm_with {x : option FileId} (k : N) (l l' : Prefetch) : Prop := {
  a_reserve : reserve l' = reserve l;
  a_capacity : capacity l' = capacity l;
  a_width : vector_width l' = vector_width l ∧ automatic_width l' = automatic_width l ∧ request_limit l' = request_limit l;
  a_active : active l' = active l;
  a_stamp : stamp l' = stamp l ∧ replacement_cursor l' = replacement_cursor l;
  a_admitted : admitted (stats l') = admitted (stats l) ∧ submission_refused (stats l') = submission_refused (stats l) ∧
    deferred (stats l') = deferred (stats l);
  a_frames : vlen (frame_entries l') = vlen (frame_entries l);
  a_vacant : ∀ f : nat, frame_entries l !! f = Some None → frame_entries l' !! f = Some None;
  a_readers : vlen (patterns l') = vlen (patterns l);
  a_patterns : ∀ (r : nat) p', patterns l' !! r = Some p' → ∃ p, patterns l !! r = Some p ∧ incarnation p' ≤ incarnation p + k;
  a_streams : ∀ (r : nat) p p', patterns l !! r = Some p → patterns l' !! r = Some p' → stays x p p';
}.
Abbreviation calm := (calm_with (x := None)).

Lemma stays_refl x p : stays x p p.
Proof. right. by left. Qed.

Lemma stays_trans x p1 p2 p3 : stays x p1 p2 → stays x p2 p3 → stays x p1 p3.
Proof. unfold stays. intros [H1|[H1|H1]] [H2|[H2|H2]]; rewrite ?H2, ?H1; auto. Qed.

Lemma stays_any x p p' : stays None p p' → stays x p p'.
Proof. unfold stays. tauto. Qed.

Lemma calm_refl k l : calm k l l.
Proof. constructor; try done; [intros r p Hp; exists p; split; [done|lia]|]. intros r p p' Hp Hp'. simplify_eq. apply stays_refl. Qed.

Lemma calm_trans {x} k1 k2 l1 l2 l3 : calm_with (x := x) k1 l1 l2 → calm_with (x := x) k2 l2 l3 → calm_with (x := x) (k1 + k2) l1 l3.
Proof.
  intros [A1 A2 (A3 & A3' & A3'') A4 [A5 A5'] (A6 & A6' & A6'') A7 A8 A9 A10 A11] [B1 B2 (B3 & B3' & B3'') B4 [B5 B5'] (B6 & B6' & B6'') B7 B8 B9 B10 B11].
  constructor; try congruence; [split_and!; congruence|split; congruence|split_and!; congruence|auto|..].
  - intros r p3 (p2 & H2 & Hle2)%B10. destruct (A10 r p2 H2) as (p1 & H1 & Hle1). exists p1. split; [done|lia].
  - intros r p1 p3 H1 H3. destruct (B10 r p3 H3) as (p2 & H2 & _). eapply stays_trans; [by eapply A11|by eapply B11].
Qed.

Lemma calm_any {x} k l l' : calm k l l' → calm_with (x := x) k l l'.
Proof. intros [A1 A2 A3 A4 A5 A6 A7 A8 A9 A10 A11]. constructor; try done. intros r p p' H H'. eapply stays_any, A11; done. Qed.

Lemma calm_le {x} k k' l l' : calm_with (x := x) k l l' → k ≤ k' → calm_with (x := x) k' l l'.
Proof. intros [A1 A2 A3 A4 A5 A6 A7 A8 A9 A10 A11] Hle. constructor; try done. intros r p' (p & Hp & ?)%A10. exists p. split; [done|lia]. Qed.

Lemma calm_then {x} l1 l2 l3 k : calm_with (x := x) 0 l1 l2 → calm_with (x := x) k l2 l3 → calm_with (x := x) k l1 l3.
Proof. intros H1 H2. by apply (calm_trans 0 k l1 l2 l3). Qed.

(** Only fields [calm] does not look at have changed. *)
Ltac calm_fields :=
  constructor; simpl; try done;
  [let r := fresh in let p := fresh in let Hp := fresh in intros r p Hp; exists p; split; [done|lia]
  |let r := fresh in let p := fresh in let q := fresh in let Hp := fresh in let Hq := fresh in
   intros r p q Hp Hq; simplify_eq; apply stays_refl].

(** ** Loops *)

Lemma for_range_inv {S R} (body : S → outcome (flow S R)) (I : S → Prop) (Q : R → Prop) n s r :
  I s → (∀ s f, I s → body s = Done f → match f with Continue s' => I s' | Return x => Q x end) →
  for_range body n s = Done r → match r with Continue s' => I s' | Return x => Q x end.
Proof.
  intros Hs Hb. rewrite for_range_nat. revert s Hs. induction (N.to_nat n) as [|m IH]; intros s Hs; simpl.
  - by intros [= <-].
  - destruct (body s) as [[s'|x]|] eqn:E; simpl; [|intros [= <-]; by apply (Hb s (Return x))|done].
    apply IH. by apply (Hb s (Continue s')).
Qed.

(** ** Patterns *)

Lemma reset_inc p p' : Pattern.reset p = Done p' → incarnation p' ≤ incarnation p + 1.
Proof. unfold Pattern.reset. intros H. inv_done. apply checked_add_Some in H as [-> _]. simpl. lia. Qed.

Lemma observe_inc p page cap p' : Pattern.observe p page cap = Done p' → incarnation p' ≤ incarnation p + 1.
Proof.
  unfold Pattern.observe, observe_sequential. intros H. inv_done. repeat (case_match; simplify_eq/=; inv_done; try (simpl; lia); eauto using reset_inc).
Qed.

Lemma issued_inc p page p' : Pattern.issued p page = Done p' → incarnation p' ≤ incarnation p + 1.
Proof. unfold Pattern.issued. intros H. repeat (case_match; simplify_eq/=; inv_done; try (simpl; lia); eauto using reset_inc). Qed.

Lemma promoted_inc p page inc cap p' : Pattern.promoted p page inc cap = Done p' → incarnation p' ≤ incarnation p + 1.
Proof. unfold Pattern.promoted. intros H. repeat (case_match; simplify_eq/=; inv_done; try (simpl; lia); eauto using observe_inc). Qed.

Lemma reset_stays x p p' : Pattern.reset p = Done p' → stays x p p'.
Proof. unfold Pattern.reset. intros H. inv_done. by left. Qed.

Lemma observe_stays p page cap p' : Pattern.observe p page cap = Done p' → stays (Some (pg_file page)) p p'.
Proof.
  unfold Pattern.observe, observe_sequential. intros H. inv_done.
  repeat (case_match; simplify_eq/=; inv_done; try (by eapply reset_stays); try apply stays_refl; try (right; by right)).
Qed.

Lemma issued_stays p page p' : Pattern.issued p page = Done p' → stays None p p'.
Proof.
  unfold Pattern.issued. intros H. repeat (case_match; simplify_eq/=; inv_done; try (by eapply reset_stays)).
  right. left. unfold stream_file, last_page. simpl. by case_match; simplify_eq.
Qed.

Lemma promoted_stays p page inc cap p' : Pattern.promoted p page inc cap = Done p' → stays None p p'.
Proof.
  unfold Pattern.promoted. destruct (negb _); [intros [= <-]; apply stays_refl|].
  destruct (Pattern.state p) as [| |d nx w] eqn:Hs; [intros [= <-]; apply stays_refl..|]. intros H. inv_done. reflect_bools.
  assert (stream_file p = Some (pg_file page)) as Hp by (unfold stream_file, last_page; rewrite Hs; simpl; congruence).
  destruct (_ <=? _); [inv_done; apply stays_refl|]. case_bool_decide; [inv_done; right; left; by rewrite Hp|].
  match goal with H : Pattern.observe _ _ _ = Done _ |- _ => destruct (observe_stays _ _ _ _ H) as [Ho|[Ho|Ho]]; [by left|right; by left|right; left; congruence] end.
Qed.

(** ** Steps *)

Lemma change_calm {x} l r p p' ps k :
  patterns l !! N.to_nat r = Some p → ps = <[N.to_nat r := p']> (patterns l) → incarnation p' ≤ incarnation p + k ∧ stays x p p' →
  calm_with (x := x) k l (set_patterns l ps).
Proof.
  intros Hp -> [Hi Hst]. constructor; simpl; try done; [by rewrite vlen_insert|..].
  - intros j q [(<- & <- & _)|[_ Hq]]%list_lookup_insert_Some; [by exists p|]. exists q. split; [done|lia].
  - intros j q q' Hq [(<- & <- & _)|[_ Hq']]%list_lookup_insert_Some; simplify_eq; [done|apply stays_refl].
Qed.

Lemma refresh_calm l r l' : refresh_ready l r = Done l' → calm 0 l l'.
Proof. unfold refresh_ready. intros H. inv_done. calm_fields. Qed.

Lemma invalidate_calm l r l' : invalidate_reader l r = Done l' → calm 0 l l'.
Proof.
  unfold invalidate_reader. intros H. inv_done.
  match goal with H : for_range _ _ _ = Done ?x |- _ =>
    eapply (for_range_inv invalidate_body (λ st, calm 0 l st.1) (λ st, calm 0 l st.1)) in H end.
  - destruct x1 as [[? ?]|[? ?]]; inv_done; done.
  - simpl. calm_fields.
  - intros [s nx] f Hc Hb. unfold invalidate_body in Hb. destruct nx as [i|]; inv_done; [|done].
    eapply calm_then; [exact Hc|]. calm_fields.
Qed.

Lemma pattern_changed_calm l r before l' : pattern_changed l r before = Done l' → calm 0 l l'.
Proof.
  unfold pattern_changed. intros H. inv_done. eapply calm_then; [|by eapply refresh_calm].
  destruct (negb _); [by eapply invalidate_calm|inv_done; apply calm_refl].
Qed.

Lemma change_pattern_calm {x} l r f l' k :
  (∀ p p', f p = Done p' → incarnation p' ≤ incarnation p + k ∧ stays x p p') → change_pattern l r f = Done l' → calm_with (x := x) k l l'.
Proof.
  intros Hf H. unfold change_pattern in H. inv_done. replace k with (k + 0) by lia.
  eapply calm_trans; [|by eapply calm_any, pattern_changed_calm]. by eapply change_calm; eauto.
Qed.

Lemma reset_reader_calm l r l' : reset_reader l r = Done l' → calm 1 l l'.
Proof.
  unfold reset_reader. destruct (_ <? _); [|intros; inv_done; apply calm_refl]. apply change_pattern_calm. intros p p' H. split; [by apply reset_inc|by apply reset_stays].
Qed.

(** The frame index changes only where entries come and go. *)
Lemma refresh_frames l r l' : refresh_ready l r = Done l' → frame_entries l' = frame_entries l.
Proof. unfold refresh_ready. intros H. by inv_done. Qed.

Lemma invalidate_frames l r l' : invalidate_reader l r = Done l' → frame_entries l' = frame_entries l.
Proof.
  unfold invalidate_reader. intros H. inv_done.
  match goal with H : for_range _ _ _ = Done ?x |- _ =>
    eapply (for_range_inv invalidate_body (λ st, frame_entries st.1 = frame_entries l) (λ st, frame_entries st.1 = frame_entries l)) in H end.
  - destruct x1 as [[? ?]|[? ?]]; inv_done; done.
  - done.
  - intros [s nx] f Hc Hb. unfold invalidate_body in Hb. destruct nx as [i|]; by inv_done.
Qed.

Lemma change_pattern_frames l r f l' : change_pattern l r f = Done l' → frame_entries l' = frame_entries l.
Proof.
  unfold change_pattern, pattern_changed. intros H. inv_done. erewrite refresh_frames by done.
  destruct (negb _); [by erewrite invalidate_frames by done|by inv_done].
Qed.

Lemma reset_reader_frames l r l' : reset_reader l r = Done l' → frame_entries l' = frame_entries l.
Proof. unfold reset_reader. destruct (_ <? _); [apply change_pattern_frames|by intros; inv_done]. Qed.

Lemma unlink_calm l i e l' : finish_index_unlink_reader l i e = Done l' → calm 0 l l'.
Proof.
  unfold finish_index_unlink_reader. intros H. repeat (case_match; simplify_eq/=; inv_done; try apply calm_refl; try calm_fields).
Qed.

Definition is_promoted (t : Terminal) : bool := match t with Promoted _ => true | _ => false end.

Lemma feedback_calm l e t l' :
  finish_index_feedback l e t = Done l' → calm (if is_promoted t then 0 else 1) l l' ∧ frame_entries l' = frame_entries l.
Proof.
  unfold finish_index_feedback. intros H.
  destruct (e_source e) as [|r inc]; [inv_done; split; [apply calm_refl|done]|].
  assert (∀ l', (p ← vget (patterns l) r; if owns p inc then reset_reader l r else Done l) = Done l' → calm 1 l l' ∧ frame_entries l' = frame_entries l) as Hreset.
  { clear. intros l' H. inv_done. destruct (owns _ _); [|inv_done; split; [apply calm_refl|done]]. split; [by eapply reset_reader_calm|]. by eapply reset_reader_frames. }
  destruct t as [[c|]| |]; try by apply Hreset; simpl.
  - destruct (c =? r); inv_done; [|split; [apply calm_refl|done]]. split; [calm_fields|done].
  - inv_done. split; [apply calm_refl|done].
Qed.

Lemma take_steady c f c' o : Clock.take_speculation c f = Done (c', o) → steady c c'.
Proof. unfold Clock.take_speculation. intros H. inv_done. done. Qed.

Lemma finish_index_calm l c i t l' c' :
  finish_index l c i t = Done (l', c') →
  ∃ e, entries l !! N.to_nat i = Some (Some e) ∧ calm (if is_promoted t then 0 else 1) l l' ∧ steady c c' ∧
    frame_entries l' !! N.to_nat (e_frame e) = Some None.
Proof.
  unfold finish_index. intros H.
  apply outcome_bind_Done in H as (o & Ho & H). apply outcome_bind_Done in H as (e & He & H). apply outcome_bind_Done in H as (es & Hes & H).
  apply outcome_bind_Done in H as (l1 & Hl1 & H). apply outcome_bind_Done in H as (q1 & Hq1 & H). apply outcome_bind_Done in H as (q2 & Hq2 & H).
  apply outcome_bind_Done in H as (fo & Hfo & H). apply outcome_bind_Done in H as (fs & Hfs & H). apply outcome_bind_Done in H as (u & Hu & H).
  apply outcome_bind_Done in H as (v & Hv & H). apply outcome_bind_Done in H as (vc & Hvc & H). apply outcome_bind_Done in H as ([c1 out] & Hc1 & H).
  apply outcome_bind_Done in H as (u' & _ & H). apply outcome_bind_Done in H as (st & Hst & H). apply outcome_bind_Done in H as (st2 & Hst2 & H).
  apply outcome_bind_Done in H as (l2 & Hl2 & H). apply outcome_bind_Done in H as (u'' & _ & H). injection H as <- <-.
  inv_done. exists e. pose proof (take_steady _ _ _ _ Hc1) as Hc.
  assert (calm 0 l l1) as Hm1 by (eapply calm_then; [|by eapply unlink_calm]; calm_fields).
  destruct (feedback_calm _ _ _ _ Hl2) as [Hm2 Hfe]. split_and!; try done.
  - apply (calm_trans 0 _ l l1); [done|]. assert (is_promoted (settle out t) = true ∨ settle out t = t) as Hp by (destruct out; auto).
    apply calm_le with (if is_promoted (settle out t) then 0 else 1).
    2: { destruct Hp as [-> | ->]; [destruct (is_promoted t); lia|lia]. }
    eapply calm_then; [|exact Hm2]. assert (admitted st2 = admitted (stats l1) ∧ submission_refused st2 = submission_refused (stats l1) ∧ deferred st2 = deferred (stats l1)) as Hadm.
    { unfold count_terminal in Hst2. unfold return_credit in Hst. inv_done. destruct (settle out t); by inv_done. }
    constructor; simpl; try done; [by rewrite vlen_insert|..].
    + intros f Hf. destruct (decide (f = N.to_nat (e_frame e))) as [->|Hne]; [|by rewrite list_lookup_insert_ne].
      apply list_lookup_insert_eq. by eapply lookup_lt_Some.
    + intros r p Hp'. exists p. split; [done|lia].
    + intros r p p' Hp' Hq'. simplify_eq. apply stays_refl.
  - rewrite Hfe. simpl. apply list_lookup_insert_eq. by eapply lookup_lt_Some.
Qed.

Lemma is_speculative_steady c f (t : Prefetch) l' c' : (b ← Clock.is_speculative c f; assertb (negb b);; Done (t, c)) = Done (l', c') → l' = t ∧ c' = c.
Proof. intros H. by inv_done. Qed.

Lemma finish_calm l c f t l' c' :
  Ledger.finish l c f t = Done (l', c') →
  calm (if is_promoted t then 0 else 1) l l' ∧ steady c c' ∧
  (frame_entries l' !! N.to_nat f = Some None ∨ ∃ i e, frame_entries l !! N.to_nat f = Some (Some i) ∧ entries l !! N.to_nat i = Some (Some e) ∧
     frame_entries l' !! N.to_nat (e_frame e) = Some None).
Proof.
  unfold Ledger.finish. intros H. apply outcome_bind_Done in H as (o & Ho & H). apply vget_Done in Ho. destruct o as [i|].
  - destruct (finish_index_calm _ _ _ _ _ _ H) as (e & He & Hc & Hs & Hn). split_and!; try done. right. eauto.
  - apply is_speculative_steady in H as [-> ->]. split_and!; [apply calm_refl|done|by left].
Qed.

(** ** Reconciliation *)

Lemma flush_one_calm l i l' : flush_one l i = Done l' → calm 1 l l'.
Proof.
  unfold flush_one. intros H. inv_done. eapply calm_then; [|eapply change_pattern_calm; [|done]]; [calm_fields|].
  intros p p' H'. split; [eapply promoted_inc; exact H'|eapply promoted_stays; exact H'].
Qed.

Lemma flush_each_calm is_ : ∀ l l', flush_each l is_ = Done l' → calm (vlen is_) l l'.
Proof.
  induction is_ as [|i is_ IH]; intros l l' H; simpl in H; inv_done; [apply calm_refl|].
  apply calm_le with (1 + vlen is_); [|unfold vlen; simpl; lia]. eapply calm_trans; [by eapply flush_one_calm|by apply IH].
Qed.

Lemma flush_feedback_calm l l' : flush_feedback l = Done l' → calm (feedback_count l) l l'.
Proof.
  unfold flush_feedback. destruct (feedback_count l =? 0); [intros; inv_done; apply calm_refl|]. intros H.
  apply outcome_bind_Done in H as (l1 & H1 & H). apply outcome_bind_Done in H as (l2 & H2 & H). injection H as <-.
  assert (calm 0 l l1 ∧ feedback_count l1 = feedback_count l) as [Hc Hn].
  { destruct (1 <? feedback_count l); [|inv_done; split; [apply calm_refl|done]]. inv_pairs. split; [calm_fields|done]. }
  apply flush_each_calm in H2. eapply calm_then; [exact Hc|]. apply calm_le with (feedback_count l + 0); [|lia].
  eapply calm_trans; [|calm_fields]. apply calm_le with (vlen (N.of_nat <$> seq 0 (N.to_nat (feedback_count l1)))).
  - exact H2.
  - unfold vlen. rewrite length_fmap, length_seq. lia.
Qed.

Lemma visit_completed_calm fs : ∀ l l', visit_completed l fs = Done l' → calm 0 l l'.
Proof.
  induction fs as [|f fs IH]; intros l l' H; simpl in H; [inv_done; apply calm_refl|].
  apply outcome_bind_Done in H as (o & Ho & H). apply outcome_bind_Done in H as (l1 & H1 & H). eapply calm_then; [|by apply IH].
  destruct o; [|inv_done; apply calm_refl]. inv_done. destruct x1; inv_done; [calm_fields|apply calm_refl].
Qed.

Lemma visit_consumed_calm fs : ∀ l c l' c', visit_consumed l c fs = Done (l', c') → calm 0 l l' ∧ steady c c'.
Proof.
  induction fs as [|f fs IH]; intros l c l' c' H; simpl in H; [inv_done; split; [apply calm_refl|done]|].
  apply outcome_bind_Done in H as (o & Ho & H). apply outcome_bind_Done in H as ([l1 c1] & H1 & H). apply IH in H as [Hc Hs].
  assert (calm 0 l l1 ∧ steady c c1) as [Hc1 [S1 S2]].
  { destruct o as [i|]; [|inv_done; split; [apply calm_refl|done]]. apply outcome_bind_Done in H1 as (b & Hb & H1).
    destruct b; [|inv_done; split; [apply calm_refl|done]]. by destruct (finish_index_calm _ _ _ _ _ _ H1) as (e & _ & ? & ? & _). }
  split; [by eapply calm_then|]. destruct Hs. split; congruence.
Qed.

(** Promotions fill the feedback buffer within its length. *)
Definition bounded (l l' : Prefetch) : Prop :=
  vlen (feedback l') = vlen (feedback l) ∧ (feedback_count l ≤ vlen (feedback l) → feedback_count l' ≤ vlen (feedback l')).

Lemma bounded_trans l1 l2 l3 : bounded l1 l2 → bounded l2 l3 → bounded l1 l3.
Proof. intros [H1 H2] [H3 H4]. split; [congruence|auto]. Qed.

Lemma unlink_bounded l i e l' : finish_index_unlink_reader l i e = Done l' → bounded l l'.
Proof. unfold finish_index_unlink_reader. intros H. repeat (case_match; simplify_eq/=; inv_done; try done). Qed.

Lemma finish_index_bounded l c i t l' c' : finish_index l c i t = Done (l', c') → is_promoted t = true → bounded l l'.
Proof.
  unfold finish_index. intros H Ht.
  apply outcome_bind_Done in H as (o & Ho & H). apply outcome_bind_Done in H as (e & He & H). apply outcome_bind_Done in H as (es & Hes & H).
  apply outcome_bind_Done in H as (l1 & Hl1 & H). apply outcome_bind_Done in H as (q1 & Hq1 & H). apply outcome_bind_Done in H as (q2 & Hq2 & H).
  apply outcome_bind_Done in H as (fo & Hfo & H). apply outcome_bind_Done in H as (fs & Hfs & H). apply outcome_bind_Done in H as (u & Hu & H).
  apply outcome_bind_Done in H as (v & Hv & H). apply outcome_bind_Done in H as (vc & Hvc & H). apply outcome_bind_Done in H as ([c1 out] & Hc1 & H).
  apply outcome_bind_Done in H as (u' & _ & H). apply outcome_bind_Done in H as (st & Hst & H). apply outcome_bind_Done in H as (st2 & Hst2 & H).
  apply outcome_bind_Done in H as (l2 & Hl2 & H). apply outcome_bind_Done in H as (u'' & _ & H). injection H as <- <-.
  apply bounded_trans with l1; [by apply unlink_bounded in Hl1|].
  assert (is_promoted (settle out t) = true) as Hp by by destruct out. unfold finish_index_feedback in Hl2.
  destruct (e_source e) as [|r inc]; [by inv_done|]. destruct (settle out t) as [[cn|]| |]; try done; [|by inv_done].
  destruct (cn =? r); inv_done; [|done]. simpl in *. split; simpl; [by rewrite vlen_insert|]. intros _. rewrite vlen_insert. reflect_bools. lia.
Qed.

Lemma visit_completed_bounded fs : ∀ l l', visit_completed l fs = Done l' → bounded l l'.
Proof.
  induction fs as [|f fs IH]; intros l l' H; simpl in H; [by inv_done|].
  apply outcome_bind_Done in H as (o & Ho & H). apply outcome_bind_Done in H as (l1 & H1 & H). apply bounded_trans with l1; [|by apply IH].
  destruct o; [|by inv_done]. inv_done. destruct x1; by inv_done.
Qed.

Lemma visit_consumed_bounded fs : ∀ l c l' c', visit_consumed l c fs = Done (l', c') → bounded l l'.
Proof.
  induction fs as [|f fs IH]; intros l c l' c' H; simpl in H; [by inv_done|].
  apply outcome_bind_Done in H as (o & Ho & H). apply outcome_bind_Done in H as ([l1 c1] & H1 & H). apply bounded_trans with l1; [|by eapply IH].
  destruct o as [i|]; [|by inv_done]. apply outcome_bind_Done in H1 as (b & Hb & H1). destruct b; [|by inv_done].
  by eapply finish_index_bounded.
Qed.

Lemma rounds_bounded l c n r :
  for_range reconcile_round n (l, c) = Done r → bounded l (match r with Return x => x | Continue x => x end).1.
Proof.
  intros H. apply (for_range_inv reconcile_round (λ st, bounded l st.1) (λ st, bounded l st.1)) in H; [by destruct r as [[? ?]|[? ?]]|done|].
  intros [l1 c1] f Hc Hb. unfold reconcile_round in Hb.
  apply outcome_bind_Done in Hb as ([d fs] & Hd & Hb). apply outcome_bind_Done in Hb as ([l2 c2] & H2 & Hb).
  apply visit_consumed_bounded in H2. assert (bounded l l2) by by eapply bounded_trans. destruct (_ =? _); by inv_done.
Qed.

Lemma rounds_calm l c n r :
  for_range reconcile_round n (l, c) = Done r → let '(l', c') := match r with Return x => x | Continue x => x end in calm 0 l l' ∧ steady c c'.
Proof.
  intros H. apply (for_range_inv reconcile_round (λ st, calm 0 l st.1 ∧ steady c st.2) (λ st, calm 0 l st.1 ∧ steady c st.2)) in H.
  - by destruct r as [[? ?]|[? ?]].
  - split; [apply calm_refl|done].
  - intros [l1 c1] f [Hc [S1 S2]] Hb. unfold reconcile_round in Hb.
    apply outcome_bind_Done in Hb as ([d fs] & Hd & Hb). apply outcome_bind_Done in Hb as ([l2 c2] & H2 & Hb).
    apply visit_consumed_calm in H2 as [Hc2 [S3 S4]]. simpl in *.
    assert (calm 0 l l2 ∧ steady c c2) by (split; [by eapply calm_then|split; congruence]). destruct (_ =? _); by inv_done.
Qed.

Lemma reconcile_calm l c l' c' :
  reconcile l c = Done (l', c') → feedback_count l ≤ vlen (feedback l) → calm (vlen (feedback l)) l l' ∧ steady c c'.
Proof.
  unfold reconcile. intros H Hle. apply outcome_bind_Done in H as ([d fs] & Hd & H). apply outcome_bind_Done in H as (l1 & H1 & H).
  apply outcome_bind_Done in H as (r & Hr & H).
  pose proof (rounds_calm _ _ _ _ Hr) as Hrc. pose proof (rounds_bounded _ _ _ _ Hr) as Hrb.
  destruct (match r with Return x => x | Continue x => x end) as [l2 c2]. apply outcome_bind_Done in H as (l3 & H3 & H). injection H as <- <-.
  destruct Hrc as [Hc2 [S1 S2]]. pose proof (visit_completed_calm _ _ _ H1) as Hc1. pose proof (visit_completed_bounded _ _ _ H1) as Hb1. simpl in *.
  apply flush_feedback_calm in H3. destruct (bounded_trans _ _ _ Hb1 Hrb) as [Hv Hcnt]. split; [|done].
  eapply calm_then; [exact Hc1|]. eapply calm_then; [exact Hc2|]. eapply calm_le; [exact H3|]. rewrite <- Hv. by apply Hcnt.
Qed.

Lemma reconcile_feedback_calm l c l' c' :
  reconcile_feedback l c = Done (l', c') → feedback_count l ≤ vlen (feedback l) → calm (vlen (feedback l)) l l' ∧ steady c c'.
Proof. unfold reconcile_feedback. destruct (_ <? _); [apply reconcile_calm|]. intros H _. inv_done. split; [apply calm_refl|done]. Qed.

Lemma observe_calm l c r page l' c' :
  Ledger.observe l c r page = Done (l', c') → feedback_count l ≤ vlen (feedback l) →
  calm_with (x := Some (pg_file page)) (vlen (feedback l) + 1) l l' ∧ steady c c'.
Proof.
  unfold Ledger.observe. intros H Hle. apply outcome_bind_Done in H as ([l1 c1] & H1 & H).
  destruct (reconcile_feedback_calm _ _ _ _ H1 Hle) as [Hc Hs].
  destruct (r <? vlen (patterns l1)); inv_done; [|split; [by eapply calm_any, calm_le; [|apply N.le_add_r]|done]]. split; [|done].
  eapply calm_trans; [by apply calm_any|]. eapply change_pattern_calm; [|done]. intros p p' H'. split; [eapply observe_inc; exact H'|eapply observe_stays; exact H'].
Qed.

Lemma issued_calm l r page l' : Ledger.issued l r page = Done l' → calm 1 l l'.
Proof. apply change_pattern_calm. intros p p' H. split; [eapply issued_inc; exact H|eapply issued_stays; exact H]. Qed.

Lemma advance_turn_calm l r l' : advance_turn l r = Done l' → calm 0 l l'.
Proof. unfold advance_turn. intros H. inv_done. eapply calm_then; [|by eapply refresh_calm]. calm_fields. Qed.

Lemma retry_calm l n l' : retry_cleanup l n = Done l' → calm 0 l l'.
Proof.
  unfold retry_cleanup. destruct (_ =? _); [intros; inv_done; apply calm_refl|]. intros H. inv_done.
  match goal with H : for_range _ _ _ = Done ?x |- _ =>
    eapply (for_range_inv retry_body (λ st, calm 0 l st) (λ st, calm 0 l st)) in H; [by destruct x|calm_fields|] end.
  intros l1 f Hc Hb. unfold retry_body in Hb. inv_pairs.
  destruct o; inv_done; (eapply calm_then; [exact Hc|]; calm_fields).
Qed.

Lemma protect_calm l f l' : protect l f = Done l' → calm 0 l l'.
Proof. unfold protect. intros H. inv_done. destruct x; inv_done; [calm_fields|apply calm_refl]. Qed.

(** ** The pool's view *)

(** The ledger holds an entry for the frame. *)
Definition speculates (l : Prefetch) (f : ReadFrameIdx) : Prop := ∃ i, frame_entries l !! N.to_nat f = Some (Some i).

Lemma calm_speculates {x} k l l' f : calm_with (x := x) k l l' → speculates l' f → speculates l f.
Proof.
  intros Hc [i Hi]. pose proof (lookup_lt_Some _ _ _ Hi) as Hlt. pose proof (a_frames _ _ _ Hc) as Hlen. unfold vlen in Hlen.
  destruct (lookup_lt_is_Some_2 (frame_entries l) (N.to_nat f)) as [[j|] Hj]; [lia|by exists j|].
  apply (a_vacant _ _ _ Hc) in Hj. congruence.
Qed.

(** Sound, over an arena of [frames], with counters for [n] more calls. *)
Record lgood (n frames : N) (l : Prefetch) (c : Clock.Clock) : Prop := {
  g_sound : sound (mkState l c);
  g_room : room (n * (capacity l + 2)) l;
  g_admitted : admitted (stats l) + n * capacity l < U64_MAX;
  g_stamp : stamp l + n ≤ U64_MAX;
  g_counts : submission_refused (stats l) + n ≤ U64_MAX ∧ deferred (stats l) + n ≤ U64_MAX;
  g_frames : vlen (frame_entries l) = frames;
  g_clock : Clock.clock_wf c;
}.

Lemma lgood_roomy n frames l c : lgood (1 + n) frames l c → roomy (mkState l c).
Proof.
  intros [H1 H2 H3 H4 [K1 K2] H5 H6]. split_and!; simpl; [|lia|lia]. intros p Hp. specialize (H2 p Hp). lia.
Qed.

Lemma lgood_le n n' frames l c : lgood n frames l c → n' ≤ n → lgood n' frames l c.
Proof.
  intros [H1 H2 H3 H4 [K1 K2] H5 H6] Hle.
  assert (n' * (capacity l + 2) ≤ n * (capacity l + 2) ∧ n' * capacity l ≤ n * capacity l) as [? ?] by (split; by apply N.mul_le_mono_r).
  constructor; try done; [|lia|lia|split; lia]. intros p Hp. specialize (H2 p Hp). lia.
Qed.

Lemma sound_marks l c : sound (mkState l c) → marks [] (frame_entries l) c.
Proof. intros (L & C & W & R & fl & Hv). apply (v_marks _ _ _ _ _ _ _ _ _ Hv). Qed.

Lemma lgood_count n frames l c : lgood n frames l c → Clock.count c = frames ∧ 0 < frames ∧ vlen (Clock.reference_bits c) = frames.
Proof.
  intros [H1 H2 H3 H4 [K1 K2] H5 H6]. pose proof (k_bits _ _ _ (sound_marks _ _ H1)) as Hb. destruct H6 as [W1 W2 W3 W4]. split_and!; lia.
Qed.

Lemma sound_feedback l c : sound (mkState l c) →
  feedback_count l ≤ vlen (feedback l) ∧ (patterns l ≠ [] → vlen (feedback l) = capacity l).
Proof.
  intros (L & C & W & R & fl & Hv). split; [apply (d_fits _ _ _ _ _ (v_fed _ _ _ _ _ _ _ _ _ Hv))|]. intros Hp.
  by apply (v_automatic _ _ _ _ _ _ _ _ _ Hv).
Qed.

Lemma clock_kept l c l' c' : Clock.clock_wf c → sound (mkState l c) → sound (mkState l' c') → steady c c' →
  vlen (frame_entries l') = vlen (frame_entries l) → Clock.clock_wf c'.
Proof.
  intros [W1 W2 W3 W4] Hs Hs' [Y1 Y2] Hf. pose proof (sound_marks _ _ Hs) as [B1 B2 _ _ _ _]. pose proof (sound_marks _ _ Hs') as [B1' B2' _ _ _ _].
  constructor; rewrite ?Y1, ?Y2; try done; congruence.
Qed.

Lemma lgood_call {x} n frames l c l' c' k :
  lgood (1 + n) frames l c → sound (mkState l' c') → calm_with (x := x) k l l' → steady c c' → (patterns l ≠ [] → k ≤ capacity l + 2) →
  lgood n frames l' c'.
Proof.
  intros [H1 H2 H3 H4 [K1 K2] H5 H6] Hs Hc Hy Hk. pose proof Hc as [A1 A2 A3 A4 [A5 _] (A6 & A6' & A6'') A7 A8 A9 A10 A11].
  constructor; rewrite ?A2, ?A5, ?A6, ?A6', ?A6'', ?A7; try done; [|lia|lia|split; lia|].
  - intros p' Hp'. apply list_elem_of_lookup in Hp' as [r Hr]. destruct (A10 r p' Hr) as (p & Hp & Hle).
    pose proof (H2 p (list_elem_of_lookup_2 _ _ _ Hp)). assert (patterns l ≠ []) as Hne by (intros He; by rewrite He in Hp). specialize (Hk Hne). lia.
  - by eapply clock_kept.
Qed.

Lemma finish_good n frames l c f t :
  lgood (1 + n) frames l c → f < frames →
  ∃ l' c', Ledger.finish l c f t = Done (l', c') ∧ lgood n frames l' c' ∧ calm 1 l l' ∧ ¬ speculates l' f.
Proof.
  intros Hg Hf. destruct (finish_call (mkState l c) f t (g_sound _ _ _ _ Hg) (lgood_roomy _ _ _ _ Hg)) as (s' & Hx & Hs').
  { unfold enabled, of_arena. simpl. by rewrite (g_frames _ _ _ _ Hg). }
  unfold exec in Hx. destruct (Ledger.finish l c f t) as [[l' c']|] eqn:E; [|done]. simpl in Hx. injection Hx as <-.
  destruct (finish_calm _ _ _ _ _ _ E) as (Hc & Hy & Hv). assert (calm 1 l l') as Hc1 by (eapply calm_le; [exact Hc|]; destruct (is_promoted t); lia).
  exists l', c'. split_and!; try done.
  - eapply lgood_call; try done. intros _. lia.
  - intros [j Hj]. destruct Hv as [Hn|(i & e & Hi & He & Hn)]; [congruence|].
    destruct (g_sound _ _ _ _ Hg) as (L & C & W & R & fl & Hlv). simpl in Hlv.
    apply (st_index _ _ _ _ _ _ (v_storage _ _ _ _ _ _ _ _ _ Hlv)) in Hi as (pg & src & Hco).
    unfold cores in Hco. rewrite list_lookup_fmap, He in Hco. simpl in Hco. by simplify_eq/=.
Qed.

Lemma reconcile_good n frames l c :
  lgood (1 + n) frames l c → ∃ l' c', reconcile l c = Done (l', c') ∧ lgood n frames l' c' ∧ calm (vlen (feedback l)) l l'.
Proof.
  intros Hg. destruct (reconcile_call (mkState l c) (g_sound _ _ _ _ Hg) (lgood_roomy _ _ _ _ Hg)) as (s' & Hx & Hs').
  unfold exec in Hx. destruct (reconcile l c) as [[l' c']|] eqn:E; [|done]. simpl in Hx. injection Hx as <-.
  destruct (sound_feedback _ _ (g_sound _ _ _ _ Hg)) as [Hf Hcap]. destruct (reconcile_calm _ _ _ _ E Hf) as [Hc Hy].
  exists l', c'. split_and!; try done. eapply lgood_call; try done. intros Hp. rewrite (Hcap Hp). lia.
Qed.

(** A prediction no reader has touched yet. *)
Definition unused_prediction (c : Clock.Clock) (f : ReadFrameIdx) : Prop := Clock.speculation c !! N.to_nat f = Some 1.

(** After a reconciliation only these are speculative: the credits of the predictions that
    readers have touched are returned. *)
Lemma reconcile_settled n frames l c l' c' f :
  lgood (1 + n) frames l c → reconcile l c = Done (l', c') → speculates l' f → unused_prediction c f.
Proof.
  intros Hg He [i Hi]. destruct (g_sound _ _ _ _ Hg) as (L & C & W & R & fl & Hv). simpl in Hv. destruct (lgood_roomy _ _ _ _ Hg) as [Hroom _].
  destruct (reconcile_ok l c L C W R fl Hv) as (l1 & c1 & L' & C' & W' & R' & He1 & Hv' & Hun & Hcl & _); [eapply room_le; [exact Hroom|simpl; lia]|].
  rewrite He in He1. injection He1 as <- <-. pose proof (v_marks _ _ _ _ _ _ _ _ _ Hv') as Hm'. pose proof (v_marks _ _ _ _ _ _ _ _ _ Hv) as Hm.
  destruct (marker_at _ _ _ f Hm') as [m' Hm1]; [by eapply vget_lt|]. pose proof (Hun f m' Hm1) as Hlt.
  assert (m' = 1) as ->; [destruct (k_marker _ _ _ Hm' f m' Hm1) as [Hz _]; destruct (decide (m' = 0)) as [H0|]; [apply Hz in H0; congruence|lia]|].
  destruct (reconcile_calm _ _ _ _ He (proj1 (sound_feedback _ _ (g_sound _ _ _ _ Hg)))) as [Hc _].
  destruct (marker_at _ _ _ f Hm) as [m Hm0]; [rewrite <- (a_frames _ _ _ Hc); by eapply vget_lt|].
  unfold unused_prediction. destruct (Hcl f m Hm0) as [Hx|[_ Hx]]; rewrite Hm1 in Hx; congruence.
Qed.

Lemma observe_good n frames l c r page :
  lgood (1 + n) frames l c → pg_granule_idx page ≤ U32_MAX →
  ∃ l' c', Ledger.observe l c r page = Done (l', c') ∧ lgood n frames l' c' ∧ calm_with (x := Some (pg_file page)) (vlen (feedback l) + 1) l l'.
Proof.
  intros Hg Hp. destruct (observe_call (mkState l c) r page (g_sound _ _ _ _ Hg) (lgood_roomy _ _ _ _ Hg) Hp) as (s' & Hx & Hs').
  unfold exec in Hx. destruct (Ledger.observe l c r page) as [[l' c']|] eqn:E; [|done]. simpl in Hx. injection Hx as <-.
  destruct (sound_feedback _ _ (g_sound _ _ _ _ Hg)) as [Hf Hcap]. destruct (observe_calm _ _ _ _ _ _ E Hf) as [Hc Hy].
  exists l', c'. split_and!; try done. eapply lgood_call; try done. intros Hne. rewrite (Hcap Hne). lia.
Qed.

Lemma reset_reader_good n frames l c r :
  lgood (1 + n) frames l c → ∃ l', reset_reader l r = Done l' ∧ lgood n frames l' c ∧ calm 1 l l'.
Proof.
  intros Hg. destruct (reset_call (mkState l c) r (g_sound _ _ _ _ Hg) (lgood_roomy _ _ _ _ Hg)) as (s' & Hx & Hs').
  unfold exec in Hx. destruct (reset_reader l r) as [l'|] eqn:E; [|done]. simpl in Hx. injection Hx as <-.
  pose proof (reset_reader_calm _ _ _ E) as Hc. exists l'. split_and!; try done. eapply lgood_call; try done. intros _. lia.
Qed.

(** Readers and the sweep change the clock alone. *)
Lemma lgood_clock n frames l c c' :
  lgood n frames l c → sound (mkState l c') → Clock.clock_wf c' → lgood n frames l c'.
Proof. intros [H1 H2 H3 H4 [K1 K2] H5 H6] Hs Hw. by constructor. Qed.

Lemma touch_good n frames l c f r :
  lgood n frames l c → f < frames → (∀ q, r = Some q → q ≤ U32_MAX) →
  ∃ c' b, Clock.reference_observed c f r = Done (c', b) ∧ lgood n frames l c'.
Proof.
  intros Hg Hf Hr. destruct (touch_call (mkState l c) f r (g_sound _ _ _ _ Hg)) as (s' & Hx & Hs').
  { unfold enabled, of_arena. simpl. by rewrite (g_frames _ _ _ _ Hg). }
  unfold exec in Hx. destruct (Clock.reference_observed c f r) as [[c' b]|] eqn:E; [|done]. simpl in Hx. injection Hx as <-.
  exists c', b. split; [done|]. eapply lgood_clock; [done|done|]. eapply (clock_kept l c l c'); try done; try apply Hg.
  unfold Clock.reference_observed, Clock.consume_speculation in E. inv_done. destruct x0; inv_done; [done|].
  destruct (_ =? 1); inv_done; done.
Qed.

Lemma completed_good n frames l c f :
  lgood n frames l c → f < frames →
  ∃ d, DirtyFrames.notify (Clock.completed c) f = Done d ∧ lgood n frames l (Clock.set_completed c d).
Proof.
  intros Hg Hf. destruct (completed_call (mkState l c) f (g_sound _ _ _ _ Hg)) as (s' & Hx & Hs').
  { unfold enabled, of_arena. simpl. by rewrite (g_frames _ _ _ _ Hg). }
  unfold exec in Hx. destruct (DirtyFrames.notify (Clock.completed c) f) as [d|] eqn:E; [|done]. simpl in Hx. injection Hx as <-.
  exists d. split; [done|]. eapply lgood_clock; [done|done|]. by eapply (clock_kept l c l (Clock.set_completed c d)); try apply Hg.
Qed.

Lemma sweep_good n frames l c :
  lgood n frames l c → ∃ c' v, Clock.evict_victim_shared c = Done (c', v) ∧ v < frames ∧ lgood n frames l c'.
Proof.
  intros Hg. pose proof (g_clock _ _ _ _ Hg) as Hw. destruct (lgood_count _ _ _ _ Hg) as (Hcnt & _ & Hbits).
  destruct (Clock.evict_ok c Hw) as (k & st & v & _ & _ & Ht & He). exists (Clock.set_hand (Clock.set_bits c st.1) st.2), v.
  pose proof Hw as [W1 W2 W3 W4]. destruct (Clock.ticks_wf (Clock.count c) k (Clock.reference_bits c, Clock.hand c) W1 W4) as [T1 T2].
  destruct (Clock.tick_wf _ _ _ _ T1 T2 Ht) as [T3 _]. split_and!; [done| |].
  - unfold Clock.tick in Ht. destruct (Clock.ticks _ k _).2 as [bits hd]. simpl in T2.
    destruct (Clock.bit_at bits hd); simplify_eq; lia.
  - eapply lgood_clock; [exact Hg| |by eapply Clock.evict_wf]. destruct (g_sound _ _ _ _ Hg) as (L & C & W & R & fl & Hv).
    eapply sound_intro, linv_marks; [exact Hv|]. destruct (v_marks _ _ _ _ _ _ _ _ _ Hv) as [M1 M2 M3 M4 M5 M6].
    split; simpl; try done. rewrite T3. simpl in M1. congruence.
Qed.

Lemma speculative_good n frames l c f :
  lgood n frames l c → f < frames → ∃ b, Clock.is_speculative c f = Done b ∧ (b = true ↔ speculates l f).
Proof.
  intros Hg Hf. pose proof (sound_marks _ _ (g_sound _ _ _ _ Hg)) as Hm. rewrite <- (g_frames _ _ _ _ Hg) in Hf.
  destruct (marker_at _ _ _ _ Hm Hf) as [m Hmk]. unfold Clock.is_speculative. rewrite (clock_index_ok _ _ _ _ Hm Hf). mred.
  rewrite (proj2 (vget_Done _ _ _) Hmk). mred. eexists. split; [done|]. destruct (k_marker _ _ _ Hm f m Hmk) as [[H1 H2] _].
  rewrite negb_true_iff, N.eqb_neq. unfold speculates. destruct (vget_ok (frame_entries l) f Hf) as ([i|] & _ & Hi); rewrite Hi.
  - split; [eauto|]. intros _ H0. rewrite (H2 H0) in Hi. congruence.
  - split; [by intros []; apply H1|]. intros [j Hj]. congruence.
Qed.

(** The streams of the ledger are in files that [P] holds of. *)
Definition streams (P : FileId → Prop) (l : Prefetch) : Prop :=
  ∀ (r : nat) p f, patterns l !! r = Some p → stream_file p = Some f → P f.

Lemma calm_streams {x} (P : FileId → Prop) k l l' : calm_with (x := x) k l l' → (∀ f, x = Some f → P f) → streams P l → streams P l'.
Proof.
  intros Hc Hx Hs r p' f Hp' Hf. destruct (a_patterns _ _ _ Hc r p' Hp') as (p & Hp & _).
  destruct (a_streams _ _ _ Hc r p p' Hp Hp') as [H|[H|H]]; [congruence| |]; rewrite Hf in H; [by eapply Hs|by apply Hx].
Qed.

(** What the pool's cache sees of the ledger stays, and no frame becomes speculative; the
    streams stay in their files or move to [x]. *)
Record tame_with {x : option FileId} (l l' : Prefetch) : Prop := {
  t_reserve : reserve l' = reserve l;
  t_capacity : capacity l' = capacity l;
  t_widths : vector_width l' = vector_width l ∧ automatic_width l' = automatic_width l;
  t_speculates : ∀ f, speculates l' f → speculates l f;
  t_streams : ∀ P : FileId → Prop, (∀ f, x = Some f → P f) → streams P l → streams P l';
}.
Abbreviation tame := (tame_with (x := None)).

Lemma calm_tame {x} k l l' : calm_with (x := x) k l l' → tame_with (x := x) l l'.
Proof.
  intros Hc. pose proof Hc as [A1 A2 (A3 & A3' & _) A4 A5 A6 A7 A8 A9 A10 A11]. constructor; try done.
  - intros f. by eapply calm_speculates.
  - intros P. by apply (calm_streams P k).
Qed.
End LedgerCalm.
