(* ===== verification/LedgerTurns.v ===== *)
(** * The ledger under the prediction pass

    What the pool's prefetch passes rely on of [Ledger]: a reconciliation leaves a
    stream's next page where it was or starts a new incarnation ([heirs]), so the window a
    pass has classified stays the stream's own ([on_track]) until it is issued; a run of
    predictions is admitted and issued from any sound ledger with credits for it; obsolete
    entries leave the cleanup queue one at a time; and the counters of refusals and
    deferrals have room. *)
From stdpp Require Import functions prelude list relations.
From Stdlib Require Import NArith Lia.
From S2P Require Import Prelude Ids Frames Notifications Clock Pattern IndexQueue Feedback Ledger LedgerLists LedgerSystem LedgerSafety LedgerCalm.

Open Scope N_scope.

Module LedgerTurns.
Import Pattern.Pattern IndexQueue.IndexQueue Feedback.Feedback Ledger.Ledger LedgerLists.LedgerLists LedgerSystem.LedgerSystem LedgerSafety.LedgerSafety LedgerCalm.

(** ** Patterns and their heirs *)

Definition horizon (d : PageId) (w : N) : N := saturating_add U32_MAX (pg_granule_idx d) w.

(** The stream goes on with the same next page and no shorter a horizon, or it is reset. *)
Definition extends (cap : N) (p p' : Pattern) : Prop :=
  incarnation p ≤ incarnation p' ∧
  (incarnation p' = incarnation p → ∀ d nx w, Pattern.state p = Streaming d nx w → w ≤ cap →
     ∃ d' w', Pattern.state p' = Streaming d' nx w' ∧ pg_file d' = pg_file d ∧ w' ≤ cap ∧ horizon d w ≤ horizon d' w').

Definition heirs (cap : N) (l l' : Prefetch) : Prop :=
  ∀ (r : nat) p', patterns l' !! r = Some p' → ∃ p, patterns l !! r = Some p ∧ extends cap p p'.

Lemma extends_refl cap p : extends cap p p.
Proof. split; [lia|]. intros _ d nx w Hs Hw. by exists d, w. Qed.

Lemma extends_trans cap p1 p2 p3 : extends cap p1 p2 → extends cap p2 p3 → extends cap p1 p3.
Proof.
  intros [H1 K1] [H2 K2]. split; [lia|]. intros He d nx w Hs Hw. destruct (K1 ltac:(lia) d nx w Hs Hw) as (d1 & w1 & Hs1 & Hf1 & Hw1 & Hh1).
  destruct (K2 ltac:(lia) d1 nx w1 Hs1 Hw1) as (d2 & w2 & ? & ? & ? & ?). exists d2, w2. split_and!; [done|congruence|done|lia].
Qed.

Lemma heirs_refl cap l : heirs cap l l.
Proof. intros r p Hp. exists p. split; [done|apply extends_refl]. Qed.

Lemma heirs_same cap l l' : patterns l' = patterns l → heirs cap l l'.
Proof. intros He r p. rewrite He. apply heirs_refl. Qed.

Lemma heirs_trans cap l1 l2 l3 : heirs cap l1 l2 → heirs cap l2 l3 → heirs cap l1 l3.
Proof.
  intros H1 H2 r p3 (p2 & Hp2 & He2)%H2. destruct (H1 r p2 Hp2) as (p1 & Hp1 & He1). exists p1. split; [done|]. by eapply extends_trans.
Qed.

Lemma promoted_extends cap p page inc p' : cap ≤ U32_MAX → Pattern.promoted p page inc cap = Done p' → extends cap p p'.
Proof.
  intros Hcap. unfold Pattern.promoted. destruct (negb _); [intros [= <-]; apply extends_refl|].
  destruct (Pattern.state p) as [| |d nx w] eqn:Hs; [intros [= <-]; apply extends_refl..|]. intros H. inv_done. reflect_bools.
  destruct (N.leb_spec (pg_granule_idx page) (pg_granule_idx d)); [inv_done; apply extends_refl|]. case_bool_decide as Hb.
  - inv_done. split; [simpl; lia|]. intros _ d0 nx0 w0 Hs0 Hw. rewrite Hs in Hs0. injection Hs0 as <- <- <-.
    apply checked_add_Some in Hb as [Hb _]. eexists page, _. split; [done|]. unfold horizon, saturating_add, saturating_mul. split_and!; [done|lia..].
  - match goal with H : Pattern.observe _ _ _ = Done _ |- _ => rename H into Ho end. unfold Pattern.observe, last_page in Ho. rewrite Hs in Ho.
    apply outcome_bind_Done in Ho as (u & _ & Ho). simpl in Ho. rewrite bool_decide_eq_false_2 in Ho by (intros [= ->]; lia).
    destruct (follows d page) eqn:Hf; [unfold follows in Hf; apply andb_true_iff in Hf as [_ Hf]; by reflect_bools|].
    unfold reset in Ho. inv_done. match goal with H : checked_add _ _ _ = Some _ |- _ => apply checked_add_Some in H as [-> _] end.
    split; simpl; [lia|]. intros He. lia.
Qed.

(** ** What calls do to the patterns *)

Lemma refresh_patterns l r l' : refresh_ready l r = Done l' → patterns l' = patterns l.
Proof. unfold refresh_ready. intros H. by inv_done. Qed.

Lemma invalidate_patterns l r l' : invalidate_reader l r = Done l' → patterns l' = patterns l.
Proof.
  unfold invalidate_reader. intros H. inv_done.
  match goal with H : for_range _ _ _ = Done ?x |- _ =>
    eapply (for_range_inv invalidate_body (λ st, patterns st.1 = patterns l) (λ st, patterns st.1 = patterns l)) in H end.
  - destruct x1 as [[? ?]|[? ?]]; inv_done; done.
  - done.
  - intros [s nx] f Hc Hb. unfold invalidate_body in Hb. destruct nx as [i|]; by inv_done.
Qed.

Lemma change_patterns l r f l' :
  change_pattern l r f = Done l' →
  ∃ p p', patterns l !! N.to_nat r = Some p ∧ f p = Done p' ∧ patterns l' = <[N.to_nat r := p']> (patterns l).
Proof.
  unfold change_pattern, pattern_changed. intros H. inv_done. eexists _, _. split; [done|]. split; [done|].
  erewrite refresh_patterns by done. destruct (negb _); [by erewrite invalidate_patterns by done|by inv_done].
Qed.

Lemma unlink_patterns l i e l' : finish_index_unlink_reader l i e = Done l' → patterns l' = patterns l.
Proof. unfold finish_index_unlink_reader. intros H. repeat (case_match; simplify_eq/=; inv_done; try done). Qed.

Lemma finish_index_patterns l c i t l' c' : finish_index l c i t = Done (l', c') → is_promoted t = true → patterns l' = patterns l.
Proof.
  unfold finish_index. intros H Ht.
  apply outcome_bind_Done in H as (o & Ho & H). apply outcome_bind_Done in H as (e & He & H). apply outcome_bind_Done in H as (es & Hes & H).
  apply outcome_bind_Done in H as (l1 & Hl1 & H). apply outcome_bind_Done in H as (q1 & Hq1 & H). apply outcome_bind_Done in H as (q2 & Hq2 & H).
  apply outcome_bind_Done in H as (fo & Hfo & H). apply outcome_bind_Done in H as (fs & Hfs & H). apply outcome_bind_Done in H as (u & Hu & H).
  apply outcome_bind_Done in H as (v & Hv & H). apply outcome_bind_Done in H as (vc & Hvc & H). apply outcome_bind_Done in H as ([c1 out] & Hc1 & H).
  apply outcome_bind_Done in H as (u' & _ & H). apply outcome_bind_Done in H as (st & Hst & H). apply outcome_bind_Done in H as (st2 & Hst2 & H).
  apply outcome_bind_Done in H as (l2 & Hl2 & H). apply outcome_bind_Done in H as (u'' & _ & H). injection H as <- <-.
  apply unlink_patterns in Hl1. simpl in Hl1. rewrite <- Hl1.
  assert (is_promoted (settle out t) = true) as Hp by by destruct out. unfold finish_index_feedback in Hl2.
  destruct (e_source e) as [|r inc]; [by inv_done|]. destruct (settle out t) as [[cn|]| |]; try done; [|by inv_done].
  destruct (cn =? r); by inv_done.
Qed.

Lemma visit_completed_patterns fs : ∀ l l', visit_completed l fs = Done l' → patterns l' = patterns l.
Proof.
  induction fs as [|f fs IH]; intros l l' H; simpl in H; [by inv_done|].
  apply outcome_bind_Done in H as (o & Ho & H). apply outcome_bind_Done in H as (l1 & H1 & H). rewrite (IH _ _ H).
  destruct o; [|by inv_done]. inv_done. destruct x1; by inv_done.
Qed.

Lemma visit_consumed_patterns fs : ∀ l c l' c', visit_consumed l c fs = Done (l', c') → patterns l' = patterns l.
Proof.
  induction fs as [|f fs IH]; intros l c l' c' H; simpl in H; [by inv_done|].
  apply outcome_bind_Done in H as (o & Ho & H). apply outcome_bind_Done in H as ([l1 c1] & H1 & H). rewrite (IH _ _ _ _ H).
  destruct o as [i|]; [|by inv_done]. apply outcome_bind_Done in H1 as (b & Hb & H1). destruct b; [|by inv_done].
  by eapply finish_index_patterns.
Qed.

Lemma flush_each_heirs cap is_ : cap ≤ U32_MAX → ∀ l l', capacity l = cap → flush_each l is_ = Done l' → heirs cap l l'.
Proof.
  intros Hcap. induction is_ as [|i is_ IH]; intros l l' Hc H; simpl in H; [inv_done; apply heirs_refl|].
  apply outcome_bind_Done in H as (l1 & H1 & H). pose proof (flush_one_calm _ _ _ H1) as Hcalm. eapply heirs_trans; [|apply (IH l1); [|done]].
  - unfold flush_one in H1. apply outcome_bind_Done in H1 as (o & _ & H1). apply outcome_bind_Done in H1 as (fb & _ & H1).
    apply outcome_bind_Done in H1 as (f & _ & H1). apply change_patterns in H1 as (p & p' & Hp & Hpr & Hps). simpl in Hp, Hps.
    intros r q. rewrite Hps. intros [(<- & <- & _)|[_ Hq]]%list_lookup_insert_Some; [|exists q; split; [done|apply extends_refl]].
    exists p. split; [done|]. simpl in Hpr. rewrite Hc in Hpr. by eapply promoted_extends.
  - by rewrite (a_capacity _ _ _ Hcalm).
Qed.

Lemma reconcile_heirs l c l' c' : reconcile l c = Done (l', c') → capacity l ≤ U32_MAX → heirs (capacity l) l l'.
Proof.
  unfold reconcile. intros H Hcap. apply outcome_bind_Done in H as ([d fs] & Hd & H). apply outcome_bind_Done in H as (l1 & H1 & H).
  apply outcome_bind_Done in H as (r & Hr & H). pose proof (visit_completed_patterns _ _ _ H1) as Hp1.
  pose proof (a_capacity _ _ _ (visit_completed_calm _ _ _ H1)) as Hc1. pose proof (rounds_calm _ _ _ _ Hr) as Hrc.
  assert (patterns (match r with Return x => x | Continue x => x end).1 = patterns l1) as Hpr.
  { apply (for_range_inv reconcile_round (λ st, patterns st.1 = patterns l1) (λ st, patterns st.1 = patterns l1)) in Hr; [by destruct r as [[? ?]|[? ?]]|done|].
    intros [l2 c2] f Hc Hb. unfold reconcile_round in Hb. apply outcome_bind_Done in Hb as ([d' fs'] & Hd' & Hb).
    apply outcome_bind_Done in Hb as ([l3 c3] & H3 & Hb). apply visit_consumed_patterns in H3. simpl in *.
    destruct (_ =? _); inv_done; simpl; congruence. }
  destruct (match r with Return x => x | Continue x => x end) as [l2 c2]. destruct Hrc as [Hrc _]. simpl in Hpr.
  apply outcome_bind_Done in H as (l3 & H3 & H). injection H as <- <-.
  apply (heirs_trans _ _ l2); [apply heirs_same; congruence|]. unfold flush_feedback in H3. destruct (_ =? 0); [inv_done; apply heirs_refl|].
  apply outcome_bind_Done in H3 as (l4 & H4 & H3). apply outcome_bind_Done in H3 as (l5 & H5 & H3). injection H3 as <-.
  assert (patterns l4 = patterns l2 ∧ capacity l4 = capacity l2) as [Hp4 Hc4].
  { destruct (1 <? _); [|by inv_done]. by inv_pairs. }
  apply (heirs_trans _ _ l4); [by apply heirs_same|]. apply (heirs_trans _ _ l5); [|by apply heirs_same].
  eapply flush_each_heirs; [done| |exact H5]. rewrite Hc4, (a_capacity _ _ _ Hrc). done.
Qed.

(** ** The window of a stream *)

(** The pages from the stream's next one on, within its horizon. *)
Definition on_track (l : Prefetch) (r inc : N) (pages : list PageId) : Prop :=
  pages = [] ∨ ∃ p d nx w, patterns l !! N.to_nat r = Some p ∧ incarnation p = inc ∧ Pattern.state p = Streaming d nx w ∧ w ≤ capacity l ∧
    nx + vlen pages ≤ horizon d w + 1 ∧ ∀ (k : nat) page, pages !! k = Some page → page = mkPageId (pg_file d) (nx + N.of_nat k).

Lemma track_same l l' r inc pages : patterns l' = patterns l → capacity l' = capacity l → on_track l r inc pages → on_track l' r inc pages.
Proof. intros He Hc [->|(p & d & nx & w & H)]; [by left|right]. exists p, d, nx, w. by rewrite He, Hc. Qed.

Lemma track_prefix l r inc run rest : on_track l r inc (run ++ rest) → on_track l r inc run.
Proof.
  intros [[-> _]%app_eq_nil|(p & d & nx & w & Hp & Hi & Hs & Hw & Hh & Hk)]; [by left|right]. exists p, d, nx, w. split_and!; try done.
  - unfold vlen in *. rewrite length_app in Hh. lia.
  - intros k page Hpage. apply Hk. by apply lookup_app_l_Some.
Qed.

Lemma track_heirs l l' r inc pages :
  heirs (capacity l) l l' → capacity l' = capacity l → vlen (patterns l') = vlen (patterns l) → source_obsolete l' (Automatic r inc) = Done false →
  on_track l r inc pages → on_track l' r inc pages.
Proof.
  intros Hh Hc Hlen Ho [->|(p & d & nx & w & Hp & Hi & Hs & Hw & Hb & Hk)]; [by left|right]. unfold source_obsolete in Ho. inv_done.
  match goal with H : negb (owns ?q _) = false |- _ => rename q into p'; apply negb_false_iff in H; unfold owns in H; apply N.eqb_eq in H; rename H into Hinc end.
  match goal with H : patterns l' !! _ = Some p' |- _ => rename H into Hp' end.
  destruct (Hh _ _ Hp') as (p0 & Hp0 & [_ He]). assert (p0 = p) as -> by congruence. destruct (He ltac:(congruence) d nx w Hs Hw) as (d' & w' & Hs' & Hf' & Hw' & Hb').
  exists p', d', nx, w'. rewrite Hc, Hf'. split_and!; try done. lia.
Qed.

Lemma track_issued l l' r inc page pages : Ledger.issued l r page = Done l' → on_track l r inc (page :: pages) → on_track l' r inc pages.
Proof.
  intros H [|(p & d & nx & w & Hp & Hi & Hs & Hw & Hb & Hk)]; [done|]. pose proof (issued_calm _ _ _ _ H) as Hcalm.
  apply change_patterns in H as (p0 & p' & Hp0 & Hiss & Hps). assert (p0 = p) as -> by congruence. unfold Pattern.issued in Hiss. rewrite Hs in Hiss.
  apply outcome_bind_Done in Hiss as (u & _ & Hiss). assert (vlen (page :: pages) = vlen pages + 1) as Hlen by (unfold vlen; simpl; lia). rewrite Hlen in Hb.
  destruct (checked_add U32_MAX nx 1) as [n1|] eqn:Hn.
  - apply checked_add_Some in Hn as [-> _]. injection Hiss as <-. right. eexists _, d, (nx + 1), w.
    rewrite Hps, list_lookup_insert_eq by (by eapply lookup_lt_Some). split; [done|]. simpl. rewrite (a_capacity _ _ _ Hcalm). split_and!; try done; [lia|].
    intros k q Hq. rewrite (Hk (S k) q Hq). f_equal. lia.
  - left. unfold checked_add in Hn. destruct (N.leb_spec (nx + 1) U32_MAX); [done|]. destruct pages; [done|exfalso]. unfold horizon, saturating_add, vlen in Hb. simpl in Hb. lia.
Qed.

Lemma track_issue_run l' r inc rest : ∀ pages l, issue_run l r pages = Done l' → on_track l r inc (pages ++ rest) → on_track l' r inc rest.
Proof.
  intros pages. induction pages as [|page pages IH]; intros l H Ht; simpl in H; [by inv_done|].
  apply outcome_bind_Done in H as (l1 & H1 & H). apply (IH l1); [done|]. by eapply track_issued.
Qed.

(** The page a stream on track asks for. *)
Lemma track_request l r inc page pages :
  on_track l r inc (page :: pages) → ∃ p, patterns l !! N.to_nat r = Some p ∧ request p r = Some (page, Automatic r inc).
Proof.
  intros [|(p & d & nx & w & Hp & Hi & Hs & Hw & Hb & Hk)]; [done|]. exists p. split; [done|]. unfold request. rewrite Hs, Hi.
  pose proof (Hk 0%nat page eq_refl) as ->. rewrite (proj2 (N.ltb_ge _ _)); [by rewrite N.add_0_r|]. unfold horizon, vlen in Hb. simpl in Hb. lia.
Qed.

Lemma track_next l r inc run :
  on_track l r inc run.*1 → run ≠ [] → ∃ p, patterns l !! N.to_nat r = Some p ∧ inc = incarnation p ∧ next_pages p run.
Proof.
  intros [H|(p & d & nx & w & Hp & Hi & Hs & Hw & Hb & Hk)] Hne; [by apply fmap_nil_inv in H|]. exists p. split_and!; try done. exists d, nx, w. split; [done|].
  unfold vlen in *. rewrite length_fmap in Hb. split; [done|]. intros k page f Hf. apply Hk. by rewrite list_lookup_fmap, Hf.
Qed.

Fixpoint window_pages (n : nat) (first : PageId) (index : N) : list PageId :=
  match n with O => [] | S n => mkPageId (pg_file first) (pg_granule_idx first + index) :: window_pages n first (index + 1) end.

Lemma window_lookup n first : ∀ index (k : nat) page,
  window_pages n first index !! k = Some page → page = mkPageId (pg_file first) (pg_granule_idx first + index + N.of_nat k).
Proof.
  induction n as [|n IH]; intros index k page; [done|]. destruct k as [|k]; simpl; [intros [= <-]; f_equal; lia|].
  intros ->%IH. f_equal. lia.
Qed.

Lemma window_length n first : ∀ index, length (window_pages n first index) = n.
Proof. induction n as [|n IH]; intros index; simpl; [done|]. by rewrite IH. Qed.

(** A window of the pattern at the front is on track. *)
Lemma window_track l r p aw page source count :
  patterns l !! N.to_nat r = Some p → pat_ok (capacity l) p → 1 ≤ aw → aw ≤ 32 → window p r aw = Done (Some (page, source, count)) →
  (1 ≤ count ≤ 32) ∧ count ≤ aw ∧ source = Automatic r (incarnation p) ∧ pg_granule_idx page + count ≤ U32_MAX + 1 ∧
  on_track l r (incarnation p) (window_pages (N.to_nat count) page 0).
Proof.
  intros Hp Hok Haw Hmax Hw. pose proof (si_state _ _ Hok) as Hst. simpl in Hst. unfold window, request in Hw. destruct (Pattern.state p) as [| |d nx w] eqn:Hs; [done..|].
  destruct Hst as [Hst Hwd]. destruct (N.ltb_spec (saturating_add U32_MAX (pg_granule_idx d) w) nx) as [|Hle]; [done|]. rewrite sub_ok in Hw by lia. mred in Hw.
  unfold saturating_add in *. rewrite add_ok in Hw by lia. mred in Hw. match type of Hw with context [if ?b then _ else _] => destruct b eqn:Hc; [done|] end. reflect_bools.
  injection Hw as <- <- <-. simpl. split_and!; try lia; [done|]. right. exists p, d, nx, w. split_and!; try done; [lia| |].
  - unfold vlen, horizon, saturating_add. rewrite window_length. lia.
  - intros k q ->%window_lookup. simpl. f_equal. lia.
Qed.

(** ** Calls of the prefetch passes *)

Lemma lgood_calm n frames l c l' c' :
  lgood n frames l c → sound (mkState l' c') → calm 0 l l' → LedgerCalm.steady c c' → lgood n frames l' c'.
Proof.
  intros [H1 H2 H3 H4 [K1 K2] H5 H6] Hs Hc Hy. pose proof Hc as [A1 A2 A3 A4 [A5 _] (A6 & A6' & A6'') A7 A8 A9 A10 A11].
  constructor; rewrite ?A2, ?A5, ?A6, ?A6', ?A6'', ?A7; try done.
  - intros p' [r Hr]%list_elem_of_lookup. destruct (A10 r p' Hr) as (p & Hp & Hle). pose proof (H2 p (list_elem_of_lookup_2 _ _ _ Hp)). lia.
  - by eapply clock_kept.
Qed.

Lemma reconcile_feedback_good n frames l c :
  lgood (1 + n) frames l c →
  ∃ l' c', reconcile_feedback l c = Done (l', c') ∧ lgood n frames l' c' ∧ calm (vlen (feedback l)) l l' ∧ feedback_count l' = 0 ∧ heirs (capacity l) l l'.
Proof.
  intros Hg. unfold reconcile_feedback. destruct (N.ltb_spec 0 (feedback_count l)) as [Hlt|Hz].
  - destruct (reconcile_good _ _ _ _ Hg) as (l' & c' & He & Hg' & Hc). destruct (lgood_roomy _ _ _ _ Hg) as [Hroom _].
    destruct (g_sound _ _ _ _ Hg) as (L & C & W & R & fl & Hv). simpl in *. pose proof (v_small _ _ _ _ _ _ _ _ _ Hv) as [Hcap _].
    destruct (reconcile_ok l c L C W R fl Hv) as (l1 & c1 & _ & _ & _ & _ & He1 & _ & _ & _ & Hn & _); [eapply room_le; [exact Hroom|lia]|].
    rewrite He in He1. injection He1 as <- <-. exists l', c'. split_and!; try done. by eapply reconcile_heirs.
  - exists l, c. split_and!; try done; [eapply lgood_le; [exact Hg|lia]|apply calm_refl|lia|apply heirs_refl].
Qed.

Lemma begin_good n frames l c :
  lgood (1 + n) frames l c → ∃ s, begin_explicit l = Done (set_replacement_cursor (set_stamp l s) 0) ∧ lgood n frames (set_replacement_cursor (set_stamp l s) 0) c.
Proof.
  intros Hg. destruct (begin_call (mkState l c) (g_sound _ _ _ _ Hg) (lgood_roomy _ _ _ _ Hg)) as (s' & Hx & Hs'). simpl in Hx.
  unfold begin_explicit in *. destruct (checked_add U64_MAX (stamp l) 1) as [st|] eqn:E; [|done]. mred in Hx. injection Hx as <-. exists st. split; [done|].
  apply checked_add_Some in E as [-> _]. apply (lgood_le _ n) in Hg as Hg'; [|lia]. destruct Hg' as [H1 H2 H3 H4 H5 H6 H7]. pose proof (g_stamp _ _ _ _ Hg). constructor; simpl; try done. lia.
Qed.

(** Fields the invariant does not look at. *)
Lemma lgood_active n frames l c b : lgood n frames l c → lgood n frames (set_active l b) c.
Proof.
  intros [H1 H2 H3 H4 H5 H6 H7]. constructor; try done. destruct H1 as (L & C & W & R & fl & [V1 V2 V3 V4 V5 V6 V7 V8 V9 V10 V11 V12 V13 V14 V15 V16]).
  exists L, C, W, R, fl. by split.
Qed.

Lemma lgood_cursor n frames l c k : lgood n frames l c → lgood n frames (set_replacement_cursor l k) c.
Proof.
  intros [H1 H2 H3 H4 H5 H6 H7]. constructor; try done. destruct H1 as (L & C & W & R & fl & [V1 V2 V3 V4 V5 V6 V7 V8 V9 V10 V11 V12 V13 V14 V15 V16]).
  exists L, C, W, R, fl. by split.
Qed.

Lemma lgood_counts n frames l c k d j :
  lgood (k + n) frames l c → d ≤ k → j ≤ k →
  let s := stats l in
  lgood n frames (set_stats l (mkStats (admitted s) (automatic_admitted s) (demand_promoted s) (evicted_unused s) (failed s)
    (deferred s + d) (submission_refused s + j) (occupied s))) c.
Proof.
  intros Hg Hd Hj s. pose proof (g_counts _ _ _ _ Hg) as [K1 K2]. apply (lgood_le _ n) in Hg as [H1 H2 H3 H4 H5 H6 H7]; [|lia]. constructor; simpl; try done; [|split; subst s; lia].
  destruct H1 as (L & C & W & R & fl & [V1 V2 V3 V4 V5 V6 V7 V8 V9 V10 V11 V12 V13 V14 V15 V16]). exists L, C, W, R, fl. by split.
Qed.

Lemma protect_good n frames l c f :
  lgood n frames l c → f < frames → ∃ l', protect l f = Done l' ∧ lgood n frames l' c ∧ calm 0 l l'.
Proof.
  intros Hg Hf. destruct (protect_call (mkState l c) f (g_sound _ _ _ _ Hg)) as (s' & Hx & Hs').
  { unfold enabled, of_arena. simpl. by rewrite (g_frames _ _ _ _ Hg). }
  simpl in Hx. destruct (protect l f) as [l'|] eqn:E; [|done]. mred in Hx. injection Hx as <-. exists l'. pose proof (protect_calm _ _ _ E).
  split_and!; try done. by eapply lgood_calm.
Qed.

Lemma retry_good n frames l c k :
  lgood n frames l c → ∃ l', retry_cleanup l k = Done l' ∧ lgood n frames l' c ∧ calm 0 l l'.
Proof.
  intros Hg. destruct (retry_call (mkState l c) k (g_sound _ _ _ _ Hg)) as (s' & Hx & Hs').
  simpl in Hx. destruct (retry_cleanup l k) as [l'|] eqn:E; [|done]. mred in Hx. injection Hx as <-. exists l'. pose proof (retry_calm _ _ _ E).
  split_and!; try done. by eapply lgood_calm.
Qed.

Lemma advance_good n frames l c r :
  lgood n frames l c → r < vlen (patterns l) → ∃ l', advance_turn l r = Done l' ∧ lgood n frames l' c ∧ calm 0 l l'.
Proof.
  intros Hg Hr. destruct (advance_call (mkState l c) r (g_sound _ _ _ _ Hg) Hr) as (s' & Hx & Hs').
  simpl in Hx. destruct (advance_turn l r) as [l'|] eqn:E; [|done]. mred in Hx. injection Hx as <-. exists l'. pose proof (advance_turn_calm _ _ _ E).
  split_and!; try done. by eapply lgood_calm.
Qed.

Lemma issue_good n frames l c r page pages inc :
  lgood (1 + n) frames l c → on_track l r inc (page :: pages) → ∃ l', Ledger.issued l r page = Done l' ∧ lgood n frames l' c ∧ calm 1 l l'.
Proof.
  intros Hg Ht. destruct (track_request _ _ _ _ _ Ht) as (p & Hp & Hreq).
  destruct (issue_call (mkState l c) r page (g_sound _ _ _ _ Hg) (lgood_roomy _ _ _ _ Hg)) as (s' & Hx & Hs'); [by eexists _, _|].
  simpl in Hx. destruct (Ledger.issued l r page) as [l'|] eqn:E; [|done]. mred in Hx. injection Hx as <-. exists l'. pose proof (issued_calm _ _ _ _ E).
  split_and!; try done. eapply lgood_call; [done..|]. intros _. lia.
Qed.

(** The next obsolete entry, which is dropped, evicted or told to wait. *)
Lemma pop_cleanup_good n frames l c :
  lgood n frames l c →
  ∃ q o, IndexQueue.pop (cleanup l) = Done (q, o) ∧ lgood n frames (set_cleanup l q) c ∧ calm 0 l (set_cleanup l q) ∧
    ∀ i, o = Some i → ∃ e, entries l !! N.to_nat i = Some (Some e) ∧ obsolete (set_cleanup l q) e = Done true ∧ e_frame e < frames ∧
      ∃ l', wait_cleanup (set_cleanup l q) i = Done l' ∧ lgood n frames l' c ∧ calm 0 l l'.
Proof.
  intros Hg. destruct (g_sound _ _ _ _ Hg) as (L & C & W & R & fl & Hv). simpl in Hv.
  pose proof (v_cleanup _ _ _ _ _ _ _ _ _ Hv) as Hc. pose proof (v_waiting _ _ _ _ _ _ _ _ _ Hv) as Hw.
  destruct (pop_rep _ _ _ Hc) as (qc & Hpop & Hqc). exists qc, (head C). split; [done|]. assert (calm 0 l (set_cleanup l qc)) as Hcalm by calm_fields.
  assert (linv rest idle (set_cleanup l qc) c L (list.tail C) W R fl) as Hv1.
  { pose proof (linv_queues _ _ _ _ _ _ _ _ _ _ _ Hv Hqc Hw) as Hx. destruct l. apply Hx. intros i [Hi|Hi]; [left|by right]. by destruct C; [|right]. }
  assert (lgood n frames (set_cleanup l qc) c) as Hg1 by (eapply lgood_calm; [exact Hg|by eapply sound_intro|done|done]). split_and!; try done.
  intros i Hi. destruct C as [|i' C]; [done|]. simpl in Hi. injection Hi as ->.
  destruct (v_queued _ _ _ _ _ _ _ _ _ Hv i) as (pg & f & r & inc & p & Hco & Hp & Hlt); [set_solver|].
  apply cores_lookup in Hco as (e & He & Heq). exists e. split; [done|]. split_and!.
  - unfold obsolete, source_obsolete. injection Heq as _ _ <-. simpl. rewrite (proj2 (vget_Done _ _ _) Hp). mred. unfold owns. by rewrite (proj2 (N.eqb_neq _ _)) by lia.
  - rewrite <- (g_frames _ _ _ _ Hg). assert (frame_entries l !! N.to_nat (e_frame e) = Some (Some i)) as Hf.
    { apply (st_index _ _ _ _ _ _ (v_storage _ _ _ _ _ _ _ _ _ Hv)). eexists _, _. apply cores_lookup. eauto. }
    by eapply vget_lt.
  - unfold wait_cleanup. simpl. destruct (push_rep _ _ _ i Hw) as (qw & -> & Hqw); [eapply queue_range; [exact Hc|set_solver]|]. mred.
    eexists. split; [done|]. assert (calm 0 l (set_waiting (set_cleanup l qc) qw)) as Hcw by calm_fields. split; [|done].
    eapply lgood_calm; [exact Hg| |done|done]. eapply sound_intro. apply (linv_queues _ _ _ _ _ _ _ _ _ _ _ Hv Hqc Hqw). intros j. case_decide; set_solver.
Qed.

(** ** Runs of predictions *)

(** The frames [fs] have become speculative; what else the pool sees stays. *)
Record entered (fs : list ReadFrameIdx) (l l' : Prefetch) (c c' : Clock.Clock) : Prop := {
  n_reserve : reserve l' = reserve l;
  n_capacity : capacity l' = capacity l;
  n_widths : vector_width l' = vector_width l ∧ automatic_width l' = automatic_width l;
  n_active : active l' = active l ∧ stamp l' = stamp l ∧ replacement_cursor l' = replacement_cursor l;
  n_counts : submission_refused (stats l') = submission_refused (stats l) ∧ deferred (stats l') = deferred (stats l);
  n_admitted : admitted (stats l') = admitted (stats l) + vlen fs;
  n_frames : vlen (frame_entries l') = vlen (frame_entries l);
  n_patterns : patterns l' = patterns l;
  n_speculates : ∀ f, speculates l' f → speculates l f ∨ f ∈ fs;
  n_clock : LedgerCalm.steady c c';
}.

Lemma admit_membership_entered l i s l' m : admit_membership l i s = Done (l', m) →
  reserve l' = reserve l ∧ capacity l' = capacity l ∧ (vector_width l' = vector_width l ∧ automatic_width l' = automatic_width l) ∧
  (active l' = active l ∧ stamp l' = stamp l ∧ replacement_cursor l' = replacement_cursor l) ∧ stats l' = stats l ∧
  frame_entries l' = frame_entries l ∧ patterns l' = patterns l.
Proof. unfold admit_membership. intros H. destruct s; by inv_done. Qed.

Lemma admit_entry_entered l c page f s l' c' : admit_entry l c page f s = Done (l', c') → entered [f] l l' c c'.
Proof.
  unfold admit_entry. intros H.
  apply outcome_bind_Done in H as (? & _ & H). apply outcome_bind_Done in H as (room & _ & H). apply outcome_bind_Done in H as (? & _ & H).
  apply outcome_bind_Done in H as (vc & _ & H). apply outcome_bind_Done in H as (i & _ & H). apply outcome_bind_Done in H as (o & _ & H).
  apply outcome_bind_Done in H as (? & _ & H). apply outcome_bind_Done in H as (fo & Hfo & H). apply outcome_bind_Done in H as (fs & Hfs & H).
  apply outcome_bind_Done in H as (? & Hn & H). apply outcome_bind_Done in H as ([l1 m] & Hm & H). apply outcome_bind_Done in H as (es & _ & H).
  apply outcome_bind_Done in H as (c1 & Hc1 & H). apply outcome_bind_Done in H as (st & Hst & H). apply outcome_bind_Done in H as (? & _ & H). injection H as <- <-.
  apply admit_membership_entered in Hm as (M1 & M2 & M3 & M4 & M5 & M6 & M7). simpl in *. rewrite M5 in Hst.
  assert (admitted st = admitted (stats l) + 1 ∧ submission_refused st = submission_refused (stats l) ∧ deferred st = deferred (stats l)) as (S1 & S2 & S3).
  { unfold count_admission in Hst. inv_done. done. }
  apply vset_Done in Hfs as [-> Hlt]. constructor; simpl; try done; [by rewrite M6, vlen_insert| |].
  - intros g [j Hj]. simpl in Hj. rewrite M6 in Hj. simpl in Hj. destruct (decide (g = f)) as [->|Hne]; [right; set_solver|left].
    exists j. by rewrite list_lookup_insert_ne in Hj by lia.
  - unfold Clock.begin_speculation in Hc1. by inv_done.
Qed.

Lemma entered_trans fs gs l1 l2 l3 c1 c2 c3 : entered fs l1 l2 c1 c2 → entered gs l2 l3 c2 c3 → entered (fs ++ gs) l1 l3 c1 c3.
Proof.
  intros [A1 A2 [A3 A3'] (A4 & A4' & A4'') [A5 A5'] A6 A7 A8 A9 [A10 A10']] [B1 B2 [B3 B3'] (B4 & B4' & B4'') [B5 B5'] B6 B7 B8 B9 [B10 B10']].
  constructor; try congruence; [split; congruence|split_and!; congruence|split; congruence| | |split; congruence].
  - rewrite B6, A6. unfold vlen. rewrite length_app. lia.
  - intros f [[?|?]%A9|?]%B9; [by left|right; set_solver|right; set_solver].
Qed.

Lemma entered_refl l c : entered [] l l c c.
Proof. constructor; try done; [unfold vlen; simpl; lia|by left]. Qed.

Lemma admit_run_entered s run : ∀ l c l' c', admit_run l c s run = Done (l', c') → entered run.*2 l l' c c'.
Proof.
  induction run as [|[page f] run IH]; intros l c l' c' H; simpl in H; [inv_done; apply entered_refl|].
  apply outcome_bind_Done in H as ([l1 c1] & H1 & H). change (((page, f) :: run).*2) with ([f] ++ run.*2).
  eapply entered_trans; [by eapply admit_entry_entered|by apply IH].
Qed.

Lemma issue_run_calm r pages : ∀ l l', issue_run l r pages = Done l' → calm (vlen pages) l l'.
Proof.
  induction pages as [|page pages IH]; intros l l' H; simpl in H; [inv_done; apply calm_refl|].
  apply outcome_bind_Done in H as (l1 & H1 & H). apply calm_le with (1 + vlen pages); [|unfold vlen; simpl; lia].
  eapply calm_trans; [by eapply issued_calm|by apply IH].
Qed.

(** What is left of the room after a run. *)
Lemma entered_good n frames fs l l' l'' c c' k :
  lgood (1 + n) frames l c → entered fs l l' c c' → calm k l' l'' → sound (mkState l'' c') → vlen fs ≤ capacity l → k ≤ capacity l → lgood n frames l'' c'.
Proof.
  intros [H1 H2 H3 H4 [K1 K2] H5 H6] [A1 A2 A3 (A4 & A4' & A4'') [A5 A5'] A6 A7 A8 A9 A10] [B1 B2 B3 B4 [B5 B5'] (B6 & B6' & B6'') B7 B8 B9 B10 B11] Hs Hf Hk.
  assert (n * capacity l + capacity l = (1 + n) * capacity l) as Hm by lia.
  constructor; rewrite ?B2, ?A2, ?B5, ?A4', ?B6, ?B6', ?B6'', ?A5, ?A5', ?A6, ?B7, ?A7; try done; [|lia|lia|split; lia|].
  - intros p' [r Hr]%list_elem_of_lookup. destruct (B10 r p' Hr) as (p & Hp & Hle). rewrite A8 in Hp. pose proof (H2 p (list_elem_of_lookup_2 _ _ _ Hp)). lia.
  - eapply (clock_kept l c); try done. congruence.
Qed.

Definition free_run (l : Prefetch) (run : list (PageId * ReadFrameIdx)) : Prop :=
  feedback_count l = 0 ∧ occupied (stats l) + vlen run ≤ capacity l ∧ NoDup run.*2 ∧ Forall (vacant_frame l) run.*2.

Lemma run_good n frames l c r inc run :
  lgood (1 + n) frames l c → free_run l run → run ≠ [] → on_track l r inc run.*1 →
  ∃ l1 c1 l2, admit_run l c (Automatic r inc) run = Done (l1, c1) ∧ entered run.*2 l l1 c c1 ∧ issue_run l1 r run.*1 = Done l2 ∧ lgood n frames l2 c1 ∧
    calm (vlen run) l1 l2.
Proof.
  intros Hg (F1 & F2 & F3 & F4) Hne Ht. destruct (track_next _ _ _ _ Ht Hne) as (p & Hp & Hi & Hnp).
  destruct (admit_run_call (mkState l c) r inc run (g_sound _ _ _ _ Hg) (lgood_roomy _ _ _ _ Hg)) as (s' & Hx & Hs').
  { split_and!; try done. by exists p. }
  simpl in Hx. apply outcome_bind_Done in Hx as ([l1 c1] & H1 & Hx). apply outcome_bind_Done in Hx as (l2 & H2 & Hx). injection Hx as <-.
  exists l1, c1, l2. pose proof (admit_run_entered _ _ _ _ _ _ H1) as He. pose proof (issue_run_calm _ _ _ _ H2) as Hc.
  assert (vlen run.*1 = vlen run ∧ vlen run.*2 = vlen run) as [E1 E2] by (unfold vlen; by rewrite !length_fmap). rewrite E1 in Hc.
  split_and!; try done. eapply entered_good; [done..|lia|lia].
Qed.

Lemma admit_explicit_run run : ∀ l c L C W R,
  linv rest idle l c L C W R [] → occupied (stats l) + vlen run ≤ capacity l → admitted (stats l) + vlen run < U64_MAX → NoDup run.*2 → Forall (vacant_frame l) run.*2 →
  ∃ l' c' L', admit_run l c Explicit run = Done (l', c') ∧ linv rest idle l' c' L' C W R [].
Proof.
  induction run as [|[page f] run IH]; intros l c L C W R Hv Hocc Hadm Hnd Hvac; [by exists l, c, L|].
  assert (vlen ((page, f) :: run) = vlen run + 1) as Hlen by (unfold vlen; simpl; lia). rewrite Hlen in *. cbn [admit_run].
  apply NoDup_cons in Hnd as [Hf Hnd]. apply Forall_cons in Hvac as [Hvf Hvac].
  destruct (admit_entry_ok rest idle l c L C W R page f Explicit Hv) as (l1 & c1 & L1 & i & -> & Hv1 & Hps & Hcap & Hfe & Ha & Ho); try done; [lia..|].
  mred. apply (IH l1 c1 L1 C W R); try done; [lia|lia|]. apply Forall_forall. intros g Hin. pose proof (proj1 (Forall_forall _ _) Hvac g Hin) as Hg. unfold vacant_frame in *.
  rewrite Hfe, list_lookup_insert_ne; [done|]. intros Heq. assert (f = g) as -> by lia. done.
Qed.

Lemma explicit_good n frames l c run :
  lgood (1 + n) frames l c → free_run l run → ∃ l' c', admit_run l c Explicit run = Done (l', c') ∧ entered run.*2 l l' c c' ∧ lgood n frames l' c'.
Proof.
  intros Hg (F1 & F2 & F3 & F4). destruct (g_sound _ _ _ _ Hg) as (L & C & W & R & fl & Hv). simpl in Hv. pose proof (no_feedback _ _ _ _ _ _ _ _ Hv F1) as ->.
  pose proof (g_admitted _ _ _ _ Hg) as Ha. destruct (admit_explicit_run run l c L C W R Hv F2) as (l' & c' & L' & H & Hv'); try done; [lia|].
  exists l', c'. pose proof (admit_run_entered _ _ _ _ _ _ H) as He. split_and!; try done. eapply (entered_good n _ run.*2 l l' l' c c' 0); try done.
  - apply calm_refl.
  - by eapply sound_intro.
  - unfold vlen in *. rewrite length_fmap. lia.
  - lia.
Qed.
End LedgerTurns.
