(* ===== verification/FrameCensus.v ===== *)
(** * Where every frame is

    The pool keeps each frame of the arena in exactly one place that its residency state
    names: free frames on a stack, frames in flight under a miss, resident frames in the
    page table, evicted frames in the eviction queue.  [census] says that four lists
    without repetitions hold exactly the frames of the four states; the operations of
    [Frames] move one frame from one list to another.  [arena_ok] carries the geometry and
    the room left in the generations. *)
From stdpp Require Import prelude list.
From Stdlib Require Import NArith Lia.
From S2P Require Import Prelude Ids Frames.

Open Scope N_scope.

Module FrameCensus.
Import Frames.

Definition in_state (f : Frames) (i : ReadFrameIdx) (s : FrameState) : Prop :=
  ∃ w, word_at f i = Some w ∧ word_state w = s.

Definition pick (fr fl re ev : list N) (s : FrameState) : list N :=
  match s with Free => fr | InFlight => fl | Resident => re | Evicting => ev end.

Definition census (f : Frames) (fr fl re ev : list N) : Prop :=
  ∀ s, NoDup (pick fr fl re ev s) ∧ ∀ i, in_state f i s ↔ i ∈ pick fr fl re ev s.

(** Geometry, and generations for [n] more publications of each frame. *)
Record arena_ok (n F g a : N) (f : Frames) : Prop := {
  ao_shape : frames_shape f;
  ao_count : count f = F;
  ao_granule : granule f = g;
  ao_id : id f = a;
  ao_generation : ∀ i w, word_at f i = Some w → word_generation w + n ≤ FRAME_GENERATION_MAX;
}.

(** The token of a frame. *)
Definition token_of (a : N) (i : ReadFrameIdx) : InFlightFrame := mkInFlightFrame a (i + 1).

Lemma token_frame a i : InFlightFrame_frame (token_of a i) = i.
Proof. unfold InFlightFrame_frame. simpl. lia. Qed.

Lemma in_state_fun f i s s' : in_state f i s → in_state f i s' → s = s'.
Proof. intros (w & Hw & <-) (w' & Hw' & <-). congruence. Qed.

Lemma in_state_lt n F g a f i s : arena_ok n F g a f → in_state f i s → i < F.
Proof. intros Ha (w & Hw & _). rewrite <- (ao_count _ _ _ _ _ Ha). eapply word_at_lt; [apply Ha|done]. Qed.

Lemma arena_le n n' F g a f : arena_ok n F g a f → n' ≤ n → arena_ok n' F g a f.
Proof. intros [H1 H2 H3 H4 H5] Hle. constructor; try done. intros i w Hw. specialize (H5 i w Hw). lia. Qed.

Lemma census_perm f fr fl re ev fr' fl' re' ev' :
  census f fr fl re ev → fr ≡ₚ fr' → fl ≡ₚ fl' → re ≡ₚ re' → ev ≡ₚ ev' → census f fr' fl' re' ev'.
Proof.
  intros Hc H1 H2 H3 H4 s. destruct (Hc s) as [Hn Hi].
  assert (pick fr fl re ev s ≡ₚ pick fr' fl' re' ev' s) as Hp by by destruct s. rewrite <- Hp. split; [done|].
  intros i. by rewrite <- Hp.
Qed.

Lemma census_elem f fr fl re ev i s : census f fr fl re ev → i ∈ pick fr fl re ev s → in_state f i s.
Proof. intros Hc Hi. by apply Hc. Qed.

(** A frame is in one list only. *)
Lemma census_disjoint f fr fl re ev i s s' :
  census f fr fl re ev → i ∈ pick fr fl re ev s → i ∈ pick fr fl re ev s' → s = s'.
Proof. intros Hc Hi Hi'. eapply in_state_fun; by apply Hc. Qed.

Lemma census_lt n F g a f fr fl re ev i s :
  arena_ok n F g a f → census f fr fl re ev → i ∈ pick fr fl re ev s → i < F.
Proof. intros Ha Hc Hi. eapply in_state_lt; [done|by apply Hc]. Qed.

(** A list of distinct frames is no longer than the arena. *)
Lemma nodup_bounded (l : list N) F : NoDup l → (∀ i, i ∈ l → i < F) → vlen l ≤ F.
Proof.
  intros Hn Hl. assert (length l ≤ length (N.of_nat <$> seq 0 (N.to_nat F)))%nat as H.
  { apply submseteq_length, NoDup_submseteq; [done|]. intros i Hi. specialize (Hl i Hi).
    apply list_elem_of_fmap. exists (N.to_nat i). split; [lia|]. apply elem_of_seq. lia. }
  rewrite length_fmap, length_seq in H. unfold vlen. lia.
Qed.

Lemma census_bounded n F g a f fr fl re ev s :
  arena_ok n F g a f → census f fr fl re ev → vlen (pick fr fl re ev s) ≤ F.
Proof. intros Ha Hc. apply nodup_bounded; [by apply Hc|]. intros i Hi. by eapply census_lt. Qed.

(** The same words: an identity store keeps the census. *)
Lemma census_words f f' fr fl re ev : (∀ i, word_at f' i = word_at f i) → census f fr fl re ev → census f' fr fl re ev.
Proof.
  intros Hw Hc s. destruct (Hc s) as [Hn Hi]. split; [done|]. intros i. rewrite <- (Hi i). unfold in_state. by rewrite Hw.
Qed.

(** One word changes state: its frame moves from one list to another. *)
Lemma census_move f f' i w s s' fr fl re ev fr' fl' re' ev' :
  let L := pick fr fl re ev in let L' := pick fr' fl' re' ev' in
  census f fr fl re ev → word_stored f f' i w → word_state w = s' → s ≠ s' →
  L s = i :: L' s → L' s' = i :: L s' → (∀ x, x ≠ s → x ≠ s' → L' x = L x) →
  census f' fr' fl' re' ev'.
Proof.
  intros L L' Hc (_ & _ & _ & _ & _ & _ & Hat) Hw Hne Hs Hs' Ho x. fold L in Hc. fold L'.
  assert (in_state f i s) as Hin by (apply Hc; fold L; rewrite Hs; set_solver).
  assert (∀ j, in_state f' j x ↔ (j = i ∧ x = s') ∨ (j ≠ i ∧ in_state f j x)) as Hx.
  { intros j. unfold in_state. rewrite Hat. case_decide as Hj; [subst j|naive_solver]. split.
    - intros (w' & [= <-] & ?). left. split; congruence.
    - intros [[_ ->]|[]]; [|done]. eauto. }
  destruct (Hc x) as [Hn Hi]. fold L in Hn, Hi. destruct (decide (x = s)) as [->|Hxs]; [|destruct (decide (x = s')) as [->|Hxs']].
  - rewrite Hs in Hn, Hi. apply NoDup_cons in Hn as [Hni Hn]. split; [done|]. intros j. rewrite Hx, Hi, elem_of_cons. split.
    + by intros [[_ ?]|[Hj [?|?]]].
    + intros Hj. right. split; [|by right]. by intros ->.
  - assert (i ∉ L s') as Hni by (intros Hi'%Hi; apply Hne; by eapply in_state_fun). rewrite Hs'. split; [by apply NoDup_cons|].
    intros j. rewrite Hx, Hi, elem_of_cons. split; [naive_solver|]. intros [->|Hj]; [by left|]. right. split; [|done]. by intros ->.
  - rewrite Ho by done. split; [done|]. intros j. rewrite Hx, <- Hi. split; [naive_solver|]. intros Hj. right. split; [|done].
    intros ->. apply Hxs. by eapply in_state_fun.
Qed.

Lemma arena_stored n n' F g a f f' i w w0 :
  arena_ok n F g a f → word_stored f f' i w → word_at f i = Some w0 → word_generation w + n' ≤ word_generation w0 + n → n' ≤ n →
  arena_ok n' F g a f'.
Proof.
  intros [H1 H2 H3 H4 H5] Hst H0 Hg Hle. pose proof Hst as (E1 & E2 & E3 & E4 & E5 & E6 & E7). constructor; try congruence.
  - by eapply word_stored_shape.
  - intros j v. rewrite E7. case_decide; [intros [= <-]; specialize (H5 _ _ H0); lia|]. intros Hj. specialize (H5 _ _ Hj). lia.
Qed.

(** The states of the other frames. *)
Definition kept (f f' : Frames) (i : ReadFrameIdx) : Prop := ∀ j s, j ≠ i → in_state f' j s ↔ in_state f j s.

Lemma stored_kept f f' i w : word_stored f f' i w → kept f f' i.
Proof. intros (_ & _ & _ & _ & _ & _ & Hat) j s Hj. unfold in_state. by rewrite Hat, decide_False. Qed.

Section ops.
Context {n F g a : N} {f : Frames} (Ha : arena_ok n F g a f) {fr fl re ev : list N}.

Lemma state_ok i : i < F → ∃ s, state f i = Done s ∧ in_state f i s.
Proof.
  intros Hi. destruct Ha as [[H1 H2 H3] Hc _ _ _]. unfold state, state_word. rewrite checked_index_ok by (rewrite H1; lia). mred.
  destruct (vget_ok (states f) i) as (w & -> & Hw); [lia|]. mred. rewrite from_word_total. eexists. split; [done|]. by exists w.
Qed.

Lemma state_of i s : in_state f i s → state f i = Done s.
Proof.
  intros Hs. destruct (state_ok i) as (s' & -> & Hs'); [by eapply in_state_lt|]. f_equal. by eapply in_state_fun.
Qed.

Lemma exact_page_ok i p s : in_state f i s → s = Resident ∨ s = Evicting → page_at f i = Some (Some p) → exact_page f i = Done p.
Proof.
  intros Hin Hs Hp. pose proof (in_state_lt _ _ _ _ _ _ _ Ha Hin) as Hi. destruct Hin as (w & Hw & Hst).
  destruct Ha as [[H1 H2 H3] Hc _ _ _]. unfold exact_page. rewrite checked_index_ok by (rewrite H1; lia). mred.
  rewrite (proj2 (vget_Done _ _ _) Hw). mred. rewrite from_word_total, Hst. mred.
  assert (bool_decide (s = Resident) || bool_decide (s = Evicting) = true) as -> by by destruct Hs as [->| ->]. mred.
  unfold page_read. by rewrite (proj2 (vget_Done _ _ _) Hp).
Qed.

Lemma claim_ok i page :
  census f (i :: fr) fl re ev →
  ∃ f', claim f i page = Done (f', Some (token_of a i)) ∧ arena_ok n F g a f' ∧ census f' fr (i :: fl) re ev ∧
    kept f f' i ∧ ∀ j, page_at f' j = if decide (j = i) then Some (Some page) else page_at f j.
Proof.
  intros Hc. assert (in_state f i Free) as Hin by (apply Hc; set_solver). pose proof (in_state_lt _ _ _ _ _ _ _ Ha Hin) as Hi.
  destruct Hin as (w & Hw & Hst). pose proof Ha as [Hsh Hcnt Hgr Hid _]. unfold claim, claim_unidentified.
  rewrite (proj2 (claim_load_Done f i (Some w) Hsh)); [|exists w; split; [done|]; by rewrite bool_decide_eq_true_2]. mred.
  destruct (claim_cas_spec f i w Hsh) as [(_ & f1 & Hst1 & ->)|[? _]]; [lia| |done]. mred.
  rewrite Hid. change (mkInFlightFrame a (i + 1)) with (token_of a i). rewrite token_frame.
  pose proof Hst1 as (Hp1 & Hc1 & _ & _ & _ & _ & _). pose proof (fs_pages _ Hsh) as Hpl.
  rewrite vset_ok by (rewrite Hp1; lia). mred. eexists. split; [done|].
  assert (arena_ok n F g a f1) as Ha1 by (eapply arena_stored; [done..| |done]; rewrite pack_generation; lia).
  assert (census f1 fr (i :: fl) re ev) as Hc2.
  { eapply (census_move f f1 i _ Free InFlight); [exact Hc|exact Hst1|apply pack_state|done|done|done|by intros []]. }
  destruct Ha1 as [[A1 A2 A3] A4 A5 A6 A7]. split_and!.
  - constructor; try done. constructor; simpl; try done. by rewrite vlen_insert.
  - by eapply census_words; [|exact Hc2].
  - intros j s Hj. by rewrite <- (stored_kept _ _ _ _ Hst1 j s Hj).
  - intros j. unfold page_at. simpl. rewrite Hp1. case_decide as Hj; [subst j; apply list_lookup_insert_eq; unfold vlen in *; lia|].
    apply list_lookup_insert_ne. lia.
Qed.

Lemma consume_ok i to :
  census f fr (i :: fl) re ev → (to = Resident ∧ 0 < n) ∨ to = Free →
  ∃ f' w w0, consume f (token_of a i) to = Done (f', i) ∧ word_at f i = Some w0 ∧ word_stored f f' i w ∧ word_state w = to ∧
    word_generation w = word_generation w0 + (if decide (to = Resident) then 1 else 0).
Proof.
  intros Hc Hto. assert (in_state f i InFlight) as Hin by (apply Hc; set_solver). pose proof (in_state_lt _ _ _ _ _ _ _ Ha Hin) as Hi.
  destruct Hin as (w0 & Hw0 & Hst0). pose proof Ha as [Hsh Hcnt Hgr Hid Hgen]. unfold consume.
  rewrite (proj2 (owned_index_Done f (token_of a i) i)) by (rewrite token_frame; split_and!; [done|done|lia]). mred.
  rewrite (proj2 (vget_Done _ _ _) Hw0). mred. rewrite from_word_total, Hst0. mred.
  assert (state_advance InFlight to = Done to) as -> by by destruct Hto as [[-> _]| ->]. mred.
  specialize (Hgen i w0 Hw0).
  rewrite (proj2 (advance_generation_Done w0 to (word_generation w0 + (if decide (to = Resident) then 1 else 0)))); [|].
  2: { destruct Hto as [[-> Hn]| ->]; [left; split_and!; [done|done|]; simpl; lia|right; split; [done|simpl; lia]]. }
  mred. rewrite vset_ok by (rewrite (fs_states _ Hsh); lia). mred. rewrite token_frame. eexists _, _, w0. split; [done|].
  split; [done|]. split; [apply set_word_stored; [done|lia]|]. split; [apply pack_state|apply pack_generation].
Qed.

Lemma frame_publish_ok i :
  census f fr (i :: fl) re ev → 0 < n →
  ∃ f', publish f (token_of a i) = Done (f', i) ∧ arena_ok (n - 1) F g a f' ∧ census f' fr fl (i :: re) ev ∧ kept f f' i ∧ pages f' = pages f.
Proof.
  intros Hc Hn. destruct (consume_ok i Resident) as (f' & w & w0 & He & H0 & Hst & Hw & Hg); [done|by left|].
  exists f'. split_and!; [done| | |by eapply stored_kept|apply Hst].
  - eapply arena_stored; [done..| |lia]. rewrite Hg, decide_True by done. lia.
  - by eapply (census_move f f' i _ InFlight Resident); [exact Hc|exact Hst| | | | |intros []].
Qed.

Lemma abort_ok i :
  census f fr (i :: fl) re ev →
  ∃ f', abort f (token_of a i) = Done (f', i) ∧ arena_ok n F g a f' ∧ census f' (i :: fr) fl re ev ∧ kept f f' i ∧ pages f' = pages f.
Proof.
  intros Hc. destruct (consume_ok i Free) as (f' & w & w0 & He & H0 & Hst & Hw & Hg); [done|by right|].
  exists f'. split_and!; [done| | |by eapply stored_kept|apply Hst].
  - eapply arena_stored; [done..| |lia]. rewrite Hg, decide_False by done. lia.
  - by eapply (census_move f f' i _ InFlight Free); [exact Hc|exact Hst| | | | |intros []].
Qed.

Lemma frame_advance_ok i s to :
  in_state f i s → (s = Resident ∧ to = Evicting) ∨ (s = Evicting ∧ to = Free) →
  ∃ f' w, advance f i to = Done f' ∧ word_stored f f' i w ∧ word_state w = to ∧ arena_ok n F g a f' ∧ pages f' = pages f.
Proof.
  intros Hin Hedge. pose proof (in_state_lt _ _ _ _ _ _ _ Ha Hin) as Hi. destruct Hin as (w0 & Hw0 & Hst0).
  pose proof Ha as [Hsh Hcnt Hgr Hid Hgen]. unfold advance. rewrite checked_index_ok by (rewrite (fs_states _ Hsh); lia). mred.
  rewrite (proj2 (vget_Done _ _ _) Hw0). mred. rewrite from_word_total, Hst0. mred.
  assert (match s, to with Resident, Evicting => true | Evicting, Free => true | _, _ => false end = true ∧
    state_advance s to = Done to ∧ to ≠ Resident) as (-> & -> & Hnr) by by destruct Hedge as [[-> ->]|[-> ->]]. mred.
  rewrite (proj2 (advance_generation_Done w0 to (word_generation w0))) by by right. mred.
  rewrite vset_ok by (rewrite (fs_states _ Hsh); lia). mred.
  assert (word_stored f (set_states f (<[N.to_nat i:=pack (word_generation w0) to]> (states f))) i (pack (word_generation w0) to)) as Hst
    by (apply set_word_stored; [done|lia]).
  eexists _, _. split; [done|]. split; [done|]. split_and!; [apply pack_state| |done].
  eapply arena_stored; [done..| |lia]. rewrite pack_generation. lia.
Qed.

Lemma evicting_ok i :
  census f fr fl (i :: re) ev →
  ∃ f', advance f i Evicting = Done f' ∧ arena_ok n F g a f' ∧ census f' fr fl re (i :: ev) ∧ kept f f' i ∧ pages f' = pages f.
Proof.
  intros Hc. destruct (frame_advance_ok i Resident Evicting) as (f' & w & He & Hst & Hw & Ha' & Hp); [apply Hc; set_solver|by left|].
  exists f'. split_and!; [done|done| |by eapply stored_kept|done]. by eapply (census_move f f' i _ Resident Evicting); [exact Hc|exact Hst| | | | |intros []].
Qed.

Lemma freed_ok i :
  census f fr fl re (i :: ev) →
  ∃ f', advance f i Free = Done f' ∧ arena_ok n F g a f' ∧ census f' (i :: fr) fl re ev ∧ kept f f' i ∧ pages f' = pages f.
Proof.
  intros Hc. destruct (frame_advance_ok i Evicting Free) as (f' & w & He & Hst & Hw & Ha' & Hp); [apply Hc; set_solver|by right|].
  exists f'. split_and!; [done|done| |by eapply stored_kept|done]. by eapply (census_move f f' i _ Evicting Free); [exact Hc|exact Hst| | | | |intros []].
Qed.
End ops.
End FrameCensus.
