(* ===== verification/PoolCache.v ===== *)
(** * The frame cache of the pool

    The part of the pool's control state (src/src/pool/mod.rs, src/src/pool/prefetch.rs)
    that concerns frames: the arena, the page table, the clock, the eviction queue, the
    miss table, the free frames with the prefetch reserve, the registry of mapped frames
    and the prefetch ledger.  A [Cache] is what one critical section of the control lock
    works on; the operations are those of the control pass that neither call the driver nor
    touch the files: claiming a frame, evicting one, ending a read, retiring the frames of
    a file and returning a reclaimed frame. *)
From stdpp Require Import prelude gmap list.
From Stdlib Require Import NArith ZArith Lia.
From S2P Require Import Prelude Ids Table Frames Notifications Clock Epoch FileSlots Miss Pattern IndexQueue Ledger.

Open Scope N_scope.

Module PoolCache.
Import Frames.
Abbreviation PageTable := PageTable.PageTable.
Abbreviation EvictQueue := Epoch.EvictQueue.
Abbreviation MissTable := Miss.MissTable.
Abbreviation MissInterests := Miss.MissInterests.
Abbreviation FramePages := FramePages.FramePages.
Abbreviation Prefetch := Ledger.Prefetch.

Record Cache := mkCache {
  frames : Frames;
  table : PageTable;
  clock : Clock.Clock;
  global_epoch : N;
  evict_queue : EvictQueue;
  miss : MissTable;
  miss_interests : MissInterests;
  free_frames : FreeFrames;
  frame_pages : FramePages;
  reads_in_flight : N;
  prefetch : Prefetch;
}.

Definition set_frames (c : Cache) (x : Frames) : Cache :=
  mkCache x (table c) (clock c) (global_epoch c) (evict_queue c) (miss c) (miss_interests c) (free_frames c)
    (frame_pages c) (reads_in_flight c) (prefetch c).
Definition set_table (c : Cache) (x : PageTable) : Cache :=
  mkCache (frames c) x (clock c) (global_epoch c) (evict_queue c) (miss c) (miss_interests c) (free_frames c)
    (frame_pages c) (reads_in_flight c) (prefetch c).
Definition set_clock (c : Cache) (x : Clock.Clock) : Cache :=
  mkCache (frames c) (table c) x (global_epoch c) (evict_queue c) (miss c) (miss_interests c) (free_frames c)
    (frame_pages c) (reads_in_flight c) (prefetch c).
Definition set_epoch (c : Cache) (x : N) : Cache :=
  mkCache (frames c) (table c) (clock c) x (evict_queue c) (miss c) (miss_interests c) (free_frames c)
    (frame_pages c) (reads_in_flight c) (prefetch c).
Definition set_queue (c : Cache) (x : EvictQueue) : Cache :=
  mkCache (frames c) (table c) (clock c) (global_epoch c) x (miss c) (miss_interests c) (free_frames c)
    (frame_pages c) (reads_in_flight c) (prefetch c).
Definition set_miss (c : Cache) (x : MissTable) : Cache :=
  mkCache (frames c) (table c) (clock c) (global_epoch c) (evict_queue c) x (miss_interests c) (free_frames c)
    (frame_pages c) (reads_in_flight c) (prefetch c).
Definition set_interests (c : Cache) (x : MissInterests) : Cache :=
  mkCache (frames c) (table c) (clock c) (global_epoch c) (evict_queue c) (miss c) x (free_frames c)
    (frame_pages c) (reads_in_flight c) (prefetch c).
Definition set_free (c : Cache) (x : FreeFrames) : Cache :=
  mkCache (frames c) (table c) (clock c) (global_epoch c) (evict_queue c) (miss c) (miss_interests c) x
    (frame_pages c) (reads_in_flight c) (prefetch c).
Definition set_frame_pages (c : Cache) (x : FramePages) : Cache :=
  mkCache (frames c) (table c) (clock c) (global_epoch c) (evict_queue c) (miss c) (miss_interests c) (free_frames c)
    x (reads_in_flight c) (prefetch c).
Definition set_reads (c : Cache) (x : N) : Cache :=
  mkCache (frames c) (table c) (clock c) (global_epoch c) (evict_queue c) (miss c) (miss_interests c) (free_frames c)
    (frame_pages c) x (prefetch c).
Definition set_prefetch (c : Cache) (x : Prefetch) : Cache :=
  mkCache (frames c) (table c) (clock c) (global_epoch c) (evict_queue c) (miss c) (miss_interests c) (free_frames c)
    (frame_pages c) (reads_in_flight c) x.

(** The ledger's calls update the ledger and the clock. *)
Definition set_ledger (c : Cache) (x : Prefetch * Clock.Clock) : Cache := set_clock (set_prefetch c x.1) x.2.

(** ** The ledger *)

Definition reconcile (c : Cache) : outcome Cache :=
  x ← Ledger.reconcile (prefetch c) (clock c); Done (set_ledger c x).
Definition reconcile_feedback (c : Cache) : outcome Cache :=
  x ← Ledger.reconcile_feedback (prefetch c) (clock c); Done (set_ledger c x).
Definition observe (c : Cache) (reader : N) (page : PageId) : outcome Cache :=
  x ← Ledger.observe (prefetch c) (clock c) reader page; Done (set_ledger c x).
Definition finish (c : Cache) (frame : ReadFrameIdx) (t : Ledger.Terminal) : outcome Cache :=
  x ← Ledger.finish (prefetch c) (clock c) frame t; Done (set_ledger c x).

Definition prefetch_promote (c : Cache) (frame : ReadFrameIdx) (reader : N) : outcome Cache :=
  finish c frame (Ledger.Promoted (Some reader)).
Definition prefetch_fail (c : Cache) (frame : ReadFrameIdx) : outcome Cache := finish c frame Ledger.Failed.

(** ** Eviction *)

(** The common end of an eviction, after the mapping is gone. *)
Definition begin_eviction (c : Cache) (frame : ReadFrameIdx) : outcome Cache :=
  c ← finish c frame Ledger.Evicted;
  f ← Frames.advance (frames c) frame Evicting;
  q ← Epoch.queue_push (evict_queue c) frame (global_epoch c);
  Done (set_queue (set_frames c f) q).

Definition evict_resident (c : Cache) (frame : ReadFrameIdx) : outcome Cache :=
  page ← Frames.exact_page (frames c) frame;
  '(t, o) ← PageTable.remove_shared (table c) page;
  assertb (bool_decide (o = Some frame));;
  begin_eviction (set_table c t) frame.

Definition prepare_eviction (c : Cache) (frame : ReadFrameIdx) : outcome (Cache * bool) :=
  '(m, b) ← Miss.prepare_eviction (miss c) frame (miss_interests c); Done (set_miss c m, b).

Definition is_resident (c : Cache) (frame : ReadFrameIdx) : outcome bool :=
  s ← Frames.state (frames c) frame; Done (bool_decide (s = Resident)).

Definition evict_clock_body (c : Cache) : outcome (flow Cache Cache) :=
  '(k, victim) ← Clock.evict_victim_shared (clock c);
  let c := set_clock c k in
  resident ← is_resident c victim;
  if negb resident then Done (Continue c)
  else
    '(c, unprotected) ← prepare_eviction c victim;
    if negb unprotected then Done (Continue c)
    else
      speculative ← Clock.is_speculative (clock c) victim;
      if speculative : bool then Done (Continue c)
      else
        o ← FileSlots.get_at (frame_pages c) victim;
        assertb (match o with Some _ => true | None => false end);;
        c ← evict_resident c victim;
        Done (Return c).

Definition evict_clock_victim (frame_count : N) (c : Cache) : outcome (Cache * bool) :=
  r ← for_range evict_clock_body (saturating_mul U32_MAX frame_count 2 + 1) c;
  Done (match r with Return c => (c, true) | Continue c => (c, false) end).

(** The search of [prefetch_evict_unused] from entry [index] on. *)
Fixpoint evict_unused_from (n : nat) (c : Cache) (index : N) : outcome (Cache * bool) :=
  match n with
  | O => Done (c, false)
  | S n =>
      o ← vget (Ledger.entries (prefetch c)) index;
      match o with
      | None => evict_unused_from n c (index + 1)
      | Some e =>
          resident ← is_resident c (Ledger.e_frame e);
          if negb resident then evict_unused_from n c (index + 1)
          else
            '(c, unprotected) ← prepare_eviction c (Ledger.e_frame e);
            if negb unprotected then evict_unused_from n c (index + 1)
            else c ← evict_resident c (Ledger.e_frame e); Done (c, true)
      end
  end.

Definition prefetch_evict_unused (c : Cache) : outcome (Cache * bool) :=
  c ← reconcile c;
  evict_unused_from (length (Ledger.entries (prefetch c))) c 0.

Definition evict_one_victim (frame_count : N) (c : Cache) : outcome Cache :=
  '(c, evicted) ← prefetch_evict_unused c;
  if negb evicted then '(c, _) ← evict_clock_victim frame_count c; Done c else Done c.

(** ** Free frames *)

Definition push_free (c : Cache) (frame : ReadFrameIdx) : outcome Cache :=
  s ← Frames.push (free_frames c) frame; Done (set_free c s).

Definition push_reserve (c : Cache) (frame : ReadFrameIdx) : outcome Cache :=
  s ← Frames.push (Ledger.reserve (prefetch c)) frame; Done (set_prefetch c (Ledger.set_reserve (prefetch c) s)).

Definition pop_free (c : Cache) : outcome (Cache * option ReadFrameIdx) :=
  '(s, o) ← Frames.pop (free_frames c); Done (set_free c s, o).

Definition pop_reserve (c : Cache) : outcome (Cache * option ReadFrameIdx) :=
  '(s, o) ← Frames.pop (Ledger.reserve (prefetch c)); Done (set_prefetch c (Ledger.set_reserve (prefetch c) s), o).

Definition claim_free_frame (c : Cache) : outcome (Cache * option ReadFrameIdx) :=
  '(c, o) ← pop_free c;
  '(c, o) ← match o with Some frame => Done (c, Some frame) | None => pop_reserve c end;
  match o with
  | None => Done (c, None)
  | Some frame =>
      s ← Frames.state (frames c) frame;
      assertb (bool_decide (s = Free));;
      Done (c, Some frame)
  end.

Definition fill_reserve (c : Cache) : outcome Cache :=
  '(l, s) ← Ledger.fill_reserve (prefetch c) (free_frames c); Done (set_free (set_prefetch c l) s).

(** [Frames::claim] of a frame known to be free. *)
Definition claim (c : Cache) (frame : ReadFrameIdx) (page : PageId) : outcome (Cache * InFlightFrame) :=
  '(f, o) ← Frames.claim (frames c) frame page;
  write ← expect o;
  Done (set_frames c f, write).

(** [Frames::abort], and where the frame goes. *)
Definition abort_read (c : Cache) (write : InFlightFrame) (reserve : bool) : outcome Cache :=
  '(f, frame) ← Frames.abort (frames c) write;
  if reserve then push_reserve (set_frames c f) frame else push_free (set_frames c f) frame.

(** The three stores that return a reclaimed frame. *)
Definition reclaim_frame (c : Cache) (frame : ReadFrameIdx) : outcome Cache :=
  f ← Frames.advance (frames c) frame Free;
  c ← push_free (set_frames c f) frame;
  g ← FileSlots.remove (frame_pages c) frame;
  Done (set_frame_pages c g).

(** ** The end of a read *)

Definition release_read_credit (c : Cache) : outcome Cache :=
  n ← expect (checked_sub (reads_in_flight c) 1); Done (set_reads c n).

Definition drain_completions_finish_success (c : Cache) (index : N) (e : Miss.MissEntry) (write : InFlightFrame) :
    outcome Cache :=
  '(f, _) ← Frames.publish (frames c) write;
  t ← PageTable.insert_shared (table c) (Miss.me_page e) (Miss.me_frame e);
  g ← FileSlots.insert (frame_pages c) (Miss.me_frame e) (FramePages.for_page (Miss.me_page e));
  speculative ← Clock.is_speculative (clock c) (Miss.me_frame e);
  k ← (if speculative : bool then
         d ← DirtyFrames.notify (Clock.completed (clock c)) (Miss.me_frame e);
         Done (Clock.set_completed (clock c) d)
       else '(k, _) ← Clock.reference (clock c) (Miss.me_frame e); Done k);
  m ← Miss.succeed (miss c) index;
  m ← Miss.clean_terminal_zero m index (Miss.me_generation e) (miss_interests c);
  Done (set_miss (set_clock (set_frame_pages (set_table (set_frames c f) t) g) k) m).

Definition drain_completions_finish_failure (c : Cache) (index : N) (e : Miss.MissEntry) (write : InFlightFrame)
    (errno : Z) : outcome Cache :=
  c ← prefetch_fail c (Miss.me_frame e);
  c ← abort_read c write false;
  m ← Miss.fail (miss c) index errno;
  m ← Miss.clean_terminal_zero m index (Miss.me_generation e) (miss_interests c);
  Done (set_miss c m).

(** ** Retirement *)

Fixpoint retire_frames (c : Cache) (file : FileId) (l : list (N * FramePages.FrameFileSlot)) : outcome Cache :=
  match l with
  | [] => Done c
  | (frame, _) :: l =>
      resident ← is_resident c frame;
      if negb resident then retire_frames c file l
      else
        page ← Frames.exact_page (frames c) frame;
        if negb (bool_decide (pg_file page = file)) then retire_frames c file l
        else
          '(c, unprotected) ← prepare_eviction c frame;
          if negb unprotected then retire_frames c file l
          else
            '(t, _) ← PageTable.remove_shared (table c) page;
            c ← begin_eviction (set_table c t) frame;
            retire_frames c file l
  end.

(** The loop does not change the registry it walks. *)
Definition retire_file_frames (c : Cache) (file : FileId) : outcome Cache :=
  l ← FileSlots.for_file (frame_pages c) (fid_slot file);
  retire_frames c file l.

Fixpoint any_frame_live (c : Cache) (file : FileId) (l : list (N * FramePages.FrameFileSlot)) : outcome bool :=
  match l with
  | [] => Done false
  | (frame, _) :: l =>
      s ← Frames.state (frames c) frame;
      assertb (bool_decide (s = Resident) || bool_decide (s = Evicting));;
      page ← Frames.exact_page (frames c) frame;
      if bool_decide (pg_file page = file) then Done true else any_frame_live c file l
  end.

Definition frames_live (c : Cache) (file : FileId) : outcome bool :=
  l ← FileSlots.for_file (frame_pages c) (fid_slot file);
  any_frame_live c file l.

Definition miss_live (c : Cache) (file : FileId) : outcome bool :=
  Miss.has_live_for_file (miss c) file (miss_interests c).
End PoolCache.
