(* ===== verification/PoolInv.v ===== *)
(** * The invariant of the frame cache

    [cinv] ties the components of [PoolCache] together: which frames are free, in flight,
    resident and evicting according to the arena is what the free stacks, the pending
    misses, the page table and the eviction queue hold ([census]); mapped frames carry
    their page's identity and are registered under its file; a page with a pending miss is
    not mapped, and a frame a successful miss protects stays mapped; speculative entries
    name frames in flight or resident.  The lemmas show each operation of the cache to keep
    the invariant and to run without a panic. *)
From stdpp Require Import prelude gmap list.
From Stdlib Require Import NArith ZArith Lia.
From S2P Require Import Prelude Ids Table Frames FrameCensus Notifications Clock Epoch FileSlots Miss MissMap Pattern IndexQueue ReadVector Ledger LedgerLists LedgerSystem LedgerSafety LedgerCalm PoolCache.

Open Scope N_scope.

Module PoolInv.
Import Frames FrameCensus MissMap LedgerCalm.LedgerCalm PoolCache.
Abbreviation mread := MissMap.miss.
Abbreviation Pending := Miss.Pending.
Abbreviation Succeeded := Miss.Succeeded.
Abbreviation PendingToken := MissSystem.PendingToken.

(** ** The frames of pending misses *)

Definition pending_frames (V : gmap N mread) : list N := (λ im : N * mread, m_frame im.2) <$> map_to_list (filter is_pending V).

Lemma elem_pending V f : f ∈ pending_frames V ↔ ∃ i m, V !! i = Some m ∧ m_outcome m = Pending ∧ m_frame m = f.
Proof.
  unfold pending_frames. rewrite list_elem_of_fmap. split.
  - intros ([i m] & -> & [Hm Hp]%elem_of_map_to_list%map_lookup_filter_Some). eauto.
  - intros (i & m & Hm & Hp & <-). exists (i, m). split; [done|]. apply elem_of_map_to_list, map_lookup_filter_Some. done.
Qed.

Lemma pending_admit V i m :
  (∀ m0, V !! i = Some m0 → m_outcome m0 ≠ Pending) → m_outcome m = Pending →
  pending_frames (<[i := m]> V) ≡ₚ m_frame m :: pending_frames V.
Proof.
  intros Hno Hp. unfold pending_frames. rewrite map_filter_insert_True by done. rewrite map_to_list_insert; [done|].
  apply map_lookup_filter_None. right. intros m0 Hm0. by apply Hno.
Qed.

Lemma pending_settle V i m m' :
  V !! i = Some m → m_outcome m = Pending → m_outcome m' ≠ Pending →
  pending_frames V ≡ₚ m_frame m :: pending_frames (<[i := m']> V).
Proof.
  intros Hm Hp Hp'. unfold pending_frames. rewrite map_filter_insert_False by done. rewrite map_filter_delete.
  rewrite <- (insert_delete_id (filter is_pending V) i m) at 1 by (by apply map_lookup_filter_Some).
  rewrite map_to_list_insert by apply lookup_delete_eq. done.
Qed.

Lemma pending_keep V i m m' :
  V !! i = Some m → m_outcome m = Pending → m_outcome m' = Pending → m_frame m' = m_frame m →
  pending_frames (<[i := m']> V) ≡ₚ pending_frames V.
Proof.
  intros Hm Hp Hp' Hf. unfold pending_frames. rewrite map_filter_insert_True by done.
  rewrite <- (insert_delete_id (filter is_pending V) i m) at 2 by (by apply map_lookup_filter_Some).
  rewrite <- insert_delete_eq, !map_to_list_insert by apply lookup_delete_eq. simpl. by rewrite Hf.
Qed.

Lemma pending_delete V i : (∀ m, V !! i = Some m → m_outcome m ≠ Pending) → pending_frames (delete i V) ≡ₚ pending_frames V.
Proof.
  intros Hno. unfold pending_frames. rewrite map_filter_delete, delete_id; [done|].
  apply map_lookup_filter_None. right. intros m Hm. by apply Hno.
Qed.

(** The pending misses are the same. *)
Definition same_pending (V V' : gmap N mread) : Prop := ∀ i m, m_outcome m = Pending → V' !! i = Some m ↔ V !! i = Some m.

Lemma same_pending_refl V : same_pending V V.
Proof. done. Qed.

Lemma same_pending_trans V V1 V2 : same_pending V V1 → same_pending V1 V2 → same_pending V V2.
Proof. intros H1 H2 i m Hp. etransitivity; [by apply H2|by apply H1]. Qed.

Lemma same_pending_delete V i : (∀ m, V !! i = Some m → m_outcome m ≠ Pending) → same_pending V (delete i V).
Proof.
  intros Hno j m Hp. rewrite lookup_delete_Some. split; [naive_solver|]. intros Hj. split; [|done]. intros <-. by eapply Hno.
Qed.

Lemma same_pending_frames V V' : same_pending V V' → pending_frames V' = pending_frames V.
Proof.
  intros Hs. unfold pending_frames. do 2 f_equal. apply map_eq. intros i. apply option_eq. intros m. rewrite !map_lookup_filter_Some.
  unfold is_pending. simpl. split; intros [Hm Hp]; (split; [|done]); by apply (Hs i m Hp).
Qed.

(** ** What one pass does to misses and mappings *)

(** Misses end and are forgotten, none begins; a page is only mapped by its own miss. *)
Definition fades (V V' : gmap N mread) : Prop := ∀ i m', V' !! i = Some m' → ∃ m, V !! i = Some m ∧
  m_page m' = m_page m ∧ m_frame m' = m_frame m ∧ m_generation m' = m_generation m ∧
  (m_outcome m' = Pending → m_outcome m = Pending).

Definition gains (V : gmap N mread) (M M' : gmap PageId ReadFrameIdx) : Prop := ∀ p f, M' !! p = Some f →
  M !! p = Some f ∨ ∃ i m, V !! i = Some m ∧ m_outcome m = Pending ∧ m_page m = p.

Definition settles (V : gmap N mread) (M : gmap PageId ReadFrameIdx) (V' : gmap N mread) (M' : gmap PageId ReadFrameIdx) : Prop :=
  fades V V' ∧ gains V M M'.

Lemma fades_refl V : fades V V.
Proof. intros i m Hm. exists m. done. Qed.

Lemma settles_refl V M : settles V M V M.
Proof. split; [apply fades_refl|by left]. Qed.

Lemma fades_trans V V1 V2 : fades V V1 → fades V1 V2 → fades V V2.
Proof.
  intros H1 H2 i m2 Hm2. destruct (H2 i m2 Hm2) as (m1 & Hm1 & ? & ? & ? & Hp2). destruct (H1 i m1 Hm1) as (m & Hm & ? & ? & ? & Hp1).
  exists m. split_and!; try congruence. auto.
Qed.

Lemma settles_trans V M V1 M1 V2 M2 : settles V M V1 M1 → settles V1 M1 V2 M2 → settles V M V2 M2.
Proof.
  intros [F1 G1] [F2 G2]. split; [by eapply fades_trans|]. intros p f [Hf|(i & m & Hm & Hp & <-)]%G2; [by apply G1|].
  right. destruct (F1 i m Hm) as (m0 & Hm0 & Hpg & _ & _ & Hp0). exists i, m0. split_and!; try done. by apply Hp0.
Qed.

Lemma fades_delete V i : fades V (delete i V).
Proof. intros j m [_ Hj]%lookup_delete_Some. exists m. done. Qed.

Lemma settles_fades V M V' : fades V V' → settles V M V' M.
Proof. intros Hf. split; [done|by left]. Qed.

Lemma settles_unmap V M p : settles V M V (delete p M).
Proof. split; [apply fades_refl|]. intros q f [_ Hq]%lookup_delete_Some. by left. Qed.

(** ** Frames under guards *)

(** Each watched frame carries its page, and is resident or waits in the queue under an
    epoch not before the one its reader entered in. *)
Definition watches (W : list (N * PageId * N)) (h : Frames) (q : list (ReadFrameIdx * N)) (epoch : N) : Prop :=
  ∀ f pg e, (f, pg, e) ∈ W → e ≤ epoch ∧ page_at h f = Some (Some pg) ∧
    (in_state h f Resident ∨ ∃ t, (f, t) ∈ q ∧ e ≤ t).

Lemma watches_kept W h h' q epoch i :
  watches W h q epoch → kept h h' i → (∀ j, j ≠ i → page_at h' j = page_at h j) → (∀ pg e, (i, pg, e) ∉ W) → watches W h' q epoch.
Proof.
  intros HW Hk Hp Hi f pg e Hf. assert (f ≠ i) as Hne by (intros ->; by eapply Hi). destruct (HW f pg e Hf) as (? & ? & ?).
  rewrite (Hp f Hne), (Hk f _ Hne). done.
Qed.

(** The widths of the ledger's runs fit one vectored read of frames of [g] bytes. *)
Definition run_widths (g : N) (l : Ledger.Prefetch) : Prop :=
  (1 ≤ Ledger.vector_width l ≤ 32) ∧ (Ledger.vector_width l = 1 ∨ Ledger.vector_width l * g ≤ ReadVector.VECTOR_BYTES_MAX) ∧
  (Ledger.automatic_width l = 1 ∨ Ledger.automatic_width l = Ledger.vector_width l).

Section invariant.
(** Frames of the arena, bytes of a frame, the arena's number, file slots, reads in
    flight; the files of the pool; the frames under guards, each with its page and the epoch of its reader. *)
Context {F g a fcap reads : N} {P : FileId → Prop} {W : list (N * PageId * N)}.

Record cinv (n : N) (M : gmap PageId ReadFrameIdx) (V : gmap N mread) (tks : list PendingToken)
    (G : list (N * FramePages.FrameFileSlot)) (loose flying held : list N) (c : Cache) : Prop := {
  ci_arena : arena_ok n F g a (frames c);
  ci_census : census (frames c) (stack (free_frames c) ++ stack (Ledger.reserve (prefetch c)) ++ loose)
    (pending_frames V ++ flying) (map_to_list M).*2 ((Epoch.entries (evict_queue c)).*1 ++ held);
  ci_free : stack_wf (free_frames c) ∧ vlen (ff_frames (free_frames c)) = F;
  ci_reserve : stack_wf (Ledger.reserve (prefetch c)) ∧ vlen (ff_frames (Ledger.reserve (prefetch c))) = Ledger.capacity (prefetch c);
  ci_table : PageTable.table_wf (table c) ∧ PageTable.table_rep (table c) M ∧ F < PageTable.capacity (table c);
  ci_queue : Epoch.capacity (evict_queue c) = F ∧ ∀ f t, (f, t) ∈ Epoch.entries (evict_queue c) → t ≤ global_epoch c;
  ci_epoch : global_epoch c + n < U64_MAX;
  ci_pages : FileSlots.rep (frame_pages c) G ∧ length (FileSlots.slots (frame_pages c)) = N.to_nat F ∧
    vlen (FileSlots.heads (frame_pages c)) = fcap;
  ci_registry : G.*1 ≡ₚ (map_to_list M).*2 ++ (Epoch.entries (evict_queue c)).*1 ++ held;
  ci_named : ∀ f v, (f, v) ∈ G → ∃ p, page_at (frames c) f = Some (Some p) ∧ v = FramePages.for_page p;
  ci_mapped : ∀ p f, M !! p = Some f → page_at (frames c) f = Some (Some p);
  ci_miss : mrep (miss c) (miss_interests c) tks V ∧ mshape F fcap reads (miss c);
  ci_groom : groom n (miss_interests c);
  ci_pending : ∀ i m, V !! i = Some m → m_outcome m = Pending →
    M !! m_page m = None ∧ page_at (frames c) (m_frame m) = Some (Some (m_page m)) ∧ fid_slot (pg_file (m_page m)) < fcap;
  ci_succeeded : ∀ i m, V !! i = Some m → m_outcome m = Succeeded → M !! m_page m = Some (m_frame m);
  ci_ledger : lgood n F (prefetch c) (clock c);
  ci_spec : ∀ f, speculates (prefetch c) f → in_state (frames c) f InFlight ∨ in_state (frames c) f Resident;
  ci_watch : watches W (frames c) (Epoch.entries (evict_queue c)) (global_epoch c);
  ci_widths : run_widths g (prefetch c) ∧ Ledger.capacity (prefetch c) ≤ F;
  ci_streams : streams P (prefetch c);
}.

Lemma cinv_le n n' M V tks G lo fl he c : cinv n M V tks G lo fl he c → n' ≤ n → cinv n' M V tks G lo fl he c.
Proof.
  intros [C1 C2 C3 C4 C5 C6 C7 C8 C9 C10 C11 C12 C13 C14 C15 C16 C17 C18 C19 C20] Hle.
  constructor; try done; [by eapply arena_le|lia|by eapply groom_le|by eapply lgood_le].
Qed.

Lemma mapped_state n M V tks G lo fl he c p f : cinv n M V tks G lo fl he c → M !! p = Some f → in_state (frames c) f Resident.
Proof.
  intros Hc Hp. apply (ci_census _ _ _ _ _ _ _ _ _ Hc). simpl. apply list_elem_of_fmap. exists (p, f). split; [done|].
  by apply elem_of_map_to_list.
Qed.

Lemma resident_mapped n M V tks G lo fl he c f :
  cinv n M V tks G lo fl he c → in_state (frames c) f Resident → ∃ p, M !! p = Some f ∧ page_at (frames c) f = Some (Some p).
Proof.
  intros Hc Hf. apply (ci_census _ _ _ _ _ _ _ _ _ Hc) in Hf. simpl in Hf.
  apply list_elem_of_fmap in Hf as ([p f'] & -> & Hp%elem_of_map_to_list). exists p. split; [done|]. by apply (ci_mapped _ _ _ _ _ _ _ _ _ Hc).
Qed.

(** A watched frame is neither free nor in flight. *)
Lemma watched_state n M V tks G lo fl he c f pg e :
  cinv n M V tks G lo fl he c → (f, pg, e) ∈ W → in_state (frames c) f Resident ∨ in_state (frames c) f Evicting.
Proof.
  intros Hc HW. destruct (ci_watch _ _ _ _ _ _ _ _ _ Hc f pg e HW) as (_ & _ & [?|(t & Ht & _)]); [by left|right].
  apply (ci_census _ _ _ _ _ _ _ _ _ Hc Evicting). simpl. apply elem_of_app. left. apply list_elem_of_fmap. by exists (f, t).
Qed.

Lemma unwatched_frame n M V tks G lo fl he c f s :
  cinv n M V tks G lo fl he c → in_state (frames c) f s → s = Free ∨ s = InFlight → ∀ pg e, (f, pg, e) ∉ W.
Proof.
  intros Hc Hs Hor pg e HW. destruct (watched_state _ _ _ _ _ _ _ _ _ _ _ _ Hc HW) as [Hx|Hx]; pose proof (in_state_fun _ _ _ _ Hs Hx); naive_solver.
Qed.

(** Mapped frames are not shared. *)
Lemma mapped_inj n M V tks G lo fl he c p q f : cinv n M V tks G lo fl he c → M !! p = Some f → M !! q = Some f → p = q.
Proof.
  intros Hc Hp%(ci_mapped _ _ _ _ _ _ _ _ _ Hc) Hq%(ci_mapped _ _ _ _ _ _ _ _ _ Hc). congruence.
Qed.

Lemma is_resident_ok n M V tks G lo fl he c f :
  cinv n M V tks G lo fl he c → f < F → ∃ b, is_resident c f = Done b ∧ (b = true ↔ in_state (frames c) f Resident).
Proof.
  intros Hc Hf. unfold is_resident. destruct (state_ok (ci_arena _ _ _ _ _ _ _ _ _ Hc) f Hf) as (s & -> & Hs). mred.
  eexists. split; [done|]. rewrite bool_decide_eq_true. split; [by intros ->|]. intros Hr. by eapply in_state_fun.
Qed.

(** The ledger and the clock change between them. *)
Lemma cinv_tame_with {x} n n' M V tks G lo fl he c l k :
  cinv n M V tks G lo fl he c → n' ≤ n → lgood n' F l k → tame_with (x := x) (prefetch c) l → (∀ f, x = Some f → P f) →
  cinv n' M V tks G lo fl he (set_ledger c (l, k)).
Proof.
  intros Hc Hle Hg [T1 T2 [T3 T3'] T4 T5] Hx. apply (cinv_le _ n') in Hc as [C1 C2 C3 C4 C5 C6 C7 C8 C9 C10 C11 C12 C13 C14 C15 C16 C17 C18 C19 C20]; [|done].
  constructor; simpl; rewrite ?T1, ?T2; try done; [intros f Hf; by apply C17, T4| |by apply T5]. unfold run_widths in *. by rewrite T3, T3'.
Qed.

Lemma cinv_tame n n' M V tks G lo fl he c l k :
  cinv n M V tks G lo fl he c → n' ≤ n → lgood n' F l k → tame (prefetch c) l → cinv n' M V tks G lo fl he (set_ledger c (l, k)).
Proof. intros Hc Hle Hg Ht. by eapply cinv_tame_with. Qed.

Lemma cinv_ledger n n' M V tks G lo fl he c l k j :
  cinv n M V tks G lo fl he c → n' ≤ n → lgood n' F l k → calm j (prefetch c) l → cinv n' M V tks G lo fl he (set_ledger c (l, k)).
Proof. intros Hc Hle Hg Hcalm. eapply cinv_tame; [done..|]. by eapply calm_tame. Qed.

Lemma reconcile_cache n M V tks G lo fl he c :
  cinv (1 + n) M V tks G lo fl he c →
  ∃ c', reconcile c = Done c' ∧ cinv n M V tks G lo fl he c' ∧ ∃ x, c' = set_ledger c x.
Proof.
  intros Hc. destruct (reconcile_good n F (prefetch c) (clock c) (ci_ledger _ _ _ _ _ _ _ _ _ Hc)) as (l & k & He & Hg & Hcalm).
  unfold reconcile. rewrite He. mred. eexists. split; [done|]. split; [|eauto]. eapply cinv_ledger; [exact Hc|lia|done..].
Qed.

Lemma finish_cache n M V tks G lo fl he c f t :
  cinv (1 + n) M V tks G lo fl he c → f < F →
  ∃ x, finish c f t = Done (set_ledger c x) ∧ cinv n M V tks G lo fl he (set_ledger c x) ∧ ¬ speculates x.1 f ∧
    calm 1 (prefetch c) x.1.
Proof.
  intros Hc Hf. destruct (finish_good n F (prefetch c) (clock c) f t (ci_ledger _ _ _ _ _ _ _ _ _ Hc) Hf) as (l & k & He & Hg & Hcalm & Hs).
  exists (l, k). unfold finish. rewrite He. mred. split_and!; try done. eapply cinv_ledger; [exact Hc|lia|done..].
Qed.

Lemma observe_cache n M V tks G lo fl he c r page :
  cinv (1 + n) M V tks G lo fl he c → pg_granule_idx page ≤ U32_MAX → P (pg_file page) →
  ∃ c', observe c r page = Done c' ∧ cinv n M V tks G lo fl he c' ∧ ∃ x, c' = set_ledger c x.
Proof.
  intros Hc Hp HP. destruct (observe_good n F (prefetch c) (clock c) r page (ci_ledger _ _ _ _ _ _ _ _ _ Hc) Hp) as (l & k & He & Hg & Hcalm).
  unfold observe. rewrite He. mred. eexists. split; [done|]. split; [|eauto]. eapply cinv_tame_with; [exact Hc|lia|done|by eapply calm_tame|]. by intros f [= <-].
Qed.

(** ** Misses forgotten or continued *)

Lemma cinv_miss n M V V' tks G lo fl he c m :
  cinv n M V tks G lo fl he c → mrep m (miss_interests c) tks V' → Miss.same_shape (miss c) m →
  pending_frames V' ≡ₚ pending_frames V →
  (∀ i x, V' !! i = Some x → holds x → ∃ y, V !! i = Some y ∧ m_page x = m_page y ∧ m_frame x = m_frame y ∧ m_outcome x = m_outcome y) →
  cinv n M V' tks G lo fl he (set_miss c m).
Proof.
  intros [C1 C2 C3 C4 C5 C6 C7 C8 C9 C10 C11 [C12 C12'] C13 C14 C15 C16 C17 C18 C19 C20] Hr Hsh Hpf Hsub. constructor; simpl; try done.
  - eapply census_perm; [exact C2|done| |done|done]. by rewrite Hpf.
  - split; [done|]. by eapply mshape_same.
  - intros i x Hx Hp. destruct (Hsub i x Hx (or_introl Hp)) as (y & Hy & -> & -> & Ho). apply (C14 i); congruence.
  - intros i x Hx Hp. destruct (Hsub i x Hx (or_intror Hp)) as (y & Hy & -> & -> & Ho). apply (C15 i); congruence.
Qed.

Lemma cinv_forget n M V tks G lo fl he c m i :
  cinv n M V tks G lo fl he c → mrep m (miss_interests c) tks (delete i V) → Miss.same_shape (miss c) m →
  (∀ x, V !! i = Some x → m_outcome x ≠ Pending) → cinv n M (delete i V) tks G lo fl he (set_miss c m).
Proof.
  intros Hc Hr Hsh Hno. eapply cinv_miss; [done..|by apply pending_delete|]. intros j x [_ Hj]%lookup_delete_Some _. by exists x.
Qed.

Lemma set_miss_id c : set_miss c (miss c) = c.
Proof. by destruct c. Qed.

Lemma prepare_cache n M V tks G lo fl he c f :
  cinv n M V tks G lo fl he c → f < F →
  ∃ m b V', prepare_eviction c f = Done (set_miss c m, b) ∧ cinv n M V' tks G lo fl he (set_miss c m) ∧
    same_pending V V' ∧ fades V V' ∧
    (b = true → ∀ i x, V' !! i = Some x → m_outcome x = Succeeded → m_frame x ≠ f) ∧
    (b = false → ∃ i x, V !! i = Some x ∧ m_outcome x = Succeeded ∧ m_frame x = f ∧ ¬ unwatched tks i).
Proof.
  intros Hc Hf. destruct (ci_miss _ _ _ _ _ _ _ _ _ Hc) as [Hr Hs]. unfold prepare_eviction.
  destruct (prepare_map _ _ _ _ f Hr) as (m & b & V' & -> & Hr' & Hsh & Hb); [by rewrite (ms_success _ _ _ _ Hs)|]. mred.
  exists m, b, V'. split; [done|]. destruct b.
  - destruct Hb as [Hno [->|(i & x & Hx & Ho & Hfr & Hun & ->)]].
    + split_and!; [by eapply cinv_miss; eauto|done|apply fades_refl|done|done].
    + assert (∀ y, V !! i = Some y → m_outcome y ≠ Pending) as Hnp by (intros y Hy; by simplify_eq; rewrite Ho).
      split_and!; [by apply cinv_forget|by apply same_pending_delete|apply fades_delete|done|done].
  - destruct Hb as [-> Hb]. split_and!; [by eapply cinv_miss; eauto|done|apply fades_refl|done|done].
Qed.

(** ** Eviction *)

Lemma map_to_list_delete_snd (M : gmap PageId ReadFrameIdx) p f : M !! p = Some f → (map_to_list M).*2 ≡ₚ f :: (map_to_list (delete p M)).*2.
Proof. intros Hp. rewrite <- (insert_delete_id M p f Hp) at 1. rewrite map_to_list_insert by apply lookup_delete_eq. done. Qed.

(** A mapped frame no successful miss protects leaves the table for the queue. *)
Lemma unmap_cache n M V tks G lo fl he c p f :
  cinv (1 + n) M V tks G lo fl he c → M !! p = Some f →
  (∀ i x, V !! i = Some x → m_outcome x = Succeeded → m_frame x ≠ f) →
  ∃ t c', PageTable.remove_shared (table c) p = Done (t, Some f) ∧ begin_eviction (set_table c t) f = Done c' ∧
    cinv n (delete p M) V tks G lo fl he c' ∧ Epoch.entries (evict_queue c') = Epoch.entries (evict_queue c) ++ [(f, global_epoch c)] ∧
    miss c' = miss c ∧ miss_interests c' = miss_interests c ∧ reads_in_flight c' = reads_in_flight c ∧ global_epoch c' = global_epoch c ∧
    calm 1 (prefetch c) (prefetch c').
Proof.
  intros Hc Hp Hno. pose proof (mapped_state _ _ _ _ _ _ _ _ _ _ _ Hc Hp) as Hres.
  pose proof (in_state_lt _ _ _ _ _ _ _ (ci_arena _ _ _ _ _ _ _ _ _ Hc) Hres) as Hf.
  destruct (ci_table _ _ _ _ _ _ _ _ _ Hc) as (T1 & T2 & T3). destruct (PageTable.remove_ok (table c) M p T1 T2) as (t & Hrem & T1' & T2' & Hcap).
  exists t. rewrite Hp in Hrem.
  destruct (finish_cache n M V tks G lo fl he c f Ledger.Evicted Hc Hf) as ([l k] & Hfin & Hc1 & Hns & Hcalm).
  unfold finish in Hfin. unfold begin_eviction, finish. simpl. destruct (Ledger.finish (prefetch c) (clock c) f Ledger.Evicted) as [y|] eqn:Ey; [|done].
  simpl in Hfin. injection Hfin as Hfin. assert (y = (l, k)) as -> by (destruct y; unfold set_ledger, set_prefetch, set_clock in Hfin; simpl in Hfin; by simplify_eq).
  mred. clear Hfin Ey. pose proof Hc1 as [C1 C2 C3 C4 C5 [C6 C6'] C7 C8 C9 C10 C11 C12 C13 C14 C15 C16 C17 C18 C19 C20]. simpl in *.
  assert (census (frames c) (stack (free_frames c) ++ stack (Ledger.reserve l) ++ lo) (pending_frames V ++ fl)
    (f :: (map_to_list (delete p M)).*2) ((Epoch.entries (evict_queue c)).*1 ++ he)) as C2'.
  { eapply census_perm; [exact C2|done|done|by apply map_to_list_delete_snd|done]. }
  destruct (evicting_ok C1 f C2') as (f' & Hadv & C1' & C2'' & Hkept & Hpg). rewrite Hadv. mred.
  pose proof (census_bounded _ _ _ _ _ _ _ _ _ Evicting C1' C2'') as Hlen. simpl in Hlen.
  unfold Epoch.queue_push. rewrite (proj2 (N.ltb_lt _ _)).
  2: { rewrite C6. unfold vlen in *. simpl in Hlen. rewrite length_app, length_fmap in Hlen. lia. }
  mred. assert (match last (Epoch.entries (evict_queue c)) with None => true | Some (_, t) => t <=? global_epoch c end = true) as ->.
  { destruct (last (Epoch.entries (evict_queue c))) as [[f0 t0]|] eqn:El; [|done]. apply N.leb_le, (C6' f0). by apply last_Some_elem_of. }
  mred. eexists. split; [done|]. split; [done|]. simpl. split; [|split_and!; done].
  assert (∀ i : N, page_at f' i = page_at (frames c) i) as Hpages by (intros i; unfold page_at; by rewrite Hpg).
  constructor; simpl; try done.
  - eapply census_perm; [exact C2''|done|done|done|]. rewrite fmap_app. simpl. rewrite <- app_assoc. simpl. apply Permutation_middle.
  - split_and!; [done|done|]. by rewrite Hcap.
  - split; [done|]. intros f0 t0 [H0|[= -> ->]%list_elem_of_singleton]%elem_of_app; [by eapply C6'|lia].
  - rewrite C9, map_to_list_delete_snd by exact Hp. simpl. rewrite fmap_app, <- app_assoc. simpl. rewrite Permutation_middle.
    apply Permutation_app_head, Permutation_middle.
  - intros f0 v Hv. rewrite Hpages. by apply C10.
  - intros q f0 [_ Hq]%lookup_delete_Some. rewrite Hpages. by apply C11.
  - intros i x Hx Ho. destruct (C14 i x Hx Ho) as (? & ? & ?). rewrite Hpages. split_and!; try done. apply lookup_delete_None. by right.
  - intros i x Hx Ho. apply lookup_delete_Some. pose proof (C15 i x Hx Ho) as Hmx. split; [|done]. intros Heq. apply (Hno i x Hx Ho). congruence.
  - intros f0 Hs0. assert (f0 ≠ f) as Hne by (intros ->; done). rewrite !(Hkept f0 _ Hne). by apply C17.
  - intros j pg e Hj. destruct (C18 j pg e Hj) as (He & Hpj & Hor). rewrite Hpages. split_and!; [done..|].
    destruct (decide (j = f)) as [->|Hne]; [right; exists (global_epoch c); set_solver|]. rewrite (Hkept j _ Hne). set_solver.
Qed.

Lemma evict_resident_cache n M V tks G lo fl he c f :
  cinv (1 + n) M V tks G lo fl he c → in_state (frames c) f Resident →
  (∀ i x, V !! i = Some x → m_outcome x = Succeeded → m_frame x ≠ f) →
  ∃ c' p, evict_resident c f = Done c' ∧ M !! p = Some f ∧ cinv n (delete p M) V tks G lo fl he c' ∧
    Epoch.entries (evict_queue c') = Epoch.entries (evict_queue c) ++ [(f, global_epoch c)] ∧
    reads_in_flight c' = reads_in_flight c ∧ global_epoch c' = global_epoch c ∧ calm 1 (prefetch c) (prefetch c').
Proof.
  intros Hc Hres Hno. destruct (resident_mapped _ _ _ _ _ _ _ _ _ _ Hc Hres) as (p & Hp & Hpg). unfold evict_resident.
  rewrite (exact_page_ok (ci_arena _ _ _ _ _ _ _ _ _ Hc) f p Resident) by auto. mred.
  destruct (unmap_cache n M V tks G lo fl he c p f Hc Hp Hno) as (t & c' & -> & Hb & Hc' & Hq & _ & _ & Hrd & Hep & Hcalm). mred.
  rewrite bool_decide_eq_true_2 by done. mred. exists c', p. split_and!; done.
Qed.

(** One step of a pass over the cache that only evicts: the invariant, with what the rest
    of the pool sees of it. *)
Record passes (n : N) (M : gmap PageId ReadFrameIdx) (V : gmap N mread) (tks : list PendingToken)
    (lo fl he : list N) (c : Cache) (M' : gmap PageId ReadFrameIdx) (V' : gmap N mread) (G' : list (N * FramePages.FrameFileSlot)) (c' : Cache) : Prop := {
  ps_inv : cinv n M' V' tks G' lo fl he c';
  ps_pending : same_pending V V';
  ps_settles : settles V M V' M';
  ps_reads : reads_in_flight c' = reads_in_flight c ∧ global_epoch c' = global_epoch c;
}.

Lemma passes_refl n M V tks G lo fl he c : cinv n M V tks G lo fl he c → passes n M V tks lo fl he c M V G c.
Proof. intros Hc. split; [done|done|apply settles_refl|done]. Qed.

Lemma passes_trans n M V tks lo fl he c M1 V1 c1 M2 V2 G2 c2 :
  same_pending V V1 → settles V M V1 M1 → reads_in_flight c1 = reads_in_flight c ∧ global_epoch c1 = global_epoch c →
  passes n M1 V1 tks lo fl he c1 M2 V2 G2 c2 → passes n M V tks lo fl he c M2 V2 G2 c2.
Proof.
  intros Hp Hs [Hr He] [P1 P2 P3 [P4 P5]]. split; [done|by eapply same_pending_trans|by eapply settles_trans|split; congruence].
Qed.

(** A frame found resident is evicted, unless a waited-for miss protects it. *)
Lemma try_evict_cache n M V tks G lo fl he c f :
  cinv (1 + n) M V tks G lo fl he c → in_state (frames c) f Resident →
  ∃ c1 b, prepare_eviction c f = Done (c1, b) ∧
    if b : bool then
      (∃ V1, passes (1 + n) M V tks lo fl he c M V1 G c1) ∧
      (∃ c2 M2 V2, evict_resident c1 f = Done c2 ∧ passes n M V tks lo fl he c M2 V2 G c2 ∧ calm 1 (prefetch c) (prefetch c2) ∧
        ∀ page f', M !! page = Some f' → f' ≠ f → M2 !! page = Some f') ∧ prefetch c1 = prefetch c ∧ clock c1 = clock c ∧ frame_pages c1 = frame_pages c
    else ∃ V1, passes (1 + n) M V tks lo fl he c M V1 G c1 ∧ prefetch c1 = prefetch c ∧ clock c1 = clock c.
Proof.
  intros Hc Hres. pose proof (in_state_lt _ _ _ _ _ _ _ (ci_arena _ _ _ _ _ _ _ _ _ Hc) Hres) as Hf.
  destruct (prepare_cache _ _ _ _ _ _ _ _ _ f Hc Hf) as (m & b & V1 & He & Hc1 & Hsp & Hfa & Hb & _). exists (set_miss c m), b. split; [done|].
  assert (passes (1 + n) M V tks lo fl he c M V1 G (set_miss c m)) as Hp1 by (split; [done|done|by apply settles_fades|done]).
  destruct b; [|by exists V1]. split; [by exists V1|]. split; [|done].
  destruct (evict_resident_cache _ _ _ _ _ _ _ _ _ f Hc1 Hres (Hb eq_refl)) as (c2 & p & He2 & Hp & Hc2 & _ & Hrd & Hep & Hcalm).
  exists c2, (delete p M), V1. split; [done|]. split; [|split; [exact Hcalm|intros q f' Hq Hne; rewrite lookup_delete_ne; [done|congruence]]]. split; [done|done| |done].
  eapply settles_trans; [by apply settles_fades|apply settles_unmap].
Qed.

Lemma evict_clock_cache n M V tks G lo fl he c :
  cinv (1 + n) M V tks G lo fl he c →
  ∃ c' b M' V', evict_clock_victim F c = Done (c', b) ∧ passes n M V tks lo fl he c M' V' G c'.
Proof.
  intros Hc. unfold evict_clock_victim. rewrite for_range_nat.
  destruct (for_nat_rule evict_clock_body (λ _ c1, ∃ V1, passes (1 + n) M V tks lo fl he c M V1 G c1)
    (λ c2, ∃ M2 V2, passes n M V tks lo fl he c M2 V2 G c2) (N.to_nat (saturating_mul U32_MAX F 2 + 1)) c)
    as [(c' & Hr & V' & Hp')|(c' & Hr & M' & V' & Hp')].
  - intros _ c1 (V1 & [Hc1 Hsp Hst Hrd]). unfold evict_clock_body.
    destruct (sweep_good _ _ _ _ (ci_ledger _ _ _ _ _ _ _ _ _ Hc1)) as (k & v & -> & Hv & Hg). mred.
    assert (cinv (1 + n) M V1 tks G lo fl he (set_clock c1 k)) as Hc2.
    { destruct Hc1 as [C1 C2 C3 C4 C5 C6 C7 C8 C9 C10 C11 C12 C13 C14 C15 C16 C17 C18 C19 C20]. by constructor. }
    destruct (is_resident_ok _ _ _ _ _ _ _ _ _ v Hc2 Hv) as (b & -> & Hb). mred. destruct b; simpl negb.
    2: { left. eexists. split; [done|]. exists V1. by split. }
    destruct (try_evict_cache _ _ _ _ _ _ _ _ _ v Hc2 (proj1 Hb eq_refl)) as (c3 & u & -> & Hu). mred. destruct u; simpl negb.
    + destruct Hu as ((V3 & Hp3) & (c4 & M4 & V4 & He4 & Hp4 & _) & Hpf & Hck & Hfp).
      pose proof (ps_inv _ _ _ _ _ _ _ _ _ _ _ _ Hp3) as Hc3.
      destruct (speculative_good _ _ _ _ v (ci_ledger _ _ _ _ _ _ _ _ _ Hc3) Hv) as (sp & -> & _). mred. destruct sp.
      { left. eexists. split; [done|]. exists V3. eapply passes_trans; [exact Hsp|exact Hst| |exact Hp3]. by simpl. }
      destruct (ci_pages _ _ _ _ _ _ _ _ _ Hc3) as (R1 & R2 & _).
      destruct (FileSlots.get_at_ok (frame_pages c3) G v R1) as [[Hni _]|(y & _ & ->)]; [rewrite R2; lia| |].
      { exfalso. apply Hni. rewrite (ci_registry _ _ _ _ _ _ _ _ _ Hc2). apply elem_of_app. left. by apply (ci_census _ _ _ _ _ _ _ _ _ Hc2 Resident), Hb. }
      mred. rewrite He4. mred. right. eexists. split; [done|]. exists M4, V4. eapply passes_trans; [exact Hsp|exact Hst| |exact Hp4]. by simpl.
    + destruct Hu as (V3 & Hp3 & _). left. eexists. split; [done|]. exists V3. eapply passes_trans; [exact Hsp|exact Hst| |exact Hp3]. by simpl.
  - exists V. by apply passes_refl.
  - rewrite Hr. mred. exists c', false, M, V'. split; [done|]. destruct Hp' as [P1 P2 P3 P4]. split; try done. eapply cinv_le; [exact P1|lia].
  - rewrite Hr. mred. exists c', true, M', V'. split; [done|]. done.
Qed.

Lemma entry_speculates n l k i e :
  lgood n F l k → Ledger.entries l !! N.to_nat i = Some (Some e) → speculates l (Ledger.e_frame e) ∧ Ledger.e_frame e < F.
Proof.
  intros Hg He. destruct (g_sound _ _ _ _ Hg) as (L & C & W' & R & fl & Hv). simpl in Hv.
  assert (Ledger.frame_entries l !! N.to_nat (Ledger.e_frame e) = Some (Some i)) as Hf.
  { apply (LedgerSystem.st_index _ _ _ _ _ _ (LedgerSystem.v_storage _ _ _ _ _ _ _ _ _ Hv)). eexists _, _. apply LedgerLists.cores_lookup. eauto. }
  split; [by exists i|]. rewrite <- (g_frames _ _ _ _ Hg). by eapply vget_lt.
Qed.

Lemma evict_unused_from_cache n M V tks G lo fl he j : ∀ c V0 i,
  passes (1 + n) M V tks lo fl he c M V0 G c → (N.to_nat i + j = length (Ledger.entries (prefetch c)))%nat →
  ∃ c' b M' V', evict_unused_from j c i = Done (c', b) ∧ passes n M V tks lo fl he c M' V' G c'.
Proof.
  induction j as [|j IH]; intros c V0 i Hp Hj; simpl.
  - exists c, false, M, V0. split; [done|]. destruct Hp as [P1 P2 P3 P4]. split; try done. eapply cinv_le; [exact P1|lia].
  - destruct (lookup_lt_is_Some_2 (Ledger.entries (prefetch c)) (N.to_nat i)) as [o Ho]; [lia|]. rewrite (proj2 (vget_Done _ _ _) Ho). mred.
    destruct o as [e|]; [|apply (IH c V0); [done|lia]]. pose proof (ps_inv _ _ _ _ _ _ _ _ _ _ _ _ Hp) as Hc.
    destruct (entry_speculates _ _ _ _ _ (ci_ledger _ _ _ _ _ _ _ _ _ Hc) Ho) as [_ Hf].
    destruct (is_resident_ok _ _ _ _ _ _ _ _ _ _ Hc Hf) as (b & -> & Hb). mred. destruct b; simpl negb; [|apply (IH c V0); [done|lia]].
    destruct (try_evict_cache _ _ _ _ _ _ _ _ _ _ Hc (proj1 Hb eq_refl)) as (c1 & u & -> & Hu). mred.
    destruct Hp as [P1 P2 P3 _]. destruct u; simpl negb.
    + destruct Hu as (_ & (c2 & M2 & V2 & -> & Hp2 & _) & _). mred. exists c2, true, M2, V2. split; [done|]. by eapply passes_trans.
    + destruct Hu as (V1 & Hp1 & Hpf & _).
      assert (reads_in_flight c1 = reads_in_flight c ∧ global_epoch c1 = global_epoch c) as [Hrd Hep] by apply Hp1.
      assert (passes (1 + n) M V tks lo fl he c1 M V1 G c1) as Hp1'.
      { destruct Hp1 as [Q1 Q2 Q3 Q4]. split; [done|by eapply same_pending_trans|by eapply settles_trans|done]. }
      destruct (IH c1 V1 (i + 1) Hp1') as (c' & b' & M' & V' & He & [R1 R2 R3 R4]); [rewrite Hpf; lia|].
      exists c', b', M', V'. split; [done|]. split; try done. destruct R4. split; congruence.
Qed.

Lemma evict_unused_cache n M V tks G lo fl he c :
  cinv (2 + n) M V tks G lo fl he c →
  ∃ c' b M' V', prefetch_evict_unused c = Done (c', b) ∧ passes n M V tks lo fl he c M' V' G c'.
Proof.
  intros Hc. unfold prefetch_evict_unused. replace (2 + n) with (1 + (1 + n)) in Hc by lia.
  destruct (reconcile_cache _ _ _ _ _ _ _ _ _ Hc) as (c1 & -> & Hc1 & x & Hx). mred.
  destruct (evict_unused_from_cache n M V tks G lo fl he (length (Ledger.entries (prefetch c1))) c1 V 0) as (c' & b & M' & V' & He & Hp).
  { by apply passes_refl. }
  { simpl. lia. }
  exists c', b, M', V'. split; [done|]. destruct Hp as [P1 P2 P3 P4]. split; try done. by rewrite Hx in P4.
Qed.

Lemma evict_one_cache n M V tks G lo fl he c :
  cinv (3 + n) M V tks G lo fl he c →
  ∃ c' M' V', evict_one_victim F c = Done c' ∧ passes n M V tks lo fl he c M' V' G c'.
Proof.
  intros Hc. unfold evict_one_victim. replace (3 + n) with (2 + (1 + n)) in Hc by lia.
  destruct (evict_unused_cache _ _ _ _ _ _ _ _ _ Hc) as (c1 & b & M1 & V1 & -> & [P1 P2 P3 P4]). mred. destruct b; simpl negb.
  - exists c1, M1, V1. split; [done|]. split; try done. eapply cinv_le; [exact P1|lia].
  - destruct (evict_clock_cache _ _ _ _ _ _ _ _ _ P1) as (c2 & b2 & M2 & V2 & -> & Hp2). mred. exists c2, M2, V2. split; [done|].
    by eapply passes_trans.
Qed.

(** ** Free frames *)

Lemma set_free_ledger c s l :
  set_free (set_prefetch c l) s = mkCache (frames c) (table c) (clock c) (global_epoch c) (evict_queue c) (miss c) (miss_interests c) s
    (frame_pages c) (reads_in_flight c) l.
Proof. done. Qed.

Lemma lgood_reserve n l k r : lgood n F l k → lgood n F (Ledger.set_reserve l r) k.
Proof.
  intros [H1 H2 H3 H4 H5 H6 H7]. constructor; try done. destruct H1 as (L & C & W' & R & fl & Hv). exists L, C, W', R, fl.
  destruct Hv as [V1 V2 V3 V4 V5 V6 V7 V8 V9 V10 V11 V12 V13 V14 V15 V16]. by split.
Qed.

(** The free frames move between the stacks and the hands of the caller. *)
Lemma cinv_stacks n M V tks G lo lo' fl he c s r :
  cinv n M V tks G lo fl he c → stack_wf s → vlen (ff_frames s) = F → stack_wf r → vlen (ff_frames r) = Ledger.capacity (prefetch c) →
  stack s ++ stack r ++ lo' ≡ₚ stack (free_frames c) ++ stack (Ledger.reserve (prefetch c)) ++ lo →
  cinv n M V tks G lo' fl he (set_free (set_prefetch c (Ledger.set_reserve (prefetch c) r)) s).
Proof.
  intros [C1 C2 C3 C4 C5 C6 C7 C8 C9 C10 C11 C12 C13 C14 C15 C16 C17 C18 C19 C20] H1 H2 H3 H4 Hp. constructor; simpl; try done.
  - eapply census_perm; [exact C2|by symmetry|done..].
  - by apply lgood_reserve.
Qed.

Lemma set_reserve_id c : set_prefetch c (Ledger.set_reserve (prefetch c) (Ledger.reserve (prefetch c))) = c.
Proof. destruct c as [? ? ? ? ? ? ? ? ? ? l]. by destruct l. Qed.
Lemma set_free_id c : set_free c (free_frames c) = c.
Proof. by destruct c. Qed.

Lemma pop_free_cache n M V tks G lo fl he c :
  cinv n M V tks G lo fl he c →
  ∃ c' o, pop_free c = Done (c', o) ∧ cinv n M V tks G (option_list o ++ lo) fl he c' ∧ (o = None → stack (free_frames c') = []) ∧
    ∃ s, c' = set_free c s.
Proof.
  intros Hc. destruct (ci_free _ _ _ _ _ _ _ _ _ Hc) as [F1 F2]. unfold pop_free. destruct (pop_ok (free_frames c) F1) as (s & S1 & S2 & Hs).
  destruct (ci_reserve _ _ _ _ _ _ _ _ _ Hc) as [R1 R2].
  destruct (stack (free_frames c)) as [|f rest] eqn:E.
  - destruct Hs as [-> ->]. mred. exists c, None. rewrite set_free_id. split; [done|]. split; [done|]. split; [done|].
    exists (free_frames c). by rewrite set_free_id.
  - destruct Hs as [-> Hs]. mred. eexists _, _. split; [done|]. split; [|split; [done|eauto]].
    pose proof (cinv_stacks n M V tks G lo (f :: lo) fl he c s (Ledger.reserve (prefetch c)) Hc) as Hx. rewrite set_reserve_id in Hx. apply Hx; try done; [congruence|].
    rewrite Hs, E. simpl. rewrite <- !Permutation_middle. done.
Qed.

Lemma pop_reserve_cache n M V tks G lo fl he c :
  cinv n M V tks G lo fl he c →
  ∃ c' o, pop_reserve c = Done (c', o) ∧ cinv n M V tks G (option_list o ++ lo) fl he c' ∧
    (match o with Some _ => stack (Ledger.reserve (prefetch c)) ≠ [] | None => stack (Ledger.reserve (prefetch c)) = [] end) ∧
    ∃ s, c' = set_prefetch c (Ledger.set_reserve (prefetch c) s) ∧ vlen (stack (Ledger.reserve (prefetch c))) = vlen (option_list o) + vlen (stack s).
Proof.
  intros Hc. destruct (ci_reserve _ _ _ _ _ _ _ _ _ Hc) as [F1 F2]. unfold pop_reserve. destruct (pop_ok _ F1) as (s & S1 & S2 & Hs).
  destruct (ci_free _ _ _ _ _ _ _ _ _ Hc) as [R1 R2].
  destruct (stack (Ledger.reserve (prefetch c))) as [|f rest] eqn:E.
  - destruct Hs as [-> ->]. mred. exists c, None. rewrite set_reserve_id. split; [done|]. split; [done|]. split; [done|].
    exists (Ledger.reserve (prefetch c)). by rewrite set_reserve_id, E.
  - destruct Hs as [-> Hs]. mred. eexists _, _. split; [done|]. split; [|split; [done|eexists; split; [done|rewrite Hs; unfold vlen; simpl; lia]]].
    pose proof (cinv_stacks n M V tks G lo (f :: lo) fl he c (free_frames c) s Hc) as Hx.
    replace (set_free (set_prefetch c (Ledger.set_reserve (prefetch c) s)) (free_frames c)) with (set_prefetch c (Ledger.set_reserve (prefetch c) s)) in Hx by by destruct c.
    apply Hx; try done; [congruence|]. rewrite Hs, E. apply Permutation_app_head. simpl. symmetry. apply Permutation_middle.
Qed.

Lemma claim_free_cache n M V tks G fl he c :
  cinv n M V tks G [] fl he c →
  ∃ c' o, claim_free_frame c = Done (c', o) ∧ cinv n M V tks G (option_list o) fl he c' ∧ (reads_in_flight c' = reads_in_flight c ∧ global_epoch c' = global_epoch c) ∧
    (∀ f, o = Some f → in_state (frames c') f Free) ∧ frames c' = frames c ∧ miss c' = miss c.
Proof.
  intros Hc. unfold claim_free_frame. destruct (pop_free_cache _ _ _ _ _ _ _ _ _ Hc) as (c1 & o1 & -> & Hc1 & _ & s & Hs1). mred.
  assert (∃ c2 o2, (match o1 with Some frame => Done (c1, Some frame) | None => pop_reserve c1 end) = Done (c2, o2) ∧
    cinv n M V tks G (option_list o2) fl he c2 ∧ (reads_in_flight c2 = reads_in_flight c ∧ global_epoch c2 = global_epoch c) ∧ frames c2 = frames c ∧ miss c2 = miss c) as (c2 & o2 & -> & Hc2 & Hrd & Hfr & Hms).
  { destruct o1 as [f|]; [exists c1, (Some f); subst c1; done|].
    destruct (pop_reserve_cache _ _ _ _ _ _ _ _ _ Hc1) as (c2 & o2 & He & Hc2 & _ & s2 & Hs2 & _). rewrite app_nil_r in Hc2. exists c2, o2. subst c2 c1. done. }
  mred. destruct o2 as [f|]; [|exists c2, None; done]. assert (in_state (frames c2) f Free) as Hfree.
  { apply (ci_census _ _ _ _ _ _ _ _ _ Hc2 Free). simpl. set_solver. }
  rewrite (state_of (ci_arena _ _ _ _ _ _ _ _ _ Hc2) _ _ Hfree). mred. rewrite bool_decide_eq_true_2 by done. mred.
  exists c2, (Some f). split; [done|]. split; [done|]. split; [done|]. split; [|done]. by intros ? [= <-].
Qed.

(** ** Claims and aborts *)

Lemma cinv_lt n M V tks G lo fl he c f s :
  cinv n M V tks G lo fl he c →
  f ∈ pick (stack (free_frames c) ++ stack (Ledger.reserve (prefetch c)) ++ lo) (pending_frames V ++ fl)
    (map_to_list M).*2 ((Epoch.entries (evict_queue c)).*1 ++ he) s → f < F.
Proof. intros Hc Hf. eapply census_lt; [apply Hc|apply Hc|exact Hf]. Qed.

(** The registered frames are resident or evicting. *)
Lemma registered_state n M V tks G lo fl he c f v :
  cinv n M V tks G lo fl he c → (f, v) ∈ G → in_state (frames c) f Resident ∨ in_state (frames c) f Evicting.
Proof.
  intros Hc Hv. assert (f ∈ G.*1) as Hf by (apply list_elem_of_fmap; by exists (f, v)). rewrite (ci_registry _ _ _ _ _ _ _ _ _ Hc) in Hf.
  apply elem_of_app in Hf as [Hf|Hf]; [left; by apply (ci_census _ _ _ _ _ _ _ _ _ Hc Resident)|right; by apply (ci_census _ _ _ _ _ _ _ _ _ Hc Evicting)].
Qed.

Lemma pending_state n M V tks G lo fl he c i m :
  cinv n M V tks G lo fl he c → V !! i = Some m → m_outcome m = Pending → in_state (frames c) (m_frame m) InFlight.
Proof.
  intros Hc Hm Hp. apply (ci_census _ _ _ _ _ _ _ _ _ Hc InFlight). simpl. apply elem_of_app. left. apply elem_pending. eauto.
Qed.

Lemma claim_cache n M V tks G lo fl he c f page :
  cinv n M V tks G (f :: lo) fl he c →
  ∃ h, claim c f page = Done (set_frames c h, token_of a f) ∧ cinv n M V tks G lo (f :: fl) he (set_frames c h) ∧
    page_at h f = Some (Some page) ∧ (∀ j, j ≠ f → page_at h j = page_at (frames c) j) ∧ kept (frames c) h f.
Proof.
  intros Hc. pose proof Hc as [C1 C2 C3 C4 C5 C6 C7 C8 C9 C10 C11 C12 C13 C14 C15 C16 C17 C18 C19 C20].
  assert (in_state (frames c) f Free) as Hfree by (apply (C2 Free); simpl; set_solver).
  assert (∀ s, in_state (frames c) f s → s = Free) as Hother by (intros s Hs; by eapply in_state_fun).
  assert (census (frames c) (f :: (stack (free_frames c) ++ stack (Ledger.reserve (prefetch c)) ++ lo)) (pending_frames V ++ fl)
    (map_to_list M).*2 ((Epoch.entries (evict_queue c)).*1 ++ he)) as C2'.
  { eapply census_perm; [exact C2| |done..]. rewrite !(assoc_L (++)). symmetry. apply Permutation_middle. }
  destruct (claim_ok C1 f page C2') as (h & Hcl & C1' & C2'' & Hk & Hpg). unfold claim. rewrite Hcl. mred. exists h. split; [done|].
  assert (∀ j, j ≠ f → page_at h j = page_at (frames c) j) as Hpj by (intros j Hj; by rewrite Hpg, decide_False).
  split; [|split_and!; [by rewrite Hpg, decide_True|done|done]]. constructor; simpl; try done.
  - eapply census_perm; [exact C2''|done| |done..]. apply Permutation_middle.
  - intros j v Hv. rewrite Hpj; [by apply C10|]. intros ->. destruct (registered_state _ _ _ _ _ _ _ _ _ _ _ Hc Hv) as [?%Hother|?%Hother]; done.
  - intros p j Hp. rewrite Hpj; [by apply C11|]. intros ->. pose proof (mapped_state _ _ _ _ _ _ _ _ _ _ _ Hc Hp) as ?%Hother. done.
  - intros i m Hm Hp. rewrite Hpj; [by apply (C14 i)|]. intros Heq. pose proof (pending_state _ _ _ _ _ _ _ _ _ _ _ Hc Hm Hp) as Hst.
    rewrite Heq in Hst. apply Hother in Hst. done.
  - intros j Hj. assert (j ≠ f) as Hne by (intros ->; destruct (C17 _ Hj) as [?%Hother|?%Hother]; done). rewrite !(Hk j _ Hne). by apply C17.
  - eapply watches_kept; [exact C18|done|done|]. eapply unwatched_frame; [exact Hc|exact Hfree|by left].
Qed.

(** A frame returned to the free frames: it fits. *)
Lemma push_fits (s : FreeFrames) f cap rest :
  stack_wf s → vlen (ff_frames s) = cap → NoDup (f :: stack s ++ rest) → (∀ j, j ∈ f :: stack s ++ rest → j < cap) →
  ff_len s < vlen (ff_frames s).
Proof.
  intros Hwf Hcap Hnd Hlt. pose proof (nodup_bounded (f :: stack s ++ rest) cap Hnd Hlt) as Hb. unfold vlen in Hb. simpl in Hb. rewrite length_app in Hb.
  assert (length (stack s) = N.to_nat (ff_len s)) as Hl.
  { unfold stack. rewrite length_rev, length_take. unfold stack_wf, vlen in Hwf. lia. }
  lia.
Qed.

(** The frame of an aborted read, in hand or of a miss that ends, back on the free stack. *)
Lemma abort_free n M V V' tks G lo fl fl' he c f :
  cinv n M V tks G lo fl he c → pending_frames V ++ fl ≡ₚ f :: pending_frames V' ++ fl' → ¬ speculates (prefetch c) f →
  ∃ h s, abort_read c (token_of a f) false = Done (set_free (set_frames c h) s) ∧ arena_ok n F g a h ∧
    census h (stack s ++ stack (Ledger.reserve (prefetch c)) ++ lo) (pending_frames V' ++ fl') (map_to_list M).*2
      ((Epoch.entries (evict_queue c)).*1 ++ he) ∧ stack_wf s ∧ vlen (ff_frames s) = F ∧ pages h = pages (frames c) ∧ kept (frames c) h f ∧
    stack s = f :: stack (free_frames c).
Proof.
  intros [C1 C2 [C3 C3'] C4 C5 C6 C7 C8 C9 C10 C11 C12 C13 C14 C15 C16 C17 C18 C19 C20] Hfl Hns.
  assert (census (frames c) (stack (free_frames c) ++ stack (Ledger.reserve (prefetch c)) ++ lo) (f :: pending_frames V' ++ fl')
    (map_to_list M).*2 ((Epoch.entries (evict_queue c)).*1 ++ he)) as C2' by (by eapply census_perm; [exact C2|done| |done..]).
  destruct (abort_ok C1 f C2') as (h & Hab & C1' & C2'' & Hk & Hpg). unfold abort_read. rewrite Hab. mred. unfold push_free. simpl.
  destruct (push_ok (free_frames c) f C3) as (s & -> & S1 & S2 & S3).
  { eapply push_fits; [done|exact C3'|apply (C2'' Free)|]. intros j Hj. exact (census_lt _ _ _ _ _ _ _ _ _ j Free C1' C2'' Hj). }
  mred. exists h, s. split_and!; try done; [|congruence]. by rewrite S2.
Qed.

Lemma abort_claim_cache n M V tks G lo fl he c f :
  cinv n M V tks G lo (f :: fl) he c → ¬ speculates (prefetch c) f →
  ∃ c', abort_read c (token_of a f) false = Done c' ∧ cinv n M V tks G lo fl he c' ∧ reads_in_flight c' = reads_in_flight c ∧
    global_epoch c' = global_epoch c ∧ miss c' = miss c.
Proof.
  intros Hc Hns. destruct (abort_free n M V V tks G lo (f :: fl) fl he c f Hc) as (h & s & -> & H1 & H2 & H3 & H4 & Hpg & Hk & _); [|done|].
  { symmetry. apply Permutation_middle. }
  eexists. split; [done|]. split; [|done].
  assert (in_state (frames c) f InFlight) as Hst by (apply (ci_census _ _ _ _ _ _ _ _ _ Hc InFlight); simpl; set_solver).
  pose proof (unwatched_frame _ _ _ _ _ _ _ _ _ _ _ Hc Hst (or_intror eq_refl)) as Hnw.
  destruct Hc as [C1 C2 [C3 C3'] C4 C5 C6 C7 C8 C9 C10 C11 C12 C13 C14 C15 C16 C17 C18 C19 C20].
  assert (∀ j, page_at h j = page_at (frames c) j) as Hpj by (intros j; unfold page_at; by rewrite Hpg).
  constructor; simpl; try done; try (intros; rewrite Hpj; eauto; fail).
  - intros j Hj. assert (j ≠ f) as Hne by (intros ->; done). rewrite !(Hk j _ Hne). by apply C17.
  - by eapply watches_kept.
Qed.

(** ** The end of a read *)

(** The miss of slot [i] has ended with [o]; it is forgotten when nobody waits for it. *)
Definition ended (tks : list PendingToken) (V V' : gmap N mread) (i : N) (m : mread) (o : Miss.MissOutcome) : Prop :=
  (V' = <[i := with_outcome o m]> V ∧ ¬ unwatched tks i) ∨ (V' = delete i V ∧ unwatched tks i).

Lemma ended_frames tks V V' i m o :
  ended tks V V' i m o → V !! i = Some m → m_outcome m = Pending → o ≠ Pending →
  pending_frames V ≡ₚ m_frame m :: pending_frames V'.
Proof.
  intros [[-> _]|[-> _]] Hm Hp Ho; [by apply pending_settle|]. rewrite (pending_settle V i m (with_outcome o m)) by done.
  rewrite <- (pending_delete (<[i := with_outcome o m]> V) i), delete_insert_eq; [done|]. intros x. rewrite lookup_insert_eq. by intros [= <-].
Qed.

Lemma ended_other tks V V' i m o j x : ended tks V V' i m o → j ≠ i → V' !! j = Some x ↔ V !! j = Some x.
Proof. intros [[-> _]|[-> _]] Hj; [by rewrite lookup_insert_ne|by rewrite lookup_delete_ne]. Qed.

Lemma ended_pending tks V V' i m o j x :
  ended tks V V' i m o → o ≠ Pending → V' !! j = Some x → m_outcome x = Pending → j ≠ i ∧ V !! j = Some x.
Proof.
  intros He Ho Hj Hx. destruct (decide (j = i)) as [->|Hne]; [|split; [done|by apply (ended_other _ _ _ _ _ _ _ _ He Hne)]].
  destruct He as [[-> _]|[-> _]]; [rewrite lookup_insert_eq in Hj; by simplify_eq|by rewrite lookup_delete_eq in Hj].
Qed.

Lemma ended_fades tks V V' i m o : ended tks V V' i m o → V !! i = Some m → o ≠ Pending → fades V V'.
Proof.
  intros He Hm Ho j x Hj. destruct (decide (j = i)) as [->|Hne]; [|exists x; split; [by apply (ended_other _ _ _ _ _ _ _ _ He Hne)|done]].
  destruct He as [[-> _]|[-> _]]; [rewrite lookup_insert_eq in Hj|by rewrite lookup_delete_eq in Hj].
  simplify_eq. exists m. split_and!; try done.
Qed.

(** [succeed] or [fail], with the cleaning that follows. *)
Lemma end_miss tks V t1 ints i m o t :
  mrep t1 ints tks (<[i := with_outcome o m]> V) → o ≠ Pending → Miss.same_shape t t1 →
  ∃ t' V', Miss.clean_terminal_zero t1 i (m_generation m) ints = Done t' ∧ mrep t' ints tks V' ∧ Miss.same_shape t t' ∧ ended tks V V' i m o.
Proof.
  intros Hr Ho Hsh. destruct (clean_map t1 ints tks _ i (with_outcome o m) Hr) as (t' & V' & He & Hr' & Hsh' & HV); [apply lookup_insert_eq|].
  simpl in *. exists t', V'. split_and!; try done.
  - destruct Hsh as (?&?&?&?), Hsh' as (?&?&?&?). split_and!; congruence.
  - destruct HV as [[-> [?|?]]|(-> & _ & ?)]; [done|by left|right]. by rewrite delete_insert_eq.
Qed.

Lemma finish_failure_cache n M V tks G lo fl he c i m e errno :
  cinv (1 + n) M V tks G lo fl he c → V !! i = Some m → m_outcome m = Pending → core e = m → errno ≠ 0%Z →
  ∃ c' V', drain_completions_finish_failure c i e (token_of a (m_frame m)) errno = Done c' ∧ cinv n M V' tks G lo fl he c' ∧
    (reads_in_flight c' = reads_in_flight c ∧ global_epoch c' = global_epoch c) ∧ ended tks V V' i m (Miss.Failed errno).
Proof.
  intros Hc Hm Hp <- Herr. simpl in *. pose proof (pending_state _ _ _ _ _ _ _ _ _ _ _ Hc Hm Hp) as Hst. simpl in Hst.
  pose proof (unwatched_frame _ _ _ _ _ _ _ _ _ _ _ Hc Hst (or_intror eq_refl)) as Hnw.
  pose proof (in_state_lt _ _ _ _ _ _ _ (ci_arena _ _ _ _ _ _ _ _ _ Hc) Hst) as Hf. unfold drain_completions_finish_failure, prefetch_fail.
  destruct (finish_cache n M V tks G lo fl he c (Miss.me_frame e) Ledger.Failed Hc Hf) as (x & -> & Hc1 & Hns & _). mred.
  destruct (ci_miss _ _ _ _ _ _ _ _ _ Hc1) as [Hr Hs]. simpl in Hr.
  destruct (fail_map _ _ _ _ i _ errno Hr Hm Hp Herr) as (t1 & Hfail & Hr1 & Hsh1).
  destruct (end_miss tks V t1 _ i _ _ _ Hr1 ltac:(done) Hsh1) as (t2 & V' & Hclean & Hr2 & Hsh2 & Hend). simpl in Hclean.
  destruct (abort_free n M V V' tks G lo fl fl he _ (Miss.me_frame e) Hc1) as (h & s & -> & H1 & H2 & H3 & H4 & Hpg & Hk & _); [|done|].
  { rewrite (ended_frames _ _ _ _ _ _ Hend Hm Hp) by done. done. }
  mred. simpl. rewrite Hfail. mred. rewrite Hclean. mred. eexists _, V'. split; [done|]. split; [|done].
  destruct Hc1 as [C1 C2 C3 C4 C5 C6 C7 C8 C9 C10 C11 C12 C13 C14 C15 C16 C17 C18 C19 C20].
  assert (∀ j, page_at h j = page_at (frames c) j) as Hpj by (intros j; unfold page_at; by rewrite Hpg).
  constructor; simpl in *; try done; try (intros; rewrite Hpj; eauto; fail).
  - split; [done|]. by eapply mshape_same.
  - intros j x' Hj Hpx. rewrite Hpj. destruct (ended_pending _ _ _ _ _ _ _ _ Hend ltac:(done) Hj Hpx) as [_ Hj']. by apply (C14 j).
  - intros j x' Hj Hpx. apply (C15 j); [|done]. destruct (decide (j = i)) as [->|Hne]; [|by apply (ended_other _ _ _ _ _ _ _ _ Hend Hne)].
    destruct Hend as [[-> _]|[-> _]]; [rewrite lookup_insert_eq in Hj; by simplify_eq|by rewrite lookup_delete_eq in Hj].
  - intros j Hj. assert (j ≠ Miss.me_frame e) as Hne by (intros ->; done). rewrite !(Hk j _ Hne). by apply C17.
  - by eapply watches_kept.
Qed.

(** A completed frame is entered as its clock entry: speculative ones are reported. *)
Lemma enter_clock n l k f :
  lgood n F l k → f < F →
  ∃ k', (speculative ← Clock.is_speculative k f;
         if speculative : bool then d ← DirtyFrames.notify (Clock.completed k) f; Done (Clock.set_completed k d)
         else '(k, _) ← Clock.reference k f; Done k) = Done k' ∧ lgood n F l k'.
Proof.
  intros Hg Hf. destruct (speculative_good _ _ _ _ _ Hg Hf) as (b & -> & _). mred. destruct b.
  - destruct (completed_good _ _ _ _ _ Hg Hf) as (d & -> & Hg'). mred. eauto.
  - unfold Clock.reference. destruct (touch_good _ _ _ _ f None Hg Hf) as (k' & b & -> & Hg'); [done|]. mred. eauto.
Qed.

Lemma finish_success_cache n M V tks G lo fl he c i m e :
  cinv (1 + n) M V tks G lo fl he c → V !! i = Some m → m_outcome m = Pending → core e = m →
  ∃ c' V', drain_completions_finish_success c i e (token_of a (m_frame m)) = Done c' ∧
    cinv n (<[m_page m := m_frame m]> M) V' tks ((m_frame m, FramePages.for_page (m_page m)) :: G) lo fl he c' ∧
    (reads_in_flight c' = reads_in_flight c ∧ global_epoch c' = global_epoch c) ∧ ended tks V V' i m Succeeded.
Proof.
  intros Hc Hm Hp <-. simpl in *. pose proof (pending_state _ _ _ _ _ _ _ _ _ _ _ Hc Hm Hp) as Hst. simpl in Hst. set (f := Miss.me_frame e) in *. set (p := Miss.me_page e) in *.
  pose proof (in_state_lt _ _ _ _ _ _ _ (ci_arena _ _ _ _ _ _ _ _ _ Hc) Hst) as Hf.
  pose proof Hc as [C1 C2 C3 C4 (T1 & T2 & T3) C6 C7 (P1 & P2 & P3) C9 C10 C11 [Hr Hs] C13 C14 C15 C16 C17 C18 C19 C20].
  destruct (C14 i _ Hm Hp) as (Hun & Hpage & Hslot). simpl in Hun, Hpage, Hslot. fold p in Hun, Hpage, Hslot. fold f in Hpage.
  destruct (succeed_map _ _ _ _ i _ Hr Hm Hp) as (t1 & Hsucc & Hr1 & Hsh1).
  destruct (end_miss tks V t1 _ i _ _ _ Hr1 ltac:(done) Hsh1) as (t2 & V' & Hclean & Hr2 & Hsh2 & Hend). simpl in Hclean.
  assert (census (frames c) (stack (free_frames c) ++ stack (Ledger.reserve (prefetch c)) ++ lo) (f :: pending_frames V' ++ fl)
    (map_to_list M).*2 ((Epoch.entries (evict_queue c)).*1 ++ he)) as C2'.
  { eapply census_perm; [exact C2|done| |done..]. by rewrite (ended_frames _ _ _ _ _ _ Hend Hm Hp). }
  destruct (frame_publish_ok C1 f C2') as (h & Hpub & C1' & C2'' & Hk & Hpg); [lia|]. replace (1 + n - 1) with n in C1' by lia.
  unfold drain_completions_finish_success. fold f p. rewrite Hpub. mred.
  destruct (PageTable.insert_ok (table c) M p f T1 T2) as (t & -> & T1' & T2' & Hcap).
  { right. rewrite <- (PageTable.rep_size _ _ T1 T2). pose proof (census_bounded _ _ _ _ _ _ _ _ _ Resident C1 C2) as Hb. simpl in Hb.
    unfold vlen in Hb. rewrite length_fmap, length_map_to_list in Hb. by eapply N.le_lt_trans. }
  mred. assert (f ∉ G.*1) as Hnew.
  { rewrite C9. intros Hin. apply elem_of_app in Hin as [Hin|Hin].
    - apply (census_disjoint _ _ _ _ _ f InFlight Resident C2') in Hin; [done|simpl; set_solver].
    - apply (census_disjoint _ _ _ _ _ f InFlight Evicting C2') in Hin; [done|simpl; set_solver]. }
  destruct (FileSlots.rep_slot (frame_pages c) G f P1) as (sl & Hsl & [[_ Hn0]|(v & Hv & _)]); [rewrite P2; lia| |].
  2: { exfalso. apply Hnew, list_elem_of_fmap. by exists (f, v). }
  destruct (FileSlots.slots_insert_ok (frame_pages c) G f (FramePages.for_page p) sl P1 Hsl Hn0) as (gp & -> & P1' & P2' & P3'); [rewrite P3; exact Hslot|]. mred.
  destruct (enter_clock _ _ _ f (lgood_le _ n _ _ _ C16 ltac:(lia)) Hf) as (k' & Hclk & Hg').
  rewrite <- (outcome_bind_assoc (Clock.is_speculative (clock c) f)). rewrite Hclk. mred.
  rewrite Hsucc. mred. rewrite Hclean. mred. eexists _, V'. split; [done|]. split; [|done].
  assert (∀ j, page_at h j = page_at (frames c) j) as Hpj by (intros j; unfold page_at; by rewrite Hpg).
  assert (map_to_list (<[p := f]> M) ≡ₚ (p, f) :: map_to_list M) as Hml by by apply map_to_list_insert.
  constructor; simpl; try done.
  - eapply census_perm; [exact C2''|done..| |done]. by rewrite Hml.
  - by rewrite Hcap.
  - lia.
  - split_and!; [done|congruence|]. unfold vlen in *. congruence.
  - rewrite Hml, C9. done.
  - intros j v Hv. rewrite Hpj. apply elem_of_cons in Hv as [[= -> ->]|Hv]; [eauto|by apply C10].
  - intros q j. rewrite Hpj, lookup_insert_Some. intros [[<- <-]|[_ Hq]]; [done|by apply C11].
  - split; [done|]. by eapply mshape_same.
  - eapply groom_le; [exact C13|lia].
  - intros j x Hj Hpx. rewrite Hpj. destruct (ended_pending _ _ _ _ _ _ _ _ Hend ltac:(done) Hj Hpx) as [Hne Hj'].
    destruct (C14 j x Hj' Hpx) as (? & ? & ?). split_and!; try done. apply lookup_insert_None. split; [done|]. intros Heq.
    apply Hne. symmetry. eapply (mrep_pages _ _ _ _ _ _ _ _ Hr Hm Hj'); done.
  - intros j x Hj Hpx. destruct (decide (j = i)) as [->|Hne].
    + destruct Hend as [[-> _]|[-> _]]; [rewrite lookup_insert_eq in Hj|by rewrite lookup_delete_eq in Hj]. simplify_eq. simpl. apply lookup_insert_eq.
    + apply (ended_other _ _ _ _ _ _ _ _ Hend Hne) in Hj. pose proof (C15 j x Hj Hpx) as Hmx. rewrite lookup_insert_ne; [done|]. intros Heq. congruence.
  - intros j Hj. destruct (decide (j = f)) as [->|Hne]; [right; apply (C2'' Resident); simpl; set_solver|]. rewrite !(Hk j _ Hne). by apply C17.
  - eapply watches_kept; [exact C18|done|by intros j _|]. eapply unwatched_frame; [exact Hc|exact Hst|by right].
Qed.

(** ** Reclaimed frames *)

Lemma forgotten_perm (G : list (N * FramePages.FrameFileSlot)) f l : NoDup G.*1 → G.*1 ≡ₚ f :: l → (FileSlots.without f G).*1 ≡ₚ l.
Proof.
  intros Hnd Hp. pose proof Hnd as Hnd'. rewrite Hp in Hnd'. apply NoDup_cons in Hnd' as [Hf Hl]. apply NoDup_Permutation.
  - eapply (sublist_NoDup _ _ Hnd). unfold FileSlots.without. apply fmap_sublist, sublist_filter.
  - done.
  - intros j. assert (j ∈ (FileSlots.without f G).*1 ↔ j ≠ f ∧ j ∈ G.*1) as ->.
    { unfold FileSlots.without. rewrite !list_elem_of_fmap. setoid_rewrite list_elem_of_filter. split; [intros ([] & -> & ? & ?); eauto 10|].
      intros (Hne & [j' v] & -> & Hin). eauto 10. }
    rewrite Hp, elem_of_cons. split; [naive_solver|]. intros Hj. split; [|by right]. by intros ->.
Qed.

Lemma reclaim_cache n M V tks G lo fl he he' c q q' f :
  cinv n M V tks G lo fl he (set_queue c q) →
  (Epoch.entries q).*1 ++ he ≡ₚ f :: (Epoch.entries q').*1 ++ he' → Epoch.capacity q' = Epoch.capacity q →
  (∀ f', f' ≠ f → ∀ t, (f', t) ∈ Epoch.entries q' ↔ (f', t) ∈ Epoch.entries q) → (∀ t, (f, t) ∉ Epoch.entries q') → (∀ pg e, (f, pg, e) ∉ W) →
  ∃ c', reclaim_frame c f = Done c' ∧ cinv n M V tks (FileSlots.without f G) lo fl he' (set_queue c' q') ∧
    reads_in_flight c' = reads_in_flight c ∧ global_epoch c' = global_epoch c ∧ evict_queue c' = evict_queue c ∧ miss c' = miss c.
Proof.
  intros Hc Hperm Hcap Hsub Hgone Hnw. pose proof Hc as [C1 C2 [C3 C3'] C4 C5 [C6 C6'] C7 (P1 & P2 & P3) C9 C10 C11 C12 C13 C14 C15 C16 C17 C18 C19 C20]. simpl in *.
  assert (census (frames c) (stack (free_frames c) ++ stack (Ledger.reserve (prefetch c)) ++ lo) (pending_frames V ++ fl)
    (map_to_list M).*2 (f :: (Epoch.entries q').*1 ++ he')) as C2' by (by eapply census_perm; [exact C2|done..|]).
  destruct (freed_ok C1 f C2') as (h & Hadv & C1' & C2'' & Hk & Hpg). unfold reclaim_frame. rewrite Hadv. mred. unfold push_free. simpl.
  destruct (push_ok (free_frames c) f C3) as (s & -> & S1 & S2 & S3).
  { eapply push_fits; [done|exact C3'|apply (C2'' Free)|]. intros j Hj. exact (census_lt _ _ _ _ _ _ _ _ _ j Free C1' C2'' Hj). }
  mred. assert (f ∈ G.*1) as Hin.
  { rewrite C9. apply elem_of_app. right. rewrite Hperm. set_solver. }
  apply list_elem_of_fmap in Hin as ([f' v] & -> & Hv). simpl in *.
  destruct (FileSlots.slots_remove_ok (frame_pages c) G f' v P1 Hv) as (gp & -> & P1' & P2' & P3'). mred.
  eexists. split; [done|]. split; [|done].
  assert (∀ j, page_at h j = page_at (frames c) j) as Hpj by (intros j; unfold page_at; by rewrite Hpg).
  constructor; simpl; try done; try (intros; rewrite Hpj; eauto; fail).
  - eapply census_perm; [exact C2''| |done..]. by rewrite S2.
  - split; [done|congruence].
  - split; [congruence|]. intros f0 t0 H0. eapply (C6' f0), Hsub; [|done]. intros ->. by eapply Hgone.
  - split_and!; [done|congruence|]. unfold vlen in *. congruence.
  - apply forgotten_perm; [apply P1|]. rewrite C9, Hperm. symmetry. apply Permutation_middle.
  - intros j v' Hv'. rewrite Hpj. apply C10. unfold FileSlots.without in Hv'. by apply list_elem_of_filter in Hv' as [_ ?].
  - intros j Hj. assert (j ≠ f') as Hne.
    { intros ->. assert (in_state (frames c) f' Evicting) as Hev by (apply (C2' Evicting); simpl; set_solver).
      destruct (C17 _ Hj) as [Hx|Hx]; pose proof (in_state_fun _ _ _ _ Hev Hx); done. }
    rewrite !(Hk j _ Hne). by apply C17.
  - intros j pg e Hj. assert (j ≠ f') as Hne by (intros ->; by eapply Hnw). destruct (C18 j pg e Hj) as (? & ? & Hor). rewrite Hpj, (Hk j _ Hne).
    split_and!; [done..|]. setoid_rewrite (Hsub j Hne). done.
Qed.

(** ** Retirement *)

Lemma retire_frames_cache n M V tks G lo fl he file : ∀ l c,
  cinv (vlen l + n) M V tks G lo fl he c → (∀ f v, (f, v) ∈ l → f < F) →
  ∃ c' M' V', retire_frames c file l = Done c' ∧ passes n M V tks lo fl he c M' V' G c'.
Proof.
  intros l. revert M V. induction l as [|[f v] l IH]; intros M V c Hc Hl; simpl.
  - exists c, M, V. split; [done|]. apply passes_refl. eapply cinv_le; [exact Hc|unfold vlen; simpl; lia].
  - assert (vlen ((f, v) :: l) + n = 1 + (vlen l + n)) as Hlen by (unfold vlen; simpl; lia). rewrite Hlen in Hc. clear Hlen.
    assert (cinv (vlen l + n) M V tks G lo fl he c) as Hskip by (eapply cinv_le; [exact Hc|lia]).
    assert (∀ f v, (f, v) ∈ l → f < F) as Hl' by (intros f0 v0 H0; apply (Hl f0 v0); by right).
    destruct (is_resident_ok _ _ _ _ _ _ _ _ _ f Hc) as (b & -> & Hb); [apply (Hl f v); by left|]. mred. destruct b; simpl negb; [|by apply IH].
    destruct (resident_mapped _ _ _ _ _ _ _ _ _ _ Hc (proj1 Hb eq_refl)) as (p & Hp & Hpg).
    rewrite (exact_page_ok (ci_arena _ _ _ _ _ _ _ _ _ Hc) f p Resident) by (try done; by (apply Hb || left)). mred.
    case_bool_decide; simpl negb; [|by apply IH].
    destruct (prepare_cache _ _ _ _ _ _ _ _ _ f Hc) as (m & u & V1 & -> & Hc1 & Hsp & Hfa & Hu & _); [apply (Hl f v); by left|]. mred. destruct u; simpl negb.
    + destruct (unmap_cache _ _ _ _ _ _ _ _ _ p f Hc1 Hp (Hu eq_refl)) as (t & c2 & -> & Hbe & Hc2 & _ & _ & _ & Hrd & Hep & _). mred. rewrite Hbe. mred.
      destruct (IH (delete p M) V1 c2 Hc2 Hl') as (c' & M' & V' & He & Hps). exists c', M', V'. split; [done|].
      eapply passes_trans; [exact Hsp| |exact (conj Hrd Hep)|exact Hps]. eapply settles_trans; [by apply settles_fades|apply settles_unmap].
    + assert (cinv (vlen l + n) M V1 tks G lo fl he (set_miss c m)) as Hc1' by (eapply cinv_le; [exact Hc1|lia]).
      destruct (IH M V1 _ Hc1' Hl') as (c' & M' & V' & He & Hps). exists c', M', V'. split; [done|].
      eapply passes_trans; [exact Hsp|by apply settles_fades| |exact Hps]. done.
Qed.

Lemma retire_file_frames_cache n M V tks G lo fl he c file :
  cinv (F + n) M V tks G lo fl he c → fid_slot file < fcap →
  ∃ c' M' V', retire_file_frames c file = Done c' ∧ passes n M V tks lo fl he c M' V' G c'.
Proof.
  intros Hc Hs. destruct (ci_pages _ _ _ _ _ _ _ _ _ Hc) as (P1 & P2 & P3). unfold retire_file_frames.
  rewrite (FileSlots.for_file_ok _ _ _ P1) by by rewrite P3. mred.
  assert (∀ f v, (f, v) ∈ FileSlots.owned (fid_slot file) G → f < F) as Hl.
  { intros f v [_ Hv]%list_elem_of_filter. destruct (registered_state _ _ _ _ _ _ _ _ _ _ _ Hc Hv) as [Hx|Hx]; by eapply in_state_lt; [apply Hc|]. }
  apply retire_frames_cache; [|done]. eapply cinv_le; [exact Hc|].
  assert (vlen (FileSlots.owned (fid_slot file) G) ≤ F); [|lia].
  assert (vlen (FileSlots.owned (fid_slot file) G).*1 ≤ F) as Hb.
  { apply nodup_bounded; [apply FileSlots.owned_nodup, P1|]. intros i ([f v] & -> & Hv)%list_elem_of_fmap. by apply (Hl f v). }
  unfold vlen in *. by rewrite length_fmap in Hb.
Qed.

Lemma any_frame_live_cache n M V tks G lo fl he c file l :
  cinv n M V tks G lo fl he c → (∀ x, x ∈ l → x ∈ G) →
  ∃ b, any_frame_live c file l = Done b ∧ (b = false → ∀ f v p, (f, v) ∈ l → page_at (frames c) f = Some (Some p) → pg_file p ≠ file).
Proof.
  intros Hc. induction l as [|[f v] l IH]; intros Hl; simpl; [exists false; split; [done|]; intros _ ? ? ? ?%elem_of_nil; done|].
  destruct (ci_named _ _ _ _ _ _ _ _ _ Hc f v) as (p & Hp & Hv); [apply Hl; by left|].
  assert (∃ s, in_state (frames c) f s ∧ (s = Resident ∨ s = Evicting)) as (s & Hs & Hsr).
  { destruct (registered_state _ _ _ _ _ _ _ _ _ f v Hc) as [Hx|Hx]; [apply Hl; by left|eauto|eauto]. }
  rewrite (state_of (ci_arena _ _ _ _ _ _ _ _ _ Hc) _ _ Hs). mred.
  assert (bool_decide (s = Resident) || bool_decide (s = Evicting) = true) as -> by by destruct Hsr as [->| ->]. mred.
  rewrite (exact_page_ok (ci_arena _ _ _ _ _ _ _ _ _ Hc) f p s Hs Hsr Hp). mred. case_bool_decide as Hf; [by exists true|].
  destruct IH as (b & -> & Hb); [intros x Hx; apply Hl; by right|]. exists b. split; [done|].
  intros Hbf f' v' p' [[= -> ->]|Hin]%elem_of_cons Hp'; [congruence|by eapply Hb].
Qed.

Lemma frames_live_cache n M V tks G lo fl he c file :
  cinv n M V tks G lo fl he c → fid_slot file < fcap →
  ∃ b, frames_live c file = Done b ∧ (b = false → ∀ p f, M !! p = Some f → pg_file p ≠ file).
Proof.
  intros Hc Hs. destruct (ci_pages _ _ _ _ _ _ _ _ _ Hc) as (P1 & P2 & P3). unfold frames_live.
  rewrite (FileSlots.for_file_ok _ _ _ P1) by by rewrite P3. mred.
  destruct (any_frame_live_cache _ _ _ _ _ _ _ _ _ file (FileSlots.owned (fid_slot file) G) Hc) as (b & -> & Hb).
  { by intros x [_ ?]%list_elem_of_filter. }
  exists b. split; [done|]. intros Hbf p f Hp Hfile. pose proof (ci_mapped _ _ _ _ _ _ _ _ _ Hc p f Hp) as Hpg.
  assert (f ∈ G.*1) as ([f' v] & -> & Hv)%list_elem_of_fmap.
  { rewrite (ci_registry _ _ _ _ _ _ _ _ _ Hc). apply elem_of_app. left. apply list_elem_of_fmap. exists (p, f). split; [done|]. by apply elem_of_map_to_list. }
  simpl in *. destruct (ci_named _ _ _ _ _ _ _ _ _ Hc _ _ Hv) as (p' & Hp' & ->). rewrite Hpg in Hp'. injection Hp' as <-.
  apply (Hb Hbf f' (FramePages.for_page p) p); [|done|done]. apply list_elem_of_filter. split; [|done]. by rewrite <- Hfile.
Qed.

(** ** Admissions and waiters *)

Lemma pending_len_frames t ints tks V : mrep t ints tks V → Miss.pending_len t = vlen (pending_frames V).
Proof. intros Hr. rewrite (mrep_count _ _ _ _ Hr). unfold vlen, pending_frames. by rewrite length_fmap, length_map_to_list. Qed.

Lemma admit_cache n M V tks G lo fl he c i page f token init :
  cinv (1 + n) M V tks G lo (f :: fl) he c → i < F → unwatched tks i → (∀ m, V !! i = Some m → m_outcome m ≠ Pending) →
  vlen (pending_frames V) < reads → fid_slot (pg_file page) < fcap → M !! page = None → page_at (frames c) f = Some (Some page) →
  (∀ j m, V !! j = Some m → m_outcome m = Pending → m_page m ≠ page) →
  ∃ t ints gen, Miss.admit_initial (miss c) i page f token (miss_interests c) init = Done (t, ints, gen) ∧
    cinv n M (<[i := mkMiss page f token gen 0 Pending]> V)
      (match init with Miss.Demand => [MissSystem.mkPendingToken page i gen] | Miss.Speculative => [] end ++ tks) G lo fl he
      (set_interests (set_miss c t) ints).
Proof.
  intros Hc Hi Hun Hno Hlen Hslot Hmap Hpage Hpages. pose proof Hc as [C1 C2 C3 C4 C5 C6 C7 C8 C9 C10 C11 [Hr Hs] C13 C14 C15 C16 C17 C18 C19 C20].
  assert (in_state (frames c) f InFlight) as Hst by (apply (C2 InFlight); simpl; set_solver).
  assert (∀ j m, V !! j = Some m → holds m → m_frame m ≠ f) as Hframes.
  { intros j m Hm [Hp|Hp] Heq.
    - destruct (C2 InFlight) as [Hnd _]. simpl in Hnd. apply NoDup_app in Hnd as (_ & Hd & _). apply (Hd f); [|set_solver]. apply elem_pending. eauto.
    - pose proof (mapped_state _ _ _ _ _ _ _ _ _ _ _ Hc (C15 j m Hm Hp)) as Hres. rewrite Heq in Hres. pose proof (in_state_fun _ _ _ _ Hst Hres). done. }
  destruct (admit_map (miss c) (miss_interests c) tks V F fcap reads i page f token init n) as (t & ints & gen & He & Hr' & Hs' & Hg'); try done.
  { by rewrite (pending_len_frames _ _ _ _ Hr). }
  { by eapply in_state_lt. }
  exists t, ints, gen. split; [done|]. constructor; simpl; try done.
  - eapply arena_le; [exact C1|lia].
  - eapply census_perm; [exact C2|done| |done..]. rewrite pending_admit by done. simpl. symmetry. apply Permutation_middle.
  - lia.
  - intros j m [[<- <-]|[Hne Hm]]%lookup_insert_Some Hp; [done|by apply (C14 j)].
  - intros j m [[<- <-]|[Hne Hm]]%lookup_insert_Some Hp; [done|by apply (C15 j)].
  - eapply lgood_le; [exact C16|lia].
Qed.

Lemma cinv_interests n M V tks tks' G lo fl he c ints :
  cinv n M V tks G lo fl he c → mrep (miss c) ints tks' V → groom n ints → cinv n M V tks' G lo fl he (set_interests c ints).
Proof. intros [C1 C2 C3 C4 C5 C6 C7 C8 C9 C10 C11 [C12 C12'] C13 C14 C15 C16 C17 C18 C19 C20] Hr Hg. by constructor. Qed.

Lemma join_cache n M V tks G lo fl he c i m :
  cinv n M V tks G lo fl he c → V !! i = Some m → m_outcome m = Pending → N.of_nat (length tks) < U32_MAX →
  ∃ ints, Miss.join (miss c) i (miss_interests c) = Done (ints, (i, m_generation m)) ∧
    cinv n M V (MissSystem.mkPendingToken (m_page m) i (m_generation m) :: tks) G lo fl he (set_interests c ints).
Proof.
  intros Hc Hm Hp Hlen. destruct (ci_miss _ _ _ _ _ _ _ _ _ Hc) as [Hr Hs]. destruct (join_map _ _ _ _ i m Hr Hm Hp Hlen) as (ints & He & Hr' & Hg).
  exists ints. split; [done|]. eapply cinv_interests; [done..|]. apply Hg, Hc.
Qed.

Lemma release_cache n M V tks1 tk tks2 G lo fl he c :
  cinv n M V (tks1 ++ tk :: tks2) G lo fl he c →
  ∃ ints left, Miss.release (miss_interests c) (MissSystem.tk_slot tk) (MissSystem.tk_generation tk) = Done (ints, left) ∧
    cinv n M V (tks1 ++ tks2) G lo fl he (set_interests c ints) ∧
    Miss.waiters ints (MissSystem.tk_slot tk) (MissSystem.tk_generation tk) = Done (Some left).
Proof.
  intros Hc. destruct (ci_miss _ _ _ _ _ _ _ _ _ Hc) as [Hr Hs]. destruct (release_map _ _ _ _ _ _ Hr) as (ints & left & He & Hr' & Hw & Hg).
  exists ints, left. split_and!; try done. eapply cinv_interests; [done..|]. apply Hg, Hc.
Qed.

Lemma clean_cache n M V tks G lo fl he c i m :
  cinv n M V tks G lo fl he c → V !! i = Some m → m_outcome m ≠ Pending →
  ∃ t V', Miss.clean_terminal_zero (miss c) i (m_generation m) (miss_interests c) = Done t ∧ cinv n M V' tks G lo fl he (set_miss c t) ∧
    same_pending V V' ∧ fades V V'.
Proof.
  intros Hc Hm Hp. destruct (ci_miss _ _ _ _ _ _ _ _ _ Hc) as [Hr Hs].
  destruct (clean_map _ _ _ _ i m Hr Hm) as (t & V' & He & Hr' & Hsh & HV). exists t, V'. split; [done|].
  destruct HV as [[-> _]|(-> & _ & _)].
  - split_and!; [by eapply cinv_miss; eauto|done|apply fades_refl].
  - assert (∀ x, V !! i = Some x → m_outcome x ≠ Pending) as Hno by (intros x Hx; by simplify_eq).
    split_and!; [by apply cinv_forget|by apply same_pending_delete|apply fades_delete].
Qed.

Lemma advance_remainder_cache n M V tks G lo fl he c i m filled token :
  cinv n M V tks G lo fl he c → V !! i = Some m → m_outcome m = Pending →
  ∃ t, Miss.advance_remainder (miss c) i filled token = Done t ∧ cinv n M (<[i := with_read filled token m]> V) tks G lo fl he (set_miss c t).
Proof.
  intros Hc Hm Hp. destruct (ci_miss _ _ _ _ _ _ _ _ _ Hc) as [Hr Hs]. destruct (advance_remainder_map _ _ _ _ i m filled token Hr Hm Hp) as (t & He & Hr' & Hsh).
  exists t. split; [done|]. eapply cinv_miss; [done..|by eapply pending_keep|]. intros j x [[<- <-]|[Hne Hj]]%lookup_insert_Some _; [exists m|exists x]; done.
Qed.
End invariant.
End PoolInv.
