(* ===== verification/PoolControl.v ===== *)
(** * The control pass of the pool

    The composed pool of src/src/pool/mod.rs and src/src/pool/prefetch.rs over any backend
    ([PoolBackend]) and any retention ([Retainer]): [get] and [ready], the routing of
    completions (src/src/pool/read_spans.rs for the vectored ones), claiming with one
    bounded reclaim, epoch advance and reclamation, and retirement; speculative reads and
    the polls are in [PoolPrefetch].  Each definition is
    what runs under one acquisition of the control lock; [get] first tries its lock-free
    hit.  Wake-ups, which only unblock waiting threads, and the benchmarks' observations
    are left out. *)
From stdpp Require Import prelude gmap list.
From Stdlib Require Import NArith ZArith Lia.
From S2P Require Import Prelude Ids Table Frames Alignment Clock Epoch FileSlots Miss Pattern IndexQueue Execute ReadVector ReadSpans Driver PoolBackend Product Ledger PoolCache.

Open Scope N_scope.

Module PoolControl.
Import Frames Execute Driver PoolBackend.PoolBackend PoolCache.
Abbreviation Product := Product.Product.
Abbreviation PoolFile := Product.PoolFile.
Abbreviation PendingToken := MissSystem.PendingToken.
Abbreviation mkPendingToken := MissSystem.mkPendingToken.

(** ** Retained frames

    What the control pass asks of src/src/pool/retention.rs.  [drain_releases] answers the
    frames its callback is called with; the callback does not touch the retention. *)
Class Retainer (R : Type) := {
  release_drain_needed : R → outcome (option bool);
  drain_releases : R → N → outcome (R * list ReadFrameIdx);
  occupied_budget : R → N;
  matured_outcome : R → ReadFrameIdx → N → outcome (R * Epoch.FrameOutcome);
  mark_file_retiring : R → N → outcome R;
  clear_file_retiring : R → N → outcome R;
}.

(** ** State *)

Record Pool (B R : Type) := mkPool {
  cache : Cache;
  product : Product B;
  batch : list Completion;
  read_spans : ReadSpans.ReadSpans;
  readers : list Epoch.ReaderSlot;
  retention : R;
  pending_releases : N;
}.
Arguments mkPool {B R}.
Arguments cache {B R}.
Arguments product {B R}.
Arguments batch {B R}.
Arguments read_spans {B R}.
Arguments readers {B R}.
Arguments retention {B R}.
Arguments pending_releases {B R}.

Inductive Get :=
  | Hit (frame : ReadFrameIdx)
  | GetPending (token : PendingToken)
  | Busy.

Inductive GetError := StaleFile (page : PageId).

Inductive ReadyResult :=
  | Ready (frame : ReadFrameIdx)
  | NotYet (token : PendingToken)
  | ReadyErr (errno : Z).

Inductive RetireStatus := StatusRetiring | StatusRetired.

Definition SHORT_READ_EOF_ERRNO : Z := 5.

(** ** Reads *)

Definition read_span (page : PageId) (granule filled : N) : outcome (N * N) :=
  base ← expect (checked_mul U64_MAX (pg_granule_idx page) granule);
  offset ← add_ U64_MAX base filled;
  len ← sub_ granule filled;
  Done (offset, len).

Definition route_completion_batch_remainder_satisfies_io_mode (m : IoMode) (file_offset destination_offset len : N) :
    outcome bool :=
  match m with
  | Buffered => Done true
  | Direct a =>
      r ← Alignment.check a file_offset;
      match r with
      | inr _ => Done false
      | inl _ =>
          r ← Alignment.check a destination_offset;
          match r with
          | inr _ => Done false
          | inl _ => r ← Alignment.check a len; Done (match r with inl _ => true | inr _ => false end)
          end
      end
  end.

Section pool.
Context {B R : Type} `{!PoolBackend B} `{!Retainer R}.
Context (identity granule frame_count max_inflight_reads : N).
Implicit Types (p : Pool B R) (c : Cache).

Definition set_cache p (x : Cache) : Pool B R :=
  mkPool x (product p) (batch p) (read_spans p) (readers p) (retention p) (pending_releases p).
Definition set_product p (x : Product B) : Pool B R :=
  mkPool (cache p) x (batch p) (read_spans p) (readers p) (retention p) (pending_releases p).
Definition set_batch p (x : list Completion) : Pool B R :=
  mkPool (cache p) (product p) x (read_spans p) (readers p) (retention p) (pending_releases p).
Definition set_spans p (x : ReadSpans.ReadSpans) : Pool B R :=
  mkPool (cache p) (product p) (batch p) x (readers p) (retention p) (pending_releases p).
Definition set_readers p (x : list Epoch.ReaderSlot) : Pool B R :=
  mkPool (cache p) (product p) (batch p) (read_spans p) x (retention p) (pending_releases p).
Definition set_retention p (x : R) : Pool B R :=
  mkPool (cache p) (product p) (batch p) (read_spans p) (readers p) x (pending_releases p).
Definition set_releases p (x : N) : Pool B R :=
  mkPool (cache p) (product p) (batch p) (read_spans p) (readers p) (retention p) x.

Definition driver p : B := Product.driver (product p).
Definition set_driver p (b : B) : Pool B R := set_product p (Product.set_driver (product p) b).

(** A step of the cache alone. *)
Definition on_cache {A} p (r : outcome (Cache * A)) : outcome (Pool B R * A) := '(c, a) ← r; Done (set_cache p c, a).
Definition on_cache_ p (r : outcome Cache) : outcome (Pool B R) := c ← r; Done (set_cache p c).

Definition submit_page_read p (page : PageId) (write : InFlightFrame) (purpose : ReadPurpose) :
    outcome (Pool B R * (OpToken + SubmitError * InFlightFrame)) :=
  '(offset, len) ← read_span page granule 0;
  fd ← Product.registered_file (Product.files (product p)) (pg_file page);
  '(b, r) ← submit_read (driver p) fd write offset 0 len purpose;
  Done (set_driver p b, r).

(** ** Routing *)

Definition route_read_completion_remainder p (index : N) (e : Miss.MissEntry) (write : InFlightFrame) (filled : N) :
    outcome (Pool B R) :=
  '(offset, len) ← read_span (Miss.me_page e) granule filled;
  fd ← Product.registered_file (Product.files (product p)) (pg_file (Miss.me_page e));
  satisfied ← route_completion_batch_remainder_satisfies_io_mode (fh_mode fd) offset filled len;
  '(p, resubmitted) ← (if satisfied : bool then
      '(b, r) ← submit_read (driver p) fd write offset filled len ContinuationRead;
      Done (set_driver p b, match r with inl t => inl t | inr (_, w) => inr w end)
    else Done (p, inr write));
  match resubmitted with
  | inl token =>
      m ← Miss.advance_remainder (miss (cache p)) index filled token;
      Done (set_cache p (set_miss (cache p) m))
  | inr write =>
      c ← release_read_credit (cache p);
      c ← drain_completions_finish_failure c index e write SHORT_READ_EOF_ERRNO;
      Done (set_cache p c)
  end.

Definition route_read_completion p (index : N) (e : Miss.MissEntry) (write : InFlightFrame) (r : result) :
    outcome (Pool B R) :=
  match r with
  | inl bytes =>
      if bytes =? 0 then
        c ← release_read_credit (cache p);
        on_cache_ p (drain_completions_finish_failure c index e write SHORT_READ_EOF_ERRNO)
      else
        filled ← add_ U32_MAX (Miss.me_filled e) bytes;
        if granule <=? filled then
          c ← release_read_credit (cache p);
          on_cache_ p (drain_completions_finish_success c index e write)
        else route_read_completion_remainder p index e write filled
  | inr errno =>
      c ← release_read_credit (cache p);
      on_cache_ p (drain_completions_finish_failure c index e write errno)
  end.

(** The closure of [take_remaining] in [route_span_failure], over its calls; the number of
    destinations failed before the first of them. *)
Fixpoint fail_each (span : ReadSpans.ReadSpan) (errno : Z) c (failed : N) (calls : list (N * InFlightFrame)) :
    outcome (Cache * N) :=
  match calls with
  | [] => Done (c, failed)
  | (ordinal, write) :: calls =>
      assertb (ordinal =? ReadSpans.published span + failed);;
      '(index, e) ← ReadSpans.entry span (miss c) ordinal write;
      c ← release_read_credit c;
      c ← drain_completions_finish_failure c index e write errno;
      fail_each span errno c (failed + 1) calls
  end.

Definition route_span_failure p (slot : N) (span : ReadSpans.ReadSpan) (vector : ReadVector.ReadVector) (errno : Z) :
    outcome (Pool B R) :=
  '(calls, _) ← ReadVector.take_remaining vector;
  '(c, failed) ← fail_each span errno (cache p) 0 calls;
  assertb (ReadSpans.published span + failed =? ReadSpans.count span);;
  rs ← ReadSpans.finish (read_spans p) slot (ReadSpans.token span);
  Done (set_spans (set_cache p c) rs).

Definition publish_page (span : ReadSpans.ReadSpan) c (ordinal : N) (write : InFlightFrame) : outcome Cache :=
  '(index, e) ← ReadSpans.entry span (miss c) ordinal write;
  c ← release_read_credit c;
  drain_completions_finish_success c index e write.

Definition drop_continuation_of p (continuation : option OpToken) : outcome (Pool B R) :=
  match continuation with
  | Some t => b ← drop_continuation (driver p) t; Done (set_driver p b)
  | None => Done p
  end.

Definition route_span_completion p (token : OpToken) (vector : ReadVector.ReadVector) (continuation : option OpToken)
    (r : result) : outcome (Pool B R) :=
  '(o, rs) ← ReadSpans.completing (read_spans p) token;
  '(slot, span) ← expect o;
  let p := set_spans p rs in
  let bytes := transferred r in
  '(span, vector, c) ← ReadSpans.publish_completed (frames (cache p)) span vector bytes granule publish_page (cache p);
  let p := set_cache p c in
  complete ← ReadSpans.is_complete span;
  if complete : bool then
    rs ← ReadSpans.finish (read_spans p) slot token;
    drop_continuation_of (set_spans p rs) continuation
  else if 0 <? bytes then
    continuation ← expect continuation;
    '(b, r) ← continue_read_vector (frames (cache p)) (driver p) continuation vector;
    let p := set_driver p b in
    match r with
    | inl resubmitted =>
        assertb (resubmitted =? token);;
        rs ← ReadSpans.resume (read_spans p) slot span;
        Done (set_spans p rs)
    | inr (errno, vector) => route_span_failure p slot span vector errno
    end
  else
    p ← route_span_failure p slot span vector (match r with inr errno => errno | inl _ => SHORT_READ_EOF_ERRNO end);
    drop_continuation_of p continuation.

Definition route_completion p (completion : Completion) : outcome (Pool B R) :=
  match c_frame completion with
  | Some (Vector vector) =>
      assertb (bool_decide (c_kind completion = Read));;
      route_span_completion p (c_token completion) vector (c_continuation completion) (c_result completion)
  | destination =>
      assertb (match c_continuation completion with None => true | Some _ => false end);;
      let write := match destination with Some (Point f) => Some f | _ => None end in
      if negb (bool_decide (c_kind completion = Read)) then
        assertb (match write with None => true | Some _ => false end);;
        q ← Product.finish_product_completion (product p) (c_token completion) (c_kind completion) (c_result completion);
        Done (set_product p q)
      else
        o ← Miss.find_by_token (miss (cache p)) (c_token completion);
        match o with
        | None =>
            match write with
            | Some write => on_cache_ p (abort_read (cache p) write false)
            | None => Done p
            end
        | Some index =>
            write ← expect write;
            e ← Miss.entry (miss (cache p)) index;
            assertb (InFlightFrame_frame write =? Miss.me_frame e);;
            route_read_completion p index e write (c_result completion)
        end
  end.

(** [CompletionBatch::pop]. *)
Definition batch_pop (l : list Completion) : list Completion * option Completion :=
  match rev l with [] => ([], None) | c :: r => (rev r, Some c) end.

(** The loop of [route_completion_batch]: every completion of the batch is popped once. *)
Fixpoint route_each (n : nat) p : outcome (Pool B R) :=
  match n with
  | O => Done p
  | S n =>
      let '(rest, o) := batch_pop (batch p) in
      match o with
      | None => Done p
      | Some completion => p ← route_completion (set_batch p rest) completion; route_each n p
      end
  end.

Definition route_completion_batch p : outcome (Pool B R) :=
  p ← route_each (length (batch p)) p;
  q ← Product.submit_held_fsyncs (product p);
  Done (set_product p q).

(** Without the number of completions, which only the caller's report uses. *)
Definition drain_completions p : outcome (Pool B R) :=
  '(b, cs) ← poll_progress (driver p);
  route_completion_batch (set_batch (set_driver p b) (batch p ++ cs)).

(** ** Reclamation *)

Fixpoint reclaim_released c (l : list ReadFrameIdx) : outcome Cache :=
  match l with
  | [] => Done c
  | frame :: l =>
      s ← Frames.state (frames c) frame;
      assertb (bool_decide (s = Evicting));;
      c ← reclaim_frame c frame;
      reclaim_released c l
  end.

Definition mature_held (st : Cache * R) (frame : ReadFrameIdx) (tag : N) : outcome (Cache * R * Epoch.FrameOutcome) :=
  let '(c, r) := st in
  '(r, o) ← matured_outcome r frame tag;
  c ← (if bool_decide (o = Epoch.Freed) then reclaim_frame c frame else Done c);
  Done (c, r, o).

Definition mature_free (c : Cache) (frame : ReadFrameIdx) (tag : N) : outcome (Cache * Epoch.FrameOutcome) :=
  c ← reclaim_frame c frame; Done (c, Epoch.Freed).

Definition advance_and_reclaim p : outcome (Pool B R * N) :=
  needed ← release_drain_needed (retention p);
  '(p, released) ← match needed with
      | Some true =>
          '(r, l) ← drain_releases (retention p) (global_epoch (cache p));
          c ← reclaim_released (cache p) l;
          Done (set_retention (set_cache p c) r, vlen l)
      | _ => Done (p, 0)
      end;
  '(epoch, advanced) ← Epoch.advance_epoch (global_epoch (cache p)) (readers p);
  let c := set_epoch (cache p) epoch in
  let occupied := match needed with Some _ => negb (occupied_budget (retention p) =? 0) | None => false end in
  if occupied then
    '(q, (c, r), matured) ← Epoch.drain_matured mature_held (evict_queue c) advanced (c, retention p);
    Done (set_retention (set_cache p (set_queue c q)) r, released + matured)
  else
    '(q, c, matured) ← Epoch.drain_matured mature_free (evict_queue c) advanced c;
    Done (set_cache p (set_queue c q), released + matured).

Definition claim_frame_bounded p : outcome (Pool B R * option ReadFrameIdx) :=
  '(p, o) ← on_cache p (claim_free_frame (cache p));
  match o with
  | Some frame => Done (p, Some frame)
  | None =>
      p ← drain_completions p;
      '(p, _) ← advance_and_reclaim p;
      '(p, o) ← on_cache p (claim_free_frame (cache p));
      match o with
      | Some frame => Done (p, Some frame)
      | None =>
          c ← evict_one_victim frame_count (cache p);
          '(p, _) ← advance_and_reclaim (set_cache p c);
          on_cache p (claim_free_frame (cache p))
      end
  end.

Definition claim_frame p : outcome (Pool B R * option ReadFrameIdx) :=
  '(p, o) ← claim_frame_bounded p;
  match o with
  | None => Done (p, None)
  | Some frame => s ← Frames.state (frames (cache p)) frame; assertb (bool_decide (s = Free));; Done (p, Some frame)
  end.

(** ** Readers *)

Definition pin_owned p (reader : N) (page : PageId) : outcome (Pool B R * option ReadFrameIdx) :=
  slot ← vget (readers p) reader;
  '(slot, begun) ← Epoch.begin_pin slot (global_epoch (cache p));
  mapped ← PageTable.lookup (table (cache p)) page;
  match mapped with
  | None =>
      slot ← Epoch.abort_pin slot begun;
      rs ← vset (readers p) reader slot;
      Done (set_readers p rs, None)
  | Some frame =>
      '(k, _) ← Clock.reference_from (clock (cache p)) frame (Epoch.reader_index slot);
      slot ← Epoch.commit_pin slot begun;
      rs ← vset (readers p) reader slot;
      Done (set_readers (set_cache p (set_clock (cache p) k)) rs, Some frame)
  end.

(** [Drop] of a [FrameGuard]. *)
Definition drop_guard p (reader : N) : outcome (Pool B R) :=
  slot ← vget (readers p) reader;
  slot ← Epoch.release_guard slot;
  rs ← vset (readers p) reader slot;
  Done (set_readers p rs).

Definition register_reader p : outcome (Pool B R * option N) :=
  match Epoch.register (readers p) with
  | None => Done (p, None)
  | Some (rs, i) =>
      l ← Ledger.reset_reader (prefetch (cache p)) i;
      Done (set_cache (set_readers p rs) (set_prefetch (cache p) l), Some i)
  end.

(** [Drop] of a [ReaderCtx]. *)
Definition drop_reader p (reader : N) : outcome (Pool B R) :=
  slot ← vget (readers p) reader;
  slot ← Epoch.vacate slot;
  rs ← vset (readers p) reader slot;
  Done (set_readers p rs).

(** ** Demand *)

Definition get_cold p (page : PageId) (reader : N) : outcome (Pool B R * Get) :=
  o ← Miss.find_pending (miss (cache p)) page;
  match o with
  | Some index =>
      e ← Miss.entry (miss (cache p)) index;
      c ← prefetch_promote (cache p) (Miss.me_frame e) reader;
      '(ints, (slot, generation)) ← Miss.join (miss c) index (miss_interests c);
      Done (set_cache p (set_interests c ints), GetPending (mkPendingToken page slot generation))
  | None =>
      if max_inflight_reads <=? reads_in_flight (cache p) then Done (p, Busy)
      else
        o ← Miss.admission_slot (miss (cache p)) (miss_interests (cache p));
        match o with
        | None => Done (p, Busy)
        | Some miss_slot =>
            '(p, o) ← claim_frame p;
            match o with
            | None => Done (p, Busy)
            | Some frame =>
                '(p, write) ← on_cache p (claim (cache p) frame page);
                '(p, r) ← submit_page_read p page write Demand;
                match r with
                | inr (_, write) =>
                    p ← on_cache_ p (abort_read (cache p) write false);
                    Done (p, Busy)
                | inl token =>
                    n ← expect (checked_add U32_MAX (reads_in_flight (cache p)) 1);
                    let c := set_reads (cache p) n in
                    '(m, ints, generation) ← Miss.admit_demand (miss c) miss_slot page frame token (miss_interests c);
                    Done (set_cache p (set_interests (set_miss c m) ints), GetPending (mkPendingToken page miss_slot generation))
                end
            end
        end
  end.

(** [get] after its lock-free attempt, under the control lock. *)
Definition get_locked p (reader : N) (page : PageId) : outcome (Pool B R * (Get + GetError)) :=
  live ← Product.file_is_live identity (Product.files (product p)) (pg_file page);
  if negb live then Done (p, inr (StaleFile page))
  else
    mapped ← PageTable.lookup (table (cache p)) page;
    resident ← match mapped with Some frame => is_resident (cache p) frame | None => Done false end;
    if resident : bool then
      '(p, o) ← pin_owned p reader page;
      Done (p, inl (match o with Some frame => Hit frame | None => Busy end))
    else
      p ← on_cache_ p (reconcile (cache p));
      '(p, r) ← get_cold p page reader;
      match r with
      | GetPending _ => p ← on_cache_ p (observe (cache p) reader page); Done (p, inl r)
      | _ => Done (p, inl r)
      end.

(** The lock-free attempt: [None] goes on under the lock. *)
Definition get_warm p (reader : N) (page : PageId) : outcome (Pool B R * option (Get + GetError)) :=
  assertb (fid_driver (pg_file page) =? identity);;
  word ← vget (Product.file_live_generations (product p)) (fid_slot (pg_file page));
  if negb (Product.file_generation_is_live word (pg_file page)) then Done (p, Some (inr (StaleFile page)))
  else
    '(p, o) ← pin_owned p reader page;
    Done (p, match o with Some frame => Some (inl (Hit frame)) | None => None end).

Definition get p (reader : N) (page : PageId) : outcome (Pool B R * (Get + GetError)) :=
  '(p, o) ← get_warm p reader page;
  match o with Some r => Done (p, r) | None => get_locked p reader page end.

(** [PendingToken::consume] and its [Drop]: the interest ends, and the counter the
    prefetch cleanup watches advances. *)
Definition consume_token p (tk : PendingToken) : outcome (Pool B R * N) :=
  '(ints, remaining) ← Miss.release (miss_interests (cache p)) (MissSystem.tk_slot tk) (MissSystem.tk_generation tk);
  Done (set_releases (set_cache p (set_interests (cache p) ints)) (wrapping_add 32 (pending_releases p) 1), remaining).

Definition clean_token p (tk : PendingToken) : outcome (Pool B R) :=
  m ← Miss.clean_terminal_zero (miss (cache p)) (MissSystem.tk_slot tk) (MissSystem.tk_generation tk) (miss_interests (cache p));
  Done (set_cache p (set_miss (cache p) m)).

Definition ready p (reader : N) (tk : PendingToken) : outcome (Pool B R * ReadyResult) :=
  e ← Miss.validate (miss (cache p)) (MissSystem.tk_slot tk) (MissSystem.tk_generation tk) (MissSystem.tk_page tk);
  match Miss.me_outcome e with
  | Miss.Pending => Done (p, NotYet tk)
  | Miss.Failed errno =>
      '(p, remaining) ← consume_token p tk;
      w ← Miss.waiters (miss_interests (cache p)) (MissSystem.tk_slot tk) (MissSystem.tk_generation tk);
      assertb (bool_decide (w = Some remaining));;
      p ← clean_token p tk;
      Done (p, ReadyErr errno)
  | Miss.Succeeded =>
      mapped ← PageTable.lookup (table (cache p)) (Miss.me_page e);
      assertb (bool_decide (mapped = Some (Miss.me_frame e)));;
      '(p, o) ← pin_owned p reader (Miss.me_page e);
      frame ← expect o;
      '(p, _) ← consume_token p tk;
      p ← clean_token p tk;
      Done (p, Ready frame)
  end.

(** ** Retirement *)

(** [progress_retirements] from file slot [index] on. *)
Fixpoint progress_from (n : nat) p (index : N) : outcome (Pool B R) :=
  match n with
  | O => Done p
  | S n =>
      o ← vget (Product.files (product p)) index;
      p ← match o with
          | Some e =>
              if bool_decide (Product.pf_state e = Product.Retiring) then
                s ← vget (Product.resident_lease_states (product p)) index;
                if 0 <? Product.ls_count s then Done p
                else
                  let file := Product.pf_id e in
                  c ← retire_file_frames (cache p) file;
                  let p := set_cache p c in
                  misses ← miss_live c file;
                  mapped ← frames_live c file;
                  let operations := Product.product_live (Product.product_ops (product p)) file in
                  if negb misses && negb mapped && negb operations then
                    q ← Product.retire_close (product p) index file; Done (set_product p q)
                  else Done p
              else Done p
          | None => Done p
          end;
      progress_from n p (index + 1)
  end.
Definition progress_retirements p : outcome (Pool B R) := progress_from (length (Product.files (product p))) p 0.

Definition retire_file p (file : FileId) : outcome (Pool B R * RetireStatus) :=
  assertb (fid_driver file =? identity);;
  o ← vget (Product.files (product p)) (fid_slot file);
  match o with
  | None => Done (p, StatusRetired)
  | Some e =>
      if negb (bool_decide (Product.pf_id e = file)) then Done (p, StatusRetired)
      else if bool_decide (Product.pf_state e = Product.Retired) then Done (p, StatusRetired)
      else
        r ← mark_file_retiring (retention p) (fid_slot file);
        '(q, started) ← Product.retire_begin identity (product p) file;
        p ← progress_retirements (set_product (set_retention p r) q);
        if bool_decide (started = Some true) then Done (p, StatusRetiring)
        else
          o ← vget (Product.files (product p)) (fid_slot file);
          Done (p, match o with
                   | Some e => if bool_decide (Product.pf_state e = Product.Retired) then StatusRetired else StatusRetiring
                   | None => StatusRetiring
                   end)
  end.

Definition open p : outcome (Pool B R * option FileId) :=
  '(b, o) ← open_file (driver p);
  let p := set_driver p b in
  match o with
  | None => Done (p, None)
  | Some h =>
      r ← clear_file_retiring (retention p) (fid_slot (fh_id h));
      q ← Product.register_file identity (product p) h;
      Done (set_product (set_retention p r) q, Some (fh_id h))
  end.
End pool.
End PoolControl.
