(* ===== verification/PoolReads.v ===== *)
(** * The reads in flight

    What ties the pending misses of the pool to the driver: [qinv] says that every pending
    miss waits for one read the driver works on, or whose completion is in the batch, that
    every such read has its misses, and that the spans in flight are those of the vectored
    ones.  The lemmas show how polling, routing a completion, submitting a read and the
    passes that only end misses keep it. *)
From stdpp Require Import prelude gmap list.
From Stdlib Require Import NArith ZArith Lia.
From S2P Require Import Prelude Ids Frames FrameCensus Alignment Miss MissMap Execute ReadVector ReadSpans Driver PoolBackend Product PoolInv.

Open Scope N_scope.

Module PoolReads.
Import Frames FrameCensus MissMap Execute Driver PoolBackend.PoolBackend PoolInv.
Abbreviation Completion := Driver.Completion.
Abbreviation Routes := ReadSpans.Routes.
Abbreviation PoolFile := Product.PoolFile.

(** ** Misses that end *)

(** The pending misses of the frames [fs] have ended, the others are as they were. *)
Definition drops (V V' : gmap N mread) (fs : list N) : Prop :=
  ∀ i m, m_outcome m = Pending → V' !! i = Some m ↔ V !! i = Some m ∧ m_frame m ∉ fs.

Lemma drops_same V V' : same_pending V V' → drops V V' [].
Proof. intros Hs i m Hm. rewrite (Hs i m Hm). set_solver. Qed.

Lemma drops_trans V V1 V2 fs fs' : drops V V1 fs → drops V1 V2 fs' → drops V V2 (fs ++ fs').
Proof. intros H1 H2 i m Hm. rewrite (H2 i m Hm), (H1 i m Hm), elem_of_app. tauto. Qed.

(** No two pending misses have the same frame. *)
Definition frames_apart (V : gmap N mread) : Prop := ∀ i j m m', V !! i = Some m → V !! j = Some m' →
  m_outcome m = Pending → m_outcome m' = Pending → m_frame m = m_frame m' → i = j.

Lemma ended_drops tks V V' i m o :
  frames_apart V → ended tks V V' i m o → V !! i = Some m → m_outcome m = Pending → o ≠ Pending → drops V V' [m_frame m].
Proof.
  intros Ha He Hm Hp Ho j x Hx. split.
  - intros Hj. destruct (ended_pending _ _ _ _ _ _ _ _ He Ho Hj Hx) as [Hne Hj']. split; [done|].
    intros Heq%list_elem_of_singleton. apply Hne. by apply (Ha j i x m).
  - intros [Hj Hf]. apply (ended_other _ _ _ _ _ _ _ _ He); [|done]. intros ->. simplify_eq. set_solver.
Qed.

Lemma cinv_apart {F g a fcap reads P W} n M V tks G lo fl he c :
  cinv (F := F) (g := g) (a := a) (fcap := fcap) (reads := reads) (P := P) (W := W) n M V tks G lo fl he c → frames_apart V.
Proof.
  intros Hc i j m m' Hi Hj Hp Hp'. destruct (ci_miss _ _ _ _ _ _ _ _ _ Hc) as [Hr _].
  apply (mrep_frames _ _ _ _ _ _ _ _ Hr Hi Hj); by left.
Qed.

Section reads.
Context {B : Type} `{!PoolBackend B} {identity g F capacity fcap : N}.
Context `{!BackendLaws B identity g F capacity fcap}.
Context {a : N}.
Implicit Types (b : B) (V : gmap N mread) (Q : gmap OpToken flight) (A : Routes).

(** ** One read *)

(** The frames a read writes to and has not published. *)
Definition flight_frames (fl : flight) : list N :=
  match fl with
  | FlyPoint _ f _ => [InFlightFrame_frame f]
  | FlyVector _ v => InFlightFrame_frame <$> omap (λ o, o) (ReadVector.frames v)
  | _ => []
  end.

(** The driver works on the read, or its completion waits in the batch. *)
Definition carried b (batch : list Completion) (t : OpToken) (fl : flight) : Prop :=
  flights b !! t = Some fl ∨ ∃ c, c ∈ batch ∧ c_token c = t ∧ answers fl c ∧ flights b !! t = landed fl c.

(** The miss that waits for page [k] of a span, whose frame has token [f]. *)
Definition page_waits V (span : ReadSpans.ReadSpan) (t : OpToken) (k : N) (f : InFlightFrame) : Prop :=
  ∃ sp m, ReadSpans.pages span !! N.to_nat k = Some (Some sp) ∧ V !! ReadSpans.sp_slot sp = Some m ∧
    m_generation m = ReadSpans.sp_generation sp ∧ m_outcome m = Pending ∧ m_token m = t ∧ f = token_of a (m_frame m) ∧
    m_page m = mkPageId (pg_file (ReadSpans.first span)) (pg_granule_idx (ReadSpans.first span) + k).

Record spanned V (t : OpToken) (span : ReadSpans.ReadSpan) (v : ReadVector.ReadVector) (l : list InFlightFrame) : Prop := {
  sv_covers : ∀ h, granule h = g → ReadSpans.covers h l span v;
  sv_operation : ReadVector.operation v = Some t;
  sv_token : ReadSpans.token span = t;
  sv_left : ReadSpans.filled span < ReadSpans.bytes span;
  sv_first : pg_granule_idx (ReadSpans.first span) + vlen l ≤ U32_MAX + 1;
  sv_pages : ∀ k f, ReadSpans.published span ≤ k → l !! N.to_nat k = Some f → page_waits V span t k f;
}.

Record qinv Q V (fs : list (option PoolFile)) b (batch : list Completion) A : Prop := {
  q_carried : ∀ t fl, Q !! t = Some fl → carried b batch t fl;
  q_flights : ∀ t fl, flights b !! t = Some fl →
    match fl with FlyPoint _ _ _ | FlyVector _ _ => Q !! t = Some fl | Landed _ _ => is_Some (Q !! t) | _ => True end;
  q_batch : ∀ c, c ∈ batch → c_kind c = Read →
    ∃ fl, Q !! c_token c = Some fl ∧ answers fl c ∧ flights b !! c_token c = landed fl c;
  q_point : ∀ t file f len, Q !! t = Some (FlyPoint file f len) → ∃ i m, V !! i = Some m ∧ m_outcome m = Pending ∧
    m_token m = t ∧ f = token_of a (m_frame m) ∧ file = pg_file (m_page m) ∧ 0 < len ∧ m_filled m + len = g;
  q_vector : ∀ t file v, Q !! t = Some (FlyVector file v) → ∃ s span l,
    ReadSpans.flying A !! OpToken_slot t = Some (s, span) ∧ file = pg_file (ReadSpans.first span) ∧ spanned V t span v l;
  q_only : ∀ t fl, Q !! t = Some fl → match fl with FlyPoint _ _ _ | FlyVector _ _ => True | _ => False end;
  q_pending : ∀ i m, V !! i = Some m → m_outcome m = Pending →
    Product.registered fs (pg_file (m_page m)) ∧ pg_granule_idx (m_page m) ≤ U32_MAX ∧
    ∃ fl, Q !! m_token m = Some fl ∧ m_frame m ∈ flight_frames fl;
  q_flying : ∀ o s span, ReadSpans.flying A !! o = Some (s, span) → ∃ file v, Q !! ReadSpans.token span = Some (FlyVector file v);
}.

Lemma read_landed fl c : answers fl c → c_kind c = Read →
  (∃ file f len, fl = FlyPoint file f len) ∨ (∃ file v, fl = FlyVector file v).
Proof. destruct fl; simpl; intros Ha Hk; destruct_and?; eauto 10; try done; congruence. Qed.

Lemma spanned_frames V t span v l f :
  spanned V t span v l → f ∈ InFlightFrame_frame <$> omap (λ o, o) (ReadVector.frames v) ↔
    ∃ k x, ReadSpans.published span ≤ k ∧ l !! N.to_nat k = Some x ∧ InFlightFrame_frame x = f.
Proof.
  intros Hs. destruct (sv_covers _ _ _ _ _ Hs (mkFrames [] [] 0 g 0) eq_refl) as [Hb _ Hp _ _ _].
  rewrite list_elem_of_fmap. setoid_rewrite list_elem_of_omap. split.
  - intros (x & -> & o & Ho & ->). apply (ReadVector.owned_frames _ _ _ _ Hb) in Ho as [k Hk]%list_elem_of_lookup.
    rewrite lookup_drop in Hk. exists (N.of_nat (N.to_nat (ReadVector.ordinal v) + k)), x. rewrite Nat2N.id. split_and!; [lia|done|done].
  - intros (k & x & Hk & Hx & <-). exists x. split; [done|]. exists (Some x). split; [|done]. apply (ReadVector.owned_frames _ _ _ _ Hb).
    apply list_elem_of_lookup. exists (N.to_nat k - N.to_nat (ReadVector.ordinal v))%nat. rewrite lookup_drop. rewrite <- Hx. f_equal. lia.
Qed.

(** Each frame of a read has its pending miss. *)
Lemma q_file Q V fs b batch A t fl f :
  qinv Q V fs b batch A → Q !! t = Some fl → f ∈ flight_frames fl →
  ∃ i m, V !! i = Some m ∧ m_outcome m = Pending ∧ m_token m = t ∧ m_frame m = f ∧ pg_file (m_page m) = flight_file fl.
Proof.
  intros Hq Ht Hf. pose proof (q_only _ _ _ _ _ _ Hq t fl Ht) as Ho. destruct fl as [file x len|file v| | |]; try done; simpl in Hf.
  - apply list_elem_of_singleton in Hf as ->. destruct (q_point _ _ _ _ _ _ Hq _ _ _ _ Ht) as (i & m & Hm & Hp & Htk & -> & -> & _).
    exists i, m. by rewrite token_frame.
  - destruct (q_vector _ _ _ _ _ _ Hq _ _ _ Ht) as (s & span & l & _ & -> & Hs).
    apply (spanned_frames _ _ _ _ _ _ Hs) in Hf as (k & x & Hk & Hx & <-).
    destruct (sv_pages _ _ _ _ _ Hs k x Hk Hx) as (sp & m & _ & Hm & _ & Hp & Htk & -> & Hpg). exists (ReadSpans.sp_slot sp), m. by rewrite token_frame, Hpg.
Qed.

Lemma q_owner Q V fs b batch A t fl f :
  qinv Q V fs b batch A → Q !! t = Some fl → f ∈ flight_frames fl →
  ∃ i m, V !! i = Some m ∧ m_outcome m = Pending ∧ m_token m = t ∧ m_frame m = f.
Proof. intros Hq Ht Hf. destruct (q_file _ _ _ _ _ _ _ _ _ Hq Ht Hf) as (i & m & ? & ? & ? & ? & _). by exists i, m. Qed.

Lemma q_token_minted Q V fs b batch A t fl :
  qinv Q V fs b batch A → sound b → (∀ c, c ∈ batch → c_token c ∈ minted b) → Q !! t = Some fl → t ∈ minted b.
Proof.
  intros Hq Hs Hb Ht. destruct (q_carried _ _ _ _ _ _ Hq t fl Ht) as [?|(c & Hc & <- & _)]; [by eapply law_minted|by apply Hb].
Qed.

(** Misses end that no read in flight writes for. *)
Lemma spanned_drops V V' t span v l fs :
  spanned V t span v l → drops V V' fs → (∀ i m, V !! i = Some m → m_outcome m = Pending → m_token m = t → m_frame m ∉ fs) →
  spanned V' t span v l.
Proof.
  intros [S1 S2 S3 S4 S5 S6] Hd Hf. constructor; try done. intros k f Hk Hl.
  destruct (S6 k f Hk Hl) as (sp & m & H1 & H2 & H3 & H4 & H5 & H6 & H7). exists sp, m. split_and!; try done.
  apply (Hd _ _ H4). split; [done|by eapply Hf].
Qed.

Lemma q_apart Q V fs b batch A t fl i m :
  qinv Q V fs b batch A → frames_apart V → Q !! t = Some fl → V !! i = Some m → m_outcome m = Pending → m_token m ≠ t →
  m_frame m ∉ flight_frames fl.
Proof.
  intros Hq Ha Ht Hm Hp Hne Hf. destruct (q_owner _ _ _ _ _ _ _ _ _ Hq Ht Hf) as (j & x & Hx & Hpx & Htx & Hfx).
  assert (i = j) as <- by (by apply (Ha i j m x)). congruence.
Qed.

(** ** Routing *)

Lemma carried_other b b' (batch rest : list Completion) t t' fl :
  carried b batch t' fl → t' ≠ t → flights b' !! t' = flights b !! t' → (∀ c, c ∈ batch → c_token c ≠ t → c ∈ rest) → carried b' rest t' fl.
Proof. intros [H|(c & Hc & <- & Ha & Hl)] Hne Hf Hr; [left; congruence|right]. exists c. rewrite Hf. auto. Qed.

(** The last completion of a read is routed, and its misses have ended. *)
Lemma q_end Q V V' fs b b' rest A A' c fl :
  qinv Q V fs b (rest ++ [c]) A → frames_apart V → NoDup (c_token <$> rest ++ [c]) → Q !! c_token c = Some fl →
  drops V V' (flight_frames fl) →
  (∀ t, t ≠ c_token c → flights b' !! t = flights b !! t) → flights b' !! c_token c = None →
  (∀ o s span, ReadSpans.flying A' !! o = Some (s, span) ↔ ReadSpans.flying A !! o = Some (s, span) ∧ ReadSpans.token span ≠ c_token c) →
  qinv (delete (c_token c) Q) V' fs b' rest A'.
Proof.
  intros Hq Ha Hnd Ht Hd Hf Hn HA. pose proof Hq as [Q1 Q2 Q3 Q4 Q5 Q6 Q7 Q8]. rewrite fmap_app in Hnd.
  apply NoDup_app in Hnd as (_ & Hdis & _).
  assert (∀ x, x ∈ rest ++ [c] → c_token x ≠ c_token c → x ∈ rest) as Hrest by set_solver.
  assert (∀ i m, V !! i = Some m → m_outcome m = Pending → m_token m ≠ c_token c → V' !! i = Some m) as Hkeep.
  { intros i m Hm Hp Hne. apply (Hd i m Hp). split; [done|]. by eapply q_apart. }
  constructor.
  - intros t fl' [Hne Hfl]%lookup_delete_Some. eapply carried_other; [by apply Q1|done|by apply Hf|done].
  - intros t fl' Hfl. destruct (decide (t = c_token c)) as [->|Hne]; [congruence|]. rewrite lookup_delete_ne by done.
    rewrite Hf in Hfl by done. by apply Q2.
  - intros x Hx Hk. destruct (Q3 x) as (fl' & H1 & H2 & H3); [set_solver|done|].
    assert (c_token x ≠ c_token c) as Hne by (intros Heq; eapply (Hdis (c_token x)); [by apply list_elem_of_fmap_2|set_solver]).
    exists fl'. rewrite lookup_delete_ne, Hf by done. done.
  - intros t file f len [Hne Hfl]%lookup_delete_Some. destruct (Q4 _ _ _ _ Hfl) as (i & m & Hm & Hp & Htk & Hx). exists i, m.
    split_and!; [apply Hkeep; congruence|done|done|apply Hx..].
  - intros t file v [Hne Hfl]%lookup_delete_Some. destruct (Q5 _ _ _ Hfl) as (s & span & l & Hfly & Hfile & Hs). exists s, span, l.
    split_and!; [apply HA; split; [done|by rewrite (sv_token _ _ _ _ _ Hs)]|done|].
    eapply spanned_drops; [done..|]. intros i m Hm Hp Htk. eapply q_apart; [done..|]. congruence.
  - intros t fl' [_ Hfl]%lookup_delete_Some. by eapply Q6.
  - intros i m Hm Hp. apply (Hd i m Hp) in Hm as [Hm Hnf]. destruct (Q7 i m Hm Hp) as (? & ? & fl' & Hfl & Hin). split_and!; try done.
    exists fl'. rewrite lookup_delete_ne; [done|]. intros Heq. rewrite <- Heq in Hfl.
    assert (fl' = fl) as -> by congruence. done.
  - intros o s span [Ho Hne]%HA. destruct (Q8 _ _ _ Ho) as (file & v & Hv). exists file, v. by rewrite lookup_delete_ne.
Qed.

(** A vectored read goes on under its token, with some of its misses ended. *)
Lemma q_resume Q V V' fs b b' rest A A' c file v v' s span l fr :
  qinv Q V fs b (rest ++ [c]) A → frames_apart V → NoDup (c_token <$> rest ++ [c]) → Q !! c_token c = Some (FlyVector file v) →
  drops V V' fr → (∀ f, f ∈ fr → f ∈ flight_frames (FlyVector file v)) →
  (∀ f, f ∈ flight_frames (FlyVector file v) → f ∉ fr → f ∈ flight_frames (FlyVector file v')) →
  flights b' = <[c_token c := FlyVector file v']> (flights b) → spanned V' (c_token c) span v' l → file = pg_file (ReadSpans.first span) →
  ReadSpans.flying A' !! OpToken_slot (c_token c) = Some (s, span) →
  (∀ o s span, ReadSpans.flying A' !! o = Some (s, span) → ReadSpans.token span = c_token c ∨ ReadSpans.flying A !! o = Some (s, span)) →
  (∀ o s span, ReadSpans.flying A !! o = Some (s, span) → ReadSpans.token span ≠ c_token c → ReadSpans.flying A' !! o = Some (s, span)) →
  qinv (<[c_token c := FlyVector file v']> Q) V' fs b' rest A'.
Proof.
  intros Hq Ha Hnd Ht Hd Hsub Hleft Hf Hs Hfile Hfly HA HA'. pose proof Hq as [Q1 Q2 Q3 Q4 Q5 Q6 Q7 Q8]. rewrite fmap_app in Hnd.
  apply NoDup_app in Hnd as (_ & Hdis & _).
  assert (∀ x, x ∈ rest ++ [c] → c_token x ≠ c_token c → x ∈ rest) as Hrest by set_solver.
  assert (∀ i m, V !! i = Some m → m_outcome m = Pending → m_token m ≠ c_token c → V' !! i = Some m) as Hkeep.
  { intros i m Hm Hp Hne. apply (Hd i m Hp). split; [done|]. intros Hin%Hsub. revert Hin. by eapply q_apart. }
  assert (∀ t, t ≠ c_token c → flights b' !! t = flights b !! t) as Hfo by (intros t Hne; by rewrite Hf, lookup_insert_ne).
  constructor.
  - intros t fl' [[<- <-]|[Hne Hfl]]%lookup_insert_Some; [left; by rewrite Hf, lookup_insert_eq|].
    eapply carried_other; [by apply Q1|done|by apply Hfo|done].
  - intros t fl' Hfl. destruct (decide (t = c_token c)) as [->|Hne].
    + rewrite Hf, lookup_insert_eq in Hfl. injection Hfl as <-. apply lookup_insert_eq.
    + rewrite lookup_insert_ne by done. rewrite Hfo in Hfl by done. by apply Q2.
  - intros x Hx Hk. destruct (Q3 x) as (fl' & H1 & H2 & H3); [set_solver|done|].
    assert (c_token x ≠ c_token c) as Hne by (intros Heq; eapply (Hdis (c_token x)); [by apply list_elem_of_fmap_2|set_solver]).
    exists fl'. rewrite lookup_insert_ne, Hfo by done. done.
  - intros t f' f len [[_ ?]|[Hne Hfl]]%lookup_insert_Some; [done|]. destruct (Q4 _ _ _ _ Hfl) as (i & m & Hm & Hp & Htk & Hx). exists i, m.
    split_and!; [apply Hkeep; congruence|done|done|apply Hx..].
  - intros t f' w [[<- [= <- <-]]|[Hne Hfl]]%lookup_insert_Some; [by exists s, span, l|].
    destruct (Q5 _ _ _ Hfl) as (s' & span' & l' & Hfly' & Hfile' & Hs'). exists s', span', l'.
    split_and!; [apply HA'; [done|by rewrite (sv_token _ _ _ _ _ Hs')]|done|].
    eapply spanned_drops; [done..|]. intros i m Hm Hp Htk Hin%Hsub. revert Hin. eapply q_apart; [done..|]. congruence.
  - intros t fl' [[_ <-]|[_ Hfl]]%lookup_insert_Some; [done|by eapply Q6].
  - intros i m Hm Hp. apply (Hd i m Hp) in Hm as [Hm Hnf]. destruct (Q7 i m Hm Hp) as (? & ? & fl' & Hfl & Hin). split_and!; try done.
    destruct (decide (m_token m = c_token c)) as [Heq|Hne].
    + rewrite Heq, Ht in Hfl. injection Hfl as <-. exists (FlyVector file v'). rewrite Heq, lookup_insert_eq. split; [done|by apply Hleft].
    + exists fl'. by rewrite lookup_insert_ne.
  - intros o s' span' [Ho|Ho]%HA; [exists file, v'; by rewrite Ho, lookup_insert_eq|]. destruct (Q8 _ _ _ Ho) as (f' & w & Hw).
    destruct (decide (ReadSpans.token span' = c_token c)) as [Heq|Hne]; [exists file, v'; by rewrite Heq, lookup_insert_eq|].
    exists f', w. by rewrite lookup_insert_ne.
Qed.

(** A point read goes on for the rest of its page, under a new token. *)
Lemma q_again Q V fs b b' rest A c i m t file filled len :
  qinv Q V fs b (rest ++ [c]) A → frames_apart V → NoDup (c_token <$> rest ++ [c]) →
  Q !! c_token c = Some (FlyPoint file (token_of a (m_frame m)) len) → V !! i = Some m → m_outcome m = Pending →
  sound b → (∀ x, x ∈ rest ++ [c] → c_token x ∈ minted b) → t ∉ minted b → flights b !! c_token c = None →
  flights b' = <[t := FlyPoint file (token_of a (m_frame m)) (g - filled)]> (flights b) → filled < g →
  qinv (<[t := FlyPoint file (token_of a (m_frame m)) (g - filled)]> (delete (c_token c) Q)) (<[i := with_read filled t m]> V) fs b' rest A.
Proof.
  intros Hq Ha Hnd Ht Hm Hp Hsb Hmint Hnew Hn Hf Hlt. pose proof Hq as [Q1 Q2 Q3 Q4 Q5 Q6 Q7 Q8]. rewrite fmap_app in Hnd.
  apply NoDup_app in Hnd as (_ & Hdis & _).
  assert (∀ x, x ∈ rest ++ [c] → c_token x ≠ c_token c → x ∈ rest) as Hrest by set_solver.
  assert (∀ x fl, Q !! x = Some fl → x ∈ minted b) as HQ by (intros x fl Hx; eapply q_token_minted; done).
  assert (m_token m = c_token c ∧ file = pg_file (m_page m)) as [Htk Hfile].
  { destruct (Q4 _ _ _ _ Ht) as (j & y & Hj & Hpy & Hty & Hfy & Hfl & _). assert (i = j) as <-; [|by simplify_eq].
    eapply (Ha i j m y); try done. apply (f_equal InFlightFrame_frame) in Hfy. by rewrite !token_frame in Hfy. }
  assert (∀ j y, j ≠ i → V !! j = Some y → m_outcome y = Pending → m_token y ≠ c_token c) as Hother.
  { intros j y Hne Hj Hpy Heq. destruct (Q7 j y Hj Hpy) as (_ & _ & fl & Hfl & Hin). rewrite Heq, Ht in Hfl. injection Hfl as <-.
    simpl in Hin. rewrite token_frame in Hin. apply list_elem_of_singleton in Hin. apply Hne. by apply (Ha j i y m). }
  assert (∀ x, x ∈ minted b → flights b' !! x = flights b !! x) as Hfo.
  { intros x Hx. rewrite Hf, lookup_insert_ne; [done|]. by intros <-. }
  assert (∀ x fl, Q !! x = Some fl → x ≠ c_token c →
    <[t := FlyPoint file (token_of a (m_frame m)) (g - filled)]> (delete (c_token c) Q) !! x = Some fl) as Hins.
  { intros x fl Hx Hne. rewrite lookup_insert_ne, lookup_delete_ne; [done..|]. intros ->. by eapply Hnew, HQ. }
  constructor.
  - intros x fl [[<- <-]|[Hne [Hnc Hx]%lookup_delete_Some]]%lookup_insert_Some; [left; by rewrite Hf, lookup_insert_eq|].
    eapply carried_other; [by apply Q1|done|apply Hfo; by eapply HQ|done].
  - intros x fl. rewrite Hf. intros [[<- <-]|[Hne Hx]]%lookup_insert_Some; [apply lookup_insert_eq|].
    assert (x ≠ c_token c) as Hnc by (intros ->; congruence). pose proof (Q2 x fl Hx) as H2.
    destruct fl; try done; try (by apply Hins). destruct H2 as [fl Hfl]. exists fl. by apply Hins.
  - intros x Hx Hk. destruct (Q3 x) as (fl' & H1 & H2 & H3); [set_solver|done|].
    assert (c_token x ≠ c_token c) as Hne by (intros Heq; eapply (Hdis (c_token x)); [by apply list_elem_of_fmap_2|set_solver]).
    exists fl'. rewrite (Hins _ _ H1 Hne), Hfo by (by eapply HQ). done.
  - intros x f' f n [[<- [= <- <- <-]]|[Hne [Hnc Hx]%lookup_delete_Some]]%lookup_insert_Some.
    + exists i, (with_read filled t m). rewrite lookup_insert_eq. simpl. split_and!; try done; lia.
    + destruct (Q4 _ _ _ _ Hx) as (j & y & Hj & Hpy & Hty & Hrest'). exists j, y.
      rewrite lookup_insert_ne by (intros <-; simplify_eq; congruence). done.
  - intros x f' w [[_ ?]|[Hne [Hnc Hx]%lookup_delete_Some]]%lookup_insert_Some; [done|].
    destruct (Q5 _ _ _ Hx) as (s & span & l & Hfly & Hfile' & [S1 S2 S3 S4 S5 S6]). exists s, span, l. split_and!; try done. constructor; try done.
    intros k f Hk Hl. destruct (S6 k f Hk Hl) as (sp & y & H1 & H2 & H3 & H4 & H5 & H6). exists sp, y.
    rewrite lookup_insert_ne by (intros Heq; rewrite Heq in Hm; simplify_eq; congruence). done.
  - intros x fl [[_ <-]|[_ [_ Hx]%lookup_delete_Some]]%lookup_insert_Some; [done|by eapply Q6].
  - intros j y [[<- <-]|[Hne Hj]]%lookup_insert_Some Hpy.
    + destruct (Q7 i m Hm Hp) as (? & ? & _). simpl. split_and!; try done. eexists. rewrite lookup_insert_eq. split; [done|].
      simpl. rewrite token_frame. set_solver.
    + destruct (Q7 j y Hj Hpy) as (? & ? & fl & Hfl & Hin). split_and!; try done. exists fl. split; [|done]. apply Hins; [done|].
      by apply (Hother j).
  - intros o s span Ho. destruct (Q8 _ _ _ Ho) as (f' & w & Hw). exists f', w. apply Hins; [done|]. intros Heq. rewrite Heq in Hw. congruence.
Qed.

(** ** The driver *)

Lemma q_poll Q V fs b b' batch cs A :
  qinv Q V fs b batch A → NoDup (c_token <$> cs) →
  (∀ c, c ∈ cs → ∃ fl, flights b !! c_token c = Some fl ∧ answers fl c ∧ flights b' !! c_token c = landed fl c) →
  (∀ t, t ∉ (c_token <$> cs) → flights b' !! t = flights b !! t) →
  qinv Q V fs b' (batch ++ cs) A.
Proof.
  intros Hq Hnd Hcs Hf. pose proof Hq as [Q1 Q2 Q3 Q4 Q5 Q6 Q7 Q8].
  assert (∀ c fl, answers fl c → flights b !! c_token c = landed fl c → c_token c ∉ c_token <$> cs) as Hout.
  { intros c fl Ha Hl (x & Heq & Hx)%list_elem_of_fmap. destruct (Hcs x Hx) as (fl' & H1 & H2 & _). rewrite Heq, H1 in Hl.
    destruct fl; simpl in Hl; try done. injection Hl as ->. done. }
  constructor; try done.
  - intros t fl Ht. destruct (Q1 t fl Ht) as [H|(c & Hc & <- & Ha & Hl)].
    + destruct (decide (t ∈ c_token <$> cs)) as [(c & -> & Hc)%list_elem_of_fmap|Hn]; [|left; by rewrite Hf].
      right. destruct (Hcs c Hc) as (fl' & H1 & H2 & H3). assert (fl' = fl) as -> by congruence. exists c. set_solver.
    + right. exists c. rewrite Hf by (by eapply Hout). set_solver.
  - intros t fl Ht. destruct (decide (t ∈ c_token <$> cs)) as [(c & -> & Hc)%list_elem_of_fmap|Hn]; [|rewrite Hf in Ht by done; by apply Q2].
    destruct (Hcs c Hc) as (fl' & H1 & H2 & H3). rewrite H3 in Ht. destruct fl'; simpl in Ht; try done. injection Ht as <-.
    pose proof (Q2 _ _ H1) as HQ. simpl in HQ. eauto.
  - intros c [Hc|Hc]%elem_of_app Hk.
    + destruct (Q3 c Hc Hk) as (fl & H1 & H2 & H3). exists fl. rewrite Hf by (by eapply Hout). done.
    + destruct (Hcs c Hc) as (fl & H1 & H2 & H3). exists fl. split_and!; try done.
      destruct (read_landed fl c H2 Hk) as [(? & ? & ? & ->)|(? & ? & ->)]; by apply (Q2 _ _ H1).
Qed.

(** Operations of other kinds come and are routed. *)
Lemma q_additions Q V fs b b' batch A :
  qinv Q V fs b batch A → sound b → (∀ c, c ∈ batch → c_token c ∈ minted b) → Product.additions b b' → qinv Q V fs b' batch A.
Proof.
  intros Hq Hs Hb (_ & _ & Hf & Hnew). pose proof Hq as [Q1 Q2 Q3 Q4 Q5 Q6 Q7 Q8].
  assert (∀ t fl, Q !! t = Some fl → flights b' !! t = flights b !! t) as HQ by (intros t fl Ht; eapply Hf, q_token_minted; done).
  constructor; try done.
  - intros t fl Ht. unfold carried. rewrite (HQ t fl Ht). by apply Q1.
  - intros t fl Ht. destruct (Hnew t fl Ht) as [Hx|(k & file & Hk)]; [by apply Q2|]. destruct k; simpl in Hk; subst; done.
  - intros c Hc Hk. destruct (Q3 c Hc Hk) as (fl & H1 & H2 & H3). exists fl. by rewrite (HQ _ _ H1).
Qed.

Lemma q_other Q V fs b rest c A : qinv Q V fs b (rest ++ [c]) A → c_kind c ≠ Read → qinv Q V fs b rest A.
Proof.
  intros Hq Hk. pose proof Hq as [Q1 Q2 Q3 Q4 Q5 Q6 Q7 Q8]. constructor; try done.
  - intros t fl Ht. destruct (Q1 t fl Ht) as [H|(x & Hx & <- & Ha & Hl)]; [by left|right]. exists x. split_and!; try done.
    apply elem_of_app in Hx as [Hx| ->%list_elem_of_singleton]; [done|]. exfalso. pose proof (Q6 _ _ Ht) as Ho. apply Hk.
    destruct fl; try done; apply Ha.
  - intros x Hx. apply Q3. set_solver.
Qed.

(** A new point read with its miss. *)
Lemma q_submit Q V fs b b' batch A i m t file f :
  qinv Q V fs b batch A → (∀ x, V !! i = Some x → m_outcome x ≠ Pending) → sound b → (∀ c, c ∈ batch → c_token c ∈ minted b) →
  t ∉ minted b → flights b' = <[t := FlyPoint file f g]> (flights b) →
  m_outcome m = Pending → m_token m = t → f = token_of a (m_frame m) → file = pg_file (m_page m) → m_filled m = 0 → 0 < g →
  Product.registered fs file → pg_granule_idx (m_page m) ≤ U32_MAX →
  qinv (<[t := FlyPoint file f g]> Q) (<[i := m]> V) fs b' batch A.
Proof.
  intros Hq Hi Hsb Hmint Hnew Hf Hp Htk Hff Hfile Hz Hg Hreg Hidx. pose proof Hq as [Q1 Q2 Q3 Q4 Q5 Q6 Q7 Q8].
  assert (∀ x fl, Q !! x = Some fl → x ≠ t ∧ flights b' !! x = flights b !! x) as HQ.
  { intros x fl Hx. assert (x ≠ t) as Hne by (intros ->; by eapply Hnew, q_token_minted). by rewrite Hf, lookup_insert_ne. }
  assert (∀ j y, V !! j = Some y → m_outcome y = Pending → <[i := m]> V !! j = Some y) as Hins.
  { intros j y Hj Hpy. rewrite lookup_insert_ne; [done|]. intros <-. by eapply Hi. }
  constructor.
  - intros x fl [[<- <-]|[Hne Hx]]%lookup_insert_Some; [left; by rewrite Hf, lookup_insert_eq|]. unfold carried.
    rewrite (proj2 (HQ _ _ Hx)). by apply Q1.
  - intros x fl. rewrite Hf. intros [[<- <-]|[Hne Hx]]%lookup_insert_Some; [apply lookup_insert_eq|].
    pose proof (Q2 x fl Hx) as H2. destruct fl; try done; by rewrite lookup_insert_ne.
  - intros x Hx Hk. destruct (Q3 x Hx Hk) as (fl & H1 & H2 & H3). exists fl. destruct (HQ _ _ H1) as [Hne ->]. by rewrite lookup_insert_ne.
  - intros x f' f0 len [[<- [= <- <- <-]]|[Hne Hx]]%lookup_insert_Some.
    + exists i, m. rewrite lookup_insert_eq. split_and!; try done. lia.
    + destruct (Q4 _ _ _ _ Hx) as (j & y & Hj & Hpy & Hrest). exists j, y. split; [by apply Hins|done].
  - intros x f' w [[_ ?]|[Hne Hx]]%lookup_insert_Some; [done|]. destruct (Q5 _ _ _ Hx) as (s & span & l & Hfly & Hfile' & [S1 S2 S3 S4 S5 S6]).
    exists s, span, l. split_and!; try done. constructor; try done. intros k f0 Hk Hl.
    destruct (S6 k f0 Hk Hl) as (sp & y & H1 & H2 & H3 & H4 & H5 & H6). exists sp, y. split; [done|]. split; [by apply Hins|done].
  - intros x fl [[_ <-]|[_ Hx]]%lookup_insert_Some; [done|by eapply Q6].
  - intros j y [[<- <-]|[Hne Hj]]%lookup_insert_Some Hpy.
    + split_and!; [by rewrite <- Hfile|done|]. eexists. rewrite Htk, lookup_insert_eq. split; [done|]. simpl. rewrite Hff, token_frame. set_solver.
    + destruct (Q7 j y Hj Hpy) as (? & ? & fl & Hfl & Hin). split_and!; try done. exists fl. rewrite lookup_insert_ne; [done|].
      apply not_eq_sym. by apply (HQ _ _ Hfl).
  - intros o s span Ho. destruct (Q8 _ _ _ Ho) as (f' & w & Hw). exists f', w. rewrite lookup_insert_ne; [done|]. apply not_eq_sym. by apply (HQ _ _ Hw).
Qed.

(** ** Everything else *)

Lemma q_misses Q V V' fs b batch A : qinv Q V fs b batch A → same_pending V V' → qinv Q V' fs b batch A.
Proof.
  intros [Q1 Q2 Q3 Q4 Q5 Q6 Q7 Q8] Hs. constructor; try done.
  - intros t file f len Ht. destruct (Q4 _ _ _ _ Ht) as (i & m & Hm & Hp & Hx). exists i, m. split; [by apply (Hs i m Hp)|done].
  - intros t file v Ht. destruct (Q5 _ _ _ Ht) as (s & span & l & H1 & H2 & H3). exists s, span, l. split_and!; try done.
    eapply spanned_drops; [done|by apply drops_same|set_solver].
  - intros i m Hm Hp. apply (Q7 i m); [|done]. by apply (Hs i m Hp).
Qed.

Lemma q_files Q V fs fs' b batch A :
  qinv Q V fs b batch A → (∀ i m, V !! i = Some m → m_outcome m = Pending → Product.registered fs (pg_file (m_page m)) → Product.registered fs' (pg_file (m_page m))) →
  qinv Q V fs' b batch A.
Proof.
  intros [Q1 Q2 Q3 Q4 Q5 Q6 Q7 Q8] Hs. constructor; try done. intros i m Hm Hp. destruct (Q7 i m Hm Hp) as (? & ? & ?). split_and!; eauto.
Qed.

Lemma q_driver Q V fs b b' batch A : qinv Q V fs b batch A → flights b' = flights b → qinv Q V fs b' batch A.
Proof.
  intros [Q1 Q2 Q3 Q4 Q5 Q6 Q7 Q8] Hf. constructor; try done; unfold carried; rewrite Hf; done.
Qed.

(** The driver has no read left for a file no pending miss is of. *)
Lemma q_quiet Q V fs b batch A file :
  qinv Q V fs b batch A → (∀ i m, V !! i = Some m → m_outcome m = Pending → pg_file (m_page m) ≠ file) → Product.reads_quiet b file.
Proof.
  intros Hq Hno t fl Ht Hfile. pose proof Hq as [Q1 Q2 Q3 Q4 Q5 Q6 Q7 Q8].
  assert (∀ v, Q !! t = Some (FlyVector file v) → False) as Hv.
  { intros v HQ. destruct (Q5 _ _ _ HQ) as (s & span & l & _ & -> & Hs).
    destruct (sv_covers _ _ _ _ _ Hs (mkFrames [] [] 0 g 0) eq_refl) as [Hb Hfi Hpub Hor Hc Hby]. pose proof (sv_left _ _ _ _ _ Hs) as Hlt. simpl in *.
    destruct (lookup_lt_is_Some_2 l (N.to_nat (ReadSpans.published span))) as [f Hf].
    { rewrite Hpub, Hor. rewrite Hfi, Hby in Hlt. assert (ReadVector.filled v / g < vlen l); [|unfold vlen in *; lia].
      apply N.Div0.div_lt_upper_bound. lia. }
    destruct (sv_pages _ _ _ _ _ Hs _ _ (N.le_refl _) Hf) as (sp & m & _ & Hm & _ & Hp & _ & _ & Hpg).
    apply (Hno _ _ Hm Hp). by rewrite Hpg. }
  pose proof (Q2 t fl Ht) as H2. destruct fl as [f' x len|f' v|f' left|f'|f']; simpl in Hfile; subst f'.
  - destruct (Q4 _ _ _ _ H2) as (i & m & Hm & Hp & _ & _ & Hfl & _). exfalso. by apply (Hno i m Hm Hp).
  - exfalso. by eapply Hv.
  - exfalso. destruct H2 as [fl Hfl]. destruct (Q1 t fl Hfl) as [H|(c & _ & <- & Ha & Hl)].
    + pose proof (Q6 _ _ Hfl) as Ho. rewrite Ht in H. injection H as <-. done.
    + rewrite Ht in Hl. destruct fl; simpl in Hl; try done. injection Hl as <- _. by eapply Hv.
  - by exists Write.
  - by exists Fsync.
Qed.
End reads.
End PoolReads.
