(* ===== verification/PoolRoute.v ===== *)
(** * Routing completions

    [hinv] is the invariant of the pool between critical sections, apart from the readers:
    the frame cache, the files and product operations, and the reads in flight that tie
    them to the driver.  The lemmas show the routing of a batch of completions to keep it,
    whatever the driver answers: point reads completed, continued or failed, vectored
    reads published page by page, continued or failed, and the product operations. *)
From stdpp Require Import prelude gmap list.
From Stdlib Require Import NArith ZArith Lia.
From S2P Require Import Prelude Ids Frames FrameCensus Alignment Epoch Miss MissMap Execute ReadVector ReadSpans Driver PoolBackend Product Ledger PoolCache PoolInv PoolControl PoolReads.

Open Scope N_scope.

Module PoolRoute.
Import Frames FrameCensus MissMap Execute Driver PoolBackend.PoolBackend PoolCache PoolInv PoolControl PoolReads.
Abbreviation pinv := Product.pinv.
Abbreviation registered := Product.registered.
Abbreviation files := Product.files.

Section route.
Context {B R : Type} `{!PoolBackend B} `{!Retainer R} {identity g F capacity fcap : N}.
Context `{!BackendLaws B identity g F capacity fcap}.
Context {a reads slots : N} {W : list (N * PageId * N)}.
Context (Hg : 0 < g) (Hgmax : g ≤ U32_MAX).
Implicit Types (p : Pool B R) (V : gmap N mread) (Q : gmap OpToken flight) (A : Routes).
#[local] Abbreviation cinv := (cinv (F := F) (g := g) (a := a) (fcap := fcap) (reads := reads) (P := Product.own_file (identity := identity) (file_capacity := fcap)) (W := W)).
#[local] Abbreviation qinv := (qinv (B := B) (g := g) (a := a)).

Definition credit (c : Cache) V : Prop := reads_in_flight c = vlen (pending_frames V).

(** The part of the pool routing works on; [hand] is the completion being routed. *)
Record hinv (n : N) Q M V tks G A leases he p (hand : list Completion) : Prop := {
  hi_cache : cinv n M V tks G [] [] he (cache p);
  hi_product : pinv (product p) [] (batch p) leases;
  hi_reads : qinv Q V (files (product p)) (PoolControl.driver p) (batch p ++ hand) A;
  hi_spans : ReadSpans.represents slots capacity (read_spans p) A;
  hi_routes : ReadSpans.reserved A = ∅ ∧ ReadSpans.landing A = ∅;
  hi_credit : credit (cache p) V;
  hi_nodup : NoDup (c_token <$> batch p ++ hand);
  hi_minted : ∀ x, x ∈ batch p ++ hand → c_token x ∈ minted (PoolControl.driver p);
  hi_plain : ∀ x, x ∈ batch p ++ hand → c_kind x ≠ Read → c_frame x = None ∧ c_continuation x = None;
}.

(** What routing leaves alone. *)
Record moved p p' : Prop := {
  mv_files : files (product p') = files (product p);
  mv_batch : batch p' = batch p;
  mv_readers : readers p' = readers p;
  mv_retention : retention p' = retention p;
  mv_releases : pending_releases p' = pending_releases p;
  mv_epoch : global_epoch (cache p') = global_epoch (cache p);
}.

Lemma moved_refl p : moved p p.
Proof. done. Qed.

Lemma moved_trans p p1 p2 : moved p p1 → moved p1 p2 → moved p p2.
Proof. intros [] []. constructor; congruence. Qed.

(** ** Credits *)

Lemma cinv_reads n M V tks G lo fl he c x : cinv n M V tks G lo fl he c → cinv n M V tks G lo fl he (set_reads c x).
Proof. intros [C1 C2 C3 C4 C5 C6 C7 C8 C9 C10 C11 C12 C13 C14 C15 C16 C17 C18 C19 C20]. by constructor. Qed.

Lemma credit_taken c V V' f :
  credit c V → pending_frames V ≡ₚ f :: pending_frames V' →
  release_read_credit c = Done (set_reads c (vlen (pending_frames V'))).
Proof.
  unfold credit, release_read_credit. intros -> Hp%Permutation_length. unfold checked_sub, vlen. rewrite Hp. simpl length.
  rewrite (proj2 (N.leb_le _ _)) by lia. mred. repeat f_equal. lia.
Qed.

Lemma credit_left c V V1 V' f f' :
  pending_frames V ≡ₚ f :: pending_frames V1 → pending_frames V ≡ₚ f' :: pending_frames V' →
  reads_in_flight c = vlen (pending_frames V1) → credit c V'.
Proof. unfold credit, vlen. intros H1%Permutation_length H2%Permutation_length ->. simpl in *. f_equal. lia. Qed.

(** A read ends, and gives its credit back. *)
Lemma fail_one n M V tks G he c i m e errno :
  cinv (1 + n) M V tks G [] [] he c → credit c V → V !! i = Some m → m_outcome m = Pending → core e = m → errno ≠ 0%Z →
  ∃ c1 c' V', release_read_credit c = Done c1 ∧ drain_completions_finish_failure c1 i e (token_of a (m_frame m)) errno = Done c' ∧
    cinv n M V' tks G [] [] he c' ∧ credit c' V' ∧ drops V V' [m_frame m] ∧ settles V M V' M ∧ global_epoch c' = global_epoch c.
Proof.
  intros Hc Hcr Hm Hp He Herr.
  destruct (finish_failure_cache n M V tks G [] [] he c i m e errno Hc Hm Hp He Herr) as (_ & V1 & _ & _ & _ & Hend1).
  pose proof (ended_frames _ _ _ _ _ _ Hend1 Hm Hp ltac:(done)) as H1. rewrite (credit_taken _ _ _ _ Hcr H1).
  destruct (finish_failure_cache n M V tks G [] [] he _ i m e errno (cinv_reads _ _ _ _ _ _ _ _ _ (vlen (pending_frames V1)) Hc) Hm Hp He Herr)
    as (c' & V' & Hf & Hc' & [Hrd Hep] & Hend).
  eexists _, c', V'. split_and!; try done.
  - eapply credit_left; [exact H1|by eapply ended_frames|done].
  - eapply ended_drops; [by eapply cinv_apart|done..].
  - apply settles_fades. by eapply ended_fades.
Qed.

Lemma succeed_one n M V tks G he c i m e :
  cinv (1 + n) M V tks G [] [] he c → credit c V → V !! i = Some m → m_outcome m = Pending → core e = m →
  ∃ c1 c' M' V' G', release_read_credit c = Done c1 ∧ drain_completions_finish_success c1 i e (token_of a (m_frame m)) = Done c' ∧
    cinv n M' V' tks G' [] [] he c' ∧ credit c' V' ∧ drops V V' [m_frame m] ∧ settles V M V' M' ∧ global_epoch c' = global_epoch c.
Proof.
  intros Hc Hcr Hm Hp He.
  destruct (finish_success_cache n M V tks G [] [] he c i m e Hc Hm Hp He) as (_ & V1 & _ & _ & _ & Hend1).
  pose proof (ended_frames _ _ _ _ _ _ Hend1 Hm Hp ltac:(done)) as H1. rewrite (credit_taken _ _ _ _ Hcr H1).
  destruct (finish_success_cache n M V tks G [] [] he _ i m e (cinv_reads _ _ _ _ _ _ _ _ _ (vlen (pending_frames V1)) Hc) Hm Hp He)
    as (c' & V' & Hf & Hc' & [Hrd Hep] & Hend).
  eexists _, c', _, V', _. split_and!; try done.
  - eapply credit_left; [exact H1|by eapply ended_frames|done].
  - eapply ended_drops; [by eapply cinv_apart|done..].
  - split; [by eapply ended_fades|]. intros q f [[<- <-]|[_ Hq]]%lookup_insert_Some; [right|by left]. by exists i, m.
Qed.

(** ** The driver's side *)

Lemma agrees_read (b b' : B) (batch : list Completion) t fl :
  sound b → t ∉ minted b → minted b' = {[t]} ∪ minted b → flights b' = <[t := fl]> (flights b) →
  (∀ x, x ∈ batch → c_token x ∈ minted b) → (∀ k file, ¬ Product.product_flight k file fl) → Product.product_agrees batch b b'.
Proof.
  intros Hs Hn Hm Hf Hb Hk. assert (∀ x, x ∈ batch → flights b' !! c_token x = flights b !! c_token x) as Hsame.
  { intros c Hc%Hb. rewrite Hf, lookup_insert_ne; [done|]. by intros ->. }
  split_and!.
  - intros t' k file fl' Hfl'. rewrite Hf, lookup_insert_Some. split; [|intros Ht'; right; split; [|done]].
    + intros [[<- <-]|[_ H]]; [|done]. by apply Hk in Hfl'.
    + intros <-. by eapply Hn, law_minted.
  - intros c Hc. by rewrite Hsame.
  - intros c Hc. unfold Product.gone. by rewrite Hsame.
  - set_solver.
Qed.

Lemma read_span_ok page filled :
  pg_granule_idx page ≤ U32_MAX → filled ≤ g → read_span page g filled = Done (pg_granule_idx page * g + filled, g - filled).
Proof.
  intros Hi Hf. unfold read_span, checked_mul. unfold U32_MAX in *.
  rewrite (proj2 (N.leb_le _ _)) by (unfold U64_MAX; nia). mred. rewrite add_ok by (unfold U64_MAX; nia). mred. rewrite sub_ok by done. done.
Qed.

Lemma remainder_ok m offset destination len :
  mode_fits g m → ∃ b : bool, route_completion_batch_remainder_satisfies_io_mode m offset destination len = Done b ∧ (b = true → mode_accepts m offset).
Proof.
  destruct m as [al|]; intros Hm; simpl; [|by exists true]. destruct Hm as [Hp _]. unfold Alignment.check. rewrite assertb_true by done. mred.
  destruct (N.land offset _ =? 0); mred; [|by exists false]. destruct (N.land destination _ =? 0); mred; [|by exists false]. eauto.
Qed.

Lemma direct_accepts m offset : mode_fits g m → (∃ k, offset = k * g) → mode_accepts m offset.
Proof.
  destruct m as [al|]; [|done]. intros [Hp Hd] [k ->]. unfold direct_arena_compatible in Hd. apply andb_true_iff in Hd as [_ Hd%N.eqb_eq].
  simpl. unfold Alignment.check. rewrite assertb_true by done. mred. apply is_power_of_two_spec in Hp as [j Hj]. rewrite Hj in *. rewrite land_mask.
  assert ((k * g) mod 2 ^ j = 0) as ->; [|done]. rewrite <- N.Div0.mul_mod_idemp_r, Hd. by rewrite N.mul_0_r, N.Div0.mod_0_l.
Qed.


(** ** Point reads *)

(** The completion in hand ended its read. *)
Lemma end_point k n Q M V tks G A leases he p c c' M' V' G' file f len :
  hinv k Q M V tks G A leases he p [c] → Q !! c_token c = Some (FlyPoint file f len) →
  flights (PoolControl.driver p) !! c_token c = None →
  cinv n M' V' tks G' [] [] he c' → credit c' V' → drops V V' [InFlightFrame_frame f] →
  hinv n (delete (c_token c) Q) M' V' tks G' A leases he (set_cache p c') [].
Proof.
  intros [H1 H2 H3 H4 H5 H6 H7 H8 H9] Ht Hn Hc' Hcr Hd. constructor; simpl; rewrite ?app_nil_r; try done.
  - eapply q_end; [exact H3|by eapply cinv_apart|exact H7|exact Ht|exact Hd|done|done|].
    intros o s span. split; [|naive_solver]. intros Ho. split; [done|]. destruct (q_flying _ _ _ _ _ _ H3 _ _ _ Ho) as (f' & v & Hv). intros Heq. congruence.
  - rewrite fmap_app in H7. by apply NoDup_app in H7 as (? & _ & _).
  - intros x Hx. apply H8. set_solver.
  - intros x Hx. apply H9. set_solver.
Qed.

Lemma fail_point n Q M V tks G A leases he p c i m e file len errno :
  hinv (1 + n) Q M V tks G A leases he p [c] → Q !! c_token c = Some (FlyPoint file (token_of a (m_frame m)) len) →
  flights (PoolControl.driver p) !! c_token c = None → V !! i = Some m → m_outcome m = Pending → core e = m → errno ≠ 0%Z →
  ∃ c1 c' Q' V', release_read_credit (cache p) = Done c1 ∧ drain_completions_finish_failure c1 i e (token_of a (m_frame m)) errno = Done c' ∧
    hinv n Q' M V' tks G A leases he (set_cache p c') [] ∧ moved p (set_cache p c') ∧ settles V M V' M.
Proof.
  intros Hh Ht Hn Hm Hp He Herr. destruct (fail_one n M V tks G he (cache p) i m e errno) as (c1 & c' & V' & H1 & H2 & H3 & H4 & H5 & H6 & H7); try done; [apply Hh..|].
  exists c1, c', (delete (c_token c) Q), V'. split_and!; try done. eapply end_point; try done. by rewrite token_frame.
Qed.

Lemma set_driver_ok n Q M V tks G A leases he p (hand : list Completion) b :
  hinv n Q M V tks G A leases he p hand → sound b → live b = live (PoolControl.driver p) → minted b = minted (PoolControl.driver p) →
  flights b = flights (PoolControl.driver p) → hinv n Q M V tks G A leases he (PoolControl.set_driver p b) hand.
Proof.
  intros [H1 H2 H3 H4 H5 H6 H7 H8 H9] Hs Hl Hm Hf. constructor; try done.
  - apply Product.reads_ok; try done. by apply Product.agrees_same.
  - by eapply q_driver.
  - intros x Hx. change (PoolControl.driver (PoolControl.set_driver p b)) with b. rewrite Hm. by apply H8.
Qed.

Lemma remainder_point_ok n Q M V tks G A leases he p c i m e file len filled :
  hinv (1 + n) Q M V tks G A leases he p [c] → Q !! c_token c = Some (FlyPoint file (token_of a (m_frame m)) len) →
  flights (PoolControl.driver p) !! c_token c = None → V !! i = Some m → m_outcome m = Pending → core e = m → filled < g →
  ∃ p' Q' M' V' G', route_read_completion_remainder g p i e (token_of a (m_frame m)) filled = Done p' ∧
    hinv n Q' M' V' tks G' A leases he p' [] ∧ moved p p' ∧ settles V M V' M'.
Proof.
  intros Hh Ht Hn Hm Hp He Hlt. pose proof Hh as [H1 H2 H3 H4 H5 H6 H7 H8 H9].
  destruct (q_pending _ _ _ _ _ _ H3 i m Hm Hp) as (Hreg & Hidx & _). assert (Miss.me_page e = m_page m) as Hpg by by subst m.
  assert (file = pg_file (m_page m)) as Hfile.
  { destruct (q_point _ _ _ _ _ _ H3 _ _ _ _ Ht) as (j & y & Hj & Hpy & _ & Hfy & Hff & _).
    assert (i = j) as <-; [|by simplify_eq]. eapply (cinv_apart _ _ _ _ _ _ _ _ _ H1 i j m y); try done.
    apply (f_equal InFlightFrame_frame) in Hfy. by rewrite !token_frame in Hfy. }
  unfold route_read_completion_remainder. rewrite Hpg, read_span_ok by (done || lia). mred.
  destruct (Product.registered_file_ok _ _ _ _ _ (Product.pi_files _ _ _ _ H2) Hreg) as (h & -> & Hid & Hok). mred.
  destruct (remainder_ok (fh_mode h) (pg_granule_idx (m_page m) * g + filled) filled (g - filled)) as (sat & -> & Hacc); [apply Hok|]. mred.
  assert (∀ p1, hinv (1 + n) Q M V tks G A leases he p1 [c] → flights (PoolControl.driver p1) !! c_token c = None → moved p p1 →
    ∃ p' Q' M' V' G', (c1 ← release_read_credit (cache p1); c' ← drain_completions_finish_failure c1 i e (token_of a (m_frame m)) SHORT_READ_EOF_ERRNO;
      Done (set_cache p1 c')) = Done p' ∧ hinv n Q' M' V' tks G' A leases he p' [] ∧ moved p p' ∧ settles V M V' M') as Hfail.
  { intros p1 Hh1 Hn1 Hmv. destruct (fail_point n Q M V tks G A leases he p1 c i m e file len SHORT_READ_EOF_ERRNO) as (c1 & c' & Q' & V' & -> & He2 & Hh' & Hmv' & Hset); try done.
    mred. rewrite He2. mred. eexists _, Q', M, V', G. split; [done|]. split_and!; try done. by eapply moved_trans. }
  destruct sat; [|mred; by apply Hfail].
  pose proof (Product.pi_sound _ _ _ _ H2) as Hs.
  destruct (law_submit_read (PoolControl.driver p) h (token_of a (m_frame m)) (pg_granule_idx (m_page m) * g + filled) filled (g - filled) ContinuationRead)
    as (b & r & -> & Hs' & Hl' & Hr); try done; [apply Hok|by apply Hacc| |lia|lia|].
  { rewrite token_frame. eapply in_state_lt; [apply H1|by eapply pending_state]. }
  mred. destruct r as [t|[er w]].
  - destruct Hr as (Hnew & Hmint & Hfl). destruct (advance_remainder_cache _ _ _ _ _ _ _ _ _ i m filled t H1 Hm Hp) as (tbl & Hadv & Hc').
    simpl. change (cache (PoolControl.set_driver p b)) with (cache p). rewrite Hadv. mred.
    eexists _, (<[t := FlyPoint file (token_of a (m_frame m)) (g - filled)]> (delete (c_token c) Q)), M, (<[i := with_read filled t m]> V), G.
    split; [done|]. split; [|split; [done|]].
    + constructor; simpl; rewrite ?app_nil_r; try done.
      * eapply cinv_le; [exact Hc'|lia].
      * apply Product.reads_ok; try done. eapply agrees_read; try done; [intros x Hx; apply H8; set_solver|by intros [] ? ?].
      * change (PoolControl.driver _) with b. eapply (q_again Q V _ (PoolControl.driver p) b (batch p) A c i m t file filled len); try done.
        -- by eapply cinv_apart.
        -- by rewrite Hfl, Hid, Hfile.
      * unfold credit in *. simpl. rewrite H6. unfold vlen. f_equal. apply Permutation_length. symmetry. by apply (pending_keep V i m).
      * rewrite fmap_app in H7. by apply NoDup_app in H7 as (? & _ & _).
      * intros x Hx. change (PoolControl.driver _) with b. rewrite Hmint. apply elem_of_union_r, H8. set_solver.
      * intros x Hx. apply H9. set_solver.
    + split; [|by left]. intros j y [[<- <-]|[_ Hj]]%lookup_insert_Some; [exists m|exists y]; done.
  - destruct Hr as (-> & Hmint & Hfl & _). apply Hfail; [by apply set_driver_ok| |done].
    change (PoolControl.driver _) with b. by rewrite Hfl.
Qed.

Lemma route_point_ok n Q M V tks G A leases he p c file f len :
  hinv (1 + n) Q M V tks G A leases he p [c] → Q !! c_token c = Some (FlyPoint file f len) → answers (FlyPoint file f len) c →
  flights (PoolControl.driver p) !! c_token c = None →
  ∃ p' Q' M' V' G', route_completion g p c = Done p' ∧
    hinv n Q' M' V' tks G' A leases he p' [] ∧ moved p p' ∧ settles V M V' M'.
Proof.
  intros Hh Ht (Hk & Hfr & Hco & Hres) Hn. pose proof Hh as [H1 H2 H3 H4 H5 H6 H7 H8 H9].
  destruct (q_point _ _ _ _ _ _ H3 _ _ _ _ Ht) as (i & m & Hm & Hp & Htk & -> & -> & Hlen & Hfill).
  unfold route_completion. rewrite Hfr, Hco, Hk. mred. rewrite bool_decide_eq_true_2 by done. simpl negb.
  destruct (ci_miss _ _ _ _ _ _ _ _ _ H1) as [Hr _].
  destruct (find_by_token_map _ _ _ _ (c_token c) Hr) as (o & -> & Ho). mred.
  destruct o as [j|]; [|exfalso; by eapply Ho]. destruct Ho as (y & Hy & Hpy & Hty).
  assert (j = i) as ->.
  { destruct (q_pending _ _ _ _ _ _ H3 j y Hy Hpy) as (_ & _ & fl & Hfl & Hin). rewrite Hty, Ht in Hfl. injection Hfl as <-. simpl in Hin.
    apply list_elem_of_singleton in Hin. rewrite token_frame in Hin. by eapply (cinv_apart _ _ _ _ _ _ _ _ _ H1 j i y m). }
  destruct (entry_map _ _ _ _ i m Hr Hm) as (e & -> & He). mred. assert (Miss.me_frame e = m_frame m) as Hef by by subst m.
  rewrite token_frame, Hef, N.eqb_refl. mred. assert (Miss.me_filled e = m_filled m) as Hfi by by subst m.
  unfold route_read_completion, on_cache_.
  assert (∀ errno, errno ≠ 0%Z → ∃ p' Q' M' V' G',
    (c1 ← release_read_credit (cache p); c' ← drain_completions_finish_failure c1 i e (token_of a (m_frame m)) errno; Done (set_cache p c')) = Done p' ∧
    hinv n Q' M' V' tks G' A leases he p' [] ∧ moved p p' ∧ settles V M V' M') as Hfail.
  { intros errno Herr. destruct (fail_point n Q M V tks G A leases he p c i m e _ len errno Hh Ht Hn Hm Hp He Herr) as (c1 & c' & Q' & V' & -> & He2 & ? & ? & ?).
    mred. rewrite He2. mred. eexists _, Q', M, V', G. done. }
  destruct (c_result c) as [n0|errno]; simpl in Hres; [|by apply Hfail].
  destruct (N.eqb_spec n0 0) as [->|Hz]; [by apply Hfail|]. rewrite Hfi, add_ok by (unfold U32_MAX in *; lia). mred.
  destruct (N.leb_spec g (m_filled m + n0)) as [Hge|Hlt].
  - destruct (succeed_one n M V tks G he (cache p) i m e H1 H6 Hm Hp He) as (c1 & c' & M' & V' & G' & -> & He2 & H1' & H6' & Hd & Hset & Hep).
    mred. rewrite He2. mred. eexists _, (delete (c_token c) Q), M', V', G'. split; [done|]. split_and!; [|done|done].
    eapply end_point; try done. by rewrite token_frame.
  - by eapply remainder_point_ok.
Qed.

(** ** Pages of a span *)

Lemma drops_equiv V V' fs fs' : drops V V' fs → (∀ f, f ∈ fs ↔ f ∈ fs') → drops V V' fs'.
Proof. intros Hd He i m Hm. rewrite (Hd i m Hm), He. done. Qed.

Lemma waits_drops V V' span t k f fs :
  page_waits (a := a) V span t k f → drops V V' fs → InFlightFrame_frame f ∉ fs → page_waits (a := a) V' span t k f.
Proof.
  intros (sp & m & H1 & H2 & H3 & H4 & H5 & -> & H7) Hd Hf. rewrite token_frame in Hf. exists sp, m. split; [done|]. split; [|done].
  by apply (Hd _ _ H4).
Qed.

Lemma waits_apart V span t k k' f f' :
  frames_apart V → page_waits (a := a) V span t k f → page_waits (a := a) V span t k' f' → k ≠ k' → InFlightFrame_frame f ≠ InFlightFrame_frame f'.
Proof.
  intros Ha (sp & m & _ & H2 & _ & H4 & _ & -> & H7) (sp' & m' & _ & H2' & _ & H4' & _ & -> & H7') Hne. rewrite !token_frame. intros Heq.
  pose proof (Ha _ _ _ _ H2 H2' H4 H4' Heq) as Hs. rewrite Hs in H2. simplify_eq. rewrite H7 in H7'. injection H7'. lia.
Qed.

Lemma span_entry_ok V t tbl ints tks span k f :
  mrep tbl ints tks V → page_waits (a := a) V span t k f → k < ReadSpans.count span → pg_granule_idx (ReadSpans.first span) + k ≤ U32_MAX →
  ∃ i e m, ReadSpans.entry span tbl k f = Done (i, e) ∧ V !! i = Some m ∧ m_outcome m = Pending ∧ core e = m ∧ f = token_of a (m_frame m).
Proof.
  intros Hr (sp & m & H1 & H2 & H3 & H4 & _ & -> & H7) Hk Hmax. unfold ReadSpans.entry. rewrite (proj2 (N.ltb_lt _ _)) by done. mred.
  rewrite (proj2 (vget_Done _ _ _) H1). mred. destruct (entry_map _ _ _ _ _ _ Hr H2) as (e & -> & He). mred.
  exists (ReadSpans.sp_slot sp), e, m. subst m. simpl in *. rewrite H3, N.eqb_refl. mred. rewrite (bool_decide_eq_true_2 (Miss.me_outcome e = _)) by done. mred.
  rewrite token_frame, N.eqb_refl. mred. rewrite H7. simpl. rewrite bool_decide_eq_true_2 by done. mred. rewrite add_ok by done. mred.
  rewrite N.eqb_refl. mred. done.
Qed.

Lemma fail_each_ok n M tks G he t span errno : errno ≠ 0%Z → ∀ l V c failed,
  cinv (vlen l + n) M V tks G [] [] he c → credit c V →
  (∀ k f, l !! N.to_nat k = Some f → page_waits (a := a) V span t (ReadSpans.published span + failed + k) f) →
  ReadSpans.published span + failed + vlen l ≤ ReadSpans.count span →
  pg_granule_idx (ReadSpans.first span) + ReadSpans.published span + failed + vlen l ≤ U32_MAX + 1 →
  ∃ c' V', fail_each span errno c failed (ReadVector.number (ReadSpans.published span + failed) l) = Done (c', failed + vlen l) ∧
    cinv n M V' tks G [] [] he c' ∧ credit c' V' ∧ drops V V' (InFlightFrame_frame <$> l) ∧ settles V M V' M ∧ global_epoch c' = global_epoch c.
Proof.
  intros Herr. induction l as [|f l IH]; intros V c failed Hc Hcr Hw Hcnt Hmax.
  - exists c, V. simpl. split_and!; try done; [by rewrite N.add_0_r|by apply drops_same|apply settles_refl].
  - change (f :: l) with ([f] ++ l) at 1. rewrite (ReadVector.number_app (mkFrames [] [] 0 g 0) Hg). unfold ReadVector.number at 1. simpl. rewrite N.add_0_r, N.eqb_refl. mred.
    assert (vlen (f :: l) = 1 + vlen l) as Hlen by (unfold vlen; simpl; lia). rewrite Hlen in *.
    replace (1 + vlen l + n) with (1 + (vlen l + n)) in Hc by lia.
    pose proof (Hw 0 f eq_refl) as Hw0. rewrite N.add_0_r in Hw0.
    destruct (ci_miss _ _ _ _ _ _ _ _ _ Hc) as [Hr _].
    destruct (span_entry_ok _ _ _ _ _ _ _ _ Hr Hw0) as (i & e & m & -> & Hm & Hp & He & ->); [lia..|]. mred.
    destruct (fail_one (vlen l + n) M V tks G he c i m e errno Hc Hcr Hm Hp He Herr) as (c1 & c2 & V1 & -> & He2 & Hc2 & Hcr2 & Hd & Hset & Hep).
    mred. rewrite He2. mred.
    destruct (IH V1 c2 (failed + 1) Hc2 Hcr2) as (c' & V' & He3 & Hc' & Hcr' & Hd' & Hset' & Hep'); [|lia|lia|].
    { intros k f' Hk. replace (ReadSpans.published span + (failed + 1) + k) with (ReadSpans.published span + failed + (k + 1)) by lia.
      assert (page_waits (a := a) V span t (ReadSpans.published span + failed + (k + 1)) f') as Hwk by (apply Hw; replace (N.to_nat (k + 1)) with (S (N.to_nat k)) by lia; done).
      eapply waits_drops; [exact Hwk|exact Hd|]. intros Hin%list_elem_of_singleton.
      eapply (waits_apart V span t); [by eapply cinv_apart|exact Hwk|exact Hw0|lia|]. by rewrite token_frame. }
    exists c', V'. split_and!; try done.
    + replace (ReadSpans.published span + failed + vlen [token_of a (m_frame m)]) with (ReadSpans.published span + (failed + 1)) by (unfold vlen; simpl; lia).
      rewrite He3. do 2 f_equal. lia.
    + simpl. rewrite token_frame. by apply (drops_trans V V1 V' [m_frame m]).
    + by eapply settles_trans.
    + congruence.
Qed.

(** ** The span of a completion *)

(** The routes while the completion of span [s] is being routed. *)
Definition routing A (t : OpToken) (s : N) : Routes :=
  ReadSpans.mkRoutes (ReadSpans.reserved A) (delete (OpToken_slot t) (ReadSpans.flying A)) {[OpToken_slot t := (s, t)]}.

Lemma completing_ok rs A t s span :
  ReadSpans.represents slots capacity rs A → ReadSpans.landing A = ∅ → ReadSpans.flying A !! OpToken_slot t = Some (s, span) →
  ReadSpans.token span = t → OpToken_slot t < capacity →
  ∃ rs', ReadSpans.completing rs t = Done (Some (s, span), rs') ∧ ReadSpans.represents slots capacity rs' (routing A t s).
Proof.
  intros Hr Hl Hf Ht Hlt. destruct (ReadSpans.complete_represents slots capacity rs A t Hr) as (x & rs' & A' & He & Hs & Hr').
  { split_and!; [done|by rewrite Hl, lookup_empty|]. intros s' span' Hf'. congruence. }
  inversion Hs as [| | | |t0 s0 span0 Hf0|t0 Hn0| |]; subst; [|congruence]. rewrite Hf in Hf0. simplify_eq. simpl in He.
  destruct (ReadSpans.completing rs (ReadSpans.token span0)) as [[o rs0]|]; simplify_eq/=. exists rs'. split; [done|]. by rewrite Hl in Hr'.
Qed.

Lemma finish_route_ok rs A t s :
  ReadSpans.represents slots capacity rs (routing A t s) →
  ∃ rs', ReadSpans.finish rs s t = Done rs' ∧
    ReadSpans.represents slots capacity rs' (ReadSpans.mkRoutes (ReadSpans.reserved A) (delete (OpToken_slot t) (ReadSpans.flying A)) ∅).
Proof.
  intros Hr. destruct (ReadSpans.finish_represents slots capacity rs _ s t Hr) as (x & rs' & A' & He & Hs & Hr').
  { simpl. apply lookup_singleton_eq. }
  inversion Hs; subst. simpl in He. destruct (ReadSpans.finish rs s t) as [rs0|]; simplify_eq/=. exists rs'. split; [done|].
  by rewrite delete_singleton_eq in Hr'.
Qed.

Lemma resume_ok rs A s span :
  ReadSpans.represents slots capacity rs (routing A (ReadSpans.token span) s) → ReadSpans.filled span < ReadSpans.bytes span →
  ∃ rs', ReadSpans.resume rs s span = Done rs' ∧
    ReadSpans.represents slots capacity rs' (ReadSpans.mkRoutes (ReadSpans.reserved A) (<[OpToken_slot (ReadSpans.token span) := (s, span)]> (ReadSpans.flying A)) ∅).
Proof.
  intros Hr Hlt. destruct (ReadSpans.resume_represents slots capacity rs _ s span Hr) as (x & rs' & A' & He & Hs & Hr').
  { simpl. split; [apply lookup_singleton_eq|done]. }
  inversion Hs; subst. simpl in He. destruct (ReadSpans.resume rs s span) as [rs0|]; simplify_eq/=. exists rs'. split; [done|].
  by rewrite delete_singleton_eq, insert_delete_eq in Hr'.
Qed.

Lemma transferable_inflight {P U} n M V tks G lo fl he c f :
  PoolInv.cinv (F := F) (g := g) (a := a) (fcap := fcap) (reads := reads) (P := P) (W := U) n M V tks G lo fl he c → in_state (frames c) f InFlight → ReadVector.transferable (frames c) (token_of a f).
Proof.
  intros Hc Hin. pose proof (ci_arena _ _ _ _ _ _ _ _ _ Hc) as Ha. pose proof (in_state_lt _ _ _ _ _ _ _ Ha Hin) as Hi.
  destruct Hin as (w & Hw & Hs). destruct Ha as [Hsh Hcnt Hgr Hid _]. unfold ReadVector.transferable, transfer_ptr.
  rewrite (proj2 (owned_index_Done (frames c) (token_of a f) f)) by (rewrite token_frame; split_and!; [done|done|lia]). mred.
  rewrite (proj2 (vget_Done _ _ _) Hw). mred. rewrite from_word_total, Hs. mred. rewrite sub_ok by lia. mred.
  rewrite bool_decide_eq_true_2 by done. rewrite N.sub_0_r, N.leb_refl, (proj2 (N.leb_le 0 _)) by lia. mred. by rewrite token_frame, N.add_0_r.
Qed.

(** The pages that the bytes of a completion filled are published. *)
Lemma publish_pages_ok n Q M V tks G A leases he p hand t span v v1 l bytes :
  hinv (32 + n) Q M V tks G A leases he p hand → spanned (g := g) (a := a) V t span v l → ReadSpans.filled span + bytes ≤ ReadSpans.bytes span →
  ReadVector.record_completion v bytes = Done v1 →
  ∃ span' v' c' M' V' G', ReadSpans.publish_completed (frames (cache p)) span v1 bytes g publish_page (cache p) = Done (span', v', c') ∧
    (∀ h, granule h = g → ReadSpans.covers h l span' v') ∧ ReadSpans.same_read span span' ∧ ReadSpans.filled span' = ReadSpans.filled span + bytes ∧
    ReadVector.operation v' = Some t ∧ ReadSpans.published span ≤ ReadSpans.published span' ∧
    cinv (vlen l - ReadSpans.published span' + n) M' V' tks G' [] [] he c' ∧ credit c' V' ∧
    drops V V' (InFlightFrame_frame <$> take (N.to_nat (ReadSpans.published span') - N.to_nat (ReadSpans.published span)) (drop (N.to_nat (ReadSpans.published span)) l)) ∧
    settles V M V' M' ∧ global_epoch c' = global_epoch (cache p).
Proof.
  intros Hh Hs Hle Hrec. pose proof Hh as [H1 H2 H3 H4 H5 H6 H7 H8 H9].
  pose proof (ao_granule _ _ _ _ _ (ci_arena _ _ _ _ _ _ _ _ _ H1)) as Hgr.
  pose proof (sv_covers _ _ _ _ _ Hs (frames (cache p)) Hgr) as Hcov. pose proof Hcov as [Hb Hfi Hpu Hor Hct Hby].
  set (o := N.to_nat (ReadSpans.published span)).
  assert (vlen l ≤ 32) as Hmax by apply Hb.
  set (I := λ (done : list InFlightFrame) (c : Cache), ∃ M' V' G', cinv (vlen l - vlen done + n) M' V' tks G' [] [] he c ∧ credit c V' ∧
    drops V V' (InFlightFrame_frame <$> drop o done) ∧ settles V M V' M' ∧ global_epoch c = global_epoch (cache p)).
  assert (ReadSpans.published span ≤ vlen l) as Hpl.
  { rewrite Hpu. pose proof (ReadVector.b_count _ _ _ Hb). lia. }
  destruct (ReadSpans.publish_completed_rule (frames (cache p)) ltac:(by rewrite Hgr) publish_page I l span v v1 bytes (cache p) Hcov Hle Hrec)
    as (span' & v' & c' & He & Hcov' & Hsame & Hf' & Hop & HI).
  - intros k f c s Hk Hpk Hl Hsr Hps (M' & V' & G' & Hc & Hcr & Hd & Hset & Hep).
    assert (k < vlen l) as Hkl by (apply lookup_lt_Some in Hl; unfold vlen; lia).
    assert (vlen (take (N.to_nat k) l) = k) as Hlt by (unfold vlen in *; rewrite length_take; lia). rewrite Hlt in Hc.
    replace (vlen l - k + n) with (1 + (vlen l - (k + 1) + n)) in Hc by lia.
    pose proof (cinv_apart _ _ _ _ _ _ _ _ _ H1) as Hap.
    assert (page_waits (a := a) V' span t k f) as Hw.
    { eapply waits_drops; [by apply (sv_pages _ _ _ _ _ Hs)|exact Hd|]. intros (f' & Heq & [j Hj]%list_elem_of_lookup)%list_elem_of_fmap.
      rewrite lookup_drop in Hj. apply lookup_take_Some in Hj as [Hj Hjk].
      eapply (waits_apart V span t k (N.of_nat (o + j))); [done|by apply (sv_pages _ _ _ _ _ Hs)| |lia|exact Heq].
      apply (sv_pages _ _ _ _ _ Hs); [lia|]. by rewrite Nat2N.id. }
    assert (page_waits (a := a) V' s t k f) as Hw'.
    { destruct Hsr as (Hp1 & Hp2 & _). unfold page_waits in *. rewrite Hp1, Hp2. done. }
    destruct Hsr as (_ & Hfst & _ & Hcnt & _). destruct (ci_miss _ _ _ _ _ _ _ _ _ Hc) as [Hr _].
    unfold publish_page. destruct (span_entry_ok _ _ _ _ _ _ _ _ Hr Hw') as (i & e & m & -> & Hm & Hp & Hcore & ->).
    { rewrite Hcnt, Hct. done. }
    { rewrite Hfst. pose proof (sv_first _ _ _ _ _ Hs). lia. }
    mred. destruct (succeed_one (vlen l - (k + 1) + n) M' V' tks G' he c i m e Hc Hcr Hm Hp Hcore) as (c1 & c2 & M2 & V2 & G2 & -> & He2 & Hc2 & Hcr2 & Hd2 & Hset2 & Hep2).
    mred. rewrite He2. eexists. split; [done|]. exists M2, V2, G2. replace (N.to_nat (k + 1)) with (S (N.to_nat k)) by lia. rewrite (take_S_r _ _ _ Hl).
    assert (vlen (take (N.to_nat k) l ++ [token_of a (m_frame m)]) = k + 1) as -> by (unfold vlen in *; rewrite length_app; simpl; lia).
    split_and!; try done; [|by eapply settles_trans|congruence].
    rewrite drop_app_le by (unfold vlen in *; rewrite length_take; lia). rewrite fmap_app. simpl. rewrite token_frame. by eapply drops_trans.
  - exists M, V, G. assert (vlen (take (N.to_nat (ReadSpans.published span)) l) = ReadSpans.published span) as -> by (unfold vlen in *; rewrite length_take; lia).
    split_and!; try done; [eapply cinv_le; [exact H1|lia]| |apply settles_refl].
    rewrite drop_ge by (rewrite length_take; lia). by apply drops_same.
  - rewrite Hgr in He. destruct HI as (M' & V' & G' & Hc & Hcr & Hd & Hset & Hep).
    pose proof Hcov' as [Hb' Hfi' Hpu' Hor' Hct' Hby'].
    assert (ReadSpans.published span' ≤ vlen l) as Hpl' by (rewrite Hpu'; pose proof (ReadVector.b_count _ _ _ Hb'); lia).
    assert (ReadSpans.published span ≤ ReadSpans.published span') as Hmono.
    { rewrite Hpu, Hpu', Hor, Hor'. apply N.Div0.div_le_mono. rewrite <- Hfi, <- Hfi', Hf'. lia. }
    assert (vlen (take (N.to_nat (ReadSpans.published span')) l) = ReadSpans.published span') as Hlt by (unfold vlen in *; rewrite length_take; lia).
    rewrite Hlt in Hc. exists span', v', c', M', V', G'. split_and!; try done.
    + intros h Hh'. eapply ReadSpans.covers_granule; [|exact Hcov']. congruence.
    + rewrite Hop. apply Hs.
    + rewrite firstn_skipn_comm. replace (o + (N.to_nat (ReadSpans.published span') - o))%nat with (N.to_nat (ReadSpans.published span')) by lia. done.
Qed.

Lemma span_failure_ok n M V tks G A he p t s span v l errno :
  cinv (vlen l - ReadSpans.published span + n) M V tks G [] [] he (cache p) → credit (cache p) V →
  ReadSpans.represents slots capacity (read_spans p) (routing A t s) → ReadSpans.token span = t →
  (∀ h, granule h = g → ReadSpans.covers h l span v) →
  (∀ k f, ReadSpans.published span ≤ k → l !! N.to_nat k = Some f → page_waits (a := a) V span t k f) →
  pg_granule_idx (ReadSpans.first span) + vlen l ≤ U32_MAX + 1 → errno ≠ 0%Z →
  ∃ c' rs' V', route_span_failure p s span v errno = Done (set_spans (set_cache p c') rs') ∧
    cinv n M V' tks G [] [] he c' ∧ credit c' V' ∧
    ReadSpans.represents slots capacity rs' (ReadSpans.mkRoutes (ReadSpans.reserved A) (delete (OpToken_slot t) (ReadSpans.flying A)) ∅) ∧
    drops V V' (InFlightFrame_frame <$> drop (N.to_nat (ReadSpans.published span)) l) ∧ settles V M V' M ∧ global_epoch c' = global_epoch (cache p).
Proof.
  intros Hc Hcr Hrs Ht Hcov Hw Hmax Herr. pose proof (Hcov (mkFrames [] [] 0 g 0) eq_refl) as [Hb Hfi Hpu Hor Hct Hby]. simpl in Hor, Hby.
  unfold route_span_failure. destruct (ReadVector.take_remaining_bundle (mkFrames [] [] 0 g 0) Hg l v Hb) as (v' & -> & _). mred.
  assert (ReadSpans.published span ≤ vlen l) as Hpl by (rewrite Hpu; pose proof (ReadVector.b_count _ _ _ Hb); lia).
  assert (vlen (drop (N.to_nat (ReadVector.ordinal v)) l) = vlen l - ReadSpans.published span) as Hlen by (rewrite Hpu; unfold vlen; rewrite length_drop; lia).
  destruct (fail_each_ok n M tks G he t span errno Herr (drop (N.to_nat (ReadVector.ordinal v)) l) V (cache p) 0) as (c' & V' & He & Hc' & Hcr' & Hd & Hset & Hep).
  - by rewrite Hlen.
  - done.
  - intros k f Hk. rewrite lookup_drop in Hk. apply Hw; [lia|]. rewrite <- Hk. f_equal. lia.
  - rewrite Hlen, Hct. lia.
  - rewrite Hlen. lia.
  - rewrite !N.add_0_r, Hpu in He. rewrite N.add_0_l, Hlen in He. rewrite He. mred.
    replace (ReadSpans.published span + (vlen l - ReadSpans.published span)) with (ReadSpans.count span) by (rewrite Hct; lia). rewrite N.eqb_refl. mred.
    destruct (finish_route_ok (read_spans p) A t s Hrs) as (rs' & Hfin & Hrs'). rewrite Ht, Hfin. mred.
    exists c', rs', V'. rewrite Hpu. split_and!; done.
Qed.

Lemma agrees_at (batch : list Completion) (b b' : B) t :
  (∀ t', t' ≠ t → flights b' !! t' = flights b !! t') →
  (∀ fl k file, flights b !! t = Some fl ∨ flights b' !! t = Some fl → ¬ Product.product_flight k file fl) →
  t ∉ c_token <$> batch → minted b ⊆ minted b' → Product.product_agrees batch b b'.
Proof.
  intros Hf Hk Ht Hm. assert (∀ x, x ∈ batch → flights b' !! c_token x = flights b !! c_token x) as Hsame.
  { intros x Hx. apply Hf. intros <-. apply Ht. by apply list_elem_of_fmap_2. }
  split_and!; [| | |done].
  - intros t' k file fl Hfl. destruct (decide (t' = t)) as [->|Hne]; [|by rewrite Hf]. split; intros H; exfalso; eapply Hk; eauto.
  - intros x Hx. by rewrite Hsame.
  - intros x Hx. unfold Product.gone. by rewrite Hsame.
Qed.

(** The routes after the span has left. *)
Lemma routes_left A t s span :
  (∀ o s' span', ReadSpans.flying A !! o = Some (s', span') → OpToken_slot (ReadSpans.token span') = o) →
  ReadSpans.flying A !! OpToken_slot t = Some (s, span) → ReadSpans.token span = t → ∀ o s' span',
  delete (OpToken_slot t) (ReadSpans.flying A) !! o = Some (s', span') ↔ ReadSpans.flying A !! o = Some (s', span') ∧ ReadSpans.token span' ≠ t.
Proof.
  intros Hsl Hf Ht o s' span'. rewrite lookup_delete_Some. split.
  - intros [Hne Ho]. split; [done|]. intros Heq. apply Hne. by rewrite <- (Hsl _ _ _ Ho), Heq.
  - intros [Ho Hne]. split; [|done]. intros <-. rewrite Hf in Ho. injection Ho as <- <-. done.
Qed.

(** The completion in hand ended its vectored read. *)
Lemma end_vector k n Q M V tks G A leases he p c file v s span c' rs' b M' V' G' :
  hinv k Q M V tks G A leases he p [c] → Q !! c_token c = Some (FlyVector file v) →
  ReadSpans.flying A !! OpToken_slot (c_token c) = Some (s, span) → ReadSpans.token span = c_token c →
  cinv n M' V' tks G' [] [] he c' → credit c' V' → drops V V' (flight_frames (FlyVector file v)) →
  ReadSpans.represents slots capacity rs' (ReadSpans.mkRoutes (ReadSpans.reserved A) (delete (OpToken_slot (c_token c)) (ReadSpans.flying A)) ∅) →
  (∃ left, flights (PoolControl.driver p) !! c_token c = Some (Landed file left)) →
  sound b → live b = live (PoolControl.driver p) → minted b = minted (PoolControl.driver p) →
  flights b = delete (c_token c) (flights (PoolControl.driver p)) →
  hinv n (delete (c_token c) Q) M' V' tks G' (ReadSpans.mkRoutes (ReadSpans.reserved A) (delete (OpToken_slot (c_token c)) (ReadSpans.flying A)) ∅)
    leases he (PoolControl.set_driver (set_spans (set_cache p c') rs') b) [].
Proof.
  intros [H1 H2 H3 H4 [H5 H5'] H6 H7 H8 H9] Ht Hfly Htok Hc' Hcr Hd Hrs [left Hland] Hs Hl Hm Hf. pose proof H7 as H7'. rewrite fmap_app in H7'.
  apply NoDup_app in H7' as (Hnd & Hdis & _).
  constructor; simpl; rewrite ?app_nil_r; try done.
  - apply Product.reads_ok; try done. apply (agrees_at _ (PoolControl.driver p) _ (c_token c)).
    + intros t' Hne. by rewrite Hf, lookup_delete_ne.
    + intros fl kk f [Hx|Hx]; [rewrite Hland in Hx|rewrite Hf, lookup_delete_eq in Hx]; simplify_eq. intros Hk; by destruct kk.
    + intros Hin. apply (Hdis _ Hin). set_solver.
    + by rewrite Hm.
  - change (PoolControl.driver _) with b. eapply q_end; [exact H3|by eapply cinv_apart|exact H7|exact Ht|exact Hd| | |].
    + intros t' Hne. by rewrite Hf, lookup_delete_ne.
    + by rewrite Hf, lookup_delete_eq.
    + eapply routes_left; [|done..]. intros o s' span' Ho. by apply (ReadSpans.rp_flying _ _ _ _ H4 o s').
  - intros x Hx. change (PoolControl.driver _) with b. rewrite Hm. apply H8. set_solver.
  - intros x Hx. apply H9. set_solver.
Qed.

Lemma flight_drop V t span v l file f :
  spanned (g := g) (a := a) V t span v l →
  f ∈ flight_frames (FlyVector file v) ↔ f ∈ InFlightFrame_frame <$> drop (N.to_nat (ReadSpans.published span)) l.
Proof.
  intros Hs. simpl. rewrite (spanned_frames _ _ _ _ _ _ Hs), list_elem_of_fmap. setoid_rewrite list_elem_of_lookup. setoid_rewrite lookup_drop. split.
  - intros (k & x & Hk & Hx & <-). exists x. split; [done|]. exists (N.to_nat k - N.to_nat (ReadSpans.published span))%nat. rewrite <- Hx. f_equal. lia.
  - intros (x & -> & j & Hj). exists (N.of_nat (N.to_nat (ReadSpans.published span) + j)), x. rewrite Nat2N.id. split_and!; [lia|done..].
Qed.

(** The pages not published yet still wait. *)
Lemma waits_after V V' t span span' v l :
  spanned (g := g) (a := a) V t span v l → frames_apart V → ReadSpans.same_read span span' → ReadSpans.published span ≤ ReadSpans.published span' →
  drops V V' (InFlightFrame_frame <$> take (N.to_nat (ReadSpans.published span') - N.to_nat (ReadSpans.published span)) (drop (N.to_nat (ReadSpans.published span)) l)) →
  ∀ k f, ReadSpans.published span' ≤ k → l !! N.to_nat k = Some f → page_waits (a := a) V' span' t k f.
Proof.
  intros Hs Hap (Hp1 & Hp2 & _) Hle Hd k f Hk Hf.
  assert (page_waits (a := a) V' span t k f) as Hw; [|unfold page_waits in *; by rewrite Hp1, Hp2].
  eapply waits_drops; [apply (sv_pages _ _ _ _ _ Hs); [lia|done]|exact Hd|].
  intros (f' & Heq & [j Hj]%list_elem_of_lookup)%list_elem_of_fmap. apply lookup_take_Some in Hj as [Hj Hjk]. rewrite lookup_drop in Hj.
  eapply (waits_apart V span t k (N.of_nat (N.to_nat (ReadSpans.published span) + j))); [done| | |lia|exact Heq].
  - apply (sv_pages _ _ _ _ _ Hs); [lia|done].
  - apply (sv_pages _ _ _ _ _ Hs); [lia|]. by rewrite Nat2N.id.
Qed.

Lemma ready_ok n M V tks G he c t span v l :
  cinv n M V tks G [] [] he c → (∀ h, granule h = g → ReadSpans.covers h l span v) → ReadSpans.filled span < ReadSpans.bytes span →
  (∀ k f, ReadSpans.published span ≤ k → l !! N.to_nat k = Some f → page_waits (a := a) V span t k f) →
  vector_ready (frames c) v.
Proof.
  intros Hc Hcov Hlt Hw. pose proof (ao_granule _ _ _ _ _ (ci_arena _ _ _ _ _ _ _ _ _ Hc)) as Hgr.
  destruct (Hcov (frames c) Hgr) as [Hb Hfi Hpu Hor Hct Hby]. split_and!; [by exists l| |done|].
  - intros f Hf%(ReadVector.owned_frames _ _ _ _ Hb). apply list_elem_of_lookup in Hf as [j Hj]. rewrite lookup_drop in Hj.
    destruct (Hw (N.of_nat (N.to_nat (ReadVector.ordinal v) + j)) f) as (sp & m & _ & Hm & _ & Hp & _ & -> & _); [lia|by rewrite Nat2N.id|].
    eapply transferable_inflight; [exact Hc|]. by eapply pending_state.
  - rewrite (ReadVector.b_total _ _ _ Hb), <- Hfi. rewrite Hby in Hlt. done.
Qed.

Lemma covers_operation h l span v d t : ReadSpans.covers h l span v → ReadSpans.covers h l span (with_operation v d t).
Proof. intros [[B1 B2 B3 B4 B5 B6] H2 H3 H4 H5 H6]. by constructor; [constructor|..]. Qed.

(** The vectored read in hand goes on. *)
Lemma resume_vector k n Q M V tks G A leases he p c file v s span span' v' l c' rs' b d M' V' G' :
  hinv k Q M V tks G A leases he p [c] → Q !! c_token c = Some (FlyVector file v) →
  ReadSpans.flying A !! OpToken_slot (c_token c) = Some (s, span) → file = pg_file (ReadSpans.first span) →
  spanned (g := g) (a := a) V (c_token c) span v l → ReadSpans.same_read span span' →
  cinv n M' V' tks G' [] [] he c' → credit c' V' → ReadSpans.published span ≤ ReadSpans.published span' →
  drops V V' (InFlightFrame_frame <$> take (N.to_nat (ReadSpans.published span') - N.to_nat (ReadSpans.published span)) (drop (N.to_nat (ReadSpans.published span)) l)) →
  (∀ h, granule h = g → ReadSpans.covers h l span' v') → ReadSpans.filled span' < ReadSpans.bytes span' →
  ReadSpans.represents slots capacity rs' (ReadSpans.mkRoutes (ReadSpans.reserved A) (<[OpToken_slot (c_token c) := (s, span')]> (ReadSpans.flying A)) ∅) →
  (∃ left, flights (PoolControl.driver p) !! c_token c = Some (Landed file left)) →
  sound b → live b = live (PoolControl.driver p) → minted b = minted (PoolControl.driver p) →
  flights b = <[c_token c := FlyVector file (with_operation v' d (c_token c))]> (flights (PoolControl.driver p)) →
  hinv n (<[c_token c := FlyVector file (with_operation v' d (c_token c))]> Q) M' V' tks G'
    (ReadSpans.mkRoutes (ReadSpans.reserved A) (<[OpToken_slot (c_token c) := (s, span')]> (ReadSpans.flying A)) ∅)
    leases he (PoolControl.set_driver (set_spans (set_cache p c') rs') b) [].
Proof.
  intros [H1 H2 H3 H4 [H5 H5'] H6 H7 H8 H9] Ht Hfly Hfile Hsp Hsame Hc' Hcr Hmono Hd Hcov Hlt Hrs [left Hland] Hs Hl Hm Hf. pose proof H7 as H7'. rewrite fmap_app in H7'.
  apply NoDup_app in H7' as (Hnd & Hdis & _). pose proof (cinv_apart _ _ _ _ _ _ _ _ _ H1) as Hap.
  assert (spanned (g := g) (a := a) V' (c_token c) span' (with_operation v' d (c_token c)) l) as Hsp'.
  { pose proof (waits_after _ _ _ _ _ _ _ Hsp Hap Hsame Hmono Hd) as Hw. destruct Hsp as [S1 S2 S3 S4 S5 S6]. destruct Hsame as (E1 & E2 & E3 & E4 & E5). constructor; try done.
    - intros h Hh. by apply covers_operation, Hcov.
    - by rewrite E3.
    - by rewrite E2. }
  constructor; simpl; rewrite ?app_nil_r; try done.
  - apply Product.reads_ok; try done. apply (agrees_at _ (PoolControl.driver p) _ (c_token c)).
    + intros t' Hne. by rewrite Hf, lookup_insert_ne.
    + intros fl kk f [Hx|Hx]; [rewrite Hland in Hx|rewrite Hf, lookup_insert_eq in Hx]; simplify_eq; intros Hk; by destruct kk.
    + intros Hin. apply (Hdis _ Hin). set_solver.
    + by rewrite Hm.
  - change (PoolControl.driver _) with b.
    assert (∀ o s0 span0, ReadSpans.flying A !! o = Some (s0, span0) → OpToken_slot (ReadSpans.token span0) = o) as Hsl.
    { intros o s0 span0 Ho. by apply (ReadSpans.rp_flying _ _ _ _ H4 o s0). }
    eapply (q_resume Q V V' _ (PoolControl.driver p) b (batch p) A _ c file v _ s span' l); [exact H3|done|done|exact Ht|exact Hd| | |done|exact Hsp'| | | |].
    + intros f Hin. apply (flight_drop _ _ _ _ _ _ _ Hsp). apply list_elem_of_fmap in Hin as (x & -> & Hx). apply list_elem_of_fmap_2.
      apply list_elem_of_lookup in Hx as [j Hj]. apply lookup_take_Some in Hj as [Hj _]. by eapply list_elem_of_lookup_2.
    + intros f Hin Hout. apply (flight_drop _ _ _ _ _ _ _ Hsp') . apply (flight_drop _ _ _ _ _ _ _ Hsp) in Hin.
      apply list_elem_of_fmap in Hin as (x & -> & [j Hj]%list_elem_of_lookup). apply list_elem_of_fmap_2.
      assert (N.to_nat (ReadSpans.published span') - N.to_nat (ReadSpans.published span) ≤ j)%nat as Hge.
      { apply Nat.nlt_ge. intros Hjl. apply Hout, list_elem_of_fmap_2, (list_elem_of_lookup_2 _ j). by rewrite lookup_take_lt. }
      rewrite lookup_drop in Hj.
      apply (list_elem_of_lookup_2 _ (j - (N.to_nat (ReadSpans.published span') - N.to_nat (ReadSpans.published span)))%nat). rewrite lookup_drop, <- Hj. f_equal. lia.
    + destruct Hsame as (_ & -> & _). done.
    + simpl. apply lookup_insert_eq.
    + simpl. intros o s0 span0 [[<- [= <- <-]]|[Hne Ho]]%lookup_insert_Some; [left; apply Hsp'|by right].
    + simpl. intros o s0 span0 Ho Hne. rewrite lookup_insert_ne; [done|]. intros <-. rewrite Hfly in Ho. injection Ho as <- <-. by apply Hne, Hsp.
  - intros x Hx. change (PoolControl.driver _) with b. rewrite Hm. apply H8. set_solver.
  - intros x Hx. apply H9. set_solver.
Qed.

Lemma landed_left file v c left :
  landed (FlyVector file v) c = Some (Landed file left) → 0 < transferred (c_result c) → transferred (c_result c) < bytes_left v →
  left = Some (bytes_left v - transferred (c_result c)).
Proof. simpl. intros [= <-] H1 H2. by rewrite (proj2 (N.ltb_lt _ _) H1), (proj2 (N.ltb_lt _ _) H2). Qed.

(** The drops of a publication and of the failure after it are those of the whole read. *)
Lemma drops_whole V V1 V2 t span span' v l file :
  spanned (g := g) (a := a) V t span v l → ReadSpans.published span ≤ ReadSpans.published span' →
  drops V V1 (InFlightFrame_frame <$> take (N.to_nat (ReadSpans.published span') - N.to_nat (ReadSpans.published span)) (drop (N.to_nat (ReadSpans.published span)) l)) →
  drops V1 V2 (InFlightFrame_frame <$> drop (N.to_nat (ReadSpans.published span')) l) →
  drops V V2 (flight_frames (FlyVector file v)).
Proof.
  intros Hs Hle H1 H2. eapply drops_equiv; [exact (drops_trans _ _ _ _ _ H1 H2)|]. intros f. rewrite (flight_drop _ _ _ _ _ file f Hs).
  rewrite <- fmap_app. replace (N.to_nat (ReadSpans.published span')) with
    (N.to_nat (ReadSpans.published span) + (N.to_nat (ReadSpans.published span') - N.to_nat (ReadSpans.published span)))%nat at 2 by lia.
  rewrite <- drop_drop, take_drop. done.
Qed.

Lemma route_vector_ok n Q M V tks G A leases he p c file v :
  hinv (32 + n) Q M V tks G A leases he p [c] → Q !! c_token c = Some (FlyVector file v) → answers (FlyVector file v) c →
  flights (PoolControl.driver p) !! c_token c = landed (FlyVector file v) c →
  ∃ p' Q' M' V' G' A', route_completion g p c = Done p' ∧
    hinv n Q' M' V' tks G' A' leases he p' [] ∧ moved p p' ∧ settles V M V' M'.
Proof.
  intros Hh Ht (Hk & Hco & Hres & v1 & Hrec & Hfr) Hland. pose proof Hh as [H1 H2 H3 H4 [H5 H5'] H6 H7 H8 H9].
  destruct (q_vector _ _ _ _ _ _ H3 _ _ _ Ht) as (s & span & l & Hfly & Hfile & Hs).
  assert (∃ left, flights (PoolControl.driver p) !! c_token c = Some (Landed file left)) as [left Hlf] by (rewrite Hland; simpl; eauto).
  pose proof (Product.pi_sound _ _ _ _ H2) as Hsb. pose proof (sv_token _ _ _ _ _ Hs) as Htok.
  unfold route_completion. rewrite Hfr, Hk. mred. rewrite bool_decide_eq_true_2 by done. mred. unfold route_span_completion.
  destruct (completing_ok (read_spans p) A (c_token c) s span H4 H5' Hfly Htok) as (rs1 & -> & Hrs1); [by eapply law_slot|]. mred.
  set (bytes := transferred (c_result c)) in *. change (cache (set_spans p rs1)) with (cache p).
  pose proof (sv_covers _ _ _ _ _ Hs (mkFrames [] [] 0 g 0) eq_refl) as [Hb Hfi Hpu Hor Hct Hby]. simpl in Hor, Hby.
  pose proof (ReadVector.b_total _ _ _ Hb) as Htot. simpl in Htot. pose proof (ReadVector.b_filled _ _ _ Hb) as Hft.
  assert (bytes ≤ bytes_left v) as Hbl by (unfold bytes; destruct (c_result c); simpl in *; [done|lia]). unfold bytes_left in Hbl.
  destruct (publish_pages_ok n Q M V tks G A leases he p [c] (c_token c) span v v1 l bytes Hh Hs) as
    (span' & v' & c' & M' & V' & G' & -> & Hcov & Hsame & Hf' & Hop & Hmono & Hc' & Hcr' & Hd & Hset & Hep); [lia|done|]. mred.
  pose proof (waits_after _ _ _ _ _ _ _ Hs (cinv_apart _ _ _ _ _ _ _ _ _ H1) Hsame Hmono Hd) as Hw.
  pose proof Hsame as (E1 & E2 & E3 & E4 & E5). rewrite Htok in E3.
  pose proof (Hcov (mkFrames [] [] 0 g 0) eq_refl) as Hcov0. pose proof Hcov0 as [Hb' Hfi' Hpu' Hor' Hct' Hby']. simpl in Hor', Hby'.
  rewrite (ReadSpans.is_complete_covers (mkFrames [] [] 0 g 0) Hg l span' v' Hcov0). mred. simpl granule.
  assert (pg_granule_idx (ReadSpans.first span') + vlen l ≤ U32_MAX + 1) as Hfst by (rewrite E2; apply Hs).
  destruct (N.eqb_spec (ReadVector.filled v') (vlen l * g)) as [Hall|Hpart].
  { change (read_spans (set_cache (set_spans p rs1) c')) with rs1. destruct (finish_route_ok rs1 A (c_token c) s Hrs1) as (rs2 & -> & Hrs2). mred.
    assert (ReadSpans.published span' = vlen l) as Hpl by (rewrite Hpu', Hor', Hall; apply N.div_mul; lia).
    unfold drop_continuation_of. rewrite Hco. destruct (law_drop (PoolControl.driver p) (c_token c) file left Hsb Hlf) as (b & Hdr & Hb1 & Hb2 & Hb3 & Hb4).
    change (PoolControl.driver (set_spans (set_cache (set_spans p rs1) c') rs2)) with (PoolControl.driver p). rewrite Hdr. mred.
    eexists _, _, M', V', G', _. split; [done|]. split; [|split; [done|done]].
    eapply (end_vector _ n Q M V tks G A leases he p c file v s span c' rs2 b M' V' G'); try done; [| |by eexists].
    - eapply cinv_le; [exact Hc'|lia].
    - eapply (drops_whole V V' V'); [exact Hs|exact Hmono|exact Hd|]. rewrite Hpl, drop_ge by (unfold vlen; lia). by apply drops_same. }
  assert (ReadSpans.filled span' < ReadSpans.bytes span') as Hlt.
  { pose proof (ReadVector.b_filled _ _ _ Hb') as Hx. rewrite (ReadVector.b_total _ _ _ Hb') in Hx. simpl in Hx. lia. }
  destruct (N.ltb_spec 0 bytes) as [Hpos|Hzero].
  - rewrite Hco. mred. change (cache (set_cache (set_spans p rs1) c')) with c'. change (PoolControl.driver (set_cache (set_spans p rs1) c')) with (PoolControl.driver p).
    assert (left = Some (bytes_left v')) as ->.
    { rewrite Hland in Hlf. rewrite (landed_left file v c left Hlf); [|done|unfold bytes_left; fold bytes; lia].
      f_equal. unfold bytes_left. rewrite (ReadVector.b_total _ _ _ Hb'), Htot. simpl. fold bytes. lia. }
    pose proof (ready_ok _ _ _ _ _ _ _ (c_token c) span' v' l Hc' Hcov Hlt Hw) as Hready.
    destruct (law_continue (frames c') (PoolControl.driver p) (c_token c) v' file (bytes_left v') Hsb Hlf) as (b & r & -> & Hb1 & Hb2 & Hr); try done.
    { apply (ci_arena _ _ _ _ _ _ _ _ _ Hc'). }
    mred. destruct r as [t'|[errno w]].
    + destruct Hr as (-> & Hmint & d & Hfl). rewrite N.eqb_refl. mred.
      change (read_spans (PoolControl.set_driver (set_cache (set_spans p rs1) c') b)) with rs1. rewrite <- E3 in Hrs1.
      destruct (resume_ok rs1 A s span' Hrs1 Hlt) as (rs2 & -> & Hrs2). mred. rewrite E3 in Hrs2.
      eexists _, _, M', V', G', _. split; [done|]. split; [|split; [done|done]].
      eapply (resume_vector _ n Q M V tks G A leases he p c file v s span span' v' l c' rs2 b d M' V' G'); try done; [|by eexists].
      eapply cinv_le; [exact Hc'|lia].
    + destruct Hr as (Herr & -> & Hmint & Hfl).
      destruct (span_failure_ok n M' V' tks G' A he (PoolControl.set_driver (set_cache (set_spans p rs1) c') b) (c_token c) s span' v' l errno) as (c2 & rs2 & V2 & -> & Hc2 & Hcr2 & Hrs2 & Hd2 & Hset2 & Hep2); try done.
      eexists _, _, M', V2, G', _. split; [done|]. split; [|split; [|by eapply settles_trans]].
      * eapply (end_vector _ n Q M V tks G A leases he p c file v s span c2 rs2 b M' V2 G'); try done; [|by eexists].
        by eapply (drops_whole V V' V2).
      * constructor; try done. simpl. simpl in Hep2. congruence.
  - assert ((match c_result c with inr errno => errno | inl _ => SHORT_READ_EOF_ERRNO end) ≠ 0%Z) as Herr by (destruct (c_result c); done).
    destruct (span_failure_ok n M' V' tks G' A he (set_cache (set_spans p rs1) c') (c_token c) s span' v' l _ Hc' Hcr' Hrs1 E3 Hcov Hw Hfst Herr) as (c2 & rs2 & V2 & -> & Hc2 & Hcr2 & Hrs2 & Hd2 & Hset2 & Hep2).
    mred. unfold drop_continuation_of. rewrite Hco. destruct (law_drop (PoolControl.driver p) (c_token c) file left Hsb Hlf) as (b & Hdr & Hb1 & Hb2 & Hb3 & Hb4).
    match goal with |- context [drop_continuation ?x _] => change x with (PoolControl.driver p) end. rewrite Hdr. mred.
    eexists _, _, M', V2, G', _. split; [done|]. split; [|split; [|by eapply settles_trans]].
    + eapply (end_vector _ n Q M V tks G A leases he p c file v s span c2 rs2 b M' V2 G'); try done; [|by eexists].
      by eapply (drops_whole V V' V2).
    + constructor; try done. simpl. simpl in Hep2. congruence.
Qed.

(** ** A batch *)

Lemma route_other_ok n Q M V tks G A leases he p c :
  hinv n Q M V tks G A leases he (set_batch p (batch p ++ [c])) [] → c_kind c ≠ Read →
  ∃ p', route_completion g p c = Done p' ∧ hinv n Q M V tks G A leases he p' [] ∧ moved p p'.
Proof.
  intros [H1 H2 H3 H4 H5 H6 H7 H8 H9] Hk. simpl in *. rewrite app_nil_r in *.
  destruct (H9 c) as [Hfr Hco]; [set_solver|done|]. unfold route_completion. rewrite Hfr, Hco. mred. rewrite bool_decide_eq_false_2 by done. simpl negb. mred.
  destruct (Product.finish_product_ok (product p) [] (batch p ++ [c]) leases c (batch p)) as (q & i & s & s' & t & He & Hq & _ & _ & _ & _ & Hfs & _); [done|by rewrite (Permutation_app_comm (batch p))|done|].
  rewrite He. mred. assert (Product.driver q = PoolControl.driver p) as Hdr.
  { unfold Product.finish_product_completion in He. inv_done. done. }
  eexists. split; [done|]. split.
  - constructor; simpl; rewrite ?app_nil_r; try done; unfold PoolControl.driver in *; simpl; rewrite ?Hdr, ?Hfs.
    + by eapply q_other.
    + rewrite fmap_app in H7. by apply NoDup_app in H7 as (? & _ & _).
    + intros x Hx. apply H8. set_solver.
    + intros x Hx. apply H9. set_solver.
  - by constructor.
Qed.

(** One completion, taken from the end of the batch. *)
Lemma route_one_ok n Q M V tks G A leases he p c rest :
  hinv (32 + n) Q M V tks G A leases he p [] → batch p = rest ++ [c] →
  ∃ p' Q' M' V' G' A', route_completion g (set_batch p rest) c = Done p' ∧
    hinv n Q' M' V' tks G' A' leases he p' [] ∧ moved (set_batch p rest) p' ∧ settles V M V' M'.
Proof.
  intros Hh Hbt. pose proof Hh as [H1 H2 H3 H4 H5 H6 H7 H8 H9]. rewrite app_nil_r, Hbt in *.
  destruct (decide (c_kind c = Read)) as [Hk|Hk].
  2: { destruct (route_other_ok (32 + n) Q M V tks G A leases he (set_batch p rest) c) as (p' & He & Hh' & Hm); [|done|].
    - simpl. rewrite <- Hbt. by destruct p.
    - exists p', Q, M, V, G, A. split_and!; try done; [|apply settles_refl]. destruct Hh' as [K1 K2 K3 K4 K5 K6 K7 K8 K9]. constructor; try done.
      eapply cinv_le; [exact K1|lia]. }
  assert (hinv (32 + n) Q M V tks G A leases he (set_batch p rest) [c]) as Hhand.
  { constructor; try done. simpl. by eapply Product.route_read_ok. }
  destruct (q_batch _ _ _ _ _ _ H3 c) as (fl & Hfl & Hans & Hland); [set_solver|done|].
  destruct (read_landed fl c Hans Hk) as [(file & f & len & ->)|(file & v & ->)].
  - destruct (route_point_ok n Q M V tks G A leases he (set_batch p rest) c file f len) as (p' & Q' & M' & V' & G' & ? & ? & ? & ?); try done.
    + destruct Hhand as [K1 K2 K3 K4 K5 K6 K7 K8 K9]. constructor; try done. eapply cinv_le; [exact K1|lia].
    + exists p', Q', M', V', G', A. done.
  - by eapply route_vector_ok.
Qed.

Lemma moved_batch p p' rest : moved (set_batch p rest) p' → moved (set_batch p []) (set_batch p' []).
Proof. intros [] . by constructor. Qed.

Lemma batch_pop_app (l : list Completion) : (l = [] ∧ batch_pop l = ([], None)) ∨ ∃ rest c, l = rest ++ [c] ∧ batch_pop l = (rest, Some c).
Proof.
  unfold batch_pop. destruct l as [|c l _] using rev_ind; [by left|right]. exists l, c. rewrite rev_app_distr. simpl. by rewrite rev_involutive.
Qed.

Lemma route_each_ok m : ∀ n Q M V tks G A leases he p,
  hinv (32 * vlen (batch p) + n) Q M V tks G A leases he p [] → (length (batch p) ≤ m)%nat →
  ∃ p' Q' M' V' G' A', route_each g m p = Done p' ∧ hinv n Q' M' V' tks G' A' leases he p' [] ∧ moved (set_batch p []) p' ∧ settles V M V' M'.
Proof.
  induction m as [|m IH]; intros n Q M V tks G A leases he p Hh Hlen; simpl.
  - destruct (batch p) eqn:Hb; simpl in Hlen; [|lia]. exists p, Q, M, V, G, A. split_and!; try done; first [by constructor|apply settles_refl].
  - destruct (batch_pop_app (batch p)) as [[Hb ->]|(rest & c & Hb & ->)].
    + rewrite Hb in Hh. exists p, Q, M, V, G, A. split_and!; try done; first [by constructor|apply settles_refl].
    + assert (vlen (batch p) = 1 + vlen rest) as Hlr by (rewrite Hb; unfold vlen; rewrite length_app; simpl; lia). rewrite Hlr in Hh.
      replace (32 * (1 + vlen rest) + n) with (32 + (32 * vlen rest + n)) in Hh by lia.
      destruct (route_one_ok _ Q M V tks G A leases he p c rest Hh Hb) as (p1 & Q1 & M1 & V1 & G1 & A1 & -> & Hh1 & Hm1 & Hs1). mred.
      assert (batch p1 = rest) as Hb1 by (rewrite (mv_batch _ _ Hm1); done).
      destruct (IH n Q1 M1 V1 tks G1 A1 leases he p1) as (p' & Q' & M' & V' & G' & A' & He & Hh' & Hm' & Hs').
      { by rewrite Hb1. }
      { rewrite Hb1. rewrite Hb, length_app in Hlen. simpl in Hlen. lia. }
      exists p', Q', M', V', G', A'. split_and!; try done; [|by eapply settles_trans].
      eapply moved_trans; [|exact Hm']. by eapply moved_batch.
Qed.

Lemma route_batch_ok n Q M V tks G A leases he p :
  hinv (32 * vlen (batch p) + n) Q M V tks G A leases he p [] →
  ∃ p' Q' M' V' G' A', route_completion_batch g p = Done p' ∧ hinv n Q' M' V' tks G' A' leases he p' [] ∧ moved (set_batch p []) p' ∧ settles V M V' M'.
Proof.
  intros Hh. unfold route_completion_batch. destruct (route_each_ok _ n Q M V tks G A leases he p Hh (Nat.le_refl _)) as (p1 & Q1 & M1 & V1 & G1 & A1 & -> & Hh1 & Hm1 & Hs1).
  mred. pose proof Hh1 as [H1 H2 H3 H4 H5 H6 H7 H8 H9]. destruct (Product.submit_held_ok (product p1) [] (batch p1) leases H2) as (q & He & Hq & _ & Hfs & _ & Hadd).
  rewrite He. mred. eexists _, Q1, M1, V1, G1, A1. split; [done|]. split; [|split; [|done]].
  - constructor; simpl; try done.
    + rewrite Hfs. eapply q_additions; [exact H3|apply H2|done|done].
    + intros x Hx. apply Hadd. by apply H8.
  - eapply moved_trans; [exact Hm1|]. by constructor.
Qed.

(** ** Polling the driver *)

Lemma batch_bounded (b : B) (cs : list Completion) :
  sound b → NoDup (c_token <$> cs) → (∀ x, x ∈ cs → is_Some (flights b !! c_token x)) → vlen cs ≤ capacity.
Proof.
  intros Hs Hnd Hfl.
  assert (∀ t, t ∈ c_token <$> cs → is_Some (flights b !! t)) as Ht by (intros t (x & -> & Hx)%list_elem_of_fmap; by apply Hfl).
  assert (vlen (OpToken_slot <$> (c_token <$> cs)) ≤ capacity) as Hb; [|unfold vlen in *; by rewrite !length_fmap in Hb].
  apply nodup_bounded.
  - apply NoDup_fmap_2_strong; [|done]. intros t t' Hx Hy Heq. destruct (Ht t Hx) as [fl Hf], (Ht t' Hy) as [fl' Hf']. by eapply law_unique.
  - intros o (t & -> & Hx)%list_elem_of_fmap. destruct (Ht t Hx) as [fl Hf]. by eapply law_slot.
Qed.

Lemma drain_route_ok n Q M V tks G A leases he p :
  hinv (32 * capacity + n) Q M V tks G A leases he p [] → batch p = [] →
  ∃ p' Q' M' V' G' A', drain_completions g p = Done p' ∧ hinv n Q' M' V' tks G' A' leases he p' [] ∧ moved p p' ∧ settles V M V' M'.
Proof.
  intros [H1 H2 H3 H4 H5 H6 H7 H8 H9] Hb. rewrite app_nil_r, Hb in *. unfold drain_completions. pose proof (Product.pi_sound _ _ _ _ H2) as Hs.
  destruct (Product.poll_ok (product p) [] [] leases) as (b & cs & He & Hp); [done|].
  destruct (law_poll (PoolControl.driver p) Hs) as (b' & cs' & He' & Hs' & Hl' & Hm' & Hnd & Hcs & Hoth).
  unfold PoolControl.driver in He'. rewrite He in He'. simplify_eq. unfold PoolControl.driver at 1. rewrite He. mred. rewrite Hb, app_nil_l. simpl in Hp.
  assert (vlen cs' ≤ capacity) as Hlen.
  { apply (batch_bounded (PoolControl.driver p)); [done..|]. intros x Hx. destruct (Hcs x Hx) as (fl & Hfl & _). eauto. }
  destruct (route_batch_ok n Q M V tks G A leases he (set_batch (PoolControl.set_driver p b') cs')) as (p' & Q' & M' & V' & G' & A' & -> & Hh' & Hm & Hset).
  { constructor; simpl; rewrite ?app_nil_r; try done.
    - eapply cinv_le; [exact H1|lia].
    - change (PoolControl.driver _) with b'. by apply (q_poll Q V _ (PoolControl.driver p) b' [] cs' A).
    - intros x Hx. change (PoolControl.driver _) with b'. rewrite Hm'. destruct (Hcs x Hx) as (fl & Hfl & _). by eapply law_minted.
    - intros x Hx Hk. destruct (Hcs x Hx) as (fl & _ & Ha & _). destruct fl; simpl in Ha; destruct_and?; try done; congruence. }
  exists p', Q', M', V', G', A'. split_and!; try done. destruct Hm. constructor; try done. by rewrite mv_batch0.
Qed.
End route.
End PoolRoute.
