(* ===== verification/PoolReclaim.v ===== *)
(** * Readers, epochs and reclamation in the pool

    The invariant of the whole pool, [pool_inv], with its readers and their guards: a
    reader with guards has entered in the current epoch or the one before it, so a frame
    that waits two epochs in the eviction queue is under no guard.  The lemmas show the
    epoch advance and the reclamation of matured and released frames to keep it, over any
    retention that meets [RetainerLaws]. *)
From stdpp Require Import prelude gmap list.
From Stdlib Require Import NArith ZArith Lia.
From S2P Require Import Prelude Ids Frames FrameCensus Epoch FileSlots Miss MissMap Driver PoolBackend Product PoolCache PoolInv PoolControl ReadSpans PoolReads PoolRoute.

Open Scope N_scope.

Module PoolReclaim.
Import Frames FrameCensus MissMap Driver PoolBackend.PoolBackend PoolCache PoolInv PoolControl PoolReads PoolRoute.
Abbreviation ReaderSlot := Epoch.ReaderSlot.
Abbreviation mkEvictQueue := Epoch.mkEvictQueue.

(** ** What the pool relies on of its retention

    [held] are the frames that matured under a retained handle and wait for its release. *)
Class RetainerLaws (R : Type) `{!Retainer R} (frame_count file_capacity : N) := {
  retains : R → Prop;
  held : R → list ReadFrameIdx;
  law_drain_needed r : retains r → ∃ o, release_drain_needed r = Done o;
  law_drain_releases r epoch : retains r →
    ∃ r' l, drain_releases r epoch = Done (r', l) ∧ retains r' ∧ held r ≡ₚ l ++ held r';
  law_matured r f tag : retains r → f < frame_count → f ∉ held r →
    ∃ r' o, matured_outcome r f tag = Done (r', o) ∧ retains r' ∧
      held r' ≡ₚ match o with Epoch.Freed => held r | Epoch.Held => f :: held r end;
  law_mark r slot : retains r → slot < file_capacity → ∃ r', mark_file_retiring r slot = Done r' ∧ retains r' ∧ held r' = held r;
  law_clear r slot : retains r → slot < file_capacity → ∃ r', clear_file_retiring r slot = Done r' ∧ retains r' ∧ held r' = held r;
}.

(** A pool without retention. *)
#[global] Instance no_retention : Retainer unit := {|
  release_drain_needed _ := Done None;
  drain_releases r _ := Done (r, []);
  occupied_budget _ := 0;
  matured_outcome r _ _ := Done (r, Epoch.Freed);
  mark_file_retiring r _ := Done r;
  clear_file_retiring r _ := Done r;
|}.

#[global] Program Instance no_retention_laws n m : RetainerLaws unit n m := {| retains _ := True; held _ := [] |}.
Solve All Obligations with naive_solver.

(** ** Readers and guards *)

(** A guard: its reader, the frame and the page it was taken for. *)
Definition guard : Type := N * ReadFrameIdx * PageId.

Definition epoch_of (rs : list ReaderSlot) (r : N) : N :=
  match rs !! N.to_nat r with Some s => Epoch.local_epoch s | None => 0 end.

Definition watch (rs : list ReaderSlot) (gs : list guard) : list (N * PageId * N) :=
  (λ x : guard, (x.1.2, x.2, epoch_of rs x.1.1)) <$> gs.

Definition guards_of (r : N) (gs : list guard) : list guard := filter (λ x : guard, x.1.1 = r) gs.

Record readers_ok (epoch : N) (rs : list ReaderSlot) (gs : list guard) : Prop := {
  ro_count : ∀ r s, rs !! N.to_nat r = Some s → Epoch.guard_count s = vlen (guards_of r gs);
  ro_idle : ∀ r s, rs !! N.to_nat r = Some s → Epoch.guard_count s = 0 → Epoch.local_epoch s = Epoch.QUIESCENT;
  ro_busy : ∀ r s, rs !! N.to_nat r = Some s → 0 < Epoch.guard_count s →
    Epoch.local_epoch s ≤ epoch ∧ epoch ≤ Epoch.local_epoch s + 1;
  ro_known : ∀ x, x ∈ gs → x.1.1 < vlen rs;
  ro_index : ∀ r s, rs !! N.to_nat r = Some s → Epoch.index s ≤ U32_MAX;
}.

(** A reader under guard entered in the current epoch or the one before. *)
Lemma watch_recent epoch rs gs f pg e : readers_ok epoch rs gs → (f, pg, e) ∈ watch rs gs → epoch ≤ e + 1.
Proof.
  intros Hr ([[r f'] pg'] & Heq & Hin)%list_elem_of_fmap. simpl in Heq. simplify_eq. pose proof (ro_known _ _ _ Hr _ Hin) as Hlt. simpl in Hlt.
  destruct (vget_ok _ _ Hlt) as (s & _ & Hs). unfold epoch_of. rewrite Hs. apply (ro_busy _ _ _ Hr r s Hs).
  rewrite (ro_count _ _ _ Hr r s Hs). assert ((r, f', pg') ∈ guards_of r gs) as Hg by by apply list_elem_of_filter.
  destruct (guards_of r gs); [by apply elem_of_nil in Hg|]. unfold vlen. simpl. lia.
Qed.

Lemma all_permit_ok epoch rs : epoch ≠ Epoch.QUIESCENT →
  (∀ s, s ∈ rs → Epoch.local_epoch s = Epoch.QUIESCENT ∨ Epoch.local_epoch s ≤ epoch) →
  ∃ b, Epoch.all_permit rs epoch = Done b ∧ (b = true → ∀ s, s ∈ rs → Epoch.local_epoch s = Epoch.QUIESCENT ∨ Epoch.local_epoch s = epoch).
Proof.
  intros Hne. induction rs as [|s rs IH]; intros Hs; simpl; [exists true; split; [done|]; intros _ ? ?%elem_of_nil; done|].
  unfold Epoch.permits_advance. rewrite (proj2 (N.eqb_neq epoch Epoch.QUIESCENT)) by done. simpl negb. mred.
  assert ((Epoch.local_epoch s =? Epoch.QUIESCENT) || (Epoch.local_epoch s <=? epoch) = true) as ->.
  { apply orb_true_iff. rewrite N.eqb_eq, N.leb_le. apply Hs. by left. }
  mred. destruct ((Epoch.local_epoch s =? Epoch.QUIESCENT) || (Epoch.local_epoch s =? epoch)) eqn:E; [|by exists false].
  destruct IH as (b & -> & Hb); [intros s' Hs'; apply Hs; by right|]. exists b. split; [done|].
  intros Htrue s' [->|Hin]%elem_of_cons; [|by apply Hb]. apply orb_true_iff in E as [?%N.eqb_eq|?%N.eqb_eq]; auto.
Qed.

Lemma advance_epoch_ok epoch rs gs :
  readers_ok epoch rs gs → epoch + 1 < U64_MAX →
  ∃ e, Epoch.advance_epoch epoch rs = Done (e, e) ∧ epoch ≤ e ≤ epoch + 1 ∧ readers_ok e rs gs.
Proof.
  intros Hr Hlt. assert (∀ s, s ∈ rs → ∃ r, rs !! N.to_nat r = Some s) as Hrs.
  { intros s [i Hi]%list_elem_of_lookup. exists (N.of_nat i). by rewrite Nat2N.id. }
  unfold Epoch.advance_epoch. destruct (all_permit_ok epoch rs) as (b & -> & Hb).
  { unfold Epoch.QUIESCENT. lia. }
  { intros s [r Hs]%Hrs. destruct (decide (Epoch.guard_count s = 0)) as [Hz|Hz]; [left; by eapply ro_idle|right]. eapply (ro_busy _ _ _ Hr); [done|lia]. }
  mred. destruct b.
  - rewrite add_ok by lia. mred. rewrite N.eqb_refl, orb_true_r. mred. eexists. split; [done|]. split; [lia|].
    destruct Hr as [R1 R2 R3 R4 R5]. constructor; try done. intros r s Hs Hg. destruct (R3 r s Hs Hg) as [H1 H2].
    destruct (Hb eq_refl s) as [Hq|Hq]; [by eapply list_elem_of_lookup_2| |]; unfold Epoch.QUIESCENT in *; lia.
  - mred. rewrite N.eqb_refl. mred. eexists. split; [done|]. split; [lia|done].
Qed.

Section reclaim.
Context {F g a fcap reads : N} {P : FileId → Prop} {W : list (N * PageId * N)}.
#[local] Abbreviation cinv := (cinv (F := F) (g := g) (a := a) (fcap := fcap) (reads := reads) (P := P) (W := W)).

Lemma cinv_epoch n M V tks G lo fl he c e :
  cinv (1 + n) M V tks G lo fl he c → global_epoch c ≤ e ≤ global_epoch c + 1 → cinv n M V tks G lo fl he (set_epoch c e).
Proof.
  intros Hc He. pose proof (ci_epoch _ _ _ _ _ _ _ _ _ Hc). apply (cinv_le _ n) in Hc as [C1 C2 C3 C4 C5 [C6 C6'] C7 C8 C9 C10 C11 C12 C13 C14 C15 C16 C17 C18 C19 C20]; [|lia].
  constructor; simpl; try done; [|lia|].
  - split; [done|]. intros f t Ht. specialize (C6' f t Ht). lia.
  - intros f pg x Hx. destruct (C18 f pg x Hx) as (? & ? & ?). split_and!; try done. lia.
Qed.

Lemma cinv_held n M V tks G lo fl he he' c : cinv n M V tks G lo fl he c → he ≡ₚ he' → cinv n M V tks G lo fl he' c.
Proof.
  intros [C1 C2 C3 C4 C5 C6 C7 C8 C9 C10 C11 C12 C13 C14 C15 C16 C17 C18 C19 C20] Hp. constructor; try done; [|by rewrite C9, Hp].
  eapply census_perm; [exact C2|done..|]. by rewrite Hp.
Qed.

Lemma queue_nodup n M V tks G lo fl he c : cinv n M V tks G lo fl he c → NoDup ((Epoch.entries (evict_queue c)).*1 ++ he).
Proof. intros Hc. apply (ci_census _ _ _ _ _ _ _ _ _ Hc Evicting). Qed.

(** A frame held by the retention is under no guard. *)
Lemma held_unwatched n M V tks G lo fl he c f : cinv n M V tks G lo fl he c → f ∈ he → ∀ pg e, (f, pg, e) ∉ W.
Proof.
  intros Hc Hf pg e Hw. destruct (ci_watch _ _ _ _ _ _ _ _ _ Hc f pg e Hw) as (_ & _ & [Hres|(t & Ht & _)]).
  - assert (in_state (frames c) f Evicting) as Hev by (apply (ci_census _ _ _ _ _ _ _ _ _ Hc Evicting); simpl; set_solver).
    pose proof (in_state_fun _ _ _ _ Hres Hev). done.
  - pose proof (queue_nodup _ _ _ _ _ _ _ _ _ Hc) as Hnd. apply NoDup_app in Hnd as (_ & Hd & _). apply (Hd f); [|done].
    apply list_elem_of_fmap. by exists (f, t).
Qed.

(** A frame that has waited two epochs is under no guard. *)
Lemma matured_unwatched n M V tks G lo fl he c f tag :
  cinv n M V tks G lo fl he c → (f, tag) ∈ Epoch.entries (evict_queue c) → tag + 2 ≤ global_epoch c →
  (∀ f pg e, (f, pg, e) ∈ W → global_epoch c ≤ e + 1) → ∀ pg e, (f, pg, e) ∉ W.
Proof.
  intros Hc Hin Hm Hrec pg e Hw. pose proof (Hrec _ _ _ Hw). destruct (ci_watch _ _ _ _ _ _ _ _ _ Hc f pg e Hw) as (_ & _ & [Hres|(t & Ht & Hle)]).
  - assert (in_state (frames c) f Evicting) as Hev.
    { apply (ci_census _ _ _ _ _ _ _ _ _ Hc Evicting). simpl. apply elem_of_app. left. apply list_elem_of_fmap. by exists (f, tag). }
    pose proof (in_state_fun _ _ _ _ Hres Hev). done.
  - pose proof (queue_nodup _ _ _ _ _ _ _ _ _ Hc) as Hnd. apply NoDup_app in Hnd as (Hnd & _ & _).
    assert (t = tag) as ->; [|lia]. apply list_elem_of_lookup in Ht as [i Hi]. apply list_elem_of_lookup in Hin as [j Hj].
    assert (i = j) as ->; [|by simplify_eq]. eapply NoDup_lookup; [exact Hnd| |]; by rewrite list_lookup_fmap, ?Hi, ?Hj.
Qed.

(** ** Frames that leave the queue *)

(** The head of the queue goes back to the free frames. *)
Lemma reclaim_head n M V tks G lo fl he c f tag es cap :
  cinv n M V tks G lo fl he (set_queue c (mkEvictQueue ((f, tag) :: es) cap)) → tag + 2 ≤ global_epoch c →
  (∀ f pg e, (f, pg, e) ∈ W → global_epoch c ≤ e + 1) →
  ∃ c', reclaim_frame c f = Done c' ∧ cinv n M V tks (FileSlots.without f G) lo fl he (set_queue c' (mkEvictQueue es cap)) ∧
    reads_in_flight c' = reads_in_flight c ∧ global_epoch c' = global_epoch c.
Proof.
  intros Hc Hm Hrec. pose proof (queue_nodup _ _ _ _ _ _ _ _ _ Hc) as Hnd. simpl in Hnd. apply NoDup_cons in Hnd as [Hf _].
  assert (∀ t, (f, t) ∉ es) as Hgone.
  { intros t Ht. apply Hf, elem_of_app. left. apply list_elem_of_fmap. by exists (f, t). }
  destruct (reclaim_cache n M V tks G lo fl he he c (mkEvictQueue ((f, tag) :: es) cap) (mkEvictQueue es cap) f Hc) as (c' & He & Hc' & Hrd & Hep & _); try done.
  - simpl. intros f' Hne t. rewrite elem_of_cons. naive_solver.
  - eapply (matured_unwatched _ _ _ _ _ _ _ _ _ f tag); [exact Hc|simpl; set_solver|done|done].
  - by exists c'.
Qed.

(** The head of the queue is kept for its retained handles. *)
Lemma hold_head n M V tks G lo fl he c f tag es cap :
  cinv n M V tks G lo fl he (set_queue c (mkEvictQueue ((f, tag) :: es) cap)) → tag + 2 ≤ global_epoch c →
  (∀ f pg e, (f, pg, e) ∈ W → global_epoch c ≤ e + 1) →
  cinv n M V tks G lo fl (f :: he) (set_queue c (mkEvictQueue es cap)).
Proof.
  intros Hc Hm Hrec. assert (∀ pg e, (f, pg, e) ∉ W) as Hnw by (eapply (matured_unwatched _ _ _ _ _ _ _ _ _ f tag); [exact Hc|simpl; set_solver|done|done]).
  destruct Hc as [C1 C2 C3 C4 C5 [C6 C6'] C7 C8 C9 C10 C11 C12 C13 C14 C15 C16 C17 C18 C19 C20]. constructor; simpl in *; try done.
  - eapply census_perm; [exact C2|done..|]. apply Permutation_middle.
  - split; [done|]. intros f0 t Ht. apply (C6' f0). set_solver.
  - rewrite C9. apply Permutation_app_head, Permutation_middle.
  - intros j pg e Hj. destruct (C18 j pg e Hj) as (? & ? & Hor). split_and!; try done.
    destruct Hor as [?|(t & [[= -> ->]|Ht]%elem_of_cons & ?)]; [by left|by apply Hnw in Hj|right; eauto].
Qed.

Lemma drain_free_ok n M V tks lo fl he cap epoch : (∀ f pg e, (f, pg, e) ∈ W → epoch ≤ e + 1) → ∀ es G c r,
  cinv n M V tks G lo fl he (set_queue c (mkEvictQueue es cap)) → global_epoch c = epoch →
  ∃ es' c' G' r', Epoch.drain_entries mature_free epoch es c r = Done (es', c', r') ∧
    cinv n M V tks G' lo fl he (set_queue c' (mkEvictQueue es' cap)) ∧ reads_in_flight c' = reads_in_flight c ∧ global_epoch c' = epoch.
Proof.
  intros Hrec. induction es as [|[f tag] es IH]; intros G c r Hc He; simpl; [by exists [], c, G, r|].
  destruct (N.ltb_spec epoch (saturating_add U64_MAX tag 2)) as [Hlt|Hge]; [by exists ((f, tag) :: es), c, G, r|].
  assert (tag + 2 ≤ global_epoch c) as Hm.
  { pose proof (ci_epoch _ _ _ _ _ _ _ _ _ Hc) as Hu. simpl in Hu. unfold saturating_add in Hge. lia. }
  rewrite (proj2 (N.leb_le _ _)) by lia. mred. change (mature_free c f tag) with (c ← reclaim_frame c f; Done (c, Epoch.Freed)).
  destruct (reclaim_head n M V tks G lo fl he c f tag es cap Hc Hm) as (c1 & -> & Hc1 & Hrd1 & Hep1); [by rewrite He|]. mred. rewrite bool_decide_eq_true_2 by done. simpl.
  destruct (IH _ c1 (r + 1) Hc1 ltac:(congruence)) as (es' & c' & G' & r' & -> & Hc' & Hrd' & Hep'). exists es', c', G', r'. split_and!; try done. congruence.
Qed.

Lemma drain_held_ok {R} `{!Retainer R} `{!RetainerLaws R F fcap} n M V tks lo fl cap epoch : (∀ f pg e, (f, pg, e) ∈ W → epoch ≤ e + 1) → ∀ es G c (rt : R) r,
  cinv n M V tks G lo fl (held rt) (set_queue c (mkEvictQueue es cap)) → global_epoch c = epoch → retains rt →
  ∃ es' c' rt' G' r', Epoch.drain_entries mature_held epoch es (c, rt) r = Done (es', (c', rt'), r') ∧ retains rt' ∧
    cinv n M V tks G' lo fl (held rt') (set_queue c' (mkEvictQueue es' cap)) ∧ reads_in_flight c' = reads_in_flight c ∧ global_epoch c' = epoch.
Proof.
  intros Hrec. induction es as [|[f tag] es IH]; intros G c rt r Hc He Hrt; simpl; [by exists [], c, rt, G, r|].
  destruct (N.ltb_spec epoch (saturating_add U64_MAX tag 2)) as [Hlt|Hge]; [by exists ((f, tag) :: es), c, rt, G, r|].
  assert (tag + 2 ≤ global_epoch c) as Hm.
  { pose proof (ci_epoch _ _ _ _ _ _ _ _ _ Hc) as Hu. simpl in Hu. unfold saturating_add in Hge. lia. }
  rewrite (proj2 (N.leb_le _ _)) by lia. mred.
  change (mature_held (c, rt) f tag) with ('(r, o) ← matured_outcome rt f tag; c ← (if bool_decide (o = Epoch.Freed) then reclaim_frame c f else Done c); Done (c, r, o)).
  destruct (law_matured rt f tag Hrt) as (rt1 & o & -> & Hrt1 & Hh1).
  { eapply (cinv_lt _ _ _ _ _ _ _ _ _ f Evicting Hc). simpl. set_solver. }
  { pose proof (queue_nodup _ _ _ _ _ _ _ _ _ Hc) as Hnd. simpl in Hnd. apply NoDup_cons in Hnd as [Hf _]. set_solver. }
  mred. destruct o; simpl in Hh1.
  - destruct (reclaim_head n M V tks G lo fl _ c f tag es cap Hc Hm) as (c1 & He1 & Hc1 & Hrd1 & Hep1); [by rewrite He|].
    rewrite !bool_decide_eq_true_2 by done. rewrite He1. mred. simpl.
    destruct (IH (FileSlots.without f G) c1 rt1 (r + 1)) as (es' & c' & rt' & G' & r' & -> & Hrt' & Hc' & Hrd' & Hep'); [|congruence|done|].
    { eapply cinv_held; [exact Hc1|by rewrite Hh1]. }
    exists es', c', rt', G', r'. split_and!; try done. congruence.
  - rewrite bool_decide_eq_false_2 by done. mred. simpl. pose proof (hold_head n M V tks G lo fl _ c f tag es cap Hc Hm) as Hc1.
    destruct (IH G c rt1 r) as (es' & c' & rt' & G' & r' & -> & Hrt' & Hc' & Hrd' & Hep'); [|done|done|].
    { eapply cinv_held; [apply Hc1; by rewrite He|by rewrite Hh1]. }
    exists es', c', rt', G', r'. split_and!; try done.
Qed.

(** Frames their last handle released go back to the free frames. *)
Lemma released_ok n M V tks lo fl he l : ∀ G c,
  cinv n M V tks G lo fl (l ++ he) c →
  ∃ c' G', reclaim_released c l = Done c' ∧ cinv n M V tks G' lo fl he c' ∧ reads_in_flight c' = reads_in_flight c ∧ global_epoch c' = global_epoch c.
Proof.
  induction l as [|f l IH]; intros G c Hc; simpl; [by exists c, G|].
  assert (in_state (frames c) f Evicting) as Hev by (apply (ci_census _ _ _ _ _ _ _ _ _ Hc Evicting); simpl; set_solver).
  rewrite (state_of (ci_arena _ _ _ _ _ _ _ _ _ Hc) _ _ Hev). mred. rewrite bool_decide_eq_true_2 by done. mred.
  assert (set_queue c (evict_queue c) = c) as Hid by by destruct c.
  assert (cinv n M V tks G lo fl (f :: l ++ he) (set_queue c (evict_queue c))) as Hcq by by rewrite Hid.
  destruct (reclaim_cache n M V tks G lo fl (f :: l ++ he) (l ++ he) c (evict_queue c) (evict_queue c) f Hcq) as (c1 & -> & Hc1 & Hrd1 & Hep1 & Hq1 & _); try done.
  - symmetry. apply Permutation_middle.
  - pose proof (queue_nodup _ _ _ _ _ _ _ _ _ Hc) as Hnd. apply NoDup_app in Hnd as (_ & Hd & _). intros t Ht. apply (Hd f); [|set_solver].
    apply list_elem_of_fmap. by exists (f, t).
  - eapply held_unwatched; [exact Hc|set_solver].
  - mred. rewrite <- Hq1 in Hc1. assert (set_queue c1 (evict_queue c1) = c1) as Hid1 by by destruct c1. rewrite Hid1 in Hc1.
    destruct (IH _ c1 Hc1) as (c' & G' & -> & Hc' & Hrd' & Hep'). exists c', G'. split_and!; [done|done|congruence|congruence].
Qed.
End reclaim.

(** ** The pool *)

Section pool.
Context {B R : Type} `{!PoolBackend B} `{!Retainer R} {identity g F capacity fcap : N}.
Context `{!BackendLaws B identity g F capacity fcap} `{!RetainerLaws R F fcap}.
Context {a reads slots : N}.
Context (Hg : 0 < g) (Hgmax : g ≤ U32_MAX).
Implicit Types (p : Pool B R) (V : gmap N mread) (Q : gmap OpToken flight) (A : Routes).
#[local] Abbreviation cinv W := (cinv (F := F) (g := g) (a := a) (fcap := fcap) (reads := reads) (P := Product.own_file (identity := identity) (file_capacity := fcap)) (W := W)).
#[local] Abbreviation hinv W := (hinv (identity := identity) (g := g) (F := F) (capacity := capacity) (fcap := fcap) (a := a) (reads := reads) (slots := slots) (W := W)).

Record pool_inv (n : N) Q M V tks G A leases gs p : Prop := {
  pl_hand : hinv (watch (readers p) gs) n Q M V tks G A leases (held (retention p)) p [];
  pl_batch : batch p = [];
  pl_readers : readers_ok (global_epoch (cache p)) (readers p) gs;
  pl_retains : retains (retention p);
  pl_mapped : ∀ pg f, M !! pg = Some f → registered (files (product p)) (pg_file pg);
}.

Lemma pool_le n n' Q M V tks G A leases gs p : pool_inv n Q M V tks G A leases gs p → n' ≤ n → pool_inv n' Q M V tks G A leases gs p.
Proof.
  intros [[H1 H2 H3 H4 H5 H6 H7 H8 H9] P2 P3 P4 P5] Hle. constructor; try done. constructor; try done. by eapply cinv_le.
Qed.

(** What a pass of the pool leaves alone. *)
Record kept_pool p p' : Prop := {
  kp_files : files (product p') = files (product p);
  kp_readers : readers p' = readers p;
  kp_releases : pending_releases p' = pending_releases p;
}.

Lemma kept_refl p : kept_pool p p.
Proof. done. Qed.

Lemma kept_trans p p1 p2 : kept_pool p p1 → kept_pool p1 p2 → kept_pool p p2.
Proof. intros [] []. constructor; congruence. Qed.

Lemma moved_kept p p' : moved p p' → kept_pool p p'.
Proof. by intros []. Qed.

(** Pages get mapped by the reads of registered files. *)
Lemma settled_registered n Q M V tks G A leases he W p M' V' :
  hinv W n Q M V tks G A leases he p [] → (∀ pg f, M !! pg = Some f → registered (files (product p)) (pg_file pg)) → settles V M V' M' →
  ∀ pg f, M' !! pg = Some f → registered (files (product p)) (pg_file pg).
Proof.
  intros [H1 H2 H3 H4 H5 H6 H7 H8 H9] Hm [_ Hga] pg f Hf. destruct (Hga pg f Hf) as [?|(j & m & Hj & Hp & <-)]; [by eapply Hm|].
  by apply (q_pending _ _ _ _ _ _ H3 j m).
Qed.

(** A pass over the cache alone. *)
Lemma set_cache_pool n n' Q M V tks G A leases gs p c M' V' G' :
  pool_inv n Q M V tks G A leases gs p → passes (F := F) (g := g) (a := a) (fcap := fcap) (reads := reads) (P := Product.own_file (identity := identity) (file_capacity := fcap)) (W := watch (readers p) gs) n' M V tks [] [] (held (retention p)) (cache p) M' V' G' c →
  pool_inv n' Q M' V' tks G' A leases gs (set_cache p c).
Proof.
  intros [P1 P2 P3 P4 P5] [S1 S2 S3 [S4 S5]]. pose proof P1 as [H1 H2 H3 H4 H5 H6 H7 H8 H9].
  constructor; simpl; try done; [|by rewrite S5|by eapply settled_registered]. constructor; simpl; try done; [by eapply q_misses|]. unfold credit in *. rewrite S4, H6. unfold vlen. f_equal.
  by rewrite (same_pending_frames _ _ S2).
Qed.

Lemma drain_pool n Q M V tks G A leases gs p :
  pool_inv (32 * capacity + n) Q M V tks G A leases gs p →
  ∃ p' Q' M' V' G' A', drain_completions g p = Done p' ∧ pool_inv n Q' M' V' tks G' A' leases gs p' ∧ kept_pool p p' ∧ settles V M V' M'.
Proof.
  intros [P1 P2 P3 P4 P5]. destruct (drain_route_ok Hg Hgmax n Q M V tks G A leases _ p P1 P2) as (p' & Q' & M' & V' & G' & A' & He & Hh & Hm & Hset).
  exists p', Q', M', V', G', A'. split_and!; try done; [|by apply moved_kept]. pose proof (settled_registered _ _ _ _ _ _ _ _ _ _ _ _ _ P1 P5 Hset) as Hreg. destruct Hm as [E1 E2 E3 E4 E5 E6].
  constructor; [congruence..|]. by rewrite E1.
Qed.

Lemma advance_pool n Q M V tks G A leases gs p :
  pool_inv (1 + n) Q M V tks G A leases gs p →
  ∃ p' k G', advance_and_reclaim p = Done (p', k) ∧ pool_inv n Q M V tks G' A leases gs p' ∧ kept_pool p p'.
Proof.
  intros [[H1 H2 H3 H4 H5 H6 H7 H8 H9] P2 P3 P4 P5]. unfold advance_and_reclaim.
  destruct (law_drain_needed (retention p) P4) as (needed & ->). mred.
  assert (∃ r c l G1, (match needed with
      | Some true => '(r, l) ← drain_releases (retention p) (global_epoch (cache p)); c ← reclaim_released (cache p) l;
          Done (set_retention (set_cache p c) r, vlen l)
      | _ => Done (p, 0)
      end) = Done (set_retention (set_cache p c) r, l) ∧ retains r ∧ cinv (watch (readers p) gs) (1 + n) M V tks G1 [] [] (held r) c ∧
      reads_in_flight c = reads_in_flight (cache p) ∧ global_epoch c = global_epoch (cache p)) as (r & c & l & G1 & -> & Hr & Hc & Hrd & Hep).
  { destruct needed as [[]|]; [|exists (retention p), (cache p), 0, G; split; [by destruct p|done]..].
    destruct (law_drain_releases (retention p) (global_epoch (cache p)) P4) as (r & l & -> & Hr & Hperm). mred.
    destruct (released_ok (1 + n) M V tks [] [] (held r) l G (cache p) (cinv_held _ _ _ _ _ _ _ _ _ _ H1 Hperm)) as (c & G1 & -> & Hc & Hrd & Hep). mred.
    by exists r, c, (vlen l), G1. }
  mred. simpl. pose proof (ci_epoch _ _ _ _ _ _ _ _ _ Hc) as Hlim.
  destruct (advance_epoch_ok (global_epoch c) (readers p) gs) as (e & -> & He & Hro); [by rewrite Hep|lia|]. mred.
  pose proof (cinv_epoch n M V tks G1 [] [] (held r) c e Hc He) as Hce.
  assert (∀ f pg x, (f, pg, x) ∈ watch (readers p) gs → e ≤ x + 1) as Hrec by (intros f pg x Hx; by eapply watch_recent).
  set (q := evict_queue c) in *. assert (set_queue (set_epoch c e) (mkEvictQueue (Epoch.entries q) (Epoch.capacity q)) = set_epoch c e) as Hid by (subst q; by destruct c as [? ? ? ? [] ? ? ? ? ? ?]).
  assert (∀ c' r' G', cinv (watch (readers p) gs) n M V tks G' [] [] (held r') c' → retains r' → reads_in_flight c' = reads_in_flight c → global_epoch c' = e →
    pool_inv n Q M V tks G' A leases gs (set_retention (set_cache p c') r')) as Hend.
  { intros c' r' G' Hc' Hr' Hrd' Hep'. constructor; simpl; try done; [|by rewrite Hep']. constructor; simpl; try done. unfold credit in *. congruence. }
  match goal with |- context [if ?b then _ else _] => destruct b end.
  - unfold Epoch.drain_matured. rewrite <- Hid in Hce.
    destruct (drain_held_ok n M V tks [] [] (Epoch.capacity q) e Hrec (Epoch.entries q) G1 (set_epoch c e) r 0 Hce eq_refl Hr) as (es' & c' & r' & G' & k & -> & Hr' & Hc' & Hrd' & Hep').
    mred. eexists _, _, G'. split; [done|]. split; [by apply (Hend (set_queue c' _) r')|done].
  - unfold Epoch.drain_matured. rewrite <- Hid in Hce.
    destruct (drain_free_ok n M V tks [] [] (held r) (Epoch.capacity q) e Hrec (Epoch.entries q) G1 (set_epoch c e) 0 Hce eq_refl) as (es' & c' & G' & k & -> & Hc' & Hrd' & Hep').
    mred. eexists _, _, G'. split; [done|]. split; [by apply (Hend (set_queue c' _) r)|done].
Qed.
End pool.
End PoolReclaim.
