(* ===== verification/PoolDemand.v ===== *)
(** * Demand reads

    [get] and [ready] over the invariant of the pool: the lock-free hit, the hit under the
    lock, joining a read in flight, and admitting a new one with a frame claimed by at most
    one reclaim and one eviction; consuming a token once its read has ended; releasing a
    guard.  Each lemma gives what the call answers and the invariant after it. *)
From stdpp Require Import prelude gmap list.
From Stdlib Require Import NArith ZArith Lia.
From S2P Require Import Prelude Ids Table Frames FrameCensus Clock Epoch FileSlots Miss MissMap Execute ReadSpans Driver PoolBackend Product Ledger LedgerCalm ProductSafety PoolCache PoolInv PoolControl PoolReads PoolRoute PoolReclaim.

Open Scope N_scope.

Module PoolDemand.
Import Frames FrameCensus MissMap Execute Driver PoolBackend.PoolBackend LedgerCalm.LedgerCalm ProductSafety PoolCache PoolInv PoolControl PoolReads PoolRoute PoolReclaim.

(** Pending misses only become fewer. *)
Lemma fades_fewer V V' : fades V V' → vlen (pending_frames V') ≤ vlen (pending_frames V).
Proof.
  intros Hf. unfold pending_frames, vlen. rewrite !length_fmap, !length_map_to_list.
  assert (dom (filter is_pending V') ⊆ dom (filter is_pending V)) as Hd.
  { intros i. rewrite !elem_of_dom. intros [m [Hm Hp]%map_lookup_filter_Some]. destruct (Hf i m Hm) as (m0 & Hm0 & _ & _ & _ & Hp0).
    exists m0. apply map_lookup_filter_Some. split; [done|]. by apply Hp0. }
  apply subseteq_size in Hd. rewrite !size_dom in Hd. lia.
Qed.

Section watching.
Context {F g a fcap reads : N} {P : FileId → Prop}.

(** Other frames are watched. *)
Lemma cinv_watch W W' n M V tks G lo fl he c :
  cinv (F := F) (g := g) (a := a) (fcap := fcap) (reads := reads) (P := P) (W := W) n M V tks G lo fl he c →
  watches W' (frames c) (Epoch.entries (evict_queue c)) (global_epoch c) →
  cinv (F := F) (g := g) (a := a) (fcap := fcap) (reads := reads) (P := P) (W := W') n M V tks G lo fl he c.
Proof. intros [C1 C2 C3 C4 C5 C6 C7 C8 C9 C10 C11 C12 C13 C14 C15 C16 C17 C18 C19 C20] Hw. by constructor. Qed.

Lemma cinv_clock {W} n M V tks G lo fl he c k :
  cinv (F := F) (g := g) (a := a) (fcap := fcap) (reads := reads) (P := P) (W := W) n M V tks G lo fl he c → lgood n F (prefetch c) k →
  cinv (F := F) (g := g) (a := a) (fcap := fcap) (reads := reads) (P := P) (W := W) n M V tks G lo fl he (set_clock c k).
Proof. intros [C1 C2 C3 C4 C5 C6 C7 C8 C9 C10 C11 C12 C13 C14 C15 C16 C17 C18 C19 C20] Hw. by constructor. Qed.
End watching.

(** ** Reader slots *)

Lemma watch_store rs gs r s s' :
  rs !! N.to_nat r = Some s → Epoch.local_epoch s' = Epoch.local_epoch s ∨ guards_of r gs = [] →
  watch (<[N.to_nat r := s']> rs) gs = watch rs gs.
Proof.
  intros Hs Hor. unfold watch. apply list_fmap_ext. intros i [[r' f] pg] Hi. simpl. f_equal. unfold epoch_of.
  destruct (decide (r' = r)) as [->|Hne]; [|by rewrite list_lookup_insert_ne by lia].
  rewrite list_lookup_insert_eq by (eapply lookup_lt_is_Some_1; eauto). rewrite Hs. destruct Hor as [?|Hno]; [done|].
  exfalso. assert ((r, f, pg) ∈ guards_of r gs) as Hin by (apply list_elem_of_filter; split; [done|by eapply list_elem_of_lookup_2]).
  rewrite Hno in Hin. by apply elem_of_nil in Hin.
Qed.

Lemma guards_nil epoch rs gs r s : readers_ok epoch rs gs → rs !! N.to_nat r = Some s → Epoch.guard_count s = 0 → guards_of r gs = [].
Proof. intros Hr Hs Hz. rewrite (ro_count _ _ _ Hr r s Hs) in Hz. unfold vlen in Hz. destruct (guards_of r gs); [done|simpl in Hz; lia]. Qed.

(** A reader slot changes with its guards. *)
Lemma readers_store epoch rs gs gs' r s s' :
  readers_ok epoch rs gs → rs !! N.to_nat r = Some s →
  (∀ q, q ≠ r → vlen (guards_of q gs') = vlen (guards_of q gs)) → (∀ x, x ∈ gs' → x.1.1 < vlen rs) → Epoch.index s' = Epoch.index s →
  Epoch.guard_count s' = vlen (guards_of r gs') → (Epoch.guard_count s' = 0 → Epoch.local_epoch s' = Epoch.QUIESCENT) →
  (0 < Epoch.guard_count s' → Epoch.local_epoch s' ≤ epoch ∧ epoch ≤ Epoch.local_epoch s' + 1) →
  readers_ok epoch (<[N.to_nat r := s']> rs) gs'.
Proof.
  intros [R1 R2 R3 R4 R5] Hs Hoth Hknown Hidx Hc Hi Hb. constructor; rewrite ?vlen_insert; try done.
  - intros q x [(Heq & <- & _)|[Hne Hx]]%list_lookup_insert_Some; [by replace q with r by lia|]. rewrite Hoth by (intros ->; done). by apply R1.
  - intros q x [(Heq & <- & _)|[Hne Hx]]%list_lookup_insert_Some; [done|by eapply R2].
  - intros q x [(Heq & <- & _)|[Hne Hx]]%list_lookup_insert_Some; [done|by eapply R3].
  - intros q x [(Heq & <- & _)|[Hne Hx]]%list_lookup_insert_Some; [rewrite Hidx; by eapply R5|by eapply R5].
Qed.

Lemma guards_cons r f pg gs q : guards_of q ((r, f, pg) :: gs) = if decide (r = q) then (r, f, pg) :: guards_of q gs else guards_of q gs.
Proof. unfold guards_of. rewrite filter_cons. simpl. by case_decide. Qed.

Section demand.
Context {B R : Type} `{!PoolBackend B} `{!Retainer R} {identity g F capacity fcap : N}.
Context `{!BackendLaws B identity g F capacity fcap} `{!RetainerLaws R F fcap}.
Context {a reads slots : N}.
Context (Hg : 0 < g) (Hgmax : g ≤ U32_MAX) (Hreads : reads ≤ U32_MAX).
Implicit Types (p : Pool B R) (V : gmap N mread) (Q : gmap OpToken flight) (A : Routes).
#[local] Abbreviation cinv W := (cinv (F := F) (g := g) (a := a) (fcap := fcap) (reads := reads) (P := Product.own_file (identity := identity) (file_capacity := fcap)) (W := W)).
#[local] Abbreviation hinv W := (hinv (identity := identity) (g := g) (F := F) (capacity := capacity) (fcap := fcap) (a := a) (reads := reads) (slots := slots) (W := W)).
#[local] Abbreviation pool_inv := (pool_inv (identity := identity) (g := g) (F := F) (capacity := capacity) (fcap := fcap) (a := a) (reads := reads) (slots := slots)).

(** The cache changes, with the same misses pending. *)
Lemma pool_set n n' Q M V V' tks tks' G G' A leases gs p c :
  pool_inv n Q M V tks G A leases gs p → cinv (watch (readers p) gs) n' M V' tks' G' [] [] (held (retention p)) c →
  same_pending V V' → reads_in_flight c = reads_in_flight (cache p) → global_epoch c = global_epoch (cache p) →
  pool_inv n' Q M V' tks' G' A leases gs (set_cache p c).
Proof.
  intros [[H1 H2 H3 H4 H5 H6 H7 H8 H9] P2 P3 P4 P5] Hc Hs Hrd Hep. constructor; simpl; try done; [|by rewrite Hep].
  constructor; simpl; try done; [by eapply q_misses|]. unfold credit in *. by rewrite Hrd, H6, (same_pending_frames _ _ Hs).
Qed.

(** The readers change, and with them the watched frames. *)
Lemma pool_readers n Q M V tks G A leases gs gs' p rs :
  pool_inv n Q M V tks G A leases gs p → readers_ok (global_epoch (cache p)) rs gs' →
  watches (watch rs gs') (frames (cache p)) (Epoch.entries (evict_queue (cache p))) (global_epoch (cache p)) →
  pool_inv n Q M V tks G A leases gs' (set_readers p rs).
Proof.
  intros [[H1 H2 H3 H4 H5 H6 H7 H8 H9] P2 P3 P4 P5] Hr Hw. constructor; simpl; try done. constructor; simpl; try done. by eapply cinv_watch.
Qed.

(** A reader that may take one more guard. *)
Definition may_pin p (r : N) : Prop := ∃ s, readers p !! N.to_nat r = Some s ∧
  Epoch.guard_count s < Epoch.peak_guards_per_reader s ∧ Epoch.peak_guards_per_reader s ≤ U64_MAX.

Lemma pin_pool n Q M V tks G A leases gs p r page :
  pool_inv n Q M V tks G A leases gs p → may_pin p r →
  ∃ p', pin_owned p r page = Done (p', M !! page) ∧
    pool_inv n Q M V tks G A leases (match M !! page with Some f => (r, f, page) :: gs | None => gs end) p' ∧
    product p' = product p ∧ retention p' = retention p ∧ pending_releases p' = pending_releases p ∧
    vlen (readers p') = vlen (readers p) ∧ (M !! page = None → p' = p).
Proof.
  intros Hp (s & Hs & Hpk & Hpm). pose proof Hp as [[H1 H2 H3 H4 H5 H6 H7 H8 H9] P2 P3 P4 P5]. unfold pin_owned. rewrite (proj2 (vget_Done _ _ _) Hs). mred.
  pose proof (ci_epoch _ _ _ _ _ _ _ _ _ H1) as Hlim. unfold Epoch.begin_pin. rewrite (proj2 (N.eqb_neq (global_epoch (cache p)) Epoch.QUIESCENT)) by (unfold Epoch.QUIESCENT; lia). simpl negb. mred.
  destruct (ci_table _ _ _ _ _ _ _ _ _ H1) as (T1 & T2 & _). rewrite (PageTable.lookup_ok _ _ page T1 T2). mred.
  destruct (M !! page) as [f|] eqn:Hm.
  - set (s1 := if Epoch.guard_count s =? 0 then Epoch.set_local s (global_epoch (cache p)) else s).
    assert (Epoch.guard_count s1 = Epoch.guard_count s ∧ Epoch.index s1 = Epoch.index s ∧ Epoch.peak_guards_per_reader s1 = Epoch.peak_guards_per_reader s) as (E1 & E2 & E3) by (unfold s1; by destruct (_ =? 0)).
    pose proof (mapped_state _ _ _ _ _ _ _ _ _ _ _ H1 Hm) as Hres. pose proof (in_state_lt _ _ _ _ _ _ _ (ci_arena _ _ _ _ _ _ _ _ _ H1) Hres) as Hf.
    destruct (touch_good n F (prefetch (cache p)) (clock (cache p)) f (Epoch.reader_index s1) (ci_ledger _ _ _ _ _ _ _ _ _ H1) Hf) as (k & b & He & Hk).
    { intros q Hq. unfold Epoch.reader_index in Hq. rewrite E2 in Hq. destruct (Epoch.index s =? U32_MAX); [done|]. injection Hq as <-. by eapply (ro_index _ _ _ P3). }
    unfold Clock.reference_from. rewrite He. mred. unfold Epoch.commit_pin. rewrite E1, E3, Product.checked_add_fits by lia. mred.
    rewrite (proj2 (N.leb_le _ _)) by lia. mred.
    assert (Bool.eqb (Epoch.guard_count s =? 0) (Epoch.guard_count s + 1 =? 1) = true) as ->.
    { apply Bool.eqb_true_iff. destruct (N.eqb_spec (Epoch.guard_count s) 0), (N.eqb_spec (Epoch.guard_count s + 1) 1); done || lia. }
    mred. rewrite vset_ok by eauto using vget_lt. mred. eexists. split; [done|]. split; [|split_and!; [done..|simpl; by rewrite vlen_insert|done]].
    apply (pool_readers n Q M V tks G A leases gs _ (set_cache p (set_clock (cache p) k))); simpl.
    + eapply pool_set; [exact Hp|by apply cinv_clock|done|done|done].
    + eapply (readers_store _ _ gs); [exact P3|exact Hs| | |done| |simpl; lia|].
      * intros q Hq. rewrite guards_cons, decide_False by done. done.
      * intros x [->|Hx]%elem_of_cons; simpl; [by eapply vget_lt|by apply (ro_known _ _ _ P3)].
      * rewrite guards_cons, decide_True by done. simpl. rewrite (ro_count _ _ _ P3 r s Hs). unfold vlen. simpl. lia.
      * intros _. simpl. unfold s1. destruct (N.eqb_spec (Epoch.guard_count s) 0) as [Hz|Hz]; simpl; [lia|]. apply (ro_busy _ _ _ P3 r s Hs). lia.
    + intros j pg e [Heq|Hj]%elem_of_cons.
      * simpl in Heq. injection Heq as -> -> ->. unfold epoch_of. rewrite list_lookup_insert_eq by (eapply lookup_lt_is_Some_1; eauto). simpl.
        split_and!; [|by apply (ci_mapped _ _ _ _ _ _ _ _ _ H1)|by left].
        unfold s1. destruct (N.eqb_spec (Epoch.guard_count s) 0) as [Hz|Hz]; simpl; [lia|]. eapply (ro_busy _ _ _ P3 r s Hs). lia.
      * rewrite (watch_store _ _ r s) in Hj; [by apply (ci_watch _ _ _ _ _ _ _ _ _ H1)|done|]. simpl. unfold s1.
        destruct (N.eqb_spec (Epoch.guard_count s) 0) as [Hz|Hz]; simpl; [right; by eapply guards_nil|by left].
  - assert ((s2 ← Epoch.abort_pin (if Epoch.guard_count s =? 0 then Epoch.set_local s (global_epoch (cache p)) else s) (Epoch.guard_count s =? 0);
      rs ← vset (readers p) r s2; Done (set_readers p rs, None (A := ReadFrameIdx))) = Done (p, None)) as Hab.
    { unfold Epoch.abort_pin. assert (vset (readers p) r s = Done (readers p)) as Hsame by (rewrite vset_ok by eauto using vget_lt; by rewrite list_insert_id).
      destruct (N.eqb_spec (Epoch.guard_count s) 0) as [Hz|Hz].
      - simpl. rewrite (proj2 (N.eqb_eq _ _) Hz). mred. pose proof (ro_idle _ _ _ P3 r s Hs Hz) as Hl.
        replace (Epoch.set_local (Epoch.set_local s (global_epoch (cache p))) Epoch.QUIESCENT) with s by (destruct s; unfold Epoch.set_local; simpl in *; congruence).
        rewrite Hsame. mred. by destruct p.
      - mred. rewrite Hsame. mred. by destruct p. }
    exists p. split; [exact Hab|done].
Qed.

Lemma drop_guard_pool n Q M V tks G A leases gs gs' p r f page :
  pool_inv n Q M V tks G A leases gs p → gs ≡ₚ (r, f, page) :: gs' →
  ∃ rs, drop_guard p r = Done (set_readers p rs) ∧ pool_inv n Q M V tks G A leases gs' (set_readers p rs) ∧ vlen rs = vlen (readers p).
Proof.
  intros Hp Hgs. pose proof Hp as [[H1 H2 H3 H4 H5 H6 H7 H8 H9] P2 P3 P4 P5].
  assert (∀ q, vlen (guards_of q gs) = vlen (guards_of q ((r, f, page) :: gs'))) as Hcnt.
  { intros q. unfold vlen. f_equal. apply Permutation_length. unfold guards_of. by rewrite Hgs. }
  assert (r < vlen (readers p)) as Hlt by (apply (ro_known _ _ _ P3 (r, f, page)); rewrite Hgs; set_solver).
  destruct (vget_ok _ _ Hlt) as (s & Hget & Hs). unfold drop_guard. rewrite Hget. mred.
  pose proof (ro_count _ _ _ P3 r s Hs) as Hc. rewrite Hcnt, guards_cons, decide_True in Hc by done.
  assert (Epoch.guard_count s = 1 + vlen (guards_of r gs')) as Hc' by (rewrite Hc; unfold vlen; simpl; lia). clear Hc.
  unfold Epoch.release_guard. rewrite (proj2 (N.ltb_lt _ _)) by lia. mred. rewrite vset_ok by done. mred.
  set (s' := if Epoch.guard_count s - 1 =? 0 then _ else _). eexists. split; [done|].
  assert (Epoch.guard_count s' = vlen (guards_of r gs') ∧ Epoch.index s' = Epoch.index s) as [E1 E2] by (unfold s'; destruct (_ =? 0); simpl; split; (done || lia)).
  assert (watch (<[N.to_nat r := s']> (readers p)) gs' = watch (readers p) gs') as Hw.
  { apply (watch_store _ _ r s); [done|]. unfold s'. destruct (N.eqb_spec (Epoch.guard_count s - 1) 0) as [Hz|Hz]; [right|by left].
    destruct (guards_of r gs'); [done|]. unfold vlen in Hc'. simpl in Hc'. lia. }
  split; [|by rewrite vlen_insert]. apply (pool_readers n Q M V tks G A leases gs gs' p); [done| |].
  - eapply (readers_store _ _ gs); [exact P3|exact Hs| | |done|done| |].
    + intros q Hq. rewrite Hcnt, guards_cons, decide_False by done. done.
    + intros x Hx. apply (ro_known _ _ _ P3). rewrite Hgs. by right.
    + unfold s'. destruct (N.eqb_spec (Epoch.guard_count s - 1) 0) as [Hz|Hz]; [done|]. simpl. intros Hz'. exfalso. lia.
    + intros Hpos. rewrite E1 in Hpos. unfold s'. destruct (N.eqb_spec (Epoch.guard_count s - 1) 0) as [Hz|Hz]; simpl; [exfalso; lia|]. apply (ro_busy _ _ _ P3 r s Hs). lia.
  - intros j pg e Hj. rewrite Hw in Hj. apply (ci_watch _ _ _ _ _ _ _ _ _ H1). apply list_elem_of_fmap in Hj as (x & -> & Hx).
    unfold watch. apply list_elem_of_fmap. exists x. split; [done|]. rewrite Hgs. by right.
Qed.

(** ** Claiming a frame *)

(** The answer of a claim: the cache with the frame in hand. *)
Record claimed n M V tks leases gs p p' (o : option ReadFrameIdx) M' V' : Prop := {
  cl_pool : ∃ p1 Q' G' A' c, p' = set_cache p1 c ∧ pool_inv n Q' M' V' tks G' A' leases gs p1 ∧ kept_pool p p1 ∧
    cinv (watch (readers p1) gs) n M' V' tks G' (option_list o) [] (held (retention p1)) c ∧
    reads_in_flight c = reads_in_flight (cache p1) ∧ global_epoch c = global_epoch (cache p1);
  cl_settles : settles V M V' M';
}.

Lemma claim_free_pool n Q M V tks G A leases gs p :
  pool_inv n Q M V tks G A leases gs p →
  ∃ c o, claim_free_frame (cache p) = Done (c, o) ∧ claimed n M V tks leases gs p (set_cache p c) o M V ∧
    (o = None → pool_inv n Q M V tks G A leases gs (set_cache p c)).
Proof.
  intros Hp. pose proof Hp as [[H1 H2 H3 H4 H5 H6 H7 H8 H9] P2 P3 P4 P5].
  destruct (claim_free_cache _ _ _ _ _ _ _ _ H1) as (c & o & He & Hc & [Hrd Hep] & _). exists c, o. split; [done|]. split.
  - constructor; [|apply settles_refl]. exists p, Q, G, A, c. done.
  - intros ->. by eapply pool_set.
Qed.

Lemma claimed_after n M V tks leases gs p p1 M1 V1 p' o M' V' :
  kept_pool p p1 → settles V M V1 M1 → claimed n M1 V1 tks leases gs p1 p' o M' V' → claimed n M V tks leases gs p p' o M' V'.
Proof.
  intros Hk Hs [(p2 & Q' & G' & A' & c & H1 & H2 & H3 & H4) Hs']. constructor; [|by eapply settles_trans].
  exists p2, Q', G', A', c. split_and!; try done; [|apply H4..]. by eapply kept_trans.
Qed.

Lemma claim_frame_pool n Q M V tks G A leases gs p :
  pool_inv (32 * capacity + 5 + n) Q M V tks G A leases gs p →
  ∃ p' o M' V', claim_frame g F p = Done (p', o) ∧ claimed n M V tks leases gs p p' o M' V' ∧
    (o = None → ∃ Q' G' A', pool_inv n Q' M' V' tks G' A' leases gs p').
Proof.
  intros Hp. unfold claim_frame.
  assert (∃ p' o M' V', claim_frame_bounded g F p = Done (p', o) ∧ claimed n M V tks leases gs p p' o M' V' ∧
    (o = None → ∃ Q' G' A', pool_inv n Q' M' V' tks G' A' leases gs p')) as (p' & o & M' & V' & -> & Hcl & Hno).
  { unfold claim_frame_bounded, on_cache.
    destruct (claim_free_pool _ _ _ _ _ _ _ _ _ _ (pool_le _ n _ _ _ _ _ _ _ _ _ Hp ltac:(lia))) as (c0 & o0 & He0 & Hcl0 & _).
    destruct (claim_free_pool _ _ _ _ _ _ _ _ _ _ Hp) as (c0' & o0' & He0' & _ & Hn0). rewrite He0 in He0'. simplify_eq. rewrite He0. mred.
    destruct o0' as [f|]; [exists (set_cache p c0'), (Some f), M, V; done|]. specialize (Hn0 eq_refl).
    replace (32 * capacity + 5 + n) with (32 * capacity + (1 + (3 + (1 + n)))) in Hn0 by lia.
    destruct (drain_pool Hg Hgmax _ _ _ _ _ _ _ _ _ _ Hn0) as (p1 & Q1 & M1 & V1 & G1 & A1 & -> & Hp1 & Hk1 & Hs1). mred.
    destruct (advance_pool Hg Hgmax _ _ _ _ _ _ _ _ _ _ Hp1) as (p2 & k2 & G2 & -> & Hp2 & Hk2). mred.
    assert (kept_pool p p2) as Hkp2 by (eapply (kept_trans p (set_cache p c0')); [done|by eapply kept_trans]).
    destruct (claim_free_pool _ _ _ _ _ _ _ _ _ _ (pool_le _ n _ _ _ _ _ _ _ _ _ Hp2 ltac:(lia))) as (c3 & o3 & He3 & Hcl3 & _).
    destruct (claim_free_pool _ _ _ _ _ _ _ _ _ _ Hp2) as (c3' & o3' & He3' & _ & Hn3). rewrite He3 in He3'. simplify_eq. rewrite He3. mred.
    destruct o3' as [f|]; [exists (set_cache p2 c3'), (Some f), M1, V1; split; [done|]; split; [by eapply claimed_after|done]|]. specialize (Hn3 eq_refl).
    pose proof Hn3 as [[H1 H2 H3 H4 H5 H6 H7 H8 H9] P2 P3 P4 P5].
    destruct (evict_one_cache _ _ _ _ _ _ _ _ _ H1) as (c4 & M4 & V4 & -> & Hps). mred.
    pose proof (set_cache_pool _ _ _ _ _ _ _ _ _ _ _ _ _ _ _ Hn3 Hps) as Hp4.
    destruct (advance_pool Hg Hgmax _ _ _ _ _ _ _ _ _ _ Hp4) as (p5 & k5 & G5 & -> & Hp5 & Hk5). mred.
    destruct (claim_free_pool _ _ _ _ _ _ _ _ _ _ Hp5) as (c6 & o6 & -> & Hcl6 & Hn6). mred.
    exists (set_cache p5 c6), o6, M4, V4. split; [done|]. split; [|intros ->; eauto].
    eapply claimed_after; [| |exact Hcl6]; [eapply (kept_trans p p2); [done|]; eapply (kept_trans p2 (set_cache (set_cache p2 c3') c4)); done|].
    eapply settles_trans; [exact Hs1|apply Hps]. }
  mred. destruct o as [f|]; [|exists p', None, M', V'; split_and!; try done; by apply Hno].
  pose proof (cl_pool _ _ _ _ _ _ _ _ _ _ _ Hcl) as (p1 & Q1 & G1 & A1 & c & -> & _ & _ & Hc & _).
  assert (in_state (frames c) f Free) as Hf by (apply (ci_census _ _ _ _ _ _ _ _ _ Hc Free); simpl; set_solver).
  change (cache (set_cache p1 c)) with c. rewrite (state_of (ci_arena _ _ _ _ _ _ _ _ _ Hc) _ _ Hf). mred. rewrite bool_decide_eq_true_2 by done. mred.
  eexists _, _, M', V'. split; [done|]. done.
Qed.

(** ** Admission *)

Lemma pool_driver n Q M V tks G A leases gs p b :
  pool_inv n Q M V tks G A leases gs p → sound b → live b = live (PoolControl.driver p) → minted b = minted (PoolControl.driver p) →
  flights b = flights (PoolControl.driver p) → pool_inv n Q M V tks G A leases gs (PoolControl.set_driver p b).
Proof. intros [P1 P2 P3 P4 P5] Hs Hl Hm Hf. constructor; try done. by apply set_driver_ok. Qed.

(** The read of a claimed frame is submitted, and its miss admitted. *)
Lemma admit_pool n Q M V tks G A leases gs p c f page i t b init :
  pool_inv n Q M V tks G A leases gs p →
  cinv (watch (readers p) gs) (1 + n) M V tks G [] [f] (held (retention p)) c → page_at (frames c) f = Some (Some page) →
  reads_in_flight c = reads_in_flight (cache p) → global_epoch c = global_epoch (cache p) →
  i < F → unwatched tks i → (∀ m, V !! i = Some m → m_outcome m ≠ Pending) → vlen (pending_frames V) < reads →
  M !! page = None → (∀ j m, V !! j = Some m → m_outcome m = Pending → m_page m ≠ page) →
  registered (files (product p)) (pg_file page) → pg_granule_idx page ≤ U32_MAX → fid_slot (pg_file page) < fcap →
  sound b → live b = live (PoolControl.driver p) → t ∉ minted (PoolControl.driver p) → minted b = {[t]} ∪ minted (PoolControl.driver p) →
  flights b = <[t := FlyPoint (pg_file page) (token_of a f) g]> (flights (PoolControl.driver p)) →
  ∃ k tbl ints gen, checked_add U32_MAX (reads_in_flight c) 1 = Some k ∧
    Miss.admit_initial (miss c) i page f t (miss_interests c) init = Done (tbl, ints, gen) ∧
    pool_inv n (<[t := FlyPoint (pg_file page) (token_of a f) g]> Q) M (<[i := mkMiss page f t gen 0 Pending]> V)
      (match init with Miss.Demand => [MissSystem.mkPendingToken page i gen] | Miss.Speculative => [] end ++ tks) G A leases gs
      (PoolControl.set_driver (set_cache p (set_interests (set_miss (set_reads c k) tbl) ints)) b).
Proof.
  intros [[H1 H2 H3 H4 H5 H6 H7 H8 H9] P2 P3 P4 P5] Hc Hpage Hrd Hep Hi Hun Hno Hlen Hmap Hpages Hreg Hidx Hslot Hsb Hlb Hnew Hmint Hfl.
  rewrite P2, app_nil_r in *. pose proof (Product.pi_sound _ _ _ _ H2) as Hs. unfold credit in H6.
  destruct (admit_cache n M V tks G [] [] (held (retention p)) c i page f t init Hc Hi Hun Hno Hlen Hslot Hmap Hpage Hpages) as (tbl & ints & gen & He & Hc').
  exists (reads_in_flight c + 1), tbl, ints, gen. split; [apply Product.checked_add_fits; lia|]. split; [done|].
  constructor; simpl; try done; [|by rewrite Hep]. constructor; simpl; rewrite ?app_nil_r, ?P2; try done.
  - apply (cinv_reads _ _ _ _ _ _ _ _ _ (reads_in_flight c + 1)) in Hc'. exact Hc'.
  - apply Product.reads_ok; try done. eapply agrees_read; try done; first [by intros [] ? ?|intros x Hx; by apply elem_of_nil in Hx].
  - change (PoolControl.driver _) with b. eapply (q_submit Q V _ (PoolControl.driver p) b [] A i (mkMiss page f t gen 0 Pending) t (pg_file page) (token_of a f)); try done.
  - unfold credit. simpl. rewrite Hrd, H6. unfold vlen. rewrite (Permutation_length (pending_admit V i (mkMiss page f t gen 0 Pending) Hno eq_refl)). simpl. lia.
  - intros x Hx. by apply elem_of_nil in Hx.
Qed.

(** What a cold [get] answers: a token for a pending read of the page, or that the pool is busy. *)
Definition answered (tks tks' : list PendingToken) V' (page : PageId) (res : Get) : Prop :=
  match res with
  | Hit _ => False
  | Busy => tks' = tks
  | GetPending tk => tks' = tk :: tks ∧ MissSystem.tk_page tk = page ∧
      ∃ m, V' !! MissSystem.tk_slot tk = Some m ∧ m_outcome m = Pending ∧ m_page m = page ∧ m_generation m = MissSystem.tk_generation tk
  end.

Lemma submit_pool n Q M V tks G A leases gs p c f page purpose :
  pool_inv n Q M V tks G A leases gs p → cinv (watch (readers p) gs) n M V tks G [] [f] (held (retention p)) c →
  registered (files (product p)) (pg_file page) → pg_granule_idx page ≤ U32_MAX →
  ∃ b r, submit_page_read g (set_cache p c) page (token_of a f) purpose = Done (PoolControl.set_driver (set_cache p c) b, r) ∧
    sound b ∧ live b = live (PoolControl.driver p) ∧
    match r with
    | inl t => (t ∉ minted (PoolControl.driver p)) ∧ minted b = {[t]} ∪ minted (PoolControl.driver p) ∧
        flights b = <[t := FlyPoint (pg_file page) (token_of a f) g]> (flights (PoolControl.driver p))
    | inr (_, w) => w = token_of a f ∧ minted b = minted (PoolControl.driver p) ∧ flights b = flights (PoolControl.driver p)
    end.
Proof.
  intros [[H1 H2 H3 H4 H5 H6 H7 H8 H9] P2 P3 P4 P5] Hc Hreg Hidx. unfold submit_page_read. rewrite (read_span_ok Hg Hgmax) by (done || lia). mred.
  destruct (Product.registered_file_ok _ _ _ _ _ (Product.pi_files _ _ _ _ H2) Hreg) as (h & Hrf & Hid & Hok). simpl. rewrite Hrf. mred.
  pose proof (Product.pi_sound _ _ _ _ H2) as Hs. change (PoolControl.driver (set_cache p c)) with (PoolControl.driver p). rewrite N.add_0_r, N.sub_0_r.
  destruct (law_submit_read (PoolControl.driver p) h (token_of a f) (pg_granule_idx page * g) 0 g purpose) as (b & r & -> & Hs' & Hl' & Hr); try done.
  - apply Hok.
  - apply (direct_accepts (g := g)); [apply Hok|eauto].
  - rewrite token_frame. eapply (cinv_lt _ _ _ _ _ _ _ _ _ f InFlight Hc). simpl. set_solver.
  - mred. exists b, r. split; [done|]. split; [done|]. split; [done|]. rewrite Hid in Hr. destruct r as [t|[e w]]; [done|]. destruct Hr as (? & ? & ? & _). done.
Qed.

Lemma get_cold_pool n Q M V tks G A leases gs p page r :
  pool_inv (32 * capacity + 6 + n) Q M V tks G A leases gs p → M !! page = None → registered (files (product p)) (pg_file page) →
  pg_granule_idx page ≤ U32_MAX → fid_slot (pg_file page) < fcap → vlen tks < U32_MAX →
  ∃ p' res Q' M' V' tks' G' A', get_cold g F reads p page r = Done (p', res) ∧ pool_inv n Q' M' V' tks' G' A' leases gs p' ∧
    kept_pool p p' ∧ answered tks tks' V' page res.
Proof.
  intros Hp Hmap Hreg Hidx Hslot Htks. pose proof Hp as [[H1 H2 H3 H4 H5 H6 H7 H8 H9] P2 P3 P4 P5]. unfold get_cold.
  destruct (ci_miss _ _ _ _ _ _ _ _ _ H1) as [Hr Hsh]. destruct (find_pending_map _ _ _ _ page Hr) as (o & -> & Ho). mred.
  destruct o as [i|].
  { destruct Ho as (m & Hm & Hpn & Hpg). destruct (entry_map _ _ _ _ i m Hr Hm) as (e & -> & He). mred.
    assert (Miss.me_frame e = m_frame m) as Hfe by by subst m. rewrite Hfe. unfold prefetch_promote.
    replace (32 * capacity + 6 + n) with (1 + (32 * capacity + 5 + n)) in H1 by lia.
    destruct (finish_cache _ _ _ _ _ _ _ _ (cache p) (m_frame m) (Ledger.Promoted (Some r)) H1) as (x & -> & Hc & _); [eapply in_state_lt; [apply H1|by eapply pending_state]|].
    mred. destruct (join_cache _ _ _ _ _ _ _ _ _ i m Hc Hm Hpn Htks) as (ints & Hj & Hc'). rewrite Hj. mred.
    eexists _, _, Q, M, V, _, G, A. split; [done|]. split; [|split; [done|]].
    - eapply pool_set; [exact Hp|eapply cinv_le; [exact Hc'|lia]|done|done|done].
    - simpl. split; [by rewrite Hpg|]. split; [done|]. exists m. done. }
  destruct (N.leb_spec reads (reads_in_flight (cache p))) as [|Hcr].
  { eexists _, _, Q, M, V, tks, G, A. split; [done|]. split; [eapply pool_le; [done|lia]|done]. }
  destruct (admission_slot_map _ _ _ _ _ _ _ Hr Hsh) as (o & -> & Hadm). mred.
  destruct o as [i|]; [|eexists _, _, Q, M, V, tks, G, A; split; [done|]; split; [eapply pool_le; [done|lia]|done]].
  destruct (Hadm i eq_refl) as (Hi & Hun & Hnp).
  replace (32 * capacity + 6 + n) with (32 * capacity + 5 + (1 + n)) in Hp by lia.
  destruct (claim_frame_pool _ _ _ _ _ _ _ _ _ _ Hp) as (p' & o & M1 & V1 & -> & [Hcl [Hfa Hga]] & Hnone). mred.
  destruct o as [f|].
  2: { destruct (Hnone eq_refl) as (Q1 & G1 & A1 & Hp1). eexists _, _, Q1, M1, V1, tks, G1, A1. split; [done|].
    split; [eapply pool_le; [exact Hp1|lia]|]. destruct Hcl as (p2 & _ & _ & _ & c & -> & _ & Hk & _). destruct Hk. done. }
  destruct Hcl as (p1 & Q1 & G1 & A1 & c & -> & Hp1 & Hk & Hc & Hrd & Hep). unfold on_cache. change (cache (set_cache p1 c)) with c.
  assert (¬ speculates (prefetch c) f) as Hns.
  { intros Hsp. assert (in_state (frames c) f Free) as Hf by (apply (ci_census _ _ _ _ _ _ _ _ _ Hc Free); simpl; set_solver).
    destruct (ci_spec _ _ _ _ _ _ _ _ _ Hc f Hsp) as [Hx|Hx]; pose proof (in_state_fun _ _ _ _ Hf Hx); done. }
  destruct (claim_cache _ _ _ _ _ _ _ _ _ f page Hc) as (h & -> & Hc2 & Hpg2 & _ & _). mred.
  assert (registered (files (product p1)) (pg_file page)) as Hreg1 by by rewrite (kp_files _ _ Hk).
  destruct (submit_pool (1 + n) Q1 M1 V1 tks G1 A1 leases gs p1 (set_frames c h) f page Demand Hp1 Hc2 Hreg1 Hidx) as (b & res & Hsub & Hs & Hl & Hres).
  change (set_cache (set_cache p1 c) (set_frames c h)) with (set_cache p1 (set_frames c h)). rewrite Hsub. mred. destruct res as [t|[e w]].
  - destruct Hres as (Hnew & Hmint & Hfl).
    assert (∀ j m, V1 !! j = Some m → m_outcome m = Pending → m_page m ≠ page) as Hpages.
    { intros j m Hj Hpj. destruct (Hfa j m Hj) as (m0 & Hm0 & -> & _ & _ & Hp0). apply (Ho j m0 Hm0). by apply Hp0. }
    assert (M1 !! page = None) as Hmap1.
    { destruct (M1 !! page) as [f'|] eqn:E; [|done]. destruct (Hga page f' E) as [?|(j & m & Hm & Hpm & Hpg)]; [congruence|]. by apply (Ho j m Hm Hpm) in Hpg. }
    destruct (admit_pool n Q1 M1 V1 tks G1 A1 leases gs p1 (set_frames c h) f page i t b Miss.Demand) as (k & tbl & ints & gen & Hk1 & Hadd & Hp2); try done.
    + eapply pool_le; [exact Hp1|lia].
    + intros m Hm. destruct (Hfa i m Hm) as (m0 & Hm0 & _ & _ & _ & Hp0). intros Hx. by apply (Hnp m0 Hm0), Hp0.
    + unfold credit in H6. pose proof (fades_fewer _ _ Hfa). lia.
    + change (cache (PoolControl.set_driver (set_cache p1 (set_frames c h)) b)) with (set_frames c h). rewrite Hk1. mred.
      unfold Miss.admit_demand. simpl miss. simpl miss_interests. simpl in Hadd. rewrite Hadd. mred.
      eexists _, _, _, M1, _, _, G1, A1. split; [done|]. split; [exact Hp2|]. split; [by destruct Hk|]. simpl. split; [done|]. split; [done|].
      eexists. rewrite lookup_insert_eq. done.
  - destruct Hres as (-> & Hmint & Hfl). unfold on_cache_. change (cache (PoolControl.set_driver (set_cache p1 (set_frames c h)) b)) with (set_frames c h).
    destruct (abort_claim_cache _ _ _ _ _ _ _ _ _ f Hc2 Hns) as (c3 & -> & Hc3 & Hrd3 & Hep3 & _). mred.
    eexists _, _, Q1, M1, V1, tks, G1, A1. split; [done|]. split; [|split; [by destruct Hk|done]].
    pose proof (pool_driver (1 + n) Q1 M1 V1 tks G1 A1 leases gs p1 b Hp1 Hs Hl Hmint Hfl) as Hpd.
    apply (pool_set (1 + n) n Q1 M1 V1 V1 tks tks G1 G1 A1 leases gs _ c3 Hpd); try done; [eapply cinv_le; [exact Hc3|lia]| |].
    + by rewrite Hrd3.
    + by rewrite Hep3.
Qed.
(** ** [get] *)

#[local] Abbreviation own_file := (Product.own_file (identity := identity) (file_capacity := fcap)).

Lemma live_registered n Q M V tks G A leases gs p file :
  pool_inv n Q M V tks G A leases gs p → own_file file → is_Some (Product.live_handle (product p) file) → registered (files (product p)) file.
Proof.
  intros [Hh _ _ _ _] [Hd Hs] [h Hl]. destruct (Product.live_file_handle_ok _ _ _ _ file (hi_product _ _ _ _ _ _ _ _ _ _ _ Hh) Hd Hs) as [_ Hr].
  by apply (Hr h Hl).
Qed.

(** What [get] answers: a guard on the mapped frame, a token for a pending read, that the
    pool is busy, or that the file is not live. *)
Definition got (tks tks' : list PendingToken) gs gs' (M' : gmap PageId ReadFrameIdx) (V' : gmap N mread) (live : Prop) (r : N) (page : PageId) (res : Get + GetError) : Prop :=
  match res with
  | inl (Hit f) => live ∧ M' !! page = Some f ∧ gs' = (r, f, page) :: gs ∧ tks' = tks
  | inl x => live ∧ gs' = gs ∧ answered tks tks' V' page x
  | inr (StaleFile q) => (¬ live) ∧ q = page ∧ gs' = gs ∧ tks' = tks
  end.

(** What a call on the pool keeps of the product side. *)
Definition kept_files p p' : Prop := files (product p') = files (product p) ∧ vlen (readers p') = vlen (readers p).

Lemma observe_pool n Q M V tks G A leases gs p r page :
  pool_inv (1 + n) Q M V tks G A leases gs p → pg_granule_idx page ≤ U32_MAX → own_file (pg_file page) →
  ∃ c, observe (cache p) r page = Done c ∧ pool_inv n Q M V tks G A leases gs (set_cache p c).
Proof.
  intros Hp Hi Hown. pose proof Hp as [[H1 H2 H3 H4 H5 H6 H7 H8 H9] P2 P3 P4 P5].
  destruct (observe_cache _ _ _ _ _ _ _ _ _ r page H1 Hi Hown) as (c & -> & Hc & x & ->). eexists. split; [done|]. by eapply pool_set.
Qed.

Lemma reconcile_pool n Q M V tks G A leases gs p :
  pool_inv (1 + n) Q M V tks G A leases gs p →
  ∃ c, reconcile (cache p) = Done c ∧ pool_inv n Q M V tks G A leases gs (set_cache p c).
Proof.
  intros Hp. pose proof Hp as [[H1 H2 H3 H4 H5 H6 H7 H8 H9] P2 P3 P4 P5].
  destruct (reconcile_cache _ _ _ _ _ _ _ _ _ H1) as (c & -> & Hc & x & ->). eexists. split; [done|]. by eapply pool_set.
Qed.

Lemma get_locked_pool n Q M V tks G A leases gs p r page :
  pool_inv (32 * capacity + 8 + n) Q M V tks G A leases gs p → may_pin p r → own_file (pg_file page) →
  pg_granule_idx page ≤ U32_MAX → vlen tks < U32_MAX →
  ∃ p' res Q' M' V' tks' G' A' gs', get_locked identity g F reads p r page = Done (p', res) ∧
    pool_inv n Q' M' V' tks' G' A' leases gs' p' ∧ kept_files p p' ∧
    got tks tks' gs gs' M' V' (is_Some (Product.live_handle (product p) (pg_file page))) r page res.
Proof.
  intros Hp Hpin Hown Hidx Htks. pose proof Hp as [[H1 H2 H3 H4 H5 H6 H7 H8 H9] P2 P3 P4 P5]. unfold get_locked.
  rewrite (Product.file_is_live_ok _ _ _ _ _ H2 Hown). mred. case_bool_decide as Hlive; simpl negb.
  2: { mred. eexists _, _, Q, M, V, tks, G, A, gs. split; [done|]. split; [eapply pool_le; [done|lia]|done]. }
  destruct (ci_table _ _ _ _ _ _ _ _ _ H1) as (T1 & T2 & _). rewrite (PageTable.lookup_ok _ _ page T1 T2). mred.
  destruct (M !! page) as [f|] eqn:Hm.
  - pose proof (mapped_state _ _ _ _ _ _ _ _ _ _ _ H1 Hm) as Hst.
    destruct (is_resident_ok _ _ _ _ _ _ _ _ _ f H1) as (b & -> & Hb); [by eapply in_state_lt; [apply H1|]|]. mred. rewrite (proj2 Hb Hst).
    destruct (pin_pool _ _ _ _ _ _ _ _ _ _ r page Hp Hpin) as (p' & -> & Hp' & Hpr & _ & _ & Hlen & _). rewrite Hm in Hp' |- *. mred.
    eexists _, _, Q, M, V, tks, G, A, _. split; [done|]. split; [eapply pool_le; [exact Hp'|lia]|]. split; [|done].
    split; [by rewrite Hpr|done].
  - mred. replace (32 * capacity + 8 + n) with (1 + (32 * capacity + 6 + (1 + n))) in Hp by lia. unfold on_cache_.
    destruct (reconcile_pool _ _ _ _ _ _ _ _ _ _ Hp) as (c & -> & Hp1). mred.
    destruct (get_cold_pool _ _ _ _ _ _ _ _ _ _ page r Hp1 Hm) as (p2 & res & Q2 & M2 & V2 & tks2 & G2 & A2 & -> & Hp2 & Hk & Hans); try done.
    { by eapply live_registered. }
    { apply Hown. }
    mred. assert (kept_files p p2) as Hkf by (destruct Hk as [K1 K2 _]; split; [exact K1|by rewrite K2]). destruct res as [f|tk|]; [done| |].
    + destruct (observe_pool _ _ _ _ _ _ _ _ _ _ r page Hp2 Hidx Hown) as (c3 & -> & Hp3). mred.
      eexists _, _, Q2, M2, V2, tks2, G2, A2, gs. split; [done|]. split; [exact Hp3|done].
    + eexists _, _, Q2, M2, V2, tks2, G2, A2, gs. split; [done|]. split; [eapply pool_le; [exact Hp2|lia]|done].
Qed.

Lemma get_warm_pool n Q M V tks G A leases gs p r page :
  pool_inv n Q M V tks G A leases gs p → may_pin p r → own_file (pg_file page) →
  ∃ p' res gs', get_warm identity p r page = Done (p', res) ∧ pool_inv n Q M V tks G A leases gs' p' ∧ kept_files p p' ∧
    match res with
    | Some x => got tks tks gs gs' M V (is_Some (Product.live_handle (product p) (pg_file page))) r page x
    | None => gs' = gs ∧ p' = p ∧ M !! page = None
    end ∧ (∀ f, M !! page = Some f → is_Some (Product.live_handle (product p) (pg_file page)) → res = Some (inl (Hit f))).
Proof.
  intros Hp Hpin Hown. pose proof Hp as [[H1 H2 H3 H4 H5 H6 H7 H8 H9] P2 P3 P4 P5]. unfold get_warm.
  rewrite (proj2 (N.eqb_eq _ _) (proj1 Hown)). mred. destruct (ProductSafety.live_word_agrees _ _ _ _ _ H2 Hown) as (w & Hw & Hlive).
  rewrite (proj2 (vget_Done _ _ _) Hw). mred. destruct (Product.file_generation_is_live w (pg_file page)) eqn:E; simpl negb; mred.
  - destruct (pin_pool _ _ _ _ _ _ _ _ _ _ r page Hp Hpin) as (p' & -> & Hp' & Hpr & _ & _ & Hlen & Hsame). mred.
    eexists _, _, _. split; [done|]. split; [exact Hp'|]. split; [split; [by rewrite Hpr|done]|]. destruct (M !! page) as [f|] eqn:Hm.
    + split; [simpl; split_and!; try done; by apply Hlive|]. intros ? [= <-]. done.
    + split_and!; try done. by apply Hsame.
  - eexists _, _, gs. split; [done|]. split; [done|]. split; [done|]. simpl. split_and!; try done; intros; by rewrite <- Hlive in *.
Qed.

Lemma get_pool n Q M V tks G A leases gs p r page :
  pool_inv (32 * capacity + 8 + n) Q M V tks G A leases gs p → may_pin p r → own_file (pg_file page) →
  pg_granule_idx page ≤ U32_MAX → vlen tks < U32_MAX →
  ∃ p' res Q' M' V' tks' G' A' gs', get identity g F reads p r page = Done (p', res) ∧
    pool_inv n Q' M' V' tks' G' A' leases gs' p' ∧ kept_files p p' ∧
    got tks tks' gs gs' M' V' (is_Some (Product.live_handle (product p) (pg_file page))) r page res ∧
    (∀ f, M !! page = Some f → is_Some (Product.live_handle (product p) (pg_file page)) → res = inl (Hit f)).
Proof.
  intros Hp Hpin Hown Hidx Htks. unfold get. destruct (get_warm_pool _ _ _ _ _ _ _ _ _ _ r page Hp Hpin Hown) as (p1 & o & gs1 & -> & Hp1 & Hk1 & Ho & Hhit). mred.
  destruct o as [x|].
  - eexists _, _, Q, M, V, tks, G, A, gs1. split; [done|]. split; [eapply pool_le; [done|lia]|]. split_and!; try done. intros f Hf Hl. specialize (Hhit f Hf Hl). congruence.
  - destruct Ho as (-> & -> & Hm). destruct (get_locked_pool _ _ _ _ _ _ _ _ _ _ r page Hp Hpin Hown Hidx Htks) as (p' & res & Q' & M' & V' & tks' & G' & A' & gs' & H). exists p', res, Q', M', V', tks', G', A', gs'.
    destruct H as (? & ? & ? & ?). split_and!; try done. intros f Hf. congruence.
Qed.
(** ** Tokens *)

Lemma consume_pool n Q M V tks1 tk tks2 G A leases gs p :
  pool_inv n Q M V (tks1 ++ tk :: tks2) G A leases gs p →
  ∃ p' left, consume_token p tk = Done (p', left) ∧ pool_inv n Q M V (tks1 ++ tks2) G A leases gs p' ∧
    product p' = product p ∧ readers p' = readers p ∧
    Miss.waiters (miss_interests (cache p')) (MissSystem.tk_slot tk) (MissSystem.tk_generation tk) = Done (Some left).
Proof.
  intros Hp. pose proof Hp as [[H1 H2 H3 H4 H5 H6 H7 H8 H9] P2 P3 P4 P5]. unfold consume_token.
  destruct (release_cache _ _ _ _ _ _ _ _ _ _ _ H1) as (ints & left & -> & Hc & Hw). mred. eexists _, _. split; [done|]. split; [|done].
  destruct (pool_set n n Q M V V _ (tks1 ++ tks2) G G A leases gs p _ Hp Hc) as [[I1 I2 I3 I4 I5 I6 I7 I8 I9] J2 J3 J4 J5]; [done..|]. by constructor.
Qed.

Lemma clean_pool n Q M V tks G A leases gs p tk m :
  pool_inv n Q M V tks G A leases gs p → V !! MissSystem.tk_slot tk = Some m → m_outcome m ≠ Pending → m_generation m = MissSystem.tk_generation tk →
  ∃ p' V', clean_token p tk = Done p' ∧ pool_inv n Q M V' tks G A leases gs p' ∧ product p' = product p ∧ readers p' = readers p ∧
    same_pending V V' ∧ fades V V'.
Proof.
  intros Hp Hm Ho Hgen. pose proof Hp as [[H1 H2 H3 H4 H5 H6 H7 H8 H9] P2 P3 P4 P5]. unfold clean_token. rewrite <- Hgen.
  destruct (clean_cache _ _ _ _ _ _ _ _ _ _ m H1 Hm Ho) as (t & V' & -> & Hc & Hs & Hf). mred. eexists _, V'. split; [done|].
  split; [by eapply pool_set|done].
Qed.

(** What [ready] answers: the token back while its read is pending, a guard on the page the
    read has published, or the error it ended with. *)
Definition settled (tks1 tks2 tks' : list PendingToken) gs gs' (M : gmap PageId ReadFrameIdx) (V : gmap N mread) (r : N) (tk : PendingToken) (res : ReadyResult) : Prop :=
  ∃ m, V !! MissSystem.tk_slot tk = Some m ∧ m_page m = MissSystem.tk_page tk ∧ m_generation m = MissSystem.tk_generation tk ∧
  match res with
  | NotYet tk' => tk' = tk ∧ m_outcome m = Pending ∧ gs' = gs ∧ tks' = tks1 ++ tk :: tks2
  | Ready f => m_outcome m = Succeeded ∧ m_frame m = f ∧ M !! MissSystem.tk_page tk = Some f ∧
      gs' = (r, f, MissSystem.tk_page tk) :: gs ∧ tks' = tks1 ++ tks2
  | ReadyErr errno => m_outcome m = Miss.Failed errno ∧ gs' = gs ∧ tks' = tks1 ++ tks2
  end.

Lemma ready_pool n Q M V tks1 tks2 G A leases gs p r tk :
  pool_inv n Q M V (tks1 ++ tk :: tks2) G A leases gs p → may_pin p r →
  ∃ p' res V' tks' gs', ready p r tk = Done (p', res) ∧ pool_inv n Q M V' tks' G A leases gs' p' ∧ kept_files p p' ∧
    settled tks1 tks2 tks' gs gs' M V r tk res ∧ same_pending V V' ∧ fades V V'.
Proof.
  intros Hp Hpin. assert (tk ∈ tks1 ++ tk :: tks2) as Htk by set_solver. pose proof Hp as [[H1 H2 H3 H4 H5 H6 H7 H8 H9] P2 P3 P4 P5]. unfold ready.
  destruct (ci_miss _ _ _ _ _ _ _ _ _ H1) as [Hr Hsh]. destruct (validate_map _ _ _ _ _ Hr Htk) as (e & -> & He & Hpg & Hgen). mred.
  assert (m_outcome (core e) = Miss.me_outcome e ∧ m_page (core e) = MissSystem.tk_page tk ∧ m_generation (core e) = MissSystem.tk_generation tk ∧ m_frame (core e) = Miss.me_frame e) as (Hoc & Hpg' & Hgen' & Hfr) by done.
  destruct (Miss.me_outcome e) as [|errno|] eqn:Ho.
  - eexists _, _, V, _, gs. split; [done|]. split; [exact Hp|]. split; [done|]. split; [|split; [done|apply fades_refl]].
    exists (core e). done.
  - destruct (consume_pool _ _ _ _ _ _ _ _ _ _ _ _ Hp) as (p2 & left & -> & Hp2 & Hpr2 & Hrd2 & Hw). mred. rewrite Hw. mred.
    rewrite bool_decide_eq_true_2 by done. mred.
    destruct (clean_pool _ _ _ _ _ _ _ _ _ _ tk (core e) Hp2 He) as (p3 & V3 & -> & Hp3 & Hpr3 & Hrd3 & Hs & Hf); [by rewrite Hoc|done|]. mred.
    eexists _, _, V3, _, _. split; [done|]. split; [exact Hp3|]. split; [split; congruence|]. split; [|done].
    exists (core e). done.
  - pose proof (ci_succeeded _ _ _ _ _ _ _ _ _ H1 _ _ He Hoc) as Hm. rewrite Hpg', Hfr in Hm.
    destruct (ci_table _ _ _ _ _ _ _ _ _ H1) as (T1 & T2 & _). rewrite (PageTable.lookup_ok _ _ _ T1 T2), Hpg, Hm. mred. rewrite bool_decide_eq_true_2 by done. mred.
    destruct (pin_pool _ _ _ _ _ _ _ _ _ _ r (MissSystem.tk_page tk) Hp Hpin) as (p1 & -> & Hp1 & Hpr & _ & _ & Hlen & _). rewrite Hm in Hp1 |- *. mred.
    destruct (consume_pool _ _ _ _ _ _ _ _ _ _ _ _ Hp1) as (p2 & left & -> & Hp2 & Hpr2 & Hrd2 & _). mred.
    destruct (clean_pool _ _ _ _ _ _ _ _ _ _ tk (core e) Hp2 He) as (p3 & V3 & -> & Hp3 & Hpr3 & Hrd3 & Hs & Hf); [by rewrite Hoc|done|]. mred.
    eexists _, _, V3, _, _. split; [done|]. split; [exact Hp3|]. split; [split; congruence|]. split; [|done].
    exists (core e). done.
Qed.
(** ** Reader contexts *)

Lemma register_from_ok rs k rs' i :
  Epoch.register_from rs k = Some (rs', i) →
  ∃ j s, i = k + N.of_nat j ∧ rs !! j = Some s ∧ Epoch.occupied s = false ∧ rs' = <[j := Epoch.set_occupied s true]> rs.
Proof.
  revert k rs' i. induction rs as [|s rs IH]; intros k rs' i; simpl; [done|]. unfold Epoch.try_occupy. destruct (Epoch.occupied s) eqn:E.
  - destruct (Epoch.register_from rs (k + 1)) as [[rest j]|] eqn:Er; [|done]. intros [= <- <-].
    destruct (IH _ _ _ Er) as (j' & s' & -> & Hj & Ho & ->). exists (S j'), s'. split_and!; [lia|done..].
  - intros [= <- <-]. exists 0%nat, s. split_and!; [lia|done..].
Qed.

(** A slot whose epoch and guards stay. *)
Lemma slot_pool n Q M V tks G A leases gs p r s s' :
  pool_inv n Q M V tks G A leases gs p → readers p !! N.to_nat r = Some s →
  Epoch.local_epoch s' = Epoch.local_epoch s → Epoch.guard_count s' = Epoch.guard_count s → Epoch.index s' = Epoch.index s →
  pool_inv n Q M V tks G A leases gs (set_readers p (<[N.to_nat r := s']> (readers p))).
Proof.
  intros Hp Hs Hl Hc Hi. pose proof Hp as [[H1 H2 H3 H4 H5 H6 H7 H8 H9] P2 P3 P4 P5]. eapply pool_readers; [exact Hp| |].
  - eapply (readers_store _ _ gs); try done; rewrite ?Hc, ?Hl; [by apply P3|by apply P3|by eapply (ro_idle _ _ _ P3)|by eapply (ro_busy _ _ _ P3)].
  - rewrite (watch_store _ _ r s) by (done || by left). apply H1.
Qed.

Lemma register_pool n Q M V tks G A leases gs p :
  pool_inv (1 + n) Q M V tks G A leases gs p →
  ∃ p' o, register_reader p = Done (p', o) ∧ pool_inv n Q M V tks G A leases gs p' ∧ product p' = product p ∧
    match o with
    | None => p' = p
    | Some r => ∃ s, readers p !! N.to_nat r = Some s ∧ Epoch.occupied s = false ∧ readers p' = <[N.to_nat r := Epoch.set_occupied s true]> (readers p)
    end.
Proof.
  intros Hp. unfold register_reader. destruct (Epoch.register (readers p)) as [[rs i]|] eqn:E.
  2: { eexists _, _. split; [done|]. split; [eapply pool_le; [done|lia]|done]. }
  destruct (register_from_ok _ _ _ _ E) as (j & s & -> & Hj & Ho & ->). rewrite N.add_0_l.
  pose proof Hp as [[H1 H2 H3 H4 H5 H6 H7 H8 H9] P2 P3 P4 P5].
  destruct (reset_reader_good n F _ _ (N.of_nat j) (ci_ledger _ _ _ _ _ _ _ _ _ H1)) as (l & -> & Hg' & Hcalm). mred.
  eexists _, _. split; [done|]. split; [|split; [done|]; exists s; by rewrite Nat2N.id].
  assert (pool_inv n Q M V tks G A leases gs (set_cache p (set_ledger (cache p) (l, clock (cache p))))) as Hp1.
  { eapply pool_set; [exact Hp|by eapply (cinv_ledger (1 + n)); [exact H1|lia|..]|done..]. }
  pose proof (slot_pool _ _ _ _ _ _ _ _ _ _ (N.of_nat j) s (Epoch.set_occupied s true) Hp1) as Hp2. rewrite Nat2N.id in Hp2.
  specialize (Hp2 Hj eq_refl eq_refl eq_refl). by destruct p as [[] ? ? ? ? ? ?].
Qed.

Lemma drop_reader_pool n Q M V tks G A leases gs p r s :
  pool_inv n Q M V tks G A leases gs p → readers p !! N.to_nat r = Some s → Epoch.occupied s = true → guards_of r gs = [] →
  ∃ p', drop_reader p r = Done p' ∧ pool_inv n Q M V tks G A leases gs p' ∧ product p' = product p ∧ vlen (readers p') = vlen (readers p).
Proof.
  intros Hp Hs Ho Hno. pose proof Hp as [[H1 H2 H3 H4 H5 H6 H7 H8 H9] P2 P3 P4 P5]. unfold drop_reader. rewrite (proj2 (vget_Done _ _ _) Hs). mred.
  unfold Epoch.vacate. rewrite Ho. mred. assert (Epoch.guard_count s = 0) as Hc by by rewrite (ro_count _ _ _ P3 r s Hs), Hno. rewrite (proj2 (N.eqb_eq _ _) Hc). mred.
  rewrite vset_ok by eauto using vget_lt. mred. eexists. split; [done|]. split; [|split; [done|simpl; by rewrite vlen_insert]].
  eapply slot_pool; [exact Hp|exact Hs| |by rewrite Hc|done]. symmetry. by apply (ro_idle _ _ _ P3 r s Hs).
Qed.
End demand.
End PoolDemand.
