(* ===== verification/PoolRetire.v ===== *)
(** * Files, product operations and leases in the pool

    Retirement over the invariant of the pool: every frame of a retiring file is evicted,
    and the file is closed once no read, mapped frame, lease or product operation of it is
    left.  Opening a file, the product operations and the leases change the product side of
    the pool alone. *)
From stdpp Require Import prelude gmap list.
From Stdlib Require Import NArith ZArith Lia.
From S2P Require Import Prelude Ids Frames FrameCensus Epoch FileSlots Miss MissMap Execute ReadSpans Driver PoolBackend Product PoolCache PoolInv PoolControl PoolReads PoolRoute PoolReclaim PoolDemand.

Open Scope N_scope.

Module PoolRetire.
Import Frames FrameCensus MissMap Execute Driver PoolBackend.PoolBackend PoolCache PoolInv PoolControl PoolReads PoolRoute PoolReclaim PoolDemand.

Lemma registered_close fs index e file f :
  fs !! N.to_nat index = Some (Some e) → Product.pf_id e = file → f ≠ file →
  registered fs f → registered (<[N.to_nat index := Some (Product.mkPoolFile file None Product.Retired)]> fs) f.
Proof.
  intros Hi He Hne (e0 & h0 & H1 & H2 & H3). exists e0, h0. split_and!; try done. rewrite list_lookup_insert_ne; [done|].
  intros Heq. rewrite <- Heq, Hi in H1. congruence.
Qed.

Section retire.
Context {B R : Type} `{!PoolBackend B} `{!Retainer R} {identity g F capacity fcap : N}.
Context `{!BackendLaws B identity g F capacity fcap} `{!RetainerLaws R F fcap}.
Context {a reads slots : N}.
Context (Hg : 0 < g) (Hgmax : g ≤ U32_MAX) (Hreads : reads ≤ U32_MAX).
Implicit Types (p : Pool B R) (V : gmap N mread) (Q : gmap OpToken flight) (A : Routes).
#[local] Abbreviation pool_inv := (pool_inv (identity := identity) (g := g) (F := F) (capacity := capacity) (fcap := fcap) (a := a) (reads := reads) (slots := slots)).
#[local] Abbreviation own_file := (Product.own_file (identity := identity) (file_capacity := fcap)).
#[local] Abbreviation pinv := (Product.pinv (identity := identity) (frame_bytes := g) (file_capacity := fcap)).
#[local] Abbreviation qinv := (qinv (B := B) (g := g) (a := a)).

(** ** The product side changes *)

Lemma pool_product n Q M V tks G A leases leases' gs p q :
  pool_inv n Q M V tks G A leases gs p → pinv q [] [] leases' → qinv Q V (files q) (Product.driver q) [] A →
  (∀ pg f, M !! pg = Some f → registered (files q) (pg_file pg)) → pool_inv n Q M V tks G A leases' gs (set_product p q).
Proof.
  intros [[H1 H2 H3 H4 H5 H6 H7 H8 H9] P2 P3 P4 P5] Hq Hr Hm. constructor; try done. rewrite P2, app_nil_r in *.
  constructor; simpl; rewrite ?P2; simpl; try done. intros x Hx. by apply elem_of_nil in Hx.
Qed.

(** The driver takes on product operations, and no file is closed. *)
Lemma pool_additions n Q M V tks G A leases leases' gs p q :
  pool_inv n Q M V tks G A leases gs p → pinv q [] [] leases' → Product.additions (PoolControl.driver p) (Product.driver q) →
  (∀ f, registered (files (product p)) f → registered (files q) f) → pool_inv n Q M V tks G A leases' gs (set_product p q).
Proof.
  intros Hp Hq Ha Hr. pose proof Hp as [[H1 H2 H3 H4 H5 H6 H7 H8 H9] P2 P3 P4 P5]. rewrite P2, app_nil_r in *. eapply pool_product; try done.
  - eapply q_files; [eapply q_additions; [exact H3|apply H2|done|done]|]. intros i m _ _. apply Hr.
  - intros pg f Hf. by eapply Hr, P5.
Qed.

Lemma pool_empty_batch n Q M V tks G A leases gs p : pool_inv n Q M V tks G A leases gs p → pinv (product p) [] [] leases.
Proof. intros [[H1 H2 H3 H4 H5 H6 H7 H8 H9] P2 P3 P4 P5]. by rewrite P2 in H2. Qed.

(** ** Closing a retired file *)

Lemma no_lease_left p leases index s :
  pinv (product p) [] [] leases → Product.resident_lease_states (product p) !! N.to_nat index = Some s → Product.ls_count s ≤ 0 →
  ∀ f, f ∈ leases → fid_slot f ≠ index.
Proof.
  intros Hp Hs Hz f Hf Hslot. destruct (Product.li_count _ _ _ (Product.pi_leases _ _ _ _ Hp) index s Hs) as [Hcount _].
  assert (f ∈ filter (λ file, fid_slot file = index) leases) as Hin by by apply list_elem_of_filter.
  destruct (filter (λ file, fid_slot file = index) leases); [by apply elem_of_nil in Hin|]. simpl in Hcount. lia.
Qed.

Lemma close_pool n Q M V tks G A leases gs p index e s :
  pool_inv n Q M V tks G A leases gs p → files (product p) !! N.to_nat index = Some (Some e) → Product.pf_state e = Product.Retiring →
  Product.resident_lease_states (product p) !! N.to_nat index = Some s → Product.ls_count s ≤ 0 →
  (∀ i m, V !! i = Some m → m_outcome m = Pending → pg_file (m_page m) ≠ Product.pf_id e) →
  (∀ pg f, M !! pg = Some f → pg_file pg ≠ Product.pf_id e) → Product.product_live (Product.product_ops (product p)) (Product.pf_id e) = false →
  ∃ q, Product.retire_close (product p) index (Product.pf_id e) = Done q ∧ pool_inv n Q M V tks G A leases gs (set_product p q) ∧
    files q = <[N.to_nat index := Some (Product.mkPoolFile (Product.pf_id e) None Product.Retired)]> (files (product p)).
Proof.
  intros Hp Hi He Hs Hz Hmiss Hmap Hops. pose proof (pool_empty_batch _ _ _ _ _ _ _ _ _ _ Hp) as Hpi.
  pose proof Hp as [[H1 H2 H3 H4 H5 H6 H7 H8 H9] P2 P3 P4 P5]. rewrite P2, app_nil_r in *.
  destruct (Product.retire_close_ok (product p) [] [] leases index e (Product.pf_id e)) as (q & He' & Hq & _ & _ & _ & Hfl & _ & Hfs); try done.
  { by eapply q_quiet. }
  { by eapply no_lease_left. }
  exists q. split_and!; try done. eapply pool_product; try done.
  - eapply q_files; [by eapply q_driver|]. intros i m Hm Hpn Hr. rewrite Hfs. eapply registered_close; try done. by eapply Hmiss.
  - intros pg f Hf. rewrite Hfs. eapply registered_close; try done; [by eapply Hmap|by eapply P5].
Qed.
(** ** The retirement pass *)

(** What a retirement pass does to the files: the live ones stay. *)
Definition retires p p' : Prop :=
  vlen (files (product p')) = vlen (files (product p)) ∧ readers p' = readers p ∧
  ∀ file, Product.live_handle (product p') file = Product.live_handle (product p) file.

Lemma retires_trans p p1 p2 : retires p p1 → retires p1 p2 → retires p p2.
Proof. intros (A1 & A2 & A3) (B1 & B2 & B3). split_and!; [congruence..|]. intros file. by rewrite B3. Qed.

Lemma retired_handle (q q' : Product B) index e file :
  files q !! N.to_nat index = Some (Some e) → Product.pf_state e = Product.Retiring →
  files q' = <[N.to_nat index := Some (Product.mkPoolFile (Product.pf_id e) None Product.Retired)]> (files q) →
  Product.live_handle q' file = Product.live_handle q file.
Proof.
  intros Hi He Hfs. unfold Product.live_handle. rewrite Hfs.
  destruct (decide (N.to_nat index = N.to_nat (fid_slot file))) as [Heq|Hne]; [|by rewrite list_lookup_insert_ne].
  rewrite <- Heq, list_lookup_insert_eq, Hi, He by (by apply lookup_lt_Some in Hi). simpl. by rewrite !andb_false_r.
Qed.

Lemma progress_from_pool n Q tks G A leases gs k : ∀ M V p index,
  (N.to_nat index + k = length (files (product p)))%nat → pool_inv (N.of_nat k * F + n) Q M V tks G A leases gs p →
  ∃ p' M' V', progress_from k p index = Done p' ∧ pool_inv n Q M' V' tks G A leases gs p' ∧ retires p p' ∧ settles V M V' M'.
Proof.
  induction k as [|k IH]; intros M V p index Hk Hp; cbn [progress_from]; [eexists _, M, V; split; [done|]; split; [eapply pool_le; [done|lia]|split; [done|apply settles_refl]]|].
  destruct (lookup_lt_is_Some_2 (files (product p)) (N.to_nat index)) as [o Ho]; [lia|]. rewrite (proj2 (vget_Done _ _ _) Ho). mred.
  replace (N.of_nat (S k) * F + n) with (F + (N.of_nat k * F + n)) in Hp by lia.
  assert (∀ p1 M1 V1, pool_inv (N.of_nat k * F + n) Q M1 V1 tks G A leases gs p1 → retires p p1 → settles V M V1 M1 →
    ∃ p' M' V', progress_from k p1 (index + 1) = Done p' ∧ pool_inv n Q M' V' tks G A leases gs p' ∧ retires p p' ∧ settles V M V' M') as Hnext.
  { intros p1 M1 V1 Hp1 Hr1 Hs1. destruct (IH M1 V1 p1 (index + 1)) as (p' & M' & V' & He & Hp' & Hr' & Hs'); [|done|].
    { destruct Hr1 as [Hl _]. unfold vlen in Hl. lia. }
    exists p', M', V'. split_and!; try done; [by eapply retires_trans|by eapply settles_trans]. }
  assert (pool_inv (N.of_nat k * F + n) Q M V tks G A leases gs p) as Hsame by (eapply pool_le; [exact Hp|lia]).
  destruct o as [e|]; [|mred; by apply (Hnext p M V Hsame); [|apply settles_refl]].
  case_bool_decide as Hst; [|mred; by apply (Hnext p M V Hsame); [|apply settles_refl]].
  pose proof (pool_empty_batch _ _ _ _ _ _ _ _ _ _ Hp) as Hpi.
  destruct (vget_ok (Product.resident_lease_states (product p)) index) as (s & -> & Hs).
  { rewrite (Product.li_len _ _ _ (Product.pi_leases _ _ _ _ Hpi)), <- (Product.fi_len _ _ _ _ (Product.pi_files _ _ _ _ Hpi)). eauto using vget_lt. }
  mred. destruct (N.ltb_spec 0 (Product.ls_count s)) as [|Hz]; [mred; by apply (Hnext p M V Hsame); [|apply settles_refl]|].
  destruct (Product.fi_file _ _ _ _ (Product.pi_files _ _ _ _ Hpi) index e Ho) as (Hslot & Hdr & _).
  assert (fid_slot (Product.pf_id e) < fcap) as Hlt by (rewrite Hslot, <- (Product.fi_len _ _ _ _ (Product.pi_files _ _ _ _ Hpi)); eauto using vget_lt).
  pose proof Hp as [[H1 H2 H3 H4 H5 H6 H7 H8 H9] P2 P3 P4 P5].
  destruct (retire_file_frames_cache _ _ _ _ _ _ _ _ _ (Product.pf_id e) H1 Hlt) as (c & M1 & V1 & -> & Hps). mred.
  pose proof (set_cache_pool _ _ _ _ _ _ _ _ _ _ _ _ _ _ _ Hp Hps) as Hp1. pose proof Hps as [Hc1 _ Hs1 _].
  destruct (ci_miss _ _ _ _ _ _ _ _ _ Hc1) as [Hr Hsh]. unfold miss_live.
  destruct (has_live_map _ _ _ _ _ _ _ (Product.pf_id e) Hr Hsh Hlt) as (bm & -> & Hbm). mred.
  destruct (frames_live_cache _ _ _ _ _ _ _ _ _ (Product.pf_id e) Hc1 Hlt) as (bf & -> & Hbf). mred.
  assert (retires p (set_cache p c)) as Hr1 by done.
  destruct bm; [mred; by apply (Hnext _ M1 V1)|]. destruct bf; [mred; by apply (Hnext _ M1 V1)|]. simpl product.
  destruct (Product.product_live (Product.product_ops (product p)) (Product.pf_id e)) eqn:Hops; [mred; by apply (Hnext _ M1 V1)|]. simpl negb. mred. simpl andb.
  destruct (close_pool _ _ _ _ _ _ _ _ _ _ index e s Hp1 Ho Hst Hs Hz) as (q & Hclose & Hq & Hfs); [|by apply Hbf|done|].
  { intros i m Hm Hpn Hfile. by apply (proj1 (Hbm eq_refl i m Hm Hfile)). }
  change (Product.retire_close (product (set_cache p c)) index (Product.pf_id e)) with (Product.retire_close (product p) index (Product.pf_id e)) in Hclose.
  rewrite Hclose. mred. apply (Hnext _ M1 V1 Hq); [|done]. split_and!; [simpl; by rewrite Hfs, vlen_insert|done|].
  intros file. by eapply retired_handle.
Qed.
Lemma progress_pool n Q M V tks G A leases gs p :
  pool_inv (fcap * F + n) Q M V tks G A leases gs p →
  ∃ p' M' V', progress_retirements p = Done p' ∧ pool_inv n Q M' V' tks G A leases gs p' ∧ retires p p' ∧ settles V M V' M'.
Proof.
  intros Hp. apply progress_from_pool; [done|]. pose proof (Product.fi_len _ _ _ _ (Product.pi_files _ _ _ _ (pool_empty_batch _ _ _ _ _ _ _ _ _ _ Hp))) as Hl.
  unfold vlen in Hl. by rewrite Hl.
Qed.

Lemma pool_retention n Q M V tks G A leases gs p r :
  pool_inv n Q M V tks G A leases gs p → retains r → held r = held (retention p) → pool_inv n Q M V tks G A leases gs (set_retention p r).
Proof. intros [[H1 H2 H3 H4 H5 H6 H7 H8 H9] P2 P3 P4 P5] Hr Hh. constructor; try done. constructor; simpl; try done. by rewrite Hh. Qed.

(** A file that is not live afterwards; when the call answers that the file is retired, it
    has no entry with a handle any more. *)
Lemma retire_file_pool n Q M V tks G A leases gs p file :
  pool_inv (fcap * F + n) Q M V tks G A leases gs p → own_file file →
  ∃ p' st M' V', retire_file identity p file = Done (p', st) ∧ pool_inv n Q M' V' tks G A leases gs p' ∧ readers p' = readers p ∧
    Product.live_handle (product p') file = None ∧ (st = StatusRetired → ¬ registered (files (product p')) file).
Proof.
  intros Hp Hown. pose proof (pool_empty_batch _ _ _ _ _ _ _ _ _ _ Hp) as Hpi. pose proof (Product.pi_files _ _ _ _ Hpi) as Hf.
  pose proof (Product.fi_len _ _ _ _ Hf) as Hlen. destruct Hown as [Hd Hs].
  assert (pool_inv n Q M V tks G A leases gs p) as Hsame by (eapply pool_le; [exact Hp|lia]).
  unfold retire_file. rewrite (proj2 (N.eqb_eq _ _) Hd). mred.
  destruct (vget_ok (files (product p)) (fid_slot file)) as (o & -> & Ho); [by rewrite Hlen|]. mred.
  destruct o as [e|].
  2: { eexists _, _, M, V. split; [done|]. split; [done|]. split; [done|]. unfold Product.live_handle, registered. rewrite Ho. split; [done|]. intros _ (? & ? & ? & _). done. }
  destruct (decide (Product.pf_id e = file)) as [He|He].
  2: { rewrite (bool_decide_eq_false_2 (Product.pf_id e = file)) by done. simpl negb. mred. eexists _, _, M, V. split; [done|]. split; [done|]. split; [done|]. unfold Product.live_handle, registered. rewrite Ho.
    rewrite bool_decide_eq_false_2 by done. split; [done|]. intros _ (? & ? & [= <-] & ? & _). done. }
  rewrite (bool_decide_eq_true_2 (Product.pf_id e = file)) by done. simpl negb. mred.
  destruct (decide (Product.pf_state e = Product.Retired)) as [Hr|Hr].
  { rewrite (bool_decide_eq_true_2 _ Hr). mred. eexists _, _, M, V. split; [done|]. split; [done|]. split; [done|]. unfold Product.live_handle, registered. rewrite Ho, Hr. simpl.
    rewrite andb_false_r. split; [done|]. intros _ (? & h & [= <-] & _ & Hh). destruct (Product.fi_file _ _ _ _ Hf _ _ Ho) as (_ & _ & _ & Hx). rewrite Hh in Hx. naive_solver. }
  rewrite (bool_decide_eq_false_2 _ Hr). mred. pose proof (pl_retains _ _ _ _ _ _ _ _ _ _ Hp) as Hret.
  destruct (law_mark _ (fid_slot file) Hret Hs) as (r & -> & Hr1 & Hh1). mred.
  destruct (Product.retire_begin_ok (product p) [] [] leases file Hpi (conj Hd Hs)) as (q & started & -> & Hq & _ & _ & Hdr & Hnl & Hreg). mred.
  assert (pool_inv (fcap * F + n) Q M V tks G A leases gs (set_product (set_retention p r) q)) as Hp1.
  { eapply pool_additions; [by apply pool_retention|exact Hq|apply Product.additions_same; unfold PoolControl.driver; simpl; by rewrite Hdr|]. intros f Hf0. by apply Hreg. }
  destruct (progress_pool _ _ _ _ _ _ _ _ _ _ Hp1) as (p' & M' & V' & -> & Hp' & (Hl' & Hrd' & Hlive') & _). mred.
  assert (Product.live_handle (product p') file = None) as Hnone by by rewrite Hlive'.
  case_bool_decide as Hst; [eexists _, _, M', V'; split; [done|]; done|].
  pose proof (pool_empty_batch _ _ _ _ _ _ _ _ _ _ Hp') as Hpi'. pose proof (Product.pi_files _ _ _ _ Hpi') as Hf'.
  destruct (vget_ok (files (product p')) (fid_slot file)) as (o' & -> & Ho'); [by rewrite (Product.fi_len _ _ _ _ Hf')|]. mred.
  eexists _, _, M', V'. split; [done|]. split; [done|]. split; [done|]. split; [done|]. destruct o' as [e'|]; [|done].
  case_bool_decide as Hre; [|done]. intros _ (e0 & h & Hx & _ & Hh). rewrite Ho' in Hx. injection Hx as <-.
  destruct (Product.fi_file _ _ _ _ Hf' _ _ Ho') as (_ & _ & _ & Hx). rewrite Hh in Hx. naive_solver.
Qed.

(** ** Opening files *)

Lemma open_pool n Q M V tks G A leases gs p :
  pool_inv n Q M V tks G A leases gs p →
  ∃ p' o, open identity p = Done (p', o) ∧ pool_inv n Q M V tks G A leases gs p' ∧ readers p' = readers p ∧
    (∀ file, o = Some file → is_Some (Product.live_handle (product p') file) ∧ own_file file).
Proof.
  intros Hp. pose proof (pool_empty_batch _ _ _ _ _ _ _ _ _ _ Hp) as Hpi. unfold open.
  destruct (Product.open_file_ok (product p) [] [] leases Hpi) as (b & o & He & Hb).
  destruct (law_open (PoolControl.driver p) (Product.pi_sound _ _ _ _ Hpi)) as (b' & o' & He' & Hsb & Hmint & Hfl & Hlive).
  unfold PoolControl.driver in *. rewrite He in He'. injection He' as <- <-. rewrite He. mred.
  pose proof Hp as [[H1 H2 H3 H4 H5 H6 H7 H8 H9] P2 P3 P4 P5]. rewrite P2, app_nil_r in H3. destruct o as [h|].
  - destruct Hlive as (_ & _ & Hd & Hs & _). simpl in Hb.
    destruct (law_clear _ (fid_slot (fh_id h)) P4 Hs) as (r & Hcl & Hr & Hhe). change (retention (PoolControl.set_driver p b)) with (retention p). rewrite Hcl. mred.
    destruct (Product.register_ok _ [h] [] [] leases h Hb) as (q & Hreg & Hq & _ & _ & Hdr & Hlh & Hgrow); [done|].
    change (product (PoolControl.set_driver p b)) with (Product.set_driver (product p) b). rewrite Hreg. mred.
    eexists _, _. split; [done|]. split; [|split; [done|intros file [= <-]; simpl; split; [by rewrite Hlh|done]]].
    change (set_retention (PoolControl.set_driver p b) r) with (PoolControl.set_driver (set_retention p r) b).
    apply (pool_product _ _ _ _ _ _ _ leases leases _ (set_retention p r)); [by apply pool_retention|done| |].
    + eapply q_files; [eapply q_driver; [exact H3|by rewrite Hdr]|]. intros i m _ _. apply Hgrow.
    + intros pg f Hf. by eapply Hgrow, P5.
  - mred. eexists _, _. split; [done|]. split; [|done]. by eapply pool_driver.
Qed.

(** ** Product operations and leases *)

Lemma write_pool n Q M V tks G A leases gs p file slot offset :
  pool_inv n Q M V tks G A leases gs p → Product.roomy (product p) → own_file file → ws_len (Product.pw_slot slot) ≤ U32_MAX →
  (∀ h, Product.live_handle (product p) file = Some h → mode_accepts (fh_mode h) offset) →
  ∃ q r, Product.submit_write identity (product p) file slot offset = Done (q, r) ∧ pool_inv n Q M V tks G A leases gs (set_product p q) ∧
    files q = files (product p).
Proof.
  intros Hp Hroom Hown Hlen Hm. pose proof (pool_empty_batch _ _ _ _ _ _ _ _ _ _ Hp) as Hpi.
  destruct (Product.submit_write_ok (product p) [] [] leases file slot offset) as (q & r & He & Hq & Hfs & Ha & _); try done.
  exists q, r. split_and!; try done. eapply pool_additions; try done. by rewrite Hfs.
Qed.

Lemma fsync_pool n Q M V tks G A leases gs p file mode :
  pool_inv n Q M V tks G A leases gs p → Product.roomy (product p) → own_file file →
  ∃ q r, Product.submit_fsync identity (product p) file mode = Done (q, r) ∧ pool_inv n Q M V tks G A leases gs (set_product p q) ∧
    files q = files (product p).
Proof.
  intros Hp Hroom Hown. pose proof (pool_empty_batch _ _ _ _ _ _ _ _ _ _ Hp) as Hpi.
  destruct (Product.submit_fsync_ok (product p) [] [] leases file mode) as (q & r & He & Hq & Hfs & Ha & _); try done.
  exists q, r. split_and!; try done. eapply pool_additions; try done. by rewrite Hfs.
Qed.

(** A call on the product side that leaves the driver and the files alone. *)
Lemma pool_quiet n Q M V tks G A leases leases' gs p q :
  pool_inv n Q M V tks G A leases gs p → pinv q [] [] leases' → Product.driver q = Product.driver (product p) → files q = files (product p) →
  pool_inv n Q M V tks G A leases' gs (set_product p q).
Proof. intros Hp Hq Hd Hf. eapply pool_additions; try done; [|by rewrite Hf]. apply Product.additions_same; by rewrite Hd. Qed.

Lemma deliver_pool n Q M V tks G A leases gs p out :
  pool_inv n Q M V tks G A leases gs p → vlen (Product.items out) ≤ Product.logical_capacity out →
  ∃ q out', Product.deliver_product_completions (product p) out = Done (q, out') ∧ pool_inv n Q M V tks G A leases gs (set_product p q) ∧
    files q = files (product p) ∧ vlen (Product.items out') ≤ Product.logical_capacity out.
Proof.
  intros Hp Hout. pose proof (pool_empty_batch _ _ _ _ _ _ _ _ _ _ Hp) as Hpi.
  destruct (Product.deliver_ok (product p) [] [] leases out Hpi Hout) as (q & cs & He & Hq & _ & Hle & Hfs & _).
  eexists q, _. split_and!; [done| |done|done]. eapply pool_quiet; try done.
  unfold Product.deliver_product_completions in He. destruct (Product.deliver_from _ _) as [[ops o]|]; [|done]. simpl in He. by injection He as <- _.
Qed.

(** [acquire_resident_lease] under the control lock, and the drop of a lease. *)
Lemma lease_pool n Q M V tks G A leases gs p file k :
  pool_inv n Q M V tks G A leases gs p → own_file file → Product.lease_begin identity (product p) file = Done (inl k) →
  ∃ q, Product.lease_finish (product p) file k = Done q ∧ pool_inv n Q M V tks G A (file :: leases) gs (set_product p q) ∧ files q = files (product p).
Proof.
  intros Hp Hown Hb. pose proof (pool_empty_batch _ _ _ _ _ _ _ _ _ _ Hp) as Hpi.
  destruct (Product.lease_begin_ok _ _ _ _ _ Hpi Hown) as (r & He & Hr). rewrite Hb in He. injection He as <-.
  destruct (Hr k eq_refl) as (Hlive & Hk & Hcount).
  destruct (Product.lease_finish_ok (product p) [] [] leases file k Hpi Hown) as (q & Hq & Hpq & _ & _ & Hd & Hfs); [by eapply live_registered|done|lia|].
  exists q. split_and!; try done. by eapply pool_quiet.
Qed.

Lemma drop_lease_pool n Q M V tks G A leases leases' gs p file :
  pool_inv n Q M V tks G A leases gs p → leases ≡ₚ file :: leases' →
  ∃ q, Product.lease_drop (product p) file = Done q ∧ pool_inv n Q M V tks G A leases' gs (set_product p q) ∧ files q = files (product p).
Proof.
  intros Hp Hl. pose proof (pool_empty_batch _ _ _ _ _ _ _ _ _ _ Hp) as Hpi.
  destruct (Product.lease_drop_ok (product p) [] [] leases leases' file Hpi Hl) as (q & Hq & Hpq & _ & _ & Hd & Hfs).
  exists q. split_and!; try done. by eapply pool_quiet.
Qed.
End retire.
End PoolRetire.
