(* ===== verification/PoolPrefetch.v ===== *)
(** * Speculative reads

    The admission of speculative reads of src/src/pool/prefetch.rs over the composed pool
    ([PoolControl]): a run of pages becomes one point read or one vectored read, with a
    miss, a frame of the reserve and a ledger entry per page; explicit hints examine a
    bounded window of pages; the prediction pass of a poll drops obsolete predictions,
    tops up the reserve and extends the streams that are ready; and the polling passes of
    src/src/pool/mod.rs that end with it.  The benchmarks' observations and the wake-ups
    are left out. *)
From stdpp Require Import prelude gmap list.
From Stdlib Require Import NArith ZArith Lia.
From S2P Require Import Prelude Ids Table Frames Clock Epoch FileSlots Miss Pattern IndexQueue Execute ReadVector ReadSpans Driver PoolBackend Product Ledger PoolCache PoolControl.

Open Scope N_scope.

Module PoolPrefetch.
Import Frames Execute Driver PoolBackend.PoolBackend PoolCache PoolControl.
Abbreviation Source := Pattern.Source.
Abbreviation Explicit := Pattern.Explicit.
Abbreviation Automatic := Pattern.Automatic.

Inductive Admission :=
  | AdmResident
  | AdmPending
  | AdmAdmitted
  | AdmDeferred
  | AdmRejected
  | AdmObsolete.

Record PrefetchReport := mkReport {
  rp_requested : N;
  rp_resident : N;
  rp_pending : N;
  rp_admitted : N;
  rp_deferred : N;
  rp_rejected : N;
}.

(** [PrefetchReport::record]: hints have no incarnation that could be obsolete. *)
Definition record (r : PrefetchReport) (admission : Admission) (count : N) : outcome PrefetchReport :=
  let '(mkReport q a b c d e) := r in
  match admission with
  | AdmResident => n ← add_ U64_MAX a count; Done (mkReport q n b c d e)
  | AdmPending => n ← add_ U64_MAX b count; Done (mkReport q a n c d e)
  | AdmAdmitted => n ← add_ U64_MAX c count; Done (mkReport q a b n d e)
  | AdmDeferred => n ← add_ U64_MAX d count; Done (mkReport q a b c n e)
  | AdmRejected => n ← add_ U64_MAX e count; Done (mkReport q a b c d n)
  | AdmObsolete => Panic
  end.

(** The counters the ledger keeps, with the bounds and levels read off at the call. *)
Record PrefetchStats := mkPrefetchStats {
  ps_counters : Ledger.PrefetchStats;
  ps_capacity : N;
  ps_reserve_free : N;
  ps_reads_in_flight : N;
}.

(** Each page directly follows the one before it in the same file. *)
Fixpoint consecutive (pages : list PageId) : bool :=
  match pages with
  | first :: ((second :: _) as rest) => Pattern.follows first second && consecutive rest
  | _ => true
  end.

Section pool.
Context {B R : Type} `{!PoolBackend B} `{!Retainer R}.
Context (identity granule frame_count max_inflight_reads : N).
Implicit Types (p : Pool B R) (c : Cache).

Definition ledger c : Ledger.Prefetch := prefetch c.
Definition on_ledger c (r : outcome Ledger.Prefetch) : outcome Cache := l ← r; Done (set_prefetch c l).
Definition pool_ledger p (r : outcome Ledger.Prefetch) : outcome (Pool B R) := c ← on_ledger (cache p) r; Done (set_cache p c).

Definition count_refusal (l : Ledger.Prefetch) : outcome Ledger.Prefetch :=
  let s := Ledger.stats l in
  n ← add_ U64_MAX (Ledger.submission_refused s) 1;
  Done (Ledger.set_stats l (Ledger.mkStats (Ledger.admitted s) (Ledger.automatic_admitted s) (Ledger.demand_promoted s)
    (Ledger.evicted_unused s) (Ledger.failed s) (Ledger.deferred s) n (Ledger.occupied s))).

Definition count_deferred (l : Ledger.Prefetch) (k : N) : outcome Ledger.Prefetch :=
  let s := Ledger.stats l in
  n ← add_ U64_MAX (Ledger.deferred s) k;
  Done (Ledger.set_stats l (Ledger.mkStats (Ledger.admitted s) (Ledger.automatic_admitted s) (Ledger.demand_promoted s)
    (Ledger.evicted_unused s) (Ledger.failed s) n (Ledger.submission_refused s) (Ledger.occupied s))).

(** ** Classification *)

Definition prefetch_classify p (page : PageId) : outcome (option Admission) :=
  assertb (fid_driver (pg_file page) =? identity);;
  live ← Product.file_is_live identity (Product.files (product p)) (pg_file page);
  if negb live then Done (Some AdmRejected)
  else
    mapped ← PageTable.lookup (table (cache p)) page;
    match mapped with
    | Some _ => Done (Some AdmResident)
    | None =>
        o ← Miss.find_pending (miss (cache p)) page;
        Done (match o with Some _ => Some AdmPending | None => None end)
    end.

(** ** Admission of one page *)

Definition admit_ledger c (page : PageId) (frame : ReadFrameIdx) (source : Source) : outcome Cache :=
  x ← Ledger.admit_entry (prefetch c) (clock c) page frame source; Done (set_ledger c x).

Definition prefetch_admit_point p (page : PageId) (source : Source) : outcome (Pool B R * Admission) :=
  room ← Ledger.available (prefetch (cache p));
  if (room =? 0) || (max_inflight_reads <=? reads_in_flight (cache p)) then Done (p, AdmDeferred)
  else
    o ← Miss.admission_slot (miss (cache p)) (miss_interests (cache p));
    match o with
    | None => Done (p, AdmDeferred)
    | Some slot =>
        p ← on_cache_ p (fill_reserve (cache p));
        '(p, o) ← on_cache p (pop_reserve (cache p));
        match o with
        | None => Done (p, AdmDeferred)
        | Some frame =>
            '(p, write) ← on_cache p (claim (cache p) frame page);
            '(p, r) ← submit_page_read granule p page write Speculative;
            match r with
            | inr (_, write) =>
                p ← on_cache_ p (abort_read (cache p) write true);
                p ← pool_ledger p (count_refusal (prefetch (cache p)));
                Done (p, AdmDeferred)
            | inl token =>
                n ← add_ U32_MAX (reads_in_flight (cache p)) 1;
                let c := set_reads (cache p) n in
                '(m, ints, _) ← Miss.admit_speculative (miss c) slot page frame token (miss_interests c);
                c ← admit_ledger (set_interests (set_miss c m) ints) page frame source;
                Done (set_cache p c, AdmAdmitted)
            end
        end
    end.

(** ** Admission of a run *)

Fixpoint prefetch_admit_vector_claim c (vector : ReadVector.ReadVector) (pages : list PageId) :
    outcome (Cache * ReadVector.ReadVector * list ReadFrameIdx) :=
  match pages with
  | [] => Done (c, vector, [])
  | page :: pages =>
      mapped ← PageTable.lookup (table c) page;
      assertb (match mapped with None => true | Some _ => false end);;
      o ← Miss.find_pending (miss c) page;
      assertb (match o with None => true | Some _ => false end);;
      '(c, o) ← pop_reserve c;
      frame ← expect o;
      '(c, write) ← claim c frame page;
      vector ← ReadVector.push (frames c) vector write;
      '(c, vector, rest) ← prefetch_admit_vector_claim c vector pages;
      Done (c, vector, frame :: rest)
  end.

(** The pages of a span get their misses and ledger entries. *)
Fixpoint install_each c (span : ReadSpans.ReadSpan) (token : OpToken) (source : Source) (ordinal : N)
    (l : list (PageId * ReadFrameIdx * N)) : outcome (Cache * ReadSpans.ReadSpan) :=
  match l with
  | [] => Done (c, span)
  | (page, frame, slot) :: l =>
      '(m, ints, generation) ← Miss.admit_speculative (miss c) slot page frame token (miss_interests c);
      span ← ReadSpans.install span ordinal slot generation;
      c ← admit_ledger (set_interests (set_miss c m) ints) page frame source;
      install_each c span token source (ordinal + 1) l
  end.

Fixpoint abort_each c (calls : list (N * InFlightFrame)) : outcome Cache :=
  match calls with
  | [] => Done c
  | (_, write) :: calls => c ← abort_read c write true; abort_each c calls
  end.

Definition cancel_route p (route : N) : outcome (Pool B R) :=
  rs ← ReadSpans.cancel (read_spans p) route; Done (set_spans p rs).

Definition prefetch_admit_vector p (pages : list PageId) (source : Source) : outcome (Pool B R * Admission) :=
  first ← expect (head pages);
  assertb (vlen pages <=? U32_MAX);;
  let count := vlen pages in
  assertb ((2 <=? count) && (count <=? ReadVector.VECTOR_FRAMES_MAX));;
  assertb (negb (granule =? 0));;
  assertb (count <=? ReadVector.VECTOR_BYTES_MAX / granule);;
  assertb (consecutive pages);;
  room ← Ledger.available (prefetch (cache p));
  short ← (if room <? count then Done true
           else left ← sub_ max_inflight_reads (reads_in_flight (cache p)); Done (left <? count));
  if short : bool then Done (p, AdmDeferred)
  else
    '(o, rs) ← ReadSpans.reserve (read_spans p);
    let p := set_spans p rs in
    match o with
    | None => Done (p, AdmDeferred)
    | Some route =>
        '(slots, enough) ← Miss.admission_slots (miss (cache p)) (miss_interests (cache p)) count;
        if negb enough then p ← cancel_route p route; Done (p, AdmDeferred)
        else
          p ← on_cache_ p (fill_reserve (cache p));
          if ff_len (Ledger.reserve (prefetch (cache p))) <? count then p ← cancel_route p route; Done (p, AdmDeferred)
          else
            '(c, vector, claimed) ← prefetch_admit_vector_claim (cache p) ReadVector.new pages;
            let p := set_cache p c in
            offset ← expect (checked_mul U64_MAX (pg_granule_idx first) granule);
            fd ← Product.registered_file (Product.files (product p)) (pg_file first);
            '(b, r) ← submit_read_vector (frames (cache p)) (driver p) fd vector offset;
            let p := set_driver p b in
            match r with
            | inr (_, vector) =>
                '(calls, _) ← ReadVector.take_remaining vector;
                p ← on_cache_ p (abort_each (cache p) calls);
                p ← cancel_route p route;
                p ← pool_ledger p (count_refusal (prefetch (cache p)));
                Done (p, AdmDeferred)
            | inl token =>
                span ← ReadSpans.new first token count granule;
                '(c, span) ← install_each (cache p) span token source 0 (zip (zip pages claimed) slots);
                n ← add_ U32_MAX (reads_in_flight c) count;
                rs ← ReadSpans.commit (read_spans p) route span;
                Done (set_spans (set_cache p (set_reads c n)) rs, AdmAdmitted)
            end
    end.

Definition prefetch_admit_run p (pages : list PageId) (source : Source) : outcome (Pool B R * Admission) :=
  match pages with
  | [] => Panic
  | [page] => prefetch_admit_point p page source
  | _ => prefetch_admit_vector p pages source
  end.

(** ** Explicit hints *)

(** How many pages after [previous] extend its run. *)
Fixpoint prefetch_examined_run_end (n : nat) p (previous : PageId) (pages : list PageId) : outcome N :=
  match n, pages with
  | S n, page :: pages =>
      if Pattern.follows previous page then
        c ← prefetch_classify p page;
        match c with
        | Some _ => Done 0
        | None => k ← prefetch_examined_run_end n p page pages; Done (k + 1)
        end
      else Done 0
  | _, _ => Done 0
  end.

(** The search of [prefetch_examined_replace_unused]: it goes on from the cursor the last
    one left. *)
Fixpoint replace_unused_from (n : nat) c (wanted : N) : outcome Cache :=
  match n with
  | O => Done c
  | S n =>
      room ← Ledger.available (prefetch c);
      if wanted <=? room then Done c
      else
        let index := Ledger.replacement_cursor (prefetch c) in
        next ← add_ U32_MAX index 1;
        let c := set_prefetch c (Ledger.set_replacement_cursor (prefetch c) next) in
        o ← vget (Ledger.entries (prefetch c)) index;
        match o with
        | None => replace_unused_from n c wanted
        | Some e =>
            if Ledger.protected (prefetch c) e then replace_unused_from n c wanted
            else
              resident ← is_resident c (Ledger.e_frame e);
              if negb resident then replace_unused_from n c wanted
              else
                '(c, unprotected) ← prepare_eviction c (Ledger.e_frame e);
                if negb unprotected then replace_unused_from n c wanted
                else c ← evict_resident c (Ledger.e_frame e); replace_unused_from n c wanted
        end
  end.
Definition prefetch_examined_replace_unused c (wanted : N) : outcome Cache :=
  replace_unused_from (N.to_nat (Ledger.capacity (prefetch c) - Ledger.replacement_cursor (prefetch c))) c wanted.

(** A run of [wanted] absent pages at the head of [pages]: as many as there are credits for
    are admitted, or all are deferred; the number of pages done with. *)
Definition examined_run p (pages : list PageId) (wanted : N) (report : PrefetchReport) : outcome (Pool B R * PrefetchReport * N) :=
  p ← on_cache_ p (prefetch_examined_replace_unused (cache p) wanted);
  room ← Ledger.available (prefetch (cache p));
  left ← sub_ max_inflight_reads (reads_in_flight (cache p));
  let count := N.min (N.min wanted room) left in
  if count =? 0 then report ← record report AdmDeferred wanted; Done (p, report, wanted)
  else
    p ← on_cache_ p (reconcile_feedback (cache p));
    '(p, admission) ← prefetch_admit_run p (take (N.to_nat count) pages) Explicit;
    report ← record report admission count;
    Done (p, report, count).

(** [prefetch_examined] on the pages from its cursor on; each round takes at least one. *)
Fixpoint prefetch_examined (n : nat) p (pages : list PageId) (report : PrefetchReport) : outcome (Pool B R * PrefetchReport) :=
  match pages with
  | [] => Done (p, report)
  | page :: rest =>
      match n with
      | O => Panic
      | S n =>
          o ← prefetch_classify p page;
          match o with
          | Some admission => report ← record report admission 1; prefetch_examined n p rest report
          | None =>
              k ← prefetch_examined_run_end (N.to_nat (Ledger.vector_width (prefetch (cache p)) - 1)) p page rest;
              '(p, report, count) ← examined_run p pages (k + 1) report;
              prefetch_examined n p (drop (N.to_nat count) pages) report
          end
      end
  end.

Fixpoint prefetch_protect p (pages : list PageId) : outcome (Pool B R) :=
  match pages with
  | [] => Done p
  | page :: pages =>
      assertb (fid_driver (pg_file page) =? identity);;
      mapped ← PageTable.lookup (table (cache p)) page;
      frame ← match mapped with
              | Some frame => Done (Some frame)
              | None =>
                  o ← Miss.find_pending (miss (cache p)) page;
                  match o with
                  | Some index => e ← Miss.entry (miss (cache p)) index; Done (Some (Miss.me_frame e))
                  | None => Done None
                  end
              end;
      p ← match frame with
          | Some frame => pool_ledger p (Ledger.protect (prefetch (cache p)) frame)
          | None => Done p
          end;
      prefetch_protect p pages
  end.

Definition prefetch_hint p (pages : list PageId) : outcome (Pool B R * PrefetchReport) :=
  p ← on_cache_ p (reconcile (cache p));
  let l := Ledger.set_active (prefetch (cache p)) (0 <? Ledger.capacity (prefetch (cache p))) in
  let examined := take (N.to_nat (Ledger.request_limit l)) pages in
  let report := mkReport (vlen pages) 0 0 0 (vlen pages - vlen examined) 0 in
  p ← pool_ledger p (Ledger.begin_explicit l);
  p ← prefetch_protect p examined;
  '(p, report) ← prefetch_examined (length examined) p examined report;
  p ← pool_ledger p (count_deferred (prefetch (cache p)) (rp_deferred report));
  assertb (rp_requested report =? rp_resident report + rp_pending report + rp_admitted report + rp_deferred report + rp_rejected report);;
  Done (p, report).

(** ** The prediction pass *)

Definition evict_obsolete_body c : outcome (flow Cache Cache) :=
  '(q, o) ← IndexQueue.pop (Ledger.cleanup (prefetch c));
  let c := set_prefetch c (Ledger.set_cleanup (prefetch c) q) in
  match o with
  | None => Done (Return c)
  | Some index =>
      eo ← vget (Ledger.entries (prefetch c)) index;
      e ← expect eo;
      b ← Ledger.obsolete (prefetch c) e;
      assertb b;;
      resident ← is_resident c (Ledger.e_frame e);
      if negb resident then Done (Continue c)
      else
        '(c, unprotected) ← prepare_eviction c (Ledger.e_frame e);
        if unprotected : bool then c ← evict_resident c (Ledger.e_frame e); Done (Continue c)
        else c ← on_ledger c (Ledger.wait_cleanup (prefetch c) index); Done (Continue c)
  end.

Definition prefetch_evict_obsolete c : outcome Cache :=
  r ← for_range evict_obsolete_body (Ledger.capacity (prefetch c)) c;
  Done (match r with Return c => c | Continue c => c end).

Definition top_up_body c : outcome (flow Cache Cache) :=
  '(c, evicted) ← evict_clock_victim frame_count c;
  Done (if evicted : bool then Continue c else Return c).

Definition prefetch_top_up p : outcome (Pool B R) :=
  if negb (Ledger.active (prefetch (cache p))) then Done p
  else
    p ← on_cache_ p (fill_reserve (cache p));
    room ← Ledger.available (prefetch (cache p));
    let deficit := saturating_sub (saturating_sub room (ff_len (Ledger.reserve (prefetch (cache p))))) (vlen (Epoch.entries (evict_queue (cache p)))) in
    r ← for_range top_up_body deficit (cache p);
    let p := set_cache p (match r with Return c => c | Continue c => c end) in
    if 0 <? deficit then
      '(p, _) ← advance_and_reclaim p;
      '(p, _) ← advance_and_reclaim p;
      on_cache_ p (fill_reserve (cache p))
    else Done p.

(** The pages of a window with their classes. *)
Fixpoint window_classify (n : nat) p (first : PageId) (index : N) : outcome (list (PageId * option Admission)) :=
  match n with
  | O => Done []
  | S n =>
      i ← expect (checked_add U32_MAX (pg_granule_idx first) index);
      let page := mkPageId (pg_file first) i in
      c ← prefetch_classify p page;
      rest ← window_classify n p first (index + 1);
      Done ((page, c) :: rest)
  end.
Definition prefetch_automatic_window_classify p (first : PageId) (count : N) : outcome (list (PageId * option Admission)) :=
  assertb ((1 <=? count) && (count <=? 32));;
  window_classify (N.to_nat count) p first 0.

Definition absent (x : PageId * option Admission) : bool := match x.2 with None => true | Some _ => false end.

Definition prefetch_automatic_window_has_credits p (classes : list (PageId * option Admission)) : outcome bool :=
  let missing := vlen (filter (λ x, absent x = true) classes) in
  room ← Ledger.available (prefetch (cache p));
  if room <? missing then Done false
  else left ← sub_ max_inflight_reads (reads_in_flight (cache p)); Done (missing <=? left).

(** The pages before the first one that is resident, pending or refused. *)
Fixpoint absent_run (l : list (PageId * option Admission)) : list PageId :=
  match l with
  | (page, None) :: l => page :: absent_run l
  | _ => []
  end.

Fixpoint issue_each (l : Ledger.Prefetch) (reader : N) (pages : list PageId) : outcome Ledger.Prefetch :=
  match pages with
  | [] => Done l
  | page :: pages => l ← Ledger.issued l reader page; issue_each l reader pages
  end.

(** The loop of [prefetch_automatic_window] on the pages from its cursor on. *)
Fixpoint window_rounds (n : nat) p (reader : N) (source : Source) (todo : list (PageId * option Admission)) (admitted : N) :
    outcome (Pool B R * Admission * N) :=
  match n, todo with
  | S n, (page, class) :: rest =>
      let run := match class with Some _ => [page] | None => absent_run todo end in
      '(p, o) ← match class with
          | Some admission => Done (p, Some admission)
          | None =>
              p ← on_cache_ p (reconcile_feedback (cache p));
              obsolete ← Ledger.source_obsolete (prefetch (cache p)) source;
              if obsolete : bool then Done (p, None)
              else '(p, admission) ← prefetch_admit_run p run source; Done (p, Some admission)
          end;
      match o with
      | None => Done (p, AdmObsolete, admitted)
      | Some AdmDeferred => Done (p, AdmDeferred, admitted)
      | Some AdmRejected =>
          p ← pool_ledger p (Ledger.reset_reader (prefetch (cache p)) reader);
          Done (p, AdmRejected, admitted)
      | Some admission =>
          let admitted := match admission with AdmAdmitted => admitted + vlen run | _ => admitted end in
          p ← pool_ledger p (issue_each (prefetch (cache p)) reader run);
          window_rounds n p reader source (drop (length run) todo) admitted
      end
  | _, _ => Done (p, AdmResident, admitted)
  end.

Definition prefetch_automatic_window p (first : PageId) (source : Source) (count : N) : outcome (Pool B R * Admission * N) :=
  match source with
  | Pattern.Explicit => Panic
  | Pattern.Automatic reader _ =>
      assertb (bool_decide (IndexQueue.front (Ledger.ready (prefetch (cache p))) = Some reader));;
      classes ← prefetch_automatic_window_classify p first count;
      credits ← prefetch_automatic_window_has_credits p classes;
      if negb credits then Done (p, AdmDeferred, 0)
      else
        '(p, admission, admitted) ← window_rounds (N.to_nat count) p reader source classes 0;
        let idle := match admission with AdmDeferred | AdmRejected | AdmObsolete => admitted =? 0 | _ => false end in
        p ← (if idle then Done p else pool_ledger p (Ledger.advance_turn (prefetch (cache p)) reader));
        Done (p, admission, admitted)
  end.

Definition extend_body p : outcome (flow (Pool B R) (Pool B R)) :=
  match IndexQueue.front (Ledger.ready (prefetch (cache p))) with
  | None => Done (Return p)
  | Some reader =>
      pattern ← vget (Ledger.patterns (prefetch (cache p))) reader;
      w ← Pattern.window pattern reader (Ledger.automatic_width (prefetch (cache p)));
      '(page, source, count) ← expect w;
      let p := set_cache p (set_prefetch (cache p) (Ledger.set_active (prefetch (cache p)) true)) in
      '(p, admission, _) ← prefetch_automatic_window p page source count;
      Done (match admission with AdmDeferred => Return p | _ => Continue p end)
  end.

Definition progress_prefetch p : outcome (Pool B R) :=
  p ← on_cache_ p (reconcile (cache p));
  p ← pool_ledger p (Ledger.retry_cleanup (prefetch (cache p)) (pending_releases p));
  p ← on_cache_ p (prefetch_evict_obsolete (cache p));
  p ← prefetch_top_up p;
  r ← for_range extend_body (Ledger.capacity (prefetch (cache p))) p;
  prefetch_top_up (match r with Return p => p | Continue p => p end).

(** ** Counters *)

Definition prefetch_stats p : outcome (Pool B R * PrefetchStats) :=
  p ← on_cache_ p (reconcile (cache p));
  let l := prefetch (cache p) in
  Done (p, mkPrefetchStats (Ledger.stats l) (Ledger.capacity l) (ff_len (Ledger.reserve l)) (reads_in_flight (cache p))).

(** ** Polling *)

Definition poll p : outcome (Pool B R * N) :=
  p ← drain_completions granule p;
  '(p, reclaimed) ← advance_and_reclaim p;
  p ← progress_retirements p;
  p ← progress_prefetch p;
  assertb (reclaimed <=? frame_count);;
  Done (p, reclaimed).

Definition poll_report p (room : N) : outcome (Pool B R * list Product.PoolCompletion * N) :=
  p ← drain_completions granule p;
  '(p, reclaimed) ← advance_and_reclaim p;
  '(q, out) ← Product.deliver_product_completions (product p) (Product.mkBatch [] room);
  p ← progress_retirements (set_product p q);
  p ← progress_prefetch p;
  assertb (reclaimed <=? U32_MAX);;
  Done (p, Product.items out, reclaimed).
End pool.
End PoolPrefetch.
