(* ===== verification/PoolSpeculate.v ===== *)
(** * Speculative admission in the cache

    The parts of [PoolPrefetch] that work on the cache, over its invariant [cinv]: filling
    the reserve, claiming the frames of a run for a vectored read and aborting them,
    installing the misses of a run, evicting obsolete and unused predictions. *)
From stdpp Require Import prelude gmap list.
From Stdlib Require Import NArith ZArith Lia.
From S2P Require Import Prelude Ids Table Frames FrameCensus Clock Epoch FileSlots Miss MissMap Pattern IndexQueue Execute ReadVector ReadSpans Driver PoolBackend Product Ledger LedgerSystem LedgerSafety LedgerCalm LedgerTurns PoolCache PoolInv PoolControl PoolReads PoolRoute PoolPrefetch.

Open Scope N_scope.

Module PoolSpeculate.
Import Frames FrameCensus MissMap LedgerCalm.LedgerCalm LedgerTurns.LedgerTurns PoolCache PoolInv PoolReads PoolRoute PoolPrefetch.

(** A page with its frame and the slot of its miss. *)
Abbreviation slotted := (PageId * ReadFrameIdx * N)%type.

Lemma stack_len s : stack_wf s → vlen (stack s) = ff_len s.
Proof. intros Hwf. unfold stack, vlen, stack_wf, vlen in *. rewrite length_rev, length_take. lia. Qed.

Section cache.
Context {F g a fcap reads : N} {P : FileId → Prop} {W : list (N * PageId * N)}.
Context (Hg : 0 < g) (Hgmax : g ≤ U32_MAX).
#[local] Abbreviation cinv := (cinv (F := F) (g := g) (a := a) (fcap := fcap) (reads := reads) (P := P) (W := W)).

(** ** The reserve *)

Lemma cinv_flying n M V tks G lo fl fl' he c : cinv n M V tks G lo fl he c → fl ≡ₚ fl' → cinv n M V tks G lo fl' he c.
Proof.
  intros [C1 C2 C3 C4 C5 C6 C7 C8 C9 C10 C11 C12 C13 C14 C15 C16 C17 C18 C19 C20] Hp. constructor; try done.
  eapply census_perm; [exact C2|done| |done|done]. by rewrite Hp.
Qed.

(** The free stack and the reserve of a cache, which are all that has changed. *)
Definition restocked (c : Cache) (s r : FreeFrames) : Cache := set_free (set_prefetch c (Ledger.set_reserve (prefetch c) r)) s.

Lemma fill_reserve_cache n M V tks G lo fl he c :
  cinv n M V tks G lo fl he c → ∃ s r, fill_reserve c = Done (restocked c s r) ∧ cinv n M V tks G lo fl he (restocked c s r).
Proof.
  intros Hc. destruct (ci_free _ _ _ _ _ _ _ _ _ Hc) as [F1 F2]. destruct (ci_reserve _ _ _ _ _ _ _ _ _ Hc) as [R1 R2]. unfold fill_reserve.
  destruct (Ledger.active (prefetch c)) eqn:Hact.
  - destruct (g_sound _ _ _ _ (ci_ledger _ _ _ _ _ _ _ _ _ Hc)) as (L & C & W' & R & x & Hv). simpl in Hv.
    destruct (LedgerSafety.LedgerSafety.fill_reserve_ok _ _ _ _ _ _ _ _ _ (free_frames c) Hv R1 R2 F1 Hact) as (r & s & -> & S1 & S2 & S3 & S4 & S5 & S6). mred.
    exists s, r. split; [done|]. simpl in *. eapply cinv_stacks; [exact Hc|done|congruence|done|congruence|].
    rewrite S3, S4. set (k := N.to_nat _). rewrite <- (take_drop k (stack (free_frames c))) at 3. rewrite <- !app_assoc.
    rewrite <- Permutation_rev, !app_assoc. apply Permutation_app_tail, Permutation_app_tail. apply Permutation_app_comm.
  - exists (free_frames c), (Ledger.reserve (prefetch c)). unfold Ledger.fill_reserve. rewrite Hact. simpl. mred.
    unfold restocked. rewrite set_reserve_id, set_free_id. split; [|done]. by destruct c.
Qed.

(** The frame of an aborted claim returns to the reserve. *)
Lemma abort_reserve_cache n M V tks G lo fl he c f :
  cinv n M V tks G lo (f :: fl) he c → ¬ speculates (prefetch c) f → ff_len (Ledger.reserve (prefetch c)) < Ledger.capacity (prefetch c) →
  ∃ h r, abort_read c (token_of a f) true = Done (set_prefetch (set_frames c h) (Ledger.set_reserve (prefetch c) r)) ∧
    cinv n M V tks G lo fl he (set_prefetch (set_frames c h) (Ledger.set_reserve (prefetch c) r)) ∧
    ff_len r = ff_len (Ledger.reserve (prefetch c)) + 1.
Proof.
  intros Hc Hns Hroom. pose proof Hc as [C1 C2 C3 [C4 C4'] C5 C6 C7 C8 C9 C10 C11 C12 C13 C14 C15 C16 C17 C18 C19 C20].
  assert (in_state (frames c) f InFlight) as Hst by (apply (C2 InFlight); simpl; set_solver).
  pose proof (unwatched_frame _ _ _ _ _ _ _ _ _ _ _ Hc Hst (or_intror eq_refl)) as Hnw.
  assert (census (frames c) (stack (free_frames c) ++ stack (Ledger.reserve (prefetch c)) ++ lo) (f :: pending_frames V ++ fl)
    (map_to_list M).*2 ((Epoch.entries (evict_queue c)).*1 ++ he)) as C2'.
  { eapply census_perm; [exact C2|done| |done..]. symmetry. apply Permutation_middle. }
  destruct (abort_ok C1 f C2') as (h & Hab & C1' & C2'' & Hk & Hpg). unfold abort_read. rewrite Hab. mred. unfold push_reserve. simpl.
  destruct (push_ok (Ledger.reserve (prefetch c)) f C4) as (r & Hr & S1 & S2 & S3); [by rewrite C4'|]. rewrite Hr. mred.
  exists h, r. split; [done|]. split; [|unfold push in Hr; inv_done; done].
  assert (∀ j, page_at h j = page_at (frames c) j) as Hpj by (intros j; unfold page_at; by rewrite Hpg).
  constructor; simpl; try done; try (intros; rewrite Hpj; eauto; fail).
  - eapply census_perm; [exact C2''| |done..]. rewrite S2. simpl. apply Permutation_middle.
  - split; [done|congruence].
  - by apply lgood_reserve.
  - intros j Hj. assert (j ≠ f) as Hne by (intros ->; done). rewrite !(Hk j _ Hne). by apply C17.
  - by eapply watches_kept.
Qed.

(** ** Claiming the frames of a run *)

(** The frames and the reserve are all that has changed. *)
Definition reframed (c : Cache) (h : Frames) (r : FreeFrames) : Cache := set_prefetch (set_frames c h) (Ledger.set_reserve (prefetch c) r).

Definition absent_page (M : gmap PageId ReadFrameIdx) (V : gmap N mread) (page : PageId) : Prop :=
  M !! page = None ∧ ∀ j m, V !! j = Some m → m_outcome m = Pending → m_page m ≠ page.

Lemma absent_lookup n M V tks G lo fl he c page :
  cinv n M V tks G lo fl he c → absent_page M V page → PageTable.lookup (table c) page = Done None ∧ Miss.find_pending (miss c) page = Done None.
Proof.
  intros Hc [Hm Hp]. destruct (ci_table _ _ _ _ _ _ _ _ _ Hc) as (T1 & T2 & _). rewrite (PageTable.lookup_ok _ _ page T1 T2), Hm. split; [done|].
  destruct (ci_miss _ _ _ _ _ _ _ _ _ Hc) as [Hr _]. destruct (find_pending_map _ _ _ _ page Hr) as (o & -> & Ho). destruct o as [i|]; [|done].
  destruct Ho as (m & Hi & Hpn & Hpg). by apply (Hp i m Hi Hpn) in Hpg.
Qed.

Lemma vector_transferable n M V tks G lo fs he c f :
  cinv n M V tks G lo fs he c → f ∈ fs → ReadVector.transferable (frames c) (token_of a f).
Proof.
  intros Hc Hf. eapply (transferable_inflight Hg Hgmax); [exact Hc|]. apply (ci_census _ _ _ _ _ _ _ _ _ Hc InFlight). simpl. set_solver.
Qed.

Lemma claim_one_cache n M V tks G fs he c page v :
  cinv n M V tks G [] fs he c → ReadVector.bundle (frames c) (token_of a <$> fs) v → ReadVector.filled v = 0 → ReadVector.operation v = None →
  stack (Ledger.reserve (prefetch c)) ≠ [] → vlen fs < ReadVector.VECTOR_FRAMES_MAX → (vlen fs + 1) * g ≤ ReadVector.VECTOR_BYTES_MAX →
  ∃ c1 f h r v', pop_reserve c = Done (c1, Some f) ∧ claim c1 f page = Done (reframed c h r, token_of a f) ∧ ReadVector.push h v (token_of a f) = Done v' ∧
    cinv n M V tks G [] (fs ++ [f]) he (reframed c h r) ∧ ReadVector.bundle h (token_of a <$> (fs ++ [f])) v' ∧ ReadVector.filled v' = 0 ∧ ReadVector.operation v' = None ∧
    page_at h f = Some (Some page) ∧ (∀ j, j ≠ f → page_at h j = page_at (frames c) j) ∧ (f ∉ fs) ∧ in_state (frames c) f Free ∧ kept (frames c) h f ∧
    vlen (stack (Ledger.reserve (prefetch c))) = 1 + vlen (stack r).
Proof.
  intros Hc Hb Hz Hop Hne Hlen Hbytes. destruct (pop_reserve_cache _ _ _ _ _ _ _ _ _ Hc) as (c1 & o & Hpop & Hc1 & Ho & r & Hr & Hlr). destruct o as [f|]; [|done]. simpl in Hc1, Hlr.
  assert (in_state (frames c1) f Free) as Hfree by (apply (ci_census _ _ _ _ _ _ _ _ _ Hc1 Free); simpl; set_solver).
  destruct (claim_cache _ _ _ _ _ _ _ _ _ f page Hc1) as (h & Hcl & Hc2 & Hpg & Hpo & Hkp).
  assert (set_frames c1 h = reframed c h r) as Heq by by subst c1. rewrite Heq in *. assert (granule h = g) as Hgr by apply (ao_granule _ _ _ _ _ (ci_arena _ _ _ _ _ _ _ _ _ Hc2)).
  assert (granule (frames c) = g) as Hgr0 by apply (ao_granule _ _ _ _ _ (ci_arena _ _ _ _ _ _ _ _ _ Hc)).
  assert (NoDup (f :: fs)) as [Hnf _]%NoDup_cons.
  { destruct (ci_census _ _ _ _ _ _ _ _ _ Hc2 InFlight) as [Hnd _]. simpl in Hnd. by apply NoDup_app in Hnd as (_ & _ & ?). }
  destruct (ReadVector.push_bundle h ltac:(lia) (token_of a <$> fs) v (token_of a f)) as (v' & Hpush & Hb' & Hz' & Hop'); try done.
  - eapply ReadVector.bundle_granule; [|exact Hb]. congruence.
  - eapply (vector_transferable _ _ _ _ _ _ _ _ _ f Hc2). set_solver.
  - rewrite <- list_fmap_compose, token_frame. intros (x & -> & Hx)%list_elem_of_fmap. simpl in Hnf. rewrite token_frame in Hnf. done.
  - unfold vlen in *. by rewrite length_fmap.
  - unfold vlen in *. rewrite length_fmap, Hgr. done.
  - exists c1, f, h, r, v'. rewrite Hr in Hfree. simpl in Hfree. rewrite Hr in Hpo. simpl in Hpo. rewrite Hr in Hkp. split_and!; try done; [eapply cinv_flying; [exact Hc2|apply Permutation_cons_append]|].
    by rewrite fmap_app.
Qed.

Lemma vector_claim_cache n M V tks G he pages : ∀ fs c v,
  cinv n M V tks G [] fs he c → ReadVector.bundle (frames c) (token_of a <$> fs) v → ReadVector.filled v = 0 → ReadVector.operation v = None →
  (∀ page, page ∈ pages → absent_page M V page) → vlen pages ≤ vlen (stack (Ledger.reserve (prefetch c))) →
  vlen fs + vlen pages ≤ ReadVector.VECTOR_FRAMES_MAX → (vlen fs + vlen pages) * g ≤ ReadVector.VECTOR_BYTES_MAX →
  ∃ h r v' fs', prefetch_admit_vector_claim c v pages = Done (reframed c h r, v', fs') ∧ length fs' = length pages ∧
    cinv n M V tks G [] (fs ++ fs') he (reframed c h r) ∧ ReadVector.bundle h (token_of a <$> (fs ++ fs')) v' ∧ ReadVector.filled v' = 0 ∧ ReadVector.operation v' = None ∧
    (∀ (k : nat) f page, fs' !! k = Some f → pages !! k = Some page → page_at h f = Some (Some page)) ∧
    (∀ j, j ∉ fs' → page_at h j = page_at (frames c) j) ∧ (∀ f, f ∈ fs' → in_state (frames c) f Free) ∧ NoDup fs' ∧
    vlen (stack (Ledger.reserve (prefetch c))) = vlen fs' + vlen (stack r).
Proof.
  induction pages as [|page pages IH]; intros fs c v Hc Hb Hz Hop Habs Hres Hlen Hbytes.
  - exists (frames c), (Ledger.reserve (prefetch c)), v, []. assert (reframed c (frames c) (Ledger.reserve (prefetch c)) = c) as -> by (destruct c as [? ? ? ? ? ? ? ? ? ? l]; by destruct l).
    rewrite app_nil_r. split_and!; try done; [by intros ? ?%elem_of_nil|constructor].
  - assert (vlen (page :: pages) = vlen pages + 1) as Hl by (unfold vlen; simpl; lia). rewrite Hl in *.
    destruct (absent_lookup _ _ _ _ _ _ _ _ _ page Hc) as [Hlook Hfind]; [apply Habs; by left|]. cbn [prefetch_admit_vector_claim]. rewrite Hlook, Hfind. mred. simpl.
    destruct (claim_one_cache n M V tks G fs he c page v Hc Hb Hz Hop) as (c1 & f & h & r & v1 & -> & Hcl & Hpush & Hc1 & Hb1 & Hz1 & Hop1 & Hpg & Hpo & Hnf & Hfree & Hkp & Hlr).
    { intros He. rewrite He in Hres. unfold vlen in Hres. simpl in Hres. lia. }
    { lia. }
    { nia. }
    mred. rewrite Hcl. mred. change (frames (reframed c h r)) with h. rewrite Hpush. mred.
    assert (vlen (fs ++ [f]) = vlen fs + 1) as Hl1 by (unfold vlen; rewrite length_app; simpl; lia).
    destruct (IH (fs ++ [f]) (reframed c h r) v1 Hc1 Hb1 Hz1 Hop1) as (h2 & r2 & v2 & fs2 & -> & Hlen2 & Hc2 & Hb2 & Hz2 & Hop2 & Hpg2 & Hpo2 & Hfr2 & Hnd2 & Hlr2).
    { intros q Hq. apply Habs. by right. }
    { simpl. lia. }
    { rewrite Hl1. lia. }
    { rewrite Hl1. nia. }
    mred. simpl in *. rewrite <- app_assoc in Hc2, Hb2. exists h2, r2, v2, (f :: fs2). split; [done|].
    assert (f ∉ fs2) as Hf2.
    { intros Hin. destruct (ci_census _ _ _ _ _ _ _ _ _ Hc2 InFlight) as [Hnd _]. simpl in Hnd. apply NoDup_app in Hnd as (_ & _ & Hnd).
      apply NoDup_app in Hnd as (_ & _ & Hnd). by apply NoDup_cons in Hnd as [? _]. }
    split; [simpl; lia|]. split; [exact Hc2|]. split_and!; try done.
    + intros [|k] f' page' Hf' Hp'; simpl in Hf', Hp'; [|by eapply Hpg2]. simplify_eq. by rewrite Hpo2.
    + intros j [Hj Hj2]%not_elem_of_cons. by rewrite Hpo2, Hpo.
    + intros f' [->|Hin]%elem_of_cons; [done|]. specialize (Hfr2 f' Hin). destruct (decide (f' = f)) as [->|Hne]; [done|].
      by rewrite (Hkp f' _ Hne) in Hfr2.
    + by apply NoDup_cons.
    + unfold vlen in *. simpl. lia.
Qed.

(** The frames of an aborted vector return to the reserve. *)
Lemma abort_each_cache n M V tks G he fs : ∀ k c,
  cinv n M V tks G [] fs he c → (∀ f, f ∈ fs → ¬ speculates (prefetch c) f) → ff_len (Ledger.reserve (prefetch c)) + vlen fs ≤ Ledger.capacity (prefetch c) →
  ∃ h r, abort_each c (ReadVector.number k (token_of a <$> fs)) = Done (reframed c h r) ∧ cinv n M V tks G [] [] he (reframed c h r).
Proof.
  induction fs as [|f fs IH]; intros k c Hc Hns Hroom.
  - exists (frames c), (Ledger.reserve (prefetch c)). assert (reframed c (frames c) (Ledger.reserve (prefetch c)) = c) as -> by (destruct c as [? ? ? ? ? ? ? ? ? ? l]; by destruct l). done.
  - assert (vlen (f :: fs) = vlen fs + 1) as Hl by (unfold vlen; simpl; lia). rewrite Hl in Hroom.
    destruct (abort_reserve_cache _ _ _ _ _ _ _ _ _ f Hc) as (h & r & Hab & Hc1 & Hlen); [apply Hns; by left|lia|].
    destruct (IH (k + 1) _ Hc1) as (h2 & r2 & He & Hc2); [intros f' Hf'; apply (Hns f'); by right|simpl; lia|].
    exists h2, r2. split; [|exact Hc2]. rewrite fmap_cons. change (token_of a f :: (token_of a <$> fs)) with ([token_of a f] ++ (token_of a <$> fs)).
    rewrite (ReadVector.number_app (frames c)) by (rewrite (ao_granule _ _ _ _ _ (ci_arena _ _ _ _ _ _ _ _ _ Hc)); exact Hg). simpl. rewrite Hab. mred. exact He.
Qed.

(** ** Installing the misses of a run *)

(** A span of full size with [ord] pages installed. *)
Record filling (span : ReadSpans.ReadSpan) (ord : N) : Prop := {
  fl_pages : vlen (ReadSpans.pages span) = ReadVector.VECTOR_FRAMES_MAX;
  fl_count : ReadSpans.count span ≤ ReadVector.VECTOR_FRAMES_MAX;
  fl_empty : ∀ k, ord ≤ k → k < ReadSpans.count span → ReadSpans.pages span !! N.to_nat k = Some None;
}.

Definition with_pages (span : ReadSpans.ReadSpan) (ps : list (option ReadSpans.SpanPage)) : ReadSpans.ReadSpan :=
  ReadSpans.mkReadSpan ps (ReadSpans.first span) (ReadSpans.token span) (ReadSpans.count span) (ReadSpans.bytes span) (ReadSpans.filled span) (ReadSpans.published span).

Lemma install_fills span ord slot gen :
  filling span ord → ord < ReadSpans.count span →
  let ps := <[N.to_nat ord := Some (ReadSpans.mkSpanPage slot gen)]> (ReadSpans.pages span) in
  ReadSpans.install span ord slot gen = Done (with_pages span ps) ∧ filling (with_pages span ps) (ord + 1).
Proof.
  intros [F1 F2 F3] Hlt ps. unfold ReadSpans.install. rewrite (proj2 (N.ltb_lt _ _)) by done. mred. rewrite (proj2 (vget_Done _ _ _) (F3 ord ltac:(lia) Hlt)). mred.
  rewrite vset_ok by lia. mred. split; [done|]. constructor; simpl; [unfold ps; by rewrite vlen_insert|done|].
  intros k Hk Hkc. unfold ps. rewrite list_lookup_insert_ne by lia. by apply F3; [lia|].
Qed.

(** The cache of an admission under way, whose ledger is put aside. *)
Definition aside (c : Cache) (m : Miss.MissTable) (ints : Miss.MissInterests) (x : Ledger.Prefetch * Clock.Clock) : Cache :=
  set_ledger (set_interests (set_miss c m) ints) x.

Definition misses_of (t : OpToken) (ls : list slotted) (gens : list N) : list (N * mread) :=
  zip_with (λ x gen, (x.2, mkMiss x.1.1 x.1.2 t gen 0 Pending)) ls gens.

Record installable (M : gmap PageId ReadFrameIdx) (V : gmap N mread) (tks : list PendingToken) (h : Frames) (ls : list slotted) : Prop := {
  in_slots : NoDup ls.*2;
  in_free : ∀ i, i ∈ ls.*2 → i < F ∧ unwatched tks i ∧ ∀ m, V !! i = Some m → m_outcome m ≠ Pending;
  in_pages : NoDup ls.*1.*1;
  in_absent : ∀ page, page ∈ ls.*1.*1 → absent_page M V page ∧ fid_slot (pg_file page) < fcap;
  in_named : ∀ page f i, (page, f, i) ∈ ls → page_at h f = Some (Some page);
  in_room : vlen (pending_frames V) + vlen ls ≤ reads;
}.

Lemma installable_next M V tks h x ls gen t :
  installable M V tks h (x :: ls) → installable M (<[x.2 := mkMiss x.1.1 x.1.2 t gen 0 Pending]> V) tks h ls.
Proof.
  intros [I1 I2 I3 I4 I5 I6]. destruct x as [[page f] i]. simpl in *. apply NoDup_cons in I1 as [Hi I1]. apply NoDup_cons in I3 as [Hp I3].
  constructor; try done.
  - intros j Hj. destruct (I2 j) as (? & ? & Ho); [by right|]. split_and!; try done. intros m. rewrite lookup_insert_ne by (intros ->; done). apply Ho.
  - intros q Hq. destruct (I4 q) as [[A1 A2] ?]; [by right|]. split; [|done]. split; [done|].
    intros j m [[<- <-]|[_ Hm]]%lookup_insert_Some Hpn; [simpl; intros ->; done|by eapply A2].
  - intros q f' j Hin. apply (I5 q f' j). by right.
  -
    assert (vlen ((page, f, i) :: ls) = vlen ls + 1) as Hl by (unfold vlen; simpl; lia). rewrite Hl in I6.
    unfold vlen in *. rewrite (Permutation_length (pending_admit V i (mkMiss page f t gen 0 Pending) (proj2 (proj2 (I2 i ltac:(by left)))) eq_refl)). simpl. lia.
Qed.

Lemma install_each_cache n M tks G he t src l0 k0 l' k' : ∀ (ls : list slotted) V c span ord,
  cinv (vlen ls + n) M V tks G [] ls.*1.*2 he (set_ledger c (l0, k0)) → LedgerSafety.LedgerSafety.admit_run (prefetch c) (clock c) src ls.*1 = Done (l', k') →
  installable M V tks (frames c) ls → filling span ord → ord + vlen ls = ReadSpans.count span →
  ∃ m ints ps gens, install_each c span t src ord ls = Done (aside c m ints (l', k'), with_pages span ps) ∧
    cinv n M (list_to_map (misses_of t ls gens) ∪ V) tks G [] [] he (aside c m ints (l0, k0)) ∧
    vlen (pending_frames (list_to_map (misses_of t ls gens) ∪ V)) = vlen (pending_frames V) + vlen ls ∧
    length gens = length ls ∧ vlen ps = ReadVector.VECTOR_FRAMES_MAX ∧
    (∀ k, k < ord → ps !! N.to_nat k = ReadSpans.pages span !! N.to_nat k) ∧
    (∀ (k : nat) x gen, ls !! k = Some x → gens !! k = Some gen → ps !! (N.to_nat ord + k)%nat = Some (Some (ReadSpans.mkSpanPage x.2 gen))).
Proof.
  induction ls as [|[[page f] i] ls IH]; intros V c span ord Hc Hrun Hin Hfl Hord.
  - simpl in Hrun. injection Hrun as <- <-. exists (miss c), (miss_interests c), (ReadSpans.pages span), []. change (list_to_map (misses_of t [] []) : gmap N mread) with (∅ : gmap N mread). rewrite (left_id_L ∅ (∪)).
    assert (aside c (miss c) (miss_interests c) (prefetch c, clock c) = c) as Heq by by destruct c. assert (with_pages span (ReadSpans.pages span) = span) as -> by by destruct span.
    rewrite Heq. split; [done|]. split; [|split_and!; try done; [unfold vlen; simpl; lia|apply Hfl]]. destruct c. exact Hc.
  - assert (vlen ((page, f, i) :: ls) = vlen ls + 1) as Hl by (unfold vlen; simpl; lia). rewrite Hl in *.
    simpl in Hrun. apply outcome_bind_Done in Hrun as ([l1 k1] & Hadm & Hrun). destruct (in_free _ _ _ _ _ Hin i) as (Hi & Hun & Hnp); [by left|].
    destruct (in_absent _ _ _ _ _ Hin page) as [[Hmap Hpend] Hslot]; [by left|].
    assert (vlen (pending_frames V) < reads) as Hroom by (pose proof (in_room _ _ _ _ _ Hin) as Hx; unfold vlen in *; simpl in Hx; lia).
    replace (vlen ls + 1 + n) with (1 + (vlen ls + n)) in Hc by lia. simpl in Hc.
    destruct (admit_cache _ M V tks G [] ls.*1.*2 he _ i page f t Miss.Speculative Hc Hi Hun Hnp Hroom Hslot Hmap) as (m1 & ints1 & gen & He & Hc1); [apply (in_named _ _ _ _ _ Hin page f i); by left|done|].
    cbn [install_each]. simpl in He. unfold Miss.admit_speculative. rewrite He. mred.
    destruct (install_fills span ord i gen Hfl ltac:(lia)) as [-> Hfl1]. mred. unfold admit_ledger. simpl. rewrite Hadm. mred.
    set (c1 := set_ledger (set_interests (set_miss c m1) ints1) (l1, k1)).
    destruct (IH (<[i := mkMiss page f t gen 0 Pending]> V) c1 (with_pages span (<[N.to_nat ord := Some (ReadSpans.mkSpanPage i gen)]> (ReadSpans.pages span))) (ord + 1) Hc1 Hrun) as (m2 & ints2 & ps & gens & Hx & Hc2 & Hlen & Hgens & Hps & Hold & Hnew); [by apply (installable_next _ _ _ _ (page, f, i) _ gen t) in Hin|done|simpl; lia|].
    assert (list_to_map (misses_of t ls gens) ∪ <[i := mkMiss page f t gen 0 Pending]> V = list_to_map (misses_of t ((page, f, i) :: ls) (gen :: gens)) ∪ V) as HV.
    { simpl. rewrite <- insert_union_l, insert_union_r; [done|]. apply not_elem_of_list_to_map_1. pose proof (in_slots _ _ _ _ _ Hin) as [Hni _]%NoDup_cons.
      intros Hin'. apply Hni. unfold misses_of in Hin'. apply list_elem_of_fmap in Hin' as (y & -> & (k & x & g0 & -> & Hx1 & Hx2)%elem_of_lookup_zip_with). simpl.
      apply list_elem_of_fmap. exists x. split; [done|]. by eapply list_elem_of_lookup_2. }
    rewrite HV in Hc2, Hlen. exists m2, ints2, ps, (gen :: gens). split; [exact Hx|]. split; [exact Hc2|].
    split_and!; try done.
    + etransitivity; [exact Hlen|]. unfold vlen. rewrite (Permutation_length (pending_admit V i (mkMiss page f t gen 0 Pending) Hnp eq_refl)). simpl. lia.
    + simpl. lia.
    + intros k Hk. rewrite Hold by lia. simpl. by rewrite list_lookup_insert_ne by lia.
    + intros [|k] x g0 Hk Hg0; simpl in Hk, Hg0.
      * simplify_eq. rewrite Nat.add_0_r, Hold by lia. simpl. rewrite list_lookup_insert_eq; [done|]. pose proof (fl_pages _ _ Hfl). pose proof (fl_count _ _ Hfl). unfold vlen in *. lia.
      * rewrite <- (Hnew k x g0 Hk Hg0). f_equal. lia.
Qed.

(** ** Evictions of the prefetch passes *)

Lemma absent_settles M V M' V' page : absent_page M V page → settles V M V' M' → absent_page M' V' page.
Proof.
  intros [H1 H2] [Hf Hga]. split.
  - destruct (M' !! page) as [f|] eqn:E; [|done]. destruct (Hga page f E) as [?|(j & m & Hm & Hpm & Hpg)]; [congruence|]. by apply (H2 j m Hm Hpm) in Hpg.
  - intros j m Hm Hp. destruct (Hf j m Hm) as (m0 & Hm0 & -> & _ & _ & Hp0). apply (H2 j m0 Hm0). by apply Hp0.
Qed.

Lemma cinv_cursor n M V tks G lo fl he c k : cinv n M V tks G lo fl he c → cinv n M V tks G lo fl he (set_prefetch c (Ledger.set_replacement_cursor (prefetch c) k)).
Proof.
  intros Hc. pose proof (cinv_tame n n M V tks G lo fl he c (Ledger.set_replacement_cursor (prefetch c) k) (clock c) Hc ltac:(lia)) as Hx.
  replace (set_ledger c (Ledger.set_replacement_cursor (prefetch c) k, clock c)) with (set_prefetch c (Ledger.set_replacement_cursor (prefetch c) k)) in Hx by by destruct c.
  apply Hx; [apply lgood_cursor, Hc|done].
Qed.

(** The entries the replacement has still to look at. *)
Definition unseen (c : Cache) : N := Ledger.capacity (prefetch c) - Ledger.replacement_cursor (prefetch c).

Lemma entries_len n M V tks G lo fl he c : cinv n M V tks G lo fl he c → vlen (Ledger.entries (prefetch c)) = Ledger.capacity (prefetch c).
Proof.
  intros Hc. destruct (g_sound _ _ _ _ (ci_ledger _ _ _ _ _ _ _ _ _ Hc)) as (L & C & W' & R & x & Hv). simpl in Hv.
  pose proof (LedgerSystem.LedgerSystem.st_len _ _ _ _ _ _ (LedgerSystem.LedgerSystem.v_storage _ _ _ _ _ _ _ _ _ Hv)) as Hl.
  unfold LedgerLists.LedgerLists.cores, vlen in *. by rewrite length_fmap in Hl.
Qed.

Lemma available_cache n M V tks G lo fl he c :
  cinv n M V tks G lo fl he c → Ledger.available (prefetch c) = Done (Ledger.capacity (prefetch c) - Ledger.occupied (Ledger.stats (prefetch c))).
Proof.
  intros Hc. destruct (g_sound _ _ _ _ (ci_ledger _ _ _ _ _ _ _ _ _ Hc)) as (L & C & W' & R & x & Hv). simpl in Hv. by eapply LedgerSystem.LedgerSystem.available_ok.
Qed.

Lemma capacity_small n M V tks G lo fl he c : cinv n M V tks G lo fl he c → Ledger.capacity (prefetch c) ≤ U32_MAX.
Proof.
  intros Hc. destruct (g_sound _ _ _ _ (ci_ledger _ _ _ _ _ _ _ _ _ Hc)) as (L & C & W' & R & x & Hv). simpl in Hv. apply (LedgerSystem.LedgerSystem.v_small _ _ _ _ _ _ _ _ _ Hv).
Qed.

(** Mapped pages whose frames are no unused predictions stay mapped, and their frames stay so. *)
Definition spared (M : gmap PageId ReadFrameIdx) (l : Ledger.Prefetch) (M' : gmap PageId ReadFrameIdx) (l' : Ledger.Prefetch) : Prop :=
  ∀ page f, M !! page = Some f → ¬ speculates l f → M' !! page = Some f ∧ ¬ speculates l' f.

Lemma spared_trans M1 l1 M2 l2 M3 l3 : spared M1 l1 M2 l2 → spared M2 l2 M3 l3 → spared M1 l1 M3 l3.
Proof. intros H1 H2 page f Hp Hf. destruct (H1 page f Hp Hf). by apply H2. Qed.

Lemma calm_spared {x} k M l l' : calm_with (x := x) k l l' → spared M l M l'.
Proof. intros Hc page f Hp Hf. split; [done|]. by intros Hs%(calm_speculates _ _ _ _ Hc). Qed.

Lemma replace_cache n tks G lo fl he wanted k : ∀ M V c,
  cinv (unseen c + n) M V tks G lo fl he c → N.to_nat (unseen c) = k →
  ∃ c' M' V', replace_unused_from k c wanted = Done c' ∧ passes (F := F) (g := g) (a := a) (fcap := fcap) (reads := reads) (P := P) (W := W) (unseen c' + n) M V tks lo fl he c M' V' G c' ∧
    spared M (prefetch c) M' (prefetch c').
Proof.
  induction k as [|k IH]; intros M V c Hc Hk; cbn [replace_unused_from].
  { exists c, M, V. split; [done|]. split; [by apply passes_refl|done]. }
  rewrite (available_cache _ _ _ _ _ _ _ _ _ Hc). mred. destruct (wanted <=? _); [exists c, M, V; split; [done|]; split; [by apply passes_refl|done]|].
  pose proof (capacity_small _ _ _ _ _ _ _ _ _ Hc) as Hcap. assert (Ledger.replacement_cursor (prefetch c) < Ledger.capacity (prefetch c)) as Hlt by (unfold unseen in Hk; lia).
  rewrite add_ok by lia. mred. set (c1 := set_prefetch c _). assert (unseen c1 + 1 = unseen c ∧ N.to_nat (unseen c1) = k) as [Hu1 Hk1] by (unfold unseen in *; simpl; lia).
  assert (cinv (1 + (unseen c1 + n)) M V tks G lo fl he c1) as Hc1 by (subst c1; apply cinv_cursor; eapply cinv_le; [exact Hc|lia]).
  assert (∀ M2 V2 c2, same_pending V V2 → settles V M V2 M2 → reads_in_flight c2 = reads_in_flight c ∧ global_epoch c2 = global_epoch c →
    cinv (unseen c1 + n) M2 V2 tks G lo fl he c2 → unseen c2 = unseen c1 → spared M (prefetch c) M2 (prefetch c2) →
    ∃ c' M' V', replace_unused_from k c2 wanted = Done c' ∧ passes (F := F) (g := g) (a := a) (fcap := fcap) (reads := reads) (P := P) (W := W) (unseen c' + n) M V tks lo fl he c M' V' G c' ∧ spared M (prefetch c) M' (prefetch c')) as Hgo.
  { intros M2 V2 c2 Hs2 Hst2 Hrd2 Hc2 Hu2 Hsp2. destruct (IH M2 V2 c2) as (c' & M' & V' & He & Hp & Hsp); [by rewrite Hu2|congruence|]. exists c', M', V'. split; [done|]. split; [by eapply passes_trans|by eapply spared_trans]. }
  assert (cinv (unseen c1 + n) M V tks G lo fl he c1) as Hc1' by (eapply cinv_le; [exact Hc1|lia]).
  pose proof (entries_len _ _ _ _ _ _ _ _ _ Hc1) as Hel. destruct (vget_ok (Ledger.entries (prefetch c1)) (Ledger.replacement_cursor (prefetch c))) as (o & -> & Ho); [rewrite Hel; exact Hlt|]. mred.
  destruct o as [e|]; [|by apply (Hgo M V); [done|apply settles_refl|..]]. destruct (Ledger.protected _ e); [by apply (Hgo M V); [done|apply settles_refl|..]|].
  destruct (entry_speculates _ _ _ _ _ (ci_ledger _ _ _ _ _ _ _ _ _ Hc1) Ho) as [Hsp Hf].
  destruct (is_resident_ok _ _ _ _ _ _ _ _ _ _ Hc1 Hf) as (b & -> & Hb). mred. destruct b; simpl negb; [|by apply (Hgo M V); [done|apply settles_refl|..]].
  destruct (try_evict_cache _ _ _ _ _ _ _ _ _ _ Hc1 (proj1 Hb eq_refl)) as (c2 & u & -> & Hu). mred. destruct u; simpl negb.
  - destruct Hu as (_ & (c3 & M3 & V3 & -> & [P1 P2 P3 P4] & Hcalm & Hother) & _). mred. apply (Hgo M3 V3); try done; [unfold unseen; by rewrite (a_capacity _ _ _ Hcalm), (proj2 (a_stamp _ _ _ Hcalm))|].
    intros page f Hm Hno. split; [apply Hother; [done|by intros ->]|by apply (calm_spared _ M _ _ Hcalm page f Hm)].
  - destruct Hu as (V1 & [P1 P2 P3 P4] & Hpf & _). apply (Hgo M V1); try done; [eapply cinv_le; [exact P1|lia]|unfold unseen; by rewrite Hpf|]. by rewrite Hpf.
Qed.

Lemma replace_unused_cache n M V tks G lo fl he c wanted :
  cinv (unseen c + n) M V tks G lo fl he c →
  ∃ c' M' V', prefetch_examined_replace_unused c wanted = Done c' ∧ passes (F := F) (g := g) (a := a) (fcap := fcap) (reads := reads) (P := P) (W := W) (unseen c' + n) M V tks lo fl he c M' V' G c' ∧
    spared M (prefetch c) M' (prefetch c').
Proof. intros Hc. by apply replace_cache. Qed.

Lemma set_prefetch_id c l : set_ledger c (l, clock c) = set_prefetch c l.
Proof. by destruct c. Qed.

Lemma cinv_prefetch n n' M V tks G lo fl he c l :
  cinv n M V tks G lo fl he c → n' ≤ n → lgood n' F l (clock c) → tame (prefetch c) l → cinv n' M V tks G lo fl he (set_prefetch c l).
Proof. rewrite <- set_prefetch_id. by apply cinv_tame. Qed.

(** One obsolete prediction leaves the queue. *)
Lemma obsolete_body_cache n M V tks G lo fl he c :
  cinv (1 + n) M V tks G lo fl he c →
  ∃ r M' V', evict_obsolete_body c = Done r ∧ passes (F := F) (g := g) (a := a) (fcap := fcap) (reads := reads) (P := P) (W := W) n M V tks lo fl he c M' V' G
    (match r with Return c' => c' | Continue c' => c' end) ∧ Ledger.capacity (prefetch (match r with Return c' => c' | Continue c' => c' end)) = Ledger.capacity (prefetch c).
Proof.
  intros Hc. unfold evict_obsolete_body. destruct (pop_cleanup_good _ _ _ _ (ci_ledger _ _ _ _ _ _ _ _ _ Hc)) as (q & o & -> & Hg1 & Hcalm & Ho). mred.
  set (c1 := set_prefetch c (Ledger.set_cleanup (prefetch c) q)).
  assert (cinv (1 + n) M V tks G lo fl he c1) as Hc1 by (eapply cinv_prefetch; [exact Hc|lia|done|by eapply calm_tame]).
  assert (passes (F := F) (g := g) (a := a) (fcap := fcap) (reads := reads) (P := P) (W := W) n M V tks lo fl he c M V G c1) as Hp1 by (split; [eapply cinv_le; [exact Hc1|lia]|done|apply settles_refl|done]).
  destruct o as [i|]; [|eexists _, M, V; split; [done|]; done]. destruct (Ho i eq_refl) as (e & He & Hob & Hf & l2 & Hw & Hg2 & Hcalm2).
  change (Ledger.entries (prefetch c1)) with (Ledger.entries (prefetch c)). rewrite (proj2 (vget_Done _ _ _) He). mred.
  change (prefetch c1) with (Ledger.set_cleanup (prefetch c) q). rewrite Hob. mred.
  destruct (is_resident_ok _ _ _ _ _ _ _ _ _ _ Hc1 Hf) as (b & -> & Hb). mred. destruct b; simpl negb; [|eexists _, M, V; split; [done|]; done].
  destruct (try_evict_cache _ _ _ _ _ _ _ _ _ _ Hc1 (proj1 Hb eq_refl)) as (c2 & u & -> & Hu). mred. destruct u; simpl negb.
  - destruct Hu as (_ & (c3 & M3 & V3 & -> & Hp3 & Hcalm3 & _) & _). mred. eexists _, M3, V3. split; [done|]. split; [|by rewrite (a_capacity _ _ _ Hcalm3)].
    destruct Hp3 as [P1 P2 P3 P4]. by split.
  - destruct Hu as (V1 & [P1 P2 P3 P4] & Hpf & Hck). unfold on_ledger. rewrite Hpf. change (prefetch c1) with (Ledger.set_cleanup (prefetch c) q). rewrite Hw. mred. eexists _, M, V1. split; [done|].
    split; [|exact (a_capacity _ _ _ Hcalm2)]. split; try done. eapply cinv_prefetch; [exact P1|lia| |].
    + rewrite Hck. eapply lgood_le; [exact Hg2|lia].
    + rewrite Hpf. apply calm_tame in Hcalm2 as [T1 T2 T3 T4]. by constructor.
Qed.

#[local] Abbreviation passes := (passes (F := F) (g := g) (a := a) (fcap := fcap) (reads := reads) (P := P) (W := W)).
Definition outcome_of (r : flow Cache Cache) : Cache := match r with Return c => c | Continue c => c end.

(** A loop whose rounds cost one unit each. *)
Lemma passes_loop n M V tks G lo fl he c (body : Cache → outcome (flow Cache Cache)) k :
  (∀ n M V c, cinv (1 + n) M V tks G lo fl he c → ∃ r M' V', body c = Done r ∧ passes n M V tks lo fl he c M' V' G (outcome_of r)) →
  cinv (k + n) M V tks G lo fl he c → ∃ r M' V', for_range body k c = Done r ∧ passes n M V tks lo fl he c M' V' G (outcome_of r).
Proof.
  intros Hbody Hc. rewrite for_range_nat.
  destruct (for_nat_rule body (λ m c1, ∃ M1 V1, passes (N.of_nat m + n) M V tks lo fl he c M1 V1 G c1) (λ c1, ∃ M1 V1, passes n M V tks lo fl he c M1 V1 G c1) (N.to_nat k) c)
    as [(c' & -> & M' & V' & Hp)|(c' & -> & M' & V' & Hp)].
  - intros m c1 (M1 & V1 & [P1 P2 P3 P4]). destruct (Hbody (N.of_nat m + n) M1 V1 c1) as (r & M2 & V2 & -> & Hp2); [eapply cinv_le; [exact P1|lia]|].
    assert (passes (N.of_nat m + n) M V tks lo fl he c M2 V2 G (outcome_of r)) as Hp by (by eapply passes_trans). destruct r as [c2|c2]; [left|right]; exists c2; (split; [done|]); exists M2, V2; [done|].
    destruct Hp as [Q1 Q2 Q3 Q4]. split; try done. eapply cinv_le; [exact Q1|lia].
  - exists M, V. apply passes_refl. by rewrite N2Nat.id.
  - exists (Continue c'), M', V'. done.
  - exists (Return c'), M', V'. done.
Qed.

Lemma evict_obsolete_cache n M V tks G lo fl he c :
  cinv (Ledger.capacity (prefetch c) + n) M V tks G lo fl he c →
  ∃ c' M' V', prefetch_evict_obsolete c = Done c' ∧ passes n M V tks lo fl he c M' V' G c'.
Proof.
  intros Hc. unfold prefetch_evict_obsolete. destruct (passes_loop n M V tks G lo fl he c evict_obsolete_body (Ledger.capacity (prefetch c))) as (r & M' & V' & -> & Hp); [|exact Hc|].
  - intros n1 M1 V1 c1 Hc1. destruct (obsolete_body_cache _ _ _ _ _ _ _ _ _ Hc1) as (r & M' & V' & He & Hp & _). by exists r, M', V'.
  - mred. by exists (outcome_of r), M', V'.
Qed.

Lemma top_up_evict_cache n M V tks G lo fl he c deficit :
  cinv (deficit + n) M V tks G lo fl he c →
  ∃ r M' V', for_range (top_up_body F) deficit c = Done r ∧ passes n M V tks lo fl he c M' V' G (outcome_of r).
Proof.
  apply passes_loop. intros n1 M1 V1 c1 Hc1. unfold top_up_body. destruct (evict_clock_cache _ _ _ _ _ _ _ _ _ Hc1) as (c' & b & M' & V' & -> & Hp). mred.
  destruct b; eexists _, M', V'; (split; [done|]); done.
Qed.
End cache.
End PoolSpeculate.
