(* ===== verification/PoolAdmit.v ===== *)
(** * Admission of speculative runs

    [prefetch_admit_run] over the invariant of the pool: a run of absent pages becomes one
    point read or one vectored read, or the pool is as before and the run is deferred.
    The ledger's entries for a run of predictions are sound only once the run is issued,
    so an admission gives the pool under the old ledger and the new ledger beside it. *)
From stdpp Require Import prelude gmap list.
From Stdlib Require Import NArith ZArith Lia.
From S2P Require Import Prelude Ids Table Frames FrameCensus Clock Epoch FileSlots Miss MissMap Pattern IndexQueue Execute ReadVector ReadSpans Driver PoolBackend Product Ledger LedgerSystem LedgerSafety LedgerCalm LedgerTurns ProductSafety PoolCache PoolInv PoolControl PoolReads PoolRoute PoolReclaim PoolDemand PoolPrefetch PoolSpeculate.

Open Scope N_scope.

Module PoolAdmit.
Import LedgerSafety.LedgerSafety LedgerCalm.LedgerCalm LedgerTurns.LedgerTurns Frames FrameCensus MissMap Execute Driver PoolBackend.PoolBackend PoolCache PoolInv PoolControl PoolReads PoolRoute PoolReclaim PoolDemand PoolPrefetch PoolSpeculate.

(** ** The reads of a vector *)

Section submit.
Context {B : Type} `{!PoolBackend B} {identity g F capacity fcap : N} `{!BackendLaws B identity g F capacity fcap} {a : N}.
Implicit Types (V : gmap N mread) (Q : gmap OpToken flight) (A : Routes).
#[local] Abbreviation qinv := (qinv (B := B) (g := g) (a := a)).
#[local] Abbreviation spanned := (spanned (g := g) (a := a)).

Lemma q_submit_vector Q V Vn fs (b b' : B) batch A A' t file v s span l :
  qinv Q V fs b batch A → sound b → (∀ c, c ∈ batch → c_token c ∈ minted b) → t ∉ minted b → flights b' = <[t := FlyVector file v]> (flights b) →
  (∀ i m, Vn !! i = Some m → m_token m = t ∧ Product.registered fs (pg_file (m_page m)) ∧ pg_granule_idx (m_page m) ≤ U32_MAX ∧
     m_frame m ∈ flight_frames (FlyVector file v)) →
  (∀ i m, V !! i = Some m → m_outcome m = Pending → Vn !! i = None) →
  ReadSpans.flying A' = <[OpToken_slot t := (s, span)]> (ReadSpans.flying A) → ReadSpans.flying A !! OpToken_slot t = None →
  file = pg_file (ReadSpans.first span) → spanned (Vn ∪ V) t span v l →
  qinv (<[t := FlyVector file v]> Q) (Vn ∪ V) fs b' batch A'.
Proof.
  intros Hq Hsb Hmint Hnew Hf Hn Hold HA Hfree Hfile Hsp. pose proof Hq as [Q1 Q2 Q3 Q4 Q5 Q6 Q7 Q8].
  assert (∀ x fl, Q !! x = Some fl → x ≠ t ∧ flights b' !! x = flights b !! x) as HQ.
  { intros x fl Hx. assert (x ≠ t) as Hne by (intros ->; by eapply Hnew, q_token_minted). by rewrite Hf, lookup_insert_ne. }
  assert (∀ j y, V !! j = Some y → m_outcome y = Pending → (Vn ∪ V) !! j = Some y) as Hins.
  { intros j y Hj Hpy. rewrite lookup_union_r; [done|]. by eapply Hold. }
  constructor.
  - intros x fl [[<- <-]|[Hne Hx]]%lookup_insert_Some; [left; by rewrite Hf, lookup_insert_eq|]. unfold carried.
    rewrite (proj2 (HQ _ _ Hx)). by apply Q1.
  - intros x fl. rewrite Hf. intros [[<- <-]|[Hne Hx]]%lookup_insert_Some; [apply lookup_insert_eq|].
    pose proof (Q2 x fl Hx) as H2. destruct fl; try done; by rewrite lookup_insert_ne.
  - intros x Hx Hk. destruct (Q3 x Hx Hk) as (fl & H1 & H2 & H3). exists fl. destruct (HQ _ _ H1) as [Hne ->]. by rewrite lookup_insert_ne.
  - intros x f' f0 len [[<- ?]|[Hne Hx]]%lookup_insert_Some; [done|].
    destruct (Q4 _ _ _ _ Hx) as (j & y & Hj & Hpy & Hrest). exists j, y. split; [by apply Hins|done].
  - intros x f' w [[<- [= <- <-]]|[Hne Hx]]%lookup_insert_Some.
    { exists s, span, l. rewrite HA, lookup_insert_eq. done. }
    destruct (Q5 _ _ _ Hx) as (s' & span' & l' & Hfly & Hfile' & [S1 S2 S3 S4 S5 S6]).
    exists s', span', l'. split_and!; try done; [rewrite HA, lookup_insert_ne; [done|intros Heq; congruence]|]. constructor; try done. intros k f0 Hk Hl.
    destruct (S6 k f0 Hk Hl) as (sp & y & H1 & H2 & H3 & H4 & H5 & H6). exists sp, y. split; [done|]. split; [by apply Hins|done].
  - intros x fl [[_ <-]|[_ Hx]]%lookup_insert_Some; [done|by eapply Q6].
  - intros j y [Hj|[Hj1 Hj]]%lookup_union_Some_raw Hpy.
    + destruct (Hn j y Hj) as (Htk & Hreg & Hidx & Hin). split_and!; try done. eexists. rewrite Htk, lookup_insert_eq. done.
    + destruct (Q7 j y Hj Hpy) as (? & ? & fl & Hfl & Hin). split_and!; try done. exists fl. rewrite lookup_insert_ne; [done|].
      apply not_eq_sym. by apply (HQ _ _ Hfl).
  - intros o s' span' Ho. rewrite HA in Ho. apply lookup_insert_Some in Ho as [[<- [= <- <-]]|[_ Ho]].
    + exists file, v. rewrite (sv_token _ _ _ _ _ Hsp). apply lookup_insert_eq.
    + destruct (Q8 _ _ _ Ho) as (f' & w & Hw). exists f', w. rewrite lookup_insert_ne; [done|]. apply not_eq_sym. by apply (HQ _ _ Hw).
Qed.

(** The operation slot of a read just accepted routes nowhere. *)
Lemma fresh_route Q V fs (b b' : B) A rs slots t fl :
  qinv Q V fs b [] A → ReadSpans.represents slots capacity rs A → sound b → sound b' → t ∉ minted b → flights b' = <[t := fl]> (flights b) →
  ReadSpans.flying A !! OpToken_slot t = None ∧ OpToken_slot t < capacity.
Proof.
  intros Hq Hr Hs Hs' Hnew Hf. split; [|eapply (law_slot b'); [done|by rewrite Hf, lookup_insert_eq]].
  destruct (ReadSpans.flying A !! OpToken_slot t) as [[s span]|] eqn:E; [exfalso|done].
  destruct (ReadSpans.rp_flying _ _ _ _ Hr _ _ _ E) as [Hslot _]. destruct (q_flying _ _ _ _ _ _ Hq _ _ _ E) as (file & v & HQ).
  assert (flights b !! ReadSpans.token span = Some (FlyVector file v)) as Hfl.
  { destruct (q_carried _ _ _ _ _ _ Hq _ _ HQ) as [?|(c & Hc & _)]; [done|by apply elem_of_nil in Hc]. }
  assert (ReadSpans.token span ≠ t) as Hne by (intros <-; by eapply Hnew, law_minted).
  apply Hne, (law_unique b' _ _ (FlyVector file v) fl); try done; rewrite Hf; [by rewrite lookup_insert_ne|apply lookup_insert_eq].
Qed.
End submit.

(** ** Answers of an admission *)

Section runs.
Context {B R : Type} `{!PoolBackend B} `{!Retainer R} {identity g F capacity fcap : N}.
Context `{!BackendLaws B identity g F capacity fcap} `{!RetainerLaws R F fcap}.
Context {a reads slots : N}.
Context (Hg : 0 < g) (Hgmax : g ≤ U32_MAX) (Hreads : reads ≤ U32_MAX).
Implicit Types (p : Pool B R) (V : gmap N mread) (Q : gmap OpToken flight) (A : Routes) (l : Ledger.Prefetch).
#[local] Abbreviation cinv W := (cinv (F := F) (g := g) (a := a) (fcap := fcap) (reads := reads) (P := Product.own_file (identity := identity) (file_capacity := fcap)) (W := W)).
#[local] Abbreviation pool_inv := (pool_inv (identity := identity) (g := g) (F := F) (capacity := capacity) (fcap := fcap) (a := a) (reads := reads) (slots := slots)).

Definition with_ledger p (x : Ledger.Prefetch * Clock.Clock) : Pool B R := set_cache p (set_ledger (cache p) x).

(** The ledger takes the entries of the pages, whatever frames they get. *)
Definition admits l (k : Clock.Clock) (source : Source) (pages : list PageId) : Prop :=
  ∀ r fs, length fs = length pages → free_run (Ledger.set_reserve l r) (zip pages fs) →
    ∃ x, admit_run (Ledger.set_reserve l r) k source (zip pages fs) = Done x.

(** Only the reserve of the ledger has changed. *)
Definition stocked p p' : Prop := ∃ r, prefetch (cache p') = Ledger.set_reserve (prefetch (cache p)) r ∧ clock (cache p') = clock (cache p).

Definition same_turn l l' : Prop :=
  Ledger.capacity l' = Ledger.capacity l ∧ Ledger.replacement_cursor l' = Ledger.replacement_cursor l ∧ Ledger.patterns l' = Ledger.patterns l ∧
  Ledger.frame_entries l' = Ledger.frame_entries l.

Lemma same_turn_trans l1 l2 l3 : same_turn l1 l2 → same_turn l2 l3 → same_turn l1 l3.
Proof. intros (A1 & A2 & A3 & A4) (B1 & B2 & B3 & B4). split_and!; congruence. Qed.

Lemma stocked_turn p p' : stocked p p' → same_turn (prefetch (cache p)) (prefetch (cache p')).
Proof. intros (r & -> & _). done. Qed.

Record entering n M V tks G leases gs p source (pages : list PageId) p' : Prop := {
  en_pool : ∃ q Q' V' A' fs x, p' = with_ledger q x ∧ pool_inv (1 + n) Q' M V' tks G A' leases gs q ∧ kept_pool p q ∧ stocked p q ∧
    length fs = length pages ∧ free_run (prefetch (cache q)) (zip pages fs) ∧
    admit_run (prefetch (cache q)) (clock (cache q)) source (zip pages fs) = Done x ∧
    (∀ f, f ∈ fs → in_state (frames (cache q)) f InFlight) ∧
    (∀ page, absent_page M V page → page ∉ pages → absent_page M V' page);
}.

Definition admission n Q M V tks G A leases gs p source (pages : list PageId) p' (answer : Admission) : Prop :=
  match answer with
  | AdmDeferred => pool_inv n Q M V tks G A leases gs p' ∧ kept_pool p p' ∧ same_turn (prefetch (cache p)) (prefetch (cache p'))
  | AdmAdmitted => entering n M V tks G leases gs p source pages p'
  | _ => False
  end.

Lemma deferred_same n n' Q M V tks G A leases gs p source pages :
  pool_inv n' Q M V tks G A leases gs p → n ≤ n' → admission n Q M V tks G A leases gs p source pages p AdmDeferred.
Proof. intros Hp Hle. split; [by eapply pool_le|done]. Qed.

Lemma pool_capacity n Q M V tks G A leases gs p : pool_inv n Q M V tks G A leases gs p → vlen (pending_frames V) ≤ reads.
Proof.
  intros [[H1 H2 H3 H4 H5 H6 H7 H8 H9] P2 P3 P4 P5]. destruct (ci_miss _ _ _ _ _ _ _ _ _ H1) as [Hr Hs].
  rewrite <- (pending_len_frames _ _ _ _ Hr), <- (ms_pending _ _ _ _ Hs). destruct Hr as (E & Hr & _). apply (Miss.ix_len _ _ (Miss.ti_index _ _ (MissSystem.sr_table _ _ Hr))).
Qed.

(** A refused submission is counted. *)
Lemma refusal_pool n Q M V tks G A leases gs p :
  pool_inv (1 + n) Q M V tks G A leases gs p →
  ∃ p', pool_ledger p (count_refusal (prefetch (cache p))) = Done p' ∧ pool_inv n Q M V tks G A leases gs p' ∧ kept_pool p p' ∧
    same_turn (prefetch (cache p)) (prefetch (cache p')).
Proof.
  intros Hp. pose proof Hp as [[H1 H2 H3 H4 H5 H6 H7 H8 H9] P2 P3 P4 P5]. pose proof (ci_ledger _ _ _ _ _ _ _ _ _ H1) as Hl.
  unfold pool_ledger, on_ledger, count_refusal. pose proof (g_counts _ _ _ _ Hl) as [K1 K2]. rewrite add_ok by lia. mred. eexists. split; [done|]. split; [|done].
  eapply pool_set; [exact Hp| |done..]. eapply (cinv_prefetch (1 + n)); [exact H1|lia| |done].
  pose proof (lgood_counts n F (prefetch (cache p)) (clock (cache p)) 1 0 1 Hl ltac:(lia) ltac:(lia)) as Hx. simpl in Hx. by rewrite N.add_0_r in Hx.
Qed.

(** ** One page *)

Lemma vacant_free n M V tks G lo fl he W c f :
  cinv W n M V tks G lo fl he c → in_state (frames c) f Free → vacant_frame (prefetch c) f ∧ ¬ speculates (prefetch c) f.
Proof.
  intros Hc Hf. assert (¬ speculates (prefetch c) f) as Hns.
  { intros Hsp. destruct (ci_spec _ _ _ _ _ _ _ _ _ Hc f Hsp) as [Hx|Hx]; pose proof (in_state_fun _ _ _ _ Hf Hx); done. }
  split; [|done]. unfold vacant_frame, speculates in *. pose proof (in_state_lt _ _ _ _ _ _ _ (ci_arena _ _ _ _ _ _ _ _ _ Hc) Hf) as Hlt.
  rewrite <- (g_frames _ _ _ _ (ci_ledger _ _ _ _ _ _ _ _ _ Hc)) in Hlt. destruct (vget_ok _ _ Hlt) as ([i|] & _ & Hi); [|done]. exfalso. apply Hns. by exists i.
Qed.

Lemma admitted_absent M V page q f t gen i :
  absent_page M V q → q ≠ page → absent_page M (<[i := mkMiss page f t gen 0 Pending]> V) q.
Proof.
  intros [A1 A2] Hne. split; [done|]. intros j m [[<- <-]|[_ Hm]]%lookup_insert_Some Hp; [done|by eapply A2].
Qed.

Lemma admit_point_pool n Q M V tks G A leases gs p page source :
  pool_inv (2 + n) Q M V tks G A leases gs p → absent_page M V page → registered (files (product p)) (pg_file page) →
  pg_granule_idx page ≤ U32_MAX → fid_slot (pg_file page) < fcap → Ledger.feedback_count (prefetch (cache p)) = 0 →
  admits (prefetch (cache p)) (clock (cache p)) source [page] →
  ∃ p' answer, prefetch_admit_point g reads p page source = Done (p', answer) ∧ admission n Q M V tks G A leases gs p source [page] p' answer.
Proof.
  intros Hp [Hmap Hpages] Hreg Hidx Hslot Hfb Hadm. pose proof Hp as [[H1 H2 H3 H4 H5 H6 H7 H8 H9] P2 P3 P4 P5]. unfold prefetch_admit_point.
  rewrite (available_cache _ _ _ _ _ _ _ _ _ H1). mred.
  destruct ((Ledger.capacity (prefetch (cache p)) - Ledger.occupied (Ledger.stats (prefetch (cache p))) =? 0) || (reads <=? reads_in_flight (cache p))) eqn:Hfull.
  { eexists _, _. split; [done|]. eapply deferred_same; [exact Hp|lia]. }
  apply orb_false_iff in Hfull as [Hcr Hrd]. reflect_bools. destruct (ci_miss _ _ _ _ _ _ _ _ _ H1) as [Hr Hsh].
  destruct (admission_slot_map _ _ _ _ _ _ _ Hr Hsh) as (o & -> & Ho). mred.
  destruct o as [i|]; [|eexists _, _; split; [done|]; eapply deferred_same; [exact Hp|lia]]. destruct (Ho i eq_refl) as (Hi & Hun & Hnp).
  unfold on_cache_, on_cache. destruct (fill_reserve_cache _ _ _ _ _ _ _ _ _ H1) as (s & r & -> & Hc1). mred. change (cache (set_cache p (restocked (cache p) s r))) with (restocked (cache p) s r).
  destruct (pop_reserve_cache _ _ _ _ _ _ _ _ _ Hc1) as (c2 & o & -> & Hc2 & _ & r2 & Heq & Hlen). mred. rewrite app_nil_r in Hc2.
  assert (pool_inv (2 + n) Q M V tks G A leases gs (set_cache p (restocked (cache p) s r))) as Hp1 by (by eapply pool_set).
  destruct o as [f|].
  2: { eexists _, _. split; [done|]. split; [|split; [done|by subst c2]]. eapply (pool_le (2 + n)); [|lia]. eapply pool_set; [exact Hp1|exact Hc2|done|by subst c2..]. }
  simpl in Hc2. change (cache (set_cache (set_cache p (restocked (cache p) s r)) c2)) with c2.
  assert (in_state (frames c2) f Free) as Hfree by (apply (ci_census _ _ _ _ _ _ _ _ _ Hc2 Free); simpl; set_solver).
  destruct (vacant_free _ _ _ _ _ _ _ _ _ _ _ Hc2 Hfree) as [Hvac Hns].
  destruct (claim_cache _ _ _ _ _ _ _ _ _ f page Hc2) as (h & -> & Hc3 & Hpg & _ & _). mred.
  change (set_cache (set_cache (set_cache p (restocked (cache p) s r)) c2) (set_frames c2 h)) with (set_cache p (set_frames c2 h)).
  destruct (submit_pool Hg Hgmax Hreads (2 + n) Q M V tks G A leases gs p (set_frames c2 h) f page Speculative Hp Hc3 Hreg Hidx) as (b & res & -> & Hs & Hl & Hres). mred.
  change (cache (set_driver (set_cache p (set_frames c2 h)) b)) with (set_frames c2 h). assert (reads_in_flight c2 = reads_in_flight (cache p) ∧ global_epoch c2 = global_epoch (cache p)) as [Hrd2 Hep2] by by subst c2.
  destruct res as [t|[e w]].
  - destruct Hres as (Hnew & Hmint & Hfl). unfold credit in H6.
    destruct (admit_pool (a := a) (slots := slots) Hg Hgmax Hreads (1 + n) Q M V tks G A leases gs p (set_frames c2 h) f page i t b Miss.Speculative) as (k & tbl & ints & gen & Hk1 & Hadd & Hp2); try done.
    { eapply pool_le; [exact Hp|lia]. }
    { eapply cinv_le; [exact Hc3|lia]. }
    { lia. }
    unfold add_. rewrite Hk1. mred. simpl in Hadd. unfold Miss.admit_speculative. simpl miss. simpl miss_interests. rewrite Hadd. mred. unfold admit_ledger. simpl prefetch. simpl clock.
    assert (prefetch c2 = Ledger.set_reserve (prefetch (cache p)) r2 ∧ clock c2 = clock (cache p)) as [Hpf Hck] by by subst c2.
    assert (free_run (prefetch c2) (zip [page] [f])) as Hrun.
    { rewrite Hpf. split_and!; simpl; [done|unfold vlen; simpl; lia|apply NoDup_singleton|]. apply Forall_singleton. by rewrite Hpf in Hvac. }
    destruct (Hadm r2 [f] eq_refl) as (x & Hx); [by rewrite <- Hpf|]. pose proof Hx as Hx'. simpl in Hx. apply outcome_bind_Done in Hx as ([l' k'] & Hx & Heq'). injection Heq' as <-.
    rewrite Hpf, Hck, Hx. mred. eexists _, AdmAdmitted. split; [done|]. constructor.
    match type of Hp2 with pool_inv _ _ _ _ _ _ _ _ _ ?q => exists q end. eexists _, _, A, [f], (l', k'). split; [done|]. split; [exact Hp2|].
    split; [done|]. split; [by exists r2|]. split; [done|]. split; [exact Hrun|]. split; [simpl cache; simpl prefetch; simpl clock; by rewrite Hpf, Hck|]. split.
    + intros f' ->%list_elem_of_singleton. apply (ci_census _ _ _ _ _ _ _ _ _ Hc3 InFlight). simpl. set_solver.
    + intros q Hq Hne. apply admitted_absent; [done|set_solver].
  - destruct Hres as (-> & Hmint & Hfl). destruct (ci_reserve _ _ _ _ _ _ _ _ _ Hc1) as [R1 R2]. destruct (ci_reserve _ _ _ _ _ _ _ _ _ Hc2) as [R3 R4].
    pose proof (stack_len _ R1) as E1. pose proof (stack_len _ R3) as E2. unfold stack_wf in R1.
    destruct (abort_reserve_cache Hg Hgmax _ _ _ _ _ _ _ _ _ f Hc3 Hns) as (h' & r' & Hab & Hc4 & _).
    { subst c2. simpl in *. unfold vlen in *. simpl in *. lia. }
    rewrite Hab. mred. set (c4 := set_prefetch (set_frames (set_frames c2 h) h') _) in *.
    pose proof (pool_driver (2 + n) Q M V tks G A leases gs p b Hp Hs Hl Hmint Hfl) as Hpd.
    assert (pool_inv (1 + (1 + n)) Q M V tks G A leases gs (set_cache (set_driver (set_cache p (set_frames c2 h)) b) c4)) as Hp4.
    { change (set_cache (set_driver (set_cache p (set_frames c2 h)) b) c4) with (set_cache (set_driver p b) c4). replace (1 + (1 + n)) with (2 + n) by lia.
      eapply pool_set; [exact Hpd|exact Hc4|done|by subst c4 c2..]. }
    destruct (refusal_pool _ _ _ _ _ _ _ _ _ _ Hp4) as (p' & -> & Hp' & Hk & Ht). mred. eexists _, _. split; [done|]. split; [eapply pool_le; [exact Hp'|lia]|].
    split; [eapply kept_trans; [|exact Hk]; done|]. eapply same_turn_trans; [|exact Ht]. by subst c4 c2.
Qed.

(** ** The misses of a vector *)

Lemma misses_lookup t (ls : list slotted) gens i m :
  NoDup ls.*2 → length gens = length ls →
  (list_to_map (misses_of t ls gens) : gmap N mread) !! i = Some m ↔
    ∃ (k : nat) page f gen, ls !! k = Some (page, f, i) ∧ gens !! k = Some gen ∧ m = mkMiss page f t gen 0 Pending.
Proof.
  intros Hnd Hlen. assert ((misses_of t ls gens).*1 = ls.*2) as Hk.
  { unfold misses_of. revert gens Hlen. induction ls as [|x ls IH]; intros [|y gens] Hlen; try done. simpl. f_equal. apply IH; [by apply NoDup_cons in Hnd as [_ ?]|simpl in Hlen; lia]. }
  rewrite <- elem_of_list_to_map by by rewrite Hk. unfold misses_of. rewrite elem_of_lookup_zip_with. split.
  - intros (k & [[page f] j] & gen & Heq & H1 & H2). simpl in Heq. injection Heq as -> ->. by exists k, page, f, gen.
  - intros (k & page & f & gen & H1 & H2 & ->). by exists k, (page, f, i), gen.
Qed.

Lemma new_span first t (count : N) span :
  ReadSpans.new first t count g = Done span → count ≤ ReadVector.VECTOR_FRAMES_MAX → filling span 0 ∧ ReadSpans.count span = count ∧ ReadSpans.published span = 0 ∧ ReadSpans.filled span = 0.
Proof.
  unfold ReadSpans.new. intros H Hc. inv_done. split; [|done]. constructor; simpl; [done|done|].
  intros k _ Hk. apply (lookup_replicate_2 (N.to_nat ReadVector.VECTOR_FRAMES_MAX)). lia.
Qed.

Lemma all_some_spec {X} (l : list (option X)) (k : nat) :
  (∀ j, (j < k)%nat → ∃ x, l !! j = Some (Some x)) → ReadSpans.all_some (take k l) = true.
Proof.
  intros H. unfold ReadSpans.all_some. apply forallb_forall. intros o Ho. apply list_elem_of_In, list_elem_of_lookup in Ho as [j Hj].
  apply lookup_take_Some in Hj as [Hj Hlt]. destruct (H j Hlt) as [x Hx]. rewrite Hx in Hj. by injection Hj as <-.
Qed.

(** The pages of a run with the frames and the slots they get. *)
Record run_ok (M : gmap PageId ReadFrameIdx) V (tks : list PendingToken) (h : Frames) (first : PageId) (pages : list PageId) (fs : list ReadFrameIdx) (ss : list N) : Prop := {
  ru_slots : NoDup ss ∧ ∀ i, i ∈ ss → i < F ∧ unwatched tks i ∧ ∀ m, V !! i = Some m → m_outcome m ≠ Pending;
  ru_lengths : length fs = length pages ∧ length ss = length pages;
  ru_absent : ∀ page, page ∈ pages → absent_page M V page;
  ru_file : fid_slot (pg_file first) < fcap;
  ru_pages : ∀ (k : nat) page, pages !! k = Some page → page = mkPageId (pg_file first) (pg_granule_idx first + N.of_nat k);
  ru_fits : pg_granule_idx first + vlen pages ≤ U32_MAX + 1;
  ru_named : ∀ (k : nat) f page, fs !! k = Some f → pages !! k = Some page → page_at h f = Some (Some page);
  ru_reads : vlen (pending_frames V) + vlen pages ≤ reads;
  ru_width : 2 ≤ vlen pages ∧ vlen pages ≤ ReadVector.VECTOR_FRAMES_MAX ∧ vlen pages * g ≤ ReadVector.VECTOR_BYTES_MAX;
}.

Definition slotted_run (pages : list PageId) (fs : list ReadFrameIdx) (ss : list N) : list slotted := zip (zip pages fs) ss.

Lemma slotted_fields pages fs ss : length fs = length pages → length ss = length pages →
  (slotted_run pages fs ss).*1 = zip pages fs ∧ (slotted_run pages fs ss).*1.*2 = fs ∧ (slotted_run pages fs ss).*1.*1 = pages ∧ (slotted_run pages fs ss).*2 = ss ∧
  length (slotted_run pages fs ss) = length pages.
Proof.
  intros H1 H2. unfold slotted_run. assert (length (zip pages fs) = length pages) as Hl by (rewrite length_zip_with; lia).
  assert ((zip (zip pages fs) ss).*1 = zip pages fs) as -> by (apply fst_zip; lia). split_and!; [done|apply snd_zip; lia|apply fst_zip; lia|apply snd_zip; lia|].
  rewrite length_zip_with. lia.
Qed.

Lemma run_nodup M V tks h first pages fs ss : run_ok M V tks h first pages fs ss → NoDup pages.
Proof.
  intros Hr. apply NoDup_alt. intros i j page Hi Hj. rewrite (ru_pages _ _ _ _ _ _ _ _ Hr i page Hi) in *.
  pose proof (ru_pages _ _ _ _ _ _ _ _ Hr j _ Hj) as [=]. lia.
Qed.

Lemma slotted_lookup pages fs ss (k : nat) page f i : slotted_run pages fs ss !! k = Some (page, f, i) ↔ pages !! k = Some page ∧ fs !! k = Some f ∧ ss !! k = Some i.
Proof.
  unfold slotted_run. rewrite lookup_zip_with_Some. split.
  - intros ([q f'] & j & Heq & (q' & f'' & Heq' & H1 & H2)%lookup_zip_with_Some & H3). simplify_eq. done.
  - intros (H1 & H2 & H3). exists (page, f), i. split; [done|]. split; [|done]. apply lookup_zip_with_Some. by exists page, f.
Qed.

Lemma run_installable M V tks h first pages fs ss :
  run_ok M V tks h first pages fs ss → installable (F := F) (fcap := fcap) (reads := reads) M V tks h (slotted_run pages fs ss).
Proof.
  intros Hr. pose proof (run_nodup _ _ _ _ _ _ _ _ Hr) as Hnd. destruct Hr as [[R1 R1'] [R2 R2'] R3 R4 R5 R6 R7 R8 R9].
  destruct (slotted_fields pages fs ss R2 R2') as (E1 & E2 & E3 & E4 & E5). constructor; rewrite ?E3, ?E4; try done.
  - intros page Hp. split; [by apply R3|]. apply list_elem_of_lookup in Hp as [k Hk]. by rewrite (R5 k page Hk).
  - intros page f i (k & (Hk & Hf & _)%slotted_lookup)%list_elem_of_lookup. by eapply R7.
  - unfold vlen in *. by rewrite E5.
Qed.

(** ** An accepted vector *)

Lemma span_waits M V tks h first pages fs ss gens t span ps v d :
  run_ok M V tks h first pages fs ss → granule h = g → ReadVector.bundle h (token_of a <$> fs) v → ReadVector.filled v = 0 → length gens = length pages →
  ReadSpans.new first t (vlen pages) g = Done span → ReadSpans.covers h (token_of a <$> fs) span v → ReadSpans.first span = first → ReadSpans.token span = t →
  (∀ (k : nat) x gen, slotted_run pages fs ss !! k = Some x → gens !! k = Some gen → ps !! k = Some (Some (ReadSpans.mkSpanPage x.2 gen))) →
  spanned (g := g) (a := a) (list_to_map (misses_of t (slotted_run pages fs ss) gens) ∪ V) t (with_pages span ps) (with_operation v d t) (token_of a <$> fs).
Proof.
  intros Hr Hh Hb Hz Hgens Hnew Hcov Hfirst Htok Hps. pose proof Hr as [[R1 R1'] [R2 R2'] R3 R4 R5 R6 R7 R8 (R9 & R10 & R11)].
  destruct (slotted_fields pages fs ss R2 R2') as (E1 & E2 & E3 & E4 & E5). destruct (new_span _ _ _ _ Hnew R10) as (Hfl & Hcnt & Hpub & Hfill).
  assert (vlen (token_of a <$> fs) = vlen pages) as Hlen by (unfold vlen; by rewrite length_fmap, R2).
  constructor; simpl; try done.
  - intros h' Hh'. apply (ReadSpans.covers_granule h); [congruence|]. apply covers_operation. destruct Hcov as [V1 V2 V3 V4 V5 V6]. by constructor.
  - rewrite Hfill, (ReadSpans.cv_bytes _ _ _ _ Hcov), Hlen, Hh. nia.
  - rewrite Hfirst, Hlen. exact R6.
  - intros k f _ Hf. apply list_lookup_fmap_Some in Hf as (f0 & -> & Hf0). pose proof (lookup_lt_Some _ _ _ Hf0) as Hlt.
    destruct (lookup_lt_is_Some_2 pages (N.to_nat k)) as [page Hpage]; [lia|]. destruct (lookup_lt_is_Some_2 ss (N.to_nat k)) as [i Hi]; [lia|].
    destruct (lookup_lt_is_Some_2 gens (N.to_nat k)) as [gen Hgen]; [lia|].
    assert (slotted_run pages fs ss !! N.to_nat k = Some (page, f0, i)) as Hx by by apply slotted_lookup.
    exists (ReadSpans.mkSpanPage i gen), (mkMiss page f0 t gen 0 Pending). simpl. split; [by apply (Hps _ _ _ Hx Hgen)|]. split.
    + apply lookup_union_Some_l. apply misses_lookup; [by rewrite E4|lia|]. by exists (N.to_nat k), page, f0, gen.
    + split_and!; try done. rewrite (R5 _ _ Hpage), Hfirst, N2Nat.id. done.
Qed.

Lemma misses_absent M V t pages fs ss gens q :
  length fs = length pages → length ss = length pages → length gens = length pages → NoDup ss →
  absent_page M V q → q ∉ pages → absent_page M (list_to_map (misses_of t (slotted_run pages fs ss) gens) ∪ V) q.
Proof.
  intros R2 R2' Hgens Hnd [A1 A2] Hq. destruct (slotted_fields pages fs ss R2 R2') as (E1 & E2 & E3 & E4 & E5). split; [done|].
  intros j m [Hj|[_ Hj]]%lookup_union_Some_raw Hp; [|by eapply A2].
  apply misses_lookup in Hj as (k & page & f & gen & (Hk & _)%slotted_lookup & _ & ->); [|by rewrite E4|lia]. simpl. intros ->. apply Hq. by eapply list_elem_of_lookup_2.
Qed.

Lemma install_pool n Q M V tks G A leases gs p c rs s source pages fs ss first b t v d x :
  pool_inv n Q M V tks G A leases gs p → cinv (watch (readers p) gs) (vlen pages + n) M V tks G [] fs (held (retention p)) c →
  reads_in_flight c = reads_in_flight (cache p) → global_epoch c = global_epoch (cache p) →
  ReadVector.bundle (frames c) (token_of a <$> fs) v → ReadVector.filled v = 0 → run_ok M V tks (frames c) first pages fs ss →
  ReadSpans.represents slots capacity rs (ReadSpans.mkRoutes ({[s]} ∪ ReadSpans.reserved A) (ReadSpans.flying A) (ReadSpans.landing A)) →
  registered (files (product p)) (pg_file first) → admit_run (prefetch c) (clock c) source (zip pages fs) = Done x →
  sound b → live b = live (PoolControl.driver p) → t ∉ minted (PoolControl.driver p) → minted b = {[t]} ∪ minted (PoolControl.driver p) →
  flights b = <[t := FlyVector (pg_file first) (with_operation v d t)]> (flights (PoolControl.driver p)) →
  ∃ span c' span' k rs' q Q' V' A', ReadSpans.new first t (vlen pages) g = Done span ∧ install_each c span t source 0 (slotted_run pages fs ss) = Done (c', span') ∧
    add_ U32_MAX (reads_in_flight c') (vlen pages) = Done k ∧ ReadSpans.commit rs s span' = Done rs' ∧
    set_spans (set_cache (PoolControl.set_driver (set_spans p rs) b) (set_reads c' k)) rs' = with_ledger q x ∧ pool_inv n Q' M V' tks G A' leases gs q ∧ kept_pool p q ∧
    prefetch (cache q) = prefetch c ∧ clock (cache q) = clock c ∧ frames (cache q) = frames c ∧
    (∀ page, absent_page M V page → page ∉ pages → absent_page M V' page).
Proof.
  intros Hp Hc Hrd Hep Hb Hz Hr Hrs Hreg Hadm Hsb Hlb Hnew Hmint Hfl. destruct Hp as [[H1 H2 H3 H4 H5 H6 H7 H8 H9] P2 P3 P4 P5].
  pose proof Hr as [[R1 R1'] [R2 R2'] R3 R4 R5 R6 R7 R8 (R9 & R10 & R11)]. destruct (slotted_fields pages fs ss R2 R2') as (E1 & E2 & E3 & E4 & E5).
  assert (granule (frames c) = g) as Hgr by apply (ao_granule _ _ _ _ _ (ci_arena _ _ _ _ _ _ _ _ _ Hc)).
  assert (vlen (token_of a <$> fs) = vlen pages) as Hlen by (unfold vlen; by rewrite length_fmap, R2).
  destruct (ReadSpans.new_covers (frames c) ltac:(lia) (token_of a <$> fs) v first t Hb Hz) as (span & Hspan & Hcov & _ & Hfirst & Htok); [rewrite ?Hlen, ?Hgr; done..|].
  rewrite Hlen, Hgr in Hspan. destruct (new_span _ _ _ _ Hspan R10) as (Hfill & Hcnt & Hpub & Hz').
  assert (vlen (slotted_run pages fs ss) = vlen pages) as Hvl by (unfold vlen; by rewrite E5).
  destruct x as [l' k']. assert (set_ledger c (prefetch c, clock c) = c) as Hid by by destruct c.
  destruct (install_each_cache (F := F) (a := a) (fcap := fcap) (reads := reads) (P := Product.own_file (identity := identity) (file_capacity := fcap)) (W := watch (readers p) gs) Hg Hgmax n M tks G (held (retention p)) t source (prefetch c) (clock c) l' k' (slotted_run pages fs ss) V c span 0) as (m & ints & ps & gens & Hinst & Hc1 & Hpend & Hgens & Hpsl & _ & Hps);
    [by rewrite Hvl, E2, Hid|by rewrite E1|by eapply run_installable|done|rewrite Hvl; lia|].
  change (N.to_nat 0 + ?k)%nat with k in Hps. set (Vn := list_to_map (misses_of t (slotted_run pages fs ss) gens) : gmap N mread) in *.
  assert (spanned (g := g) (a := a) (Vn ∪ V) t (with_pages span ps) (with_operation v d t) (token_of a <$> fs)) as Hsp by (eapply span_waits; try done; lia).
  rewrite P2, app_nil_r in *. pose proof (Product.pi_sound _ _ _ _ H2) as Hs. destruct (fresh_route _ _ _ _ _ _ _ _ _ _ H3 H4 Hs Hsb Hnew Hfl) as [Hfree Hslot].
  destruct (ReadSpans.commit_represents _ _ rs _ s (with_pages span ps) Hrs) as (ans & rs' & A' & Hco & Hsv & Hrep).
  { simpl. rewrite Htok, (proj2 H5), Hpsl, Hcnt. split_and!; try done; [set_solver|]. apply all_some_spec. intros j Hj.
    destruct (lookup_lt_is_Some_2 (slotted_run pages fs ss) j) as [y Hy]; [unfold vlen in *; lia|]. destruct (lookup_lt_is_Some_2 gens j) as [gen Hgen]; [unfold vlen in *; lia|].
    eexists. by apply (Hps j y gen). }
  simpl in Hco. apply outcome_bind_Done in Hco as (rs2 & Hco & Heq). injection Heq as <- <-. inversion Hsv as [| | |s0 sp0| | | |]; subst s0 sp0 A'. simpl in Hrep. rewrite Htok in Hrep.
  unfold credit in H6. assert (vlen (pending_frames (Vn ∪ V)) ≤ reads) as Hcap by (rewrite Hpend; lia).
  set (k := vlen (pending_frames (Vn ∪ V))) in *. set (c1 := set_reads (aside c m ints (prefetch c, clock c)) k).
  exists span, (aside c m ints (l', k')), (with_pages span ps), k, rs2, (set_spans (set_cache (PoolControl.set_driver (set_spans p rs) b) c1) rs2), (<[t := FlyVector (pg_file first) (with_operation v d t)]> Q), (Vn ∪ V).
  eexists. split; [done|]. split; [exact Hinst|]. split; [simpl; rewrite add_ok by lia; f_equal; rewrite Hpend; lia|]. split; [exact Hco|]. split; [done|].
  split; [|split_and!; try done; intros q Hq Hnq; eapply misses_absent; try done; lia].
  constructor; simpl; try done; [|by rewrite Hep]. constructor; simpl; rewrite ?app_nil_r, ?P2; try done.
  - apply (cinv_reads _ _ _ _ _ _ _ _ _ k) in Hc1. exact Hc1.
  - apply Product.reads_ok; try done. eapply agrees_read; try done; first [by intros [] ? ?|intros y Hy; by apply elem_of_nil in Hy].
  - change (PoolControl.driver _) with b. eapply (q_submit_vector Q V Vn _ (PoolControl.driver p) b [] A _ t (pg_file first) (with_operation v d t) s (with_pages span ps)); try done.
    + intros i y Hy. pose proof Hy as Hy'. apply misses_lookup in Hy as (j & page & f & gen & (Hj & Hf & Hi)%slotted_lookup & Hgen & ->); [|by rewrite E4|lia]. simpl.
      rewrite (R5 _ _ Hj). simpl. pose proof (lookup_lt_Some _ _ _ Hj). split_and!; try done; [unfold vlen in R6; lia|].
      apply (spanned_frames _ _ _ _ _ f Hsp). exists (N.of_nat j), (token_of a f). simpl. rewrite Hpub, Nat2N.id, list_lookup_fmap, Hf. split_and!; [lia|done|by rewrite token_frame].
    + intros i y Hy Hpy. destruct (Vn !! i) as [z|] eqn:E; [exfalso|done]. apply misses_lookup in E as (j & page & f & gen & (Hj & Hf & Hi)%slotted_lookup & Hgen & ->); [|by rewrite E4|lia].
      destruct (R1' i) as (_ & _ & Hno); [by eapply list_elem_of_lookup_2|]. by eapply Hno.
    + simpl; by rewrite Hfirst.
  - rewrite (proj1 H5). split; [set_solver|apply H5].
  - intros y Hy. by apply elem_of_nil in Hy.
Qed.

(** ** Routes of a vector *)

Definition reserving A (s : N) : Routes := ReadSpans.mkRoutes ({[s]} ∪ ReadSpans.reserved A) (ReadSpans.flying A) (ReadSpans.landing A).

Lemma pool_spans n Q M V tks G A leases gs p rs :
  pool_inv n Q M V tks G A leases gs p → ReadSpans.represents slots capacity rs A → pool_inv n Q M V tks G A leases gs (set_spans p rs).
Proof. intros [[H1 H2 H3 H4 H5 H6 H7 H8 H9] P2 P3 P4 P5] Hr. by constructor. Qed.

Lemma reserve_pool n Q M V tks G A leases gs p :
  pool_inv n Q M V tks G A leases gs p →
  ∃ o rs, ReadSpans.reserve (read_spans p) = Done (o, rs) ∧
    match o with
    | Some s => ReadSpans.represents slots capacity rs (reserving A s)
    | None => pool_inv n Q M V tks G A leases gs (set_spans p rs)
    end.
Proof.
  intros Hp. pose proof Hp as [[H1 H2 H3 H4 H5 H6 H7 H8 H9] P2 P3 P4 P5].
  destruct (ReadSpans.reserve_represents _ _ _ _ H4) as (ans & rs & A' & He & Hs & Hr). simpl in He. apply outcome_bind_Done in He as ([o rs'] & He & Heq).
  injection Heq as <- <-. exists o, rs'. split; [done|]. inversion Hs; subst; [done|by apply pool_spans].
Qed.

Lemma cancel_pool n Q M V tks G A leases gs p q s :
  pool_inv n Q M V tks G A leases gs p → ReadSpans.represents slots capacity (read_spans q) (reserving A s) → set_spans q (read_spans p) = p →
  ∃ q', cancel_route q s = Done q' ∧ pool_inv n Q M V tks G A leases gs q' ∧ kept_pool p q' ∧ prefetch (cache q') = prefetch (cache p).
Proof.
  intros Hp Hr Hq. pose proof Hp as [[H1 H2 H3 H4 H5 H6 H7 H8 H9] P2 P3 P4 P5]. unfold cancel_route.
  destruct (ReadSpans.cancel_represents _ _ (read_spans q) _ s Hr) as (ans & rs & A' & He & Hs & Hr'); [simpl; set_solver|].
  simpl in He. apply outcome_bind_Done in He as (rs' & He & Heq). injection Heq as <- <-. rewrite He. mred. inversion Hs; subst. simpl in Hr'.
  assert (set_spans q rs' = set_spans p rs') as -> by (rewrite <- Hq; by destruct q). eexists. split; [done|]. split; [|done]. apply pool_spans; [exact Hp|].
  replace A with (ReadSpans.mkRoutes (({[s]} ∪ ReadSpans.reserved A) ∖ {[s]}) (ReadSpans.flying A) (ReadSpans.landing A)); [done|].
  destruct A as [ra fa la]. simpl in *. destruct H5 as [-> _]. f_equal. set_solver.
Qed.

(** The pages of a run follow one another. *)
Definition straight (first : PageId) (pages : list PageId) : Prop :=
  pages ≠ [] ∧ (∀ (k : nat) page, pages !! k = Some page → page = mkPageId (pg_file first) (pg_granule_idx first + N.of_nat k)) ∧
  pg_granule_idx first + vlen pages ≤ U32_MAX + 1.

Lemma straight_head first pages : straight first pages → head pages = Some first.
Proof.
  intros (Hne & Hk & _). destruct pages as [|page pages]; [done|]. simpl. f_equal. rewrite (Hk 0%nat page eq_refl), N.add_0_r. by destruct first.
Qed.

Lemma straight_consecutive first pages : straight first pages → consecutive pages = true.
Proof.
  intros (_ & Hk & Hfit). revert first Hk Hfit. induction pages as [|page pages IH]; intros first Hk Hfit; [done|]. destruct pages as [|q pages]; [done|].
  assert (vlen (page :: q :: pages) = vlen (q :: pages) + 1) as Hl by (unfold vlen; simpl; lia). rewrite Hl in Hfit. assert (1 ≤ vlen (q :: pages)) as Hl1 by (unfold vlen; simpl; lia).
  cbn [consecutive]. apply andb_true_iff. pose proof (Hk 0%nat page eq_refl) as Hp0. pose proof (Hk 1%nat q eq_refl) as Hp1. split.
  - unfold Pattern.follows. rewrite Hp0, Hp1. simpl. rewrite bool_decide_eq_true_2 by done. simpl. apply bool_decide_eq_true_2. unfold checked_add.
    rewrite (proj2 (N.leb_le _ _)) by lia. f_equal. lia.
  - apply (IH (mkPageId (pg_file first) (pg_granule_idx first + 1))); simpl; [|lia]. intros k r Hr. rewrite (Hk (S k) r Hr). f_equal. lia.
Qed.

Lemma submit_vector_pool n Q M V tks G A leases gs p c (fs : list ReadFrameIdx) v first :
  pool_inv n Q M V tks G A leases gs p → cinv (watch (readers p) gs) n M V tks G [] fs (held (retention p)) c →
  ReadVector.bundle (frames c) (token_of a <$> fs) v → ReadVector.filled v = 0 → ReadVector.operation v = None →
  2 ≤ vlen fs → vlen fs ≤ ReadVector.VECTOR_FRAMES_MAX → registered (files (product p)) (pg_file first) → pg_granule_idx first + vlen fs ≤ U32_MAX + 1 →
  ∃ offset fd b r, checked_mul U64_MAX (pg_granule_idx first) g = Some offset ∧ Product.registered_file (files (product p)) (pg_file first) = Done fd ∧
    submit_read_vector (frames c) (PoolControl.driver p) fd v offset = Done (b, r) ∧ sound b ∧ live b = live (PoolControl.driver p) ∧
    match r with
    | inl t => (t ∉ minted (PoolControl.driver p)) ∧ minted b = {[t]} ∪ minted (PoolControl.driver p) ∧
        ∃ d, flights b = <[t := FlyVector (pg_file first) (with_operation v d t)]> (flights (PoolControl.driver p))
    | inr (_, w) => w = v ∧ minted b = minted (PoolControl.driver p) ∧ flights b = flights (PoolControl.driver p)
    end.
Proof.
  intros [[H1 H2 H3 H4 H5 H6 H7 H8 H9] P2 P3 P4 P5] Hc Hb Hz Hop H2l Hmax Hreg Hfit. assert (vlen (token_of a <$> fs) = vlen fs) as Hlen by (unfold vlen; by rewrite length_fmap).
  assert (granule (frames c) = g) as Hgr by apply (ao_granule _ _ _ _ _ (ci_arena _ _ _ _ _ _ _ _ _ Hc)). pose proof Hb as [B1 B2 B3 B4 B5 B6]. rewrite Hgr, Hlen in *.
  assert (ReadVector.ordinal v = 0) as Hord by nia. assert (pg_granule_idx first * g ≤ U64_MAX) as Hoff by (unfold U64_MAX, U32_MAX in *; nia).
  destruct (Product.registered_file_ok _ _ _ _ _ (Product.pi_files _ _ _ _ H2) Hreg) as (h & Hrf & Hid & Hok). exists (pg_granule_idx first * g), h.
  pose proof (Product.pi_sound _ _ _ _ H2) as Hs.
  destruct (law_submit_read_vector (frames c) (PoolControl.driver p) h v (pg_granule_idx first * g)) as (b & r & He & Hs' & Hl' & Hr); try done.
  - apply Hok.
  - apply (direct_accepts (g := g)); [apply Hok|eauto].
  - apply Hok.
  - split; [by exists (token_of a <$> fs)|]. split; [|rewrite Hord, Hz, Hgr, B3; split; [by rewrite N.Div0.div_0_l|nia]].
    intros f Hf. apply (ReadVector.owned_frames _ _ _ _ Hb) in Hf. rewrite Hord in Hf. apply list_elem_of_fmap in Hf as (f0 & -> & Hf0). by eapply (vector_transferable Hg Hgmax).
  - lia.
  - lia.
  - unfold bytes_left. rewrite B3, Hz. unfold U64_MAX, U32_MAX in *. nia.
  - exists b, r. unfold checked_mul. rewrite (proj2 (N.leb_le _ _) Hoff). split_and!; try done. rewrite Hid in Hr. destruct r as [t|[e w]]; done.
Qed.

(** A refused vector: its frames return to the reserve and its route is cancelled. *)
Lemma refused_vector_pool n Q M V tks G A leases gs p c rs s b v (fs : list ReadFrameIdx) :
  pool_inv (1 + n) Q M V tks G A leases gs p → cinv (watch (readers p) gs) (1 + n) M V tks G [] fs (held (retention p)) c →
  reads_in_flight c = reads_in_flight (cache p) → global_epoch c = global_epoch (cache p) → same_turn (prefetch (cache p)) (prefetch c) →
  ReadVector.bundle (frames c) (token_of a <$> fs) v → ReadVector.filled v = 0 → ReadSpans.represents slots capacity rs (reserving A s) →
  (∀ f, f ∈ fs → ¬ speculates (prefetch c) f) → ff_len (Ledger.reserve (prefetch c)) + vlen fs ≤ Ledger.capacity (prefetch c) →
  sound b → live b = live (PoolControl.driver p) → minted b = minted (PoolControl.driver p) → flights b = flights (PoolControl.driver p) →
  ∃ calls v' p1 p2 p3, ReadVector.take_remaining v = Done (calls, v') ∧ on_cache_ (PoolControl.set_driver (set_cache (set_spans p rs) c) b) (abort_each c calls) = Done p1 ∧
    cancel_route p1 s = Done p2 ∧ pool_ledger p2 (count_refusal (prefetch (cache p2))) = Done p3 ∧
    pool_inv n Q M V tks G A leases gs p3 ∧ kept_pool p p3 ∧ same_turn (prefetch (cache p)) (prefetch (cache p3)).
Proof.
  intros Hp Hc Hrd Hep Ht Hb Hz Hrs Hns Hroom Hsb Hlb Hmint Hfl. assert (granule (frames c) = g) as Hgr by apply (ao_granule _ _ _ _ _ (ci_arena _ _ _ _ _ _ _ _ _ Hc)).
  assert (ReadVector.ordinal v = 0) as Hord by (pose proof (ReadVector.b_ordinal _ _ _ Hb); nia).
  destruct (ReadVector.take_remaining_bundle (frames c) ltac:(lia) _ _ Hb) as (v' & Htake & _). rewrite Hord in Htake. change (drop (N.to_nat 0) ?l) with l in Htake.
  destruct (abort_each_cache Hg Hgmax _ _ _ _ _ _ fs 0 c Hc Hns Hroom) as (h & r & Hab & Hc1). exists (ReadVector.number 0 (token_of a <$> fs)), v'. unfold on_cache_. rewrite Hab. mred.
  set (p1 := set_cache (PoolControl.set_driver (set_cache (set_spans p rs) c) b) (reframed c h r)). set (q := set_cache (PoolControl.set_driver p b) (reframed c h r)).
  assert (pool_inv (1 + n) Q M V tks G A leases gs q) as Hq.
  { subst q. eapply pool_set; [by apply pool_driver|exact Hc1|done..]. }
  destruct (cancel_pool _ _ _ _ _ _ _ _ _ q p1 s Hq Hrs) as (p2 & Hcan & Hp2 & Hk2 & Hpf2); [done|].
  destruct (refusal_pool _ _ _ _ _ _ _ _ _ _ Hp2) as (p3 & Href & Hp3 & Hk3 & Ht3).
  exists p1, p2, p3. split; [exact Htake|]. split; [done|]. split; [done|]. split; [done|]. split; [exact Hp3|]. split.
  - eapply (kept_trans p q); [done|]. by eapply kept_trans.
  - eapply same_turn_trans; [exact Ht|]. eapply same_turn_trans; [|exact Ht3]. by rewrite Hpf2.
Qed.

Lemma admit_vector_pool n Q M V tks G A leases gs p first pages source :
  pool_inv (1 + vlen pages + n) Q M V tks G A leases gs p → straight first pages → (∀ page, page ∈ pages → absent_page M V page) →
  registered (files (product p)) (pg_file first) → fid_slot (pg_file first) < fcap →
  2 ≤ vlen pages → vlen pages ≤ ReadVector.VECTOR_FRAMES_MAX → vlen pages * g ≤ ReadVector.VECTOR_BYTES_MAX →
  Ledger.feedback_count (prefetch (cache p)) = 0 → admits (prefetch (cache p)) (clock (cache p)) source pages →
  ∃ p' answer, prefetch_admit_vector g reads p pages source = Done (p', answer) ∧ admission n Q M V tks G A leases gs p source pages p' answer.
Proof.
  intros Hp Hst Habs Hreg Hslot H2l Hmax Hbytes Hfb Hadm. pose proof Hp as [[H1 H2 H3 H4 H5 H6 H7 H8 H9] P2 P3 P4 P5]. pose proof (pool_capacity _ _ _ _ _ _ _ _ _ _ Hp) as Hcap. unfold credit in H6.
  unfold prefetch_admit_vector. rewrite (straight_head _ _ Hst), (straight_consecutive _ _ Hst). mred. unfold ReadVector.VECTOR_FRAMES_MAX in *.
  rewrite (proj2 (N.leb_le (vlen pages) U32_MAX)) by (unfold U32_MAX; lia). mred. rewrite (proj2 (N.leb_le 2 _)) by done. rewrite (proj2 (N.leb_le (vlen pages) 32)) by done. mred.
  rewrite (proj2 (N.eqb_neq g 0)) by lia. mred. rewrite (proj2 (N.leb_le (vlen pages) (ReadVector.VECTOR_BYTES_MAX / g))) by (apply N.div_le_lower_bound; lia). mred.
  rewrite (available_cache _ _ _ _ _ _ _ _ _ H1). mred. rewrite sub_ok by lia. mred.
  assert (∀ short : bool, short = true → ∃ p' answer, Done (p, AdmDeferred) = Done (p', answer) ∧ admission n Q M V tks G A leases gs p source pages p' answer) as Hdefer.
  { intros _ _. eexists _, _. split; [done|]. eapply deferred_same; [exact Hp|lia]. }
  destruct (N.ltb_spec (Ledger.capacity (prefetch (cache p)) - Ledger.occupied (Ledger.stats (prefetch (cache p)))) (vlen pages)) as [|Hroom]; [by apply (Hdefer true)|]. mred.
  destruct (N.ltb_spec (reads - reads_in_flight (cache p)) (vlen pages)) as [|Hleft]; [by apply (Hdefer true)|].
  destruct (reserve_pool _ _ _ _ _ _ _ _ _ _ Hp) as (o & rs & -> & Ho). mred. destruct o as [s|].
  2: { eexists _, _. split; [done|]. split; [eapply pool_le; [exact Ho|lia]|done]. }
  destruct (ci_miss _ _ _ _ _ _ _ _ _ H1) as [Hr Hsh]. change (cache (set_spans p rs)) with (cache p).
  destruct (admission_slots_map _ _ _ _ _ _ _ (vlen pages) Hr Hsh ltac:(lia)) as (ss & enough & -> & Hss). mred.
  destruct enough; simpl negb.
  2: { destruct (cancel_pool _ _ _ _ _ _ _ _ _ p (set_spans p rs) s Hp Ho) as (q & -> & Hq & Hk & Hpf); [by destruct p|]. mred. eexists _, _. split; [done|].
    split; [eapply pool_le; [exact Hq|lia]|]. split; [done|by rewrite Hpf]. }
  destruct (Hss eq_refl) as (Hsl & Hsnd & Hsfree). unfold on_cache_. destruct (fill_reserve_cache _ _ _ _ _ _ _ _ _ H1) as (fs0 & r0 & -> & Hc1). mred.
  set (c1 := restocked (cache p) fs0 r0) in *. assert (pool_inv (1 + vlen pages + n) Q M V tks G A leases gs (set_cache p c1)) as Hp1 by (by eapply pool_set).
  change (cache (set_cache (set_spans p rs) c1)) with c1. destruct (ci_reserve _ _ _ _ _ _ _ _ _ Hc1) as [W1 W2].
  destruct (N.ltb_spec (ff_len (Ledger.reserve (prefetch c1))) (vlen pages)) as [|Henough].
  { destruct (cancel_pool _ _ _ _ _ _ _ _ _ (set_cache p c1) (set_cache (set_spans p rs) c1) s Hp1 Ho) as (q & -> & Hq & Hk & Hpf); [by destruct p|]. mred. eexists _, _. split; [done|].
    split; [eapply pool_le; [exact Hq|lia]|]. split; [by destruct Hk|by rewrite Hpf]. }
  pose proof (stack_len _ W1) as Hsw.
  destruct (vector_claim_cache Hg Hgmax _ _ _ _ _ _ pages [] c1 ReadVector.new Hc1 (ReadVector.new_bundle _) eq_refl eq_refl Habs) as (h & r & v & fs & -> & Hfl & Hc2 & Hb & Hz & Hop & Hnamed & _ & Hfree & Hnd & Hlr).
  { by rewrite Hsw. }
  { exact Hmax. }
  { exact Hbytes. }
  mred. simpl app in *. set (c2 := reframed c1 h r) in *. change (cache (set_cache (set_cache (set_spans p rs) c1) c2)) with c2.
  assert (vlen fs = vlen pages) as Hfv by (unfold vlen; by rewrite Hfl).
  assert (∀ f, f ∈ fs → vacant_frame (prefetch c2) f ∧ ¬ speculates (prefetch c2) f) as Hvac by (intros f Hf; apply (vacant_free _ _ _ _ _ _ _ _ _ _ _ Hc1 (Hfree f Hf))).
  destruct (submit_vector_pool _ _ _ _ _ _ _ _ _ p c2 fs v first Hp Hc2 Hb Hz Hop) as (offset & fd & b & res & -> & Hrf & Hsub & Hsb & Hlb & Hres); [lia|unfold ReadVector.VECTOR_FRAMES_MAX; lia|done|rewrite Hfv; apply Hst|].
  mred. change (Product.files (product (set_cache (set_cache (set_spans p rs) c1) c2))) with (files (product p)). rewrite Hrf. mred.
  change (PoolControl.driver (set_cache (set_cache (set_spans p rs) c1) c2)) with (PoolControl.driver p). change (cache (set_cache (set_cache (set_spans p rs) c1) c2)) with c2. rewrite Hsub. mred.
  change (PoolControl.set_driver (set_cache (set_cache (set_spans p rs) c1) c2) b) with (PoolControl.set_driver (set_cache (set_spans p rs) c2) b).
  change (cache (PoolControl.set_driver (set_cache (set_spans p rs) c2) b)) with c2.
  destruct res as [t|[e w]].
  - destruct Hres as (Hnew & Hmint & d & Hflt). assert (free_run (prefetch c2) (zip pages fs)) as Hrun.
    { split_and!; [done|simpl; unfold vlen in *; rewrite length_zip_with; lia|by rewrite snd_zip by lia|rewrite snd_zip by lia; apply Forall_forall; intros f Hf; by apply Hvac]. }
    destruct (Hadm r fs ltac:(lia) Hrun) as (x & Hx).
    assert (run_ok M V tks h first pages fs ss) as Hro.
    { destruct Hst as (_ & S1 & S2). constructor; try done. split; [lia|]. unfold vlen in Hsl. lia. lia. }
    destruct (install_pool (1 + n) Q M V tks G A leases gs p c2 rs s source pages fs ss first b t v d x) as (span & c' & span' & k & rs' & q & Q' & V' & A' & Hnw & Hin & Hadd & Hco & Heq & Hpq & Hkq & Hpf & Hck & Hfr & Habs'); try done.
    { eapply pool_le; [exact Hp|lia]. }
    { eapply cinv_le; [exact Hc2|lia]. }
    rewrite Hnw. mred. unfold slotted_run in Hin. rewrite Hin. mred. rewrite Hadd. mred. change (read_spans (PoolControl.set_driver (set_cache (set_spans p rs) c2) b)) with rs. rewrite Hco. mred.
    eexists _, AdmAdmitted. split; [done|]. constructor. exists q, Q', V', A', fs, x. rewrite Hpf, Hck, Hfr. split; [exact Heq|]. split_and!; try done.
    + exists r. rewrite Hpf, Hck. done.
    + intros f Hf. apply (ci_census _ _ _ _ _ _ _ _ _ Hc2 InFlight). simpl. set_solver.
  - destruct Hres as (-> & Hmint & Hflt).
    destruct (refused_vector_pool n Q M V tks G A leases gs p c2 rs s b v fs) as (calls & v' & p1 & p2 & p3 & Htk & Hab & Hcan & Href & Hp3 & Hk3 & Ht3); try done.
    { eapply pool_le; [exact Hp|lia]. }
    { eapply cinv_le; [exact Hc2|lia]. }
    { intros f Hf. by apply Hvac. }
    { destruct (ci_reserve _ _ _ _ _ _ _ _ _ Hc2) as [W3 W4]. rewrite <- (stack_len _ W3). change (Ledger.reserve (prefetch c2)) with r. unfold stack_wf in W1. simpl in *. lia. }
    rewrite Htk. mred. unfold on_cache_ in Hab. rewrite Hab. mred. rewrite Hcan. mred. rewrite Href. mred. eexists _, _. split; [done|]. done.
Qed.

(** ** Runs *)

(** Few enough pages for one read. *)
Definition run_width (pages : list PageId) : Prop :=
  vlen pages = 1 ∨ (vlen pages ≤ ReadVector.VECTOR_FRAMES_MAX ∧ vlen pages * g ≤ ReadVector.VECTOR_BYTES_MAX).

Lemma admit_run_pool n Q M V tks G A leases gs p first pages source :
  pool_inv (1 + vlen pages + n) Q M V tks G A leases gs p → straight first pages → (∀ page, page ∈ pages → absent_page M V page) →
  registered (files (product p)) (pg_file first) → fid_slot (pg_file first) < fcap → run_width pages →
  Ledger.feedback_count (prefetch (cache p)) = 0 → admits (prefetch (cache p)) (clock (cache p)) source pages →
  ∃ p' answer, prefetch_admit_run g reads p pages source = Done (p', answer) ∧ admission n Q M V tks G A leases gs p source pages p' answer.
Proof.
  intros Hp Hst Habs Hreg Hslot Hw Hfb Hadm. pose proof (straight_head _ _ Hst) as Hh. destruct pages as [|page [|page2 pages]]; [by destruct Hst|..]; simpl in Hh; injection Hh as ->.
  - apply admit_point_pool; try done; [apply Habs; by left|]. destruct Hst as (_ & _ & Hf). unfold vlen in Hf. simpl in Hf. lia.
  - apply (admit_vector_pool n Q M V tks G A leases gs p first); try done; [unfold vlen; simpl; lia| |]; destruct Hw as [Hw|Hw]; [unfold vlen in Hw; simpl in Hw; lia|apply Hw|unfold vlen in Hw; simpl in Hw; lia|apply Hw].
Qed.

(** The ledger of an admission takes effect. *)
Lemma enter_pool n Q M V tks G A leases gs p l k (fs : list ReadFrameIdx) :
  pool_inv (1 + n) Q M V tks G A leases gs p → lgood n F l k → Ledger.reserve l = Ledger.reserve (prefetch (cache p)) → Ledger.capacity l = Ledger.capacity (prefetch (cache p)) →
  Ledger.vector_width l = Ledger.vector_width (prefetch (cache p)) ∧ Ledger.automatic_width l = Ledger.automatic_width (prefetch (cache p)) →
  (∀ f, speculates l f → speculates (prefetch (cache p)) f ∨ f ∈ fs) → (∀ f, f ∈ fs → in_state (frames (cache p)) f InFlight) →
  (∀ P : FileId → Prop, streams P (prefetch (cache p)) → streams P l) →
  pool_inv n Q M V tks G A leases gs (with_ledger p (l, k)).
Proof.
  intros Hp Hl Hres Hcap [Hw1 Hw2] Hsp Hfs Hst. pose proof Hp as [[H1 H2 H3 H4 H5 H6 H7 H8 H9] P2 P3 P4 P5]. eapply pool_set; [exact Hp| |done..].
  apply (cinv_le _ n) in H1 as [C1 C2 C3 C4 C5 C6 C7 C8 C9 C10 C11 C12 C13 C14 C15 C16 C17 C18 C19 C20]; [|lia].
  constructor; simpl; rewrite ?Hres, ?Hcap; try done; [intros f [?|?]%Hsp; [by apply C17|left; by apply Hfs]| |by apply Hst]. unfold run_widths in *. by rewrite Hw1, Hw2.
Qed.

Lemma zip_pages (pages : list PageId) (fs : list ReadFrameIdx) : length fs = length pages → (zip pages fs).*1 = pages ∧ (zip pages fs).*2 = fs.
Proof. intros H. split; [apply fst_zip|apply snd_zip]; lia. Qed.

(** What a run leaves of the pool: other pages stay absent, and what a pass goes on with. *)
Record after_run M V V' (pages : list PageId) p p' : Prop := {
  ar_absent : ∀ page, absent_page M V page → page ∉ pages → absent_page M V' page;
  ar_kept : kept_pool p p';
  ar_capacity : Ledger.capacity (prefetch (cache p')) = Ledger.capacity (prefetch (cache p));
  ar_cursor : Ledger.replacement_cursor (prefetch (cache p')) = Ledger.replacement_cursor (prefetch (cache p));
  ar_readers : vlen (Ledger.patterns (prefetch (cache p'))) = vlen (Ledger.patterns (prefetch (cache p)));
  ar_spared : spared M (prefetch (cache p)) M (prefetch (cache p'));
}.

(** The new predictions are in flight, so no mapped page is one. *)
Lemma enter_spared n Q M V tks G A leases gs q l l' (fs : list ReadFrameIdx) :
  pool_inv n Q M V tks G A leases gs q → (∀ f, speculates l' f → speculates l f ∨ f ∈ fs) → (∀ f, f ∈ fs → in_state (frames (cache q)) f InFlight) → spared M l M l'.
Proof.
  intros [[H1 _ _ _ _ _ _ _ _] _ _ _ _] Hsp Hfs page f Hm Hno. split; [done|]. intros [?|Hf%Hfs]%Hsp; [done|].
  by pose proof (in_state_fun _ _ _ _ Hf (mapped_state _ _ _ _ _ _ _ _ _ _ _ H1 Hm)).
Qed.

Lemma after_turn M V pages p p' : kept_pool p p' → same_turn (prefetch (cache p)) (prefetch (cache p')) → after_run M V V pages p p'.
Proof. intros Hk (T1 & T2 & T3 & T4). constructor; try done; [by rewrite T3|]. intros page f Hm Hno. split; [done|]. unfold speculates in *. by rewrite T4. Qed.

Lemma admit_explicit_pool n Q M V tks G A leases gs p first pages :
  pool_inv (1 + vlen pages + n) Q M V tks G A leases gs p → straight first pages → (∀ page, page ∈ pages → absent_page M V page) →
  registered (files (product p)) (pg_file first) → fid_slot (pg_file first) < fcap → run_width pages →
  Ledger.feedback_count (prefetch (cache p)) = 0 →
  ∃ p' answer Q' V' A', prefetch_admit_run g reads p pages Explicit = Done (p', answer) ∧ (answer = AdmAdmitted ∨ answer = AdmDeferred) ∧
    pool_inv n Q' M V' tks G A' leases gs p' ∧ after_run M V V' pages p p'.
Proof.
  intros Hp Hst Habs Hreg Hslot Hw Hfb. pose proof Hp as [[H1 H2 H3 H4 H5 H6 H7 H8 H9] P2 P3 P4 P5].
  destruct (admit_run_pool n Q M V tks G A leases gs p first pages Explicit Hp Hst Habs Hreg Hslot Hw Hfb) as (p' & answer & He & Hans).
  { intros r fs Hlen Hrun. destruct (explicit_good n F (Ledger.set_reserve (prefetch (cache p)) r) (clock (cache p)) (zip pages fs)) as (l' & c' & Hx & _); [|done|by exists (l', c')].
    apply lgood_reserve. eapply lgood_le; [apply H1|lia]. }
  destruct answer; try done.
  - destruct Hans as [(q & Q' & V' & A' & fs & [l k] & -> & Hq & Hk & (r & Hr & Hck) & Hlen & Hrun & Hadm & Hfly & Habs')]. pose proof Hq as [[I1 _ _ _ _ _ _ _ _] _ _ _ _].
    destruct (explicit_good n F _ _ _ (ci_ledger _ _ _ _ _ _ _ _ _ I1) Hrun) as (l' & k' & Hadm' & Hent & Hgood). rewrite Hadm in Hadm'. injection Hadm' as <- <-.
    rewrite (proj2 (zip_pages _ _ Hlen)) in Hent. destruct Hent as [N1 N2 N3 (N4 & N4' & N4'') N5 N6 N7 N8 N9 N10].
    eexists _, _, Q', V', A'. split; [exact He|]. split; [by left|]. split; [eapply enter_pool; try done; intros P; unfold streams; by rewrite N8|].
    constructor; simpl; [done|by destruct Hk|by rewrite N2, Hr|by rewrite N4'', Hr|by rewrite N8, Hr|].
    eapply enter_spared; [exact Hq| |exact Hfly]. intros f Hf%N9. unfold speculates in *. by rewrite Hr in Hf.
  - destruct Hans as (Hp' & Hk & Ht). eexists _, _, Q, V, A. split; [exact He|]. split; [by right|]. split; [done|]. by apply after_turn.
Qed.

Lemma issue_each_run r pages : ∀ l, issue_each l r pages = issue_run l r pages.
Proof. induction pages as [|page pages IH]; intros l; simpl; [done|]. destruct (Ledger.issued l r page); [|done]. mred. apply IH. Qed.

(** A run of predictions is admitted and issued. *)
Lemma admit_automatic_pool n Q M V tks G A leases gs p first pages rest r inc :
  pool_inv (1 + vlen pages + n) Q M V tks G A leases gs p → straight first pages → (∀ page, page ∈ pages → absent_page M V page) →
  registered (files (product p)) (pg_file first) → fid_slot (pg_file first) < fcap → run_width pages →
  Ledger.feedback_count (prefetch (cache p)) = 0 → on_track (prefetch (cache p)) r inc (pages ++ rest) →
  ∃ p' answer, prefetch_admit_run g reads p pages (Automatic r inc) = Done (p', answer) ∧
    match answer with
    | AdmDeferred => pool_inv n Q M V tks G A leases gs p' ∧ after_run M V V pages p p'
    | AdmAdmitted => ∃ p2 Q' V' A', pool_ledger p' (issue_each (prefetch (cache p')) r pages) = Done p2 ∧ pool_inv n Q' M V' tks G A' leases gs p2 ∧
        after_run M V V' pages p p2 ∧ on_track (prefetch (cache p2)) r inc rest
    | _ => False
    end.
Proof.
  intros Hp Hst Habs Hreg Hslot Hw Hfb Htr. pose proof Hp as [[H1 H2 H3 H4 H5 H6 H7 H8 H9] P2 P3 P4 P5]. assert (pages ≠ []) as Hne by apply Hst.
  assert (∀ fs : list ReadFrameIdx, length fs = length pages → zip pages fs ≠ []) as Hzip by (intros fs Hl Hz; apply Hne; rewrite <- (proj1 (zip_pages pages fs Hl)), Hz; done).
  destruct (admit_run_pool n Q M V tks G A leases gs p first pages (Automatic r inc) Hp Hst Habs Hreg Hslot Hw Hfb) as (p' & answer & He & Hans).
  { intros s fs Hlen Hrun. destruct (run_good n F (Ledger.set_reserve (prefetch (cache p)) s) (clock (cache p)) r inc (zip pages fs)) as (l1 & c1 & l2 & Hx & _); try done; [|by apply Hzip| |by exists (l1, c1)].
    - apply lgood_reserve. eapply lgood_le; [apply H1|lia].
    - rewrite (proj1 (zip_pages _ _ Hlen)). eapply track_same; [..|by eapply track_prefix]; done. }
  exists p', answer. split; [done|]. destruct answer; try done.
  - destruct Hans as [(q & Q' & V' & A' & fs & [l k] & -> & Hq & Hk & (s & Hr & Hck) & Hlen & Hrun & Hadm & Hfly & Habs')]. pose proof Hq as [[I1 _ _ _ _ _ _ _ _] _ _ _ _].
    assert (on_track (prefetch (cache q)) r inc (pages ++ rest)) as Htr' by (eapply track_same; [..|exact Htr]; by rewrite Hr).
    destruct (run_good n F _ _ r inc _ (ci_ledger _ _ _ _ _ _ _ _ _ I1) Hrun) as (l1 & k1 & l2 & Hadm' & Hent & Hiss & Hgood & Hcalm); [by apply Hzip|rewrite (proj1 (zip_pages _ _ Hlen)); by eapply track_prefix|].
    rewrite Hadm in Hadm'. injection Hadm' as <- <-. rewrite (proj1 (zip_pages _ _ Hlen)) in Hiss. rewrite (proj2 (zip_pages _ _ Hlen)) in Hent.
    unfold pool_ledger, on_ledger. simpl prefetch. rewrite issue_each_run, Hiss. mred. pose proof Hent as [N1 N2 [N3 N3'] (N4 & N4' & N4'') N5 N6 N7 N8 N9 N10]. pose proof Hcalm as [A1 A2 (A3 & A3' & _) A4 [A5 A5'] A6 A7 A8 A9 A10 A11].
    eexists _, Q', V', A'. split; [done|]. split.
    + apply (enter_pool n Q' M V' tks G A' leases gs q l2 k fs); try done; [congruence|congruence|split; congruence| |].
      * intros f Hf%(calm_speculates _ _ _ _ Hcalm). by apply N9.
      * intros P HP. eapply (calm_streams P _ _ _ Hcalm); [done|]. unfold streams. by rewrite N8.
    + split; [constructor; simpl; [done|by destruct Hk|by rewrite A2, N2, Hr|by rewrite A5', N4'', Hr|by rewrite A9, N8, Hr|]|].
      { eapply enter_spared; [exact Hq| |exact Hfly]. intros f Hf%(calm_speculates _ _ _ _ Hcalm)%N9. unfold speculates in *. by rewrite Hr in Hf. }
      simpl. eapply track_issue_run; [exact Hiss|]. eapply track_same; [exact N8|exact N2|done].
  - destruct Hans as (Hp' & Hk & Ht). split; [done|]. by apply after_turn.
Qed.
End runs.
End PoolAdmit.
