(* ===== verification/PoolHints.v ===== *)
(** * Prefetch hints over the pool

    [prefetch_hint] over the invariant of the pool: each page of a hint is classified as
    rejected, resident, pending or absent, the frames of hinted pages are protected, runs
    of absent pages are admitted or deferred, and the report counts every page once. *)
From stdpp Require Import prelude gmap list.
From Stdlib Require Import NArith ZArith Lia.
From S2P Require Import Prelude Ids Table Frames FrameCensus Clock Epoch FileSlots Miss MissMap Pattern IndexQueue Execute ReadVector ReadSpans Driver PoolBackend Product Ledger LedgerSystem LedgerSafety LedgerCalm LedgerTurns ProductSafety PoolCache PoolInv PoolControl PoolReads PoolRoute PoolReclaim PoolDemand PoolPrefetch PoolSpeculate PoolAdmit.

Open Scope N_scope.

Module PoolHints.
Import LedgerSafety.LedgerSafety LedgerCalm.LedgerCalm LedgerTurns.LedgerTurns Frames FrameCensus MissMap Execute Driver PoolBackend.PoolBackend PoolCache PoolInv PoolControl PoolReads PoolRoute PoolReclaim PoolDemand PoolPrefetch PoolSpeculate PoolAdmit.

Section hints.
Context {B R : Type} `{!PoolBackend B} `{!Retainer R} {identity g F capacity fcap : N}.
Context `{!BackendLaws B identity g F capacity fcap} `{!RetainerLaws R F fcap}.
Context {a reads slots : N}.
Context (Hg : 0 < g) (Hgmax : g ≤ U32_MAX) (Hreads : reads ≤ U32_MAX).
Implicit Types (p : Pool B R) (V : gmap N mread) (Q : gmap OpToken flight) (A : Routes) (l : Ledger.Prefetch).
#[local] Abbreviation cinv W := (cinv (F := F) (g := g) (a := a) (fcap := fcap) (reads := reads) (P := Product.own_file (identity := identity) (file_capacity := fcap)) (W := W)).
#[local] Abbreviation pool_inv := (pool_inv (identity := identity) (g := g) (F := F) (capacity := capacity) (fcap := fcap) (a := a) (reads := reads) (slots := slots)).
#[local] Abbreviation own_file := (Product.own_file (identity := identity) (file_capacity := fcap)).

(** A page a caller may name: of one of this pool's files, its number 32 bits wide. *)
Definition own_page (page : PageId) : Prop := own_file (pg_file page) ∧ pg_granule_idx page ≤ U32_MAX.

(** ** Classification *)

Definition live_page p (page : PageId) : Prop := is_Some (Product.live_handle (product p) (pg_file page)).

Definition classed (M : gmap PageId ReadFrameIdx) V p (page : PageId) (o : option Admission) : Prop :=
  match o with
  | Some AdmRejected => ¬ live_page p page
  | Some AdmResident => live_page p page ∧ is_Some (M !! page)
  | Some AdmPending => live_page p page ∧ M !! page = None ∧ ∃ i m, V !! i = Some m ∧ m_outcome m = Pending ∧ m_page m = page
  | None => live_page p page ∧ absent_page M V page
  | _ => False
  end.

Lemma classify_pool n Q M V tks G A leases gs p page :
  pool_inv n Q M V tks G A leases gs p → own_page page → ∃ o, prefetch_classify identity p page = Done o ∧ classed M V p page o.
Proof.
  intros [[H1 H2 H3 H4 H5 H6 H7 H8 H9] P2 P3 P4 P5] [Hown _]. unfold prefetch_classify. rewrite (proj2 (N.eqb_eq _ _) (proj1 Hown)). mred.
  rewrite (Product.file_is_live_ok _ _ _ _ _ H2 Hown). mred. case_bool_decide as Hlive; simpl negb; [|by exists (Some AdmRejected)].
  destruct (ci_table _ _ _ _ _ _ _ _ _ H1) as (T1 & T2 & _). rewrite (PageTable.lookup_ok _ _ page T1 T2). mred.
  destruct (M !! page) as [f|] eqn:Hm; [exists (Some AdmResident); split; [done|split; [done|by rewrite Hm]]|].
  destruct (ci_miss _ _ _ _ _ _ _ _ _ H1) as [Hr _]. destruct (find_pending_map _ _ _ _ page Hr) as (o & -> & Ho). mred. destruct o as [i|].
  - exists (Some AdmPending). split; [done|]. destruct Ho as (m & ? & ? & ?). split_and!; try done. by exists i, m.
  - by exists None.
Qed.

Lemma classed_registered n Q M V tks G A leases gs p page :
  pool_inv n Q M V tks G A leases gs p → own_page page → classed M V p page None → absent_page M V page ∧ registered (files (product p)) (pg_file page).
Proof. intros Hp [Hown _] [Hl Ha]. split; [done|]. by eapply live_registered. Qed.

(** ** Protection *)

Lemma protect_pool n Q M V tks G A leases gs p f :
  pool_inv n Q M V tks G A leases gs p → f < F →
  ∃ p', pool_ledger p (Ledger.protect (prefetch (cache p)) f) = Done p' ∧ pool_inv n Q M V tks G A leases gs p' ∧ kept_pool p p' ∧ unseen (cache p') = unseen (cache p) ∧
    spared M (prefetch (cache p)) M (prefetch (cache p')).
Proof.
  intros Hp Hf. pose proof Hp as [[H1 H2 H3 H4 H5 H6 H7 H8 H9] P2 P3 P4 P5].
  destruct (protect_good n F _ _ f (ci_ledger _ _ _ _ _ _ _ _ _ H1) Hf) as (l' & He & Hl & Hcalm). unfold pool_ledger, on_ledger. rewrite He. mred. eexists. split; [done|].
  split; [|split; [done|]; split; [unfold unseen; simpl; by rewrite (a_capacity _ _ _ Hcalm), (proj2 (a_stamp _ _ _ Hcalm))|by eapply calm_spared]].
  eapply pool_set; [exact Hp| |done..]. eapply cinv_prefetch; [exact H1|lia|done|by eapply calm_tame].
Qed.

Lemma protect_each_pool n Q M V tks G A leases gs pages : ∀ p,
  pool_inv n Q M V tks G A leases gs p → (∀ page, page ∈ pages → own_page page) →
  ∃ p', prefetch_protect identity p pages = Done p' ∧ pool_inv n Q M V tks G A leases gs p' ∧ kept_pool p p' ∧ unseen (cache p') = unseen (cache p) ∧ spared M (prefetch (cache p)) M (prefetch (cache p')).
Proof.
  induction pages as [|page pages IH]; intros p Hp Hown; [by exists p|]. cbn [prefetch_protect].
  destruct (Hown page ltac:(by left)) as [[Hd _] _]. rewrite (proj2 (N.eqb_eq _ _) Hd). mred.
  pose proof Hp as [[H1 H2 H3 H4 H5 H6 H7 H8 H9] P2 P3 P4 P5]. destruct (ci_table _ _ _ _ _ _ _ _ _ H1) as (T1 & T2 & _). rewrite (PageTable.lookup_ok _ _ page T1 T2). mred.
  assert (∀ p1, pool_inv n Q M V tks G A leases gs p1 → kept_pool p p1 → unseen (cache p1) = unseen (cache p) → spared M (prefetch (cache p)) M (prefetch (cache p1)) →
    ∃ p', prefetch_protect identity p1 pages = Done p' ∧ pool_inv n Q M V tks G A leases gs p' ∧ kept_pool p p' ∧ unseen (cache p') = unseen (cache p) ∧ spared M (prefetch (cache p)) M (prefetch (cache p'))) as Hgo.
  { intros p1 Hp1 Hk1 Hu1 Hs1. destruct (IH p1 Hp1) as (p' & He & Hp' & Hk' & Hu' & Hs'); [intros q Hq; apply Hown; by right|]. exists p'. split_and!; try done; [by eapply kept_trans|congruence|by eapply spared_trans]. }
  assert (∀ f, f < F → ∃ p', (p1 ← pool_ledger p (Ledger.protect (prefetch (cache p)) f); prefetch_protect identity p1 pages) = Done p' ∧
    pool_inv n Q M V tks G A leases gs p' ∧ kept_pool p p' ∧ unseen (cache p') = unseen (cache p) ∧ spared M (prefetch (cache p)) M (prefetch (cache p'))) as Hframe.
  { intros f Hf. destruct (protect_pool _ _ _ _ _ _ _ _ _ _ f Hp Hf) as (p1 & -> & Hp1 & Hk1 & Hu1 & Hs1). mred. by apply Hgo. }
  destruct (M !! page) as [f|] eqn:Hm.
  - mred. apply Hframe. eapply in_state_lt; [apply H1|by eapply mapped_state].
  - destruct (ci_miss _ _ _ _ _ _ _ _ _ H1) as [Hr _]. destruct (find_pending_map _ _ _ _ page Hr) as (o & -> & Ho). mred. destruct o as [i|]; [|mred; by apply Hgo].
    destruct Ho as (m & Hi & Hpn & _). destruct (entry_map _ _ _ _ i m Hr Hi) as (e & -> & He). mred. apply Hframe. subst m.
    eapply in_state_lt; [apply H1|by eapply (pending_state _ _ _ _ _ _ _ _ _ _ _ H1 Hi)].
Qed.

(** ** Runs of absent pages *)

Lemma run_end_pool n Q M V tks G A leases gs p m : ∀ pages prev,
  pool_inv n Q M V tks G A leases gs p → (∀ page, page ∈ pages → own_page page) →
  ∃ k, prefetch_examined_run_end identity m p prev pages = Done k ∧ k ≤ N.of_nat m ∧ k ≤ vlen pages ∧
    ∀ (j : nat) page, (j < N.to_nat k)%nat → pages !! j = Some page →
      page = mkPageId (pg_file prev) (pg_granule_idx prev + 1 + N.of_nat j) ∧ classed M V p page None.
Proof.
  induction m as [|m IH]; intros pages prev Hp Hown; [exists 0; split_and!; [done|lia..|]; intros ? ? ?; lia|].
  assert (∃ k, Done 0 = Done k ∧ k ≤ N.of_nat (S m) ∧ k ≤ vlen pages ∧ ∀ (j : nat) page, (j < N.to_nat k)%nat → pages !! j = Some page →
    page = mkPageId (pg_file prev) (pg_granule_idx prev + 1 + N.of_nat j) ∧ classed M V p page None) as Hstop by (exists 0; split_and!; [done|lia..|]; intros ? ? ?; lia).
  destruct pages as [|page pages]; [exact Hstop|]. cbn [prefetch_examined_run_end]. destruct (Pattern.follows prev page) eqn:Hf; [|exact Hstop].
  apply andb_true_iff in Hf as [Hf1%bool_decide_eq_true Hf2%bool_decide_eq_true]. apply checked_add_Some in Hf2 as [Hf2 _].
  destruct (classify_pool _ _ _ _ _ _ _ _ _ _ page Hp ltac:(apply Hown; by left)) as (o & -> & Ho). mred. destruct o as [adm|]; [exact Hstop|].
  destruct (IH pages page Hp) as (k & -> & Hk1 & Hk2 & Hk); [intros q Hq; apply Hown; by right|]. mred. exists (k + 1). split; [done|].
  assert (vlen (page :: pages) = vlen pages + 1) as Hl by (unfold vlen; simpl; lia). split_and!; [lia|lia|].
  intros [|j] q Hj Hq; simpl in Hq.
  - injection Hq as <-. split; [|exact Ho]. destruct page; simpl in *. f_equal; [done|lia].
  - destruct (Hk j q ltac:(lia) Hq) as [-> ?]. split; [|done]. f_equal; [done|lia].
Qed.

(** A prefix of such a run is ready to be admitted. *)
Lemma run_straight n Q M V tks G A leases gs p page rest k count :
  pool_inv n Q M V tks G A leases gs p → (∀ q, q ∈ page :: rest → own_page q) → classed M V p page None →
  (∀ (j : nat) q, (j < N.to_nat k)%nat → rest !! j = Some q → q = mkPageId (pg_file page) (pg_granule_idx page + 1 + N.of_nat j) ∧ classed M V p q None) →
  k ≤ vlen rest → 1 ≤ count → count ≤ k + 1 →
  let run := take (N.to_nat count) (page :: rest) in
  straight page run ∧ vlen run = count ∧ ∀ q, q ∈ run → classed M V p q None.
Proof.
  intros Hp Hown Hpage Hk Hkl H1 Hck run. assert (vlen run = count) as Hlen by (unfold run, vlen in *; rewrite length_take; simpl length; lia).
  assert (∀ (j : nat) q, run !! j = Some q → q = mkPageId (pg_file page) (pg_granule_idx page + N.of_nat j) ∧ classed M V p q None) as Hj.
  { intros [|j] q [Hq Hlt]%lookup_take_Some; simpl in Hq.
    - injection Hq as <-. split; [|done]. rewrite N.add_0_r. by destruct page.
    - destruct (Hk j q ltac:(lia) Hq) as [-> ?]. split; [|done]. f_equal. lia. }
  split_and!; [|done|intros q [j Hq]%list_elem_of_lookup; by eapply Hj]. split_and!.
  - intros Hn. rewrite Hn in Hlen. unfold vlen in Hlen. simpl in Hlen. lia.
  - intros j q Hq. by apply Hj.
  - rewrite Hlen. destruct (lookup_lt_is_Some_2 run (N.to_nat count - 1)) as [q Hq]; [unfold vlen in Hlen; lia|].
    destruct (Hown q) as [_ Hidx]; [apply lookup_take_Some in Hq as [Hq _]; by eapply list_elem_of_lookup_2|]. rewrite (proj1 (Hj _ _ Hq)) in Hidx. simpl in Hidx. lia.
Qed.

(** ** The report *)

(** [k] of the pages asked for are still to be counted. *)
Definition counted (r : PrefetchReport) (k : N) : Prop :=
  rp_requested r = rp_resident r + rp_pending r + rp_admitted r + rp_deferred r + rp_rejected r + k ∧ rp_requested r ≤ U64_MAX.

Lemma record_counted r adm count k :
  counted r (count + k) → adm ≠ AdmObsolete →
  ∃ r', record r adm count = Done r' ∧ counted r' k ∧ rp_requested r' = rp_requested r ∧
    rp_rejected r' = rp_rejected r + (match adm with AdmRejected => count | _ => 0 end).
Proof.
  destruct r as [q a1 b c d e]. unfold counted, record. simpl. intros [H1 H2] Hne. destruct adm; try done; rewrite add_ok by lia; mred; eexists; (split; [done|]); simpl; split_and!; lia.
Qed.

Lemma feedback_pool n Q M V tks G A leases gs p :
  pool_inv (1 + n) Q M V tks G A leases gs p →
  ∃ c, reconcile_feedback (cache p) = Done c ∧ pool_inv n Q M V tks G A leases gs (set_cache p c) ∧
    Ledger.feedback_count (prefetch c) = 0 ∧ heirs (Ledger.capacity (prefetch (cache p))) (prefetch (cache p)) (prefetch c) ∧
    calm (vlen (Ledger.feedback (prefetch (cache p)))) (prefetch (cache p)) (prefetch c).
Proof.
  intros Hp. pose proof Hp as [[H1 H2 H3 H4 H5 H6 H7 H8 H9] P2 P3 P4 P5]. unfold reconcile_feedback.
  destruct (reconcile_feedback_good n F _ _ (ci_ledger _ _ _ _ _ _ _ _ _ H1)) as (l' & k' & -> & Hl & Hcalm & Hz & Hh). mred. eexists. split; [done|].
  split; [|done]. eapply pool_set; [exact Hp| |done..]. by eapply (cinv_ledger (1 + n)); [exact H1|lia|..].
Qed.

(** ** The examined pages *)

(** The pages of files that are not live. *)
Definition stale_pages p (pages : list PageId) : list PageId := filter (λ page : PageId, Product.live_handle (product p) (pg_file page) = None) pages.

Lemma live_kept p p' page : kept_pool p p' → Product.live_handle (product p') (pg_file page) = Product.live_handle (product p) (pg_file page).
Proof. intros Hk. unfold Product.live_handle. by rewrite (kp_files _ _ Hk). Qed.

Lemma stale_kept p p' pages : kept_pool p p' → stale_pages p' pages = stale_pages p pages.
Proof. intros Hk. unfold stale_pages. apply list_filter_iff. intros page. by rewrite (live_kept _ _ _ Hk). Qed.

Lemma stale_run p run rest : (∀ q, q ∈ run → live_page p q) → stale_pages p (run ++ rest) = stale_pages p rest.
Proof.
  intros Hl. unfold stale_pages. rewrite filter_app. induction run as [|q run IH]; [done|]. rewrite filter_cons. destruct (Hl q) as [h Hh]; [by left|].
  rewrite decide_False by congruence. apply IH. intros q' Hq'. apply Hl. by right.
Qed.

Lemma width_run n Q M V tks G A leases gs p (run : list PageId) :
  pool_inv n Q M V tks G A leases gs p → vlen run ≤ Ledger.vector_width (prefetch (cache p)) → 1 ≤ vlen run → run_width (g := g) run.
Proof.
  intros [[H1 _ _ _ _ _ _ _ _] _ _ _ _] Hle H0. destruct (ci_widths _ _ _ _ _ _ _ _ _ H1) as [((W1 & W1') & W2 & _) _]. unfold run_width, ReadVector.VECTOR_FRAMES_MAX.
  destruct W2 as [W2|W2]; [left; lia|]. right. split; [lia|]. nia.
Qed.

(** Room for a run of [wanted] pages is made by evicting unused predictions. *)
Lemma replace_pool n Q M V tks G A leases gs p wanted :
  pool_inv (unseen (cache p) + n) Q M V tks G A leases gs p →
  ∃ c M' V', prefetch_examined_replace_unused (cache p) wanted = Done c ∧ pool_inv (unseen c + n) Q M' V' tks G A leases gs (set_cache p c) ∧ settles V M V' M' ∧
    spared M (prefetch (cache p)) M' (prefetch c).
Proof.
  intros Hp. pose proof Hp as [[H1 H2 H3 H4 H5 H6 H7 H8 H9] P2 P3 P4 P5].
  destruct (replace_unused_cache Hg Hgmax n _ _ _ _ _ _ _ _ wanted H1) as (c & M' & V' & He & Hps & Hsp). exists c, M', V'. split; [done|]. split; [by eapply set_cache_pool|]. split; [apply Hps|done].
Qed.

Lemma classed_kept M V p p' M' V' page : classed M V p page None → kept_pool p p' → settles V M V' M' → classed M' V' p' page None.
Proof. intros [[h Hl] Ha] Hk Hs. split; [exists h; by rewrite (live_kept _ _ _ Hk)|]. by eapply absent_settles. Qed.

(** One round of the examination: its pages are recorded. *)
Definition examined_round n M0 tks G leases gs (pages : list PageId) p p' (report report' : PrefetchReport) (k : N) : Prop :=
  ∃ Q M V A, pool_inv (unseen (cache p') + 3 * vlen (drop (N.to_nat k) pages) + n) Q M V tks G A leases gs p' ∧ kept_pool p p' ∧
    counted report' (vlen (drop (N.to_nat k) pages)) ∧ rp_requested report' = rp_requested report ∧
    rp_rejected report' + vlen (stale_pages p (drop (N.to_nat k) pages)) = rp_rejected report + vlen (stale_pages p pages) ∧ 0 < k ∧
    spared M0 (prefetch (cache p)) M (prefetch (cache p')).

Lemma admit_round_pool n Q M V tks G A leases gs p pages page rest wanted report :
  pool_inv (unseen (cache p) + 3 * vlen pages + n) Q M V tks G A leases gs p → pages = page :: rest → (∀ q, q ∈ pages → own_page q) →
  1 ≤ wanted → wanted ≤ vlen pages → wanted ≤ Ledger.vector_width (prefetch (cache p)) →
  (∀ count, 1 ≤ count → count ≤ wanted → straight page (take (N.to_nat count) pages)) → (∀ q, q ∈ take (N.to_nat wanted) pages → classed M V p q None) →
  counted report (vlen pages) →
  ∃ p' report' k,
    examined_run g reads p pages wanted report = Done (p', report', k) ∧
    examined_round n M tks G leases gs pages p p' report report' k.
Proof.
  intros Hp Heq Hown H1w Hwl Hww Hst Hcl Hcnt. assert (∀ k, k ≤ vlen pages → vlen (drop (N.to_nat k) pages) = vlen pages - k ∧ vlen (take (N.to_nat k) pages) = k) as Hdrop
    by (intros k Hk; unfold vlen in *; rewrite length_drop, length_take; lia).
  assert (∀ k, k ≤ wanted → stale_pages p (drop (N.to_nat k) pages) = stale_pages p pages) as Hstale.
  { intros k Hk. rewrite <- (take_drop (N.to_nat k) pages) at 2. symmetry. apply stale_run. intros q Hq. apply (Hcl q).
    replace (take (N.to_nat wanted) pages) with (take (N.to_nat k) pages ++ take (N.to_nat (wanted - k)) (drop (N.to_nat k) pages)) by (rewrite take_take_drop; f_equal; lia). set_solver. }
  assert (∀ count, 1 ≤ count → count ≤ wanted → run_width (g := g) (take (N.to_nat count) pages)) as Hrw.
  { intros k Hk1 Hk2. eapply width_run; [exact Hp|..]; rewrite (proj2 (Hdrop k ltac:(lia))); lia. }
  unfold examined_run, on_cache_. rewrite <- N.add_assoc in Hp. destruct (replace_pool _ _ _ _ _ _ _ _ _ p wanted Hp) as (c & M1 & V1 & -> & Hp1 & Hs1 & Hsp1). mred. set (p1 := set_cache p c) in *.
  assert (kept_pool p p1) as Hk1 by done. pose proof Hp1 as [[H1 H2 H3 H4 H5 H6 H7 H8 H9] P2 P3 P4 P5]. rewrite (available_cache _ _ _ _ _ _ _ _ _ H1). mred.
  pose proof (pool_capacity _ _ _ _ _ _ _ _ _ _ Hp1) as Hcap. unfold credit in H6. rewrite sub_ok by lia. mred. set (count := N.min (N.min wanted _) _).
  destruct (N.eqb_spec count 0) as [Hz|Hz].
  - destruct (record_counted report AdmDeferred wanted (vlen pages - wanted)) as (r' & -> & Hc' & Hq' & Hj'); [by replace (wanted + (vlen pages - wanted)) with (vlen pages) by lia|done|]. mred.
    eexists _, _, _. split; [done|]. exists Q, M1, V1, A. rewrite (proj1 (Hdrop wanted Hwl)), (Hstale wanted) by lia. split_and!; try done; [|lia..].
    eapply pool_le; [exact Hp1|]. change (cache p1) with c. lia.
  - assert (count ≤ wanted) as Hcw by lia. change (cache p1) with c in *. replace (unseen c + (3 * vlen pages + n)) with (1 + (unseen c + (3 * vlen pages - 1) + n)) in Hp1 by lia.
    destruct (feedback_pool _ _ _ _ _ _ _ _ _ p1 Hp1) as (c2 & Hrec & Hp2 & Hfb & _ & Hcalm). change (cache p1) with c in Hrec, Hcalm. rewrite Hrec. mred. set (p2 := set_cache p1 c2) in *.
    assert (unseen c2 = unseen c) as Hu2 by (unfold unseen; by rewrite (a_capacity _ _ _ Hcalm), (proj2 (a_stamp _ _ _ Hcalm))).
    assert (∀ q, q ∈ take (N.to_nat count) pages → absent_page M1 V1 q ∧ registered (files (product p2)) (pg_file q)) as Habs.
    { intros q Hq. apply (classed_registered (unseen c + (3 * vlen pages - 1) + n) Q M1 V1 tks G A leases gs p2 q Hp2).
      - apply Hown. apply list_elem_of_lookup in Hq as [j [Hq _]%lookup_take_Some]. by eapply list_elem_of_lookup_2.
      - eapply (classed_kept M V p); [apply Hcl|done|done]. apply list_elem_of_lookup in Hq as [j [Hq Hlt]%lookup_take_Some]. apply list_elem_of_lookup. exists j. apply lookup_take_Some. split; [done|lia]. }
    assert (page ∈ take (N.to_nat count) pages) as Hin by (rewrite Heq; destruct (N.to_nat count) eqn:E; [lia|by left]).
    destruct (Hdrop count ltac:(lia)) as [Hd Ht].
    replace (unseen c + (3 * vlen pages - 1) + n) with (1 + vlen (take (N.to_nat count) pages) + (unseen c + 3 * (vlen pages - count) + (3 * count - count - 2 + n))) in Hp2 by (rewrite Ht; lia).
    destruct (admit_explicit_pool Hg Hgmax Hreads _ _ _ _ _ _ _ _ _ p2 page (take (N.to_nat count) pages) Hp2) as (p3 & adm & Q3 & V3 & A3 & -> & Hadm & Hp3 & Hafter).
    { apply Hst; lia. }
    { intros q Hq. by apply Habs. }
    { by apply Habs. }
    { rewrite Heq in Hown. apply (Hown page). by left. }
    { apply Hrw; lia. }
    { done. }
    mred. destruct (record_counted report adm count (vlen pages - count)) as (r' & -> & Hc' & Hq' & Hj'); [by replace (count + (vlen pages - count)) with (vlen pages) by lia|by destruct Hadm as [->| ->]|]. mred.
    eexists _, _, _. split; [done|]. exists Q3, M1, V3, A3. rewrite Hd, (Hstale count) by lia. destruct Hafter as [R1 R2 R3 R4 R5 R6].
    assert (unseen (cache p3) = unseen c) as Hu3 by (unfold unseen in *; rewrite R3, R4; exact Hu2). split_and!; try done.
    + rewrite Hu3. eapply pool_le; [exact Hp3|]. lia.
    + eapply kept_trans; [|exact R2]. done.
    + rewrite Hj'. destruct Hadm as [->| ->]; lia.
    + lia.
    + eapply spared_trans; [exact Hsp1|]. eapply spared_trans; [by eapply (calm_spared _ M1)|exact R6].
Qed.

Lemma examined_pool n tks G leases gs fuel : ∀ Q M V A p pages report,
  pool_inv (unseen (cache p) + 3 * vlen pages + n) Q M V tks G A leases gs p → (∀ q, q ∈ pages → own_page q) → (length pages ≤ fuel)%nat → counted report (vlen pages) →
  ∃ p' report' Q' M' V' A', prefetch_examined identity g reads fuel p pages report = Done (p', report') ∧ pool_inv n Q' M' V' tks G A' leases gs p' ∧ kept_pool p p' ∧
    counted report' 0 ∧ rp_requested report' = rp_requested report ∧ rp_rejected report' = rp_rejected report + vlen (stale_pages p pages) ∧
    spared M (prefetch (cache p)) M' (prefetch (cache p')).
Proof.
  induction fuel as [|fuel IH]; intros Q M V A p pages report Hp Hown Hfuel Hcnt.
  { destruct pages; [|simpl in Hfuel; lia]. exists p, report, Q, M, V, A. split; [done|]. split; [eapply pool_le; [exact Hp|lia]|]. split_and!; try done. unfold vlen. simpl. lia. }
  destruct pages as [|page rest]; [exists p, report, Q, M, V, A; split; [done|]; split; [eapply pool_le; [exact Hp|lia]|]; split_and!; try done; unfold vlen; simpl; lia|].
  assert (vlen (page :: rest) = vlen rest + 1) as Hl by (unfold vlen; simpl; lia). cbn [prefetch_examined].
  destruct (classify_pool _ _ _ _ _ _ _ _ _ _ page Hp ltac:(apply Hown; by left)) as (o & -> & Ho). mred. destruct o as [adm|].
  - destruct (record_counted report adm 1 (vlen rest)) as (r' & -> & Hc' & Hq' & Hj'); [by replace (1 + vlen rest) with (vlen (page :: rest)) by lia|by destruct adm|]. mred.
    destruct (IH Q M V A p rest r') as (p' & report' & Q' & M' & V' & A' & He & Hp' & Hk & Hc & Hq & Hj & Hsp); [eapply pool_le; [exact Hp|lia]|intros q Hin; apply Hown; by right|simpl in Hfuel; lia|done|].
    exists p', report', Q', M', V', A'. split_and!; try done; [congruence|]. rewrite Hj, Hj'. unfold stale_pages at 2. rewrite filter_cons.
    destruct adm; try done; simpl in Ho.
    + destruct Ho as [[h Hh] _]. rewrite decide_False by congruence. fold (stale_pages p rest). lia.
    + destruct Ho as [[h Hh] _]. rewrite decide_False by congruence. fold (stale_pages p rest). lia.
    + rewrite decide_True by (by apply eq_None_not_Some). fold (stale_pages p rest). unfold vlen. simpl. lia.
  - destruct (run_end_pool _ _ _ _ _ _ _ _ _ _ (N.to_nat (Ledger.vector_width (prefetch (cache p)) - 1)) rest page Hp) as (k & -> & Hk1 & Hk2 & Hk); [intros q Hin; apply Hown; by right|]. mred.
    pose proof Hp as [[H1 _ _ _ _ _ _ _ _] _ _ _ _]. destruct (ci_widths _ _ _ _ _ _ _ _ _ H1) as [((W1 & _) & _) _].
    destruct (admit_round_pool n Q M V tks G A leases gs p (page :: rest) page rest (k + 1) report Hp eq_refl Hown) as (p1 & r1 & c1 & -> & (Q1 & M1 & V1 & A1 & Hp1 & Hk1' & Hc1 & Hq1 & Hj1 & Hpos & Hsp1)); [lia..| | |done|].
    { intros count Hc1 Hc2. by apply (run_straight _ _ _ _ _ _ _ _ _ p page rest k count Hp Hown Ho Hk Hk2 Hc1 Hc2). }
    { by apply (run_straight _ _ _ _ _ _ _ _ _ p page rest k (k + 1) Hp Hown Ho Hk Hk2 ltac:(lia) ltac:(lia)). }
    mred. destruct (IH Q1 M1 V1 A1 p1 (drop (N.to_nat c1) (page :: rest)) r1 Hp1) as (p' & report' & Q' & M' & V' & A' & He & Hp' & Hk' & Hc & Hq & Hj & Hsp).
    { intros q Hin. apply Hown. apply list_elem_of_lookup in Hin as [j Hj]. rewrite lookup_drop in Hj. by eapply list_elem_of_lookup_2. }
    { rewrite length_drop. simpl in *. lia. }
    { done. }
    exists p', report', Q', M', V', A'. split; [exact He|]. split_and!; try done; [by eapply kept_trans|congruence|rewrite Hj, (stale_kept _ _ _ Hk1'); exact Hj1|by eapply spared_trans].
Qed.

(** ** The hint *)

Lemma deferred_pool n Q M V tks G A leases gs p k :
  pool_inv (k + n) Q M V tks G A leases gs p →
  ∃ p', pool_ledger p (count_deferred (prefetch (cache p)) k) = Done p' ∧ pool_inv n Q M V tks G A leases gs p' ∧ kept_pool p p' ∧ spared M (prefetch (cache p)) M (prefetch (cache p')).
Proof.
  intros Hp. pose proof Hp as [[H1 H2 H3 H4 H5 H6 H7 H8 H9] P2 P3 P4 P5]. pose proof (ci_ledger _ _ _ _ _ _ _ _ _ H1) as Hl.
  unfold pool_ledger, on_ledger, count_deferred. pose proof (g_counts _ _ _ _ Hl) as [K1 K2]. rewrite add_ok by lia. mred. eexists. split; [done|]. split; [|done].
  eapply pool_set; [exact Hp| |done..]. eapply (cinv_prefetch (k + n)); [exact H1|lia| |done].
  pose proof (lgood_counts n F (prefetch (cache p)) (clock (cache p)) k k 0 Hl ltac:(lia) ltac:(lia)) as Hx. simpl in Hx. by rewrite N.add_0_r in Hx.
Qed.

Lemma begin_pool n Q M V tks G A leases gs p b :
  pool_inv (1 + n) Q M V tks G A leases gs p →
  ∃ p', pool_ledger p (Ledger.begin_explicit (Ledger.set_active (prefetch (cache p)) b)) = Done p' ∧ pool_inv n Q M V tks G A leases gs p' ∧ kept_pool p p' ∧ unseen (cache p') ≤ F ∧
    spared M (prefetch (cache p)) M (prefetch (cache p')).
Proof.
  intros Hp. pose proof Hp as [[H1 H2 H3 H4 H5 H6 H7 H8 H9] P2 P3 P4 P5].
  destruct (begin_good n F _ _ (lgood_active _ _ _ _ b (ci_ledger _ _ _ _ _ _ _ _ _ H1))) as (s & He & Hl). unfold pool_ledger, on_ledger. rewrite He. mred. eexists. split; [done|].
  split; [|split; [done|]; split; [unfold unseen; simpl; pose proof (proj2 (ci_widths _ _ _ _ _ _ _ _ _ H1)); lia|done]].
  eapply pool_set; [exact Hp| |done..]. by eapply (cinv_prefetch (1 + n)); [exact H1|lia|..].
Qed.

(** The report of a hint counts every page asked for once; the pages of files that are not
    live are the rejected ones.  A page whose frame is no prediction, or one a reader has
    touched, stays mapped. *)
Lemma hint_pool n Q M V tks G A leases gs p pages :
  pool_inv (F + 4 * vlen pages + 2 + n) Q M V tks G A leases gs p → (∀ q, q ∈ pages → own_page q) → vlen pages ≤ U64_MAX →
  ∃ p' report Q' M' V' A', prefetch_hint identity g reads p pages = Done (p', report) ∧ pool_inv n Q' M' V' tks G A' leases gs p' ∧ kept_pool p p' ∧
    counted report 0 ∧ rp_requested report = vlen pages ∧
    rp_rejected report = vlen (stale_pages p (take (N.to_nat (Ledger.request_limit (prefetch (cache p)))) pages)) ∧
    ∀ page f, M !! page = Some f → ¬ unused_prediction (clock (cache p)) f → M' !! page = Some f ∧ ¬ speculates (prefetch (cache p')) f.
Proof.
  intros Hp Hown Hmax. unfold prefetch_hint, on_cache_. replace (F + 4 * vlen pages + 2 + n) with (1 + (1 + (F + 4 * vlen pages + n))) in Hp by lia.
  pose proof Hp as [[H1 _ _ _ _ _ _ _ _] _ _ _ _].
  destruct (reconcile_good _ F _ _ (ci_ledger _ _ _ _ _ _ _ _ _ H1)) as (l1 & k1 & Hl1 & _ & Hcalm1).
  destruct (reconcile_pool _ _ _ _ _ _ _ _ _ _ Hp) as (c & Hrec & Hp1). rewrite Hrec. mred.
  assert (Ledger.request_limit (prefetch c) = Ledger.request_limit (prefetch (cache p))) as Hlim.
  { unfold reconcile in Hrec. rewrite Hl1 in Hrec. mred in Hrec. injection Hrec as <-. apply (a_width _ _ _ Hcalm1). }
  assert (∀ f, ¬ unused_prediction (clock (cache p)) f → ¬ speculates (prefetch c) f) as Hs1.
  { unfold reconcile in Hrec. rewrite Hl1 in Hrec. mred in Hrec. injection Hrec as <-. intros f Hno Hsp. apply Hno. by eapply reconcile_settled; [apply H1|..]. }
  change (cache (set_cache p c)) with c. set (p1 := set_cache p c) in *. cbv zeta.
  change (Ledger.request_limit (Ledger.set_active (prefetch c) _)) with (Ledger.request_limit (prefetch c)). rewrite Hlim. set (examined := take _ pages).
  assert (vlen examined ≤ vlen pages) as Hle by (unfold examined, vlen; rewrite length_take; lia).
  assert (∀ q, q ∈ examined → own_page q) as Hown' by (intros q Hq; apply Hown; unfold examined in Hq; apply list_elem_of_lookup in Hq as [j [Hq _]%lookup_take_Some]; by eapply list_elem_of_lookup_2).
  destruct (begin_pool _ _ _ _ _ _ _ _ _ _ (0 <? Ledger.capacity (prefetch c)) Hp1) as (p2 & Hb & Hp2 & Hk2 & Hu2 & Hs2). change (cache p1) with c in Hb. rewrite Hb. mred.
  destruct (protect_each_pool _ _ _ _ _ _ _ _ _ examined p2 Hp2 Hown') as (p3 & -> & Hp3 & Hk3 & Hu3 & Hs3). mred.
  set (report := mkReport _ _ _ _ _ _).
  destruct (examined_pool (vlen pages + n) tks G leases gs (length examined) Q M V A p3 examined report) as (p4 & r4 & Q4 & M4 & V4 & A4 & -> & Hp4 & Hk4 & Hc4 & Hq4 & Hj4 & Hs4); [eapply pool_le; [exact Hp3|lia]|done|done|split; simpl; lia|].
  mred. pose proof Hc4 as Hcount. destruct Hc4 as [Hc4 Hc4']. rewrite Hq4 in Hc4. simpl in Hc4, Hq4.
  replace (vlen pages + n) with (rp_deferred r4 + (vlen pages - rp_deferred r4 + n)) in Hp4 by lia.
  destruct (deferred_pool _ _ _ _ _ _ _ _ _ _ _ Hp4) as (p5 & -> & Hp5 & Hk5 & Hs5). mred. rewrite (proj2 (N.eqb_eq _ _)) by lia. mred.
  assert (kept_pool p p3) as Hkp3 by (eapply (kept_trans p p1); [done|]; by eapply kept_trans).
  eexists _, _, Q4, M4, V4, A4. split; [done|]. split; [eapply pool_le; [exact Hp5|lia]|]. split_and!; try done; [by eapply kept_trans; [|eapply kept_trans]| |].
  - rewrite Hj4. simpl. by rewrite (stale_kept _ _ _ Hkp3).
  - intros page f Hm Hno. assert (spared M (prefetch c) M4 (prefetch (cache p5))) as Hsp.
    { eapply spared_trans; [exact Hs2|]. eapply spared_trans; [exact Hs3|]. by eapply spared_trans. }
    by apply Hsp; [|apply Hs1].
Qed.
End hints.
End PoolHints.
