(* ===== verification/PoolPoll.v ===== *)
(** * The polling pass over the pool

    The prediction pass and the polls over the invariant of the pool: obsolete predictions
    are dropped, the reserve is topped up, the streams that are ready are extended window
    by window, and [poll] and [poll_report] run all parts of the pass. *)
From stdpp Require Import prelude gmap list.
From Stdlib Require Import NArith ZArith Lia.
From S2P Require Import Prelude Ids Table Frames FrameCensus Clock Epoch FileSlots Miss MissMap Pattern IndexQueue Execute ReadVector ReadSpans Driver PoolBackend Product Ledger LedgerSystem LedgerSafety LedgerCalm LedgerTurns ProductSafety PoolCache PoolInv PoolControl PoolReads PoolRoute PoolReclaim PoolDemand PoolRetire PoolPrefetch PoolSpeculate PoolAdmit PoolHints.

Open Scope N_scope.

Module PoolPoll.
Import LedgerSafety.LedgerSafety LedgerCalm.LedgerCalm LedgerTurns.LedgerTurns Frames FrameCensus MissMap Execute Driver PoolBackend.PoolBackend PoolCache PoolInv PoolControl PoolReads PoolRoute PoolReclaim PoolDemand PoolRetire PoolPrefetch PoolSpeculate PoolAdmit PoolHints.

(** ** Reclaimed frames *)

Lemma drain_entries_bounded {S} (process : S → ReadFrameIdx → N → outcome (S * Epoch.FrameOutcome)) epoch es : ∀ st r es' st' r',
  Epoch.drain_entries process epoch es st r = Done (es', st', r') → r' ≤ r + vlen es.
Proof.
  induction es as [|[f tag] es IH]; intros st r es' st' r' H; cbn [Epoch.drain_entries] in H; [inv_done; unfold vlen; simpl; lia|].
  assert (vlen ((f, tag) :: es) = vlen es + 1) as Hl by (unfold vlen; simpl; lia). rewrite Hl. destruct (_ <? _); [inv_done; lia|].
  apply outcome_bind_Done in H as (u & _ & H). apply outcome_bind_Done in H as ([st1 o] & _ & H). apply IH in H. destruct (bool_decide _); lia.
Qed.

Lemma reclaim_frame_queue c f c' : reclaim_frame c f = Done c' → evict_queue c' = evict_queue c.
Proof. unfold reclaim_frame, push_free. intros H. by inv_done. Qed.

Lemma reclaim_released_queue l : ∀ c c', reclaim_released c l = Done c' → evict_queue c' = evict_queue c.
Proof.
  induction l as [|f l IH]; intros c c' H; simpl in H; [by inv_done|]. apply outcome_bind_Done in H as (st & _ & H).
  apply outcome_bind_Done in H as (u & _ & H). apply outcome_bind_Done in H as (c1 & H1 & H).
  rewrite (IH _ _ H). by eapply reclaim_frame_queue.
Qed.

Lemma nodup_below (l : list N) n : NoDup l → (∀ x, x ∈ l → x < n) → vlen l ≤ n.
Proof.
  intros Hnd Hlt. assert (l ⊆+ (N.of_nat <$> seq 0 (N.to_nat n))) as Hs.
  { apply NoDup_submseteq; [done|]. intros x Hx. apply list_elem_of_fmap. exists (N.to_nat x). split; [lia|]. apply elem_of_seq. specialize (Hlt x Hx). lia. }
  apply submseteq_length in Hs. rewrite length_fmap, length_seq in Hs. unfold vlen. lia.
Qed.

Section poll.
Context {B R : Type} `{!PoolBackend B} `{!Retainer R} {identity g F capacity fcap : N}.
Context `{!BackendLaws B identity g F capacity fcap} `{!RetainerLaws R F fcap}.
Context {a reads slots : N}.
Context (Hg : 0 < g) (Hgmax : g ≤ U32_MAX) (Hreads : reads ≤ U32_MAX).
Implicit Types (p : Pool B R) (V : gmap N mread) (Q : gmap OpToken flight) (A : Routes) (l : Ledger.Prefetch).
#[local] Abbreviation cinv W := (cinv (F := F) (g := g) (a := a) (fcap := fcap) (reads := reads) (P := Product.own_file (identity := identity) (file_capacity := fcap)) (W := W)).
#[local] Abbreviation pool_inv := (pool_inv (identity := identity) (g := g) (F := F) (capacity := capacity) (fcap := fcap) (a := a) (reads := reads) (slots := slots)).
#[local] Abbreviation own_file := (Product.own_file (identity := identity) (file_capacity := fcap)).

Lemma reclaimed_bound n Q M V tks G A leases gs p p' k :
  pool_inv n Q M V tks G A leases gs p → advance_and_reclaim p = Done (p', k) → k ≤ F.
Proof.
  intros [[H1 H2 H3 H4 H5 H6 H7 H8 H9] P2 P3 P4 P5] H. pose proof (queue_nodup _ _ _ _ _ _ _ _ _ H1) as Hnd.
  assert (vlen ((Epoch.entries (evict_queue (cache p))).*1 ++ held (retention p)) ≤ F) as Hall.
  { apply nodup_below; [done|]. intros x Hx. by eapply (cinv_lt _ _ _ _ _ _ _ _ _ x Evicting H1). }
  assert (vlen (Epoch.entries (evict_queue (cache p))) + vlen (held (retention p)) ≤ F) as Hsum by (unfold vlen in *; rewrite length_app, length_fmap in Hall; lia).
  unfold advance_and_reclaim in H. apply outcome_bind_Done in H as (needed & _ & H). apply outcome_bind_Done in H as ([p1 released] & Hrel & H).
  assert (released ≤ vlen (held (retention p)) ∧ evict_queue (cache p1) = evict_queue (cache p)) as [Hr Hq].
  { destruct needed as [[]|]; [|inv_done; split; [lia|done]..]. destruct (law_drain_releases (retention p) (global_epoch (cache p)) P4) as (r & l & Hd & _ & Hperm).
    rewrite Hd in Hrel. mred in Hrel. apply outcome_bind_Done in Hrel as (c & Hc & Hrel). injection Hrel as <- <-. split; [|simpl; by eapply reclaim_released_queue].
    apply Permutation_length in Hperm. rewrite length_app in Hperm. unfold vlen. lia. }
  apply outcome_bind_Done in H as ([epoch advanced] & _ & H). rewrite <- Hq in Hsum. unfold Epoch.drain_matured in H.
  assert (∀ matured, matured ≤ 0 + vlen (Epoch.entries (evict_queue (cache p1))) → released + matured ≤ F) as Hfin by (intros; lia).
  match type of H with context [if ?b then _ else _] => destruct b end; apply outcome_bind_Done in H as ([[q st] matured] & Hd & H);
    apply outcome_bind_Done in Hd as ([[es st'] r'] & Hd & Heq); injection Heq as <- <- <-; apply drain_entries_bounded in Hd; simpl in Hd; [destruct st' as [? ?]|]; injection H as <- <-; by apply Hfin.
Qed.

(** ** The reserve *)

Lemma fill_pool n Q M V tks G A leases gs p :
  pool_inv n Q M V tks G A leases gs p → ∃ p', on_cache_ p (fill_reserve (cache p)) = Done p' ∧ pool_inv n Q M V tks G A leases gs p' ∧ kept_pool p p'.
Proof.
  intros Hp. pose proof Hp as [[H1 H2 H3 H4 H5 H6 H7 H8 H9] P2 P3 P4 P5]. unfold on_cache_.
  destruct (fill_reserve_cache _ _ _ _ _ _ _ _ _ H1) as (s & r & -> & Hc). mred. eexists. split; [done|]. split; [by eapply pool_set|done].
Qed.

Lemma top_up_pool n Q M V tks G A leases gs p :
  pool_inv (F + 2 + n) Q M V tks G A leases gs p →
  ∃ p' M' V' G', prefetch_top_up F p = Done p' ∧ pool_inv n Q M' V' tks G' A leases gs p' ∧ kept_pool p p'.
Proof.
  intros Hp. unfold prefetch_top_up. destruct (Ledger.active (prefetch (cache p))); simpl negb; [|exists p, M, V, G; split; [done|]; split; [eapply pool_le; [exact Hp|lia]|done]].
  destruct (fill_pool _ _ _ _ _ _ _ _ _ _ Hp) as (p1 & -> & Hp1 & Hk1). mred. pose proof Hp1 as [[H1 H2 H3 H4 H5 H6 H7 H8 H9] P2 P3 P4 P5].
  rewrite (available_cache _ _ _ _ _ _ _ _ _ H1). mred. set (deficit := saturating_sub _ _).
  assert (deficit ≤ F) as Hd by (pose proof (proj2 (ci_widths _ _ _ _ _ _ _ _ _ H1)); unfold deficit, saturating_sub; lia).
  replace (F + 2 + n) with (deficit + (1 + (1 + (F - deficit + n)))) in H1, Hp1 by lia.
  destruct (top_up_evict_cache Hg Hgmax _ _ _ _ _ _ _ _ _ deficit H1) as (r & M2 & V2 & -> & Hps). mred. pose proof (set_cache_pool _ _ _ _ _ _ _ _ _ _ _ _ _ _ _ Hp1 Hps) as Hp2.
  change (match r with Return c => c | Continue c => c end) with (outcome_of r). destruct (0 <? deficit).
  2: { eexists _, M2, V2, _. split; [done|]. split; [eapply pool_le; [exact Hp2|lia]|by destruct Hk1]. }
  destruct (advance_pool Hg Hgmax _ _ _ _ _ _ _ _ _ _ Hp2) as (p3 & k3 & G3 & -> & Hp3 & Hk3). mred.
  destruct (advance_pool Hg Hgmax _ _ _ _ _ _ _ _ _ _ Hp3) as (p4 & k4 & G4 & -> & Hp4 & Hk4). mred.
  destruct (fill_pool _ _ _ _ _ _ _ _ _ _ Hp4) as (p5 & -> & Hp5 & Hk5). eexists _, M2, V2, G4. split; [done|]. split; [eapply pool_le; [exact Hp5|lia]|].
  eapply kept_trans; [exact Hk1|]. eapply (kept_trans p1 (set_cache p1 (outcome_of r))); [done|]. eapply kept_trans; [exact Hk3|]. by eapply kept_trans.
Qed.

(** ** A window *)

(** The stream of a reader is in one of the pool's files, and its next pages follow each other. *)
Lemma track_straight n Q M V tks G A leases gs p r inc pages :
  pool_inv n Q M V tks G A leases gs p → on_track (prefetch (cache p)) r inc pages → pages ≠ [] →
  ∃ first, straight first pages ∧ own_file (pg_file first) ∧ NoDup pages.
Proof.
  intros [[H1 _ _ _ _ _ _ _ _] _ _ _ _] [->|(pt & d & nx & w & Hp & _ & Hs & _ & Hh & Hk)] Hne; [done|]. exists (mkPageId (pg_file d) nx). split_and!.
  - split_and!; [done|exact Hk|]. simpl. unfold horizon, saturating_add in Hh. lia.
  - apply (ci_streams _ _ _ _ _ _ _ _ _ H1 _ _ _ Hp). unfold stream_file, Pattern.last_page. by rewrite Hs.
  - apply NoDup_alt. intros i j q Hi Hj. rewrite (Hk _ _ Hi) in Hj. pose proof (Hk _ _ Hj) as [=]. lia.
Qed.

Lemma window_classify_pool Q M V tks G A leases gs p first : ∀ m n index,
  pool_inv n Q M V tks G A leases gs p → own_file (pg_file first) → pg_granule_idx first + index + N.of_nat m ≤ U32_MAX + 1 →
  ∃ classes, window_classify identity m p first index = Done classes ∧ classes.*1 = window_pages m first index ∧ ∀ x, x ∈ classes → classed M V p x.1 x.2.
Proof.
  induction m as [|m IH]; intros n index Hp Hown Hfit; [exists []; split_and!; [done|done|by intros x ?%elem_of_nil]|]. cbn [window_classify].
  unfold checked_add. rewrite (proj2 (N.leb_le _ _)) by lia. mred.
  destruct (classify_pool _ _ _ _ _ _ _ _ _ _ (mkPageId (pg_file first) (pg_granule_idx first + index)) Hp) as (o & -> & Ho); [split; [done|simpl; lia]|]. mred.
  destruct (IH n (index + 1) Hp Hown ltac:(lia)) as (classes & -> & Hpages & Hcl). mred. eexists. split; [done|]. simpl. split; [f_equal; exact Hpages|].
  intros x [->|Hx]%elem_of_cons; [done|by apply Hcl].
Qed.

(** What a round may rely on of a page and its class. *)
Definition settled_class (M : gmap PageId ReadFrameIdx) V p (x : PageId * option Admission) : Prop :=
  match x.2 with
  | None => absent_page M V x.1 ∧ registered (files (product p)) (pg_file x.1)
  | Some AdmResident | Some AdmPending | Some AdmRejected => True
  | _ => False
  end.

Lemma absent_run_spec todo :
  ∃ rest, todo = ((λ page, (page, None)) <$> absent_run todo) ++ rest ∧ drop (length (absent_run todo)) todo = rest ∧
    (∀ page todo', todo = (page, None) :: todo' → absent_run todo ≠ []).
Proof.
  induction todo as [|[page [adm|]] todo (rest & Heq & Hd & _)]; [by exists []|by exists ((page, Some adm) :: todo)|].
  exists rest. simpl. split_and!; [f_equal; exact Heq|exact Hd|done].
Qed.

Lemma issue_pool n Q M V tks G A leases gs p r inc page rest :
  pool_inv (1 + n) Q M V tks G A leases gs p → on_track (prefetch (cache p)) r inc (page :: rest) →
  ∃ p', pool_ledger p (issue_each (prefetch (cache p)) r [page]) = Done p' ∧ pool_inv n Q M V tks G A leases gs p' ∧ kept_pool p p' ∧
    on_track (prefetch (cache p')) r inc rest ∧ vlen (Ledger.patterns (prefetch (cache p'))) = vlen (Ledger.patterns (prefetch (cache p))).
Proof.
  intros Hp Ht. pose proof Hp as [[H1 H2 H3 H4 H5 H6 H7 H8 H9] P2 P3 P4 P5].
  destruct (issue_good n F _ _ r page rest inc (ci_ledger _ _ _ _ _ _ _ _ _ H1) Ht) as (l' & He & Hl & Hcalm). unfold pool_ledger, on_ledger. simpl issue_each. rewrite He. mred.
  eexists. split; [done|]. split; [|split; [done|]; split; [by eapply track_issued|apply (a_readers _ _ _ Hcalm)]].
  eapply pool_set; [exact Hp| |done..]. eapply (cinv_prefetch (1 + n)); [exact H1|lia|done|by eapply calm_tame].
Qed.

Lemma reset_pool n Q M V tks G A leases gs p r :
  pool_inv (1 + n) Q M V tks G A leases gs p →
  ∃ p', pool_ledger p (Ledger.reset_reader (prefetch (cache p)) r) = Done p' ∧ pool_inv n Q M V tks G A leases gs p' ∧ kept_pool p p' ∧
    vlen (Ledger.patterns (prefetch (cache p'))) = vlen (Ledger.patterns (prefetch (cache p))).
Proof.
  intros Hp. pose proof Hp as [[H1 H2 H3 H4 H5 H6 H7 H8 H9] P2 P3 P4 P5].
  destruct (reset_reader_good n F _ _ r (ci_ledger _ _ _ _ _ _ _ _ _ H1)) as (l' & He & Hl & Hcalm). unfold pool_ledger, on_ledger. rewrite He. mred.
  eexists. split; [done|]. split; [|split; [done|apply (a_readers _ _ _ Hcalm)]].
  eapply pool_set; [exact Hp| |done..]. eapply (cinv_prefetch (1 + n)); [exact H1|lia|done|by eapply calm_tame].
Qed.

(** What a round of a window leaves: the pass, and the reader's place in the patterns. *)
Definition window_kept p p' : Prop := kept_pool p p' ∧ vlen (Ledger.patterns (prefetch (cache p'))) = vlen (Ledger.patterns (prefetch (cache p))).

Lemma window_kept_trans p p1 p2 : window_kept p p1 → window_kept p1 p2 → window_kept p p2.
Proof. intros [K1 L1] [K2 L2]. split; [by eapply kept_trans|congruence]. Qed.

Lemma track_reader l r inc pages : on_track l r inc pages → pages ≠ [] → r < vlen (Ledger.patterns l).
Proof. intros [->|(p & d & nx & w & Hp & _)] Hne; [done|]. by eapply vget_lt. Qed.

(** The absent pages at the front of the window become one run. *)
Lemma window_run_pool n Q M V tks G A leases gs p r inc todo page rest0 :
  pool_inv (2 + vlen (absent_run todo) + n) Q M V tks G A leases gs p → todo = (page, None) :: rest0 → (∀ x, x ∈ todo → settled_class M V p x) →
  on_track (prefetch (cache p)) r inc todo.*1 → run_width (g := g) (absent_run todo) →
  ∃ p' o, (p ← on_cache_ p (reconcile_feedback (cache p)); obsolete ← Ledger.source_obsolete (prefetch (cache p)) (Automatic r inc);
      if obsolete : bool then Done (p, None)
      else '(p, admission) ← prefetch_admit_run g reads p (absent_run todo) (Automatic r inc); Done (p, Some admission)) = Done (p', o) ∧
    match o with
    | None | Some AdmDeferred => pool_inv n Q M V tks G A leases gs p' ∧ window_kept p p'
    | Some AdmAdmitted => ∃ p2 Q' V' A', pool_ledger p' (issue_each (prefetch (cache p')) r (absent_run todo)) = Done p2 ∧ pool_inv n Q' M V' tks G A' leases gs p2 ∧
        window_kept p p2 ∧ on_track (prefetch (cache p2)) r inc (drop (length (absent_run todo)) todo).*1 ∧
        ∀ x, x ∈ drop (length (absent_run todo)) todo → settled_class M V' p2 x
    | _ => False
    end.
Proof.
  intros Hp Htodo Hcl Htr Hw. destruct (absent_run_spec todo) as (rest & Heq & Hrest & Hne). specialize (Hne _ _ Htodo). rewrite Hrest.
  assert (todo.*1 = absent_run todo ++ rest.*1) as Hfst by (rewrite Heq at 1; rewrite fmap_app, <- list_fmap_compose; f_equal; apply list_fmap_id).
  assert (todo.*1 ≠ []) as Hne' by (rewrite Hfst; by intros [? _]%app_eq_nil).
  replace (2 + vlen (absent_run todo) + n) with (1 + (1 + vlen (absent_run todo) + n)) in Hp by lia. unfold on_cache_.
  destruct (feedback_pool Hg Hgmax Hreads _ _ _ _ _ _ _ _ _ _ Hp) as (c & -> & Hp1 & Hfb & Hheirs & Hcalm). mred. set (p1 := set_cache p c) in *. change (cache p1) with c in *.
  assert (window_kept p p1) as Hk1 by (split; [done|apply (a_readers _ _ _ Hcalm)]).
  pose proof (track_reader _ _ _ _ Htr Hne') as Hr. rewrite <- (a_readers _ _ _ Hcalm) in Hr. destruct (vget_ok _ _ Hr) as (pt & Hget & Hpt).
  destruct (Ledger.source_obsolete (prefetch c) (Automatic r inc)) as [b|] eqn:Hob; [|unfold Ledger.source_obsolete in Hob; by rewrite Hget in Hob]. mred.
  destruct b; [eexists _, None; split; [done|]; split; [eapply pool_le; [exact Hp1|lia]|done]|].
  assert (on_track (prefetch c) r inc todo.*1) as Htr1 by (eapply track_heirs; [exact Hheirs|apply (a_capacity _ _ _ Hcalm)|apply (a_readers _ _ _ Hcalm)|done|done]).
  destruct (track_straight _ _ _ _ _ _ _ _ _ p1 _ _ _ Hp1 Htr1 Hne') as (first & Hst & Hown & Hnd). rewrite Hfst in Hst, Htr1, Hnd.
  assert (straight first (absent_run todo)) as Hst1.
  { destruct Hst as (_ & S1 & S2). split_and!; [done| |]; [intros k q Hq; apply S1; by apply lookup_app_l_Some|]. unfold vlen in *. rewrite length_app in S2. lia. }
  assert (∀ q, q ∈ absent_run todo → absent_page M V q ∧ registered (files (product p)) (pg_file q)) as Habs.
  { intros q Hq. apply (Hcl (q, None)). rewrite Heq. apply elem_of_app. left. apply list_elem_of_fmap. by exists q. }
  assert (first ∈ absent_run todo) as Hfirst by (pose proof (straight_head _ _ Hst1) as Hh; destruct (absent_run todo) as [|q run]; [done|]; simpl in Hh; injection Hh as ->; by left).
  destruct (admit_automatic_pool Hg Hgmax Hreads n Q M V tks G A leases gs p1 first (absent_run todo) rest.*1 r inc Hp1 Hst1) as (p2 & adm & -> & Hadm); try done.
  { intros q Hq. by apply Habs. }
  { by apply Habs. }
  { apply Hown. }
  mred. exists p2, (Some adm). split; [done|]. destruct adm; try done.
  - destruct Hadm as (p3 & Q' & V' & A' & He & Hp3 & [R1 R2 R3 R4 R5] & Htr3). exists p3, Q', V', A'. split_and!; try done; [eapply window_kept_trans; [exact Hk1|done]|].
    intros [q o] Hx. assert ((q, o) ∈ todo) as Hin by (rewrite Heq; set_solver). specialize (Hcl _ Hin). destruct o as [?|]; [exact Hcl|]. destruct Hcl as [C1 C2]. split.
    + apply R1; [done|]. simpl. apply NoDup_app in Hnd as (_ & Hd & _). intros Hq. apply (Hd q Hq). apply list_elem_of_fmap. by exists (q, None).
    + by rewrite (kp_files _ _ R2).
  - destruct Hadm as (Hp2 & [R1 R2 R3 R4 R5]). split; [done|]. eapply window_kept_trans; [exact Hk1|done].
Qed.

Lemma rounds_pool M tks G leases gs r inc fuel : ∀ n Q V A p todo admitted,
  pool_inv (3 * vlen todo + n) Q M V tks G A leases gs p → (length todo ≤ fuel)%nat → (∀ x, x ∈ todo → settled_class M V p x) →
  on_track (prefetch (cache p)) r inc todo.*1 → vlen todo ≤ 1 ∨ (vlen todo ≤ ReadVector.VECTOR_FRAMES_MAX ∧ vlen todo * g ≤ ReadVector.VECTOR_BYTES_MAX) →
  ∃ p' adm k Q' V' A', window_rounds g reads fuel p r (Automatic r inc) todo admitted = Done (p', adm, k) ∧ pool_inv n Q' M V' tks G A' leases gs p' ∧ window_kept p p'.
Proof.
  induction fuel as [|fuel IH]; intros n Q V A p todo admitted Hp Hfuel Hcl Htr Hw.
  { exists p, AdmResident, admitted, Q, V, A. split; [done|]. split; [eapply pool_le; [exact Hp|lia]|done]. }
  destruct todo as [|[page class] rest]; [exists p, AdmResident, admitted, Q, V, A; split; [done|]; split; [eapply pool_le; [exact Hp|lia]|done]|].
  assert (vlen ((page, class) :: rest) = vlen rest + 1) as Hl by (unfold vlen; simpl; lia). rewrite Hl in Hp, Hw. cbn [window_rounds].
  assert (∀ n' Q1 V1 A1 p1 todo' admitted', pool_inv (3 * vlen todo' + n') Q1 M V1 tks G A1 leases gs p1 → n ≤ n' → (length todo' ≤ fuel)%nat → vlen todo' ≤ vlen rest → window_kept p p1 →
    (∀ x, x ∈ todo' → settled_class M V1 p1 x) → on_track (prefetch (cache p1)) r inc todo'.*1 →
    ∃ p' adm k Q' V' A', window_rounds g reads fuel p1 r (Automatic r inc) todo' admitted' = Done (p', adm, k) ∧ pool_inv n Q' M V' tks G A' leases gs p' ∧ window_kept p p') as Hgo.
  { intros n' Q1 V1 A1 p1 todo' admitted' Hp1 Hn Hf Hlen Hk1 Hcl1 Htr1. destruct (IH n' Q1 V1 A1 p1 todo' admitted' Hp1 Hf Hcl1 Htr1) as (p' & adm & k & Q' & V' & A' & He & Hp' & Hk'); [destruct Hw as [Hw|[W1 W2]]; [left; lia|right; split; [lia|nia]]|].
    exists p', adm, k, Q', V', A'. split; [done|]. split; [eapply pool_le; [exact Hp'|lia]|]. by eapply window_kept_trans. }
  destruct class as [adm|].
  - pose proof (Hcl (page, Some adm) ltac:(by left)) as Hadm. unfold settled_class in Hadm. simpl in Hadm. mred. simpl in Htr.
    assert (∀ admitted', ∃ p' adm k Q' V' A', (p ← pool_ledger p (issue_each (prefetch (cache p)) r [page]); window_rounds g reads fuel p r (Automatic r inc) (drop (length [page]) ((page, Some adm) :: rest)) admitted') = Done (p', adm, k) ∧ pool_inv n Q' M V' tks G A' leases gs p' ∧ window_kept p p') as Hissue.
    { intros admitted'. replace (3 * (vlen rest + 1) + n) with (1 + (3 * vlen rest + (2 + n))) in Hp by lia.
      destruct (issue_pool _ _ _ _ _ _ _ _ _ _ _ _ _ _ Hp Htr) as (p1 & -> & Hp1 & Hk1 & Htr1 & Hlen1). mred. simpl drop.
      apply (Hgo (2 + n) Q V A p1 rest admitted'); try done; [lia|simpl in Hfuel; lia|].
      intros x Hx. pose proof (Hcl x ltac:(by right)) as Hc. unfold settled_class in *. by rewrite (kp_files _ _ Hk1). }
    destruct adm; try done.
    replace (3 * (vlen rest + 1) + n) with (1 + (3 * vlen rest + (2 + n))) in Hp by lia. destruct (reset_pool _ _ _ _ _ _ _ _ _ _ r Hp) as (p1 & -> & Hp1 & Hk1 & Hlen1). mred.
    eexists p1, _, _, Q, V, A. split; [done|]. split; [eapply pool_le; [exact Hp1|lia]|done].
  - set (todo := (page, None) :: rest) in *. destruct (absent_run_spec todo) as (rest' & Heq & Hrest & Hne). specialize (Hne page rest eq_refl).
    assert (length todo = length (absent_run todo) + length rest')%nat as Hlt by (rewrite Heq at 1; by rewrite length_app, length_fmap).
    assert (1 ≤ vlen (absent_run todo)) as Hrun1 by (destruct (absent_run todo); [done|unfold vlen; simpl; lia]).
    assert (vlen (absent_run todo) + vlen rest' = vlen rest + 1) as Hsplit by (unfold vlen in *; lia).
    replace (3 * (vlen rest + 1) + n) with (2 + vlen (absent_run todo) + (3 * vlen rest' + (2 * vlen (absent_run todo) - 2 + n))) in Hp by lia.
    destruct (window_run_pool _ Q M V tks G A leases gs p r inc todo page rest Hp eq_refl Hcl Htr) as (p1 & o & -> & Ho); [destruct Hw as [Hw|[W1 W2]]; [left; lia|right; split; [lia|nia]]|]. mred.
    destruct o as [[]|]; try done.
    + destruct Ho as (p2 & Q' & V' & A' & -> & Hp2 & Hk2 & Htr2 & Hcl2). mred. rewrite Hrest in *. apply (Hgo _ Q' V' A' p2 rest' _ Hp2); try done; [lia|unfold vlen in *; simpl in *; lia|lia].
    + destruct Ho as [Hp1 Hk1]. eexists p1, _, _, Q, V, A. split; [done|]. split; [eapply pool_le; [exact Hp1|lia]|done].
    + destruct Ho as [Hp1 Hk1]. eexists p1, _, _, Q, V, A. split; [done|]. split; [eapply pool_le; [exact Hp1|lia]|done].
Qed.

Lemma classed_settled n Q M V tks G A leases gs p x :
  pool_inv n Q M V tks G A leases gs p → own_page (identity := identity) (fcap := fcap) x.1 → classed M V p x.1 x.2 → settled_class M V p x.
Proof.
  intros Hp Hown Hx. destruct x as [page o]. unfold settled_class. simpl in *. destruct o as [adm|]; [by destruct adm|]. by eapply classed_registered.
Qed.

Lemma window_name pt r aw page source count : Pattern.window pt r aw = Done (Some (page, source, count)) → stream_file pt = Some (pg_file page).
Proof.
  unfold Pattern.window, Pattern.request, stream_file, Pattern.last_page. destruct (Pattern.state pt) as [| |d nx w]; [done..|].
  destruct (_ <? _); [done|]. intros H. inv_done. by match goal with H : context [if ?b then _ else _] |- _ => destruct b; simplify_eq/= end.
Qed.

Lemma credits_pool n Q M V tks G A leases gs p classes :
  pool_inv n Q M V tks G A leases gs p → ∃ b, prefetch_automatic_window_has_credits reads p classes = Done b.
Proof.
  intros Hp. pose proof Hp as [[H1 H2 H3 H4 H5 H6 H7 H8 H9] P2 P3 P4 P5]. unfold prefetch_automatic_window_has_credits.
  rewrite (available_cache _ _ _ _ _ _ _ _ _ H1). mred. destruct (_ <? _); [by exists false|].
  pose proof (pool_capacity _ _ _ _ _ _ _ _ _ _ Hp) as Hcap. unfold credit in H6. rewrite sub_ok by lia. mred. by eexists.
Qed.

Lemma automatic_window_pool n Q M V tks G A leases gs p pt r page source count :
  pool_inv (96 + n) Q M V tks G A leases gs p → IndexQueue.front (Ledger.ready (prefetch (cache p))) = Some r →
  Ledger.patterns (prefetch (cache p)) !! N.to_nat r = Some pt → Pattern.window pt r (Ledger.automatic_width (prefetch (cache p))) = Done (Some (page, source, count)) →
  ∃ p' adm k Q' V' A', prefetch_automatic_window identity g reads p page source count = Done (p', adm, k) ∧ pool_inv n Q' M V' tks G A' leases gs p' ∧ kept_pool p p'.
Proof.
  intros Hp Hfront Hpt Hwin. pose proof Hp as [[H1 H2 H3 H4 H5 H6 H7 H8 H9] P2 P3 P4 P5].
  destruct (ci_widths _ _ _ _ _ _ _ _ _ H1) as [((W1 & W1') & W2 & W3) _]. destruct (g_sound _ _ _ _ (ci_ledger _ _ _ _ _ _ _ _ _ H1)) as (L & C & U & Rd & x & Hv). simpl in Hv.
  destruct (LedgerSystem.v_patterns _ _ _ _ _ _ _ _ _ Hv pt) as [Hok _]; [by eapply list_elem_of_lookup_2|].
  destruct (window_track (prefetch (cache p)) r pt (Ledger.automatic_width (prefetch (cache p))) page source count Hpt Hok) as ([C1 C2] & Caw & -> & Hfit & Htr); [destruct W3 as [-> | ->]; lia|destruct W3 as [-> | ->]; lia|exact Hwin|].
  assert (own_file (pg_file page)) as Hown by (eapply (ci_streams _ _ _ _ _ _ _ _ _ H1); [exact Hpt|by eapply window_name]).
  unfold prefetch_automatic_window. rewrite bool_decide_eq_true_2 by done. mred. unfold prefetch_automatic_window_classify.
  rewrite (proj2 (N.leb_le 1 count)), (proj2 (N.leb_le count 32)) by lia. mred.
  destruct (window_classify_pool _ _ _ _ _ _ _ _ p page (N.to_nat count) _ 0 Hp Hown) as (classes & -> & Hpages & Hcl); [lia|]. simpl andb. mred.
  assert (vlen classes = count) as Hlen by (unfold vlen; rewrite <- (length_fmap fst), Hpages, window_length; lia).
  destruct (credits_pool _ _ _ _ _ _ _ _ _ _ classes Hp) as (b & ->).
  mred. destruct b; simpl negb; [|exists p, AdmDeferred, 0, Q, V, A; split; [done|]; split; [eapply pool_le; [exact Hp|lia]|done]].
  rewrite <- Hpages in Htr.
  destruct (rounds_pool M tks G leases gs r (Pattern.incarnation pt) (N.to_nat count) n Q V A p classes 0) as (p1 & adm & k & Q1 & V1 & A1 & -> & Hp1 & Hk1 & Hlen1); try done.
  { eapply pool_le; [exact Hp|lia]. }
  { unfold vlen in Hlen. lia. }
  { intros y Hy. eapply classed_settled; [exact Hp| |by apply Hcl]. assert (y.1 ∈ window_pages (N.to_nat count) page 0) as Hin by (rewrite <- Hpages; apply list_elem_of_fmap; by exists y).
    apply list_elem_of_lookup in Hin as [j Hj]. pose proof (lookup_lt_Some _ _ _ Hj) as Hlt. rewrite window_length in Hlt. rewrite (window_lookup _ _ _ _ _ Hj). split; [exact Hown|simpl; lia]. }
  { rewrite Hlen. unfold ReadVector.VECTOR_FRAMES_MAX. destruct W3 as [Ew|Ew]; rewrite Ew in Caw; [left; lia|]. destruct W2 as [W2|W2]; [left; lia|right; split; [lia|nia]]. }
  mred. assert (r < vlen (Ledger.patterns (prefetch (cache p1)))) as Hr by (rewrite Hlen1; by eapply vget_lt).
  match goal with |- context [if ?b then Done p1 else _] => destruct b end; mred; [by exists p1, adm, k, Q1, V1, A1|].
  pose proof Hp1 as [[I1 _ _ _ _ _ _ _ _] _ _ _ _]. destruct (advance_good n F _ _ r (ci_ledger _ _ _ _ _ _ _ _ _ I1) Hr) as (l' & He & Hl & Hcalm).
  unfold pool_ledger, on_ledger. rewrite He. mred. eexists _, adm, k, Q1, V1, A1. split; [done|]. split; [|by destruct Hk1].
  eapply pool_set; [exact Hp1| |done..]. eapply cinv_prefetch; [exact I1|lia|done|by eapply calm_tame].
Qed.

(** ** The prediction pass *)

Lemma active_pool n Q M V tks G A leases gs p b :
  pool_inv n Q M V tks G A leases gs p → pool_inv n Q M V tks G A leases gs (set_cache p (set_prefetch (cache p) (Ledger.set_active (prefetch (cache p)) b))).
Proof.
  intros Hp. pose proof Hp as [[H1 H2 H3 H4 H5 H6 H7 H8 H9] P2 P3 P4 P5]. eapply pool_set; [exact Hp| |done..].
  eapply cinv_prefetch; [exact H1|lia|by apply lgood_active, H1|done].
Qed.

Lemma ready_front n frames l k r : lgood n frames l k → IndexQueue.front (Ledger.ready l) = Some r →
  ∃ pt w, Ledger.patterns l !! N.to_nat r = Some pt ∧ Pattern.window pt r (Ledger.automatic_width l) = Done (Some w).
Proof.
  intros Hl Hf. destruct (g_sound _ _ _ _ Hl) as (L & C & U & Rd & x & Hv). simpl in Hv. pose proof (LedgerSystem.v_ready _ _ _ _ _ _ _ _ _ Hv) as Hq.
  unfold IndexQueue.front in Hf. rewrite (IndexQueue.rep_first _ _ _ Hq) in Hf. destruct Rd as [|r' Rd]; [done|]. simpl in Hf. injection Hf as ->.
  destruct (vget_ok (Ledger.patterns l) r) as (pt & _ & Hp); [apply (IndexQueue.rep_range _ _ _ Hq); by left|].
  destruct (proj1 (LedgerSystem.v_turns _ _ _ _ _ _ _ _ _ Hv r pt Hp)) as [w Hw]; [by left|]. by exists pt, w.
Qed.

Definition pool_of (r : flow (Pool B R) (Pool B R)) : Pool B R := match r with Return p => p | Continue p => p end.

Lemma extend_pool n Q M V tks G A leases gs p :
  pool_inv (96 + n) Q M V tks G A leases gs p →
  ∃ r Q' V' A', extend_body identity g reads p = Done r ∧ pool_inv n Q' M V' tks G A' leases gs (pool_of r) ∧ kept_pool p (pool_of r).
Proof.
  intros Hp. pose proof Hp as [[H1 H2 H3 H4 H5 H6 H7 H8 H9] P2 P3 P4 P5]. unfold extend_body. destruct (IndexQueue.front (Ledger.ready (prefetch (cache p)))) as [r|] eqn:Hf.
  2: { eexists _, Q, V, A. split; [done|]. split; [eapply pool_le; [exact Hp|simpl; lia]|done]. }
  destruct (ready_front _ _ _ _ r (ci_ledger _ _ _ _ _ _ _ _ _ H1) Hf) as (pt & [[page source] count] & Hpt & Hwin). rewrite (proj2 (vget_Done _ _ _) Hpt). mred. rewrite Hwin. mred.
  set (p1 := set_cache p _). destruct (automatic_window_pool n Q M V tks G A leases gs p1 pt r page source count) as (p2 & adm & k & Q2 & V2 & A2 & -> & Hp2 & Hk2); try done; [by apply active_pool|].
  mred. eexists _, Q2, V2, A2. split; [done|]. destruct adm; (split; [done|by destruct Hk2]).
Qed.

Lemma extend_loop n Q M V tks G A leases gs p k :
  pool_inv (96 * k + n) Q M V tks G A leases gs p →
  ∃ r Q' V' A', for_range (extend_body identity g reads) k p = Done r ∧ pool_inv n Q' M V' tks G A' leases gs (pool_of r) ∧ kept_pool p (pool_of r).
Proof.
  intros Hp. rewrite for_range_nat.
  destruct (for_nat_rule (extend_body identity g reads) (λ m p1, ∃ Q1 V1 A1, pool_inv (96 * N.of_nat m + n) Q1 M V1 tks G A1 leases gs p1 ∧ kept_pool p p1)
    (λ p1, ∃ Q1 V1 A1, pool_inv n Q1 M V1 tks G A1 leases gs p1 ∧ kept_pool p p1) (N.to_nat k) p) as [(p' & -> & Q' & V' & A' & Hp' & Hk)|(p' & -> & Q' & V' & A' & Hp' & Hk)].
  - intros m p1 (Q1 & V1 & A1 & Hp1 & Hk1). replace (96 * N.of_nat (S m) + n) with (96 + (96 * N.of_nat m + n)) in Hp1 by lia.
    destruct (extend_pool _ _ _ _ _ _ _ _ _ _ Hp1) as (r & Q2 & V2 & A2 & -> & Hp2 & Hk2). assert (kept_pool p (pool_of r)) as Hk by by eapply kept_trans.
    destruct r as [p2|p2]; [left|right]; exists p2; (split; [done|]); exists Q2, V2, A2; (split; [|done]); [done|eapply pool_le; [exact Hp2|lia]].
  - exists Q, V, A. split; [by rewrite N2Nat.id|done].
  - exists (Continue p'), Q', V', A'. done.
  - exists (Return p'), Q', V', A'. done.
Qed.

Lemma progress_prefetch_pool n Q M V tks G A leases gs p :
  pool_inv (99 * F + 5 + n) Q M V tks G A leases gs p →
  ∃ p' Q' M' V' G' A', progress_prefetch identity g F reads p = Done p' ∧ pool_inv n Q' M' V' tks G' A' leases gs p' ∧ kept_pool p p'.
Proof.
  intros Hp. unfold progress_prefetch, on_cache_. replace (99 * F + 5 + n) with (1 + (99 * F + 4 + n)) in Hp by lia.
  destruct (reconcile_pool _ _ _ _ _ _ _ _ _ _ Hp) as (c & -> & Hp1). mred. set (p1 := set_cache p c) in *. pose proof Hp1 as [[H1 _ _ _ _ _ _ _ _] _ _ _ _].
  destruct (retry_good _ F _ _ (pending_releases p1) (ci_ledger _ _ _ _ _ _ _ _ _ H1)) as (l2 & He & Hl2 & Hcalm2). unfold pool_ledger, on_ledger. rewrite He. mred.
  set (p2 := set_cache p1 (set_prefetch (cache p1) l2)).
  assert (pool_inv (F + (98 * F + 4 + n)) Q M V tks G A leases gs p2) as Hp2.
  { eapply (pool_le (99 * F + 4 + n)); [eapply pool_set; [exact Hp1| |done..]; eapply cinv_prefetch; [exact H1|lia|done|by eapply calm_tame]|lia]. }
  pose proof Hp2 as [[I1 _ _ _ _ _ _ _ _] _ _ _ _]. pose proof (proj2 (ci_widths _ _ _ _ _ _ _ _ _ I1)) as Hcap.
  apply (cinv_le _ (Ledger.capacity (prefetch (cache p2)) + (98 * F + 4 + n))) in I1; [|lia].
  destruct (evict_obsolete_cache Hg Hgmax _ _ _ _ _ _ _ _ _ I1) as (c3 & M3 & V3 & -> & Hps). mred. pose proof (set_cache_pool _ _ _ _ _ _ _ _ _ _ _ _ _ _ _ Hp2 Hps) as Hp3. set (p3 := set_cache p2 c3) in *.
  replace (98 * F + 4 + n) with (F + 2 + (97 * F + 2 + n)) in Hp3 by lia. destruct (top_up_pool _ _ _ _ _ _ _ _ _ _ Hp3) as (p4 & M4 & V4 & G4 & -> & Hp4 & Hk4). mred.
  pose proof Hp4 as [[J1 _ _ _ _ _ _ _ _] _ _ _ _]. pose proof (proj2 (ci_widths _ _ _ _ _ _ _ _ _ J1)) as Hcap4. set (k := Ledger.capacity (prefetch (cache p4))) in *.
  assert (pool_inv (96 * k + (F + 2 + n)) Q M4 V4 tks G4 A leases gs p4) as Hp4' by (eapply pool_le; [exact Hp4|lia]).
  destruct (extend_loop _ _ _ _ _ _ _ _ _ _ k Hp4') as (r & Q5 & V5 & A5 & -> & Hp5 & Hk5). mred. change (match r with Return p => p | Continue p => p end) with (pool_of r).
  destruct (top_up_pool _ _ _ _ _ _ _ _ _ _ Hp5) as (p6 & M6 & V6 & G6 & -> & Hp6 & Hk6). exists p6, Q5, M6, V6, G6, A5. split_and!; [done..|].
  eapply (kept_trans p p3); [done|]. eapply kept_trans; [exact Hk4|]. by eapply kept_trans.
Qed.

(** ** The polls *)

Lemma kept_retires p p' : kept_pool p p' → retires p p'.
Proof. intros [K1 K2 K3]. unfold retires, Product.live_handle. by rewrite K1, K2. Qed.

Lemma pool_frames n Q M V tks G A leases gs p : pool_inv n Q M V tks G A leases gs p → F ≤ U32_MAX.
Proof.
  intros [[H1 _ _ _ _ _ _ _ _] _ _ _ _]. destruct (ci_arena _ _ _ _ _ _ _ _ _ H1) as [[_ _ Hc] <- _ _ _]. done.
Qed.

Lemma poll_pool n Q M V tks G A leases gs p :
  pool_inv (32 * capacity + fcap * F + 99 * F + 6 + n) Q M V tks G A leases gs p →
  ∃ p' k Q' M' V' G' A', poll identity g F reads p = Done (p', k) ∧ pool_inv n Q' M' V' tks G' A' leases gs p' ∧ retires p p' ∧ k ≤ F.
Proof.
  intros Hp. unfold poll. replace (32 * capacity + fcap * F + 99 * F + 6 + n) with (32 * capacity + (1 + (fcap * F + (99 * F + 5 + n)))) in Hp by lia.
  destruct (drain_pool Hg Hgmax _ _ _ _ _ _ _ _ _ _ Hp) as (p1 & Q1 & M1 & V1 & G1 & A1 & -> & Hp1 & Hk1 & _). mred.
  destruct (advance_pool Hg Hgmax _ _ _ _ _ _ _ _ _ _ Hp1) as (p2 & k & G2 & He & Hp2 & Hk2). pose proof (reclaimed_bound _ _ _ _ _ _ _ _ _ _ _ _ Hp1 He) as Hk. rewrite He. mred.
  destruct (progress_pool Hg Hgmax Hreads _ _ _ _ _ _ _ _ _ _ Hp2) as (p3 & M3 & V3 & -> & Hp3 & Hk3 & _). mred.
  destruct (progress_prefetch_pool _ _ _ _ _ _ _ _ _ _ Hp3) as (p4 & Q4 & M4 & V4 & G4 & A4 & -> & Hp4 & Hk4). mred.
  rewrite (proj2 (N.leb_le _ _) Hk). mred. exists p4, k, Q4, M4, V4, G4, A4. split_and!; try done.
  apply (retires_trans _ p1); [by apply kept_retires|]. apply (retires_trans _ p2); [by apply kept_retires|]. apply (retires_trans _ p3); [done|by apply kept_retires].
Qed.

(** [poll_report] also hands over finished operations, at most as many as the batch has room for. *)
Lemma poll_report_pool n Q M V tks G A leases gs p room :
  pool_inv (32 * capacity + fcap * F + 99 * F + 6 + n) Q M V tks G A leases gs p →
  ∃ p' done k Q' M' V' G' A', poll_report identity g F reads p room = Done (p', done, k) ∧ pool_inv n Q' M' V' tks G' A' leases gs p' ∧
    retires p p' ∧ k ≤ F ∧ vlen done ≤ room.
Proof.
  intros Hp. unfold poll_report. replace (32 * capacity + fcap * F + 99 * F + 6 + n) with (32 * capacity + (1 + (fcap * F + (99 * F + 5 + n)))) in Hp by lia.
  destruct (drain_pool Hg Hgmax _ _ _ _ _ _ _ _ _ _ Hp) as (p1 & Q1 & M1 & V1 & G1 & A1 & -> & Hp1 & Hk1 & _). mred.
  destruct (advance_pool Hg Hgmax _ _ _ _ _ _ _ _ _ _ Hp1) as (p2 & k & G2 & He & Hp2 & Hk2). pose proof (reclaimed_bound _ _ _ _ _ _ _ _ _ _ _ _ Hp1 He) as Hk. rewrite He. mred.
  destruct (deliver_pool _ _ _ _ _ _ _ _ _ _ (Product.mkBatch [] room) Hp2) as (q & out & Hd & Hp3 & Hf & Hlen); [unfold vlen; simpl; lia|]. rewrite Hd. mred.
  destruct (progress_pool Hg Hgmax Hreads _ _ _ _ _ _ _ _ _ _ Hp3) as (p4 & M4 & V4 & -> & Hp4 & Hk4 & _). mred.
  destruct (progress_prefetch_pool _ _ _ _ _ _ _ _ _ _ Hp4) as (p5 & Q5 & M5 & V5 & G5 & A5 & -> & Hp5 & Hk5). mred.
  assert (F ≤ U32_MAX) as HF by by eapply pool_frames. rewrite (proj2 (N.leb_le _ _)) by lia. mred. exists p5, (Product.items out), k, Q5, M5, V5, G5, A5. split_and!; try done.
  apply (retires_trans _ p1); [by apply kept_retires|]. apply (retires_trans _ p2); [by apply kept_retires|]. apply (retires_trans _ (set_product p2 q)); [by apply kept_retires|].
  apply (retires_trans _ p4); [done|by apply kept_retires].
Qed.

Lemma stats_pool n Q M V tks G A leases gs p :
  pool_inv (1 + n) Q M V tks G A leases gs p →
  ∃ p' s, prefetch_stats p = Done (p', s) ∧ pool_inv n Q M V tks G A leases gs p' ∧ kept_pool p p'.
Proof.
  intros Hp. unfold prefetch_stats, on_cache_. destruct (reconcile_pool _ _ _ _ _ _ _ _ _ _ Hp) as (c & -> & Hp1). mred. eexists _, _. split; [done|]. by split.
Qed.
End poll.
End PoolPoll.
