(* ===== verification/PoolConfig.v ===== *)
(** * The configuration of a pool

    Models [PoolBuilder] of src/src/pool/mod.rs: its fields, [validate] with
    [validate_retention_capacity], [prefetch_capacity] (src/src/pool/prefetch.rs) and
    [check_backend_geometry].  Fields are 32-bit; products and sums are taken at 64 bits as
    in the source and panic outside them.  The theorems: validation never overflows and
    accepts exactly the configurations that satisfy the watermark and its companions, each
    refusal names a condition that is violated, and an accepted configuration meets the
    assertions of the constructors that are run on it. *)
From stdpp Require Import prelude list.
From Stdlib Require Import NArith ZArith Lia.
From S2P Require Import Prelude Ids Table Frames Clock Notifications FileSlots Miss Retention ReadVector ReadSpans Ledger.

Open Scope N_scope.

Module PoolConfig.

Definition GRANULE_DEFAULT : N := 4096.
Definition SECTOR_BYTES : N := Frames.SECTOR_BYTES.
Definition RING_LIMIT : N := N.shiftl 1 31.
Definition DEFAULT_REGISTERED_FILE_CAPACITY : N := 64.

Inductive PoolConfigError :=
  | PrefetchHeadroomTooLarge (requested available : N)
  | RetentionUnrepresentable (requested limit : N)
  | BelowWatermark (frame_count watermark : N)
  | MissHeadroomTooSmall (miss_headroom minimum : N)
  | GranuleNotPowerOfTwo (granule : N)
  | GranuleBelowSector (granule sector : N)
  | QueueCapacityOverflow (max_inflight_reads max_inflight_product_ops : N)
  | RegistrationRefused (arena_bytes memlock_limit_bytes : N)
  | RegistrationUnsupported
  | ArenaLockRefused (arena_bytes memlock_limit_bytes : N)
  | BackendGeometryMismatch (frame_count backend_frame_count granule backend_granule : N).

(** The fields that fix the capacities; the registration and locking policies only reach
    the driver. *)
Record PoolBuilder := mkBuilder {
  frame_count : N;
  granule : N;
  max_concurrent_readers : N;
  peak_guards_per_reader : N;
  max_inflight_reads : N;
  miss_headroom : N;
  max_retained_frames : N;
  write_slots : N;
  max_inflight_product_ops : N;
  registered_file_capacity : N;
  prefetch_headroom : option N;
  readahead : Ledger.Readahead;
}.

Definition PoolBuilder_default : PoolBuilder :=
  mkBuilder 0 GRANULE_DEFAULT 0 0 0 0 0 0 0 DEFAULT_REGISTERED_FILE_CAPACITY None Ledger.ReadaheadAutomatic.

Definition mul_ (m a b : N) : outcome N := expect (checked_mul m a b).

Definition validate_retention_capacity (b : PoolBuilder) : unit + PoolConfigError :=
  if RING_LIMIT <? max_retained_frames b then inr (RetentionUnrepresentable (max_retained_frames b) RING_LIMIT)
  else
    match checked_sub U32_MAX (max_concurrent_readers b) with
    | None => inr (RetentionUnrepresentable (max_concurrent_readers b) (U32_MAX - 1))
    | Some tally_limit =>
        if tally_limit <? max_retained_frames b then inr (RetentionUnrepresentable (max_retained_frames b) tally_limit)
        else
          match checked_add U32_MAX (max_concurrent_readers b) 1 with
          | None => inr (RetentionUnrepresentable (max_concurrent_readers b) (U32_MAX - 1))
          | Some _ => inl tt
          end
    end.

Definition prefetch_capacity (b : PoolBuilder) : outcome (N + PoolConfigError) :=
  guards ← mul_ U64_MAX (max_concurrent_readers b) (peak_guards_per_reader b);
  committed ← add_ U64_MAX guards (miss_headroom b);
  committed ← add_ U64_MAX committed (max_retained_frames b);
  let spare := saturating_sub (frame_count b) committed in
  assertb (spare <=? U32_MAX);;
  assertb (negb (granule b =? 0));;
  let credits := default (N.min (N.min spare (saturating_sub (max_inflight_reads b) 1)) (524288 / granule b)) (prefetch_headroom b) in
  if spare <? credits then Done (inr (PrefetchHeadroomTooLarge credits spare))
  else Done (inl credits).

Definition validate (b : PoolBuilder) : outcome (unit + PoolConfigError) :=
  match checked_add U32_MAX (max_inflight_reads b) (max_inflight_product_ops b) with
  | None => Done (inr (QueueCapacityOverflow (max_inflight_reads b) (max_inflight_product_ops b)))
  | Some _ =>
  if negb (is_power_of_two (granule b)) then Done (inr (GranuleNotPowerOfTwo (granule b)))
  else if granule b <? SECTOR_BYTES then Done (inr (GranuleBelowSector (granule b) SECTOR_BYTES))
  else
  match validate_retention_capacity b with
  | inr e => Done (inr e)
  | inl _ =>
  match checked_mul U32_MAX (max_inflight_reads b) 3 with
  | None => Done (inr (MissHeadroomTooSmall (miss_headroom b) U32_MAX))
  | Some minimum =>
  if miss_headroom b <? minimum then Done (inr (MissHeadroomTooSmall (miss_headroom b) minimum))
  else
  guards ← mul_ U64_MAX (max_concurrent_readers b) (peak_guards_per_reader b);
  watermark ← add_ U64_MAX guards (miss_headroom b);
  watermark ← add_ U64_MAX (N.max watermark 1) (max_retained_frames b);
  if frame_count b <? watermark then
    Done (inr (BelowWatermark (frame_count b) (if watermark <=? U32_MAX then watermark else U32_MAX)))
  else
    r ← prefetch_capacity b;
    Done (match r with inl _ => inl tt | inr e => inr e end)
  end end end.

(** [check_backend_geometry], against the geometry of the backend's arena. *)
Definition check_backend_geometry (b : PoolBuilder) (count gran : N) : unit + PoolConfigError :=
  if (count =? frame_count b) && (gran =? granule b) then inl tt
  else inr (BackendGeometryMismatch (frame_count b) count (granule b) gran).

(** The operation slots [build] asks of the driver. *)
Definition queue_capacity (b : PoolBuilder) : N :=
  N.max (saturating_add U32_MAX (max_inflight_reads b) (max_inflight_product_ops b)) 1.

(** ** What validation decides *)

Definition committed (b : PoolBuilder) : N :=
  max_concurrent_readers b * peak_guards_per_reader b + miss_headroom b + max_retained_frames b.

Definition watermark (b : PoolBuilder) : N :=
  N.max (max_concurrent_readers b * peak_guards_per_reader b + miss_headroom b) 1 + max_retained_frames b.

(** The fields are 32-bit. *)
Record widths (b : PoolBuilder) : Prop := {
  w_frames : frame_count b ≤ U32_MAX;
  w_granule : granule b ≤ U32_MAX;
  w_readers : max_concurrent_readers b ≤ U32_MAX;
  w_guards : peak_guards_per_reader b ≤ U32_MAX;
  w_reads : max_inflight_reads b ≤ U32_MAX;
  w_headroom : miss_headroom b ≤ U32_MAX;
  w_retained : max_retained_frames b ≤ U32_MAX;
  w_ops : max_inflight_product_ops b ≤ U32_MAX;
}.

(** The demand watermark, the granule, the retention counters, the operation queue and the
    speculative credits. *)
Record valid (b : PoolBuilder) : Prop := {
  v_queue : max_inflight_reads b + max_inflight_product_ops b ≤ U32_MAX;
  v_granule : ∃ k, granule b = 2 ^ k;
  v_sector : SECTOR_BYTES ≤ granule b;
  v_ring : max_retained_frames b ≤ 2 ^ 31;
  v_tally : max_retained_frames b + max_concurrent_readers b ≤ U32_MAX;
  v_readers : max_concurrent_readers b < U32_MAX;
  v_headroom : 3 * max_inflight_reads b ≤ miss_headroom b;
  v_watermark : watermark b ≤ frame_count b;
  v_credits : ∀ c, prefetch_headroom b = Some c → committed b + c ≤ frame_count b;
}.

Lemma mul_ok m a b : a * b ≤ m → mul_ m a b = Done (a * b).
Proof. intros H. unfold mul_, checked_mul. by rewrite (proj2 (N.leb_le _ _)). Qed.

(** Three 32-bit terms around one product stay within 64 bits, with nothing to spare. *)
Lemma committed_fits b : widths b →
  max_concurrent_readers b * peak_guards_per_reader b + miss_headroom b + max_retained_frames b ≤ U64_MAX.
Proof.
  intros [_ _ H1 H2 _ H3 H4 _].
  assert (max_concurrent_readers b * peak_guards_per_reader b ≤ U32_MAX * U32_MAX) by by apply N.mul_le_mono.
  unfold U32_MAX, U64_MAX in *. lia.
Qed.

Lemma prefetch_capacity_ok b :
  widths b → granule b ≠ 0 →
  prefetch_capacity b = Done (
    let spare := frame_count b - committed b in
    let credits := default (N.min (N.min spare (max_inflight_reads b - 1)) (524288 / granule b)) (prefetch_headroom b) in
    if spare <? credits then inr (PrefetchHeadroomTooLarge credits spare) else inl credits).
Proof.
  intros Hw Hg. pose proof (committed_fits b Hw) as Hc. unfold prefetch_capacity. rewrite mul_ok by lia. mred. rewrite add_ok by lia. mred. rewrite add_ok by lia. mred.
  rewrite (proj2 (N.leb_le _ _)) by (unfold saturating_sub; pose proof (w_frames b Hw); lia). mred.
  rewrite (proj2 (N.eqb_neq _ _)) by done. simpl negb. mred. unfold committed, saturating_sub. by destruct (_ <? _).
Qed.

(** What a refusal says: which bound was missed, and by which values. *)
Definition violates (b : PoolBuilder) (e : PoolConfigError) : Prop :=
  match e with
  | QueueCapacityOverflow reads ops => reads = max_inflight_reads b ∧ ops = max_inflight_product_ops b ∧ U32_MAX < reads + ops
  | GranuleNotPowerOfTwo g => g = granule b ∧ ¬ ∃ k, g = 2 ^ k
  | GranuleBelowSector g sector => g = granule b ∧ sector = SECTOR_BYTES ∧ g < sector
  | RetentionUnrepresentable requested limit =>
      limit < requested ∧
      (requested = max_retained_frames b ∧ (limit = 2 ^ 31 ∨ limit + max_concurrent_readers b = U32_MAX) ∨
       requested = max_concurrent_readers b ∧ limit = U32_MAX - 1)
  | MissHeadroomTooSmall headroom minimum =>
      headroom = miss_headroom b ∧ headroom < 3 * max_inflight_reads b ∧ minimum = N.min U32_MAX (3 * max_inflight_reads b)
  | BelowWatermark frames minimum =>
      frames = frame_count b ∧ frames < watermark b ∧ minimum = N.min U32_MAX (watermark b)
  | PrefetchHeadroomTooLarge requested available =>
      prefetch_headroom b = Some requested ∧ available = frame_count b - committed b ∧ available < requested
  | _ => False
  end.

Lemma violates_not_valid b e : violates b e → ¬ valid b.
Proof.
  intros Hv [V1 V2 V3 V4 V5 V6 V7 V8 V9]. destruct e; simpl in Hv; try done.
  - destruct Hv as (Hc & -> & Hlt). specialize (V9 _ Hc). lia.
  - destruct Hv as (? & [[-> [->|?]]|[-> ->]]); lia.
  - lia.
  - lia.
  - by destruct Hv as [-> ?].
  - lia.
  - lia.
Qed.

Lemma retention_cases b : widths b →
  (validate_retention_capacity b = inl tt ∧ max_retained_frames b ≤ 2 ^ 31 ∧
    max_retained_frames b + max_concurrent_readers b ≤ U32_MAX ∧ max_concurrent_readers b < U32_MAX) ∨
  ∃ e, validate_retention_capacity b = inr e ∧ violates b e.
Proof.
  intros Hw. unfold validate_retention_capacity. change RING_LIMIT with (2 ^ 31).
  destruct (N.ltb_spec (2 ^ 31) (max_retained_frames b)); [right; eexists; split; [done|]; simpl; auto|].
  unfold checked_sub. rewrite (proj2 (N.leb_le _ _)) by apply Hw.
  destruct (N.ltb_spec (U32_MAX - max_concurrent_readers b) (max_retained_frames b)).
  { right. eexists. split; [done|]. split; [done|]. left. split; [done|]. right. pose proof (w_readers b Hw). lia. }
  unfold checked_add. destruct (N.leb_spec (max_concurrent_readers b + 1) U32_MAX); [left; split_and!; [done..|lia|lia]|].
  right. eexists. split; [done|]. pose proof (w_readers b Hw). split; [unfold U32_MAX in *; lia|]. by right.
Qed.

Lemma validate_cases b : widths b →
  (validate b = Done (inl tt) ∧ valid b) ∨ ∃ e, validate b = Done (inr e) ∧ violates b e.
Proof.
  intros Hw. pose proof (committed_fits b Hw) as Hfit. unfold validate, checked_add.
  destruct (N.leb_spec (max_inflight_reads b + max_inflight_product_ops b) U32_MAX); [|right; eexists; split; [done|]; simpl; auto].
  destruct (is_power_of_two (granule b)) eqn:Hp; simpl negb.
  2: { right. eexists. split; [done|]. split; [done|]. intros Hk%is_power_of_two_spec. congruence. }
  apply is_power_of_two_spec in Hp. destruct (N.ltb_spec (granule b) SECTOR_BYTES) as [|Hsec]; [right; eexists; split; [done|]; simpl; auto|].
  destruct (retention_cases b Hw) as [(-> & ? & ? & ?)|(e & -> & ?)]; [|right; eauto]. unfold checked_mul.
  destruct (N.leb_spec (max_inflight_reads b * 3) U32_MAX).
  2: { right. eexists. split; [done|]. pose proof (w_headroom b Hw). simpl. split_and!; [done|lia|lia]. }
  destruct (N.ltb_spec (miss_headroom b) (max_inflight_reads b * 3)); [right; eexists; split; [done|]; simpl; split_and!; [done|lia|lia]|].
  rewrite mul_ok by lia. mred. rewrite add_ok by lia. mred. rewrite add_ok.
  2: { destruct (N.max_spec (max_concurrent_readers b * peak_guards_per_reader b + miss_headroom b) 1) as [[? ->]|[? ->]]; [|lia].
       pose proof (w_retained b Hw). unfold U32_MAX, U64_MAX in *. lia. }
  mred. fold (watermark b). destruct (N.ltb_spec (frame_count b) (watermark b)) as [|Hwm].
  { right. eexists. split; [done|]. simpl. split_and!; [done..|]. destruct (N.leb_spec (watermark b) U32_MAX); lia. }
  rewrite prefetch_capacity_ok by (try done; unfold SECTOR_BYTES, Frames.SECTOR_BYTES in *; lia). mred. simpl.
  destruct (prefetch_headroom b) as [c|] eqn:Hc; simpl.
  - destruct (N.ltb_spec (frame_count b - committed b) c); [right; eexists; split; [done|]; simpl; auto|]. left. split; [done|].
    constructor; try done; [lia|]. intros c' Hc'. assert (c' = c) as -> by congruence. unfold committed, watermark in *. lia.
  - rewrite (proj2 (N.ltb_ge _ _)) by lia. left. split; [done|]. constructor; try done; [lia|]. congruence.
Qed.

(** C24 (Validation decides the configuration).  For every configuration of 32-bit fields
    validation returns without overflow.  It accepts exactly the configurations whose
    frames cover the watermark (guards of all readers, miss headroom, at least one frame,
    and the retained frames), whose headroom is three times the reads in flight, whose
    granule is a power of two of at least a sector, whose retention counters and queue fit
    their width, and whose speculative credits fit the spare frames; a refusal carries the
    configured values and the limit that they miss. *)
Theorem validate_decides b : widths b →
  ∃ r, validate b = Done r ∧ (r = inl tt ↔ valid b) ∧ ∀ e, r = inr e → violates b e.
Proof.
  intros Hw. destruct (validate_cases b Hw) as [[-> Hv]|(e & -> & Hv)]; eexists; (split; [done|]); [done|].
  pose proof (violates_not_valid b e Hv). split; [done|]. by intros e' [= <-].
Qed.

Lemma valid_reads b : valid b → max_inflight_reads b ≤ frame_count b ∧ 0 < frame_count b.
Proof. intros Hv. pose proof (v_headroom b Hv). pose proof (v_watermark b Hv). unfold watermark in *. lia. Qed.

Lemma clock_new_ok n : 0 < n → n ≤ U32_MAX → ∃ c, Clock.try_with_frame_count n = Done c.
Proof.
  intros H1 H2. unfold Clock.try_with_frame_count. rewrite assertb_true by by apply N.ltb_lt. mred.
  destruct (DirtyFrames.try_new_empty n H1 H2) as (d & -> & _). mred. eauto.
Qed.

(** The speculative credits leave the committed frames alone. *)
Lemma credits_ok b : widths b → valid b → ∃ credits, prefetch_capacity b = Done (inl credits) ∧ committed b + credits ≤ frame_count b.
Proof.
  intros Hw Hv. pose proof (v_sector b Hv) as Hsec. pose proof (v_watermark b Hv) as Hwm.
  assert (granule b ≠ 0) as Hg by (unfold SECTOR_BYTES, Frames.SECTOR_BYTES in *; lia).
  rewrite prefetch_capacity_ok by done. simpl.
  set (credits := default _ (prefetch_headroom b)). assert (committed b + credits ≤ frame_count b) as Hcr.
  { unfold credits. destruct (prefetch_headroom b) as [c|] eqn:Hc; simpl; [by apply (v_credits b Hv)|]. unfold committed, watermark in *. lia. }
  rewrite (proj2 (N.ltb_ge _ _)) by lia. by exists credits.
Qed.

(** (An accepted configuration constructs).  Validation implies every assertion of the
    constructors [build] runs: the speculative credits exist and leave the committed
    frames alone, and the page table (up to [2^30] frames), clock, miss table, frame
    registry, read spans, prefetch ledger, release ring and arena geometry are built
    without a panic, for every backend with an operation slot. *)
Theorem accepted_configuration_constructs b operations :
  widths b → validate b = Done (inl tt) → frame_count b ≤ 2 ^ 30 → 0 < operations →
  ∃ credits, prefetch_capacity b = Done (inl credits) ∧ committed b + credits ≤ frame_count b ∧
    (∃ t, PageTable.try_with_frame_count (frame_count b) = Done t ∧ 2 * frame_count b ≤ PageTable.capacity t) ∧
    (∃ c, Clock.try_with_frame_count (frame_count b) = Done c) ∧
    (∃ m, Miss.try_with_capacity (frame_count b) (max_inflight_reads b) (registered_file_capacity b) = Done m) ∧
    (∃ r, ReadSpans.try_new (max_inflight_reads b) operations = Done r) ∧
    (∃ l, Ledger.try_with_geometry credits (max_concurrent_readers b) (max_inflight_reads b) (readahead b) (frame_count b) (granule b) = Done l) ∧
    (0 < max_retained_frames b → ∃ r, Retention.ring_preallocated (max_retained_frames b) = Done r) ∧
    (∀ usize_max id, 0 < id → ∃ f, Frames.try_preallocated usize_max id (frame_count b) (granule b) = Done f).
Proof.
  intros Hw Hval Hmax Hops. destruct (validate_cases b Hw) as [[_ Hv]|(e & ? & _)]; [|congruence].
  destruct (valid_reads b Hv) as [Hreads Hpos]. pose proof (v_sector b Hv) as Hsec. pose proof (v_watermark b Hv) as Hwm.
  assert (granule b ≠ 0) as Hg by (unfold SECTOR_BYTES, Frames.SECTOR_BYTES in *; lia).
  destruct (credits_ok b Hw Hv) as (credits & -> & Hcr). exists credits. split; [done|]. split; [done|]. split_and!.
  - destruct (PageTable.new_table_ok (frame_count b)) as (t & -> & _ & _ & ? & _); [done..|]. eauto.
  - apply clock_new_ok; [done|apply Hw].
  - unfold Miss.try_with_capacity. rewrite (proj2 (N.leb_le _ _)) by done. mred.
    destruct (FileSlots.try_new_ok (frame_count b) (registered_file_capacity b)) as (fs & Hfs & _); [done|apply Hw|]. rewrite Hfs. mred. eauto.
  - unfold ReadSpans.try_new. rewrite (proj2 (N.ltb_lt _ _)) by done. mred. destruct (ReadSpans.initial_slots _ _ _). eauto.
  - unfold Ledger.try_with_geometry. rewrite (proj2 (N.eqb_neq (granule b) 0)) by done. simpl negb. mred. eauto.
  - intros Hr. unfold Retention.ring_preallocated. rewrite (proj2 (N.ltb_lt _ _)) by done.
    rewrite (proj2 (N.leb_le _ _)) by apply (v_ring b Hv). mred. eauto.
  - intros usize_max id Hid. unfold Frames.try_preallocated. rewrite (proj2 (N.ltb_lt 0 (frame_count b))), (proj2 (N.ltb_lt 0 id)) by done.
    rewrite (proj2 (is_power_of_two_spec _)) by apply (v_granule b Hv). rewrite (proj2 (N.leb_le _ _)) by done. mred.
    destruct (checked_mul _ _ _); [|eauto]. eauto.
Qed.

(** A configuration with more than [2^30] frames passes validation, and the page table
    refuses it with a panic instead of a configuration error. *)
Example page_table_limit_not_validated :
  let b := mkBuilder (2 ^ 30 + 1) 4096 1 1 0 0 0 1 1 64 None Ledger.ReadaheadAutomatic in
  validate b = Done (inl tt) ∧ PageTable.try_with_frame_count (frame_count b) = Panic.
Proof. split; vm_compute; reflexivity. Qed.

(** A configuration at the watermark [build] documents is refused when it retains frames. *)
Example retained_frames_raise_the_watermark :
  let b := mkBuilder 12 4096 3 1 3 9 1 1 1 64 None Ledger.ReadaheadAutomatic in
  max_concurrent_readers b * peak_guards_per_reader b + miss_headroom b = frame_count b ∧
  validate b = Done (inr (BelowWatermark 12 13)).
Proof. split; vm_compute; reflexivity. Qed.
End PoolConfig.

Module PoolConfigWitness.
Import PoolConfig.

(** Four readers with two guards each, two reads in flight, one retained frame. *)
Definition small : PoolBuilder := mkBuilder 16 4096 4 2 2 6 1 1 2 8 (Some 1) Ledger.ReadaheadAutomatic.

Lemma small_widths : widths small.
Proof. by constructor. Qed.

Lemma validate_decides_witness :
  ∃ r, validate small = Done r ∧ (r = inl tt ↔ valid small) ∧ ∀ e, r = inr e → violates small e.
Proof. apply (validate_decides small small_widths). Defined.

Lemma accepted_configuration_constructs_witness :
  validate small = Done (inl tt) ∧ ∃ credits, prefetch_capacity small = Done (inl credits) ∧ committed small + credits ≤ 16.
Proof.
  split; [reflexivity|]. destruct (accepted_configuration_constructs small 4) as (credits & H1 & H2 & _);
    [apply small_widths|reflexivity|vm_compute; discriminate|done|]. by exists credits.
Defined.
End PoolConfigWitness.
