(* ===== verification/PoolBuild.v ===== *)
(** * Building a pool

    [try_preallocated] (src/src/pool/mod.rs) composes the constructors of every part of the
    pool over a validated configuration, a driver and an arena.  The lemma shows the
    invariant of the pool for the result, with counters for a number of calls that depends
    on the speculative credits alone. *)
From stdpp Require Import prelude gmap list.
From Stdlib Require Import NArith ZArith Lia.
From S2P Require Import Prelude Ids Table Frames FrameCensus Clock Epoch FileSlots Miss MissMap Execute ReadVector ReadSpans Driver PoolBackend Product ProductSafety Ledger LedgerSafety LedgerCalm PoolCache PoolInv PoolControl PoolConfig PoolReads PoolRoute PoolReclaim.

Open Scope N_scope.

Module PoolBuild.
Import Frames FrameCensus MissMap Execute Driver PoolBackend.PoolBackend LedgerCalm.LedgerCalm PoolCache PoolInv PoolControl PoolConfig.PoolConfig PoolReads PoolRoute PoolReclaim.

(** [None] is a configuration error; the allocations succeed.  [operations] is the driver's
    [operation_capacity].  The retention, which the source allocates here from the
    configuration, is the argument [r]: the pool is verified for every retention that
    satisfies [RetainerLaws], and a fresh one is required where a pool starts. *)
Definition try_preallocated {B R : Type} (config : PoolBuilder) (driver : B) (operations : N) (h : Frames) (r : R) : outcome (option (Pool B R)) :=
  assertb (Frames.count h =? frame_count config);;
  assertb (Frames.granule h =? granule config);;
  let readers := Epoch.registry (max_concurrent_readers config) (peak_guards_per_reader config) in
  assertb (0 <? operations);;
  m ← Miss.try_with_capacity (frame_count config) (max_inflight_reads config) (registered_file_capacity config);
  spans ← ReadSpans.try_new (max_inflight_reads config) operations;
  pages ← FileSlots.try_new (frame_count config) (registered_file_capacity config);
  credits ← prefetch_capacity config;
  match credits with
  | inr _ => Done None
  | inl credits =>
      l ← Ledger.try_with_geometry credits (max_concurrent_readers config) (max_inflight_reads config) (readahead config)
            (frame_count config) (granule config);
      t ← PageTable.try_with_frame_count (frame_count config);
      k ← Clock.try_with_frame_count (frame_count config);
      let files := N.to_nat (registered_file_capacity config) in
      Done (Some (mkPool
        (mkCache h t k 0 (Epoch.mkEvictQueue [] (frame_count config)) m (Miss.interests_with_capacity (frame_count config))
          (try_with_all (frame_count config)) pages 0 l)
        (Product.mkProduct (replicate files None) (replicate files 0) (replicate files (Product.mkLeaseState 0 0))
          (replicate (N.to_nat (max_inflight_product_ops config)) (Product.mkOpSlot 0 None)) 0 driver)
        [] spans readers r 0))
  end.

(** ** A new pool *)

Lemma new_arena n u a F g h :
  Frames.try_preallocated u a F g = Done (Some h) → F ≤ U32_MAX → n ≤ 2 ^ 60 →
  arena_ok n F g a h ∧ ∀ i s, in_state h i s ↔ s = Free ∧ i < F.
Proof.
  unfold Frames.try_preallocated. intros H Hmax Hn. inv_done. destruct (checked_mul _ _ _); [|done]. inv_done. split.
  - constructor; simpl; try done.
    + constructor; simpl; unfold vlen; rewrite ?length_replicate; lia.
    + intros i w [-> _]%lookup_replicate. change FRAME_GENERATION_MAX with (2 ^ 62 - 1). change (word_generation 0) with 0. lia.
  - intros i s. unfold in_state, word_at. simpl. split.
    + intros (w & [-> Hi]%lookup_replicate & <-). split; [done|lia].
    + intros [-> Hi]. exists 0. split; [|done]. apply lookup_replicate. split; [done|lia].
Qed.

Lemma new_stack_elem n i : i ∈ stack (try_with_all n) ↔ i < n.
Proof.
  rewrite (proj2 (try_with_all_stack n)), list_elem_of_fmap. setoid_rewrite elem_of_seq. split.
  - intros (k & -> & Hk). lia.
  - intros Hi. exists (N.to_nat i). lia.
Qed.

Lemma new_stack_nodup n : NoDup (stack (try_with_all n)).
Proof. rewrite (proj2 (try_with_all_stack n)). apply NoDup_fmap_2; [intros ? ?; lia|apply NoDup_seq]. Qed.

Lemma new_ledger n cap readers reads mode F g l k :
  Ledger.try_with_geometry cap readers reads mode F g = Done l → Clock.try_with_frame_count F = Done k →
  cap ≤ U32_MAX → readers ≤ U32_MAX → 0 < F → F ≤ U32_MAX → n * (cap + 2) ≤ 2 ^ 60 →
  lgood n F l k ∧ Ledger.reserve l = try_empty cap ∧ Ledger.capacity l = cap ∧ run_widths g l ∧ (∀ f, ¬ speculates l f) ∧ ∀ P, streams P l.
Proof.
  intros Hl Hk Hcap Hr Hpos Hmax Hn.
  assert (LedgerSafety.LedgerSafety.sound (LedgerSafety.LedgerSafety.mkState l k)) as Hs
    by (apply LedgerSafety.LedgerSafety.initial_sound; exists cap, readers, reads, mode, F, g; done).
  unfold Ledger.try_with_geometry in Hl. inv_done. split; [|split_and!; try done; simpl].
  - constructor; simpl; try done; [| |unfold U64_MAX; nia|unfold U64_MAX; split; nia|unfold vlen; rewrite length_replicate; lia|].
    + intros p [-> _]%elem_of_replicate. unfold U64_MAX. simpl. lia.
    + unfold U64_MAX. nia.
    + unfold Clock.try_with_frame_count in Hk. inv_done. constructor; simpl; unfold vlen; rewrite ?length_replicate; unfold U32_MAX in *; lia.
  - reflect_bools. unfold run_widths. simpl. unfold ReadVector.VECTOR_BYTES_MAX. set (w := 128 * 1024 / g).
    assert (w * g ≤ 128 * 1024) as Hw by (subst w; rewrite N.mul_comm; by apply N.Div0.mul_div_le).
    split_and!; [lia|lia| |destruct (_ <=? _); auto]. destruct (N.leb_spec w 1); [left; lia|right; nia].
  - intros f [i [? _]%lookup_replicate]. done.
  - intros P r p f [-> _]%lookup_replicate Hf. done.
Qed.

Lemma new_readers epoch n peak : n ≤ U32_MAX → readers_ok epoch (Epoch.registry n peak) [].
Proof.
  intros Hn. assert (∀ r s, Epoch.registry n peak !! N.to_nat r = Some s → Epoch.guard_count s = 0 ∧ Epoch.local_epoch s = Epoch.QUIESCENT ∧ Epoch.index s ≤ U32_MAX) as Hs.
  { intros r s (k & -> & [-> Hk]%lookup_seq)%list_lookup_fmap_Some. simpl. split_and!; [done..|]. lia. }
  constructor.
  - intros r s Hr. by rewrite (proj1 (Hs r s Hr)).
  - intros r s Hr _. apply (Hs r s Hr).
  - intros r s Hr. rewrite (proj1 (Hs r s Hr)). lia.
  - intros x Hx. by apply elem_of_nil in Hx.
  - intros r s Hr. apply (Hs r s Hr).
Qed.

Lemma new_cache {P} n u a config credits h m pages l t k :
  widths config → valid config → frame_count config ≤ 2 ^ 30 → registered_file_capacity config ≤ U32_MAX →
  Frames.try_preallocated u a (frame_count config) (granule config) = Done (Some h) →
  Miss.try_with_capacity (frame_count config) (max_inflight_reads config) (registered_file_capacity config) = Done m →
  FileSlots.try_new (frame_count config) (registered_file_capacity config) = Done pages →
  Ledger.try_with_geometry credits (max_concurrent_readers config) (max_inflight_reads config) (readahead config) (frame_count config) (granule config) = Done l →
  PageTable.try_with_frame_count (frame_count config) = Done t → Clock.try_with_frame_count (frame_count config) = Done k →
  credits ≤ frame_count config → n * (frame_count config + 2) ≤ 2 ^ 60 →
  cinv (F := frame_count config) (g := granule config) (a := a) (fcap := registered_file_capacity config) (reads := max_inflight_reads config) (P := P) (W := [])
    n ∅ ∅ [] [] [] [] [] (mkCache h t k 0 (Epoch.mkEvictQueue [] (frame_count config)) m (Miss.interests_with_capacity (frame_count config))
      (try_with_all (frame_count config)) pages 0 l).
Proof.
  intros Hw Hv Hmax Hfc Hh Hm Hpg Hl Ht Hk Hcr Hn. destruct (valid_reads config Hv) as [Hreads Hpos].
  assert (n * (credits + 2) ≤ 2 ^ 60 ∧ n ≤ 2 ^ 60) as [Hn1 Hn2] by nia. pose proof (w_frames config Hw) as HF.
  destruct (new_arena n u a _ _ h Hh HF Hn2) as [Harena Hst].
  destruct (new_ledger n credits _ _ _ _ _ l k Hl Hk) as (Hled & Hres & Hcap & Hwd & Hsp & Hstr); [lia|apply Hw|done..|].
  destruct (PageTable.new_table_ok (frame_count config) Hpos Hmax) as (t' & Ht' & T1 & T2 & T3 & _). rewrite Ht in Ht'. injection Ht' as <-.
  destruct (FileSlots.try_new_ok (T := FramePages.FrameFileSlot) (frame_count config) (registered_file_capacity config) Hpos HF) as (fs & Hfs & R1 & R2 & R3).
  rewrite Hpg in Hfs. injection Hfs as <-.
  assert (MissSystem.initial (MissSystem.mkSystem m (Miss.interests_with_capacity (frame_count config)) [])) as Hinit by (by eexists _, _, _, _).
  constructor; simpl; rewrite ?Hres, ?Hcap; try done; try (by intros ? ? ?%elem_of_nil); try (by intros ? ? ?%lookup_empty_Some); try (by intros f ?%Hsp).
  - assert (stack (try_empty credits) = []) as -> by done. intros s. split.
    + destruct s; simpl; [rewrite app_nil_r; apply new_stack_nodup|constructor..].
    + intros i. rewrite Hst. destruct s; simpl; rewrite ?app_nil_r, ?new_stack_elem, ?elem_of_nil; naive_solver.
  - split; [apply try_with_all_stack|]. unfold vlen. rewrite length_rev, length_fmap, length_seq. lia.
  - split; [|unfold vlen; simpl; rewrite length_replicate; lia]. unfold stack_wf. simpl. lia.
  - split_and!; try done. lia.
  - split; [done|]. by intros ? ? ?%elem_of_nil.
  - unfold U64_MAX. lia.
  - split_and!; try done. unfold vlen. lia.
  - split.
    + exists []. split; [by apply MissSystem.miss_initial_rep|]. intros i x. rewrite lookup_empty. split; [done|]. by intros (? & ?%elem_of_nil & _).
    + unfold Miss.try_with_capacity in Hm. inv_done. destruct (FileSlots.try_new_ok (T := Miss.MissEntry) _ (registered_file_capacity config) Hpos HF) as (fs & Hfs & _ & M2 & M3).
      rewrite Hfs in *. simplify_eq. constructor; simpl; unfold vlen; rewrite ?length_replicate; lia.
  - intros j x [-> _]%lookup_replicate. simpl. unfold U64_MAX. lia.
  - intros j pg e Hx. by apply elem_of_nil in Hx.
Qed.

Section build.
Context {B R : Type} `{!PoolBackend B} `{!Retainer R} {identity operations : N} {config : PoolBuilder}.
Context `{!BackendLaws B identity (granule config) (frame_count config) operations (registered_file_capacity config)}.
Context `{!RetainerLaws R (frame_count config) (registered_file_capacity config)}.

(** A validated configuration builds, and the pool starts in its invariant, with counters
    for [n] units of work. *)
Lemma new_pool n u a (b : B) (r : R) h :
  widths config → registered_file_capacity config ≤ U32_MAX → validate config = Done (inl tt) → frame_count config ≤ 2 ^ 30 → 0 < operations →
  Frames.try_preallocated u a (frame_count config) (granule config) = Done (Some h) →
  sound b → live b = ∅ → flights b = ∅ → retains r → held r = [] → n * (frame_count config + 2) ≤ 2 ^ 60 →
  ∃ p, try_preallocated config b operations h r = Done (Some p) ∧
    pool_inv (identity := identity) (g := granule config) (F := frame_count config) (capacity := operations) (fcap := registered_file_capacity config)
      (a := a) (reads := max_inflight_reads config) (slots := max_inflight_reads config) n ∅ ∅ ∅ [] [] ReadSpans.no_routes [] [] p.
Proof.
  intros Hw Hfc Hval Hmax Hops Hh Hsb Hlive Hfl Hret Hheld Hn. destruct (validate_cases config Hw) as [[_ Hv]|(e & ? & _)]; [|congruence].
  destruct (valid_reads config Hv) as [Hreads Hpos]. pose proof (w_frames config Hw) as HF. pose proof (v_sector config Hv) as Hsec.
  assert (granule config ≠ 0) as Hg0 by (unfold SECTOR_BYTES, Frames.SECTOR_BYTES in *; lia).
  destruct (new_arena n u a _ _ h Hh HF ltac:(nia)) as [[Hshape Hcount Hgran Hid Hgen] _].
  unfold try_preallocated. rewrite Hcount, Hgran, !N.eqb_refl. mred. rewrite (proj2 (N.ltb_lt 0 operations)) by done. mred.
  unfold Miss.try_with_capacity at 1. rewrite (proj2 (N.leb_le _ _)) by done. mred.
  destruct (FileSlots.try_new_ok (T := Miss.MissEntry) _ (registered_file_capacity config) Hpos HF) as (ms & Hms & _). rewrite Hms. mred.
  destruct (ReadSpans.try_new (max_inflight_reads config) operations) as [spans|] eqn:Hsp.
  2: { unfold ReadSpans.try_new in Hsp. rewrite (proj2 (N.ltb_lt _ _)) in Hsp by done. mred in Hsp. by destruct (ReadSpans.initial_slots _ _ _). }
  mred. destruct (FileSlots.try_new_ok (T := FramePages.FrameFileSlot) _ (registered_file_capacity config) Hpos HF) as (pages & Hpg & _). rewrite Hpg. mred.
  destruct (credits_ok config Hw Hv) as (credits & -> & Hcr). mred.
  destruct (Ledger.try_with_geometry credits (max_concurrent_readers config) (max_inflight_reads config) (readahead config) (frame_count config) (granule config)) as [l|] eqn:Hl.
  2: { unfold Ledger.try_with_geometry in Hl. rewrite (proj2 (N.eqb_neq (granule config) 0)) in Hl by done. done. }
  mred. destruct (PageTable.new_table_ok (frame_count config) Hpos Hmax) as (t & Ht & _). rewrite Ht. mred.
  destruct (clock_new_ok (frame_count config) Hpos HF) as (k & Hk). rewrite Hk. mred. eexists. split; [done|].
  assert (Miss.try_with_capacity (frame_count config) (max_inflight_reads config) (registered_file_capacity config) = Done (Miss.mkMissTable ms
    (replicate (N.to_nat (frame_count config)) None) (replicate (N.to_nat (max_inflight_reads config)) None) 0)) as Hm.
  { unfold Miss.try_with_capacity. rewrite (proj2 (N.leb_le _ _)) by done. mred. by rewrite Hms. }
  constructor; simpl; try done; [|apply new_readers, Hw].
  rewrite Hheld. constructor; simpl; try done; try (by intros x ?%elem_of_nil); [| | |by apply ReadSpans.try_new_represents|constructor].
  - eapply new_cache; try done. lia.
  - apply ProductSafety.initial_pinv; try done. apply Hw.
  - constructor; simpl; try (by intros ? ? ?%lookup_empty_Some); try (by intros ? ? ? ?%lookup_empty_Some); try (by intros ? ? ? ? ?%lookup_empty_Some); try (by intros c ?%elem_of_nil).
    intros t' fl Hx. unfold PoolControl.driver in Hx. simpl in Hx. rewrite Hfl in Hx. by apply lookup_empty_Some in Hx.
Qed.
End build.
End PoolBuild.
