(* ===== verification/PoolSystem.v ===== *)
(** * The pool under every sequence of calls

    [run] lets the critical sections of the pool follow each other in any order: readers
    come and go, pages are asked for and read, tokens are consumed or dropped, guards
    released, files opened, leased and retired, writes and syncs submitted, pages hinted,
    and polls, or the parts of the polling pass, run whenever they like, over any driver that meets [BackendLaws]
    and any retention that meets [RetainerLaws].  Beside the program state the system
    records the guards, tokens and leases its callers hold.  A call costs the units of work
    its counters may advance by; a pool built from a validated configuration has 64-bit
    counters for [budget] units. *)
From stdpp Require Import prelude gmap list.
From Stdlib Require Import NArith ZArith Lia.
From S2P Require Import Prelude Ids Table Frames FrameCensus Epoch FileSlots Miss MissMap Execute ReadSpans Driver PoolBackend Product ProductSafety Ledger PoolCache PoolInv PoolControl PoolConfig PoolReads PoolRoute PoolReclaim PoolDemand PoolRetire PoolPrefetch PoolHints PoolPoll PoolBuild.

Open Scope N_scope.

Module PoolSystem.
Import Frames FrameCensus MissMap Execute Driver PoolBackend.PoolBackend PoolCache PoolInv PoolControl PoolReads PoolRoute PoolReclaim PoolDemand PoolRetire PoolPrefetch PoolHints PoolPoll.
Abbreviation config := PoolConfig.PoolBuilder.
Abbreviation frame_count := PoolConfig.PoolConfig.frame_count.
Abbreviation take_one := ProductSafety.ProductSafety.take_one.

#[global] Instance PendingToken_eq_dec : EqDecision PendingToken.
Proof. solve_decision. Defined.

Record sys (B R : Type) := mkSys {
  pool : Pool B R;
  guards : list guard;
  tokens : list PendingToken;
  leased : list FileId;
}.
Arguments mkSys {B R}.
Arguments pool {B R}.
Arguments guards {B R}.
Arguments tokens {B R}.
Arguments leased {B R}.

Inductive call :=
  | RegisterReader
  | DropReader (reader : N)
  | OpenFile
  | RetireFile (file : FileId)
  | GetWarm (reader : N) (page : PageId)
  | GetLocked (reader : N) (page : PageId)
  | ReadyToken (reader : N) (token : PendingToken)
  | DropToken (token : PendingToken)
  | DropGuard (reader : N) (frame : ReadFrameIdx) (page : PageId)
  | Drain
  | Reclaim
  | Deliver (room : N)
  | Progress
  | SubmitWrite (file : FileId) (slot : Product.PoolWriteSlot) (offset : N)
  | SubmitFsync (file : FileId) (mode : SyncMode)
  | LeaseFile (file : FileId)
  | DropLease (file : FileId)
  | Poll
  | PollReport (room : N)
  | Prefetch (pages : list PageId)
  | ReadStats.

Section system.
Context {B R : Type} `{!PoolBackend B} `{!Retainer R} {identity g F capacity fcap reads : N}.
Implicit Types (s : sys B R) (p : Pool B R).

Definition with_pool s p : sys B R := mkSys p (guards s) (tokens s) (leased s).
Definition with_guards s l : sys B R := mkSys (pool s) l (tokens s) (leased s).
Definition with_tokens s l : sys B R := mkSys (pool s) (guards s) l (leased s).
Definition with_leased s l : sys B R := mkSys (pool s) (guards s) (tokens s) l.

(** What the caller of [get] holds afterwards. *)
Definition with_get s (reader : N) (page : PageId) (r : Get + GetError) : sys B R :=
  match r with
  | inl (Hit frame) => with_guards s ((reader, frame, page) :: guards s)
  | inl (GetPending tk) => with_tokens s (tk :: tokens s)
  | _ => s
  end.

Definition exec (k : call) s : outcome (sys B R) :=
  let p := pool s in
  match k with
  | RegisterReader => '(p, _) ← register_reader p; Done (with_pool s p)
  | DropReader r => p ← drop_reader p r; Done (with_pool s p)
  | OpenFile => '(p, _) ← open identity p; Done (with_pool s p)
  | RetireFile file => '(p, _) ← retire_file identity p file; Done (with_pool s p)
  | GetWarm r page =>
      '(p, o) ← get_warm identity p r page;
      Done (match o with Some x => with_get (with_pool s p) r page x | None => with_pool s p end)
  | GetLocked r page => '(p, x) ← get_locked identity g F reads p r page; Done (with_get (with_pool s p) r page x)
  | ReadyToken r tk =>
      '(p, x) ← ready p r tk;
      let s := with_pool s p in
      Done (match x with
            | Ready frame => with_guards (with_tokens s (take_one tk (tokens s))) ((r, frame, MissSystem.tk_page tk) :: guards s)
            | ReadyErr _ => with_tokens s (take_one tk (tokens s))
            | NotYet _ => s
            end)
  | DropToken tk => '(p, _) ← consume_token p tk; Done (with_tokens (with_pool s p) (take_one tk (tokens s)))
  | DropGuard r frame page => p ← drop_guard p r; Done (with_guards (with_pool s p) (take_one (r, frame, page) (guards s)))
  | Drain => p ← drain_completions g p; Done (with_pool s p)
  | Reclaim => '(p, _) ← advance_and_reclaim p; Done (with_pool s p)
  | Deliver room => '(q, _) ← Product.deliver_product_completions (product p) (Product.mkBatch [] room); Done (with_pool s (set_product p q))
  | Progress => p ← progress_retirements p; Done (with_pool s p)
  | SubmitWrite file slot offset => '(q, _) ← Product.submit_write identity (product p) file slot offset; Done (with_pool s (set_product p q))
  | SubmitFsync file mode => '(q, _) ← Product.submit_fsync identity (product p) file mode; Done (with_pool s (set_product p q))
  | LeaseFile file =>
      r ← Product.lease_begin identity (product p) file;
      match r with
      | inl n => q ← Product.lease_finish (product p) file n; Done (with_leased (with_pool s (set_product p q)) (file :: leased s))
      | inr _ => Done s
      end
  | DropLease file => q ← Product.lease_drop (product p) file; Done (with_leased (with_pool s (set_product p q)) (take_one file (leased s)))
  | Poll => '(p, _) ← poll identity g F reads p; Done (with_pool s p)
  | PollReport room => '(p, _, _) ← poll_report identity g F reads p room; Done (with_pool s p)
  | Prefetch pages => '(p, _) ← prefetch_hint identity g reads p pages; Done (with_pool s p)
  | ReadStats => '(p, _) ← prefetch_stats p; Done (with_pool s p)
  end.

#[local] Abbreviation own_file := (Product.own_file (identity := identity) (file_capacity := fcap)).

(** When a call may run: the caller holds what it uses up, a reader has room for one more
    guard, the file is one of this pool's, page numbers are 32 bits wide; a submission has
    sequence numbers left and suits the file's mode. *)
Definition enabled (k : call) s : Prop :=
  match k with
  | DropReader r => (∃ x, readers (pool s) !! N.to_nat r = Some x ∧ Epoch.occupied x = true) ∧ guards_of r (guards s) = []
  | RetireFile file | LeaseFile file => own_file file
  | GetWarm r page => may_pin (pool s) r ∧ own_file (pg_file page) ∧ pg_granule_idx page ≤ U32_MAX
  | GetLocked r page => may_pin (pool s) r ∧ own_file (pg_file page) ∧ pg_granule_idx page ≤ U32_MAX ∧ vlen (tokens s) < U32_MAX
  | ReadyToken r tk => may_pin (pool s) r ∧ tk ∈ tokens s
  | DropToken tk => tk ∈ tokens s
  | DropGuard r frame page => (r, frame, page) ∈ guards s
  | SubmitWrite file slot offset => own_file file ∧ Product.roomy (product (pool s)) ∧ ws_len (Product.pw_slot slot) ≤ U32_MAX ∧
      ∀ h, Product.live_handle (product (pool s)) file = Some h → mode_accepts (fh_mode h) offset
  | SubmitFsync file _ => own_file file ∧ Product.roomy (product (pool s))
  | DropLease file => file ∈ leased s
  | Prefetch pages => (∀ q, q ∈ pages → own_page (identity := identity) (fcap := fcap) q) ∧ vlen pages ≤ U64_MAX
  | _ => True
  end.

Definition cost (k : call) : N :=
  match k with
  | RegisterReader | Reclaim | ReadStats => 1
  | RetireFile _ | Progress => fcap * F
  | GetLocked _ _ => 32 * capacity + 8
  | Drain => 32 * capacity
  | Poll | PollReport _ => 32 * capacity + fcap * F + 99 * F + 6
  | Prefetch pages => F + 4 * vlen pages + 2
  | _ => 0
  end.

(** Sequences of calls, with their cost. *)
Inductive run (s0 : sys B R) : N → sys B R → Prop :=
  | run_start : run s0 0 s0
  | run_call n k s s' : run s0 n s → enabled k s → exec k s = Done s' → run s0 (n + cost k) s'.
End system.

Lemma take_one_split {A} `{EqDecision A} (x : A) l : x ∈ l → ∃ l1 l2, l = l1 ++ x :: l2 ∧ take_one x l = l1 ++ l2.
Proof.
  induction l as [|y l IH]; [by intros ?%elem_of_nil|]. intros Hx. simpl. case_bool_decide as Hy; [subst; by exists [], l|].
  apply elem_of_cons in Hx as [->|Hx]; [done|]. destruct (IH Hx) as (l1 & l2 & -> & ->). by exists (y :: l1), l2.
Qed.

Section invariant.
Context {B R : Type} `{!PoolBackend B} `{!Retainer R} {identity g F capacity fcap reads : N}.
Context `{!BackendLaws B identity g F capacity fcap} `{!RetainerLaws R F fcap}.
Context (Hg : 0 < g) (Hgmax : g ≤ U32_MAX) (Hreads : reads ≤ U32_MAX).
Implicit Types (s : sys B R) (p : Pool B R).
#[local] Abbreviation exec := (exec (B := B) (R := R) (identity := identity) (g := g) (F := F) (reads := reads)).
#[local] Abbreviation enabled := (enabled (B := B) (R := R) (identity := identity) (fcap := fcap)).
#[local] Abbreviation cost := (cost (F := F) (capacity := capacity) (fcap := fcap)).

(** The invariant of the pool, with counters for [n] more units of work. *)
Definition inv (a n : N) s : Prop := ∃ Q M V G A,
  pool_inv (identity := identity) (g := g) (F := F) (capacity := capacity) (fcap := fcap) (a := a) (reads := reads) (slots := reads)
    n Q M V (tokens s) G A (leased s) (guards s) (pool s).

Lemma inv_le a n n' s : inv a n s → n' ≤ n → inv a n' s.
Proof. intros (Q & M & V & G & A & Hp) Hle. exists Q, M, V, G, A. by eapply pool_le. Qed.

(** A call that leaves guards, tokens and leases alone. *)
Lemma inv_pool a n s p Q M V G A :
  pool_inv (identity := identity) (g := g) (F := F) (capacity := capacity) (fcap := fcap) (a := a) (reads := reads) (slots := reads)
    n Q M V (tokens s) G A (leased s) (guards s) p → inv a n (with_pool s p).
Proof. intros Hp. by exists Q, M, V, G, A. Qed.

Lemma with_get_inv a n s r page x tks gs Q M V G A p :
  got (tokens s) tks (guards s) gs M V (is_Some (Product.live_handle (product (pool s)) (pg_file page))) r page x →
  pool_inv (identity := identity) (g := g) (F := F) (capacity := capacity) (fcap := fcap) (a := a) (reads := reads) (slots := reads)
    n Q M V tks G A (leased s) gs p → inv a n (with_get (with_pool s p) r page x).
Proof.
  intros Hx Hp. exists Q, M, V, G, A. destruct x as [[f|tk|]|[q]]; simpl in *.
  - destruct Hx as (_ & _ & -> & ->). done.
  - destruct Hx as (_ & -> & -> & _). done.
  - by destruct Hx as (_ & -> & ->).
  - by destruct Hx as (_ & _ & -> & ->).
Qed.

Lemma get_call a n r page s : inv a (cost (GetLocked r page) + n) s → enabled (GetLocked r page) s → ∃ s', exec (GetLocked r page) s = Done s' ∧ inv a n s'.
Proof.
  intros (Q & M & V & G & A & Hp) (Hpin & Hown & Hidx & Htk). simpl in *.
  destruct (get_locked_pool Hg Hgmax Hreads _ _ _ _ _ _ _ _ _ _ r page Hp Hpin Hown Hidx Htk) as (p' & x & Q' & M' & V' & tks' & G' & A' & gs' & -> & Hp' & _ & Hgot).
  mred. eexists. split; [done|]. by eapply with_get_inv.
Qed.

Lemma warm_call a n r page s : inv a n s → enabled (GetWarm r page) s → ∃ s', exec (GetWarm r page) s = Done s' ∧ inv a n s'.
Proof.
  intros (Q & M & V & G & A & Hp) (Hpin & Hown & Hidx). simpl in *.
  destruct (get_warm_pool Hg Hgmax Hreads _ _ _ _ _ _ _ _ _ _ r page Hp Hpin Hown) as (p' & o & gs' & -> & Hp' & _ & Hgot & _).
  mred. destruct o as [x|]; (eexists; split; [done|]); [by eapply with_get_inv|]. destruct Hgot as (-> & -> & _). by eapply inv_pool.
Qed.

Lemma ready_call a n r tk s : inv a n s → enabled (ReadyToken r tk) s → ∃ s', exec (ReadyToken r tk) s = Done s' ∧ inv a n s'.
Proof.
  intros (Q & M & V & G & A & Hp) (Hpin & Htk). simpl. destruct (take_one_split tk (tokens s) Htk) as (l1 & l2 & Hl & Ht). rewrite Hl in Hp.
  destruct (ready_pool Hg Hgmax Hreads _ _ _ _ _ _ _ _ _ _ _ r tk Hp Hpin) as (p' & x & V' & tks' & gs' & -> & Hp' & _ & (m & _ & _ & _ & Hx) & _). mred.
  eexists. split; [done|]. exists Q, M, V', G, A. destruct x as [f|tk'|errno]; simpl; rewrite ?Ht.
  - by destruct Hx as (_ & _ & _ & -> & ->).
  - destruct Hx as (_ & _ & -> & ->). by rewrite Hl.
  - by destruct Hx as (_ & -> & ->).
Qed.

Lemma token_call a n tk s : inv a n s → enabled (DropToken tk) s → ∃ s', exec (DropToken tk) s = Done s' ∧ inv a n s'.
Proof.
  intros (Q & M & V & G & A & Hp) Htk. simpl in *. destruct (take_one_split tk (tokens s) Htk) as (l1 & l2 & Hl & Ht). rewrite Hl in Hp.
  destruct (consume_pool _ _ _ _ _ _ _ _ _ _ _ _ Hp) as (p' & left & -> & Hp' & _). mred. eexists. split; [done|].
  exists Q, M, V, G, A. simpl. by rewrite Ht.
Qed.

Lemma guard_call a n r f page s : inv a n s → enabled (DropGuard r f page) s → ∃ s', exec (DropGuard r f page) s = Done s' ∧ inv a n s'.
Proof.
  intros (Q & M & V & G & A & Hp) Hin. simpl in *. pose proof (ProductSafety.take_one_perm _ _ Hin) as Hperm.
  destruct (drop_guard_pool Hg Hgmax Hreads _ _ _ _ _ _ _ _ _ _ _ r f page Hp Hperm) as (rs & -> & Hp' & _). mred. eexists. split; [done|]. by exists Q, M, V, G, A.
Qed.

Lemma lease_call a n file s : inv a n s → enabled (LeaseFile file) s → ∃ s', exec (LeaseFile file) s = Done s' ∧ inv a n s'.
Proof.
  intros Hs Hown. pose proof Hs as (Q & M & V & G & A & Hp). simpl in *. pose proof (pool_empty_batch _ _ _ _ _ _ _ _ _ _ Hp) as Hpi.
  destruct (Product.lease_begin_ok _ _ _ _ _ Hpi Hown) as (x & He & _). rewrite He. mred. destruct x as [k|e]; [|by exists s].
  destruct (lease_pool Hg Hgmax Hreads _ _ _ _ _ _ _ _ _ _ _ k Hp Hown He) as (q & -> & Hp' & _). mred. eexists. split; [done|]. by exists Q, M, V, G, A.
Qed.

Lemma unlease_call a n file s : inv a n s → enabled (DropLease file) s → ∃ s', exec (DropLease file) s = Done s' ∧ inv a n s'.
Proof.
  intros (Q & M & V & G & A & Hp) Hin. simpl in *. pose proof (ProductSafety.take_one_perm _ _ Hin) as Hperm.
  destruct (drop_lease_pool _ _ _ _ _ _ _ _ _ _ _ file Hp Hperm) as (q & -> & Hp' & _). mred. eexists. split; [done|]. by exists Q, M, V, G, A.
Qed.

Lemma call_inv a n k s : inv a (cost k + n) s → enabled k s → ∃ s', exec k s = Done s' ∧ inv a n s'.
Proof.
  destruct k; try (by eauto using get_call, warm_call, ready_call, token_call, guard_call, lease_call, unlease_call); intros (Q & M & V & G & A & Hp) He; simpl in *.
  - destruct (register_pool Hg Hgmax Hreads _ _ _ _ _ _ _ _ _ _ Hp) as (p' & o & -> & Hp' & _). mred. eexists. split; [done|]. by eapply inv_pool.
  - destruct He as ((x & Hx & Ho) & Hno). destruct (drop_reader_pool _ _ _ _ _ _ _ _ _ _ _ x Hp Hx Ho Hno) as (p' & -> & Hp' & _). mred. eexists. split; [done|]. by eapply inv_pool.
  - destruct (open_pool _ _ _ _ _ _ _ _ _ _ Hp) as (p' & o & -> & Hp' & _). mred. eexists. split; [done|]. by eapply inv_pool.
  - destruct (retire_file_pool Hg Hgmax Hreads _ _ _ _ _ _ _ _ _ _ _ Hp He) as (p' & st & M' & V' & -> & Hp' & _). mred. eexists. split; [done|]. by eapply inv_pool.
  - destruct (drain_pool Hg Hgmax _ _ _ _ _ _ _ _ _ _ Hp) as (p' & Q' & M' & V' & G' & A' & -> & Hp' & _). mred. eexists. split; [done|]. by eapply inv_pool.
  - destruct (advance_pool Hg Hgmax _ _ _ _ _ _ _ _ _ _ Hp) as (p' & j & G' & -> & Hp' & _). mred. eexists. split; [done|]. by eapply inv_pool.
  - destruct (deliver_pool _ _ _ _ _ _ _ _ _ _ (Product.mkBatch [] room) Hp) as (q & out & -> & Hp' & _); [unfold vlen; simpl; lia|]. mred. eexists. split; [done|]. by eapply inv_pool.
  - destruct (progress_pool Hg Hgmax Hreads _ _ _ _ _ _ _ _ _ _ Hp) as (p' & M' & V' & -> & Hp' & _). mred. eexists. split; [done|]. by eapply inv_pool.
  - destruct He as (Hown & Hroom & Hlen & Hmode). destruct (write_pool _ _ _ _ _ _ _ _ _ _ file slot offset Hp Hroom Hown Hlen Hmode) as (q & x & -> & Hp' & _). mred. eexists. split; [done|]. by eapply inv_pool.
  - destruct He as (Hown & Hroom). destruct (fsync_pool _ _ _ _ _ _ _ _ _ _ file mode Hp Hroom Hown) as (q & x & -> & Hp' & _). mred. eexists. split; [done|]. by eapply inv_pool.
  - destruct (poll_pool Hg Hgmax Hreads _ _ _ _ _ _ _ _ _ _ Hp) as (p' & j & Q' & M' & V' & G' & A' & -> & Hp' & _). mred. eexists. split; [done|]. by eapply inv_pool.
  - destruct (poll_report_pool Hg Hgmax Hreads _ _ _ _ _ _ _ _ _ _ room Hp) as (p' & out & j & Q' & M' & V' & G' & A' & -> & Hp' & _). mred. eexists. split; [done|]. by eapply inv_pool.
  - destruct He as [Hown Hlen]. destruct (hint_pool Hg Hgmax Hreads _ _ _ _ _ _ _ _ _ _ _ Hp Hown Hlen) as (p' & report & Q' & M' & V' & A' & -> & Hp' & _). mred. eexists. split; [done|]. by eapply inv_pool.
  - destruct (stats_pool _ _ _ _ _ _ _ _ _ _ Hp) as (p' & st & -> & Hp' & _). mred. eexists. split; [done|]. by eapply inv_pool.
Qed.
End invariant.
End PoolSystem.
