(* ===== verification/PoolSafety.v ===== *)
(** * What the pool guarantees

    The theorems about every pool built from a validated configuration, after every
    sequence of calls within its budget: no call panics, a frame under a guard keeps its
    page and no read writes to it, every frame is in exactly one place, a page has at most
    one read under way, a retired file leaves nothing behind, and what [get] and [ready]
    answer. *)
From stdpp Require Import prelude gmap list.
From Stdlib Require Import NArith ZArith Lia.
From S2P Require Import Prelude Ids Table Frames FrameCensus Epoch Miss MissMap Execute ReadSpans Driver PoolBackend Product ProductSafety Ledger PoolCache PoolInv PoolControl PoolConfig PoolReads PoolRoute PoolReclaim PoolDemand PoolRetire PoolBuild PoolSystem.

Open Scope N_scope.

Module PoolSafety.
Import Frames FrameCensus MissMap Execute Driver PoolBackend.PoolBackend PoolCache PoolInv PoolControl PoolConfig.PoolConfig PoolReads PoolRoute PoolReclaim PoolDemand PoolRetire PoolBuild PoolSystem.

Section safety.
Context {B R : Type} `{!PoolBackend B} `{!Retainer R} {identity capacity : N} {cfg : PoolBuilder}.
Context `{!BackendLaws B identity (granule cfg) (frame_count cfg) capacity (registered_file_capacity cfg)}.
Context `{!RetainerLaws R (frame_count cfg) (registered_file_capacity cfg)}.
Implicit Types (s : sys B R) (p : Pool B R).
#[local] Abbreviation F := (frame_count cfg).
#[local] Abbreviation g := (granule cfg).
#[local] Abbreviation fcap := (registered_file_capacity cfg).
#[local] Abbreviation reads := (max_inflight_reads cfg).
#[local] Abbreviation exec := (exec (B := B) (R := R) (identity := identity) (g := g) (F := F) (reads := reads)).
#[local] Abbreviation enabled := (enabled (B := B) (R := R) (identity := identity) (fcap := fcap)).
#[local] Abbreviation cost := (cost (F := F) (capacity := capacity) (fcap := fcap)).
#[local] Abbreviation run := (run (B := B) (R := R) (identity := identity) (g := g) (F := F) (capacity := capacity) (fcap := fcap) (reads := reads)).
#[local] Abbreviation inv := (inv (B := B) (R := R) (identity := identity) (g := g) (F := F) (capacity := capacity) (fcap := fcap) (reads := reads)).
#[local] Abbreviation own_file := (Product.own_file (identity := identity) (file_capacity := fcap)).
#[local] Abbreviation get p r page := (get identity g F reads p r page).

(** A pool just built: the configuration is valid, the driver and the retention are empty. *)
Definition initial s : Prop := ∃ u a b r h p,
  widths cfg ∧ fcap ≤ U32_MAX ∧ validate cfg = Done (inl tt) ∧ F ≤ 2 ^ 30 ∧ 0 < capacity ∧
  Frames.try_preallocated u a F g = Done (Some h) ∧ sound b ∧ live b = ∅ ∧ flights b = ∅ ∧ retains r ∧ held r = [] ∧
  try_preallocated cfg b capacity h r = Done (Some p) ∧ s = mkSys p [] [] [].

(** The units of work the 64-bit counters have room for. *)
Definition budget : N := 2 ^ 60 / (F + 2).

Definition reachable (n : N) s : Prop := n ≤ budget ∧ ∃ s0, initial s0 ∧ run s0 n s.

Lemma geometry : widths cfg → validate cfg = Done (inl tt) → 0 < g ∧ g ≤ U32_MAX ∧ reads ≤ U32_MAX.
Proof.
  intros Hw Hval. destruct (validate_cases cfg Hw) as [[_ Hv]|(e & ? & _)]; [|congruence]. pose proof (v_sector cfg Hv).
  split_and!; [unfold SECTOR_BYTES, Frames.SECTOR_BYTES in *; lia|apply Hw..].
Qed.

Lemma pool_initial_inv s : initial s → (0 < g ∧ g ≤ U32_MAX ∧ reads ≤ U32_MAX) ∧ ∃ a, inv a budget s.
Proof.
  intros (u & a & b & r & h & p & Hw & Hfc & Hval & Hmax & Hcap & Hh & Hs & Hl & Hf & Hr & He & Hp & ->). split; [by apply geometry|].
  destruct (new_pool (identity := identity) budget u a b r h Hw Hfc Hval Hmax Hcap Hh Hs Hl Hf Hr He) as (p' & Hp' & Hinv).
  { unfold budget. rewrite N.mul_comm. apply N.Div0.mul_div_le. }
  rewrite Hp in Hp'. injection Hp' as <-. exists a. by eexists _, _, _, _, _.
Qed.

Lemma pool_reachable_inv n s : reachable n s → (0 < g ∧ g ≤ U32_MAX ∧ reads ≤ U32_MAX) ∧ ∃ a, inv a (budget - n) s.
Proof.
  intros (Hn & s0 & Hi & Hrun). destruct (pool_initial_inv s0 Hi) as [Hgeo (a & Hinv)]. split; [done|]. exists a. destruct Hgeo as (G1 & G2 & G3).
  induction Hrun as [|n k s s' _ IH He Hx]; [by rewrite N.sub_0_r|].
  assert (inv a (cost k + (budget - (n + cost k))) s) as Hs by (eapply inv_le; [apply IH; lia|lia]).
  destruct (call_inv G1 G2 G3 a _ k s Hs He) as (s1 & Hx1 & Hs1). rewrite Hx in Hx1. by injection Hx1 as <-.
Qed.

(** C4 (No call on the pool panics).  After any sequence of calls within the budget, every
    call its caller may make returns: no assertion of the pool, the page table, the frame
    arena, the miss table, the prefetch ledger, the read spans, the file registry or the
    epochs fails, no index is out of range and no counter overflows. *)
Theorem pool_calls_never_panic n k s :
  reachable n s → enabled k s → n + cost k ≤ budget → ∃ s', exec k s = Done s' ∧ reachable (n + cost k) s'.
Proof.
  intros Hr He Hle. destruct (pool_reachable_inv n s Hr) as [(G1 & G2 & G3) (a & Hinv)].
  destruct (call_inv G1 G2 G3 a (budget - (n + cost k)) k s) as (s' & Hx & _); [eapply inv_le; [exact Hinv|lia]|done|].
  exists s'. split; [done|]. split; [done|]. destruct Hr as (_ & s0 & Hi & Hrun). exists s0. split; [done|]. by eapply run_call.
Qed.

(** C11 (A validated configuration builds).  For every configuration that validation accepts,
    of up to [2^30] frames, over an empty driver with an operation slot, an empty retention
    and a fresh arena, the constructors run without a panic or a configuration error, and
    the pool they make is a start of the system. *)
Theorem validated_pool_builds u a b r h :
  widths cfg → fcap ≤ U32_MAX → validate cfg = Done (inl tt) → F ≤ 2 ^ 30 → 0 < capacity →
  Frames.try_preallocated u a F g = Done (Some h) → sound b → live b = ∅ → flights b = ∅ → retains r → held r = [] →
  ∃ p, try_preallocated cfg b capacity h r = Done (Some p) ∧ reachable 0 (mkSys p [] [] []).
Proof.
  intros Hw Hfc Hval Hmax Hcap Hh Hs Hl Hf Hr He.
  destruct (new_pool (identity := identity) 0 u a b r h Hw Hfc Hval Hmax Hcap Hh Hs Hl Hf Hr He) as (p & Hp & _); [lia|].
  exists p. split; [done|]. split; [lia|]. eexists. split; [|constructor]. by exists u, a, b, r, h, p.
Qed.

(** The frames a driver operation may write to. *)
Lemma flight_pending n Q M V tks G A leases gs p a t fl f :
  pool_inv (identity := identity) (g := g) (F := F) (capacity := capacity) (fcap := fcap) (a := a) (reads := reads) (slots := reads) n Q M V tks G A leases gs p →
  flights (PoolControl.driver p) !! t = Some fl → f ∈ flight_frames fl → in_state (frames (cache p)) f InFlight.
Proof.
  intros [[H1 H2 H3 H4 H5 H6 H7 H8 H9] P2 P3 P4 P5] Ht Hf. assert (Q !! t = Some fl) as HQ.
  { pose proof (q_flights _ _ _ _ _ _ H3 t fl Ht) as Hx. destruct fl; try done; by apply elem_of_nil in Hf. }
  destruct (q_owner _ _ _ _ _ _ _ _ _ H3 HQ Hf) as (i & m & Hm & Hpn & _ & <-). by eapply pending_state.
Qed.

(** C5 (A guarded frame is left alone).  As long as a caller holds a guard, the frame it
    names holds the page it was taken for, is resident or on its way out but neither free
    nor being read into, is on no free stack, and no operation the driver has in flight
    writes to it. *)
Theorem guarded_frame_intact n s r f page :
  reachable n s → (r, f, page) ∈ guards s →
  Frames.exact_page (frames (cache (pool s))) f = Done page ∧
  (Frames.state (frames (cache (pool s))) f = Done Resident ∨ Frames.state (frames (cache (pool s))) f = Done Evicting) ∧
  (f ∉ stack (free_frames (cache (pool s)))) ∧ (f ∉ stack (Ledger.reserve (prefetch (cache (pool s))))) ∧
  ∀ t fl, flights (PoolControl.driver (pool s)) !! t = Some fl → f ∉ flight_frames fl.
Proof.
  intros Hr Hin. destruct (pool_reachable_inv n s Hr) as [_ (a & Q & M & V & G & A & Hp)]. pose proof Hp as [[H1 H2 H3 H4 H5 H6 H7 H8 H9] P2 P3 P4 P5].
  assert ((f, page, epoch_of (readers (pool s)) r) ∈ watch (readers (pool s)) (guards s)) as Hw by (apply list_elem_of_fmap; by exists (r, f, page)).
  pose proof (watched_state _ _ _ _ _ _ _ _ _ _ _ _ H1 Hw) as Hst. destruct (ci_watch _ _ _ _ _ _ _ _ _ H1 _ _ _ Hw) as (_ & Hpg & _).
  pose proof (ci_arena _ _ _ _ _ _ _ _ _ H1) as Har.
  assert (∀ st, in_state (frames (cache (pool s))) f st → st = Resident ∨ st = Evicting) as Hno.
  { intros st Hx. destruct Hst as [Hy|Hy]; pose proof (in_state_fun _ _ _ _ Hx Hy); auto. }
  assert (∀ x, x ∈ stack (free_frames (cache (pool s))) ++ stack (Ledger.reserve (prefetch (cache (pool s)))) ++ [] → x ≠ f) as Hfree.
  { intros x Hx ->. destruct (Hno Free) as [?|?]; [|done..]. by apply (ci_census _ _ _ _ _ _ _ _ _ H1 Free). }
  split_and!.
  - destruct Hst as [Hst|Hst]; (eapply exact_page_ok; [exact Har|exact Hst|by auto|done]).
  - destruct Hst as [Hst|Hst]; [left|right]; by eapply state_of.
  - intros Hx. eapply Hfree; [|done]. set_solver.
  - intros Hx. eapply Hfree; [|done]. set_solver.
  - intros t fl Ht Hf. destruct (Hno InFlight) as [?|?]; [|done..]. by eapply flight_pending.
Qed.

(** ** The frames *)

Lemma census_partition h fr fl re ev n :
  census h fr fl re ev → (∀ i, (∃ st, in_state h i st) ↔ i < n) → fr ++ fl ++ re ++ ev ≡ₚ N.of_nat <$> seq 0 (N.to_nat n).
Proof.
  intros Hc Hall. assert (∀ i st, i ∈ pick fr fl re ev st ↔ in_state h i st) as Hpick by (intros i st; symmetry; apply Hc).
  assert (∀ i st st', i ∈ pick fr fl re ev st → i ∈ pick fr fl re ev st' → st = st') as Hdis
    by (intros i st st' Hx%Hpick Hy%Hpick; by eapply in_state_fun).
  apply NoDup_Permutation.
  - apply NoDup_app. split_and!; [apply (Hc Free)| |].
    + intros i Hi Hx. rewrite !elem_of_app in Hx. destruct Hx as [Hx|[Hx|Hx]];
        [pose proof (Hdis i Free InFlight Hi Hx)|pose proof (Hdis i Free Resident Hi Hx)|pose proof (Hdis i Free Evicting Hi Hx)]; done.
    + apply NoDup_app. split_and!; [apply (Hc InFlight)| |].
      * intros i Hi Hx. rewrite elem_of_app in Hx. destruct Hx as [Hx|Hx];
          [pose proof (Hdis i InFlight Resident Hi Hx)|pose proof (Hdis i InFlight Evicting Hi Hx)]; done.
      * apply NoDup_app. split_and!; [apply (Hc Resident)| |apply (Hc Evicting)].
        intros i Hi Hx. by pose proof (Hdis i Resident Evicting Hi Hx).
  - apply NoDup_fmap_2; [intros ? ?; lia|apply NoDup_seq].
  - intros i. rewrite list_elem_of_fmap. setoid_rewrite elem_of_seq. rewrite !elem_of_app. split.
    + intros Hi. assert (i < n) as Hlt by (apply Hall; destruct Hi as [Hi|[Hi|[Hi|Hi]]]; [exists Free|exists InFlight|exists Resident|exists Evicting]; by apply Hpick).
      exists (N.to_nat i). lia.
    + intros (k & -> & Hk). destruct (proj2 (Hall (N.of_nat k))) as [st Hst]; [lia|]. apply Hpick in Hst. destruct st; auto.
Qed.

(** C6 (Every frame is in exactly one place).  The free stack, the speculative reserve, the
    frames of pending reads, the mapped frames, the eviction queue and the frames held for
    a retained handle make up the arena, each frame once; the read credits in use are the
    pending reads, and never more than the configured number. *)
Theorem frames_conserved n s :
  reachable n s →
  ∃ pending mapped,
    stack (free_frames (cache (pool s))) ++ stack (Ledger.reserve (prefetch (cache (pool s)))) ++ pending ++ mapped ++
      (Epoch.entries (evict_queue (cache (pool s)))).*1 ++ held (retention (pool s)) ≡ₚ N.of_nat <$> seq 0 (N.to_nat F) ∧
    (∀ f, f ∈ mapped ↔ ∃ page, PageTable.lookup (table (cache (pool s))) page = Done (Some f)) ∧
    (∀ f, f ∈ pending ↔ ∃ i e, Miss.entry (miss (cache (pool s))) i = Done e ∧ Miss.me_outcome e = Miss.Pending ∧ Miss.me_frame e = f) ∧
    vlen pending = reads_in_flight (cache (pool s)) ∧ vlen pending ≤ reads.
Proof.
  intros Hr. destruct (pool_reachable_inv n s Hr) as [_ (a & Q & M & V & G & A & Hp)]. pose proof Hp as [[H1 H2 H3 H4 H5 H6 H7 H8 H9] P2 P3 P4 P5].
  destruct (ci_table _ _ _ _ _ _ _ _ _ H1) as (T1 & T2 & _). destruct (ci_miss _ _ _ _ _ _ _ _ _ H1) as [Hm Hsh].
  pose proof (ci_arena _ _ _ _ _ _ _ _ _ H1) as Har. exists (pending_frames V), (map_to_list M).*2. split_and!.
  - rewrite !app_assoc, <- (app_assoc _ (_.*1)), <- (app_assoc _ (map_to_list M).*2), <- (app_assoc _ (pending_frames V)).
    pose proof (ci_census _ _ _ _ _ _ _ _ _ H1) as Hc. rewrite !app_nil_r in Hc. eapply census_partition; [exact Hc|].
    intros i. split; [intros [st Hst]; by eapply in_state_lt|]. intros Hi. destruct (state_ok Har i Hi) as (st & _ & Hst). by exists st.
  - intros f. rewrite list_elem_of_fmap. split.
    + intros ([pg f'] & -> & Hx%elem_of_map_to_list). exists pg. rewrite (PageTable.lookup_ok _ _ pg T1 T2). simpl. by rewrite Hx.
    + intros (pg & Hx). rewrite (PageTable.lookup_ok _ _ pg T1 T2) in Hx. injection Hx as Hx. exists (pg, f). split; [done|]. by apply elem_of_map_to_list.
  - intros f. rewrite elem_pending. split.
    + intros (i & m & Hi & Hpn & <-). destruct (entry_map _ _ _ _ i m Hm Hi) as (e & He & <-). by exists i, e.
    + intros (i & e & He & Hpn & <-). exists i, (core e). split; [by eapply entry_view|done].
  - symmetry. exact H6.
  - pose proof (pending_len_frames _ _ _ _ Hm) as Hl. pose proof (ms_pending _ _ _ _ Hsh) as Hx. destruct Hm as (E & Hm & _).
    pose proof (Miss.ix_len _ _ (Miss.ti_index _ _ (MissSystem.sr_table _ _ Hm))) as Hle. simpl in Hle. rewrite Hl, Hx in Hle. exact Hle.
Qed.

(** C7 (A page has at most one read).  A page with a pending miss is not mapped and has no
    second pending miss, and the driver has exactly the read under way that the miss waits
    for, into the frame the miss names. *)
Theorem one_read_per_page n s i e :
  reachable n s → Miss.entry (miss (cache (pool s))) i = Done e → Miss.me_outcome e = Miss.Pending →
  PageTable.lookup (table (cache (pool s))) (Miss.me_page e) = Done None ∧
  (∀ j e', Miss.entry (miss (cache (pool s))) j = Done e' → Miss.me_outcome e' = Miss.Pending → Miss.me_page e' = Miss.me_page e → j = i) ∧
  (∃ fl, flights (PoolControl.driver (pool s)) !! Miss.me_token e = Some fl ∧ Miss.me_frame e ∈ flight_frames fl ∧ flight_file fl = pg_file (Miss.me_page e)) ∧
  ∀ t fl, flights (PoolControl.driver (pool s)) !! t = Some fl → Miss.me_frame e ∈ flight_frames fl → t = Miss.me_token e.
Proof.
  intros Hr He Hpn. destruct (pool_reachable_inv n s Hr) as [_ (a & Q & M & V & G & A & Hp)]. pose proof Hp as [[H1 H2 H3 H4 H5 H6 H7 H8 H9] P2 P3 P4 P5].
  rewrite P2, app_nil_r in *.
  destruct (ci_table _ _ _ _ _ _ _ _ _ H1) as (T1 & T2 & _). destruct (ci_miss _ _ _ _ _ _ _ _ _ H1) as [Hm Hsh].
  pose proof (entry_view _ _ _ _ _ _ Hm He) as Hi. split_and!.
  - pose proof (proj1 (ci_pending _ _ _ _ _ _ _ _ _ H1 i (core e) Hi Hpn)) as Hx. simpl in Hx. by rewrite (PageTable.lookup_ok _ _ _ T1 T2), Hx.
  - intros j e' He' Hpn' Hpg. pose proof (entry_view _ _ _ _ _ _ Hm He') as Hj. by eapply (mrep_pages _ _ _ _ j i (core e') (core e)).
  - destruct (q_pending _ _ _ _ _ _ H3 i (core e) Hi Hpn) as (_ & _ & fl & HQ & Hf). simpl in HQ. exists fl.
    destruct (q_carried _ _ _ _ _ _ H3 _ fl HQ) as [Ht|(c & Hc & _)]; [|by apply elem_of_nil in Hc]. split_and!; try done.
    destruct (q_file _ _ _ _ _ _ _ _ _ H3 HQ Hf) as (j & m & Hj & Hpj & _ & Hfr & <-).
    assert (i = j) as <- by (by eapply (cinv_apart _ _ _ _ _ _ _ _ _ H1 i j (core e) m)). rewrite Hi in Hj. by injection Hj as <-.
  - intros t fl Ht Hf. assert (Q !! t = Some fl) as HQ.
    { pose proof (q_flights _ _ _ _ _ _ H3 t fl Ht) as Hx. destruct fl; try done; by apply elem_of_nil in Hf. }
    destruct (q_owner _ _ _ _ _ _ _ _ _ H3 HQ Hf) as (j & m & Hj & Hpj & <- & Hfr).
    assert (i = j) as <- by (by eapply (cinv_apart _ _ _ _ _ _ _ _ _ H1 i j (core e) m)). rewrite Hi in Hj. by injection Hj as <-.
Qed.

(** ** Retired files *)

(** C8 (A retired file leaves nothing behind).  When [retire_file] answers that the file is
    retired, no page of it is mapped, no read of it is pending, no lease on it is left, no
    product operation of it occupies a slot, the driver has closed it and has no operation
    on it in flight. *)
Theorem retired_file_forgotten n s file p :
  reachable n s → own_file file → n + fcap * F ≤ budget → retire_file identity (pool s) file = Done (p, StatusRetired) →
  (∀ page f, PageTable.lookup (table (cache p)) page = Done (Some f) → pg_file page ≠ file) ∧
  (∀ i e, Miss.entry (miss (cache p)) i = Done e → Miss.me_outcome e = Miss.Pending → pg_file (Miss.me_page e) ≠ file) ∧
  (file ∉ leased s) ∧ Product.product_live (Product.product_ops (product p)) file = false ∧
  (file ∉ live (PoolControl.driver p)) ∧ ∀ t fl, flights (PoolControl.driver p) !! t = Some fl → flight_file fl ≠ file.
Proof.
  intros Hr Hown Hle Hx. destruct (pool_reachable_inv n s Hr) as [(G1 & G2 & G3) (a & Q & M & V & G & A & Hp)].
  apply (pool_le _ (fcap * F + (budget - n - fcap * F))) in Hp; [|lia].
  destruct (retire_file_pool G1 G2 G3 _ _ _ _ _ _ _ _ _ _ file Hp Hown)
    as (p' & st & M' & V' & Hx' & Hp' & _ & _ & Hno).
  rewrite Hx in Hx'. injection Hx' as <- <-. specialize (Hno eq_refl). pose proof (pool_empty_batch _ _ _ _ _ _ _ _ _ _ Hp') as Hpi.
  pose proof Hp' as [[H1 H2 H3 H4 H5 H6 H7 H8 H9] P2 P3 P4 P5]. rewrite P2, app_nil_r in *.
  destruct (ci_table _ _ _ _ _ _ _ _ _ H1) as (T1 & T2 & _). destruct (ci_miss _ _ _ _ _ _ _ _ _ H1) as [Hm Hsh].
  assert (Product.product_live (Product.product_ops (product p)) file = false) as Hops.
  { apply not_true_is_false. intros (x & op & [i Hi]%list_elem_of_lookup & Hop & Hf)%Product.product_live_spec. apply Hno.
    destruct (Product.oi_slot _ _ _ _ _ (Product.pi_ops _ _ _ _ Hpi) (N.of_nat i) x) as [_ Hok]; [by rewrite Nat2N.id|].
    rewrite Hop in Hok. destruct Hok as [Hok _]. by rewrite <- Hf. }
  assert (∀ i m, V' !! i = Some m → m_outcome m = Pending → pg_file (m_page m) ≠ file) as Hpn.
  { intros i m Hi Hpn Hf. apply Hno. rewrite <- Hf. by apply (q_pending _ _ _ _ _ _ H3 i m). }
  split_and!; try done.
  - intros page f Hl Hf. rewrite (PageTable.lookup_ok _ _ _ T1 T2) in Hl. injection Hl as Hl. apply Hno. rewrite <- Hf. by eapply P5.
  - intros i e He He'. by eapply (Hpn i (core e)), He'; eapply entry_view.
  - intros Hl. apply Hno. by eapply (Product.li_leased _ _ _ (Product.pi_leases _ _ _ _ Hpi)).
  - intros [Hl|Hl]%(Product.fi_open _ _ _ _ (Product.pi_files _ _ _ _ Hpi)); [done|]. by apply elem_of_nil in Hl.
  - intros t fl Ht Hf. destruct (q_quiet _ _ _ _ _ _ file H3 Hpn t fl Ht Hf) as (k & Hk).
    pose proof (Product.oi_flight _ _ _ _ _ (Product.pi_ops _ _ _ _ Hpi) t k file fl Ht Hk) as (i & x & Hi & Hop)%Product.elem_driver_op.
    assert (Product.product_live (Product.product_ops (product p)) file = true); [|congruence]. apply Product.product_live_spec.
    unfold Product.driver_op in Hop. destruct (Product.po_operation x) as [op|] eqn:E; [|done]. exists x, op.
    split_and!; [by eapply list_elem_of_lookup_2|done|]. destruct op; simplify_eq/=; done.
Qed.

(** ** What [get] and [ready] answer *)

(** C9 (What [get] answers).  [get] returns.  It refuses a page exactly when its file is not
    live; a mapped page of a live file is a hit on the frame the table names; a token
    names the page and a pending read of it, new or joined. *)
Theorem get_answers n s r page :
  reachable n s → enabled (GetLocked r page) s → n + cost (GetLocked r page) ≤ budget →
  ∃ p res, get (pool s) r page = Done (p, res) ∧
    match res with
    | inl (Hit f) => PageTable.lookup (table (cache p)) page = Done (Some f)
    | inl (GetPending tk) => MissSystem.tk_page tk = page ∧ ∃ e, Miss.entry (miss (cache p)) (MissSystem.tk_slot tk) = Done e ∧
        Miss.me_page e = page ∧ Miss.me_generation e = MissSystem.tk_generation tk ∧ Miss.me_outcome e = Miss.Pending
    | inl Busy => True
    | inr (StaleFile q) => q = page
    end ∧
    ((∃ q, res = inr (StaleFile q)) ↔ Product.live_handle (product (pool s)) (pg_file page) = None) ∧
    (∀ f, PageTable.lookup (table (cache (pool s))) page = Done (Some f) → is_Some (Product.live_handle (product (pool s)) (pg_file page)) →
      res = inl (Hit f)).
Proof.
  intros Hr (Hpin & Hown & Hidx & Htk) Hle. destruct (pool_reachable_inv n s Hr) as [(G1 & G2 & G3) (a & Q & M & V & G & A & Hp)].
  apply (pool_le _ (32 * capacity + 8 + (budget - n - cost (GetLocked r page)))) in Hp; [|simpl in *; lia].
  destruct (get_pool G1 G2 G3 _ _ _ _ _ _ _ _ _ _ r page Hp Hpin Hown Hidx Htk)
    as (p & res & Q' & M' & V' & tks' & G' & A' & gs' & -> & Hp' & _ & Hgot & Hhit).
  exists p, res. split; [done|]. pose proof Hp' as [[H1 _ _ _ _ _ _ _ _] _ _ _ _].
  destruct (ci_table _ _ _ _ _ _ _ _ _ H1) as (T1 & T2 & _). destruct (ci_miss _ _ _ _ _ _ _ _ _ H1) as [Hm Hsh]. split_and!.
  - destruct res as [[f|tk|]|[q]]; simpl in Hgot; [| |done|by destruct Hgot as (_ & -> & _)].
    + destruct Hgot as (_ & Hf & _). by rewrite (PageTable.lookup_ok _ _ _ T1 T2), Hf.
    + destruct Hgot as (_ & _ & _ & Hpg & m & Hi & Hpn & Hmp & Hmg). split; [done|].
      destruct (entry_map _ _ _ _ _ m Hm Hi) as (e & He & <-). by exists e.
  - rewrite eq_None_not_Some. destruct res as [x|[q]].
    + split; [by intros [? ?]|]. intros Hnl. exfalso. apply Hnl. by destruct x; apply Hgot.
    + destruct Hgot as (Hnl & _). split; [done|]. by exists q.
  - intros f Hf Hlive. apply (Hhit f); [|done]. pose proof Hp as [[I1 _ _ _ _ _ _ _ _] _ _ _ _].
    destruct (ci_table _ _ _ _ _ _ _ _ _ I1) as (U1 & U2 & _). rewrite (PageTable.lookup_ok _ _ _ U1 U2) in Hf. by injection Hf.
Qed.

(** C10 (What [ready] answers).  For a token its caller holds, [ready] returns: the token
    again exactly while its read is pending, the error the read failed with, or, when the
    read succeeded, a guard on the frame that the table maps the token's page to and that
    holds the page. *)
Theorem ready_answers n s r tk :
  reachable n s → enabled (ReadyToken r tk) s →
  ∃ p res e, ready (pool s) r tk = Done (p, res) ∧ Miss.entry (miss (cache (pool s))) (MissSystem.tk_slot tk) = Done e ∧
    Miss.me_page e = MissSystem.tk_page tk ∧ Miss.me_generation e = MissSystem.tk_generation tk ∧
    match Miss.me_outcome e with
    | Miss.Pending => res = NotYet tk
    | Miss.Failed errno => res = ReadyErr errno
    | Miss.Succeeded => res = Ready (Miss.me_frame e) ∧ PageTable.lookup (table (cache p)) (MissSystem.tk_page tk) = Done (Some (Miss.me_frame e)) ∧
        Frames.exact_page (frames (cache p)) (Miss.me_frame e) = Done (MissSystem.tk_page tk)
    end.
Proof.
  intros Hr (Hpin & Htk). destruct (pool_reachable_inv n s Hr) as [(G1 & G2 & G3) (a & Q & M & V & G & A & Hp)].
  pose proof Hp as [[I1 _ _ _ _ _ _ _ _] _ _ _ _]. destruct (ci_miss _ _ _ _ _ _ _ _ _ I1) as [Hm _].
  destruct (take_one_split tk (tokens s) Htk) as (l1 & l2 & Hl & _). rewrite Hl in Hp.
  destruct (ready_pool G1 G2 G3 _ _ _ _ _ _ _ _ _ _ _ r tk Hp Hpin) as (p & res & V' & tks' & gs' & -> & Hp' & _ & (m & Hi & Hpg & Hmg & Hx) & _).
  destruct (entry_map _ _ _ _ _ m Hm Hi) as (e & He & <-). exists p, res, e. split_and!; try done. simpl in Hx.
  pose proof Hp' as [[H1 _ _ _ _ _ _ _ _] _ _ _ _]. destruct (ci_table _ _ _ _ _ _ _ _ _ H1) as (T1 & T2 & _).
  destruct res as [f|tk'|errno].
  - destruct Hx as (-> & <- & Hf & _). split_and!; [done|by rewrite (PageTable.lookup_ok _ _ _ T1 T2), Hf|].
    eapply exact_page_ok; [apply H1|by eapply mapped_state|by left|by apply (ci_mapped _ _ _ _ _ _ _ _ _ H1)].
  - destruct Hx as (-> & -> & _). done.
  - destruct Hx as (-> & _). done.
Qed.
End safety.
End PoolSafety.

(** ** Witnesses, on a pool of four frames over the backend with one operation slot *)
Module PoolSafetyWitness.
Import Frames FrameCensus Execute Driver PoolBackend.PoolBackend PoolBackend.OneSlot PoolCache PoolControl PoolConfig.PoolConfig PoolReads PoolReclaim PoolDemand PoolBuild PoolSystem PoolSafety.

(** One reader with one guard, one read in flight, no speculative credits. *)
Definition cfg : PoolBuilder := mkBuilder 4 4096 1 1 1 3 0 1 2 1 None Ledger.ReadaheadDisabled.

Definition arena : Frames :=
  match Frames.try_preallocated U64_MAX 1 4 4096 with Done (Some h) => h | _ => mkFrames [] [] 0 0 0 end.

#[local] Abbreviation exec := (exec (B := one_slot) (R := unit) (identity := 7) (g := 4096) (F := 4) (reads := 1)).
#[local] Abbreviation enabled := (enabled (B := one_slot) (R := unit) (identity := 7) (fcap := 1)).
#[local] Abbreviation reachable := (reachable (B := one_slot) (R := unit) (identity := 7) (capacity := 1) (cfg := cfg)).
#[local] Abbreviation cost := (cost (F := 4) (capacity := 1) (fcap := 1)).

Definition start : option (sys one_slot unit) :=
  match try_preallocated cfg one_slot_new 1 arena tt with Done (Some p) => Some (mkSys p [] [] []) | _ => None end.

Definition after (k : call) (o : option (sys one_slot unit)) : option (sys one_slot unit) :=
  match o with Some s => match exec k s with Done s' => Some s' | Panic => None end | None => None end.

Definition file : FileId := mkFileId 7 0 0.
Definition page : PageId := mkPageId file 3.
Definition token : PendingToken := mkPendingToken page 0 1.

#[local] Abbreviation opened := (after RegisterReader (after OpenFile start)).
#[local] Abbreviation pending := (after (GetLocked 0 page) opened).
#[local] Abbreviation landed := (after Drain pending).
#[local] Abbreviation pinned := (after (ReadyToken 0 token) landed).

Lemma pool_start_reachable s : start = Some s → reachable 0 s.
Proof.
  intros Hs. split; [vm_compute; discriminate|]. exists s. split; [|constructor].
  exists U64_MAX, 1, one_slot_new, tt, arena. unfold start in Hs.
  destruct (try_preallocated cfg one_slot_new 1 arena tt) as [[p|]|] eqn:E; [|done..]. injection Hs as <-. exists p.
  split_and!; try done; try (vm_compute; discriminate).
Qed.

Lemma pool_after_reachable n k o s m : after k o = Some s → (∀ s0, o = Some s0 → reachable n s0 ∧ enabled k s0) → m = n + cost k → m ≤ 1000 → reachable m s.
Proof.
  intros Ha Ho -> Hn. destruct o as [s0|]; [|done]. simpl in Ha. destruct (exec k s0) as [s1|] eqn:E; [|done]. injection Ha as ->.
  destruct (Ho s0 eq_refl) as [(_ & s00 & Hi & Hrun) He]. split; [|exists s00; split; [done|by eapply run_call]].
  etrans; [exact Hn|]. vm_compute. discriminate.
Qed.

Ltac compute_state H := vm_compute in H; injection H as <-.

Lemma pool_opened_reachable s : opened = Some s → reachable 1 s.
Proof.
  intros Hs. apply (pool_after_reachable 0 RegisterReader _ _ 1 Hs); [|done|done].
  intros s1 Hs1. split; [|done]. apply (pool_after_reachable 0 OpenFile _ _ 0 Hs1); [|done|done].
  intros s2 Hs2. split; [by apply pool_start_reachable|done].
Qed.

Lemma opened_pin s : opened = Some s → may_pin (pool s) 0.
Proof. intros Hs. compute_state Hs. eexists. split_and!; [reflexivity|done|vm_compute; discriminate]. Qed.

Lemma page_own : Product.own_file (identity := 7) (file_capacity := 1) (pg_file page) ∧ pg_granule_idx page ≤ U32_MAX.
Proof. split; [done|vm_compute; discriminate]. Qed.

Lemma get_enabled s : opened = Some s → enabled (GetLocked 0 page) s.
Proof. intros Hs. split; [by apply opened_pin|]. split_and!; [apply page_own..|]. compute_state Hs. done. Qed.

Lemma pending_reachable s : pending = Some s → reachable 41 s.
Proof.
  intros Hs. apply (pool_after_reachable 1 (GetLocked 0 page) _ _ 41 Hs); [|done|done].
  intros s1 Hs1. split; [by apply pool_opened_reachable|by apply get_enabled].
Qed.

Lemma landed_reachable s : landed = Some s → reachable 73 s.
Proof.
  intros Hs. apply (pool_after_reachable 41 Drain _ _ 73 Hs); [|done|done].
  intros s1 Hs1. split; [by apply pending_reachable|done].
Qed.

Lemma ready_enabled s : landed = Some s → enabled (ReadyToken 0 token) s.
Proof. intros Hs. compute_state Hs. split; [|left]. eexists. split_and!; [reflexivity|done|vm_compute; discriminate]. Qed.

Lemma pinned_reachable s : pinned = Some s → reachable 73 s.
Proof.
  intros Hs. apply (pool_after_reachable 73 (ReadyToken 0 token) _ _ 73 Hs); [|done|done].
  intros s1 Hs1. split; [by apply landed_reachable|by apply ready_enabled].
Qed.

Lemma validated_pool_builds_witness : ∃ p, try_preallocated cfg one_slot_new 1 arena tt = Done (Some p) ∧ reachable 0 (mkSys p [] [] []).
Proof.
  apply (validated_pool_builds U64_MAX 1 one_slot_new tt arena); try done; try (vm_compute; discriminate).
Defined.

Lemma pool_calls_never_panic_witness : ∃ s s', opened = Some s ∧ exec (GetLocked 0 page) s = Done s' ∧ reachable 41 s'.
Proof.
  destruct opened as [s|] eqn:Hs; [|by vm_compute in Hs]. exists s.
  destruct (pool_calls_never_panic 1 (GetLocked 0 page) s (pool_opened_reachable s Hs) (get_enabled s Hs)) as (s' & Hx & Hr); [vm_compute; discriminate|].
  by exists s'.
Defined.

(** The guard on frame 0, after the read of page 3 has landed in it. *)
Lemma guarded_frame_intact_witness : ∃ s, pinned = Some s ∧ Frames.exact_page (frames (cache (pool s))) 0 = Done page.
Proof.
  destruct pinned as [s|] eqn:Hs; [|by vm_compute in Hs]. exists s. split; [done|].
  apply (guarded_frame_intact 73 s 0 0 page (pinned_reachable s Hs)). compute_state Hs. left.
Defined.

Lemma frames_conserved_witness : ∃ s busy mapped, pinned = Some s ∧
  stack (free_frames (cache (pool s))) ++ stack (Ledger.reserve (prefetch (cache (pool s)))) ++ busy ++ mapped ++
    (Epoch.entries (evict_queue (cache (pool s)))).*1 ++ [] ≡ₚ [0; 1; 2; 3].
Proof.
  destruct pinned as [s|] eqn:Hs; [|by vm_compute in Hs].
  destruct (frames_conserved 73 s (pinned_reachable s Hs)) as (busy & mapped & Hp & _).
  exists s, busy, mapped. split; [reflexivity|exact Hp].
Defined.

Lemma one_read_per_page_witness : ∃ s e, pending = Some s ∧ Miss.entry (miss (cache (pool s))) 0 = Done e ∧
  ∃ fl, flights (frame_count := 4) (PoolControl.driver (pool s)) !! Miss.me_token e = Some fl.
Proof.
  destruct pending as [s|] eqn:Hs; [|by vm_compute in Hs]. pose proof (pending_reachable s Hs) as Hr.
  destruct (Miss.entry (miss (cache (pool s))) 0) as [e|] eqn:He; [|by compute_state Hs]. exists s, e. split_and!; [done|done|].
  destruct (one_read_per_page 41 s 0 e Hr He) as (_ & _ & (fl & Hfl & _) & _); [|by exists fl].
  compute_state Hs. vm_compute in He. by injection He as <-.
Defined.

(** A file with a resident page is retired: the page goes, two reclaim passes free its
    frame, and the second request answers that the file is retired. *)
#[local] Abbreviation retiring := (after Reclaim (after Reclaim (after (RetireFile file) (after (DropToken token) landed)))).

Lemma landed_token s : landed = Some s → token ∈ tokens s ∧ PageTable.lookup (table (cache (pool s))) page = Done (Some 0).
Proof. intros Hs. compute_state Hs. split; [vm_compute; by left|vm_compute; reflexivity]. Qed.

Lemma pool_retiring_reachable s : retiring = Some s → reachable 79 s.
Proof.
  intros Hs. apply (pool_after_reachable 78 Reclaim _ _ 79 Hs); [|clear; done|clear; done]. intros s1 Hs1. split; [|clear; done].
  apply (pool_after_reachable 77 Reclaim _ _ 78 Hs1); [|clear; done|clear; done]. intros s2 Hs2. split; [|clear; done].
  apply (pool_after_reachable 73 (RetireFile file) _ _ 77 Hs2); [|clear; done|clear; done]. intros s3 Hs3. split; [|clear; done].
  apply (pool_after_reachable 73 (DropToken token) _ _ 73 Hs3); [|clear; done|clear; done]. intros s4 Hs4. split; [by apply landed_reachable|by apply landed_token].
Qed.

Lemma retired_file_forgotten_witness : ∃ s p, retiring = Some s ∧ retire_file 7 (pool s) file = Done (p, StatusRetired) ∧
  file ∉ live (frame_count := 4) (PoolControl.driver p).
Proof.
  destruct retiring as [s|] eqn:Hs; [|by vm_compute in Hs]. pose proof (pool_retiring_reachable s Hs) as Hr.
  destruct (retire_file 7 (pool s) file) as [[p st]|] eqn:He; [|compute_state Hs; vm_compute in He; discriminate He].
  assert (st = StatusRetired) as -> by (compute_state Hs; vm_compute in He; by injection He). exists s, p. split; [reflexivity|split; [exact He|]].
  apply (retired_file_forgotten 79 s file p Hr); [clear; done|clear; vm_compute; discriminate|exact He].
Defined.

Lemma get_answers_witness : ∃ s p res, opened = Some s ∧ get 7 4096 4 1 (pool s) 0 page = Done (p, res) ∧ ¬ ∃ q, res = inr (StaleFile q).
Proof.
  destruct opened as [s|] eqn:Hs; [|by vm_compute in Hs].
  destruct (get_answers 1 s 0 page (pool_opened_reachable s Hs) (get_enabled s Hs)) as (p & res & He & _ & Hst & _); [vm_compute; discriminate|].
  exists s, p, res. split_and!; [done|done|]. rewrite Hst. compute_state Hs. vm_compute. discriminate.
Defined.

Lemma landed_entry s e : landed = Some s → Miss.entry (miss (cache (pool s))) 0 = Done e → Miss.me_outcome e = Miss.Succeeded ∧ Miss.me_frame e = 0.
Proof. intros Hs He. compute_state Hs. vm_compute in He. by injection He as <-. Qed.

Lemma ready_answers_witness : ∃ s p, landed = Some s ∧ ready (pool s) 0 token = Done (p, Ready 0) ∧
  PageTable.lookup (table (cache p)) page = Done (Some 0).
Proof.
  destruct landed as [s|] eqn:Hs; [|by vm_compute in Hs].
  destruct (ready_answers 73 s 0 token (landed_reachable s Hs) (ready_enabled s Hs)) as (p & res & e & Hx & He & _ & _ & Ho).
  assert (Miss.me_outcome e = Miss.Succeeded ∧ Miss.me_frame e = 0) as [Hok Hf] by (by eapply landed_entry).
  rewrite Hok, Hf in Ho. destruct Ho as (-> & Hl & _).
  exists s, p. split; [reflexivity|]. split; [exact Hx|exact Hl].
Defined.
End PoolSafetyWitness.
