(* ===== verification/PoolHintSafety.v ===== *)
(** * What hints guarantee

    The theorems about the explicit hints of every reachable pool: a hint answers with a
    report that counts every page asked for exactly once and rejects the pages of files
    that are not live, and it unmaps only predictions that no reader has touched. *)
From stdpp Require Import prelude gmap list.
From Stdlib Require Import NArith ZArith Lia.
From S2P Require Import Prelude Ids Table Frames FrameCensus Clock Epoch Miss MissMap Execute ReadSpans Driver PoolBackend Product ProductSafety Ledger LedgerCalm PoolCache PoolInv PoolControl PoolConfig PoolReads PoolRoute PoolReclaim PoolDemand PoolRetire PoolPrefetch PoolSpeculate PoolHints PoolBuild PoolSystem PoolSafety.

Open Scope N_scope.

Module PoolHintSafety.
Import Frames FrameCensus MissMap Execute Driver LedgerCalm.LedgerCalm PoolBackend.PoolBackend PoolCache PoolInv PoolControl PoolConfig.PoolConfig PoolReads PoolRoute PoolReclaim PoolDemand PoolRetire PoolPrefetch PoolSpeculate PoolHints PoolBuild PoolSystem PoolSafety.

Section hints.
Context {B R : Type} `{!PoolBackend B} `{!Retainer R} {identity capacity : N} {cfg : PoolBuilder}.
Context `{!BackendLaws B identity (granule cfg) (frame_count cfg) capacity (registered_file_capacity cfg)}.
Context `{!RetainerLaws R (frame_count cfg) (registered_file_capacity cfg)}.
Implicit Types (s : sys B R) (p : Pool B R).
#[local] Abbreviation F := (frame_count cfg).
#[local] Abbreviation g := (granule cfg).
#[local] Abbreviation fcap := (registered_file_capacity cfg).
#[local] Abbreviation reads := (max_inflight_reads cfg).
#[local] Abbreviation enabled := (enabled (B := B) (R := R) (identity := identity) (fcap := fcap)).
#[local] Abbreviation cost := (cost (F := F) (capacity := capacity) (fcap := fcap)).
#[local] Abbreviation reachable := (reachable (B := B) (R := R) (identity := identity) (capacity := capacity) (cfg := cfg)).
#[local] Abbreviation budget := (budget (cfg := cfg)).
#[local] Abbreviation pool_inv a := (PoolReclaim.pool_inv (identity := identity) (g := g) (F := F) (capacity := capacity) (fcap := fcap) (a := a) (reads := reads) (slots := reads)).

(** A hint on a reachable pool. *)
Lemma hint_reachable n s pages :
  reachable n s → enabled (Prefetch pages) s → n + cost (Prefetch pages) ≤ budget →
  ∃ p report a k Q M V G A Q' M' V' A',
    prefetch_hint identity g reads (pool s) pages = Done (p, report) ∧
    pool_inv a k Q M V (tokens s) G A (leased s) (guards s) (pool s) ∧
    pool_inv a k Q' M' V' (tokens s) G A' (leased s) (guards s) p ∧ counted report 0 ∧ rp_requested report = vlen pages ∧
    rp_rejected report = vlen (stale_pages (pool s) (take (N.to_nat (Ledger.request_limit (prefetch (cache (pool s))))) pages)) ∧
    ∀ page f, M !! page = Some f → ¬ unused_prediction (clock (cache (pool s))) f → M' !! page = Some f ∧ ¬ speculates (prefetch (cache p)) f.
Proof.
  intros Hr [Hown Hlen] Hle. destruct (pool_reachable_inv n s Hr) as [(G1 & G2 & G3) (a & Q & M & V & G & A & Hp)].
  apply (pool_le _ (cost (Prefetch pages) + (budget - n - cost (Prefetch pages)))) in Hp; [|lia]. simpl in Hp.
  destruct (hint_pool G1 G2 G3 _ _ _ _ _ _ _ _ _ _ _ Hp Hown Hlen) as (p & report & Q' & M' & V' & A' & He & Hp' & _ & Hc & Hq & Hj & Hs).
  exists p, report, a, (budget - n - cost (Prefetch pages)), Q, M, V, G, A, Q', M', V', A'. split_and!; try done. eapply pool_le; [exact Hp|simpl; lia].
Qed.

Lemma mapped_spec n Q M V tks G A leases gs p a page f :
  pool_inv a n Q M V tks G A leases gs p → (PageTable.lookup (table (cache p)) page = Done (Some f) ↔ M !! page = Some f).
Proof.
  intros [[H1 _ _ _ _ _ _ _ _] _ _ _ _]. destruct (ci_table _ _ _ _ _ _ _ _ _ H1) as (T1 & T2 & _). rewrite (PageTable.lookup_ok _ _ page T1 T2).
  split; [by intros [= ?]|by intros ->].
Qed.

(** The markers of frames that are no prediction, or a touched one. *)
Lemma used_prediction c f :
  Clock.is_speculative c f = Done false ∨ Clock.speculation_consumed c f = Done true → ¬ unused_prediction c f.
Proof.
  unfold unused_prediction, Clock.is_speculative, Clock.speculation_consumed, Clock.checked_index.
  intros [H|H] Hm; inv_done; simplify_eq/=; done.
Qed.

Lemma demanded_spec n Q M V tks G A leases gs p a page f :
  pool_inv a n Q M V tks G A leases gs p →
  (PageTable.lookup (table (cache p)) page = Done (Some f) ∧ Clock.is_speculative (clock (cache p)) f = Done false ↔
   M !! page = Some f ∧ ¬ speculates (prefetch (cache p)) f).
Proof.
  intros [[H1 _ _ _ _ _ _ _ _] _ _ _ _]. destruct (ci_table _ _ _ _ _ _ _ _ _ H1) as (T1 & T2 & _). rewrite (PageTable.lookup_ok _ _ page T1 T2).
  assert (M !! page = Some f → ∃ b, Clock.is_speculative (clock (cache p)) f = Done b ∧ (b = true ↔ speculates (prefetch (cache p)) f)) as Hsp.
  { intros Hm. apply (speculative_good _ _ _ _ f (ci_ledger _ _ _ _ _ _ _ _ _ H1)). eapply in_state_lt; [apply H1|by eapply mapped_state]. }
  split.
  - intros [[= Hm] Hc]. destruct (Hsp Hm) as (b & Hb & Hiff). rewrite Hc in Hb. injection Hb as <-. split; [done|]. by intros ?%Hiff.
  - intros [Hm Hno]. destruct (Hsp Hm) as ([] & Hb & Hiff); [by destruct Hno; apply Hiff|]. by rewrite Hm.
Qed.

(** C12 (The report of a hint is exact).  A hint returns.  Of the pages asked for, each is
    counted once, as resident, pending, admitted, deferred or rejected; the rejected ones
    are exactly those, among the pages within the limit of a request, whose file is not
    live. *)
Theorem hint_report_exact n s pages :
  reachable n s → enabled (Prefetch pages) s → n + cost (Prefetch pages) ≤ budget →
  ∃ p report, prefetch_hint identity g reads (pool s) pages = Done (p, report) ∧ rp_requested report = vlen pages ∧
    rp_resident report + rp_pending report + rp_admitted report + rp_deferred report + rp_rejected report = vlen pages ∧
    rp_rejected report = vlen (filter (λ page : PageId, Product.live_handle (product (pool s)) (pg_file page) = None)
      (take (N.to_nat (Ledger.request_limit (prefetch (cache (pool s))))) pages)).
Proof.
  intros Hr He Hle. destruct (hint_reachable n s pages Hr He Hle) as (p & report & a & k & Q & M & V & G & A & Q' & M' & V' & A' & Hx & _ & _ & [Hc _] & Hq & Hj & _).
  exists p, report. split_and!; try done. lia.
Qed.

(** C13 (A hint unmaps only unused predictions).  Let a page be mapped before a hint, in a
    frame that holds no prediction or one that a reader has already touched.  Then after
    the hint the page is mapped to the same frame, which is no prediction any more: hints
    make room at the expense of predictions that nobody has used. *)
Theorem hint_spares_demanded n s pages p report page f :
  reachable n s → enabled (Prefetch pages) s → n + cost (Prefetch pages) ≤ budget →
  prefetch_hint identity g reads (pool s) pages = Done (p, report) →
  PageTable.lookup (table (cache (pool s))) page = Done (Some f) →
  Clock.is_speculative (clock (cache (pool s))) f = Done false ∨ Clock.speculation_consumed (clock (cache (pool s))) f = Done true →
  PageTable.lookup (table (cache p)) page = Done (Some f) ∧ Clock.is_speculative (clock (cache p)) f = Done false.
Proof.
  intros Hr He Hle Hx Hl Hs. destruct (hint_reachable n s pages Hr He Hle) as (p' & r' & a & k & Q & M & V & G & A & Q' & M' & V' & A' & Hx' & Hp & Hp' & _ & _ & _ & Hsp).
  rewrite Hx in Hx'. injection Hx' as <- <-. apply (demanded_spec _ _ _ _ _ _ _ _ _ _ _ _ _ Hp'). apply Hsp; [|by apply used_prediction].
  by apply (mapped_spec _ _ _ _ _ _ _ _ _ _ _ page f Hp).
Qed.
End hints.
End PoolHintSafety.

(** ** Witnesses, on a pool of six frames with two speculative credits *)
Module PoolHintWitness.
Import Frames FrameCensus Execute Driver PoolBackend.PoolBackend PoolBackend.OneSlot PoolCache PoolControl PoolConfig.PoolConfig PoolReads PoolReclaim PoolDemand PoolPrefetch PoolHints PoolBuild PoolSystem PoolSafety PoolHintSafety.

Definition cfg : PoolBuilder := mkBuilder 6 4096 1 1 1 3 0 1 2 1 (Some 2) Ledger.ReadaheadDisabled.

Definition arena : Frames :=
  match Frames.try_preallocated U64_MAX 1 6 4096 with Done (Some h) => h | _ => mkFrames [] [] 0 0 0 end.

#[local] Abbreviation exec := (exec (B := one_slot) (R := unit) (identity := 7) (g := 4096) (F := 6) (reads := 1)).
#[local] Abbreviation enabled := (enabled (B := one_slot) (R := unit) (identity := 7) (fcap := 1)).
#[local] Abbreviation reachable := (reachable (B := one_slot) (R := unit) (identity := 7) (capacity := 1) (cfg := cfg)).
#[local] Abbreviation cost := (cost (F := 6) (capacity := 1) (fcap := 1)).

Definition start : option (sys one_slot unit) :=
  match try_preallocated cfg one_slot_new 1 arena tt with Done (Some p) => Some (mkSys p [] [] []) | _ => None end.

Definition after (k : call) (o : option (sys one_slot unit)) : option (sys one_slot unit) :=
  match o with Some s => match exec k s with Done s' => Some s' | Panic => None end | None => None end.

Definition file : FileId := mkFileId 7 0 0.
Definition page : PageId := mkPageId file 3.

(** The page that is resident, two pages that are not, and one of a file that is not live. *)
Definition hinted : list PageId := [page; mkPageId file 7; mkPageId file 9; mkPageId (mkFileId 7 0 9) 1].

#[local] Abbreviation opened := (after RegisterReader (after OpenFile start)).
#[local] Abbreviation landed := (after Drain (after (GetLocked 0 page) opened)).

Ltac compute_state H := vm_compute in H; injection H as <-.

Lemma hint_start_reachable s : start = Some s → reachable 0 s.
Proof.
  intros Hs. split; [vm_compute; discriminate|]. exists s. split; [|constructor].
  exists U64_MAX, 1, one_slot_new, tt, arena. unfold start in Hs.
  destruct (try_preallocated cfg one_slot_new 1 arena tt) as [[p|]|] eqn:E; [|done..]. injection Hs as <-. exists p.
  split_and!; try done; try (vm_compute; discriminate).
Qed.

Lemma hint_after_reachable n k o s m : after k o = Some s → (∀ s0, o = Some s0 → reachable n s0 ∧ enabled k s0) → m = n + cost k → m ≤ 1000 → reachable m s.
Proof.
  intros Ha Ho -> Hn. destruct o as [s0|]; [|done]. simpl in Ha. destruct (exec k s0) as [s1|] eqn:E; [|done]. injection Ha as ->.
  destruct (Ho s0 eq_refl) as [(_ & s00 & Hi & Hrun) He]. split; [|exists s00; split; [done|by eapply run_call]].
  etrans; [exact Hn|]. vm_compute. discriminate.
Qed.

Lemma hint_get_enabled s : opened = Some s → enabled (GetLocked 0 page) s.
Proof.
  intros Hs. compute_state Hs. split; [|split_and!; try done; vm_compute; discriminate].
  eexists. split_and!; [reflexivity|done|vm_compute; discriminate].
Qed.

Lemma hint_landed_reachable s : landed = Some s → reachable 73 s.
Proof.
  intros Hs. apply (hint_after_reachable 41 Drain _ _ 73 Hs); [|done|done]. intros s1 Hs1. split; [|done].
  apply (hint_after_reachable 1 (GetLocked 0 page) _ _ 41 Hs1); [|done|done]. intros s2 Hs2. split; [|by apply hint_get_enabled].
  apply (hint_after_reachable 0 RegisterReader _ _ 1 Hs2); [|done|done]. intros s3 Hs3. split; [|done].
  apply (hint_after_reachable 0 OpenFile _ _ 0 Hs3); [|done|done]. intros s4 Hs4. split; [by apply hint_start_reachable|done].
Qed.

Lemma hinted_enabled s : enabled (Prefetch hinted) s.
Proof.
  split; [|vm_compute; discriminate]. intros q Hq. unfold hinted in Hq. rewrite !elem_of_cons in Hq.
  destruct Hq as [->|[->|[->|[->|[]%elem_of_nil]]]]; (split; [done|vm_compute; discriminate]).
Qed.

(** One page is resident, one admitted, one deferred for want of a read, one rejected. *)
Lemma hint_report_exact_witness : ∃ s p report, landed = Some s ∧ prefetch_hint 7 4096 1 (pool s) hinted = Done (p, report) ∧
  rp_resident report + rp_pending report + rp_admitted report + rp_deferred report + rp_rejected report = 4 ∧ rp_rejected report = 1.
Proof.
  destruct landed as [s|] eqn:Hs; [|by vm_compute in Hs].
  destruct (hint_report_exact 73 s hinted (hint_landed_reachable s Hs) (hinted_enabled s)) as (p & report & Hx & _ & Hsum & Hrej); [vm_compute; discriminate|].
  exists s, p, report. split_and!; [done|exact Hx|exact Hsum|]. rewrite Hrej. compute_state Hs. by vm_compute.
Defined.

(** The page is predicted, lands, and a reader pins it: its prediction is used up. *)
#[local] Abbreviation predicted := (after Drain (after (Prefetch [page]) opened)).
#[local] Abbreviation touched := (after (GetWarm 0 page) predicted).

(** Two other pages; there is credit for two predictions and room for one read. *)
Definition others : list PageId := [mkPageId file 7; mkPageId file 9].

Lemma page_enabled s : enabled (Prefetch [page]) s.
Proof. split; [|vm_compute; discriminate]. intros q ->%list_elem_of_singleton. split; [done|vm_compute; discriminate]. Qed.

Lemma others_enabled s : enabled (Prefetch others) s.
Proof.
  split; [|vm_compute; discriminate]. intros q Hq. unfold others in Hq. rewrite !elem_of_cons in Hq.
  destruct Hq as [->|[->|[]%elem_of_nil]]; (split; [done|vm_compute; discriminate]).
Qed.

Lemma hint_warm_enabled s : predicted = Some s → enabled (GetWarm 0 page) s.
Proof.
  intros Hs. compute_state Hs. split; [|split_and!; try done; vm_compute; discriminate].
  eexists. split_and!; [reflexivity|done|vm_compute; discriminate].
Qed.

Lemma hint_touched_reachable s : touched = Some s → reachable 45 s.
Proof.
  intros Hs. apply (hint_after_reachable 45 (GetWarm 0 page) _ _ 45 Hs); [|done|done]. intros s1 Hs1. split; [|by apply hint_warm_enabled].
  apply (hint_after_reachable 13 Drain _ _ 45 Hs1); [|done|done]. intros s2 Hs2. split; [|done].
  apply (hint_after_reachable 1 (Prefetch [page]) _ _ 13 Hs2); [|done|done]. intros s3 Hs3. split; [|apply page_enabled].
  apply (hint_after_reachable 0 RegisterReader _ _ 1 Hs3); [|done|done]. intros s4 Hs4. split; [|done].
  apply (hint_after_reachable 0 OpenFile _ _ 0 Hs4); [|done|done]. intros s5 Hs5. split; [by apply hint_start_reachable|done].
Qed.

Lemma touched_used s : touched = Some s →
  PageTable.lookup (table (cache (pool s))) page = Done (Some 1) ∧ Clock.is_speculative (clock (cache (pool s))) 1 = Done true ∧
  Clock.speculation_consumed (clock (cache (pool s))) 1 = Done true.
Proof. intros Hs. compute_state Hs. by vm_compute. Qed.

Lemma hint_spares_demanded_witness : ∃ s p report, touched = Some s ∧ prefetch_hint 7 4096 1 (pool s) others = Done (p, report) ∧
  Clock.is_speculative (clock (cache (pool s))) 1 = Done true ∧ PageTable.lookup (table (cache p)) page = Done (Some 1).
Proof.
  destruct touched as [s|] eqn:Hs; [|by vm_compute in Hs]. destruct (prefetch_hint 7 4096 1 (pool s) others) as [[p report]|] eqn:Hx; [|compute_state Hs; vm_compute in Hx; discriminate Hx].
  exists s, p, report. destruct (touched_used s Hs) as (Hl & Hm & Hu). split_and!; [done|done|exact Hm|].
  apply (hint_spares_demanded 45 s others p report page 1 (hint_touched_reachable s Hs) (others_enabled s)); [vm_compute; discriminate|exact Hx|exact Hl|by right].
Defined.
End PoolHintWitness.
